(* ===== verification/_CoqProject ===== *)
-Q . S2P
Prelude.v
Labgob.v
Rpc.v
KvSrv.v
KvModel.v
KvClerk.v
Dispatch.v
Demux.v
Labrpc.v
Forward.v
Lock.v
KvTest.v
Persister.v
TestGroup.v
TestGroups.v
Annotation.v
Config.v
Porcupine.v
KvHarness.v
Daemon.v
Raft.v
RaftNode.v
Quorum.v
RaftSpec.v
RaftCluster.v
RaftRefine.v
RaftApply.v
RaftSafety.v
RaftNext.v
RaftElect.v
RaftProgress.v
RaftStall.v
RaftTester.v
RaftAgree.v
Rsm.v
Replicated.v
RsmTester.v
KvRaft.v
ShardCfg.v
ShardGrp.v
ReplicatedKv.v
Migration.v
ShardCtrler.v
ShardTest.v
Reshard.v
ReshardSafety.v
ShardScenarios.v
ShardRecovery.v
ShardClient.v
MrWorker.v
MrCoord.v
MrApps.v
MrTestApps.v
MrTest.v
MrTiming.v
