(* ===== verification/Prelude.v ===== *)
(** * Verification of the distributed systems labs

    The program (src/src, Go) is a family of systems built on one another:
    MapReduce; a versioned key/value server with a lock on top of it; Raft; a
    replicated state machine over Raft; a replicated key/value service over
    that; and a sharded, replicated key/value service whose configurations a
    controller changes while clients read and write.  labrpc is the lossy
    network between all processes; a tester starts, partitions and restarts
    servers, checks what they do, and reaches them over sockets.

    This development models these systems as executable definitions, one
    definition per function, handler or goroutine step of the source, and
    proves what makes them correct.

    ** How the Go code is modelled

    - A handler that runs under a mutex is one function from the old to the
      new state and the reply.  A method that releases its mutex is split at
      that point; the file of the component says where.
    - A run-time panic or a log.Fatalf is [None] in the option monad.
    - [int] is [Z]; [uint32], [uint64] and [int64] arithmetic wraps ([u32],
      [u64], [i64]).  Slices are lists with checked indices ([get], [put],
      [from]); maps are [gmap]; byte slices are lists of [Z].
    - Time and random numbers are arguments of the steps that read them.
    - encoding/gob and encoding/json are interfaces ([Gob] and [Json] in this
      file, [ConfigJson] in ShardCfg.v, [KeyValueJson] in MrWorker.v) with the
      laws the program relies on, read back what was written; for the records
      of MapReduce, whose strings come from the input, only when they are
      valid UTF-8.  The same files have instances that satisfy the laws.
    - Goroutines and processes are interleaved step by step: executable runs
      over lists of labels or events (RaftCluster, Replicated, RaftTester,
      Labrpc, Demux, Forward, KvTest, Porcupine, KvHarness, RsmTester, ShardCtrler,
      ShardTest, MrCoord, MrTiming, Rsm, Migration) or a step relation (Lock).

    ** Files

    - Prelude: panics, record update, slices, machine integers, hashing, the
      codec interface, list lemmas, tactics.
    - Labgob (labgob/labgob.go): the checks of types and replies; checkType
      terminates on recursive types and finds every lower-case field.
    - Rpc (kvsrv1/rpc/rpc.go): error codes, arguments and replies.
    - KvSrv (kvsrv1/server.go): Get and Put on the versioned store.
    - KvModel (models1/kv.go): the repository's own specification; the server
      refines it.
    - KvClerk (kvsrv1/client.go): the retry loops; the clerk's Put is
      linearizable when the network runs each request at most once.
    - Dispatch (labrpc/labrpc.go): services and methods; an RPC is a call of
      the method it names.
    - Demux (tester1/demux, tester1/sockrpc): framing, call map and the two
      ends of a connection, with a goroutine per request whose steps
      interleave with everything else the server does; what was written is
      read, replies reach their callers, no call hangs.
    - Labrpc (labrpc/labrpc.go): the network, call by call; it runs each
      request at most once, which is what KvClerk assumes.
    - Forward (tester1/testsrv.go, daemonsrv.go, daemonclnt.go, labrpc.go): a
      call from one server process to another, over two sockets and the
      network in between, is served by at most one goroutine of one process
      and returns its reply; with handlers under a lock it is a method call.
    - Lock (kvsrv1/lock/lock.go): Acquire and Release of any number of
      clients; mutual exclusion.
    - KvTest (kvtest1/kvtest.go): the test clients that append and overwrite,
      and the checks of their results, which pass for every interleaving.
    - Persister (tester1/persister.go): stable storage.
    - TestGroup, TestGroups (tester1/group.go, srv.go, clnts.go): servers,
      groups and clients of a test on the network of Labrpc; partitions,
      restarts, clean-up.
    - Annotation (tester1/annotation.go, annotator.go): the annotations of a
      test; the one for faults describes the current state of the servers.
    - Config (tester1/config.go): a test as a whole, from make_config to its
      clean-up, which leaves nothing behind when the daemons answer.
    - Porcupine (kvtest1/porcupine.go, kvsrv1/client.go): the log of the
      operations of concurrent clients, whose clerks send again and whose
      requests may run late, and its check, which they pass.
    - KvHarness (kvtest1/kvtest.go, kvraft1/test.go, kvsrv1/test.go): clerks,
      keys, partitions and client goroutines of the key/value tests.
    - Daemon (tester1/daemonclnt.go, daemonsrv.go): command line and storage
      of the server processes.
    - Raft (raft1/raft.go): every handler and goroutine body of one peer.
    - RaftNode: what single handlers do, branch by branch.
    - Quorum: intersection of majorities.
    - RaftSpec: Raft as an abstract protocol with its invariant.
    - RaftCluster: the peers of Raft.v with their goroutines, a network that
      loses, repeats and reorders, and crashes.
    - RaftRefine: every step of the cluster is simulated by the protocol.
    - RaftApply: what one step hands out on the apply channels, and the
      history of all of it.
    - RaftSafety: election safety, log matching, leader completeness, state
      machine safety and crash recovery of the cluster of Go handlers, and the
      well-formedness of every peer.
    - RaftNext: a leader's nextIndex never leaves its log.
    - RaftElect: from every reachable state every majority can elect a leader.
    - RaftProgress: and then bring its members up to date, commit a new
      command and hand it out at all of them, without any other peer.
    - RaftStall: a delayed refusal after which a follower gets nothing more.
    - RaftTester (raft1/server.go, test.go, proxy.go): the test servers and
      the tester's checks over the cluster; no check ever fails.
    - RaftAgree (raft1/test.go): one and wait; what they return was agreed on.
    - Rsm (kvraft1/rsm/rsm.go, rsm/server.go): reader, Submit, snapshots, over
      any state machine (class [StateMachine], laws [StateMachineLaws]).
    - Replicated: n replicas of Rsm on the n peers of the Raft cluster; all
      of them execute one log, and Submit is linearizable.
    - RsmTester (rsm/test.go, proxy.go, server.go): the counter service and
      its tester over Replicated; as long as no Dec commits, each Inc answers
      with its position.
    - KvRaft (kvraft1/server.go, client.go): the key/value service as an
      instance of that class, and its clerk.
    - ShardCfg (shardkv1/shardcfg/shardcfg.go): configurations; rebalancing
      terminates and balances.
    - ShardGrp (shardkv1/shardgrp/server.go, shardrpc.go): the state machine
      of a replica group.
    - ReplicatedKv: Replicated with the two services: a kvraft cluster is one
      KvSrv, the servers of a shard group stay in bounds.
    - Migration: the order in which the operations of a move must reach the
      groups, as an abstract protocol for one shard with its invariant.
    - ShardCtrler (shardkv1/shardctrler/shardctrler.go): controllers as
      programs over remote operations, run together.
    - ShardTest (shardkv1/test.go): joins and leaves, and runs of any number
      of controllers with lost answers, late requests and writing clients.
    - Reshard: such a run as a history of configurations with one migration
      per shard; what the controllers may send at each point.
    - ReshardSafety: the runs keep to the protocol of Migration; the sharded
      service is one store of KvSrv, one group at a time accepts the writes of
      a shard, and a settled configuration serves every shard.
    - ShardScenarios (shardkv1/test.go): groups that come and go, the checks
      of the test driver, and a group that is shut down.
    - ShardRecovery (shardkv1/test.go, partitionCtrler): from every state of
      every run, a controller that then runs alone settles the service.
    - ShardClient (shardkv1/shardgrp/client.go, shardkv1/client.go): the group
      clerk and the sharded client over an abstract network ([GrpNet]).
    - MrWorker (mr/worker.go, mr/rpc.go, main/mrsequential.go): map and reduce
      tasks; all reduce tasks together print what the sequential program
      prints.
    - MrCoord (mr/coordinator.go): the coordinator, its workers and their
      files, with crashes and time-outs.
    - MrApps (mrapps/wc.go, mrapps/indexer.go): word count and index.
    - MrTestApps (mrapps/crash.go, nocrash.go, early_exit.go): jobs whose
      workers crash.
    - MrTest (mr/util.go, main/mrcoordinator.go): the test driver with its
      files and commands; the tests that compare a job with mrsequential pass
      whatever the workers do.
    - MrTiming (mrapps/mtiming.go, rtiming.go, jobcount.go): applications that
      count workers and tasks; the counts are right in every interleaving.

    ** How the parts meet

    Labrpc's at-most-once theorem is the hypothesis of KvClerk's
    linearizability, whose conclusion is the clerk that Lock and ShardCtrler
    use.  RaftSafety gives every peer the same committed log; RaftApply turns
    this into a statement about the apply channels (RaftProgress uses both,
    with the invariant of RaftNext), which Replicated (the
    replicated state machine of Rsm on every peer) and RaftTester (the test
    servers) build on.  Rsm's class [StateMachine] is what KvRaft and ShardGrp
    implement and ReplicatedKv instantiates; RsmTester drives Replicated through
    the proxies.  ShardGrp's record operations are what Migration and
    ShardCtrler call, and ReshardSafety shows that the runs of ShardTest are
    migrations of Migration, one per shard; ShardRecovery joins that invariant
    to the runs of a single controller in ShardScenarios.  Porcupine puts the
    clerks' loops, on a network that runs each request at most once, under the
    model of KvModel.  Dispatch is the server side of both networks, Labrpc
    and Demux, and Forward composes the three; TestGroup drives Labrpc, Config owns TestGroup's groups and
    clients, KvHarness partitions them.  MrTest runs the jobs of MrCoord, with
    the applications of MrApps as its parameters.

    ** Fuel

    Loops that the source bounds are written with their bound: the scans of
    AppendEntries and backupNextIndex by the distance to the snapshot, the
    moves of Rebalance by the sum of squares of the loads (each move lowers
    it, so the loop ends before its fuel does), the grouping loops of
    MapReduce by the length of the list, retry by its 100 attempts.  Endless
    retry loops (clerks, controllers) take a number of rounds as fuel or a
    list of events: safety theorems hold for every amount, and liveness
    theorems say how much is enough.

    ** Bounds and conditions

    Where a counter of the code could wrap, the theorem says how long the run
    may be: fewer than 2^64 - 1 events for the versions of ReshardSafety and
    2^64 for those of Porcupine, fewer than 2^32 - 2 events for the tags of
    Demux, fewer than 2^63 - 1 steps and no restart of a server for the
    operation numbers of RsmTester and of the answers in ReplicatedKv.

    ReshardSafety has the two reads of a recovery as two steps.  With a change
    between them the code can lose data ([stale_recovery_loses_data]), so its
    theorems are about the runs in which, when a recovery makes its second
    read, the pending configuration is at most one ahead of the current one
    that it read first ([timely_recoveries]); it admits the configurations
    that join and leave can make, and ShardRecovery asks besides that the
    groups that the configurations name exist.  In ShardScenarios no more
    groups join than there are shards, as in the tests.

    KvClerk and Porcupine take a network that runs each request at most once,
    which Labrpc shows; Porcupine's clients put with versions that their keys
    have had, since a late request for a version yet to come can write after
    its clerk has returned ([late_copy_of_a_guess]).  KvRaft's clerk may be
    answered with the result of another operation by a server that restarted
    ([rsm_answers_previous_life]); its linearizability is for the runs in
    which this does not happen ([own_answers]).

    The clean-up of Config ends the test when a daemon does not answer its
    control RPCs, and loses track of a group that is made twice; the theorem
    says exactly when it succeeds.  RaftProgress asks for at least two peers
    ([single_peer_never_leads]) and is about schedules that exist: in the
    schedule no peer outside the majority acts, and nothing is lost.  The jobs
    of MrCoord and MrTest have an application whose Reduce does not depend on
    the order of its values and whose Map emits valid UTF-8, since the
    intermediate files are JSON, which replaces other bytes; MrTest's have an
    input file.  MrTiming takes pids that fit an int.

    ** Flaws that the proofs exposed

    Besides correctness the development states, as theorems about concrete
    runs, the places where the code does not do what it means to:
    [single_peer_never_leads], [rsm_answers_previous_life],
    [stale_recovery_loses_data], [sharded_Put_wrong_ErrVersion],
    [frozen_group_reads_stale], [kvsrv_ErrNoKey_not_in_KvModel],
    [advanceCommitIndex_half_of_four], [MakePartition_even_overlaps],
    [delayed_refusal_stalls], [ConnectTo_keeps_other_ends], [checker_begin_is_kept] and
    [ending_nothing_records_an_interval].

    ** Not modelled

    Starting and killing processes (an event where a model needs it), dialling
    and listening on sockets, loading plugins, the signal handler and the
    drawing of annotations, the byte statistics of labrpc, memory sizes of
    processes, and the remaining programs under main/, which parse arguments
    and start servers, are I/O without logic of their own.  The commands
    find, sort and cmp of mr/util.go are external and parameters of MrTest
    (class [Shell]).  Real time is not modelled: a time-out or a timer is an
    event that can happen at any moment, so that RaftProgress shows that
    progress is always possible, not how soon randomized timers bring it
    about; and the sharded client of ShardClient is verified against an
    abstract network, since over the runs of ShardTest the flaws above
    (ErrVersion, reads at a frozen group) limit what its callers can be
    promised. *)

From stdpp Require Export prelude list gmap strings sorting.
From Stdlib Require Export ZArith Lia.
From Stdlib Require Import Ascii.

#[global] Open Scope Z_scope.

(** ** Run-time panics

    A Go statement that can panic (an index out of range, an explicit
    [panic], a [log.Fatalf]) is modelled in the option monad of stdpp:
    [None] is the panic, [Some x] the normal outcome.  Go code that
    branches returns [Some] on every early [return]. *)

(** ** Record update

    [r <| f := v |>] is the record [r] with field [f] set to [v], the
    model of the Go assignment [r.f = v].  An instance is obtained from
    the eta-expansion of the record by abstracting the projection. *)
Class Setter {R T : Type} (proj : R -> T) : Type := set_field : T -> R -> R.

Declare Scope record_scope.
#[global] Open Scope record_scope.
Notation "r <| f := v |>" := (set_field (proj := f) v r)
  (at level 12, left associativity, f at level 9, v at level 99,
   format "r  <| f  :=  v |>") : record_scope.

Ltac solve_setter eta proj :=
  let t := eval cbv delta [eta] in eta in
  let t := eval pattern proj in t in
  lazymatch t with
  | ?F _ => let u := eval cbv beta in (fun v r => F (fun _ => v) r) in exact u
  end.

(** ** Go slices

    [get s i] is [s[i]], [put s i v] is [s[i] = v], [from s i] is [s[i:]];
    each is [None], a panic, when the index is out of range.  An index is a
    Go [int], so it may be negative. *)
Definition get {A} (s : list A) (i : Z) : option A :=
  if 0 <=? i then s !! Z.to_nat i else None.

Definition put {A} (s : list A) (i : Z) (v : A) : option (list A) :=
  if (0 <=? i) && (i <? Z.of_nat (length s)) then Some (<[Z.to_nat i := v]> s) else None.

Definition from {A} (s : list A) (i : Z) : option (list A) :=
  if (0 <=? i) && (i <=? Z.of_nat (length s)) then Some (drop (Z.to_nat i) s) else None.

(** [len s] is Go's [len(s)]. *)
Abbreviation len s := (Z.of_nat (length s)).

(** ** Machine integers

    [uint32], [uint64] and [int64] values are integers in range; each
    arithmetic operation of the source on such a type wraps its result. *)
Definition u32 (z : Z) : Z := z mod 2 ^ 32.
Definition u64 (z : Z) : Z := z mod 2 ^ 64.
Definition i64 (z : Z) : Z := (z + 2 ^ 63) mod 2 ^ 64 - 2 ^ 63.

Lemma u64_bound z : 0 <= u64 z < 2 ^ 64.
Proof. apply Z.mod_pos_bound. lia. Qed.

Lemma u64_small z : 0 <= z < 2 ^ 64 -> u64 z = z.
Proof. apply Z.mod_small. Qed.

Lemma u32_bound z : 0 <= u32 z < 2 ^ 32.
Proof. apply Z.mod_pos_bound. lia. Qed.

Lemma u32_small z : 0 <= z < 2 ^ 32 -> u32 z = z.
Proof. apply Z.mod_small. Qed.

Lemma i64_small z : - 2 ^ 63 <= z < 2 ^ 63 -> i64 z = z.
Proof. intros. unfold i64. rewrite Z.mod_small; lia. Qed.

(** The successor of a [uint64] is never the value itself, and it is larger
    unless it wraps to zero. *)
Lemma u64_succ_ne z : 0 <= z < 2 ^ 64 -> u64 (z + 1) <> z.
Proof.
  intros Hz. destruct (decide (z = 2 ^ 64 - 1)) as [->|]; [done|].
  rewrite u64_small; lia.
Qed.

(** ** Hashing

    hash/fnv's 32-bit FNV-1a hash of a byte string. *)
Definition fnv32a_step (h : Z) (b : Z) : Z := u32 (Z.lxor h b * 16777619).
Definition fnv32a (data : list Z) : Z := foldl fnv32a_step 2166136261 data.

Definition string_bytes (s : string) : list Z := map (fun a => Z.of_N (N_of_ascii a)) (String.list_ascii_of_string s).

Lemma fnv32a_bound data : 0 <= fnv32a data < 2 ^ 32.
Proof.
  unfold fnv32a. assert (forall h, 0 <= h < 2 ^ 32 -> 0 <= foldl fnv32a_step h data < 2 ^ 32) as H; [|apply H; lia].
  induction data as [|b data IH]; intros h Hh; [done|]. apply IH, u32_bound.
Qed.

(** ** Serialization with encoding/gob (through labgob)

    A buffer is a list of bytes.  [gob_enc] is what one [Encode] call
    appends to the buffer and [gob_dec] what one [Decode] call reads from
    it, with the rest of the buffer; [None] is a decoding error.  The laws
    are what the program relies on: a value is read back from the bytes its
    encoding starts with, an encoding is never empty, and decoding at the end
    of the input is an error. *)
Abbreviation bytes := (list Z) (only parsing).

Class Gob (A : Type) : Type := {
  gob_enc : A -> bytes;
  gob_dec : bytes -> option (A * bytes);
  gob_dec_enc : forall a rest, gob_dec (gob_enc a ++ rest) = Some (a, rest);
  gob_enc_nonempty : forall a, gob_enc a <> [];
  gob_dec_nil : gob_dec [] = None;
}.

Lemma gob_dec_enc_nil `{Gob A} (a : A) : gob_dec (gob_enc a) = Some (a, []).
Proof. rewrite <-(app_nil_r (gob_enc a)). apply gob_dec_enc. Qed.

(** A concrete codec for every countable type, which satisfies the laws: the
    bits of the code of the value, closed by a terminator. *)
Fixpoint pos_to_bytes (p : positive) : bytes :=
  match p with
  | xH => [2]
  | xO p => 0 :: pos_to_bytes p
  | xI p => 1 :: pos_to_bytes p
  end.

Fixpoint pos_of_bytes (b : bytes) : option (positive * bytes) :=
  match b with
  | [] => None
  | x :: b =>
      if x =? 2 then Some (xH, b)
      else '(p, r) ← pos_of_bytes b; Some (if x =? 0 then (xO p, r) else (xI p, r))
  end.

Lemma pos_of_to_bytes p rest : pos_of_bytes (pos_to_bytes p ++ rest) = Some (p, rest).
Proof. induction p as [p IH|p IH|]; simpl; rewrite ?IH; done. Qed.

#[export] Program Instance countable_gob `{Countable A} : Gob A | 100 := {
  gob_enc a := pos_to_bytes (encode a);
  gob_dec b := '(p, r) ← pos_of_bytes b; a ← decode p; Some (a, r);
}.
Next Obligation. intros. simpl. rewrite pos_of_to_bytes; simpl; by rewrite decode_encode. Qed.
Next Obligation. intros A ? ? a. simpl. by destruct (encode a). Qed.
Next Obligation. done. Qed.

(** encoding/json for the values clients store: what was written is read
    back. *)
Class Json (A : Type) : Type := {
  json_enc : A -> string;
  json_dec : string -> option A;
  json_dec_enc : forall a, json_dec (json_enc a) = Some a;
}.

(** Positive numbers as strings of binary digits. *)
Fixpoint pos_string (p : positive) : string :=
  match p with xH => "" | xO p => String "0" (pos_string p) | xI p => String "1" (pos_string p) end.
Fixpoint string_pos (s : string) : positive :=
  match s with "" => xH | String a s => if Ascii.eqb a "0" then xO (string_pos s) else xI (string_pos s) end.

Lemma string_pos_string p : string_pos (pos_string p) = p.
Proof. induction p as [p IH|p IH|]; simpl; by rewrite ?IH. Qed.

#[export] Program Instance countable_json `{Countable A} : Json A | 100 := {
  json_enc a := pos_string (encode a);
  json_dec s := decode (string_pos s);
}.
Next Obligation. intros. simpl. by rewrite string_pos_string, decode_encode. Qed.

(** ** Lists *)

Lemma get_Some {A} (s : list A) i x :
  get s i = Some x <-> 0 <= i /\ s !! Z.to_nat i = Some x.
Proof. unfold get. destruct (Z.leb_spec 0 i); naive_solver lia. Qed.

Lemma get_nat {A} (s : list A) (i : nat) : get s (Z.of_nat i) = s !! i.
Proof. unfold get. rewrite Nat2Z.id. by destruct (Z.leb_spec 0 (Z.of_nat i)); [|lia]. Qed.

Lemma get_is_Some {A} (s : list A) i :
  is_Some (get s i) <-> 0 <= i < len s.
Proof.
  unfold get. destruct (Z.leb_spec 0 i) as [Hi|Hi].
  - rewrite lookup_lt_is_Some. lia.
  - split; [intros [? ?]; done | lia].
Qed.

Lemma get_in_range {A} (s : list A) i : 0 <= i < len s -> exists x, get s i = Some x.
Proof. intros. by apply get_is_Some. Qed.

Lemma put_in_range {A} (s : list A) i v :
  0 <= i < len s -> put s i v = Some (<[Z.to_nat i := v]> s).
Proof.
  intros. unfold put. destruct (Z.leb_spec 0 i), (Z.ltb_spec i (len s)); simpl; auto; lia.
Qed.

Lemma from_in_range {A} (s : list A) i :
  0 <= i <= len s -> from s i = Some (drop (Z.to_nat i) s).
Proof.
  intros. unfold from. destruct (Z.leb_spec 0 i), (Z.leb_spec i (len s)); simpl; auto; lia.
Qed.

Lemma elem_of_concat {A} (x : A) ls : x ∈ concat ls <-> exists i l, ls !! i = Some l /\ x ∈ l.
Proof.
  induction ls as [|l ls IH]; simpl.
  - rewrite elem_of_nil. split; [done|]. intros (i & l & Hl & _). by rewrite lookup_nil in Hl.
  - rewrite elem_of_app, IH. split.
    + intros [Hx|(i & l' & Hi & Hx)]; [by exists 0%nat, l|by exists (S i), l'].
    + intros ([|i] & l' & Hi & Hx); simpl in Hi; [simplify_eq; auto|eauto].
Qed.

(** Lists whose elements carry the index of their list do not overlap. *)
Lemma NoDup_concat_tag {A} (tag : A -> nat) ls j :
  (forall i l, ls !! i = Some l -> NoDup l /\ forall x, x ∈ l -> tag x = (j + i)%nat) -> NoDup (concat ls).
Proof.
  revert j. induction ls as [|l ls IH]; intros j H; simpl; [constructor|].
  destruct (H 0%nat l eq_refl) as [Hn Ht]. apply NoDup_app. split_and!; [done| |].
  - intros x Hx (i & l' & Hi & Hx')%elem_of_concat. destruct (H (S i) l' Hi) as [_ Ht'].
    specialize (Ht x Hx). specialize (Ht' x Hx'). lia.
  - apply (IH (S j)). intros i l' Hi. destruct (H (S i) l' Hi) as [? Ht']. split; [done|]. intros x Hx. specialize (Ht' x Hx). lia.
Qed.

(** ** Automation shared by the components *)

Create HintDb labs.

(** Turn the boolean comparisons of the context into propositions. *)
Ltac zbool :=
  repeat match goal with
  | H : (_ && _)%bool = true |- _ => apply andb_prop in H; destruct H
  | H : (_ || _)%bool = false |- _ => apply orb_false_elim in H; destruct H
  | H : negb _ = true |- _ => apply negb_true_iff in H
  | H : negb _ = false |- _ => apply negb_false_iff in H
  | H : (_ =? _) = true |- _ => apply Z.eqb_eq in H
  | H : (_ =? _) = false |- _ => apply Z.eqb_neq in H
  | H : (_ <? _) = true |- _ => apply Z.ltb_lt in H
  | H : (_ <? _) = false |- _ => apply Z.ltb_ge in H
  | H : (_ <=? _) = true |- _ => apply Z.leb_le in H
  | H : (_ <=? _) = false |- _ => apply Z.leb_gt in H
  | H : (_ >? _) = true |- _ => rewrite Z.gtb_ltb in H
  | H : (_ >? _) = false |- _ => rewrite Z.gtb_ltb in H
  | H : (_ >=? _) = true |- _ => rewrite Z.geb_leb in H
  | H : (_ >=? _) = false |- _ => rewrite Z.geb_leb in H
  end.

(** Split a goal or a hypothesis along the branches of the handler it runs. *)
Ltac branch := repeat (case_match; simplify_eq/=); zbool.

(** Reduce the sequencing of the option monad, and nothing else. *)
Ltac obind := cbn [mbind option_bind mret option_ret negb fst snd].
