(* ===== verification/Labgob.v ===== *)
(** * Checks of the serializer (src/labgob/labgob.go)

    labgob wraps encoding/gob, whose contract is the class [Gob] of the
    prelude, and warns about two mistakes: struct fields that gob skips
    because their name is not capitalized, and decoding into a variable that
    is not zero.  The type checker walks the graph of a type, which may be
    cyclic, with a process-wide table of types it has seen. *)

From Stdlib Require Import Ascii.
From S2P Require Import Prelude.

(** ** Types and values, as reflect presents them *)

(** [reflect.Type] values are compared by identity; the environment gives the
    kind of each.  [KElem] covers Slice, Array and Ptr, [KOther] all kinds
    without components. *)
Inductive Kind : Type :=
| KStruct (fields : list (string * positive))
| KElem (elem : positive)
| KMap (key elem : positive)
| KOther.

#[warnings="-register-all"]
Inductive Value : Type :=
| VStruct (fields : list Value)
| VNil                               (* a nil pointer *)
| VPtr (target : Value)
| VBasic (zero : bool)               (* booleans, numbers and strings *)
| VOther.

(** The package's variables. *)
Record GobState : Type := MkGobState { checked : gset positive; errorCount : Z }.

Section Labgob.
(** The first rune of a field name is upper case; for names that do not start
    with an ASCII character this is the Unicode table. *)
Variable unicode_upper : string -> bool.
Variable types : gmap positive Kind.

Definition isUpper (name : string) : bool :=
  match name with
  | EmptyString => false
  | String c _ =>
      let n := N_of_ascii c in
      if (n <? 128)%N then (65 <=? n)%N && (n <=? 90)%N else unicode_upper name
  end.

(** [checked[t] = true] *)
Definition mark (st : GobState) (t : positive) : GobState := MkGobState ({[t]} ∪ checked st) (errorCount st).

Definition check_field_name (st : GobState) (name : string) : GobState :=
  if isUpper name then st else MkGobState (checked st) (errorCount st + 1).

(** [None] runs out of fuel. *)
Fixpoint checkType (fuel : nat) (st : GobState) (t : positive) : option GobState :=
  match fuel with
  | O => None
  | S fuel =>
      if bool_decide (t ∈ checked st) then Some st
      else
        let st := mark st t in
        match default KOther (types !! t) with
        | KStruct fields =>
            (fix loop (fields : list (string * positive)) st :=
               match fields with
               | [] => Some st
               | (name, ft) :: fields => st ← checkType fuel (check_field_name st name) ft; loop fields st
               end) fields st
        | KElem e => checkType fuel st e
        | KMap k e => st ← checkType fuel st e; checkType fuel st k
        | KOther => Some st
        end
  end.

Definition checkValue (fuel : nat) (st : GobState) (t : positive) : option GobState := checkType fuel st t.

(** The number of values that are reported, at most three levels deep. *)
Fixpoint checkDefault1 (v : Value) (depth : Z) : Z :=
  if depth >? 3 then 0
  else
    match v with
    | VStruct fields => (fix sum (l : list Value) := match l with [] => 0 | f :: l => checkDefault1 f (depth + 1) + sum l end) fields
    | VNil => 0
    | VPtr x => checkDefault1 x (depth + 1)
    | VBasic zero => if zero then 0 else 1
    | VOther => 0
    end.

Definition checkDefault (st : GobState) (v : option Value) : GobState :=
  match v with
  | None => st
  | Some v => MkGobState (checked st) (errorCount st + checkDefault1 v 1)
  end.

(** ** What the walk should find *)

Definition children (t : positive) : list positive :=
  match default KOther (types !! t) with
  | KStruct fields => fields.*2
  | KElem e => [e]
  | KMap k e => [k; e]
  | KOther => []
  end.

(** The lower-case fields of a type. *)
Definition bad_fields (t : positive) : Z :=
  match default KOther (types !! t) with
  | KStruct fields => len (filter (fun f => isUpper f.1 = false) fields)
  | _ => 0
  end.

Definition bad_in (s : gset positive) : Z := foldr (fun t n => bad_fields t + n) 0 (elements s).

Definition reaches : positive -> positive -> Prop := rtc (fun t u => u ∈ children t).
(** The walk went from [st] to [st'] through the types below [roots]: each
    new type is complete, below a root, and its lower-case fields have been
    counted once, besides [extra] others. *)
Record walked (st st' : GobState) (roots : list positive) (extra : Z) : Prop := {
  wk_grow : checked st ⊆ checked st';
  wk_roots : forall r, r ∈ roots -> r ∈ checked st';
  wk_closed : forall t u, t ∈ checked st' ∖ checked st -> u ∈ children t -> u ∈ checked st';
  wk_below : forall t, t ∈ checked st' ∖ checked st -> exists r, r ∈ roots /\ reaches r t;
  wk_count : errorCount st' = errorCount st + extra + bad_in (checked st' ∖ checked st);
}.

(** ** Counting *)

Lemma sum_perm (f : positive -> Z) l l' : l ≡ₚ l' -> foldr (fun t n => f t + n) 0 l = foldr (fun t n => f t + n) 0 l'.
Proof. induction 1; simpl; lia. Qed.

Lemma sum_app (f : positive -> Z) l l' :
  foldr (fun t n => f t + n) 0 (l ++ l') = foldr (fun t n => f t + n) 0 l + foldr (fun t n => f t + n) 0 l'.
Proof. induction l; simpl; lia. Qed.

Lemma bad_in_union (s s' : gset positive) : s ## s' -> bad_in (s ∪ s') = bad_in s + bad_in s'.
Proof. intros Hd. unfold bad_in. rewrite (sum_perm _ _ _ (elements_disj_union s s' Hd)). apply sum_app. Qed.

Lemma bad_in_singleton t : bad_in {[t]} = bad_fields t.
Proof. unfold bad_in. rewrite elements_singleton. simpl. lia. Qed.

Lemma bad_in_empty (s : gset positive) : s ≡ ∅ -> bad_in s = 0.
Proof. intros Hs%leibniz_equiv. unfold bad_in. by rewrite Hs, elements_empty. Qed.

Lemma bad_fields_nonneg t : 0 <= bad_fields t.
Proof. unfold bad_fields. destruct (default _ _); lia. Qed.

Lemma bad_in_zero (s : gset positive) : bad_in s = 0 <-> forall t, t ∈ s -> bad_fields t = 0.
Proof.
  unfold bad_in. setoid_rewrite <-(elem_of_elements (C := gset positive) s).
  assert (forall l : list positive, 0 <= foldr (fun t n => bad_fields t + n) 0 l /\
    (foldr (fun t n => bad_fields t + n) 0 l = 0 <-> forall t, t ∈ l -> bad_fields t = 0)) as H; [|apply H].
  induction l as [|t l [IH0 IH]]; simpl; [split; [lia|]; split; [|done]; intros _ t []%elem_of_nil|].
  pose proof (bad_fields_nonneg t). split; [lia|]. setoid_rewrite elem_of_cons. split.
  - intros Hz u [->|Hu]; [lia|]. apply IH; [lia|done].
  - intros Hall. rewrite (Hall t) by auto. rewrite (proj2 IH); [lia|]. auto.
Qed.

(** ** The walk *)

Lemma walked_refl st roots : (forall r, r ∈ roots -> r ∈ checked st) -> walked st st roots 0.
Proof.
  intros Hr. constructor; auto; [set_solver..|]. rewrite bad_in_empty by set_solver. lia.
Qed.

Lemma walked_trans st1 st2 st3 r1 r2 x y : walked st1 st2 r1 x -> walked st2 st3 r2 y -> walked st1 st3 (r1 ++ r2) (x + y).
Proof.
  intros [G1 R1 C1 B1 N1] [G2 R2 C2 B2 N2].
  assert (forall t, t ∈ checked st3 ∖ checked st1 -> t ∈ checked st2 ∖ checked st1 \/ t ∈ checked st3 ∖ checked st2) as Hsplit.
  { intros t Ht. destruct (decide (t ∈ checked st2)); set_solver. }
  constructor; [set_solver|set_solver|..].
  - intros t u [Ht|Ht]%Hsplit Hu; [apply G2; eauto|eauto].
  - intros t [Ht|Ht]%Hsplit; [destruct (B1 _ Ht) as (r & ? & ?)|destruct (B2 _ Ht) as (r & ? & ?)]; exists r; (split; [set_solver|done]).
  - rewrite N2, N1.
    assert (checked st3 ∖ checked st1 = (checked st2 ∖ checked st1) ∪ (checked st3 ∖ checked st2)) as ->.
    { apply set_eq. intros t. split; [intros Ht%Hsplit; set_solver|set_solver]. }
    rewrite bad_in_union by set_solver. lia.
Qed.

Lemma walked_name st st' name r x : walked (check_field_name st name) st' [r] x ->
  walked st st' [r] (x + if isUpper name then 0 else 1).
Proof.
  unfold check_field_name. destruct (isUpper name); [by rewrite Z.add_0_r|].
  intros [G R C B N]. constructor; auto. simpl in N. rewrite N. lia.
Qed.

(** Visiting a type that was new: the type itself and what is below it. *)
Lemma walked_new st st' t x : t ∉ checked st -> walked (mark st t) st' (children t) x -> x = bad_fields t -> walked st st' [t] 0.
Proof.
  intros Ht [G R C B N] ->. simpl in *.
  assert (checked st' ∖ checked st = {[t]} ∪ (checked st' ∖ ({[t]} ∪ checked st))) as Hset.
  { apply set_eq. intros u. destruct (decide (u = t)); set_solver. }
  constructor; [set_solver|set_solver|..].
  - intros u v Hu Hv. destruct (decide (u = t)) as [->|]; [by apply R|]. apply (C u); [set_solver|done].
  - intros u Hu. exists t. split; [set_solver|]. destruct (decide (u = t)) as [->|]; [apply rtc_refl|].
    destruct (B u) as (r & Hr & Hru); [set_solver|]. by eapply rtc_l.
  - rewrite Hset, bad_in_union, bad_in_singleton by set_solver. lia.
Qed.

(** A set of types that is closed under components bounds the walk. *)
Definition closed_types (U : gset positive) : Prop := forall t u, t ∈ U -> u ∈ children t -> u ∈ U.

Lemma unchecked_mark (U : gset positive) st t : t ∈ U -> t ∉ checked st ->
  (size (U ∖ checked (mark st t)) < size (U ∖ checked st))%nat.
Proof. intros HU Ht. apply subset_size. simpl. set_solver. Qed.

Lemma unchecked_mono (U : gset positive) st st' : checked st ⊆ checked st' -> (size (U ∖ checked st') <= size (U ∖ checked st))%nat.
Proof. intros Hs. apply subseteq_size. set_solver. Qed.

Lemma checkType_walks (U : gset positive) fuel st t : closed_types U -> t ∈ U -> (size (U ∖ checked st) < fuel)%nat ->
  exists st', checkType fuel st t = Some st' /\ walked st st' [t] 0.
Proof.
  intros HU. revert st t. induction fuel as [|fuel IH]; intros st t Ht Hf; [lia|]. cbn [checkType].
  case_bool_decide as Hc; [exists st; split; [done|]; apply walked_refl; set_solver|].
  pose proof (unchecked_mark U st t Ht Hc) as Hm.
  assert (forall u, u ∈ children t -> u ∈ U) as HtU by (intros u; by apply HU).
  pose proof (walked_new st) as Hnew. unfold children, bad_fields in HtU, Hnew. specialize (fun st' => Hnew st' t).
  destruct (default KOther (types !! t)) as [fields|e|k e|].
  - assert (forall fs st1, (size (U ∖ checked st1) < fuel)%nat -> (forall u, u ∈ fs.*2 -> u ∈ U) ->
      exists st', (fix loop (fields : list (string * positive)) st :=
               match fields with
               | [] => Some st
               | (name, ft) :: fields => st ← checkType fuel (check_field_name st name) ft; loop fields st
               end) fs st1 = Some st' /\ walked st1 st' fs.*2 (len (filter (fun f => isUpper f.1 = false) fs))) as Hloop.
    { induction fs as [|[name ft] fs IHfs]; intros st1 Hs1 Hin; [exists st1; split; [done|]; apply walked_refl; set_solver|].
      assert (checked (check_field_name st1 name) = checked st1) as Hck by (unfold check_field_name; by destruct (isUpper name)).
      destruct (IH (check_field_name st1 name) ft) as (st2 & -> & Hw); [apply Hin; set_solver|by rewrite Hck|].
      apply walked_name in Hw. pose proof (unchecked_mono U st1 st2 (wk_grow _ _ _ _ Hw)).
      destruct (IHfs st2) as (st3 & Heq & Hw3); [lia|intros u Hu; apply Hin; set_solver|]. cbn [mbind option_bind]. rewrite Heq.
      exists st3. split; [done|]. cbn [fmap list_fmap snd].
      replace (len (filter (fun f => isUpper f.1 = false) ((name, ft) :: fs))) with
        (0 + (if isUpper name then 0 else 1) + len (filter (fun f => isUpper f.1 = false) fs)).
      - by apply (walked_trans _ st2 _ [ft]).
      - rewrite filter_cons. cbn [fst]. case_decide as Hd; [rewrite Hd; cbn [length]; lia|]. by apply not_false_is_true in Hd as ->. }
    destruct (Hloop fields (mark st t)) as (st' & -> & Hw); [lia|done|]. exists st'. split; [done|]. by eapply Hnew.
  - destruct (IH (mark st t) e) as (st' & -> & Hw); [apply HtU; set_solver|lia|]. exists st'. split; [done|]. by eapply Hnew.
  - destruct (IH (mark st t) e) as (st1 & -> & Hw1); [apply HtU; set_solver|lia|]. cbn [mbind option_bind].
    pose proof (unchecked_mono U _ _ (wk_grow _ _ _ _ Hw1)).
    destruct (IH st1 k) as (st' & -> & Hw2); [apply HtU; set_solver|lia|]. exists st'. split; [done|].
    eapply Hnew; [done| |done]. pose proof (walked_trans _ _ _ _ _ _ _ Hw1 Hw2) as [G R C B N].
    constructor; auto; [intros r Hr; apply R; set_solver|]. intros u Hu. destruct (B u Hu) as (r & Hr & ?). exists r. split; [set_solver|done].
  - exists (mark st t). split; [done|]. eapply Hnew; [done| |done]. apply walked_refl. set_solver.
Qed.

(** The type check of labgob ends on every type, recursive
    ones included, as soon as the fuel exceeds the number of types below it;
    starting from an empty table it reports no error exactly when no struct
    reachable from the type has a lower-case field. *)
Theorem checkType_finds_lower_case (U : gset positive) fuel t :
  closed_types U -> t ∈ U -> (size U < fuel)%nat ->
  exists st, checkType fuel (MkGobState ∅ 0) t = Some st /\ (forall u, u ∈ checked st <-> reaches t u) /\
    (errorCount st = 0 <-> forall u, reaches t u -> bad_fields u = 0).
Proof.
  intros HU Ht Hf. destruct (checkType_walks U fuel (MkGobState ∅ 0) t HU Ht) as (st & Heq & [G R C B N]).
  { simpl. eapply Nat.le_lt_trans; [|exact Hf]. apply subseteq_size. set_solver. }
  exists st. split; [done|]. simpl in *.
  assert (forall u, u ∈ checked st <-> reaches t u) as Hreach.
  { intros u. split; [intros Hu; destruct (B u) as (r & Hr & ?); [set_solver|]; apply list_elem_of_singleton in Hr as ->; done|].
    intros Hr. assert (forall x, reaches x u -> x ∈ checked st -> u ∈ checked st) as Hstep; [|apply (Hstep t); [done|apply R; set_solver]].
    intros x Hx. induction Hx as [|x y z Hxy Hyz IH]; [done|]. intros Hin. apply IH; [done|].
    apply (C x); [set_solver|done]. }
  split; [done|]. replace (checked st ∖ ∅) with (checked st) in N by set_solver. rewrite N.
  replace (0 + 0 + bad_in (checked st)) with (bad_in (checked st)) by lia. rewrite bad_in_zero. naive_solver.
Qed.

End Labgob.

(** ** Witness: [type Node struct { Val int; next *Node }] *)

Definition node_types : gmap positive Kind :=
  {[ 1%positive := KStruct [("Val", 2%positive); ("next", 3%positive)]; 2%positive := KOther; 3%positive := KElem 1 ]}.

Lemma checkType_finds_lower_case_witness :
  exists st, checkType (fun _ => false) node_types 4 (MkGobState ∅ 0) 1 = Some st /\ errorCount st = 1 /\
    ~ (forall u, reaches node_types 1 u -> bad_fields (fun _ => false) node_types u = 0).
Proof.
  destruct (checkType_finds_lower_case (fun _ => false) node_types {[1%positive; 2%positive; 3%positive]} 4 1) as (st & Hst & _ & Hiff).
  - intros t u Ht. rewrite !elem_of_union, !elem_of_singleton in Ht. destruct Ht as [[->| ->]| ->]; vm_compute; set_solver.
  - set_solver.
  - vm_compute. lia.
  - exists st. split; [exact Hst|]. vm_compute in Hst. injection Hst as <-. split; [reflexivity|].
    intros Hall. apply Hiff in Hall. discriminate.
Defined.

(** Decoding into a fresh reply structure is not reported; into one that holds
    an old error string it is. *)
Example checkDefault_fresh_and_reused :
  checkDefault1 (VPtr (VStruct [VBasic true; VBasic true])) 1 = 0 /\ checkDefault1 (VPtr (VStruct [VBasic false; VBasic true])) 1 = 1.
Proof. done. Qed.
