(* ===== verification/Rpc.v ===== *)
(** * The RPC vocabulary of the key/value services (src/kvsrv1/rpc/rpc.go)

    The error codes, the version type and the argument and reply structures
    shared by kvsrv1, kvraft1 and shardkv1. *)

From S2P Require Import Prelude.

(** [type Err string]: the six constants of rpc.go, and the empty string, the
    zero value a reply structure starts with. *)
Inductive Err : Type :=
| ErrEmpty
| OK
| ErrNoKey
| ErrVersion
| ErrMaybe
| ErrWrongLeader
| ErrWrongGroup.

#[export] Instance Err_eq_dec : EqDecision Err.
Proof. solve_decision. Defined.

(** The string each code stands for. *)
Definition Err_string (e : Err) : string :=
  match e with
  | ErrEmpty => ""
  | OK => "OK"
  | ErrNoKey => "ErrNoKey"
  | ErrVersion => "ErrVersion"
  | ErrMaybe => "ErrMaybe"
  | ErrWrongLeader => "ErrWrongLeader"
  | ErrWrongGroup => "ErrWrongGroup"
  end.

(** Go's [a == b] and [a != b] on error codes. *)
Definition Err_eqb (a b : Err) : bool := bool_decide (a = b).

(** [type Tversion uint64]: an integer in [0, 2^64), incremented with
    wrap-around. *)
Abbreviation Tversion := Z (only parsing).
Definition Tversion_ok (v : Tversion) : Prop := 0 <= v < 2 ^ 64.

Record PutArgs : Type := MkPutArgs {
  PutArgs_Key : string;
  PutArgs_Value : string;
  PutArgs_Version : Tversion;
}.

Record PutReply : Type := MkPutReply { PutReply_Err : Err }.

Record GetArgs : Type := MkGetArgs { GetArgs_Key : string }.

Record GetReply : Type := MkGetReply {
  GetReply_Value : string;
  GetReply_Version : Tversion;
  GetReply_Err : Err;
}.

#[export] Instance PutArgs_eq_dec : EqDecision PutArgs.
Proof. solve_decision. Defined.
#[export] Instance GetArgs_eq_dec : EqDecision GetArgs.
Proof. solve_decision. Defined.
#[export] Instance PutReply_eq_dec : EqDecision PutReply.
Proof. solve_decision. Defined.
#[export] Instance GetReply_eq_dec : EqDecision GetReply.
Proof. solve_decision. Defined.

#[export] Instance PutArgs_countable : Countable PutArgs.
Proof.
  refine (inj_countable'
    (fun a => (PutArgs_Key a, PutArgs_Value a, PutArgs_Version a))
    (fun '(k, v, n) => MkPutArgs k v n) _); by intros [].
Defined.

#[export] Instance GetArgs_countable : Countable GetArgs.
Proof. refine (inj_countable' GetArgs_Key MkGetArgs _); by intros []. Defined.

Lemma Err_eqb_eq a b : Err_eqb a b = true <-> a = b.
Proof. apply bool_decide_eq_true. Qed.

Lemma Err_eqb_ne a b : Err_eqb a b = false <-> a <> b.
Proof. apply bool_decide_eq_false. Qed.

Lemma Err_string_inj a b : Err_string a = Err_string b -> a = b.
Proof. destruct a, b; done. Qed.
