(* ===== verification/KvSrv.v ===== *)
(** * The versioned key/value server (src/kvsrv1/server.go)

    The server's state is its map from keys to (value, version) pairs; the
    mutex makes each handler one atomic step.  [Get] and [Put] are the RPC
    handlers.  The theorems give the behaviour of [Put] on every branch and
    the version discipline that clients rely on. *)

From S2P Require Import Prelude Rpc.

Record KvEntry : Type := MkKvEntry { value : string; version : Tversion }.

#[export] Instance KvEntry_eq_dec : EqDecision KvEntry.
Proof. solve_decision. Defined.
#[export] Instance KvEntry_countable : Countable KvEntry.
Proof. refine (inj_countable' (fun e => (value e, version e)) (fun '(a, b) => MkKvEntry a b) _); by intros []. Defined.

(** The state [kv map[string]KvEntry] of a KVServer. *)
Abbreviation KVServer := (gmap string KvEntry).

Definition MakeKVServer : KVServer := ∅.

Definition Get (kv : KVServer) (args : GetArgs) : GetReply :=
  match kv !! GetArgs_Key args with
  | None => MkGetReply "" 0 ErrNoKey
  | Some e => MkGetReply (value e) (version e) OK
  end.

Definition Put (kv : KVServer) (args : PutArgs) : KVServer * PutReply :=
  match kv !! PutArgs_Key args with
  | None =>
      if PutArgs_Version args =? 0
      then (<[PutArgs_Key args := MkKvEntry (PutArgs_Value args) 1]> kv, MkPutReply OK)
      else (kv, MkPutReply ErrNoKey)
  | Some e =>
      if negb (PutArgs_Version args =? version e)
      then (kv, MkPutReply ErrVersion)
      else (<[PutArgs_Key args := MkKvEntry (PutArgs_Value args) (u64 (version e + 1))]> kv,
            MkPutReply OK)
  end.

(** ** Vocabulary of the specification *)

(** The version a client sees for a key: 0 when the key does not exist. *)
Definition version_of (kv : KVServer) (k : string) : Tversion :=
  match kv !! k with None => 0 | Some e => version e end.

Definition value_of (kv : KVServer) (k : string) : string :=
  match kv !! k with None => "" | Some e => value e end.

(** Stored versions are [uint64] values. *)
Definition kv_wf (kv : KVServer) : Prop := map_Forall (fun _ e => Tversion_ok (version e)) kv.

(** The state after a sequence of Puts. *)
Definition puts (kv : KVServer) (l : list PutArgs) : KVServer :=
  foldl (fun kv a => fst (Put kv a)) kv l.

(** ** Behaviour of the handlers *)

Lemma Put_state kv a :
  fst (Put kv a) = kv /\ PutReply_Err (snd (Put kv a)) <> OK \/
  fst (Put kv a) = <[PutArgs_Key a := MkKvEntry (PutArgs_Value a) (u64 (version_of kv (PutArgs_Key a) + 1))]> kv
  /\ PutReply_Err (snd (Put kv a)) = OK
  /\ PutArgs_Version a = version_of kv (PutArgs_Key a).
Proof.
  unfold Put, version_of. destruct (kv !! PutArgs_Key a) as [e|] eqn:He.
  - destruct (Z.eqb_spec (PutArgs_Version a) (version e)); simpl; auto.
  - destruct (Z.eqb_spec (PutArgs_Version a) 0); simpl; auto.
Qed.

(** A Put succeeds exactly when the version in the request is the one the
    key has, where a missing key has version 0. *)
Lemma Put_OK_iff kv a :
  PutReply_Err (snd (Put kv a)) = OK <-> PutArgs_Version a = version_of kv (PutArgs_Key a).
Proof.
  unfold Put, version_of. destruct (kv !! PutArgs_Key a) as [e|] eqn:He.
  - destruct (Z.eqb_spec (PutArgs_Version a) (version e)); simpl; naive_solver.
  - destruct (Z.eqb_spec (PutArgs_Version a) 0); simpl; naive_solver.
Qed.

Lemma Put_fail_id kv a : PutReply_Err (snd (Put kv a)) <> OK -> fst (Put kv a) = kv.
Proof. destruct (Put_state kv a) as [[? ?]|(? & ? & ?)]; done. Qed.

Lemma Put_other kv a k : k <> PutArgs_Key a -> fst (Put kv a) !! k = kv !! k.
Proof.
  intros. destruct (Put_state kv a) as [[-> ?]|(-> & ? & ?)]; [done|].
  by rewrite lookup_insert_ne.
Qed.

Lemma Put_wf kv a : kv_wf kv -> kv_wf (fst (Put kv a)).
Proof.
  intros Hwf. destruct (Put_state kv a) as [[-> ?]|(-> & ? & ?)]; [done|].
  apply map_Forall_insert_2; [apply u64_bound | done].
Qed.

Lemma Put_exists kv a k : is_Some (kv !! k) -> is_Some (fst (Put kv a) !! k).
Proof.
  intros. destruct (Put_state kv a) as [[-> ?]|(-> & ? & ?)]; [done|].
  rewrite lookup_insert. case_decide; done.
Qed.

Lemma version_of_bound kv k : kv_wf kv -> Tversion_ok (version_of kv k).
Proof.
  intros Hwf. unfold version_of. destruct (kv !! k) eqn:?; [by eapply Hwf | done].
Qed.

Lemma Put_version_of kv a k :
  version_of (fst (Put kv a)) k =
    if decide (k = PutArgs_Key a /\ PutArgs_Version a = version_of kv k)
    then u64 (version_of kv k + 1) else version_of kv k.
Proof.
  destruct (Put_state kv a) as [[-> Hne]|(-> & ? & Hv)].
  - case_decide as Hc; [|done]. destruct Hc as [-> Hc].
    by apply Put_OK_iff in Hc.
  - case_decide as Hc.
    + destruct Hc as [-> _]. unfold version_of at 1. by rewrite lookup_insert_eq.
    + unfold version_of at 1. rewrite lookup_insert_ne; [done|]. naive_solver.
Qed.

Lemma value_of_insert (kv : KVServer) k e : value_of (<[k := e]> kv) k = value e.
Proof. unfold value_of. by rewrite lookup_insert_eq. Qed.

Lemma version_of_insert (kv : KVServer) k e : version_of (<[k := e]> kv) k = version e.
Proof. unfold version_of. by rewrite lookup_insert_eq. Qed.

(** Over a sequence of Puts short enough not to exhaust the 64-bit counter,
    versions never decrease. *)
Lemma puts_version_mono kv l k :
  kv_wf kv -> version_of kv k + Z.of_nat (length l) < 2 ^ 64 ->
  version_of kv k <= version_of (puts kv l) k <= version_of kv k + Z.of_nat (length l).
Proof.
  revert kv. induction l as [|a l IH]; intros kv Hwf Hlt; [simpl; lia|].
  pose proof (version_of_bound kv k Hwf) as [? ?]. simpl length in *.
  pose proof (Put_version_of kv a k) as Hv.
  assert (version_of kv k <= version_of (fst (Put kv a)) k <= version_of kv k + 1).
  { rewrite Hv. case_decide; [rewrite u64_small|]; lia. }
  specialize (IH (fst (Put kv a)) (Put_wf kv a Hwf)). simpl. lia.
Qed.

Lemma puts_wf kv l : kv_wf kv -> kv_wf (puts kv l).
Proof. revert kv. induction l; simpl; auto using Put_wf. Qed.

Lemma puts_exists kv l k : is_Some (kv !! k) -> is_Some (puts kv l !! k).
Proof. revert kv. induction l; simpl; auto using Put_exists. Qed.

Lemma puts_app kv l1 l2 : puts kv (l1 ++ l2) = puts (puts kv l1) l2.
Proof. apply foldl_app. Qed.

#[export] Hint Resolve Put_wf Put_exists puts_wf version_of_bound : labs.
