(* ===== verification/KvModel.v ===== *)
(** * The sequential specification of the key/value service (src/models1/kv.go)

    models1 is the abstract specification the repository itself gives: a
    per-key register with a version, stepped by [Step], and the partition of
    a history by key.  The theorems of this file show that the handlers of
    src/kvsrv1/server.go implement it: every history of a server is accepted
    by the model, partition by partition. *)

From S2P Require Import Prelude Rpc KvSrv.

Record KvInput : Type := MkKvInput {
  in_Op : Z; (* uint8: 0 is get, 1 is put *)
  in_Key : string;
  in_Value : string;
  in_Version : Z;
}.

Record KvOutput : Type := MkKvOutput {
  out_Value : string;
  out_Version : Z;
  out_Err : string;
}.

Record KvState : Type := MkKvState { st_Value : string; st_Version : Z }.

(** Porcupine's [Operation]; the model reads the first two fields. *)
Record Operation : Type := MkOperation { Input : KvInput; Output : KvOutput; Call : Z; Return_ : Z; ClientId : Z }.

Definition op_key (o : Operation) : string := in_Key (Input o).

Definition Init : KvState := MkKvState "" 0.

(** [Step] answers whether the output is allowed, with the next state; the
    default case returns no state of the model. *)
Definition Step (st : KvState) (inp : KvInput) (out : KvOutput) : bool * option KvState :=
  if in_Op inp =? 0 then
    (String.eqb (out_Value out) (st_Value st), Some st)
  else if in_Op inp =? 1 then
    if st_Version st =? in_Version inp then
      (String.eqb (out_Err out) "OK" || String.eqb (out_Err out) "ErrMaybe",
       Some (MkKvState (in_Value inp) (u64 (st_Version st + 1))))
    else
      (String.eqb (out_Err out) "ErrVersion" || String.eqb (out_Err out) "ErrMaybe", Some st)
  else (false, None).

(** Go orders strings byte by byte; [sort.Strings] sorts in this order. *)
Definition string_le (a b : string) : Prop := String.leb a b = true.
#[export] Instance string_le_dec : RelDecision string_le := fun a b => decide (String.leb a b = true).

Definition partition_map (history : list Operation) : gmap string (list Operation) :=
  foldl (fun m v => <[op_key v := default [] (m !! op_key v) ++ [v]]> m) ∅ history.

Definition Partition (history : list Operation) : list (list Operation) :=
  let m := partition_map history in
  let keys := merge_sort string_le (elements (dom m)) in
  map (fun k => default [] (m !! k)) keys.

(** The model run over a history of one key. *)
Fixpoint accepts (st : KvState) (h : list Operation) : bool :=
  match h with
  | [] => true
  | o :: h =>
      match Step st (Input o) (Output o) with
      | (true, Some st') => accepts st' h
      | _ => false
      end
  end.

(** ** Histories of the server

    A request and the operation the harness logs for it
    (kvtest1/porcupine.go, Get and Put), with the times of its call and its
    return and the client.  In a history of the server alone they are 0. *)
Inductive Request : Type :=
| ReqGet (a : GetArgs)
| ReqPut (a : PutArgs).

Definition log_Get (a : GetArgs) (r : GetReply) (start end_ cli : Z) : Operation :=
  MkOperation (MkKvInput 0 (GetArgs_Key a) "" 0)
              (MkKvOutput (GetReply_Value r) (GetReply_Version r) (Err_string (GetReply_Err r))) start end_ cli.

Definition log_Put (a : PutArgs) (e : Err) (start end_ cli : Z) : Operation :=
  MkOperation (MkKvInput 1 (PutArgs_Key a) (PutArgs_Value a) (PutArgs_Version a))
              (MkKvOutput "" 0 (Err_string e)) start end_ cli.

Fixpoint server_history (kv : KVServer) (reqs : list Request) : list Operation :=
  match reqs with
  | [] => []
  | ReqGet a :: reqs => log_Get a (Get kv a) 0 0 0 :: server_history kv reqs
  | ReqPut a :: reqs =>
      let '(kv', r) := Put kv a in log_Put a (PutReply_Err r) 0 0 0 :: server_history kv' reqs
  end.

(** The model state that the server's entry for a key represents. *)
Definition abs (kv : KVServer) (k : string) : KvState := MkKvState (value_of kv k) (version_of kv k).

(** ** Partition *)

Lemma partition_map_lookup (h : list Operation) (m : gmap string (list Operation)) (k : string) :
  default [] (foldl (fun m v => <[op_key v := default [] (m !! op_key v) ++ [v]]> m) m h !! k) =
  default [] (m !! k) ++ filter (fun o => op_key o = k) h.
Proof.
  revert m. induction h as [|o h IH]; intros m; simpl; [by rewrite app_nil_r|].
  rewrite IH, filter_cons, lookup_insert. case_decide as Hk.
  - subst. simpl. by rewrite <-app_assoc.
  - done.
Qed.

Lemma partition_map_default h k :
  default [] (partition_map h !! k) = filter (fun o => op_key o = k) h.
Proof. unfold partition_map. by rewrite partition_map_lookup, lookup_empty. Qed.

Lemma partition_map_dom h k : k ∈ dom (partition_map h) <-> exists o, o ∈ h /\ op_key o = k.
Proof.
  unfold partition_map.
  assert (forall m : gmap string (list Operation),
    k ∈ dom (foldl (fun m v => <[op_key v := default [] (m !! op_key v) ++ [v]]> m) m h) <->
    k ∈ dom m \/ exists o, o ∈ h /\ op_key o = k) as Hgen.
  { induction h as [|o h IH]; intros m; simpl; [set_solver|].
    rewrite IH, dom_insert. set_solver. }
  rewrite Hgen. set_solver.
Qed.

Lemma Partition_filters h :
  exists keys, NoDup keys /\ (forall o, o ∈ h -> op_key o ∈ keys) /\
    Partition h = map (fun k => filter (fun o => op_key o = k) h) keys.
Proof.
  exists (merge_sort string_le (elements (dom (partition_map h)))). split_and!.
  - rewrite merge_sort_Permutation. apply NoDup_elements.
  - intros o Ho. rewrite merge_sort_Permutation. apply elem_of_elements, partition_map_dom. eauto.
  - unfold Partition. apply map_ext. intros k. apply partition_map_default.
Qed.

Lemma filters_perm (h : list Operation) keys :
  NoDup keys -> (forall o, o ∈ h -> op_key o ∈ keys) ->
  concat (map (fun k => filter (fun o => op_key o = k) h) keys) ≡ₚ h.
Proof.
  intros Hnd. induction h as [|o h IH]; intros Hin.
  - clear. induction keys; simpl; auto.
  - transitivity (o :: concat (map (fun k => filter (fun o => op_key o = k) h) keys));
      [|constructor; apply IH; set_solver].
    assert (op_key o ∈ keys) as (k1 & k2 & ->)%list_elem_of_split by set_solver.
    rewrite !map_app, !concat_app. simpl. rewrite filter_cons_True by done.
    apply NoDup_app in Hnd as (_ & H1 & H2). apply NoDup_cons in H2 as [H2 _].
    assert (forall l, op_key o ∉ l ->
      map (fun k => filter (fun o => op_key o = k) (o :: h)) l =
      map (fun k => filter (fun o => op_key o = k) h) l) as Hskip.
    { intros l Hl. apply map_ext_in. intros k Hk%list_elem_of_In.
      rewrite filter_cons_False; [done|]. congruence. }
    rewrite !Hskip by set_solver. simpl. symmetry. apply Permutation_middle.
Qed.

(** ** Refinement *)

Lemma Get_refines kv a t t' c :
  Step (abs kv (GetArgs_Key a)) (Input (log_Get a (Get kv a) t t' c)) (Output (log_Get a (Get kv a) t t' c))
  = (true, Some (abs kv (GetArgs_Key a))).
Proof.
  unfold Step, abs, Get, value_of. simpl.
  destruct (kv !! GetArgs_Key a); simpl; by rewrite ?String.eqb_refl.
Qed.

Lemma Put_refines kv a t t' c :
  PutReply_Err (snd (Put kv a)) <> ErrNoKey ->
  Step (abs kv (PutArgs_Key a)) (Input (log_Put a (PutReply_Err (snd (Put kv a))) t t' c))
       (Output (log_Put a (PutReply_Err (snd (Put kv a))) t t' c))
  = (true, Some (abs (fst (Put kv a)) (PutArgs_Key a))).
Proof.
  unfold Step, abs, Put, value_of, version_of. simpl.
  destruct (kv !! PutArgs_Key a) as [e|] eqn:He; simpl.
  - destruct (Z.eqb_spec (PutArgs_Version a) (version e)) as [->|Hne]; simpl.
    + by rewrite Z.eqb_refl, lookup_insert_eq.
    + intros _. rewrite (proj2 (Z.eqb_neq _ _)) by done. by rewrite He.
  - destruct (Z.eqb_spec (PutArgs_Version a) 0) as [->|Hne]; simpl; [|done].
    by rewrite lookup_insert_eq.
Qed.

Lemma abs_other kv a k : k <> PutArgs_Key a -> abs (fst (Put kv a)) k = abs kv k.
Proof. intros. unfold abs, value_of, version_of. by rewrite Put_other. Qed.

Lemma server_history_key_accepted kv reqs k :
  Forall (fun o => out_Err (Output o) <> "ErrNoKey" \/ in_Op (Input o) = 0)%string
         (server_history kv reqs) ->
  accepts (abs kv k) (filter (fun o => op_key o = k) (server_history kv reqs)) = true.
Proof.
  revert kv. induction reqs as [|[a|a] reqs IH]; intros kv Hall; simpl in *; [done| |].
  - apply Forall_cons in Hall as [_ Hall]. rewrite filter_cons. case_decide as Hk.
    + unfold op_key in Hk; simpl in Hk; subst k. cbn [accepts].
      rewrite Get_refines. by apply IH.
    + by apply IH.
  - destruct (Put kv a) as [kv' r] eqn:HPut. apply Forall_cons in Hall as [Hr Hall].
    assert (kv' = fst (Put kv a)) as -> by by rewrite HPut.
    assert (r = snd (Put kv a)) as -> by by rewrite HPut.
    rewrite filter_cons. case_decide as Hk.
    + unfold op_key in Hk; simpl in Hk; subst k. cbn [accepts].
      rewrite Put_refines; [by apply IH|].
      intros Heq. destruct Hr as [Hr|Hr]; [|done]. apply Hr. simpl. by rewrite Heq.
    + rewrite <-(abs_other kv a); [by apply IH|]. unfold op_key in Hk; simpl in Hk. congruence.
Qed.

(** Any sequence of Get and Put requests run by the server
    from its initial state produces a history whose partition by key, as the
    repository's linearizability model (models1) computes it, loses and
    duplicates no operation and is accepted by the model on every part, as
    long as no Put of the history was answered ErrNoKey. *)
Theorem kvsrv_refines_KvModel (reqs : list Request) :
  Forall (fun o => out_Err (Output o) <> "ErrNoKey" \/ in_Op (Input o) = 0)%string
         (server_history MakeKVServer reqs) ->
  concat (Partition (server_history MakeKVServer reqs)) ≡ₚ server_history MakeKVServer reqs /\
  Forall (fun p => accepts Init p = true) (Partition (server_history MakeKVServer reqs)).
Proof.
  intros Hall. destruct (Partition_filters (server_history MakeKVServer reqs))
    as (keys & Hnd & Hin & ->).
  split; [by apply filters_perm|].
  apply Forall_forall. intros p Hp%list_elem_of_In.
  apply in_map_iff in Hp as (k & <- & _).
  change Init with (abs MakeKVServer k). by apply server_history_key_accepted.
Qed.

Definition kvsrv_demo : list Request :=
  [ReqPut (MkPutArgs "x" "1" 0); ReqGet (MkGetArgs "y"); ReqPut (MkPutArgs "x" "2" 0);
   ReqPut (MkPutArgs "x" "2" 1); ReqGet (MkGetArgs "x")].

Lemma kvsrv_refines_KvModel_witness :
  Forall (fun p => accepts Init p = true) (Partition (server_history MakeKVServer kvsrv_demo)).
Proof.
  apply (kvsrv_refines_KvModel kvsrv_demo).
  vm_compute. repeat (apply List.Forall_cons; [first [by left | by right]|]).
  apply List.Forall_nil.
Defined.

(** A Put that names a version other than 0 for a missing key is
    answered ErrNoKey and changes nothing, and the model never accepts that
    answer, so a history with it is reported as not linearizable. *)
Theorem kvsrv_ErrNoKey_not_in_KvModel (kv : KVServer) (a : PutArgs) :
  kv !! PutArgs_Key a = None -> PutArgs_Version a <> 0 ->
  Put kv a = (kv, MkPutReply ErrNoKey) /\
  accepts (abs kv (PutArgs_Key a)) [log_Put a (PutReply_Err (snd (Put kv a))) 0 0 0] = false.
Proof.
  intros Hnone Hv. unfold Put, abs, version_of, value_of. rewrite Hnone.
  rewrite (proj2 (Z.eqb_neq _ _)) by done. split; [done|]. simpl.
  unfold Step. simpl. destruct (PutArgs_Version a); done.
Qed.

Lemma kvsrv_ErrNoKey_not_in_KvModel_witness :
  Put MakeKVServer (MkPutArgs "x" "1" 3) = (MakeKVServer, MkPutReply ErrNoKey) /\
  accepts (abs MakeKVServer "x")
    [log_Put (MkPutArgs "x" "1" 3) (PutReply_Err (snd (Put MakeKVServer (MkPutArgs "x" "1" 3)))) 0 0 0] = false.
Proof. by apply (kvsrv_ErrNoKey_not_in_KvModel MakeKVServer (MkPutArgs "x" "1" 3)). Defined.
