(* ===== verification/KvClerk.v ===== *)
(** * The key/value clerk (src/kvsrv1/client.go)

    [Clerk.Get] and [Clerk.Put] retransmit until a reply arrives.  What
    happens at the server meanwhile is a list of events: Puts of other
    clients, executions of this clerk's request whose reply is lost or comes
    too late, failed calls, and at last the call whose reply arrives.  The
    theorem is linearizability of the clerk's Put: it acts as one Put of the
    server at one point of the interleaving, and its result is the reply at
    that point, or ErrMaybe. *)

From S2P Require Import Prelude Rpc KvSrv.

Inductive CallEvent : Type :=
| EvOther (a : PutArgs) (* the server runs a Put of another client *)
| EvLate               (* the server runs a copy of this clerk's request; no reply arrives *)
| EvFail               (* the current Call returns false *)
| EvReply.             (* the server runs the request of the current Call, the reply arrives *)

(** The loop of [Clerk.Put] with its local variable [resent]; the result is
    [None] as long as no reply has arrived. *)
Fixpoint Put_loop (args : PutArgs) (resent : bool) (kv : KVServer) (evs : list CallEvent)
    : KVServer * option Err :=
  match evs with
  | [] => (kv, None)
  | EvOther a :: evs => Put_loop args resent (fst (Put kv a)) evs
  | EvLate :: evs => Put_loop args resent (fst (Put kv args)) evs
  | EvFail :: evs => Put_loop args true kv evs
  | EvReply :: _ =>
      let '(kv', reply) := Put kv args in
      (kv', Some (if Err_eqb (PutReply_Err reply) ErrVersion && resent
                  then ErrMaybe else PutReply_Err reply))
  end.

Definition Clerk_Put (key value : string) (ver : Tversion) (kv : KVServer) (evs : list CallEvent)
    : KVServer * option Err :=
  Put_loop (MkPutArgs key value ver) false kv evs.

(** The loop of [Clerk.Get]: the first reply that arrives is returned. *)
Fixpoint Get_loop (args : GetArgs) (kv : KVServer) (evs : list CallEvent) : option GetReply :=
  match evs with
  | [] => None
  | EvOther a :: evs => Get_loop args (fst (Put kv a)) evs
  | EvLate :: evs | EvFail :: evs => Get_loop args kv evs
  | EvReply :: _ => Some (Get kv args)
  end.

Definition Clerk_Get (key : string) (kv : KVServer) (evs : list CallEvent)
    : option (string * Tversion * Err) :=
  r ← Get_loop (MkGetArgs key) kv evs;
  Some (GetReply_Value r, GetReply_Version r, GetReply_Err r).

(** The network runs each request at most once: when the reply of the
    current call arrives, every other execution of the clerk's request
    belongs to an earlier call that failed. *)
Fixpoint at_most_once (fails lates : nat) (evs : list CallEvent) : Prop :=
  match evs with
  | [] => True
  | EvOther _ :: evs => at_most_once fails lates evs
  | EvLate :: evs => at_most_once fails (S lates) evs
  | EvFail :: evs => at_most_once (S fails) lates evs
  | EvReply :: _ => (lates <= fails)%nat
  end.

(** The Puts of other clients that run before the clerk returns. *)
Fixpoint others (evs : list CallEvent) : list PutArgs :=
  match evs with
  | [] => []
  | EvOther a :: evs => a :: others evs
  | EvLate :: evs | EvFail :: evs => others evs
  | EvReply :: _ => []
  end.

Lemma Put_stale (kv : KVServer) (args : PutArgs) :
  is_Some (kv !! PutArgs_Key args) -> PutArgs_Version args < version_of kv (PutArgs_Key args) ->
  Put kv args = (kv, MkPutReply ErrVersion).
Proof.
  unfold Put, version_of. intros [e ->] Hlt.
  by rewrite (proj2 (Z.eqb_neq _ _)) by lia.
Qed.

(** One Put of anyone moves the version of a key by at most one. *)
Lemma Put_version_step kv a k :
  kv_wf kv -> version_of kv k + 1 < 2 ^ 64 ->
  version_of kv k <= version_of (fst (Put kv a)) k <= version_of kv k + 1.
Proof.
  intros Hwf ?. pose proof (version_of_bound kv k Hwf) as [? ?].
  rewrite Put_version_of. case_decide; rewrite ?u64_small; lia.
Qed.

(** Once a copy of the request has taken effect, every later execution of
    it fails on its version, so the clerk can only report ErrMaybe. *)
Lemma Put_loop_after_effect args kv evs fails lates kv' r :
  kv_wf kv -> is_Some (kv !! PutArgs_Key args) ->
  PutArgs_Version args < version_of kv (PutArgs_Key args) ->
  version_of kv (PutArgs_Key args) + Z.of_nat (length evs) < 2 ^ 64 ->
  at_most_once fails lates evs -> (0 < lates)%nat ->
  Put_loop args (bool_decide (0 < fails)%nat) kv evs = (kv', Some r) ->
  r = ErrMaybe /\ kv' = puts kv (others evs).
Proof.
  revert kv fails lates. induction evs as [|ev evs IH]; intros kv fails lates Hwf Hex Hlt Hnw Hamo Hl;
    [done|]. simpl length in Hnw. destruct ev; simpl in *.
  - pose proof (Put_version_step kv a (PutArgs_Key args) Hwf ltac:(lia)).
    apply (IH _ _ lates); auto with labs; lia.
  - rewrite (Put_stale kv args) by done. simpl. apply (IH _ _ (S lates)); auto; lia.
  - specialize (IH kv (S fails) lates). rewrite bool_decide_true in IH by lia. apply IH; auto; lia.
  - rewrite (Put_stale kv args) by done. rewrite bool_decide_true by lia. simpl. by intros [= <- <-].
Qed.

Lemma Put_loop_linearizable args kv evs fails lates kv' r :
  kv_wf kv ->
  version_of kv (PutArgs_Key args) + Z.of_nat (length evs) < 2 ^ 64 ->
  at_most_once fails lates evs ->
  Put_loop args (bool_decide (0 < fails)%nat) kv evs = (kv', Some r) ->
  exists pre post, others evs = pre ++ post /\
    kv' = puts (fst (Put (puts kv pre) args)) post /\
    (r = PutReply_Err (snd (Put (puts kv pre) args)) \/
     r = ErrMaybe /\ PutReply_Err (snd (Put (puts kv pre) args)) <> ErrNoKey).
Proof.
  revert kv fails lates. induction evs as [|ev evs IH]; intros kv fails lates Hwf Hnw Hamo; [done|].
  simpl length in Hnw. destruct ev; simpl in *.
  - intros Hrun. pose proof (Put_version_step kv a (PutArgs_Key args) Hwf ltac:(lia)).
    destruct (IH (fst (Put kv a)) fails lates) as (pre & post & -> & -> & Hr); auto with labs; [lia|].
    exists (a :: pre), post. auto.
  - intros Hrun. destruct (decide (PutReply_Err (snd (Put kv args)) = OK)) as [Hok|Hne].
    + exists [], (others evs). split_and!; [done| |].
      all: apply Put_OK_iff in Hok as Hver.
      all: assert (version_of (fst (Put kv args)) (PutArgs_Key args) = PutArgs_Version args + 1) as Hv
        by (pose proof (version_of_bound kv (PutArgs_Key args) Hwf) as [? ?];
            rewrite Put_version_of, decide_True, u64_small by (auto; lia); lia).
      all: assert (is_Some (fst (Put kv args) !! PutArgs_Key args)) as Hex
        by (destruct (Put_state kv args) as [[? ?]|(-> & ? & ?)]; [done|];
            rewrite lookup_insert_eq; eauto).
      all: eapply Put_loop_after_effect in Hrun as [-> ->]; eauto with labs; try lia.
      right. split; [done|]. simpl. by rewrite Hok.
    + rewrite (Put_fail_id kv args) in Hrun by done. eapply IH; eauto. lia.
  - specialize (IH kv (S fails) lates). rewrite bool_decide_true in IH by lia. apply IH; auto; lia.
  - destruct (Put kv args) as [kv1 reply] eqn:HPut. intros [= <- <-].
    exists [], []. simpl. rewrite HPut. split_and!; [done..|].
    destruct (Err_eqb (PutReply_Err reply) ErrVersion) eqn:He; simpl; [|by left].
    apply Err_eqb_eq in He. rewrite He. case_bool_decide; auto.
Qed.

(** C26 (refinement): the clerk's Put is linearizable.  Whatever calls fail,
    whatever replies are lost and whatever other clients do meanwhile (as
    long as no 64-bit version wraps, and as the network runs each request at
    most once, which Labrpc.v shows), a Put that returns has the effect of
    the server's Put at one single point among the other clients' Puts, and
    its result is the server's answer at that point or ErrMaybe. *)
Theorem Clerk_Put_linearizable (key value : string) (ver : Tversion) kv evs kv' r :
  kv_wf kv ->
  version_of kv key + Z.of_nat (length evs) < 2 ^ 64 ->
  at_most_once 0 0 evs ->
  Clerk_Put key value ver kv evs = (kv', Some r) ->
  exists pre post, others evs = pre ++ post /\
    let at_point := Put (puts kv pre) (MkPutArgs key value ver) in
    kv' = puts (fst at_point) post /\
    (r = PutReply_Err (snd at_point) \/
     r = ErrMaybe /\ PutReply_Err (snd at_point) <> ErrNoKey).
Proof.
  intros Hwf Hnw Hamo Hrun.
  by apply (Put_loop_linearizable (MkPutArgs key value ver) kv evs 0 0).
Qed.

Definition clerk_demo_events : list CallEvent :=
  [EvOther (MkPutArgs "k" "a" 0); EvLate; EvFail; EvOther (MkPutArgs "k" "c" 2); EvReply].

Lemma Clerk_Put_linearizable_witness :
  exists pre post, others clerk_demo_events = pre ++ post /\
    let at_point := Put (puts MakeKVServer pre) (MkPutArgs "k" "b" 1) in
    fst (Clerk_Put "k" "b" 1 MakeKVServer clerk_demo_events) = puts (fst at_point) post /\
    (ErrMaybe = PutReply_Err (snd at_point) \/
     ErrMaybe = ErrMaybe /\ PutReply_Err (snd at_point) <> ErrNoKey).
Proof.
  apply (Clerk_Put_linearizable "k" "b" 1 MakeKVServer clerk_demo_events).
  - apply map_Forall_empty.
  - vm_compute. reflexivity.
  - simpl. lia.
  - vm_compute. reflexivity.
Defined.

(** A Put answered at its first transmission is certain: the
    clerk reports the server's reply as it is, OK only when the Put took
    effect and an error only when it did not. *)
Theorem Clerk_Put_first_reply (key value : string) (ver : Tversion) kv l :
  Clerk_Put key value ver kv (map EvOther l ++ [EvReply]) =
    (fst (Put (puts kv l) (MkPutArgs key value ver)),
     Some (PutReply_Err (snd (Put (puts kv l) (MkPutArgs key value ver))))).
Proof.
  unfold Clerk_Put. revert kv. induction l as [|a l IH]; intros kv; simpl; [|apply IH].
  destruct (Put kv _) as [kv1 r]. by rewrite andb_false_r.
Qed.

(** Both loops return as soon as a reply arrives. *)
Lemma Put_loop_returns args resent kv evs :
  EvReply ∈ evs -> is_Some (snd (Put_loop args resent kv evs)).
Proof.
  revert resent kv. induction evs as [|[] evs IH]; intros resent kv Hin;
    apply elem_of_cons in Hin || apply elem_of_nil in Hin; simpl; try done.
  1-3: destruct Hin; [done|auto].
  destruct (Put kv args). eauto.
Qed.

Lemma Get_loop_returns args kv evs : EvReply ∈ evs -> is_Some (Get_loop args kv evs).
Proof.
  revert kv. induction evs as [|[] evs IH]; intros kv Hin;
    apply elem_of_cons in Hin || apply elem_of_nil in Hin; simpl; try done; eauto.
  all: destruct Hin; [done|auto].
Qed.

(** ** The clerk interface as its clients see it *)

Definition clerk_get (kv : KVServer) (key : string) : string * Tversion * Err :=
  let r := Get kv (MkGetArgs key) in (GetReply_Value r, GetReply_Version r, GetReply_Err r).

(** A linearized Put with result [e]: the effect is the server's Put, the
    result is its answer, or ErrMaybe unless the answer is ErrNoKey. *)
Definition clerk_put (kv : KVServer) (a : PutArgs) (e : Err) (kv' : KVServer) : Prop :=
  kv' = fst (Put kv a) /\
  (e = PutReply_Err (snd (Put kv a)) \/ e = ErrMaybe /\ PutReply_Err (snd (Put kv a)) <> ErrNoKey).

(** The same as a function: [lost] says that the clerk cannot tell whether its
    Put took effect. *)
Definition clerk_put_run (kv : KVServer) (a : PutArgs) (lost : bool) : KVServer * Err :=
  let '(kv', reply) := Put kv a in
  (kv', if lost && negb (Err_eqb (PutReply_Err reply) ErrNoKey) then ErrMaybe else PutReply_Err reply).

Lemma clerk_put_run_ok kv a lost : clerk_put kv a (snd (clerk_put_run kv a lost)) (fst (clerk_put_run kv a lost)).
Proof.
  unfold clerk_put, clerk_put_run. destruct (Put kv a) as [kv' reply]. simpl. split; [done|]. destruct lost; simpl; [|by left].
  destruct (Err_eqb (PutReply_Err reply) ErrNoKey) eqn:He; simpl; [by left|]. right. split; [done|]. intros Heq. rewrite Heq in He. done.
Qed.
