(* ===== verification/Dispatch.v ===== *)
(** * Servers and services (src/labrpc/labrpc.go: Server, Service)

    A Server is a set of Services by name, a Service the methods of a Go
    object that have the shape of an RPC handler.  A request names service
    and method in one string; its arguments and its reply are encoded.  The
    reflection package appears through what MakeService and dispatch ask of
    it: the methods of a type with their shape, and calling one. *)

From S2P Require Import Prelude Rpc KvSrv.

(** ** Methods, as reflect presents them

    [St] is the state of everything that runs on the server.  [m_call]
    decodes the argument (a failure exits the process: [None]), calls the
    method on the receiver and encodes the reply. *)
Record Method (St : Type) : Type := MkMethod {
  m_name : string;
  m_exported : bool;                 (* PkgPath is empty *)
  m_numIn : Z;
  m_in2_ptr : bool;
  m_numOut : Z;
  m_call : St -> bytes -> option (St * bytes);
}.
Arguments MkMethod {St}.
Arguments m_name {St}.
Arguments m_exported {St}.
Arguments m_numIn {St}.
Arguments m_in2_ptr {St}.
Arguments m_numOut {St}.
Arguments m_call {St}.

Definition Marshall `{Gob A} (a : A) : bytes := gob_enc a.
Definition Unmarshall `{Gob A} (b : bytes) : option A := fst <$> gob_dec (A := A) b.

Lemma Unmarshall_Marshall `{Gob A} (a : A) : Unmarshall (Marshall a) = Some a.
Proof. unfold Unmarshall, Marshall. by rewrite gob_dec_enc_nil. Qed.

(** A handler [func (r *T) Name(args A, reply *R)]. *)
Definition handler {St A R : Type} `{Gob A} `{Gob R} (name : string) (f : St -> A -> St * R) : Method St :=
  MkMethod name true 3 true 0 (fun st b =>
    a ← Unmarshall (A := A) b;
    let '(st, r) := f st a in
    Some (st, Marshall r)).

Record Service (St : Type) : Type := MkService { svc_name : string; methods : gmap string (Method St) }.
Arguments MkService {St}.
Arguments svc_name {St}.
Arguments methods {St}.

Definition looks_like_handler {St : Type} (m : Method St) : bool :=
  negb (negb (m_exported m) || negb (m_numIn m =? 3) || negb (m_in2_ptr m) || negb (m_numOut m =? 0)).

Definition MakeService {St : Type} (name : string) (ms : list (Method St)) : Service St :=
  MkService name (foldl (fun acc m => if looks_like_handler m then <[m_name m := m]> acc else acc) ∅ ms).

Definition Service_dispatch {St : Type} (svc : Service St) (st : St) (methname : string) (args : bytes) : option (St * bytes) :=
  m ← methods svc !! methname; m_call m st args.

(** [dispatchf], when set, takes over. *)
Record Server (St : Type) : Type := MkServer {
  services : gmap string (Service St);
  count : Z;
  dispatchf : option (St -> string -> bytes -> St * (bytes * bool));
}.
Arguments MkServer {St}.
Arguments services {St}.
Arguments count {St}.
Arguments dispatchf {St}.

Definition MakeServer {St : Type} : Server St := MkServer ∅ 0 None.
Definition SetDispatch {St : Type} (rs : Server St) f : Server St := MkServer (services rs) (count rs) (Some f).
Definition AddService {St : Type} (rs : Server St) (svc : Service St) : Server St :=
  MkServer (<[svc_name svc := svc]> (services rs)) (count rs) (dispatchf rs).
Definition GetCount {St : Type} (rs : Server St) : Z := count rs.

(** ** Splitting "Raft.AppendEntries" *)

Definition dot : Ascii.ascii := Ascii.ascii_of_nat 46.

(** [strings.LastIndex(s, ".")] *)
Fixpoint LastIndex (s : string) : Z :=
  match s with
  | EmptyString => -1
  | String c s' =>
      let i := LastIndex s' in
      if 0 <=? i then i + 1 else if bool_decide (c = dot) then 0 else -1
  end.

(** [s[:i]] and [s[i:]], which panic out of range. *)
Definition slice_to (s : string) (i : Z) : option string :=
  if (0 <=? i) && (i <=? Z.of_nat (String.length s)) then Some (String.substring 0 (Z.to_nat i) s) else None.
Definition slice_from (s : string) (i : Z) : option string :=
  if (0 <=? i) && (i <=? Z.of_nat (String.length s))
  then Some (String.substring (Z.to_nat i) (String.length s - Z.to_nat i) s) else None.

(** [Server.dispatch]: [None] is a panic or an exit of the process. *)
Definition dispatch {St : Type} (rs : Server St) (st : St) (svcMeth : string) (args : bytes)
    : option (Server St * St * (bytes * bool)) :=
  let rs := MkServer (services rs) (count rs + 1) (dispatchf rs) in
  let i := LastIndex svcMeth in
  serviceName ← slice_to svcMeth i;
  methodName ← slice_from svcMeth (i + 1);
  match dispatchf rs with
  | Some f => let '(st, r) := f st svcMeth args in Some (rs, st, r)
  | None =>
      svc ← services rs !! serviceName;
      '(st, reply) ← Service_dispatch svc st methodName args;
      Some (rs, st, (reply, true))
  end.

Definition Dispatch {St : Type} := @dispatch St.

(** ** Names *)

Fixpoint no_dot (s : string) : bool :=
  match s with EmptyString => true | String c s => negb (bool_decide (c = dot)) && no_dot s end.

Definition qualified (svc meth : string) : string := svc +:+ String dot meth.

Lemma LastIndex_no_dot s : no_dot s = true -> LastIndex s = -1.
Proof.
  induction s as [|c s IH]; cbn [no_dot LastIndex]; [done|]. intros [Hc Hs]%andb_prop. rewrite (IH Hs). simpl.
  by destruct (bool_decide (c = dot)).
Qed.

Lemma LastIndex_qualified svc meth : no_dot meth = true -> LastIndex (qualified svc meth) = Z.of_nat (String.length svc).
Proof.
  intros Hm. unfold qualified. induction svc as [|c svc IH].
  - change ("" +:+ String dot meth) with (String dot meth). cbn [LastIndex]. rewrite (LastIndex_no_dot meth Hm). done.
  - change (String c svc +:+ String dot meth) with (String c (svc +:+ String dot meth)). cbn [LastIndex String.length]. rewrite IH.
    destruct (Z.leb_spec 0 (Z.of_nat (String.length svc))); lia.
Qed.

Lemma length_qualified svc meth : String.length (qualified svc meth) = (String.length svc + S (String.length meth))%nat.
Proof. unfold qualified. induction svc as [|c svc IH]; [done|]. simpl. f_equal. exact IH. Qed.

Lemma substring_all s : String.substring 0 (String.length s) s = s.
Proof. induction s as [|c s IH]; simpl; [done|]. by rewrite IH. Qed.

Lemma slice_to_qualified svc meth : slice_to (qualified svc meth) (Z.of_nat (String.length svc)) = Some svc.
Proof.
  unfold slice_to. rewrite length_qualified. destruct (Z.leb_spec 0 (Z.of_nat (String.length svc))); [|lia].
  destruct (Z.leb_spec (Z.of_nat (String.length svc)) (Z.of_nat (String.length svc + S (String.length meth)))); [|lia]. simpl. f_equal.
  rewrite Nat2Z.id. unfold qualified. induction svc as [|c svc IH]; [done|]. simpl. f_equal. apply IH; lia.
Qed.

Lemma slice_from_qualified svc meth : slice_from (qualified svc meth) (Z.of_nat (String.length svc) + 1) = Some meth.
Proof.
  unfold slice_from. rewrite length_qualified.
  destruct (Z.leb_spec 0 (Z.of_nat (String.length svc) + 1)); [|lia].
  destruct (Z.leb_spec (Z.of_nat (String.length svc) + 1) (Z.of_nat (String.length svc + S (String.length meth)))); [|lia]. simpl. f_equal.
  replace (Z.to_nat (Z.of_nat (String.length svc) + 1)) with (S (String.length svc)) by lia.
  replace (String.length svc + S (String.length meth) - S (String.length svc))%nat with (String.length meth) by lia.
  unfold qualified. induction svc as [|c svc IH]; [apply substring_all|]. simpl. apply IH; lia.
Qed.

(** ** Registered methods *)

Section Calls.
Context {St : Type}.
Implicit Types (m : Method St) (ms : list (Method St)).

Definition register (acc : gmap string (Method St)) m : gmap string (Method St) :=
  if looks_like_handler m then <[m_name m := m]> acc else acc.

Lemma register_lookup ms acc k : k ∉ m_name <$> ms -> foldl register acc ms !! k = acc !! k.
Proof.
  revert acc. induction ms as [|m ms IH]; intros acc Hk; [done|]. cbn [foldl fmap list_fmap] in *. apply not_elem_of_cons in Hk as [Hne Hk].
  rewrite IH by done. unfold register. destruct (looks_like_handler m); [|done]. by rewrite lookup_insert_ne.
Qed.

(** A service offers exactly the methods with the shape of a handler; the
    methods of a Go type have distinct names. *)
Lemma MakeService_methods name ms m : NoDup (m_name <$> ms) -> m ∈ ms ->
  methods (MakeService name ms) !! m_name m = if looks_like_handler m then Some m else None.
Proof.
  intros Hnd Hin. unfold MakeService. simpl. change (fun acc m => _) with register. apply list_elem_of_split in Hin as (l1 & l2 & ->).
  rewrite fmap_app in Hnd. apply NoDup_app in Hnd as (_ & Hd & Hnd2). cbn [fmap list_fmap] in Hnd2. apply NoDup_cons in Hnd2 as [Hn2 _].
  rewrite foldl_app. cbn [foldl]. rewrite register_lookup by done. unfold register at 1.
  destruct (looks_like_handler m); [by rewrite lookup_insert_eq|]. rewrite register_lookup; [apply lookup_empty|].
  intros Hin. apply (Hd _ Hin). cbn [fmap list_fmap]. apply list_elem_of_here.
Qed.

(** Dispatching to a handler. *)
Lemma dispatch_handler {A R : Type} `{GA : Gob A} `{GR : Gob R} (rs : Server St) (st : St) (name meth : string) ms
    (f : St -> A -> St * R) (args : A) :
  NoDup (m_name <$> ms) -> handler meth f ∈ ms -> no_dot meth = true ->
  services rs !! name = Some (MakeService name ms) -> dispatchf rs = None ->
  Dispatch rs st (qualified name meth) (Marshall args) =
    Some (MkServer (services rs) (count rs + 1) None, fst (f st args), (Marshall (snd (f st args)), true)).
Proof.
  intros Hnd Hin Hdot Hsvc Hf. unfold Dispatch, dispatch. cbn [services dispatchf].
  rewrite (LastIndex_qualified _ _ Hdot), slice_to_qualified, slice_from_qualified. cbn [mbind option_bind]. rewrite Hf, Hsvc.
  cbn [mbind option_bind]. unfold Service_dispatch. pose proof (MakeService_methods name ms _ Hnd Hin) as Hm. cbn [m_name handler] in Hm.
  rewrite Hm. cbn. rewrite Unmarshall_Marshall. cbn. by destruct (f st args).
Qed.

(** An RPC is the call of its method.  On a server that offers
    a service made from an object, a request for "Service.Method" with
    encoded arguments runs that handler once, on the decoded arguments, and
    the reply decodes to the handler's result; only the request counter
    changes besides.  A method that does not have the shape of a handler is
    not offered. *)
Theorem rpc_is_method_call {A R : Type} `{GA : Gob A} `{GR : Gob R} (rs : Server St) (st : St) (name meth : string) ms
    (f : St -> A -> St * R) (args : A) :
  NoDup (m_name <$> ms) -> handler meth f ∈ ms -> no_dot meth = true ->
  services rs !! name = Some (MakeService name ms) -> dispatchf rs = None ->
  exists rep, Dispatch rs st (qualified name meth) (Marshall args) =
      Some (MkServer (services rs) (count rs + 1) None, fst (f st args), (rep, true)) /\
    Unmarshall rep = Some (snd (f st args)) /\
    forall m, m ∈ ms -> looks_like_handler m = false -> no_dot (m_name m) = true ->
      Dispatch rs st (qualified name (m_name m)) (Marshall args) = None.
Proof.
  intros Hnd Hin Hdot Hsvc Hf. exists (Marshall (snd (f st args))). split_and!; [by apply (dispatch_handler _ _ _ _ ms)|apply Unmarshall_Marshall|].
  intros m Hm Hl Hd. unfold Dispatch, dispatch. cbn [services dispatchf].
  rewrite (LastIndex_qualified _ _ Hd), slice_to_qualified, slice_from_qualified. cbn [mbind option_bind]. rewrite Hf, Hsvc.
  cbn [mbind option_bind]. unfold Service_dispatch. by rewrite (MakeService_methods name ms m Hnd Hm), Hl.
Qed.

End Calls.

(** ** Witness: the key/value server behind a labrpc Server *)

#[export] Instance Err_countable : Countable Err.
Proof.
  refine (inj_countable' (fun e => match e with OK => 0 | ErrNoKey => 1 | ErrVersion => 2 | ErrMaybe => 3 | ErrWrongLeader => 4 | ErrWrongGroup => 5 | ErrEmpty => 6 end)
    (fun z : Z => if z =? 0 then OK else if z =? 1 then ErrNoKey else if z =? 2 then ErrVersion else if z =? 3 then ErrMaybe
                  else if z =? 4 then ErrWrongLeader else if z =? 5 then ErrWrongGroup else ErrEmpty) _); by intros [].
Defined.
#[export] Instance GetReply_countable : Countable GetReply.
Proof.
  refine (inj_countable' (fun r => (GetReply_Value r, GetReply_Version r, GetReply_Err r)) (fun '(v, n, e) => MkGetReply v n e) _); by intros [].
Defined.
#[export] Instance PutReply_countable : Countable PutReply.
Proof. refine (inj_countable' PutReply_Err MkPutReply _); by intros []. Defined.

Definition kv_methods : list (Method KVServer) :=
  [handler "Get" (fun kv a => (kv, Get kv a)); handler "Put" Put;
   MkMethod "Kill" true 1 false 0 (fun _ _ => None)].

Definition kv_server : Server KVServer := AddService MakeServer (MakeService "KVServer" kv_methods).

Lemma rpc_is_method_call_witness :
  exists rep, Dispatch kv_server MakeKVServer "KVServer.Put" (Marshall (MkPutArgs "k" "v" 0)) =
      Some (MkServer (services kv_server) 1 None, <["k" := MkKvEntry "v" 1]> MakeKVServer, (rep, true)) /\
    Unmarshall rep = Some (MkPutReply OK).
Proof.
  destruct (rpc_is_method_call kv_server MakeKVServer "KVServer" "Put" kv_methods Put (MkPutArgs "k" "v" 0)) as (rep & Hd & Hu & _).
  - apply (bool_decide_unpack _). vm_compute. exact I.
  - apply list_elem_of_further, list_elem_of_here.
  - reflexivity.
  - reflexivity.
  - reflexivity.
  - exists rep. split; [exact Hd|exact Hu].
Defined.
