(* ===== verification/Demux.v ===== *)
(** * RPC over a byte stream (src/tester1/demux, src/tester1/sockrpc)

    The daemons of the tester talk over sockets.  [transport.go] frames
    messages, [dmxclnt.go] with [callmap.go] matches replies to calls by tag,
    [dmxsrv.go] serves requests in goroutines of their own, and sockrpc puts
    the dispatch of labrpc on top. *)

From S2P Require Import Prelude Rpc KvSrv Dispatch.

(** ** Framing (transport.go) *)

Record msg : Type := MkMsg { Tag : Z; Data : bytes; Ok : bool }.

#[export] Instance msg_eq_dec : EqDecision msg.
Proof. solve_decision. Defined.
#[export] Instance msg_countable : Countable msg.
Proof. refine (inj_countable' (fun m => (Tag m, Data m, Ok m)) (fun '(t, d, o) => MkMsg t d o) _); by intros []. Defined.

(** [binary.Write] and [binary.Read] of a uint32, little endian. *)
Definition le32 (n : Z) : bytes := [n mod 256; (n / 256) mod 256; (n / 65536) mod 256; (n / 16777216) mod 256].
Definition of_le32 (b : bytes) : Z :=
  match b with [b0; b1; b2; b3] => b0 + 256 * b1 + 65536 * b2 + 16777216 * b3 | _ => 0 end.

Inductive ReadErr : Type := EOF | UnexpectedEOF | Exit.   (* Exit: Unmarshall's log.Fatalf *)

(** [io.ReadFull] of [n] bytes from a stream that holds [s] and then ends. *)
Definition ReadFull (s : bytes) (n : nat) : ReadErr + bytes * bytes :=
  if (n <=? length s)%nat then inr (take n s, drop n s)
  else inl (if (length s =? 0)%nat then EOF else UnexpectedEOF).

Section Transport.
Context `{GM : Gob msg}.

Definition WriteCall (out : bytes) (m : msg) : bytes :=
  let b := Marshall m in out ++ le32 (u32 (len b)) ++ b.

Definition ReadCall (s : bytes) : ReadErr + msg * bytes :=
  match ReadFull s 4 with
  | inl e => inl e
  | inr (hdr, s) =>
      match ReadFull s (Z.to_nat (of_le32 hdr)) with
      | inl e => inl e
      | inr (b, s) => match Unmarshall (A := msg) b with None => inl Exit | Some m => inr (m, s) end
      end
  end.

(** A reader: the messages of a stream, and how it ends. *)
Fixpoint ReadAll (fuel : nat) (s : bytes) : list msg * ReadErr :=
  match fuel with
  | O => ([], EOF)
  | S fuel =>
      match ReadCall s with
      | inl e => ([], e)
      | inr (m, s) => let '(ms, e) := ReadAll fuel s in (m :: ms, e)
      end
  end.

(** ** The framing is lossless *)

Definition frame (m : msg) : bytes := le32 (u32 (len (Marshall m))) ++ Marshall m.

Lemma of_le32_le32 n : 0 <= n < 2 ^ 32 -> of_le32 (le32 n) = n.
Proof. intros Hn. unfold of_le32, le32. Z.to_euclidean_division_equations. lia. Qed.

Lemma WriteCall_frame out m : WriteCall out m = out ++ frame m.
Proof. done. Qed.

Lemma frame_length m : length (frame m) = (4 + length (Marshall m))%nat.
Proof. unfold frame. by rewrite length_app. Qed.

Lemma ReadFull_short (s : bytes) n : (length s < n)%nat -> exists e, ReadFull s n = inl e /\ e <> Exit /\ (s = [] -> e = EOF).
Proof.
  intros Hs. unfold ReadFull. destruct (Nat.leb_spec n (length s)); [lia|]. eexists. split; [done|].
  split; [by destruct (_ =? _)%nat|]. by intros ->.
Qed.

Lemma ReadFull_app (a b : bytes) n : length a = n -> ReadFull (a ++ b) n = inr (a, b).
Proof.
  intros <-. unfold ReadFull. rewrite length_app. destruct (Nat.leb_spec (length a) (length a + length b)); [|lia].
  by rewrite take_app_length, drop_app_length.
Qed.

(** A whole frame is read back; a part of one is an error. *)
Lemma ReadCall_frame m rest : len (Marshall m) < 2 ^ 32 -> ReadCall (frame m ++ rest) = inr (m, rest).
Proof.
  intros Hm. unfold ReadCall, frame. rewrite <-app_assoc, (ReadFull_app _ _ 4) by done.
  rewrite u32_small, of_le32_le32, Nat2Z.id by lia. rewrite ReadFull_app by done. by rewrite Unmarshall_Marshall.
Qed.

Lemma ReadCall_cut m k : len (Marshall m) < 2 ^ 32 -> (k < length (frame m))%nat ->
  exists e, ReadCall (take k (frame m)) = inl e /\ e <> Exit /\ (k = 0%nat -> e = EOF).
Proof.
  intros Hm Hk. rewrite frame_length in Hk. unfold ReadCall. destruct (decide (k < 4)%nat) as [Hlt|Hge].
  - destruct (ReadFull_short (take k (frame m)) 4) as (e & He & Hne & Hz); [rewrite length_take, frame_length; lia|].
    rewrite He. exists e. split_and!; auto. intros ->. by apply Hz.
  - unfold frame. rewrite take_app_ge by (simpl; lia). rewrite (ReadFull_app _ _ 4) by done.
    rewrite u32_small, of_le32_le32, Nat2Z.id by lia.
    destruct (ReadFull_short (take (k - length (le32 (len (Marshall m)))) (Marshall m)) (length (Marshall m))) as (e & He & Hne & _);
      [rewrite length_take; simpl; lia|]. rewrite He. exists e. split_and!; auto. lia.
Qed.

Lemma ReadCall_nil : ReadCall [] = inl EOF.
Proof. done. Qed.

Definition stream (ms : list msg) : bytes := foldl WriteCall [] ms.

Lemma stream_concat ms : stream ms = concat (frame <$> ms).
Proof.
  unfold stream. assert (forall out, foldl WriteCall out ms = out ++ concat (frame <$> ms)) as H; [|apply H].
  induction ms as [|m ms IH]; intros out; simpl; [by rewrite app_nil_r|]. rewrite IH, WriteCall_frame. by rewrite <-app_assoc.
Qed.

(** C37 (roundtrip): a connection that is cut at any byte loses messages only
    at the end.  The reader gets the messages that were written, in order, up to
    some point, and then EOF or an unexpected EOF; it never exits on a partial
    message, and an uncut stream is read completely.  Messages are shorter
    than 4 GB. *)
Theorem transport_roundtrip ms (k : nat) (s := take k (stream ms)) :
  Forall (fun m => len (Marshall m) < 2 ^ 32) ms ->
  exists j e, ReadAll (S (length s)) s = (take j ms, e) /\ e <> Exit /\
    ((length (stream ms) <= k)%nat -> (length ms <= j)%nat /\ e = EOF).
Proof.
  subst s. rewrite stream_concat. intros Hms.
  assert (forall fuel, (length (take k (concat (frame <$> ms))) < fuel)%nat -> exists j e,
    ReadAll fuel (take k (concat (frame <$> ms))) = (take j ms, e) /\ e <> Exit /\
    ((length (concat (frame <$> ms)) <= k)%nat -> (length ms <= j)%nat /\ e = EOF)) as H; [|apply H; lia].
  revert k. induction Hms as [|m ms Hm Hms IH]; intros k fuel Hf; cbn [fmap list_fmap concat] in *.
  - destruct fuel; [lia|]. rewrite take_nil. exists 0%nat, EOF. done.
  - destruct fuel as [|fuel]; [lia|]. cbn [ReadAll]. pose proof (frame_length m) as Hfl. destruct (decide (k < length (frame m))%nat) as [Hlt|Hge].
    + rewrite take_app_le by lia. destruct (ReadCall_cut m k Hm Hlt) as (e & -> & Hne & _).
      exists 0%nat, e. split_and!; [done..|]. rewrite length_app. lia.
    + rewrite take_app_ge in Hf |- * by lia. rewrite ReadCall_frame by done. rewrite length_app in Hf.
      destruct (IH (k - length (frame m))%nat fuel) as (j & e & -> & Hne & Hall); [lia|]. exists (S j), e. split_and!; [done..|].
      rewrite length_app. intros Hk. destruct Hall; [lia|]. split; [simpl; lia|done].
Qed.

End Transport.

(** ** Outstanding calls (callmap.go)

    A channel is the number of the call that waits on it. *)

Record callMap : Type := MkCallMap { cm_closed : bool; cm_calls : gmap Z nat }.

Definition newCallMap : callMap := MkCallMap false ∅.
Definition cm_close (cm : callMap) : callMap := MkCallMap true (cm_calls cm).
Definition isClosed (cm : callMap) : bool := cm_closed cm.
Definition cm_put (cm : callMap) (tag : Z) (ch : nat) : option callMap :=
  if cm_closed cm then None else Some (MkCallMap (cm_closed cm) (<[tag := ch]> (cm_calls cm))).
Definition cm_remove (cm : callMap) (tag : Z) : callMap * option nat :=
  match cm_calls cm !! tag with
  | Some ch => (MkCallMap (cm_closed cm) (delete tag (cm_calls cm)), Some ch)
  | None => (cm, None)
  end.
Definition outstanding (cm : callMap) : list Z := (map_to_list (cm_calls cm)).*1.

(** ** The two ends (dmxclnt.go, dmxsrv.go) and the connection

    The connection is two queues of messages, by the round trip of the
    framing; when it is cut, writes are lost, and the client's reader gets an
    error after some of the messages on their way. *)

Record reply : Type := MkReply { rep_rep : bytes; rep_ok : bool; rep_err : bool }.

(** Where a SendReceive is: it has its tag, is registered in the call map,
    waits on its channel, or has returned. *)
Inductive Pc : Type := Tagged | Registered | WaitReply | Returned (r : reply).
Record Caller : Type := MkCaller { c_tag : Z; c_req : bytes; c_pc : Pc }.

(** The client's reader: its loop, after closing the call map, failing the
    outstanding calls, at its end. *)
Inductive Rd : Type := Reading | Closed | Failing (ts : list Z) | Finished.

Section Demux.
(** The server's process.  [St] is its shared memory.  The goroutine of a
    request runs [dmx.srv.ServeRequest]: it begins in the local state
    [h_begin req], and each step of it reads and changes the memory and ends
    in a local state or with the reply; [None] exits the process.  Between
    any two steps other requests' goroutines run, and the process's own
    goroutines (tickers, readers, handlers of other connections), whose
    steps are [background]. *)
Context {St Th : Type} (h_begin : bytes -> Th) (h_step : St -> Th -> option (St * (Th + bytes * bool))) (background : St -> Z -> St).

(** The goroutine of a request, running or with the reply it has to write.
    [j_seen] is a history variable: the memory at each of its steps. *)
Record Job : Type := MkJob { j_tag : Z; j_req : bytes; j_seen : list St; j_run : Th + bytes * bool }.

(** [past] and [served] are history variables: the states of the memory
    before each step so far; and tag, request, reply and [j_seen] of each
    request that was served. *)
Record Dmx : Type := MkDmx {
  callmap : callMap;
  nextTag : Z;
  callers : list Caller;
  c2s : list msg;
  jobs : list Job;
  s2c : list msg;
  conn : bool;
  rd : Rd;
  srv_st : St;
  past : list St;
  served : list (Z * bytes * bytes * bool * list St);
}.

Definition eta_Dmx (d : Dmx) : Dmx :=
  MkDmx (callmap d) (nextTag d) (callers d) (c2s d) (jobs d) (s2c d) (conn d) (rd d) (srv_st d) (past d) (served d).
#[global] Instance set_callmap : Setter callmap := ltac:(solve_setter eta_Dmx callmap).
#[global] Instance set_nextTag : Setter nextTag := ltac:(solve_setter eta_Dmx nextTag).
#[global] Instance set_callers : Setter callers := ltac:(solve_setter eta_Dmx callers).
#[global] Instance set_c2s : Setter c2s := ltac:(solve_setter eta_Dmx c2s).
#[global] Instance set_jobs : Setter jobs := ltac:(solve_setter eta_Dmx jobs).
#[global] Instance set_s2c : Setter s2c := ltac:(solve_setter eta_Dmx s2c).
#[global] Instance set_conn : Setter conn := ltac:(solve_setter eta_Dmx conn).
#[global] Instance set_rd : Setter rd := ltac:(solve_setter eta_Dmx rd).
#[global] Instance set_srv_st : Setter srv_st := ltac:(solve_setter eta_Dmx srv_st).
#[global] Instance set_past : Setter past := ltac:(solve_setter eta_Dmx past).
#[global] Instance set_served : Setter served := ltac:(solve_setter eta_Dmx served).
Implicit Types d : Dmx.

(** [NewDemuxClnt] and [NewDemuxSrv]: the handshake took tag 0 and has no
    reply. *)
Definition NewDemux (st : St) : Dmx := MkDmx newCallMap 1 [] [] [] [] true Reading st [] [].

Definition set_pc d (k : nat) (pc : Pc) : Dmx :=
  match callers d !! k with
  | Some c => d <| callers := <[k := MkCaller (c_tag c) (c_req c) pc]> (callers d) |>
  | None => d
  end.

Inductive DEvent : Type :=
| DCall (req : bytes)     (* a SendReceive takes its tag *)
| DPut (k : nat)          (* it registers its channel *)
| DWrite (k : nat)        (* it writes the request *)
| DSrvRead                (* the server's reader starts a goroutine *)
| DServe (i : nat)        (* a goroutine takes a step, writes its reply, or exits *)
| DBackground (x : Z)     (* the server's process does something else *)
| DRead                   (* the client's reader delivers a reply *)
| DCut                    (* the connection goes away *)
| DReadErr                (* the client's reader gets an error *)
| DOutstanding | DFail    (* it fails the outstanding calls, one by one *)
| DClose.                 (* the client calls Close *)

(** [DExit]: the client's process exits. *)
Inductive DOutcome : Type := DDisabled | DExit | DNext (d : Dmx).

(** [dmx.reply]: the channel is not buffered, so the reader waits until the
    caller listens. *)
Definition deliver d (tag : Z) (r : reply) : DOutcome :=
  match cm_remove (callmap d) tag with
  | (cm, Some k) =>
      match callers d !! k with
      | Some (MkCaller _ _ WaitReply) => DNext (set_pc (d <| callmap := cm |>) k (Returned r))
      | _ => DDisabled
      end
  | (_, None) => DExit                 (* log.Fatalf *)
  end.

(** The server's reader: a goroutine per request. *)
Definition srv_reader d : DOutcome :=
  match c2s d with
  | m :: q => DNext (d <| c2s := q |> <| jobs := jobs d ++ [MkJob (Tag m) (Data m) [] (inl (h_begin (Data m)))] |>)
  | [] => DDisabled
  end.

(** When the server's process exits, its end of the connection closes and its
    goroutines are gone. *)
Definition srv_exit d : Dmx := d <| conn := false |> <| c2s := [] |> <| jobs := [] |>.

(** The memory changes. *)
Definition to_state d (st : St) : Dmx := d <| srv_st := st |> <| past := past d ++ [srv_st d] |>.

(** A step of a goroutine: of ServeRequest, or the WriteCall of its result. *)
Definition srv_serve d (i : nat) : DOutcome :=
  match jobs d !! i with
  | Some (MkJob t req seen (inl h)) =>
      match h_step (srv_st d) h with
      | Some (st, run) => DNext (to_state (d <| jobs := <[i := MkJob t req (seen ++ [srv_st d]) run]> (jobs d) |>) st)
      | None => DNext (srv_exit d)
      end
  | Some (MkJob t req seen (inr (rep, ok))) =>
      let d := d <| jobs := delete i (jobs d) |> <| served := served d ++ [(t, req, rep, ok, seen)] |> in
      DNext (if conn d then d <| s2c := s2c d ++ [MkMsg t rep ok] |> else d)
  | None => DDisabled
  end.

Definition dexec d (ev : DEvent) : DOutcome :=
  match ev with
  | DCall req => DNext (d <| callers := callers d ++ [MkCaller (nextTag d) req Tagged] |> <| nextTag := u32 (nextTag d + 1) |>)
  | DPut k =>
      match callers d !! k with
      | Some (MkCaller t _ Tagged) =>
          match cm_put (callmap d) t k with
          | None => DNext (set_pc d k (Returned (MkReply [] false true)))
          | Some cm => DNext (set_pc (d <| callmap := cm |>) k Registered)
          end
      | _ => DDisabled
      end
  | DWrite k =>
      match callers d !! k with
      | Some (MkCaller t req Registered) =>
          DNext (set_pc (if conn d then d <| c2s := c2s d ++ [MkMsg t req true] |> else d) k WaitReply)
      | _ => DDisabled
      end
  | DSrvRead => srv_reader d
  | DServe i => srv_serve d i
  | DBackground x => DNext (to_state d (background (srv_st d) x))
  | DRead =>
      match rd d, s2c d with
      | Reading, m :: q => deliver (d <| s2c := q |>) (Tag m) (MkReply (Data m) (Ok m) false)
      | _, _ => DDisabled
      end
  | DCut => DNext (d <| conn := false |>)
  | DReadErr =>
      match rd d with
      | Reading => if conn d then DDisabled else DNext (d <| callmap := cm_close (callmap d) |> <| rd := Closed |>)
      | _ => DDisabled
      end
  | DOutstanding =>
      match rd d with
      | Closed => DNext (d <| rd := Failing (outstanding (callmap d)) |>)
      | _ => DDisabled
      end
  | DFail =>
      match rd d with
      | Failing (t :: ts) => deliver (d <| rd := Failing ts |>) t (MkReply [] false true)
      | Failing [] => DNext (d <| rd := Finished |>)
      | _ => DDisabled
      end
  | DClose =>
      if isClosed (callmap d) then DNext d
      else DNext (d <| conn := false |> <| callmap := cm_close (callmap d) |>)
  end.

Fixpoint drun d (evs : list DEvent) : DOutcome :=
  match evs with
  | [] => DNext d
  | ev :: evs =>
      match dexec d ev with
      | DDisabled => drun d evs
      | DExit => DExit
      | DNext d => drun d evs
      end
  end.

(** ** The invariant *)

Definition started (c : Caller) : Prop := match c_pc c with WaitReply | Returned _ => True | _ => False end.
Definition active (c : Caller) : Prop := match c_pc c with Registered | WaitReply => True | _ => False end.

(** Requests on their way to be served, and the requests served. *)
Definition job_call (j : Job) : Z * bytes := (j_tag j, j_req j).
Definition pend d : list (Z * bytes) := ((fun m => (Tag m, Data m)) <$> c2s d) ++ (job_call <$> jobs d).
Definition served_tags d : list Z := (fun x => x.1.1.1.1) <$> served d.

(** Tag [t] belongs to a call with request [req] that has been sent. *)
Definition sent_call (cs : list Caller) (t : Z) (req : bytes) : Prop :=
  exists k c, cs !! k = Some c /\ c_tag c = t /\ c_req c = req /\ started c.

Record dmx_ok d : Prop := {
  dk_tags : forall k c, callers d !! k = Some c -> c_tag c = Z.of_nat k + 1;
  dk_next : nextTag d = len (callers d) + 1;
  dk_calls : forall t k, cm_calls (callmap d) !! t = Some k <-> exists c, callers d !! k = Some c /\ c_tag c = t /\ active c;
  dk_pend : forall t req, (t, req) ∈ pend d -> sent_call (callers d) t req;
  dk_served : forall t req rep ok sn, (t, req, rep, ok, sn) ∈ served d -> sent_call (callers d) t req;
  dk_s2c : forall m, m ∈ s2c d -> exists req sn, (Tag m, req, Data m, Ok m, sn) ∈ served d;
  dk_once : NoDup ((pend d).*1 ++ served_tags d);
  dk_replies : NoDup (Tag <$> s2c d);
  dk_reading : rd d = Reading -> forall t, t ∈ (pend d).*1 ++ (Tag <$> s2c d) -> is_Some (cm_calls (callmap d) !! t);
  dk_answer : forall k c rep ok, callers d !! k = Some c -> c_pc c = Returned (MkReply rep ok false) ->
    exists sn, (c_tag c, c_req c, rep, ok, sn) ∈ served d;
  dk_rd : match rd d with
          | Reading => True
          | Closed => cm_closed (callmap d) = true
          | Failing ts => cm_closed (callmap d) = true /\ NoDup ts /\ forall t, t ∈ ts <-> is_Some (cm_calls (callmap d) !! t)
          | Finished => cm_closed (callmap d) = true /\ cm_calls (callmap d) = ∅
          end;
}.

Lemma set_pc_Some d k c pc : callers d !! k = Some c ->
  set_pc d k pc = d <| callers := <[k := MkCaller (c_tag c) (c_req c) pc]> (callers d) |>.
Proof. unfold set_pc. by intros ->. Qed.

(** Changing where a call is, as far as its neighbours care. *)
Lemma insert_sent (cs : list Caller) k c pc t req : cs !! k = Some c -> (started c -> started (MkCaller (c_tag c) (c_req c) pc)) ->
  sent_call cs t req -> sent_call (<[k := MkCaller (c_tag c) (c_req c) pc]> cs) t req.
Proof.
  intros Hk Hst (j & x & Hj & Ht & Hr & Hx). destruct (decide (j = k)) as [->|Hne].
  - rewrite Hk in Hj. injection Hj as <-. exists k. eexists. split; [apply list_lookup_insert_eq; by apply lookup_lt_Some in Hk|]. auto.
  - exists j, x. rewrite list_lookup_insert_ne by done. auto.
Qed.

Lemma insert_tags d k c pc : (forall k c, callers d !! k = Some c -> c_tag c = Z.of_nat k + 1) -> callers d !! k = Some c ->
  forall j x, <[k := MkCaller (c_tag c) (c_req c) pc]> (callers d) !! j = Some x -> c_tag x = Z.of_nat j + 1.
Proof. intros Ht Hk j x Hx. apply list_lookup_insert_Some in Hx as [(<- & <- & _)|[_ Hx]]; simpl; eauto. Qed.

Lemma same_tag d j k c x : dmx_ok d -> callers d !! j = Some x -> callers d !! k = Some c -> c_tag x = c_tag c -> j = k.
Proof. intros Hd Hj Hk. rewrite (dk_tags _ Hd _ _ Hj), (dk_tags _ Hd _ _ Hk). lia. Qed.

(** The registered calls after call [k] moved to [pc] and its tag was entered,
    removed or left alone accordingly. *)
Lemma insert_calls d k c pc (m : gmap Z nat) : dmx_ok d -> callers d !! k = Some c ->
  (forall t, t <> c_tag c -> m !! t = cm_calls (callmap d) !! t) ->
  (m !! c_tag c = Some k /\ active (MkCaller (c_tag c) (c_req c) pc) \/ m !! c_tag c = None /\ ~ active (MkCaller (c_tag c) (c_req c) pc)) ->
  forall t j, m !! t = Some j <->
    exists x, <[k := MkCaller (c_tag c) (c_req c) pc]> (callers d) !! j = Some x /\ c_tag x = t /\ active x.
Proof.
  intros Hd Hk Hm Hc t j. pose proof (lookup_lt_Some _ _ _ Hk) as Hlt. destruct (decide (t = c_tag c)) as [->|Hne].
  - destruct Hc as [[-> Hact]|[-> Hact]].
    + split; [intros [= <-]; eexists; split; [by apply list_lookup_insert_eq|]; auto|].
      intros (x & Hx & Ht & _). f_equal. apply list_lookup_insert_Some in Hx as [(-> & _)|[_ Hx]]; [done|]. symmetry. by eapply same_tag.
    + split; [done|]. intros (x & Hx & Ht & Ha). exfalso. apply list_lookup_insert_Some in Hx as [(-> & <- & _)|[Hn Hx]]; [done|].
      apply Hn. symmetry. by eapply same_tag.
  - rewrite Hm by done. rewrite (dk_calls _ Hd). split; intros (x & Hx & <- & Ha).
    + exists x. split; [|done]. rewrite list_lookup_insert_ne; [done|]. intros ->. congruence.
    + apply list_lookup_insert_Some in Hx as [(-> & <- & _)|[_ Hx]]; [done|]. by exists x.
Qed.

(** Delivering to a registered call. *)
Lemma deliver_ok d t r k c : dmx_ok d -> cm_calls (callmap d) !! t = Some k -> callers d !! k = Some c ->
  c_tag c = t /\ active c /\
  forall d', (callmap d', callers d') = (callmap d, callers d) ->
    deliver d' t r = match c_pc c with
                     | WaitReply => DNext (d' <| callmap := MkCallMap (cm_closed (callmap d)) (delete t (cm_calls (callmap d))) |>
                                              <| callers := <[k := MkCaller (c_tag c) (c_req c) (Returned r)]> (callers d) |>)
                     | _ => DDisabled
                     end.
Proof.
  intros Hd Ht Hk. apply (dk_calls _ Hd) in Ht as Hx. destruct Hx as (x & Hx & Htag & Ha). rewrite Hk in Hx. injection Hx as <-.
  split_and!; [done..|]. intros d' [= Hcm Hcl]. unfold deliver, cm_remove. rewrite Hcm, Ht, Hcl, Hk. destruct c as [ct cr []]; try done.
  simpl. unfold set_pc. simpl. by rewrite Hcl, Hk.
Qed.

Lemma pend_elem d t : t ∈ (pend d).*1 -> exists req, (t, req) ∈ pend d.
Proof. intros ([t' req] & -> & Hin)%list_elem_of_fmap. eauto. Qed.

Lemma pend_ext d d' : c2s d' = c2s d -> jobs d' = jobs d -> pend d' = pend d.
Proof. unfold pend. by intros -> ->. Qed.

Lemma call_ok d req : dmx_ok d -> len (callers d) < 2 ^ 32 - 2 ->
  dmx_ok (d <| callers := callers d ++ [MkCaller (nextTag d) req Tagged] |> <| nextTag := u32 (nextTag d + 1) |>).
Proof.
  intros Hd Hlen. pose proof (dk_next _ Hd) as Hn.
  assert (forall t r, sent_call (callers d) t r -> sent_call (callers d ++ [MkCaller (nextTag d) req Tagged]) t r) as Hsent.
  { intros t r (k & c & Hk & H). exists k, c. split; [by apply lookup_app_l_Some|done]. }
  assert (forall j x, (callers d ++ [MkCaller (nextTag d) req Tagged]) !! j = Some x ->
    callers d !! j = Some x \/ j = length (callers d) /\ x = MkCaller (nextTag d) req Tagged) as Hcase.
  { intros j x [Hx|[Hj Hx]]%lookup_app_Some; [by left|right]. apply list_lookup_singleton_Some in Hx as [? <-]. split; [lia|done]. }
  pose proof Hd as [Htags _ Hcalls Hpend Hserved Hs2c Honce Hrep Hrd Hans Hst].
  constructor; simpl; auto.
  - intros j x [Hx|[-> ->]]%Hcase; [by apply Htags|]. simpl. lia.
  - rewrite length_app, u32_small by lia. simpl. lia.
  - intros t k. rewrite Hcalls. split.
    + intros (c & Hk & H). exists c. split; [by apply lookup_app_l_Some|done].
    + intros (c & [Hk|[_ ->]]%Hcase & Ht & Ha); [by exists c|done].
  - intros t r p o sn Hin. eapply Hsent, Hserved, Hin.
  - intros k c p o [Hk|[_ ->]]%Hcase Hpc; [|done]. eapply Hans; eauto.
Qed.

(** Moves of one call that leave the connection and the served requests alone. *)
Lemma move_ok d k c pc cm : dmx_ok d -> callers d !! k = Some c -> cm_closed cm = cm_closed (callmap d) ->
  (forall t, t <> c_tag c -> cm_calls cm !! t = cm_calls (callmap d) !! t) ->
  (cm_calls cm !! c_tag c = Some k /\ active (MkCaller (c_tag c) (c_req c) pc) \/
   cm_calls cm !! c_tag c = None /\ ~ active (MkCaller (c_tag c) (c_req c) pc)) ->
  (started c -> started (MkCaller (c_tag c) (c_req c) pc)) ->
  (forall rep ok, pc <> Returned (MkReply rep ok false)) ->
  (rd d = Reading -> forall t, t ∈ (pend d).*1 ++ (Tag <$> s2c d) -> is_Some (cm_calls cm !! t)) ->
  (match rd d with
   | Failing ts => forall t, t ∈ ts <-> is_Some (cm_calls cm !! t)
   | Finished => cm_calls cm = ∅
   | _ => True
   end) ->
  dmx_ok (d <| callmap := cm |> <| callers := <[k := MkCaller (c_tag c) (c_req c) pc]> (callers d) |>).
Proof.
  intros Hd Hk Hcl Hne Hc Hst Hpc Hrdg Hrd. pose proof Hd as [Htags Hn Hcalls Hpend Hserved Hs2c Honce Hrep _ Hans Hst'].
  constructor; simpl; auto.
  - by apply (insert_tags d k c).
  - by rewrite length_insert.
  - by apply (insert_calls d k c).
  - intros t r Hin. by apply insert_sent, Hpend, Hin.
  - intros t r p o sn Hin. by eapply insert_sent, Hserved, Hin.
  - intros j x p o Hx Hp. apply list_lookup_insert_Some in Hx as [(_ & <- & _)|[_ Hx]]; [by apply Hpc in Hp|]. eauto.
  - rewrite Hcl. destruct (rd d); naive_solver.
Qed.

Lemma put_ok d k t req : dmx_ok d -> callers d !! k = Some (MkCaller t req Tagged) ->
  match cm_put (callmap d) t k with
  | None => dmx_ok (set_pc d k (Returned (MkReply [] false true)))
  | Some cm => dmx_ok (set_pc (d <| callmap := cm |>) k Registered)
  end.
Proof.
  intros Hd Hk. pose proof (dk_rd _ Hd) as Hr.
  assert (cm_calls (callmap d) !! t = None) as Hnone.
  { destruct (cm_calls (callmap d) !! t) as [j|] eqn:Hj; [|done]. apply (dk_calls _ Hd) in Hj as (x & Hx & Ht & Ha).
    rewrite (same_tag d j k _ x Hd Hx Hk Ht), Hk in Hx. by injection Hx as <-. }
  unfold cm_put. destruct (cm_closed (callmap d)) eqn:Hcl.
  - rewrite (set_pc_Some _ _ _ _ Hk).
    pose proof (move_ok d k _ (Returned (MkReply [] false true)) (callmap d) Hd Hk eq_refl (fun _ _ => eq_refl)) as Hmove.
    replace (d <| callmap := callmap d |>) with d in Hmove by (by destruct d). apply Hmove; simpl; auto; [done|apply (dk_reading _ Hd)|].
    destruct (rd d); auto; naive_solver.
  - rewrite (set_pc_Some _ _ (MkCaller t req Tagged)) by done.
    apply (move_ok d k (MkCaller t req Tagged) Registered (MkCallMap false (<[t := k]> (cm_calls (callmap d))))); simpl; auto.
    + intros t' Hne. by rewrite lookup_insert_ne.
    + left. by rewrite lookup_insert_eq.
    + intros Hrd t' Hin. destruct (decide (t' = t)) as [->|]; [by rewrite lookup_insert_eq|].
      rewrite lookup_insert_ne by done. by apply (dk_reading _ Hd).
    + destruct (rd d); auto; naive_solver.
Qed.

Lemma write_ok d k t req : dmx_ok d -> callers d !! k = Some (MkCaller t req Registered) ->
  dmx_ok (set_pc (if conn d then d <| c2s := c2s d ++ [MkMsg t req true] |> else d) k WaitReply).
Proof.
  intros Hd Hk.
  assert (cm_calls (callmap d) !! t = Some k) as Ht by (apply (dk_calls _ Hd); by exists (MkCaller t req Registered)).
  assert (dmx_ok (set_pc d k WaitReply)) as Hw.
  { rewrite (set_pc_Some _ _ _ _ Hk). pose proof (move_ok d k _ WaitReply (callmap d) Hd Hk eq_refl (fun _ _ => eq_refl)) as Hmove.
    replace (d <| callmap := callmap d |>) with d in Hmove by (by destruct d). apply Hmove; [by left|done|done|apply (dk_reading _ Hd)|].
    pose proof (dk_rd _ Hd). destruct (rd d); auto; naive_solver. }
  destruct (conn d); [|done]. rewrite (set_pc_Some _ _ (MkCaller t req Registered)) by done. rewrite (set_pc_Some _ _ _ _ Hk) in Hw. simpl in *.
  assert (forall t' r', sent_call (callers d) t' r' -> t' <> t) as Hfresh.
  { intros t' r' (j & x & Hx & <- & _ & Hs) He. rewrite (same_tag d j k _ x Hd Hx Hk He), Hk in Hx. by injection Hx as <-. }
  assert (pend (d <| c2s := c2s d ++ [MkMsg t req true] |> <| callers := <[k := MkCaller t req WaitReply]> (callers d) |>) ≡ₚ (t, req) :: pend d) as Hp.
  { unfold pend. simpl. rewrite fmap_app. simpl. rewrite <-app_assoc. symmetry. apply Permutation_middle. }
  destruct Hw as [Htags Hn Hcalls Hpend Hserved Hs2c Honce Hrep Hrdg Hans Hst]. constructor; simpl in *; auto.
  - intros t' r'. rewrite Hp. intros [[= -> ->]|Hin]%elem_of_cons; [|by apply Hpend].
    exists k. eexists. split; [apply list_lookup_insert_eq; by apply lookup_lt_Some in Hk|done].
  - rewrite Hp. cbn [fmap list_fmap app]. apply NoDup_cons. split; [|exact Honce]. simpl. intros [Hin|Hin]%elem_of_app.
    + destruct (pend_elem d t Hin) as (r & Hr). by apply (Hfresh t r); [apply (dk_pend _ Hd)|].
    + unfold served_tags in Hin. apply list_elem_of_fmap in Hin as ([[[[t' r] p] o] sn] & -> & Hin). by eapply (Hfresh t' r); [eapply (dk_served _ Hd)|].
  - intros Hrd t'. rewrite Hp. cbn [fmap list_fmap app]. intros [->|Hin]%elem_of_cons; [simpl; eauto|]. by apply Hrdg.
Qed.

Lemma srv_read_ok d m q : dmx_ok d -> c2s d = m :: q -> dmx_ok (d <| c2s := q |> <| jobs := jobs d ++ [MkJob (Tag m) (Data m) [] (inl (h_begin (Data m)))] |>).
Proof.
  intros Hd Hm. assert (pend (d <| c2s := q |> <| jobs := jobs d ++ [MkJob (Tag m) (Data m) [] (inl (h_begin (Data m)))] |>) ≡ₚ pend d) as Hp.
  { unfold pend. simpl. rewrite Hm, fmap_app. simpl. rewrite app_assoc. symmetry. apply Permutation_cons_append. }
  destruct Hd. constructor; simpl in *; auto.
  - intros t req. rewrite Hp. auto.
  - by rewrite Hp.
  - intros Hr t. rewrite Hp. auto.
Qed.

(** A step of a goroutine leaves its call alone. *)
Lemma thread_step_ok d i j sn run st : dmx_ok d -> jobs d !! i = Some j ->
  dmx_ok (to_state (d <| jobs := <[i := MkJob (j_tag j) (j_req j) sn run]> (jobs d) |>) st).
Proof.
  intros Hd Hi. assert (pend (to_state (d <| jobs := <[i := MkJob (j_tag j) (j_req j) sn run]> (jobs d) |>) st) = pend d) as Hp.
  { unfold pend. simpl. f_equal. rewrite list_fmap_insert. apply list_insert_id. by rewrite list_lookup_fmap, Hi. }
  destruct Hd. constructor; simpl in *; auto; by rewrite Hp.
Qed.

Lemma serve_ok d i t req sn rep ok : dmx_ok d -> jobs d !! i = Some (MkJob t req sn (inr (rep, ok))) ->
  (let d := d <| jobs := delete i (jobs d) |> <| served := served d ++ [(t, req, rep, ok, sn)] |> in
   dmx_ok (if conn d then d <| s2c := s2c d ++ [MkMsg t rep ok] |> else d)).
Proof.
  intros Hd Hi. cbv zeta. assert (pend d ≡ₚ (t, req) :: ((fun m => (Tag m, Data m)) <$> c2s d) ++ (job_call <$> delete i (jobs d))) as Hp.
  { unfold pend. rewrite (delete_Permutation _ _ _ Hi) at 1. symmetry. apply Permutation_middle. }
  pose proof Hd as [Htags Hn Hcalls Hpend Hserved Hs2c Honce Hrep Hrdg Hans Hst]. rewrite Hp in Honce. cbn [fmap list_fmap app] in Honce.
  assert (t ∉ served_tags d) as Hnew. { apply NoDup_cons in Honce as [Hno _]. set_solver. }
  assert (dmx_ok (d <| jobs := delete i (jobs d) |> <| served := served d ++ [(t, req, rep, ok, sn)] |>)) as Hd1.
  { constructor; simpl; auto.
    - intros t' r' Hin. apply Hpend. rewrite Hp. by apply list_elem_of_further.
    - intros t' r' p o sn' [Hin|Hin]%elem_of_app; [by eapply Hserved|]. apply list_elem_of_singleton in Hin. injection Hin as -> -> -> -> ->.
      apply Hpend. rewrite Hp. apply list_elem_of_here.
    - intros m Hin. destruct (Hs2c m Hin) as (r & sn' & Hr). exists r, sn'. apply elem_of_app. by left.
    - unfold served_tags. simpl. rewrite fmap_app. cbn [fmap list_fmap fst]. rewrite app_assoc. by rewrite <-Permutation_cons_append.
    - intros Hr t' Hin. apply Hrdg; [done|]. rewrite Hp. by apply list_elem_of_further.
    - intros k c p o Hk Hpc. destruct (Hans k c p o Hk Hpc) as [sn' Hin]. exists sn'. apply elem_of_app. by left. }
  simpl. destruct (conn d); [|done]. destruct Hd1 as [? ? ? ? Hserved1 Hs1 ? ? Hrdg1 ? ?]. constructor; simpl in *; auto.
  - intros m [Hin|Hin]%elem_of_app; [by apply Hs1|]. apply list_elem_of_singleton in Hin as ->. exists req, sn. set_solver.
  - rewrite fmap_app. apply NoDup_app. split_and!; [done| |apply NoDup_singleton]. intros t' Hin Ht'. apply list_elem_of_singleton in Ht' as ->.
    apply list_elem_of_fmap in Hin as (m & Hm & Hin). destruct (Hs2c _ Hin) as (r & sn' & Hr). apply Hnew. simpl in Hm. rewrite Hm.
    apply list_elem_of_fmap. by exists (Tag m, r, Data m, Ok m, sn').
  - intros Hr t'. rewrite fmap_app. intros Hin. assert (t' ∈ (pend d).*1 ++ (Tag <$> s2c d)) as Hin'; [|by apply Hrdg].
    rewrite Hp. change (t' ∈ t :: (pend (d <| jobs := delete i (jobs d) |>)).*1 ++ (Tag <$> s2c d)). rewrite app_assoc in Hin.
    apply elem_of_app in Hin as [Hin|Hin%list_elem_of_singleton]; [by right|subst; by left].
Qed.

(** Delivering a reply to the call that waits for it. *)
Lemma deliver_reply_ok d k c m q : dmx_ok d -> rd d = Reading -> s2c d = m :: q -> cm_calls (callmap d) !! Tag m = Some k ->
  callers d !! k = Some c -> c_tag c = Tag m ->
  dmx_ok (d <| s2c := q |> <| callmap := MkCallMap (cm_closed (callmap d)) (delete (Tag m) (cm_calls (callmap d))) |>
            <| callers := <[k := MkCaller (c_tag c) (c_req c) (Returned (MkReply (Data m) (Ok m) false))]> (callers d) |>).
Proof.
  intros Hd Hr Hs Ht Hk Htag. pose proof Hd as [Htags Hn Hcalls Hpend Hserved Hs2c Honce Hrep Hrdg Hans Hst].
  destruct (Hs2c m) as (req & sn & Hreq); [rewrite Hs; apply list_elem_of_here|].
  assert (c_req c = req) as Hcr.
  { destruct (Hserved _ _ _ _ _ Hreq) as (j & x & Hx & Hxt & <- & _). by rewrite (same_tag d j k c x Hd Hx Hk), Hk in Hx by congruence; simplify_eq. }
  rewrite Hs in Hrep. cbn [fmap list_fmap] in Hrep. apply NoDup_cons in Hrep as [Hnot Hrep].
  assert (Tag m ∉ (pend d).*1) as Hnp.
  { intros Hin. apply NoDup_app in Honce as (_ & Hdis & _). apply (Hdis _ Hin). apply list_elem_of_fmap. by exists (Tag m, req, Data m, Ok m, sn). }
  constructor; simpl; auto.
  - by apply (insert_tags d k c).
  - by rewrite length_insert.
  - apply (insert_calls d k c); auto.
    + intros t Hne. rewrite Htag in Hne. by rewrite lookup_delete_ne.
    + right. rewrite Htag, lookup_delete_eq. split; [done|]. by intros [].
  - intros t r Hin. apply insert_sent; [done|done|]. by apply Hpend.
  - intros t r p o sn' Hin. apply insert_sent; [done|done|]. by eapply Hserved.
  - intros x Hx. apply Hs2c. rewrite Hs. by apply list_elem_of_further.
  - intros _ t Hin. assert (t <> Tag m) as Hne by (intros ->; apply elem_of_app in Hin as [?|?]; done).
    rewrite lookup_delete_ne by done. apply Hrdg; [done|]. rewrite Hs. cbn [fmap list_fmap]. unfold pend in *. simpl in *. set_solver.
  - intros j x p o Hx Hp. apply list_lookup_insert_Some in Hx as [(_ & <- & _)|[_ Hx]]; [|by eapply Hans].
    simpl in *. injection Hp as <- <-. exists sn. by rewrite Htag, Hcr.
  - by rewrite Hr.
Qed.

Lemma deliver_fail_ok d k c t ts : dmx_ok d -> rd d = Failing (t :: ts) -> cm_calls (callmap d) !! t = Some k ->
  callers d !! k = Some c -> c_tag c = t -> c_pc c = WaitReply ->
  dmx_ok (d <| rd := Failing ts |> <| callmap := MkCallMap (cm_closed (callmap d)) (delete t (cm_calls (callmap d))) |>
            <| callers := <[k := MkCaller (c_tag c) (c_req c) (Returned (MkReply [] false true))]> (callers d) |>).
Proof.
  intros Hd Hr Ht Hk Htag Hpc. pose proof Hd as [Htags Hn Hcalls Hpend Hserved Hs2c Honce Hrep Hrdg Hans Hst].
  constructor; simpl; auto.
  - by apply (insert_tags d k c).
  - by rewrite length_insert.
  - apply (insert_calls d k c); auto.
    + intros t' Hne. rewrite Htag in Hne. by rewrite lookup_delete_ne.
    + right. rewrite Htag, lookup_delete_eq. split; [done|]. by intros [].
  - intros t' r Hin. apply insert_sent; [done|done|]. by apply Hpend.
  - intros t' r p o sn Hin. apply insert_sent; [done|done|]. by eapply Hserved.
  - done.
  - intros j x p o Hx Hp. apply list_lookup_insert_Some in Hx as [(_ & <- & _)|[_ Hx]]; [done|by eapply Hans].
  - rewrite Hr in Hst. destruct Hst as (Hcl & Hnd & Hall). apply NoDup_cons in Hnd as [Hnot Hnd]. split_and!; auto.
    intros t'. destruct (decide (t' = t)) as [->|Hne].
    + rewrite lookup_delete_eq. split; [done|]. by intros [? ?].
    + rewrite lookup_delete_ne, <-Hall by done. set_solver.
Qed.

Lemma exit_ok d : dmx_ok d -> dmx_ok (srv_exit d).
Proof.
  intros [Htags Hn Hcalls Hpend Hserved Hs2c Honce Hrep Hrdg Hans Hst]. constructor; simpl; auto.
  - intros t r Hin. by apply elem_of_nil in Hin.
  - by apply NoDup_app in Honce as (_ & _ & ?).
  - intros Hr t Hin. apply Hrdg; [done|]. apply elem_of_app. by right.
Qed.

Lemma outstanding_spec cm t : t ∈ outstanding cm <-> is_Some (cm_calls cm !! t).
Proof.
  unfold outstanding. rewrite list_elem_of_fmap. split.
  - intros ([t' k] & -> & Hin%elem_of_map_to_list). by exists k.
  - intros [k Hk]. exists (t, k). split; [done|]. by apply elem_of_map_to_list.
Qed.

(** One step of the protocol: the process never exits. *)
Lemma dexec_ok d ev : dmx_ok d -> len (callers d) < 2 ^ 32 - 2 ->
  match dexec d ev with
  | DDisabled => True
  | DExit => False
  | DNext d' => dmx_ok d' /\ (length (callers d') <= S (length (callers d)))%nat
  end.
Proof.
  intros Hd Hlen. assert (forall d0 k pc, length (callers (set_pc d0 k pc)) = length (callers d0)) as Hsl.
  { intros d0 k pc. unfold set_pc. destruct (callers d0 !! k); [simpl; by rewrite length_insert|done]. }
  destruct ev as [req|k|k| |i|x| | | | | |]; cbn [dexec].
  - split; [by apply call_ok|]. simpl. rewrite length_app. simpl. lia.
  - destruct (callers d !! k) as [[t req []]|] eqn:Hk; try done. pose proof (put_ok d k t req Hd Hk) as Hp.
    destruct (cm_put (callmap d) t k); (split; [done|]; rewrite Hsl; simpl; lia).
  - destruct (callers d !! k) as [[t req []]|] eqn:Hk; try done. split; [by apply write_ok|]. rewrite Hsl. destruct (conn d); simpl; lia.
  - unfold srv_reader. destruct (c2s d) as [|m q] eqn:Hm; [done|]. split; [by apply srv_read_ok|simpl; lia].
  - unfold srv_serve. destruct (jobs d !! i) as [[t req sn [h|[rep ok]]]|] eqn:Hi; [| |done].
    + destruct (h_step (srv_st d) h) as [[st run]|]; [|split; [by apply exit_ok|simpl; lia]].
      split; [|simpl; lia]. exact (thread_step_ok d i _ (sn ++ [srv_st d]) run st Hd Hi).
    + split; [by apply serve_ok|]. destruct (conn _); simpl; lia.
  - split; [|simpl; lia]. destruct Hd. by constructor.
  - destruct (rd d) eqn:Hr; try done. destruct (s2c d) as [|m q] eqn:Hm; [done|].
    destruct (dk_reading _ Hd Hr (Tag m)) as [k Ht]; [rewrite Hm; set_solver|]. apply (dk_calls _ Hd) in Ht as Hc.
    destruct Hc as (c & Hk & Htag & Ha). destruct (deliver_ok d (Tag m) (MkReply (Data m) (Ok m) false) k c Hd Ht Hk) as (_ & _ & Hdel).
    rewrite Hdel by done. destruct (c_pc c); try done. split; [by apply (deliver_reply_ok d)|simpl; rewrite length_insert; lia].
  - split; [|simpl; lia]. destruct Hd. by constructor.
  - destruct (rd d) eqn:Hr; try done. destruct (conn d); [done|]. split; [|simpl; lia]. destruct Hd. by constructor.
  - destruct (rd d) eqn:Hr; try done. split; [|simpl; lia]. pose proof (dk_rd _ Hd) as Hcl. rewrite Hr in Hcl. destruct Hd.
    constructor; simpl; auto; [done|]. split_and!; [done| |intros t; apply outstanding_spec].
    unfold outstanding. apply NoDup_fst_map_to_list.
  - destruct (rd d) as [| |ts|] eqn:Hr; try done. pose proof (dk_rd _ Hd) as Hst. rewrite Hr in Hst. destruct Hst as (Hcl & Hnd & Hall).
    destruct ts as [|t ts].
    + split; [|simpl; lia]. destruct Hd. constructor; simpl; auto; [done|]. split; [done|]. apply map_eq. intros t. rewrite lookup_empty.
      apply eq_None_not_Some. rewrite <-Hall. apply not_elem_of_nil.
    + destruct (proj1 (Hall t)) as [k Ht]; [apply list_elem_of_here|]. apply (dk_calls _ Hd) in Ht as Hc.
      destruct Hc as (c & Hk & Htag & Ha). destruct (deliver_ok d t (MkReply [] false true) k c Hd Ht Hk) as (_ & _ & Hdel).
      rewrite Hdel by done. destruct (c_pc c) eqn:Hpc; try done. split; [by apply (deliver_fail_ok d)|simpl; rewrite length_insert; lia].
  - destruct (isClosed (callmap d)); (split; [|simpl; lia]); [done|]. pose proof (dk_rd _ Hd) as Hst. destruct Hd.
    constructor; simpl; auto. destruct (rd d); naive_solver.
Qed.

(** *** What the server executes *)

(** A goroutine that finds the memory in the given states at its steps. *)
Fixpoint thread_run (h : Th) (sts : list St) : option (Th + bytes * bool) :=
  match sts with
  | [] => Some (inl h)
  | st :: sts =>
      match h_step st h with
      | Some (_, inl h) => thread_run h sts
      | Some (_, inr r) => match sts with [] => Some (inr r) | _ => None end
      | None => None
      end
  end.

Lemma thread_run_snoc h sts h' st st' run : thread_run h sts = Some (inl h') -> h_step st h' = Some (st', run) ->
  thread_run h (sts ++ [st]) = Some run.
Proof.
  intros Hr Hs. revert h Hr. induction sts as [|s sts IH]; intros h Hr; simpl in *.
  - injection Hr as ->. rewrite Hs. by destruct run.
  - destruct (h_step s h) as [[? [h1|r]]|]; [by apply IH|by destruct sts|done].
Qed.

(** The states that the memory goes through: each is the last one after a
    step of a goroutine of a request, or of another one. *)
Definition follows (st st' : St) : Prop := (exists h run, h_step st h = Some (st', run)) \/ exists x, st' = background st x.

Definition memory_run (st : St) (l : list St) : Prop :=
  l !! 0%nat = Some st /\ forall i s s', l !! i = Some s -> l !! S i = Some s' -> follows s s'.

Lemma memory_run_snoc st l s s' : memory_run st (l ++ [s]) -> follows s s' -> memory_run st ((l ++ [s]) ++ [s']).
Proof.
  intros [H0 Hl] Hf. split; [by apply lookup_app_l_Some|]. intros i a b Ha Hb.
  apply lookup_app_Some in Hb as [Hb|[Hle Hb]].
  - apply (Hl i); [|done]. apply lookup_lt_Some in Hb. by rewrite lookup_app_l in Ha by lia.
  - apply list_lookup_singleton_Some in Hb as [Hi <-]. rewrite length_app in Hle, Hi. simpl in Hle, Hi.
    rewrite lookup_app_l in Ha by (rewrite length_app; simpl; lia). rewrite lookup_app_r in Ha by lia.
    apply list_lookup_singleton_Some in Ha as [_ <-]. done.
Qed.

(** Every goroutine is where the states it has seen have led it. *)
Record srv_ok (st : St) d : Prop := {
  sk_memory : memory_run st (past d ++ [srv_st d]);
  sk_jobs : forall j, j ∈ jobs d -> thread_run (h_begin (j_req j)) (j_seen j) = Some (j_run j) /\ j_seen j `sublist_of` past d;
  sk_served : forall t req rep ok sn, (t, req, rep, ok, sn) ∈ served d -> thread_run (h_begin req) sn = Some (inr (rep, ok)) /\ sn `sublist_of` past d;
}.

Definition srv_part d := (jobs d, srv_st d, past d, served d).

Lemma srv_ok_same st d d' : srv_part d' = srv_part d -> srv_ok st d -> srv_ok st d'.
Proof. unfold srv_part. intros [= Hj Hs Hp Hv] []. constructor; rewrite ?Hj, ?Hs, ?Hp, ?Hv; auto. Qed.

(** The memory changes, and goroutine [i] may have made the step. *)
Lemma to_state_ok st d jobs' s' : srv_ok st d -> follows (srv_st d) s' ->
  (forall j, j ∈ jobs' -> j ∈ jobs d \/ thread_run (h_begin (j_req j)) (j_seen j) = Some (j_run j) /\ j_seen j `sublist_of` past d ++ [srv_st d]) ->
  srv_ok st (to_state (d <| jobs := jobs' |>) s').
Proof.
  intros [Hm Hj Hv] Hf Hjobs. constructor; simpl.
  - by apply memory_run_snoc.
  - intros j [Hin|?]%Hjobs; [|done]. destruct (Hj j Hin). split; [done|by apply sublist_inserts_r].
  - intros t req rep ok sn Hin. destruct (Hv _ _ _ _ _ Hin). split; [done|by apply sublist_inserts_r].
Qed.

Lemma serve_srv_ok st d i d' : srv_ok st d -> srv_serve d i = DNext d' -> srv_ok st d'.
Proof.
  intros Hok He. pose proof Hok as [Hm Hj Hv]. unfold srv_serve in He. destruct (jobs d !! i) as [[t req sn [h|[rep ok]]]|] eqn:Hi; [| |done].
  - apply list_elem_of_lookup_2 in Hi as Hin. destruct (Hj _ Hin) as [Ht Hsub]. simpl in Ht, Hsub.
    destruct (h_step (srv_st d) h) as [[s' run]|] eqn:Hs; injection He as <-; [|constructor; simpl; [done|by intros j ?%elem_of_nil|done]].
    apply to_state_ok; [done|left; eauto|]. intros j [k Hk]%list_elem_of_lookup. apply list_lookup_insert_Some in Hk as [(_ & <- & _)|[_ Hk]].
    + right. simpl. split; [by eapply thread_run_snoc|by apply sublist_app].
    + left. by eapply list_elem_of_lookup_2.
  - apply list_elem_of_lookup_2 in Hi as Hin. destruct (Hj _ Hin) as [Ht Hsub]. simpl in Ht, Hsub.
    assert (srv_ok st (d <| jobs := delete i (jobs d) |> <| served := served d ++ [(t, req, rep, ok, sn)] |>)) as Hok'.
    { constructor; simpl; [done| |].
      - intros j Hjin. apply Hj. rewrite (delete_Permutation _ _ _ Hi). by right.
      - intros t' r' p o sn' [Hs|Hs]%elem_of_app; [by eapply Hv|]. apply list_elem_of_singleton in Hs. by injection Hs as -> -> -> -> ->. }
    simpl in He. destruct (conn d); injection He as <-; [|exact Hok']. by eapply srv_ok_same; [|exact Hok'].
Qed.

Lemma deliver_srv d t r d' : deliver d t r = DNext d' -> srv_part d' = srv_part d.
Proof.
  unfold deliver. destruct (cm_remove _ _) as [cm [k|]]; [|done]. destruct (callers d !! k) as [[? ? []]|] eqn:Hk; try done.
  intros [= <-]. unfold set_pc. simpl. by rewrite Hk.
Qed.

Lemma set_pc_srv d k pc : srv_part (set_pc d k pc) = srv_part d.
Proof. unfold set_pc. by destruct (callers d !! k). Qed.

Lemma dexec_srv st d ev d' : dexec d ev = DNext d' -> srv_ok st d -> srv_ok st d'.
Proof.
  intros He Hok. destruct ev as [req|k|k| |i|x| | | | | |]; cbn [dexec] in He.
  - injection He as <-. by apply (srv_ok_same st d).
  - destruct (callers d !! k) as [[? ? []]|]; try done. destruct (cm_put _ _ _); injection He as <-; (apply (srv_ok_same st d); [|done]; by rewrite set_pc_srv).
  - destruct (callers d !! k) as [[? ? []]|]; try done. injection He as <-. apply (srv_ok_same st d); [|done]. rewrite set_pc_srv. by destruct (conn d).
  - unfold srv_reader in He. destruct (c2s d) as [|m q]; [done|]. injection He as <-. destruct Hok as [Hm Hj Hv]. constructor; simpl; auto.
    intros j [Hin|Hin]%elem_of_app; [by apply Hj|]. apply list_elem_of_singleton in Hin as ->. simpl. split; [done|apply sublist_nil_l].
  - by eapply serve_srv_ok.
  - injection He as <-. replace d with (d <| jobs := jobs d |>) by (by destruct d). apply to_state_ok; [done|right; eauto|by left].
  - destruct (rd d); try done. destruct (s2c d); [done|]. apply deliver_srv in He. by apply (srv_ok_same st d).
  - injection He as <-. by apply (srv_ok_same st d).
  - destruct (rd d); try done. destruct (conn d); [done|]. injection He as <-. by apply (srv_ok_same st d).
  - destruct (rd d); try done. injection He as <-. by apply (srv_ok_same st d).
  - destruct (rd d) as [| |[|]|]; try done; [injection He as <-; by apply (srv_ok_same st d)|]. apply deliver_srv in He. by apply (srv_ok_same st d).
  - destruct (isClosed _); injection He as <-; [done|]. by apply (srv_ok_same st d).
Qed.

Lemma drun_ok st d evs : dmx_ok d -> srv_ok st d -> len (callers d) + len evs < 2 ^ 32 - 2 ->
  exists d', drun d evs = DNext d' /\ dmx_ok d' /\ srv_ok st d' /\ len (callers d') <= len (callers d) + len evs.
Proof.
  revert d. induction evs as [|ev evs IH]; intros d Hd Hs Hl; simpl; [exists d; split_and!; auto; lia|]. simpl in Hl.
  pose proof (dexec_ok d ev Hd) as Hstep. pose proof (dexec_srv st d ev) as Hsv. destruct (dexec d ev) as [| |d1].
  - destruct (IH d Hd Hs) as (d' & ? & ? & ? & ?); [lia|]. exists d'. split_and!; auto; lia.
  - destruct Hstep. lia.
  - destruct Hstep as [Hd1 Hl1]; [lia|]. destruct (IH d1 Hd1 (Hsv d1 eq_refl Hs)) as (d' & ? & ? & ? & ?); [lia|].
    exists d'. split_and!; auto; lia.
Qed.

Lemma drun_keeps d evs d' : dmx_ok d -> len (callers d) + len evs < 2 ^ 32 - 2 -> drun d evs = DNext d' -> dmx_ok d'.
Proof.
  revert d. induction evs as [|ev evs IH]; intros d Hd Hl Hr; simpl in *; [by injection Hr as <-|].
  pose proof (dexec_ok d ev Hd) as Hstep. destruct (dexec d ev) as [| |d1]; [apply (IH d); auto; lia|done|].
  destruct Hstep as [Hd1 Hl1]; [lia|]. apply (IH d1); auto. lia.
Qed.

Lemma NewDemux_ok st : dmx_ok (NewDemux st).
Proof.
  constructor; simpl; try done; try (by intros ? ?%elem_of_nil); try (by constructor); by intros; set_solver.
Qed.

Lemma NewDemux_srv st : srv_ok st (NewDemux st).
Proof.
  constructor; simpl; [|by intros j ?%elem_of_nil|by intros * ?%elem_of_nil]. split; [done|].
  intros [|i] s s' Hs Hs'; [done|by destruct i].
Qed.

(** C35 (safety): replies are matched to their calls.  The server runs one
    goroutine per request, and all of them and its other goroutines change
    its memory in steps that interleave in any way; calls, cuts and closes
    of the connection interleave with that.  With fewer than 2^32 - 2 events:
    the client never exits; no two goroutines that run or have ended serve
    the same tag; and a SendReceive that returns without an error returns
    the reply that the one goroutine for its own request has computed from
    the states in which it found the memory at its steps, states that the
    memory went through in that order. *)
Theorem demux_replies_match (st : St) (evs : list DEvent) : len evs < 2 ^ 32 - 2 ->
  exists d, drun (NewDemux st) evs = DNext d /\ memory_run st (past d ++ [srv_st d]) /\ NoDup ((j_tag <$> jobs d) ++ served_tags d) /\
    forall k c rep ok, callers d !! k = Some c -> c_pc c = Returned (MkReply rep ok false) ->
      c_tag c = Z.of_nat k + 1 /\
      exists seen, (c_tag c, c_req c, rep, ok, seen) ∈ served d /\ seen `sublist_of` past d /\
        thread_run (h_begin (c_req c)) seen = Some (inr (rep, ok)).
Proof.
  intros Hl. destruct (drun_ok st (NewDemux st) evs (NewDemux_ok st) (NewDemux_srv st)) as (d & Hd & Hok & Hs & _); [simpl; lia|].
  exists d. split_and!; [done|apply Hs| |].
  - pose proof (dk_once _ Hok) as Hn. unfold pend in Hn. rewrite fmap_app, <-app_assoc in Hn. apply NoDup_app in Hn as (_ & _ & Hn).
    by rewrite <-list_fmap_compose in Hn.
  - intros k c rep ok Hk Hpc. split; [by apply (dk_tags _ Hok)|]. destruct (dk_answer _ Hok k c rep ok Hk Hpc) as [seen Hin].
    exists seen. destruct (sk_served _ _ Hs _ _ _ _ _ Hin). done.
Qed.

(** *** When the connection is gone *)

Definition settled (c : Caller) : Prop := match c_pc c with WaitReply | Returned _ => True | _ => False end.

Lemma write_fields d k t req : callers d !! k = Some (MkCaller t req Registered) ->
  let d' := set_pc (if conn d then d <| c2s := c2s d ++ [MkMsg t req true] |> else d) k WaitReply in
  (conn d', rd d') = (conn d, rd d) /\ callers d' = <[k := MkCaller t req WaitReply]> (callers d).
Proof. intros Hk. cbv zeta. unfold set_pc. destruct (conn d) eqn:Hc; simpl; rewrite Hk; simpl; by rewrite Hc. Qed.

(** A call that goes on after the cut gets to its channel, or is refused. *)
Lemma go_on d k c : dmx_ok d -> len (callers d) < 2 ^ 32 - 2 -> callers d !! k = Some c ->
  exists d' c', drun d [DPut k; DWrite k] = DNext d' /\ dmx_ok d' /\ (conn d', rd d') = (conn d, rd d) /\
    callers d' = <[k := c']> (callers d) /\ settled c'.
Proof.
  intros Hd Hl Hk. apply lookup_lt_Some in Hk as Hlt. pose proof (dexec_ok d (DPut k) Hd Hl) as H1. cbn [dexec drun] in *.
  destruct c as [t req pc]. rewrite Hk in *. destruct pc as [| | |r]; rewrite ?Hk.
  - unfold cm_put in *. destruct (cm_closed (callmap d)).
    + destruct H1 as [Hd1 _]. rewrite (set_pc_Some _ _ _ _ Hk) in *. cbn [callers set_field set_callers].
      rewrite list_lookup_insert_eq by done. eexists _, _. split_and!; done.
    + destruct H1 as [Hd1 _]. rewrite (set_pc_Some _ _ (MkCaller t req Tagged)) in * by done. set (d1 := _ <| callers := _ |>) in *.
      assert (callers d1 !! k = Some (MkCaller t req Registered)) as Hk1 by (subst d1; simpl; by apply list_lookup_insert_eq).
      rewrite Hk1. destruct (write_fields d1 k t req Hk1) as [Hf Hcs]. eexists _, (MkCaller t req WaitReply).
      split_and!; [done|by apply write_ok|exact Hf| |done]. rewrite Hcs. subst d1. simpl. apply list_insert_insert_eq.
  - destruct (write_fields d k t req Hk) as [Hf Hcs]. eexists _, (MkCaller t req WaitReply). split_and!; [done|by apply write_ok|done..].
  - exists d, (MkCaller t req WaitReply). split_and!; try done. by rewrite list_insert_id.
  - exists d, (MkCaller t req (Returned r)). split_and!; try done. by rewrite list_insert_id.
Qed.

Lemma drun_app d evs1 evs2 : drun d (evs1 ++ evs2) = match drun d evs1 with DNext d1 => drun d1 evs2 | o => o end.
Proof. revert d. induction evs1 as [|ev evs1 IH]; intros d; simpl; [done|]. destruct (dexec d ev); auto. Qed.

Lemma all_go_on d (j : nat) : dmx_ok d -> len (callers d) < 2 ^ 32 - 2 -> (j <= length (callers d))%nat ->
  exists evs d', drun d evs = DNext d' /\ dmx_ok d' /\ (conn d', rd d') = (conn d, rd d) /\
    length (callers d') = length (callers d) /\ forall k c, callers d' !! k = Some c -> (k < j)%nat -> settled c.
Proof.
  intros Hd Hl. induction j as [|j IH]; intros Hj; [exists [], d; split_and!; auto; lia|].
  destruct IH as (evs & d1 & Hr & Hd1 & Hc & Hlen & Hall); [lia|].
  destruct (lookup_lt_is_Some_2 (callers d1) j) as [c Hk]; [lia|].
  destruct (go_on d1 j c Hd1) as (d2 & c' & Hr2 & Hd2 & Hc2 & Hcs & Hset); [lia|done|].
  exists (evs ++ [DPut j; DWrite j]), d2. split_and!; [by rewrite drun_app, Hr|done|congruence|by rewrite Hcs, length_insert|].
  intros k x Hx Hlt. rewrite Hcs in Hx. apply list_lookup_insert_Some in Hx as [(_ & <- & _)|[Hne Hx]]; [done|]. apply (Hall k); [done|lia].
Qed.

(** The reader fails the outstanding calls, all of which listen. *)
Lemma fail_all d ts : dmx_ok d -> len (callers d) < 2 ^ 32 - 2 -> rd d = Failing ts -> (forall k c, callers d !! k = Some c -> settled c) ->
  exists evs d', drun d evs = DNext d' /\ forall k c, callers d' !! k = Some c -> exists r, c_pc c = Returned r.
Proof.
  revert d. induction ts as [|t ts IH]; intros d Hd Hl Hr Hset; pose proof (dk_rd _ Hd) as Hst; rewrite Hr in Hst; destruct Hst as (_ & _ & Hall).
  - exists [], d. split; [done|]. intros k c Hk. specialize (Hset k c Hk). unfold settled in Hset. destruct (c_pc c) eqn:Hpc; try done; [|eauto].
    exfalso. apply (not_elem_of_nil (c_tag c)). apply Hall. exists k. apply (dk_calls _ Hd). exists c. unfold active. by rewrite Hpc.
  - destruct (proj1 (Hall t)) as [k Ht]; [apply list_elem_of_here|]. apply (dk_calls _ Hd) in Ht as Hc. destruct Hc as (c & Hk & Htag & Ha).
    destruct (deliver_ok d t (MkReply [] false true) k c Hd Ht Hk) as (_ & _ & Hdel).
    assert (c_pc c = WaitReply) as Hpc. { specialize (Hset k c Hk). unfold settled, active in *. by destruct (c_pc c). }
    specialize (Hdel (d <| rd := Failing ts |>)). specialize (Hdel eq_refl). rewrite Hpc in Hdel.
    pose proof (deliver_fail_ok d k c t ts Hd Hr Ht Hk Htag Hpc) as Hd1.
    eapply IH in Hd1 as (evs & d' & Hrun & Hret); [|simpl; rewrite length_insert; lia|done|].
    + exists (DFail :: evs), d'. split; [|done]. cbn [drun]. assert (dexec d DFail = DNext _) as -> by (unfold dexec; rewrite Hr; exact Hdel). exact Hrun.
    + intros j x Hx. simpl in Hx. apply list_lookup_insert_Some in Hx as [(_ & <- & _)|[_ Hx]]; [done|eauto].
Qed.

(** C36 (liveness): no call hangs when the connection is gone.  From every state
    of every run (of fewer than 2^32 - 4 events) in which the connection has
    been cut or closed, the calls and the reader can go on until every SendReceive has returned. *)
Theorem demux_no_call_hangs (st : St) (evs : list DEvent) d :
  len evs < 2 ^ 32 - 4 -> drun (NewDemux st) evs = DNext d -> conn d = false ->
  exists evs' d', drun d evs' = DNext d' /\ forall k c, callers d' !! k = Some c -> exists r, c_pc c = Returned r.
Proof.
  intros Hl Hrun Hconn. destruct (drun_ok st (NewDemux st) evs (NewDemux_ok st) (NewDemux_srv st)) as (d0 & Hd0 & Hok & _ & Hlen); [simpl; lia|].
  rewrite Hrun in Hd0. injection Hd0 as <-. simpl in Hlen.
  destruct (all_go_on d (length (callers d)) Hok) as (evs1 & d1 & Hr1 & Hok1 & Hc1 & Hlen1 & Hset); [lia|lia|]. rewrite <-Hlen1 in Hset.
  assert (forall k c, callers d1 !! k = Some c -> settled c) as Hset1 by (intros k c Hk; eapply Hset; [done|]; by apply lookup_lt_Some in Hk).
  assert (exists evs2 d2, drun d1 evs2 = DNext d2 /\ dmx_ok d2 /\ callers d2 = callers d1 /\ exists ts, rd d2 = Failing ts \/ rd d2 = Finished) as
    (evs2 & d2 & Hr2 & Hok2 & Hcs & ts & Hrd).
  { assert (conn d1 = false) as Hcn by congruence.
    assert (forall evs2 d2, drun d1 evs2 = DNext d2 -> len evs2 <= 2 -> callers d2 = callers d1 -> (exists ts, rd d2 = Failing ts \/ rd d2 = Finished) ->
      exists evs2 d2, drun d1 evs2 = DNext d2 /\ dmx_ok d2 /\ callers d2 = callers d1 /\ exists ts, rd d2 = Failing ts \/ rd d2 = Finished) as Hdone.
    { intros evs2 d2 Hd2 Hle Hcs Hrd. exists evs2, d2. split_and!; auto. by apply (drun_keeps d1 evs2); [done|lia|]. }
    destruct (rd d1) as [| |ts|] eqn:Hrd.
    - eapply (Hdone [DReadErr; DOutstanding]); [cbn [drun dexec]; rewrite Hrd, Hcn; done|simpl; lia|done|simpl; eauto].
    - eapply (Hdone [DOutstanding]); [cbn [drun dexec]; rewrite Hrd; done|simpl; lia|done|simpl; eauto].
    - eapply (Hdone []); [done|simpl; lia|done|eauto].
    - eapply (Hdone []); [done|simpl; lia|done|]. exists []. by right. }
  assert (exists evs3 d3, drun d2 evs3 = DNext d3 /\ forall k c, callers d3 !! k = Some c -> exists r, c_pc c = Returned r) as (evs3 & d3 & Hr3 & Hret).
  { destruct Hrd as [Hrd|Hrd].
    - apply (fail_all d2 ts Hok2); [rewrite Hcs; lia|done|by rewrite Hcs].
    - exists [], d2. split; [done|]. intros k c Hk. pose proof (dk_rd _ Hok2) as Hst. rewrite Hrd in Hst. destruct Hst as [_ Hnone].
      rewrite Hcs in Hk. specialize (Hset1 k c Hk). unfold settled in Hset1. destruct (c_pc c) eqn:Hpc; try done; [|eauto].
      exfalso. assert (cm_calls (callmap d2) !! c_tag c = Some k) as Hx; [|by rewrite Hnone in Hx].
      apply (dk_calls _ Hok2). exists c. rewrite Hcs. unfold active. by rewrite Hpc. }
  exists (evs1 ++ evs2 ++ evs3), d3. split; [|done]. by rewrite drun_app, Hr1, drun_app, Hr2.
Qed.

End Demux.

(** ** RPC over sockets (sockrpc) *)

Record RPCArgs : Type := MkRPCArgs { rpc_Method : string; rpc_Args : bytes }.

#[export] Instance RPCArgs_eq_dec : EqDecision RPCArgs.
Proof. solve_decision. Defined.
#[export] Instance RPCArgs_countable : Countable RPCArgs.
Proof. refine (inj_countable' (fun a => (rpc_Method a, rpc_Args a)) (fun '(m, a) => MkRPCArgs m a) _); by intros []. Defined.

Definition SockName (endName : string) : string := "/tmp/6.5840-" +:+ endName.

Section Sock.
Context {St : Type} `{GA : Gob RPCArgs}.

(** [RPCClnt.RPC]: the request, and the result after SendReceive. *)
Definition RPC_request (method : string) (args : bytes) : bytes := Marshall (MkRPCArgs method args).
Definition RPC_result (r : reply) : bytes * bool := if rep_err r then ([], false) else (rep_rep r, rep_ok r).

(** [RPCClnt.RPCMarshall] on the result: [None] exits, [Some None] is false. *)
Definition RPCMarshall_result {R : Type} `{Gob R} (r : reply) : option (option R) :=
  let '(rep, ok) := RPC_result r in
  if negb ok then Some None else x ← Unmarshall (A := R) rep; Some (Some x).

(** [RPCSrv.ServeRequest] *)
Definition RPCSrv_ServeRequest (srv : Server St * St) (b : bytes) : option ((Server St * St) * (bytes * bool)) :=
  req ← Unmarshall (A := RPCArgs) b;
  '(rs, st, r) ← Dispatch (fst srv) (snd srv) (rpc_Method req) (rpc_Args req);
  Some ((rs, st), r).

Lemma RPCSrv_keeps srv b srv' r : RPCSrv_ServeRequest srv b = Some (srv', r) ->
  services (fst srv') = services (fst srv) /\ dispatchf (fst srv') = dispatchf (fst srv).
Proof.
  unfold RPCSrv_ServeRequest, Dispatch, dispatch. cbn [services dispatchf]. destruct (Unmarshall b) as [req|]; cbn [mbind option_bind]; [|done].
  destruct (slice_to _ _); cbn [mbind option_bind]; [|done]. destruct (slice_from _ _); cbn [mbind option_bind]; [|done].
  destruct (dispatchf (fst srv)) as [f|] eqn:Hf.
  - destruct (f _ _ _) as [st' r']. by intros [= <- <-].
  - destruct (services (fst srv) !! _); cbn [mbind option_bind]; [|done].
    destruct (Service_dispatch _ _ _ _) as [[st' rep]|]; cbn [mbind option_bind]; [|done]. by intros [= <- <-].
Qed.

(** The goroutine of a request whose dispatch and handler are one critical
    section, and a process whose other goroutines leave the services alone. *)
Variable others : St -> Z -> St.

Definition RPCSrv_step (srv : Server St * St) (b : bytes) : option ((Server St * St) * (bytes + bytes * bool)) :=
  '(srv, r) ← RPCSrv_ServeRequest srv b; Some (srv, inr r).

Definition RPCSrv_background (srv : Server St * St) (x : Z) : Server St * St := (fst srv, others (snd srv) x).

Lemma memory_keeps srv l : memory_run RPCSrv_step RPCSrv_background srv l ->
  Forall (fun s => services (fst s) = services (fst srv) /\ dispatchf (fst s) = dispatchf (fst srv)) l.
Proof.
  intros [H0 Hl]. apply Forall_lookup. intros i. induction i as [|i IH]; intros s Hs; [rewrite H0 in Hs; by injection Hs as <-|].
  destruct (lookup_lt_is_Some_2 l i) as [s0 Hs0]; [apply lookup_lt_Some in Hs; lia|]. destruct (IH s0 Hs0) as [<- <-].
  destruct (Hl i s0 s Hs0 Hs) as [(h & run & Hstep)|[x ->]]; [|done]. unfold RPCSrv_step in Hstep.
  destruct (RPCSrv_ServeRequest s0 h) as [[s1 r]|] eqn:Hr; [|done]. cbn [mbind option_bind] in Hstep. injection Hstep as -> _. by eapply RPCSrv_keeps.
Qed.

(** An RPC over a socket is a method call.  If RPCMarshall
    returns true for a handler of a service, on any interleaving of calls and
    of what the server's process does, and with any interruption of the
    connection, its reply is what the handler returns in a state that the
    server went through. *)
Theorem sockrpc_is_method_call {A R : Type} `{Gob A} `{Gob R} (rs : Server St) (st : St) (name meth : string)
    (ms : list (Method St)) (f : St -> A -> St * R) (args : A) (evs : list DEvent) d k c r v :
  NoDup (m_name <$> ms) -> handler meth f ∈ ms -> no_dot meth = true ->
  services rs !! name = Some (MakeService name ms) -> dispatchf rs = None -> len evs < 2 ^ 32 - 2 ->
  drun (fun b => b) RPCSrv_step RPCSrv_background (NewDemux (rs, st)) evs = DNext d -> callers d !! k = Some c ->
  c_req c = RPC_request (qualified name meth) (Marshall args) -> c_pc c = Returned r -> RPCMarshall_result r = Some (Some v) ->
  exists srv, srv ∈ past d /\ v = snd (f (snd srv) args).
Proof.
  intros Hnd Hin Hdot Hsvc Hf Hl Hrun Hk Hreq Hpc Hres.
  destruct (drun_ok (fun b => b) RPCSrv_step RPCSrv_background (rs, st) (NewDemux (rs, st)) evs (NewDemux_ok RPCSrv_step RPCSrv_background _) (NewDemux_srv _ _ _ _)) as (d' & Hd' & Hok & Hs & _); [simpl; lia|].
  rewrite Hrun in Hd'. injection Hd' as <-. unfold RPCMarshall_result, RPC_result in Hres. destruct r as [rep ok []]; [done|]. cbn in Hres.
  destruct ok; cbn in Hres; [|done]. destruct (Unmarshall rep) as [x|] eqn:Hx; [|done]. cbn in Hres. injection Hres as ->.
  destruct (dk_answer _ Hok k c rep true Hk Hpc) as [seen Hans]. destruct (sk_served _ _ _ _ _ Hs _ _ _ _ _ Hans) as [Hth Hsub].
  destruct seen as [|srv seen]; [done|]. cbn [thread_run] in Hth. unfold RPCSrv_step in Hth.
  destruct (RPCSrv_ServeRequest srv (c_req c)) as [[srv' r]|] eqn:Hr; [|done]. cbn [mbind option_bind] in Hth.
  destruct seen; [|done]. injection Hth as ->. assert (srv ∈ past d) as Hpast by (by apply singleton_sublist_l). exists srv. split; [done|].
  pose proof (memory_keeps _ _ (sk_memory _ _ _ _ _ Hs)) as Hkeep. rewrite Forall_forall in Hkeep. destruct (Hkeep srv) as [Hsv Hdf]; [by apply elem_of_app; left|].
  cbn [fst] in Hsv, Hdf. unfold RPCSrv_ServeRequest in Hr. rewrite Hreq in Hr.
  unfold RPC_request in Hr. rewrite Unmarshall_Marshall in Hr. cbn [mbind option_bind rpc_Method rpc_Args] in Hr.
  rewrite (dispatch_handler (fst srv) (snd srv) name meth ms f args) in Hr by congruence. cbn [snd mbind option_bind] in Hr. injection Hr as _ <-.
  rewrite Unmarshall_Marshall in Hx. congruence.
Qed.

End Sock.

(** ** Witnesses *)

Definition two_msgs : list msg := [MkMsg 1 [7] true; MkMsg 2 [] false].

Lemma transport_roundtrip_witness : exists j e,
  ReadAll (S (length (take 30 (stream two_msgs)))) (take 30 (stream two_msgs)) = (take j two_msgs, e) /\ e <> Exit.
Proof.
  destruct (transport_roundtrip two_msgs 30) as (j & e & He & Hx & _); [|exists j, e; split; [exact He|exact Hx]].
  apply (bool_decide_unpack _). vm_compute. exact I.
Defined.

(** A server that adds the bytes it gets to a running total, one by one,
    while a ticker resets the total. *)
Definition sum_step (st : Z) (b : bytes) : option (Z * (bytes + bytes * bool)) :=
  match b with [] => Some (st, inr ([st], true)) | x :: b => Some (st + x, inl b) end.
Definition sum_reset (st x : Z) : Z := x.

(** Two calls whose goroutines take turns; the second is answered, then the
    connection is cut before the first is answered. *)
Definition two_calls : list DEvent :=
  [DCall [5; 6]; DCall [7]; DPut 0; DPut 1; DWrite 1; DWrite 0; DSrvRead; DSrvRead; DServe 0; DServe 1; DBackground 100; DServe 1; DServe 0; DServe 0; DRead; DCut].

Definition two_calls_end : @Dmx Z bytes :=
  Eval vm_compute in match drun (fun b => b) sum_step sum_reset (NewDemux 0) two_calls with DNext d => d | _ => NewDemux 0 end.

Lemma demux_replies_match_witness : callers two_calls_end !! 1%nat = Some (MkCaller 2 [7] (Returned (MkReply [106] true false))) /\
  exists seen, (2, [7], [106], true, seen) ∈ served two_calls_end /\ thread_run sum_step [7] seen = Some (inr ([106], true)).
Proof.
  split; [reflexivity|]. destruct (demux_replies_match (fun b => b) sum_step sum_reset 0 two_calls) as (d & Hd & _ & _ & Hc); [vm_compute; reflexivity|].
  assert (d = two_calls_end) as -> by (vm_compute in Hd |- *; by injection Hd as <-).
  destruct (Hc 1%nat (MkCaller 2 [7] (Returned (MkReply [106] true false))) [106] true eq_refl eq_refl) as (_ & seen & Hin & _ & Ht).
  exists seen. split; [exact Hin|exact Ht].
Defined.

Lemma demux_no_call_hangs_witness : conn two_calls_end = false /\
  exists evs' d', drun (fun b => b) sum_step sum_reset two_calls_end evs' = DNext d' /\ forall k c, callers d' !! k = Some c -> exists r, c_pc c = Returned r.
Proof. split; [reflexivity|]. apply (demux_no_call_hangs (fun b => b) sum_step sum_reset 0 two_calls); [vm_compute; reflexivity|vm_compute; reflexivity|reflexivity]. Defined.

(** A Put sent over a socket to the key/value server. *)
Definition put_request : bytes := RPC_request (qualified "KVServer" "Put") (Marshall (MkPutArgs "k" "v" 0)).
Definition put_reply : bytes := Marshall (MkPutReply OK).

Definition sock_put : list DEvent := [DCall put_request; DPut 0; DWrite 0; DSrvRead; DServe 0; DServe 0; DRead].

Definition no_others (kv : KVServer) (x : Z) : KVServer := kv.

Definition sock_put_end : @Dmx (Server KVServer * KVServer) bytes :=
  MkDmx newCallMap 2 [MkCaller 1 put_request (Returned (MkReply put_reply true false))] [] [] [] true Reading
    (MkServer (services kv_server) 1 None, fst (Put MakeKVServer (MkPutArgs "k" "v" 0))) [(kv_server, MakeKVServer)]
    [(1, put_request, put_reply, true, [(kv_server, MakeKVServer)])].

Lemma serve_put : RPCSrv_ServeRequest (kv_server, MakeKVServer) put_request =
  Some (MkServer (services kv_server) 1 None, fst (Put MakeKVServer (MkPutArgs "k" "v" 0)), (put_reply, true)).
Proof.
  unfold RPCSrv_ServeRequest, put_request, RPC_request. rewrite Unmarshall_Marshall. cbn [mbind option_bind rpc_Method rpc_Args fst snd].
  rewrite (dispatch_handler kv_server MakeKVServer "KVServer" "Put" kv_methods Put); [done|..|done|done|done].
  - apply (bool_decide_unpack _). vm_compute. exact I.
  - apply list_elem_of_further, list_elem_of_here.
Qed.

Lemma sock_put_run : drun (fun b => b) RPCSrv_step (RPCSrv_background no_others) (NewDemux (kv_server, MakeKVServer)) sock_put = DNext sock_put_end.
Proof.
  unfold sock_put. pose proof serve_put as H. unfold sock_put_end. revert H. generalize put_request, put_reply, (kv_server, MakeKVServer). intros req rep srv H.
  cbn -[RPCSrv_ServeRequest]. unfold RPCSrv_step. rewrite H. reflexivity.
Qed.

Lemma sockrpc_is_method_call_witness : exists srv, srv ∈ past sock_put_end /\ MkPutReply OK = snd (Put (snd srv) (MkPutArgs "k" "v" 0)).
Proof.
  apply (sockrpc_is_method_call no_others kv_server MakeKVServer "KVServer" "Put" kv_methods Put (MkPutArgs "k" "v" 0) sock_put sock_put_end 0
    (MkCaller 1 put_request (Returned (MkReply put_reply true false))) (MkReply put_reply true false)).
  - apply (bool_decide_unpack _). vm_compute. exact I.
  - apply list_elem_of_further, list_elem_of_here.
  - reflexivity.
  - reflexivity.
  - reflexivity.
  - vm_compute. reflexivity.
  - apply sock_put_run.
  - reflexivity.
  - reflexivity.
  - reflexivity.
  - vm_compute. reflexivity.
Defined.
