(* ===== verification/Labrpc.v ===== *)
(** * The simulated network (src/labrpc/labrpc.go)

    A Network connects client ends to servers and loses requests and replies.
    Each call runs in two goroutines: processReq, which decides what becomes
    of request and reply, and the one that runs the server's handler.  The
    model is their interleaving, step by step, together with the operations
    of the tester on the network.  The theorems: a call executes its handler
    at most once, and exactly once when Call returns true, with that
    execution's reply; a server that was deleted gives no more positive
    replies; and a clerk that retries one call after the other sees the
    executions that the proofs about clerks assume. *)

From S2P Require Import Prelude Rpc KvSrv KvClerk.

(** ** The network *)

(** Names of ends and servers are strings; a [*Server] is a number. *)
Record Network : Type := MkNetwork {
  reliable : bool;
  longDelays : bool;
  longReordering : bool;
  ends : gset string;
  enabled : gmap string bool;
  servers : gmap string (option Z);
  connections : gmap string (option string);
  closed : bool;                     (* the channel [done] *)
  count : Z;                         (* int32 *)
}.

Definition MakeNetwork : Network := MkNetwork true false false ∅ ∅ ∅ ∅ false 0.

Definition Cleanup (rn : Network) : Network :=
  MkNetwork (reliable rn) (longDelays rn) (longReordering rn) (ends rn) (enabled rn) (servers rn) (connections rn) true (count rn).
Definition Reliable (rn : Network) (yes : bool) : Network :=
  MkNetwork yes (longDelays rn) (longReordering rn) (ends rn) (enabled rn) (servers rn) (connections rn) (closed rn) (count rn).
Definition IsReliable (rn : Network) : bool := reliable rn.
Definition LongReordering (rn : Network) (yes : bool) : Network :=
  MkNetwork (reliable rn) (longDelays rn) yes (ends rn) (enabled rn) (servers rn) (connections rn) (closed rn) (count rn).
Definition LongDelays (rn : Network) (yes : bool) : Network :=
  MkNetwork (reliable rn) yes (longReordering rn) (ends rn) (enabled rn) (servers rn) (connections rn) (closed rn) (count rn).
Definition IsLongDelays (rn : Network) : bool := longDelays rn.

(** The zero value of a missing map entry is false or nil. *)
Definition readEndnameInfo (rn : Network) (endname : string) : bool * option string * option Z * bool * bool :=
  let servername := default None (connections rn !! endname) in
  (default false (enabled rn !! endname), servername,
   s ← servername; default None (servers rn !! s),
   reliable rn, longReordering rn).

Definition isServerDead (rn : Network) (endname servername : string) (server : Z) : bool :=
  negb (default false (enabled rn !! endname)) || negb (bool_decide (default None (servers rn !! servername) = Some server)).

(** [None] is a log.Fatalf. *)
Definition MakeEnd (rn : Network) (endname : string) : option Network :=
  if bool_decide (endname ∈ ends rn) then None
  else Some (MkNetwork (reliable rn) (longDelays rn) (longReordering rn) ({[endname]} ∪ ends rn) (<[endname := false]> (enabled rn))
               (servers rn) (<[endname := None]> (connections rn)) (closed rn) (count rn)).

Definition LookupEnd (rn : Network) (endname : string) : option string :=
  if bool_decide (endname ∈ ends rn) then Some endname else None.

Definition DeleteEnd (rn : Network) (endname : string) : option Network :=
  if negb (bool_decide (endname ∈ ends rn)) then None
  else Some (MkNetwork (reliable rn) (longDelays rn) (longReordering rn) (ends rn ∖ {[endname]}) (delete endname (enabled rn))
               (servers rn) (delete endname (connections rn)) (closed rn) (count rn)).

Definition set_servers (rn : Network) (m : gmap string (option Z)) : Network :=
  MkNetwork (reliable rn) (longDelays rn) (longReordering rn) (ends rn) (enabled rn) m (connections rn) (closed rn) (count rn).
Definition AddServer (rn : Network) (servername : string) (rs : Z) : Network := set_servers rn (<[servername := Some rs]> (servers rn)).
Definition DeleteServer (rn : Network) (servername : string) : Network := set_servers rn (<[servername := None]> (servers rn)).
Definition Connect (rn : Network) (endname servername : string) : Network :=
  MkNetwork (reliable rn) (longDelays rn) (longReordering rn) (ends rn) (enabled rn) (servers rn)
    (<[endname := Some servername]> (connections rn)) (closed rn) (count rn).
Definition Enable (rn : Network) (endname : string) (yes : bool) : Network :=
  MkNetwork (reliable rn) (longDelays rn) (longReordering rn) (ends rn) (<[endname := yes]> (enabled rn)) (servers rn)
    (connections rn) (closed rn) (count rn).
Definition GetTotalCount (rn : Network) : Z := count rn.

(** [atomic.AddInt32(&rn.count, 1)] *)
Definition count_call (rn : Network) : Network :=
  MkNetwork (reliable rn) (longDelays rn) (longReordering rn) (ends rn) (enabled rn) (servers rn) (connections rn) (closed rn)
    ((count rn + 1 + 2 ^ 31) mod 2 ^ 32 - 2 ^ 31).

(** ** Calls *)

(** What processReq has read: server name, server, reliable, longreordering. *)
Record Info : Type := MkInfo { i_name : string; i_server : Z; i_reliable : bool; i_reordering : bool }.

(** Where processReq is.  [Rep] is the type of encoded replies; [None] for
    a reply is [replyMsg{false, nil}]. *)
Inductive ReqState (Rep : Type) : Type :=
| Sent                               (* received from the channel *)
| Accepted (inf : Info)              (* before the request is dropped or dispatched *)
| Waiting (inf : Info)               (* in the loop that waits for the handler *)
| Replying (r : option Rep)          (* a timer is set to send the reply *)
| Returned (r : option Rep).         (* the reply was sent: Call returns *)
Arguments Sent {Rep}.
Arguments Accepted {Rep} inf.
Arguments Waiting {Rep} inf.
Arguments Replying {Rep} r.
Arguments Returned {Rep} r.

(** The goroutine of the handler. *)
Inductive HandlerState (Rep : Type) : Type := NotStarted | Running | Executed (r : Rep).
Arguments NotStarted {Rep}.
Arguments Running {Rep}.
Arguments Executed {Rep} r.

Record NetCall (Rep : Type) : Type := MkNetCall { c_end : string; c_req : ReqState Rep; c_handler : HandlerState Rep }.
Arguments MkNetCall {Rep} c_end c_req c_handler.
Arguments c_end {Rep} n.
Arguments c_req {Rep} n.
Arguments c_handler {Rep} n.

(** What can be observed: handler executions and returns of Call. *)
Inductive NetObs : Type := OExec (i : nat) | OReturn (i : nat) (ok : bool).

Record NetSys (Rep : Type) : Type := MkNetSys { net : Network; calls : list (NetCall Rep); obs : list NetObs }.
Arguments MkNetSys {Rep} net calls obs.
Arguments net {Rep} n.
Arguments calls {Rep} n.
Arguments obs {Rep} n.

Inductive NetEvent : Type :=
| ECall (endname : string)           (* a client calls; the network's goroutine receives the request *)
| ERead (i : nat)                    (* processReq reads the network's state *)
| EAdmit (i : nat) (rnd : Z)         (* it drops or dispatches the request; [rnd] is rand.Int() *)
| EHandler (i : nat)                 (* the handler runs *)
| ETimer (i : nat)                   (* 100 ms pass without the handler's reply *)
| EReceive (i : nat) (rnd : Z) (rnd2 : Z) (* processReq gets the handler's reply *)
| EFire (i : nat)                    (* the timer of a delayed reply fires *)
| ECleanup | EReliable (yes : bool) | ELongReordering (yes : bool) | ELongDelays (yes : bool)
| EMakeEnd (e : string) | EDeleteEnd (e : string)
| EAddServer (s : string) (p : Z) | EDeleteServer (s : string)
| EConnect (e s : string) | EEnable (e : string) (yes : bool).

Section Net.
Context {Rep : Type}.

(** The reply of the handler to call [i] after the executions [h]. *)
Context (handle : list nat -> nat -> Rep).

Abbreviation sys := (NetSys Rep).

Definition executions (o : list NetObs) : list nat :=
  omap (fun x => match x with OExec i => Some i | OReturn _ _ => None end) o.

Definition set_net (s : sys) (rn : Network) : sys := MkNetSys rn (calls s) (obs s).

Definition set_call (s : sys) (i : nat) (c : NetCall Rep) (o : list NetObs) : sys :=
  MkNetSys (net s) (<[i := c]> (calls s)) (obs s ++ o).

Definition is_some {A} (r : option A) : bool := match r with Some _ => true | None => false end.

(** [req.replyCh <- r] *)
Definition send_reply (s : sys) (i : nat) (c : NetCall Rep) (r : option Rep) : sys :=
  set_call s i (MkNetCall (c_end c) (Returned r) (c_handler c)) [OReturn i (is_some r)].

Definition delay_reply (s : sys) (i : nat) (c : NetCall Rep) (r : option Rep) : sys :=
  set_call s i (MkNetCall (c_end c) (Replying r) (c_handler c)) [].

(** ClientEnd.Call up to the receipt of its request by the network; once the
    network is cleaned up it returns false.  (The variant for server daemons,
    which forwards the encoded call through [callf], is in Forward.v.) *)
Definition net_call (s : sys) (e : string) : sys :=
  if closed (net s)
  then MkNetSys (net s) (calls s ++ [MkNetCall e (Returned None) NotStarted]) (obs s ++ [OReturn (length (calls s)) false])
  else MkNetSys (count_call (net s)) (calls s ++ [MkNetCall e Sent NotStarted]) (obs s).

(** One step; an event that is not enabled changes nothing, [None] is a
    log.Fatalf of the tester. *)
Definition net_step (s : sys) (ev : NetEvent) : option sys :=
  match ev with
  | ECall e => Some (net_call s e)
  | ERead i =>
      Some match calls s !! i with
           | Some ((MkNetCall e Sent h) as c) =>
               match readEndnameInfo (net s) e with
               | (true, Some name, Some server, rel, reord) => set_call s i (MkNetCall e (Accepted (MkInfo name server rel reord)) h) []
               | _ => delay_reply s i c None
               end
           | _ => s
           end
  | EAdmit i rnd =>
      Some match calls s !! i with
           | Some ((MkNetCall e (Accepted inf) h) as c) =>
               if negb (i_reliable inf) && (rnd mod 1000 <? 100) then send_reply s i c None
               else set_call s i (MkNetCall e (Waiting inf) Running) []
           | _ => s
           end
  | EHandler i =>
      Some match calls s !! i with
           | Some (MkNetCall e q Running) =>
               set_call s i (MkNetCall e q (Executed (handle (executions (obs s)) i))) [OExec i]
           | _ => s
           end
  | ETimer i =>
      Some match calls s !! i with
           | Some ((MkNetCall e (Waiting inf) h) as c) =>
               if isServerDead (net s) e (i_name inf) (i_server inf) then send_reply s i c None else s
           | _ => s
           end
  | EReceive i rnd rnd2 =>
      Some match calls s !! i with
           | Some ((MkNetCall e (Waiting inf) (Executed r)) as c) =>
               if isServerDead (net s) e (i_name inf) (i_server inf) then send_reply s i c None
               else if negb (i_reliable inf) && (rnd mod 1000 <? 100) then send_reply s i c None
               else if i_reordering inf && (rnd2 mod 900 <? 600) then delay_reply s i c (Some r)
               else send_reply s i c (Some r)
           | _ => s
           end
  | EFire i =>
      Some match calls s !! i with
           | Some ((MkNetCall e (Replying r) h) as c) => send_reply s i c r
           | _ => s
           end
  | ECleanup => Some (set_net s (Cleanup (net s)))
  | EReliable b => Some (set_net s (Reliable (net s) b))
  | ELongReordering b => Some (set_net s (LongReordering (net s) b))
  | ELongDelays b => Some (set_net s (LongDelays (net s) b))
  | EMakeEnd e => rn ← MakeEnd (net s) e; Some (set_net s rn)
  | EDeleteEnd e => rn ← DeleteEnd (net s) e; Some (set_net s rn)
  | EAddServer n p => Some (set_net s (AddServer (net s) n p))
  | EDeleteServer n => Some (set_net s (DeleteServer (net s) n))
  | EConnect e n => Some (set_net s (Connect (net s) e n))
  | EEnable e b => Some (set_net s (Enable (net s) e b))
  end.

Fixpoint net_run (s : sys) (evs : list NetEvent) : option sys :=
  match evs with [] => Some s | ev :: evs => s ← net_step s ev; net_run s evs end.

Definition net_init : sys := MkNetSys MakeNetwork [] [].

(** ** The invariant of calls *)

(** The executions of call [i], as its handler's goroutine knows them. *)
Definition exec_ok (o : list NetObs) (i : nat) (h : HandlerState Rep) : Prop :=
  match h with
  | Executed r => exists h1 h2, executions o = h1 ++ i :: h2 /\ (i ∉ h1) /\ (i ∉ h2) /\ r = handle h1 i
  | _ => i ∉ executions o
  end.

Definition req_ok (q : ReqState Rep) (h : HandlerState Rep) : Prop :=
  match q with
  | Sent | Accepted _ => h = NotStarted
  | Waiting _ => h <> NotStarted
  | Replying (Some r) | Returned (Some r) => h = Executed r
  | Replying None | Returned None => True
  end.

Definition net_ok (s : sys) : Prop :=
  (forall i c, calls s !! i = Some c -> exec_ok (obs s) i (c_handler c) /\ req_ok (c_req c) (c_handler c)) /\
  (forall i, i ∈ executions (obs s) -> (i < length (calls s))%nat).

Lemma executions_app o1 o2 : executions (o1 ++ o2) = executions o1 ++ executions o2.
Proof. apply omap_app. Qed.

(** An observation about another call. *)
Lemma exec_ok_other o i j h : i <> j -> exec_ok o i h -> exec_ok (o ++ [OExec j]) i h.
Proof.
  intros Hne. unfold exec_ok. rewrite executions_app. simpl. destruct h as [| |r]; try set_solver.
  intros (h1 & h2 & -> & H1 & H2 & ->). exists h1, (h2 ++ [j]). rewrite <-app_assoc. split_and!; auto. set_solver.
Qed.

Lemma exec_ok_return o i j b h : exec_ok o i h -> exec_ok (o ++ [OReturn j b]) i h.
Proof. unfold exec_ok. rewrite executions_app. simpl. by rewrite app_nil_r. Qed.

(** Only the state of processReq changes. *)
Lemma net_ok_req s i c q o : net_ok s -> calls s !! i = Some c -> (o = [] \/ exists b, o = [OReturn i b]) ->
  req_ok q (c_handler c) -> net_ok (set_call s i (MkNetCall (c_end c) q (c_handler c)) o).
Proof.
  intros [Hok Hlt] Hi Ho Hq. assert (forall j h, exec_ok (obs s) j h -> exec_ok (obs s ++ o) j h) as Hex.
  { intros j h Hj. destruct Ho as [->|[b ->]]; [by rewrite app_nil_r|by apply exec_ok_return]. }
  split; simpl.
  - intros j cj Hj. apply list_lookup_insert_Some in Hj as [(<- & <- & _)|[_ Hj]]; simpl.
    + split; [|done]. apply Hex. by apply (Hok i c).
    + destruct (Hok j cj Hj). auto.
  - intros j. rewrite executions_app, length_insert. destruct Ho as [->|[b ->]]; simpl; rewrite app_nil_r; auto.
Qed.

Lemma net_ok_set_net s rn : net_ok s -> net_ok (set_net s rn).
Proof. done. Qed.

Lemma net_ok_ECall s s' e : net_ok s -> net_step s (ECall e) = Some s' -> net_ok s'.
Proof.
  intros [Hok Hlt] Hs. assert (length (calls s) ∉ executions (obs s)) as Hnew by (intros H%Hlt; lia).
  assert (forall (c : NetCall Rep) o rn, c_handler c = NotStarted -> req_ok (c_req c) NotStarted -> (o = [] \/ exists b, o = [OReturn (length (calls s)) b]) ->
    net_ok (MkNetSys rn (calls s ++ [c]) (obs s ++ o))) as Hadd.
  { intros c o rn Hh Hq Ho. assert (executions (obs s ++ o) = executions (obs s)) as E.
    { rewrite executions_app. destruct Ho as [->|[b ->]]; by rewrite app_nil_r. }
    split; simpl.
    - intros j cj Hj. unfold exec_ok. rewrite E. apply lookup_app_Some in Hj as [Hj|[Hge Hj]]; [by apply Hok|].
      apply list_lookup_singleton_Some in Hj as [Hz <-]. rewrite Hh. replace j with (length (calls s)) by lia. auto.
    - intros j. rewrite E, length_app. intros Hj%Hlt. lia. }
  simpl in Hs. unfold net_call in Hs. destruct (closed (net s)); injection Hs as <-; [apply Hadd; simpl; eauto|].
  rewrite <-(app_nil_r (obs s)). apply Hadd; simpl; auto.
Qed.

Lemma net_ok_EHandler s s' i : net_ok s -> net_step s (EHandler i) = Some s' -> net_ok s'.
Proof.
  intros [Hok Hlt] Hs. simpl in Hs. destruct (calls s !! i) as [[e q [| |r]]|] eqn:Hi; injection Hs as <-; [by split..| |by split|by split].
  destruct (Hok i _ Hi) as [Hex Hq]. simpl in Hex, Hq. split; simpl.
  - intros j cj Hj. apply list_lookup_insert_Some in Hj as [(<- & <- & _)|[Hne Hj]]; simpl.
    + split; [|destruct q as [|?|?|[?|]|[?|]]; simpl in *; done].
      exists (executions (obs s)), []. rewrite executions_app. simpl. split_and!; auto. apply not_elem_of_nil.
    + destruct (Hok j cj Hj). split; [|done]. by apply exec_ok_other.
  - intros j. rewrite executions_app, length_insert. simpl. intros [Hj|Hj]%elem_of_app; [auto|].
    apply list_elem_of_singleton in Hj as ->. by eapply lookup_lt_Some.
Qed.

Lemma net_step_ok s ev s' : net_ok s -> net_step s ev = Some s' -> net_ok s'.
Proof.
  intros Hok Hs. destruct ev; try (by eapply net_ok_ECall); try (by eapply net_ok_EHandler); simpl in Hs.
  - destruct (calls s !! i) as [[e [|?|?|?|?] h]|] eqn:Hi; injection Hs as <-; try done.
    destruct (proj1 Hok i _ Hi) as [_ Hq]. simpl in Hq.
    repeat case_match; by apply (net_ok_req s i (MkNetCall e Sent h) _ [] Hok Hi); [left|].
  - destruct (calls s !! i) as [[e [|?|?|?|?] h]|] eqn:Hi; injection Hs as <-; try done.
    destruct (_ && _); [by apply (net_ok_req s i _ _ _ Hok Hi); [eauto|]|].
    destruct (proj1 Hok i _ Hi) as [Hex Hq]. simpl in Hex, Hq. subst h. destruct Hok as [Hok Hlt]. unfold set_call. rewrite app_nil_r.
    split; simpl; [|by rewrite length_insert]. intros j cj Hj.
    apply list_lookup_insert_Some in Hj as [(<- & <- & _)|[Hne Hj]]; [done|by apply Hok].
  - destruct (calls s !! i) as [[e [|?|?|?|?] h]|] eqn:Hi; injection Hs as <-; try done.
    destruct (isServerDead _ _ _ _); [|done]. by apply (net_ok_req s i _ _ _ Hok Hi); [eauto|].
  - destruct (calls s !! i) as [[e [|?|inf|?|?] [| |r]]|] eqn:Hi; injection Hs as <-; try done.
    destruct (isServerDead _ _ _ _); [by apply (net_ok_req s i _ _ _ Hok Hi); [eauto|]|].
    destruct (negb _ && _); [by apply (net_ok_req s i _ _ _ Hok Hi); [eauto|]|].
    destruct (_ && _); [by apply (net_ok_req s i _ _ [] Hok Hi); [eauto|]|by apply (net_ok_req s i _ _ _ Hok Hi); [eauto|]].
  - destruct (calls s !! i) as [[e [|?|?|r|?] h]|] eqn:Hi; injection Hs as <-; try done.
    destruct (proj1 Hok i _ Hi) as [_ Hq]. by apply (net_ok_req s i _ _ _ Hok Hi); [eauto|].
  - by injection Hs as <-.
  - by injection Hs as <-.
  - by injection Hs as <-.
  - by injection Hs as <-.
  - destruct (MakeEnd _ _); simpl in Hs; simplify_eq. done.
  - destruct (DeleteEnd _ _); simpl in Hs; simplify_eq. done.
  - by injection Hs as <-.
  - by injection Hs as <-.
  - by injection Hs as <-.
  - by injection Hs as <-.
Qed.

Lemma net_run_ok s evs s' : net_ok s -> net_run s evs = Some s' -> net_ok s'.
Proof.
  revert s. induction evs as [|ev evs IH]; intros s Hok Hr; simpl in Hr; [by simplify_eq|].
  destruct (net_step s ev) as [s1|] eqn:Hs; [|done]. simpl in Hr. by eapply IH; [eapply net_step_ok|].
Qed.

Lemma net_init_ok : net_ok net_init.
Proof. split; simpl; [done|]. intros i Hi. by apply elem_of_nil in Hi. Qed.

(** ** Deleted servers *)

(** Call [i] waits for a server that is no longer registered, or has failed. *)
Definition cut_off (inf : Info) (i : nat) (s : sys) : Prop :=
  default None (servers (net s) !! i_name inf) <> Some (i_server inf) /\
  exists c, calls s !! i = Some c /\
    (c_req c = Accepted inf \/ c_req c = Waiting inf \/ c_req c = Replying None \/ c_req c = Returned None).

Lemma cut_off_dead inf i s e : cut_off inf i s -> isServerDead (net s) e (i_name inf) (i_server inf) = true.
Proof. intros [Hne _]. unfold isServerDead. rewrite bool_decide_false by done. by rewrite orb_true_r. Qed.

Lemma cut_off_set_call inf i s j c' o : cut_off inf i s ->
  (i = j -> c_req c' = Accepted inf \/ c_req c' = Waiting inf \/ c_req c' = Replying None \/ c_req c' = Returned None) ->
  cut_off inf i (set_call s j c' o).
Proof.
  intros [Hne (c & Hc & Hq)] Hj. split; [done|]. simpl. destruct (decide (i = j)) as [->|Hij].
  - exists c'. split; [|by apply Hj]. apply list_lookup_insert_eq. by eapply lookup_lt_Some.
  - exists c. split; [by rewrite list_lookup_insert_ne|done].
Qed.

Lemma cut_off_step inf i s ev s' : cut_off inf i s -> ev <> EAddServer (i_name inf) (i_server inf) ->
  net_step s ev = Some s' -> cut_off inf i s'.
Proof.
  intros Hcut Hev Hs. pose proof Hcut as [Hne (c & Hc & Hq)]. destruct ev; simpl in Hs.
  - unfold net_call in Hs. destruct (closed (net s)); injection Hs as <-; (split; [done|]; exists c; split; [by apply lookup_app_l_Some|done]).
  - destruct (calls s !! i0) as [[e [|?|?|?|?] h]|] eqn:Hi; injection Hs as <-; try done.
    repeat case_match; apply cut_off_set_call; auto; intros ->; rewrite Hi in Hc; simplify_eq; simpl in *; naive_solver.
  - destruct (calls s !! i0) as [[e [|inf'|?|?|?] h]|] eqn:Hi; injection Hs as <-; try done.
    destruct (_ && _); apply cut_off_set_call; auto; intros ->; rewrite Hi in Hc; simplify_eq; simpl in *; naive_solver.
  - destruct (calls s !! i0) as [[e q [| |r]]|] eqn:Hi; injection Hs as <-; try done.
    apply cut_off_set_call; auto. intros ->. rewrite Hi in Hc. by simplify_eq.
  - destruct (calls s !! i0) as [[e [|?|?|?|?] h]|] eqn:Hi; injection Hs as <-; try done.
    destruct (isServerDead _ _ _ _); [|done]. apply cut_off_set_call; auto.
  - destruct (calls s !! i0) as [[e [|?|inf'|?|?] [| |r]]|] eqn:Hi; injection Hs as <-; try done.
    destruct (isServerDead _ _ _ _) eqn:Hd; [apply cut_off_set_call; auto|].
    assert (i <> i0) as Hii.
    { intros ->. rewrite Hi in Hc. simplify_eq. simpl in Hq. assert (inf' = inf) as -> by naive_solver.
      by rewrite (cut_off_dead inf i0) in Hd. }
    destruct (_ && _); [apply cut_off_set_call; auto|]. destruct (_ && _); apply cut_off_set_call; auto; done.
  - destruct (calls s !! i0) as [[e [|?|?|r|?] h]|] eqn:Hi; injection Hs as <-; try done.
    apply cut_off_set_call; auto. intros ->. rewrite Hi in Hc. simplify_eq. simpl in *. naive_solver.
  - by injection Hs as <-.
  - by injection Hs as <-.
  - by injection Hs as <-.
  - by injection Hs as <-.
  - unfold MakeEnd in Hs. destruct (bool_decide _); simpl in Hs; simplify_eq. done.
  - unfold DeleteEnd in Hs. destruct (bool_decide _); simpl in Hs; simplify_eq. done.
  - injection Hs as <-. split; [|eauto]. simpl. rewrite lookup_insert. case_decide as Hn; simpl; [|done]. naive_solver.
  - injection Hs as <-. split; [|eauto]. simpl. rewrite lookup_insert. by case_decide.
  - by injection Hs as <-.
  - by injection Hs as <-.
Qed.

(** ** Calls made one after the other *)

Definition returned_none (c : NetCall Rep) : bool := match c_req c with Returned None => true | _ => false end.

(** The failed calls, in the state and in what was observed. *)
Definition failed_calls (s : sys) : nat := length (filter (fun c => returned_none c = true) (calls s)).
Definition fails (o : list NetObs) : nat := length (filter (fun x => match x with OReturn _ false => true | _ => false end = true) o).

Lemma fails_app o1 o2 : fails (o1 ++ o2) = (fails o1 + fails o2)%nat.
Proof. unfold fails. by rewrite filter_app, length_app. Qed.

Lemma count_insert {A} (P : A -> bool) l i x :
  (length (filter (fun c => P c = true) (<[i := x]> l)) <= length (filter (fun c => P c = true) l) + (if P x then 1 else 0))%nat.
Proof.
  revert i. induction l as [|y l IH]; intros [|i]; simpl; [lia|lia| |].
  - rewrite !filter_cons. destruct (P x) eqn:Hx, (P y) eqn:Hy; simpl; repeat case_decide; simpl; try done; lia.
  - rewrite !filter_cons. specialize (IH i). destruct (P y); simpl; repeat case_decide; simpl in *; try done; lia.
Qed.

Lemma count_insert_same {A} (P : A -> bool) l i x y : l !! i = Some y -> P y = P x ->
  length (filter (fun c => P c = true) (<[i := x]> l)) = length (filter (fun c => P c = true) l).
Proof.
  intros Hi HP. revert i Hi. induction l as [|z l IH]; intros [|i] Hi; simpl in *; simplify_eq; rewrite !filter_cons.
  - rewrite HP. by case_decide.
  - case_decide; simpl; by rewrite (IH i).
Qed.

Lemma failed_set_call s i c o : (failed_calls s <= fails (obs s))%nat ->
  (returned_none c = true -> o = [OReturn i false]) -> (failed_calls (set_call s i c o) <= fails (obs (set_call s i c o)))%nat.
Proof.
  intros Hle Ho. unfold failed_calls in *. simpl. rewrite fails_app. pose proof (count_insert returned_none (calls s) i c).
  destruct (returned_none c); [rewrite Ho by done; unfold fails at 2; simpl; lia|lia].
Qed.

Lemma failed_step s ev s' : (failed_calls s <= fails (obs s))%nat -> net_step s ev = Some s' -> (failed_calls s' <= fails (obs s'))%nat.
Proof.
  intros Hle Hs. destruct ev; simpl in Hs.
  - unfold failed_calls, net_call in *. destruct (closed (net s)); injection Hs as <-; simpl; rewrite filter_app, length_app, ?fails_app; simpl; [|lia].
    unfold fails at 2. simpl. lia.
  - destruct (calls s !! i) as [[e [|?|?|?|?] h]|]; injection Hs as <-; try done. repeat case_match; by apply failed_set_call.
  - destruct (calls s !! i) as [[e [|?|?|?|?] h]|]; injection Hs as <-; try done. destruct (_ && _); by apply failed_set_call.
  - destruct (calls s !! i) as [[e [|?|?|?|[?|]] [| |r]]|] eqn:Hi; injection Hs as <-; try done; try (by apply failed_set_call).
    unfold failed_calls in *. simpl. rewrite fails_app, (count_insert_same _ _ i _ _ Hi) by done. lia.
  - destruct (calls s !! i) as [[e [|?|?|?|?] h]|]; injection Hs as <-; try done. destruct (isServerDead _ _ _ _); [|done]. by apply failed_set_call.
  - destruct (calls s !! i) as [[e [|?|?|?|?] [| |r]]|]; injection Hs as <-; try done. repeat case_match; by apply failed_set_call.
  - destruct (calls s !! i) as [[e [|?|?|[r|]|?] h]|]; injection Hs as <-; try done; by apply failed_set_call.
  - by injection Hs as <-.
  - by injection Hs as <-.
  - by injection Hs as <-.
  - by injection Hs as <-.
  - destruct (MakeEnd _ _); simpl in Hs; by simplify_eq.
  - destruct (DeleteEnd _ _); simpl in Hs; by simplify_eq.
  - by injection Hs as <-.
  - by injection Hs as <-.
  - by injection Hs as <-.
  - by injection Hs as <-.
Qed.

(** The calls are made one after the other: a new one only when all earlier
    ones have failed. *)
Fixpoint sequential (s : sys) (evs : list NetEvent) : Prop :=
  match evs with
  | [] => True
  | ev :: evs =>
      match ev with ECall _ => Forall (fun c => returned_none c = true) (calls s) | _ => True end /\
      match net_step s ev with None => True | Some s' => sequential s' evs end
  end.

(** All calls but the last have failed. *)
Definition one_open (s : sys) : Prop :=
  forall j c, calls s !! j = Some c -> (S j < length (calls s))%nat -> returned_none c = true.

Lemma one_open_fails s : one_open s -> (failed_calls s <= fails (obs s))%nat -> (length (calls s) <= S (fails (obs s)))%nat.
Proof.
  intros Ho Hf. etrans; [|apply le_n_S, Hf]. unfold failed_calls, one_open in *. clear Hf.
  destruct (calls s) as [|c l _] using rev_ind; [simpl; lia|]. rewrite filter_app, !length_app. simpl.
  enough (length (filter (fun c => returned_none c = true) l) = length l) by lia.
  assert (Forall (fun c => returned_none c = true) l) as Hall.
  { apply Forall_lookup. intros j cj Hj. apply (Ho j cj); [by apply lookup_app_l_Some|].
    rewrite length_app. simpl. pose proof (lookup_lt_Some _ _ _ Hj). lia. }
  clear Ho. induction Hall as [|x l Hx _ IH]; [done|]. rewrite filter_cons, decide_True by done. simpl. by rewrite IH.
Qed.

(** A step that makes no call leaves failed calls failed. *)
Lemma one_open_step s ev s' : one_open s -> match ev with ECall _ => Forall (fun c => returned_none c = true) (calls s) | _ => True end ->
  net_step s ev = Some s' -> one_open s'.
Proof.
  intros Ho Hev Hs.
  assert (forall i c c' o, calls s !! i = Some c -> (returned_none c = true -> returned_none c' = true) -> one_open (set_call s i c' o)) as Hset.
  { intros i c c' o Hi Hc j cj Hj Hlt. simpl in *. rewrite length_insert in Hlt.
    apply list_lookup_insert_Some in Hj as [(<- & <- & _)|[_ Hj]]; [apply Hc; by apply (Ho i c)|by apply (Ho j cj)]. }
  destruct ev; simpl in Hs.
  - assert (forall rn c o, one_open (MkNetSys rn (calls s ++ [c]) o)) as Hadd.
    { intros rn c o j cj Hj Hlt. simpl in *. rewrite length_app in Hlt. simpl in Hlt.
      rewrite lookup_app_l in Hj by lia. exact (proj1 (Forall_lookup _ _) Hev j cj Hj). }
    unfold net_call in Hs. destruct (closed (net s)); injection Hs as <-; apply Hadd.
  - destruct (calls s !! i) as [[e [|?|?|?|?] h]|] eqn:Hi; injection Hs as <-; try done. repeat case_match; by eapply Hset.
  - destruct (calls s !! i) as [[e [|?|?|?|?] h]|] eqn:Hi; injection Hs as <-; try done. destruct (_ && _); by eapply Hset.
  - destruct (calls s !! i) as [[e q [| |r]]|] eqn:Hi; injection Hs as <-; try done. by eapply Hset.
  - destruct (calls s !! i) as [[e [|?|?|?|?] h]|] eqn:Hi; injection Hs as <-; try done. destruct (isServerDead _ _ _ _); [|done]. by eapply Hset.
  - destruct (calls s !! i) as [[e [|?|?|?|?] [| |r]]|] eqn:Hi; injection Hs as <-; try done. repeat case_match; by eapply Hset.
  - destruct (calls s !! i) as [[e [|?|?|?|?] h]|] eqn:Hi; injection Hs as <-; try done. by eapply Hset.
  - by injection Hs as <-.
  - by injection Hs as <-.
  - by injection Hs as <-.
  - by injection Hs as <-.
  - destruct (MakeEnd _ _); simpl in Hs; by simplify_eq.
  - destruct (DeleteEnd _ _); simpl in Hs; by simplify_eq.
  - by injection Hs as <-.
  - by injection Hs as <-.
  - by injection Hs as <-.
  - by injection Hs as <-.
Qed.

(** Every execution of call [j] comes after at least [j] failures. *)
Definition exec_after_fails (o : list NetObs) : Prop :=
  forall o1 o2 j, o = o1 ++ OExec j :: o2 -> (j <= fails o1)%nat.

Lemma exec_after_fails_snoc o x : exec_after_fails o -> (forall j, x = OExec j -> (j <= fails o)%nat) -> exec_after_fails (o ++ [x]).
Proof.
  intros Ho Hx o1 o2 j E. destruct o2 as [|y o2 _] using rev_ind.
  - apply app_inj_tail in E as [-> ->]. by apply Hx.
  - rewrite app_comm_cons, app_assoc in E. apply app_inj_tail in E as [E ->]. by apply (Ho o1 o2).
Qed.

(** What a step adds to the observations. *)
Lemma step_obs s ev s' : net_step s ev = Some s' ->
  exists o, obs s' = obs s ++ o /\
    (o = [] \/ (exists i b, o = [OReturn i b]) \/ (exists i, o = [OExec i] /\ (i < length (calls s))%nat)).
Proof.
  assert (forall s1 : sys, obs s1 = obs s -> exists o, obs s1 = obs s ++ o /\
    (o = [] \/ (exists i b, o = [OReturn i b]) \/ (exists i, o = [OExec i] /\ (i < length (calls s))%nat))) as Hsame.
  { intros s1 E. exists []. rewrite app_nil_r. auto. }
  intros Hs. destruct ev; simpl in Hs.
  - unfold net_call in Hs. destruct (closed (net s)); injection Hs as <-; [|by apply Hsame]. eexists. split; [done|]. right. left. eauto.
  - injection Hs as <-. repeat case_match; try (by apply Hsame); eexists; (split; [done|]); eauto 6.
  - injection Hs as <-. repeat case_match; try (by apply Hsame); eexists; (split; [done|]); eauto 6.
  - destruct (calls s !! i) as [[e q [| |r]]|] eqn:Hi; injection Hs as <-; try (by apply Hsame).
    eexists. split; [done|]. right. right. exists i. split; [done|]. by eapply lookup_lt_Some.
  - injection Hs as <-. repeat case_match; try (by apply Hsame); eexists; (split; [done|]); eauto 6.
  - injection Hs as <-. repeat case_match; try (by apply Hsame); eexists; (split; [done|]); eauto 6.
  - injection Hs as <-. repeat case_match; try (by apply Hsame); eexists; (split; [done|]); eauto 6.
  - injection Hs as <-. by apply Hsame.
  - injection Hs as <-. by apply Hsame.
  - injection Hs as <-. by apply Hsame.
  - injection Hs as <-. by apply Hsame.
  - destruct (MakeEnd _ _); simpl in Hs; simplify_eq. by apply Hsame.
  - destruct (DeleteEnd _ _); simpl in Hs; simplify_eq. by apply Hsame.
  - injection Hs as <-. by apply Hsame.
  - injection Hs as <-. by apply Hsame.
  - injection Hs as <-. by apply Hsame.
  - injection Hs as <-. by apply Hsame.
Qed.

Record seq_ok (s : sys) : Prop := {
  so_net : net_ok s;
  so_fails : (failed_calls s <= fails (obs s))%nat;
  so_open : one_open s;
  so_after : exec_after_fails (obs s);
}.

Lemma seq_run_ok s evs s' : seq_ok s -> sequential s evs -> net_run s evs = Some s' -> seq_ok s'.
Proof.
  revert s. induction evs as [|ev evs IH]; intros s Hok Hseq Hrun; simpl in Hrun; [by simplify_eq|].
  destruct Hseq as [Hev Hseq]. destruct (net_step s ev) as [s1|] eqn:Hs; [|done]. cbn [mbind option_bind] in Hrun.
  apply (IH s1); [|done|done]. destruct Hok as [Hn Hf Ho Ha]. constructor.
  - by eapply net_step_ok.
  - by eapply failed_step.
  - by eapply one_open_step.
  - destruct (step_obs s ev s1 Hs) as (o & -> & [->|[(i & b & ->)|(i & -> & Hi)]]); [by rewrite app_nil_r|..];
      apply exec_after_fails_snoc; try done.
    intros j [= <-]. pose proof (one_open_fails s Ho Hf). lia.
Qed.

Lemma seq_init : seq_ok net_init.
Proof.
  constructor; [apply net_init_ok|done| |]; simpl.
  - by intros j c Hj.
  - intros o1 o2 j E. symmetry in E. apply app_eq_nil in E as [_ E]. done.
Qed.

Lemma net_ok_NoDup s : net_ok s -> NoDup (executions (obs s)).
Proof.
  intros [Hok Hlt]. apply NoDup_alt. intros a b i Ha Hb.
  assert (i ∈ executions (obs s)) as Hin by (by eapply list_elem_of_lookup_2).
  destruct (lookup_lt_is_Some_2 (calls s) i (Hlt i Hin)) as [c Hc]. destruct (Hok i c Hc) as [Hex _].
  destruct (c_handler c) as [| |r]; [done|done|]. destruct Hex as (h1 & h2 & E & H1 & H2 & _).
  assert (forall a, executions (obs s) !! a = Some i -> a = length h1) as Hpos; [|rewrite (Hpos a), (Hpos b); done].
  intros k Hk. rewrite E in Hk. destruct (Nat.lt_trichotomy k (length h1)) as [Hkl|[->|Hkl]]; [|done|].
  - rewrite lookup_app_l in Hk by done. by apply list_elem_of_lookup_2 in Hk.
  - rewrite lookup_app_r in Hk by lia. destruct (k - length h1)%nat as [|k'] eqn:Ek; [lia|]. simpl in Hk. by apply list_elem_of_lookup_2 in Hk.
Qed.

(** What a clerk that retries sees, when its call [k] succeeds: executions of
    earlier calls, failures, and the execution that is answered. *)
Definition clerk_event (k : nat) (x : NetObs) : option CallEvent :=
  match x with
  | OExec j => Some (if (j =? k)%nat then EvReply else EvLate)
  | OReturn _ false => Some EvFail
  | OReturn _ true => None
  end.

Lemma clerk_events_ok k o1 o2 : exec_after_fails (o1 ++ o2) -> NoDup (executions (o1 ++ o2)) ->
  (forall j, j ∈ executions (o1 ++ o2) -> (j <= k)%nat) -> k ∉ executions o1 ->
  at_most_once (fails o1) (length (executions o1)) (omap (clerk_event k) o2).
Proof.
  revert o1. induction o2 as [|x o2 IH]; intros o1 Ha Hnd Hle Hk; [done|].
  specialize (IH (o1 ++ [x])). rewrite <-app_assoc in IH. cbn [app] in IH. specialize (fun H => IH Ha Hnd Hle H).
  assert (fails (o1 ++ [x]) = (fails o1 + fails [x])%nat) as E1 by apply fails_app.
  assert (executions (o1 ++ [x]) = executions o1 ++ executions [x]) as E2 by apply executions_app.
  rewrite E1, E2, length_app in IH. destruct x as [j|j [|]]; cbn [omap list_omap clerk_event].
  - destruct (Nat.eqb_spec j k) as [->|Hne]; simpl.
    + etrans; [|exact (Ha o1 o2 k eq_refl)]. rewrite <-(length_seq k 0). apply NoDup_incl_length.
      * apply NoDup_ListNoDup. rewrite executions_app in Hnd. by apply NoDup_app in Hnd as [? _].
      * intros j Hj. apply list_elem_of_In in Hj. apply in_seq.
        assert (j <= k)%nat by (apply Hle; rewrite executions_app; set_solver). assert (j <> k) by congruence. lia.
    + cbn in IH. rewrite Nat.add_0_r, Nat.add_1_r in IH. apply IH. set_solver.
  - cbn in IH. rewrite !Nat.add_0_r in IH. apply IH. by rewrite app_nil_r.
  - cbn in IH. rewrite Nat.add_0_r, Nat.add_1_r in IH. apply IH. by rewrite app_nil_r.
Qed.

End Net.

(** ** Theorems *)

(** The network runs handlers at most once.  In every run, with
    ends disabled, servers deleted and replaced, requests and replies dropped
    and delayed, each call has run its handler at most once, and a call that
    returned true has run it exactly once and returned that execution's
    reply. *)
Theorem labrpc_exactly_once {Rep} (handle : list nat -> nat -> Rep) evs s i c :
  net_run handle net_init evs = Some s -> calls s !! i = Some c ->
  NoDup (executions (obs s)) /\
  forall r, c_req c = Returned (Some r) ->
    exists h1 h2, executions (obs s) = h1 ++ i :: h2 /\ (i ∉ h1 ++ h2) /\ r = handle h1 i.
Proof.
  intros Hrun Hi. pose proof (net_run_ok handle _ _ _ (net_init_ok handle) Hrun) as Hok.
  split; [by apply (net_ok_NoDup handle)|]. intros r Hr. destruct (proj1 Hok i c Hi) as [Hex Hq].
  rewrite Hr in Hq. simpl in Hq. rewrite Hq in Hex. destruct Hex as (h1 & h2 & -> & H1 & H2 & ->).
  exists h1, h2. split_and!; auto. set_solver.
Qed.

(** A killed server does not answer.  Once a server has been
    deleted from the network, no call that is with it returns true, unless
    the same server is registered under its name again. *)
Theorem labrpc_deleted_server_silent {Rep} (handle : list nat -> nat -> Rep) s name p i c inf evs s' c' r :
  calls s !! i = Some c -> c_req c = Accepted inf \/ c_req c = Waiting inf -> inf = MkInfo name p (i_reliable inf) (i_reordering inf) ->
  EAddServer name p ∉ evs ->
  net_run handle s (EDeleteServer name :: evs) = Some s' -> calls s' !! i = Some c' -> c_req c' <> Returned (Some r).
Proof.
  intros Hi Hq Hinf Hev Hrun Hi'. cbn [net_run net_step mbind option_bind] in Hrun.
  assert (cut_off inf i (set_net s (DeleteServer (net s) name))) as Hcut.
  { split; [|exists c; split; [done|tauto]]. rewrite Hinf. simpl. rewrite lookup_insert_eq. done. }
  assert (forall s1 evs, cut_off inf i s1 -> EAddServer name p ∉ evs -> net_run handle s1 evs = Some s' -> cut_off inf i s') as Hall.
  { clear -Hinf. intros s1 evs. revert s1. induction evs as [|ev evs IH]; intros s1 Hc He Hr; simpl in Hr; [by simplify_eq|].
    destruct (net_step handle s1 ev) as [s2|] eqn:Hs; [|done]. apply not_elem_of_cons in He as [He1 He2].
    apply (IH s2); [|done|done]. eapply cut_off_step; [exact Hc| |exact Hs]. rewrite Hinf. simpl. congruence. }
  destruct (Hall _ _ Hcut Hev Hrun) as [_ (c1 & Hc1 & Hq1)]. rewrite Hi' in Hc1.
  injection Hc1 as <-. intros Hr. rewrite Hr in Hq1. by destruct Hq1 as [?|[?|[?|?]]].
Qed.

(** C31 (refinement): the network gives clerks what they rely on.  When a
    client makes its calls one after the other, a new one only when the last
    has failed, and a call finally succeeds, the executions and failures it
    caused are an at-most-once sequence of events, the assumption of the
    proofs about the clerks, and contain the answered execution. *)
Theorem labrpc_clerk_at_most_once {Rep} (handle : list nat -> nat -> Rep) evs s k c r :
  net_run handle net_init evs = Some s -> sequential handle net_init evs ->
  length (calls s) = S k -> calls s !! k = Some c -> c_req c = Returned (Some r) ->
  at_most_once 0 0 (omap (clerk_event k) (obs s)) /\ EvReply ∈ omap (clerk_event k) (obs s).
Proof.
  intros Hrun Hseq Hlen Hk Hr. pose proof (seq_run_ok handle _ _ _ (seq_init handle) Hseq Hrun) as [Hok _ _ Ha]. split.
  - apply (clerk_events_ok k [] (obs s)); [done|by apply (net_ok_NoDup handle)| |apply not_elem_of_nil].
    intros j Hj. apply (proj2 Hok) in Hj. lia.
  - destruct (proj1 Hok k c Hk) as [Hex Hq]. rewrite Hr in Hq. simpl in Hq. rewrite Hq in Hex. destruct Hex as (h1 & h2 & E & _).
    assert (k ∈ executions (obs s)) as Hin by (rewrite E; set_solver).
    apply list_elem_of_omap in Hin as ([j|j b] & Hx & Ej); simplify_eq. apply list_elem_of_omap. exists (OExec k). simpl.
    by rewrite Nat.eqb_refl.
Qed.

(** ** Witnesses *)

(** The tester connects end "c" to server "s" (server 7) and makes the network
    unreliable.  The reply of call 0 is dropped; the request of call 1 is
    dropped; call 2 succeeds. *)
Definition setup_net : list NetEvent :=
  [EMakeEnd "c"; EAddServer "s" 7; EConnect "c" "s"; EEnable "c" true; EReliable false].
Definition retry_run : list NetEvent :=
  setup_net ++ [ECall "c"; ERead 0; EAdmit 0 500; EHandler 0; EReceive 0 50 0] ++
  [ECall "c"; ERead 1; EAdmit 1 50] ++ [ECall "c"; ERead 2; EAdmit 2 500; EHandler 2; EReceive 2 500 0].
Definition sample_handle (h : list nat) (i : nat) : nat := length h.

Lemma labrpc_exactly_once_witness :
  exists s, net_run sample_handle net_init retry_run = Some s /\
    exists h1 h2, executions (obs s) = h1 ++ 2%nat :: h2 /\ (2%nat ∉ h1 ++ h2) /\ 1%nat = sample_handle h1 2.
Proof.
  destruct (net_run sample_handle net_init retry_run) as [s|] eqn:Hrun; [|vm_compute in Hrun; discriminate].
  exists s. split; [reflexivity|].
  refine (proj2 (labrpc_exactly_once sample_handle retry_run s 2 (MkNetCall "c" (Returned (Some 1%nat)) (Executed 1%nat)) Hrun _) 1%nat _).
  - vm_compute in Hrun. injection Hrun as <-. reflexivity.
  - reflexivity.
Defined.

Lemma labrpc_clerk_at_most_once_witness :
  at_most_once 0 0 [EvLate; EvFail; EvFail; EvReply].
Proof.
  destruct (net_run sample_handle net_init retry_run) as [s|] eqn:Hrun; [|vm_compute in Hrun; discriminate].
  pose proof (labrpc_clerk_at_most_once sample_handle retry_run s 2 (MkNetCall "c" (Returned (Some 1%nat)) (Executed 1%nat)) 1%nat Hrun) as H.
  vm_compute in Hrun. injection Hrun as <-. refine (proj1 (H _ _ _ _)).
  - vm_compute. repeat constructor.
  - reflexivity.
  - reflexivity.
  - reflexivity.
Defined.

(** Call 0 is with server 7 when the server is deleted and replaced. *)
Lemma labrpc_deleted_server_silent_witness :
  exists s s' c', net_run sample_handle net_init (setup_net ++ [ECall "c"; ERead 0; EAdmit 0 500]) = Some s /\
    net_run sample_handle s [EDeleteServer "s"; EAddServer "s" 8; EHandler 0; EReceive 0 500 0] = Some s' /\
    calls s' !! 0%nat = Some c' /\ c_req c' <> Returned (Some 0%nat).
Proof.
  destruct (net_run sample_handle net_init (setup_net ++ [ECall "c"; ERead 0; EAdmit 0 500])) as [s|] eqn:Hrun;
    [|vm_compute in Hrun; discriminate].
  destruct (net_run sample_handle s [EDeleteServer "s"; EAddServer "s" 8; EHandler 0; EReceive 0 500 0]) as [s'|] eqn:Hrun';
    [|vm_compute in Hrun; injection Hrun as <-; vm_compute in Hrun'; discriminate].
  exists s, s'. destruct (calls s' !! 0%nat) as [c'|] eqn:Hc';
    [|vm_compute in Hrun; injection Hrun as <-; vm_compute in Hrun'; injection Hrun' as <-; vm_compute in Hc'; discriminate].
  exists c'. split; [reflexivity|]. split; [exact Hrun'|]. split; [reflexivity|].
  apply (labrpc_deleted_server_silent sample_handle s "s" 7 0 (MkNetCall "c" (Waiting (MkInfo "s" 7 false false)) Running)
    (MkInfo "s" 7 false false) [EAddServer "s" 8; EHandler 0; EReceive 0 500 0] s' c').
  - vm_compute in Hrun. injection Hrun as <-. reflexivity.
  - right. reflexivity.
  - reflexivity.
  - set_solver.
  - exact Hrun'.
  - exact Hc'.
Defined.
