(* ===== verification/Forward.v ===== *)
(** * Calls between server daemons (src/tester1/testsrv.go, daemonsrv.go, daemonclnt.go, labrpc.go)

    Servers run in processes of their own, but the simulated network is in
    the tester's.  A call from one daemon to another therefore takes five
    legs: ClientEnd.Call hands the encoded call to DaemonSrv.forward, which
    sends it over a socket to the tester; TesterRPC.Forward puts it into the
    network, which loses and delays it; the network's server passes it over
    another socket to the daemon, which executes it; and the reply goes back
    the same way.  The tester's own clients enter at the network.

    The network is that of Labrpc.v, step by step; what a socket does to a
    call is what Demux.v shows: the request arrives or does not, the daemon
    serves it in a goroutine of its own, and the caller gets the reply of its
    own request or an error.  The memory of a daemon changes by the steps of
    these goroutines and of all others that the daemon runs (tickers, senders,
    readers), in any interleaving.  The theorems: a call gets at most one
    goroutine of one daemon, whatever daemons are killed and whatever
    connections are closed; a call that returns true returns what that
    goroutine computed, from the caller's arguments and the states in which it
    found the daemon's memory; and when the handler is one critical section,
    the call is a method call in a state that the daemon went through. *)

From S2P Require Import Prelude Rpc KvSrv Dispatch Demux Labrpc.

(** ** The RPC from a daemon to the tester *)

Record ForwardArgs : Type := MkForwardArgs { fa_Method : string; fa_End : string; fa_Args : bytes; fa_Id : Z }.
Record ForwardReply : Type := MkForwardReply { fr_Rep : bytes; fr_Ok : bool }.

#[export] Instance ForwardArgs_eq_dec : EqDecision ForwardArgs.
Proof. solve_decision. Defined.
#[export] Instance ForwardArgs_countable : Countable ForwardArgs.
Proof.
  refine (inj_countable' (fun a => (fa_Method a, fa_End a, fa_Args a, fa_Id a)) (fun '(m, e, a, i) => MkForwardArgs m e a i) _); by intros [].
Defined.
#[export] Instance ForwardReply_eq_dec : EqDecision ForwardReply.
Proof. solve_decision. Defined.
#[export] Instance ForwardReply_countable : Countable ForwardReply.
Proof. refine (inj_countable' (fun r => (fr_Rep r, fr_Ok r)) (fun '(r, b) => MkForwardReply r b) _); by intros []. Defined.

Section Forwarding.
(** The processes of the servers, as in Demux.v: the memory, the goroutine
    that serves a request with its steps, and the steps of other goroutines. *)
Context {M Th : Type} (h_begin : bytes -> Th) (h_step : M -> Th -> option (M * (Th + bytes * bool))) (background : M -> Z -> M).
Context `{GR : Gob RPCArgs} `{GF : Gob ForwardArgs} `{GP : Gob ForwardReply}.

(** [DaemonSrv.forward]: the request it sends, *)
Definition ds_forward (id : Z) (e method : string) (b : bytes) : bytes :=
  RPC_request "TesterRPC.Forward" (Marshall (MkForwardArgs method e b id)).

(** and its result; [None] is a log.Fatalf of Unmarshall. *)
Definition ds_forward_result (r : reply) : option (bytes * bool) :=
  x ← RPCMarshall_result (R := ForwardReply) r;
  Some match x with None => ([], false) | Some rep => (fr_Rep rep, fr_Ok rep) end.

(** [ClientEnd.Call] after callf or the network answered: [Some None] is
    false, [None] a log.Fatalf. *)
Definition Call_result {R : Type} `{Gob R} (r : bytes * bool) : option (option R) :=
  let '(rep, ok) := r in
  if negb ok then Some None else x ← Unmarshall (A := R) rep; Some (Some x).

(** The tester's RPC server up to [end.Forward]: the end, method and
    arguments to forward.  An end that does not exist is a log.Fatalf. *)
Definition TesterRPC_Forward (rn : Network) (b : bytes) : option (string * string * bytes) :=
  req ← Unmarshall (A := RPCArgs) b;
  if negb (bool_decide (rpc_Method req = "TesterRPC.Forward")) then None else
  args ← Unmarshall (A := ForwardArgs) (rpc_Args req);
  e ← LookupEnd rn (fa_End args);
  Some (e, fa_Method args, fa_Args args).

(** [rep.reply, rep.ok] of the network's reply. *)
Definition Forward_result (r : option (bytes * bool)) : bytes * bool := default ([], false) r.

(** ** Daemons *)

(** The process of a server: the memory it was started with and has now,
    whether it still runs, the number of calls it has forwarded, and the count
    of the network's server for it.  [d_past] is a history variable: the
    memory before each step so far. *)
Record Daemon : Type := MkDaemon {
  d_first : M;
  d_past : list M;
  d_mem : M;
  d_alive : bool;
  d_id : Z;
  d_count : Z;
}.

Definition started_with (m : M) : Daemon := MkDaemon m [] m true 0 0.
Definition d_exit (d : Daemon) : Daemon := MkDaemon (d_first d) (d_past d) (d_mem d) false (d_id d) (d_count d).
Definition d_to (d : Daemon) (m : M) : Daemon := MkDaemon (d_first d) (d_past d ++ [d_mem d]) m (d_alive d) (d_id d) (d_count d).

(** [server.dispatch] of the network's server of a daemon, up to the call of
    its dispatchf, which is dc.forward; [None] is a panic of the tester. *)
Definition labsrv_dispatch (d : Daemon) (svcMeth : string) : option Daemon :=
  let d := MkDaemon (d_first d) (d_past d) (d_mem d) (d_alive d) (d_id d) (d_count d + 1) in
  let i := LastIndex svcMeth in
  serviceName ← slice_to svcMeth i;
  methodName ← slice_from svcMeth (i + 1);
  Some d.

(** A request that the network's server has passed to daemon [fj_proc]: on
    the socket, running, or with the result of ServeRequest.  [fj_seen] is a
    history variable: the memory at each step of the goroutine. *)
Record FJob : Type := MkFJob { fj_proc : Z; fj_seen : list M; fj_run : option (Th + bytes * bool) }.

(** What [DaemonClnt.forward] returns: the result of the request when its
    goroutine has ended and the reply has come [back], or an error of the
    connection, which leaves the goroutine running. *)
Definition dc_forward (job : FJob) (back : bool) : bytes * bool :=
  match fj_run job with
  | Some (inr (rep, ok)) => RPC_result (MkReply rep ok (negb back))
  | _ => RPC_result (MkReply [] false true)
  end.

(** ** Calls *)

(** Where the request of a call is: on the socket to the tester, in the
    network as call [j], answered (the reply of its socket), or lost. *)
Inductive Leg : Type := ToTester (b : bytes) | InNet (j : nat) | Answered (j : nat) (b : bytes) | Lost.

Record FCaller : Type := MkFCaller {
  fc_svcMeth : string;
  fc_args : bytes;
  fc_direct : bool;                  (* a client of the tester *)
  fc_leg : Leg;
  fc_ret : option (bytes * bool);    (* what callf or the network returned *)
}.

(** [f_reqs]: the calls of the network with their caller; [f_target]: the
    daemon each was dispatched to; [f_jobs]: what that daemon does with it;
    [f_replies]: what dc.forward returned for it; [f_log]: the requests for
    which a daemon has started a goroutine, in order. *)
Record FSys : Type := MkFSys {
  f_net : NetSys (bytes * bool);
  f_daemons : gmap Z Daemon;
  f_callers : list FCaller;
  f_reqs : list (nat * string * bytes);
  f_target : gmap nat Z;
  f_jobs : gmap nat FJob;
  f_replies : gmap nat (bytes * bool);
  f_log : list (Z * (nat * string * bytes));
}.

Definition eta_FSys (s : FSys) : FSys :=
  MkFSys (f_net s) (f_daemons s) (f_callers s) (f_reqs s) (f_target s) (f_jobs s) (f_replies s) (f_log s).
#[global] Instance set_f_net : Setter f_net := ltac:(solve_setter eta_FSys f_net).
#[global] Instance set_f_daemons : Setter f_daemons := ltac:(solve_setter eta_FSys f_daemons).
#[global] Instance set_f_callers : Setter f_callers := ltac:(solve_setter eta_FSys f_callers).
#[global] Instance set_f_reqs : Setter f_reqs := ltac:(solve_setter eta_FSys f_reqs).
#[global] Instance set_f_target : Setter f_target := ltac:(solve_setter eta_FSys f_target).
#[global] Instance set_f_jobs : Setter f_jobs := ltac:(solve_setter eta_FSys f_jobs).
#[global] Instance set_f_replies : Setter f_replies := ltac:(solve_setter eta_FSys f_replies).
#[global] Instance set_f_log : Setter f_log := ltac:(solve_setter eta_FSys f_log).

Implicit Types (s : FSys) (n : NetSys (bytes * bool)).

Definition fwd_init : FSys := MkFSys net_init ∅ [] [] ∅ ∅ ∅ [].

Inductive FEvent : Type :=
| FStart (p : Z) (m : M)                     (* the tester starts a daemon *)
| FKill (p : Z)                              (* and kills it *)
| FCall (p : Z) (e svcMeth : string) (args : bytes)  (* daemon [p] calls on an end with callf *)
| FDirect (e svcMeth : string) (args : bytes)        (* a client of the tester calls *)
| FArrive (k : nat)                          (* the tester receives the request of call [k] *)
| FLose (k : nat)                            (* or the connection loses it *)
| FNet (ev : NetEvent)                       (* a step of the network *)
| FDispatch (j : nat)                        (* the network's server passes call [j] to its daemon *)
| FBegin (j : nat)                           (* the daemon's reader starts a goroutine for it *)
| FServe (j : nat)                           (* the goroutine takes a step *)
| FBackground (p : Z) (x : Z)                (* a daemon does something else *)
| FReturn (j : nat) (back : bool)            (* dc.forward returns *)
| FAnswer (k : nat)                          (* the network has answered call [k] *)
| FReceive (k : nat)                         (* the daemon receives the tester's reply *)
| FFail (k : nat).                           (* or an error of its connection *)

Definition set_caller s (k : nat) (c : FCaller) : FSys := s <| f_callers := <[k := c]> (f_callers s) |>.

Definition set_leg (c : FCaller) (l : Leg) : FCaller := MkFCaller (fc_svcMeth c) (fc_args c) (fc_direct c) l (fc_ret c).
Definition set_ret (c : FCaller) (r : bytes * bool) : FCaller := MkFCaller (fc_svcMeth c) (fc_args c) (fc_direct c) (fc_leg c) (Some r).

(** [ClientEnd.Forward], and [Call] without callf: the request enters the
    network. *)
Definition enter s (e : string) (k : nat) (method : string) (args : bytes) : FSys :=
  s <| f_net := net_call (f_net s) e |> <| f_reqs := f_reqs s ++ [(k, method, args)] |>.

(** A handler's reply, as Labrpc.v asks for it. *)
Definition recorded (replies : gmap nat (bytes * bool)) (h : list nat) (j : nat) : bytes * bool := default ([], false) (replies !! j).

(** The steps of the network that do not concern this file. *)
Definition plain (ev : NetEvent) : bool := match ev with ECall _ | EHandler _ => false | _ => true end.

(** The server that a request is dispatched to. *)
Definition targets s (ev : NetEvent) : gmap nat Z :=
  match ev with
  | EAdmit i _ =>
      match calls (f_net s) !! i with
      | Some (MkNetCall _ (Accepted inf) _) => <[i := i_server inf]> (f_target s)
      | _ => f_target s
      end
  | _ => f_target s
  end.

(** One step: an event that is not enabled changes nothing; [None] is a panic
    or a log.Fatalf of the tester, or of the daemon that receives. *)
Definition fstep s (ev : FEvent) : option FSys :=
  match ev with
  | FStart p m =>
      Some match f_daemons s !! p with
           | Some _ => s
           | None => s <| f_daemons := <[p := started_with m]> (f_daemons s) |>
           end
  | FKill p =>
      Some match f_daemons s !! p with
           | Some d => s <| f_daemons := <[p := d_exit d]> (f_daemons s) |>
           | None => s
           end
  | FCall p e svcMeth args =>
      Some match f_daemons s !! p with
           | Some (MkDaemon first past mem true id cnt) =>
               let id := i64 (id + 1) in
               s <| f_daemons := <[p := MkDaemon first past mem true id cnt]> (f_daemons s) |>
                 <| f_callers := f_callers s ++ [MkFCaller svcMeth args false (ToTester (ds_forward id e svcMeth args)) None] |>
           | _ => s
           end
  | FDirect e svcMeth args =>
      Some (enter s e (length (f_callers s)) svcMeth args
              <| f_callers := f_callers s ++ [MkFCaller svcMeth args true (InNet (length (f_reqs s))) None] |>)
  | FArrive k =>
      match f_callers s !! k with
      | Some ((MkFCaller _ _ _ (ToTester b) _) as c) =>
          '(e, method, args) ← TesterRPC_Forward (net (f_net s)) b;
          Some (set_caller (enter s e k method args) k (set_leg c (InNet (length (f_reqs s)))))
      | _ => Some s
      end
  | FLose k =>
      Some match f_callers s !! k with
           | Some ((MkFCaller _ _ _ (ToTester b) _) as c) => set_caller s k (set_leg c Lost)
           | _ => s
           end
  | FNet ev =>
      if plain ev
      then n ← net_step (recorded (f_replies s)) (f_net s) ev; Some (s <| f_net := n |> <| f_target := targets s ev |>)
      else Some s
  | FDispatch j =>
      match calls (f_net s) !! j, f_reqs s !! j, f_jobs s !! j with
      | Some (MkNetCall _ _ Running), Some (k, method, args), None =>
          match (p ← f_target s !! j; d ← f_daemons s !! p; Some (p, d)) with
          | Some (p, d) =>
              d ← labsrv_dispatch d method;
              Some (s <| f_daemons := <[p := d]> (f_daemons s) |> <| f_jobs := <[j := MkFJob p [] None]> (f_jobs s) |>)
          | None => Some s
          end
      | _, _, _ => Some s
      end
  | FBegin j =>
      Some match f_reqs s !! j, f_jobs s !! j with
           | Some (k, method, args), Some (MkFJob p seen None) =>
               if match f_daemons s !! p with Some d => d_alive d | None => false end
               then s <| f_jobs := <[j := MkFJob p seen (Some (inl (h_begin (RPC_request method args))))]> (f_jobs s) |>
                      <| f_log := f_log s ++ [(p, (k, method, args))] |>
               else s
           | _, _ => s
           end
  | FServe j =>
      Some match f_jobs s !! j with
           | Some (MkFJob p seen (Some (inl h))) =>
               match f_daemons s !! p with
               | Some d =>
                   if negb (d_alive d) then s else
                   match h_step (d_mem d) h with
                   | Some (m, run) =>
                       s <| f_daemons := <[p := d_to d m]> (f_daemons s) |>
                         <| f_jobs := <[j := MkFJob p (seen ++ [d_mem d]) (Some run)]> (f_jobs s) |>
                   | None => s <| f_daemons := <[p := d_exit d]> (f_daemons s) |>
                   end
               | None => s
               end
           | _ => s
           end
  | FBackground p x =>
      Some match f_daemons s !! p with
           | Some d => if d_alive d then s <| f_daemons := <[p := d_to d (background (d_mem d) x)]> (f_daemons s) |> else s
           | None => s
           end
  | FReturn j back =>
      match calls (f_net s) !! j, f_jobs s !! j with
      | Some (MkNetCall _ _ Running), Some job =>
          let replies := <[j := dc_forward job back]> (f_replies s) in
          n ← net_step (recorded replies) (f_net s) (EHandler j);
          Some (s <| f_net := n |> <| f_replies := replies |>)
      | _, _ => Some s
      end
  | FAnswer k =>
      Some match f_callers s !! k with
           | Some ((MkFCaller _ _ direct (InNet j) ret) as c) =>
               match c_req <$> calls (f_net s) !! j with
               | Some (Returned r) =>
                   let '(rep, ok) := Forward_result r in
                   let b := Marshall (MkForwardReply rep ok) in
                   set_caller s k (if direct then set_ret (set_leg c (Answered j b)) (rep, ok) else set_leg c (Answered j b))
               | _ => s
               end
           | _ => s
           end
  | FReceive k =>
      match f_callers s !! k with
      | Some ((MkFCaller _ _ false (Answered j b) None) as c) =>
          r ← ds_forward_result (MkReply b true false);
          Some (set_caller s k (set_ret c r))
      | _ => Some s
      end
  | FFail k =>
      match f_callers s !! k with
      | Some ((MkFCaller _ _ false _ None) as c) =>
          r ← ds_forward_result (MkReply [] false true);
          Some (set_caller s k (set_ret c r))
      | _ => Some s
      end
  end.

Fixpoint frun s (evs : list FEvent) : option FSys :=
  match evs with [] => Some s | ev :: evs => s ← fstep s ev; frun s evs end.

(** ** The network's part *)

Lemma net_ok_ext (h h' : list nat -> nat -> bytes * bool) n :
  (forall l i, i ∈ executions (obs n) -> h l i = h' l i) -> net_ok h n -> net_ok h' n.
Proof.
  intros Hh [Hc Hl]. split; [|done]. intros i c Hi. destruct (Hc i c Hi) as [He Hq]. split; [|done].
  destruct (c_handler c) as [| |r]; [done..|]. destruct He as (h1 & h2 & E & H1 & H2 & ->). exists h1, h2. split_and!; auto.
  apply Hh. rewrite E. set_solver.
Qed.

Definition same_calls n n' : Prop :=
  executions (obs n') = executions (obs n) /\ length (calls n') = length (calls n).

Lemma set_call_same n i c o : executions o = [] -> same_calls n (set_call n i c o).
Proof. intros Ho. split; simpl; [by rewrite executions_app, Ho, app_nil_r|apply length_insert]. Qed.

Lemma plain_step h n ev n' : plain ev = true -> net_step h n ev = Some n' -> same_calls n n'.
Proof.
  intros Hp Hs. destruct ev; try done; simpl in Hs;
    try (injection Hs as <-; by split);
    try (destruct (MakeEnd _ _); simpl in Hs; simplify_eq; by split);
    try (destruct (DeleteEnd _ _); simpl in Hs; simplify_eq; by split);
    injection Hs as <-; unfold delay_reply, send_reply; repeat case_match; first [by split|by apply set_call_same].
Qed.

Lemma net_call_same h n e : net_ok h n -> net_ok h (net_call n e) /\ executions (obs (net_call n e)) = executions (obs n) /\
  length (calls (net_call n e)) = S (length (calls n)).
Proof.
  intros Hn. split; [by apply (net_ok_ECall h n _ e)|]. unfold net_call. destruct (closed _); simpl;
    rewrite length_app, ?executions_app, ?app_nil_r; simpl; split; auto; lia.
Qed.

(** ** The invariant *)

Definition caller_at s (k : nat) (method : string) (args : bytes) (j : nat) : Prop :=
  exists c, f_callers s !! k = Some c /\ fc_svcMeth c = method /\ fc_args c = args /\
    (fc_leg c = InNet j \/ exists b, fc_leg c = Answered j b).

Definition leg_ok s (k : nat) (c : FCaller) : Prop :=
  match fc_leg c with
  | ToTester b => exists id e, b = ds_forward id e (fc_svcMeth c) (fc_args c)
  | InNet j => f_reqs s !! j = Some (k, fc_svcMeth c, fc_args c)
  | Answered j b => f_reqs s !! j = Some (k, fc_svcMeth c, fc_args c) /\
      exists rep ok, b = Marshall (MkForwardReply rep ok) /\ (ok = true -> f_replies s !! j = Some (rep, true))
  | Lost => True
  end.

Definition ret_ok s (k : nat) (c : FCaller) : Prop :=
  forall rep, fc_ret c = Some (rep, true) ->
    exists j, f_reqs s !! j = Some (k, fc_svcMeth c, fc_args c) /\ f_replies s !! j = Some (rep, true).

(** A goroutine is where the states it has seen have led it. *)
Definition job_ok s (j : nat) (job : FJob) : Prop :=
  exists k method args d, f_reqs s !! j = Some (k, method, args) /\ f_daemons s !! (fj_proc job) = Some d /\ (fj_run job = None -> fj_seen job = []) /\
    match fj_run job with
    | None => True
    | Some run => (fj_proc job, (k, method, args)) ∈ f_log s /\ fj_seen job `sublist_of` d_past d /\
        thread_run h_step (h_begin (RPC_request method args)) (fj_seen job) = Some run
    end.

(** A positive reply is the result of the request's goroutine. *)
Definition reply_ok s (j : nat) (r : bytes * bool) : Prop :=
  is_Some (f_jobs s !! j) /\ forall rep, r = (rep, true) -> exists job, f_jobs s !! j = Some job /\ fj_run job = Some (inr (rep, true)).

Record fwd_ok s : Prop := {
  fo_net : net_ok (recorded (f_replies s)) (f_net s);
  fo_len : length (f_reqs s) = length (calls (f_net s));
  fo_exec : forall j, is_Some (f_replies s !! j) <-> j ∈ executions (obs (f_net s));
  fo_reqs : forall j k method args, f_reqs s !! j = Some (k, method, args) -> caller_at s k method args j;
  fo_leg : forall k c, f_callers s !! k = Some c -> leg_ok s k c;
  fo_ret : forall k c, f_callers s !! k = Some c -> ret_ok s k c;
  fo_once : NoDup ((fun x => (snd x).1.1) <$> f_log s);
  fo_log : forall p k method args, (p, (k, method, args)) ∈ f_log s ->
    exists j job, f_reqs s !! j = Some (k, method, args) /\ f_jobs s !! j = Some job /\ is_Some (fj_run job);
  fo_daemon : forall p d, f_daemons s !! p = Some d -> memory_run h_step background (d_first d) (d_past d ++ [d_mem d]);
  fo_job : forall j job, f_jobs s !! j = Some job -> job_ok s j job;
  fo_reply : forall j r, f_replies s !! j = Some r -> reply_ok s j r;
}.

Lemma fwd_init_ok : fwd_ok fwd_init.
Proof.
  constructor; simpl; try done; [apply net_init_ok| |apply NoDup_nil_2|].
  - intros j. rewrite lookup_empty. split; [by intros []|by intros ?%elem_of_nil].
  - by intros p k method args ?%elem_of_nil.
Qed.

(** A call whose request has left the daemon stays where it is. *)
Definition keeps_place (c c' : FCaller) : Prop :=
  forall j, (fc_leg c = InNet j \/ exists b, fc_leg c = Answered j b) -> fc_leg c' = InNet j \/ exists b, fc_leg c' = Answered j b.

Lemma set_caller_ok s k c c' : fwd_ok s -> f_callers s !! k = Some c -> fc_svcMeth c' = fc_svcMeth c -> fc_args c' = fc_args c ->
  keeps_place c c' -> leg_ok s k c' -> ret_ok s k c' -> fwd_ok (set_caller s k c').
Proof.
  intros Hs Hk Hm Ha Hp Hl Hr. constructor; try apply Hs; simpl.
  - intros j k' m a Hj. destruct (fo_reqs s Hs j k' m a Hj) as (c1 & Hc1 & <- & <- & Hl1). destruct (decide (k = k')) as [<-|Hne].
    + exists c'. rewrite Hk in Hc1. injection Hc1 as <-. split; [|split_and!; congruence || auto]. cbn. apply list_lookup_insert_eq. by eapply lookup_lt_Some.
    + exists c1. split; [|auto]. cbn. by rewrite list_lookup_insert_ne.
  - intros k' c1 [(<- & <- & _)|[_ Hc1]]%list_lookup_insert_Some; [done|by apply (fo_leg s Hs)].
  - intros k' c1 [(<- & <- & _)|[_ Hc1]]%list_lookup_insert_Some; [done|by apply (fo_ret s Hs)].
Qed.

(** A new call of a daemon. *)
Lemma add_caller_ok s c : fwd_ok s -> fc_ret c = None -> (exists id e, fc_leg c = ToTester (ds_forward id e (fc_svcMeth c) (fc_args c))) ->
  fwd_ok (s <| f_callers := f_callers s ++ [c] |>).
Proof.
  intros Hs Hret (id & e & Hleg). constructor; try apply Hs; simpl.
  - intros j k m a Hj. destruct (fo_reqs s Hs j k m a Hj) as (c1 & Hc1 & ?). exists c1. split; [by apply lookup_app_l_Some|done].
  - intros k c1 [Hc1|[_ Hc1]]%lookup_app_Some; [by apply (fo_leg s Hs)|]. apply list_lookup_singleton_Some in Hc1 as [_ <-].
    unfold leg_ok. rewrite Hleg. eauto.
  - intros k c1 [Hc1|[_ Hc1]]%lookup_app_Some; [by apply (fo_ret s Hs)|]. apply list_lookup_singleton_Some in Hc1 as [_ <-].
    intros rep Hrep. congruence.
Qed.

Lemma job_ok_mono s s' j job : (forall k x, f_reqs s !! k = Some x -> f_reqs s' !! k = Some x) ->
  (forall p d, f_daemons s !! p = Some d -> exists d', f_daemons s' !! p = Some d' /\ d_past d `sublist_of` d_past d') ->
  (forall x, x ∈ f_log s -> x ∈ f_log s') -> job_ok s j job -> job_ok s' j job.
Proof.
  intros Hr Hd Hl (k & m & a & d & Hj & Hp & Hnone & Hrun). destruct (Hd _ _ Hp) as (d' & Hp' & Hsub).
  exists k, m, a, d'. split_and!; auto. destruct (fj_run job); [|done]. destruct Hrun as (? & ? & ?). split_and!; auto. by etrans.
Qed.

(** A daemon starts, stops, counts or takes a step. *)
Lemma set_daemon_ok s p d' : fwd_ok s -> memory_run h_step background (d_first d') (d_past d' ++ [d_mem d']) ->
  (forall d, f_daemons s !! p = Some d -> d_past d `sublist_of` d_past d') -> fwd_ok (s <| f_daemons := <[p := d']> (f_daemons s) |>).
Proof.
  intros Hs Hm Hsub. constructor; try apply Hs; simpl.
  - intros q d [[<- <-]|[_ Hq]]%lookup_insert_Some; [done|by apply (fo_daemon s Hs q)].
  - intros j job Hj. apply (job_ok_mono s); [done| |done|by apply (fo_job s Hs)]. intros q d Hq. simpl. destruct (decide (p = q)) as [<-|Hne].
    + rewrite lookup_insert_eq. eauto.
    + rewrite lookup_insert_ne by done. eauto.
Qed.

Lemma d_to_ok s p d m : fwd_ok s -> f_daemons s !! p = Some d -> follows h_step background (d_mem d) m ->
  fwd_ok (s <| f_daemons := <[p := d_to d m]> (f_daemons s) |>).
Proof.
  intros Hs Hp Hf. apply set_daemon_ok; [done|exact (memory_run_snoc h_step background _ _ _ _ (fo_daemon s Hs p d Hp) Hf)|].
  intros d0 Hd0. rewrite Hp in Hd0. injection Hd0 as <-. simpl. by apply sublist_inserts_r.
Qed.

Lemma same_memory_ok s p d d' : fwd_ok s -> f_daemons s !! p = Some d ->
  (d_first d', d_past d', d_mem d') = (d_first d, d_past d, d_mem d) -> fwd_ok (s <| f_daemons := <[p := d']> (f_daemons s) |>).
Proof.
  intros Hs Hp [= Hf Hpa Hm]. apply set_daemon_ok; [done|rewrite Hf, Hpa, Hm; by apply (fo_daemon s Hs p)|]. intros d0. rewrite Hp, Hpa. by intros [= <-].
Qed.

(** The goroutine of a request starts or takes a step. *)
Definition job_grows (job job' : FJob) : Prop :=
  (is_Some (fj_run job) -> is_Some (fj_run job')) /\ forall r, fj_run job = Some (inr r) -> fj_run job' = Some (inr r).

Lemma set_job_ok s j job' l (s' := s <| f_jobs := <[j := job']> (f_jobs s) |> <| f_log := f_log s ++ l |>) : fwd_ok s ->
  job_ok s' j job' -> (forall job, f_jobs s !! j = Some job -> job_grows job job') ->
  NoDup ((fun x => (snd x).1.1) <$> f_log s ++ l) ->
  (forall q k m a, (q, (k, m, a)) ∈ l -> f_reqs s !! j = Some (k, m, a) /\ is_Some (fj_run job')) -> fwd_ok s'.
Proof.
  intros Hs Hok Hg Hnd Hl. constructor; try apply Hs; simpl; try done.
  - intros p k m a [Hin|Hin]%elem_of_app; [|exists j, job'; destruct (Hl _ _ _ _ Hin); by rewrite lookup_insert_eq].
    destruct (fo_log s Hs _ _ _ _ Hin) as (i & job & Hi & Hjob & Hrun). exists i. destruct (decide (j = i)) as [<-|Hne].
    + exists job'. rewrite lookup_insert_eq. destruct (Hg job Hjob). auto.
    + exists job. by rewrite lookup_insert_ne.
  - intros i job [[<- <-]|[_ Hi]]%lookup_insert_Some; [done|]. apply (job_ok_mono s); [done|eauto| |by apply (fo_job s Hs)].
    simpl. set_solver.
  - intros i r Hr. destruct (fo_reply s Hs i r Hr) as [[job Hjob] Hrep]. unfold reply_ok. simpl. destruct (decide (j = i)) as [<-|Hne].
    + rewrite lookup_insert_eq. split; [by eexists|]. intros rep ->. destruct (Hrep rep eq_refl) as (job0 & Hj0 & Hrun). exists job'.
      split; [done|]. by apply (Hg job0 Hj0).
    + rewrite lookup_insert_ne by done. eauto.
Qed.

(** A request enters the network. *)
Lemma enter_ok s e k method args cs c : fwd_ok s -> (forall k', k' <> k -> cs !! k' = f_callers s !! k') ->
  cs !! k = Some c -> fc_svcMeth c = method -> fc_args c = args -> fc_leg c = InNet (length (f_reqs s)) -> ret_ok s k c ->
  (forall j m a, f_reqs s !! j <> Some (k, m, a)) -> fwd_ok (enter s e k method args <| f_callers := cs |>).
Proof.
  intros Hs Hother Hc Hm Ha Hleg Hret Hfresh. destruct (net_call_same _ _ e (fo_net s Hs)) as (Hn & He & Hl).
  assert (forall j x, f_reqs s !! j = Some x -> (f_reqs s ++ [(k, method, args)]) !! j = Some x) as Hmono by (intros; by apply lookup_app_l_Some).
  constructor; simpl.
  - done.
  - rewrite length_app, Hl, (fo_len s Hs). simpl. lia.
  - intros j. rewrite He. apply (fo_exec s Hs).
  - intros j k' m a [Hj|[Hlt Hj]]%lookup_app_Some.
    + destruct (fo_reqs s Hs j k' m a Hj) as (c1 & Hc1 & ?). exists c1. split; [|done]. simpl. rewrite Hother; [done|].
      intros ->. by apply (Hfresh j m a).
    + apply list_lookup_singleton_Some in Hj as [Hz [= <- <- <-]]. exists c. simpl. split_and!; auto. left. rewrite Hleg. f_equal. lia.
  - intros k' c1 Hc1. destruct (decide (k' = k)) as [->|Hne].
    + rewrite Hc in Hc1. injection Hc1 as <-. unfold leg_ok. rewrite Hleg, Hm, Ha. simpl. by apply list_lookup_middle.
    + rewrite Hother in Hc1 by done. pose proof (fo_leg s Hs k' c1 Hc1) as H. unfold leg_ok in *. simpl. destruct (fc_leg c1); auto.
      destruct H as [H ?]. auto.
  - intros k' c1 Hc1 rep Hrep. simpl. assert (ret_ok s k' c1) as H.
    { destruct (decide (k' = k)) as [->|Hne]; [by simplify_eq/=|]. rewrite Hother in Hc1 by done. by apply (fo_ret s Hs). }
    destruct (H rep Hrep) as (j & Hj & ?). eauto.
  - apply (fo_once s Hs).
  - intros p k' m a Hin. destruct (fo_log s Hs p k' m a Hin) as (j & job & Hj & ?). eauto.
  - apply (fo_daemon s Hs).
  - intros j job Hj. apply (job_ok_mono s); [done|eauto|done|by apply (fo_job s Hs)].
  - apply (fo_reply s Hs).
Qed.

(** The network takes a step. *)
Lemma net_plain_ok s ev nn tg : fwd_ok s -> plain ev = true -> net_step (recorded (f_replies s)) (f_net s) ev = Some nn ->
  fwd_ok (s <| f_net := nn |> <| f_target := tg |>).
Proof.
  intros Hs Hp Hst. destruct (plain_step _ _ _ _ Hp Hst) as [He Hl]. constructor; try apply Hs; simpl.
  - by eapply net_step_ok; [apply Hs|].
  - rewrite Hl. apply Hs.
  - intros j. rewrite He. apply Hs.
Qed.

Lemma recorded_other replies j r l i : i <> j -> recorded (<[j := r]> replies) l i = recorded replies l i.
Proof. intros Hne. unfold recorded. by rewrite lookup_insert_ne. Qed.

(** A handler runs. *)
Lemma handler_step s j e q r : fwd_ok s -> calls (f_net s) !! j = Some (MkNetCall e q Running) -> exists nn,
  net_step (recorded (<[j := r]> (f_replies s))) (f_net s) (EHandler j) = Some nn /\ net_ok (recorded (<[j := r]> (f_replies s))) nn /\
  executions (obs nn) = executions (obs (f_net s)) ++ [j] /\ length (calls nn) = length (calls (f_net s)) /\
  f_replies s !! j = None.
Proof.
  intros Hs Hj. destruct (proj1 (fo_net s Hs) j _ Hj) as [Hex _]. simpl in Hex.
  eexists. split; [cbn [net_step]; rewrite Hj; reflexivity|]. split_and!.
  - eapply net_ok_EHandler; [|cbn [net_step]; rewrite Hj; reflexivity]. eapply net_ok_ext; [|apply (fo_net s Hs)].
    intros l i Hi. rewrite recorded_other; [done|]. by intros ->.
  - simpl. by rewrite executions_app.
  - apply length_insert.
  - apply eq_None_not_Some. by rewrite (fo_exec s Hs).
Qed.

(** A call is in the network once. *)
Lemma caller_at_unique s k m a m' a' j j' : caller_at s k m a j -> caller_at s k m' a' j' -> j = j'.
Proof.
  intros (c & Hc & _ & _ & Hl) (c' & Hc' & _ & _ & Hl'). rewrite Hc in Hc'. injection Hc' as <-.
  destruct Hl as [Hl|[b Hl]], Hl' as [Hl'|[b' Hl']]; congruence.
Qed.

Lemma not_yet_logged s j k m a job : fwd_ok s -> f_reqs s !! j = Some (k, m, a) -> f_jobs s !! j = Some job -> fj_run job = None ->
  k ∉ (fun x => (snd x).1.1) <$> f_log s.
Proof.
  intros Hs Hj Hjob Hr ([p [[k' m'] a']] & Heq & Hin)%list_elem_of_fmap. simpl in Heq. subst k'.
  destruct (fo_log s Hs _ _ _ _ Hin) as (j' & job' & Hj' & Hjob' & [run Hr']). pose proof (fo_reqs s Hs _ _ _ _ Hj) as H.
  pose proof (fo_reqs s Hs _ _ _ _ Hj') as H'. rewrite (caller_at_unique _ _ _ _ _ _ _ _ H H') in Hjob. congruence.
Qed.

(** The network's server passes a request on, *)
Lemma dispatch_ok s j k m a p d d' : fwd_ok s -> f_reqs s !! j = Some (k, m, a) -> f_jobs s !! j = None -> f_daemons s !! p = Some d ->
  labsrv_dispatch d m = Some d' ->
  fwd_ok (s <| f_daemons := <[p := d']> (f_daemons s) |> <| f_jobs := <[j := MkFJob p [] None]> (f_jobs s) |>).
Proof.
  intros Hs Hj Hjob Hp Hd. unfold labsrv_dispatch in Hd. destruct (slice_to _ _); [|done]. cbn [mbind option_bind] in Hd.
  destruct (slice_from _ _); [|done]. cbn [mbind option_bind] in Hd. injection Hd as <-.
  pose proof (same_memory_ok s p d (MkDaemon (d_first d) (d_past d) (d_mem d) (d_alive d) (d_id d) (d_count d + 1)) Hs Hp eq_refl) as Hs1.
  pose proof (set_job_ok _ j (MkFJob p [] None) [] Hs1) as H. cbn in H. rewrite app_nil_r in H. apply H.
  - exists k, m, a. eexists. simpl. rewrite lookup_insert_eq. split_and!; [done..|]. done.
  - intros job. rewrite Hjob. done.
  - apply (fo_once s Hs).
  - by intros ? ? ? ? ?%elem_of_nil.
Qed.

(** the daemon starts a goroutine for it, *)
Lemma begin_ok s j k m a p seen : fwd_ok s -> f_reqs s !! j = Some (k, m, a) -> f_jobs s !! j = Some (MkFJob p seen None) ->
  fwd_ok (s <| f_jobs := <[j := MkFJob p seen (Some (inl (h_begin (RPC_request m a))))]> (f_jobs s) |> <| f_log := f_log s ++ [(p, (k, m, a))] |>).
Proof.
  intros Hs Hj Hjob. destruct (fo_job s Hs _ _ Hjob) as (k0 & m0 & a0 & d & Hj0 & Hp & Hseen & _). simpl in Hp, Hseen. rewrite Hseen in Hjob |- * by done.
  apply set_job_ok; [done|..].
  - exists k, m, a, d. simpl. split_and!; [done..|set_solver|apply sublist_nil_l|done].
  - intros job. rewrite Hjob. intros [= <-]. by split; [intros _|].
  - rewrite fmap_app. apply NoDup_app. split_and!; [apply Hs| |apply NoDup_singleton]. intros x Hx ->%list_elem_of_singleton.
    by apply (not_yet_logged s j k m a _ Hs Hj Hjob).
  - intros ? ? ? ? [= _ -> -> ->]%list_elem_of_singleton. split; [done|]. by eexists.
Qed.

(** and the goroutine takes a step. *)
Lemma fserve_ok s j p seen h d m run : fwd_ok s -> f_jobs s !! j = Some (MkFJob p seen (Some (inl h))) -> f_daemons s !! p = Some d ->
  h_step (d_mem d) h = Some (m, run) ->
  fwd_ok (s <| f_daemons := <[p := d_to d m]> (f_daemons s) |> <| f_jobs := <[j := MkFJob p (seen ++ [d_mem d]) (Some run)]> (f_jobs s) |>).
Proof.
  intros Hs Hjob Hp Hh. pose proof (d_to_ok s p d m Hs Hp ltac:(left; eauto)) as Hs1.
  destruct (fo_job s Hs _ _ Hjob) as (k & me & a & d0 & Hj & Hp0 & _ & Hin & Hsub & Hrun). simpl in *. rewrite Hp in Hp0. injection Hp0 as <-.
  pose proof (set_job_ok _ j (MkFJob p (seen ++ [d_mem d]) (Some run)) [] Hs1) as H. cbn in H. rewrite app_nil_r in H. apply H.
  - exists k, me, a, (d_to d m). simpl. rewrite lookup_insert_eq. split_and!; [done..|by apply sublist_app|].
    by eapply thread_run_snoc.
  - intros job. rewrite Hjob. intros [= <-]. split; [by eexists|done].
  - apply (fo_once s Hs).
  - by intros ? ? ? ? ?%elem_of_nil.
Qed.

(** dc.forward returns. *)
Lemma forward_return_ok s j e q job back nn (r := dc_forward job back) : fwd_ok s -> calls (f_net s) !! j = Some (MkNetCall e q Running) ->
  f_jobs s !! j = Some job -> net_step (recorded (<[j := r]> (f_replies s))) (f_net s) (EHandler j) = Some nn ->
  fwd_ok (s <| f_net := nn |> <| f_replies := <[j := r]> (f_replies s) |>).
Proof.
  intros Hs Hj Hjob Hn. destruct (handler_step s j e q r Hs Hj) as (nn' & Hn' & Hok & Hex & Hlen & Hnew).
  rewrite Hn in Hn'. injection Hn' as <-.
  assert (forall i x, f_replies s !! i = Some x -> <[j := r]> (f_replies s) !! i = Some x) as Hmono.
  { intros i x Hi. rewrite lookup_insert_ne; [done|]. intros <-. congruence. }
  constructor; simpl; try apply Hs; auto.
  - rewrite Hlen. apply Hs.
  - intros i. rewrite Hex, elem_of_app, list_elem_of_singleton, <-(fo_exec s Hs), lookup_insert_is_Some'. naive_solver.
  - intros k c Hc. pose proof (fo_leg s Hs k c Hc) as H. unfold leg_ok in *. simpl. destruct (fc_leg c); auto.
    destruct H as (H & rep & ok & -> & Hrep). eauto 8.
  - intros k c Hc rep Hrep. destruct (fo_ret s Hs k c Hc rep Hrep) as (i & Hi & Hr). simpl. eauto.
  - intros i x [[<- <-]|[_ Hi]]%lookup_insert_Some; [|by apply (fo_reply s Hs)]. split; [by eexists|]. intros rep Hr. exists job. split; [done|].
    subst r. unfold dc_forward, RPC_result in Hr. destruct (fj_run job) as [[h|[rep' ok]]|]; [done| |done]. destruct back; simpl in Hr; [by injection Hr as -> ->|done].
Qed.

(** The tester decodes what a daemon forwards. *)
Lemma TesterRPC_Forward_forward rn id e method args x : TesterRPC_Forward rn (ds_forward id e method args) = Some x -> x = (e, method, args).
Proof.
  unfold TesterRPC_Forward, ds_forward, RPC_request. rewrite Unmarshall_Marshall. cbn [mbind option_bind rpc_Method rpc_Args].
  rewrite bool_decide_true by done. simpl. rewrite Unmarshall_Marshall. simpl. unfold LookupEnd.
  destruct (bool_decide _); simpl; congruence.
Qed.

Lemma answer_ok s k c j r : fwd_ok s -> f_callers s !! k = Some c -> fc_leg c = InNet j ->
  c_req <$> calls (f_net s) !! j = Some (Returned r) -> snd (Forward_result r) = true -> f_replies s !! j = Some (fst (Forward_result r), true).
Proof.
  intros Hs Hk Hl Hr Hok. apply fmap_Some in Hr as (nc & Hnc & Hr). symmetry in Hr. destruct r as [[rep ok]|]; [|done]. simpl in *. subst ok.
  destruct (proj1 (fo_net s Hs) j nc Hnc) as [He Hq]. rewrite Hr in Hq. simpl in Hq. rewrite Hq in He.
  destruct He as (h1 & h2 & _ & _ & _ & E). unfold recorded in E. destruct (f_replies s !! j) as [x|]; [|done]. simpl in E. congruence.
Qed.

(** Every step keeps the invariant. *)
Lemma fstep_ok s ev s' : fwd_ok s -> fstep s ev = Some s' -> fwd_ok s'.
Proof.
  intros Hs H. destruct ev as [p m|p|p e m a|e m a|k|k|ev|j|j|j|p x|j back|k|k|k]; cbn [fstep] in H.
  - destruct (f_daemons s !! p) as [d|] eqn:Hp; injection H as <-; [done|]. apply set_daemon_ok; [done| |by rewrite Hp].
    split; [done|]. intros [|i] ? ? ? Hi; [done|by destruct i].
  - destruct (f_daemons s !! p) as [d|] eqn:Hp; injection H as <-; [|done]. by apply (same_memory_ok s p d).
  - destruct (f_daemons s !! p) as [[first past mem [] id cnt]|] eqn:Hp; injection H as <-; [|done|done].
    assert (fwd_ok (s <| f_daemons := <[p := MkDaemon first past mem true (i64 (id + 1)) cnt]> (f_daemons s) |>)) as Hs1
      by (by apply (same_memory_ok s p _ _ Hs Hp)).
    by apply (add_caller_ok _ (MkFCaller m a false (ToTester (ds_forward (i64 (id + 1)) e m a)) None) Hs1); [|simpl; eauto].
  - injection H as <-. apply (enter_ok s e _ m a _ (MkFCaller m a true (InNet (length (f_reqs s))) None)); auto.
    + intros k' Hk'. destruct (decide (k' < length (f_callers s))%nat); [by rewrite lookup_app_l|].
      rewrite (lookup_ge_None_2 (f_callers s)) by lia. apply lookup_ge_None. rewrite length_app. simpl. lia.
    + by apply list_lookup_middle.
    + by intros rep ?.
    + intros j m' a' Hj. destruct (fo_reqs s Hs j _ _ _ Hj) as (c & Hc & _). apply lookup_lt_Some in Hc. lia.
  - destruct (f_callers s !! k) as [[m a dir [b|?|? ?|] ret]|] eqn:Hk; try (by injection H as <-).
    pose proof (fo_leg s Hs k _ Hk) as (id & e & Hb). simpl in Hb. destruct (TesterRPC_Forward _ b) as [x|] eqn:Hx; [|done]. rewrite Hb in Hx.
    apply TesterRPC_Forward_forward in Hx as ->. simpl in H. injection H as <-.
    eapply (enter_ok s e k m a); eauto; [intros k' ?; by apply list_lookup_insert_ne|apply list_lookup_insert_eq; by eapply lookup_lt_Some|done..| |].
    + by apply (fo_ret s Hs k _ Hk).
    + intros j m' a' Hj. destruct (fo_reqs s Hs j _ _ _ Hj) as (c & Hc & _ & _ & Hl). rewrite Hk in Hc. injection Hc as <-.
      destruct Hl as [?|[? ?]]; done.
  - destruct (f_callers s !! k) as [[m a dir [b|?|? ?|] ret]|] eqn:Hk; injection H as <-; try done.
    eapply set_caller_ok; eauto; [|done|by apply (fo_ret s Hs k _ Hk)]. intros j [?|[? ?]]; done.
  - destruct (plain ev) eqn:Hp; [|by injection H as <-]. destruct (net_step _ _ _) as [nn|] eqn:Hst; [|done]. simpl in H. injection H as <-.
    by apply (net_plain_ok s ev).
  - destruct (calls (f_net s) !! j) as [[e q [| |]]|] eqn:Hj; try (by injection H as <-).
    destruct (f_reqs s !! j) as [[[k m] a]|] eqn:Hreq; [|by injection H as <-]. destruct (f_jobs s !! j) eqn:Hjob; [by injection H as <-|].
    destruct (f_target s !! j) as [p|]; cbn [mbind option_bind] in H; [|by injection H as <-].
    destruct (f_daemons s !! p) as [d|] eqn:Hd; cbn [mbind option_bind] in H; [|by injection H as <-].
    destruct (labsrv_dispatch d m) as [d'|] eqn:Hdis; [|done]. cbn [mbind option_bind] in H. injection H as <-. by eapply dispatch_ok.
  - injection H as <-. destruct (f_reqs s !! j) as [[[k m] a]|] eqn:Hreq; [|done]. destruct (f_jobs s !! j) as [[p seen [run|]]|] eqn:Hjob; [done| |done].
    destruct (match f_daemons s !! p with Some d => d_alive d | None => false end); [|done]. by apply begin_ok.
  - injection H as <-. destruct (f_jobs s !! j) as [[p seen [[h|r]|]]|] eqn:Hjob; try done. destruct (f_daemons s !! p) as [d|] eqn:Hd; [|done].
    destruct (d_alive d); [|done]. simpl. destruct (h_step (d_mem d) h) as [[m run]|] eqn:Hh; [by eapply fserve_ok|by apply (same_memory_ok s p d)].
  - injection H as <-. destruct (f_daemons s !! p) as [d|] eqn:Hd; [|done]. destruct (d_alive d); [|done]. apply d_to_ok; [done..|]. right. eauto.
  - destruct (calls (f_net s) !! j) as [[e q [| |]]|] eqn:Hj; try (by injection H as <-). destruct (f_jobs s !! j) as [job|] eqn:Hjob; [|by injection H as <-].
    destruct (net_step _ _ (EHandler j)) as [nn|] eqn:Hst; [|done]. cbn [mbind option_bind] in H. injection H as <-. by eapply forward_return_ok.
  - destruct (f_callers s !! k) as [[m a dir [?|j|? ?|] ret]|] eqn:Hk; injection H as <-; try done.
    destruct (c_req <$> calls (f_net s) !! j) as [[| | | |r]|] eqn:Hr; try done. pose proof (answer_ok s k _ j r Hs Hk eq_refl Hr) as Hans.
    pose proof (fo_leg s Hs k _ Hk) as Hleg. simpl in Hleg. destruct (Forward_result r) as [rep ok]. simpl in Hans.
    destruct dir; (eapply set_caller_ok; eauto; [intros i [[= <-]|[? ?]]; [simpl; eauto|done]|split; [done|]; exists rep, ok; split; [done|]; intros ->; auto|]).
    + intros rep' [= -> ->]. exists j. split; [exact Hleg|auto].
    + by apply (fo_ret s Hs k _ Hk).
  - destruct (f_callers s !! k) as [[m a [] [?|?|j b|] [?|]]|] eqn:Hk; try (by injection H as <-).
    pose proof (fo_leg s Hs k _ Hk) as Hleg. pose proof Hleg as (Hreq & rep & ok & -> & Hrep). simpl in Hreq.
    unfold ds_forward_result, RPCMarshall_result, RPC_result in H. simpl in H. rewrite Unmarshall_Marshall in H. simpl in H. injection H as <-.
    eapply set_caller_ok; eauto; [by intros i|]. intros rep' [= -> ->]. exists j. auto.
  - destruct (f_callers s !! k) as [[m a [] leg [?|]]|] eqn:Hk; try (by injection H as <-). simpl in H. injection H as <-.
    eapply set_caller_ok; eauto; [by intros i|by apply (fo_leg s Hs k _ Hk)|]. by intros rep' ?.
Qed.

Lemma frun_ok s evs s' : fwd_ok s -> frun s evs = Some s' -> fwd_ok s'.
Proof.
  revert s. induction evs as [|ev evs IH]; intros s Hs H; simpl in H; [by injection H as <-|].
  destruct (fstep s ev) as [s1|] eqn:Hst; [|done]. by apply (IH s1); [eapply fstep_ok|].
Qed.

(** Daemons are what the tester started. *)
Definition starts (P : M -> Prop) (ev : FEvent) : Prop := match ev with FStart _ m => P m | _ => True end.

Definition firsts (P : M -> Prop) s : Prop := forall p d, f_daemons s !! p = Some d -> P (d_first d).

Lemma firsts_insert P s p d : firsts P s -> P (d_first d) -> firsts P (s <| f_daemons := <[p := d]> (f_daemons s) |>).
Proof. intros Hs Hd q dq Hq. cbn in Hq. apply lookup_insert_Some in Hq as [[<- <-]|[_ Hq]]; [done|by apply (Hs q)]. Qed.

Lemma firsts_step P s ev s' : firsts P s -> starts P ev -> fstep s ev = Some s' -> firsts P s'.
Proof.
  intros Hs Hev H. destruct ev as [p m|p|p e m a|e m a|k|k|ev|j|j|j|p x|j back|k|k|k]; cbn [fstep] in H.
  - destruct (f_daemons s !! p) eqn:Hp; injection H as <-; [done|]. by apply firsts_insert.
  - destruct (f_daemons s !! p) eqn:Hp; injection H as <-; [|done]. apply firsts_insert; [done|exact (Hs p _ Hp)].
  - destruct (f_daemons s !! p) as [[first past mem [] id cnt]|] eqn:Hp; injection H as <-; [|done|done].
    apply (firsts_insert P s p (MkDaemon first past mem true (i64 (id + 1)) cnt) Hs). by apply (Hs p _ Hp).
  - by injection H as <-.
  - destruct (f_callers s !! k) as [[m a dir [b|?|? ?|] ret]|]; try (by injection H as <-).
    destruct (TesterRPC_Forward _ b) as [[[e m'] a']|]; [|done]. cbn [mbind option_bind] in H. by injection H as <-.
  - destruct (f_callers s !! k) as [[m a dir [b|?|? ?|] ret]|]; by injection H as <-.
  - destruct (plain ev); [|by injection H as <-]. destruct (net_step _ _ _); [|done]. cbn [mbind option_bind] in H. by injection H as <-.
  - destruct (calls (f_net s) !! j) as [[e q [| |]]|]; try (by injection H as <-).
    destruct (f_reqs s !! j) as [[[k m] a]|]; [|by injection H as <-]. destruct (f_jobs s !! j); [by injection H as <-|].
    destruct (f_target s !! j) as [p|]; cbn [mbind option_bind] in H; [|by injection H as <-].
    destruct (f_daemons s !! p) as [d|] eqn:Hd; cbn [mbind option_bind] in H; [|by injection H as <-].
    unfold labsrv_dispatch in H. destruct (slice_to _ _); [|done]. cbn [mbind option_bind] in H. destruct (slice_from _ _); [|done].
    cbn [mbind option_bind] in H. injection H as <-. apply (firsts_insert P s p (MkDaemon _ _ _ _ _ _) Hs). exact (Hs p _ Hd).
  - injection H as <-. destruct (f_reqs s !! j) as [[[k m] a]|]; [|done]. destruct (f_jobs s !! j) as [[p seen [run|]]|]; [done| |done].
    by destruct (match f_daemons s !! p with Some d => d_alive d | None => false end).
  - injection H as <-. destruct (f_jobs s !! j) as [[p seen [[h|r]|]]|]; try done. destruct (f_daemons s !! p) as [d|] eqn:Hd; [|done].
    destruct (d_alive d); [|done]. simpl. destruct (h_step (d_mem d) h) as [[m run]|]; (apply (firsts_insert P s p (MkDaemon _ _ _ _ _ _) Hs); exact (Hs p _ Hd)).
  - injection H as <-. destruct (f_daemons s !! p) as [d|] eqn:Hd; [|done]. destruct (d_alive d); [|done].
    apply (firsts_insert P s p (MkDaemon _ _ _ _ _ _) Hs). exact (Hs p _ Hd).
  - destruct (calls (f_net s) !! j) as [[e q [| |]]|]; try (by injection H as <-). destruct (f_jobs s !! j) as [job|]; [|by injection H as <-].
    destruct (net_step _ _ (EHandler j)); [|done]. cbn [mbind option_bind] in H. by injection H as <-.
  - destruct (f_callers s !! k) as [[m a dir [?|j|? ?|] ret]|]; injection H as <-; try done.
    destruct (c_req <$> calls (f_net s) !! j) as [[| | | |r]|]; try done. by destruct (Forward_result r), dir.
  - destruct (f_callers s !! k) as [[m a [] [?|?|j b|] [?|]]|]; try (by injection H as <-).
    destruct (ds_forward_result _); [|done]. cbn [mbind option_bind] in H. by injection H as <-.
  - destruct (f_callers s !! k) as [[m a [] leg [?|]]|]; by injection H as <-.
Qed.

Lemma firsts_run P s evs s' : firsts P s -> Forall (starts P) evs -> frun s evs = Some s' -> firsts P s'.
Proof.
  intros Hs Hev. revert s Hs. induction Hev as [|ev evs Hev _ IH]; intros s Hs H; simpl in H; [by injection H as <-|].
  destruct (fstep s ev) as [s1|] eqn:Hst; [|done]. by apply (IH s1); [eapply firsts_step|].
Qed.

(** A call that returned true was served by the goroutine of one daemon. *)
Lemma returned_call s k c rep : fwd_ok s -> f_callers s !! k = Some c -> fc_ret c = Some (rep, true) ->
  exists p d seen, f_daemons s !! p = Some d /\ (p, (k, fc_svcMeth c, fc_args c)) ∈ f_log s /\ seen `sublist_of` d_past d /\
    thread_run h_step (h_begin (RPC_request (fc_svcMeth c) (fc_args c))) seen = Some (inr (rep, true)).
Proof.
  intros Hs Hk Hret. destruct (fo_ret s Hs k c Hk rep Hret) as (j & Hj & Hr). destruct (fo_reply s Hs _ _ Hr) as [_ Hrep].
  destruct (Hrep rep eq_refl) as (job & Hjob & Hrun). destruct (fo_job s Hs _ _ Hjob) as (k' & m & a & d & Hj' & Hd & _ & Hok).
  rewrite Hj in Hj'. injection Hj' as <- <- <-. rewrite Hrun in Hok. destruct Hok as (? & ? & ?). exists (fj_proc job), d, (fj_seen job). auto.
Qed.

(** ** Theorems *)

(** C38 (safety): a call between daemons is served at most once, and gets its
    own reply.  The daemons serve every request in a goroutine of its own and
    run any other goroutines beside them; these change the memory of their
    daemon in steps that interleave in any way, with daemons started and
    killed, connections closed and messages lost or delayed.  In every such
    run in which the tester does not exit: no call has two goroutines, in one
    daemon or in two; and when Call returns true, a goroutine of one daemon
    was started for the caller's method and arguments, and the value returned
    is the decoded reply it has computed from the states in which it found
    the daemon's memory at its steps, states that the memory went through in
    that order by steps of the daemon's goroutines. *)
Theorem forwarded_call_served_once (evs : list FEvent) s : frun fwd_init evs = Some s ->
  NoDup ((fun x => (snd x).1.1) <$> f_log s) /\
  forall (R : Type) (GT : Gob R) k c r (v : R), f_callers s !! k = Some c -> fc_ret c = Some r -> Call_result r = Some (Some v) ->
    exists p d seen rep, f_daemons s !! p = Some d /\ (p, (k, fc_svcMeth c, fc_args c)) ∈ f_log s /\
      memory_run h_step background (d_first d) (d_past d ++ [d_mem d]) /\ seen `sublist_of` d_past d /\
      thread_run h_step (h_begin (RPC_request (fc_svcMeth c) (fc_args c))) seen = Some (inr (rep, true)) /\ Unmarshall rep = Some v.
Proof.
  intros Hrun. pose proof (frun_ok _ _ _ fwd_init_ok Hrun) as Hs. split; [apply Hs|]. intros R GT k c [rep ok] v Hk Hret Hv.
  destruct ok; simpl in Hv; [|done]. destruct (Unmarshall rep) as [v'|] eqn:Hu; simpl in Hv; [|done]. injection Hv as ->.
  destruct (returned_call s k c rep Hs Hk Hret) as (p & d & seen & Hd & Hin & Hsub & Hth). exists p, d, seen, rep.
  split_and!; auto. by apply (fo_daemon s Hs p).
Qed.

End Forwarding.

(** ** Handlers that are one critical section *)

Section Methods.
Context {St : Type} `{GR : Gob RPCArgs} `{GF : Gob ForwardArgs} `{GP : Gob ForwardReply}.

(** What the other goroutines of a daemon do to the state. *)
Variable others : St -> Z -> St.

(** The daemon's server offers a service made from the methods [ms]. *)
Definition offers (name : string) (ms : list (Method St)) (srv : Server St * St) : Prop :=
  services (fst srv) !! name = Some (MakeService name ms) /\ dispatchf (fst srv) = None.

Definition method_run := frun (fun b => b) RPCSrv_step (RPCSrv_background others).

(** C39 (refinement): a call between daemons is a method call.  The daemons
    offer services whose handlers run under the lock of their object, and
    other goroutines change the state between requests in any way.  In every
    run of daemons, tester and network in which the tester does not exit,
    with daemons killed, connections closed and messages lost or delayed,
    when Call returns true for a handler of the service, one daemon has
    served the caller's method on the caller's arguments, and the reply is
    the result of that handler in a state that this daemon went through. *)
Theorem forwarded_call_is_method_call {A R : Type} `{Gob A} `{Gob R} (name meth : string) (ms : list (Method St))
    (f : St -> A -> St * R) (args : A) (evs : list FEvent) s k c r v :
  NoDup (m_name <$> ms) -> handler meth f ∈ ms -> no_dot meth = true ->
  Forall (starts (offers name ms)) evs -> method_run fwd_init evs = Some s ->
  f_callers s !! k = Some c -> fc_svcMeth c = qualified name meth -> fc_args c = Marshall args ->
  fc_ret c = Some r -> Call_result r = Some (Some v) ->
  exists p d srv, f_daemons s !! p = Some d /\ (p, (k, fc_svcMeth c, fc_args c)) ∈ f_log s /\
    srv ∈ d_past d /\ v = snd (f (snd srv) args).
Proof.
  intros Hnd Hin Hdot Hoff Hrun Hk Hm Ha Hret Hv. pose proof (frun_ok _ _ _ _ _ _ (fwd_init_ok _ _ _) Hrun) as Hs.
  destruct r as [rep []]; simpl in Hv; [|done]. destruct (Unmarshall rep) as [v'|] eqn:Hu; simpl in Hv; [|done]. injection Hv as ->.
  destruct (returned_call _ _ _ s k c rep Hs Hk Hret) as (p & d & seen & Hd & Hlog & Hsub & Hth).
  destruct seen as [|srv seen]; [done|]. cbn [thread_run] in Hth. unfold RPCSrv_step in Hth.
  destruct (RPCSrv_ServeRequest srv _) as [[srv' r]|] eqn:Hr; [|done]. cbn [mbind option_bind] in Hth.
  destruct seen; [|done]. injection Hth as ->. assert (srv ∈ d_past d) as Hpast by (by apply singleton_sublist_l).
  exists p, d, srv. split_and!; auto. destruct (firsts_run _ _ _ _ fwd_init evs s ltac:(done) Hoff Hrun p d Hd) as [Hsvc Hdf].
  pose proof (memory_keeps _ _ _ (fo_daemon _ _ _ s Hs p d Hd)) as Hkeep. rewrite Forall_forall in Hkeep.
  destruct (Hkeep srv) as [Hsvc' Hdf']; [by apply elem_of_app; left|].
  unfold RPCSrv_ServeRequest, RPC_request in Hr. rewrite Unmarshall_Marshall in Hr. cbn [mbind option_bind rpc_Method rpc_Args] in Hr. rewrite Hm, Ha in Hr.
  rewrite (dispatch_handler (fst srv) (snd srv) name meth ms f args) in Hr by congruence. cbn [mbind option_bind] in Hr. injection Hr as _ <-.
  rewrite Unmarshall_Marshall in Hu. congruence.
Qed.

End Methods.

(** ** Witnesses

    Daemon 1 calls Put on daemon 7 through the network; the tester's own
    client writes the same key before, a ticker of daemon 7 writes another
    key meanwhile, and the network's server loses its connection to daemon 7
    while a third call runs. *)

Definition put_bytes (key v : string) (ver : Z) : bytes := Marshall (MkPutArgs key v ver).

Definition tick (kv : KVServer) (x : Z) : KVServer := fst (Put kv (MkPutArgs "t" "tick" x)).

Definition forward_run : list (@FEvent (Server KVServer * KVServer)) :=
  [FStart 1 (kv_server, MakeKVServer); FStart 7 (kv_server, MakeKVServer);
   FNet (EMakeEnd "a"); FNet (EAddServer "s" 7); FNet (EConnect "a" "s"); FNet (EEnable "a" true);
   FDirect "a" "KVServer.Put" (put_bytes "k" "x" 0); FCall 1 "a" "KVServer.Put" (put_bytes "k" "y" 1);
   FCall 1 "a" "KVServer.Put" (put_bytes "k" "z" 2); FArrive 1; FArrive 2;
   FNet (ERead 0); FNet (EAdmit 0 0); FNet (ERead 1); FNet (EAdmit 1 0); FNet (ERead 2); FNet (EAdmit 2 0);
   FDispatch 0; FDispatch 1; FDispatch 2; FBegin 1; FBegin 0; FServe 0; FServe 1; FServe 0; FReturn 0 true;
   FBackground 7 0; FBegin 2; FServe 2; FReturn 2 false; FServe 1; FServe 2; FReturn 1 true;
   FNet (EReceive 0 0 0); FNet (EReceive 1 0 0); FNet (EReceive 2 0 0);
   FAnswer 0; FAnswer 1; FAnswer 2; FReceive 1; FReceive 2].

(** A handler that waits before it serves its request. *)
Definition slow_begin (b : bytes) : bool * bytes := (false, b).
Definition slow_step (srv : Server KVServer * KVServer) (h : bool * bytes)
    : option ((Server KVServer * KVServer) * ((bool * bytes) + bytes * bool)) :=
  if fst h then '(srv, r) ← RPCSrv_ServeRequest srv (snd h); Some (srv, inr r) else Some (srv, inl (true, snd h)).

Definition slow_end : @FSys (Server KVServer * KVServer) (bool * bytes) := default fwd_init (frun slow_begin slow_step (RPCSrv_background tick) fwd_init forward_run).

Lemma slow_run_ends : frun slow_begin slow_step (RPCSrv_background tick) fwd_init forward_run = Some slow_end.
Proof.
  unfold slow_end. assert (is_some (frun slow_begin slow_step (RPCSrv_background tick) fwd_init forward_run) = true) as H by (vm_compute; reflexivity).
  by destruct (frun slow_begin slow_step (RPCSrv_background tick) fwd_init forward_run).
Qed.

Definition put_y : FCaller :=
  MkFCaller "KVServer.Put" (put_bytes "k" "y" 1) false (Answered 1 (Marshall (MkForwardReply (Marshall (MkPutReply OK)) true))) (Some (Marshall (MkPutReply OK), true)).

Lemma put_y_result : Call_result (Marshall (MkPutReply OK), true) = Some (Some (MkPutReply OK)).
Proof. unfold Call_result. rewrite Unmarshall_Marshall. reflexivity. Qed.

Lemma forwarded_call_served_once_witness :
  NoDup ((fun x => (snd x).1.1) <$> f_log slow_end) /\ length (f_log slow_end) = 3%nat /\
  exists p d seen rep, f_daemons slow_end !! p = Some d /\ seen `sublist_of` d_past d /\
    thread_run slow_step (false, RPC_request "KVServer.Put" (put_bytes "k" "y" 1)) seen = Some (inr (rep, true)) /\ Unmarshall rep = Some (MkPutReply OK).
Proof.
  destruct (forwarded_call_served_once slow_begin slow_step (RPCSrv_background tick) forward_run slow_end slow_run_ends) as [Hnd Hex].
  split; [exact Hnd|]. split; [vm_compute; reflexivity|].
  destruct (Hex PutReply _ 1%nat put_y (Marshall (MkPutReply OK), true) (MkPutReply OK)) as (p & d & seen & rep & Hd & _ & _ & Hsub & Hth & Hu).
  - vm_compute. reflexivity.
  - reflexivity.
  - exact put_y_result.
  - exists p, d, seen, rep. auto.
Defined.

(** The same run with handlers that are one critical section. *)
Definition forward_end : @FSys (Server KVServer * KVServer) bytes := default fwd_init (method_run tick fwd_init forward_run).

Lemma forward_run_ends : method_run tick fwd_init forward_run = Some forward_end.
Proof.
  unfold forward_end. assert (is_some (method_run tick fwd_init forward_run) = true) as H by (vm_compute; reflexivity).
  by destruct (method_run tick fwd_init forward_run).
Qed.

Lemma forwarded_call_is_method_call_witness :
  exists p d srv, f_daemons forward_end !! p = Some d /\ srv ∈ d_past d /\ MkPutReply OK = snd (Put (snd srv) (MkPutArgs "k" "y" 1)).
Proof.
  destruct (forwarded_call_is_method_call tick "KVServer" "Put" kv_methods Put (MkPutArgs "k" "y" 1) forward_run forward_end 1 put_y
    (Marshall (MkPutReply OK), true) (MkPutReply OK)) as (p & d & srv & Hd & _ & Hp & Hv).
  - apply (bool_decide_unpack _). vm_compute. exact I.
  - apply list_elem_of_further, list_elem_of_here.
  - reflexivity.
  - repeat constructor.
  - exact forward_run_ends.
  - vm_compute. reflexivity.
  - reflexivity.
  - reflexivity.
  - reflexivity.
  - exact put_y_result.
  - exists p, d, srv. auto.
Defined.
