(* ===== verification/Lock.v ===== *)
(** * The distributed lock (src/kvsrv1/lock/lock.go)

    A lock client is a program over the clerk interface (IKVClerk of
    kvtest1/kvtest.go).  Its program counter says which clerk call it makes
    next; [Acquire_*] and [Release_*] are the code between two calls.  The
    system is any number of clients of one lock, interleaved with each other
    and with clients of other keys.  A clerk call is one atomic step with the
    outcomes that [KvClerk.Clerk_Put_linearizable] leaves ([clerk_put]): the
    answer of the server, or ErrMaybe.  The theorems are mutual exclusion, that Release
    frees the lock, and that an undisturbed client acquires a free lock. *)

From S2P Require Import Prelude Rpc KvSrv KvClerk.

(** ** The program of one client *)

(** [type Lock struct], without the clerk. *)
Record Lock : Type := MkLockState { name : string; id : string; lk_version : Tversion }.

Definition eta_Lock (l : Lock) : Lock := MkLockState (name l) (id l) (lk_version l).
#[export] Instance set_name : Setter name := ltac:(solve_setter eta_Lock name).
#[export] Instance set_id : Setter id := ltac:(solve_setter eta_Lock id).
#[export] Instance set_lk_version : Setter lk_version := ltac:(solve_setter eta_Lock lk_version).

(** [MakeLock]: the loop draws random strings until one is not empty;
    [rands] are the values that kvtest.RandValue returns. *)
Fixpoint MakeLock (lockname : string) (rands : list string) : option Lock :=
  match rands with
  | [] => None
  | r :: rands => if String.eqb r "" then MakeLock lockname rands else Some (MkLockState lockname r 0)
  end.

Inductive pc : Type :=
| Idle                              (* outside Acquire and Release *)
| AcqGet                            (* Acquire: about to Get *)
| AcqPut (ver : Tversion)           (* Acquire: about to Put the id at ver *)
| AcqCheck                          (* Acquire: about to Get after ErrMaybe *)
| Held                              (* Acquire has returned *)
| RelPut (v : Tversion)             (* Release: about to Put the empty string at v *)
| RelMaybe                          (* Release: about to Get after ErrMaybe *)
| RelVersion.                       (* Release: about to Get after ErrVersion *)

(** Acquire after its first Get. *)
Definition Acquire_get (lk : Lock) (res : string * Tversion * Err) : pc :=
  let '(v, ver, err) := res in
  match err with
  | ErrNoKey => AcqPut 0
  | OK => if negb (String.eqb v "") && negb (String.eqb v (id lk)) then AcqGet else AcqPut ver
  | _ => AcqGet
  end.

(** Acquire after its Put at [ver]. *)
Definition Acquire_put (lk : Lock) (ver : Tversion) (putErr : Err) : Lock * pc :=
  match putErr with
  | OK => (lk <| lk_version := u64 (ver + 1) |>, Held)
  | ErrMaybe => (lk, AcqCheck)
  | ErrVersion => (lk, AcqGet)
  | _ => (lk, AcqGet)
  end.

(** Acquire after the Get that resolves an ErrMaybe. *)
Definition Acquire_check (lk : Lock) (res : string * Tversion * Err) : Lock * pc :=
  let '(cur, curVer, e) := res in
  if Err_eqb e OK && String.eqb cur (id lk)
  then (lk <| lk_version := curVer |>, Held)
  else (lk, AcqGet).

(** Release after its Put. *)
Definition Release_put (putErr : Err) : pc :=
  match putErr with
  | OK => Idle
  | ErrMaybe => RelMaybe
  | ErrVersion => RelVersion
  | _ => Idle
  end.

(** Release after the Get that follows an ErrMaybe. *)
Definition Release_maybe (lk : Lock) (res : string * Tversion * Err) : pc :=
  let '(cur, curVer, e) := res in
  if negb (Err_eqb e OK) then Idle
  else if String.eqb cur "" then Idle
  else if negb (String.eqb cur (id lk)) then Idle
  else RelPut curVer.

(** Release after the Get that follows an ErrVersion. *)
Definition Release_version (lk : Lock) (res : string * Tversion * Err) : pc :=
  let '(cur, curVer, e) := res in
  if negb (Err_eqb e OK) || negb (String.eqb cur (id lk)) then Idle else RelPut curVer.

(** One step of a client against the server. *)
Inductive client_step (kv : KVServer) : Lock * pc -> KVServer -> Lock * pc -> Prop :=
| cs_acquire lk : client_step kv (lk, Idle) kv (lk, AcqGet)
| cs_acq_get lk :
    client_step kv (lk, AcqGet) kv (lk, Acquire_get lk (clerk_get kv (name lk)))
| cs_acq_put lk ver e kv' :
    clerk_put kv (MkPutArgs (name lk) (id lk) ver) e kv' ->
    client_step kv (lk, AcqPut ver) kv' (Acquire_put lk ver e)
| cs_acq_check lk c' :
    Acquire_check lk (clerk_get kv (name lk)) = c' ->
    client_step kv (lk, AcqCheck) kv c'
| cs_release lk : client_step kv (lk, Held) kv (lk, RelPut (lk_version lk))
| cs_rel_put lk v e kv' :
    clerk_put kv (MkPutArgs (name lk) "" v) e kv' ->
    client_step kv (lk, RelPut v) kv' (lk, Release_put e)
| cs_rel_maybe lk :
    client_step kv (lk, RelMaybe) kv (lk, Release_maybe lk (clerk_get kv (name lk)))
| cs_rel_version lk :
    client_step kv (lk, RelVersion) kv (lk, Release_version lk (clerk_get kv (name lk))).

(** ** The system *)

Record Sys : Type := MkSys { server : KVServer; clients : list (Lock * pc) }.

(** Some client of the lock [nm] moves, or a client of another key does. *)
Inductive sys_step (nm : string) : Sys -> Sys -> Prop :=
| ss_client s i c kv' c' :
    clients s !! i = Some c ->
    client_step (server s) c kv' c' ->
    sys_step nm s (MkSys kv' (<[i := c']> (clients s)))
| ss_other s a :
    PutArgs_Key a <> nm ->
    sys_step nm s (MkSys (fst (Put (server s) a)) (clients s)).

(** Clients start idle on an empty server, with distinct non-empty ids. *)
Definition sys_init (nm : string) (s : Sys) : Prop :=
  server s = MakeKVServer /\
  Forall (fun c => name (fst c) = nm /\ id (fst c) <> ""%string /\ snd c = Idle) (clients s) /\
  NoDup (map (fun c => id (fst c)) (clients s)).

(** ** Invariant *)

(** What a client's program counter says about the stored value and version. *)
Definition client_ok (kv : KVServer) (lk : Lock) (p : pc) : Prop :=
  let V := value_of kv (name lk) in
  let n := version_of kv (name lk) in
  match p with
  | Idle => V <> id lk
  | AcqGet | AcqCheck | RelMaybe | RelVersion => True
  | AcqPut v => v <= n /\ (v = n -> V = ""%string \/ V = id lk)
  | Held => V = id lk /\ lk_version lk = n
  | RelPut v => v <= n /\ (v = n -> V = id lk)
  end.

Record sys_inv (nm : string) (k : nat) (s : Sys) : Prop := {
  inv_wf : kv_wf (server s);
  inv_bound : version_of (server s) nm <= Z.of_nat k;
  inv_clients : Forall (fun c => name (fst c) = nm /\ id (fst c) <> ""%string /\
                                 client_ok (server s) (fst c) (snd c)) (clients s);
  inv_ids : NoDup (map (fun c => id (fst c)) (clients s));
}.

Lemma clerk_get_eq kv k :
  clerk_get kv k = (value_of kv k, version_of kv k, if decide (kv !! k = None) then ErrNoKey else OK).
Proof. unfold clerk_get, Get, value_of, version_of. simpl. by destruct (kv !! k). Qed.

Lemma value_of_missing kv k : kv !! k = None -> value_of kv k = "" /\ version_of kv k = 0.
Proof. unfold value_of, version_of. intros Hk. by rewrite Hk. Qed.

(** A Put of the lock's key with result and effect, as a version bump. *)
Lemma clerk_put_cases kv k val v e kv' :
  kv_wf kv -> version_of kv k + 1 < 2 ^ 64 -> clerk_put kv (MkPutArgs k val v) e kv' ->
  kv_wf kv' /\
  (v = version_of kv k /\ value_of kv' k = val /\ version_of kv' k = version_of kv k + 1 /\
     (e = OK \/ e = ErrMaybe) \/
   v <> version_of kv k /\ kv' = kv /\ (e = ErrNoKey /\ kv !! k = None \/ e = ErrVersion \/ e = ErrMaybe)).
Proof.
  intros Hwf Hnw [-> He]. pose proof (version_of_bound kv k Hwf) as [? ?].
  split; [by apply Put_wf|].
  destruct (decide (v = version_of kv k)) as [Hv|Hv].
  - left. assert (PutReply_Err (snd (Put kv (MkPutArgs k val v))) = OK) as Hok by by apply Put_OK_iff.
    destruct (Put_state kv (MkPutArgs k val v)) as [[_ ?]|(-> & _ & _)]; [done|]. simpl.
    rewrite Hok in He. rewrite value_of_insert, version_of_insert. simpl.
    rewrite u64_small by lia. naive_solver.
  - right. unfold Put, version_of in *. simpl in *. destruct (kv !! k) as [en|]; simpl in *.
    + rewrite (proj2 (Z.eqb_neq _ _)) in * by done. simpl in *. naive_solver.
    + rewrite (proj2 (Z.eqb_neq _ _)) in * by done. simpl in *. naive_solver.
Qed.

(** A client whose own state does not change stays ok when another one
    writes: it is not at a version it could still match. *)
Lemma client_ok_bump kv kv' lk p :
  value_of kv' (name lk) <> id lk ->
  version_of kv' (name lk) = version_of kv (name lk) + 1 ->
  client_ok kv lk p -> p <> Held -> client_ok kv' lk p.
Proof. intros HV Hn Hok Hp. destruct p; simpl in *; auto; try done; split; intros; lia. Qed.

Lemma client_ok_same kv kv' lk p :
  value_of kv' (name lk) = value_of kv (name lk) ->
  version_of kv' (name lk) = version_of kv (name lk) ->
  client_ok kv lk p -> client_ok kv' lk p.
Proof. intros HV Hn. unfold client_ok. by rewrite HV, Hn. Qed.

(** The value a client overwrites is the empty string or its own id, and it
    writes one of these two. *)
Definition write_ok (kv kv' : KVServer) (lk : Lock) : Prop :=
  (value_of kv' (name lk) = value_of kv (name lk) /\ version_of kv' (name lk) = version_of kv (name lk)) \/
  (version_of kv' (name lk) = version_of kv (name lk) + 1 /\
   (value_of kv' (name lk) = id lk \/ value_of kv' (name lk) = ""%string) /\
   (value_of kv (name lk) = id lk \/ value_of kv (name lk) = ""%string)).

Lemma Acquire_get_ok kv lk : client_ok kv lk (Acquire_get lk (clerk_get kv (name lk))).
Proof.
  rewrite clerk_get_eq. unfold Acquire_get. case_decide as Hk.
  - apply value_of_missing in Hk as [HV Hn]. simpl. rewrite HV, Hn. split; [lia|auto].
  - destruct (String.eqb_spec (value_of kv (name lk)) ""), (String.eqb_spec (value_of kv (name lk)) (id lk));
      simpl; auto; split; auto; lia.
Qed.

Lemma Acquire_check_ok kv lk :
  let '(lk', p') := Acquire_check lk (clerk_get kv (name lk)) in
  name lk' = name lk /\ id lk' = id lk /\ client_ok kv lk' p'.
Proof.
  rewrite clerk_get_eq. unfold Acquire_check.
  destruct (String.eqb_spec (value_of kv (name lk)) (id lk)); rewrite ?andb_false_r, ?andb_true_r; [|done].
  destruct (Err_eqb _ _); simpl; auto.
Qed.

Lemma Release_maybe_ok kv lk :
  id lk <> ""%string -> client_ok kv lk (Release_maybe lk (clerk_get kv (name lk))).
Proof.
  intros Hid. rewrite clerk_get_eq. unfold Release_maybe. case_decide as Hk; simpl.
  - apply value_of_missing in Hk as [-> _]. congruence.
  - destruct (String.eqb_spec (value_of kv (name lk)) ""), (String.eqb_spec (value_of kv (name lk)) (id lk));
      simpl; auto; try congruence. split; auto; lia.
Qed.

Lemma Release_version_ok kv lk :
  id lk <> ""%string -> client_ok kv lk (Release_version lk (clerk_get kv (name lk))).
Proof.
  intros Hid. rewrite clerk_get_eq. unfold Release_version. case_decide as Hk; simpl.
  - apply value_of_missing in Hk as [-> _]. congruence.
  - destruct (String.eqb_spec (value_of kv (name lk)) (id lk)); simpl; [split; auto; lia | done].
Qed.

Lemma client_step_ok kv lk p kv' lk' p' :
  kv_wf kv -> version_of kv (name lk) + 1 < 2 ^ 64 -> id lk <> ""%string ->
  client_ok kv lk p -> client_step kv (lk, p) kv' (lk', p') ->
  name lk' = name lk /\ id lk' = id lk /\ kv_wf kv' /\ client_ok kv' lk' p' /\ write_ok kv kv' lk.
Proof.
  intros Hwf Hnw Hid Hok Hstep. unfold write_ok.
  inversion Hstep as [| |? ver e ? Hput|? ? Hchk| |? v e ? Hput| |]; subst.
  - simpl; auto 10.
  - split_and!; auto using Acquire_get_ok.
  - apply clerk_put_cases in Hput as [Hwf' Hc]; [|done..]. simpl in Hok.
    destruct Hc as [(-> & HV & Hn & He)|(Hne & -> & He)].
    + pose proof (version_of_bound kv (name lk) Hwf) as [].
      rewrite HV, Hn. destruct He as [->| ->]; simplify_eq/=; rewrite ?HV, ?Hn, ?u64_small by lia;
        naive_solver.
    + destruct He as [[-> _]|[->| ->]]; simplify_eq/=; auto 10.
  - pose proof (Acquire_check_ok kv' lk) as Hc. rewrite Hchk in Hc.
    destruct Hc as (? & ? & ?). auto 10.
  - simpl in *. destruct Hok as [-> ->]. split_and!; auto; lia.
  - apply clerk_put_cases in Hput as [Hwf' Hc]; [|done..]. simpl in Hok.
    destruct Hc as [(-> & HV & Hn & He)|(Hne & -> & He)].
    + rewrite HV, Hn. destruct He as [->| ->]; simpl; rewrite ?HV; split_and!; auto 10.
      all: right; split_and!; auto; left; apply Hok; done.
    + destruct He as [[-> Hk]|[->| ->]]; simpl; auto 10.
      apply value_of_missing in Hk as [-> _]. auto 10.
  - split_and!; auto using Release_maybe_ok.
  - split_and!; auto using Release_version_ok.
Qed.

Lemma client_ok_after_write kv kv' lk lk2 p2 :
  name lk2 = name lk -> id lk2 <> id lk -> id lk2 <> ""%string ->
  write_ok kv kv' lk -> client_ok kv lk2 p2 -> client_ok kv' lk2 p2.
Proof.
  intros Hn Hne Hid Hw Hok. unfold write_ok in Hw. rewrite <-Hn in Hw.
  destruct Hw as [[HV Hv]|(Hv & HV' & HV)]; [by eapply client_ok_same|].
  eapply client_ok_bump; eauto; [naive_solver congruence|].
  intros ->. simpl in Hok. naive_solver congruence.
Qed.

Lemma sys_step_inv nm k s s' :
  Z.of_nat k + 1 < 2 ^ 64 -> sys_inv nm k s -> sys_step nm s s' -> sys_inv nm (S k) s'.
Proof.
  intros Hk [Hwf Hb Hcl Hids] Hstep. inversion Hstep as [? i [lk p] kv' [lk' p'] Hi Hcs|? a Ha]; subst.
  - pose proof Hcl as Hcl'. rewrite Forall_lookup in Hcl'.
    destruct (Hcl' _ _ Hi) as (Hname & Hid & Hok). simpl in *. subst nm.
    apply client_step_ok in Hcs as (Hn' & Hid' & Hwf' & Hok' & Hw); auto; [|lia].
    assert (map (fun c => id (fst c)) (<[i := (lk', p')]> (clients s)) =
            map (fun c => id (fst c)) (clients s)) as Heq.
    { change (map ?f ?l) with (f <$> l). rewrite list_fmap_insert. simpl. rewrite Hid'.
      apply list_insert_id. by rewrite list_lookup_fmap, Hi. }
    constructor; simpl; auto.
    + destruct Hw as [[_ ?]|[? _]]; lia.
    + apply Forall_lookup. intros j [lk2 p2] Hj.
      destruct (decide (i = j)) as [<-|Hij].
      { apply lookup_lt_Some in Hi. rewrite list_lookup_insert_eq in Hj by done.
        simplify_eq/=. rewrite Hn', Hid'. auto. }
      rewrite list_lookup_insert_ne in Hj by done.
      destruct (Hcl' _ _ Hj) as (Hn2 & Hid2 & Hok2). simpl in *. split_and!; auto.
      eapply client_ok_after_write; eauto. intros Hsame. apply Hij.
      eapply (NoDup_lookup _ i j (id lk) Hids);
        change (map ?f ?l) with (f <$> l); rewrite list_lookup_fmap.
      * by rewrite Hi.
      * rewrite Hj. simpl. by rewrite Hsame.
    + by rewrite Heq.
  - assert (value_of (fst (Put (server s) a)) nm = value_of (server s) nm /\
            version_of (fst (Put (server s) a)) nm = version_of (server s) nm) as [HV Hv].
    { unfold value_of, version_of. by rewrite Put_other. }
    constructor; simpl; auto with labs; [rewrite Hv; lia|].
    eapply Forall_impl; [exact Hcl|]. intros [lk p] (Hn & Hid & Hok). split_and!; auto. simpl in *.
    subst nm. by eapply client_ok_same.
Qed.

Lemma sys_init_inv nm s : sys_init nm s -> sys_inv nm 0 s.
Proof.
  intros (Hs & Hcl & Hids). constructor; auto; rewrite Hs.
  - apply map_Forall_empty.
  - done.
  - eapply Forall_impl; [exact Hcl|]. intros [lk p] (Hn & Hid & Hp). simpl in *. subst p.
    split_and!; auto. simpl. unfold value_of, MakeKVServer. rewrite lookup_empty. congruence.
Qed.

Lemma sys_reachable_inv nm k s0 s :
  sys_init nm s0 -> nsteps (sys_step nm) k s0 s -> Z.of_nat k < 2 ^ 64 - 1 -> sys_inv nm k s.
Proof.
  intros Hinit. revert s. induction k as [|k IH]; intros s Hsteps Hk.
  - inversion Hsteps; subst. by apply sys_init_inv.
  - apply nsteps_inv_r in Hsteps as (s1 & Hs1 & Hlast).
    eapply sys_step_inv; [|apply IH|]; eauto; lia.
Qed.

(** C27 (safety): mutual exclusion.  In every state the clients of a lock
    reach from an empty server, in any interleaving and with any pattern of
    lost replies and ErrMaybe results (fewer than 2^64 - 1 steps, so that no
    version wraps), at most one client is between the return of Acquire and
    its call of Release. *)
Theorem lock_mutual_exclusion (nm : string) (k : nat) (s0 s : Sys) i j lki lkj :
  sys_init nm s0 -> nsteps (sys_step nm) k s0 s -> Z.of_nat k < 2 ^ 64 - 1 ->
  clients s !! i = Some (lki, Held) -> clients s !! j = Some (lkj, Held) -> i = j.
Proof.
  intros Hinit Hsteps Hk Hi Hj.
  destruct (sys_reachable_inv _ _ _ _ Hinit Hsteps Hk) as [_ _ Hcl Hids].
  rewrite Forall_lookup in Hcl.
  destruct (Hcl _ _ Hi) as (Hni & _ & [Hvi _]), (Hcl _ _ Hj) as (Hnj & _ & [Hvj _]). simpl in *.
  eapply (NoDup_lookup _ i j (id lki) Hids);
    change (map ?f ?l) with (f <$> l); rewrite list_lookup_fmap.
  - by rewrite Hi.
  - rewrite Hj. simpl. congruence.
Qed.

(** Two clients of the lock "l", and the run in which the first acquires it. *)
Definition demo_lk (i : string) (v : Tversion) : Lock := MkLockState "l" i v.
Definition demo_init : Sys := MkSys MakeKVServer [(demo_lk "a" 0, Idle); (demo_lk "b" 0, Idle)].
Definition demo_kv : KVServer := fst (Put MakeKVServer (MkPutArgs "l" "a" 0)).
Definition demo_held : Sys := MkSys demo_kv [(demo_lk "a" 1, Held); (demo_lk "b" 0, Idle)].

Lemma demo_sys_init : sys_init "l" demo_init.
Proof.
  split_and!; [done| |].
  - repeat constructor; done.
  - apply (bool_decide_unpack _). vm_compute. done.
Qed.

Lemma demo_reach : nsteps (sys_step "l") 3 demo_init demo_held.
Proof.
  apply (nsteps_l _ _ _ (MkSys MakeKVServer [(demo_lk "a" 0, AcqGet); (demo_lk "b" 0, Idle)])).
  { exact (ss_client "l" demo_init 0 _ MakeKVServer _ eq_refl (cs_acquire _ _)). }
  apply (nsteps_l _ _ _ (MkSys MakeKVServer [(demo_lk "a" 0, AcqPut 0); (demo_lk "b" 0, Idle)])).
  { exact (ss_client "l" (MkSys MakeKVServer [(demo_lk "a" 0, AcqGet); (demo_lk "b" 0, Idle)])
             0 _ MakeKVServer _ eq_refl (cs_acq_get _ _)). }
  apply nsteps_once.
  refine (ss_client "l" (MkSys MakeKVServer [(demo_lk "a" 0, AcqPut 0); (demo_lk "b" 0, Idle)])
             0 _ demo_kv (demo_lk "a" 1, Held) eq_refl _).
  apply (cs_acq_put _ (demo_lk "a" 0) 0 OK). split; [done|by left].
Qed.

Lemma lock_mutual_exclusion_witness :
  clients demo_held !! 0%nat = Some (demo_lk "a" 1, Held) /\
  forall j lkj, clients demo_held !! j = Some (lkj, Held) -> 0%nat = j.
Proof.
  split; [done|]. intros j lkj Hj.
  apply (lock_mutual_exclusion "l" 3 demo_init demo_held 0 j (demo_lk "a" 1) lkj).
  - exact demo_sys_init.
  - exact demo_reach.
  - lia.
  - done.
  - exact Hj.
Defined.

(** What a client believes about the lock is what the server
    stores.  A client that holds the lock finds its own id there, at exactly
    the version its Release will present; a client whose Release has
    returned (or that never called Acquire) does not find its id there. *)
Theorem lock_view_matches_server (nm : string) (k : nat) (s0 s : Sys) i lk p :
  sys_init nm s0 -> nsteps (sys_step nm) k s0 s -> Z.of_nat k < 2 ^ 64 - 1 ->
  clients s !! i = Some (lk, p) ->
  (p = Held -> value_of (server s) nm = id lk /\ version_of (server s) nm = lk_version lk) /\
  (p = Idle -> value_of (server s) nm <> id lk).
Proof.
  intros Hinit Hsteps Hk Hi.
  destruct (sys_reachable_inv _ _ _ _ Hinit Hsteps Hk) as [_ _ Hcl _].
  rewrite Forall_lookup in Hcl. destruct (Hcl _ _ Hi) as (<- & _ & Hok). simpl in Hok.
  split; intros ->; simpl in Hok; [destruct Hok; auto | done].
Qed.

Lemma lock_view_matches_server_witness :
  value_of (server demo_held) "l" = id (demo_lk "a" 1) /\
  version_of (server demo_held) "l" = lk_version (demo_lk "a" 1).
Proof.
  apply (lock_view_matches_server "l" 3 demo_init demo_held 0 (demo_lk "a" 1) Held); try done.
  - exact demo_sys_init.
  - exact demo_reach.
Defined.

(** Acquire terminates on a free lock.  When the stored value
    is empty or the client's own id, a client that runs undisturbed holds
    the lock after its next Get and Put, with the version the server now
    stores. *)
Theorem lock_acquire_free (kv : KVServer) (lk : Lock) :
  kv_wf kv -> id lk <> ""%string ->
  value_of kv (name lk) = ""%string \/ value_of kv (name lk) = id lk ->
  exists ver kv' lk',
    client_step kv (lk, AcqGet) kv (lk, AcqPut ver) /\
    client_step kv (lk, AcqPut ver) kv' (lk', Held) /\
    value_of kv' (name lk) = id lk /\ version_of kv' (name lk) = lk_version lk'.
Proof.
  intros Hwf Hid Hfree.
  set (args := MkPutArgs (name lk) (id lk) (version_of kv (name lk))).
  exists (version_of kv (name lk)), (fst (Put kv args)), (lk <| lk_version := u64 (version_of kv (name lk) + 1) |>).
  assert (PutReply_Err (snd (Put kv args)) = OK) as Hok by by apply Put_OK_iff.
  split_and!.
  - replace (AcqPut (version_of kv (name lk))) with (Acquire_get lk (clerk_get kv (name lk)));
      [apply cs_acq_get|].
    rewrite clerk_get_eq. unfold Acquire_get. case_decide as Hk.
    + by apply value_of_missing in Hk as [_ ->].
    + destruct Hfree as [Hf|Hf]; rewrite Hf, ?String.eqb_refl, ?andb_false_r; done.
  - apply (cs_acq_put kv lk (version_of kv (name lk)) OK). split; [done|]. left. symmetry. exact Hok.
  - destruct (Put_state kv args) as [[_ ?]|(-> & _ & _)]; [done|]. apply value_of_insert.
  - destruct (Put_state kv args) as [[_ ?]|(-> & _ & _)]; [done|]. apply version_of_insert.
Qed.

Lemma lock_acquire_free_witness :
  exists ver kv' lk',
    client_step MakeKVServer (demo_lk "a" 0, AcqGet) MakeKVServer (demo_lk "a" 0, AcqPut ver) /\
    client_step MakeKVServer (demo_lk "a" 0, AcqPut ver) kv' (lk', Held) /\
    value_of kv' "l" = "a"%string /\ version_of kv' "l" = lk_version lk'.
Proof.
  apply (lock_acquire_free MakeKVServer (demo_lk "a" 0)).
  - apply map_Forall_empty.
  - done.
  - by left.
Defined.

(** MakeLock never produces an empty id. *)
Lemma MakeLock_id nm rands lk : MakeLock nm rands = Some lk -> name lk = nm /\ id lk <> ""%string.
Proof.
  induction rands as [|r rands IH]; simpl; [done|].
  destruct (String.eqb_spec r ""); [done|]. by intros [= <-].
Qed.
