(* ===== verification/KvTest.v ===== *)
(** * The concurrent clients of the tests (src/kvtest1/kvtest.go)

    The test clients append to one key ([OneClientAppend]) or overwrite one
    key ([OneClientPut]) with Gets and versioned Puts, all at once, over a
    clerk that may answer ErrMaybe; then the tester reads the key and checks
    it against what the clients counted ([CheckAppends],
    [CheckPutConcurrent]).  A clerk call is one atomic step, as
    KvClerk.v shows.

    The theorems: on this server and clerk both checks pass for every number
    of clients and every interleaving. *)

From S2P Require Import Prelude Rpc KvSrv KvClerk.

(** ** Reading and writing (Fatalf is [None]) *)

Section Rw.
Context {A : Type} `{Json A}.

Definition GetJson (kv : KVServer) (key : string) : option (A * Tversion) :=
  let '(val, ver, err) := clerk_get kv key in
  if Err_eqb err OK then v ← json_dec val; Some (v, ver) else None.

Definition PutJson (kv : KVServer) (key : string) (v : A) (ver : Tversion) (lost : bool) : KVServer * Err :=
  clerk_put_run kv (MkPutArgs key (json_enc v) ver) lost.

(** [losts]: whether each of the Puts stays uncertain. *)
Fixpoint PutAtLeastOnceJson (kv : KVServer) (key : string) (v : A) (losts : list bool) : option KVServer :=
  match losts with
  | [] => None                                        (* still trying *)
  | lost :: losts =>
      let '(kv, err) := PutJson kv key v 0 lost in
      if negb (Err_eqb err ErrMaybe) then Some kv else PutAtLeastOnceJson kv key v losts
  end.

End Rw.

Inductive Putting : Type := PutDone (kv : KVServer) (ver : Tversion) | PutFatal | PutTrying.

(** [PutAtLeastOnce]: at the version it was given, or the next ones. *)
Fixpoint PutAtLeastOnce (kv : KVServer) (key value : string) (ver : Tversion) (losts : list bool) : Putting :=
  match losts with
  | [] => PutTrying
  | lost :: losts =>
      let '(kv, err) := clerk_put_run kv (MkPutArgs key value ver) lost in
      if Err_eqb err OK then PutDone kv (u64 (ver + 1))
      else if Err_eqb err ErrMaybe || Err_eqb err ErrVersion then PutAtLeastOnce kv key value (u64 (ver + 1)) losts
      else if negb (ver =? 0) then PutFatal
      else PutAtLeastOnce kv key value ver losts
  end.

(** [CheckGet]: false is a Fatal. *)
Definition CheckGet (kv : KVServer) (key value : string) (version : Tversion) : bool :=
  let '(val, ver, err) := clerk_get kv key in
  Err_eqb err OK && String.eqb val value && (ver =? version).

Record ClntRes : Type := MkClntRes { Nok : Z; Nmaybe : Z }.

(** ** Appending clients *)

Record EntryN : Type := MkEntryN { Id : Z; N_ : Z }.

#[export] Instance EntryN_eq_dec : EqDecision EntryN.
Proof. solve_decision. Defined.
#[export] Instance EntryN_countable : Countable EntryN.
Proof. refine (inj_countable' (fun e => (Id e, N_ e)) (fun '(a, b) => MkEntryN a b) _); by intros []. Defined.

(** The loop of [CheckAppends] over the entries; a missing map entry is 0. *)
Fixpoint append_scan (es : list EntryN) (expect skipped : gmap Z Z) : option (gmap Z Z * gmap Z Z) :=
  match es with
  | [] => Some (expect, skipped)
  | e :: es =>
      let x := default 0 (expect !! Id e) in
      if x >? N_ e then None
      else if x =? N_ e then append_scan es (<[Id e := x + 1]> expect) skipped
      else append_scan es (<[Id e := N_ e + 1]> expect) (<[Id e := default 0 (skipped !! Id e) + (N_ e - x)]> skipped)
  end.

Definition zeros (nclnt : nat) : gmap Z Z := list_to_map ((fun i => (Z.of_nat i, 0)) <$> seq 0 nclnt).

(** The check of one client. *)
Definition append_client_ok (skipped : gmap Z Z) (rs : list ClntRes) (c n : Z) : bool :=
  match get rs c with
  | Some r => negb (default 0 (skipped !! c) >? Nmaybe r) && negb (n >? Nok r + Nmaybe r)
  | None => false                                     (* index out of range *)
  end.

Definition CheckAppends (es : list EntryN) (nclnt : nat) (rs : list ClntRes) (ver : Tversion) : bool :=
  match append_scan es (zeros nclnt) (zeros nclnt) with
  | None => false
  | Some (expect, skipped) =>
      (len es + 1 =? i64 ver) && forallb (fun '(c, n) => append_client_ok skipped rs c n) (map_to_list expect)
  end.

(** Where a client is: between two appends, about to read again after
    ErrVersion, about to Put what it read, or finished. *)
Inductive APc : Type := ANext | AAgain | APutting (es : list EntryN) (ver : Tversion) | AStopped.

Record AClient : Type := MkAClient { ac_i : Z; ac_res : ClntRes; ac_pc : APc }.

Inductive AEvent : Type :=
| AGet (c : nat)
| APut (c : nat) (lost : bool)
| AStop (c : nat)                                     (* the done signal *)
| AOther (a : PutArgs).                               (* a Put of someone else to another key *)

Section Append.
Context `{Json (list EntryN)}.

(** One step of [OneClientAppend] of client [me]; [None] is a Fatal, an event
    that is not enabled changes nothing. *)
Definition append_step (kv : KVServer) (cs : list AClient) (ev : AEvent) : option (KVServer * list AClient) :=
  match ev with
  | AGet me =>
      match cs !! me with
      | Some (MkAClient i r ANext) | Some (MkAClient i r AAgain) =>
          '(es, ver) ← GetJson kv "k";
          Some (kv, <[me := MkAClient i r (APutting (es ++ [MkEntryN (Z.of_nat me) i]) ver)]> cs)
      | _ => Some (kv, cs)
      end
  | APut me lost =>
      match cs !! me with
      | Some (MkAClient i r (APutting es ver)) =>
          let '(kv, err) := PutJson kv "k" es ver lost in
          Some (kv, <[me := match err with
                            | OK => MkAClient (i + 1) (MkClntRes (Nok r + 1) (Nmaybe r)) ANext
                            | ErrMaybe => MkAClient (i + 1) (MkClntRes (Nok r) (Nmaybe r + 1)) ANext
                            | _ => MkAClient i r AAgain
                            end]> cs)
      | _ => Some (kv, cs)
      end
  | AStop me =>
      match cs !! me with
      | Some (MkAClient i r ANext) => Some (kv, <[me := MkAClient i r AStopped]> cs)
      | _ => Some (kv, cs)
      end
  | AOther a => if String.eqb (PutArgs_Key a) "k" then Some (kv, cs) else Some (fst (Put kv a), cs)
  end.

Fixpoint append_run (kv : KVServer) (cs : list AClient) (evs : list AEvent) : option (KVServer * list AClient) :=
  match evs with
  | [] => Some (kv, cs)
  | ev :: evs => '(kv, cs) ← append_step kv cs ev; append_run kv cs evs
  end.

(** A test: the key is made, the clients run. *)
Definition append_test (nclnt : nat) (losts : list bool) (evs : list AEvent) : option (KVServer * list AClient) :=
  kv ← PutAtLeastOnceJson MakeKVServer "k" ([] : list EntryN) losts;
  append_run kv (replicate nclnt (MkAClient 0 (MkClntRes 0 0) ANext)) evs.

(** *** What a scan of the entries finds *)

(** The entries of client [c] from expectation [x] on: the next expected
    number, unless an old entry turns up. *)
Fixpoint scan (c x : Z) (es : list EntryN) : option Z :=
  match es with
  | [] => Some x
  | e :: es => if Id e =? c then (if x >? N_ e then None else scan c (N_ e + 1) es) else scan c x es
  end.

Definition count_of (c : Z) (es : list EntryN) : Z := len (filter (fun e => Id e = c) es).

Lemma scan_snoc c x es e : scan c x (es ++ [e]) =
  y ← scan c x es; if Id e =? c then (if y >? N_ e then None else Some (N_ e + 1)) else Some y.
Proof.
  revert x. induction es as [|e0 es IH]; intros x; simpl; [done|]. destruct (Id e0 =? c); [|apply IH]. destruct (x >? N_ e0); [done|apply IH].
Qed.

Lemma count_of_snoc c es e : count_of c (es ++ [e]) = count_of c es + (if Id e =? c then 1 else 0).
Proof.
  unfold count_of. rewrite filter_app, length_app, filter_cons, filter_nil.
  destruct (Z.eqb_spec (Id e) c); [rewrite decide_True by done|rewrite decide_False by done]; simpl; lia.
Qed.

Lemma count_of_cons c e es : count_of c (e :: es) = (if Id e =? c then 1 else 0) + count_of c es.
Proof.
  unfold count_of. rewrite filter_cons. destruct (Z.eqb_spec (Id e) c); [rewrite decide_True by done|rewrite decide_False by done]; simpl; lia.
Qed.

(** The maps of [CheckAppends] hold what the scans find. *)
Lemma append_scan_ok (P : Z -> Prop) es ex sk y : (forall c, scan c (default 0 (ex !! c)) es = Some (y c)) -> Forall (fun e => P (Id e)) es ->
  (forall c, is_Some (ex !! c) -> P c) ->
  exists ex' sk', append_scan es ex sk = Some (ex', sk') /\ (forall c, is_Some (ex' !! c) -> P c) /\ forall c,
    default 0 (ex' !! c) = y c /\ default 0 (sk' !! c) = default 0 (sk !! c) + (y c - default 0 (ex !! c)) - count_of c es.
Proof.
  intros Hy Hes. revert ex sk Hy. induction Hes as [|e es He Hes IH]; intros ex sk Hy Hex; cbn [append_scan].
  { exists ex, sk. split_and!; [done..|]. intros c. specialize (Hy c). simpl in Hy. injection Hy as <-. unfold count_of. simpl. split; [done|lia]. }
  set (x := default 0 (ex !! Id e)). pose proof (Hy (Id e)) as Hx. simpl in Hx. rewrite Z.eqb_refl in Hx. fold x in Hx.
  rewrite Z.gtb_ltb in *. destruct (Z.ltb_spec (N_ e) x) as [|Hle]; [done|].
  assert (forall c, default 0 (<[Id e := N_ e + 1]> ex !! c) = if Id e =? c then N_ e + 1 else default 0 (ex !! c)) as Hnew.
  { intros c. destruct (Z.eqb_spec (Id e) c) as [->|Hne]; [by rewrite lookup_insert_eq|by rewrite lookup_insert_ne]. }
  assert (forall c, scan c (default 0 (<[Id e := N_ e + 1]> ex !! c)) es = Some (y c)) as Hy'.
  { intros c. rewrite Hnew. destruct (Z.eqb_spec (Id e) c) as [<-|Hne]; [done|]. specialize (Hy c). simpl in Hy.
    by rewrite (proj2 (Z.eqb_neq _ _) Hne) in Hy. }
  assert (forall c, is_Some (<[Id e := N_ e + 1]> ex !! c) -> P c) as Hex'.
  { intros c. destruct (decide (Id e = c)) as [<-|Hne]; [done|]. rewrite lookup_insert_ne by done. apply Hex. }
  assert (exists sk1, (if x =? N_ e then append_scan es (<[Id e := x + 1]> ex) sk
      else append_scan es (<[Id e := N_ e + 1]> ex) (<[Id e := default 0 (sk !! Id e) + (N_ e - x)]> sk)) =
      append_scan es (<[Id e := N_ e + 1]> ex) sk1 /\
    forall c, default 0 (sk1 !! c) = default 0 (sk !! c) + (if Id e =? c then N_ e - x else 0)) as (sk1 & -> & Hsk1).
  { destruct (Z.eqb_spec x (N_ e)) as [->|Hne].
    - exists sk. split; [done|]. intros c. destruct (Id e =? c); lia.
    - eexists. split; [done|]. intros c. destruct (Z.eqb_spec (Id e) c) as [<-|]; [by rewrite lookup_insert_eq|]. rewrite lookup_insert_ne by done. lia. }
  destruct (IH _ sk1 Hy' Hex') as (ex' & sk' & Heq & Hdom & Hres). exists ex', sk'. split_and!; [done..|]. intros c. destruct (Hres c) as [H1 H2].
  split; [done|]. rewrite H2, Hsk1, Hnew, count_of_cons. destruct (Z.eqb_spec (Id e) c) as [<-|]; [fold x|]; lia.
Qed.

(** *** The invariant *)

Definition aclient_ok (es : list EntryN) (me : nat) (a : AClient) : Prop :=
  (exists x, scan (Z.of_nat me) 0 es = Some x /\ x <= ac_i a) /\
  Nok (ac_res a) + Nmaybe (ac_res a) = ac_i a /\ Nok (ac_res a) <= count_of (Z.of_nat me) es /\
  match ac_pc a with
  | APutting es' ver => exists es0, es' = es0 ++ [MkEntryN (Z.of_nat me) (ac_i a)] /\ ver <= len es + 1 /\ (ver = len es + 1 -> es0 = es)
  | _ => True
  end.

Record append_inv (nclnt : nat) (kv : KVServer) (cs : list AClient) (es : list EntryN) : Prop := {
  ai_key : kv !! "k"%string = Some (MkKvEntry (json_enc es) (len es + 1));
  ai_len : length cs = nclnt;
  ai_ids : Forall (fun e => 0 <= Id e < Z.of_nat nclnt) es;
  ai_clients : forall me a, cs !! me = Some a -> aclient_ok es me a;
}.

Lemma GetJson_key {A : Type} `{Json A} kv key (v : A) ver : kv !! key = Some (MkKvEntry (json_enc v) ver) -> GetJson kv key = Some (v, ver).
Proof. intros Hk. unfold GetJson, clerk_get, Get. simpl. rewrite Hk. simpl. by rewrite json_dec_enc. Qed.

(** A versioned Put to an existing key. *)
Lemma PutJson_cases {A : Type} `{Json A} kv key (v : A) ver lost val cur : kv !! key = Some (MkKvEntry val cur) ->
  ver = cur /\ PutJson kv key v ver lost = (<[key := MkKvEntry (json_enc v) (u64 (cur + 1))]> kv, if lost then ErrMaybe else OK) \/
  ver <> cur /\ PutJson kv key v ver lost = (kv, if lost then ErrMaybe else ErrVersion).
Proof.
  intros Hk. unfold PutJson, clerk_put_run, Put. simpl. rewrite Hk. simpl.
  destruct (Z.eqb_spec ver cur); simpl; [left|right]; split; auto; by destruct lost.
Qed.

Lemma append_inv_client nclnt kv cs es me a : append_inv nclnt kv cs es -> aclient_ok es me a -> append_inv nclnt kv (<[me := a]> cs) es.
Proof.
  intros [Hk Hl Hi Hc] Ha. constructor; auto; [by rewrite length_insert|].
  intros j b Hb. apply list_lookup_insert_Some in Hb as [(<- & <- & _)|[_ Hb]]; auto.
Qed.

(** Client [me] has appended its entry. *)
Lemma append_inv_grow nclnt kv cs es me i r ok ver : append_inv nclnt kv cs es -> u64 (len es + 1 + 1) = len es + 2 ->
  cs !! me = Some (MkAClient i r (APutting (es ++ [MkEntryN (Z.of_nat me) i]) ver)) ->
  append_inv nclnt (<["k"%string := MkKvEntry (json_enc (es ++ [MkEntryN (Z.of_nat me) i])) (u64 (len es + 1 + 1))]> kv)
    (<[me := MkAClient (i + 1) (if ok : bool then MkClntRes (Nok r + 1) (Nmaybe r) else MkClntRes (Nok r) (Nmaybe r + 1)) ANext]> cs)
    (es ++ [MkEntryN (Z.of_nat me) i]).
Proof.
  intros [Hk Hl Hi Hc] Hu Hme. pose proof (Hc _ _ Hme) as ((x & Hx & Hxi) & Hsum & Hcnt & _). simpl in *. constructor.
  - rewrite lookup_insert_eq, Hu. do 2 f_equal. rewrite length_app. simpl. lia.
  - by rewrite length_insert.
  - apply Forall_app. split; [done|]. constructor; [|constructor]. simpl. apply lookup_lt_Some in Hme. lia.
  - intros j b Hb. apply list_lookup_insert_Some in Hb as [(<- & <- & _)|[Hj Hb]].
    + split_and!; simpl.
      * exists (i + 1). split; [|lia]. rewrite scan_snoc, Hx. simpl. rewrite Z.eqb_refl, Z.gtb_ltb. by destruct (Z.ltb_spec i x); [lia|].
      * destruct ok; simpl; lia.
      * rewrite count_of_snoc. simpl. rewrite Z.eqb_refl. destruct ok; simpl; lia.
      * done.
    + destruct (Hc _ _ Hb) as ((y & Hy & Hyi) & Hs & Hn & Hpc). assert ((Id (MkEntryN (Z.of_nat me) i) =? Z.of_nat j) = false) as Hne.
      { apply Z.eqb_neq. simpl. lia. }
      split_and!; [|done| |].
      * exists y. split; [|done]. rewrite scan_snoc, Hy. cbn [mbind option_bind]. by rewrite Hne.
      * rewrite count_of_snoc, Hne. lia.
      * destruct (ac_pc b); auto. destruct Hpc as (es1 & -> & Hv & Heq). exists es1. rewrite length_app. simpl. split_and!; [done|lia|lia].
Qed.

Lemma append_step_ok nclnt kv cs es ev : append_inv nclnt kv cs es -> len es + 2 < 2 ^ 64 ->
  exists kv' cs' es', append_step kv cs ev = Some (kv', cs') /\ append_inv nclnt kv' cs' es' /\ len es' <= len es + 1.
Proof.
  intros Hinv Hb. pose proof Hinv as [Hk Hl Hi Hc]. destruct ev as [me|me lost|me|a]; cbn [append_step].
  - destruct (cs !! me) as [[i r pc]|] eqn:Hme; [|exists kv, cs, es; split_and!; auto; lia].
    assert (aclient_ok es me (MkAClient i r (APutting (es ++ [MkEntryN (Z.of_nat me) i]) (len es + 1)))) as Hnew.
    { destruct (Hc _ _ Hme) as (Hx & Hs & Hn & _). split_and!; [done..|]. simpl. exists es. split_and!; [done|lia|done]. }
    destruct pc; try (exists kv, cs, es; split_and!; auto; lia);
      rewrite (GetJson_key kv "k" es (len es + 1) Hk); cbn [mbind option_bind]; eexists _, _, es;
      (split_and!; [done|by apply append_inv_client|lia]).
  - destruct (cs !! me) as [[i r pc]|] eqn:Hme; [|exists kv, cs, es; split_and!; auto; lia].
    destruct pc as [| |es' ver|]; try (exists kv, cs, es; split_and!; auto; lia).
    destruct (Hc _ _ Hme) as ((x & Hx & Hxi) & Hs & Hn & (es1 & Hes & Hv & Heq)). simpl in *. subst es'.
    destruct (PutJson_cases kv "k" (es1 ++ [MkEntryN (Z.of_nat me) i]) ver lost _ _ Hk) as [[-> ->]|[Hne ->]].
    + rewrite (Heq eq_refl) in *. eexists _, _, (es ++ [MkEntryN (Z.of_nat me) i]). split; [done|]. split; [|rewrite length_app; simpl; lia].
      assert (u64 (len es + 1 + 1) = len es + 2) as Hu by (rewrite u64_small; lia).
      pose proof (append_inv_grow nclnt kv cs es me i r (negb lost) (len es + 1) Hinv Hu Hme) as Hgrow. by destruct lost.
    + eexists _, _, es. split; [done|]. split; [|lia]. apply append_inv_client; [done|]. destruct lost; (split_and!; simpl; [exists x; split; [done|lia]|lia|lia|done]).
  - destruct (cs !! me) as [[i r pc]|] eqn:Hme; [|exists kv, cs, es; split_and!; auto; lia].
    destruct pc; try (exists kv, cs, es; split_and!; auto; lia). eexists _, _, es. split; [done|]. split; [|lia].
    apply append_inv_client; [done|]. destruct (Hc _ _ Hme) as (? & ? & ? & _). by split_and!.
  - destruct (String.eqb_spec (PutArgs_Key a) "k") as [|Hne]; [exists kv, cs, es; split_and!; auto; lia|].
    eexists _, _, es. split; [done|]. split; [|lia]. constructor; auto. rewrite <-Hk.
    destruct (Put_state kv a) as [[-> _]|[-> _]]; [done|]. by rewrite lookup_insert_ne.
Qed.

Lemma append_run_ok nclnt kv cs es evs : append_inv nclnt kv cs es -> len es + len evs + 2 < 2 ^ 64 ->
  exists kv' cs' es', append_run kv cs evs = Some (kv', cs') /\ append_inv nclnt kv' cs' es' /\ len es' <= len es + len evs.
Proof.
  revert kv cs es. induction evs as [|ev evs IH]; intros kv cs es Hinv Hb; cbn [append_run length] in *; [exists kv, cs, es; split_and!; auto; lia|].
  destruct (append_step_ok nclnt kv cs es ev Hinv) as (kv1 & cs1 & es1 & -> & Hinv1 & Hlen); [lia|]. cbn [mbind option_bind].
  destruct (IH kv1 cs1 es1 Hinv1) as (kv' & cs' & es' & -> & Hinv' & Hlen'); [lia|]. exists kv', cs', es'. split_and!; auto. lia.
Qed.

(** The check holds whenever the invariant does. *)
Lemma append_inv_check nclnt kv cs es : append_inv nclnt kv cs es -> len es + 1 < 2 ^ 63 ->
  CheckAppends es nclnt (ac_res <$> cs) (len es + 1) = true.
Proof.
  intros [Hk Hl Hi Hc] Hb. assert (forall c, default 0 (zeros nclnt !! c) = 0) as Hz.
  { intros c. destruct (zeros nclnt !! c) as [z|] eqn:Hz; [|done]. unfold zeros in Hz. apply elem_of_list_to_map_2 in Hz.
    apply list_elem_of_fmap in Hz as (i & [= _ ->] & _). done. }
  assert (forall c, exists y, scan c 0 es = Some y) as Hscan.
  { intros c. destruct (decide (0 <= c < Z.of_nat nclnt)) as [Hr|Hr].
    - destruct (lookup_lt_is_Some_2 cs (Z.to_nat c)) as [a Ha]; [lia|]. destruct (Hc _ _ Ha) as ((y & Hy & _) & _). exists y. by rewrite Z2Nat.id in Hy by lia.
    - exists 0. assert (Forall (fun e => Id e <> c) es) as Hne by (eapply Forall_impl; [exact Hi|]; simpl; lia).
      clear -Hne. induction Hne as [|e es He Hes IH]; simpl; [done|]. by rewrite (proj2 (Z.eqb_neq _ _) He). }
  destruct (append_scan_ok (fun c => 0 <= c < Z.of_nat nclnt) es (zeros nclnt) (zeros nclnt) (fun c => default 0 (scan c 0 es)))
    as (ex & sk & Heq & Hdom & Hres); [|done| |].
  { intros c. rewrite Hz. by destruct (Hscan c) as [y ->]. }
  { intros c [z Hzc]. unfold zeros in Hzc. apply elem_of_list_to_map_2 in Hzc. apply list_elem_of_fmap in Hzc as (i & [= -> _] & Hin).
    apply elem_of_seq in Hin. lia. }
  unfold CheckAppends. rewrite Heq. rewrite i64_small by lia. rewrite Z.eqb_refl. simpl. apply forallb_forall. intros [c y] Hin.
  apply list_elem_of_In, elem_of_map_to_list in Hin. unfold append_client_ok.
  assert (0 <= c < Z.of_nat nclnt) as Hr by (apply Hdom; eauto). destruct (lookup_lt_is_Some_2 cs (Z.to_nat c)) as [a Ha]; [lia|].
  unfold get. destruct (Z.leb_spec 0 c); [|lia]. rewrite list_lookup_fmap, Ha. simpl.
  destruct (Hc _ _ Ha) as ((x & Hx & Hxi) & Hs & Hn & _). rewrite Z2Nat.id in * by lia. destruct (Hres c) as [H1 H2]. rewrite Hin in H1. simpl in H1.
  rewrite Hx in *. simpl in *. rewrite Hz in H2. rewrite !Z.gtb_ltb.
  destruct (Z.ltb_spec (Nmaybe (ac_res a)) (default 0 (sk !! c))); [lia|]. destruct (Z.ltb_spec (Nok (ac_res a) + Nmaybe (ac_res a)) y); [lia|done].
Qed.

Lemma make_key_ok losts : false ∈ losts ->
  exists kv, PutAtLeastOnceJson MakeKVServer "k" ([] : list EntryN) losts = Some kv /\ kv !! "k"%string = Some (MkKvEntry (json_enc ([] : list EntryN)) 1).
Proof.
  intros Hf. assert (forall kv, kv !! "k"%string = Some (MkKvEntry (json_enc ([] : list EntryN)) 1) -> forall losts, false ∈ losts ->
    PutAtLeastOnceJson kv "k" ([] : list EntryN) losts = Some kv) as Hmade.
  { intros kv Hk l. induction l as [|lost l IH]; intros Hl; [by apply elem_of_nil in Hl|]. cbn [PutAtLeastOnceJson].
    destruct (PutJson_cases kv "k" ([] : list EntryN) 0 lost _ _ Hk) as [[? _]|[_ ->]]; [done|].
    destruct lost; [|done]. simpl. apply IH. by apply elem_of_cons in Hl as [?|?]. }
  destruct losts as [|lost losts]; [by apply elem_of_nil in Hf|]. cbn [PutAtLeastOnceJson].
  set (kv1 := <["k"%string := MkKvEntry (json_enc ([] : list EntryN)) 1]> MakeKVServer).
  assert (PutJson MakeKVServer "k" ([] : list EntryN) 0 lost = (kv1, if lost then ErrMaybe else OK)) as -> by (by destruct lost).
  exists kv1. assert (kv1 !! "k"%string = Some (MkKvEntry (json_enc ([] : list EntryN)) 1)) as Hk1 by apply lookup_insert_eq.
  split; [|done]. destruct lost; [|done]. simpl. apply Hmade; [done|]. by apply elem_of_cons in Hf as [?|?].
Qed.

(** The append test passes.  For any number of clients, any
    interleaving of their Gets and Puts, any Puts that the clerk answers with
    ErrMaybe and any clients of other keys, no client fails, and the value
    of the key always passes CheckAppends against what the clients have
    counted: every client's entries appear in order, only those it saw as
    uncertain may be missing, and the version counts the appends. *)
Theorem append_test_passes (nclnt : nat) (losts : list bool) (evs : list AEvent) : false ∈ losts -> len evs < 2 ^ 62 ->
  exists kv cs es ver, append_test nclnt losts evs = Some (kv, cs) /\ GetJson kv "k" = Some (es, ver) /\
    CheckAppends es nclnt (ac_res <$> cs) ver = true.
Proof.
  intros Hf Hl. destruct (make_key_ok losts Hf) as (kv0 & Hk0 & Hkey). unfold append_test. rewrite Hk0. cbn [mbind option_bind].
  destruct (append_run_ok nclnt kv0 (replicate nclnt (MkAClient 0 (MkClntRes 0 0) ANext)) [] evs) as (kv & cs & es & Hrun & Hinv & Hlen); [|simpl; lia|].
  { constructor; [done|by rewrite length_replicate|constructor|]. intros me a Ha. apply lookup_replicate in Ha as [-> _]. split_and!; simpl; try done.
    exists 0. done. }
  exists kv, cs, es, (len es + 1). split_and!; [done|apply GetJson_key, Hinv|]. apply (append_inv_check nclnt kv); [done|]. simpl in Hlen. lia.
Qed.

End Append.

(** ** Overwriting clients *)

Record EntryV : Type := MkEntryV { V_Id : Z; V_ : Tversion }.

#[export] Instance EntryV_eq_dec : EqDecision EntryV.
Proof. solve_decision. Defined.
#[export] Instance EntryV_countable : Countable EntryV.
Proof. refine (inj_countable' (fun e => (V_Id e, V_ e)) (fun '(a, b) => MkEntryV a b) _); by intros []. Defined.

(** Where a client is: between two OnePuts, about to Put again after
    ErrVersion, about to read after a Put with result [err], or finished. *)
Inductive PPc : Type := PNext | PAgain | PGetting (err : Err) | PStopped.

(** [p_ver] is the version the client puts at ([verm[k]]). *)
Record PClient : Type := MkPClient { p_ver : Tversion; p_res : ClntRes; p_pc : PPc }.

Inductive PEvent : Type := PPut (c : nat) (lost : bool) | PGet (c : nat) | PStop (c : nat) | POther (a : PutArgs).

Definition total {A : Type} (f : A -> Z) (l : list A) : Z := foldr (fun a z => f a + z) 0 l.

Section Puts.
Context `{Json EntryV} (reliable : bool).

(** [OnePut] after its Put. *)
Definition OnePut_err (err : Err) : bool := Err_eqb err OK || Err_eqb err ErrVersion || Err_eqb err ErrMaybe.

(** [OnePut] after its Get of [e] at [ver0]; [None] is a Fatal. *)
Definition OnePut_get (me : nat) (c : PClient) (err : Err) (e : EntryV) (ver0 : Tversion) : option PClient :=
  if Err_eqb err OK && (ver0 =? u64 (p_ver c + 1)) && (negb (V_Id e =? Z.of_nat me) && negb (V_ e =? p_ver c)) then None
  else Some match err with
            | OK => MkPClient ver0 (MkClntRes (Nok (p_res c) + 1) (Nmaybe (p_res c))) PNext
            | ErrMaybe => MkPClient ver0 (MkClntRes (Nok (p_res c)) (Nmaybe (p_res c) + 1)) PNext
            | _ => MkPClient ver0 (p_res c) PAgain
            end.

(** One step of [OneClientPut] on the key "k".  On a reliable network no Put
    stays uncertain. *)
Definition put_step (kv : KVServer) (cs : list PClient) (ev : PEvent) : option (KVServer * list PClient) :=
  match ev with
  | PPut me lost =>
      match cs !! me with
      | Some (MkPClient ver r PNext) | Some (MkPClient ver r PAgain) =>
          let '(kv, err) := PutJson kv "k" (MkEntryV (Z.of_nat me) ver) ver (lost && negb reliable) in
          if OnePut_err err then Some (kv, <[me := MkPClient ver r (PGetting err)]> cs) else None
      | _ => Some (kv, cs)
      end
  | PGet me =>
      match cs !! me with
      | Some (MkPClient ver r (PGetting err)) =>
          '(e, ver0) ← GetJson kv "k";
          c ← OnePut_get me (MkPClient ver r (PGetting err)) err e ver0;
          Some (kv, <[me := c]> cs)
      | _ => Some (kv, cs)
      end
  | PStop me =>
      match cs !! me with
      | Some (MkPClient ver r PNext) => Some (kv, <[me := MkPClient ver r PStopped]> cs)
      | _ => Some (kv, cs)
      end
  | POther a => if String.eqb (PutArgs_Key a) "k" then Some (kv, cs) else Some (fst (Put kv a), cs)
  end.

Fixpoint put_run (kv : KVServer) (cs : list PClient) (evs : list PEvent) : option (KVServer * list PClient) :=
  match evs with
  | [] => Some (kv, cs)
  | ev :: evs => '(kv, cs) ← put_step kv cs ev; put_run kv cs evs
  end.

(** [CheckPutConcurrent]: false is a Fatal. *)
Definition CheckPutConcurrent (kv : KVServer) (rs : list ClntRes) : bool :=
  match GetJson (A := EntryV) kv "k" with
  | None => false
  | Some (_, ver0) =>
      if reliable then ver0 =? u64 (total Nok rs)
      else negb (ver0 >? u64 (total Nok rs + total Nmaybe rs))
  end.

(** *** The invariant *)

(** What a client has counted or is about to count. *)
Definition pend (c : PClient) : Z := match p_pc c with PGetting OK | PGetting ErrMaybe => 1 | _ => 0 end.
Definition weight (c : PClient) : Z := Nok (p_res c) + Nmaybe (p_res c) + pend c.
Definition weight_ok (c : PClient) : Z := Nok (p_res c) + match p_pc c with PGetting OK => 1 | _ => 0 end.

Definition pclient_ok (e : option EntryV) (ver : Z) (me : nat) (c : PClient) : Prop :=
  0 <= p_ver c <= ver /\ 0 <= Nok (p_res c) /\ 0 <= Nmaybe (p_res c) /\
  match p_pc c with
  | PGetting err => OnePut_err err = true /\ is_Some e /\
      (err = OK -> p_ver c < ver /\ (ver = p_ver c + 1 -> e = Some (MkEntryV (Z.of_nat me) (p_ver c))))
  | _ => True
  end.

Record put_inv (kv : KVServer) (cs : list PClient) (e : option EntryV) (ver : Z) : Prop := {
  pi_key : match e with
           | Some e => kv !! "k"%string = Some (MkKvEntry (json_enc e) ver) /\ 1 <= ver
           | None => kv !! "k"%string = None /\ ver = 0
           end;
  pi_clients : forall me c, cs !! me = Some c -> pclient_ok e ver me c;
  pi_le : ver <= total weight cs;
  pi_eq : reliable = true -> ver = total weight_ok cs;
}.

Lemma total_insert {A : Type} (f : A -> Z) l i x y : l !! i = Some x -> total f (<[i := y]> l) = total f l + f y - f x.
Proof.
  revert i. induction l as [|z l IH]; intros [|i] Hi; simpl in *; [done|done|simplify_eq; lia|]. rewrite (IH i) by done. lia.
Qed.

Lemma put_inv_client kv cs e ver me c c' : put_inv kv cs e ver -> cs !! me = Some c -> pclient_ok e ver me c' ->
  weight c' = weight c -> weight_ok c' = weight_ok c -> put_inv kv (<[me := c']> cs) e ver.
Proof.
  intros [Hk Hc Hle Heq] Hme Hc' Hw Ho. constructor; auto.
  - intros j b Hb. apply list_lookup_insert_Some in Hb as [(<- & <- & _)|[_ Hb]]; auto.
  - rewrite (total_insert _ _ _ _ _ Hme). lia.
  - intros Hr. rewrite (total_insert _ _ _ _ _ Hme). specialize (Heq Hr). lia.
Qed.

Lemma weight_idle c : match p_pc c with PGetting _ => False | _ => True end -> weight c = Nok (p_res c) + Nmaybe (p_res c).
Proof. unfold weight, pend. destruct (p_pc c); try done; lia. Qed.

Lemma weight_ok_idle c : match p_pc c with PGetting _ => False | _ => True end -> weight_ok c = Nok (p_res c).
Proof. unfold weight_ok. destruct (p_pc c); try done; lia. Qed.

(** A Put that takes effect. *)
Lemma put_inv_write kv cs e ver me c lost : put_inv kv cs e ver -> ver + 1 < 2 ^ 64 -> cs !! me = Some c -> p_ver c = ver ->
  match p_pc c with PGetting _ => False | _ => True end -> (reliable = true -> lost = false) ->
  put_inv (<["k"%string := MkKvEntry (json_enc (MkEntryV (Z.of_nat me) ver)) (ver + 1)]> kv)
    (<[me := MkPClient ver (p_res c) (PGetting (if lost : bool then ErrMaybe else OK))]> cs) (Some (MkEntryV (Z.of_nat me) ver)) (ver + 1).
Proof.
  intros [Hk Hc Hle Heq] Hb Hme Hver Hpc Hrel. destruct (Hc _ _ Hme) as (Hv & Hno & Hnm & _). constructor.
  - rewrite lookup_insert_eq. split; [done|lia].
  - intros j b Hj. apply list_lookup_insert_Some in Hj as [(<- & <- & _)|[Hne Hj]].
    + split_and!; simpl; try lia. split_and!; [by destruct lost|done|]. intros _. split; [lia|done].
    + destruct (Hc _ _ Hj) as (H1 & H2 & H3 & H4). split_and!; [lia..|]. destruct (p_pc b); try done.
      destruct H4 as (H4 & H5 & H6). split_and!; [done..|]. intros He. destruct (H6 He). split; lia.
  - rewrite (total_insert _ _ _ _ _ Hme), (weight_idle c Hpc). unfold weight at 2, pend. destruct lost; simpl; lia.
  - intros Hr. specialize (Heq Hr). rewrite (total_insert _ _ _ _ _ Hme), (Hrel Hr), (weight_ok_idle c Hpc). unfold weight_ok at 2. simpl. lia.
Qed.

(** A Put that does not. *)
Lemma put_inv_stale kv cs e ver me c lost : put_inv kv cs (Some e) ver -> cs !! me = Some c ->
  match p_pc c with PGetting _ => False | _ => True end -> (reliable = true -> lost = false) ->
  put_inv kv (<[me := MkPClient (p_ver c) (p_res c) (PGetting (if lost : bool then ErrMaybe else ErrVersion))]> cs) (Some e) ver.
Proof.
  intros [Hk Hc Hle Heq] Hme Hpc Hrel. destruct (Hc _ _ Hme) as (Hv & Hno & Hnm & _). constructor; auto.
  - intros j b Hj. apply list_lookup_insert_Some in Hj as [(<- & <- & _)|[Hne Hj]]; [|auto].
    split_and!; simpl; try lia. split_and!; [by destruct lost|done|by destruct lost].
  - rewrite (total_insert _ _ _ _ _ Hme), (weight_idle c Hpc). unfold weight at 2, pend. destruct lost; simpl; lia.
  - intros Hr. specialize (Heq Hr). rewrite (total_insert _ _ _ _ _ Hme), (Hrel Hr), (weight_ok_idle c Hpc). unfold weight_ok at 2. simpl. lia.
Qed.

Lemma put_step_put kv cs e ver me c lost : put_inv kv cs e ver -> ver + 1 < 2 ^ 64 -> cs !! me = Some c ->
  match p_pc c with PGetting _ => False | _ => True end ->
  exists kv' err e' ver', PutJson kv "k" (MkEntryV (Z.of_nat me) (p_ver c)) (p_ver c) (lost && negb reliable) = (kv', err) /\ OnePut_err err = true /\
    put_inv kv' (<[me := MkPClient (p_ver c) (p_res c) (PGetting err)]> cs) e' ver' /\ ver' <= ver + 1.
Proof.
  intros Hinv Hb Hme Hpc. assert (reliable = true -> lost && negb reliable = false) as Hrel by (intros ->; by rewrite andb_false_r).
  destruct (pi_clients _ _ _ _ Hinv _ _ Hme) as (Hv & _). pose proof (pi_key _ _ _ _ Hinv) as Hk. destruct e as [e|].
  - destruct Hk as [Hk Hver]. destruct (PutJson_cases kv "k" (MkEntryV (Z.of_nat me) (p_ver c)) (p_ver c) (lost && negb reliable) _ _ Hk) as [[Heq ->]|[Hne ->]].
    + rewrite u64_small by lia. rewrite Heq. eexists _, _, _, _. split_and!; [done|by destruct (_ && _)|by apply put_inv_write with (Some e)|lia].
    + eexists _, _, _, _. split_and!; [done|by destruct (_ && _)|by apply put_inv_stale|lia].
  - destruct Hk as [Hk ->]. assert (p_ver c = 0) as Heq by lia. rewrite Heq.
    assert (PutJson kv "k" (MkEntryV (Z.of_nat me) 0) 0 (lost && negb reliable) =
      (<["k"%string := MkKvEntry (json_enc (MkEntryV (Z.of_nat me) 0)) (0 + 1)]> kv, if lost && negb reliable then ErrMaybe else OK)) as ->.
    { unfold PutJson, clerk_put_run, Put. simpl. rewrite Hk. simpl. by destruct (_ && _). }
    eexists _, _, _, _. split_and!; [done|by destruct (_ && _)|by apply put_inv_write with None|lia].
Qed.

Lemma put_step_get kv cs e ver me c err : put_inv kv cs e ver -> ver < 2 ^ 64 -> cs !! me = Some c -> p_pc c = PGetting err ->
  exists e0 c', GetJson kv "k" = Some (e0, ver) /\ OnePut_get me c err e0 ver = Some c' /\ put_inv kv (<[me := c']> cs) e ver.
Proof.
  intros Hinv Hb Hme Hpc. destruct (pi_clients _ _ _ _ Hinv _ _ Hme) as (Hv & Hno & Hnm & Hg). rewrite Hpc in Hg. destruct Hg as (He & [e0 ->] & Hok).
  destruct (pi_key _ _ _ _ Hinv) as [Hk Hver]. exists e0. unfold OnePut_get.
  assert (Err_eqb err OK && (ver =? u64 (p_ver c + 1)) && (negb (V_Id e0 =? Z.of_nat me) && negb (V_ e0 =? p_ver c)) = false) as ->.
  { destruct (Err_eqb err OK) eqn:Hee; [|done]. apply Err_eqb_eq in Hee as ->. destruct (Hok eq_refl) as [Hlt Hmine]. rewrite u64_small by lia.
    destruct (Z.eqb_spec ver (p_ver c + 1)) as [Heq|]; [|done]. specialize (Hmine Heq). injection Hmine as ->. simpl. by rewrite Z.eqb_refl. }
  eexists. split; [by apply GetJson_key|]. split; [done|]. eapply put_inv_client; [done|done|..].
  - destruct err; try done; split_and!; simpl; try done; lia.
  - unfold weight, pend. rewrite Hpc. destruct err; try done; simpl; lia.
  - unfold weight_ok. rewrite Hpc. destruct err; try done; simpl; lia.
Qed.

Lemma put_step_ok kv cs e ver ev : put_inv kv cs e ver -> ver + 1 < 2 ^ 64 ->
  exists kv' cs' e' ver', put_step kv cs ev = Some (kv', cs') /\ put_inv kv' cs' e' ver' /\ ver' <= ver + 1 /\ length cs' = length cs.
Proof.
  intros Hinv Hb. destruct ev as [me lost|me|me|a]; cbn [put_step].
  - destruct (cs !! me) as [c|] eqn:Hme; [|exists kv, cs, e, ver; split_and!; auto; lia].
    destruct c as [v r pc]. pose proof (put_step_put kv cs e ver me _ lost Hinv Hb Hme) as Hput. simpl in Hput.
    destruct pc; try (exists kv, cs, e, ver; split_and!; auto; lia);
      destruct Hput as (kv' & err & e' & ver' & -> & -> & Hinv' & Hle); try done; eexists _, _, e', ver'; (split_and!; [done..|by rewrite length_insert]).
  - destruct (cs !! me) as [c|] eqn:Hme; [|exists kv, cs, e, ver; split_and!; auto; lia].
    destruct c as [v r pc]. destruct pc as [| |err|] eqn:Hpc; try (exists kv, cs, e, ver; split_and!; auto; lia).
    destruct (put_step_get kv cs e ver me _ err Hinv ltac:(lia) Hme eq_refl) as (e0 & c' & -> & Hg & Hinv'). cbn [mbind option_bind]. rewrite Hg. cbn [mbind option_bind].
    eexists _, _, e, ver. split_and!; [done..|lia|by rewrite length_insert].
  - destruct (cs !! me) as [c|] eqn:Hme; [|exists kv, cs, e, ver; split_and!; auto; lia].
    destruct c as [v r pc]. destruct pc; try (exists kv, cs, e, ver; split_and!; auto; lia).
    eexists _, _, e, ver. split_and!; [done| |lia|by rewrite length_insert]. eapply put_inv_client; [done..| |done|done].
    destruct (pi_clients _ _ _ _ Hinv _ _ Hme) as (? & ? & ? & _). simpl in *. split_and!; simpl; try done; lia.
  - destruct (String.eqb_spec (PutArgs_Key a) "k") as [|Hne]; [exists kv, cs, e, ver; split_and!; auto; lia|].
    eexists _, _, e, ver. split_and!; [done| |lia|done]. destruct Hinv as [Hk Hc Hle Heq]. constructor; auto.
    assert (fst (Put kv a) !! "k"%string = kv !! "k"%string) as Hsame by (destruct (Put_state kv a) as [[-> _]|[-> _]]; [done|by rewrite lookup_insert_ne]).
    by rewrite Hsame.
Qed.

Lemma put_run_ok kv cs e ver evs : put_inv kv cs e ver -> ver + len evs + 1 < 2 ^ 64 ->
  exists kv' cs' e' ver', put_run kv cs evs = Some (kv', cs') /\ put_inv kv' cs' e' ver' /\ ver' <= ver + len evs.
Proof.
  revert kv cs e ver. induction evs as [|ev evs IH]; intros kv cs e ver Hinv Hb; cbn [put_run length] in *; [exists kv, cs, e, ver; split_and!; auto; lia|].
  destruct (put_step_ok kv cs e ver ev Hinv) as (kv1 & cs1 & e1 & ver1 & -> & Hinv1 & Hle & _); [lia|]. cbn [mbind option_bind].
  destruct (IH kv1 cs1 e1 ver1 Hinv1) as (kv' & cs' & e' & ver' & -> & Hinv' & Hle'); [lia|]. exists kv', cs', e', ver'. split_and!; auto. lia.
Qed.

(** A step counts for at most one Put. *)
Lemma put_step_weight kv cs ev kv' cs' : put_step kv cs ev = Some (kv', cs') -> total weight cs' <= total weight cs + 1.
Proof.
  destruct ev as [me lost|me|me|a]; cbn [put_step]; intros Hs;
    try (destruct (cs !! me) as [[v r pc]|] eqn:Hme; [|simplify_eq; lia]).
  - destruct pc; try (simplify_eq; lia); destruct (PutJson _ _ _ _ _) as [kv1 err]; destruct (OnePut_err err); simplify_eq;
      rewrite (total_insert _ _ _ _ _ Hme); unfold weight at 2 3, pend; destruct err; simpl; lia.
  - destruct pc as [| |err|]; try (simplify_eq; lia). destruct (GetJson kv "k") as [[e ver0]|]; [|done]. cbn [mbind option_bind] in Hs.
    unfold OnePut_get in Hs. destruct (_ && _); [done|]. cbn [mbind option_bind] in Hs. simplify_eq.
    rewrite (total_insert _ _ _ _ _ Hme). unfold weight at 2 3, pend. destruct err; simpl; lia.
  - destruct pc; simplify_eq; try lia. rewrite (total_insert _ _ _ _ _ Hme). unfold weight at 2 3, pend. simpl. lia.
  - destruct (String.eqb _ _); simplify_eq; lia.
Qed.

Lemma put_run_weight kv cs evs kv' cs' : put_run kv cs evs = Some (kv', cs') -> total weight cs' <= total weight cs + len evs.
Proof.
  revert kv cs. induction evs as [|ev evs IH]; intros kv cs Hr; cbn [put_run length] in *; [simplify_eq; lia|].
  destruct (put_step kv cs ev) as [[kv1 cs1]|] eqn:Hs; [|done]. cbn [mbind option_bind] in Hr. apply put_step_weight in Hs. apply IH in Hr. lia.
Qed.

Lemma total_nonneg {A : Type} (f : A -> Z) l : Forall (fun a => 0 <= f a) l -> 0 <= total f l.
Proof. induction 1; simpl; lia. Qed.

Lemma total_ext {A B : Type} (f : A -> Z) (g : B -> Z) (h : A -> B) l : Forall (fun a => f a = g (h a)) l -> total f l = total g (h <$> l).
Proof. induction 1 as [|a l Ha Hl IH]; simpl; [done|]. rewrite IH, Ha. done. Qed.

Lemma total_add {A : Type} (f g : A -> Z) l : total (fun a => f a + g a) l = total f l + total g l.
Proof. induction l as [|a l IH]; simpl; [done|]. rewrite IH. lia. Qed.

End Puts.

(** The put test passes.  For any number of clients
    overwriting one key and any interleaving, no client fails a check; and
    once all have stopped and the key exists, CheckPutConcurrent accepts: on a
    reliable network the version is the number of OKs the clients counted, and
    on an unreliable one it is at most the number of OKs and ErrMaybes. *)
Theorem put_test_passes `{Json EntryV} (reliable : bool) (nclnt : nat) (evs : list PEvent) : len evs < 2 ^ 62 ->
  exists kv cs, put_run reliable MakeKVServer (replicate nclnt (MkPClient 0 (MkClntRes 0 0) PNext)) evs = Some (kv, cs) /\
    (Forall (fun c => p_pc c = PStopped) cs -> is_Some (kv !! "k"%string) -> CheckPutConcurrent reliable kv (p_res <$> cs) = true).
Proof.
  intros Hl. assert (forall f : PClient -> Z, f (MkPClient 0 (MkClntRes 0 0) PNext) = 0 ->
    total f (replicate nclnt (MkPClient 0 (MkClntRes 0 0) PNext)) = 0) as Hz.
  { intros f Hf. induction nclnt as [|k IH]; simpl; [done|]. lia. }
  destruct (put_run_ok reliable MakeKVServer (replicate nclnt (MkPClient 0 (MkClntRes 0 0) PNext)) None 0 evs)
    as (kv & cs & e & ver & Hrun & Hinv & Hle); [|lia|].
  { constructor; [done| |by rewrite Hz|by rewrite Hz]. intros me c Hc. apply lookup_replicate in Hc as [-> _]. split_and!; simpl; done || lia. }
  exists kv, cs. split; [done|]. intros Hstop [x Hx]. pose proof (put_run_weight _ _ _ _ _ _ Hrun) as Hb. rewrite Hz in Hb by done.
  destruct Hinv as [Hk Hc Hw Ho]. destruct e as [e|]; [|destruct Hk; congruence]. destruct Hk as [Hk Hv].
  unfold CheckPutConcurrent. rewrite (GetJson_key kv "k" e ver Hk).
  assert (total weight cs = total Nok (p_res <$> cs) + total Nmaybe (p_res <$> cs)) as Hsum.
  { rewrite <-total_add. apply (total_ext weight (fun r => Nok r + Nmaybe r) p_res). eapply Forall_impl; [exact Hstop|]. intros c Hp.
    simpl. unfold weight, pend. rewrite Hp. lia. }
  assert (total weight_ok cs = total Nok (p_res <$> cs)) as Hok.
  { apply (total_ext weight_ok Nok p_res). eapply Forall_impl; [exact Hstop|]. intros c Hp. simpl. unfold weight_ok. rewrite Hp. lia. }
  assert (0 <= total Nok (p_res <$> cs) /\ 0 <= total Nmaybe (p_res <$> cs)) as [Hno Hnm].
  { split; apply total_nonneg, Forall_fmap, Forall_lookup; intros me c Hme; by destruct (Hc _ _ Hme) as (_ & ? & ? & _). }
  rewrite !u64_small by lia. destruct reliable; [apply Z.eqb_eq; rewrite <-Hok; auto|].
  rewrite Z.gtb_ltb. destruct (Z.ltb_spec (total Nok (p_res <$> cs) + total Nmaybe (p_res <$> cs)) ver); [lia|done].
Qed.

(** ** PutAtLeastOnce *)

(** One attempt at version [ver]: it stores the value exactly when [ver] is the
    key's version. *)
Lemma attempt_cases kv key value ver lost : 0 <= ver <= version_of kv key -> version_of kv key + 1 < 2 ^ 64 ->
  ver = version_of kv key /\ clerk_put_run kv (MkPutArgs key value ver) lost =
    (<[key := MkKvEntry value (ver + 1)]> kv, if lost then ErrMaybe else OK) \/
  ver < version_of kv key /\ clerk_put_run kv (MkPutArgs key value ver) lost = (kv, if lost then ErrMaybe else ErrVersion).
Proof.
  intros Hv Hb. unfold clerk_put_run, Put, version_of in *. simpl. destruct (kv !! key) as [e|].
  - destruct (Z.eqb_spec ver (version e)) as [->|]; simpl; [left|right]; (split; [lia|]); [rewrite u64_small by lia|]; by destruct lost.
  - assert (ver = 0) as -> by lia. left. split; [done|]. simpl. by destruct lost.
Qed.

(** PutAtLeastOnce ends and stores the value: started at a version the key has
    reached, with no other client on the key, it returns after the first
    certain answer that finds it at the key's version, and a Get then returns
    its value at the version it returns. *)
Theorem PutAtLeastOnce_stores (kv : KVServer) (key value : string) (ver : Tversion) (l1 l2 : list bool) :
  0 <= ver <= version_of kv key -> version_of kv key + len l1 + 1 < 2 ^ 64 -> version_of kv key - ver <= len l1 ->
  exists kv' ver', PutAtLeastOnce kv key value ver (l1 ++ false :: l2) = PutDone kv' ver' /\ CheckGet kv' key value ver' = true.
Proof.
  assert (forall kv0 v, CheckGet (<[key := MkKvEntry value v]> kv0) key value v = true) as Hget.
  { intros kv0 v. unfold CheckGet, clerk_get, Get. simpl. rewrite lookup_insert_eq. simpl. rewrite String.eqb_refl. apply Z.eqb_refl. }
  revert kv ver. induction l1 as [|lost l1 IH]; intros kv ver Hv Hb Hd; cbn [app length] in *; cbn [PutAtLeastOnce].
  - destruct (attempt_cases kv key value ver false Hv) as [[-> ->]|[? _]]; [lia| |lia]. simpl. rewrite u64_small by lia. eauto.
  - destruct (attempt_cases kv key value ver lost Hv) as [[Heq ->]|[Hlt ->]]; [lia|..].
    + destruct lost; simpl; rewrite u64_small by lia; [|eauto].
      assert (version_of (<[key := MkKvEntry value (ver + 1)]> kv) key = ver + 1) as Hv' by (unfold version_of; by rewrite lookup_insert_eq).
      apply IH; rewrite Hv'; lia.
    + assert (Err_eqb (if lost then ErrMaybe else ErrVersion) OK = false /\
        Err_eqb (if lost then ErrMaybe else ErrVersion) ErrMaybe || Err_eqb (if lost then ErrMaybe else ErrVersion) ErrVersion = true) as [-> ->] by (by destruct lost).
      rewrite u64_small by lia. apply IH; lia.
Qed.

(** ** Witnesses *)

(** Two clients; client 1's first append is lost, client 0 overtakes it. *)
Definition append_events : list AEvent :=
  [AGet 0; AGet 1; APut 1 true; APut 0 false; AGet 0; APut 0 false; AGet 1; APut 1 false; AStop 0; AStop 1].

Lemma append_test_passes_witness : exists kv cs es ver,
  append_test 2 [true; false] append_events = Some (kv, cs) /\ GetJson kv "k" = Some (es, ver) /\ CheckAppends es 2 (ac_res <$> cs) ver = true.
Proof. apply append_test_passes; [apply list_elem_of_further, list_elem_of_here|vm_compute; reflexivity]. Defined.

(** The run is not empty: three appends, one of them uncertain. *)
Example append_test_entries :
  match append_test 2 [true; false] append_events with Some (kv, cs) => (GetJson (A := list EntryN) kv "k", ac_res <$> cs) | None => (None, []) end =
  (Some ([MkEntryN 1 0; MkEntryN 0 0; MkEntryN 1 1], 4), [MkClntRes 1 0; MkClntRes 1 1]).
Proof. vm_compute. reflexivity. Qed.

Definition put_events : list PEvent := [PPut 0 false; PPut 1 true; PGet 0; PGet 1; PPut 1 false; PGet 1; PStop 0; PStop 1].

Lemma put_test_passes_witness : exists kv cs,
  put_run false MakeKVServer (replicate 2 (MkPClient 0 (MkClntRes 0 0) PNext)) put_events = Some (kv, cs) /\
  (Forall (fun c => p_pc c = PStopped) cs -> is_Some (kv !! "k"%string) -> CheckPutConcurrent false kv (p_res <$> cs) = true).
Proof. apply put_test_passes. vm_compute. reflexivity. Defined.

Example put_test_counts :
  match put_run false MakeKVServer (replicate 2 (MkPClient 0 (MkClntRes 0 0) PNext)) put_events with
  | Some (kv, cs) => (version_of kv "k", p_res <$> cs) | None => (0, []) end = (2, [MkClntRes 1 0; MkClntRes 1 1]).
Proof. vm_compute. reflexivity. Qed.
