(* ===== verification/Persister.v ===== *)
(** * Stable storage (src/tester1/persister.go)

    The object in which Raft saves its state and the service its snapshot.
    [clone] copies a byte slice, so that the stored bytes are never shared
    with the caller; on the immutable lists of the model it is the identity.
    [Save] replaces both parts at once. *)

From S2P Require Import Prelude.

Record Persister : Type := MkPersister { raftstate : bytes; ps_snapshot : bytes }.

Definition MakePersister : Persister := MkPersister [] [].

Definition clone (orig : bytes) : bytes := orig.

Definition Checkpoint (ps : Persister) : Persister :=
  MkPersister (clone (raftstate ps)) (clone (ps_snapshot ps)).

Definition ReadRaftState (ps : Persister) : bytes := clone (raftstate ps).

Definition RaftStateSize (ps : Persister) : Z := len (raftstate ps).

Definition Save (ps : Persister) (rs sn : bytes) : Persister := MkPersister (clone rs) (clone sn).

Definition ReadSnapshot (ps : Persister) : bytes := clone (ps_snapshot ps).

Definition SnapshotSize (ps : Persister) : Z := len (ps_snapshot ps).
