(* ===== verification/TestGroup.v ===== *)
(** * Server groups of the tester (src/tester1/group.go, srv.go, clnts.go)

    The tester names the servers of a group, gives every server one client
    end per server of the group, and connects, partitions, kills and restarts
    servers by enabling and disabling these ends in the simulated network of
    Labrpc.v.  A running daemon is represented by its stable storage; random
    end names are arguments.

    The theorems: Partition leaves exactly the ends inside the two parts
    enabled; MakePartition splits an odd group so that the given server is in
    the minority; a server that is shut down and started again finds the
    storage it left. *)

From stdpp Require Import pretty.
From S2P Require Import Prelude Rpc KvSrv KvClerk Labrpc Persister.

(** ** Servers *)

Definition ServerName (gid i : Z) : string := "server-" +:+ pretty gid +:+ "-" +:+ pretty i.

(** [Server]: the names of its ends, the storage it left when it was last
    shut down, and its daemon, by the daemon's storage. *)
Record TSrv : Type := MkTSrv {
  endNames : list string;
  saved : option Persister;
  dc : option Persister;
}.

Fixpoint make_ends (rn : Network) (gid : Z) (j : nat) (names : list string) : option Network :=
  match names with
  | [] => Some rn
  | name :: names => rn ← MakeEnd rn name; make_ends (Connect rn name (ServerName gid (Z.of_nat j))) gid (S j) names
  end.

(** [names]: one random name per server of the group. *)
Definition makeServer (rn : Network) (gid : Z) (names : list string) : option (Network * TSrv) :=
  rn ← make_ends rn gid 0 names;
  Some (rn, MkTSrv names None None).

Definition startServer (rn : Network) (s : TSrv) (gid : Z) (names : list string) : option (Network * TSrv) :=
  '(rn, srv) ← makeServer rn gid names;
  Some (rn, MkTSrv (endNames srv) (Some (default MakePersister (saved s))) None).

(** A loop that enables or disables the ends [name j] for the [j] of a list
    that pass a test. *)
Fixpoint enable_loop (rn : Network) (name : nat -> option string) (test : nat -> option bool) (yes : bool) (l : list nat) : option Network :=
  match l with
  | [] => Some rn
  | j :: l =>
      match test j with
      | Some true => e ← name j; enable_loop (Enable rn e yes) name test yes l
      | Some false => enable_loop rn name test yes l
      | None => None
      end
  end.

(** [Server.connect] reads the group's flags [connected]. *)
Definition Server_connect (rn : Network) (s : TSrv) (connected : list bool) (to : list nat) : option Network :=
  enable_loop rn (fun j => endNames s !! j) (fun j => connected !! j) true to.

Definition Server_disconnect (rn : Network) (s : TSrv) (from : list nat) : option Network :=
  match endNames s with
  | [] => Some rn
  | _ => enable_loop rn (fun j => endNames s !! j) (fun _ => Some true) false from
  end.

(** [checkpointPersister] asks the daemon for its storage, [kill] ends its
    process.  [answers]: the daemon answers, and its process can be killed;
    if not, a log.Fatalf ends the tester, which is [None]. *)
Definition shutdownServer (answers : bool) (s : TSrv) : option TSrv :=
  match dc s with
  | Some p => if answers then Some (MkTSrv (endNames s) (Some (Save MakePersister (ReadRaftState p) (Persister.ReadSnapshot p))) None) else None
  | None => Some s
  end.

(** [None]: neither a daemon nor saved storage.  Of a daemon this is the
    size it answers with; one that does not answer ends the tester. *)
Definition raftSize (s : TSrv) : option Z :=
  match dc s with Some p => Some (RaftStateSize p) | None => RaftStateSize <$> saved s end.
Definition snapshotSize (s : TSrv) : option Z :=
  match dc s with Some p => Some (Persister.SnapshotSize p) | None => Persister.SnapshotSize <$> saved s end.

(** ** Groups *)

Record ServerGrp : Type := MkServerGrp {
  srvs : list TSrv;
  gid : Z;
  connected : list bool;
}.

Fixpoint make_servers (rn : Network) (gid : Z) (nss : list (list string)) : option (Network * list TSrv) :=
  match nss with
  | [] => Some (rn, [])
  | ns :: nss => '(rn, s) ← makeServer rn gid ns; '(rn, l) ← make_servers rn gid nss; Some (rn, s :: l)
  end.

Definition makeSrvGrp (rn : Network) (gid : Z) (nss : list (list string)) : option (Network * ServerGrp) :=
  '(rn, l) ← make_servers rn gid nss;
  Some (rn, MkServerGrp l gid (replicate (length nss) false)).

Definition grp_N (sg : ServerGrp) : nat := length (srvs sg).
Definition SrvName (sg : ServerGrp) (i : nat) : option string :=
  if (i <? grp_N sg)%nat then Some (ServerName (gid sg) (Z.of_nat i)) else None.
Definition all (sg : ServerGrp) : list nat := seq 0 (grp_N sg).
Definition IsConnected (sg : ServerGrp) (i : nat) : option bool := connected sg !! i.

Definition set_connected (sg : ServerGrp) (i : nat) (yes : bool) : option ServerGrp :=
  if (i <? length (connected sg))%nat then Some (MkServerGrp (srvs sg) (gid sg) (<[i := yes]> (connected sg))) else None.

(** The end from server [a] to server [b]. *)
Definition end_of (sg : ServerGrp) (a b : nat) : option string := s ← srvs sg !! a; endNames s !! b.

Definition connect (rn : Network) (sg : ServerGrp) (i : nat) (to : list nat) : option (Network * ServerGrp) :=
  sg ← set_connected sg i true;
  s ← srvs sg !! i;
  rn ← Server_connect rn s (connected sg) to;
  rn ← enable_loop rn (fun j => end_of sg j i) (fun j => IsConnected sg j) true to;
  Some (rn, sg).

Definition disconnect (rn : Network) (sg : ServerGrp) (i : nat) (from : list nat) : option (Network * ServerGrp) :=
  sg ← set_connected sg i false;
  s ← srvs sg !! i;
  rn ← Server_disconnect rn s from;
  rn ← enable_loop rn (fun j => end_of sg j i)
         (fun j => s ← srvs sg !! j; Some (match endNames s with [] => false | _ => true end)) false from;
  Some (rn, sg).

Definition ConnectOne (rn : Network) (sg : ServerGrp) (i : nat) : option (Network * ServerGrp) := connect rn sg i (all sg).
Definition DisconnectAll (rn : Network) (sg : ServerGrp) (i : nat) : option (Network * ServerGrp) := disconnect rn sg i (all sg).

Fixpoint connect_each (rn : Network) (sg : ServerGrp) (l : list nat) : option (Network * ServerGrp) :=
  match l with [] => Some (rn, sg) | i :: l => '(rn, sg) ← ConnectOne rn sg i; connect_each rn sg l end.
Definition ConnectAll (rn : Network) (sg : ServerGrp) : option (Network * ServerGrp) := connect_each rn sg (all sg).

Definition set_srv (sg : ServerGrp) (i : nat) (s : TSrv) : ServerGrp := MkServerGrp (<[i := s]> (srvs sg)) (gid sg) (connected sg).

(** [StartServer]: [labsrv] is the new labrpc server, [ran] whether the daemon
    could be started; it gets the saved storage. *)
Definition StartServer (rn : Network) (sg : ServerGrp) (i : nat) (names : list string) (labsrv : Z) (ran : bool) : option (Network * ServerGrp) :=
  s ← srvs sg !! i;
  '(rn, srv) ← startServer rn s (gid sg) names;
  if ran then
    p ← saved srv;
    Some (AddServer rn (ServerName (gid sg) (Z.of_nat i)) labsrv,
          set_srv sg i (MkTSrv (endNames srv) (saved srv) (Some (Save MakePersister (ReadRaftState p) (Persister.ReadSnapshot p)))))
  else Some (rn, set_srv sg i srv).

Definition ShutdownServer (rn : Network) (sg : ServerGrp) (i : nat) (answers : bool) : option (Network * ServerGrp) :=
  '(rn, sg) ← disconnect rn sg i (all sg);
  s ← srvs sg !! i;
  s ← shutdownServer answers s;
  Some (DeleteServer rn (ServerName (gid sg) (Z.of_nat i)), set_srv sg i s).

(** [answers i]: the daemon of server [i] answers and can be killed. *)
Fixpoint Kill (rn : Network) (sg : ServerGrp) (answers : nat -> bool) (l : list nat) : option (Network * ServerGrp) :=
  match l with [] => Some (rn, sg) | i :: l => '(rn, sg) ← ShutdownServer rn sg i (answers i); Kill rn sg answers l end.
Definition Shutdown (rn : Network) (sg : ServerGrp) (answers : nat -> bool) : option (Network * ServerGrp) := Kill rn sg answers (all sg).

(** Each server of the first part, cut off from the second and connected to
    the first. *)
Fixpoint partition_side (rn : Network) (sg : ServerGrp) (mine other : list nat) (l : list nat) : option (Network * ServerGrp) :=
  match l with
  | [] => Some (rn, sg)
  | i :: l =>
      '(rn, sg) ← disconnect rn sg i other;
      '(rn, sg) ← connect rn sg i mine;
      partition_side rn sg mine other l
  end.

Definition Partition (rn : Network) (sg : ServerGrp) (p1 p2 : list nat) : option (Network * ServerGrp) :=
  '(rn, sg) ← partition_side rn sg p1 p2 p1;
  partition_side rn sg p2 p1 p2.

(** The loop of [MakePartition]: slices of zeros that are filled in. *)
Fixpoint fill (l : nat) (is_ : list nat) (j : nat) (p1 p2 : list nat) : option (list nat * list nat) :=
  match is_ with
  | [] => Some (p1, p2)
  | i :: is_ =>
      if (i =? l)%nat then fill l is_ j p1 p2
      else if (j <? length p1)%nat then fill l is_ (S j) (<[j := i]> p1) p2
      else if (j - length p1 <? length p2)%nat then fill l is_ (S j) p1 (<[(j - length p1)%nat := i]> p2)
      else None
  end.

Definition MakePartition (n l : nat) : option (list nat * list nat) :=
  '(p1, p2) ← fill l (seq 0 n) 0 (replicate (n / 2 + 1) 0%nat) (replicate (n / 2) 0%nat);
  if (length p2 =? 0)%nat then None                    (* p2[-1] *)
  else Some (p1, <[(length p2 - 1)%nat := l]> p2).

(** ** What is enabled *)

Definition end_on (rn : Network) (e : string) : bool := default false (enabled rn !! e).
Definition link (rn : Network) (sg : ServerGrp) (a b : nat) : bool := match end_of sg a b with Some e => end_on rn e | None => false end.

(** A group of [n] servers whose ends all have names of their own. *)
Record grp_wf (n : nat) (sg : ServerGrp) : Prop := {
  gw_srvs : length (srvs sg) = n;
  gw_connected : length (connected sg) = n;
  gw_ends : Forall (fun s => length (endNames s) = n) (srvs sg);
  gw_names : forall a b a' b' e, end_of sg a b = Some e -> end_of sg a' b' = Some e -> a = a' /\ b = b';
}.

Section Links.
Context (n : nat).
Implicit Types (rn : Network) (sg : ServerGrp).

(** Everything but [enabled]. *)
Definition wiring rn := (reliable rn, longDelays rn, longReordering rn, ends rn, servers rn, connections rn, closed rn, Labrpc.count rn).

Lemma enable_loop_spec rn name test yes l :
  (forall j, j ∈ l -> exists b, test j = Some b /\ (b = true -> is_Some (name j))) ->
  exists rn', enable_loop rn name test yes l = Some rn' /\ wiring rn' = wiring rn /\
    forall e, (exists j, j ∈ l /\ test j = Some true /\ name j = Some e) /\ end_on rn' e = yes \/
              ~ (exists j, j ∈ l /\ test j = Some true /\ name j = Some e) /\ end_on rn' e = end_on rn e.
Proof.
  revert rn. induction l as [|j l IH]; intros rn Hl; simpl.
  { exists rn. split_and!; [done..|]. intros e. right. split; [|done]. by intros (j & ?%elem_of_nil & _). }
  destruct (Hl j) as (b & Hb & Hn); [by left|]. rewrite Hb. assert (forall k, k ∈ l -> exists b, test k = Some b /\ (b = true -> is_Some (name k))) as Hl'.
  { intros k Hk. apply Hl. by right. }
  destruct b.
  - destruct Hn as [e0 He0]; [done|]. rewrite He0. cbn [mbind option_bind]. destruct (IH (Enable rn e0 yes) Hl') as (rn' & -> & Hw & He).
    exists rn'. split_and!; [done..|]. intros e. destruct (He e) as [((k & Hk & Ht & Hnm) & Hy)|[Hno Hsame]].
    + left. split; [|done]. exists k. split; [by right|done].
    + rewrite Hsame. unfold end_on. simpl. destruct (decide (e = e0)) as [->|Hne].
      * left. rewrite lookup_insert_eq. split; [|done]. exists j. split; [by left|done].
      * right. rewrite lookup_insert_ne by done. split; [|done]. intros (k & [->|Hk]%elem_of_cons & Ht & Hnm); [congruence|]. apply Hno. eauto.
  - destruct (IH rn Hl') as (rn' & -> & Hw & He). exists rn'. split_and!; [done..|]. intros e.
    destruct (He e) as [((k & Hk & Ht & Hnm) & Hy)|[Hno Hsame]].
    + left. split; [|done]. exists k. split; [by right|done].
    + right. split; [|done]. intros (k & [->|Hk]%elem_of_cons & Ht & Hnm); [congruence|]. apply Hno. eauto.
Qed.

Lemma end_of_Some sg a b : grp_wf n sg -> (a < n)%nat -> (b < n)%nat -> exists e, end_of sg a b = Some e.
Proof.
  intros Hwf Ha Hb. unfold end_of. destruct (lookup_lt_is_Some_2 (srvs sg) a) as [s Hs]; [by rewrite (gw_srvs _ _ Hwf)|].
  rewrite Hs. cbn [mbind option_bind]. apply lookup_lt_is_Some_2. by rewrite (Forall_lookup_1 _ _ _ _ (gw_ends _ _ Hwf) Hs).
Qed.

Lemma set_connected_wf sg i yes : grp_wf n sg -> (i < n)%nat ->
  exists sg', set_connected sg i yes = Some sg' /\ grp_wf n sg' /\ srvs sg' = srvs sg /\ connected sg' = <[i := yes]> (connected sg).
Proof.
  intros [Hs Hc He Hn] Hi. unfold set_connected. rewrite Hc. destruct (Nat.ltb_spec i n); [|lia].
  eexists. split; [done|]. split_and!; [|done..]. constructor; simpl; auto. by rewrite length_insert.
Qed.

Lemma link_same rn sg sg' a b : srvs sg' = srvs sg -> link rn sg' a b = link rn sg a b.
Proof. intros Heq. unfold link, end_of. by rewrite Heq. Qed.

Definition flag sg (a : nat) : bool := default false (connected sg !! a).

(** Enabling (or disabling) the ends [name j], seen from the links. *)
Lemma enable_links rn sg name test yes l : grp_wf n sg ->
  (forall j, j ∈ l -> exists b, test j = Some b /\ (b = true -> is_Some (name j))) ->
  exists rn', enable_loop rn name test yes l = Some rn' /\ wiring rn' = wiring rn /\
    forall a b e, end_of sg a b = Some e ->
      (exists j, j ∈ l /\ test j = Some true /\ name j = Some e) /\ link rn' sg a b = yes \/
      ~ (exists j, j ∈ l /\ test j = Some true /\ name j = Some e) /\ link rn' sg a b = link rn sg a b.
Proof.
  intros Hwf Hl. destruct (enable_loop_spec rn name test yes l Hl) as (rn' & Hr & Hw & He). exists rn'. split_and!; [done..|].
  intros a b e Hab. unfold link. rewrite Hab. apply He.
Qed.

Lemma srv_end sg i s j : srvs sg !! i = Some s -> endNames s !! j = end_of sg i j.
Proof. intros Hs. unfold end_of. by rewrite Hs. Qed.

Lemma connect_spec rn sg i to : grp_wf n sg -> (i < n)%nat -> Forall (fun j => (j < n)%nat) to ->
  exists rn' sg', connect rn sg i to = Some (rn', sg') /\ grp_wf n sg' /\ srvs sg' = srvs sg /\ wiring rn' = wiring rn /\
    connected sg' = <[i := true]> (connected sg) /\
    forall a b, (a < n)%nat -> (b < n)%nat ->
      link rn' sg' a b = bool_decide (a = i /\ b ∈ to) && flag sg' b || bool_decide (b = i /\ a ∈ to) && flag sg' a || link rn sg a b.
Proof.
  intros Hwf Hi Hto. rewrite Forall_forall in Hto. unfold connect.
  destruct (set_connected_wf sg i true Hwf Hi) as (sg1 & -> & Hwf1 & Hs1 & Hc1). cbn [mbind option_bind].
  destruct (lookup_lt_is_Some_2 (srvs sg1) i) as [s Hs]; [by rewrite (gw_srvs _ _ Hwf1)|]. rewrite Hs. cbn [mbind option_bind].
  assert (forall j, j ∈ to -> exists b, connected sg1 !! j = Some b) as Hflag.
  { intros j Hj. apply lookup_lt_is_Some_2. rewrite (gw_connected _ _ Hwf1). auto. }
  unfold Server_connect. destruct (enable_links rn sg1 (fun j => endNames s !! j) (fun j => connected sg1 !! j) true to Hwf1)
    as (rn1 & -> & Hw1 & H1).
  { intros j Hj. destruct (Hflag j Hj) as [b Hb]. exists b. split; [done|]. intros _. rewrite (srv_end sg1 i s j Hs). by apply end_of_Some; auto. }
  cbn [mbind option_bind]. destruct (enable_links rn1 sg1 (fun j => end_of sg1 j i) (fun j => IsConnected sg1 j) true to Hwf1)
    as (rn2 & -> & Hw2 & H2).
  { intros j Hj. destruct (Hflag j Hj) as [b Hb]. exists b. split; [done|]. intros _. by apply end_of_Some; auto. }
  cbn [mbind option_bind]. exists rn2, sg1. split_and!; [done..|congruence|done|].
  intros a b Ha Hb. destruct (end_of_Some sg1 a b Hwf1 Ha Hb) as [e He]. rewrite <-(link_same rn sg sg1) by done. unfold flag.
  destruct (H2 a b e He) as [((j & Hj & Ht & Hn) & ->)|[Hno ->]].
  - destruct (gw_names _ _ Hwf1 _ _ _ _ _ He Hn) as [-> ->]. unfold IsConnected in Ht. rewrite Ht. simpl.
    rewrite (bool_decide_eq_true_2 (i = i /\ j ∈ to)) by done. by rewrite orb_true_r.
  - destruct (H1 a b e He) as [((j & Hj & Ht & Hn) & ->)|[Hno1 ->]].
    + rewrite (srv_end sg1 i s j Hs) in Hn. destruct (gw_names _ _ Hwf1 _ _ _ _ _ He Hn) as [-> ->]. rewrite Ht. simpl.
      by rewrite (bool_decide_eq_true_2 (i = i /\ j ∈ to)).
    + assert (bool_decide (a = i /\ b ∈ to) && default false (connected sg1 !! b) = false) as ->; [|assert
        (bool_decide (b = i /\ a ∈ to) && default false (connected sg1 !! a) = false) as ->; [|done]]; apply andb_false_iff.
      * destruct (decide (a = i /\ b ∈ to)) as [[-> Hin]|Hne]; [right|left; by apply bool_decide_eq_false_2].
        destruct (Hflag b Hin) as [[] Hfb]; rewrite Hfb; [|done]. destruct Hno1. exists b. rewrite (srv_end sg1 i s b Hs). auto.
      * destruct (decide (b = i /\ a ∈ to)) as [[-> Hin]|Hne]; [right|left; by apply bool_decide_eq_false_2].
        destruct (Hflag a Hin) as [[] Hfa]; rewrite Hfa; [|done]. destruct Hno. exists a. auto.
Qed.

Lemma disconnect_spec rn sg i from : grp_wf n sg -> (i < n)%nat -> Forall (fun j => (j < n)%nat) from ->
  exists rn' sg', disconnect rn sg i from = Some (rn', sg') /\ grp_wf n sg' /\ srvs sg' = srvs sg /\ wiring rn' = wiring rn /\
    connected sg' = <[i := false]> (connected sg) /\
    forall a b, (a < n)%nat -> (b < n)%nat ->
      link rn' sg' a b = negb (bool_decide (a = i /\ b ∈ from)) && negb (bool_decide (b = i /\ a ∈ from)) && link rn sg a b.
Proof.
  intros Hwf Hi Hfrom. rewrite Forall_forall in Hfrom. unfold disconnect.
  destruct (set_connected_wf sg i false Hwf Hi) as (sg1 & -> & Hwf1 & Hs1 & Hc1). cbn [mbind option_bind].
  destruct (lookup_lt_is_Some_2 (srvs sg1) i) as [s Hs]; [by rewrite (gw_srvs _ _ Hwf1)|]. rewrite Hs. cbn [mbind option_bind].
  assert (forall j x, srvs sg1 !! j = Some x -> exists e l, endNames x = e :: l) as Hne.
  { intros j x Hx. pose proof (Forall_lookup_1 _ _ _ _ (gw_ends _ _ Hwf1) Hx) as Hlen. simpl in Hlen. destruct (endNames x); simpl in Hlen; [lia|eauto]. }
  unfold Server_disconnect. destruct (Hne i s Hs) as (e0 & l0 & He0). rewrite He0. rewrite <-He0. clear e0 l0 He0.
  destruct (enable_links rn sg1 (fun j => endNames s !! j) (fun _ => Some true) false from Hwf1) as (rn1 & -> & Hw1 & H1).
  { intros j Hj. exists true. split; [done|]. intros _. rewrite (srv_end sg1 i s j Hs). by apply end_of_Some; auto. }
  cbn [mbind option_bind].
  assert (forall j, j ∈ from -> (x ← srvs sg1 !! j; Some match endNames x with [] => false | _ => true end) = Some true) as Ht2.
  { intros j Hj. destruct (lookup_lt_is_Some_2 (srvs sg1) j) as [x Hx]; [rewrite (gw_srvs _ _ Hwf1); auto|]. rewrite Hx.
    destruct (Hne j x Hx) as (? & ? & Hx'). simpl. by rewrite Hx'. }
  destruct (enable_links rn1 sg1 (fun j => end_of sg1 j i) (fun j => x ← srvs sg1 !! j; Some match endNames x with [] => false | _ => true end)
    false from Hwf1) as (rn2 & -> & Hw2 & H2).
  { intros j Hj. exists true. split; [by apply Ht2|]. intros _. by apply end_of_Some; auto. }
  cbn [mbind option_bind]. exists rn2, sg1. split_and!; [done..|congruence|done|].
  intros a b Ha Hb. destruct (end_of_Some sg1 a b Hwf1 Ha Hb) as [e He]. rewrite <-(link_same rn sg sg1) by done.
  destruct (H2 a b e He) as [((j & Hj & Ht & Hn) & ->)|[Hno ->]].
  - destruct (gw_names _ _ Hwf1 _ _ _ _ _ He Hn) as [-> ->]. rewrite (bool_decide_eq_true_2 (i = i /\ j ∈ from)) by done. by rewrite andb_false_r.
  - destruct (H1 a b e He) as [((j & Hj & _ & Hn) & ->)|[Hno1 ->]].
    + rewrite (srv_end sg1 i s j Hs) in Hn. destruct (gw_names _ _ Hwf1 _ _ _ _ _ He Hn) as [-> ->].
      by rewrite (bool_decide_eq_true_2 (i = i /\ j ∈ from)).
    + rewrite !bool_decide_eq_false_2; [done|..].
      * intros [-> Hin]. apply Hno. exists a. auto.
      * intros [-> Hin]. apply Hno1. exists b. rewrite (srv_end sg1 i s b Hs). auto.
Qed.

(** *** Partitions *)

Section Sides.
Variables (p o : list nat).
Hypothesis Hp : Forall (fun j => (j < n)%nat) p.
Hypothesis Ho : Forall (fun j => (j < n)%nat) o.
Hypothesis Hdisj : forall x, x ∈ p -> x ∉ o.

(** The servers of [q], a part of the side [p], are done: connected to one
    another and cut off from the other side [o]. *)
Record side (q : list nat) rn sg : Prop := {
  sd_flags : forall a, a ∈ q -> flag sg a = true;
  sd_inside : forall a b, a ∈ q -> b ∈ q -> link rn sg a b = true;
  sd_across : forall a b, a ∈ q -> b ∈ o -> link rn sg a b = false /\ link rn sg b a = false;
}.

Lemma flag_insert sg sg' i yes a : connected sg' = <[i := yes]> (connected sg) -> (i < length (connected sg))%nat ->
  flag sg' a = if decide (a = i) then yes else flag sg a.
Proof.
  intros Heq Hi. unfold flag. rewrite Heq. destruct (decide (a = i)) as [->|Hne]; [by rewrite list_lookup_insert_eq|].
  by rewrite list_lookup_insert_ne.
Qed.

(** One server of the side. *)
Lemma side_step q x rn sg : grp_wf n sg -> q ⊆ p -> x ∈ p -> side q rn sg ->
  exists rn1 sg1 rn2 sg2, disconnect rn sg x o = Some (rn1, sg1) /\ connect rn1 sg1 x p = Some (rn2, sg2) /\
    grp_wf n sg2 /\ srvs sg2 = srvs sg /\ wiring rn2 = wiring rn /\ side (q ++ [x]) rn2 sg2 /\
    (forall a, a <> x -> flag sg2 a = flag sg a) /\
    (forall a b, a ∈ o -> b ∈ o -> link rn2 sg2 a b = link rn sg a b) /\
    (forall a b, a ∈ o -> b ∈ p -> link rn sg a b = false /\ link rn sg b a = false -> link rn2 sg2 a b = false /\ link rn2 sg2 b a = false).
Proof.
  intros Hwf Hq Hx Hs. pose proof (proj1 (Forall_forall _ _) Hp) as Hpn. pose proof (proj1 (Forall_forall _ _) Ho) as Hon.
  pose proof (Hpn x Hx) as Hxn. destruct (disconnect_spec rn sg x o Hwf Hxn Ho) as (rn1 & sg1 & H1 & Hwf1 & Hsv1 & Hw1 & Hc1 & Hl1).
  destruct (connect_spec rn1 sg1 x p Hwf1 Hxn Hp) as (rn2 & sg2 & H2 & Hwf2 & Hsv2 & Hw2 & Hc2 & Hl2).
  exists rn1, sg1, rn2, sg2.
  assert (forall a, flag sg2 a = if decide (a = x) then true else flag sg a) as Hf.
  { intros a. rewrite (flag_insert sg1 sg2 x true) by (done || by rewrite (gw_connected _ _ Hwf1)). destruct (decide (a = x)); [done|].
    rewrite (flag_insert sg sg1 x false) by (done || by rewrite (gw_connected _ _ Hwf)). by rewrite decide_False. }
  assert (forall a b, (a < n)%nat -> (b < n)%nat -> link rn2 sg2 a b =
    bool_decide (a = x /\ b ∈ p) && flag sg2 b || bool_decide (b = x /\ a ∈ p) && flag sg2 a ||
    negb (bool_decide (a = x /\ b ∈ o)) && negb (bool_decide (b = x /\ a ∈ o)) && link rn sg a b) as Hl.
  { intros a b Ha Hb. by rewrite Hl2, Hl1. }
  split_and!; [done..|congruence|congruence| | | |].
  - constructor.
    + intros a [Ha|Ha]%elem_of_app; rewrite Hf; [|apply list_elem_of_singleton in Ha; by rewrite decide_True].
      destruct (decide (a = x)); [done|by apply Hs].
    + intros a b Ha Hb. assert (forall c, c ∈ q ++ [x] -> c ∈ p /\ flag sg2 c = true) as Hc.
      { intros c [Hc|Hc]%elem_of_app; rewrite Hf; [split; [by apply Hq|]|apply list_elem_of_singleton in Hc as ->; by rewrite decide_True].
        destruct (decide (c = x)); [done|by apply Hs]. }
      destruct (Hc a Ha) as [Hap Haf], (Hc b Hb) as [Hbp Hbf]. rewrite Hl by auto. rewrite Haf, Hbf, !andb_true_r.
      destruct (decide (a = x)) as [->|Hax]; [by rewrite bool_decide_eq_true_2|]. destruct (decide (b = x)) as [->|Hbx].
      { rewrite (bool_decide_eq_true_2 (x = x /\ a ∈ p)) by done. by rewrite orb_true_r. }
      rewrite !bool_decide_eq_false_2 by (by intros [-> _]). simpl. apply Hs; set_solver.
    + intros a b Ha Hb. assert (a ∈ p) as Hap by set_solver.
      assert (b <> x) as Hbx by (intros ->; by apply (Hdisj x)). assert (b ∉ p) as Hbp by (intros ?; by apply (Hdisj b)).
      rewrite !Hl by auto.
      rewrite (bool_decide_eq_false_2 (a = x /\ b ∈ p)), (bool_decide_eq_false_2 (b = x /\ a ∈ p)) by tauto.
      rewrite (bool_decide_eq_false_2 (b = x /\ a ∈ o)) by tauto. simpl.
      destruct (decide (a = x)) as [->|Hax]; [by rewrite !(bool_decide_eq_true_2 (x = x /\ b ∈ o))|].
      rewrite !(bool_decide_eq_false_2 (a = x /\ b ∈ o)) by tauto. simpl. apply Hs; [|done]. set_solver.
  - intros a Ha. rewrite Hf. by rewrite decide_False.
  - intros a b Ha Hb. assert (a <> x /\ b <> x) as [Hax Hbx] by (split; intros ->; by apply (Hdisj x)). rewrite Hl by auto.
    by rewrite !bool_decide_eq_false_2 by tauto.
  - intros a b Ha Hb [Hl1' Hl2']. assert (a <> x) as Hax by (intros ->; by apply (Hdisj x)). assert (a ∉ p) as Hap by (intros ?; by apply (Hdisj a)).
    rewrite !Hl by auto. rewrite Hl1', Hl2', !andb_false_r, !orb_false_r.
    by rewrite !bool_decide_eq_false_2 by tauto.
Qed.

Lemma partition_side_ok l q rn sg : grp_wf n sg -> q ++ l = p -> side q rn sg ->
  exists rn' sg', partition_side rn sg p o l = Some (rn', sg') /\ grp_wf n sg' /\ srvs sg' = srvs sg /\ wiring rn' = wiring rn /\ side p rn' sg' /\
    (forall a, a ∉ p -> flag sg' a = flag sg a) /\
    (forall a b, a ∈ o -> b ∈ o -> link rn' sg' a b = link rn sg a b) /\
    (forall a b, a ∈ o -> b ∈ p -> link rn sg a b = false /\ link rn sg b a = false -> link rn' sg' a b = false /\ link rn' sg' b a = false).
Proof.
  revert q rn sg. induction l as [|x l IH]; intros q rn sg Hwf Hql Hs; simpl.
  { rewrite app_nil_r in Hql. subst q. exists rn, sg. split_and!; auto. }
  assert (x ∈ p) as Hx by (rewrite <-Hql; set_solver).
  destruct (side_step q x rn sg Hwf) as (rn1 & sg1 & rn2 & sg2 & -> & H2 & Hwf2 & Hsv & Hw & Hs2 & Hf & Hoo & Hop); [set_solver|done|done|].
  cbn [mbind option_bind]. rewrite H2. cbn [mbind option_bind].
  destruct (IH (q ++ [x]) rn2 sg2) as (rn' & sg' & -> & Hwf' & Hsv' & Hw' & Hs' & Hf' & Hoo' & Hop'); [done|by rewrite <-app_assoc|done|].
  exists rn', sg'. split_and!; [done..|congruence|congruence|done| | |].
  - intros a Ha. rewrite Hf' by done. apply Hf. congruence.
  - intros a b Ha Hb. rewrite Hoo' by done. auto.
  - intros a b Ha Hb Hl. apply Hop'; auto.
Qed.

End Sides.

Lemma Partition_ok rn sg p1 p2 : grp_wf n sg -> p1 ++ p2 ≡ₚ seq 0 n ->
  exists rn' sg', Partition rn sg p1 p2 = Some (rn', sg') /\ grp_wf n sg' /\ srvs sg' = srvs sg /\ wiring rn' = wiring rn /\
    (forall a, (a < n)%nat -> flag sg' a = true) /\
    forall a b, (a < n)%nat -> (b < n)%nat -> link rn' sg' a b = bool_decide (a ∈ p1 /\ b ∈ p1 \/ a ∈ p2 /\ b ∈ p2).
Proof.
  intros Hwf Hperm. assert (forall x, (x < n)%nat <-> x ∈ p1 \/ x ∈ p2) as Hin.
  { intros x. rewrite <-elem_of_app, Hperm, elem_of_seq. lia. }
  assert (NoDup (p1 ++ p2)) as Hnd by (rewrite Hperm; apply NoDup_seq). apply NoDup_app in Hnd as (_ & Hdisj & _).
  assert (Forall (fun j => (j < n)%nat) p1 /\ Forall (fun j => (j < n)%nat) p2) as [Hp1 Hp2] by (split; apply Forall_forall; intros x Hx; apply Hin; auto).
  assert (forall o rn sg, side o [] rn sg) as Hnil by (intros; constructor; intros ?; set_solver).
  assert (forall x, x ∈ p2 -> x ∉ p1) as Hdisj' by (intros x H2 H1; by apply (Hdisj x)).
  unfold Partition.
  destruct (partition_side_ok p1 p2 Hp1 Hp2 Hdisj p1 [] rn sg Hwf eq_refl (Hnil _ _ _)) as (rn1 & sg1 & -> & Hwf1 & Hsv1 & Hw1 & Hs1 & _).
  cbn [mbind option_bind].
  destruct (partition_side_ok p2 p1 Hp2 Hp1 Hdisj' p2 [] rn1 sg1 Hwf1 eq_refl (Hnil _ _ _)) as (rn2 & sg2 & -> & Hwf2 & Hsv2 & Hw2 & Hs2 & Hf & Hoo & _).
  exists rn2, sg2. split_and!; [done..|congruence|congruence| |].
  - intros a [Ha|Ha]%Hin; [|by apply Hs2]. rewrite Hf by auto. by apply Hs1.
  - intros a b [Ha|Ha]%Hin [Hb|Hb]%Hin.
    + rewrite bool_decide_eq_true_2 by auto. rewrite Hoo by done. by apply Hs1.
    + rewrite bool_decide_eq_false_2 by naive_solver. by apply (sd_across _ _ _ _ Hs2 b a).
    + rewrite bool_decide_eq_false_2 by naive_solver. by apply (sd_across _ _ _ _ Hs2 a b).
    + rewrite bool_decide_eq_true_2 by auto. by apply Hs2.
Qed.

End Links.

(** *** MakePartition *)

Lemma insert_zero (x : list nat) (m i : nat) : (0 < m)%nat -> <[length x := i]> (x ++ replicate m 0%nat) = (x ++ [i]) ++ replicate (m - 1) 0%nat.
Proof.
  intros Hm. destruct m as [|m]; [lia|]. rewrite insert_app_r_alt by lia. rewrite Nat.sub_diag. simpl. rewrite <-app_assoc, Nat.sub_0_r. done.
Qed.

(** The servers placed so far, [d], fill the two slices one after the other. *)
Lemma fill_spec A B l is_ d : (length d + length (filter (fun i => i <> l) is_) <= A + B)%nat ->
  fill l is_ (length d) (take A d ++ replicate (A - length d) 0%nat) (drop A d ++ replicate (B - (length d - A)) 0%nat) =
    let d' := d ++ filter (fun i => i <> l) is_ in
    Some (take A d' ++ replicate (A - length d') 0%nat, drop A d' ++ replicate (B - (length d' - A)) 0%nat).
Proof.
  revert d. induction is_ as [|i is_ IH]; intros d Hlen; cbn [fill]; cbv zeta.
  { rewrite filter_nil, app_nil_r. done. }
  rewrite filter_cons in *. destruct (Nat.eqb_spec i l) as [->|Hne].
  - rewrite decide_False in * by congruence. by apply IH.
  - rewrite decide_True in * by done. rewrite length_app, length_take, length_replicate. cbn [length] in Hlen.
    specialize (IH (d ++ [i])). rewrite length_app in IH. cbn [length] in IH. rewrite <-app_assoc in IH. simpl in IH.
    rewrite Nat.add_1_r in IH. cbv zeta in IH. rewrite <-IH by lia. clear IH.
    destruct (Nat.ltb_spec (length d) (Nat.min A (length d) + (A - length d))) as [Hlt|Hge].
    + f_equal.
      * rewrite !take_ge by (rewrite ?length_app; simpl; lia). rewrite insert_zero by lia. do 2 f_equal. lia.
      * rewrite !drop_ge by (rewrite ?length_app; simpl; lia). do 3 f_equal. lia.
    + rewrite length_app, length_drop, length_replicate.
      destruct (Nat.ltb_spec (length d - (Nat.min A (length d) + (A - length d))) (length d - A + (B - (length d - A)))) as [Hlt|]; [|lia].
      f_equal.
      * rewrite take_app_le by lia. do 2 f_equal. lia.
      * rewrite drop_app_le by lia. replace (length d - (Nat.min A (length d) + (A - length d)))%nat with (length (drop A d)) by (rewrite length_drop; lia).
        rewrite insert_zero by lia. do 2 f_equal. lia.
Qed.

Lemma others_perm (l : nat) ls : NoDup ls -> l ∈ ls -> filter (fun i => i <> l) ls ++ [l] ≡ₚ ls.
Proof.
  intros Hnd Hl. apply NoDup_Permutation; [|done|].
  - apply NoDup_app. split_and!; [by apply NoDup_filter| |apply NoDup_singleton].
    intros x [Hx _]%list_elem_of_filter Hin%list_elem_of_singleton. done.
  - intros x. rewrite elem_of_app, list_elem_of_filter, list_elem_of_singleton. destruct (decide (x = l)) as [->|]; naive_solver.
Qed.

Lemma MakePartition_odd k l : (1 <= k)%nat -> (l < 2 * k + 1)%nat ->
  exists p1 p2, MakePartition (2 * k + 1) l = Some (p1, p2 ++ [l]) /\ p1 ++ p2 ++ [l] ≡ₚ seq 0 (2 * k + 1) /\
    length p1 = (k + 1)%nat /\ length (p2 ++ [l]) = k.
Proof.
  intros Hk Hl. set (others := filter (fun i => i <> l) (seq 0 (2 * k + 1))).
  assert (others ++ [l] ≡ₚ seq 0 (2 * k + 1)) as Hperm by (apply others_perm; [apply NoDup_seq|apply elem_of_seq; lia]).
  assert (length others = (2 * k)%nat) as Hlen.
  { apply Permutation_length in Hperm. rewrite length_app, length_seq in Hperm. simpl in Hperm. lia. }
  exists (take (k + 1) others), (drop (k + 1) others). unfold MakePartition.
  replace ((2 * k + 1) / 2)%nat with k by (rewrite Nat.add_comm, Nat.mul_comm, Nat.div_add by lia; done).
  pose proof (fill_spec (k + 1) k l (seq 0 (2 * k + 1)) []) as Hfill. fold others in Hfill. cbn [length Nat.add] in Hfill.
  rewrite take_nil, drop_nil, !Nat.sub_0_r in Hfill. cbn [app] in Hfill. replace (k - (0 - (k + 1)))%nat with k in Hfill by lia.
  rewrite Hfill by lia. cbn [mbind option_bind]. rewrite Hlen. replace (k + 1 - 2 * k)%nat with 0%nat by lia.
  split_and!.
  - replace (k - (2 * k - (k + 1)))%nat with 1%nat by lia. rewrite length_app, length_drop, length_replicate, Hlen.
    destruct (Nat.eqb_spec (2 * k - (k + 1) + 1) 0); [lia|].
    replace (2 * k - (k + 1) + 1 - 1)%nat with (length (drop (k + 1) others)) by (rewrite length_drop; lia).
    rewrite insert_zero by lia. simpl. by rewrite !app_nil_r.
  - by rewrite app_assoc, take_drop.
  - rewrite length_take. lia.
  - rewrite length_app, length_drop. simpl. lia.
Qed.

(** A request on a disabled end is answered by a failure, without running
    the handler. *)
Lemma disabled_read {Rep : Type} (handle : list nat -> nat -> Rep) (s : NetSys Rep) i e h : end_on (net s) e = false ->
  calls s !! i = Some (MkNetCall e Sent h) -> net_step handle s (ERead i) = Some (delay_reply s i (MkNetCall e Sent h) None).
Proof.
  intros He Hc. unfold net_step. rewrite Hc. unfold readEndnameInfo. unfold end_on in He. rewrite He. done.
Qed.

(** *** The life of a group *)

Inductive GrpOp : Type :=
| GConnect (i : nat) (to : list nat)
| GDisconnect (i : nat) (from : list nat)
| GStart (i : nat) (names : list string) (labsrv : Z) (ran : bool)
| GShutdown (i : nat) (answers : bool)
| GPartition (p1 p2 : list nat)
| GEnd (name server : string).                        (* a client makes an end *)

Definition grp_op (st : Network * ServerGrp) (op : GrpOp) : option (Network * ServerGrp) :=
  let '(rn, sg) := st in
  match op with
  | GConnect i to => connect rn sg i to
  | GDisconnect i from => disconnect rn sg i from
  | GStart i names labsrv ran => StartServer rn sg i names labsrv ran
  | GShutdown i answers => ShutdownServer rn sg i answers
  | GPartition p1 p2 => Partition rn sg p1 p2
  | GEnd name server => rn ← MakeEnd rn name; Some (Connect rn name server, sg)
  end.

Fixpoint grp_ops (st : Network * ServerGrp) (ops : list GrpOp) : option (Network * ServerGrp) :=
  match ops with [] => Some st | op :: ops => st ← grp_op st op; grp_ops st ops end.

(** A group made by [makeSrvGrp] after any operations; a restarted server
    gets as many names as there are servers. *)
Definition grp_life (gid : Z) (nss : list (list string)) (ops : list GrpOp) : option (Network * ServerGrp) :=
  st ← makeSrvGrp MakeNetwork gid nss; grp_ops st ops.

Definition names_fit (n : nat) (op : GrpOp) : Prop := match op with GStart _ names _ _ => length names = n | _ => True end.

Record grp_ok (n : nat) (rn : Network) (sg : ServerGrp) : Prop := {
  go_wf : grp_wf n sg;
  go_ends : forall a b e, end_of sg a b = Some e -> e ∈ ends rn;
}.

Lemma enable_loop_ends rn name test yes l rn' : enable_loop rn name test yes l = Some rn' -> ends rn' = ends rn.
Proof.
  revert rn. induction l as [|j l IH]; intros rn H; simpl in H; [by simplify_eq|].
  destruct (test j) as [[]|]; [|by apply IH|done]. destruct (name j); [|done]. cbn [mbind option_bind] in H. by apply IH in H.
Qed.

Lemma make_ends_ok rn gid j names rn' : make_ends rn gid j names = Some rn' ->
  NoDup names /\ (forall e, e ∈ names -> e ∉ ends rn) /\ ends rn' = ends rn ∪ list_to_set names.
Proof.
  revert rn j. induction names as [|e names IH]; intros rn j H; simpl in H; [simplify_eq; split_and!; [constructor|set_solver..]|].
  unfold MakeEnd in H. case_bool_decide as Hin; [done|]. cbn [mbind option_bind] in H. apply IH in H as (Hnd & Hfresh & Hends). simpl in *.
  split_and!; [|set_solver|rewrite Hends; set_solver]. constructor; [|done]. intros He. apply Hfresh in He. set_solver.
Qed.

(** Servers that get their own fresh names. *)
Lemma replace_srv_ok n rn sg i s rn' : grp_ok n rn sg -> length (endNames s) = n -> NoDup (endNames s) ->
  (forall e, e ∈ endNames s -> e ∉ ends rn) -> ends rn' = ends rn ∪ list_to_set (endNames s) -> grp_ok n rn' (set_srv sg i s).
Proof.
  intros [[Hs Hc He Hn] Hin] Hlen Hnd Hfresh Hends.
  assert (forall a b e, end_of (set_srv sg i s) a b = Some e -> a = i /\ endNames s !! b = Some e \/ a <> i /\ end_of sg a b = Some e) as Hcase.
  { intros a b e H. unfold end_of, set_srv in H. cbn [srvs] in H. destruct (<[i := s]> (srvs sg) !! a) as [x|] eqn:Hx; [|done]. cbn [mbind option_bind] in H.
    apply list_lookup_insert_Some in Hx as [(-> & <- & _)|[Hne Hx]]; [by left|right]. split; [done|]. unfold end_of. by rewrite Hx. }
  constructor; [constructor; simpl; [by rewrite length_insert|done|by apply Forall_insert|]|].
  - intros a b a' b' e H1%Hcase H2%Hcase. destruct H1 as [[-> H1]|[Ha H1]], H2 as [[-> H2]|[Ha' H2]].
    + split; [done|]. by eapply NoDup_lookup.
    + exfalso. apply (Hfresh e); [by eapply list_elem_of_lookup_2|by eapply Hin].
    + exfalso. apply (Hfresh e); [by eapply list_elem_of_lookup_2|by eapply Hin].
    + by eapply Hn.
  - intros a b e H%Hcase. rewrite Hends. destruct H as [[-> H]|[_ H]]; [apply list_elem_of_lookup_2 in H|apply Hin in H]; set_solver.
Qed.

Lemma grp_ok_same n rn sg rn' sg' : grp_ok n rn sg -> srvs sg' = srvs sg -> length (connected sg') = n -> ends rn' = ends rn -> grp_ok n rn' sg'.
Proof.
  intros [[Hs Hc He Hn] Hin] Heq Hlen Hends. assert (forall a b, end_of sg' a b = end_of sg a b) as Hend by (intros; unfold end_of; by rewrite Heq).
  constructor; [constructor; [by rewrite Heq|done|by rewrite Heq|]|]; intros *; rewrite !Hend; eauto. rewrite Hends. apply Hin.
Qed.

Lemma set_connected_ok n rn sg i yes sg' : grp_ok n rn sg -> set_connected sg i yes = Some sg' -> grp_ok n rn sg' /\ srvs sg' = srvs sg.
Proof.
  intros Hok H. unfold set_connected in H. destruct (_ <? _)%nat; [|done]. injection H as <-. split; [|done].
  apply (grp_ok_same n rn sg); auto. simpl. rewrite length_insert. apply Hok.
Qed.

Lemma grp_connect_ok n rn sg i to rn' sg' : grp_ok n rn sg -> connect rn sg i to = Some (rn', sg') -> grp_ok n rn' sg'.
Proof.
  intros Hok H. unfold connect, Server_connect in H. destruct (set_connected sg i true) as [sg1|] eqn:Hsc; [|done]. cbn [mbind option_bind] in H.
  apply (set_connected_ok n rn) in Hsc as [Hok1 _]; [|done]. destruct (srvs sg1 !! i); [|done]. cbn [mbind option_bind] in H.
  destruct (enable_loop rn _ _ _ _) as [rn1|] eqn:H1; [|done]. cbn [mbind option_bind] in H. apply enable_loop_ends in H1.
  destruct (enable_loop rn1 _ _ _ _) as [rn2|] eqn:H2; [|done]. cbn [mbind option_bind] in H. apply enable_loop_ends in H2. injection H as <- <-.
  apply (grp_ok_same n rn sg1); auto; [apply Hok1|congruence].
Qed.

Lemma grp_disconnect_ok n rn sg i from rn' sg' : grp_ok n rn sg -> disconnect rn sg i from = Some (rn', sg') -> grp_ok n rn' sg' /\ srvs sg' = srvs sg.
Proof.
  intros Hok H. unfold disconnect, Server_disconnect in H. destruct (set_connected sg i false) as [sg1|] eqn:Hsc; [|done]. cbn [mbind option_bind] in H.
  apply (set_connected_ok n rn) in Hsc as [Hok1 Hsv]; [|done]. destruct (srvs sg1 !! i) as [s|]; [|done]. cbn [mbind option_bind] in H.
  destruct (match endNames s with [] => Some rn | _ => _ end) as [rn1|] eqn:H1; [|done]. cbn [mbind option_bind] in H.
  assert (ends rn1 = ends rn) as He1 by (destruct (endNames s); [by simplify_eq|by apply enable_loop_ends in H1]).
  destruct (enable_loop rn1 _ _ _ _) as [rn2|] eqn:H2; [|done]. cbn [mbind option_bind] in H. apply enable_loop_ends in H2. injection H as <- <-.
  split; [|done]. apply (grp_ok_same n rn sg1); auto; [apply Hok1|congruence].
Qed.

Lemma partition_side_keeps n mine other l rn sg rn' sg' : grp_ok n rn sg -> partition_side rn sg mine other l = Some (rn', sg') -> grp_ok n rn' sg'.
Proof.
  revert rn sg. induction l as [|i l IH]; intros rn sg Hok H; simpl in H; [by simplify_eq|].
  destruct (disconnect rn sg i other) as [[rn1 sg1]|] eqn:H1; [|done]. cbn [mbind option_bind] in H. apply (grp_disconnect_ok n) in H1 as [Hok1 _]; [|done].
  destruct (connect rn1 sg1 i mine) as [[rn2 sg2]|] eqn:H2; [|done]. cbn [mbind option_bind] in H. apply (grp_connect_ok n) in H2; [|done]. by eapply IH.
Qed.

Lemma start_ok n rn sg i names labsrv ran rn' sg' : grp_ok n rn sg -> length names = n ->
  StartServer rn sg i names labsrv ran = Some (rn', sg') -> grp_ok n rn' sg'.
Proof.
  intros Hok Hlen H. unfold StartServer, startServer, makeServer in H. destruct (srvs sg !! i) as [s|]; [|done]. cbn [mbind option_bind] in H.
  destruct (make_ends rn (gid sg) 0 names) as [rn1|] eqn:Hm; [|done]. cbn [mbind option_bind endNames saved] in H.
  apply make_ends_ok in Hm as (Hnd & Hfresh & Hends). destruct ran; injection H as <- <-; by apply (replace_srv_ok n rn sg).
Qed.

Lemma shutdownServer_Some a s s' : shutdownServer a s = Some s' -> endNames s' = endNames s /\ dc s' = None /\ (is_Some (dc s) -> a = true).
Proof.
  unfold shutdownServer. destruct (dc s) as [p|] eqn:E; [destruct a; [|done]|]; intros [= <-]; simpl; split_and!; auto. by intros [? ?].
Qed.

Lemma shutdown_ok n rn sg i a rn' sg' : grp_ok n rn sg -> ShutdownServer rn sg i a = Some (rn', sg') -> grp_ok n rn' sg'.
Proof.
  intros Hok H. unfold ShutdownServer in H. destruct (disconnect rn sg i (all sg)) as [[rn1 sg1]|] eqn:H1; [|done]. cbn [mbind option_bind] in H.
  apply (grp_disconnect_ok n) in H1 as [Hok1 _]; [|done]. destruct (srvs sg1 !! i) as [s|] eqn:Hs; [|done]. cbn [mbind option_bind] in H.
  destruct (shutdownServer a s) as [s'|] eqn:Hsd; [|done]. cbn [mbind option_bind] in H. injection H as <- <-. apply shutdownServer_Some in Hsd as [Hsame _].
  destruct Hok1 as [[Hs1 Hc1 He1 Hn1] Hin1].
  assert (forall a b, end_of (set_srv sg1 i s') a b = end_of sg1 a b) as Hend.
  { intros x b. unfold end_of, set_srv. cbn [srvs]. destruct (decide (x = i)) as [->|Hne]; [|by rewrite list_lookup_insert_ne].
    rewrite list_lookup_insert_eq by (by eapply lookup_lt_Some). rewrite Hs. simpl. by rewrite Hsame. }
  constructor; [constructor; simpl; [by rewrite length_insert|done| |]|].
  - apply Forall_insert; [done|]. rewrite Hsame. apply (Forall_lookup_1 _ _ _ _ He1 Hs).
  - intros *. rewrite !Hend. apply Hn1.
  - intros *. rewrite Hend. apply Hin1.
Qed.

Lemma grp_op_ok n rn sg op rn' sg' : grp_ok n rn sg -> names_fit n op -> grp_op (rn, sg) op = Some (rn', sg') -> grp_ok n rn' sg'.
Proof.
  intros Hok Hfit H. destruct op as [i to|i from|i names labsrv ran|i a|p1 p2|name server]; simpl in *.
  - by eapply grp_connect_ok.
  - by eapply grp_disconnect_ok.
  - by eapply start_ok.
  - by eapply shutdown_ok.
  - unfold Partition in H. destruct (partition_side rn sg p1 p2 p1) as [[rn1 sg1]|] eqn:H1; [|done]. cbn [mbind option_bind] in H.
    eapply partition_side_keeps; [|exact H]. by eapply partition_side_keeps.
  - unfold MakeEnd in H. case_bool_decide; [done|]. cbn [mbind option_bind] in H. injection H as <- <-.
    destruct Hok as [Hwf Hin]. constructor; [done|]. intros a b e He. simpl. apply Hin in He. set_solver.
Qed.

Lemma make_servers_ok n rn gid nss rn' l : make_servers rn gid nss = Some (rn', l) -> Forall (fun ns => length ns = n) nss ->
  length l = length nss /\ Forall (fun s => length (endNames s) = n) l /\ ends rn ⊆ ends rn' /\
  (forall a s b e, l !! a = Some s -> endNames s !! b = Some e -> (e ∉ ends rn) /\ e ∈ ends rn') /\
  forall a s b a' s' b' e, l !! a = Some s -> endNames s !! b = Some e -> l !! a' = Some s' -> endNames s' !! b' = Some e -> a = a' /\ b = b'.
Proof.
  revert rn l. induction nss as [|ns nss IH]; intros rn l H Hlen; simpl in H.
  { injection H as <- <-. split_and!; [done|constructor|done|by intros ** ..]. }
  apply Forall_cons in Hlen as [Hns Hlen]. unfold makeServer in H. destruct (make_ends rn gid 0 ns) as [rn1|] eqn:Hm; [|done]. cbn [mbind option_bind] in H.
  destruct (make_servers rn1 gid nss) as [[rn2 l1]|] eqn:H1; [|done]. cbn [mbind option_bind] in H. injection H as <- <-.
  apply make_ends_ok in Hm as (Hnd & Hfresh & Hends). destruct (IH _ _ H1 Hlen) as (Hl & He & Hsub & Hnew & Hinj). split_and!.
  - simpl. by rewrite Hl.
  - by constructor.
  - set_solver.
  - intros [|a] s b e Hs Hb; simpl in Hs; [simplify_eq/=; apply list_elem_of_lookup_2 in Hb; set_solver|].
    destruct (Hnew a s b e Hs Hb). set_solver.
  - intros [|a] s b [|a'] s' b' e Hs Hb Hs' Hb'; simpl in Hs, Hs'; simplify_eq/=.
    + split; [done|]. by eapply NoDup_lookup.
    + apply list_elem_of_lookup_2 in Hb. destruct (Hnew a' s' b' e Hs' Hb'). set_solver.
    + apply list_elem_of_lookup_2 in Hb'. destruct (Hnew a s b e Hs Hb). set_solver.
    + destruct (Hinj a s b a' s' b' e Hs Hb Hs' Hb') as [-> ->]. done.
Qed.

Lemma makeSrvGrp_ok n rn gid nss rn' sg : makeSrvGrp rn gid nss = Some (rn', sg) -> length nss = n -> Forall (fun ns => length ns = n) nss ->
  grp_ok n rn' sg.
Proof.
  intros H Hn Hlen. unfold makeSrvGrp in H. destruct (make_servers rn gid nss) as [[rn1 l]|] eqn:H1; [|done]. cbn [mbind option_bind] in H.
  injection H as <- <-. destruct (make_servers_ok n _ _ _ _ _ H1 Hlen) as (Hl & He & _ & Hnew & Hinj).
  assert (forall a b e, end_of (MkServerGrp l gid (replicate (length nss) false)) a b = Some e -> exists s, l !! a = Some s /\ endNames s !! b = Some e) as Hend.
  { intros a b e H. unfold end_of in H. cbn [srvs] in H. destruct (l !! a) as [s|]; [|done]. by exists s. }
  constructor; [constructor; simpl; [congruence|by rewrite length_replicate|done|]|].
  - intros a b a' b' e (s & Hs & Hb)%Hend (s' & Hs' & Hb')%Hend. by eapply Hinj.
  - intros a b e (s & Hs & Hb)%Hend. by destruct (Hnew a s b e Hs Hb).
Qed.

Lemma grp_life_ok n gid nss ops rn sg : grp_life gid nss ops = Some (rn, sg) -> length nss = n -> Forall (fun ns => length ns = n) nss ->
  Forall (names_fit n) ops -> grp_ok n rn sg.
Proof.
  intros H Hn Hlen. unfold grp_life in H. destruct (makeSrvGrp MakeNetwork gid nss) as [[rn0 sg0]|] eqn:H0; [|done]. cbn [mbind option_bind] in H.
  apply (makeSrvGrp_ok n) in H0; [|done..]. revert rn0 sg0 H0 H. induction ops as [|op ops IH]; intros rn0 sg0 H0 H Hfit; cbn [grp_ops] in H; [by simplify_eq|].
  apply Forall_cons in Hfit as [Hop Hfit]. destruct (grp_op (rn0, sg0) op) as [[rn1 sg1]|] eqn:H1; [|done]. cbn [mbind option_bind] in H.
  apply (grp_op_ok n) in H1; [|done..]. by eapply IH.
Qed.

(** The tester's partitions are real.  In a group of an odd
    number of servers (at least three), after any connections, partitions,
    shutdowns and restarts, MakePartition and Partition split the group into a majority and a minority that contains the given server; the
    ends inside each part are enabled and all ends across are disabled, so
    that a request across the partition fails before it reaches a handler;
    nothing else in the network changes. *)
Theorem partition_isolates_minority {Rep : Type} (handle : list nat -> nat -> Rep) (gid : Z) (nss : list (list string)) (ops : list GrpOp)
    (rn : Network) (sg : ServerGrp) (k l : nat) :
  (1 <= k)%nat -> (l < 2 * k + 1)%nat -> length nss = (2 * k + 1)%nat -> Forall (fun ns => length ns = (2 * k + 1)%nat) nss ->
  Forall (names_fit (2 * k + 1)) ops -> grp_life gid nss ops = Some (rn, sg) ->
  exists p1 p2 rn' sg', MakePartition (2 * k + 1) l = Some (p1, p2) /\ Partition rn sg p1 p2 = Some (rn', sg') /\
    p1 ++ p2 ≡ₚ seq 0 (2 * k + 1) /\ length p1 = (k + 1)%nat /\ (l ∈ p2) /\ wiring rn' = wiring rn /\
    (forall a b, (a < 2 * k + 1)%nat -> (b < 2 * k + 1)%nat -> link rn' sg' a b = bool_decide (a ∈ p1 /\ b ∈ p1 \/ a ∈ p2 /\ b ∈ p2)) /\
    forall a b e s i h, a ∈ p1 /\ b ∈ p2 \/ a ∈ p2 /\ b ∈ p1 -> end_of sg a b = Some e -> net s = rn' ->
      calls s !! i = Some (MkNetCall e Sent h) -> net_step handle s (ERead i) = Some (delay_reply s i (MkNetCall e Sent h) None).
Proof.
  intros Hk Hl Hn Hlen Hfit Hlife. pose proof (go_wf _ _ _ (grp_life_ok _ _ _ _ _ _ Hlife Hn Hlen Hfit)) as Hwf. destruct (MakePartition_odd k l Hk Hl) as (p1 & q & Hmk & Hperm & Hl1 & _).
  destruct (Partition_ok (2 * k + 1) rn sg p1 (q ++ [l]) Hwf Hperm) as (rn' & sg' & Hpt & Hwf' & Hsv & Hw & _ & Hlink).
  exists p1, (q ++ [l]), rn', sg'. split_and!; [done..|set_solver|done|done|].
  intros a b e s i h Hab He Hnet Hc. apply disabled_read; [|done]. rewrite Hnet.
  assert (NoDup (p1 ++ q ++ [l])) as Hnd by (rewrite Hperm; apply NoDup_seq). apply NoDup_app in Hnd as (_ & Hdisj & _).
  assert (forall x, x ∈ p1 \/ x ∈ q ++ [l] -> (x < 2 * k + 1)%nat) as Hin.
  { intros x Hx. rewrite <-elem_of_app, Hperm, elem_of_seq in Hx. lia. }
  assert (link rn' sg' a b = false) as Hf.
  { rewrite Hlink by (apply Hin; tauto). apply bool_decide_eq_false_2. naive_solver. }
  unfold link in Hf. unfold end_of in He, Hf. rewrite Hsv in Hf. by rewrite He in Hf.
Qed.

(** With an even number of servers MakePartition leaves zeros in its slices:
    server 0 is on both sides. *)
Theorem MakePartition_even_overlaps : MakePartition 4 3 = Some ([0; 1; 2], [0; 3])%nat /\ MakePartition 2 0 = Some ([1; 0], [0])%nat.
Proof. split; reflexivity. Qed.

(** *** Restarts *)

(** Stable storage survives.  A server that is shut down, while
    anything else happens to the rest of the group, and started again under
    the same number gets a daemon with the storage its last daemon had; it is
    off the net until it is connected. *)
Theorem restart_keeps_storage (rn : Network) (sg : ServerGrp) (i : nat) (s : TSrv) p rn1 sg1 names labsrv rn2 sg2 :
  srvs sg !! i = Some s -> dc s = Some p -> ShutdownServer rn sg i true = Some (rn1, sg1) ->
  StartServer rn1 sg1 i names labsrv true = Some (rn2, sg2) ->
  (exists s2, srvs sg2 !! i = Some s2 /\ dc s2 = Some p /\ saved s2 = Some p /\ endNames s2 = names) /\
  (forall j, j <> i -> srvs sg2 !! j = srvs sg !! j) /\ IsConnected sg2 i = Some false /\
  servers rn1 !! ServerName (gid sg) (Z.of_nat i) = Some None /\
  servers rn2 !! ServerName (gid sg) (Z.of_nat i) = Some (Some labsrv).
Proof.
  intros Hs Hdc Hdown Hup. unfold ShutdownServer, disconnect, set_connected in Hdown.
  destruct (Nat.ltb_spec i (length (connected sg))) as [Hlt|]; [|done]. cbn [mbind option_bind srvs] in Hdown. rewrite Hs in Hdown. cbn [mbind option_bind] in Hdown.
  destruct (Server_disconnect rn s (all sg)) as [rna|]; [|done]. cbn [mbind option_bind] in Hdown.
  destruct (enable_loop rna _ _ _ _) as [rnb|]; [|done]. cbn [mbind option_bind srvs] in Hdown. rewrite Hs in Hdown.
  cbn [mbind option_bind gid] in Hdown. unfold shutdownServer in Hdown. rewrite Hdc in Hdown. cbn [mbind option_bind] in Hdown.
  injection Hdown as <- <-. unfold StartServer, startServer, makeServer in Hup. cbn [srvs set_srv gid] in Hup.
  rewrite list_lookup_insert_eq in Hup by (by eapply lookup_lt_Some). cbn [mbind option_bind] in Hup.
  destruct (make_ends _ (gid sg) 0 names) as [rnc|]; [|done]. cbn [mbind option_bind endNames saved] in Hup. injection Hup as <- <-.
  cbn [set_srv srvs saved default endNames mbind option_bind] in *.
  assert (forall p : Persister, Save MakePersister (ReadRaftState p) (Persister.ReadSnapshot p) = p) as Hsave by (by intros []).
  rewrite !Hsave. split_and!.
  - eexists. split; [apply list_lookup_insert_eq; rewrite length_insert; by eapply lookup_lt_Some|by destruct p].
  - intros j Hj. by rewrite !list_lookup_insert_ne.
  - unfold IsConnected. simpl. by rewrite list_lookup_insert_eq.
  - simpl. by rewrite lookup_insert_eq.
  - simpl. by rewrite lookup_insert_eq.
Qed.

(** ** Clients (clnts.go) *)

(** The ends of a client by server, and the servers it may talk to: nil for
    all. *)
Record Clnt : Type := MkClnt { c_ends : gmap string string; c_srvs : option (list string) }.

Definition makeClntTo (to : option (list string)) : Clnt := MkClnt ∅ to.

Definition allowedL (c : Clnt) (server : string) : bool :=
  match c_srvs c with None => true | Some l => bool_decide (server ∈ l) end.

(** [name] is the random name of the end. *)
Definition Clnt_makeEnd (rn : Network) (c : Clnt) (server name : string) : option (Network * Clnt * string) :=
  match c_ends c !! server with
  | Some e => Some (rn, c, e)
  | None =>
      rn ← MakeEnd rn name;
      Some (Enable (Connect rn name server) name (allowedL c server), MkClnt (<[server := name]> (c_ends c)) (c_srvs c), name)
  end.

Definition enable_all (rn : Network) (es : list string) (yes : bool) : Network := foldr (fun e rn => Enable rn e yes) rn es.

Definition Clnt_ConnectAll (rn : Network) (c : Clnt) : Network * Clnt :=
  (enable_all rn (map_to_list (c_ends c)).*2 true, MkClnt (c_ends c) None).
Definition Clnt_ConnectTo (rn : Network) (c : Clnt) (to : list string) : Network * Clnt :=
  let c := MkClnt (c_ends c) (Some to) in
  (enable_all rn (filter (fun x => allowedL c x.1 = true) (map_to_list (c_ends c))).*2 true, c).
Definition Clnt_Disconnect (rn : Network) (c : Clnt) (server : string) : Network :=
  enable_all rn (filter (fun x => x.1 = server) (map_to_list (c_ends c))).*2 false.
Definition Clnt_DisconnectAll (rn : Network) (c : Clnt) : Network * Clnt :=
  (enable_all rn (map_to_list (c_ends c)).*2 false, MkClnt (c_ends c) (Some [])).

Definition remove_ends (rn : Network) (es : list string) : option Network := foldr (fun e rn => rn ← rn; DeleteEnd rn e) (Some rn) es.
Definition Clnt_remove (rn : Network) (c : Clnt) : option Network := remove_ends rn (map_to_list (c_ends c)).*2.

(** The client's ends are its own, and enabled for the servers it may talk
    to. *)
Record clnt_ok (rn : Network) (c : Clnt) : Prop := {
  ck_ends : forall srv e, c_ends c !! srv = Some e -> e ∈ ends rn;
  ck_own : forall srv srv' e, c_ends c !! srv = Some e -> c_ends c !! srv' = Some e -> srv = srv';
  ck_on : forall srv e, c_ends c !! srv = Some e -> end_on rn e = allowedL c srv;
}.

Lemma enable_all_spec rn es yes e : end_on (enable_all rn es yes) e = if decide (e ∈ es) then yes else end_on rn e.
Proof.
  induction es as [|e0 es IH]; [by rewrite decide_False by apply not_elem_of_nil|]. unfold end_on in *. cbn [enable_all foldr Enable enabled].
  destruct (decide (e = e0)) as [->|Hne]; [rewrite lookup_insert_eq, decide_True by (by left); done|]. rewrite lookup_insert_ne by done. fold (enable_all rn es yes). rewrite IH.
  destruct (decide (e ∈ es)) as [Hin|Hin]; [by rewrite decide_True by (by right)|]. rewrite decide_False by set_solver. done.
Qed.

Lemma enable_all_ends rn es yes : ends (enable_all rn es yes) = ends rn.
Proof. by induction es. Qed.

Lemma end_in_map (c : Clnt) srv e : c_ends c !! srv = Some e -> e ∈ (map_to_list (c_ends c)).*2.
Proof. intros H. apply list_elem_of_fmap. exists (srv, e). split; [done|]. by apply elem_of_map_to_list. Qed.

Inductive ClntOp : Type := CEnd (server name : string) | CConnectAll | CDisconnectAll.

Definition clnt_op (st : Network * Clnt) (op : ClntOp) : option (Network * Clnt) :=
  let '(rn, c) := st in
  match op with
  | CEnd server name => fst <$> Clnt_makeEnd rn c server name
  | CConnectAll => Some (Clnt_ConnectAll rn c)
  | CDisconnectAll => Some (Clnt_DisconnectAll rn c)
  end.

Lemma clnt_op_ok rn c op rn' c' : clnt_ok rn c -> clnt_op (rn, c) op = Some (rn', c') -> clnt_ok rn' c'.
Proof.
  intros [He Ho Hon] H. destruct op as [server name| |]; simpl in H.
  - unfold Clnt_makeEnd in H. destruct (c_ends c !! server) as [e0|] eqn:Hs; [simpl in H; by simplify_eq|].
    unfold MakeEnd in H. case_bool_decide as Hin; [done|]. cbn [mbind option_bind fmap option_fmap option_map fst] in H. injection H as <- <-.
    constructor; simpl.
    + intros srv e [[-> ->]|[_ Hl]]%lookup_insert_Some; [set_solver|]. apply He in Hl. set_solver.
    + intros srv srv' e [[H1 H2]|[Hn Hl]]%lookup_insert_Some [[H3 H4]|[Hn' Hl']]%lookup_insert_Some;
        [congruence|exfalso; apply Hin; rewrite H2; by eapply He|exfalso; apply Hin; rewrite H4; by eapply He|by eapply Ho].
    + intros srv e [[-> ->]|[Hn Hl]]%lookup_insert_Some; unfold end_on; simpl; [by rewrite lookup_insert_eq|].
      assert (e <> name) as Hne by (intros ->; apply Hin; by eapply He). rewrite !lookup_insert_ne by done. by apply Hon.
  - injection H as <- <-. constructor; simpl.
    + intros srv e Hl. rewrite enable_all_ends. by eapply He.
    + done.
    + intros srv e Hl. rewrite enable_all_spec. by rewrite decide_True by (by eapply end_in_map).
  - injection H as <- <-. constructor; simpl.
    + intros srv e Hl. rewrite enable_all_ends. by eapply He.
    + done.
    + intros srv e Hl. rewrite enable_all_spec. rewrite decide_True by (by eapply end_in_map). done.
Qed.

Fixpoint clnt_ops (st : Network * Clnt) (ops : list ClntOp) : option (Network * Clnt) :=
  match ops with [] => Some st | op :: ops => st ← clnt_op st op; clnt_ops st ops end.

(** A client reaches exactly the servers it may talk to: after any calls,
    ConnectAlls and DisconnectAlls, its end to a server is enabled if and only
    if the server is allowed. *)
Theorem client_reaches_allowed_servers (rn0 : Network) to ops rn c server e :
  clnt_ops (rn0, makeClntTo to) ops = Some (rn, c) -> c_ends c !! server = Some e -> end_on rn e = allowedL c server.
Proof.
  intros H. assert (clnt_ok rn0 (makeClntTo to)) as Hok by (by constructor). revert rn0 Hok H. generalize (makeClntTo to).
  induction ops as [|op ops IH]; intros c0 rn0 Hok H; cbn [clnt_ops] in H; [simplify_eq; apply Hok|].
  destruct (clnt_op (rn0, c0) op) as [[rn1 c1]|] eqn:H1; [|done]. cbn [mbind option_bind] in H. eapply IH; [|exact H]. by eapply clnt_op_ok.
Qed.

(** ConnectTo enables the ends to the servers it names and leaves the others
    as they are: a client that has talked to server "a" and is then connected
    to "b" only can still reach "a". *)
Definition two_ends : option (Network * Clnt) :=
  '(rn, c, _) ← Clnt_makeEnd MakeNetwork (makeClntTo None) "a" "x";
  '(rn, c, _) ← Clnt_makeEnd rn c "b" "y";
  Some (Clnt_ConnectTo rn c ["b"]).

Theorem ConnectTo_keeps_other_ends :
  match two_ends with Some (rn, c) => allowedL c "a" = false /\ end_on rn "x" = true | None => False end.
Proof. vm_compute. split; reflexivity. Qed.

(** ** Witnesses *)

Definition three_names : list (list string) := [["00"; "01"; "02"]; ["10"; "11"; "12"]; ["20"; "21"; "22"]].
Definition three_ops : list GrpOp :=
  [GStart 0 ["30"; "31"; "32"] 1 true; GStart 1 ["40"; "41"; "42"] 2 true; GStart 2 ["50"; "51"; "52"] 3 true;
   GConnect 0 [0; 1; 2]%nat; GConnect 1 [0; 1; 2]%nat; GConnect 2 [0; 1; 2]%nat].

Definition three_servers : Network * ServerGrp :=
  Eval vm_compute in default (MakeNetwork, MkServerGrp [] 0 []) (grp_life 0 three_names three_ops).

Lemma partition_isolates_minority_witness : exists p1 p2 rn' sg',
  MakePartition 3 0 = Some (p1, p2) /\ Partition (fst three_servers) (snd three_servers) p1 p2 = Some (rn', sg') /\
  link rn' sg' 1 2 = true /\ link rn' sg' 0 1 = false.
Proof.
  destruct (partition_isolates_minority (fun _ _ => tt) 0 three_names three_ops (fst three_servers) (snd three_servers) 1 0)
    as (p1 & p2 & rn' & sg' & Hmk & Hpt & _ & _ & _ & _ & Hlink & _).
  - lia.
  - lia.
  - reflexivity.
  - repeat constructor.
  - repeat constructor.
  - vm_compute. reflexivity.
  - exists p1, p2, rn', sg'. vm_compute in Hmk. injection Hmk as <- <-. split; [reflexivity|]. split; [exact Hpt|].
    rewrite !Hlink by lia. vm_compute. split; reflexivity.
Defined.

(** Server 1 with some storage, shut down and started again. *)
Definition with_storage : ServerGrp :=
  set_srv (snd three_servers) 1 (MkTSrv ["40"; "41"; "42"] (Some MakePersister) (Some (MkPersister [1; 2] [3]))).

Definition shut_down : Network * ServerGrp := default three_servers (ShutdownServer (fst three_servers) with_storage 1 true).

Definition started_again : Network * ServerGrp :=
  default three_servers (StartServer (fst shut_down) (snd shut_down) 1 ["60"; "61"; "62"] 4 true).

Lemma restart_keeps_storage_witness : exists s2,
  srvs (snd started_again) !! 1%nat = Some s2 /\ dc s2 = Some (MkPersister [1; 2] [3]).
Proof.
  destruct (restart_keeps_storage (fst three_servers) with_storage 1 (MkTSrv ["40"; "41"; "42"] (Some MakePersister) (Some (MkPersister [1; 2] [3])))
    (MkPersister [1; 2] [3]) (fst shut_down) (snd shut_down) ["60"; "61"; "62"] 4 (fst started_again) (snd started_again))
    as ((s2 & Hs & Hd & _) & _); [reflexivity|reflexivity|vm_compute; reflexivity|vm_compute; reflexivity|].
  exists s2. split; [exact Hs|exact Hd].
Defined.
