(* ===== verification/TestGroups.v ===== *)
(** * The tester's groups and clients (src/tester1/group.go, clnts.go)

    The tables of all server groups ([Groups]) and of all clients ([Clnts]) of
    a test, the operations on whole groups (StartServers, sizes, cleanup), and
    what a test can rely on: a group that has been started is completely
    connected, with a registered daemon for every server on the storage the
    server had; and cleaning up the clients deletes every end they made and
    no other. *)

From stdpp Require Import pretty.
From S2P Require Import Prelude Rpc KvSrv KvClerk Labrpc Persister TestGroup.

(** ** Whole groups *)

Definition SrvNames (sg : ServerGrp) : list string := (fun i => ServerName (gid sg) (Z.of_nat i)) <$> all sg.

Definition SrvNamesTo (sg : ServerGrp) (to : list nat) : option (list string) := mapM (SrvName sg) to.

(** What a start of a server gets from outside: the names of its ends, its
    labrpc server and whether its daemon could be started. *)
Record Boot : Type := MkBoot { b_names : list string; b_labsrv : Z; b_ran : bool }.

Fixpoint StartSrvs (rn : Network) (sg : ServerGrp) (l : list (nat * Boot)) : option (Network * ServerGrp) :=
  match l with
  | [] => Some (rn, sg)
  | (i, b) :: l => '(rn, sg) ← StartServer rn sg i (b_names b) (b_labsrv b) (b_ran b); StartSrvs rn sg l
  end.

Definition StartServers (rn : Network) (sg : ServerGrp) (boots : list Boot) : option (Network * ServerGrp) :=
  '(rn, sg) ← StartSrvs rn sg (zip (all sg) boots);
  ConnectAll rn sg.

(** The maximum over the servers, from 0 on; [None] when a server has neither
    a daemon nor storage (a nil dereference). *)
Fixpoint max_size (size : TSrv -> option Z) (l : list TSrv) (m : Z) : option Z :=
  match l with
  | [] => Some m
  | s :: l => n ← size s; max_size size l (if n >? m then n else m)
  end.

Definition RaftSize (sg : ServerGrp) : option Z := max_size raftSize (srvs sg) 0.
Definition SnapshotSize (sg : ServerGrp) : option Z := max_size snapshotSize (srvs sg) 0.

(** ** Groups *)

Record Groups : Type := MkGroups { grps : gmap Z ServerGrp }.

Definition newGroups : Groups := MkGroups ∅.

Definition MakeGroup (rn : Network) (gs : Groups) (gid : Z) (nss : list (list string)) : option (Network * Groups) :=
  '(rn, sg) ← makeSrvGrp rn gid nss;
  Some (rn, MkGroups (<[gid := sg]> (grps gs))).

Definition lookupGroup (gs : Groups) (gid : Z) : option ServerGrp := grps gs !! gid.

Definition deleteGroup (gs : Groups) (gid : Z) : Groups := MkGroups (delete gid (grps gs)).

(** [answers g i]: the daemon of server [i] of group [g] answers and can be
    killed. *)
Fixpoint shutdown_all (rn : Network) (answers : Z -> nat -> bool) (l : list (Z * ServerGrp)) (gs : gmap Z ServerGrp) : option (Network * gmap Z ServerGrp) :=
  match l with
  | [] => Some (rn, gs)
  | (g, sg) :: l => '(rn, sg) ← Shutdown rn sg (answers g); shutdown_all rn answers l (<[g := sg]> gs)
  end.

Definition groups_cleanup (rn : Network) (gs : Groups) (answers : Z -> nat -> bool) : option (Network * Groups) :=
  '(rn, m) ← shutdown_all rn answers (map_to_list (grps gs)) (grps gs);
  Some (rn, MkGroups m).

(** ** Clients

    A client is known by its address; a nil table is [None]. *)

Record Clnts : Type := MkClnts { clerks : option (gmap nat Clnt) }.

Definition makeClnts : Clnts := MkClnts (Some ∅).

(** The end of [Clnts.makeEnd] is always enabled and belongs to no client. *)
Definition Clnts_makeEnd (rn : Network) (servername name : string) : option Network :=
  rn ← MakeEnd rn name;
  Some (Enable (Connect rn name servername) name true).

(** [p] is the address of the new client; [None] is a write to a nil map. *)
Definition MakeClientTo (cs : Clnts) (p : nat) (to : option (list string)) : option Clnts :=
  m ← clerks cs;
  Some (MkClnts (Some (<[p := makeClntTo to]> m))).

Definition MakeClient (cs : Clnts) (p : nat) : option Clnts := MakeClientTo cs p None.

Definition DeleteClient (rn : Network) (cs : Clnts) (p : nat) : option (Network * Clnts) :=
  match clerks cs with
  | Some m =>
      match m !! p with
      | Some c => rn ← Clnt_remove rn c; Some (rn, MkClnts (Some (delete p m)))
      | None => Some (rn, cs)
      end
  | None => Some (rn, cs)
  end.

Fixpoint remove_all (rn : Network) (l : list Clnt) : option Network :=
  match l with
  | [] => Some rn
  | c :: l => rn ← Clnt_remove rn c; remove_all rn l
  end.

Definition clnts_cleanup (rn : Network) (cs : Clnts) : option (Network * Clnts) :=
  rn ← remove_all rn (map_to_list (default ∅ (clerks cs))).*2;
  Some (rn, MkClnts None).

(** ** A group that has been started *)

Section Start.
Context (n : nat).
Implicit Types (rn : Network) (sg : ServerGrp).

(** The servers of [d] are on the net and connected to one another. *)
Record joined (d : list nat) rn sg : Prop := {
  jn_flag : forall a, a ∈ d -> flag sg a = true;
  jn_link : forall a b, a ∈ d -> b ∈ d -> link rn sg a b = true;
}.

Lemma all_bound sg : grp_wf n sg -> Forall (fun j => (j < n)%nat) (all sg).
Proof. intros Hwf. apply Forall_forall. intros j Hj%elem_of_seq. rewrite <-(gw_srvs _ _ Hwf). unfold grp_N in Hj. lia. Qed.

Lemma ConnectOne_joined d rn sg i : grp_wf n sg -> Forall (fun j => (j < n)%nat) (i :: d) -> joined d rn sg ->
  exists rn' sg', ConnectOne rn sg i = Some (rn', sg') /\ grp_wf n sg' /\ srvs sg' = srvs sg /\ wiring rn' = wiring rn /\ joined (i :: d) rn' sg'.
Proof.
  intros Hwf [Hi Hd]%Forall_cons [Hf Hl]. unfold ConnectOne.
  destruct (connect_spec n rn sg i (all sg) Hwf Hi (all_bound sg Hwf)) as (rn' & sg' & Hc & Hwf' & Hs & Hw & Hcon & Hlink).
  exists rn', sg'. split_and!; auto. rewrite Forall_forall in Hd.
  assert (forall a, a ∈ i :: d -> (a < n)%nat /\ a ∈ all sg /\ flag sg' a = true) as Hin.
  { intros a Ha. assert (a < n)%nat as Hlt by (apply elem_of_cons in Ha as [->|Ha]; auto). split_and!; [done| |].
    - apply elem_of_seq. unfold grp_N. rewrite (gw_srvs _ _ Hwf). lia.
    - rewrite (flag_insert sg sg' i true a Hcon) by (by rewrite (gw_connected _ _ Hwf)). destruct (decide (a = i)); [done|]. apply Hf. set_solver. }
  constructor; [intros a Ha; by apply Hin|]. intros a b Ha Hb. destruct (Hin a Ha) as (Hal & Haa & Hfa), (Hin b Hb) as (Hbl & Hba & Hfb).
  rewrite Hlink, Hfa, Hfb, !andb_true_r by done. apply orb_true_iff. rewrite orb_true_iff, !bool_decide_eq_true.
  apply elem_of_cons in Ha as [->|Ha]; [auto|]. apply elem_of_cons in Hb as [->|Hb]; [auto|]. auto.
Qed.

Lemma connect_each_joined l d rn sg : grp_wf n sg -> Forall (fun j => (j < n)%nat) (l ++ d) -> joined d rn sg ->
  exists rn' sg', connect_each rn sg l = Some (rn', sg') /\ grp_wf n sg' /\ srvs sg' = srvs sg /\ wiring rn' = wiring rn /\ joined (l ++ d) rn' sg'.
Proof.
  revert d rn sg. induction l as [|i l IH]; intros d rn sg Hwf Hb Hj; [exists rn, sg; auto|]. cbn [app] in Hb. apply Forall_cons in Hb as [Hi Hb].
  apply Forall_app in Hb as [Hl Hd]. destruct (ConnectOne_joined d rn sg i Hwf) as (rn1 & sg1 & H1 & Hwf1 & Hs1 & Hw1 & Hj1); [by constructor|done|].
  destruct (IH (i :: d) rn1 sg1 Hwf1) as (rn2 & sg2 & H2 & Hwf2 & Hs2 & Hw2 & Hj2); [apply Forall_app; split; [done|by constructor]|done|].
  exists rn2, sg2. split_and!; [cbn [connect_each]; by rewrite H1|done|congruence..|]. destruct Hj2 as [Hf Hk].
  constructor; [intros a Ha; apply Hf; set_solver|intros a b Ha Hb; apply Hk; set_solver].
Qed.

Lemma ConnectAll_joined rn sg : grp_wf n sg ->
  exists rn' sg', ConnectAll rn sg = Some (rn', sg') /\ grp_wf n sg' /\ srvs sg' = srvs sg /\ wiring rn' = wiring rn /\
    forall a b, (a < n)%nat -> (b < n)%nat -> IsConnected sg' a = Some true /\ link rn' sg' a b = true.
Proof.
  intros Hwf. destruct (connect_each_joined (all sg) [] rn sg Hwf) as (rn' & sg' & H & Hwf' & Hs & Hw & [Hf Hl]);
    [rewrite app_nil_r; by apply all_bound|constructor; set_solver|].
  exists rn', sg'. split_and!; auto. rewrite app_nil_r in *. intros a b Ha Hb.
  assert (forall x, (x < n)%nat -> x ∈ all sg) as Hin. { intros x Hx. apply elem_of_seq. unfold grp_N. rewrite (gw_srvs _ _ Hwf). lia. }
  split; [|by apply Hl; apply Hin]. specialize (Hf a (Hin a Ha)). unfold flag in Hf. unfold IsConnected.
  destruct (connected sg' !! a) as [[]|] eqn:Hc; done.
Qed.

(** *** Starting servers *)

Lemma make_ends_total rn gid j names : NoDup names -> (forall e, e ∈ names -> e ∉ ends rn) ->
  exists rn', make_ends rn gid j names = Some rn' /\ servers rn' = servers rn.
Proof.
  revert rn j. induction names as [|e names IH]; intros rn j Hnd Hf; cbn [make_ends]; [by exists rn|]. apply NoDup_cons in Hnd as [He Hnd].
  unfold MakeEnd. rewrite bool_decide_eq_false_2 by (apply Hf, list_elem_of_here). cbn [mbind option_bind].
  match goal with |- exists rn', make_ends ?r _ _ _ = _ /\ _ => destruct (IH r (S j) Hnd) as (rn' & Hr & Hs) end; [|by exists rn'].
  intros x Hx. simpl. assert (x <> e) by (by intros ->). assert (x ∉ ends rn) by (apply Hf; by right). set_solver.
Qed.

(** The server that a start makes of [s]. *)
Definition booted (s : TSrv) (names : list string) : TSrv :=
  MkTSrv names (Some (default MakePersister (saved s))) (Some (default MakePersister (saved s))).

Lemma StartServer_spec rn sg i s b : grp_ok n rn sg -> srvs sg !! i = Some s -> length (b_names b) = n -> NoDup (b_names b) ->
  (forall e, e ∈ b_names b -> e ∉ ends rn) -> b_ran b = true ->
  exists rn', StartServer rn sg i (b_names b) (b_labsrv b) (b_ran b) = Some (rn', set_srv sg i (booted s (b_names b))) /\
    grp_ok n rn' (set_srv sg i (booted s (b_names b))) /\ ends rn' = ends rn ∪ list_to_set (b_names b) /\
    servers rn' = <[ServerName (gid sg) (Z.of_nat i) := Some (b_labsrv b)]> (servers rn).
Proof.
  intros Hok Hs Hlen Hnd Hf Hran. destruct (make_ends_total rn (gid sg) 0 (b_names b) Hnd Hf) as (rn1 & Hm & Hsv).
  assert (StartServer rn sg i (b_names b) (b_labsrv b) (b_ran b) =
    Some (AddServer rn1 (ServerName (gid sg) (Z.of_nat i)) (b_labsrv b), set_srv sg i (booted s (b_names b)))) as Hst.
  { unfold StartServer, startServer, makeServer. rewrite Hs, Hran. cbn [mbind option_bind]. rewrite Hm. cbn [mbind option_bind endNames saved].
    unfold booted. by destruct (default MakePersister (saved s)). }
  apply make_ends_ok in Hm as (_ & _ & He). eexists. split_and!; [exact Hst| |done|simpl; by rewrite Hsv].
  by eapply start_ok.
Qed.

Lemma ServerName_inj gid i j : ServerName gid (Z.of_nat i) = ServerName gid (Z.of_nat j) -> i = j.
Proof.
  unfold ServerName. intros H. do 3 apply (inj (String.append _)) in H. apply (inj pretty) in H. lia.
Qed.

(** The names that a list of starts uses. *)
Definition boot_names (l : list (nat * Boot)) : list string := concat (b_names <$> l.*2).

Lemma StartSrvs_spec l rn sg : grp_ok n rn sg -> NoDup l.*1 -> NoDup (boot_names l) -> (forall e, e ∈ boot_names l -> e ∉ ends rn) ->
  (forall i b, (i, b) ∈ l -> (i < n)%nat /\ length (b_names b) = n /\ b_ran b = true) ->
  exists rn' sg', StartSrvs rn sg l = Some (rn', sg') /\ grp_ok n rn' sg' /\ gid sg' = gid sg /\
    (forall i, i ∉ l.*1 -> srvs sg' !! i = srvs sg !! i /\
       servers rn' !! ServerName (gid sg) (Z.of_nat i) = servers rn !! ServerName (gid sg) (Z.of_nat i)) /\
    forall i b s, (i, b) ∈ l -> srvs sg !! i = Some s -> srvs sg' !! i = Some (booted s (b_names b)) /\
      servers rn' !! ServerName (gid sg) (Z.of_nat i) = Some (Some (b_labsrv b)).
Proof.
  revert rn sg. induction l as [|[i b] l IH]; intros rn sg Hok Hi Hnd Hf Hl.
  { exists rn, sg. split_and!; auto. intros i b s Hin. by apply elem_of_nil in Hin. }
  unfold boot_names in Hnd, Hf. cbn [fmap list_fmap concat snd] in Hnd, Hf. fold (boot_names l) in Hnd, Hf. apply NoDup_app in Hnd as (Hb & Hdis & Hnd).
  apply NoDup_cons in Hi as [Hni Hi]. destruct (Hl i b) as (Hlt & Hlen & Hran); [apply list_elem_of_here|].
  destruct (lookup_lt_is_Some_2 (srvs sg) i) as [s Hs]; [by rewrite (gw_srvs _ _ (go_wf _ _ _ Hok))|].
  destruct (StartServer_spec rn sg i s b Hok Hs Hlen Hb) as (rn1 & H1 & Hok1 & He1 & Hs1); [intros e He; apply Hf, elem_of_app; auto|done|].
  destruct (IH rn1 _ Hok1 Hi Hnd) as (rn2 & sg2 & H2 & Hok2 & Hg2 & Hout & Hin).
  - intros e He. rewrite He1. assert (e ∉ ends rn) by (apply Hf, elem_of_app; auto). assert (e ∉ b_names b) by (intros Hx; by apply (Hdis e)). set_solver.
  - intros j b' Hj. apply Hl. by right.
  - cbn [set_srv gid srvs] in *. exists rn2, sg2. split_and!; [cbn [StartSrvs]; by rewrite H1|done|done| |].
    + intros j Hj. cbn [fmap list_fmap fst] in Hj. apply not_elem_of_cons in Hj as [Hji Hj]. destruct (Hout j Hj) as [-> ->]. rewrite list_lookup_insert_ne by done.
      rewrite Hs1, lookup_insert_ne; [done|]. by intros Heq%ServerName_inj.
    + intros j b' s' [Heq|Hj]%elem_of_cons Hs'.
      * injection Heq as -> ->. destruct (Hout i Hni) as [-> ->]. rewrite list_lookup_insert_eq by (by eapply lookup_lt_Some).
        rewrite Hs1, lookup_insert_eq. split; congruence.
      * apply Hin; [done|]. rewrite list_lookup_insert_ne; [done|]. intros ->. apply Hni. apply list_elem_of_fmap. by exists (j, b').
Qed.

End Start.

(** A group that has been started is ready.  Whatever happened
    to a group of n servers before, StartServers, with fresh end names and
    daemons that come up, succeeds: every server is on the net and every pair
    of servers is connected in both directions, and every server is registered
    in the network and has a daemon on the storage it was left with (empty
    storage, if it never ran). *)
Theorem StartServers_ready (gid : Z) (nss : list (list string)) (ops : list GrpOp) (boots : list Boot) (rn : Network) (sg : ServerGrp) (n : nat) :
  length nss = n -> Forall (fun ns => length ns = n) nss -> Forall (names_fit n) ops -> grp_life gid nss ops = Some (rn, sg) ->
  length boots = n -> Forall (fun b => length (b_names b) = n /\ b_ran b = true) boots ->
  NoDup (concat (b_names <$> boots)) -> (forall e, e ∈ concat (b_names <$> boots) -> e ∉ ends rn) ->
  exists rn' sg', StartServers rn sg boots = Some (rn', sg') /\
    (forall a b, (a < n)%nat -> (b < n)%nat -> IsConnected sg' a = Some true /\ link rn' sg' a b = true) /\
    forall i s b, srvs sg !! i = Some s -> boots !! i = Some b ->
      (exists s', srvs sg' !! i = Some s' /\ endNames s' = b_names b /\ dc s' = Some (default MakePersister (saved s))) /\
      servers rn' !! ServerName (TestGroup.gid sg) (Z.of_nat i) = Some (Some (b_labsrv b)).
Proof.
  intros Hn Hlen Hfit Hlife Hb Hboots Hnd Hfresh. apply (grp_life_ok n) in Hlife as Hok; [|done..].
  assert (length (all sg) = length boots) as Hall by (unfold all, grp_N; rewrite length_seq, (gw_srvs _ _ (go_wf _ _ _ Hok)); done).
  assert (boot_names (zip (all sg) boots) = concat (b_names <$> boots)) as Hnames.
  { unfold boot_names. by rewrite snd_zip by lia. }
  destruct (StartSrvs_spec n (zip (all sg) boots) rn sg Hok) as (rn1 & sg1 & H1 & Hok1 & Hg & _ & Hst).
  - rewrite fst_zip by lia. apply NoDup_seq.
  - by rewrite Hnames.
  - by rewrite Hnames.
  - intros i b Hin. apply list_elem_of_lookup in Hin as [k Hk]. apply lookup_zip_Some in Hk as [Ha Hkb].
    apply lookup_seq in Ha as [-> Hlt]. rewrite Forall_lookup in Hboots. unfold grp_N in Hlt. rewrite (gw_srvs _ _ (go_wf _ _ _ Hok)) in Hlt.
    split; [lia|]. by eapply Hboots.
  - destruct (ConnectAll_joined n rn1 sg1 (go_wf _ _ _ Hok1)) as (rn2 & sg2 & H2 & _ & Hs2 & Hw2 & Hc2).
    exists rn2, sg2. split_and!; [unfold StartServers; by rewrite H1|done|]. intros i s b Hs Hib.
    destruct (Hst i b s) as [Hi Hsv]; [|done|].
    + apply list_elem_of_lookup. exists i. apply lookup_zip_Some. split; [|done]. apply lookup_seq. split; [done|]. unfold grp_N. by eapply lookup_lt_Some.
    + assert (servers rn2 = servers rn1) as -> by (unfold wiring in Hw2; congruence). split; [|done]. rewrite Hs2. by eexists.
Qed.

(** ** The clients' ends *)

Inductive ClntsOp : Type :=
| OpNew (p : nat) (to : option (list string))
| OpDelete (p : nat)
| OpCall (p : nat) (server name : string)             (* the first part of Clnt.Call: makeEnd *)
| OpConnectAll (p : nat)
| OpConnectTo (p : nat) (to : list string)
| OpDisconnect (p : nat) (server : string)
| OpDisconnectAll (p : nat).

(** An operation of client [p]; a client that has been deleted is not used any
    more. *)
Definition at_clnt (rn : Network) (cs : Clnts) (p : nat) (f : Clnt -> option (Network * Clnt)) : option (Network * Clnts) :=
  m ← clerks cs;
  match m !! p with
  | Some c => '(rn, c) ← f c; Some (rn, MkClnts (Some (<[p := c]> m)))
  | None => Some (rn, cs)
  end.

(** [OpNew]: the address of a new client is not in use. *)
Definition clnts_op (st : Network * Clnts) (op : ClntsOp) : option (Network * Clnts) :=
  let '(rn, cs) := st in
  match op with
  | OpNew p to =>
      if bool_decide (is_Some (default ∅ (clerks cs) !! p)) then Some (rn, cs)
      else cs ← MakeClientTo cs p to; Some (rn, cs)
  | OpDelete p => DeleteClient rn cs p
  | OpCall p server name => at_clnt rn cs p (fun c => fst <$> Clnt_makeEnd rn c server name)
  | OpConnectAll p => at_clnt rn cs p (fun c => Some (Clnt_ConnectAll rn c))
  | OpConnectTo p to => at_clnt rn cs p (fun c => Some (Clnt_ConnectTo rn c to))
  | OpDisconnect p server => at_clnt rn cs p (fun c => Some (Clnt_Disconnect rn c server, c))
  | OpDisconnectAll p => at_clnt rn cs p (fun c => Some (Clnt_DisconnectAll rn c))
  end.

Fixpoint clnts_ops (st : Network * Clnts) (ops : list ClntsOp) : option (Network * Clnts) :=
  match ops with [] => Some st | op :: ops => st ← clnts_op st op; clnts_ops st ops end.

Section Ends.
(** The ends that are not the clients'. *)
Variable base : gset string.
Implicit Types (rn : Network) (m : gmap nat Clnt) (c : Clnt).

(** Every end of the network is an end of [base] or of exactly one client, for
    one server. *)
Record ends_ok rn m : Prop := {
  eo_base : base ⊆ ends rn;
  eo_own : forall p c srv e, m !! p = Some c -> c_ends c !! srv = Some e -> e ∈ ends rn /\ e ∉ base;
  eo_inj : forall p c srv p' c' srv' e, m !! p = Some c -> c_ends c !! srv = Some e -> m !! p' = Some c' -> c_ends c' !! srv' = Some e ->
    p = p' /\ srv = srv';
  eo_all : forall e, e ∈ ends rn -> e ∈ base \/ exists p c srv, m !! p = Some c /\ c_ends c !! srv = Some e;
}.

(** An operation that keeps the names of the client's ends. *)
Lemma ends_ok_same rn m p c c' rn' : ends_ok rn m -> m !! p = Some c -> c_ends c' = c_ends c -> ends rn' = ends rn -> ends_ok rn' (<[p := c']> m).
Proof.
  intros [Hb Ho Hi Ha] Hp Hc He.
  assert (forall q x, <[p := c']> m !! q = Some x -> exists y, m !! q = Some y /\ c_ends x = c_ends y) as Hback.
  { intros q x [[<- <-]|[_ Hq]]%lookup_insert_Some; eauto. }
  constructor; rewrite ?He; [done| | |].
  - intros q x srv e (y & Hy & ->)%Hback. by eapply Ho.
  - intros q x srv q' x' srv' e (y & Hy & ->)%Hback H1 (y' & Hy' & ->)%Hback. by eapply Hi.
  - intros e [?|(q & x & srv & Hq & Hx)]%Ha; [by left|]. right. destruct (decide (q = p)) as [->|Hne].
    + exists p, c', srv. rewrite lookup_insert_eq, Hc. split; [done|congruence].
    + exists q, x, srv. by rewrite lookup_insert_ne.
Qed.

Lemma ends_ok_call rn m p c server name rn' c' : ends_ok rn m -> m !! p = Some c -> fst <$> Clnt_makeEnd rn c server name = Some (rn', c') ->
  ends_ok rn' (<[p := c']> m).
Proof.
  intros Hok Hp H. unfold Clnt_makeEnd in H. destruct (c_ends c !! server) as [e0|] eqn:Hs.
  { simpl in H. injection H as <- <-. by rewrite insert_id. }
  unfold MakeEnd in H. case_bool_decide as Hin; [done|]. cbn in H. injection H as <- <-. destruct Hok as [Hb Ho Hi Ha].
  assert (forall q x srv e, <[p := MkClnt (<[server := name]> (c_ends c)) (c_srvs c)]> m !! q = Some x -> c_ends x !! srv = Some e ->
    q = p /\ srv = server /\ e = name \/ e <> name /\ exists y, m !! q = Some y /\ c_ends y !! srv = Some e) as Hback.
  { assert (forall q y srv e, m !! q = Some y -> c_ends y !! srv = Some e -> e <> name) as Hnew by (intros * Hq Hy ->; by apply Hin, (Ho _ _ _ _ Hq Hy)).
    intros q x srv e [[<- <-]|[_ Hq]]%lookup_insert_Some Hx; [|right; eauto].
    simpl in Hx. apply lookup_insert_Some in Hx as [[<- <-]|[_ Hx]]; [by left|right; eauto]. }
  constructor; simpl.
  - set_solver.
  - intros q x srv e Hq Hx. destruct (Hback q x srv e Hq Hx) as [(-> & -> & ->)|(Hne & y & Hy & Hye)].
    + split; [set_solver|]. intros Hbase. apply Hin. set_solver.
    + destruct (Ho q y srv e Hy Hye). set_solver.
  - intros q x srv q' x' srv' e Hq Hx Hq' Hx'.
    destruct (Hback q x srv e Hq Hx) as [(-> & -> & ->)|(Hne & y & Hy & Hye)], (Hback q' x' srv' _ Hq' Hx') as [(-> & -> & Heq)|(Hne' & y' & Hy' & Hye')];
      try done. by eapply Hi.
  - intros e He. destruct (decide (e = name)) as [->|Hne].
    + right. exists p, (MkClnt (<[server := name]> (c_ends c)) (c_srvs c)), server. by rewrite lookup_insert_eq; simpl; rewrite lookup_insert_eq.
    + destruct (Ha e) as [?|(q & x & srv & Hq & Hx)]; [set_solver|by left|]. right. destruct (decide (q = p)) as [->|Hqp].
      * exists p, (MkClnt (<[server := name]> (c_ends c)) (c_srvs c)), srv. rewrite lookup_insert_eq. simpl. split; [done|].
        rewrite lookup_insert_ne; [congruence|]. intros ->. congruence.
      * exists q, x, srv. by rewrite lookup_insert_ne.
Qed.

(** *** Removing ends *)

Lemma remove_ends_spec rn es : NoDup es -> (forall e, e ∈ es -> e ∈ ends rn) ->
  exists rn', remove_ends rn es = Some rn' /\ ends rn' = ends rn ∖ list_to_set es.
Proof.
  induction es as [|e es IH]; intros Hnd Hin; [exists rn; split; [done|set_solver]|]. apply NoDup_cons in Hnd as [He Hnd].
  destruct IH as (rn' & Hr & Hends); [done|set_solver|]. unfold remove_ends in *. cbn [foldr]. rewrite Hr. cbn [mbind option_bind]. unfold DeleteEnd.
  rewrite bool_decide_eq_true_2 by (rewrite Hends; assert (e ∈ ends rn) by (apply Hin; by left); set_solver). simpl. eexists. split; [done|]. simpl.
  rewrite Hends. set_solver.
Qed.

Lemma ends_ok_remove rn m p c : ends_ok rn m -> m !! p = Some c -> exists rn', Clnt_remove rn c = Some rn' /\ ends_ok rn' (delete p m).
Proof.
  intros [Hb Ho Hi Ha] Hp. assert (forall e, e ∈ (map_to_list (c_ends c)).*2 <-> exists srv, c_ends c !! srv = Some e) as Hel.
  { intros e. rewrite list_elem_of_fmap. split.
    - intros ([srv x] & -> & Hx%elem_of_map_to_list). eauto.
    - intros [srv Hx]. exists (srv, e). by rewrite elem_of_map_to_list. }
  destruct (remove_ends_spec rn (map_to_list (c_ends c)).*2) as (rn' & Hr & He).
  - apply NoDup_fmap_2_strong; [|apply NoDup_map_to_list]. intros [s1 e1] [s2 e2] H1%elem_of_map_to_list H2%elem_of_map_to_list [= ->].
    by destruct (Hi p c s1 p c s2 e2 Hp H1 Hp H2) as [_ ->].
  - intros e [srv Hx]%Hel. by eapply Ho.
  - exists rn'. split; [done|]. constructor; rewrite ?He.
    + intros e Hbe. apply elem_of_difference. split; [by apply Hb|]. rewrite elem_of_list_to_set, Hel. intros [srv Hx]. by apply (Ho p c srv e Hp Hx).
    + intros q x srv e [Hne Hq]%lookup_delete_Some Hx. destruct (Ho q x srv e Hq Hx) as [Hin Hnb]. split; [|done].
      apply elem_of_difference. split; [done|]. rewrite elem_of_list_to_set, Hel. intros [srv' Hx']. by destruct (Hi p c srv' q x srv e Hp Hx' Hq Hx).
    + intros q x srv q' x' srv' e [Hne Hq]%lookup_delete_Some Hx [Hne' Hq']%lookup_delete_Some Hx'. by eapply Hi.
    + intros e [Hin Hnot]%elem_of_difference. rewrite elem_of_list_to_set, Hel in Hnot. destruct (Ha e Hin) as [?|(q & x & srv & Hq & Hx)]; [by left|].
      right. exists q, x, srv. split; [|done]. apply lookup_delete_Some. split; [|done]. intros ->. apply Hnot. exists srv. congruence.
Qed.

Lemma ends_ok_new rn m p to : ends_ok rn m -> m !! p = None -> ends_ok rn (<[p := makeClntTo to]> m).
Proof.
  intros [Hb Ho Hi Ha] Hp.
  assert (forall q x srv e, <[p := makeClntTo to]> m !! q = Some x -> c_ends x !! srv = Some e -> m !! q = Some x) as Hback
    by (by intros q x srv e [[_ <-]|[_ ?]]%lookup_insert_Some).
  constructor; [done| | |].
  - intros q x srv e Hq Hx. by eapply Ho; [eapply Hback|].
  - intros q x srv q' x' srv' e Hq Hx Hq' Hx'. eapply Hi; [by eapply Hback|done|by eapply Hback|done].
  - intros e [?|(q & x & srv & Hq & Hx)]%Ha; [by left|]. right. exists q, x, srv. rewrite lookup_insert_ne; [done|]. intros ->. congruence.
Qed.

End Ends.

(** The operations of the tester's clients keep the bookkeeping of the ends. *)
Lemma clnts_op_ok base rn m op rn' cs' : ends_ok base rn m -> clnts_op (rn, MkClnts (Some m)) op = Some (rn', cs') ->
  exists m', clerks cs' = Some m' /\ ends_ok base rn' m'.
Proof.
  assert (forall p f rn1 cs1, at_clnt rn (MkClnts (Some m)) p f = Some (rn1, cs1) -> ends_ok base rn m ->
    (forall c rn2 c2, m !! p = Some c -> f c = Some (rn2, c2) -> ends_ok base rn2 (<[p := c2]> m)) ->
    exists m', clerks cs1 = Some m' /\ ends_ok base rn1 m') as Hat.
  { intros p f rn1 cs1 H Hok Hf. unfold at_clnt in H. cbn [clerks mbind option_bind] in H. destruct (m !! p) as [c|] eqn:Hp.
    - destruct (f c) as [[rn2 c2]|] eqn:Hc; [|done]. cbn in H. injection H as <- <-. eauto.
    - injection H as <- <-. eauto. }
  intros Hok H. destruct op as [p to|p|p server name|p|p to|p server|p]; cbn [clnts_op] in H.
  - simpl in H. case_bool_decide as Hin; injection H as <- <-; [by exists m|]. eexists. split; [done|]. apply ends_ok_new; [done|]. by apply eq_None_not_Some.
  - unfold DeleteClient in H. simpl in H. destruct (m !! p) as [c|] eqn:Hp; [|injection H as <- <-; by exists m].
    destruct (ends_ok_remove base rn m p c Hok Hp) as (rn1 & Hr & Hok1). rewrite Hr in H. cbn in H. injection H as <- <-. by eexists.
  - apply (Hat _ _ _ _ H Hok). intros c rn2 c2 Hp Hc. by eapply ends_ok_call.
  - apply (Hat _ _ _ _ H Hok). intros c rn2 c2 Hp [= <- <-]. by eapply ends_ok_same; [..|apply enable_all_ends].
  - apply (Hat _ _ _ _ H Hok). intros c rn2 c2 Hp [= <- <-]. by eapply ends_ok_same; [..|apply enable_all_ends].
  - apply (Hat _ _ _ _ H Hok). intros c rn2 c2 Hp [= <- <-]. by eapply ends_ok_same; [..|apply enable_all_ends].
  - apply (Hat _ _ _ _ H Hok). intros c rn2 c2 Hp [= <- <-]. by eapply ends_ok_same; [..|apply enable_all_ends].
Qed.

Lemma remove_all_ok base l rn m : ends_ok base rn m -> l ≡ₚ (map_to_list m).*2 ->
  exists rn', remove_all rn l = Some rn' /\ ends rn' = base.
Proof.
  revert rn m. induction l as [|c l IH]; intros rn m Hok Hl.
  - exists rn. split; [done|]. assert (m = ∅) as ->. { apply map_to_list_empty_iff. apply Permutation_nil in Hl. by apply fmap_nil_inv in Hl. }
    apply set_eq. intros e. split; [|apply (eo_base _ _ _ Hok)]. by intros [?|(p & c & srv & Hp & _)]%(eo_all _ _ _ Hok).
  - assert (c ∈ (map_to_list m).*2) as Hc by (rewrite <-Hl; apply list_elem_of_here).
    apply list_elem_of_fmap in Hc as ([p c'] & Heq & Hp). simpl in Heq. subst c'. apply elem_of_map_to_list in Hp.
    destruct (ends_ok_remove base rn m p c Hok Hp) as (rn1 & Hr & Hok1). destruct (IH rn1 (delete p m) Hok1) as (rn2 & Hr2 & He).
    + rewrite <-(map_to_list_delete m p c Hp) in Hl. simpl in Hl. by apply Permutation_cons_inv in Hl.
    + exists rn2. split; [|done]. cbn [remove_all]. by rewrite Hr.
Qed.

(** Clients leave nothing behind.  After any calls, connections,
    disconnections, creations and deletions of clients, cleaning up deletes
    every end that a client made, each once (deleting one twice would end the
    test), and no other end of the network. *)
Theorem cleanup_removes_client_ends (rn0 : Network) (ops : list ClntsOp) (rn : Network) (cs : Clnts) :
  clnts_ops (rn0, makeClnts) ops = Some (rn, cs) ->
  exists rn', clnts_cleanup rn cs = Some (rn', MkClnts None) /\ ends rn' = ends rn0.
Proof.
  intros H. assert (exists m, clerks cs = Some m /\ ends_ok (ends rn0) rn m) as (m & Hm & Hok).
  { assert (exists m, clerks makeClnts = Some m /\ ends_ok (ends rn0) rn0 m) as Hinit by (exists ∅; split; [done|]; constructor; set_solver).
    revert H Hinit. generalize rn0 at 1 3, makeClnts. induction ops as [|op ops IH]; intros rn1 cs1 H (m & Hm & Hok); cbn [clnts_ops] in H.
    - injection H as <- <-. eauto.
    - destruct (clnts_op (rn1, cs1) op) as [[rn2 cs2]|] eqn:H1; [|done]. cbn in H. apply (IH rn2 cs2 H). destruct cs1 as [o]. simpl in Hm. subst o.
      by eapply clnts_op_ok. }
  destruct (remove_all_ok (ends rn0) (map_to_list m).*2 rn m Hok) as (rn' & Hr & He); [done|]. exists rn'.
  unfold clnts_cleanup. rewrite Hm. cbn [default]. simpl. rewrite Hr. done.
Qed.

(** ** Witnesses *)

Definition three_boots : list Boot :=
  [MkBoot ["a0"; "a1"; "a2"] 11 true; MkBoot ["b0"; "b1"; "b2"] 12 true; MkBoot ["c0"; "c1"; "c2"] 13 true].

Lemma StartServers_ready_witness : exists rn' sg',
  StartServers (fst three_servers) (snd three_servers) three_boots = Some (rn', sg') /\ link rn' sg' 2 0 = true.
Proof.
  destruct (StartServers_ready 0 three_names three_ops three_boots (fst three_servers) (snd three_servers) 3) as (rn' & sg' & H & Hl & _).
  - reflexivity.
  - apply (bool_decide_unpack _). vm_compute. exact I.
  - repeat constructor.
  - vm_compute. reflexivity.
  - reflexivity.
  - repeat constructor.
  - apply (bool_decide_unpack _). vm_compute. exact I.
  - assert (Forall (fun e => e ∉ ends (fst three_servers)) (concat (b_names <$> three_boots))) as Hf;
      [apply (bool_decide_unpack _); vm_compute; exact I|exact (proj1 (Forall_forall _ _) Hf)].
  - exists rn', sg'. split; [exact H|]. apply (Hl 2%nat 0%nat); lia.
Defined.

(** Two clients, one of them deleted; an end of the network that is not
    theirs stays. *)
Definition two_clients : list ClntsOp :=
  [OpNew 0 None; OpNew 1 (Some ["server-0-0"]); OpCall 0 "server-0-0" "x"; OpCall 1 "server-0-1" "y"; OpCall 0 "server-0-1" "z";
   OpDisconnectAll 0; OpDelete 1; OpCall 0 "server-0-0" "w"].

Definition one_end : Network := default MakeNetwork (Clnts_makeEnd MakeNetwork "server-0-0" "own").

Definition two_clients_end : Network * Clnts := Eval vm_compute in default (MakeNetwork, makeClnts) (clnts_ops (one_end, makeClnts) two_clients).

Lemma cleanup_removes_client_ends_witness : ends (fst two_clients_end) = {["own"; "x"; "z"]} /\
  exists rn', clnts_cleanup (fst two_clients_end) (snd two_clients_end) = Some (rn', MkClnts None) /\ ends rn' = ends one_end.
Proof.
  split; [apply (bool_decide_unpack _); vm_compute; exact I|]. apply (cleanup_removes_client_ends one_end two_clients). vm_compute. reflexivity.
Defined.
