(* ===== verification/Annotation.v ===== *)
(** * Annotations of a test (src/tester1/annotation.go, annotator.go)

    A test records what happens to its servers for a visualization: points,
    intervals, and per tag at most one continuous annotation that lasts until
    it is replaced or ended; and it keeps the state of the servers, connected
    and crashed, to describe faults.  A timestamp is an argument of the
    operations that read the clock; the nil pointer before the first test and
    indices out of range are [None]; what [cleanup] writes is its result.

    The theorems: the fault annotation that is shown always describes the
    current state of the servers; the continuous annotations of a tag never
    overlap; and two places where the code does not do what its comments say. *)

From stdpp Require Import pretty.
From S2P Require Import Prelude.

(** ** Data *)

(** porcupine.Annotation; a field that is not set has its zero value. *)
Record PAnnotation : Type := MkPAnnotation {
  Tag : string;
  Start : Z;
  End_ : Z;
  Description : string;
  Details : string;
  BackgroundColor : string;
}.

Record Continuous : Type := MkContinuous { start : Z; desp : string; details : string; bgcolor : string }.

Record Annotation : Type := MkAnnotation {
  annotations : list PAnnotation;
  continuous : gmap string Continuous;
  finalized : bool;
}.

Record CheckerBegin : Type := MkCheckerBegin { ts : Z; ck_details : string }.

Record FrameworkInfo : Type := MkFrameworkInfo {
  nservers : nat;
  connected : list bool;
  crashed : list bool;
  ckbegin : CheckerBegin;
}.

Definition COLOR_INFO : string := "#FAFAFA".
Definition COLOR_NEUTRAL : string := "#FFECB3".
Definition COLOR_SUCCESS : string := "#C8E6C9".
Definition COLOR_FAILURE : string := "#FFCDD2".
Definition COLOR_FAULT : string := "#B3E5FC".
Definition COLOR_USER : string := "#FFF176".

Definition TAG_CHECKER : string := "$ Checker".
Definition TAG_PARTITION : string := "$ Failure".
Definition TAG_INFO : string := "$ Test Info".

(** The global variables [annotation] and [finfo]. *)
Record World : Type := MkWorld { annotation : Annotation; finfo : option FrameworkInfo }.

(** ** The methods of Annotation; [t] is the time *)

Definition mkAnnotation : Annotation := MkAnnotation [] ∅ false.

Definition record_ (an : Annotation) (a : PAnnotation) : Annotation :=
  MkAnnotation (annotations an ++ [a]) (continuous an) (finalized an).

Definition annotatePointColor (an : Annotation) (t : Z) (tag desp details bgcolor : string) : Annotation :=
  record_ an (MkPAnnotation tag t 0 desp details bgcolor).

Definition annotateIntervalColor (an : Annotation) (t : Z) (tag : string) (start : Z) (desp details bgcolor : string) : Annotation :=
  record_ an (MkPAnnotation tag start t desp details bgcolor).

(** A continuous annotation that ends at [t]. *)
Definition concretize (tag : string) (c : Continuous) (t : Z) : PAnnotation :=
  MkPAnnotation tag (start c) t (desp c) (details c) (bgcolor c).

Definition annotateContinuousColor (an : Annotation) (t : Z) (tag desp details bgcolor : string) : Annotation :=
  let an := match continuous an !! tag with
            | Some cont => record_ an (concretize tag cont t)
            | None => an
            end in
  MkAnnotation (annotations an) (<[tag := MkContinuous t desp details bgcolor]> (continuous an)) (finalized an).

(** The zero value of the map's type when there is nothing to end. *)
Definition annotateContinuousEnd (an : Annotation) (t : Z) (tag : string) : Annotation :=
  let cont := default (MkContinuous 0 "" "" "") (continuous an !! tag) in
  let an := record_ an (concretize tag cont t) in
  MkAnnotation (annotations an) (delete tag (continuous an)) (finalized an).

Definition finalize (an : Annotation) (t : Z) : Annotation * list PAnnotation :=
  (MkAnnotation (annotations an) (continuous an) true,
   annotations an ++ ((fun x => concretize (fst x) (snd x) t) <$> map_to_list (continuous an))).

Definition clear (an : Annotation) : Annotation := MkAnnotation [] ∅ false.

Definition end_mark (t : Z) (text : string) : PAnnotation := MkPAnnotation TAG_INFO t 0 text text COLOR_INFO.

(** [enabled] is the environment variable VIS_ENABLE, [t] and [t'] are the two
    times it reads; the result is what goes
    to the visualization, if anything does. *)
Definition cleanup (an : Annotation) (t t' : Z) (failed : bool) (enabled text : string) : Annotation * option (list PAnnotation) :=
  if String.eqb enabled "never" || (negb failed && negb (String.eqb enabled "always")) || finalized an then (clear an, None)
  else
    let '(an, l) := finalize an t in
    match l with
    | [] => (an, None)
    | _ => (an, Some (l ++ [end_mark t' text]))
    end.

(** ** The functions of the package *)

Definition with_annotation (w : World) (an : Annotation) : World := MkWorld an (finfo w).

Definition FinalizeAnnotations (w : World) (t t' : Z) (text : string) : World * list PAnnotation :=
  let '(an, l) := finalize (annotation w) t in (with_annotation w an, l ++ [end_mark t' text]).

Definition AnnotatePointColor (w : World) (t : Z) (tag desp details bgcolor : string) : World :=
  with_annotation w (annotatePointColor (annotation w) t tag desp details bgcolor).
Definition AnnotateIntervalColor (w : World) (t : Z) (tag : string) (start : Z) (desp details bgcolor : string) : World :=
  with_annotation w (annotateIntervalColor (annotation w) t tag start desp details bgcolor).
Definition AnnotateContinuousColor (w : World) (t : Z) (tag desp details bgcolor : string) : World :=
  with_annotation w (annotateContinuousColor (annotation w) t tag desp details bgcolor).
Definition AnnotateContinuousEnd (w : World) (t : Z) (tag : string) : World :=
  with_annotation w (annotateContinuousEnd (annotation w) t tag).

Definition AnnotatePoint (w : World) (t : Z) (tag desp details : string) : World := AnnotatePointColor w t tag desp details COLOR_USER.
Definition AnnotateInterval (w : World) (t : Z) (tag : string) (start : Z) (desp details : string) : World :=
  AnnotateIntervalColor w t tag start desp details COLOR_USER.
Definition AnnotateContinuous (w : World) (t : Z) (tag desp details : string) : World :=
  AnnotateContinuousColor w t tag desp details COLOR_USER.
Definition AnnotateInfo (w : World) (t : Z) (desp details : string) : World := AnnotatePointColor w t TAG_INFO desp details COLOR_INFO.
Definition AnnotateInfoInterval (w : World) (t : Z) (start : Z) (desp details : string) : World :=
  AnnotateIntervalColor w t TAG_INFO start desp details COLOR_INFO.

Definition mkFrameworkInfo (nservers : nat) : FrameworkInfo :=
  MkFrameworkInfo nservers (replicate nservers true) (replicate nservers false) (MkCheckerBegin 0 "").

Definition AnnotateTest (w : World) (t : Z) (desp : string) (nservers : nat) : World :=
  let details := desp +:+ " (" +:+ pretty (N.of_nat nservers) +:+ " servers)" in
  AnnotateInfo (MkWorld (clear (annotation w)) (Some (mkFrameworkInfo nservers))) t details details.

Definition AnnotateCheckerBegin (w : World) (t : Z) (details : string) : option World :=
  fi ← finfo w;
  Some (MkWorld (annotation w) (Some (MkFrameworkInfo (nservers fi) (connected fi) (crashed fi) (MkCheckerBegin t details)))).

(** The assignment [ckbegin.ts = 0] at the end changes a copy. *)
Definition AnnotateCheckerEnd (w : World) (t : Z) (desp details color : string) : option World :=
  fi ← finfo w;
  let ckbegin := ckbegin fi in
  if ts ckbegin =? 0 then Some (AnnotatePointColor w t TAG_CHECKER desp details color)
  else Some (AnnotateIntervalColor w t TAG_CHECKER (ts ckbegin) desp (ck_details ckbegin +:+ ": " +:+ details) color).

Definition AnnotateCheckerSuccess (w : World) (t : Z) (desp details : string) : option World := AnnotateCheckerEnd w t desp details COLOR_SUCCESS.
Definition AnnotateCheckerFailure (w : World) (t : Z) (desp details : string) : option World := AnnotateCheckerEnd w t desp details COLOR_FAILURE.
Definition AnnotateCheckerNeutral (w : World) (t : Z) (desp details : string) : option World := AnnotateCheckerEnd w t desp details COLOR_NEUTRAL.

Definition AnnotateCheckerFailureBeforeExit (w : World) (t t' t'' : Z) (enabled desp details : string) : option (World * option (list PAnnotation)) :=
  w ← AnnotateCheckerFailure w t desp details;
  let '(an, out) := cleanup (annotation w) t' t'' true enabled "test failed" in
  Some (with_annotation w an, out).

Definition SetAnnotationFinalized (w : World) : World :=
  with_annotation w (MkAnnotation (annotations (annotation w)) (continuous (annotation w)) true).
Definition GetAnnotationFinalized (w : World) : bool := finalized (annotation w).

(** *** Faults *)

(** [fmt.Sprintf("%v", l)] of a slice of integers. *)
Fixpoint spaced (l : list nat) : string :=
  match l with [] => "" | [x] => pretty (N.of_nat x) | x :: l => pretty (N.of_nat x) +:+ " " +:+ spaced l end.
Definition ints (l : list nat) : string := "[" +:+ spaced l +:+ "]".

(** The loop of [annotateFault] over the servers from [id] on: the connected
    ones, the crashed ones, and the text of those cut off. *)
Fixpoint fault_loop (id : nat) (connected : list bool) (crashed : list bool) (conn crashes : list nat) (text : string)
    : option (list nat * list nat * string) :=
  match connected with
  | [] => Some (conn, crashes, text)
  | c :: connected =>
      match crashed !! id with
      | None => None
      | Some true => fault_loop (S id) connected crashed conn (crashes ++ [id]) text
      | Some false =>
          if c : bool then fault_loop (S id) connected crashed (conn ++ [id]) crashes text
          else fault_loop (S id) connected crashed conn crashes (text +:+ "[" +:+ pretty (N.of_nat id) +:+ "] ")
      end
  end.

Definition fault_text (fi : FrameworkInfo) : option string :=
  '(conn, crashes, text) ← fault_loop 0 (connected fi) (crashed fi) [] [] "partition = ";
  let text := match conn with [] => text | _ => text +:+ ints conn end in
  Some (match crashes with [] => text | _ => text +:+ " / crash = " +:+ ints crashes end).

Definition no_fault (fi : FrameworkInfo) : bool :=
  bool_decide (replicate (nservers fi) true = connected fi) && bool_decide (replicate (nservers fi) false = crashed fi).

Definition annotateFault (w : World) (t : Z) : option World :=
  fi ← finfo w;
  if no_fault fi then Some (AnnotateContinuousEnd w t TAG_PARTITION)
  else text ← fault_text fi; Some (AnnotateContinuousColor w t TAG_PARTITION text text COLOR_FAULT).

(** [copy(dst, src)] *)
Definition copy (dst src : list bool) : list bool := take (length dst) src ++ drop (length src) dst.

Definition AnnotateConnection (w : World) (t : Z) (connection : list bool) : option World :=
  fi ← finfo w;
  if bool_decide (connected fi = connection) then Some w
  else annotateFault (MkWorld (annotation w) (Some (MkFrameworkInfo (nservers fi) (copy (connected fi) connection) (crashed fi) (ckbegin fi)))) t.

Definition AnnotateTwoPartitions (w : World) (t : Z) (p1 p2 : list nat) : World :=
  let text := "partition = " +:+ ints p1 +:+ " " +:+ ints p2 in
  AnnotateContinuousColor w t TAG_PARTITION text text COLOR_FAULT.

Definition AnnotateClearFailure (w : World) (t : Z) : option World :=
  fi ← finfo w;
  Some (AnnotateContinuousEnd
    (MkWorld (annotation w) (Some (MkFrameworkInfo (nservers fi) (replicate (length (connected fi)) true) (replicate (length (crashed fi)) false) (ckbegin fi))))
    t TAG_PARTITION).

(** The loops of AnnotateShutdown and AnnotateRestart: set the flags of the
    servers to [to], and tell whether one of them was different. *)
Fixpoint set_crashed (crashed : list bool) (servers : list nat) (to changed : bool) : option (list bool * bool) :=
  match servers with
  | [] => Some (crashed, changed)
  | id :: servers => old ← crashed !! id; set_crashed (<[id := to]> crashed) servers to (changed || xorb old to)
  end.

Definition crash_or_restart (w : World) (t : Z) (servers : list nat) (to : bool) : option World :=
  fi ← finfo w;
  '(cr, changed) ← set_crashed (crashed fi) servers to false;
  let w := MkWorld (annotation w) (Some (MkFrameworkInfo (nservers fi) (connected fi) cr (ckbegin fi))) in
  if negb changed then Some w else annotateFault w t.

Definition AnnotateShutdown (w : World) (t : Z) (servers : list nat) : option World := crash_or_restart w t servers true.
Definition AnnotateRestart (w : World) (t : Z) (servers : list nat) : option World := crash_or_restart w t servers false.
Definition AnnotateShutdownAll (w : World) (t : Z) : option World := fi ← finfo w; AnnotateShutdown w t (seq 0 (nservers fi)).
Definition AnnotateRestartAll (w : World) (t : Z) : option World := fi ← finfo w; AnnotateRestart w t (seq 0 (nservers fi)).

(** ** RPCs of the servers (annotator.go) *)

Record PostAnnotatorPointArgs : Type := MkPointArgs { pp_Tag : string; pp_Desp : string; pp_Details : string }.
Record PostAnnotatorInfoIntervalArgs : Type := MkIntervalArgs { pi_Start : Z; pi_Desp : string; pi_Details : string }.

Definition PostAnnotatorPoint (w : World) (t : Z) (args : PostAnnotatorPointArgs) : World :=
  AnnotatePoint w t (pp_Tag args) (pp_Desp args) (pp_Details args).
Definition PostAnnotatorInfoInterval (w : World) (t : Z) (args : PostAnnotatorInfoIntervalArgs) : World :=
  AnnotateInfoInterval w t (pi_Start args) (pi_Desp args) (pi_Details args).

(** ** The fault annotation *)

Inductive AOp : Type :=
| OCheckerBegin (details : string)
| OCheckerEnd (desp details color : string)
| OConnection (connection : list bool)
| OTwoPartitions (p1 p2 : list nat)
| OClearFailure
| OShutdown (servers : list nat)
| OShutdownAll
| ORestart (servers : list nat)
| ORestartAll
| OPoint (tag desp details color : string)
| OInterval (tag : string) (start : Z) (desp details color : string)
| OContinuous (tag desp details color : string)
| OContinuousEnd (tag : string).

Definition aop (w : World) (t : Z) (op : AOp) : option World :=
  match op with
  | OCheckerBegin details => AnnotateCheckerBegin w t details
  | OCheckerEnd desp details color => AnnotateCheckerEnd w t desp details color
  | OConnection connection => AnnotateConnection w t connection
  | OTwoPartitions p1 p2 => Some (AnnotateTwoPartitions w t p1 p2)
  | OClearFailure => AnnotateClearFailure w t
  | OShutdown servers => AnnotateShutdown w t servers
  | OShutdownAll => AnnotateShutdownAll w t
  | ORestart servers => AnnotateRestart w t servers
  | ORestartAll => AnnotateRestartAll w t
  | OPoint tag desp details color => Some (AnnotatePointColor w t tag desp details color)
  | OInterval tag start desp details color => Some (AnnotateIntervalColor w t tag start desp details color)
  | OContinuous tag desp details color => Some (AnnotateContinuousColor w t tag desp details color)
  | OContinuousEnd tag => Some (AnnotateContinuousEnd w t tag)
  end.

Fixpoint arun (w : World) (ops : list (Z * AOp)) : option World :=
  match ops with
  | [] => Some w
  | (t, op) :: ops => w ← aop w t op; arun w ops
  end.

Section Faults.
Variable n : nat.
Implicit Types (w : World) (fi : FrameworkInfo) (c : list bool) (D : gset nat).

(** The state of the servers as a test means it: who is connected, who is
    down. *)
Definition faults_after (st : list bool * gset nat) (op : AOp) : list bool * gset nat :=
  let '(c, D) := st in
  match op with
  | OConnection connection => (copy c connection, D)
  | OClearFailure => (replicate n true, ∅)
  | OShutdown servers => (c, D ∪ list_to_set servers)
  | OShutdownAll => (c, list_to_set (seq 0 n))
  | ORestart servers => (c, D ∖ list_to_set servers)
  | ORestartAll => (c, ∅)
  | _ => st
  end.

(** Operations on servers that exist; the tag of faults is the framework's,
    and the simple and the two-sided description of partitions are not
    mixed. *)
Definition plain (op : AOp) : Prop :=
  match op with
  | OShutdown servers | ORestart servers => Forall (fun id => (id < n)%nat) servers
  | OContinuous tag _ _ _ | OContinuousEnd tag => tag <> TAG_PARTITION
  | OTwoPartitions _ _ => False
  | _ => True
  end.

Definition flags D : list bool := (fun id => bool_decide (id ∈ D)) <$> seq 0 n.

(** What is shown for a state of the servers: nothing without a fault. *)
Definition shown fi : option string := if no_fault fi then None else fault_text fi.

Record info_ok fi c D : Prop := {
  io_n : nservers fi = n;
  io_connected : connected fi = c;
  io_len : length c = n;
  io_crashed : crashed fi = flags D;
  io_down : forall id, id ∈ D -> (id < n)%nat;
}.

Record world_ok w c D : Prop := {
  wo_info : exists fi, finfo w = Some fi /\ info_ok fi c D /\ desp <$> continuous (annotation w) !! TAG_PARTITION = shown fi;
}.

Lemma fault_loop_total id c (cr : list bool) conn crashes text : (id + length c <= length cr)%nat ->
  is_Some (fault_loop id c cr conn crashes text).
Proof.
  revert id conn crashes text. induction c as [|b c IH]; intros id conn crashes text Hl; cbn [fault_loop length] in *; [eauto|].
  destruct (lookup_lt_is_Some_2 cr id) as [[] ->]; [lia|apply IH; lia|]. destruct b; apply IH; lia.
Qed.

Lemma fault_text_total fi c D : info_ok fi c D -> is_Some (fault_text fi).
Proof.
  intros Hi. unfold fault_text. destruct (fault_loop_total 0 (connected fi) (crashed fi) [] [] "partition = ") as [[[conn crashes] text] ->].
  - rewrite (io_connected _ _ _ Hi), (io_len _ _ _ Hi), (io_crashed _ _ _ Hi). unfold flags. rewrite length_fmap, length_seq. lia.
  - cbn [mbind option_bind]. eauto.
Qed.

Lemma annotateFault_ok w t fi c D : finfo w = Some fi -> info_ok fi c D ->
  exists w', annotateFault w t = Some w' /\ world_ok w' c D.
Proof.
  intros Hw Hi. unfold annotateFault. rewrite Hw. cbn [mbind option_bind]. destruct (no_fault fi) eqn:Hn.
  - eexists. split; [done|]. constructor. exists fi. split_and!; [done|done|]. simpl. rewrite lookup_delete_eq. unfold shown. by rewrite Hn.
  - destruct (fault_text_total fi c D Hi) as [text Ht]. rewrite Ht. cbn [mbind option_bind]. eexists. split; [done|]. constructor. exists fi.
    split_and!; [done|done|]. unfold shown. rewrite Hn, Ht. simpl. unfold annotateContinuousColor.
    destruct (continuous (annotation w) !! TAG_PARTITION); simpl; by rewrite lookup_insert_eq.
Qed.

Lemma flags_lookup D id : (id < n)%nat -> flags D !! id = Some (bool_decide (id ∈ D)).
Proof. intros Hlt. unfold flags. rewrite list_lookup_fmap. by rewrite (proj2 (lookup_seq 0 n id id)) by lia. Qed.

Lemma flags_empty : replicate n false = flags ∅.
Proof.
  apply replicate_as_elem_of. unfold flags. rewrite length_fmap, length_seq. split; [done|].
  intros b (id & -> & _)%list_elem_of_fmap. apply bool_decide_eq_false. set_solver.
Qed.

Lemma flags_insert D id (b : bool) : (id < n)%nat -> <[id := b]> (flags D) = flags (if b then {[id]} ∪ D else D ∖ {[id]}).
Proof.
  intros Hlt. assert (forall D, length (flags D) = n) as Hlen by (intros D'; unfold flags; by rewrite length_fmap, length_seq).
  apply list_eq. intros j. destruct (decide (j < n)%nat) as [Hj|Hj].
  - rewrite (flags_lookup _ j Hj). destruct (decide (j = id)) as [->|Hne].
    + rewrite list_lookup_insert_eq by (by rewrite Hlen). f_equal. destruct b; symmetry; [apply bool_decide_eq_true|apply bool_decide_eq_false]; set_solver.
    + rewrite list_lookup_insert_ne, flags_lookup by done. f_equal. apply bool_decide_ext. destruct b; set_solver.
  - rewrite !lookup_ge_None_2; rewrite ?length_insert, ?Hlen; [done|lia..].
Qed.

Lemma set_crashed_ok D servers (to ch : bool) : Forall (fun id => (id < n)%nat) servers ->
  exists ch', set_crashed (flags D) servers to ch = Some (flags (if to then D ∪ list_to_set servers else D ∖ list_to_set servers), ch') /\
    (ch' = false -> ch = false /\ flags (if to then D ∪ list_to_set servers else D ∖ list_to_set servers) = flags D).
Proof.
  intros Hl. revert D ch. induction Hl as [|id servers Hid Hl IH]; intros D ch; cbn [set_crashed].
  - exists ch. assert ((if to then D ∪ list_to_set [] else D ∖ list_to_set []) = D) as -> by (destruct to; set_solver). done.
  - rewrite (flags_lookup D id Hid). cbn [mbind option_bind]. rewrite (flags_insert D id to Hid).
    destruct (IH (if to then {[id]} ∪ D else D ∖ {[id]}) (ch || xorb (bool_decide (id ∈ D)) to)) as (ch' & Hs & Hch).
    assert ((if to then (if to then {[id]} ∪ D else D ∖ {[id]}) ∪ list_to_set servers else (if to then {[id]} ∪ D else D ∖ {[id]}) ∖ list_to_set servers)
      = (if to then D ∪ list_to_set (id :: servers) else D ∖ list_to_set (id :: servers))) as HD by (destruct to; set_solver).
    rewrite HD in Hs, Hch. exists ch'. split; [done|]. intros Hf. destruct (Hch Hf) as [[-> Hx]%orb_false_iff ->]. split; [done|].
    f_equal. apply xorb_eq in Hx. destruct to; [apply bool_decide_eq_true in Hx|apply bool_decide_eq_false in Hx]; set_solver.
Qed.

Lemma crash_or_restart_ok w t servers (to : bool) c D : world_ok w c D -> Forall (fun id => (id < n)%nat) servers ->
  exists w', crash_or_restart w t servers to = Some w' /\ world_ok w' c (if to then D ∪ list_to_set servers else D ∖ list_to_set servers).
Proof.
  intros [(fi & Hw & Hi & Hd)] Hl. unfold crash_or_restart. rewrite Hw. cbn [mbind option_bind]. rewrite (io_crashed _ _ _ Hi).
  destruct (set_crashed_ok D servers to false Hl) as (ch' & -> & Hch). cbn [mbind option_bind].
  assert (info_ok (MkFrameworkInfo (nservers fi) (connected fi) (flags (if to then D ∪ list_to_set servers else D ∖ list_to_set servers)) (ckbegin fi))
    c (if to then D ∪ list_to_set servers else D ∖ list_to_set servers)) as Hi'.
  { destruct Hi as [H1 H2 H3 H4 H5]. constructor; [done..|]. rewrite Forall_forall in Hl. intros id. destruct to; set_solver. }
  destruct ch'; cbn [negb]; [by eapply annotateFault_ok|]. destruct (Hch eq_refl) as [_ Heq]. eexists. split; [done|]. constructor.
  eexists. split_and!; [done|done|]. rewrite Heq. simpl. rewrite Hd. unfold shown, no_fault, fault_text. simpl. by rewrite (io_crashed _ _ _ Hi).
Qed.

(** An operation that neither changes the faults nor the fault annotation. *)
Lemma world_ok_same w w' c D : world_ok w c D -> finfo w' = finfo w ->
  continuous (annotation w') !! TAG_PARTITION = continuous (annotation w) !! TAG_PARTITION -> world_ok w' c D.
Proof. intros [(fi & Hw & Hi & Hd)] Hf Hc. constructor. exists fi. by rewrite Hf, Hc. Qed.

Lemma copy_length (dst src : list bool) : length (copy dst src) = length dst.
Proof. unfold copy. rewrite length_app, length_take, length_drop. lia. Qed.

Lemma copy_self (l : list bool) : copy l l = l.
Proof. unfold copy. rewrite firstn_all, drop_all. apply app_nil_r. Qed.

Lemma aop_ok w t op c D : world_ok w c D -> plain op ->
  exists w', aop w t op = Some w' /\ world_ok w' (fst (faults_after (c, D) op)) (snd (faults_after (c, D) op)).
Proof.
  intros Hok Hp. pose proof Hok as [(fi & Hw & Hi & Hd)].
  destruct op as [dt|d dt cl|l|p1 p2| |l| |l| |tag d dt cl|tag s d dt cl|tag d dt cl|tag]; cbn [aop faults_after fst snd plain] in *.
  - unfold AnnotateCheckerBegin. rewrite Hw. eexists. split; [done|]. constructor. eexists. split_and!; [done| |exact Hd]. by destruct Hi.
  - unfold AnnotateCheckerEnd. rewrite Hw. cbn [mbind option_bind]. destruct (_ =? _); (eexists; split; [done|]; by apply (world_ok_same w)).
  - unfold AnnotateConnection. rewrite Hw. cbn [mbind option_bind]. case_bool_decide as Heq.
    + exists w. split; [done|]. rewrite <-(io_connected _ _ _ Hi), <-Heq, copy_self, (io_connected _ _ _ Hi). done.
    + rewrite (io_connected _ _ _ Hi). eapply annotateFault_ok; [done|]. destruct Hi as [H1 H2 H3 H4 H5]. constructor; [done|done|by rewrite copy_length|done|done].
  - done.
  - unfold AnnotateClearFailure. rewrite Hw. eexists. split; [done|]. destruct Hi as [H1 H2 H3 H4 H5].
    assert (replicate (length (crashed fi)) false = flags ∅) as Hfl by (rewrite H4; unfold flags at 1; rewrite length_fmap, length_seq; apply flags_empty).
    constructor. eexists. split_and!; [done| |].
    + constructor; [done|simpl; congruence|by rewrite length_replicate|done|set_solver].
    + simpl. rewrite lookup_delete_eq. unfold shown, no_fault. simpl. rewrite Hfl, H1, H2, H3, <-flags_empty, !bool_decide_eq_true_2 by done. done.
  - by apply (crash_or_restart_ok w t l true).
  - unfold AnnotateShutdownAll. rewrite Hw. cbn [mbind option_bind]. rewrite (io_n _ _ _ Hi).
    destruct (crash_or_restart_ok w t (seq 0 n) true c D Hok) as (w' & Hr & Hok'); [apply Forall_forall; intros id ?%elem_of_seq; lia|].
    exists w'. split; [done|]. assert (D ∪ list_to_set (seq 0 n) = list_to_set (seq 0 n)) as <-; [|done].
    apply set_eq. intros id. rewrite elem_of_union, elem_of_list_to_set, elem_of_seq. split; [|auto]. intros [Hin|?]; [|done]. apply (io_down _ _ _ Hi) in Hin. lia.
  - by apply (crash_or_restart_ok w t l false).
  - unfold AnnotateRestartAll. rewrite Hw. cbn [mbind option_bind]. rewrite (io_n _ _ _ Hi).
    destruct (crash_or_restart_ok w t (seq 0 n) false c D Hok) as (w' & Hr & Hok'); [apply Forall_forall; intros id ?%elem_of_seq; lia|].
    exists w'. split; [done|]. assert (D ∖ list_to_set (seq 0 n) = ∅) as <-; [|done].
    apply set_eq. intros id. rewrite elem_of_difference, elem_of_list_to_set, elem_of_seq. split; [|set_solver]. intros [Hin Hx]. apply (io_down _ _ _ Hi) in Hin. lia.
  - eexists. split; [done|]. by apply (world_ok_same w).
  - eexists. split; [done|]. by apply (world_ok_same w).
  - eexists. split; [done|]. apply (world_ok_same w); [done|done|]. simpl. unfold annotateContinuousColor.
    destruct (continuous (annotation w) !! tag); simpl; by rewrite lookup_insert_ne.
  - eexists. split; [done|]. apply (world_ok_same w); [done|done|]. simpl. by rewrite lookup_delete_ne.
Qed.

Lemma arun_ok ops w c D : world_ok w c D -> Forall (fun x => plain (snd x)) ops ->
  exists w', arun w ops = Some w' /\
    world_ok w' (fst (foldl faults_after (c, D) (snd <$> ops))) (snd (foldl faults_after (c, D) (snd <$> ops))).
Proof.
  intros Hok Hops. revert w c D Hok. induction Hops as [|[t op] ops Hp Hops IH]; intros w c D Hok; cbn [arun fmap list_fmap foldl snd] in *; [eauto|].
  destruct (aop_ok w t op c D Hok Hp) as (w1 & Hw1 & Hok1). rewrite Hw1. cbn [mbind option_bind]. destruct (faults_after (c, D) op) as [c1 D1]. by apply IH.
Qed.

Lemma shown_spec fi c D : info_ok fi c D -> shown fi = if bool_decide (c = replicate n true) && bool_decide (D = ∅) then None else fault_text fi.
Proof.
  intros Hi. unfold shown, no_fault. rewrite (io_n _ _ _ Hi), (io_connected _ _ _ Hi), (io_crashed _ _ _ Hi).
  rewrite (bool_decide_ext (replicate n true = c) (c = replicate n true)), (bool_decide_ext (replicate n false = flags D) (D = ∅)); [done| |done].
  rewrite flags_empty. split; [|by intros ->]. intros Heq. apply set_eq. intros id. split; [|set_solver]. intros Hin.
  pose proof (io_down _ _ _ Hi id Hin) as Hlt. assert (flags ∅ !! id = flags D !! id) as Hid by congruence. rewrite !flags_lookup in Hid by done.
  injection Hid as Hid. rewrite (bool_decide_eq_true_2 (id ∈ D)) in Hid by done. apply bool_decide_eq_true in Hid. set_solver.
Qed.

(** The fault annotation describes the servers.  In a test of n
    servers, after any shutdowns, restarts, connections and disconnections of
    existing servers, and any other annotations, nothing panics; the recorded
    state is who was connected last and who is down; and the continuous
    annotation of faults is the description of exactly this state, or absent
    if all servers are up and connected. *)
Theorem fault_annotation_is_current (w0 : World) (t0 : Z) (name : string) (ops : list (Z * AOp)) :
  Forall (fun x => plain (snd x)) ops ->
  exists w fi, arun (AnnotateTest w0 t0 name n) ops = Some w /\ finfo w = Some fi /\
    let '(c, D) := foldl faults_after (replicate n true, ∅) (snd <$> ops) in
    connected fi = c /\ crashed fi = ((fun id => bool_decide (id ∈ D)) <$> seq 0 n) /\
    desp <$> continuous (annotation w) !! TAG_PARTITION =
      if bool_decide (c = replicate n true) && bool_decide (D = ∅) then None else fault_text fi.
Proof.
  intros Hops. assert (world_ok (AnnotateTest w0 t0 name n) (replicate n true) ∅) as Hok.
  { constructor. exists (mkFrameworkInfo n). split_and!; [done| |].
    - constructor; [done|done|apply length_replicate|apply flags_empty|set_solver].
    - simpl. rewrite lookup_empty. unfold shown, no_fault. simpl. by rewrite !bool_decide_eq_true_2. }
  destruct (arun_ok ops _ _ _ Hok Hops) as (w & Hw & [(fi & Hf & Hi & Hd)]). exists w, fi. split_and!; [done|done|].
  destruct (foldl faults_after _ _) as [c D]. split_and!; [apply Hi|apply Hi|]. by rewrite Hd, (shown_spec fi c D Hi).
Qed.

End Faults.

(** ** Continuous annotations of one tag *)

Inductive IOp : Type :=
| IPoint (tag desp details color : string)
| IInterval (tag : string) (start : Z) (desp details color : string)
| IContinuous (tag desp details color : string)
| IEnd (tag : string).

Definition iop (an : Annotation) (t : Z) (op : IOp) : Annotation :=
  match op with
  | IPoint tag desp details color => annotatePointColor an t tag desp details color
  | IInterval tag start desp details color => annotateIntervalColor an t tag start desp details color
  | IContinuous tag desp details color => annotateContinuousColor an t tag desp details color
  | IEnd tag => annotateContinuousEnd an t tag
  end.

Definition irun (an : Annotation) (ops : list (Z * IOp)) : Annotation := foldl (fun an x => iop an (fst x) (snd x)) an ops.

(** The clock does not go back, from [lo] to [hi]. *)
Fixpoint timed (lo : Z) (ops : list (Z * IOp)) (hi : Z) : Prop :=
  match ops with [] => lo <= hi | (t, _) :: ops => lo <= t /\ timed t ops hi end.

Section Tag.
Variable tag : string.

(** The tag is used for continuous annotations only, and ended only while one
    is going on. *)
Fixpoint proper (ongoing : bool) (ops : list (Z * IOp)) : Prop :=
  match ops with
  | [] => True
  | (_, op) :: ops =>
      match op with
      | IPoint tag' _ _ _ | IInterval tag' _ _ _ _ => tag' <> tag /\ proper ongoing ops
      | IContinuous tag' _ _ _ => proper (if bool_decide (tag' = tag) then true else ongoing) ops
      | IEnd tag' => if bool_decide (tag' = tag) then ongoing = true /\ proper false ops else proper ongoing ops
      end
  end.

Definition spans (l : list PAnnotation) : list (Z * Z) := (fun a => (Start a, End_ a)) <$> filter (fun a => Tag a = tag) l.

(** Intervals one after the other, between [lo] and [hi]. *)
Fixpoint ordered (lo : Z) (l : list (Z * Z)) (hi : Z) : Prop :=
  match l with [] => lo <= hi | (s, e) :: l => lo <= s <= e /\ ordered e l hi end.

Lemma ordered_mono lo l hi hi' : ordered lo l hi -> hi <= hi' -> ordered lo l hi'.
Proof. revert lo. induction l as [|[s e] l IH]; intros lo H Hle; simpl in *; [lia|]. destruct H as [? H]. split; [done|]. by apply IH. Qed.

Lemma ordered_snoc lo l s e : ordered lo l s -> s <= e -> ordered lo (l ++ [(s, e)]) e.
Proof.
  revert lo. induction l as [|[s' e'] l IH]; intros lo H Hle; simpl in *; [split; [lia|lia]|]. destruct H as [? H]. split; [done|]. by apply IH.
Qed.

Lemma spans_snoc l a : spans (l ++ [a]) = if decide (Tag a = tag) then spans l ++ [(Start a, End_ a)] else spans l.
Proof.
  unfold spans. rewrite filter_app, fmap_app. destruct (decide (Tag a = tag)) as [Heq|Hne].
  - by rewrite filter_cons_True, filter_nil.
  - by rewrite filter_cons_False, filter_nil, app_nil_r.
Qed.

(** At time [now]: the recorded intervals are ordered, and a continuous
    annotation that is going on started after them. *)
Definition tiled (lo : Z) (an : Annotation) (ongoing : bool) (now : Z) : Prop :=
  match continuous an !! tag with
  | Some c => ongoing = true /\ ordered lo (spans (annotations an)) (start c) /\ start c <= now
  | None => ongoing = false /\ ordered lo (spans (annotations an)) now
  end.

Lemma tiled_other lo an ongoing now now' l m f : tiled lo an ongoing now -> now <= now' -> m !! tag = continuous an !! tag ->
  spans l = spans (annotations an) -> tiled lo (MkAnnotation l m f) ongoing now'.
Proof.
  intros H Hle Hm Hs. unfold tiled in *. simpl. rewrite Hm, Hs. destruct (continuous an !! tag) as [c|]; destruct H as [-> H]; split; [done| |done|].
  - split; [apply H|lia].
  - by eapply ordered_mono.
Qed.

Lemma tiled_end lo an c now now' tag' d dt cl : tiled lo an true now -> now <= now' -> continuous an !! tag = Some c -> tag' = tag ->
  ordered lo (spans (annotations an ++ [MkPAnnotation tag' (start c) now' d dt cl])) now'.
Proof.
  intros H Hle Hc ->. unfold tiled in H. rewrite Hc in H. destruct H as (_ & Ho & Hs). rewrite spans_snoc, decide_True by done.
  simpl. apply ordered_snoc; [done|lia].
Qed.

Lemma irun_tiled lo ops an ongoing now hi : tiled lo an ongoing now -> proper ongoing ops -> timed now ops hi ->
  exists ongoing', tiled lo (irun an ops) ongoing' hi.
Proof.
  revert an ongoing now. induction ops as [|[t op] ops IH]; intros an ongoing now H Hp Ht; cbn [irun foldl timed proper fst snd] in *.
  { exists ongoing. destruct an. by eapply tiled_other. }
  destruct Ht as [Ht Hts]. fold (irun (iop an t op) ops).
  destruct op as [tag' d dt cl|tag' s d dt cl|tag' d dt cl|tag']; cbn [iop] in *.
  - destruct Hp as [Hne Hp]. eapply IH; [|exact Hp|exact Hts]. apply (tiled_other lo an ongoing now); [done..|]. by rewrite spans_snoc, decide_False.
  - destruct Hp as [Hne Hp]. eapply IH; [|exact Hp|exact Hts]. apply (tiled_other lo an ongoing now); [done..|]. by rewrite spans_snoc, decide_False.
  - eapply IH; [|exact Hp|exact Hts]. unfold annotateContinuousColor. case_bool_decide as Heq.
    + unfold tiled. destruct (continuous an !! tag') as [c|] eqn:Hc; simpl; rewrite Heq, lookup_insert_eq; simpl; (split; [done|split; [|lia]]).
      * rewrite Heq in Hc. assert (ongoing = true) as -> by (unfold tiled in H; rewrite Hc in H; apply H). by apply (tiled_end lo an c now).
      * rewrite Heq in Hc. unfold tiled in H. rewrite Hc in H. destruct H as [_ H]. by eapply ordered_mono.
    + destruct (continuous an !! tag') as [c|]; simpl; (apply (tiled_other lo an ongoing now); [done|done|by rewrite lookup_insert_ne|]); [|done].
      by rewrite spans_snoc, decide_False.
  - unfold annotateContinuousEnd. case_bool_decide as Heq.
    + subst tag'. destruct Hp as [-> Hp]. eapply IH; [|exact Hp|exact Hts]. unfold tiled. simpl. rewrite lookup_delete_eq. split; [done|].
      destruct (continuous an !! tag) as [c|] eqn:Hl; [by apply (tiled_end lo an c now)|]. unfold tiled in H. rewrite Hl in H. by destruct H.
    + eapply IH; [|exact Hp|exact Hts]. apply (tiled_other lo an ongoing now); [done|done|by rewrite lookup_delete_ne|]. simpl.
      by rewrite spans_snoc, decide_False.
Qed.

Lemma spans_pairs (l : list (string * Continuous)) t : NoDup l.*1 ->
  spans ((fun x => concretize (fst x) (snd x) t) <$> l) = match (list_to_map l : gmap string Continuous) !! tag with Some c => [(start c, t)] | None => [] end.
Proof.
  induction l as [|[tag' c] l IH]; intros Hnd; [done|]. cbn [fmap list_fmap fst snd list_to_map foldr uncurry] in *. apply NoDup_cons in Hnd as [Hni Hnd].
  specialize (IH Hnd). unfold spans in *. destruct (decide (tag' = tag)) as [->|Hne].
  - rewrite filter_cons_True by done. rewrite lookup_insert_eq. cbn [fmap list_fmap]. rewrite IH. rewrite (not_elem_of_list_to_map_1 l tag Hni). done.
  - rewrite filter_cons_False by done. by rewrite lookup_insert_ne.
Qed.

(** Continuous annotations of a tag never overlap.  Whatever else
    is annotated, if the tag is only used for continuous annotations and
    ended only while one is going on, then in the finished list the intervals
    of the tag follow one another in time, and none ends after the end of the
    test. *)
Theorem continuous_never_overlap (ops : list (Z * IOp)) (lo hi : Z) :
  proper false ops -> timed lo ops hi -> ordered lo (spans (snd (finalize (irun mkAnnotation ops) hi))) hi.
Proof.
  intros Hp Ht. assert (lo <= hi) as Hle.
  { clear Hp. revert lo Ht. induction ops as [|[t op] ops IH]; intros lo; simpl; [done|]. intros [? ?%IH]. lia. }
  destruct (irun_tiled lo ops mkAnnotation false lo hi) as [ongoing H]; [unfold tiled; simpl; split; [done|lia]|done|done|].
  unfold tiled in H. unfold finalize. simpl. unfold spans at 1. rewrite filter_app, fmap_app. fold (spans (annotations (irun mkAnnotation ops))).
  fold (spans ((fun x => concretize (fst x) (snd x) hi) <$> map_to_list (continuous (irun mkAnnotation ops)))).
  rewrite spans_pairs by apply NoDup_fst_map_to_list. rewrite list_to_map_to_list. destruct (continuous _ !! tag) as [c|].
  - destruct H as (_ & Ho & Hs). by apply ordered_snoc.
  - rewrite app_nil_r. apply H.
Qed.

End Tag.

(** ** Two flaws *)

(** AnnotateCheckerEnd means to forget the begin of the check, "reset the
    checker begin timestamp", but resets a local copy: a second check that is
    reported without a begin, which the comment says is a point in time,
    becomes an interval that starts at the first check. *)
Definition two_checks : option World :=
  w ← AnnotateCheckerBegin (AnnotateTest (MkWorld mkAnnotation None) 1 "t" 3) 10 "first";
  w ← AnnotateCheckerSuccess w 20 "one" "ok";
  AnnotateCheckerSuccess w 30 "two" "ok".

Theorem checker_begin_is_kept :
  (fun w => (fun a => (Start a, End_ a, Details a)) <$> annotations (annotation w)) <$> two_checks =
  Some [(1, 0, "t (3 servers)"); (10, 20, "first: ok"); (10, 30, "first: ok")].
Proof. vm_compute. reflexivity. Qed.

(** annotateContinuousEnd means to do nothing when nothing is going on, but
    records an interval with no text that starts at time 0: a test that clears
    its faults without having had any shows a fault that covers it. *)
Theorem ending_nothing_records_an_interval :
  (fun w => annotations (annotation w)) <$> AnnotateClearFailure (AnnotateTest (MkWorld mkAnnotation None) 100 "t" 1) 200 =
  Some [MkPAnnotation TAG_INFO 100 0 "t (1 servers)" "t (1 servers)" COLOR_INFO; MkPAnnotation TAG_PARTITION 0 200 "" "" ""].
Proof. vm_compute. reflexivity. Qed.

(** ** Witnesses *)

Definition fault_ops : list (Z * AOp) :=
  [(2, OShutdown [1%nat]); (3, OConnection [true; true; false]); (4, OPoint "x" "y" "z" COLOR_USER); (5, ORestartAll); (6, OShutdown [0%nat])].

Lemma fault_annotation_is_current_witness : exists w,
  arun (AnnotateTest (MkWorld mkAnnotation None) 1 "t" 3) fault_ops = Some w /\
  desp <$> continuous (annotation w) !! TAG_PARTITION = Some "partition = [2] [1] / crash = [0]".
Proof.
  destruct (fault_annotation_is_current 3 (MkWorld mkAnnotation None) 1 "t" fault_ops) as (w & fi & Hr & Hf & H);
    [repeat (apply Forall_cons_2 || apply Forall_nil_2); simpl; repeat constructor|].
  exists w. split; [exact Hr|]. vm_compute in Hr. injection Hr as <-. vm_compute in Hf. injection Hf as <-. destruct H as (_ & _ & H).
  etransitivity; [exact H|]. vm_compute. reflexivity.
Defined.

Definition cont_ops : list (Z * IOp) :=
  [(2, IContinuous "a" "1" "" ""); (3, IContinuous "b" "x" "" ""); (5, IContinuous "a" "2" "" ""); (5, IPoint "c" "p" "" ""); (6, IEnd "a"); (8, IContinuous "a" "3" "" "")].

Lemma continuous_never_overlap_witness :
  spans "a" (snd (finalize (irun mkAnnotation cont_ops) 9)) = [(2, 5); (5, 6); (8, 9)] /\
  ordered 0 (spans "a" (snd (finalize (irun mkAnnotation cont_ops) 9))) 9.
Proof.
  split; [vm_compute; reflexivity|]. apply (continuous_never_overlap "a" cont_ops 0 9); [|simpl; lia].
  vm_compute. repeat (discriminate || constructor).
Defined.
