(* ===== verification/Config.v ===== *)
(** * The tester (src/tester1/config.go)

    A test owns a simulated network, server groups and clients, counts
    operations and RPCs, and is torn down at its end.  [None] is a
    [log.Fatalf] or a nil dereference: the whole process exits.  Time is in
    nanoseconds and an argument; so are random names and what the operating
    system makes of a daemon ([Boot] of TestGroups.v).

    The theorems: after any sequence of operations of a test the clean-up
    goes through, and then no server is registered in the network, no daemon
    runs and no client has an end left; random_handles returns the handles
    in some order; Randstring returns as many characters as asked for. *)

From stdpp Require Import pretty.
From Stdlib Require Import Ascii.
From S2P Require Import Prelude Rpc KvSrv KvClerk Labrpc Persister TestGroup TestGroups Annotation.

Definition GRP0 : Z := 0.

(** ** The configuration of a test *)

Record Config : Type := MkConfig {
  cfg_clnts : Clnts;
  cfg_groups : Groups;
  cfg_net : Network;
  cfg_start : Z;
  cfg_t0 : Z;
  cfg_rpcs0 : Z;
  cfg_ops : Z;                 (* int32 *)
  cfg_endName : string;
  cfg_trpc : bool;             (* the tester's RPC server is open *)
  cfg_failed : bool;           (* t.Failed() *)
}.

Definition with_net (cfg : Config) (rn : Network) : Config :=
  MkConfig (cfg_clnts cfg) (cfg_groups cfg) rn (cfg_start cfg) (cfg_t0 cfg) (cfg_rpcs0 cfg) (cfg_ops cfg) (cfg_endName cfg) (cfg_trpc cfg) (cfg_failed cfg).

Definition with_parts (cfg : Config) (cs : Clnts) (gs : Groups) (rn : Network) : Config :=
  MkConfig cs gs rn (cfg_start cfg) (cfg_t0 cfg) (cfg_rpcs0 cfg) (cfg_ops cfg) (cfg_endName cfg) (cfg_trpc cfg) (cfg_failed cfg).

Definition SetReliable (cfg : Config) (reliable : bool) : Config := with_net cfg (Reliable (cfg_net cfg) reliable).
Definition Cfg_IsReliable (cfg : Config) : bool := IsReliable (cfg_net cfg).
Definition SetLongReordering (cfg : Config) (longrel : bool) : Config := with_net cfg (LongReordering (cfg_net cfg) longrel).
Definition SetLongDelays (cfg : Config) (longdel : bool) : Config := with_net cfg (LongDelays (cfg_net cfg) longdel).

Definition Group (cfg : Config) (gid : Z) : option ServerGrp := lookupGroup (cfg_groups cfg) gid.

(** An operation of the group [cfg.Group(gid)]. *)
Definition on_group (cfg : Config) (gid : Z) (f : Network -> ServerGrp -> option (Network * ServerGrp)) : option Config :=
  sg ← Group cfg gid;
  '(rn, sg) ← f (cfg_net cfg) sg;
  Some (with_parts cfg (cfg_clnts cfg) (MkGroups (<[gid := sg]> (grps (cfg_groups cfg)))) rn).

(** [nss]: the names of the ends of each server; [boots]: the starts of the
    daemons. *)
Definition MakeGroupStart (cfg : Config) (gid : Z) (nss : list (list string)) (boots : list Boot) : option Config :=
  '(rn, gs) ← MakeGroup (cfg_net cfg) (cfg_groups cfg) gid nss;
  on_group (with_parts cfg (cfg_clnts cfg) gs rn) gid (fun rn sg => StartServers rn sg boots).

Definition ExitGroup (cfg : Config) (gid : Z) (answers : nat -> bool) : option Config :=
  cfg ← on_group cfg gid (fun rn sg => Shutdown rn sg answers);
  Some (with_parts cfg (cfg_clnts cfg) (deleteGroup (cfg_groups cfg) gid) (cfg_net cfg)).

(** Before the end of MakeConfig the table of clients is nil. *)
Definition MakeConfig (endName : string) (nss : list (list string)) (boots : list Boot) (now : Z) (reliable : bool) : option Config :=
  let cfg := MkConfig (MkClnts None) newGroups MakeNetwork 0 0 0 0 endName true false in
  cfg ← MakeGroupStart cfg GRP0 nss boots;
  Some (MkConfig makeClnts (cfg_groups cfg) (Reliable (cfg_net cfg) reliable) now 0 0 0 endName true false).

(** ** Counting *)

Definition RpcTotal (cfg : Config) : Z := GetTotalCount (cfg_net cfg).

Definition int32 (z : Z) : Z := (z + 2 ^ 31) mod 2 ^ 32 - 2 ^ 31.

(** The line that Begin prints, and the test with its counters reset. *)
Definition Begin (cfg : Config) (description : string) (now : Z) : Config * string :=
  let rel := if negb (Cfg_IsReliable cfg) then "unreliable" else "reliable" in
  (MkConfig (cfg_clnts cfg) (cfg_groups cfg) (cfg_net cfg) (cfg_start cfg) now (RpcTotal cfg) 0 (cfg_endName cfg) (cfg_trpc cfg) (cfg_failed cfg),
   description +:+ " (" +:+ rel +:+ " network)...").

Definition OpInc (cfg : Config) : Config :=
  MkConfig (cfg_clnts cfg) (cfg_groups cfg) (cfg_net cfg) (cfg_start cfg) (cfg_t0 cfg) (cfg_rpcs0 cfg) (int32 (cfg_ops cfg + 1)) (cfg_endName cfg) (cfg_trpc cfg) (cfg_failed cfg).

Definition fail (cfg : Config) : Config :=
  MkConfig (cfg_clnts cfg) (cfg_groups cfg) (cfg_net cfg) (cfg_start cfg) (cfg_t0 cfg) (cfg_rpcs0 cfg) (cfg_ops cfg) (cfg_endName cfg) (cfg_trpc cfg) true.

(** [inr]: the test has failed, and its goroutine ends here. *)
Definition CheckTimeout (cfg : Config) (now : Z) : Config + Config :=
  if negb (cfg_failed cfg) && (now - cfg_start cfg >? 120 * 10 ^ 9) then inr (fail cfg) else inl cfg.

(** What End prints: time in ns, peers, RPCs and operations. *)
Record Report : Type := MkReport { rp_time : Z; rp_peers : nat; rp_rpcs : Z; rp_ops : Z }.

Definition End_ (cfg : Config) (now now' : Z) : option ((Config * option Report) + Config) :=
  match CheckTimeout cfg now with
  | inr cfg => Some (inr cfg)
  | inl cfg =>
      if negb (cfg_failed cfg) then
        sg ← Group cfg GRP0;
        Some (inl (cfg, Some (MkReport (now' - cfg_t0 cfg) (grp_N sg) (RpcTotal cfg - cfg_rpcs0 cfg) (cfg_ops cfg))))
      else Some (inl (cfg, None))
  end.

(** ** The end of a test

    The annotations are a variable of the package; [None] for the list is
    that no file was written.  [answers]: which daemons answer and can be
    killed; [None] is a log.Fatalf. *)
Definition Cfg_Cleanup (cfg : Config) (answers : Z -> nat -> bool) (an : Annotation) (t t' : Z) (enabled : string)
    : option (Config * Annotation * option (list PAnnotation)) :=
  '(rn, cs) ← clnts_cleanup (cfg_net cfg) (cfg_clnts cfg);
  '(rn, gs) ← groups_cleanup rn (cfg_groups cfg) answers;
  let rn := Cleanup rn in
  let cfg := MkConfig cs gs rn (cfg_start cfg) (cfg_t0 cfg) (cfg_rpcs0 cfg) (cfg_ops cfg) (cfg_endName cfg) false (cfg_failed cfg) in
  let '(an, file) := cleanup an t t' (cfg_failed cfg) enabled (if cfg_failed cfg then "test failed" else "test passed") in
  Some (cfg, an, file).

(** ** Random strings and handles *)

(** [base64.URLEncoding.EncodeToString]. *)
Definition base64_alphabet : string := "ABCDEFGHIJKLMNOPQRSTUVWXYZabcdefghijklmnopqrstuvwxyz0123456789-_".
Definition base64_char (x : Z) : ascii := default "="%char (String.get (Z.to_nat x) base64_alphabet).

Fixpoint base64 (b : list Z) : list ascii :=
  match b with
  | [] => []
  | [x] => [base64_char (Z.shiftr x 2); base64_char (Z.shiftl (Z.land x 3) 4); "="%char; "="%char]
  | [x; y] => [base64_char (Z.shiftr x 2); base64_char (Z.lor (Z.shiftl (Z.land x 3) 4) (Z.shiftr y 4));
               base64_char (Z.shiftl (Z.land y 15) 2); "="%char]
  | x :: y :: z :: b =>
      base64_char (Z.shiftr x 2) :: base64_char (Z.lor (Z.shiftl (Z.land x 3) 4) (Z.shiftr y 4)) ::
      base64_char (Z.lor (Z.shiftl (Z.land y 15) 2) (Z.shiftr z 6)) :: base64_char (Z.land z 63) :: base64 b
  end.

(** [b]: the [2 * n] random bytes.  [s[0:n]] panics when [s] is shorter. *)
Definition Randstring (b : list Z) (n : nat) : option string :=
  let s := base64 b in
  if (length s <? n)%nat then None else Some (Stdlib.Strings.String.string_of_list_ascii (take n s)).

(** [sa[i], sa[j] = sa[j], sa[i]] *)
Definition swap {A} (l : list A) (i j : nat) : option (list A) :=
  x ← l !! i; y ← l !! j; Some (<[j := x]> (<[i := y]> l)).

(** The loop of random_handles; [js]: what rand.Intn(i+1) returns at each
    round from [i] on. *)
Fixpoint shuffle {A} (sa : list A) (i : nat) (js : list nat) : option (list A) :=
  match js with
  | [] => Some sa
  | j :: js => sa ← swap sa i j; shuffle sa (S i) js
  end.

Definition random_handles {A} (kvh : list A) (js : list nat) : option (list A) := shuffle kvh 0 js.

(** ** What an operation on a group may change

    [new] are the ends it makes. *)
Section GroupStep.
Context (n : nat).
Implicit Types (rn : Network) (sg : ServerGrp) (new : gset string).

Record grp_step rn sg rn' sg' new : Prop := {
  gs_gid : gid sg' = gid sg;
  gs_ok : grp_ok n rn' sg';
  gs_ends : ends rn' = ends rn ∪ new;
  gs_fresh : new ## ends rn;
  gs_names : forall a b e, end_of sg' a b = Some e -> end_of sg a b = Some e \/ e ∈ new;
  gs_reg : forall name, servers rn' !! name = servers rn !! name \/ exists i, (i < n)%nat /\ name = ServerName (gid sg) (Z.of_nat i);
}.

(** The operation succeeds or not; if it does, it is such a step. *)
Definition steps_to rn sg (r : option (Network * ServerGrp)) : Prop :=
  forall rn' sg', r = Some (rn', sg') -> exists new, grp_step rn sg rn' sg' new.

Lemma grp_step_refl rn sg : grp_ok n rn sg -> grp_step rn sg rn sg ∅.
Proof. intros Hok. constructor; auto; set_solver. Qed.

Lemma grp_step_trans rn1 sg1 rn2 sg2 rn3 sg3 new1 new2 :
  grp_step rn1 sg1 rn2 sg2 new1 -> grp_step rn2 sg2 rn3 sg3 new2 -> grp_step rn1 sg1 rn3 sg3 (new1 ∪ new2).
Proof.
  intros [Hg1 _ He1 Hf1 Hn1 Hr1] [Hg2 Hok2 He2 Hf2 Hn2 Hr2]. constructor; [congruence|done|set_solver|set_solver| |].
  - intros a b e [H|H]%Hn2; [apply Hn1 in H|]; set_solver.
  - intros name. destruct (Hr2 name) as [->|?]; [apply Hr1|right; by rewrite <-Hg1].
Qed.

Lemma steps_to_bind rn sg r f : steps_to rn sg r -> (forall rn1 sg1, grp_ok n rn1 sg1 -> steps_to rn1 sg1 (f rn1 sg1)) ->
  steps_to rn sg ('(rn1, sg1) ← r; f rn1 sg1).
Proof.
  intros Hr Hf rn' sg' H. destruct r as [[rn1 sg1]|]; [|done]. simpl in H. destruct (Hr _ _ eq_refl) as [new1 H1].
  destruct (Hf rn1 sg1 (gs_ok _ _ _ _ _ H1) _ _ H) as [new2 H2]. exists (new1 ∪ new2). by eapply grp_step_trans.
Qed.

(** Operations that only enable and disable ends. *)
Lemma quiet_grp_step rn sg rn' sg' : grp_ok n rn' sg' -> gid sg' = gid sg -> srvs sg' = srvs sg -> ends rn' = ends rn -> servers rn' = servers rn ->
  grp_step rn sg rn' sg' ∅.
Proof.
  intros Hok Hg Hs He Hsv. constructor; auto; [set_solver|set_solver| |].
  - intros a b e. unfold end_of. rewrite Hs. auto.
  - intros name. rewrite Hsv. auto.
Qed.

Lemma enable_loop_servers rn name test yes l rn' : enable_loop rn name test yes l = Some rn' -> servers rn' = servers rn.
Proof.
  revert rn. induction l as [|j l IH]; intros rn H; simpl in H; [by simplify_eq|].
  destruct (test j) as [[]|]; [|by apply IH|done]. destruct (name j); [|done]. cbn [mbind option_bind] in H. by apply IH in H.
Qed.

Lemma set_connected_same sg i yes sg' : set_connected sg i yes = Some sg' -> gid sg' = gid sg /\ srvs sg' = srvs sg.
Proof. unfold set_connected. destruct (_ <? _)%nat; [|done]. by intros [= <-]. Qed.

Lemma connect_steps rn sg i to : grp_ok n rn sg -> steps_to rn sg (connect rn sg i to).
Proof.
  intros Hok rn' sg' H. exists ∅. pose proof (grp_connect_ok n rn sg i to rn' sg' Hok H) as Hok'. unfold connect, Server_connect in H.
  destruct (set_connected sg i true) as [sg1|] eqn:Hsc; [|done]. cbn [mbind option_bind] in H. apply set_connected_same in Hsc as [Hg Hs].
  destruct (srvs sg1 !! i); [|done]. cbn [mbind option_bind] in H.
  destruct (enable_loop rn _ _ _ _) as [rn1|] eqn:H1; [|done]. cbn [mbind option_bind] in H.
  destruct (enable_loop rn1 _ _ _ _) as [rn2|] eqn:H2; [|done]. cbn [mbind option_bind] in H. injection H as <- <-.
  pose proof (enable_loop_servers _ _ _ _ _ _ H1). pose proof (enable_loop_servers _ _ _ _ _ _ H2).
  apply enable_loop_ends in H1, H2. apply quiet_grp_step; congruence.
Qed.

Lemma disconnect_steps rn sg i from : grp_ok n rn sg -> steps_to rn sg (disconnect rn sg i from).
Proof.
  intros Hok rn' sg' H. exists ∅. destruct (grp_disconnect_ok n rn sg i from rn' sg' Hok H) as [Hok' _]. unfold disconnect, Server_disconnect in H.
  destruct (set_connected sg i false) as [sg1|] eqn:Hsc; [|done]. cbn [mbind option_bind] in H. apply set_connected_same in Hsc as [Hg Hs].
  destruct (srvs sg1 !! i) as [s|]; [|done]. cbn [mbind option_bind] in H.
  destruct (match endNames s with [] => Some rn | _ => _ end) as [rn1|] eqn:H1; [|done]. cbn [mbind option_bind] in H.
  assert (ends rn1 = ends rn /\ servers rn1 = servers rn) as [He1 Hs1].
  { destruct (endNames s); [by simplify_eq|]. by split; [apply enable_loop_ends in H1|apply enable_loop_servers in H1]. }
  destruct (enable_loop rn1 _ _ _ _) as [rn2|] eqn:H2; [|done]. cbn [mbind option_bind] in H. injection H as <- <-.
  pose proof (enable_loop_servers _ _ _ _ _ _ H2). apply enable_loop_ends in H2. apply quiet_grp_step; congruence.
Qed.

Lemma make_ends_servers rn g j names rn' : make_ends rn g j names = Some rn' -> servers rn' = servers rn.
Proof.
  revert rn j. induction names as [|e names IH]; intros rn j H; simpl in H; [by simplify_eq|].
  unfold MakeEnd in H. case_bool_decide; [done|]. cbn [mbind option_bind] in H. by apply IH in H.
Qed.

Lemma end_of_set_srv sg i s a b e : end_of (set_srv sg i s) a b = Some e -> end_of sg a b = Some e \/ e ∈ endNames s.
Proof.
  unfold end_of, set_srv. cbn [srvs]. intros H. destruct (<[i := s]> (srvs sg) !! a) as [x|] eqn:Hx; [|done]. cbn [mbind option_bind] in H.
  apply list_lookup_insert_Some in Hx as [(-> & <- & _)|[_ Hx]]; [right; by eapply list_elem_of_lookup_2|left; by rewrite Hx].
Qed.

Lemma start_steps rn sg i names labsrv ran : grp_ok n rn sg -> length names = n -> steps_to rn sg (StartServer rn sg i names labsrv ran).
Proof.
  intros Hok Hlen rn' sg' H. exists (list_to_set names). pose proof (start_ok n _ _ _ _ _ _ _ _ Hok Hlen H) as Hok'.
  unfold StartServer, startServer, makeServer in H. destruct (srvs sg !! i) as [s|] eqn:Hs; [|done]. cbn [mbind option_bind] in H.
  destruct (make_ends rn (gid sg) 0 names) as [rn1|] eqn:Hm; [|done]. cbn [mbind option_bind endNames saved] in H.
  pose proof (make_ends_servers _ _ _ _ _ Hm) as Hsv. apply make_ends_ok in Hm as (_ & Hf & He).
  assert ((i < n)%nat) as Hi by (rewrite <-(gw_srvs _ _ (go_wf _ _ _ Hok)); by eapply lookup_lt_Some).
  assert (list_to_set names ## ends rn) as Hdis by (intros e; rewrite elem_of_list_to_set; apply Hf).
  destruct ran; injection H as <- <-; constructor; auto; simpl.
  - intros a b e [?|?]%end_of_set_srv; [by left|right; by rewrite elem_of_list_to_set].
  - intros name. destruct (decide (name = ServerName (gid sg) (Z.of_nat i))) as [->|]; [right; eauto|left; rewrite lookup_insert_ne by done; by rewrite Hsv].
  - intros a b e [?|?]%end_of_set_srv; [by left|right; by rewrite elem_of_list_to_set].
  - intros name. left. by rewrite Hsv.
Qed.

Lemma shutdown_steps rn sg i a : grp_ok n rn sg -> steps_to rn sg (ShutdownServer rn sg i a).
Proof.
  intros Hok rn' sg' H. pose proof (shutdown_ok n rn sg i a rn' sg' Hok H) as Hok'. unfold ShutdownServer in H.
  destruct (disconnect rn sg i (all sg)) as [[rn1 sg1]|] eqn:Hd; [|done]. cbn [mbind option_bind] in H.
  destruct (disconnect_steps rn sg i (all sg) Hok _ _ Hd) as [new [Hg Hok1 He Hf Hn Hr]].
  destruct (srvs sg1 !! i) as [s|] eqn:Hs; [|done]. cbn [mbind option_bind] in H.
  destruct (shutdownServer a s) as [s'|] eqn:Hsd; [|done]. cbn [mbind option_bind] in H. injection H as <- <-. exists new.
  apply shutdownServer_Some in Hsd as [Hsame _].
  assert (i < n)%nat as Hi by (rewrite <-(gw_srvs _ _ (go_wf _ _ _ Hok1)); by eapply lookup_lt_Some).
  constructor; auto; simpl.
  - intros x b e Hab. apply Hn. revert Hab. unfold end_of, set_srv. cbn [srvs]. destruct (decide (x = i)) as [->|Hne]; [|by rewrite list_lookup_insert_ne].
    rewrite list_lookup_insert_eq by (by eapply lookup_lt_Some). rewrite Hs. simpl. by rewrite Hsame.
  - intros name. rewrite Hg. destruct (decide (name = ServerName (gid sg) (Z.of_nat i))) as [->|]; [right; eauto|]. by rewrite lookup_insert_ne.
Qed.

Lemma partition_side_steps mine other l rn sg : grp_ok n rn sg -> steps_to rn sg (partition_side rn sg mine other l).
Proof.
  revert rn sg. induction l as [|i l IH]; intros rn sg Hok; cbn [partition_side]; [intros ? ? [= <- <-]; exists ∅; by apply grp_step_refl|].
  apply steps_to_bind; [by apply disconnect_steps|]. intros rn1 sg1 Hok1.
  apply steps_to_bind; [by apply connect_steps|]. auto.
Qed.

Lemma connect_each_steps l rn sg : grp_ok n rn sg -> steps_to rn sg (connect_each rn sg l).
Proof.
  revert rn sg. induction l as [|i l IH]; intros rn sg Hok; cbn [connect_each]; [intros ? ? [= <- <-]; exists ∅; by apply grp_step_refl|].
  apply steps_to_bind; [by apply connect_steps|auto].
Qed.

Lemma StartSrvs_steps l rn sg : Forall (fun x => length (b_names (snd x)) = n) l -> grp_ok n rn sg -> steps_to rn sg (StartSrvs rn sg l).
Proof.
  intros Hl. revert rn sg. induction l as [|[i b] l IH]; intros rn sg Hok; cbn [StartSrvs]; [intros ? ? [= <- <-]; exists ∅; by apply grp_step_refl|].
  apply Forall_cons in Hl as [Hb Hl]. apply steps_to_bind; [by apply start_steps|auto].
Qed.

Lemma StartServers_steps boots rn sg : Forall (fun b => length (b_names b) = n) boots -> grp_ok n rn sg -> steps_to rn sg (StartServers rn sg boots).
Proof.
  intros Hb Hok. unfold StartServers. apply steps_to_bind; [|by intros; apply connect_each_steps]. apply StartSrvs_steps; [|done].
  apply Forall_lookup. intros k [i b] Hk. apply lookup_zip_Some in Hk as [_ Hk]. by rewrite Forall_lookup in Hb; eapply Hb.
Qed.

(** *** Shutting a group down *)

Definition stopped (sg : ServerGrp) (i : nat) : Prop := forall s, srvs sg !! i = Some s -> dc s = None.

(** The daemon of server [i], if there is one, answers. *)
Definition ready (sg : ServerGrp) (answers : nat -> bool) (i : nat) : Prop := forall s, srvs sg !! i = Some s -> is_Some (dc s) -> answers i = true.

(** What a shutdown has done, and when it goes through. *)
Lemma ShutdownServer_spec rn sg i answers : grp_ok n rn sg -> (i < n)%nat ->
  (ready sg answers i -> is_Some (ShutdownServer rn sg i (answers i))) /\
  forall rn' sg', ShutdownServer rn sg i (answers i) = Some (rn', sg') -> gid sg' = gid sg /\ ready sg answers i /\
    servers rn' = <[ServerName (gid sg) (Z.of_nat i) := None]> (servers rn) /\ ends rn' = ends rn /\
    stopped sg' i /\ forall j, j <> i -> srvs sg' !! j = srvs sg !! j.
Proof.
  intros Hok Hi. pose proof (go_wf _ _ _ Hok) as Hwf.
  destruct (disconnect_spec n rn sg i (all sg) Hwf Hi) as (rn1 & sg1 & Hd & Hwf1 & Hs1 & Hw1 & _ & _); [by apply all_bound|].
  destruct (disconnect_steps rn sg i (all sg) Hok _ _ Hd) as [new Hstep]. pose proof (gs_gid _ _ _ _ _ Hstep) as Hg.
  destruct (lookup_lt_is_Some_2 (srvs sg1) i) as [s Hs]; [by rewrite (gw_srvs _ _ Hwf1)|].
  unfold ShutdownServer. rewrite Hd. cbn [mbind option_bind]. rewrite Hs. cbn [mbind option_bind]. rewrite Hs1 in Hs. split.
  - intros Hready. unfold shutdownServer. destruct (dc s) eqn:E; [|by eexists]. rewrite (Hready s Hs) by (rewrite E; by eexists). by eexists.
  - intros rn' sg' H. destruct (shutdownServer (answers i) s) as [s'|] eqn:Hsd; [|done]. cbn [mbind option_bind] in H. injection H as <- <-.
    apply shutdownServer_Some in Hsd as (_ & Hdc & Hans). split_and!; [done| | | | |].
    + intros x Hx. assert (x = s) as -> by congruence. done.
    + simpl. assert (servers rn1 = servers rn) as -> by (unfold wiring in Hw1; congruence). by rewrite Hg.
    + simpl. unfold wiring in Hw1. congruence.
    + intros x. simpl. rewrite Hs1, list_lookup_insert_eq by (by eapply lookup_lt_Some). by intros [= <-].
    + intros j Hj. simpl. rewrite list_lookup_insert_ne by done. by rewrite Hs1.
Qed.

Lemma Kill_spec answers l rn sg : grp_ok n rn sg -> Forall (fun i => (i < n)%nat) l ->
  ((forall i, i ∈ l -> ready sg answers i) -> is_Some (Kill rn sg answers l)) /\
  forall rn' sg', Kill rn sg answers l = Some (rn', sg') -> (exists new, grp_step rn sg rn' sg' new) /\ ends rn' = ends rn /\
    (forall i, i ∈ l -> ready sg answers i /\ stopped sg' i /\ servers rn' !! ServerName (gid sg) (Z.of_nat i) = Some None) /\
    (forall i, stopped sg i -> stopped sg' i) /\
    forall name, servers rn !! name = Some None -> servers rn' !! name = Some None.
Proof.
  revert rn sg. induction l as [|i l IH]; intros rn sg Hok Hl; cbn [Kill].
  { split; [by eexists|]. intros rn' sg' [= <- <-]. split_and!; auto; [exists ∅; by apply grp_step_refl|set_solver]. }
  apply Forall_cons in Hl as [Hi Hl]. destruct (ShutdownServer_spec rn sg i answers Hok Hi) as [Hgo Hspec].
  pose proof (shutdown_steps rn sg i (answers i) Hok) as Hsteps.
  destruct (ShutdownServer rn sg i (answers i)) as [[rn1 sg1]|] eqn:H1; cbn [mbind option_bind].
  2:{ split; [|done]. intros Hr. destruct (Hgo (Hr i ltac:(left))) as [? ?]. done. }
  destruct (Hspec _ _ eq_refl) as (Hg1 & Hr1 & Hsv1 & He1 & Hst1 & Ho1). destruct (Hsteps _ _ eq_refl) as [new1 Hstep1].
  destruct (IH rn1 sg1 (gs_ok _ _ _ _ _ Hstep1) Hl) as [Hgo2 Hspec2].
  assert (forall j, ready sg answers j -> ready sg1 answers j) as Hkeep1.
  { intros j Hj s Hs Hd. destruct (decide (j = i)) as [->|Hne]; [rewrite (Hst1 s Hs) in Hd; by destruct Hd|]. rewrite Ho1 in Hs by done. by eapply Hj. }
  split; [intros Hr; apply Hgo2; intros j Hj; apply Hkeep1, Hr; by right|].
  intros rn2 sg2 H2. destruct (Hspec2 _ _ H2) as ([new2 Hstep2] & He2 & Hin & Hkeep & Hnone).
  split_and!; [exists (new1 ∪ new2); by eapply grp_step_trans|congruence| | |].
  - intros j Hj. assert (ready sg answers j) as Hrj.
    { destruct (decide (j = i)) as [->|Hne]; [done|]. apply elem_of_cons in Hj as [->|Hj]; [done|]. destruct (Hin j Hj) as [Hrj _].
      intros s Hs. rewrite <-Ho1 in Hs by done. by eapply Hrj. }
    split; [done|]. apply elem_of_cons in Hj as [->|Hj]; [|rewrite <-Hg1; by apply Hin]. split; [by apply Hkeep|]. apply Hnone. by rewrite Hsv1, lookup_insert_eq.
  - intros j Hj. apply Hkeep. destruct (decide (j = i)) as [->|]; [done|]. intros s. rewrite Ho1 by done. apply Hj.
  - intros name Hname. apply Hnone. rewrite Hsv1. destruct (decide (name = ServerName (gid sg) (Z.of_nat i))) as [->|];
      [by rewrite lookup_insert_eq|by rewrite lookup_insert_ne].
Qed.

Lemma Shutdown_spec rn sg answers : grp_ok n rn sg ->
  ((forall i, ready sg answers i) -> is_Some (Shutdown rn sg answers)) /\
  forall rn' sg', Shutdown rn sg answers = Some (rn', sg') -> (exists new, grp_step rn sg rn' sg' new) /\ ends rn' = ends rn /\
    (forall i, ready sg answers i /\ stopped sg' i) /\
    (forall i, (i < n)%nat -> servers rn' !! ServerName (gid sg) (Z.of_nat i) = Some None) /\
    forall name, servers rn !! name = Some None -> servers rn' !! name = Some None.
Proof.
  intros Hok. destruct (Kill_spec answers (all sg) rn sg Hok (all_bound n sg (go_wf _ _ _ Hok))) as [Hgo Hspec].
  assert (forall i, (i < n)%nat -> i ∈ all sg) as Hall.
  { intros i Hi. apply elem_of_seq. unfold grp_N. rewrite (gw_srvs _ _ (go_wf _ _ _ Hok)). lia. }
  split; [intros Hr; apply Hgo; auto|]. intros rn' sg' H. destruct (Hspec _ _ H) as ([new Hstep] & He & Hin & _ & Hnone).
  assert (forall s i x, srvs s !! i = Some x -> grp_wf n s -> (i < n)%nat) as Hbound.
  { intros s i x Hx Hwf. rewrite <-(gw_srvs _ _ Hwf). by eapply lookup_lt_Some. }
  split_and!; [by exists new|done| |intros i Hi; by apply Hin, Hall|done]. intros i. split.
  - intros s Hs. apply (proj1 (Hin i (Hall i (Hbound _ _ _ Hs (go_wf _ _ _ Hok))))). done.
  - intros s Hs. apply (proj1 (proj2 (Hin i (Hall i (Hbound _ _ _ Hs (go_wf _ _ _ (gs_ok _ _ _ _ _ Hstep))))))). done.
Qed.

End GroupStep.

(** ** The life of a test *)

Inductive CfgOp : Type :=
| KStart (gid : Z) (nss : list (list string)) (boots : list Boot)
| KExit (gid : Z) (answers : nat -> bool)
| KGroup (gid : Z) (op : GrpOp)
| KClnt (op : ClntsOp)
| KReliable (b : bool)
| KLongReordering (b : bool)
| KLongDelays (b : bool)
| KBegin (description : string) (now : Z)
| KInc
| KRpc.                                 (* a call goes through the network *)

(** The code makes as many names as there are servers, so operations with
    other numbers of names are none of its executions; nor does a group make
    ends for clients. *)
Definition op_fits (n : nat) (op : GrpOp) : bool :=
  match op with GStart _ names _ _ => (length names =? n)%nat | GEnd _ _ => false | _ => true end.

Definition start_fits (nss : list (list string)) (boots : list Boot) : bool :=
  forallb (fun ns => (length ns =? length nss)%nat) nss && forallb (fun b => (length (b_names b) =? length nss)%nat) boots.

Definition cfg_op (cfg : Config) (op : CfgOp) : option Config :=
  match op with
  | KStart gid nss boots => if start_fits nss boots then MakeGroupStart cfg gid nss boots else None
  | KExit gid answers => ExitGroup cfg gid answers
  | KGroup gid op => on_group cfg gid (fun rn sg => if op_fits (grp_N sg) op then grp_op (rn, sg) op else None)
  | KClnt op => '(rn, cs) ← clnts_op (cfg_net cfg, cfg_clnts cfg) op; Some (with_parts cfg cs (cfg_groups cfg) rn)
  | KReliable b => Some (SetReliable cfg b)
  | KLongReordering b => Some (SetLongReordering cfg b)
  | KLongDelays b => Some (SetLongDelays cfg b)
  | KBegin description now => Some (fst (Begin cfg description now))
  | KInc => Some (OpInc cfg)
  | KRpc => Some (with_net cfg (count_call (cfg_net cfg)))
  end.

Fixpoint cfg_ops_run (cfg : Config) (ops : list CfgOp) : option Config :=
  match ops with [] => Some cfg | op :: ops => cfg ← cfg_op cfg op; cfg_ops_run cfg ops end.

(** Every group that is started has a number that no group of the test has:
    MakeGroup would replace that group and leave its daemons running. *)
Definition fresh_start (cfg : Config) (op : CfgOp) : bool :=
  match op with KStart gid _ _ => bool_decide (Group cfg gid = None) | _ => true end.

Fixpoint fresh_starts (cfg : Config) (ops : list CfgOp) : bool :=
  match ops with
  | [] => true
  | op :: ops => fresh_start cfg op && match cfg_op cfg op with Some cfg => fresh_starts cfg ops | None => true end
  end.

(** The ends of the clients are apart from [base], the ends of the servers,
    and only servers of the groups of the test are registered. *)
Record cfg_ok (base : gset string) (cfg : Config) : Prop := {
  co_clnts : exists m, clerks (cfg_clnts cfg) = Some m /\ ends_ok base (cfg_net cfg) m;
  co_groups : forall g sg, Group cfg g = Some sg -> gid sg = g /\ grp_wf (grp_N sg) sg /\ forall a b e, end_of sg a b = Some e -> e ∈ base;
  co_reg : forall name x, servers (cfg_net cfg) !! name = Some (Some x) ->
    exists g sg i, Group cfg g = Some sg /\ (i < grp_N sg)%nat /\ name = ServerName g (Z.of_nat i);
}.

Lemma co_grp_ok base cfg g sg : cfg_ok base cfg -> Group cfg g = Some sg -> grp_ok (grp_N sg) (cfg_net cfg) sg.
Proof.
  intros [(m & _ & Hm) Hg _] Hsg. destruct (Hg g sg Hsg) as (_ & Hwf & He). constructor; [done|]. intros a b e Hab.
  apply (eo_base _ _ _ Hm). eauto.
Qed.

Lemma ends_ok_extend base new rn rn' m : ends_ok base rn m -> ends rn' = ends rn ∪ new -> new ## ends rn -> ends_ok (base ∪ new) rn' m.
Proof.
  intros [Hb Ho Hi Ha] He Hd. constructor; [set_solver| |done|].
  - intros p c srv e Hp Hc. destruct (Ho p c srv e Hp Hc). set_solver.
  - intros e. rewrite He. intros [Hin|Hin]%elem_of_union; [|set_solver]. destruct (Ha e Hin) as [?|?]; [set_solver|auto].
Qed.

(** A step of one group. *)
Lemma group_step_ok base cfg g sg rn' sg' new : cfg_ok base cfg -> Group cfg g = Some sg ->
  grp_step (grp_N sg) (cfg_net cfg) sg rn' sg' new ->
  cfg_ok (base ∪ new) (with_parts cfg (cfg_clnts cfg) (MkGroups (<[g := sg']> (grps (cfg_groups cfg)))) rn').
Proof.
  intros Hok Hsg [Hgid Hgok He Hf Hn Hr]. destruct (co_groups _ _ Hok g sg Hsg) as (Hg & _ & Hbase). destruct Hok as [(m & Hm & Hends) Hgs Hreg].
  assert (grp_N sg' = grp_N sg) as HN by (unfold grp_N; apply (gw_srvs _ _ (go_wf _ _ _ Hgok))).
  constructor; simpl.
  - exists m. split; [done|]. by eapply ends_ok_extend.
  - intros g' sg2. unfold Group, lookupGroup. simpl. intros [[<- <-]|[Hne H2]]%lookup_insert_Some.
    + split_and!; [congruence|rewrite HN; apply Hgok|]. intros a b e [Hab|?]%Hn; [apply Hbase in Hab|]; set_solver.
    + destruct (Hgs g' sg2 H2) as (? & ? & H3). split_and!; auto. intros a b e Hab. apply H3 in Hab. set_solver.
  - intros name x Hx. destruct (Hr name) as [Hsame|(i & Hi & ->)].
    + rewrite Hsame in Hx. destruct (Hreg name x Hx) as (g' & sg2 & i & H2 & Hi & ->). unfold Group, lookupGroup. simpl.
      destruct (decide (g' = g)) as [->|Hne]; [exists g, sg', i|exists g', sg2, i; by rewrite lookup_insert_ne].
      rewrite lookup_insert_eq. assert (sg2 = sg) as -> by (unfold Group, lookupGroup in Hsg, H2; congruence). split_and!; auto; lia.
    + exists g, sg', i. unfold Group, lookupGroup. simpl. rewrite lookup_insert_eq, Hg. split_and!; auto; lia.
Qed.

Lemma on_group_ok base cfg g f cfg' : cfg_ok base cfg ->
  (forall sg, Group cfg g = Some sg -> grp_ok (grp_N sg) (cfg_net cfg) sg -> steps_to (grp_N sg) (cfg_net cfg) sg (f (cfg_net cfg) sg)) ->
  on_group cfg g f = Some cfg' -> exists base', cfg_ok base' cfg'.
Proof.
  intros Hok Hf H. unfold on_group in H. destruct (Group cfg g) as [sg|] eqn:Hsg; [|done]. cbn [mbind option_bind] in H.
  destruct (f (cfg_net cfg) sg) as [[rn' sg']|] eqn:Hr; [|done]. cbn [mbind option_bind] in H. injection H as <-.
  destruct (Hf sg eq_refl (co_grp_ok _ _ _ _ Hok Hsg) _ _ Hr) as [new Hstep]. exists (base ∪ new). by eapply group_step_ok.
Qed.

Lemma on_group_size cfg base g f cfg' sg : cfg_ok base cfg -> Group cfg g = Some sg ->
  (grp_ok (grp_N sg) (cfg_net cfg) sg -> steps_to (grp_N sg) (cfg_net cfg) sg (f (cfg_net cfg) sg)) ->
  on_group cfg g f = Some cfg' -> exists sg', Group cfg' g = Some sg' /\ grp_N sg' = grp_N sg.
Proof.
  intros Hok Hsg Hf H. unfold on_group in H. rewrite Hsg in H. cbn [mbind option_bind] in H.
  destruct (f (cfg_net cfg) sg) as [[rn' sg']|] eqn:Hr; [|done]. cbn [mbind option_bind] in H. injection H as <-.
  destruct (Hf (co_grp_ok _ _ _ _ Hok Hsg) _ _ eq_refl) as [new Hstep]. exists sg'. unfold Group, lookupGroup. simpl. rewrite lookup_insert_eq. split; [done|].
  apply (gw_srvs _ _ (go_wf _ _ _ (gs_ok _ _ _ _ _ _ Hstep))).
Qed.

(** *** New groups *)

Lemma make_servers_servers rn g nss rn' l : make_servers rn g nss = Some (rn', l) -> servers rn' = servers rn.
Proof.
  revert rn l. induction nss as [|ns nss IH]; intros rn l H; simpl in H; [by simplify_eq|]. unfold makeServer in H.
  destruct (make_ends rn g 0 ns) as [rn1|] eqn:Hm; [|done]. cbn [mbind option_bind] in H. apply make_ends_servers in Hm.
  destruct (make_servers rn1 g nss) as [[rn2 l1]|] eqn:H1; [|done]. cbn [mbind option_bind] in H. injection H as <- <-. apply IH in H1. congruence.
Qed.

Lemma makeSrvGrp_new rn g nss rn' sg : Forall (fun ns => length ns = length nss) nss -> makeSrvGrp rn g nss = Some (rn', sg) ->
  exists new, gid sg = g /\ grp_N sg = length nss /\ grp_wf (grp_N sg) sg /\ ends rn' = ends rn ∪ new /\ new ## ends rn /\
    servers rn' = servers rn /\ forall a b e, end_of sg a b = Some e -> e ∈ new.
Proof.
  intros Hlen H. pose proof (makeSrvGrp_ok (length nss) _ _ _ _ _ H eq_refl Hlen) as [Hwf _]. unfold makeSrvGrp in H.
  destruct (make_servers rn g nss) as [[rn1 l]|] eqn:H1; [|done]. cbn [mbind option_bind] in H. injection H as <- <-.
  destruct (make_servers_ok (length nss) _ _ _ _ _ H1 Hlen) as (Hl & _ & Hsub & Hnew & _). exists (ends rn1 ∖ ends rn).
  assert (grp_N (MkServerGrp l g (replicate (length nss) false)) = length nss) as HN by done.
  split_and!; [done|done|by rewrite HN|by apply union_difference_L|set_solver|by eapply make_servers_servers|].
  intros a b e Hab. unfold end_of in Hab. cbn [srvs] in Hab. destruct (l !! a) as [s|] eqn:Hs; [|done]. cbn [mbind option_bind] in Hab.
  destruct (Hnew a s b e Hs Hab). set_solver.
Qed.

Lemma MakeGroup_cfg_ok base cfg g nss rn gs : cfg_ok base cfg -> Group cfg g = None -> Forall (fun ns => length ns = length nss) nss ->
  MakeGroup (cfg_net cfg) (cfg_groups cfg) g nss = Some (rn, gs) ->
  exists base' sg, Group (with_parts cfg (cfg_clnts cfg) gs rn) g = Some sg /\ grp_N sg = length nss /\ cfg_ok base' (with_parts cfg (cfg_clnts cfg) gs rn).
Proof.
  intros [(m & Hm & Hends) Hgs Hreg] Hg Hlen H. unfold MakeGroup in H. destruct (makeSrvGrp _ g nss) as [[rn1 sg]|] eqn:H1; [|done].
  cbn [mbind option_bind] in H. injection H as <- <-. destruct (makeSrvGrp_new _ _ _ _ _ Hlen H1) as (new & Hgid & HN & Hwf & He & Hf & Hs & Hn).
  exists (base ∪ new), sg. unfold Group, lookupGroup in *. simpl in *. rewrite lookup_insert_eq. split_and!; auto. constructor; simpl.
  - exists m. split; [done|]. by eapply ends_ok_extend.
  - intros g' sg'. unfold Group, lookupGroup. simpl. intros [[<- <-]|[_ H2]]%lookup_insert_Some.
    + split_and!; auto. intros a b e Hab. apply Hn in Hab. set_solver.
    + destruct (Hgs g' sg' H2) as (? & ? & H3). split_and!; auto. intros a b e Hab. apply H3 in Hab. set_solver.
  - intros name x Hx. rewrite Hs in Hx. destruct (Hreg name x Hx) as (g' & sg' & i & H2 & Hi & ->). exists g', sg', i.
    unfold Group, lookupGroup. simpl. rewrite lookup_insert_ne; [done|]. unfold Group, lookupGroup in H2. congruence.
Qed.

Lemma MakeGroupStart_ok base cfg g nss boots cfg' : cfg_ok base cfg -> Group cfg g = None -> Forall (fun ns => length ns = length nss) nss ->
  Forall (fun b => length (b_names b) = length nss) boots -> MakeGroupStart cfg g nss boots = Some cfg' -> exists base', cfg_ok base' cfg'.
Proof.
  intros Hok Hg Hlen Hb H. unfold MakeGroupStart in H. destruct (MakeGroup _ _ g nss) as [[rn gs]|] eqn:H1; [|done]. cbn [mbind option_bind] in H.
  destruct (MakeGroup_cfg_ok _ _ _ _ _ _ Hok Hg Hlen H1) as (base' & sg & Hsg & HN & Hok'). eapply (on_group_ok base'); [exact Hok'| |exact H].
  intros sg' Hsg' Hgok. assert (sg' = sg) as -> by congruence. apply StartServers_steps; [by rewrite HN|done].
Qed.

(** *** Groups that leave *)

Lemma ExitGroup_ok base cfg g a cfg' : cfg_ok base cfg -> ExitGroup cfg g a = Some cfg' -> exists base', cfg_ok base' cfg'.
Proof.
  intros Hok H. unfold ExitGroup, on_group in H. destruct (Group cfg g) as [sg|] eqn:Hsg; [|done]. cbn [mbind option_bind] in H.
  destruct (Shutdown (cfg_net cfg) sg a) as [[rn' sg']|] eqn:Hsd; [|done].
  destruct (proj2 (Shutdown_spec _ _ _ a (co_grp_ok _ _ _ _ Hok Hsg)) _ _ Hsd) as ([new Hstep] & _ & _ & Hnone & _).
  cbn [mbind option_bind] in H. injection H as <-. pose proof (group_step_ok _ _ _ _ _ _ _ Hok Hsg Hstep) as [(m & Hm & Hends) Hgs Hreg].
  destruct (co_groups _ _ Hok g sg Hsg) as (Hgid & _ & _). exists (base ∪ new). unfold Group, lookupGroup in *. constructor; simpl in *.
  - by exists m.
  - intros g' sg2. unfold Group, lookupGroup. simpl. intros [Hne H2]%lookup_delete_Some. by apply Hgs.
  - intros name x Hx. destruct (Hreg name x Hx) as (g' & sg2 & i & H2 & Hi & ->). exists g', sg2, i. unfold Group, lookupGroup in *. simpl in *.
    apply lookup_insert_Some in H2 as [[<- <-]|[Hne H2]].
    + exfalso. assert (grp_N sg' = grp_N sg) as HN by apply (gw_srvs _ _ (go_wf _ _ _ (gs_ok _ _ _ _ _ _ Hstep))).
      rewrite <-Hgid, Hnone in Hx by lia. done.
    + rewrite lookup_delete_ne, lookup_insert_ne by done. done.
Qed.

(** *** Clients *)

Lemma remove_ends_servers rn es rn' : remove_ends rn es = Some rn' -> servers rn' = servers rn.
Proof.
  unfold remove_ends. revert rn'. induction es as [|e es IH]; intros rn' H; simpl in H; [by simplify_eq|].
  destruct (foldr _ (Some rn) es) as [rn1|]; [|done]. cbn [mbind option_bind] in H. unfold DeleteEnd in H. destruct (negb _); [done|].
  injection H as <-. simpl. by apply IH.
Qed.

Lemma enable_all_servers rn es yes : servers (enable_all rn es yes) = servers rn.
Proof. induction es as [|e es IH]; simpl; [done|]. by rewrite IH. Qed.

Lemma clnts_op_servers rn cs op rn' cs' : clnts_op (rn, cs) op = Some (rn', cs') -> servers rn' = servers rn.
Proof.
  assert (forall p f, at_clnt rn cs p f = Some (rn', cs') -> (forall c rn2 c2, f c = Some (rn2, c2) -> servers rn2 = servers rn) -> servers rn' = servers rn) as Hat.
  { intros p f H Hf. unfold at_clnt in H. destruct (clerks cs) as [m|]; [|done]. cbn [mbind option_bind] in H.
    destruct (m !! p) as [c|]; [|by simplify_eq]. destruct (f c) as [[rn2 c2]|] eqn:Hc; [|done]. cbn in H. injection H as <- <-. by eapply Hf. }
  intros H. destruct op as [p to|p|p server name|p|p to|p server|p]; cbn [clnts_op] in H.
  - case_bool_decide; [by simplify_eq|]. unfold MakeClientTo in H. destruct (clerks cs); [|done]. cbn in H. by injection H as <- <-.
  - unfold DeleteClient in H. destruct (clerks cs) as [m|]; [|by simplify_eq]. destruct (m !! p) as [c|]; [|by simplify_eq].
    destruct (Clnt_remove rn c) as [rn1|] eqn:Hr; [|done]. cbn in H. injection H as <- <-. by eapply remove_ends_servers.
  - apply (Hat _ _ H). intros c rn2 c2 Hc. unfold Clnt_makeEnd, MakeEnd in Hc. destruct (c_ends c !! server); [by simplify_eq/=|].
    case_bool_decide; [done|]. cbn in Hc. by injection Hc as <- <-.
  - apply (Hat _ _ H). intros c rn2 c2 [= <- <-]. apply enable_all_servers.
  - apply (Hat _ _ H). intros c rn2 c2 [= <- <-]. apply enable_all_servers.
  - apply (Hat _ _ H). intros c rn2 c2 [= <- <-]. apply enable_all_servers.
  - apply (Hat _ _ H). intros c rn2 c2 [= <- <-]. apply enable_all_servers.
Qed.

(** Operations that change neither ends nor servers nor tables. *)
Lemma cfg_ok_same base cfg cfg' : cfg_ok base cfg -> cfg_clnts cfg' = cfg_clnts cfg -> cfg_groups cfg' = cfg_groups cfg ->
  ends (cfg_net cfg') = ends (cfg_net cfg) -> servers (cfg_net cfg') = servers (cfg_net cfg) -> cfg_ok base cfg'.
Proof.
  intros [(m & Hm & Hends) Hgs Hreg] Hc Hg He Hs. unfold Group in *. constructor.
  - exists m. rewrite Hc. split; [done|]. destruct Hends. constructor; rewrite ?He; auto.
  - intros g sg. unfold Group. rewrite Hg. apply Hgs.
  - intros name x. unfold Group. rewrite Hs, Hg. apply Hreg.
Qed.

Lemma fit_steps n rn sg op : grp_ok n rn sg -> steps_to n rn sg (if op_fits n op then grp_op (rn, sg) op else None).
Proof.
  intros Hok. destruct (op_fits n op) eqn:Hfit; [|by intros ? ?].
  destruct op as [i to|i from|i names labsrv ran|i a|p1 p2|name server]; cbn [grp_op op_fits] in *.
  - by apply connect_steps.
  - by apply disconnect_steps.
  - apply start_steps; [done|by apply Nat.eqb_eq].
  - by apply shutdown_steps.
  - apply steps_to_bind; [by apply partition_side_steps|]. intros. by apply partition_side_steps.
  - done.
Qed.

Lemma cfg_op_ok base cfg op cfg' : cfg_ok base cfg -> fresh_start cfg op = true -> cfg_op cfg op = Some cfg' -> exists base', cfg_ok base' cfg'.
Proof.
  intros Hok Hfresh H. destruct op as [g nss boots|g a|g op|op|b|b|b|desc now| |]; cbn [cfg_op fresh_start] in H, Hfresh.
  - destruct (start_fits nss boots) eqn:Hfit; [|done]. apply andb_true_iff in Hfit as [Hn Hb]. apply bool_decide_eq_true in Hfresh.
    apply (MakeGroupStart_ok base cfg g nss boots cfg'); auto; apply Forall_forall; intros x Hx.
    + rewrite forallb_forall in Hn. apply Nat.eqb_eq, Hn. by apply list_elem_of_In.
    + rewrite forallb_forall in Hb. apply Nat.eqb_eq, Hb. by apply list_elem_of_In.
  - by eapply ExitGroup_ok.
  - eapply on_group_ok; [done| |exact H]. intros sg Hsg Hgok. by apply fit_steps.
  - destruct (clnts_op _ op) as [[rn cs]|] eqn:Hcl; [|done]. cbn in H. injection H as <-. exists base.
    pose proof (clnts_op_servers _ _ _ _ _ Hcl) as Hs. destruct Hok as [(m & Hm & Hends) Hgs Hreg]. destruct (cfg_clnts cfg) as [o]. simpl in Hm. subst o.
    destruct (clnts_op_ok _ _ _ _ _ _ Hends Hcl) as (m' & Hm' & Hends'). constructor; simpl; [by exists m'|done|]. intros name x. rewrite Hs. apply Hreg.
  - injection H as <-. exists base. by eapply cfg_ok_same.
  - injection H as <-. exists base. by eapply cfg_ok_same.
  - injection H as <-. exists base. by eapply cfg_ok_same.
  - injection H as <-. exists base. by eapply cfg_ok_same.
  - injection H as <-. exists base. by eapply cfg_ok_same.
  - injection H as <-. exists base. by eapply cfg_ok_same.
Qed.

Lemma cfg_ops_run_ok base cfg ops cfg' : cfg_ok base cfg -> fresh_starts cfg ops = true -> cfg_ops_run cfg ops = Some cfg' -> exists base', cfg_ok base' cfg'.
Proof.
  revert base cfg. induction ops as [|op ops IH]; intros base cfg Hok Hf H; cbn [cfg_ops_run fresh_starts] in H, Hf; [simplify_eq; by exists base|].
  apply andb_true_iff in Hf as [Hf1 Hf2].
  destruct (cfg_op cfg op) as [cfg1|] eqn:H1; [|done]. cbn [mbind option_bind] in H.
  destruct (cfg_op_ok _ _ _ _ Hok Hf1 H1) as [base1 Hok1]. by eapply IH.
Qed.

(** *** The start of a test *)

Lemma MakeGroupStart_clnts cfg cs g nss boots :
  MakeGroupStart (with_parts cfg cs (cfg_groups cfg) (cfg_net cfg)) g nss boots =
  (fun c => with_parts c cs (cfg_groups c) (cfg_net c)) <$> MakeGroupStart cfg g nss boots.
Proof.
  unfold MakeGroupStart, on_group. simpl. destruct (MakeGroup _ _ g nss) as [[rn gs]|]; [|done]. cbn [mbind option_bind].
  unfold Group. simpl. destruct (lookupGroup gs g) as [sg|]; [|done]. cbn [mbind option_bind]. by destruct (StartServers rn sg boots) as [[rn1 sg1]|].
Qed.

Lemma MakeConfig_ok endName nss boots now rel cfg : Forall (fun ns => length ns = length nss) nss ->
  Forall (fun b => length (b_names b) = length nss) boots -> MakeConfig endName nss boots now rel = Some cfg -> exists base, cfg_ok base cfg.
Proof.
  intros Hns Hb H. unfold MakeConfig in H. set (z := MkConfig (MkClnts None) _ _ _ _ _ _ _ _ _) in H.
  destruct (MakeGroupStart z GRP0 nss boots) as [c|] eqn:Hc; [|done]. cbn [mbind option_bind] in H. injection H as <-.
  pose proof (MakeGroupStart_clnts z makeClnts GRP0 nss boots) as Hm. rewrite Hc in Hm. simpl in Hm.
  assert (cfg_ok ∅ (with_parts z makeClnts newGroups MakeNetwork)) as Hz
    by (constructor; simpl; [exists ∅; split; [done|]; constructor; set_solver|by intros g sg|done]).
  destruct (MakeGroupStart_ok ∅ _ _ _ _ _ Hz eq_refl Hns Hb Hm) as [base Hok]. exists base. by eapply cfg_ok_same.
Qed.

Lemma MakeConfig_group endName nss boots now rel cfg : Forall (fun ns => length ns = length nss) nss ->
  Forall (fun b => length (b_names b) = length nss) boots -> MakeConfig endName nss boots now rel = Some cfg ->
  exists sg, Group cfg GRP0 = Some sg /\ grp_N sg = length nss.
Proof.
  intros Hns Hb H. unfold MakeConfig, MakeGroupStart, MakeGroup in H. simpl in H.
  destruct (makeSrvGrp MakeNetwork GRP0 nss) as [[rn sg]|] eqn:H1; [|done]. cbn [mbind option_bind] in H.
  destruct (makeSrvGrp_ok (length nss) _ _ _ _ _ H1 eq_refl Hns) as [Hwf He]. unfold on_group, Group, lookupGroup in H. simpl in H.
  rewrite lookup_insert_eq in H. cbn [mbind option_bind] in H. destruct (StartServers rn sg boots) as [[rn' sg']|] eqn:H2; [|done]. cbn [mbind option_bind] in H. injection H as <-.
  exists sg'. unfold Group, lookupGroup. simpl. rewrite lookup_insert_eq. split; [done|].
  destruct (StartServers_steps (length nss) boots rn sg Hb) with (rn' := rn') (sg' := sg') as [new Hstep]; [by constructor|done|].
  apply (gw_srvs _ _ (go_wf _ _ _ (gs_ok _ _ _ _ _ _ Hstep))).
Qed.

(** *** The end of a test *)

Lemma remove_all_servers rn l rn' : remove_all rn l = Some rn' -> servers rn' = servers rn.
Proof.
  revert rn. induction l as [|c l IH]; intros rn H; simpl in H; [by simplify_eq|].
  destruct (Clnt_remove rn c) as [rn1|] eqn:H1; [|done]. cbn [mbind option_bind] in H. apply IH in H. apply remove_ends_servers in H1. congruence.
Qed.

(** A loop over groups whose ends are in [base]. *)
Lemma shutdown_all_spec base answers l rn gs : base ⊆ ends rn ->
  (forall g sg, (g, sg) ∈ l -> gid sg = g /\ grp_wf (grp_N sg) sg /\ forall a b e, end_of sg a b = Some e -> e ∈ base) ->
  ((forall g sg i, (g, sg) ∈ l -> ready sg (answers g) i) -> is_Some (shutdown_all rn answers l gs)) /\
  forall rn' gs', shutdown_all rn answers l gs = Some (rn', gs') -> ends rn' = ends rn /\
    (forall g sg i, (g, sg) ∈ l -> ready sg (answers g) i) /\
    (forall name x, servers rn' !! name = Some (Some x) -> servers rn !! name = Some (Some x)) /\
    (forall g sg i, (g, sg) ∈ l -> (i < grp_N sg)%nat -> forall x, servers rn' !! ServerName g (Z.of_nat i) <> Some (Some x)) /\
    forall g sg', gs' !! g = Some sg' -> (forall i, stopped sg' i) \/ (gs !! g = Some sg' /\ g ∉ l.*1).
Proof.
  revert rn gs. induction l as [|[g sg] l IH]; intros rn gs Hb Hl; cbn [shutdown_all].
  { split; [by eexists|]. intros rn' gs' [= <- <-]. split_and!; auto; [set_solver..|]. intros g sg Hg. right. split; [done|]. set_solver. }
  destruct (Hl g sg) as (Hg & Hwf & He); [set_solver|].
  destruct (Shutdown_spec (grp_N sg) rn sg (answers g)) as [Hgo Hspec]; [constructor; [done|]; intros a b e Hab; apply Hb; eauto|].
  destruct (Shutdown rn sg (answers g)) as [[rn1 sg1]|] eqn:H1; cbn [mbind option_bind].
  2:{ split; [|done]. intros Hr. destruct Hgo as [? ?]; [|done]. intros i. apply Hr. set_solver. }
  destruct (Hspec _ _ eq_refl) as ([new Hstep] & He1 & Hst & Hn & Hnone).
  destruct (IH rn1 (<[g := sg1]> gs)) as [Hgo2 Hspec2]; [by rewrite He1|set_solver|].
  split; [intros Hr; apply Hgo2; set_solver|]. intros rn2 gs2 H2. destruct (Hspec2 _ _ H2) as (He2 & Hrdy & Hold & Hgone & Hgs).
  assert (forall name x, servers rn1 !! name = Some (Some x) -> servers rn !! name = Some (Some x)) as Hold1.
  { intros name x Hx. destruct (gs_reg _ _ _ _ _ _ Hstep name) as [<-|(i & Hi & ->)]; [done|]. by rewrite Hn in Hx. }
  split_and!; [congruence| |auto| |].
  - intros g' sg' i [[= -> ->]|Hin]%elem_of_cons; [by apply Hst|by apply Hrdy].
  - intros g' sg' i [[= -> ->]|Hin]%elem_of_cons Hi x Hx; [|by eapply Hgone]. apply Hold in Hx. rewrite <-Hg, Hn in Hx by done. done.
  - intros g' sg' H3. destruct (Hgs g' sg' H3) as [?|[Hin Hnot]]; [auto|]. apply lookup_insert_Some in Hin as [[<- <-]|[Hne Hin]]; [left; intros i; apply Hst|].
    right. split; [done|]. simpl. set_solver.
Qed.

(** Every daemon of the test answers. *)
Definition all_answer (cfg : Config) (answers : Z -> nat -> bool) : Prop :=
  forall g sg i s, Group cfg g = Some sg -> srvs sg !! i = Some s -> is_Some (dc s) -> answers g i = true.

Lemma Cfg_Cleanup_spec base cfg answers an t t' enabled m : cfg_ok base cfg -> clerks (cfg_clnts cfg) = Some m ->
  (all_answer cfg answers <-> is_Some (Cfg_Cleanup cfg answers an t t' enabled)) /\
  forall cfg' an' file, Cfg_Cleanup cfg answers an t t' enabled = Some (cfg', an', file) ->
    closed (cfg_net cfg') = true /\ cfg_trpc cfg' = false /\ clerks (cfg_clnts cfg') = None /\ ends (cfg_net cfg') = base /\
    (forall name x, servers (cfg_net cfg') !! name <> Some (Some x)) /\ forall g sg i, Group cfg' g = Some sg -> stopped sg i.
Proof.
  intros [(m' & Hm' & Hends) Hgs Hreg] Hm. assert (m' = m) as -> by congruence.
  destruct (remove_all_ok base (map_to_list m).*2 _ m Hends) as (rn1 & H1 & He1); [done|]. pose proof (remove_all_servers _ _ _ H1) as Hs1.
  destruct (shutdown_all_spec base answers (map_to_list (grps (cfg_groups cfg))) rn1 (grps (cfg_groups cfg))) as [Hgo Hspec].
  { by rewrite He1. }
  { intros g sg Hin%elem_of_map_to_list. by apply Hgs. }
  unfold Cfg_Cleanup, clnts_cleanup, groups_cleanup. rewrite Hm. simpl. rewrite H1. cbn [mbind option_bind].
  destruct (shutdown_all _ _ _ _) as [[rn2 gs2]|] eqn:H2; cbn [mbind option_bind].
  2:{ split; [|done]. split; [|by intros [? ?]]. intros Ha. destruct Hgo as [? ?]; [|done]. intros g sg i Hg%elem_of_map_to_list s. by apply (Ha g sg i s). }
  destruct (Hspec _ _ eq_refl) as (He2 & Hrdy & Hold & Hgone & Hst). destruct (cleanup _ _ _ _ _ _) as [an1 file1]. split.
  - split; [intros _; by eexists|]. intros _ g sg i s Hg. apply (Hrdy g sg i). by apply elem_of_map_to_list.
  - intros cfg' an' file [= <- <- <-]. split_and!; [done|done|done|simpl; congruence| |].
    + intros name x Hx. simpl in Hx. pose proof (Hold _ _ Hx) as Hx'. rewrite Hs1 in Hx'. destruct (Hreg name x Hx') as (g & sg & i & Hg & Hi & ->).
      eapply Hgone; [apply elem_of_map_to_list; exact Hg|exact Hi|exact Hx].
    + intros g sg i Hg. destruct (Hst g sg Hg) as [?|[Hg' Hnot]]; [auto|]. exfalso. apply Hnot, list_elem_of_fmap. exists (g, sg).
      split; [done|by apply elem_of_map_to_list].
Qed.

(** C24 (safety): the end of a test leaves nothing behind.  Take MakeConfig
    and any sequence of operations of a test that goes through: groups that
    are made, started, partitioned, shut down and leave, clients that come,
    call and go, changes of the network; every group that is started has a
    number not in use (MakeGroup would replace the other one and leave its
    daemons running).  Then Config.Cleanup goes through exactly if every
    daemon that the servers of the groups still have answers the tester and
    can be killed (otherwise it ends in log.Fatalf); and when it has gone
    through, the network and the tester's RPC server are closed, no client
    and no end of a client is left, no server is registered in the network,
    and no server of any group has a daemon. *)
Theorem cleanup_leaves_nothing (endName : string) (nss : list (list string)) (boots : list Boot) (now : Z) (rel : bool) (ops : list CfgOp)
    (cfg0 cfg : Config) (answers : Z -> nat -> bool) (an : Annotation) (t t' : Z) (enabled : string) :
  Forall (fun ns => length ns = length nss) nss -> Forall (fun b => length (b_names b) = length nss) boots ->
  MakeConfig endName nss boots now rel = Some cfg0 -> fresh_starts cfg0 ops = true -> cfg_ops_run cfg0 ops = Some cfg ->
  (all_answer cfg answers <-> is_Some (Cfg_Cleanup cfg answers an t t' enabled)) /\
  forall cfg' an' file, Cfg_Cleanup cfg answers an t t' enabled = Some (cfg', an', file) ->
    closed (cfg_net cfg') = true /\ cfg_trpc cfg' = false /\ clerks (cfg_clnts cfg') = None /\
    (forall m p c srv e, clerks (cfg_clnts cfg) = Some m -> m !! p = Some c -> c_ends c !! srv = Some e -> e ∉ ends (cfg_net cfg')) /\
    (forall name x, servers (cfg_net cfg') !! name <> Some (Some x)) /\
    forall g sg i s, Group cfg' g = Some sg -> srvs sg !! i = Some s -> dc s = None.
Proof.
  intros Hns Hb H0 Hfresh Hrun. destruct (MakeConfig_ok _ _ _ _ _ _ Hns Hb H0) as [base0 Hok0].
  destruct (cfg_ops_run_ok _ _ _ _ Hok0 Hfresh Hrun) as [base Hok]. destruct (co_clnts _ _ Hok) as (m & Hm & Hends).
  destruct (Cfg_Cleanup_spec base cfg answers an t t' enabled m Hok Hm) as [Hgo Hspec]. split; [done|].
  intros cfg' an' file Hc. destruct (Hspec _ _ _ Hc) as (Hcl & Ht & Hk & He & Hs & Hst). split_and!; auto.
  - intros m' p c srv e Hm' Hp Hce. assert (m' = m) as -> by congruence. rewrite He. by apply (eo_own _ _ _ Hends p c srv e).
  - intros g sg i s Hg Hi. by eapply Hst.
Qed.

(** ** Shuffles *)

Lemma swap_perm {A} (l l' : list A) i j : swap l i j = Some l' -> l' ≡ₚ l.
Proof.
  unfold swap. destruct (l !! i) as [x|] eqn:Hx; [|done]. destruct (l !! j) as [y|] eqn:Hy; [|done]. cbn [mbind option_bind]. intros [= <-].
  by apply Permutation_insert_swap.
Qed.

Lemma shuffle_perm {A} js (l : list A) i : (i + length js <= length l)%nat -> (forall k j, js !! k = Some j -> (j <= i + k)%nat) ->
  exists l', shuffle l i js = Some l' /\ l' ≡ₚ l.
Proof.
  revert l i. induction js as [|j js IH]; intros l i Hlen Hjs; cbn [shuffle]; [by exists l|]. simpl in Hlen.
  pose proof (Hjs 0%nat j eq_refl) as Hj. destruct (lookup_lt_is_Some_2 l i) as [x Hx]; [lia|]. destruct (lookup_lt_is_Some_2 l j) as [y Hy]; [lia|].
  destruct (swap l i j) as [l1|] eqn:Hsw; [|unfold swap in Hsw; by rewrite Hx, Hy in Hsw]. pose proof (swap_perm _ _ _ _ Hsw) as Hp.
  cbn [mbind option_bind]. destruct (IH l1 (S i)) as (l' & H & Hp').
  - apply Permutation_length in Hp. lia.
  - intros k j' Hk. specialize (Hjs (S k) j' Hk). lia.
  - exists l'. split; [done|]. by rewrite Hp'.
Qed.

(** Whatever rand.Intn returns (below its argument), random_handles returns
    the same handles in some order. *)
Theorem random_handles_perm {A} (kvh : list A) (js : list nat) :
  length js = length kvh -> (forall i j, js !! i = Some j -> (j <= i)%nat) ->
  exists sa, random_handles kvh js = Some sa /\ sa ≡ₚ kvh.
Proof. intros Hlen Hjs. apply shuffle_perm; [lia|]. intros k j Hk. apply Hjs in Hk. lia. Qed.

Lemma base64_length b : (length (base64 b) = 4 * ((length b + 2) / 3))%nat.
Proof.
  assert (forall k b, (length b <= k)%nat -> (length (base64 b) = 4 * ((length b + 2) / 3))%nat) as H; [|by apply (H (length b))].
  clear b. induction k as [|k IH]; intros [|x [|y [|z b]]] Hk; simpl in Hk; try done; [lia..|]. cbn [base64 length].
  rewrite IH by lia. replace (S (S (S (length b))) + 2)%nat with (length b + 2 + 1 * 3)%nat by lia. rewrite Nat.div_add by done. lia.
Qed.

(** Randstring does not panic, and its result has [n] characters. *)
Theorem Randstring_length (b : list Z) (n : nat) : length b = (2 * n)%nat -> exists s, Randstring b n = Some s /\ String.length s = n.
Proof.
  intros Hb. pose proof (base64_length b) as Hl. rewrite Hb in Hl.
  assert (n <= length (base64 b))%nat as Hle.
  { rewrite Hl. pose proof (Nat.div_mod_eq (2 * n + 2) 3). pose proof (Nat.mod_upper_bound (2 * n + 2) 3 ltac:(done)). lia. }
  unfold Randstring. destruct (Nat.ltb_spec (length (base64 b)) n); [lia|]. eexists. split; [done|].
  rewrite <-(length_take_le (base64 b) n) at 2 by done. generalize (take n (base64 b)). intros l. induction l; simpl; congruence.
Qed.

(** ** Witnesses *)

Definition one_test : list CfgOp :=
  [KBegin "Test: one client" 5; KClnt (OpNew 0 None); KClnt (OpCall 0 (ServerName 0 1) "c01"); KRpc; KInc;
   KStart 1 [["d0"]] [MkBoot ["d1"] 21 true]; KGroup 0 (GShutdown 2 true); KGroup 0 (GPartition [0; 1] [2])%nat;
   KClnt (OpNew 1 (Some [ServerName 1 0])); KClnt (OpCall 1 (ServerName 1 0) "c10"); KRpc; KReliable false; KClnt (OpDelete 0); KExit 1 (fun _ => true)].

Definition test_start : option Config := MakeConfig "tester" three_names three_boots 0 true.
Definition test_end : option Config := cfg ← test_start; cfg_ops_run cfg one_test.

Definition no_test : Config := MkConfig makeClnts newGroups MakeNetwork 0 0 0 0 "" false false.

Lemma cleanup_leaves_nothing_witness : is_Some test_end /\
  (exists cfg' an' file, Cfg_Cleanup (default no_test test_end) (fun _ _ => true) mkAnnotation 9 10 "always" = Some (cfg', an', file) /\ cfg_trpc cfg' = false) /\
  Cfg_Cleanup (default no_test test_end) (fun _ i => (i =? 1)%nat) mkAnnotation 9 10 "always" = None.
Proof.
  assert (is_Some test_end) as Hs by (vm_compute; eauto). split; [exact Hs|]. split; [|vm_compute; reflexivity].
  destruct (cleanup_leaves_nothing "tester" three_names three_boots 0 true one_test (default no_test test_start) (default no_test test_end)
    (fun _ _ => true) mkAnnotation 9 10 "always") as [Hgo Hend]; [repeat constructor..|vm_compute; reflexivity|vm_compute; reflexivity|vm_compute; reflexivity|].
  destruct Hgo as [[[[cfg' an'] file] H] _]; [intros g sg i s _ _ _; reflexivity|]. destruct (Hend _ _ _ H) as (_ & Ht & _).
  exists cfg', an', file. exact (conj H Ht).
Defined.
