(* ===== verification/Porcupine.v ===== *)
(** * The log of client operations (src/kvtest1/porcupine.go)

    Every Get and Put of a test client is logged with the times of its call
    and of its return; at the end of a test the log is given to porcupine, a
    linearizability checker, together with the model of models1.  Porcupine is
    not part of the repository: it is a parameter, of which only one thing is
    assumed, that it says Illegal of no history that has a linearization.

    The clerks are those of kvsrv1, loop and all: each Call may fail before or
    after the server has executed its request, may be executed late, even
    after the clerk has returned, and is executed at most once (Labrpc.v).
    The theorem: clients that call at any times and overlap in any way, and
    put with versions that their keys have had, never fail the check.  A
    checker by exhaustive search shows that the assumption can be met. *)

From S2P Require Import Prelude Config Rpc KvSrv KvModel KvClerk Annotation.

(** ** The log *)

Abbreviation OpLog := (list Operation) (only parsing).
Definition Len (log : OpLog) : Z := len log.
Definition Append (log : OpLog) (op : Operation) : OpLog := log ++ [op].
Definition Read (log : OpLog) : list Operation := log.

(** ** Calls of clients

    [Method]: Get and Put of a Test; [Package]: the functions Get and Put,
    which GetJson and PutJson call. *)
Inductive Style : Type := Method | Package.

Inductive Reply : Type := RGet (r : GetReply) | RPut (r : PutReply).

(** A call in flight, in the loop of the clerk: [k_resent] is the local
    variable of Put; [k_lost] counts the Calls that failed before the server
    executed their request; [k_exec] is the server's reply to the request of
    the current Call, once it was executed; [k_out] is there once the clerk
    has returned. *)
Record InFlight : Type := MkInFlight {
  k_start : Z;
  k_style : Style;
  k_req : Request;
  k_cli : Z;
  k_resent : bool;
  k_lost : nat;
  k_exec : option Reply;
  k_out : option KvOutput;
}.

(** [l_ops] is the counter of the test's Config; calls are known by the
    goroutine that makes them.  [l_late]: requests of failed Calls that the
    server may still execute, of calls that have returned. *)
Record Logging : Type := MkLogging {
  l_kv : KVServer;
  l_now : Z;
  l_oplog : OpLog;
  l_ops : Z;
  l_calls : gmap nat InFlight;
  l_late : list Request;
}.

Definition Input_of (req : Request) : KvInput :=
  match req with
  | ReqGet a => MkKvInput 0 (GetArgs_Key a) "" 0
  | ReqPut a => MkKvInput 1 (PutArgs_Key a) (PutArgs_Value a) (PutArgs_Version a)
  end.

(** The server's handlers. *)
Definition serve (kv : KVServer) (req : Request) : KVServer * Reply :=
  match req with
  | ReqGet a => (kv, RGet (Get kv a))
  | ReqPut a => let '(kv, r) := Put kv a in (kv, RPut r)
  end.

Definition put_output (err : Err) : KvOutput := MkKvOutput "" 0 (Err_string err).

(** What [Clerk.Get] and [Clerk.Put] return when a Call has returned true with
    reply [r], as the logging function writes it down. *)
Definition clerk_returns (resent : bool) (r : Reply) : KvOutput :=
  match r with
  | RGet r => MkKvOutput (GetReply_Value r) (GetReply_Version r) (Err_string (GetReply_Err r))
  | RPut r => put_output (if Err_eqb (PutReply_Err r) ErrVersion && resent then ErrMaybe else PutReply_Err r)
  end.

(** Whether the logging function counts the call; the TestClerk that it calls
    has counted it already. *)
Definition counts (style : Style) (req : Request) : bool :=
  match style, req with Method, ReqPut _ => false | _, _ => true end.

Inductive LEvent : Type :=
| LTick (d : nat)
| LInvoke (g : nat) (style : Style) (req : Request) (cli : Z)  (* the clerk's first Call *)
| LExec (g : nat)    (* the server executes the request of the current Call *)
| LFail (g : nat)    (* the Call returns false, and the clerk calls again *)
| LLate (g : nat)    (* the server executes the request of a Call that has failed *)
| LReply (g : nat)   (* the Call returns true, and so the clerk returns *)
| LReturn (g : nat)  (* the return is logged *)
| LStale (i : nat).  (* the server executes a request of a clerk that has returned *)

Definition set_call (s : Logging) (kv : KVServer) (g : nat) (f : InFlight) : Logging :=
  MkLogging kv (l_now s) (l_oplog s) (l_ops s) (<[g := f]> (l_calls s)) (l_late s).

(** An event that is not enabled changes nothing. *)
Definition log_step (s : Logging) (ev : LEvent) : Logging :=
  match ev with
  | LTick d => MkLogging (l_kv s) (l_now s + Z.of_nat d) (l_oplog s) (l_ops s) (l_calls s) (l_late s)
  | LInvoke g style req cli =>
      match l_calls s !! g with
      | None => MkLogging (l_kv s) (l_now s) (l_oplog s) (int32 (l_ops s + 1)) (<[g := MkInFlight (l_now s) style req cli false 0 None None]> (l_calls s)) (l_late s)
      | Some _ => s
      end
  | LExec g =>
      match l_calls s !! g with
      | Some (MkInFlight start style req cli resent lost None None) =>
          let '(kv, r) := serve (l_kv s) req in set_call s kv g (MkInFlight start style req cli resent lost (Some r) None)
      | _ => s
      end
  | LFail g =>
      match l_calls s !! g with
      | Some (MkInFlight start style req cli resent lost ex None) =>
          set_call s (l_kv s) g (MkInFlight start style req cli true match ex with Some _ => lost | None => S lost end None None)
      | _ => s
      end
  | LLate g =>
      match l_calls s !! g with
      | Some (MkInFlight start style req cli resent (S lost) ex out) =>
          set_call s (fst (serve (l_kv s) req)) g (MkInFlight start style req cli resent lost ex out)
      | _ => s
      end
  | LReply g =>
      match l_calls s !! g with
      | Some (MkInFlight start style req cli resent lost (Some r) None) =>
          set_call s (l_kv s) g (MkInFlight start style req cli resent lost (Some r) (Some (clerk_returns resent r)))
      | _ => s
      end
  | LReturn g =>
      match l_calls s !! g with
      | Some (MkInFlight start style req cli resent lost ex (Some out)) =>
          MkLogging (l_kv s) (l_now s) (Append (l_oplog s) (MkOperation (Input_of req) out start (l_now s) cli))
            (if counts style req then int32 (l_ops s + 1) else l_ops s) (delete g (l_calls s)) (l_late s ++ replicate lost req)
      | _ => s
      end
  | LStale i =>
      match l_late s !! i with
      | Some req => MkLogging (fst (serve (l_kv s) req)) (l_now s) (l_oplog s) (l_ops s) (l_calls s) (delete i (l_late s))
      | None => s
      end
  end.

Definition log_run (s : Logging) (evs : list LEvent) : Logging := foldl log_step s evs.

Definition log_start (now : Z) : Logging := MkLogging MakeKVServer now [] 0 ∅ [].

(** Clients put with versions that the server has given to the key: the one of
    a Get or an earlier one, or 0. *)
Definition known_version (s : Logging) (ev : LEvent) : bool :=
  match ev with
  | LInvoke _ _ (ReqPut a) _ => (0 <=? PutArgs_Version a) && (PutArgs_Version a <=? version_of (l_kv s) (PutArgs_Key a))
  | _ => true
  end.

Fixpoint known_versions (s : Logging) (evs : list LEvent) : bool :=
  match evs with [] => true | ev :: evs => known_version s ev && known_versions (log_step s ev) evs end.

(** ** The check *)

Inductive CheckResult : Type := Legal | Illegal | Unknown.

Record CheckOutcome : Type := MkCheckOutcome { ch_failed : bool; ch_world : World; ch_file : option (list PAnnotation) }.

(** [opened]: whether the file of the visualization could be opened (and
    made, if VIS_FILE is empty); [t], [t'] the two times FinalizeAnnotations
    reads. *)
Definition checkPorcupine (CheckOperationsVerbose : list Operation -> Z -> CheckResult) (w : World) (log : OpLog) (nsec : Z)
    (enabled : string) (opened : bool) (t t' : Z) : CheckOutcome :=
  match CheckOperationsVerbose (Read log) nsec with
  | Illegal =>
      if opened && negb (String.eqb enabled "never") then
        let '(w, l) := FinalizeAnnotations w t t' "test failed" in MkCheckOutcome true w (Some l)
      else MkCheckOutcome true w None
  | _ =>
      if String.eqb enabled "always" && GetAnnotationFinalized w && opened then
        let '(w, l) := FinalizeAnnotations w t t' "test passed" in MkCheckOutcome false w (Some l)
      else MkCheckOutcome false w None
  end.

Definition linearizabilityCheckTimeout : Z := 10 ^ 9.

Definition CheckPorcupine (CheckOperationsVerbose : list Operation -> Z -> CheckResult) (w : World) (log : OpLog)
    (enabled : string) (opened : bool) (t t' : Z) : CheckOutcome :=
  checkPorcupine CheckOperationsVerbose w log linearizabilityCheckTimeout enabled opened t t'.

(** ** Linearizability *)

(** No operation was over before an earlier one in the list was called. *)
Fixpoint real_time (l : list Operation) : bool :=
  match l with [] => true | o :: l => forallb (fun o' => negb (Return_ o' <? Call o)) l && real_time l end.

Definition is_linearization (p p' : list Operation) : Prop := p' ≡ₚ p /\ real_time p' = true /\ accepts Init p' = true.

Definition linearizable (h : list Operation) : Prop := Forall (fun p => exists p', is_linearization p p') (Partition h).

(** A checker by exhaustive search. *)
Definition search (h : list Operation) (nsec : Z) : CheckResult :=
  if forallb (fun p => existsb (fun p' => real_time p' && accepts Init p') (permutations p)) (Partition h) then Legal else Illegal.

Lemma search_sound h nsec : search h nsec = Illegal -> ~ linearizable h.
Proof.
  unfold search. destruct (forallb _ _) eqn:Hall; [done|]. intros _ Hlin. apply not_true_iff_false in Hall. apply Hall, forallb_forall.
  intros p Hp%list_elem_of_In. unfold linearizable in Hlin. rewrite Forall_forall in Hlin. destruct (Hlin p Hp) as (p' & Hperm & Hrt & Hacc).
  apply existsb_exists. exists p'. rewrite Hrt, Hacc. split; [|done]. apply list_elem_of_In, permutations_Permutation. by symmetry.
Qed.

(** ** The calls in the order of their effects *)

Fixpoint model_run (st : KvState) (h : list Operation) : option KvState :=
  match h with
  | [] => Some st
  | o :: h => match Step st (Input o) (Output o) with (true, Some st') => model_run st' h | _ => None end
  end.

Lemma model_run_accepts st h st' : model_run st h = Some st' -> accepts st h = true.
Proof. revert st. induction h as [|o h IH]; intros st H; simpl in *; [done|]. destruct (Step _ _ _) as [[] [s1|]]; try done. by apply IH. Qed.

Lemma model_run_snoc st h o st1 st2 : model_run st h = Some st1 -> Step st1 (Input o) (Output o) = (true, Some st2) -> model_run st (h ++ [o]) = Some st2.
Proof.
  revert st. induction h as [|o1 h IH]; intros st H Ho; simpl in *; [simplify_eq; by rewrite Ho|].
  destruct (Step st (Input o1) (Output o1)) as [[] [s1|]]; try done. by apply IH.
Qed.

Lemma model_run_app st h1 h2 : model_run st (h1 ++ h2) = st' ← model_run st h1; model_run st' h2.
Proof. revert st. induction h1 as [|o h1 IH]; intros st; simpl; [done|]. destruct (Step _ _ _) as [[] [s1|]]; simpl; auto. Qed.

(** [out'] is as good a result as that of [o]. *)
Definition good_output (o : Operation) (out' : KvOutput) : Prop :=
  forall st st', Step st (Input o) (Output o) = (true, Some st') -> Step st (Input o) out' = (true, Some st').

Lemma model_run_output st h1 o o' h2 st' : good_output o (Output o') -> Input o' = Input o ->
  model_run st (h1 ++ o :: h2) = Some st' -> model_run st (h1 ++ o' :: h2) = Some st'.
Proof.
  intros Hg Hi. rewrite !model_run_app. destruct (model_run st h1) as [st1|]; [|done]. simpl. rewrite Hi.
  destruct (Step st1 (Input o) (Output o)) as [[] [s1|]] eqn:Ho; try done. by rewrite (Hg _ _ Ho).
Qed.

Lemma model_run_get st h1 o h2 st' : in_Op (Input o) = 0 -> model_run st (h1 ++ o :: h2) = Some st' -> model_run st (h1 ++ h2) = Some st'.
Proof.
  intros Hop. rewrite !model_run_app. destruct (model_run st h1) as [st1|]; [|done]. simpl. unfold Step. rewrite Hop. simpl.
  by destruct (String.eqb _ _).
Qed.

Lemma good_output_refl o : good_output o (Output o).
Proof. by intros st st'. Qed.

(** ErrMaybe is a good result of every Put. *)
Lemma good_maybe o : in_Op (Input o) = 1 -> good_output o (put_output ErrMaybe).
Proof. intros Hop st st'. unfold Step. rewrite Hop. simpl. destruct (_ =? _); simpl; intros H; congruence. Qed.

(** An operation that has taken effect: at which time, and for which call, if
    the call has not returned. *)
Record Effect : Type := MkEffect { e_op : Operation; e_at : Z; e_call : option nat }.

Definition timely (now : Z) (e : Effect) : Prop :=
  Call (e_op e) <= e_at e <= now /\ (e_call e = None -> e_at e <= Return_ (e_op e)).

Definition unreturned (L : list Effect) : list (nat * Operation) := omap (fun e => (fun g => (g, e_op e)) <$> e_call e) L.
Definition returned (L : list Effect) : list Operation := omap (fun e => match e_call e with None => Some (e_op e) | Some _ => None end) L.

(** The effects in their order explain the state of the server and the log;
    [eff] are those of calls that have not returned. *)
Record lin_ok (kv : KVServer) (now : Z) (log : OpLog) (L : list Effect) (eff : gmap nat Operation) : Prop := {
  lk_model : forall k, model_run Init (filter (fun o => op_key o = k) (e_op <$> L)) = Some (abs kv k);
  lk_order : StronglySorted (fun e e' => e_at e <= e_at e') L;
  lk_timely : Forall (timely now) L;
  lk_log : log ≡ₚ returned L;
  lk_eff : map_to_list eff ≡ₚ unreturned L;
}.

Lemma lin_start now : lin_ok MakeKVServer now [] [] ∅.
Proof. constructor; simpl; try constructor; done. Qed.

Lemma sorted_snoc L e : StronglySorted (fun e e' => e_at e <= e_at e') L -> Forall (fun e' => e_at e' <= e_at e) L ->
  StronglySorted (fun e e' => e_at e <= e_at e') (L ++ [e]).
Proof.
  induction 1 as [|e1 L Hs IH H1]; intros Hall; simpl; [repeat constructor|]. apply Forall_cons in Hall as [He Hall].
  constructor; [by apply IH|]. apply Forall_app. split; [done|]. by constructor.
Qed.

Lemma sorted_replace L1 L2 e e' : e_at e' = e_at e -> StronglySorted (fun e e' => e_at e <= e_at e') (L1 ++ e :: L2) ->
  StronglySorted (fun e e' => e_at e <= e_at e') (L1 ++ e' :: L2).
Proof.
  intros He. induction L1 as [|e1 L1 IH]; simpl; intros H; apply StronglySorted_inv in H as [Hs Hf].
  - constructor; [done|]. by rewrite He.
  - constructor; [by apply IH|]. rewrite Forall_app, Forall_cons in Hf |- *. by rewrite He.
Qed.

Lemma sorted_remove L1 L2 e : StronglySorted (fun e e' => e_at e <= e_at e') (L1 ++ e :: L2) ->
  StronglySorted (fun e e' => e_at e <= e_at e') (L1 ++ L2).
Proof.
  induction L1 as [|e1 L1 IH]; simpl; intros H; apply StronglySorted_inv in H as [Hs Hf]; [done|].
  constructor; [by apply IH|]. rewrite Forall_app, Forall_cons in Hf. rewrite Forall_app. tauto.
Qed.

Lemma lin_tick kv now now' log L eff : now <= now' -> lin_ok kv now log L eff -> lin_ok kv now' log L eff.
Proof.
  intros Hle [Hm Ho Ht Hl He]. constructor; auto. eapply Forall_impl; [exact Ht|]. intros e [? ?]. split; [lia|done].
Qed.

(** A call takes effect, *)
Lemma lin_append kv kv' now log L eff g o : lin_ok kv now log L eff -> eff !! g = None -> Call o <= now ->
  Step (abs kv (op_key o)) (Input o) (Output o) = (true, Some (abs kv' (op_key o))) -> (forall k, k <> op_key o -> abs kv' k = abs kv k) ->
  lin_ok kv' now log (L ++ [MkEffect o now (Some g)]) (<[g := o]> eff).
Proof.
  intros [Hm Ho Ht Hl He] Hg Hc Hst Hother. constructor.
  - intros k. rewrite fmap_app, filter_app. simpl. rewrite filter_cons, filter_nil. case_decide as Hk.
    + subst k. by eapply model_run_snoc.
    + by rewrite app_nil_r, Hother.
  - apply sorted_snoc; [done|]. eapply Forall_impl; [exact Ht|]. simpl. intros e [? _]. lia.
  - apply Forall_app. split; [done|]. repeat constructor; simpl; [lia|lia|done].
  - unfold returned. rewrite omap_app. simpl. by rewrite app_nil_r.
  - unfold unreturned. rewrite omap_app. simpl. rewrite map_to_list_insert, He by done. apply Permutation_cons_append.
Qed.

Lemma eff_entry kv now log L eff g o : lin_ok kv now log L eff -> eff !! g = Some o ->
  exists L1 L2 at_, L = L1 ++ MkEffect o at_ (Some g) :: L2 /\ map_to_list (delete g eff) ≡ₚ unreturned L1 ++ unreturned L2.
Proof.
  intros Hok Hg. assert ((g, o) ∈ unreturned L) as Hin by (rewrite <-(lk_eff _ _ _ _ _ Hok); by apply elem_of_map_to_list).
  apply list_elem_of_omap in Hin as ([op at_ c] & Hin & Hx). simpl in Hx. destruct c as [g'|]; [|done]. simpl in Hx. injection Hx as -> ->.
  apply list_elem_of_split in Hin as (L1 & L2 & ->). exists L1, L2, at_. split; [done|].
  pose proof (lk_eff _ _ _ _ _ Hok) as He. unfold unreturned in *. rewrite omap_app in He. simpl in He.
  rewrite <-Permutation_middle, <-(map_to_list_delete _ g o Hg) in He. by apply Permutation_cons_inv in He.
Qed.

(** a Get takes its effect back, to take effect later, *)
Lemma lin_remove kv now log L eff g o : lin_ok kv now log L eff -> eff !! g = Some o -> in_Op (Input o) = 0 ->
  exists L', lin_ok kv now log L' (delete g eff).
Proof.
  intros Hok Hg Hop. destruct (eff_entry _ _ _ _ _ _ _ Hok Hg) as (L1 & L2 & at_ & -> & He). destruct Hok as [Hm Ho Ht Hl _].
  exists (L1 ++ L2). constructor.
  - intros k. specialize (Hm k). rewrite !fmap_app, fmap_cons, !filter_app, filter_cons in *. simpl in Hm. case_decide; [|done]. by eapply model_run_get.
  - by eapply sorted_remove.
  - rewrite Forall_app, Forall_cons in Ht. rewrite Forall_app. tauto.
  - unfold returned in *. by rewrite omap_app in *.
  - rewrite He. unfold unreturned. by rewrite omap_app.
Qed.

(** and a call returns: its entry is completed in place. *)
Lemma lin_return kv now log L eff g o o' : lin_ok kv now log L eff -> eff !! g = Some o -> good_output o (Output o') ->
  Input o' = Input o -> Call o' = Call o -> Return_ o' = now -> exists L', lin_ok kv now (log ++ [o']) L' (delete g eff).
Proof.
  intros Hok Hg Hgood Hi Hc Hr. destruct (eff_entry _ _ _ _ _ _ _ Hok Hg) as (L1 & L2 & at_ & -> & He). destruct Hok as [Hm Ho Ht Hl _].
  exists (L1 ++ MkEffect o' at_ None :: L2). apply Forall_app in Ht as [Ht1 Ht2]. apply Forall_cons in Ht2 as [Hte Ht2]. constructor.
  - intros k. specialize (Hm k). rewrite !fmap_app, !fmap_cons, !filter_app, !filter_cons in *. simpl in *.
    assert (op_key o' = op_key o) as Hkey by (unfold op_key; by rewrite Hi). rewrite Hkey. case_decide; [|done]. by eapply model_run_output.
  - by apply (sorted_replace L1 L2 (MkEffect o at_ (Some g))).
  - apply Forall_app. split; [done|]. constructor; [|done]. destruct Hte as [[H1 H2] _]. split; simpl in *; [lia|]. intros _. lia.
  - unfold returned in *. rewrite omap_app in *. simpl in *. rewrite Hl, <-Permutation_cons_append. apply Permutation_middle.
  - rewrite He. unfold unreturned. by rewrite omap_app.
Qed.

(** ** The clerks' loops *)

Definition op_for (f : InFlight) (o : Operation) : Prop :=
  Input o = Input_of (k_req f) /\ Call o = k_start f /\ ClientId o = k_cli f.

(** What a call has done so far, with the operation [e] that it took effect
    as: the first execution of a Put decides, and the last one of a Get. *)
Definition get_ok (f : InFlight) (e : option Operation) : Prop :=
  (forall r, k_exec f = Some r -> exists o, e = Some o /\ Output o = clerk_returns (k_resent f) r) /\
  (forall out, k_out f = Some out -> exists o, e = Some o /\ Output o = out) /\ (is_Some (k_out f) -> is_Some (k_exec f)).

Definition put_ok (kv : KVServer) (a : PutArgs) (f : InFlight) (e : option Operation) : Prop :=
  0 <= PutArgs_Version a <= version_of kv (PutArgs_Key a) /\
  (is_Some e -> PutArgs_Version a < version_of kv (PutArgs_Key a)) /\
  (forall r, k_exec f = Some r -> exists o, e = Some o /\
     (r = RPut (MkPutReply OK) /\ Output o = put_output OK \/
      r = RPut (MkPutReply ErrVersion) /\ (k_resent f = false -> Output o = put_output ErrVersion))) /\
  (k_resent f = false -> k_lost f = 0%nat /\ (k_exec f = None -> e = None)) /\
  (forall out, k_out f = Some out -> exists o, e = Some o /\ (out = Output o \/ out = put_output ErrMaybe)).

Definition call_ok (kv : KVServer) (now : Z) (f : InFlight) (e : option Operation) : Prop :=
  k_start f <= now /\ (forall o, e = Some o -> op_for f o) /\
  match k_req f with ReqGet _ => get_ok f e | ReqPut a => put_ok kv a f e end.

(** A late request of a call that has returned. *)
Definition outdated (kv : KVServer) (req : Request) : Prop :=
  match req with ReqGet _ => True | ReqPut a => 0 <= PutArgs_Version a < version_of kv (PutArgs_Key a) end.

Record log_ok (s : Logging) (n : Z) : Prop := {
  lo_wf : kv_wf (l_kv s);
  lo_versions : forall k, version_of (l_kv s) k <= n;
  lo_late : Forall (outdated (l_kv s)) (l_late s);
  lo_lin : exists L eff, lin_ok (l_kv s) (l_now s) (l_oplog s) L eff /\ (forall g, is_Some (eff !! g) -> is_Some (l_calls s !! g)) /\
    forall g f, l_calls s !! g = Some f -> call_ok (l_kv s) (l_now s) f (eff !! g);
}.

(** The server's versions only grow. *)
Definition versions_grow (kv kv' : KVServer) : Prop := forall k, version_of kv k <= version_of kv' k.

Lemma call_ok_grow kv kv' now now' f e : versions_grow kv kv' -> now <= now' -> call_ok kv now f e -> call_ok kv' now' f e.
Proof.
  intros Hg Hn (Hs & Ho & Hreq). split_and!; [lia|done|]. destruct (k_req f) as [a|a]; [done|]. specialize (Hg (PutArgs_Key a)).
  destruct Hreq as (Hv & He & Hr). split_and!; try apply Hr; [lia..|]. intros H%He. lia.
Qed.

Lemma outdated_grow kv kv' req : versions_grow kv kv' -> outdated kv req -> outdated kv' req.
Proof. intros Hg. destruct req as [a|a]; [done|]. simpl. specialize (Hg (PutArgs_Key a)). lia. Qed.

Lemma Put_grows kv a : kv_wf kv -> (forall k, version_of kv k < 2 ^ 64 - 1) -> versions_grow kv (fst (Put kv a)).
Proof. intros Hwf Hb k. specialize (Hb k). pose proof (Put_version_step kv a k Hwf). lia. Qed.

Lemma versions_grow_refl kv : versions_grow kv kv.
Proof. by intros k. Qed.
#[local] Hint Resolve versions_grow_refl Z.le_refl : core.

Lemma stale_serve kv req : outdated kv req -> fst (serve kv req) = kv /\
  forall a, req = ReqPut a -> snd (serve kv req) = RPut (MkPutReply ErrVersion).
Proof.
  destruct req as [a|a]; [done|]. simpl. intros Hv. rewrite (Put_stale kv a); [|unfold version_of in Hv; destruct (kv !! _); [by eexists|lia]|lia].
  split; [done|]. by intros ? _.
Qed.

(** The execution of a Put with a known version. *)
Lemma known_Put kv a (r := snd (Put kv a)) (kv' := fst (Put kv a)) : kv_wf kv -> (forall k, version_of kv k < 2 ^ 64 - 1) ->
  0 <= PutArgs_Version a <= version_of kv (PutArgs_Key a) ->
  (r = MkPutReply OK \/ r = MkPutReply ErrVersion) /\ PutArgs_Version a < version_of kv' (PutArgs_Key a) /\
  forall t c, let o := MkOperation (Input_of (ReqPut a)) (put_output (PutReply_Err r)) t 0 c in
    Step (abs kv (op_key o)) (Input o) (Output o) = (true, Some (abs kv' (op_key o))) /\ forall k, k <> op_key o -> abs kv' k = abs kv k.
Proof.
  intros Hwf Hb Hv. assert (r = MkPutReply OK \/ r = MkPutReply ErrVersion) as Hr.
  { subst r. unfold Put, version_of in *. destruct (kv !! PutArgs_Key a) as [e|].
    - destruct (_ =? _); simpl; auto.
    - rewrite (proj2 (Z.eqb_eq _ _)) by lia. simpl. auto. }
  assert (PutReply_Err (snd (Put kv a)) <> ErrNoKey) as Hk by (fold r; destruct Hr as [-> | ->]; done). split_and!; [done| |].
  - subst kv'. rewrite Put_version_of. specialize (Hb (PutArgs_Key a)). case_decide as Hd; [rewrite u64_small by lia; lia|].
    enough (PutArgs_Version a <> version_of kv (PutArgs_Key a)) by lia. intros E. by apply Hd.
  - intros t c o. split; [exact (Put_refines kv a t 0 c Hk)|]. intros k Hne. by apply abs_other.
Qed.

Lemma Get_step kv a t c (o := MkOperation (Input_of (ReqGet a)) (clerk_returns false (RGet (Get kv a))) t 0 c) :
  Step (abs kv (op_key o)) (Input o) (Output o) = (true, Some (abs kv (op_key o))).
Proof. exact (Get_refines kv a t 0 c). Qed.

(** One call changes. *)
Lemma set_call_ok s n kv' n' g f' : log_ok s n -> kv_wf kv' -> (forall k, version_of kv' k <= n') -> versions_grow (l_kv s) kv' ->
  (forall L eff, lin_ok (l_kv s) (l_now s) (l_oplog s) L eff ->
     (forall f, l_calls s !! g = Some f -> call_ok (l_kv s) (l_now s) f (eff !! g)) -> exists L' eff',
     lin_ok kv' (l_now s) (l_oplog s) L' eff' /\ (forall g', g' <> g -> eff' !! g' = eff !! g') /\ call_ok kv' (l_now s) f' (eff' !! g)) ->
  log_ok (set_call s kv' g f') n'.
Proof.
  intros [Hwf Hv Hl (L & eff & Hlin & Hdom & Hc)] Hwf' Hv' Hg H. destruct (H L eff Hlin (Hc g)) as (L' & eff' & Hlin' & Hsame & Hf').
  constructor; simpl; auto; [eapply Forall_impl; [exact Hl|]; intros req; by apply outdated_grow|].
  exists L', eff'. split_and!; [done|..].
  - intros g' Hg'. destruct (decide (g' = g)) as [->|Hne]; [rewrite lookup_insert_eq; by eexists|]. rewrite lookup_insert_ne by done. apply Hdom. by rewrite <-Hsame.
  - intros g' f [[<- <-]|[Hne Hf]]%lookup_insert_Some; [done|]. rewrite Hsame by done. eapply call_ok_grow; [done|done|by apply Hc].
Qed.

(** The server executes a request of a call: the first execution of a Put is
    its effect, and later ones fail on the version. *)
Lemma put_executes kv now log L eff g f a (r := snd (Put kv a)) (kv' := fst (Put kv a)) : kv_wf kv -> (forall k, version_of kv k < 2 ^ 64 - 1) ->
  lin_ok kv now log L eff -> k_req f = ReqPut a -> call_ok kv now f (eff !! g) ->
  exists L' o, lin_ok kv' now log L' (<[g := o]> eff) /\ op_for f o /\ PutArgs_Version a < version_of kv' (PutArgs_Key a) /\
    (r = MkPutReply OK \/ r = MkPutReply ErrVersion) /\
    (eff !! g = None /\ Output o = put_output (PutReply_Err r) \/ eff !! g = Some o /\ r = MkPutReply ErrVersion).
Proof.
  intros Hwf Hb Hlin Hreq (Hs & Ho & Hc). rewrite Hreq in Hc. destruct Hc as (Hv & He & _). destruct (eff !! g) as [o|] eqn:Hg.
  - destruct (stale_serve kv (ReqPut a)) as [Hst Hr]; [specialize (He ltac:(eauto)); simpl; lia|]. specialize (Hr a eq_refl). simpl in Hst, Hr.
    subst r kv'. destruct (Put kv a) as [kv1 r1]. simpl in *. subst kv1. injection Hr as ->. exists L, o. rewrite insert_id by done.
    split_and!; auto.
  - destruct (known_Put kv a Hwf Hb Hv) as (Hr & Hlt & Hst). destruct (Hst (k_start f) (k_cli f)) as [Hstep Hother].
    set (o := MkOperation (Input_of (ReqPut a)) (put_output (PutReply_Err (snd (Put kv a)))) (k_start f) 0 (k_cli f)) in *.
    pose proof (lin_append _ _ _ _ _ _ g o Hlin Hg Hs Hstep Hother) as Hlin'. eexists _, _. split; [exact Hlin'|].
    split_and!; [split_and!; simpl; by rewrite ?Hreq|done|done|by left].
Qed.

Lemma exec_ok s n g start style req cli resent lost : log_ok s n -> n < 2 ^ 64 - 1 ->
  l_calls s !! g = Some (MkInFlight start style req cli resent lost None None) ->
  log_ok (set_call s (fst (serve (l_kv s) req)) g (MkInFlight start style req cli resent lost (Some (snd (serve (l_kv s) req))) None)) (n + 1).
Proof.
  intros Hok Hn Hg. pose proof Hok as [Hwf Hv _ _]. assert (forall k, version_of (l_kv s) k < 2 ^ 64 - 1) as Hb by (intros k; specialize (Hv k); lia).
  destruct req as [a|a].
  - simpl. apply (set_call_ok s n); auto; [intros k; specialize (Hv k); lia|]. intros L eff Hlin Hc. specialize (Hc _ Hg) as (Hs & Ho & Hget). simpl in *.
    assert (exists L1, lin_ok (l_kv s) (l_now s) (l_oplog s) L1 (delete g eff)) as [L1 Hlin1].
    { destruct (eff !! g) as [o|] eqn:He; [|exists L; by rewrite delete_id]. eapply lin_remove; eauto. by destruct (Ho o eq_refl) as [-> _]. }
    pose proof (lin_append _ _ _ _ _ _ g (MkOperation (Input_of (ReqGet a)) (clerk_returns false (RGet (Get (l_kv s) a))) start 0 cli) Hlin1
      (lookup_delete_eq _ _) Hs (Get_step (l_kv s) a start cli) ltac:(done)) as H2. eexists _, _. split_and!; [exact H2|intros g' ?; by rewrite lookup_insert_ne, lookup_delete_ne|]. rewrite lookup_insert_eq.
    split_and!; [done|by intros o [= <-]|]. split_and!; [|done|by intros [? ?]]. intros r [= <-]. eauto.
  - simpl. destruct (Put (l_kv s) a) as [kv' r] eqn:HP. assert (kv' = fst (Put (l_kv s) a)) as Ekv by (by rewrite HP).
    assert (r = snd (Put (l_kv s) a)) as Er by (by rewrite HP). simpl. apply (set_call_ok s n); auto.
    + subst kv'. by apply Put_wf.
    + intros k. subst kv'. specialize (Hv k). pose proof (Put_version_step (l_kv s) a k Hwf ltac:(lia)). lia.
    + subst kv'. by apply Put_grows.
    + intros L eff Hlin Hc. specialize (Hc _ Hg) as Hcall.
      destruct (put_executes _ _ _ _ _ g (MkInFlight start style (ReqPut a) cli resent lost None None) a Hwf Hb Hlin eq_refl Hcall) as (L' & o & Hlin' & Hop & Hlt & Hr & Hcase). rewrite <-Ekv in Hlin', Hlt. rewrite <-Er in Hr, Hcase.
      exists L', (<[g := o]> eff). split_and!; [done|intros g' ?; by rewrite lookup_insert_ne|]. rewrite lookup_insert_eq.
      destruct Hcall as (Hs & Ho & Hvv & _ & _ & Hres & _). simpl in Hres. split_and!; [done|by intros o' [= <-]|].
      split_and!; simpl; [lia..|by intros _| |by intros ?%Hres; split; [tauto|]|done]. intros r' [= <-]. exists o. split; [done|].
      destruct Hcase as [[Hnone Hout]|[Hsome ->]].
      * destruct Hr as [-> | ->]; [by left|right; auto].
      * right. split; [done|]. intros Hf. destruct (Hres Hf) as [_ Hn']. specialize (Hn' eq_refl). congruence.
Qed.

Lemma late_ok s n g start style req cli resent lost ex out : log_ok s n -> n < 2 ^ 64 - 1 ->
  l_calls s !! g = Some (MkInFlight start style req cli resent (S lost) ex out) ->
  log_ok (set_call s (fst (serve (l_kv s) req)) g (MkInFlight start style req cli resent lost ex out)) (n + 1).
Proof.
  intros Hok Hn Hg. pose proof Hok as [Hwf Hv _ _]. assert (forall k, version_of (l_kv s) k < 2 ^ 64 - 1) as Hb by (intros k; specialize (Hv k); lia).
  destruct req as [a|a].
  - simpl. apply (set_call_ok s n); auto; [intros k; specialize (Hv k); lia|]. intros L eff Hlin Hc. exists L, eff. specialize (Hc _ Hg). done.
  - simpl. destruct (Put (l_kv s) a) as [kv' r] eqn:HP. assert (kv' = fst (Put (l_kv s) a)) as Ekv by (by rewrite HP). simpl. apply (set_call_ok s n); auto.
    + subst kv'. by apply Put_wf.
    + intros k. subst kv'. specialize (Hv k). pose proof (Put_version_step (l_kv s) a k Hwf ltac:(lia)). lia.
    + subst kv'. by apply Put_grows.
    + intros L eff Hlin Hc. specialize (Hc _ Hg) as Hcall.
      destruct (put_executes _ _ _ _ _ g (MkInFlight start style (ReqPut a) cli resent (S lost) ex out) a Hwf Hb Hlin eq_refl Hcall) as (L' & o & Hlin' & Hop & Hlt & Hr & Hcase). rewrite <-Ekv in Hlin', Hlt.
      exists L', (<[g := o]> eff). split_and!; [done|intros g' ?; by rewrite lookup_insert_ne|]. rewrite lookup_insert_eq.
      destruct Hcall as (Hs & Ho & Hvv & Hlt' & Hex & Hres & Hout). simpl in *. split_and!; [done|by intros o' [= <-]|].
      assert (forall P : Operation -> Prop, (exists o', eff !! g = Some o' /\ P o') -> exists o', Some o = Some o' /\ P o') as Hkeep.
      { intros P (o' & Ho' & HP'). destruct Hcase as [[? _]|[Ho'' _]]; [congruence|]. exists o. split; [done|]. congruence. }
      split_and!; simpl; [lia..|by intros _|intros r' H%Hex; by apply Hkeep|intros H%Hres; by destruct H as [? _]|intros out' H%Hout; by apply Hkeep].
Qed.

Lemma log_ok_later s n n' : n <= n' -> log_ok s n -> log_ok s n'.
Proof. intros Hle [Hwf Hv Hl Hlin]. constructor; auto. intros k. specialize (Hv k). lia. Qed.

Lemma invoke_ok s n g style req cli ops : log_ok s n -> l_calls s !! g = None -> known_version s (LInvoke g style req cli) = true ->
  log_ok (MkLogging (l_kv s) (l_now s) (l_oplog s) ops (<[g := MkInFlight (l_now s) style req cli false 0 None None]> (l_calls s)) (l_late s)) n.
Proof.
  intros [Hwf Hv Hl (L & eff & Hlin & Hdom & Hc)] Hg Hk. assert (eff !! g = None) as He.
  { apply eq_None_not_Some. intros H%Hdom. rewrite Hg in H. by destruct H. }
  constructor; simpl; auto. exists L, eff. split_and!; [done|..].
  - intros g' H%Hdom. rewrite lookup_insert_is_Some'. auto.
  - intros g' f [[<- <-]|[_ Hf]]%lookup_insert_Some; [|by apply Hc]. rewrite He. split_and!; simpl; [done..|]. destruct req as [a|a].
    + split_and!; [done..|by intros [? ?]].
    + simpl in Hk. apply andb_prop in Hk as [H1 H2]. split_and!; simpl; [lia..|by intros [? ?]|done|done|done].
Qed.

Lemma fail_ok s n g start style req cli resent lost lost' ex : log_ok s n ->
  l_calls s !! g = Some (MkInFlight start style req cli resent lost ex None) ->
  log_ok (set_call s (l_kv s) g (MkInFlight start style req cli true lost' None None)) n.
Proof.
  intros Hok Hg. pose proof Hok as [Hwf Hv _ _]. apply (set_call_ok s n); auto. intros L eff Hlin Hc. exists L, eff. split_and!; [done..|].
  destruct (Hc _ Hg) as (Hs & Ho & Hreq). split_and!; [done..|]. simpl in *. destruct req as [a|a].
  - split_and!; [done..|by intros [? ?]].
  - destruct Hreq as (Hvv & Hlt & _). split_and!; simpl; auto; try done; lia.
Qed.

Lemma reply_ok s n g start style req cli resent lost r : log_ok s n ->
  l_calls s !! g = Some (MkInFlight start style req cli resent lost (Some r) None) ->
  log_ok (set_call s (l_kv s) g (MkInFlight start style req cli resent lost (Some r) (Some (clerk_returns resent r)))) n.
Proof.
  intros Hok Hg. pose proof Hok as [Hwf Hv _ _]. apply (set_call_ok s n); auto. intros L eff Hlin Hc. exists L, eff. split_and!; [done..|].
  destruct (Hc _ Hg) as (Hs & Ho & Hreq). split_and!; [done..|]. simpl in *. destruct req as [a|a].
  - destruct Hreq as (Hex & _ & _). split_and!; [done| |by intros _; eexists]. intros out [= <-]. by apply Hex.
  - destruct Hreq as (Hvv & Hlt & Hex & Hres & _). split_and!; try done; [lia..|]. intros out [= <-].
    destruct (Hex r eq_refl) as (o & He & Hcase). exists o. split; [done|]. destruct Hcase as [[-> ->]|[-> Hr]]; [by left|].
    simpl in *. destruct resent; [by right|left]. by rewrite Hr.
Qed.

(** A call that returns has taken effect, and its late copies are outdated. *)
Lemma return_ok s n g start style req cli resent lost ex out ops : log_ok s n ->
  l_calls s !! g = Some (MkInFlight start style req cli resent lost ex (Some out)) ->
  log_ok (MkLogging (l_kv s) (l_now s) (l_oplog s ++ [MkOperation (Input_of req) out start (l_now s) cli]) ops (delete g (l_calls s)) (l_late s ++ replicate lost req)) n.
Proof.
  intros [Hwf Hv Hl (L & eff & Hlin & Hdom & Hc)] Hg. pose proof (Hc g _ Hg) as (Hs & Ho & Hreq). simpl in *.
  assert (exists o, eff !! g = Some o /\ good_output o out) as (o & He & Hgood).
  { destruct req as [a|a].
    - destruct Hreq as (_ & Hout & _). destruct (Hout out eq_refl) as (o & He & <-). exists o. split; [done|apply good_output_refl].
    - destruct Hreq as (_ & _ & _ & _ & Hout). destruct (Hout out eq_refl) as (o & He & [-> | ->]); exists o; (split; [done|]); [apply good_output_refl|].
      apply good_maybe. by destruct (Ho o He) as [-> _]. }
  destruct (Ho o He) as (Hi & Hcall & _). simpl in Hi, Hcall.
  destruct (lin_return _ _ _ _ _ g o (MkOperation (Input_of req) out start (l_now s) cli) Hlin He Hgood) as [L' Hlin']; [by simpl..|].
  constructor; simpl; auto.
  - apply Forall_app. split; [done|]. apply Forall_replicate. destruct req as [a|a]; [done|]. destruct Hreq as (Hvv & Hlt & _).
    simpl. specialize (Hlt ltac:(eauto)). lia.
  - exists L', (delete g eff). split_and!; [done|..].
    + intros g' [o' [Hne H]%lookup_delete_Some]. rewrite lookup_delete_ne by done. apply Hdom. by eexists.
    + intros g' f [Hne Hf]%lookup_delete_Some. rewrite lookup_delete_ne by done. by apply Hc.
Qed.

Lemma log_step_ok s n ev : log_ok s n -> n < 2 ^ 64 - 1 -> known_version s ev = true -> log_ok (log_step s ev) (n + 1).
Proof.
  intros Hok Hn Hk. assert (log_ok s (n + 1)) as Hsame by (apply (log_ok_later s n); [lia|done]).
  destruct ev as [d|g style req cli|g|g|g|g|g|i]; cbn [log_step].
  - destruct Hsame as [Hwf Hv Hl (L & eff & Hlin & Hdom & Hc)]. constructor; simpl; auto. exists L, eff.
    split_and!; [by eapply lin_tick; [|exact Hlin]; lia|done|]. intros g f Hf. eapply call_ok_grow; [done| |by apply Hc]. lia.
  - destruct (l_calls s !! g) eqn:Hg; [done|by apply invoke_ok].
  - destruct (l_calls s !! g) as [[start style req cli resent lost [|] [|]]|] eqn:Hg; try done.
    pose proof (exec_ok _ _ _ _ _ _ _ _ _ Hok Hn Hg) as H. by destruct (serve (l_kv s) req).
  - destruct (l_calls s !! g) as [[start style req cli resent lost ex [|]]|] eqn:Hg; try done. by eapply fail_ok.
  - destruct (l_calls s !! g) as [[start style req cli resent [|lost] ex out]|] eqn:Hg; try done. by apply late_ok.
  - destruct (l_calls s !! g) as [[start style req cli resent lost [r|] [|]]|] eqn:Hg; try done. by apply reply_ok.
  - destruct (l_calls s !! g) as [[start style req cli resent lost ex [out|]]|] eqn:Hg; try done. unfold Append. by eapply return_ok.
  - destruct (l_late s !! i) as [req|] eqn:Hi; [|done]. destruct Hsame as [Hwf Hv Hl Hlin].
    pose proof (proj1 (Forall_lookup _ _) Hl i req Hi) as Hout. destruct (stale_serve _ _ Hout) as [-> _]. constructor; simpl; auto. by apply Forall_delete.
Qed.

Lemma log_run_ok evs s n : log_ok s n -> n + len evs < 2 ^ 64 -> known_versions s evs = true -> log_ok (log_run s evs) (n + len evs).
Proof.
  revert s n. induction evs as [|ev evs IH]; intros s n Hok Hn Hk; simpl in *; [by rewrite Z.add_0_r|]. apply andb_prop in Hk as [Hk Hks].
  replace (n + Z.of_nat (S (length evs))) with ((n + 1) + Z.of_nat (length evs)) by lia. apply IH; [apply log_step_ok; [done|lia|done]|lia|done].
Qed.

Lemma log_ok_start now : log_ok (log_start now) 0.
Proof.
  constructor; simpl; [apply map_Forall_empty|done|constructor|]. exists [], ∅. split_and!; [apply lin_start|intros g; rewrite lookup_empty; by intros []|done].
Qed.

(** Once every call has returned, the order of the effects is a linearization. *)
Lemma effects_real_time now L : Forall (timely now) L -> StronglySorted (fun e e' => e_at e <= e_at e') L -> Forall (fun e => e_call e = None) L ->
  forall P : Operation -> Prop, forall Hdec : (forall o, Decision (P o)), real_time (filter P (e_op <$> L)) = true.
Proof.
  intros Ht Hs Hn P Hdec. induction Hs as [|e L Hs IH He]; [done|]. apply Forall_cons in Ht as [[Hte _] Ht]. apply Forall_cons in Hn as [_ Hn].
  rewrite fmap_cons, filter_cons. case_decide; [|by apply IH]. cbn [real_time]. rewrite IH, andb_true_r by done. apply forallb_forall.
  intros o Ho%list_elem_of_In. apply list_elem_of_filter in Ho as [_ Ho]. apply list_elem_of_fmap in Ho as (e' & -> & He').
  rewrite Forall_forall in He, Ht, Hn. specialize (He e' He'). destruct (Ht e' He') as [_ Hr]. specialize (Hr (Hn e' He')).
  apply negb_true_iff, Z.ltb_ge. lia.
Qed.

Lemma returned_all L : unreturned L = [] -> returned L = e_op <$> L /\ Forall (fun e => e_call e = None) L.
Proof.
  unfold unreturned, returned. induction L as [|[op at_ [g|]] L IH]; [done|done|]. intros H. destruct (IH H) as [H1 ?]. split; [|by constructor].
  rewrite fmap_cons. simpl. f_equal. exact H1.
Qed.

Lemma log_linearizable s n : log_ok s n -> l_calls s = ∅ -> linearizable (l_oplog s).
Proof.
  intros [_ _ _ (L & eff & [Hm Ho Ht Hl He] & Hdom & _)] Hcalls. assert (eff = ∅) as ->.
  { apply map_eq. intros g. rewrite lookup_empty. apply eq_None_not_Some. intros H%Hdom. rewrite Hcalls, lookup_empty in H. by destruct H. }
  rewrite map_to_list_empty in He. apply Permutation_nil in He. destruct (returned_all L He) as [Hret Hnone]. rewrite Hret in Hl.
  unfold linearizable. destruct (Partition_filters (l_oplog s)) as (keys & _ & _ & ->). apply Forall_forall. intros p Hp%list_elem_of_In. apply in_map_iff in Hp as (k & <- & _).
  exists (filter (fun o => op_key o = k) (e_op <$> L)). split_and!; [by rewrite Hl|by eapply effects_real_time|]. by eapply model_run_accepts.
Qed.

(** C32 (safety): the linearizability check never fails on this server and
    clerk.  Any number of clients call Get and Put at any times, and their
    calls overlap in any way.  Every Call of a clerk may fail before or after
    the server executes its request, or be executed later, even after the
    clerk has returned; it is executed at most once.  Each Put has a version
    that its key has had when it is called, as of clients that read before
    they write, and there are fewer than 2^64 events.  When all calls have
    returned, the log has a linearization, and CheckPorcupine does not fail
    the test, for every checker that says Illegal only of histories that have
    none. *)
Theorem porcupine_check_passes (CheckOperationsVerbose : list Operation -> Z -> CheckResult) (now : Z) (evs : list LEvent)
    (w : World) (enabled : string) (opened : bool) (t t' : Z) :
  (forall h nsec, CheckOperationsVerbose h nsec = Illegal -> ~ linearizable h) ->
  len evs < 2 ^ 64 -> known_versions (log_start now) evs = true ->
  l_calls (log_run (log_start now) evs) = ∅ ->
  linearizable (l_oplog (log_run (log_start now) evs)) /\
  ch_failed (CheckPorcupine CheckOperationsVerbose w (l_oplog (log_run (log_start now) evs)) enabled opened t t') = false.
Proof.
  intros Hsound Hlen Hk Hcalls. pose proof (log_run_ok evs (log_start now) 0 (log_ok_start now) Hlen Hk) as Hok.
  pose proof (log_linearizable _ _ Hok Hcalls) as Hlin. split; [done|]. unfold CheckPorcupine, checkPorcupine, Read.
  destruct (CheckOperationsVerbose _ _) eqn:Hres; [|by destruct (Hsound _ _ Hres)|]; destruct (_ && _); done.
Qed.

(** ** How operations are counted

    Config.ops is the number of clerk calls, as its comment says; but a Get
    is counted by the TestClerk and again by the logging function, and so is
    a Put of the package functions. *)
Theorem logged_call_ops (s : Logging) (g : nat) (style : Style) (req : Request) (cli : Z) : l_calls s !! g = None ->
  l_ops (log_run s [LInvoke g style req cli; LExec g; LReply g; LReturn g]) =
  if counts style req then int32 (int32 (l_ops s + 1) + 1) else int32 (l_ops s + 1).
Proof.
  intros Hg. unfold log_run. cbn [foldl log_step]. rewrite Hg. cbn [l_calls l_kv]. rewrite lookup_insert_eq.
  destruct (serve (l_kv s) req) as [kv r]. cbn [l_calls set_call]. rewrite lookup_insert_eq. cbn [l_calls set_call]. rewrite lookup_insert_eq. simpl. by destruct (counts style req).
Qed.

(** ** Witness

    Two clients overlap: the Put of one is executed between the call and the
    return of the Get of the other, its reply is lost and it is sent again;
    the Put of a third client is sent twice, and executed a second time after
    the clerk has returned. *)

Definition overlapping : list LEvent :=
  [LInvoke 0 Method (ReqGet (MkGetArgs "x")) 0; LTick 1; LInvoke 1 Method (ReqPut (MkPutArgs "x" "1" 0)) 1; LTick 1; LExec 1; LFail 1; LTick 1; LExec 0;
   LExec 1; LReply 1; LReply 0; LReturn 1; LTick 1; LReturn 0; LInvoke 2 Package (ReqPut (MkPutArgs "x" "2" 1)) 1; LFail 2; LExec 2; LReply 2; LTick 2; LReturn 2;
   LStale 0].

Lemma porcupine_check_passes_witness : l_ops (log_run (log_start 100) overlapping) = 5 /\
  map (fun o => out_Err (Output o)) (l_oplog (log_run (log_start 100) overlapping)) = ["ErrMaybe"; "OK"; "OK"]%string /\
  ch_failed (CheckPorcupine search (MkWorld mkAnnotation None) (l_oplog (log_run (log_start 100) overlapping)) "always" true 7 8) = false.
Proof.
  split; [vm_compute; reflexivity|]. split; [vm_compute; reflexivity|].
  apply (porcupine_check_passes search 100 overlapping (MkWorld mkAnnotation None) "always" true 7 8 search_sound); vm_compute; reflexivity.
Defined.

(** Without the condition on versions a request that is executed after its
    clerk has returned can write what no operation of the log explains. *)
Definition ahead : list LEvent :=
  [LInvoke 0 Method (ReqPut (MkPutArgs "x" "a" 0)) 0; LExec 0; LReply 0; LReturn 0; LTick 1;
   LInvoke 1 Method (ReqPut (MkPutArgs "x" "b" 2)) 1; LFail 1; LExec 1; LReply 1; LReturn 1; LTick 1;
   LInvoke 0 Method (ReqPut (MkPutArgs "x" "c" 1)) 0; LExec 0; LReply 0; LReturn 0; LTick 1; LStale 0;
   LInvoke 0 Method (ReqGet (MkGetArgs "x")) 0; LExec 0; LReply 0; LReturn 0].

Example late_copy_of_a_guess : known_versions (log_start 0) ahead = false /\
  search (l_oplog (log_run (log_start 0) ahead)) 1 = Illegal.
Proof. split; vm_compute; reflexivity. Qed.
