(* ===== verification/KvHarness.v ===== *)
(** * The harness of the key/value tests (src/kvtest1/kvtest.go, kvraft1/test.go, kvsrv1/test.go)

    What the tests of the key/value services share: clerks that count their
    calls, keys and values, the goroutine that partitions the servers, and the
    start and end of the client goroutines.  A Test is its Config (Config.v)
    and its parameters; random numbers are arguments.

    The theorems: SpreadPuts passes its own checks, every round of the
    Partitioner leaves a group whose two sides do not see each other, and
    SpawnClientsAndWait does not deadlock: it returns, with the result of each
    client at its number. *)

From stdpp Require Import pretty.
From Stdlib Require Import Ascii.
From S2P Require Import Prelude Rpc KvSrv KvClerk KvTest Labrpc TestGroup TestGroups Annotation Config.

Definition ElectionTimeout : Z := 10 ^ 9.

(** ** Keys and values *)

Definition letterBytes : string := "abcdefghijklmnopqrstuvwxyzABCDEFGHIJKLMNOPQRSTUVWXYZ".

(** [rs]: what rand.Int63 returns, once for each character; [None] is an index
    out of range. *)
Definition RandValue (rs : list Z) : option string :=
  Stdlib.Strings.String.string_of_list_ascii <$> mapM (fun r => String.get (Z.to_nat (Z.rem r 52)) letterBytes) rs.

Definition MakeKeys (n : nat) : list string := (fun i => "k" +:+ pretty (Z.of_nat i)) <$> seq 0 n.

(** ** Clerks

    A client and a clerk over it; [tck_clnt] is the address of the client. *)
Record TestClerk : Type := MkTestClerk { tck_servers : list string; tck_clnt : nat }.

Definition TestClerk_Put (cfg : Config) (kv : KVServer) (a : PutArgs) (lost : bool) : Config * KVServer * Err :=
  let cfg := OpInc cfg in
  let '(kv, err) := clerk_put_run kv a lost in (cfg, kv, err).

Definition TestClerk_Get (cfg : Config) (kv : KVServer) (key : string) : Config * (string * Tversion * Err) := (OpInc cfg, clerk_get kv key).

Definition DeleteClerk (cfg : Config) (tck : TestClerk) : option Config :=
  '(rn, cs) ← DeleteClient (cfg_net cfg) (cfg_clnts cfg) (tck_clnt tck); Some (with_parts cfg cs (cfg_groups cfg) rn).

(** Of kvraft1/test.go; [p]: the address of the new client. *)
Definition kvraft_MakeClerk (cfg : Config) (p : nat) : option (Config * TestClerk) :=
  cs ← MakeClient (cfg_clnts cfg) p;
  sg ← Group cfg GRP0;
  Some (with_parts cfg cs (cfg_groups cfg) (cfg_net cfg), MkTestClerk (SrvNames sg) p).

Definition kvraft_MakeClerkTo (cfg : Config) (p : nat) (to : list nat) : option (Config * TestClerk) :=
  sg ← Group cfg GRP0;
  ns ← SrvNamesTo sg to;
  cs ← MakeClientTo (cfg_clnts cfg) p (Some ns);
  Some (with_parts cfg cs (cfg_groups cfg) (cfg_net cfg), MkTestClerk (SrvNames sg) p).

(** Of kvsrv1/test.go. *)
Definition kvsrv_MakeClerk (cfg : Config) (p : nat) : option (Config * TestClerk) :=
  cs ← MakeClient (cfg_clnts cfg) p;
  Some (with_parts cfg cs (cfg_groups cfg) (cfg_net cfg), MkTestClerk [ServerName GRP0 0] p).

Fixpoint ConnectClnts (cfg : Config) (clnts : list nat) : option Config :=
  match clnts with
  | [] => Some cfg
  | p :: clnts =>
      '(rn, cs) ← at_clnt (cfg_net cfg) (cfg_clnts cfg) p (fun c => Some (Clnt_ConnectAll (cfg_net cfg) c));
      ConnectClnts (with_parts cfg cs (cfg_groups cfg) rn) clnts
  end.

(** ** The tests of kvsrv1 and kvraft1 *)

Definition MakeTestKV (endName : string) (nss : list (list string)) (boots : list Boot) (now : Z) (reliable : bool) : option Config :=
  MakeConfig endName nss boots now reliable.

Record KvRaftTest : Type := MkKvRaftTest {
  kt_cfg : Config;
  kt_part : string;
  kt_nclients : Z;
  kt_crash : bool;
  kt_partitions : bool;
  kt_maxraftstate : Z;
  kt_randomkeys : bool;
}.

Definition makeTitle (ts : KvRaftTest) : string :=
  let title := "Test: " in
  let title := if kt_crash ts then title +:+ "restarts, " else title in
  let title := if kt_partitions ts then title +:+ "partitions, " else title in
  let title := if negb (kt_maxraftstate ts =? -1) then title +:+ "snapshots, " else title in
  let title := if kt_randomkeys ts then title +:+ "random keys, " else title in
  let title := if kt_nclients ts >? 1 then title +:+ "many clients" else title +:+ "one client" in
  title +:+ " (" +:+ kt_part ts +:+ ")".

(** With the line that Begin prints. *)
Definition kvraft_MakeTest (endName : string) (nss : list (list string)) (boots : list Boot) (now now' : Z) (part : string) (nclients : Z)
    (reliable crash partitions : bool) (maxraftstate : Z) (randomkeys : bool) : option (KvRaftTest * string) :=
  cfg ← MakeConfig endName nss boots now reliable;
  let ts := MkKvRaftTest cfg part nclients crash partitions maxraftstate randomkeys in
  let '(cfg, line) := Begin cfg (makeTitle ts) now' in
  Some (MkKvRaftTest cfg part nclients crash partitions maxraftstate randomkeys, line).

Definition killall (cfg : Config) (answers : nat -> bool) : option Config := on_group cfg GRP0 (fun rn sg => Shutdown rn sg answers).
Definition restartall (cfg : Config) (boots : list Boot) : option Config := on_group cfg GRP0 (fun rn sg => StartServers rn sg boots).

(** End, then Cleanup; [inr]: End failed the test, and nothing is cleaned up. *)
Definition Test_Cleanup (cfg : Config) (answers : Z -> nat -> bool) (now now' : Z) (an : Annotation) (t t' : Z) (enabled : string) : option ((Config * Annotation * option (list PAnnotation)) + Config) :=
  out ← End_ cfg now now';
  match out with
  | inr cfg => Some (inr cfg)
  | inl (cfg, _) => res ← Cfg_Cleanup cfg answers an t t' enabled; Some (inl res)
  end.

(** ** SpreadPuts *)

Fixpoint spread_puts (kv : KVServer) (l : list (string * string * bool)) : KVServer :=
  match l with [] => kv | (k, v, lost) :: l => spread_puts (fst (clerk_put_run kv (MkPutArgs k v 0) lost)) l end.

(** [losts]: which Puts stay uncertain; [false] is that a check failed. *)
Definition SpreadPutsSize (kv : KVServer) (n valsz : nat) (rands : list (list Z)) (losts : list bool) : option (KVServer * list string * list string * bool) :=
  let ka := MakeKeys n in
  va ← mapM (fun b => Randstring b valsz) (take n rands);
  let kv := spread_puts kv (zip (zip ka va) losts) in
  Some (kv, ka, va, forallb (fun '(k, v) => CheckGet kv k v 1) (zip ka va)).

Definition SpreadPuts (kv : KVServer) (n : nat) (rands : list (list Z)) (losts : list bool) : option (KVServer * list string * list string * bool) :=
  SpreadPutsSize kv n 20 rands losts.

Lemma MakeKeys_NoDup n : NoDup (MakeKeys n) /\ length (MakeKeys n) = n.
Proof.
  unfold MakeKeys. rewrite length_fmap, length_seq. split; [|done]. apply NoDup_fmap_2; [|apply NoDup_seq].
  intros i j H. injection H as H. apply (inj pretty (Z.of_nat i) (Z.of_nat j)) in H. lia.
Qed.

Lemma spread_puts_lookup kv l k : k ∉ (fst <$> (fst <$> l)) -> spread_puts kv l !! k = kv !! k.
Proof.
  revert kv. induction l as [|[[k' v] lost] l IH]; intros kv Hk; simpl in *; [done|]. rewrite IH by set_solver.
  unfold clerk_put_run. pose proof (Put_other kv (MkPutArgs k' v 0) k) as H. destruct (Put kv (MkPutArgs k' v 0)) as [kv1 r]. simpl in *. apply H. set_solver.
Qed.

Lemma spread_puts_stored kv l k v lost : NoDup (fst <$> (fst <$> l)) -> (forall k, k ∈ (fst <$> (fst <$> l)) -> kv !! k = None) -> (k, v, lost) ∈ l ->
  spread_puts kv l !! k = Some (MkKvEntry v 1).
Proof.
  revert kv. induction l as [|[[k' v'] lost'] l IH]; intros kv Hnd Hnone Hin; [by apply elem_of_nil in Hin|]. simpl in Hnd, Hnone |- *.
  apply NoDup_cons in Hnd as [Hk' Hnd]. assert (fst (clerk_put_run kv (MkPutArgs k' v' 0) lost') = <[k' := MkKvEntry v' 1]> kv) as ->.
  { unfold clerk_put_run, Put. simpl. rewrite (Hnone k') by set_solver. done. }
  apply elem_of_cons in Hin as [[= -> -> ->]|Hin].
  - rewrite spread_puts_lookup by done. apply lookup_insert_eq.
  - apply IH; [done| |done]. intros k1 Hk1. rewrite lookup_insert_ne by set_solver. apply Hnone. set_solver.
Qed.

(** SpreadPuts passes.  With enough random bytes it does not panic;
    if none of its keys is in the store, all its checks pass, also when its
    Puts stay uncertain, and other keys keep their values. *)
Theorem SpreadPuts_passes (kv : KVServer) (n valsz : nat) (rands : list (list Z)) (losts : list bool) :
  length rands = n -> Forall (fun b => length b = (2 * valsz)%nat) rands -> length losts = n -> (forall k, k ∈ MakeKeys n -> kv !! k = None) ->
  exists kv' va, SpreadPutsSize kv n valsz rands losts = Some (kv', MakeKeys n, va, true) /\ length va = n /\
    forall k, k ∉ MakeKeys n -> kv' !! k = kv !! k.
Proof.
  intros Hr Hb Hl Hnone. destruct (MakeKeys_NoDup n) as [Hnd Hlen]. unfold SpreadPutsSize. rewrite take_ge by lia.
  assert (exists va, mapM (fun b => Randstring b valsz) rands = Some va /\ length va = n) as (va & -> & Hva).
  { destruct (mapM (fun b => Randstring b valsz) rands) as [va|] eqn:Hm.
    - exists va. split; [done|]. apply length_mapM in Hm. congruence.
    - exfalso. apply mapM_None, Exists_exists in Hm as (b & Hin & Hnb). rewrite Forall_forall in Hb.
      destruct (Randstring_length b valsz (Hb b Hin)) as (s & Hs & _). congruence. }
  cbn [mbind option_bind]. set (l := zip (zip (MakeKeys n) va) losts).
  assert (fst <$> l = zip (MakeKeys n) va) as Hl1 by (apply fst_zip; rewrite length_zip; lia).
  assert (fst <$> (fst <$> l) = MakeKeys n) as Hl2 by (rewrite Hl1; apply fst_zip; lia).
  eexists _, va. split_and!; [|done|intros k Hk; apply spread_puts_lookup; by rewrite Hl2]. do 2 f_equal. apply forallb_forall.
  intros [k v] Hin%list_elem_of_In. assert ((k, v) ∈ fst <$> l) as Hin' by (by rewrite Hl1). apply list_elem_of_fmap in Hin' as ([[k' v'] lost] & [= <- <-] & Hkv).
  pose proof (spread_puts_stored kv l k v lost) as Hst. rewrite Hl2 in Hst. specialize (Hst Hnd Hnone Hkv).
  unfold CheckGet, clerk_get, Get. simpl. rewrite Hst. simpl. by rewrite String.eqb_refl.
Qed.

(** ** The Partitioner *)

(** [pa[i]]: the servers whose coin shows [i]. *)
Definition pa (a : list Z) (i : Z) : list nat := filter (fun j => a !! j = Some i) (seq 0 (length a)).

Definition coin (r : Z) : Z := Z.rem r 2.

(** [rands]: what rand.Int returns, for each server. *)
Definition partition_round (cfg : Config) (gid : Z) (rands : list Z) : option Config :=
  let a := coin <$> rands in
  on_group cfg gid (fun rn sg => Partition rn sg (pa a 0) (pa a 1)).

(** The rounds until the stop signal. *)
Fixpoint Partitioner (cfg : Config) (gid : Z) (rounds : list (list Z)) : option Config :=
  match rounds with [] => Some cfg | rands :: rounds => cfg ← partition_round cfg gid rands; Partitioner cfg gid rounds end.

Lemma coins_split a : Forall (fun x => x = 0 \/ x = 1) a -> pa a 0 ++ pa a 1 ≡ₚ seq 0 (length a).
Proof.
  intros Ha. unfold pa. assert (forall l, Forall (fun j => (j < length a)%nat) l ->
    filter (fun j => a !! j = Some 0) l ++ filter (fun j => a !! j = Some 1) l ≡ₚ l) as Hsplit.
  { induction l as [|j l IH]; intros Hl; [done|]. apply Forall_cons in Hl as [Hj Hl]. specialize (IH Hl). rewrite !filter_cons.
    destruct (lookup_lt_is_Some_2 a j Hj) as [x Hx]. rewrite Forall_lookup in Ha. destruct (Ha j x Hx) as [-> | ->].
    - rewrite decide_True, decide_False by congruence. simpl. by f_equiv.
    - rewrite decide_False, decide_True by congruence. rewrite <-Permutation_middle. by f_equiv. }
  apply Hsplit, Forall_forall. intros j Hj%elem_of_seq. lia.
Qed.

Lemma coin_side a i (x : nat) : x ∈ pa a i <-> a !! x = Some i.
Proof.
  unfold pa. rewrite list_elem_of_filter, elem_of_seq. split; [tauto|]. intros H. split; [done|]. apply lookup_lt_Some in H. lia.
Qed.

Lemma coin_01 rands : Forall (fun r => 0 <= r) rands -> Forall (fun x => x = 0 \/ x = 1) (coin <$> rands).
Proof. intros H. apply Forall_fmap. eapply Forall_impl; [exact H|]. simpl. intros r Hr. pose proof (Z.rem_bound_pos r 2). unfold coin. lia. Qed.

Lemma partition_round_ok n cfg gid sg rands : Group cfg gid = Some sg -> grp_wf n sg -> length rands = n -> Forall (fun r => 0 <= r) rands ->
  exists cfg' sg', partition_round cfg gid rands = Some cfg' /\ Group cfg' gid = Some sg' /\ grp_wf n sg' /\
    forall a b ra rb, rands !! a = Some ra -> rands !! b = Some rb -> link (cfg_net cfg') sg' a b = (coin ra =? coin rb).
Proof.
  intros Hg Hwf Hn Hr. pose proof (coins_split (coin <$> rands) (coin_01 _ Hr)) as Hperm. rewrite length_fmap, Hn in Hperm.
  destruct (Partition_ok n (cfg_net cfg) sg _ _ Hwf Hperm) as (rn' & sg' & Hp & Hwf' & _ & _ & _ & Hlink).
  unfold partition_round, on_group. rewrite Hg. cbn [mbind option_bind]. rewrite Hp. cbn [mbind option_bind].
  eexists _, sg'. split_and!; [done|unfold Group, lookupGroup; simpl; by rewrite lookup_insert_eq|done|]. simpl. intros a b ra rb Ha Hb.
  rewrite Hlink by (rewrite <-Hn; by eapply lookup_lt_Some).
  pose proof (coin_01 _ Hr) as H01. rewrite Forall_lookup in H01.
  destruct (H01 a (coin ra)) as [Ea|Ea]; [by rewrite list_lookup_fmap, Ha|..]; destruct (H01 b (coin rb)) as [Eb|Eb]; try (by rewrite list_lookup_fmap, Hb);
    rewrite Ea, Eb; simpl; [apply bool_decide_eq_true|apply bool_decide_eq_false|apply bool_decide_eq_false|apply bool_decide_eq_true];
    rewrite !coin_side, !list_lookup_fmap, Ha, Hb; simpl; rewrite Ea, Eb; intuition congruence.
Qed.

Lemma Partitioner_ok n rounds cfg gid sg : Group cfg gid = Some sg -> grp_wf n sg ->
  Forall (fun rands => length rands = n /\ Forall (fun r => 0 <= r) rands) rounds ->
  exists cfg' sg', Partitioner cfg gid rounds = Some cfg' /\ Group cfg' gid = Some sg' /\ grp_wf n sg'.
Proof.
  revert cfg sg. induction rounds as [|rands rounds IH]; intros cfg sg Hg Hwf Hr; cbn [Partitioner]; [by exists cfg, sg|].
  apply Forall_cons in Hr as [[Hn Hpos] Hr]. destruct (partition_round_ok n cfg gid sg rands Hg Hwf Hn Hpos) as (cfg1 & sg1 & -> & Hg1 & Hwf1 & _).
  cbn [mbind option_bind]. by eapply IH.
Qed.

Lemma Partitioner_app cfg gid r1 r2 : Partitioner cfg gid (r1 ++ r2) = cfg ← Partitioner cfg gid r1; Partitioner cfg gid r2.
Proof.
  revert cfg. induction r1 as [|r r1 IH]; intros cfg; cbn [app Partitioner]; [done|]. destruct (partition_round cfg gid r); [|done]. cbn [mbind option_bind]. apply IH.
Qed.

(** The Partitioner partitions.  In a test after any operations, with
    any coins, no round of the Partitioner fails, and after each round two
    servers of the group are linked exactly if their coins agree. *)
Theorem Partitioner_splits (endName : string) (nss : list (list string)) (boots : list Boot) (now : Z) (rel : bool) (ops : list CfgOp)
    (cfg0 cfg : Config) (gid : Z) (sg : ServerGrp) (rounds : list (list Z)) (rands : list Z) :
  Forall (fun ns => length ns = length nss) nss -> Forall (fun b => length (b_names b) = length nss) boots ->
  MakeConfig endName nss boots now rel = Some cfg0 -> fresh_starts cfg0 ops = true -> cfg_ops_run cfg0 ops = Some cfg -> Group cfg gid = Some sg ->
  Forall (fun rands => length rands = grp_N sg /\ Forall (fun r => 0 <= r) rands) (rounds ++ [rands]) ->
  exists cfg' sg', Partitioner cfg gid (rounds ++ [rands]) = Some cfg' /\ Group cfg' gid = Some sg' /\
    forall a b ra rb, rands !! a = Some ra -> rands !! b = Some rb -> link (cfg_net cfg') sg' a b = (coin ra =? coin rb).
Proof.
  intros Hns Hb H0 Hfresh Hrun Hg Hr. destruct (MakeConfig_ok _ _ _ _ _ _ Hns Hb H0) as [base0 Hok0]. destruct (cfg_ops_run_ok _ _ _ _ Hok0 Hfresh Hrun) as [base Hok].
  destruct (co_groups _ _ Hok gid sg Hg) as (_ & Hwf & _). apply Forall_app in Hr as [Hr Hl]. apply Forall_cons in Hl as [[Hn Hpos] _].
  destruct (Partitioner_ok _ rounds cfg gid sg Hg Hwf Hr) as (cfg1 & sg1 & H1 & Hg1 & Hwf1). rewrite Partitioner_app, H1. cbn [mbind option_bind Partitioner].
  destruct (partition_round_ok _ cfg1 gid sg1 rands Hg1 Hwf1 Hn Hpos) as (cfg' & sg' & -> & Hg' & _ & Hlink). by exists cfg', sg'.
Qed.

(** ** The client goroutines

    [done] and the channels [ca[cli]] have no buffer: a send and its receive
    are one step.  A client looks at [done] whenever it is between two of its
    operations; what it does there is its own. *)

Inductive CGoroutine : Type :=
| CRunning                          (* in fn *)
| CSending (v : ClntRes)            (* at ca <- v *)
| CDeleting.                        (* its result is received: DeleteClerk *)

Inductive MainPc : Type :=
| MSignalling (k : nat)             (* done <- struct{}{}, [k] times more *)
| MCollecting (rs : list ClntRes)   (* rs[cli] = <-ca[cli], for cli = len(rs) *)
| MReturned (rs : list ClntRes).

Record Spawned : Type := MkSpawned { sp_clients : list CGoroutine; sp_main : MainPc }.

(** The ends of the two loops. *)
Definition collecting (nclnt : nat) (rs : list ClntRes) : MainPc := if (length rs <? nclnt)%nat then MCollecting rs else MReturned rs.
Definition main_at (nclnt : nat) (m : MainPc) : MainPc :=
  match m with MSignalling O => collecting nclnt [] | MCollecting rs => collecting nclnt rs | m => m end.

Definition SpawnClientsAndWait (nclnt : nat) : Spawned := MkSpawned (replicate nclnt CRunning) (main_at nclnt (MSignalling nclnt)).

(** Client [c] receives from [done], and returns [v]; the main goroutine
    receives the next result. *)
Inductive SpEvent : Type := SpDone (c : nat) (v : ClntRes) | SpResult.

Definition sp_step (s : Spawned) (ev : SpEvent) : option Spawned :=
  let n := length (sp_clients s) in
  match ev, sp_main s with
  | SpDone c v, MSignalling (S k) =>
      match sp_clients s !! c with
      | Some CRunning => Some (MkSpawned (<[c := CSending v]> (sp_clients s)) (main_at n (MSignalling k)))
      | _ => None
      end
  | SpResult, MCollecting rs =>
      match sp_clients s !! length rs with
      | Some (CSending v) => Some (MkSpawned (<[length rs := CDeleting]> (sp_clients s)) (main_at n (MCollecting (rs ++ [v]))))
      | _ => None
      end
  | _, _ => None
  end.

Fixpoint sp_run (s : Spawned) (evs : list SpEvent) : option Spawned :=
  match evs with [] => Some s | ev :: evs => s ← sp_step s ev; sp_run s evs end.

Definition running (c : CGoroutine) : bool := match c with CRunning => true | _ => false end.

(** Each client takes one signal; results are received in the order of the
    clients.  [P]: what each client returned. *)
Record sp_ok (P : nat -> ClntRes -> Prop) (n steps : nat) (s : Spawned) : Prop := {
  sp_len : length (sp_clients s) = n;
  sp_sends : forall c v, sp_clients s !! c = Some (CSending v) -> P c v;
  sp_phase : match sp_main s with
    | MSignalling k => (0 < k)%nat /\ (steps + k = n)%nat /\ length (filter (fun c => running c = true) (sp_clients s)) = k /\ CDeleting ∉ sp_clients s
    | MCollecting rs | MReturned rs => (steps = n + length rs)%nat /\ (length rs <= n)%nat /\ (sp_main s = MReturned rs <-> length rs = n) /\
        (forall c v, rs !! c = Some v -> P c v) /\
        forall c, (length rs <= c < n)%nat -> exists v, sp_clients s !! c = Some (CSending v)
    end;
}.

Lemma running_insert cs c v : cs !! c = Some CRunning ->
  length (filter (fun c => running c = true) cs) = S (length (filter (fun c => running c = true) (<[c := CSending v]> cs))).
Proof.
  revert c. induction cs as [|x cs IH]; intros c Hc; [done|]. destruct c as [|c]; simpl in Hc.
  - injection Hc as ->. done.
  - simpl. rewrite !filter_cons. destruct (decide (running x = true)); simpl; by rewrite (IH c Hc).
Qed.

(** When no client runs any more, all of them send. *)
Lemma collecting_ok P n cs : length cs = n -> (forall c v, cs !! c = Some (CSending v) -> P c v) ->
  length (filter (fun c => running c = true) cs) = 0%nat -> CDeleting ∉ cs -> sp_ok P n n (MkSpawned cs (collecting n [])).
Proof.
  intros Hlen Hs Hr Hd. constructor; [done|done|]. simpl. apply nil_length_inv in Hr.
  assert (forall c, (0 <= c < n)%nat -> exists v, cs !! c = Some (CSending v)) as Hall.
  { intros c Hc. destruct (lookup_lt_is_Some_2 cs c) as [x Hx]; [lia|]. destruct x as [|v|]; [|by exists v|].
    - assert (CRunning ∈ filter (fun c => running c = true) cs) as Hin by (apply list_elem_of_filter; split; [done|by eapply list_elem_of_lookup_2]).
      rewrite Hr in Hin. by apply elem_of_nil in Hin.
    - destruct Hd. by eapply list_elem_of_lookup_2. }
  unfold collecting. simpl. destruct (Nat.ltb_spec 0 n) as [Hn|Hn]; simpl.
  - split; [lia|]. split; [lia|]. split; [split; [done|lia]|done].
  - split; [lia|]. split; [lia|]. split; [split; [lia|done]|done].
Qed.

Lemma sp_start_ok P n : sp_ok P n 0 (SpawnClientsAndWait n).
Proof.
  unfold SpawnClientsAndWait. destruct n as [|n].
  - apply (collecting_ok P 0 []); [done|done|done|apply not_elem_of_nil].
  - constructor; cbn [sp_clients]; [by rewrite length_replicate| |].
    + intros c v [Hc _]%lookup_replicate. done.
    + cbn [sp_main main_at]. split_and!; [lia|lia| |by intros [? _]%elem_of_replicate].
      clear. generalize (S n) as k. intros k. induction k; simpl; [done|]. by rewrite IHk.
Qed.

Lemma sp_step_ok P n steps s ev s' : sp_ok P n steps s -> sp_step s ev = Some s' -> (forall c v, ev = SpDone c v -> P c v) -> sp_ok P n (S steps) s'.
Proof.
  intros [Hlen Hs Hph] H HP. unfold sp_step in H. rewrite Hlen in H. destruct ev as [c v|]; destruct (sp_main s) as [k|rs|rs] eqn:Hm; try done.
  - destruct k as [|k]; [done|]. destruct (sp_clients s !! c) as [[]|] eqn:Hc; try done. injection H as <-. destruct Hph as (_ & Hst & Hrun & Hdel).
    rewrite (running_insert _ c v Hc) in Hrun. injection Hrun as Hrun. assert (forall c' v', <[c := CSending v]> (sp_clients s) !! c' = Some (CSending v') -> P c' v') as Hs'.
    { intros c' v' [(-> & [= ->] & _)|[_ Hc']]%list_lookup_insert_Some; [by apply HP|by apply Hs]. }
    assert (CDeleting ∉ <[c := CSending v]> (sp_clients s)) as Hdel'.
    { intros [i Hi]%list_elem_of_lookup. apply list_lookup_insert_Some in Hi as [(_ & ? & _)|[_ Hi]]; [done|]. apply Hdel. by eapply list_elem_of_lookup_2. }
    assert (length (<[c := CSending v]> (sp_clients s)) = n) as Hlen' by (by rewrite length_insert).
    destruct k as [|k]; cbn [main_at].
    + replace (S steps) with n by lia. by apply collecting_ok.
    + constructor; [done|done|]. cbn [sp_main sp_clients]. split_and!; [lia|lia|done|done].
  - destruct (sp_clients s !! length rs) as [[|v|]|] eqn:Hc; try done. injection H as <-. destruct Hph as (Hst & Hle & Hdone & Hrs & Hrest).
    apply lookup_lt_Some in Hc as Hlt. rewrite Hlen in Hlt. set (cs := <[length rs := CDeleting]> (sp_clients s)).
    assert (forall c' v', cs !! c' = Some (CSending v') -> P c' v') as Hs'.
    { intros c' v' [(_ & ? & _)|[_ Hc']]%list_lookup_insert_Some; [done|by apply Hs]. }
    assert (forall c' v', (rs ++ [v]) !! c' = Some v' -> P c' v') as Hrs'.
    { intros c' v' [Hl|[Hl Hv]]%lookup_app_Some; [by apply Hrs|]. apply list_lookup_singleton_Some in Hv as [Heq <-].
      assert (c' = length rs) as -> by lia. by apply Hs. }
    assert (forall c', (length (rs ++ [v]) <= c' < n)%nat -> exists v', cs !! c' = Some (CSending v')) as Hrest'.
    { intros c' Hc'. rewrite length_app in Hc'. simpl in Hc'. unfold cs. rewrite list_lookup_insert_ne by lia. apply Hrest. lia. }
    constructor; cbn [sp_clients]; [by unfold cs; rewrite length_insert|done|]. cbn [sp_main sp_clients main_at]. unfold collecting.
    destruct (Nat.ltb_spec (length (rs ++ [v])) n) as [Hl|Hl]; rewrite length_app in *; simpl in *.
    + split; [lia|]. split; [lia|]. split; [split; [done|lia]|done].
    + split; [lia|]. split; [lia|]. split; [split; [lia|done]|done].
Qed.

Lemma sp_run_ok P n steps s evs s' : sp_ok P n steps s -> sp_run s evs = Some s' -> (forall c v, SpDone c v ∈ evs -> P c v) -> sp_ok P n (steps + length evs) s'.
Proof.
  revert steps s. induction evs as [|ev evs IH]; intros steps s Hok H HP; simpl in H; [simplify_eq; by rewrite Nat.add_0_r|].
  destruct (sp_step s ev) as [s1|] eqn:H1; [|done]. cbn [mbind option_bind] in H. simpl. rewrite <-Nat.add_succ_comm. apply (IH (S steps) s1); [|done|].
  - apply (sp_step_ok P n steps s ev); auto. intros c v ->. apply HP. apply list_elem_of_here.
  - intros c v Hin. apply HP. by apply list_elem_of_further.
Qed.

(** Waiting for the clients ends.  SpawnClientsAndWait with n clients
    never deadlocks: as long as it has not returned, either some client runs
    that will receive the done signal when it looks, or the next result is
    there to be received.  After n signals and n results it returns, with the
    result of each client at its number. *)
Theorem SpawnClientsAndWait_returns (n : nat) (evs : list SpEvent) (s : Spawned) : sp_run (SpawnClientsAndWait n) evs = Some s ->
  (length evs <= 2 * n)%nat /\
  ((length evs < 2 * n)%nat -> (exists c, forall v, is_Some (sp_step s (SpDone c v))) \/ is_Some (sp_step s SpResult)) /\
  (length evs = (2 * n)%nat -> exists rs, sp_main s = MReturned rs /\ length rs = n /\ forall c v, rs !! c = Some v -> SpDone c v ∈ evs).
Proof.
  intros Hrun. destruct (sp_run_ok (fun c v => SpDone c v ∈ evs) n 0 _ evs s (sp_start_ok _ n) Hrun) as [Hlen Hs Hph]; [done|]. simpl in Hph.
  unfold sp_step. destruct (sp_main s) as [k|rs|rs] eqn:Hm.
  - destruct Hph as (Hk & Hst & Hrunning & _). split_and!; [lia| |lia]. intros _. left. destruct k as [|k]; [lia|].
    destruct (filter _ _) as [|x l] eqn:Hf in Hrunning; [done|]. assert (x ∈ filter (fun c => running c = true) (sp_clients s)) as Hx by (rewrite Hf; apply list_elem_of_here).
    apply list_elem_of_filter in Hx as [Hx [c Hc]%list_elem_of_lookup]. exists c. intros v. rewrite Hc. by destruct x.
  - destruct Hph as (Hst & Hle & [_ Hd] & Hrs & Hrest). assert (length rs <> n) as Hne by (intros H; by specialize (Hd H)).
    split_and!; [lia| |lia]. intros _. right. destruct (Hrest (length rs)) as [v Hv]; [lia|]. rewrite Hv. by eexists.
  - destruct Hph as (Hst & _ & [Hd _] & Hrs & _). specialize (Hd eq_refl). split_and!; [lia|lia|]. intros _. by exists rs.
Qed.

(** ** Witnesses *)

Lemma SpawnClientsAndWait_returns_witness : exists s rs,
  sp_run (SpawnClientsAndWait 2) [SpDone 1 (MkClntRes 3 0); SpDone 0 (MkClntRes 1 1); SpResult; SpResult] = Some s /\ sp_main s = MReturned rs /\ length rs = 2%nat.
Proof.
  eexists. destruct (SpawnClientsAndWait_returns 2 [SpDone 1 (MkClntRes 3 0); SpDone 0 (MkClntRes 1 1); SpResult; SpResult] _ eq_refl) as (_ & _ & H).
  destruct (H eq_refl) as (rs & Hm & Hl & _). exists rs. exact (conj eq_refl (conj Hm Hl)).
Defined.

Lemma Partitioner_splits_witness : exists cfg' sg',
  Partitioner (default no_test test_end) 0 [[1; 1; 0]; [3; 8; 5]] = Some cfg' /\ Group cfg' 0 = Some sg' /\
  link (cfg_net cfg') sg' 0 2 = true /\ link (cfg_net cfg') sg' 1 2 = false.
Proof.
  assert (exists sg, Group (default no_test test_end) 0 = Some sg /\ grp_N sg = 3%nat) as (sg & Hg & HN) by (vm_compute; eexists; split; reflexivity).
  destruct (Partitioner_splits "tester" three_names three_boots 0 true one_test (default no_test test_start) (default no_test test_end) 0 sg
    [[1; 1; 0]] [3; 8; 5]) as (cfg' & sg' & H & Hg' & Hl); [repeat constructor..|vm_compute; reflexivity|vm_compute; reflexivity|vm_compute; reflexivity|exact Hg| |].
  - rewrite HN. repeat constructor; lia.
  - exists cfg', sg'. exact (conj H (conj Hg' (conj (Hl 0%nat 2%nat 3 5 eq_refl eq_refl) (Hl 1%nat 2%nat 8 5 eq_refl eq_refl)))).
Defined.
