(* ===== verification/Daemon.v ===== *)
(** * Server daemons (src/tester1/daemonclnt.go, daemonsrv.go)

    A server runs in a process of its own.  The tester starts it with its
    place in the group on the command line (runDaemon, InitDaemon), hands it
    its stable storage (Init, InitWait), and takes the storage back before it
    kills it (CheckpointPersister).  The daemon's main goroutine meets the RPC
    handlers at an unbuffered channel: [phase] says where it waits.

    The theorems: InitDaemon reads back from its arguments what runDaemon
    wrote, whatever the options; and the storage that a daemon hands back is
    the storage it was given with the saves of its server applied, so that
    the next daemon starts from it. *)

From stdpp Require Import pretty.
From Stdlib Require Import Ascii.
From S2P Require Import Prelude Rpc Dispatch Persister.

(** ** The command line *)

(** strconv.Itoa *)
Definition Itoa (z : Z) : string := pretty z.

Definition digit (c : Ascii.ascii) : option Z :=
  let n := Z.of_nat (Ascii.nat_of_ascii c) in
  if (48 <=? n) && (n <=? 57) then Some (n - 48) else None.

Fixpoint digits (acc : Z) (s : string) : option Z :=
  match s with
  | EmptyString => Some acc
  | String c s => d ← digit c; digits (acc * 10 + d) s
  end.

(** strconv.Atoi: an optional sign, digits, in the range of int. *)
Definition Atoi (s : string) : option Z :=
  let unsigned s := match s with EmptyString => None | _ => digits 0 s end in
  z ← match s with
      | String c s' => if Ascii.eqb c "-"%char then Z.opp <$> unsigned s' else if Ascii.eqb c "+"%char then unsigned s' else unsigned s
      | EmptyString => None
      end;
  if (- 2 ^ 63 <=? z) && (z <? 2 ^ 63) then Some z else None.

Definition options (UseRaftStateMachine : bool) : list string := if UseRaftStateMachine then ["--raft-state-machine"] else [].

(** The arguments of the process that [runDaemon] starts. *)
Definition runDaemon_args (pargs : list string) (UseRaftStateMachine : bool) (gid srv : Z) (endName : string) (endNames : list string) : list string :=
  pargs ++ options UseRaftStateMachine ++ [Itoa gid; Itoa srv; Itoa (len endNames); endName] ++ endNames.

(** The loop over the optional arguments, from argument [i] on; [None] is
    [args[0]] of an empty argument. *)
Fixpoint skip_options (i : Z) (args : list string) (s : Z) : option Z :=
  match args with
  | [] => Some s
  | EmptyString :: _ => None
  | String c _ :: args => if Ascii.eqb c "-"%char then skip_options (i + 1) args (i + 1) else Some s
  end.

Inductive InitResult : Type :=
| InitOk (gid sid : Z) (testerEndName : string) (endNames : list string)
| InitErr
| InitPanic.

(** [InitDaemon] up to the ends: gid, sid, the tester's and the group's names. *)
Definition InitDaemon_args (args : list string) : InitResult :=
  let index (i : Z) (f : string -> InitResult) := match get args i with Some a => f a | None => InitPanic end in
  let number (a : string) (f : Z -> InitResult) := match Atoi a with Some z => f z | None => InitErr end in
  match skip_options 0 args 0 with
  | None => InitPanic
  | Some s =>
      index s (fun a => number a (fun gid =>
      index (s + 1) (fun a => number a (fun sid =>
      index (s + 2) (fun a => number a (fun nsrv =>
      index (s + 3) (fun testerEndName =>
        if (0 <=? nsrv) && (s + 4 + nsrv <=? len args) then
          let endNames := take (Z.to_nat nsrv) (drop (Z.to_nat (s + 4)) args) in
          match get endNames sid with
          | Some _ => InitOk gid sid testerEndName endNames
          | None => InitPanic
          end
        else InitPanic)))))))
  end.

(** ** The control RPCs *)

Definition sockctl (sock : string) : string := sock +:+ "-ctl".

(** Where the main goroutine is: waiting for the storage, signalling that the
    server runs, waiting for the end, or returned from InitDaemon. *)
Inductive Phase : Type := AwaitInit | Signalling | Serving | Exited.

(** [connected]: the daemon's connections to the tester and of its server are
    open. *)
Record DaemonSrv : Type := MkDaemonSrv { phase : Phase; persister : option Persister; connected : bool }.

Definition launched : DaemonSrv := MkDaemonSrv AwaitInit None true.

Record InitArgs : Type := MkInitArgs { Raftstate : bytes; Snapshot : bytes }.
Record StateSizeReply : Type := MkStateSizeReply { RaftSize : Z; SnapSize : Z }.

#[export] Instance InitArgs_eq_dec : EqDecision InitArgs.
Proof. solve_decision. Defined.
#[export] Instance InitArgs_countable : Countable InitArgs.
Proof. refine (inj_countable' (fun a => (Raftstate a, Snapshot a)) (fun '(a, b) => MkInitArgs a b) _); by intros []. Defined.
#[export] Instance StateSizeReply_eq_dec : EqDecision StateSizeReply.
Proof. solve_decision. Defined.
#[export] Instance StateSizeReply_countable : Countable StateSizeReply.
Proof. refine (inj_countable' (fun a => (RaftSize a, SnapSize a)) (fun '(a, b) => MkStateSizeReply a b) _); by intros []. Defined.

(** A handler returns, waits for a partner on the channel, or panics. *)
Inductive Handled (R : Type) : Type := HDone (ds : DaemonSrv) (r : R) | HWaits | HPanics.
Arguments HDone {R}.
Arguments HWaits {R}.
Arguments HPanics {R}.

(** [Init] sends the storage: the main goroutine takes it and starts the
    server, or takes it as the end. *)
Definition Init (ds : DaemonSrv) (args : InitArgs) : Handled unit :=
  match phase ds with
  | AwaitInit => HDone (MkDaemonSrv Signalling (Some (Save MakePersister (Raftstate args) (Snapshot args))) (connected ds)) tt
  | Serving => HDone (MkDaemonSrv Exited (persister ds) (connected ds)) tt
  | Signalling | Exited => HWaits
  end.

Definition InitWait (ds : DaemonSrv) (args : InitArgs) : Handled unit :=
  match phase ds with
  | Signalling => HDone (MkDaemonSrv Serving (persister ds) (connected ds)) tt
  | _ => HWaits
  end.

(** The reply has the fields of InitArgs; [ds.rpcs] and [ds.persister] are nil
    before Init. *)
Definition CheckpointPersister (ds : DaemonSrv) : Handled InitArgs :=
  match persister ds with
  | Some ps =>
      let p := Checkpoint ps in
      HDone (MkDaemonSrv (phase ds) (persister ds) false) (MkInitArgs (ReadRaftState p) (ReadSnapshot p))
  | None => HPanics
  end.

Definition StateSize (ds : DaemonSrv) : Handled StateSizeReply :=
  match persister ds with
  | Some ps => HDone ds (MkStateSizeReply (RaftStateSize ps) (SnapshotSize ps))
  | None => HPanics
  end.

(** The server saves; it shares the persister with the daemon. *)
Definition server_save (ds : DaemonSrv) (s : bytes * bytes) : DaemonSrv :=
  MkDaemonSrv (phase ds) ((fun ps => Save ps (fst s) (snd s)) <$> persister ds) (connected ds).

(** ** The tester's side (DaemonClnt) *)

Section Clnt.
Context `{GI : Gob InitArgs} `{GS : Gob StateSizeReply} `{GU : Gob unit}.

(** RPCMarshall to a handler that returns, with a connection that holds. *)
Definition rpc {A R : Type} `{Gob A} `{Gob R} (f : DaemonSrv -> A -> Handled R) (ds : DaemonSrv) (a : A) : option (DaemonSrv * R) :=
  a ← Unmarshall (A := A) (Marshall a);
  match f ds a with
  | HDone ds r => r ← Unmarshall (A := R) (Marshall r); Some (ds, r)
  | _ => None
  end.

Definition init (ds : DaemonSrv) (p : Persister) : option DaemonSrv :=
  fst <$> rpc Init ds (MkInitArgs (ReadRaftState p) (ReadSnapshot p)).

Definition waitInit (ds : DaemonSrv) : option DaemonSrv := fst <$> rpc InitWait ds (MkInitArgs [] []).

Definition checkpointPersister (ds : DaemonSrv) : option (DaemonSrv * Persister) :=
  '(ds, reply) ← rpc (fun ds (_ : unit) => CheckpointPersister ds) ds tt;
  Some (ds, Save MakePersister (Raftstate reply) (Snapshot reply)).

Definition stateSize (ds : DaemonSrv) : option (Z * Z) :=
  '(_, reply) ← rpc (fun ds (_ : unit) => StateSize ds) ds tt;
  Some (RaftSize reply, SnapSize reply).

(** A daemon from its start with storage [p] to the end of a list of saves of
    its server. *)
Definition daemon_life (p : Persister) (saves : list (bytes * bytes)) : option DaemonSrv :=
  ds ← init launched p;
  ds ← waitInit ds;
  Some (foldl server_save ds saves).

Lemma rpc_done {A R : Type} `{Gob A} `{Gob R} (f : DaemonSrv -> A -> Handled R) ds a ds' r : f ds a = HDone ds' r -> rpc f ds a = Some (ds', r).
Proof. intros Hf. unfold rpc. rewrite Unmarshall_Marshall. cbn [mbind option_bind]. rewrite Hf, Unmarshall_Marshall. done. Qed.

Lemma Save_Read (p : Persister) : Save MakePersister (ReadRaftState p) (ReadSnapshot p) = p.
Proof. by destruct p. Qed.

Lemma daemon_life_eq p saves : daemon_life p saves = Some (MkDaemonSrv Serving (Some (foldl (fun ps s => Save ps (fst s) (snd s)) p saves)) true).
Proof.
  unfold daemon_life, init, waitInit. erewrite rpc_done by done. cbn [fmap option_fmap option_map fst mbind option_bind]. erewrite rpc_done by done.
  cbn [fmap option_fmap option_map fst mbind option_bind persister connected phase]. f_equal. cbn [Raftstate Snapshot]. rewrite Save_Read.
  revert p. induction saves as [|s saves IH]; intros p; [done|]. cbn [foldl]. unfold server_save at 2. cbn [phase persister connected fmap option_fmap option_map]. apply IH.
Qed.

(** A daemon hands back its storage.  A daemon that is started
    with some storage comes up, and after any saves of its server it reports
    the sizes of, and hands back at its checkpoint, exactly the storage the
    server saved last; its connections are closed then, and a daemon started
    with what it handed back has this storage. *)
Theorem daemon_storage_roundtrip (p : Persister) (saves : list (bytes * bytes)) :
  let q := foldl (fun ps s => Save ps (fst s) (snd s)) p saves in
  exists ds ds' ds'', daemon_life p saves = Some ds /\ stateSize ds = Some (RaftStateSize q, SnapshotSize q) /\
    checkpointPersister ds = Some (ds', q) /\ connected ds' = false /\
    daemon_life q [] = Some ds'' /\ persister ds'' = Some q /\ phase ds'' = Serving.
Proof.
  intros q. exists (MkDaemonSrv Serving (Some q) true), (MkDaemonSrv Serving (Some q) false), (MkDaemonSrv Serving (Some q) true).
  rewrite !daemon_life_eq. fold q. clearbody q. unfold stateSize, checkpointPersister. do 2 (erewrite rpc_done by done).
  cbn [mbind option_bind]. split_and!; try done. by destruct q.
Qed.

End Clnt.

(** ** The command line is read back *)

Lemma digit_pretty x : (x < 10)%N -> digit (pretty_N_char x) = Some (Z.of_N x).
Proof.
  intros Hx. assert (x = 0 \/ x = 1 \/ x = 2 \/ x = 3 \/ x = 4 \/ x = 5 \/ x = 6 \/ x = 7 \/ x = 8 \/ x = 9)%N as Hc by lia.
  naive_solver.
Qed.

(** Reading the digits of [x] in front of [s] and then [s]. *)
Lemma digits_pretty x s : digits 0 (pretty_N_go x s) = digits (Z.of_N x) s.
Proof.
  revert s. induction (N.lt_wf_0 x) as [x _ IH]; intros s. destruct (decide (x = 0)%N) as [->|Hx]; [by rewrite pretty_N_go_0|].
  rewrite pretty_N_go_step by lia. rewrite IH by (apply N.div_lt; lia). cbn [digits]. rewrite digit_pretty by (by apply N.mod_lt). cbn [mbind option_bind].
  f_equal. rewrite N2Z.inj_div, N2Z.inj_mod. pose proof (Z.div_mod (Z.of_N x) 10). lia.
Qed.

(** The first character of a printed number is a digit. *)
Lemma pretty_first x s : (s = EmptyString \/ exists c s', s = String c s' /\ is_Some (digit c)) ->
  ((0 < x)%N \/ s <> EmptyString) -> exists c s', pretty_N_go x s = String c s' /\ is_Some (digit c).
Proof.
  revert s. induction (N.lt_wf_0 x) as [x _ IH]; intros s Hs Hne. destruct (decide (x = 0)%N) as [->|Hx].
  - rewrite pretty_N_go_0. destruct Hs as [->|?]; [|done]. by destruct Hne.
  - rewrite pretty_N_go_step by lia. apply IH; [apply N.div_lt; lia| |by right]. right. eexists _, _. split; [done|].
    rewrite digit_pretty by (by apply N.mod_lt). eauto.
Qed.

Lemma Itoa_first z : 0 <= z -> exists c s, Itoa z = String c s /\ is_Some (digit c) /\ digits 0 (Itoa z) = Some z.
Proof.
  intros Hz. unfold Itoa, pretty, pretty_Z. destruct z as [|p|p]; [|simpl|lia].
  - exists "0"%char, EmptyString. split_and!; [done|eauto|done].
  - unfold pretty, pretty_positive, pretty, pretty_N. rewrite decide_False by done. destruct (pretty_first (Npos p) "") as (c & s & Hc & Hd); [by left|left; lia|].
    exists c, s. split_and!; [done|done|]. by rewrite digits_pretty.
Qed.

Lemma digit_not_sign c : is_Some (digit c) -> Ascii.eqb c "-"%char = false /\ Ascii.eqb c "+"%char = false.
Proof.
  intros [d Hd]. split; apply Ascii.eqb_neq; intros ->; discriminate.
Qed.

Lemma Atoi_Itoa z : 0 <= z < 2 ^ 63 -> Atoi (Itoa z) = Some z.
Proof.
  intros [Hz Hlt]. destruct (Itoa_first z Hz) as (c & s & Heq & Hd & Hdig). destruct (digit_not_sign c Hd) as [Hm Hp].
  unfold Atoi. rewrite Heq in Hdig |- *. rewrite Hm, Hp, Hdig. cbn [mbind option_bind].
  destruct (Z.leb_spec (- 2 ^ 63) z); [|lia]. destruct (Z.ltb_spec z (2 ^ 63)); [done|lia].
Qed.

Definition is_option (a : string) : bool := match a with String c _ => Ascii.eqb c "-"%char | EmptyString => false end.

Lemma skip_options_app i opts args s : Forall (fun a => is_option a = true) opts ->
  skip_options i (opts ++ args) s = skip_options (i + len opts) args (match opts with [] => s | _ => i + len opts end).
Proof.
  intros Ho. revert i s. induction Ho as [|a opts Ha Ho IH]; intros i s; [simpl; f_equal; lia|]. destruct a as [|c a]; [done|].
  simpl in Ha. cbn [app skip_options]. rewrite Ha, IH. f_equal; [simpl; lia|]. destruct opts; simpl; lia.
Qed.

(** A daemon learns its place.  Whatever options the tester
    passes, InitDaemon reads from the arguments that runDaemon writes the
    group, the server's number, the tester's name and the names of all ends,
    for every server of the group; end names may be anything, also start with
    a dash. *)
Theorem daemon_arguments_roundtrip (pargs : list string) (useRSM : bool) (gid srv : Z) (endName : string) (endNames : list string) :
  Forall (fun a => is_option a = true) pargs -> 0 <= gid < 2 ^ 63 -> 0 <= srv < len endNames -> len endNames < 2 ^ 63 ->
  InitDaemon_args (runDaemon_args pargs useRSM gid srv endName endNames) = InitOk gid srv endName endNames.
Proof.
  intros Hp Hg Hs Hn. unfold InitDaemon_args, runDaemon_args. rewrite app_assoc. set (opts := pargs ++ options useRSM).
  assert (Forall (fun a => is_option a = true) opts) as Ho by (apply Forall_app; split; [done|]; destruct useRSM; repeat constructor).
  rewrite skip_options_app by done. destruct (Itoa_first gid) as (c & s & Hc & Hd & _); [lia|]. destruct (digit_not_sign c Hd) as [Hm _].
  cbn [app skip_options]. rewrite Hc at 1. rewrite Hm. assert (match opts with [] => 0 | _ => 0 + len opts end = len opts) as -> by (destruct opts; simpl; lia).
  assert (forall j, 0 <= j -> get (opts ++ [Itoa gid; Itoa srv; Itoa (len endNames); endName] ++ endNames) (len opts + j) =
    get ([Itoa gid; Itoa srv; Itoa (len endNames); endName] ++ endNames) j) as Hget.
  { intros j Hj. unfold get. destruct (Z.leb_spec 0 (len opts + j)); [|lia]. destruct (Z.leb_spec 0 j); [|lia].
    rewrite lookup_app_r by lia. f_equal. lia. }
  pose proof (Hget 0 ltac:(lia)) as H0. pose proof (Hget 1 ltac:(lia)) as H1. pose proof (Hget 2 ltac:(lia)) as H2. pose proof (Hget 3 ltac:(lia)) as H3.
  rewrite Z.add_0_r in H0. cbn [app] in *. rewrite H0, H1, H2, H3.
  repeat match goal with |- context [get (?a :: ?l) ?j] => let x := eval compute in (Z.to_nat j) in
    change (get (a :: l) j) with ((a :: l) !! x); cbn [lookup list_lookup] end.
  rewrite !Atoi_Itoa by lia. destruct (Z.leb_spec 0 (len endNames)); [|lia]. rewrite length_app. cbn [length].
  destruct (Z.leb_spec (len opts + 4 + len endNames) (Z.of_nat (length opts + S (S (S (S (length endNames))))))); [|lia]. cbn [andb].
  rewrite drop_app_ge by lia. replace (Z.to_nat (len opts + 4) - length opts)%nat with 4%nat by lia. cbn [drop].
  rewrite drop_0, take_ge by lia. destruct (get endNames srv) eqn:He; [done|]. unfold get in He. destruct (Z.leb_spec 0 srv); [|lia].
  apply lookup_ge_None in He. lia.
Qed.

Lemma daemon_arguments_roundtrip_witness :
  runDaemon_args ["--max-raft-state=1"] true 100 2 "-t" ["a"; "-b"; "c"] =
    ["--max-raft-state=1"; "--raft-state-machine"; "100"; "2"; "3"; "-t"; "a"; "-b"; "c"] /\
  InitDaemon_args (runDaemon_args ["--max-raft-state=1"] true 100 2 "-t" ["a"; "-b"; "c"]) = InitOk 100 2 "-t" ["a"; "-b"; "c"].
Proof.
  split; [reflexivity|]. apply daemon_arguments_roundtrip; [repeat constructor|lia|simpl; lia|simpl; lia].
Defined.
