(* ===== verification/Raft.v ===== *)
(** * A Raft peer (src/raft1/raft.go)

    The state of one peer and every operation on it.  An operation that the
    code runs under the mutex [rf.mu] is one function here; an operation that
    releases the mutex around an RPC is split at that point, into the part
    that builds the request and the part that handles the reply.  [None] is
    a run-time panic (an index out of range, or the decode error of
    [readPersist]).

    Terms and log indices are mathematical integers: they grow by one per
    election and per command and do not reach 2^63.  [now] is the value
    [time.Now()] returns. *)

From S2P Require Import Prelude Persister.

(** ** Data *)

Record LogEntry (Cmd : Type) : Type := MkLogEntry { Term : Z; Command : option Cmd }.
Arguments MkLogEntry {Cmd}.
Arguments Term {Cmd}.
Arguments Command {Cmd}.

#[export] Instance LogEntry_eq_dec `{EqDecision Cmd} : EqDecision (LogEntry Cmd).
Proof. solve_decision. Defined.

#[export] Instance LogEntry_countable `{Countable Cmd} : Countable (LogEntry Cmd).
Proof.
  refine (inj_countable' (fun e => (Term e, Command e)) (fun '(t, c) => MkLogEntry t c) _); by intros [].
Defined.

Inductive State : Type := Follower | Candidate | Leader.

#[export] Instance State_eq_dec : EqDecision State.
Proof. solve_decision. Defined.

Definition State_eqb (a b : State) : bool := bool_decide (a = b).

(** Constants, in milliseconds. *)
Definition HeartbeatInterval : Z := 100.
Definition ElectionTimeoutMin : Z := 300.
Definition ElectionTimeoutMax : Z := 600.

(** [raftapi.ApplyMsg]: exactly one of the two kinds is valid. *)
Inductive ApplyMsg (Cmd : Type) : Type :=
| CommandMsg (c : option Cmd) (index : Z)
| SnapshotMsg (data : bytes) (term index : Z).
Arguments CommandMsg {Cmd}.
Arguments SnapshotMsg {Cmd}.

Record RequestVoteArgs : Type := MkRequestVoteArgs {
  rv_Term : Z; rv_CandidateId : Z; rv_LastLogIndex : Z; rv_LastLogTerm : Z;
}.

Record RequestVoteReply : Type := MkRequestVoteReply { rvr_Term : Z; rvr_VoteGranted : bool }.

Record AppendEntriesArgs (Cmd : Type) : Type := MkAppendEntriesArgs {
  ae_Term : Z; ae_LeaderId : Z; ae_PrevLogIndex : Z; ae_PrevLogTerm : Z;
  ae_Entries : list (LogEntry Cmd); ae_LeaderCommit : Z;
}.
Arguments MkAppendEntriesArgs {Cmd}.
Arguments ae_Term {Cmd}.
Arguments ae_LeaderId {Cmd}.
Arguments ae_PrevLogIndex {Cmd}.
Arguments ae_PrevLogTerm {Cmd}.
Arguments ae_Entries {Cmd}.
Arguments ae_LeaderCommit {Cmd}.

Record AppendEntriesReply : Type := MkAppendEntriesReply {
  aer_Term : Z; aer_Success : bool; aer_XTerm : Z; aer_XIndex : Z; aer_XLen : Z;
}.

Record InstallSnapshotArgs : Type := MkInstallSnapshotArgs {
  is_Term : Z; is_LeaderId : Z; is_LastIncludedIndex : Z; is_LastIncludedTerm : Z; is_Data : bytes;
}.

Record InstallSnapshotReply : Type := MkInstallSnapshotReply { isr_Term : Z }.

(** [type Raft struct].  [npeers] is [len(rf.peers)]; [triggers] says of each
    one-place channel whether it is full; the condition variable and the
    apply channel are the steps of [applier]. *)
Record Raft (Cmd : Type) : Type := MkRaft {
  npeers : nat;
  me : nat;
  persister : Persister;
  currentTerm : Z;
  votedFor : Z;
  log : list (LogEntry Cmd);
  snapshot : bytes;
  lastIncludedIndex : Z;
  lastIncludedTerm : Z;
  state : State;
  lastElectionReset : Z;
  commitIndex : Z;
  lastApplied : Z;
  nextIndex : list Z;
  matchIndex : list Z;
  triggers : list bool;
  pendingSnapshot : bool;
  pendingSnapshotData : bytes;
  pendingSnapshotIndex : Z;
  pendingSnapshotTerm : Z;
}.
Arguments MkRaft {Cmd}.
Arguments npeers {Cmd}.
Arguments me {Cmd}.
Arguments persister {Cmd}.
Arguments currentTerm {Cmd}.
Arguments votedFor {Cmd}.
Arguments log {Cmd}.
Arguments snapshot {Cmd}.
Arguments lastIncludedIndex {Cmd}.
Arguments lastIncludedTerm {Cmd}.
Arguments state {Cmd}.
Arguments lastElectionReset {Cmd}.
Arguments commitIndex {Cmd}.
Arguments lastApplied {Cmd}.
Arguments nextIndex {Cmd}.
Arguments matchIndex {Cmd}.
Arguments triggers {Cmd}.
Arguments pendingSnapshot {Cmd}.
Arguments pendingSnapshotData {Cmd}.
Arguments pendingSnapshotIndex {Cmd}.
Arguments pendingSnapshotTerm {Cmd}.

Section Setters.
Context {Cmd : Type}.

Definition eta_Raft (rf : Raft Cmd) : Raft Cmd :=
  MkRaft (npeers rf) (me rf) (persister rf) (currentTerm rf) (votedFor rf) (log rf) (snapshot
    rf) (lastIncludedIndex rf) (lastIncludedTerm rf) (state rf) (lastElectionReset rf)
    (commitIndex rf) (lastApplied rf) (nextIndex rf) (matchIndex rf) (triggers rf)
    (pendingSnapshot rf) (pendingSnapshotData rf) (pendingSnapshotIndex rf)
    (pendingSnapshotTerm rf).

#[global] Instance set_persister : Setter (@persister Cmd) := ltac:(solve_setter eta_Raft (@persister Cmd)).
#[global] Instance set_currentTerm : Setter (@currentTerm Cmd) := ltac:(solve_setter eta_Raft (@currentTerm Cmd)).
#[global] Instance set_votedFor : Setter (@votedFor Cmd) := ltac:(solve_setter eta_Raft (@votedFor Cmd)).
#[global] Instance set_log : Setter (@log Cmd) := ltac:(solve_setter eta_Raft (@log Cmd)).
#[global] Instance set_snapshot : Setter (@snapshot Cmd) := ltac:(solve_setter eta_Raft (@snapshot Cmd)).
#[global] Instance set_lastIncludedIndex : Setter (@lastIncludedIndex Cmd) := ltac:(solve_setter eta_Raft (@lastIncludedIndex Cmd)).
#[global] Instance set_lastIncludedTerm : Setter (@lastIncludedTerm Cmd) := ltac:(solve_setter eta_Raft (@lastIncludedTerm Cmd)).
#[global] Instance set_state : Setter (@state Cmd) := ltac:(solve_setter eta_Raft (@state Cmd)).
#[global] Instance set_lastElectionReset : Setter (@lastElectionReset Cmd) := ltac:(solve_setter eta_Raft (@lastElectionReset Cmd)).
#[global] Instance set_commitIndex : Setter (@commitIndex Cmd) := ltac:(solve_setter eta_Raft (@commitIndex Cmd)).
#[global] Instance set_lastApplied : Setter (@lastApplied Cmd) := ltac:(solve_setter eta_Raft (@lastApplied Cmd)).
#[global] Instance set_nextIndex : Setter (@nextIndex Cmd) := ltac:(solve_setter eta_Raft (@nextIndex Cmd)).
#[global] Instance set_matchIndex : Setter (@matchIndex Cmd) := ltac:(solve_setter eta_Raft (@matchIndex Cmd)).
#[global] Instance set_triggers : Setter (@triggers Cmd) := ltac:(solve_setter eta_Raft (@triggers Cmd)).
#[global] Instance set_pendingSnapshot : Setter (@pendingSnapshot Cmd) := ltac:(solve_setter eta_Raft (@pendingSnapshot Cmd)).
#[global] Instance set_pendingSnapshotData : Setter (@pendingSnapshotData Cmd) := ltac:(solve_setter eta_Raft (@pendingSnapshotData Cmd)).
#[global] Instance set_pendingSnapshotIndex : Setter (@pendingSnapshotIndex Cmd) := ltac:(solve_setter eta_Raft (@pendingSnapshotIndex Cmd)).
#[global] Instance set_pendingSnapshotTerm : Setter (@pendingSnapshotTerm Cmd) := ltac:(solve_setter eta_Raft (@pendingSnapshotTerm Cmd)).

End Setters.

Section Peer.
Context {Cmd : Type} `{GZ : Gob Z} `{GL : Gob (list (LogEntry Cmd))}.
Implicit Types rf : Raft Cmd.

(** ** Log access and persistence *)

(** The random part [r] of the election timeout lies in [0, max - min). *)
Definition randElectionTimeout (r : Z) : Z := ElectionTimeoutMin + r.

Definition lastLogIndex rf : Z := lastIncludedIndex rf + len (log rf) - 1.

Definition entryAt rf (index : Z) : option (LogEntry Cmd) :=
  get (log rf) (index - lastIncludedIndex rf).

Definition GetState rf : Z * bool := (currentTerm rf, State_eqb (state rf) Leader).

Definition raft_state_bytes rf : bytes :=
  gob_enc (currentTerm rf) ++ gob_enc (votedFor rf) ++ gob_enc (log rf) ++
  gob_enc (lastIncludedIndex rf) ++ gob_enc (lastIncludedTerm rf).

Definition persist rf : Raft Cmd :=
  rf <| persister := Save (persister rf) (raft_state_bytes rf) (snapshot rf) |>.

Definition readPersist rf (data : bytes) : option (Raft Cmd) :=
  if len data <? 1 then Some rf
  else
    '(term, d) ← gob_dec (A := Z) data;
    '(voted, d) ← gob_dec (A := Z) d;
    '(lg, d) ← gob_dec (A := list (LogEntry Cmd)) d;
    '(idx, d) ← gob_dec (A := Z) d;
    '(trm, d) ← gob_dec (A := Z) d;
    Some (rf <| currentTerm := term |> <| votedFor := voted |> <| log := lg |>
             <| lastIncludedIndex := idx |> <| lastIncludedTerm := trm |>).

Definition PersistBytes rf : Z := RaftStateSize (persister rf).

(** [newLog := make(..., len(log)-offset); copy(newLog, log[offset:]);
    newLog[0].Command = nil]. *)
Definition compactLog (lg : list (LogEntry Cmd)) (offset : Z) : option (list (LogEntry Cmd)) :=
  newLog ← from lg offset;
  match newLog with
  | [] => None
  | e :: rest => Some (MkLogEntry (Term e) None :: rest)
  end.

Definition Snapshot rf (index : Z) (snap : bytes) : option (Raft Cmd) :=
  if (index <=? lastIncludedIndex rf) || (index >? lastApplied rf) then Some rf
  else
    e ← entryAt rf index;
    newLog ← compactLog (log rf) (index - lastIncludedIndex rf);
    Some (persist (rf <| log := newLog |> <| lastIncludedIndex := index |>
                      <| lastIncludedTerm := Term e |> <| snapshot := snap |>)).

Definition resetElectionTimer rf (now : Z) : Raft Cmd := rf <| lastElectionReset := now |>.

Definition toFollower rf (term : Z) : Raft Cmd :=
  persist (rf <| currentTerm := term |> <| state := Follower |> <| votedFor := -1 |>).

(** ** Elections *)

Definition RequestVote rf (args : RequestVoteArgs) (now : Z)
    : option (Raft Cmd * RequestVoteReply) :=
  let rf := if rv_Term args >? currentTerm rf then toFollower rf (rv_Term args) else rf in
  let refuse := MkRequestVoteReply (currentTerm rf) false in
  if rv_Term args <? currentTerm rf then Some (rf, refuse)
  else
    let lastIdx := lastLogIndex rf in
    e ← entryAt rf lastIdx;
    let lastTerm := Term e in
    let upToDate := (rv_LastLogTerm args >? lastTerm) ||
                    (rv_LastLogTerm args =? lastTerm) && (rv_LastLogIndex args >=? lastIdx) in
    if negb upToDate then Some (rf, refuse)
    else if (votedFor rf =? -1) || (votedFor rf =? rv_CandidateId args) then
      Some (persist (rf <| votedFor := rv_CandidateId args |>) <| lastElectionReset := now |>,
            MkRequestVoteReply (currentTerm rf) true)
    else Some (rf, refuse).

(** [startElection] up to the release of the mutex; the result is the new
    state and the local variable [term].  Then one goroutine per other peer
    runs, and [votes] starts at 1. *)
Definition startElection rf (now : Z) : Raft Cmd * Z :=
  let rf := persist (rf <| currentTerm := currentTerm rf + 1 |> <| state := Candidate |>
                        <| votedFor := Z.of_nat (me rf) |> <| lastElectionReset := now |>) in
  (rf, currentTerm rf).

(** A vote-collecting goroutine before its RPC: it gives up ([Some None]) when
    the term is over, or sends a request. *)
Definition voteRequest rf (term : Z) : option (option RequestVoteArgs) :=
  if negb (currentTerm rf =? term) || negb (State_eqb (state rf) Candidate) then Some None
  else
    let lastIdx := lastLogIndex rf in
    e ← entryAt rf lastIdx;
    Some (Some (MkRequestVoteArgs term (Z.of_nat (me rf)) lastIdx (Term e))).

(** [select { case rf.triggers[i] <- struct{}{}: default: }] for one peer and
    for all the others. *)
Definition signal rf (peer : nat) : Raft Cmd := rf <| triggers := <[peer := true]> (triggers rf) |>.

Definition signalAll rf : Raft Cmd :=
  rf <| triggers := imap (fun i full => if (i =? me rf)%nat then full else true) (triggers rf) |>.

Definition becomeLeader rf (term : Z) (now : Z) : option (Raft Cmd) :=
  if State_eqb (state rf) Leader || negb (currentTerm rf =? term) then Some rf
  else
    let n := npeers rf in
    match_ ← put (replicate n 0) (Z.of_nat (me rf)) (lastLogIndex rf);
    Some (signalAll (rf <| state := Leader |> <| lastElectionReset := now |>
                        <| nextIndex := replicate n (lastLogIndex rf + 1) |>
                        <| matchIndex := match_ |>)).

(** A vote-collecting goroutine after its RPC; [votes] is the counter the
    goroutines of one election share. *)
Definition voteReply rf (term : Z) (votes : nat) (reply : RequestVoteReply) (now : Z)
    : option (Raft Cmd * nat) :=
  if rvr_Term reply >? currentTerm rf then Some (toFollower rf (rvr_Term reply), votes)
  else if negb (currentTerm rf =? term) || negb (State_eqb (state rf) Candidate) then Some (rf, votes)
  else if rvr_VoteGranted reply then
    let votes := S votes in
    if (Nat.div (npeers rf) 2 <? votes)%nat
    then rf' ← becomeLeader rf term now; Some (rf', votes)
    else Some (rf, votes)
  else Some (rf, votes).

(** ** Log replication: the follower *)

(** [for i > rf.lastIncludedIndex && rf.entryAt(i-1).Term == reply.XTerm]:
    the fuel is the distance of [i] to the boundary. *)
Fixpoint conflictStart rf (xterm : Z) (i : Z) (fuel : nat) : option Z :=
  match fuel with
  | O => Some i
  | S fuel =>
      if i >? lastIncludedIndex rf then
        e ← entryAt rf (i - 1);
        if Term e =? xterm then conflictStart rf xterm (i - 1) fuel else Some i
      else Some i
  end.

(** Case 3 of AppendEntries: [es] is [args.Entries[i:]] and [pos] the log
    index of its first entry. *)
Fixpoint appendLoop rf (pos : Z) (es : list (LogEntry Cmd)) : option (Raft Cmd) :=
  match es with
  | [] => Some rf
  | e :: es' =>
      if pos >? lastLogIndex rf then
        appendLoop (rf <| log := log rf ++ [e] |>) (pos + 1) es'
      else
        old ← entryAt rf pos;
        if negb (Term old =? Term e) then
          Some (rf <| log := take (Z.to_nat (pos - lastIncludedIndex rf)) (log rf) ++ es |>)
        else appendLoop rf (pos + 1) es'
  end.

Definition AppendEntries rf (args : AppendEntriesArgs Cmd) (now : Z)
    : option (Raft Cmd * AppendEntriesReply) :=
  if ae_Term args <? currentTerm rf then
    Some (rf, MkAppendEntriesReply (currentTerm rf) false 0 0 0)
  else
    let rf := if ae_Term args >? currentTerm rf then toFollower rf (ae_Term args)
              else rf <| state := Follower |> in
    let rf := resetElectionTimer rf now in
    let term := currentTerm rf in
    let prev := ae_PrevLogIndex args in
    if prev <? lastIncludedIndex rf then
      Some (rf, MkAppendEntriesReply term false (-1) 0 (lastIncludedIndex rf + 1))
    else if prev >? lastLogIndex rf then
      Some (rf, MkAppendEntriesReply term false (-1) 0 (lastLogIndex rf + 1))
    else
      e ← entryAt rf prev;
      if negb (Term e =? ae_PrevLogTerm args) then
        x ← conflictStart rf (Term e) prev (Z.to_nat (prev - lastIncludedIndex rf));
        Some (rf, MkAppendEntriesReply term false (Term e) x (lastLogIndex rf + 1))
      else
        rf ← appendLoop rf (prev + 1) (ae_Entries args);
        let rf := if len (ae_Entries args) >? 0 then persist rf else rf in
        let rf :=
          if ae_LeaderCommit args >? commitIndex rf then
            let last := lastLogIndex rf in
            let last := if ae_LeaderCommit args <? last then ae_LeaderCommit args else last in
            rf <| commitIndex := last |>
          else rf in
        Some (rf, MkAppendEntriesReply term true 0 0 0).

Definition InstallSnapshot rf (args : InstallSnapshotArgs) (now : Z)
    : option (Raft Cmd * InstallSnapshotReply) :=
  if is_Term args <? currentTerm rf then Some (rf, MkInstallSnapshotReply (currentTerm rf))
  else
    let rf := if is_Term args >? currentTerm rf then toFollower rf (is_Term args)
              else rf <| state := Follower |> in
    let rf := resetElectionTimer rf now in
    let reply := MkInstallSnapshotReply (currentTerm rf) in
    let idx := is_LastIncludedIndex args in
    if idx <=? lastIncludedIndex rf then Some (rf, reply)
    else
      keep ← (if idx <=? lastLogIndex rf
              then e ← entryAt rf idx; Some (Term e =? is_LastIncludedTerm args)
              else Some false);
      newLog ← (if (keep : bool) then compactLog (log rf) (idx - lastIncludedIndex rf)
                else Some [MkLogEntry (is_LastIncludedTerm args) None]);
      let rf := rf <| log := newLog |> <| lastIncludedIndex := idx |>
                   <| lastIncludedTerm := is_LastIncludedTerm args |>
                   <| snapshot := is_Data args |> in
      let rf := if commitIndex rf <? idx then rf <| commitIndex := idx |> else rf in
      let rf := persist rf in
      let rf :=
        if idx >? lastApplied rf then
          rf <| pendingSnapshot := true |> <| pendingSnapshotData := is_Data args |>
             <| pendingSnapshotIndex := idx |> <| pendingSnapshotTerm := is_LastIncludedTerm args |>
        else rf in
      Some (rf, reply).

(** ** Log replication: the leader *)

(** What [replicateOnce] sends before it releases the mutex. *)
Inductive Replication : Type :=
| SendNothing
| SendSnapshot (args : InstallSnapshotArgs)
| SendEntries (args : AppendEntriesArgs Cmd).

Definition replicateOnce rf (peer : nat) : option Replication :=
  if negb (State_eqb (state rf) Leader) then Some SendNothing
  else
    let term := currentTerm rf in
    next ← nextIndex rf !! peer;
    if next <=? lastIncludedIndex rf then
      Some (SendSnapshot (MkInstallSnapshotArgs term (Z.of_nat (me rf)) (lastIncludedIndex rf)
                            (lastIncludedTerm rf) (snapshot rf)))
    else
      let prevIndex := next - 1 in
      if prevIndex >? lastLogIndex rf then Some SendNothing
      else
        entries ← (if prevIndex <? lastLogIndex rf
                   then from (log rf) (prevIndex + 1 - lastIncludedIndex rf) else Some []);
        e ← entryAt rf prevIndex;
        Some (SendEntries (MkAppendEntriesArgs term (Z.of_nat (me rf)) prevIndex (Term e) entries
                             (commitIndex rf))).

(** [replicateOnce] after the reply to InstallSnapshot. *)
Definition snapshotReply rf (peer : nat) (args : InstallSnapshotArgs) (ok : bool)
    (reply : InstallSnapshotReply) : option (Raft Cmd) :=
  if negb ok || negb (State_eqb (state rf) Leader) || negb (currentTerm rf =? is_Term args)
  then Some rf
  else if isr_Term reply >? currentTerm rf then Some (toFollower rf (isr_Term reply))
  else
    let idx := is_LastIncludedIndex args in
    m ← matchIndex rf !! peer;
    let rf := if m <? idx then rf <| matchIndex := <[peer := idx]> (matchIndex rf) |> else rf in
    n ← nextIndex rf !! peer;
    let rf := if n <? idx + 1 then rf <| nextIndex := <[peer := idx + 1]> (nextIndex rf) |> else rf in
    Some (signal rf peer).

(** [for i > rf.lastIncludedIndex && rf.entryAt(i).Term != reply.XTerm]. *)
Fixpoint lastOfTerm rf (xterm : Z) (i : Z) (fuel : nat) : option Z :=
  match fuel with
  | O => Some i
  | S fuel =>
      if i >? lastIncludedIndex rf then
        e ← entryAt rf i;
        if negb (Term e =? xterm) then lastOfTerm rf xterm (i - 1) fuel else Some i
      else Some i
  end.

Definition backupNextIndex rf (peer : nat) (reply : AppendEntriesReply) : option (Raft Cmd) :=
  next ← (if aer_XTerm reply =? -1 then Some (aer_XLen reply)
          else
            i ← lastOfTerm rf (aer_XTerm reply) (lastLogIndex rf)
                  (Z.to_nat (lastLogIndex rf - lastIncludedIndex rf));
            e ← entryAt rf i;
            Some (if Term e =? aer_XTerm reply then i + 1 else aer_XIndex reply));
  cur ← nextIndex rf !! peer;
  let next := if next >=? cur then cur - 1 else next in
  let minNext := lastIncludedIndex rf in
  let minNext := if minNext <? 1 then 1 else minNext in
  let next := if next <? minNext then minNext else next in
  Some (rf <| nextIndex := <[peer := next]> (nextIndex rf) |>).

Definition advanceCommitIndex rf : option (Raft Cmd) :=
  if negb (State_eqb (state rf) Leader) then Some rf
  else
    let n := length (matchIndex rf) in
    let tmp := merge_sort Z.le (matchIndex rf) in
    N ← tmp !! Nat.div n 2;
    if (N >? commitIndex rf) && (N <=? lastLogIndex rf) then
      e ← entryAt rf N;
      Some (if Term e =? currentTerm rf then rf <| commitIndex := N |> else rf)
    else Some rf.

(** [replicateOnce] after the reply to AppendEntries. *)
Definition appendReply rf (peer : nat) (args : AppendEntriesArgs Cmd) (ok : bool)
    (reply : AppendEntriesReply) : option (Raft Cmd) :=
  if negb ok || negb (State_eqb (state rf) Leader) || negb (currentTerm rf =? ae_Term args)
  then Some rf
  else if aer_Term reply >? currentTerm rf then Some (toFollower rf (aer_Term reply))
  else if aer_Success reply then
    let newMatch := ae_PrevLogIndex args + len (ae_Entries args) in
    let newNext := newMatch + 1 in
    m ← matchIndex rf !! peer;
    let rf := if newMatch >? m then rf <| matchIndex := <[peer := newMatch]> (matchIndex rf) |> else rf in
    n ← nextIndex rf !! peer;
    let rf := if newNext >? n then rf <| nextIndex := <[peer := newNext]> (nextIndex rf) |> else rf in
    advanceCommitIndex rf
  else
    n ← nextIndex rf !! peer;
    if n <=? ae_PrevLogIndex args + 1 then
      rf ← backupNextIndex rf peer reply;
      Some (signal rf peer)
    else Some rf.

(** ** Application, clients, timers, restart *)

(** One iteration of the loop of [applier]: [Some None] waits on the
    condition variable, otherwise one message goes to the apply channel. *)
Definition applier rf : option (option (Raft Cmd * ApplyMsg Cmd)) :=
  if negb (pendingSnapshot rf) && (lastApplied rf >=? commitIndex rf) then Some None
  else if pendingSnapshot rf then
    Some (Some (rf <| lastApplied := pendingSnapshotIndex rf |> <| pendingSnapshot := false |>,
                SnapshotMsg (pendingSnapshotData rf) (pendingSnapshotTerm rf) (pendingSnapshotIndex rf)))
  else
    let idx := lastApplied rf + 1 in
    e ← entryAt rf idx;
    Some (Some (rf <| lastApplied := idx |>, CommandMsg (Command e) idx)).

Definition Start rf (command : Cmd) : option (Raft Cmd * (Z * Z * bool)) :=
  if negb (State_eqb (state rf) Leader) then Some (rf, (-1, currentTerm rf, false))
  else
    let index := lastLogIndex rf + 1 in
    let term := currentTerm rf in
    let rf := rf <| log := log rf ++ [MkLogEntry term (Some command)] |> in
    ni ← put (nextIndex rf) (Z.of_nat (me rf)) (lastLogIndex rf + 1);
    mi ← put (matchIndex rf) (Z.of_nat (me rf)) (lastLogIndex rf);
    Some (signalAll (persist (rf <| nextIndex := ni |> <| matchIndex := mi |>)), (index, term, true)).

(** The election decision of [ticker] after it slept [timeout]. *)
Definition ticker_shouldStart rf (now timeout : Z) : bool :=
  negb (State_eqb (state rf) Leader) && (now - lastElectionReset rf >=? timeout).

(** One iteration of [ticker]: a leader only sleeps; anyone else may start
    an election after [timeout]. *)
Definition ticker rf (now timeout : Z) : Raft Cmd * option Z :=
  if State_eqb (state rf) Leader then (rf, None)
  else if ticker_shouldStart rf now timeout then
    let '(rf', term) := startElection rf now in (rf', Some term)
  else (rf, None).

Definition Make (n me_ : nat) (ps : Persister) (now : Z) : option (Raft Cmd) :=
  let rf :=
    {| npeers := n; me := me_; persister := ps; currentTerm := 0; votedFor := -1;
       log := [MkLogEntry 0 None]; snapshot := []; lastIncludedIndex := 0; lastIncludedTerm := 0;
       state := Follower; lastElectionReset := now; commitIndex := 0; lastApplied := 0;
       nextIndex := replicate n 0; matchIndex := replicate n 0; triggers := replicate n false;
       pendingSnapshot := false; pendingSnapshotData := []; pendingSnapshotIndex := 0;
       pendingSnapshotTerm := 0 |} in
  let rf := rf <| snapshot := ReadSnapshot (persister rf) |> in
  rf ← readPersist rf (ReadRaftState ps);
  Some (rf <| commitIndex := lastIncludedIndex rf |> <| lastApplied := lastIncludedIndex rf |>).

End Peer.

Arguments Replication : clear implicits.
Arguments SendNothing {Cmd}.
Arguments SendSnapshot {Cmd}.
Arguments SendEntries {Cmd}.
