(* ===== verification/RaftNode.v ===== *)
(** * One Raft peer: well-formedness, absence of panics, durability

    Local theory of src/raft1/raft.go: what the operations of Raft.v
    guarantee about a single peer, whatever messages arrive. *)

From S2P Require Import Prelude Persister Raft.

Section Node.
Context {Cmd : Type} `{GZ : Gob Z} `{GL : Gob (list (LogEntry Cmd))}.
Implicit Types (rf : Raft Cmd) (es lg : list (LogEntry Cmd)).

(** ** Definitions of the local specification *)

(** What a restart must bring back. *)
Definition persistent rf : Z * Z * list (LogEntry Cmd) * Z * Z * bytes :=
  (currentTerm rf, votedFor rf, log rf, lastIncludedIndex rf, lastIncludedTerm rf, snapshot rf).

(** Stable storage holds the current persistent state; before the first
    [persist] it is empty and the state is the initial one. *)
Definition durable rf : Prop :=
  persister rf = MkPersister (raft_state_bytes rf) (snapshot rf) \/
  raftstate (persister rf) = [] /\ persistent rf = (0, -1, [MkLogEntry 0 None], 0, 0, ps_snapshot (persister rf)).

(** Shape invariant of a peer: the log starts with the boundary entry of the
    snapshot, the per-peer slices have one place per peer, and a leader's
    nextIndex is at least 1. *)
Record raft_wf rf : Prop := {
  wf_boundary : exists e, log rf !! 0%nat = Some e /\ Term e = lastIncludedTerm rf;
  wf_lii : 0 <= lastIncludedIndex rf;
  wf_commit : lastIncludedIndex rf <= commitIndex rf;
  wf_me : (me rf < npeers rf)%nat;
  wf_next : length (nextIndex rf) = npeers rf;
  wf_match : length (matchIndex rf) = npeers rf;
  wf_triggers : length (triggers rf) = npeers rf;
  wf_next_pos : state rf = Leader -> Forall (fun n => 1 <= n) (nextIndex rf);
  wf_pending : if pendingSnapshot rf
               then pendingSnapshotIndex rf = lastIncludedIndex rf /\ lastApplied rf < lastIncludedIndex rf
               else lastIncludedIndex rf <= lastApplied rf;
  wf_durable : durable rf;
}.

(** The commands a peer may apply are in its log. *)
Definition apply_ok rf : Prop := lastApplied rf <= commitIndex rf <= lastLogIndex rf.

(** Reference definition of the log update of AppendEntries: keep the old
    suffix as long as the terms agree, replace it from the first conflict. *)
Fixpoint merge_entries (old es : list (LogEntry Cmd)) : list (LogEntry Cmd) :=
  match es, old with
  | [], _ => old
  | _, [] => es
  | e :: es', o :: old' => if Term o =? Term e then o :: merge_entries old' es' else es
  end.

(** ** Log access *)

Lemma entryAt_Some rf i e :
  entryAt rf i = Some e <->
  lastIncludedIndex rf <= i /\ log rf !! Z.to_nat (i - lastIncludedIndex rf) = Some e.
Proof. unfold entryAt. rewrite get_Some. intuition lia. Qed.

Lemma entryAt_range rf i :
  is_Some (entryAt rf i) <-> lastIncludedIndex rf <= i <= lastLogIndex rf.
Proof. unfold entryAt, lastLogIndex. rewrite get_is_Some. lia. Qed.

Lemma entryAt_in_range rf i :
  lastIncludedIndex rf <= i <= lastLogIndex rf -> exists e, entryAt rf i = Some e.
Proof. intros. by apply entryAt_range. Qed.

Lemma log_nonempty rf : raft_wf rf -> (0 < length (log rf))%nat.
Proof. intros Hwf. destruct (wf_boundary _ Hwf) as (e & He & _). by apply lookup_lt_Some in He. Qed.

Lemma lastLogIndex_ge rf : raft_wf rf -> lastIncludedIndex rf <= lastLogIndex rf.
Proof. intros Hwf%log_nonempty. unfold lastLogIndex. lia. Qed.

Lemma entryAt_boundary rf :
  raft_wf rf -> exists e, entryAt rf (lastIncludedIndex rf) = Some e /\ Term e = lastIncludedTerm rf.
Proof.
  intros Hwf. destruct (wf_boundary _ Hwf) as (e & He & Ht). exists e. split; [|done].
  apply entryAt_Some. by rewrite Z.sub_diag.
Qed.

Lemma set_log_id rf : rf <| log := log rf |> = rf.
Proof. by destruct rf. Qed.

(** ** Durability *)

Lemma persist_durable rf : durable (persist rf).
Proof. by left. Qed.

Lemma durable_ext rf rf' :
  persister rf' = persister rf -> persistent rf' = persistent rf -> durable rf -> durable rf'.
Proof.
  unfold durable, raft_state_bytes, persistent. intros Hp Heq. rewrite Hp.
  injection Heq as -> -> -> -> -> ->. done.
Qed.

Lemma readPersist_bytes rf0 rf :
  readPersist rf0 (raft_state_bytes rf) =
    Some (rf0 <| currentTerm := currentTerm rf |> <| votedFor := votedFor rf |> <| log := log rf |>
              <| lastIncludedIndex := lastIncludedIndex rf |> <| lastIncludedTerm := lastIncludedTerm rf |>).
Proof.
  unfold readPersist.
  assert ((len (raft_state_bytes rf) <? 1) = false) as ->.
  { apply Z.ltb_ge. unfold raft_state_bytes. rewrite length_app.
    pose proof (gob_enc_nonempty (currentTerm rf)).
    destruct (gob_enc (currentTerm rf)); [done|simpl; lia]. }
  unfold raft_state_bytes. rewrite gob_dec_enc. simpl. rewrite gob_dec_enc. simpl.
  rewrite gob_dec_enc. simpl. rewrite gob_dec_enc. simpl. rewrite gob_dec_enc_nil. done.
Qed.

(** A restart from the storage of a durable peer succeeds and gives the same
    persistent state. *)
Lemma Make_recovers rf now :
  durable rf -> raft_wf rf ->
  exists rf', Make (npeers rf) (me rf) (persister rf) now = Some rf' /\
    persistent rf' = persistent rf /\ state rf' = Follower /\
    commitIndex rf' = lastIncludedIndex rf /\ lastApplied rf' = lastIncludedIndex rf /\ raft_wf rf'.
Proof.
  intros Hd Hwf. unfold Make, ReadRaftState, clone.
  destruct Hd as [Hp|[Hp Hinit]].
  - rewrite Hp. simpl raftstate. rewrite readPersist_bytes. simpl.
    eexists. split; [done|]. unfold persistent. simpl.
    split_and!; try done.
    destruct Hwf. constructor; simpl; rewrite ?length_replicate; auto; try done; try lia.
    left. done.
  - rewrite Hp. unfold readPersist. simpl. eexists. split; [done|].
    unfold persistent in *. simpl. injection Hinit as Ht Hv Hl Hi Htm Hs.
    rewrite Ht, Hv, Hl, Hi, Htm, Hs. split_and!; try done.
    destruct Hwf. constructor; simpl; rewrite ?length_replicate; auto; try done; try lia; eauto.
    right. split; [exact Hp|reflexivity].
Qed.

(** ** Preservation of well-formedness, handler by handler *)

(** A change of volatile fields that no clause but the obvious ones reads. *)
Local Ltac solve_wf :=
  match goal with
  | Hwf : raft_wf ?rf |- raft_wf _ =>
      destruct Hwf; constructor; simpl; auto; try lia; try done;
      try (by eapply durable_ext; [..|eassumption])
  end.

Lemma toFollower_wf rf t : raft_wf rf -> raft_wf (toFollower rf t).
Proof. intros Hwf. solve_wf. apply persist_durable. Qed.

Lemma follower_wf rf : raft_wf rf -> raft_wf (rf <| state := Follower |>).
Proof. intros Hwf. solve_wf. Qed.

Lemma timer_wf rf now : raft_wf rf -> raft_wf (rf <| lastElectionReset := now |>).
Proof. intros Hwf. solve_wf. Qed.

Lemma signal_wf rf peer : raft_wf rf -> raft_wf (signal rf peer).
Proof. intros Hwf. solve_wf. by rewrite length_insert. Qed.

Lemma signalAll_wf rf : raft_wf rf -> raft_wf (signalAll rf).
Proof. intros Hwf. solve_wf. by rewrite length_imap. Qed.

Lemma RequestVote_wf rf args now :
  raft_wf rf -> exists r, RequestVote rf args now = Some r /\ raft_wf (fst r).
Proof.
  intros Hwf. unfold RequestVote.
  set (rf1 := if _ >? _ then _ else _).
  assert (raft_wf rf1) as Hwf1 by (unfold rf1; case_match; auto using toFollower_wf).
  clearbody rf1. clear Hwf rf. case_match; [eauto|].
  destruct (entryAt_in_range rf1 (lastLogIndex rf1)) as [e ->];
    [pose proof (lastLogIndex_ge _ Hwf1); lia|]. simpl.
  case_match; [eauto|]. case_match; [|eauto].
  eexists. split; [done|]. simpl. apply timer_wf. solve_wf. apply persist_durable.
Qed.

Lemma startElection_wf rf now : raft_wf rf -> raft_wf (fst (startElection rf now)).
Proof. intros Hwf. solve_wf. apply persist_durable. Qed.

Lemma voteRequest_total rf term : raft_wf rf -> is_Some (voteRequest rf term).
Proof.
  intros Hwf. unfold voteRequest. case_match; [eauto|].
  destruct (entryAt_in_range rf (lastLogIndex rf)) as [e ->];
    [pose proof (lastLogIndex_ge _ Hwf); lia|]. simpl. eauto.
Qed.

Lemma becomeLeader_wf rf term now :
  raft_wf rf -> exists rf', becomeLeader rf term now = Some rf' /\ raft_wf rf'.
Proof.
  intros Hwf. unfold becomeLeader. case_match; [eauto|].
  rewrite put_in_range by (rewrite length_replicate; pose proof (wf_me _ Hwf); lia). simpl.
  eexists. split; [done|]. apply signalAll_wf.
  pose proof (lastLogIndex_ge _ Hwf). pose proof (wf_lii _ Hwf).
  solve_wf; rewrite ?length_insert, ?length_replicate; auto.
  intros _. apply Forall_replicate. lia.
Qed.

Lemma voteReply_wf rf term votes reply now :
  raft_wf rf -> exists r, voteReply rf term votes reply now = Some r /\ raft_wf (fst r).
Proof.
  intros Hwf. unfold voteReply. case_match; [eauto using toFollower_wf|].
  case_match; [eauto|]. case_match; [|eauto]. case_match; [|eauto].
  destruct (becomeLeader_wf rf term now Hwf) as (rf' & -> & ?). simpl. eauto.
Qed.

(** *** AppendEntries *)

(** The loop that finds the first index of the conflicting term: everything
    from the result up to the conflict has that term, and the entry before
    the result, if the log has one, does not. *)
Lemma conflictStart_spec rf xterm i fuel :
  lastIncludedIndex rf <= i <= lastLogIndex rf ->
  Z.of_nat fuel = i - lastIncludedIndex rf ->
  (exists e, entryAt rf i = Some e /\ Term e = xterm) ->
  exists x, conflictStart rf xterm i fuel = Some x /\
    lastIncludedIndex rf <= x <= i /\
    (forall j, x <= j <= i -> exists e, entryAt rf j = Some e /\ Term e = xterm) /\
    (x = lastIncludedIndex rf \/ exists e, entryAt rf (x - 1) = Some e /\ Term e <> xterm).
Proof.
  revert i. induction fuel as [|fuel IH]; intros i Hi Hf He; simpl.
  - exists i. split_and!; auto; try lia. intros j Hj. by replace j with i by lia.
  - destruct (i >? lastIncludedIndex rf) eqn:Hgt; zbool; [|lia].
    destruct (entryAt_in_range rf (i - 1)) as [e1 He1]; [lia|]. rewrite He1. simpl.
    destruct (Z.eqb_spec (Term e1) xterm) as [Ht|Ht].
    + destruct (IH (i - 1)) as (x & -> & Hx & Hall & Hb); [lia|lia|eauto|].
      exists x. split_and!; auto; try lia. intros j Hj.
      destruct (decide (j = i)) as [->|]; [done|]. apply Hall. lia.
    + exists i. split_and!; auto; try lia; [|eauto]. intros j Hj. by replace j with i by lia.
Qed.

Lemma merge_entries_nil_old es : merge_entries [] es = es.
Proof. by destruct es. Qed.

(** Appending entry by entry past the end of the log. *)
Lemma appendLoop_past rf pos es :
  lastLogIndex rf < pos -> pos = lastLogIndex rf + 1 ->
  appendLoop rf pos es = Some (rf <| log := log rf ++ es |>).
Proof.
  revert rf pos. induction es as [|e es IH]; intros rf pos Hlt Hpos; simpl.
  - by rewrite app_nil_r, set_log_id.
  - replace (pos >? lastLogIndex rf) with true by (symmetry; rewrite Z.gtb_ltb; by apply Z.ltb_lt).
    unfold lastLogIndex in *. rewrite IH; unfold lastLogIndex; simpl; rewrite ?length_app; simpl; [|lia..].
    by rewrite <-app_assoc.
Qed.

(** The loop of case 3 computes the reference merge. *)
Lemma appendLoop_merge rf pos es :
  lastIncludedIndex rf < pos <= lastLogIndex rf + 1 ->
  appendLoop rf pos es =
    Some (rf <| log := take (Z.to_nat (pos - lastIncludedIndex rf)) (log rf) ++
                       merge_entries (drop (Z.to_nat (pos - lastIncludedIndex rf)) (log rf)) es |>).
Proof.
  revert pos. induction es as [|e es IH]; intros pos Hpos; simpl appendLoop.
  - rewrite <-(set_log_id rf) at 1. do 2 f_equal.
    by destruct (drop _ _) eqn:Hd; simpl; rewrite <-Hd, take_drop.
  - destruct (pos >? lastLogIndex rf) eqn:Hgt; zbool.
    + assert (Z.to_nat (pos - lastIncludedIndex rf) = length (log rf)) as Hk
        by (unfold lastLogIndex in *; lia).
      rewrite Hk, take_ge, drop_ge, merge_entries_nil_old by lia.
      pose proof (appendLoop_past rf pos (e :: es)) as Hp. simpl in Hp.
      rewrite <-Hp by lia. by rewrite (proj2 (Z.gtb_lt _ _)) by lia.
    + destruct (entryAt_in_range rf pos) as [old Hold]; [lia|]. rewrite Hold. simpl.
      apply entryAt_Some in Hold as [_ Hold]. rewrite (drop_S _ _ _ Hold). simpl.
      destruct (Z.eqb_spec (Term old) (Term e)) as [Ht|Ht]; simpl; [|done].
      rewrite IH by lia. do 2 f_equal.
      replace (Z.to_nat (pos + 1 - lastIncludedIndex rf))
        with (S (Z.to_nat (pos - lastIncludedIndex rf))) by lia.
      rewrite (take_S_r _ _ _ Hold), <-app_assoc. done.
Qed.

Lemma merge_entries_length old es : (length es <= length (merge_entries old es))%nat.
Proof.
  revert old. induction es as [|e es IH]; intros [|o old]; simpl; try lia.
  case_match; simpl; [|lia]. specialize (IH old). lia.
Qed.

(** Replacing the suffix of the log after the boundary keeps the peer
    well-formed, once it is saved. *)
Lemma suffix_persist_wf rf k l :
  raft_wf rf -> (0 < k)%nat -> raft_wf (persist (rf <| log := take k (log rf) ++ l |>)).
Proof.
  intros Hwf Hk. pose proof (log_nonempty _ Hwf). destruct Hwf as [(e & He & Ht)].
  constructor; simpl; auto; try (by left).
  exists e. split; [|done]. rewrite lookup_app_l by (rewrite length_take; lia).
  by rewrite lookup_take_lt.
Qed.

Lemma commit_wf rf c :
  raft_wf rf -> lastIncludedIndex rf <= c -> raft_wf (rf <| commitIndex := c |>).
Proof. intros Hwf Hc. solve_wf. Qed.

(** The common prologue of AppendEntries and InstallSnapshot. *)
Definition stepDown rf (t now : Z) : Raft Cmd :=
  resetElectionTimer (if t >? currentTerm rf then toFollower rf t else rf <| state := Follower |>) now.

Lemma stepDown_wf rf t now : raft_wf rf -> raft_wf (stepDown rf t now).
Proof. intros. unfold stepDown, resetElectionTimer. apply timer_wf. case_match; auto using toFollower_wf, follower_wf. Qed.

Lemma AppendEntries_eq rf args now :
  AppendEntries rf args now =
  if ae_Term args <? currentTerm rf then
    Some (rf, MkAppendEntriesReply (currentTerm rf) false 0 0 0)
  else
    let rf := stepDown rf (ae_Term args) now in
    let term := currentTerm rf in
    let prev := ae_PrevLogIndex args in
    if prev <? lastIncludedIndex rf then
      Some (rf, MkAppendEntriesReply term false (-1) 0 (lastIncludedIndex rf + 1))
    else if prev >? lastLogIndex rf then
      Some (rf, MkAppendEntriesReply term false (-1) 0 (lastLogIndex rf + 1))
    else
      e ← entryAt rf prev;
      if negb (Term e =? ae_PrevLogTerm args) then
        x ← conflictStart rf (Term e) prev (Z.to_nat (prev - lastIncludedIndex rf));
        Some (rf, MkAppendEntriesReply term false (Term e) x (lastLogIndex rf + 1))
      else
        rf ← appendLoop rf (prev + 1) (ae_Entries args);
        let rf := if len (ae_Entries args) >? 0 then persist rf else rf in
        let rf :=
          if ae_LeaderCommit args >? commitIndex rf then
            rf <| commitIndex := if ae_LeaderCommit args <? lastLogIndex rf
                                 then ae_LeaderCommit args else lastLogIndex rf |>
          else rf in
        Some (rf, MkAppendEntriesReply term true 0 0 0).
Proof. reflexivity. Qed.

(** The result of AppendEntries when the previous entry matches. *)
Definition accepted rf (args : AppendEntriesArgs Cmd) : Raft Cmd :=
  let k := Z.to_nat (ae_PrevLogIndex args + 1 - lastIncludedIndex rf) in
  let rf := rf <| log := take k (log rf) ++ merge_entries (drop k (log rf)) (ae_Entries args) |> in
  let rf := if len (ae_Entries args) >? 0 then persist rf else rf in
  if ae_LeaderCommit args >? commitIndex rf then
    rf <| commitIndex := Z.min (ae_LeaderCommit args) (lastLogIndex rf) |>
  else rf.

(** The four outcomes of AppendEntries. *)
Inductive append_case rf (args : AppendEntriesArgs Cmd) (now : Z) : Raft Cmd -> AppendEntriesReply -> Prop :=
| ac_stale :
    ae_Term args < currentTerm rf ->
    append_case rf args now rf (MkAppendEntriesReply (currentTerm rf) false 0 0 0)
| ac_compacted (rf1 := stepDown rf (ae_Term args) now) :
    currentTerm rf <= ae_Term args -> ae_PrevLogIndex args < lastIncludedIndex rf1 ->
    append_case rf args now rf1
      (MkAppendEntriesReply (currentTerm rf1) false (-1) 0 (lastIncludedIndex rf1 + 1))
| ac_short (rf1 := stepDown rf (ae_Term args) now) :
    currentTerm rf <= ae_Term args -> lastLogIndex rf1 < ae_PrevLogIndex args ->
    append_case rf args now rf1
      (MkAppendEntriesReply (currentTerm rf1) false (-1) 0 (lastLogIndex rf1 + 1))
| ac_conflict (rf1 := stepDown rf (ae_Term args) now) e x :
    currentTerm rf <= ae_Term args ->
    lastIncludedIndex rf1 <= ae_PrevLogIndex args <= lastLogIndex rf1 ->
    entryAt rf1 (ae_PrevLogIndex args) = Some e -> Term e <> ae_PrevLogTerm args ->
    lastIncludedIndex rf1 <= x <= ae_PrevLogIndex args ->
    (forall j, x <= j <= ae_PrevLogIndex args -> exists e', entryAt rf1 j = Some e' /\ Term e' = Term e) ->
    (x = lastIncludedIndex rf1 \/ exists e', entryAt rf1 (x - 1) = Some e' /\ Term e' <> Term e) ->
    append_case rf args now rf1
      (MkAppendEntriesReply (currentTerm rf1) false (Term e) x (lastLogIndex rf1 + 1))
| ac_accept (rf1 := stepDown rf (ae_Term args) now) e :
    currentTerm rf <= ae_Term args ->
    lastIncludedIndex rf1 <= ae_PrevLogIndex args <= lastLogIndex rf1 ->
    entryAt rf1 (ae_PrevLogIndex args) = Some e -> Term e = ae_PrevLogTerm args ->
    append_case rf args now (accepted rf1 args) (MkAppendEntriesReply (currentTerm rf1) true 0 0 0).

(** AppendEntries never panics on a well-formed peer, and every run is one of
    the four outcomes. *)
Lemma AppendEntries_cases rf args now :
  raft_wf rf -> exists rf' reply, AppendEntries rf args now = Some (rf', reply) /\
    append_case rf args now rf' reply.
Proof.
  intros Hwf. rewrite AppendEntries_eq. destruct (Z.ltb_spec (ae_Term args) (currentTerm rf)).
  { do 2 eexists. split; [done|]. by constructor. }
  pose proof (stepDown_wf rf (ae_Term args) now Hwf) as Hwf1.
  cbv zeta. set (rf1 := stepDown rf (ae_Term args) now) in *.
  destruct (Z.ltb_spec (ae_PrevLogIndex args) (lastIncludedIndex rf1)).
  { do 2 eexists. split; [done|]. by apply ac_compacted. }
  rewrite Z.gtb_ltb. destruct (Z.ltb_spec (lastLogIndex rf1) (ae_PrevLogIndex args)).
  { do 2 eexists. split; [done|]. by apply ac_short. }
  destruct (entryAt_in_range rf1 (ae_PrevLogIndex args)) as [e He]; [lia|]. rewrite He. obind.
  destruct (Z.eqb_spec (Term e) (ae_PrevLogTerm args)) as [Ht|Ht]; obind.
  - rewrite appendLoop_merge by lia. obind. do 2 eexists. split; [done|].
    eapply (ac_accept rf args now e) in He as Hc; [|done..].
    match goal with |- append_case _ _ _ ?x _ => replace x with (accepted rf1 args); [exact Hc|] end.
    unfold accepted. cbv zeta.
    set (rf2 := if _ >? 0 then _ else _). destruct (_ >? commitIndex rf2); [|done].
    f_equal. destruct (Z.ltb_spec (ae_LeaderCommit args) (lastLogIndex rf2)); lia.
  - destruct (conflictStart_spec rf1 (Term e) (ae_PrevLogIndex args)
               (Z.to_nat (ae_PrevLogIndex args - lastIncludedIndex rf1)))
      as (x & -> & Hx & Hall & Hb); [lia|lia|eauto|].
    obind. do 2 eexists. split; [done|]. by apply (ac_conflict rf args now e x).
Qed.

Lemma accepted_wf rf args :
  raft_wf rf -> lastIncludedIndex rf <= ae_PrevLogIndex args <= lastLogIndex rf ->
  raft_wf (accepted rf args).
Proof.
  intros Hwf Hprev. unfold accepted. cbv zeta.
  set (rf2 := if _ >? 0 then _ else _).
  assert (raft_wf rf2) as Hwf2.
  { unfold rf2. case_match; zbool; [by apply suffix_persist_wf; [|lia]|].
    destruct (ae_Entries args); [|simpl in *; lia].
    replace (merge_entries _ []) with (drop (Z.to_nat (ae_PrevLogIndex args + 1 - lastIncludedIndex rf)) (log rf))
      by (by destruct (drop _ _)).
    by rewrite take_drop, set_log_id. }
  case_match; zbool; [|done]. apply commit_wf; [done|].
  pose proof (lastLogIndex_ge _ Hwf2). pose proof (wf_commit _ Hwf2). lia.
Qed.

Lemma append_case_wf rf args now rf' reply :
  raft_wf rf -> append_case rf args now rf' reply -> raft_wf rf'.
Proof.
  intros Hwf Hc. pose proof (stepDown_wf rf (ae_Term args) now Hwf).
  destruct Hc; auto. by apply accepted_wf.
Qed.

Lemma AppendEntries_wf rf args now :
  raft_wf rf -> exists r, AppendEntries rf args now = Some r /\ raft_wf (fst r).
Proof.
  intros Hwf. destruct (AppendEntries_cases rf args now Hwf) as (rf' & reply & -> & Hc).
  eauto using append_case_wf.
Qed.

(** *** InstallSnapshot *)

Lemma compactLog_eq lg (off : nat) e :
  lg !! off = Some e ->
  compactLog lg (Z.of_nat off) = Some (MkLogEntry (Term e) None :: drop (S off) lg).
Proof.
  intros He. unfold compactLog.
  rewrite from_in_range by (apply lookup_lt_Some in He; lia).
  rewrite Nat2Z.id, (drop_S _ _ _ He). done.
Qed.

Lemma compactLog_entry rf i e :
  entryAt rf i = Some e ->
  compactLog (log rf) (i - lastIncludedIndex rf) =
    Some (MkLogEntry (Term e) None :: drop (S (Z.to_nat (i - lastIncludedIndex rf))) (log rf)).
Proof.
  intros [Hi He]%entryAt_Some.
  rewrite <-(compactLog_eq _ _ _ He). by rewrite Z2Nat.id by lia.
Qed.

(** The state InstallSnapshot leaves when it takes the snapshot, with the
    log it chose. *)
Definition installed rf (args : InstallSnapshotArgs) (newLog : list (LogEntry Cmd)) : Raft Cmd :=
  let idx := is_LastIncludedIndex args in
  let rf := rf <| log := newLog |> <| lastIncludedIndex := idx |>
               <| lastIncludedTerm := is_LastIncludedTerm args |> <| snapshot := is_Data args |>
               <| commitIndex := Z.max (commitIndex rf) idx |> in
  let rf := persist rf in
  if idx >? lastApplied rf then
    rf <| pendingSnapshot := true |> <| pendingSnapshotData := is_Data args |>
       <| pendingSnapshotIndex := idx |> <| pendingSnapshotTerm := is_LastIncludedTerm args |>
  else rf.

Lemma installed_eq rf args newLog :
  (let idx := is_LastIncludedIndex args in
   let rf := rf <| log := newLog |> <| lastIncludedIndex := idx |>
                <| lastIncludedTerm := is_LastIncludedTerm args |> <| snapshot := is_Data args |> in
   let rf := persist (if commitIndex rf <? idx then rf <| commitIndex := idx |> else rf) in
   if idx >? lastApplied rf then
     rf <| pendingSnapshot := true |> <| pendingSnapshotData := is_Data args |>
        <| pendingSnapshotIndex := idx |> <| pendingSnapshotTerm := is_LastIncludedTerm args |>
   else rf) = installed rf args newLog.
Proof.
  cbv zeta. unfold installed. cbn [commitIndex set_field set_log set_lastIncludedIndex
    set_lastIncludedTerm set_snapshot].
  destruct (Z.ltb_spec (commitIndex rf) (is_LastIncludedIndex args)).
  - by rewrite Z.max_r by lia.
  - rewrite Z.max_l by lia. by destruct rf.
Qed.

Inductive install_case rf (args : InstallSnapshotArgs) (now : Z) : Raft Cmd -> InstallSnapshotReply -> Prop :=
| ic_stale :
    is_Term args < currentTerm rf ->
    install_case rf args now rf (MkInstallSnapshotReply (currentTerm rf))
| ic_old (rf1 := stepDown rf (is_Term args) now) :
    currentTerm rf <= is_Term args -> is_LastIncludedIndex args <= lastIncludedIndex rf1 ->
    install_case rf args now rf1 (MkInstallSnapshotReply (currentTerm rf1))
| ic_keep (rf1 := stepDown rf (is_Term args) now) e :
    currentTerm rf <= is_Term args -> lastIncludedIndex rf1 < is_LastIncludedIndex args ->
    entryAt rf1 (is_LastIncludedIndex args) = Some e -> Term e = is_LastIncludedTerm args ->
    install_case rf args now
      (installed rf1 args (MkLogEntry (Term e) None ::
         drop (S (Z.to_nat (is_LastIncludedIndex args - lastIncludedIndex rf1))) (log rf1)))
      (MkInstallSnapshotReply (currentTerm rf1))
| ic_replace (rf1 := stepDown rf (is_Term args) now) :
    currentTerm rf <= is_Term args -> lastIncludedIndex rf1 < is_LastIncludedIndex args ->
    (forall e, entryAt rf1 (is_LastIncludedIndex args) = Some e -> Term e <> is_LastIncludedTerm args) ->
    install_case rf args now (installed rf1 args [MkLogEntry (is_LastIncludedTerm args) None])
      (MkInstallSnapshotReply (currentTerm rf1)).

Lemma InstallSnapshot_cases rf args now :
  raft_wf rf -> exists rf' reply, InstallSnapshot rf args now = Some (rf', reply) /\
    install_case rf args now rf' reply.
Proof.
  intros Hwf. unfold InstallSnapshot. destruct (Z.ltb_spec (is_Term args) (currentTerm rf)).
  { do 2 eexists. split; [done|]. by constructor. }
  pose proof (stepDown_wf rf (is_Term args) now Hwf) as Hwf1.
  change (resetElectionTimer _ now) with (stepDown rf (is_Term args) now). cbv zeta.
  set (rf1 := stepDown rf (is_Term args) now) in *.
  set (idx := is_LastIncludedIndex args) in *.
  destruct (Z.leb_spec idx (lastIncludedIndex rf1)).
  { do 2 eexists. split; [done|]. by apply ic_old. }
  destruct (Z.leb_spec idx (lastLogIndex rf1)) as [Hle|Hlt].
  - destruct (entryAt_in_range rf1 idx) as [e He]; [lia|]. rewrite He. obind.
    destruct (Z.eqb_spec (Term e) (is_LastIncludedTerm args)) as [Ht|Ht].
    + rewrite (compactLog_entry _ _ _ He). obind. eexists (installed rf1 args _), _. split; [by rewrite <-installed_eq|].
      by apply (ic_keep rf args now e).
    + obind. eexists (installed rf1 args _), _. split; [by rewrite <-installed_eq|]. apply ic_replace; auto.
      intros e' He'. fold idx rf1 in He'. congruence.
  - obind. eexists (installed rf1 args _), _. split; [by rewrite <-installed_eq|]. apply ic_replace; auto.
    intros e' He'. fold idx rf1 in He'. assert (is_Some (entryAt rf1 idx)) as Hs by eauto.
    apply entryAt_range in Hs. lia.
Qed.

Lemma installed_wf rf args e rest :
  raft_wf rf -> lastIncludedIndex rf < is_LastIncludedIndex args ->
  Term e = is_LastIncludedTerm args -> raft_wf (installed rf args (e :: rest)).
Proof.
  intros Hwf Hidx Ht. unfold installed. cbv zeta. simpl.
  pose proof (wf_lii _ Hwf). pose proof (wf_commit _ Hwf). pose proof (wf_pending _ Hwf) as Hp.
  destruct (is_LastIncludedIndex args >? lastApplied rf) eqn:Hgt; zbool.
  - destruct Hwf. constructor; simpl; eauto; try lia. by left.
  - destruct Hwf. constructor; simpl; eauto; try lia; [|by left].
    destruct (pendingSnapshot rf); lia.
Qed.

Lemma install_case_wf rf args now rf' reply :
  raft_wf rf -> install_case rf args now rf' reply -> raft_wf rf'.
Proof.
  intros Hwf Hc. pose proof (stepDown_wf rf (is_Term args) now Hwf).
  destruct Hc; auto using installed_wf.
Qed.

Lemma InstallSnapshot_wf rf args now :
  raft_wf rf -> exists r, InstallSnapshot rf args now = Some r /\ raft_wf (fst r).
Proof.
  intros Hwf. destruct (InstallSnapshot_cases rf args now Hwf) as (rf' & reply & -> & Hc).
  eauto using install_case_wf.
Qed.

(** *** Snapshot, the applier and Start *)

Lemma Snapshot_cases rf index snap :
  raft_wf rf -> apply_ok rf ->
  (Snapshot rf index snap = Some rf /\ (index <= lastIncludedIndex rf \/ lastApplied rf < index)) \/
  exists e, entryAt rf index = Some e /\ lastIncludedIndex rf < index <= lastApplied rf /\
    Snapshot rf index snap = Some (persist (rf
      <| log := MkLogEntry (Term e) None :: drop (S (Z.to_nat (index - lastIncludedIndex rf))) (log rf) |>
      <| lastIncludedIndex := index |> <| lastIncludedTerm := Term e |> <| snapshot := snap |>)).
Proof.
  intros Hwf [Ha Hc]. unfold Snapshot.
  destruct (Z.leb_spec index (lastIncludedIndex rf)); [auto|]. rewrite Z.gtb_ltb.
  destruct (Z.ltb_spec (lastApplied rf) index); simpl orb; [auto|].
  right. destruct (entryAt_in_range rf index) as [e He]; [lia|].
  exists e. split_and!; auto; try lia. rewrite He. obind.
  by rewrite (compactLog_entry _ _ _ He).
Qed.

Lemma Snapshot_wf rf index snap :
  raft_wf rf -> apply_ok rf -> exists rf', Snapshot rf index snap = Some rf' /\ raft_wf rf' /\ apply_ok rf'.
Proof.
  intros Hwf Hok. destruct (Snapshot_cases rf index snap Hwf Hok) as [[-> _]|(e & He & Hi & ->)]; [eauto|].
  eexists. split; [done|]. destruct Hok. apply entryAt_Some in He as [_ He].
  apply lookup_lt_Some in He. split.
  - pose proof (wf_pending _ Hwf). destruct Hwf. constructor; simpl; eauto; try lia; [|by left].
    destruct (pendingSnapshot rf); lia.
  - unfold apply_ok, lastLogIndex in *. simpl. rewrite length_drop. lia.
Qed.

Lemma applier_wf rf :
  raft_wf rf -> apply_ok rf -> exists r, applier rf = Some r /\
    match r with None => True | Some (rf', _) => raft_wf rf' /\ apply_ok rf' end.
Proof.
  intros Hwf [Ha Hc]. unfold applier. cbv zeta. pose proof (wf_pending _ Hwf) as Hp.
  pose proof (wf_commit _ Hwf). rewrite Z.geb_leb.
  destruct (pendingSnapshot rf) eqn:Hps; cbn [negb andb].
  - eexists. split; [done|]. split.
    + solve_wf.
    + unfold apply_ok, lastLogIndex in *. simpl. lia.
  - destruct (Z.leb_spec (commitIndex rf) (lastApplied rf)); [by exists None|].
    destruct (entryAt_in_range rf (lastApplied rf + 1)) as [e ->]; [lia|]. obind.
    eexists. split; [done|]. split.
    + solve_wf. rewrite Hps. lia.
    + unfold apply_ok, lastLogIndex in *. simpl. lia.
Qed.

Lemma Start_wf rf c :
  raft_wf rf -> exists r, Start rf c = Some r /\ raft_wf (fst r).
Proof.
  intros Hwf. unfold Start. case_match; [eauto|].
  pose proof (wf_me _ Hwf). pose proof (lastLogIndex_ge _ Hwf). pose proof (wf_lii _ Hwf).
  pose proof (wf_next _ Hwf). pose proof (wf_match _ Hwf).
  cbv zeta. rewrite put_in_range by (simpl; lia). obind.
  rewrite put_in_range by (simpl; lia). obind.
  eexists. split; [done|]. obind. apply signalAll_wf.
  destruct Hwf as [(e & He & Ht)]. constructor; simpl; rewrite ?length_insert; auto; [| |by left].
  - exists e. split; [|done]. apply lookup_app_l_Some. done.
  - intros Hl. apply Forall_insert; [auto|]. unfold lastLogIndex. simpl. rewrite length_app. simpl.
    unfold lastLogIndex in *. lia.
Qed.

(** *** The leader's side of replication *)

Lemma next_lookup rf (peer : nat) :
  raft_wf rf -> (peer < npeers rf)%nat -> state rf = Leader ->
  exists n, nextIndex rf !! peer = Some n /\ 1 <= n.
Proof.
  intros Hwf Hp Hl. destruct (lookup_lt_is_Some_2 (nextIndex rf) peer) as [n Hn].
  { by rewrite (wf_next _ Hwf). }
  exists n. split; [done|]. pose proof (wf_next_pos _ Hwf Hl) as Hall.
  rewrite Forall_lookup in Hall. eauto.
Qed.

Lemma match_lookup rf (peer : nat) :
  raft_wf rf -> (peer < npeers rf)%nat -> exists m, matchIndex rf !! peer = Some m.
Proof.
  intros Hwf Hp. apply lookup_lt_is_Some_2. by rewrite (wf_match _ Hwf).
Qed.

(** What a leader sends: nothing, its snapshot, or the whole suffix of its
    log after the previous index, with that entry's term. *)
Lemma replicateOnce_cases rf (peer : nat) :
  raft_wf rf -> (peer < npeers rf)%nat ->
  exists r, replicateOnce rf peer = Some r /\
    match r with
    | SendNothing => True
    | SendSnapshot a =>
        state rf = Leader /\
        a = MkInstallSnapshotArgs (currentTerm rf) (Z.of_nat (me rf)) (lastIncludedIndex rf)
              (lastIncludedTerm rf) (snapshot rf)
    | SendEntries a =>
        state rf = Leader /\ exists e,
        lastIncludedIndex rf <= ae_PrevLogIndex a <= lastLogIndex rf /\
        entryAt rf (ae_PrevLogIndex a) = Some e /\
        a = MkAppendEntriesArgs (currentTerm rf) (Z.of_nat (me rf)) (ae_PrevLogIndex a) (Term e)
              (drop (Z.to_nat (ae_PrevLogIndex a + 1 - lastIncludedIndex rf)) (log rf)) (commitIndex rf)
    end.
Proof.
  intros Hwf Hp. unfold replicateOnce, State_eqb. case_bool_decide as Hl; cbn [negb]; [|by exists SendNothing].
  destruct (next_lookup rf peer Hwf Hp Hl) as (n & -> & Hn). obind. cbv zeta.
  destruct (Z.leb_spec n (lastIncludedIndex rf)); [by eexists|].
  rewrite Z.gtb_ltb. destruct (Z.ltb_spec (lastLogIndex rf) (n - 1)); [by exists SendNothing|].
  destruct (entryAt_in_range rf (n - 1)) as [e He]; [lia|].
  destruct (Z.ltb_spec (n - 1) (lastLogIndex rf)).
  - rewrite from_in_range by (unfold lastLogIndex in *; lia). obind. rewrite He. obind.
    eexists. split; [done|]. simpl. split; [done|]. exists e. split_and!; auto; lia.
  - obind. rewrite He. obind. eexists. split; [done|]. simpl. split; [done|]. exists e.
    split_and!; auto; try lia. rewrite drop_ge; [done|]. unfold lastLogIndex in *. lia.
Qed.

Lemma set_next_wf rf (peer : nat) n :
  raft_wf rf -> 1 <= n -> raft_wf (rf <| nextIndex := <[peer := n]> (nextIndex rf) |>).
Proof.
  intros Hwf Hn. solve_wf; [by rewrite length_insert|].
  intros Hl. apply Forall_insert; auto.
Qed.

Lemma set_match_wf rf (peer : nat) m :
  raft_wf rf -> raft_wf (rf <| matchIndex := <[peer := m]> (matchIndex rf) |>).
Proof. intros Hwf. solve_wf. by rewrite length_insert. Qed.

Lemma snapshotReply_wf rf (peer : nat) args ok reply :
  raft_wf rf -> (peer < npeers rf)%nat -> 0 <= is_LastIncludedIndex args ->
  exists rf', snapshotReply rf peer args ok reply = Some rf' /\ raft_wf rf'.
Proof.
  intros Hwf Hp Hidx. unfold snapshotReply. case_match; [eauto|]. case_match; [eauto using toFollower_wf|].
  assert (state rf = Leader) as Hl.
  { zbool. unfold State_eqb in *. by case_bool_decide. }
  destruct (match_lookup rf peer Hwf Hp) as [m ->]. obind. cbv zeta.
  set (rf1 := if m <? _ then _ else _).
  assert (raft_wf rf1 /\ npeers rf1 = npeers rf /\ state rf1 = state rf) as (Hwf1 & Hn1 & Hs1)
    by (unfold rf1; case_match; auto using set_match_wf).
  destruct (next_lookup rf1 peer Hwf1) as (n & -> & Hn); [lia|congruence|]. obind.
  eexists. split; [done|]. apply signal_wf. case_match; auto. apply set_next_wf; auto. lia.
Qed.

(** The loop that looks for the last entry of the follower's term. *)
Lemma lastOfTerm_spec rf xterm i fuel :
  lastIncludedIndex rf <= i <= lastLogIndex rf -> Z.of_nat fuel = i - lastIncludedIndex rf ->
  exists x e, lastOfTerm rf xterm i fuel = Some x /\ entryAt rf x = Some e /\
    lastIncludedIndex rf <= x <= i /\
    (x = lastIncludedIndex rf \/ Term e = xterm) /\
    (forall j e', x < j <= i -> entryAt rf j = Some e' -> Term e' <> xterm).
Proof.
  revert i. induction fuel as [|fuel IH]; intros i Hi Hf; simpl;
    destruct (entryAt_in_range rf i Hi) as [e He].
  - exists i, e. split_and!; auto; lia.
  - destruct (i >? lastIncludedIndex rf) eqn:Hgt; zbool; [|lia]. rewrite He. obind.
    destruct (Z.eqb_spec (Term e) xterm) as [Ht|Ht]; simpl.
    + exists i, e. split_and!; auto; lia.
    + destruct (IH (i - 1)) as (x & e' & -> & He' & Hx & Hb & Hall); [lia..|].
      exists x, e'. split_and!; auto; try lia.
      intros j e2 Hj. destruct (decide (j = i)) as [->|]; [congruence|]. apply Hall. lia.
Qed.

(** Backing up moves nextIndex down by at least one, but not below the
    smallest index that is still worth sending. *)
Lemma backupNextIndex_spec rf (peer : nat) reply cur :
  raft_wf rf -> nextIndex rf !! peer = Some cur ->
  exists next, backupNextIndex rf peer reply = Some (rf <| nextIndex := <[peer := next]> (nextIndex rf) |>) /\
    Z.max 1 (lastIncludedIndex rf) <= next /\
    (next < cur \/ next = Z.max 1 (lastIncludedIndex rf)).
Proof.
  intros Hwf Hcur. unfold backupNextIndex. pose proof (wf_lii _ Hwf).
  assert (exists n0, (if aer_XTerm reply =? -1 then Some (aer_XLen reply)
          else
            i ← lastOfTerm rf (aer_XTerm reply) (lastLogIndex rf)
                  (Z.to_nat (lastLogIndex rf - lastIncludedIndex rf));
            e ← entryAt rf i;
            Some (if Term e =? aer_XTerm reply then i + 1 else aer_XIndex reply)) = Some n0) as [n0 ->].
  { case_match; [eauto|]. pose proof (lastLogIndex_ge _ Hwf).
    destruct (lastOfTerm_spec rf (aer_XTerm reply) (lastLogIndex rf)
      (Z.to_nat (lastLogIndex rf - lastIncludedIndex rf))) as (x & e & -> & He & _); [lia..|].
    obind. rewrite He. obind. eauto. }
  obind. rewrite Hcur. obind. cbv zeta. eexists. split; [done|].
  rewrite Z.geb_leb. destruct (Z.leb_spec cur n0), (Z.ltb_spec (lastIncludedIndex rf) 1);
    match goal with |- context [?a <? ?b] => destruct (Z.ltb_spec a b) end; lia.
Qed.

Lemma merge_sort_lookup (l : list Z) (i : nat) :
  (i < length l)%nat -> exists N, merge_sort Z.le l !! i = Some N.
Proof. intros Hi. apply lookup_lt_is_Some_2. by rewrite merge_sort_Permutation. Qed.

Lemma advanceCommitIndex_cases rf :
  raft_wf rf ->
  advanceCommitIndex rf = Some rf \/
  exists N e, merge_sort Z.le (matchIndex rf) !! Nat.div (npeers rf) 2 = Some N /\
    state rf = Leader /\ commitIndex rf < N <= lastLogIndex rf /\
    entryAt rf N = Some e /\ Term e = currentTerm rf /\
    advanceCommitIndex rf = Some (rf <| commitIndex := N |>).
Proof.
  intros Hwf. unfold advanceCommitIndex, State_eqb. case_bool_decide as Hl; cbn [negb]; [|by left].
  pose proof (wf_me _ Hwf). pose proof (wf_match _ Hwf) as Hm. rewrite Hm.
  destruct (merge_sort_lookup (matchIndex rf) (Nat.div (npeers rf) 2)) as [N HN].
  { rewrite Hm. apply Nat.div_lt; lia. }
  cbv zeta. rewrite HN. obind. rewrite Z.gtb_ltb.
  destruct (Z.ltb_spec (commitIndex rf) N), (Z.leb_spec N (lastLogIndex rf)); cbn [andb]; auto.
  pose proof (wf_commit _ Hwf). destruct (entryAt_in_range rf N) as [e He]; [lia|].
  rewrite He. obind. destruct (Z.eqb_spec (Term e) (currentTerm rf)); [|by left].
  right. exists N, e. auto 10.
Qed.

Lemma advanceCommitIndex_wf rf :
  raft_wf rf -> exists rf', advanceCommitIndex rf = Some rf' /\ raft_wf rf'.
Proof.
  intros Hwf. destruct (advanceCommitIndex_cases rf Hwf) as [->|(N & e & _ & _ & HN & _ & _ & ->)]; [eauto|].
  eexists. split; [done|]. apply commit_wf; [done|]. pose proof (wf_commit _ Hwf). lia.
Qed.

Lemma appendReply_wf rf (peer : nat) args ok reply :
  raft_wf rf -> (peer < npeers rf)%nat -> 0 <= ae_PrevLogIndex args ->
  exists rf', appendReply rf peer args ok reply = Some rf' /\ raft_wf rf'.
Proof.
  intros Hwf Hp Hprev. unfold appendReply. case_match; [eauto|]. case_match; [eauto using toFollower_wf|].
  assert (state rf = Leader) as Hl.
  { zbool. unfold State_eqb in *. by case_bool_decide. }
  destruct (aer_Success reply).
  - destruct (match_lookup rf peer Hwf Hp) as [m ->]. obind. cbv zeta.
    set (rf1 := if _ >? m then _ else _).
    assert (raft_wf rf1 /\ npeers rf1 = npeers rf /\ state rf1 = state rf) as (Hwf1 & Hn1 & Hs1)
      by (unfold rf1; case_match; auto using set_match_wf).
    destruct (next_lookup rf1 peer Hwf1) as (n & -> & Hn); [lia|congruence|]. obind.
    apply advanceCommitIndex_wf. case_match; auto. apply set_next_wf; auto. lia.
  - destruct (next_lookup rf peer Hwf Hp Hl) as (n & Hn & Hn1). rewrite Hn. obind.
    case_match; [|eauto].
    destruct (backupNextIndex_spec rf peer reply n Hwf Hn) as (next & -> & Hmin & _). obind.
    eexists. split; [done|]. apply signal_wf, set_next_wf; auto. lia.
Qed.

Lemma Make_initial_wf (n i : nat) now :
  (i < n)%nat -> exists rf, Make n i MakePersister now = Some rf /\ raft_wf rf /\ apply_ok rf.
Proof.
  intros Hi. eexists. split; [reflexivity|]. split.
  - constructor; simpl; rewrite ?length_replicate; auto; try lia; try done; eauto. by right.
  - unfold apply_ok, lastLogIndex. simpl. lia.
Qed.


(** ** Properties of a single peer *)

Lemma merge_entries_agree old es (j : nat) e :
  es !! j = Some e -> exists e', merge_entries old es !! j = Some e' /\ Term e' = Term e.
Proof.
  revert old j. induction es as [|e0 es IH]; intros [|o old] [|j] He; simplify_eq/=; eauto.
  - destruct (Z.eqb_spec (Term o) (Term e)); simpl; eauto.
  - destruct (Z.eqb_spec (Term o) (Term e0)); simpl; eauto.
Qed.

Lemma stepDown_fields rf t now : currentTerm rf <= t ->
  currentTerm (stepDown rf t now) = t /\ state (stepDown rf t now) = Follower /\ log (stepDown rf t now) = log rf /\
  lastIncludedIndex (stepDown rf t now) = lastIncludedIndex rf /\ commitIndex (stepDown rf t now) = commitIndex rf.
Proof.
  intros Ht. unfold stepDown. rewrite Z.gtb_ltb.
  destruct (Z.ltb_spec (currentTerm rf) t); simpl; split_and!; try done. lia.
Qed.

Lemma accepted_log rf args (k := Z.to_nat (ae_PrevLogIndex args + 1 - lastIncludedIndex rf)) :
  log (accepted rf args) = take k (log rf) ++ merge_entries (drop k (log rf)) (ae_Entries args) /\
  lastIncludedIndex (accepted rf args) = lastIncludedIndex rf /\ currentTerm (accepted rf args) = currentTerm rf.
Proof.
  unfold accepted. cbv zeta. fold k. destruct (len (ae_Entries args) >? 0); simpl;
    destruct (ae_LeaderCommit args >? commitIndex rf); done.
Qed.

(** What AppendEntries has sent is in the log afterwards, and nothing up to
    the previous index has changed. *)
Lemma accepted_entries rf args (prev := ae_PrevLogIndex args) : lastIncludedIndex rf <= prev <= lastLogIndex rf ->
  (forall (j : nat) e1, ae_Entries args !! j = Some e1 ->
     exists e2, entryAt (accepted rf args) (prev + 1 + Z.of_nat j) = Some e2 /\ Term e2 = Term e1) /\
  (forall i, i <= prev -> entryAt (accepted rf args) i = entryAt rf i).
Proof.
  intros Hprev. destruct (accepted_log rf args) as (L1 & L2 & _). fold prev in L1.
  assert (length (take (Z.to_nat (prev + 1 - lastIncludedIndex rf)) (log rf)) = Z.to_nat (prev + 1 - lastIncludedIndex rf)) as Hlen.
  { rewrite length_take. unfold lastLogIndex in Hprev. lia. }
  split.
  - intros j e1 Hj. destruct (merge_entries_agree (drop (Z.to_nat (prev + 1 - lastIncludedIndex rf)) (log rf)) _ _ _ Hj) as (e2 & He2 & Ht2).
    exists e2. split; [|done]. apply entryAt_Some. rewrite L1, L2. split; [lia|].
    rewrite lookup_app_r by lia. rewrite Hlen. rewrite <-He2. f_equal. lia.
  - intros i Hi. unfold entryAt, get. rewrite L1, L2. destruct (Z.leb_spec 0 (i - lastIncludedIndex rf)); [|done].
    rewrite lookup_app_l by lia. apply lookup_take_lt. lia.
Qed.

(** The update loop of AppendEntries is the reference merge.
    When the previous entry matches, the RPC succeeds; the log becomes its
    prefix up to the previous index followed by the reference merge of the
    rest with the entries sent; every entry sent is then in the log (same
    index, same term), and nothing up to the previous index has changed. *)
Theorem AppendEntries_merges rf args now e (prev := ae_PrevLogIndex args) :
  raft_wf rf -> currentTerm rf <= ae_Term args -> lastIncludedIndex rf <= prev <= lastLogIndex rf ->
  entryAt rf prev = Some e -> Term e = ae_PrevLogTerm args ->
  exists rf', AppendEntries rf args now = Some (rf', MkAppendEntriesReply (ae_Term args) true 0 0 0) /\
    log rf' = (let k := Z.to_nat (prev + 1 - lastIncludedIndex rf) in
               take k (log rf) ++ merge_entries (drop k (log rf)) (ae_Entries args)) /\
    (forall (j : nat) e1, ae_Entries args !! j = Some e1 ->
       exists e2, entryAt rf' (prev + 1 + Z.of_nat j) = Some e2 /\ Term e2 = Term e1) /\
    (forall i, i <= prev -> entryAt rf' i = entryAt rf i).
Proof.
  intros Hwf Ht Hprev He Hte. destruct (stepDown_fields rf (ae_Term args) now Ht) as (S1 & S2 & S3 & S4 & S5).
  destruct (AppendEntries_cases rf args now Hwf) as (rf' & reply & Heq & Hc). rewrite Heq. fold prev in Hc.
  assert (entryAt (stepDown rf (ae_Term args) now) prev = Some e) as He1 by (unfold entryAt; by rewrite S3, S4).
  assert (lastLogIndex (stepDown rf (ae_Term args) now) = lastLogIndex rf) as Hlast by (unfold lastLogIndex; by rewrite S3, S4).
  destruct Hc as [?|rf1 _ Hx|rf1 _ Hx|rf1 ? ? _ _ He' Hne|rf1 e' _ _ _ _]; [lia| | | |].
  { subst rf1. fold prev in Hx. lia. }
  { subst rf1. fold prev in Hx. lia. }
  { subst rf1. fold prev in He'. congruence. }
  fold rf1 in S1, S3, S4.
  destruct (accepted_log rf1 args) as (L1 & L2 & L3). fold prev in L1. rewrite S3, S4 in L1. rewrite S4 in L2.
  exists (accepted rf1 args). split; [by rewrite S1|]. split; [done|].
  destruct (accepted_entries rf1 args) as [Hin Hbefore]; [fold prev; rewrite S4; subst rf1; by rewrite Hlast|]. fold prev in Hin, Hbefore.
  split; [done|]. intros i Hi. rewrite Hbefore by done. unfold entryAt. by rewrite S3, S4.
Qed.

(** A vote is granted only to a candidate of the current term
    (after stepping up to a newer one) whose log is at least as up to date,
    and only if the peer has not voted for another candidate of that term;
    the vote is on stable storage before the reply leaves. *)
Theorem RequestVote_grant rf args now rf' reply :
  raft_wf rf -> RequestVote rf args now = Some (rf', reply) -> rvr_VoteGranted reply = true ->
  currentTerm rf <= rv_Term args /\ currentTerm rf' = rv_Term args /\ rvr_Term reply = rv_Term args /\
  (currentTerm rf < rv_Term args \/ votedFor rf = -1 \/ votedFor rf = rv_CandidateId args) /\
  votedFor rf' = rv_CandidateId args /\
  persister rf' = MkPersister (raft_state_bytes rf') (snapshot rf') /\
  exists e, entryAt rf (lastLogIndex rf) = Some e /\
    (Term e < rv_LastLogTerm args \/ Term e = rv_LastLogTerm args /\ lastLogIndex rf <= rv_LastLogIndex args).
Proof.
  intros Hwf Hrv Hg. unfold RequestVote in Hrv. rewrite Z.gtb_ltb in Hrv. cbv zeta in Hrv.
  destruct (Z.ltb_spec (currentTerm rf) (rv_Term args)) as [Hlt|Hge]; cbn [currentTerm toFollower persist set_field] in Hrv;
    simpl in Hrv.
  - rewrite Z.ltb_irrefl in Hrv. change (entryAt (toFollower rf (rv_Term args))) with (entryAt rf) in Hrv.
    change (lastLogIndex (toFollower rf (rv_Term args))) with (lastLogIndex rf) in Hrv.
    destruct (entryAt rf (lastLogIndex rf)) as [e|]; [|done]. simpl in Hrv.
    destruct (_ || _) eqn:Hup in Hrv; [|by simplify_eq/=]. simpl in Hrv. simplify_eq/=.
    split_and!; auto; [lia|]. exists e. split; [done|]. apply orb_true_iff in Hup as [?|?]; zbool; lia.
  - destruct (Z.ltb_spec (rv_Term args) (currentTerm rf)); [by simplify_eq/=|].
    destruct (entryAt rf (lastLogIndex rf)) as [e|]; [|done]. simpl in Hrv.
    destruct (_ || _) eqn:Hup in Hrv; [|by simplify_eq/=]. simpl in Hrv.
    destruct (_ || _) eqn:Hvf in Hrv; simplify_eq/=. assert (currentTerm rf = rv_Term args) as Hc by lia.
    split_and!; auto; [apply orb_true_iff in Hvf as [?|?]; zbool; auto|].
    exists e. split; [done|]. apply orb_true_iff in Hup as [?|?]; zbool; lia.
Qed.

(** A rejection that is not superseded makes progress.  The leader
    moves nextIndex of the follower strictly down, or it already is at its
    least useful value (the snapshot boundary, at least 1), from where the
    next round sends the snapshot or the whole log. *)
Theorem appendReply_backs_up rf (peer : nat) args reply cur :
  raft_wf rf -> (peer < npeers rf)%nat -> state rf = Leader -> currentTerm rf = ae_Term args ->
  aer_Term reply <= currentTerm rf -> aer_Success reply = false ->
  nextIndex rf !! peer = Some cur -> cur <= ae_PrevLogIndex args + 1 ->
  exists rf' next, appendReply rf peer args true reply = Some rf' /\ nextIndex rf' !! peer = Some next /\
    Z.max 1 (lastIncludedIndex rf) <= next /\ (next < cur \/ next = Z.max 1 (lastIncludedIndex rf)).
Proof.
  intros Hwf Hp Hs Ht Hr Hf Hn Hle. unfold appendReply, State_eqb.
  rewrite bool_decide_eq_true_2, Ht, Z.eqb_refl by done. cbn [negb orb].
  rewrite Z.gtb_ltb. destruct (Z.ltb_spec (ae_Term args) (aer_Term reply)); [lia|]. rewrite Hf, Hn. obind.
  destruct (Z.leb_spec cur (ae_PrevLogIndex args + 1)); [|lia].
  destruct (backupNextIndex_spec rf peer reply cur Hwf Hn) as (next & -> & Hmin & Hdown). obind.
  exists (signal (rf <| nextIndex := <[peer := next]> (nextIndex rf) |>) peer), next. split_and!; auto. simpl.
  apply list_lookup_insert_eq. by rewrite (wf_next _ Hwf).
Qed.

End Node.

(** ** Witnesses *)

(** A follower of three with two entries of term 1 after the boundary. *)
Definition sample_peer : Raft nat :=
  let rf := persist (MkRaft 3 1 MakePersister 1 (-1) [MkLogEntry 0 None; MkLogEntry 1 (Some 5%nat); MkLogEntry 1 (Some 6%nat)]
    [] 0 0 Follower 0 0 0 [0; 0; 0] [0; 0; 0] [false; false; false] false [] 0 0) in rf.
Definition sample_leader : Raft nat := sample_peer <| state := Leader |> <| nextIndex := [3; 3; 3] |>.

Lemma sample_peer_wf : raft_wf sample_peer.
Proof. constructor; simpl; auto; try lia; try done; eauto. by left. Qed.

Lemma sample_leader_wf : raft_wf sample_leader.
Proof. constructor; simpl; auto; try lia; try done; eauto; [|by left]. intros _. repeat constructor; lia. Qed.

Lemma AppendEntries_merges_witness :
  exists rf', AppendEntries sample_peer (MkAppendEntriesArgs 2 0 1 1 [MkLogEntry 2 (Some 9%nat)] 0) 7 =
      Some (rf', MkAppendEntriesReply 2 true 0 0 0) /\
    log rf' = [MkLogEntry 0 None; MkLogEntry 1 (Some 5%nat); MkLogEntry 2 (Some 9%nat)].
Proof.
  destruct (AppendEntries_merges sample_peer (MkAppendEntriesArgs 2 0 1 1 [MkLogEntry 2 (Some 9%nat)] 0) 7
    (MkLogEntry 1 (Some 5%nat)) sample_peer_wf) as (rf' & Heq & Hlog & _).
  - simpl. lia.
  - unfold lastLogIndex. simpl. lia.
  - reflexivity.
  - reflexivity.
  - exists rf'. split; [exact Heq|]. rewrite Hlog. reflexivity.
Defined.

Lemma RequestVote_grant_witness :
  exists rf' reply, RequestVote sample_peer (MkRequestVoteArgs 2 2 2 1) 7 = Some (rf', reply) /\
    votedFor rf' = 2 /\ currentTerm rf' = 2.
Proof.
  destruct (RequestVote sample_peer (MkRequestVoteArgs 2 2 2 1) 7) as [[rf' reply]|] eqn:He; [|discriminate].
  exists rf', reply. split; [reflexivity|].
  destruct (RequestVote_grant sample_peer (MkRequestVoteArgs 2 2 2 1) 7 rf' reply sample_peer_wf He) as (_ & H1 & _ & _ & H2 & _).
  - vm_compute in He. injection He as <- <-. reflexivity.
  - split; [exact H2|exact H1].
Defined.

Lemma appendReply_backs_up_witness :
  exists rf' next, appendReply sample_leader 0 (MkAppendEntriesArgs 1 1 2 1 [] 0) true
      (MkAppendEntriesReply 1 false (-1) 0 1) = Some rf' /\ nextIndex rf' !! 0%nat = Some next /\ next < 3.
Proof.
  destruct (appendReply_backs_up sample_leader 0 (MkAppendEntriesArgs 1 1 2 1 [] 0) (MkAppendEntriesReply 1 false (-1) 0 1) 3
    sample_leader_wf) as (rf' & next & H1 & H2 & H3 & H4); try reflexivity; try (simpl; lia).
  exists rf', next. split; [exact H1|]. split; [exact H2|]. simpl in H3, H4. lia.
Defined.

(** The rule of advanceCommitIndex counts [n - n/2] peers.
    In a cluster of four, an entry that only two peers hold is committed,
    although the comment there calls the position a majority. *)
Theorem advanceCommitIndex_half_of_four :
  let rf := MkRaft 4 0 MakePersister 1 0 [MkLogEntry 0 None; MkLogEntry 1 (Some 5%nat)]
    [] 0 0 Leader 0 0 0 [2; 2; 1; 1] [1; 1; 0; 0] [false; false; false; false] false [] 0 0 in
  option_map commitIndex (advanceCommitIndex rf) = Some 1 /\
  length (filter (fun m => 1 <= m) (matchIndex rf)) = 2%nat.
Proof. vm_compute. done. Qed.
