(* ===== verification/Quorum.v ===== *)
(** * Counting arguments: quorums of peers

    Peers are the numbers below [n].  An election quorum has more than
    [n / 2] peers (startElection); a commit quorum is the set of peers whose
    matchIndex is at least the element at position [n / 2] of the sorted
    matchIndex (advanceCommitIndex), which has [n - n / 2] peers. *)

From S2P Require Import Prelude.

(** Two duplicate-free lists of peers that are together longer than [n] share
    a peer. *)
Lemma quorum_intersect (n : nat) (q1 q2 : list nat) :
  NoDup q1 -> NoDup q2 -> (forall i, i ∈ q1 -> (i < n)%nat) -> (forall i, i ∈ q2 -> (i < n)%nat) ->
  (n < length q1 + length q2)%nat -> exists i, i ∈ q1 /\ i ∈ q2.
Proof.
  intros Hd1 Hd2 Hb1 Hb2 Hlen.
  destruct (decide (Exists (fun i => i ∈ q2) q1)) as [He|Hne].
  { apply Exists_exists in He as (i & ? & ?). eauto. }
  exfalso. assert (NoDup (q1 ++ q2)) as Hd.
  { apply NoDup_app. split_and!; auto. intros i Hi1 Hi2. apply Hne, Exists_exists. eauto. }
  assert (length (q1 ++ q2) <= length (seq 0 n))%nat as Hle.
  { apply submseteq_length, NoDup_submseteq; [done|]. intros i Hi.
    apply elem_of_seq. apply elem_of_app in Hi as [Hi|Hi]; [apply Hb1 in Hi|apply Hb2 in Hi]; lia. }
  rewrite length_app, length_seq in Hle. lia.
Qed.

(** The positions of the elements of a list that satisfy a predicate. *)
Lemma filter_positions {A} (P : A -> Prop) `{!forall x, Decision (P x)} (l : list A) :
  exists q, NoDup q /\ length q = length (filter P l) /\
    forall i, i ∈ q -> exists x, l !! i = Some x /\ P x.
Proof.
  induction l as [|x l (q & Hnd & Hlen & Hq)].
  { exists []. split_and!; [constructor|done|]. intros i Hi. by apply elem_of_nil in Hi. }
  assert (NoDup (S <$> q)) as HndS by (apply NoDup_fmap; [apply _|done]).
  assert (forall i, i ∈ S <$> q -> exists y, (x :: l) !! i = Some y /\ P y) as HqS.
  { intros i (j & -> & Hj)%list_elem_of_fmap. simpl. auto. }
  rewrite filter_cons. case_decide.
  - exists (0%nat :: (S <$> q)). split_and!.
    + constructor; [|done]. intros (j & ? & _)%list_elem_of_fmap. done.
    + simpl. by rewrite length_fmap, Hlen.
    + intros i [->|Hi]%elem_of_cons; [by exists x|auto].
  - exists (S <$> q). by rewrite length_fmap.
Qed.

Lemma StronglySorted_drop {A} (R : A -> A -> Prop) `{!Reflexive R} (l : list A) (k : nat) x :
  StronglySorted R l -> l !! k = Some x -> Forall (R x) (drop k l).
Proof.
  intros Hs. revert k. induction Hs as [|y l Hs IH Hy]; intros [|k] Hk; simplify_eq/=; auto.
Qed.

Lemma filter_all_length {A} (P : A -> Prop) `{!forall x, Decision (P x)} (l : list A) :
  Forall P l -> length (filter P l) = length l.
Proof. induction 1 as [|x l Hx _ IH]; [done|]. rewrite filter_cons_True by done. simpl. by rewrite IH. Qed.

(** The element at position [k] of a sorted list has at least [length l - k]
    elements of the list at or above it. *)
Lemma sorted_rank (l : list Z) (k : nat) (N : Z) :
  merge_sort Z.le l !! k = Some N ->
  (length l - k <= length (filter (fun x => (N <= x)%Z) l))%nat.
Proof.
  intros HN.
  assert (length (filter (fun x => N <= x) l) = length (filter (fun x => N <= x) (merge_sort Z.le l)))
    as -> by (by rewrite merge_sort_Permutation).
  assert (length l = length (merge_sort Z.le l)) as -> by (by rewrite merge_sort_Permutation).
  rewrite <-(take_drop k (merge_sort Z.le l)) at 2.
  rewrite filter_app, length_app.
  rewrite (filter_all_length _ (drop k _)).
  - rewrite length_drop. lia.
  - apply (StronglySorted_drop Z.le); [|done]. apply StronglySorted_merge_sort; [|].
    + intros x y z. lia.
    + intros x y. lia.
Qed.

(** The peers counted by the rule of advanceCommitIndex. *)
Lemma commit_quorum (l : list Z) (N : Z) :
  merge_sort Z.le l !! Nat.div (length l) 2 = Some N ->
  exists q, NoDup q /\ (length l - Nat.div (length l) 2 <= length q)%nat /\
    forall i, i ∈ q -> exists m, l !! i = Some m /\ N <= m.
Proof.
  intros HN%sorted_rank. destruct (filter_positions (fun x => N <= x) l) as (q & Hnd & Hlen & Hq).
  exists q. split_and!; auto. lia.
Qed.

(** The dual: at least [k + 1] elements of the list are at or below the
    element at position [k] of the sorted list. *)
Lemma StronglySorted_take {A} (R : A -> A -> Prop) `{!Reflexive R} (l : list A) (k : nat) x :
  StronglySorted R l -> l !! k = Some x -> Forall (fun y => R y x) (take (S k) l).
Proof.
  intros Hs. revert k. induction Hs as [|y l Hs IH Hy]; intros [|k] Hk; simplify_eq/=; [by repeat constructor|].
  constructor; [|by apply IH]. rewrite Forall_lookup in Hy. eauto.
Qed.

Lemma sorted_rank_below (l : list Z) (k : nat) (N : Z) :
  merge_sort Z.le l !! k = Some N -> (k < length (filter (fun x => (x <= N)%Z) l))%nat.
Proof.
  intros HN. assert (length (filter (fun x => x <= N) l) = length (filter (fun x => x <= N) (merge_sort Z.le l)))
    as -> by (by rewrite merge_sort_Permutation).
  rewrite <-(take_drop (S k) (merge_sort Z.le l)). rewrite filter_app, length_app, (filter_all_length _ (take _ _)).
  - rewrite length_take. apply lookup_lt_Some in HN. lia.
  - apply (StronglySorted_take Z.le); [|done]. apply StronglySorted_merge_sort; [|].
    + intros x y z. lia.
    + intros x y. lia.
Qed.

(** Once a majority has matched an index, the rule of advanceCommitIndex picks
    at least that index. *)
Lemma median_ge (l : list Z) (q : list nat) (x N : Z) :
  merge_sort Z.le l !! Nat.div (length l) 2 = Some N -> NoDup q -> (Nat.div (length l) 2 < length q)%nat ->
  (forall i, i ∈ q -> exists m, l !! i = Some m /\ x <= m) -> x <= N.
Proof.
  intros HN%sorted_rank_below Hnd Hlen Hq. destruct (decide (x <= N)) as [|Hlt]; [done|exfalso].
  destruct (filter_positions (fun x => x <= N) l) as (q' & Hnd' & Hlen' & Hq').
  destruct (quorum_intersect (length l) q q') as (i & Hi & Hi'); auto.
  - intros i Hi. destruct (Hq i Hi) as (m & Hm & _). by eapply lookup_lt_Some.
  - intros i Hi. destruct (Hq' i Hi) as (m & Hm & _). by eapply lookup_lt_Some.
  - pose proof (Nat.div_mod_eq (length l) 2). pose proof (Nat.mod_upper_bound (length l) 2). lia.
  - destruct (Hq i Hi) as (m & Hm & ?), (Hq' i Hi') as (m' & Hm' & ?). simplify_eq. lia.
Qed.
