(* ===== verification/RaftSpec.v ===== *)
(** * The Raft protocol, abstractly: specification and safety

    The abstract protocol keeps of every peer its term, role, full log (never
    compacted) and commit index, and of the whole system the history that
    the safety argument needs: the log each candidate started its election
    with, who voted for whom, the log of the leader of each term, and which
    peers acknowledged how much of it.  There is no network: an action
    refers to the history instead of a message.  The file proves election
    safety, log matching, leader completeness and state machine safety;
    RaftRefine.v shows that the code implements the actions. *)

From stdpp Require Import functions.
From S2P Require Import Prelude Raft Quorum.

Section Spec.
Context {Cmd : Type} (n : nat).
Abbreviation entry := (LogEntry Cmd).
Abbreviation elog := (list (LogEntry Cmd)).

(** ** State and actions *)

Record Abs : Type := MkAbs {
  cur : nat -> Z;                     (* current term *)
  role : nat -> State;
  lg : nat -> elog;                   (* full log, with the entry of index 0 *)
  com : nat -> nat;                   (* commit index *)
  cand : nat -> Z -> option elog;     (* log of a candidate at its election *)
  voted : nat -> Z -> nat -> Prop;    (* voter, term, candidate *)
  tlog : Z -> option (nat * elog);    (* leader of a term and its log *)
  ack : nat -> Z -> nat -> Prop;      (* peer, term, index *)
}.

Definition eta_Abs (a : Abs) : Abs :=
  MkAbs (cur a) (role a) (lg a) (com a) (cand a) (voted a) (tlog a) (ack a).
#[global] Instance set_cur : Setter cur := ltac:(solve_setter eta_Abs cur).
#[global] Instance set_role : Setter role := ltac:(solve_setter eta_Abs role).
#[global] Instance set_lg : Setter lg := ltac:(solve_setter eta_Abs lg).
#[global] Instance set_com : Setter com := ltac:(solve_setter eta_Abs com).
#[global] Instance set_cand : Setter cand := ltac:(solve_setter eta_Abs cand).
#[global] Instance set_voted : Setter voted := ltac:(solve_setter eta_Abs voted).
#[global] Instance set_tlog : Setter tlog := ltac:(solve_setter eta_Abs tlog).
#[global] Instance set_ack : Setter ack := ltac:(solve_setter eta_Abs ack).

Definition dummy : entry := MkLogEntry 0 None.

Definition a_init : Abs :=
  MkAbs (fun _ => 0%Z) (fun _ => Follower) (fun _ => [dummy]) (fun _ => 0%nat)
        (fun _ _ => None) (fun _ _ _ => False) (fun _ => None) (fun _ _ _ => False).

(** Index of the last entry of a log, and its term. *)
Definition lastIdx (l : elog) : nat := pred (length l).
Definition lastTerm (l : elog) : Z := match l !! lastIdx l with Some e => Term e | None => 0 end.

(** The election restriction: [lc] is at least as up to date as [lv]. *)
Definition up_to_date (lc lv : elog) : Prop :=
  lastTerm lv < lastTerm lc \/ lastTerm lv = lastTerm lc /\ (lastIdx lv <= lastIdx lc)%nat.

(** An election quorum and a commit quorum (see Quorum.v). *)
Definition vote_quorum (q : list nat) : Prop :=
  NoDup q /\ (forall i, i ∈ q -> (i < n)%nat) /\ (Nat.div n 2 < length q)%nat.
Definition ack_quorum (q : list nat) : Prop :=
  NoDup q /\ (forall i, i ∈ q -> (i < n)%nat) /\ (n - Nat.div n 2 <= length q)%nat.

Definition ack_ge (a : Abs) (i : nat) (t : Z) (k : nat) : Prop := exists k', (k <= k')%nat /\ ack a i t k'.

(** The entry at [k] of the leader log of term [t] is of that very term and a
    commit quorum has acknowledged it. *)
Definition committed (a : Abs) (t : Z) (k : nat) (T : elog) : Prop :=
  (exists c, tlog a t = Some (c, T)) /\ (exists e, T !! k = Some e /\ Term e = t) /\
  exists q, ack_quorum q /\ forall i, i ∈ q -> ack_ge a i t k.

Inductive astep (a : Abs) : Abs -> Prop :=
| a_timeout i : (i < n)%nat ->
    astep a (a <| cur := <[i := cur a i + 1]> (cur a) |> <| role := <[i := Candidate]> (role a) |>
               <| cand := fun c t => if decide (c = i /\ t = cur a i + 1) then Some (lg a i) else cand a c t |>
               <| voted := fun v t c => voted a v t c \/ v = i /\ t = cur a i + 1 /\ c = i |>)
| a_bump i t : (i < n)%nat -> cur a i < t ->
    astep a (a <| cur := <[i := t]> (cur a) |> <| role := <[i := Follower]> (role a) |>)
| a_down i :
    astep a (a <| role := <[i := Follower]> (role a) |>)
| a_vote v c lc : (v < n)%nat -> (c < n)%nat -> cand a c (cur a v) = Some lc ->
    (forall c', voted a v (cur a v) c' -> c' = c) -> up_to_date lc (lg a v) ->
    astep a (a <| voted := fun v' t c' => voted a v' t c' \/ v' = v /\ t = cur a v /\ c' = c |>)
| a_lead c q : (c < n)%nat -> role a c = Candidate -> vote_quorum q ->
    (forall v, v ∈ q -> voted a v (cur a c) c) ->
    astep a (a <| role := <[c := Leader]> (role a) |>
               <| tlog := <[cur a c := Some (c, lg a c)]> (tlog a) |>
               <| ack := fun i t k => ack a i t k \/ i = c /\ t = cur a c /\ k = lastIdx (lg a c) |>)
| a_append c (cmd : option Cmd) : (c < n)%nat -> role a c = Leader ->
    let l := lg a c ++ [MkLogEntry (cur a c) cmd] in
    astep a (a <| lg := <[c := l]> (lg a) |>
               <| tlog := <[cur a c := Some (c, l)]> (tlog a) |>
               <| ack := fun i t k => ack a i t k \/ i = c /\ t = cur a c /\ k = lastIdx l |>)
| a_accept i c T m l : (i < n)%nat -> role a i <> Candidate -> tlog a (cur a i) = Some (c, T) -> (m < length T)%nat ->
    (take (S m) (lg a i) = take (S m) T /\ l = lg a i \/
     take (S m) (lg a i) <> take (S m) T /\ l = take (S m) T) ->
    astep a (a <| lg := <[i := l]> (lg a) |>
               <| ack := fun j t k => ack a j t k \/ j = i /\ t = cur a i /\ k = m |>)
| a_commit i c t k T : (i < n)%nat -> t <= cur a i -> committed a t k T -> (c <= k)%nat ->
    (c < length (lg a i))%nat -> take (S c) (lg a i) = take (S c) T -> (com a i <= c)%nat ->
    astep a (a <| com := <[i := c]> (com a) |>)
| a_restart i c : (c <= com a i)%nat ->
    astep a (a <| role := <[i := Follower]> (role a) |> <| com := <[i := c]> (com a) |>).

Definition a_reachable (a : Abs) : Prop := rtc astep a_init a.

(** ** Invariants *)

(** Every entry of a log (after index 0) sits on the leader log of its term:
    the strong form of log matching. *)
Definition matched (tl : Z -> option (nat * elog)) (l : elog) : Prop :=
  forall j e, l !! j = Some e -> (0 < j)%nat ->
    exists c T, tl (Term e) = Some (c, T) /\ take (S j) l = take (S j) T.

Definition terms_le (l : elog) (t : Z) : Prop := Forall (fun e => Term e <= t) l.
Definition starts_dummy (l : elog) : Prop := l !! 0%nat = Some dummy.

(** The facts about votes and roles. *)
Record votes_inv (a : Abs) : Prop := {
  vi_term : forall v t c, voted a v t c -> t <= cur a v;
  vi_cand : forall v t c, voted a v t c -> exists lc, cand a c t = Some lc;
  vi_once : forall v t c c', voted a v t c -> voted a v t c' -> c = c';
  vi_cand_term : forall c t lc, cand a c t = Some lc -> t <= cur a c;
  vi_cand_log : forall c lc, cand a c (cur a c) = Some lc -> role a c = Candidate -> lg a c = lc;
  vi_elected : forall t c T, tlog a t = Some (c, T) ->
    exists q, vote_quorum q /\ forall v, v ∈ q -> voted a v t c;
  vi_leader_term : forall t c T, tlog a t = Some (c, T) -> t <= cur a c;
  vi_leader_role : forall t c T, tlog a t = Some (c, T) -> cur a c = t -> role a c <> Candidate;
  vi_leader_log : forall t c T, tlog a t = Some (c, T) -> cur a c = t -> role a c = Leader -> lg a c = T;
  vi_leader : forall c, role a c = Leader -> exists T, tlog a (cur a c) = Some (c, T);
}.

(** The facts about logs. *)
Record logs_inv (a : Abs) : Prop := {
  li_start : forall i, starts_dummy (lg a i);
  li_match : forall i, matched (tlog a) (lg a i);
  li_terms : forall i, terms_le (lg a i) (cur a i);
  li_cstart : forall c t lc, cand a c t = Some lc -> starts_dummy lc;
  li_cmatch : forall c t lc, cand a c t = Some lc -> matched (tlog a) lc;
  li_cterms : forall c t lc, cand a c t = Some lc -> terms_le lc (t - 1);
  li_tstart : forall t c T, tlog a t = Some (c, T) -> starts_dummy T;
  li_tmatch : forall t c T, tlog a t = Some (c, T) -> matched (tlog a) T;
  li_tterms : forall t c T, tlog a t = Some (c, T) -> terms_le T t;
  li_ack : forall i t k, ack a i t k -> t <= cur a i /\ exists c T, tlog a t = Some (c, T) /\ (k < length T)%nat;
}.

(** [t], [k] may still become (or be) committed: a commit quorum consists of
    peers that have acknowledged it or have not left the terms up to [t]. *)
Definition choosable (a : Abs) (t : Z) (k : nat) (T : elog) : Prop :=
  (exists c, tlog a t = Some (c, T)) /\ (exists e, T !! k = Some e /\ Term e = t) /\
  exists q, ack_quorum q /\ forall i, i ∈ q -> ack_ge a i t k \/ cur a i <= t.

(** The facts behind leader completeness and the commit indices. *)
Record commit_inv (a : Abs) : Prop := {
  ci_ack : forall i t k T, ack_ge a i t k -> choosable a t k T -> take (S k) (lg a i) = take (S k) T;
  ci_vote : forall v t' c lc t k T, voted a v t' c -> cand a c t' = Some lc -> t < t' ->
    ack_ge a v t k -> choosable a t k T -> take (S k) lc = take (S k) T;
  ci_lead : forall t' c' T' t k T, tlog a t' = Some (c', T') -> t < t' ->
    choosable a t k T -> take (S k) T' = take (S k) T;
  ci_com : forall i, (com a i < length (lg a i))%nat /\
    (com a i = 0%nat \/ exists t k T, t <= cur a i /\ committed a t k T /\ (com a i <= k)%nat /\
      take (S (com a i)) (lg a i) = take (S (com a i)) T);
}.

Record a_inv (a : Abs) : Prop := {
  a_votes : votes_inv a;
  a_logs : logs_inv a;
  a_commits : commit_inv a;
}.

(** ** Generic facts *)

Lemma take_prefix_eq (l1 l2 : elog) (k m : nat) :
  (k <= m)%nat -> take m l1 = take m l2 -> take k l1 = take k l2.
Proof. intros Hk Heq%(f_equal (take k)). by rewrite !take_take, !Nat.min_l in Heq by lia. Qed.

Lemma take_eq_lookup (l1 l2 : elog) (k j : nat) :
  (j < k)%nat -> take k l1 = take k l2 -> l1 !! j = l2 !! j.
Proof. intros Hj Heq. by rewrite <-(lookup_take_lt l1 k j), <-(lookup_take_lt l2 k j), Heq by done. Qed.

Lemma take_eq_length (l1 l2 : elog) (k : nat) :
  take k l1 = take k l2 -> (k <= length l2)%nat -> (k <= length l1)%nat.
Proof. intros Heq%(f_equal length) Hk. rewrite !length_take in Heq. lia. Qed.

Lemma terms_le_mono l t t' : terms_le l t -> t <= t' -> terms_le l t'.
Proof. intros Hl Ht. eapply Forall_impl; [exact Hl|]. simpl. lia. Qed.

Lemma terms_le_lookup l t k e : terms_le l t -> l !! k = Some e -> Term e <= t.
Proof. intros Hl. apply (Forall_lookup_1 _ _ _ _ Hl). Qed.

(** The log of a term only grows. *)
Definition tl_ext (tl tl' : Z -> option (nat * elog)) : Prop :=
  forall t c T, tl t = Some (c, T) -> exists T', tl' t = Some (c, T') /\ T `prefix_of` T'.

Lemma take_prefix_of (T T' : elog) (k : nat) :
  T `prefix_of` T' -> (k <= length T)%nat -> take k T' = take k T.
Proof. intros [r ->] Hk. by rewrite take_app_le. Qed.

Lemma matched_ext tl tl' l : tl_ext tl tl' -> matched tl l -> matched tl' l.
Proof.
  intros Hext Hm j e He Hj. destruct (Hm j e He Hj) as (c & T & HT & Heq).
  destruct (Hext _ _ _ HT) as (T' & HT' & Hpre). exists c, T'. split; [done|].
  rewrite Heq, (take_prefix_of T T'); [done..|].
  apply (take_eq_length T l); [done|]. apply lookup_lt_Some in He. lia.
Qed.

Lemma tl_ext_refl tl : tl_ext tl tl.
Proof. intros t c T HT. eauto. Qed.

(** Log matching: two logs that have an entry of the same term at the same
    index agree up to that index. *)
Lemma log_matching tl l1 l2 (j : nat) e1 e2 :
  matched tl l1 -> matched tl l2 -> starts_dummy l1 -> starts_dummy l2 ->
  l1 !! j = Some e1 -> l2 !! j = Some e2 -> Term e1 = Term e2 -> take (S j) l1 = take (S j) l2.
Proof.
  intros H1 H2 Hd1 Hd2 He1 He2 Ht. destruct (decide (j = 0%nat)) as [->|].
  - destruct l1, l2; simplify_eq/=. unfold starts_dummy in *. simplify_eq/=. done.
  - destruct (H1 j e1 He1) as (c1 & T1 & HT1 & Hq1); [lia|].
    destruct (H2 j e2 He2) as (c2 & T2 & HT2 & Hq2); [lia|].
    rewrite Ht in HT1. simplify_eq. congruence.
Qed.

Lemma matched_prefix tl l m : matched tl l -> matched tl (take m l).
Proof.
  intros Hm j e He Hj. apply lookup_take_Some in He as [He Hlt].
  destruct (Hm j e He Hj) as (c & T & HT & Heq). exists c, T. split; [done|].
  by rewrite take_take, Nat.min_l by lia.
Qed.

Lemma starts_dummy_take l m : starts_dummy l -> (0 < m)%nat -> starts_dummy (take m l).
Proof. intros. unfold starts_dummy. by rewrite lookup_take_lt. Qed.

Lemma terms_le_take l t m : terms_le l t -> terms_le (take m l) t.
Proof. apply Forall_take. Qed.

(** Choosable entries were choosable before: terms only grow, and a peer
    only acknowledges entries of its own current term. *)
Lemma choosable_back a a' t k T T' :
  (forall i, cur a i <= cur a' i) ->
  (forall i k', ack a' i t k' -> ack a i t k' \/ cur a i <= t) ->
  (exists c, tlog a t = Some (c, T)) -> (exists e, T !! k = Some e /\ Term e = t) ->
  choosable a' t k T' -> choosable a t k T.
Proof.
  intros Hcur Hack HT He (_ & _ & q & Hq & Hall). split_and!; auto. exists q. split; [done|].
  intros i Hi. destruct (Hall i Hi) as [(k' & Hk & Ha)|Hc].
  - destruct (Hack _ _ Ha); [left; by exists k'|by right].
  - right. specialize (Hcur i). lia.
Qed.

Lemma committed_choosable a t k T : committed a t k T -> choosable a t k T.
Proof. intros (HT & He & q & Hq & Hall). split_and!; auto. exists q. split; [done|]. auto. Qed.

(** An election quorum and a commit quorum share a peer, for every number of
    peers. *)
Lemma vote_ack_intersect q1 q2 :
  vote_quorum q1 -> ack_quorum q2 -> exists i, i ∈ q1 /\ i ∈ q2.
Proof.
  intros (Hd1 & Hb1 & Hl1) (Hd2 & Hb2 & Hl2). apply (quorum_intersect n); auto.
  pose proof (Nat.Div0.div_le_upper_bound n 2 n). lia.
Qed.

Lemma vote_vote_intersect q1 q2 :
  vote_quorum q1 -> vote_quorum q2 -> exists i, i ∈ q1 /\ i ∈ q2.
Proof.
  intros (Hd1 & Hb1 & Hl1) (Hd2 & Hb2 & Hl2). apply (quorum_intersect n); auto.
  pose proof (Nat.div_mod_eq n 2). pose proof (Nat.mod_upper_bound n 2). lia.
Qed.

Lemma vote_quorum_ne q : vote_quorum q -> exists i, i ∈ q.
Proof.
  intros (_ & _ & Hq). destruct q as [|i q]; simpl in Hq; [lia|]. exists i. set_solver.
Qed.

(** ** Preservation: votes and roles *)

Lemma fn_insert_eq {A B} `{EqDecision A} (f : A -> B) i j x : i = j -> <[i := x]> f j = x.
Proof. intros ->. apply fn_lookup_insert. Qed.

(** Case analysis on every update of a function at a point. *)
Ltac fn_at i j :=
  let E := fresh "E" in
  destruct (decide (i = j)) as [E|E];
  [ rewrite ?(fn_insert_eq _ i j _ E) in * | rewrite ?(fn_lookup_insert_ne _ i j _ E) in * ].
Ltac fn_cases :=
  repeat match goal with
  | |- context [<[?i := _]> _ ?j] => fn_at i j
  | H : context [<[?i := _]> _ ?j] |- _ => fn_at i j
  end.

Ltac vi_start H := destruct H as [Hterm Hcand Honce Hct Hcl Hel Hlt Hlr Hll Hlead]; constructor; simpl.

Lemma voted_term_fresh a v t c : votes_inv a -> voted a v t c -> cur a v < t -> False.
Proof. intros Hv Ha Hc. pose proof (vi_term _ Hv _ _ _ Ha). lia. Qed.

(** The winner of an election is the first leader of its term. *)
Lemma lead_fresh a c q :
  votes_inv a -> role a c = Candidate -> vote_quorum q ->
  (forall v, v ∈ q -> voted a v (cur a c) c) -> tlog a (cur a c) = None.
Proof.
  intros Hv Hr Hq Hall. destruct (tlog a (cur a c)) as [[c' T]|] eqn:HT; [|done]. exfalso.
  destruct (vi_elected _ Hv _ _ _ HT) as (q' & Hq' & Hall').
  destruct (vote_vote_intersect q q') as (i & Hi & Hi'); [done..|].
  assert (c = c') as <- by (eapply (vi_once _ Hv); eauto).
  by apply (vi_leader_role _ Hv _ _ _ HT eq_refl).
Qed.

(** A candidate that wins starts its term with the log of its election, which
    holds no entry of the term. *)
Lemma lead_cand a c q :
  votes_inv a -> role a c = Candidate -> vote_quorum q ->
  (forall v, v ∈ q -> voted a v (cur a c) c) -> cand a c (cur a c) = Some (lg a c).
Proof.
  intros Hv Hr Hq Hall. destruct (vote_quorum_ne q Hq) as (v & Hin).
  destruct (vi_cand _ Hv _ _ _ (Hall v Hin)) as (lc & Hlc).
  by rewrite (vi_cand_log _ Hv _ _ Hlc Hr).
Qed.

Lemma timeout_votes a i : votes_inv a ->
  votes_inv (a <| cur := <[i := cur a i + 1]> (cur a) |> <| role := <[i := Candidate]> (role a) |>
               <| cand := fun c t => if decide (c = i /\ t = cur a i + 1) then Some (lg a i) else cand a c t |>
               <| voted := fun v t c => voted a v t c \/ v = i /\ t = cur a i + 1 /\ c = i |>).
Proof.
  intros Hv. vi_start Hv.
  - intros v t c [Hvo|(-> & -> & ->)]; fn_cases; [specialize (Hterm _ _ _ Hvo); subst; lia|eauto|lia|done].
  - intros v t c Hvo. case_decide; [eauto|]. destruct Hvo as [Hvo|(-> & -> & ->)]; [eauto|naive_solver].
  - intros v t c c' [H1|(? & ? & ?)] [H2|(? & ? & ?)]; subst; eauto; exfalso.
    + specialize (Hterm _ _ _ H1). lia.
    + specialize (Hterm _ _ _ H2). lia.
  - intros c t lc Hc. case_decide as Hd; [destruct Hd as [-> ->]; fn_cases; [lia|done]|].
    specialize (Hct _ _ _ Hc). fn_cases; [subst; lia|done].
  - intros c lc Hc Hr. fn_cases; [|case_decide; [naive_solver|eauto]]. subst i.
    rewrite decide_True in Hc by done. by simplify_eq.
  - intros t c T HT. destruct (Hel _ _ _ HT) as (q & Hq & Hall). exists q. split; [done|]. auto.
  - intros t c T HT. specialize (Hlt _ _ _ HT). fn_cases; [subst; lia|done].
  - intros t c T HT Hc. specialize (Hlt _ _ _ HT). fn_cases; [subst; lia|eauto].
  - intros t c T HT Hc Hr. specialize (Hlt _ _ _ HT). fn_cases; [done|eauto].
  - intros c Hr. fn_cases; [done|eauto].
Qed.

Lemma bump_votes a i t : votes_inv a -> cur a i < t ->
  votes_inv (a <| cur := <[i := t]> (cur a) |> <| role := <[i := Follower]> (role a) |>).
Proof.
  intros Hv Hi. vi_start Hv; eauto.
  - intros v t' c Hvo. specialize (Hterm _ _ _ Hvo). fn_cases; [subst; lia|done].
  - intros c t' lc Hc. specialize (Hct _ _ _ Hc). fn_cases; [subst; lia|done].
  - intros c lc Hc Hr. fn_cases; [done|eauto].
  - intros t' c T HT. specialize (Hlt _ _ _ HT). fn_cases; [subst; lia|done].
  - intros t' c T HT Hc. fn_cases; [done|eauto].
  - intros t' c T HT Hc Hr. fn_cases; [done|eauto].
  - intros c Hr. fn_cases; [done|eauto].
Qed.

Lemma down_votes a i : votes_inv a -> votes_inv (a <| role := <[i := Follower]> (role a) |>).
Proof.
  intros Hv. vi_start Hv; eauto.
  - intros c lc Hc Hr. fn_cases; [done|eauto].
  - intros t c T HT Hc. fn_cases; [done|eauto].
  - intros t c T HT Hc Hr. fn_cases; [done|eauto].
  - intros c Hr. fn_cases; [done|eauto].
Qed.

Lemma vote_votes a v c lc : votes_inv a -> cand a c (cur a v) = Some lc ->
  (forall c', voted a v (cur a v) c' -> c' = c) ->
  votes_inv (a <| voted := fun v' t c' => voted a v' t c' \/ v' = v /\ t = cur a v /\ c' = c |>).
Proof.
  intros Hv Hc Hfirst. vi_start Hv; eauto.
  - intros v' t c' [Hvo|(-> & -> & ->)]; [eauto|lia].
  - intros v' t c' [Hvo|(-> & -> & ->)]; eauto.
  - intros v' t c1 c2 [H1|(? & ? & ?)] [H2|(? & ? & ?)]; subst; eauto.
    symmetry; eauto.
  - intros t c' T HT. destruct (Hel _ _ _ HT) as (q & Hq & Hall). exists q. split; [done|]. auto.
Qed.

Lemma lead_votes a c q l' : votes_inv a -> role a c = Candidate -> vote_quorum q ->
  (forall v, v ∈ q -> voted a v (cur a c) c) ->
  votes_inv (a <| role := <[c := Leader]> (role a) |>
               <| tlog := <[cur a c := Some (c, lg a c)]> (tlog a) |> <| ack := l' |>).
Proof.
  intros Hv Hr Hq Hall. pose proof (lead_fresh a c q Hv Hr Hq Hall) as Hf. vi_start Hv; eauto.
  - intros c' lc Hc Hr'. fn_cases; [done|eauto].
  - intros t c' T HT. fn_cases; [simplify_eq; eauto|eauto].
  - intros t c' T HT. fn_cases; [simplify_eq; lia|eauto].
  - intros t c' T HT Hc. fn_cases; simplify_eq; eauto.
  - intros t c' T HT Hc Hr'. fn_cases; simplify_eq; eauto.
  - intros c' Hr'. fn_cases; simplify_eq; eauto.
    destruct (Hlead _ Hr') as (T & HT). congruence.
Qed.

Lemma append_votes a c l l' : votes_inv a -> role a c = Leader ->
  votes_inv (a <| lg := <[c := l]> (lg a) |>
               <| tlog := <[cur a c := Some (c, l)]> (tlog a) |> <| ack := l' |>).
Proof.
  intros Hv Hr. destruct (vi_leader _ Hv _ Hr) as (T0 & HT0). vi_start Hv; eauto.
  - intros c' lc Hc Hr'. fn_cases; [congruence|eauto].
  - intros t c' T HT. fn_cases; simplify_eq; eauto.
  - intros t c' T HT. fn_cases; [simplify_eq; lia|eauto].
  - intros t c' T HT Hc. fn_cases; simplify_eq; eauto.
  - intros t c' T HT Hc Hr'. fn_cases; simplify_eq; eauto.
  - intros c' Hr'. destruct (Hlead _ Hr') as (T & HT). fn_cases; [|eauto].
    assert (c = c') as <- by congruence. eauto.
Qed.

Lemma accept_votes a i c T m l l' : votes_inv a -> role a i <> Candidate ->
  tlog a (cur a i) = Some (c, T) ->
  (take (S m) (lg a i) = take (S m) T /\ l = lg a i \/
   take (S m) (lg a i) <> take (S m) T /\ l = take (S m) T) ->
  votes_inv (a <| lg := <[i := l]> (lg a) |> <| ack := l' |>).
Proof.
  intros Hv Hr HT Hl. vi_start Hv; eauto.
  - intros c' lc Hc Hr'. fn_cases; [congruence|eauto].
  - intros t c' T' HT' Hc Hr'. fn_cases; [|eauto]. subst i t. simplify_eq.
    specialize (Hll _ _ _ HT eq_refl Hr'). naive_solver.
Qed.

Lemma com_votes a f : votes_inv a -> votes_inv (a <| com := f |>).
Proof. intros Hv. vi_start Hv; eauto. Qed.

Lemma step_votes a a' : votes_inv a -> astep a a' -> votes_inv a'.
Proof.
  intros Hv Hs. inversion Hs; subst;
    eauto using timeout_votes, bump_votes, down_votes, vote_votes, lead_votes, append_votes,
      accept_votes, com_votes.
Qed.

(** ** Preservation: logs *)

Lemma lead_ext a c q :
  votes_inv a -> role a c = Candidate -> vote_quorum q ->
  (forall v, v ∈ q -> voted a v (cur a c) c) ->
  tl_ext (tlog a) (<[cur a c := Some (c, lg a c)]> (tlog a)).
Proof.
  intros Hv Hr Hq Hall t c' T HT. pose proof (lead_fresh a c q Hv Hr Hq Hall). fn_cases; [congruence|eauto].
Qed.

Lemma append_ext a c e : votes_inv a -> role a c = Leader ->
  tl_ext (tlog a) (<[cur a c := Some (c, lg a c ++ [e])]> (tlog a)).
Proof.
  intros Hv Hr t c' T HT. fn_cases; [|eauto]. destruct (vi_leader _ Hv _ Hr) as (T0 & HT0).
  pose proof (vi_leader_log _ Hv _ _ _ HT0 eq_refl Hr). assert (c = c' /\ T = lg a c) as [<- ->] by (split; congruence).
  exists (lg a c ++ [e]). split; [done|]. by apply prefix_app_r.
Qed.

Ltac li_start H := destruct H as [Hs Hm Ht Hcs Hcm Hcte Hts Htm Htt Hack]; constructor; simpl.

Lemma timeout_logs a i : logs_inv a ->
  logs_inv (a <| cur := <[i := cur a i + 1]> (cur a) |> <| role := <[i := Candidate]> (role a) |>
              <| cand := fun c t => if decide (c = i /\ t = cur a i + 1) then Some (lg a i) else cand a c t |>
              <| voted := fun v t c => voted a v t c \/ v = i /\ t = cur a i + 1 /\ c = i |>).
Proof.
  intros Hl. li_start Hl; eauto.
  - intros j. fn_cases; [|done]. subst. apply (terms_le_mono _ (cur a j)); [done|lia].
  - intros c t lc Hc. case_decide; simplify_eq; eauto.
  - intros c t lc Hc. case_decide; simplify_eq; eauto.
  - intros c t lc Hc. case_decide as Hd; [|eauto]. destruct Hd as [-> ->]. simplify_eq.
    by replace (cur a i + 1 - 1) with (cur a i) by lia.
  - intros j t k Ha. destruct (Hack _ _ _ Ha). split; [fn_cases; subst; lia|done].
Qed.

Lemma bump_logs a i t : logs_inv a -> cur a i < t ->
  logs_inv (a <| cur := <[i := t]> (cur a) |> <| role := <[i := Follower]> (role a) |>).
Proof.
  intros Hl Hi. li_start Hl; eauto.
  - intros j. fn_cases; [|done]. subst. apply (terms_le_mono _ (cur a j)); [done|lia].
  - intros j t' k Ha. destruct (Hack _ _ _ Ha). split; [fn_cases; subst; lia|done].
Qed.

Lemma same_logs a f g h : logs_inv a -> logs_inv (a <| role := f |> <| com := g |> <| voted := h |>).
Proof. intros Hl. li_start Hl; eauto. Qed.

(** The leader log of a term grows, or appears. *)
Lemma tlog_logs a c l l' tl : logs_inv a -> tl = <[cur a c := Some (c, l)]> (tlog a) ->
  tl_ext (tlog a) tl -> lg a c `prefix_of` l -> matched tl l -> terms_le l (cur a c) ->
  (l' = lg a \/ l' = <[c := l]> (lg a)) ->
  logs_inv (a <| lg := l' |> <| tlog := tl |>
              <| ack := fun i t k => ack a i t k \/ i = c /\ t = cur a c /\ k = lastIdx l |>).
Proof.
  intros Hl -> Hext Hpre Hml Htl Hl'. assert (starts_dummy l) as Hsl.
  { destruct Hpre as [r ->]. unfold starts_dummy. apply lookup_app_l_Some, (li_start _ Hl). }
  li_start Hl; eauto using matched_ext.
  - intros i. destruct Hl' as [->| ->]; [done|]. fn_cases; done.
  - intros i. destruct Hl' as [->| ->]; [eauto using matched_ext|]. fn_cases; eauto using matched_ext.
  - intros i. destruct Hl' as [->| ->]; [done|]. fn_cases; subst; done.
  - intros t c' T HT. fn_cases; simplify_eq; eauto.
  - intros t c' T HT. fn_cases; simplify_eq; eauto using matched_ext.
  - intros t c' T HT. fn_cases; simplify_eq; eauto.
  - intros i t k [Ha|(-> & -> & ->)].
    + destruct (Hack _ _ _ Ha) as (Hle & c' & T & HT & Hk). split; [done|].
      destruct (Hext _ _ _ HT) as (T' & HT' & Hp%prefix_length). exists c', T'. split; [done|lia].
    + split; [lia|]. exists c, l. rewrite fn_lookup_insert. split; [done|].
      unfold lastIdx. apply lookup_lt_Some in Hsl. lia.
Qed.

Lemma accept_logs a i c T m l : logs_inv a ->
  tlog a (cur a i) = Some (c, T) -> (m < length T)%nat ->
  (l = lg a i \/ l = take (S m) T) ->
  logs_inv (a <| lg := <[i := l]> (lg a) |>
              <| ack := fun j t k => ack a j t k \/ j = i /\ t = cur a i /\ k = m |>).
Proof.
  intros Hl HT Hlen Hc. li_start Hl; eauto.
  - intros j. fn_cases; [|done]. destruct Hc as [->| ->]; [done|].
    apply starts_dummy_take; [by eapply Hts|lia].
  - intros j. fn_cases; [|done]. destruct Hc as [->| ->]; [done|]. eapply matched_prefix, Htm. done.
  - intros j. fn_cases; [|done]. subst j. destruct Hc as [->| ->]; [done|]. eapply terms_le_take, Htt. done.
  - intros j t k [Ha|(-> & -> & ->)]; [eauto|]. split; [lia|eauto].
Qed.

Lemma matched_app a c (cmd : option Cmd) : votes_inv a -> logs_inv a -> role a c = Leader ->
  let l := lg a c ++ [MkLogEntry (cur a c) cmd] in
  matched (<[cur a c := Some (c, l)]> (tlog a)) l.
Proof.
  intros Hv Hl Hr l j e He Hj. apply lookup_app_Some in He as [He|[Hlen He]].
  - destruct (matched_ext _ _ _ (append_ext a c (MkLogEntry (cur a c) cmd) Hv Hr) (li_match _ Hl c) j e He Hj)
      as (c' & T & HT & Hq). exists c', T. split; [done|]. rewrite <-Hq.
    subst l. rewrite take_app_le; [done|]. apply lookup_lt_Some in He. lia.
  - apply list_lookup_singleton_Some in He as [He <-]. simpl. exists c, l.
    by rewrite fn_lookup_insert.
Qed.

Lemma terms_le_app l t (cmd : option Cmd) : terms_le l t -> terms_le (l ++ [MkLogEntry t cmd]) t.
Proof. intros Hl. apply Forall_app. split; [done|]. apply Forall_singleton. simpl. lia. Qed.

Lemma step_logs a a' : votes_inv a -> logs_inv a -> astep a a' -> logs_inv a'.
Proof.
  intros Hv Hl Hs. inversion Hs; subst;
    [by apply timeout_logs|by apply bump_logs|..].
  - exact (same_logs a (<[i := Follower]> (role a)) (com a) (voted a) Hl).
  - apply (same_logs a (role a) (com a) _ Hl).
  - refine (same_logs _ (<[c := Leader]> (role a)) (com a) (voted a)
      (tlog_logs a c (lg a c) (lg a) _ Hl eq_refl _ _ _ (li_terms _ Hl c) (or_introl eq_refl))); [|done|].
    + by eapply lead_ext.
    + eapply matched_ext, (li_match _ Hl). by eapply lead_ext.
  - eapply tlog_logs; eauto using append_ext, matched_app.
    + by apply prefix_app_r.
    + apply terms_le_app, (li_terms _ Hl).
  - eapply accept_logs; eauto. naive_solver.
  - exact (same_logs a (role a) (<[i := c]> (com a)) (voted a) Hl).
  - clear Hs. li_start Hl; eauto.
Qed.

(** ** Preservation: leader completeness and commit indices *)

Lemma terms_sorted a l j j' e e' : logs_inv a -> matched (tlog a) l -> (j <= j')%nat ->
  l !! j = Some e -> l !! j' = Some e' -> Term e <= Term e'.
Proof.
  intros Hl Hm Hj He He'. destruct (decide (j' = 0%nat)) as [->|].
  { replace j with 0%nat in He by lia. simplify_eq. lia. }
  destruct (Hm j' e' He') as (c & T & HT & Heq); [lia|].
  apply (terms_le_lookup T _ j); [by eapply li_tterms|].
  rewrite <-He. symmetry. by apply (take_eq_lookup _ _ (S j')); [lia|].
Qed.

Lemma lookup_lastIdx l : starts_dummy l -> exists e, l !! lastIdx l = Some e /\ lastTerm l = Term e.
Proof.
  intros Hl%lookup_lt_Some. destruct (lookup_lt_is_Some_2 l (lastIdx l)) as [e He]; [unfold lastIdx; lia|].
  exists e. unfold lastTerm. by rewrite He.
Qed.

Lemma take_1_dummy l l' : starts_dummy l -> starts_dummy l' -> take 1 l = take 1 l'.
Proof. intros H1 H2. destruct l, l'; unfold starts_dummy in *; by simplify_eq/=. Qed.

(** An up-to-date candidate holds every choosable entry that the voter
    holds. *)
Lemma up_to_date_holds a lv lc t k T :
  logs_inv a ->
  (forall t' c' T', tlog a t' = Some (c', T') -> t < t' -> take (S k) T' = take (S k) T) ->
  matched (tlog a) lv -> matched (tlog a) lc -> starts_dummy lv -> starts_dummy lc ->
  (exists c, tlog a t = Some (c, T)) -> (exists e, T !! k = Some e /\ Term e = t) ->
  take (S k) lv = take (S k) T -> up_to_date lc lv -> take (S k) lc = take (S k) T.
Proof.
  intros Hl Hci Hmv Hmc Hsv Hsc (cT & HT) (e & He & Het) Hlv Hutd.
  destruct (decide (k = 0%nat)) as [->|Hk].
  { apply take_1_dummy; [done|]. by eapply li_tstart. }
  assert (lv !! k = Some e) as Hke by (rewrite <-He; apply (take_eq_lookup _ _ (S k)); [lia|done]).
  destruct (lookup_lastIdx lv Hsv) as (ev & Hev & Htv). destruct (lookup_lastIdx lc Hsc) as (ec & Hec & Htc).
  assert (k <= lastIdx lv)%nat as Hkl by (apply lookup_lt_Some in Hke; unfold lastIdx; lia).
  assert (t <= lastTerm lv) as Htl by (rewrite Htv, <-Het; by eapply (terms_sorted a lv)).
  destruct Hutd as [Hlt|[Heq Hidx]].
  - assert (0 <= lastTerm lv).
    { rewrite Htv. change 0 with (Term dummy). by eapply (terms_sorted a lv 0); [..|apply Nat.le_0_l| |]. }
    assert (0 < lastIdx lc)%nat as Hpos.
    { destruct (lastIdx lc) eqn:Hz; [|lia]. rewrite Hsc in Hec. simplify_eq/=. lia. }
    destruct (Hmc _ _ Hec Hpos) as (c' & T' & HT' & Htake). rewrite <-Htc in HT'.
    pose proof (Hci _ _ _ HT' ltac:(lia)) as Hle. rewrite <-Hle.
    destruct (decide (k <= lastIdx lc)%nat); [by apply (take_prefix_eq _ _ _ (S (lastIdx lc))); [lia|]|].
    assert (T' !! k = Some e) by (rewrite <-He; apply (take_eq_lookup _ _ (S k)); [lia|done]).
    assert (T' !! lastIdx lc = Some ec) by (rewrite <-Hec; symmetry; apply (take_eq_lookup _ _ (S (lastIdx lc))); [lia|done]).
    assert (Term ec <= Term e); [|lia]. eapply (terms_sorted a T' (lastIdx lc) k); eauto; [by eapply li_tmatch|lia].
  - destruct (Hmc _ _ Hec ltac:(lia)) as (c' & T' & HT' & Htake).
    destruct (Hmv _ _ Hev ltac:(lia)) as (c'' & T'' & HT'' & Htake').
    assert (T'' = T') as -> by congruence.
    rewrite <-Hlv. transitivity (take (S k) T').
    + apply (take_prefix_eq _ _ _ (S (lastIdx lc))); [lia|done].
    + symmetry. apply (take_prefix_eq _ _ _ (S (lastIdx lv))); [lia|done].
Qed.

(** Commitment is stable, and so is what it says about the leader's log. *)
Lemma committed_mono a a' t k T :
  tl_ext (tlog a) (tlog a') -> (forall i t k, ack a i t k -> ack a' i t k) ->
  committed a t k T -> exists T', committed a' t k T' /\ take (S k) T' = take (S k) T.
Proof.
  intros Hext Hack ((c & HT) & (e & He & Het) & q & Hq & Hall).
  destruct (Hext _ _ _ HT) as (T' & HT' & Hp). exists T'. split.
  - split_and!; [eauto|exists e; split; [by eapply prefix_lookup_Some|done]|]. exists q. split; [done|].
    intros i Hi. destruct (Hall i Hi) as (k' & Hk' & Ha). exists k'. auto.
  - apply take_prefix_of; [done|]. apply lookup_lt_Some in He. lia.
Qed.

Definition com_ok (a : Abs) (i : nat) (l : elog) (c : nat) : Prop :=
  (c < length l)%nat /\
  (c = 0%nat \/ exists t k T, t <= cur a i /\ committed a t k T /\ (c <= k)%nat /\ take (S c) l = take (S c) T).

Lemma com_ok_mono a a' i l l' c :
  tl_ext (tlog a) (tlog a') -> (forall i t k, ack a i t k -> ack a' i t k) -> cur a i <= cur a' i ->
  l `prefix_of` l' -> com_ok a i l c -> com_ok a' i l' c.
Proof.
  intros Hext Hack Hcur Hp [Hlen Hc]. split; [apply prefix_length in Hp; lia|].
  destruct Hc as [->|(t & k & T & Ht & Hcom & Hk & Heq)]; [by left|right].
  destruct (committed_mono a a' t k T Hext Hack Hcom) as (T' & Hcom' & HT').
  exists t, k, T'. split_and!; [lia|done|done|].
  rewrite (take_prefix_of l l'), Heq by (done || lia). symmetry.
  apply (take_prefix_eq _ _ _ (S k)); [lia|done].
Qed.

(** The facts of [commit_inv] about one choosable entry. *)
Record entry_inv (a : Abs) (t : Z) (k : nat) (T : elog) : Prop := {
  ei_ack : forall i, ack_ge a i t k -> take (S k) (lg a i) = take (S k) T;
  ei_vote : forall v t' c lc, voted a v t' c -> cand a c t' = Some lc -> t < t' ->
    ack_ge a v t k -> take (S k) lc = take (S k) T;
  ei_lead : forall t' c' T', tlog a t' = Some (c', T') -> t < t' -> take (S k) T' = take (S k) T;
}.

Lemma commit_inv_entry a t k T : commit_inv a -> choosable a t k T -> entry_inv a t k T.
Proof. intros [] Hc. constructor; eauto. Qed.

Lemma entry_inv_commit a :
  (forall t k T, choosable a t k T -> entry_inv a t k T) ->
  (forall i, com_ok a i (lg a i) (com a i)) -> commit_inv a.
Proof.
  intros He Hc. constructor; [| | |exact Hc].
  - intros i t k T Ha Hch. by apply (ei_ack _ _ _ _ (He t k T Hch)).
  - intros v t' c lc t k T H1 H2 H3 H4 Hch. by eapply (ei_vote _ _ _ _ (He t k T Hch)).
  - intros t' c' T' t k T H1 H2 Hch. by eapply (ei_lead _ _ _ _ (He t k T Hch)).
Qed.

(** Steps that change neither logs nor acknowledgements. *)
Lemma quiet_commit a a' : commit_inv a ->
  tlog a' = tlog a -> lg a' = lg a -> ack a' = ack a -> (forall i, cur a i <= cur a' i) ->
  (forall v t c lc, voted a' v t c -> cand a' c t = Some lc -> voted a v t c /\ cand a c t = Some lc \/
    (forall t1 k1 T1, choosable a t1 k1 T1 -> t1 < t -> ack_ge a v t1 k1 -> take (S k1) lc = take (S k1) T1)) ->
  (forall i, com_ok a i (lg a i) (com a' i)) -> commit_inv a'.
Proof.
  intros Hci Htl Hlg Hack Hcur Hvote Hcom. apply entry_inv_commit.
  - intros t k T Hch. assert (choosable a t k T) as Hch0.
    { destruct Hch as (HT & He & ?). eapply (choosable_back a a' t k T T); eauto; [rewrite Hack; auto|by rewrite <-Htl|by split_and!]. }
    pose proof (commit_inv_entry _ _ _ _ Hci Hch0) as [Ha Hv Hl]. unfold ack_ge in *.
    constructor; unfold ack_ge; rewrite ?Hlg, ?Htl, ?Hack; [done| |done].
    intros v t' c lc Hvo Hc Ht Hk. destruct (Hvote _ _ _ _ Hvo Hc) as [[? ?]|Hnew]; [eauto|]. by apply (Hnew t k T).
  - intros i. rewrite Hlg. eapply com_ok_mono; [..|exact (Hcom i)]; rewrite ?Htl, ?Hack; auto using tl_ext_refl.
Qed.

Lemma vote_commit a v c lc : logs_inv a -> commit_inv a -> cand a c (cur a v) = Some lc ->
  up_to_date lc (lg a v) ->
  commit_inv (a <| voted := fun v' t c' => voted a v' t c' \/ v' = v /\ t = cur a v /\ c' = c |>).
Proof.
  intros Hl Hci Hc Hutd. apply (quiet_commit a); simpl; auto; [lia| |apply (ci_com _ Hci)].
  intros v' t c' lc' [Hvo|(-> & -> & ->)] Hc'; [by left|right]. simplify_eq. intros t1 k1 T1 Hch Ht Hk.
  pose proof (commit_inv_entry _ _ _ _ Hci Hch) as [Ha Hv Hle]. destruct Hch as (HT & He & _).
  apply (up_to_date_holds a (lg a v) lc t1 k1 T1); auto;
    [apply (li_match _ Hl)|by eapply li_cmatch|apply (li_start _ Hl)|by eapply li_cstart].
Qed.

Lemma timeout_commit a i : votes_inv a -> commit_inv a ->
  commit_inv (a <| cur := <[i := cur a i + 1]> (cur a) |> <| role := <[i := Candidate]> (role a) |>
    <| cand := fun c t => if decide (c = i /\ t = cur a i + 1) then Some (lg a i) else cand a c t |>
    <| voted := fun v t c => voted a v t c \/ v = i /\ t = cur a i + 1 /\ c = i |>).
Proof.
  intros Hv Hci. apply (quiet_commit a); simpl; auto; [..|apply (ci_com _ Hci)].
  - intros j. fn_cases; [subst|]; lia.
  - intros v t c lc [Hvo|(-> & -> & ->)] Hc.
    + left. split; [done|]. case_decide as Hd; [|done]. destruct Hd as [-> ->]. exfalso.
      destruct (vi_cand _ Hv _ _ _ Hvo) as (lc' & Hlc). pose proof (vi_cand_term _ Hv _ _ _ Hlc). lia.
    + right. rewrite decide_True in Hc by done. simplify_eq. intros t1 k1 T1 Hch _ Hk.
      by apply (ci_ack _ Hci i t1 k1).
Qed.

Lemma bump_commit a i t : commit_inv a -> cur a i < t ->
  commit_inv (a <| cur := <[i := t]> (cur a) |> <| role := <[i := Follower]> (role a) |>).
Proof.
  intros Hci Hi. apply (quiet_commit a); simpl; auto; [|apply (ci_com _ Hci)].
  intros j. fn_cases; [subst|]; lia.
Qed.

Lemma down_commit a f : commit_inv a -> commit_inv (a <| role := f |>).
Proof. intros Hci. apply (quiet_commit a); simpl; auto; [lia|apply (ci_com _ Hci)]. Qed.

Lemma com_commit a f i c : commit_inv a -> com_ok a i (lg a i) c ->
  commit_inv (a <| role := f |> <| com := <[i := c]> (com a) |>).
Proof.
  intros Hci Hc. apply (quiet_commit a); simpl; auto; [lia|].
  intros j. fn_cases; [by subst|apply (ci_com _ Hci)].
Qed.

Lemma com_ok_le a i l c c' : com_ok a i l c -> (c' <= c)%nat -> com_ok a i l c'.
Proof.
  intros [Hlen Hc] Hle. split; [lia|]. destruct (decide (c' = 0%nat)); [by left|right].
  destruct Hc as [->|(t & k & T & Ht & Hcom & Hk & Heq)]; [lia|].
  exists t, k, T. split_and!; auto; [lia|]. apply (take_prefix_eq _ _ _ (S c)); [lia|done].
Qed.

(** The first log of a leader holds every choosable entry. *)
Lemma lead_commit a c q : votes_inv a -> logs_inv a -> commit_inv a ->
  role a c = Candidate -> vote_quorum q -> (forall v, v ∈ q -> voted a v (cur a c) c) ->
  commit_inv (a <| role := <[c := Leader]> (role a) |>
    <| tlog := <[cur a c := Some (c, lg a c)]> (tlog a) |>
    <| ack := fun i t k => ack a i t k \/ i = c /\ t = cur a c /\ k = lastIdx (lg a c) |>).
Proof.
  intros Hv Hl Hci Hr Hq Hall. pose proof (lead_cand a c q Hv Hr Hq Hall) as Hcand.
  apply entry_inv_commit; simpl.
  - intros t k T Hch. assert (t <> cur a c) as Hne.
    { intros ->. destruct Hch as ((c' & HT) & (e & He & Het) & _). simpl in HT.
      rewrite fn_lookup_insert in HT. simplify_eq.
      pose proof (terms_le_lookup _ _ _ _ (li_cterms _ Hl _ _ _ Hcand) He). lia. }
    assert (choosable a t k T) as Hch0.
    { pose proof Hch as ((c' & HT) & He & _). simpl in HT. rewrite fn_lookup_insert_ne in HT by done.
      apply (choosable_back a) with (5 := Hch); simpl; [lia| |eauto|done].
      intros i k' [Ha|(-> & -> & ->)]; [by left|done]. }
    pose proof (commit_inv_entry _ _ _ _ Hci Hch0) as [Ha Hvo Hle].
    assert (forall i, ack_ge (a <| ack := fun i t k => ack a i t k \/ i = c /\ t = cur a c /\ k = lastIdx (lg a c) |>) i t k -> ack_ge a i t k) as Hk.
    { intros i (k' & Hk & [Hk'|(-> & -> & ->)]); [by exists k'|done]. }
    constructor; simpl; [intros i Hi; by apply Ha, Hk|intros v t' c' lc Hvt Hlc Ht Hi; eapply Hvo; eauto|].
    intros t' c' T' HT' Ht. fn_cases; [|by eapply Hle]. simplify_eq.
    destruct Hch0 as (_ & _ & q2 & Hq2 & Hall2).
    destruct (vote_ack_intersect q q2) as (i & Hi1 & Hi2); [done..|].
    pose proof (vi_term _ Hv _ _ _ (Hall i Hi1)). destruct (Hall2 i Hi2); [|lia].
    eapply Hvo; eauto.
  - intros i. eapply com_ok_mono; [..|apply (ci_com _ Hci)]; simpl; auto; [by eapply lead_ext|lia].
Qed.

(** Appending to the leader's log: the new entry cannot be committed behind
    the back of a later leader. *)
Lemma append_entry a c (cmd : option Cmd) t k T : votes_inv a -> logs_inv a -> role a c = Leader ->
  let l := lg a c ++ [MkLogEntry (cur a c) cmd] in
  choosable (a <| lg := <[c := l]> (lg a) |> <| tlog := <[cur a c := Some (c, l)]> (tlog a) |>
    <| ack := fun i t k => ack a i t k \/ i = c /\ t = cur a c /\ k = lastIdx l |>) t k T ->
  (exists T0, choosable a t k T0 /\ take (S k) T = take (S k) T0 /\ (t = cur a c -> T = l)) \/
  t = cur a c /\ k = length (lg a c) /\ T = l /\ forall t' c' T', tlog a t' = Some (c', T') -> t' <= t.
Proof.
  intros Hv Hl Hr l Hch. destruct (vi_leader _ Hv _ Hr) as (T0 & HT0).
  pose proof (vi_leader_log _ Hv _ _ _ HT0 eq_refl Hr). subst T0.
  pose proof Hch as ((c' & HT) & (e & He & Het) & q & Hq & Hall). simpl in HT, Hall.
  destruct (decide (t = cur a c)) as [->|Hne].
  - rewrite fn_lookup_insert in HT. simplify_eq.
    destruct (decide (k < length (lg a c'))%nat) as [Hk|Hk].
    + left. exists (lg a c'). assert (lg a c' !! k = Some e) as He' by by rewrite lookup_app_l in He by done.
      split_and!; [|rewrite take_app_le by lia; done|done].
      apply (choosable_back a) with (5 := Hch); simpl; [lia| |eauto|eauto].
      intros i k' [Ha|(-> & _ & _)]; [by left|right; lia].
    + right. assert (k = length (lg a c')) as ->.
      { apply lookup_lt_Some in He. rewrite length_app in He. simpl in He. lia. }
      split_and!; [done..|]. intros t' c2 T' HT'. apply Znot_gt_le. intros Hgt.
      destruct (vi_elected _ Hv _ _ _ HT') as (q2 & Hq2 & Hall2).
      destruct (vote_ack_intersect q2 q) as (i & Hi2 & Hi); [done..|].
      pose proof (vi_term _ Hv _ _ _ (Hall2 i Hi2)).
      destruct (Hall i Hi) as [(k' & Hk' & [Ha|(-> & _ & _)])|?]; [|lia..].
      destruct (li_ack _ Hl _ _ _ Ha) as (_ & c3 & T3 & HT3 & Hlt). assert (T3 = lg a c') as -> by congruence. lia.
  - left. rewrite fn_lookup_insert_ne in HT by done. exists T. split_and!; [|done|done].
    apply (choosable_back a) with (5 := Hch); simpl; [lia| |eauto|eauto].
    intros i k' [Ha|(-> & -> & _)]; [by left|done].
Qed.

Lemma append_commit a c (cmd : option Cmd) : votes_inv a -> logs_inv a -> commit_inv a -> role a c = Leader ->
  let l := lg a c ++ [MkLogEntry (cur a c) cmd] in
  commit_inv (a <| lg := <[c := l]> (lg a) |> <| tlog := <[cur a c := Some (c, l)]> (tlog a) |>
    <| ack := fun i t k => ack a i t k \/ i = c /\ t = cur a c /\ k = lastIdx l |>).
Proof.
  intros Hv Hl Hci Hr l. pose proof (append_ext a c (MkLogEntry (cur a c) cmd) Hv Hr) as Hext.
  destruct (vi_leader _ Hv _ Hr) as (T0 & HT0).
  pose proof (vi_leader_log _ Hv _ _ _ HT0 eq_refl Hr). subst T0.
  apply entry_inv_commit.
  - intros t k T Hch. destruct (append_entry a c cmd t k T Hv Hl Hr Hch) as [(T0 & Hch0 & HTk & Htl)|(-> & -> & -> & Hlast)].
    + destruct (commit_inv_entry _ _ _ _ Hci Hch0) as [Ha Hvo Hle]. destruct Hch0 as ((cT & HT) & (e & He & Het) & _).
      apply lookup_lt_Some in He. constructor; simpl.
      * intros i (k' & Hk & Hi). fn_cases; [|rewrite HTk; apply Ha; exists k'; naive_solver]. subst i.
        destruct (decide (t = cur a c)) as [Et|]; [by rewrite (Htl Et)|]. subst l.
        assert (take (S k) (lg a c) = take (S k) T0) as Heq by (apply Ha; exists k'; naive_solver).
        rewrite HTk, take_app_le; [done|]. apply (take_eq_length _ T0); [done|lia].
      * intros v t' c' lc Hvt Hc Ht (k' & Hk & [Hi|(-> & -> & _)]); [rewrite HTk; eapply Hvo; eauto; by exists k'|].
        pose proof (vi_term _ Hv _ _ _ Hvt). lia.
      * intros t' c' T' HT' Ht. rewrite HTk. fn_cases; [|by eapply Hle]. simplify_eq.
        pose proof (Hle _ _ _ HT0 Ht) as Heq. rewrite take_app_le; [done|]. apply (take_eq_length _ T0); [done|lia].
    + constructor; simpl.
      * intros i (k' & Hk & [Hi|(-> & _ & _)]); [|by rewrite fn_lookup_insert].
        destruct (li_ack _ Hl _ _ _ Hi) as (_ & c3 & T3 & HT3 & Hlt). assert (T3 = lg a c) as -> by congruence. lia.
      * intros v t' c' lc Hvt Hc Ht (k' & Hk & [Hi|(-> & _ & _)]).
        -- destruct (li_ack _ Hl _ _ _ Hi) as (_ & c3 & T3 & HT3 & Hlt). assert (T3 = lg a c) as -> by congruence. lia.
        -- pose proof (vi_term _ Hv _ _ _ Hvt). lia.
      * intros t' c' T' HT' Ht. rewrite fn_lookup_insert_ne in HT' by lia. specialize (Hlast _ _ _ HT'). lia.
  - intros i. eapply com_ok_mono; [..|apply (ci_com _ Hci)]; simpl; auto; [lia|].
    fn_cases; [subst i l; by apply prefix_app_r|done].
Qed.

(** A follower that takes over (a prefix of) its leader's log keeps all that
    it shares with that log. *)
Lemma accept_keeps (lo l T : elog) (m k : nat) :
  (take (S m) lo = take (S m) T /\ l = lo \/ take (S m) lo <> take (S m) T /\ l = take (S m) T) ->
  take (S k) lo = take (S k) T \/ (k <= m)%nat -> take (S k) l = take (S k) T.
Proof.
  intros [[Hm ->]|[Hm ->]] Hk.
  - destruct Hk as [Hk|Hk]; [done|]. by apply (take_prefix_eq _ _ _ (S m)); [lia|].
  - rewrite take_take. destruct (decide (k <= m)%nat); [by rewrite Nat.min_l by lia|].
    destruct Hk as [Hk|Hk]; [|lia]. exfalso. apply Hm, (take_prefix_eq _ _ _ (S k)); [lia|done].
Qed.

Lemma accept_commit a i c T m l : votes_inv a -> logs_inv a -> commit_inv a ->
  tlog a (cur a i) = Some (c, T) -> (m < length T)%nat ->
  (take (S m) (lg a i) = take (S m) T /\ l = lg a i \/ take (S m) (lg a i) <> take (S m) T /\ l = take (S m) T) ->
  commit_inv (a <| lg := <[i := l]> (lg a) |>
    <| ack := fun j t k => ack a j t k \/ j = i /\ t = cur a i /\ k = m |>).
Proof.
  intros Hv Hl Hci HT Hm Hacc.
  assert (forall t k T1, choosable a t k T1 -> t <= cur a i -> take (S k) T = take (S k) T1) as Hsame.
  { intros t k T1 Hch Ht. destruct (decide (t = cur a i)) as [->|].
    - destruct Hch as ((c1 & HT1) & _). by assert (T1 = T) as -> by congruence.
    - eapply (ei_lead _ _ _ _ (commit_inv_entry _ _ _ _ Hci Hch)); [done|lia]. }
  apply entry_inv_commit; simpl.
  - intros t k T1 Hch. assert (choosable a t k T1) as Hch0.
    { pose proof Hch as (HT1 & He & _). apply (choosable_back a) with (5 := Hch); simpl; [lia| |done|done].
      intros j k' [Ha|(-> & -> & _)]; [by left|right; lia]. }
    destruct (commit_inv_entry _ _ _ _ Hci Hch0) as [Ha Hvo Hle]. constructor; simpl; [| |done].
    + intros j (k' & Hk & Hj). fn_cases; [|apply Ha; exists k'; naive_solver]. subst j.
      assert (t <= cur a i) as Ht by (destruct Hj as [Hj|(_ & -> & _)]; [by apply (li_ack _ Hl) in Hj as [? _]|lia]).
      rewrite <-(Hsame _ _ _ Hch0 Ht). apply (accept_keeps (lg a i) l T m); [done|].
      destruct Hj as [Hj|(_ & -> & ->)]; [left|by right].
      rewrite (Hsame _ _ _ Hch0 Ht). apply Ha. by exists k'.
    + intros v t' c' lc Hvt Hc Ht (k' & Hk & [Hi|(-> & -> & _)]); [eapply Hvo; eauto; by exists k'|].
      pose proof (vi_term _ Hv _ _ _ Hvt). lia.
  - intros j. fn_cases; [subst j|apply (com_ok_mono a _ j (lg a j)); simpl; auto using tl_ext_refl; [lia|apply (ci_com _ Hci)]].
    apply (com_ok_mono (a <| lg := <[i := l]> (lg a) |>) _ i l l); simpl; auto using tl_ext_refl; [lia|].
    destruct (ci_com _ Hci i) as [Hlen Hc]. destruct Hc as [H0|(t & k & T1 & Ht & Hcom & Hk & Heq)].
    + split; [|by left]. destruct Hacc as [[_ ->]|[_ ->]]; [done|]. rewrite length_take. lia.
    + assert (take (S (com a i)) T = take (S (com a i)) T1) as HTT.
      { apply (take_prefix_eq _ _ _ (S k)); [lia|]. apply (Hsame t); [by apply committed_choosable|done]. }
      assert (take (S (com a i)) l = take (S (com a i)) T1) as HlT.
      { rewrite <-HTT. apply (accept_keeps (lg a i) l T m); [done|]. left. congruence. }
      split; [|right; exists t, k, T1; by split_and!].
      apply (take_eq_length l (lg a i)); [congruence|lia].
Qed.

Lemma step_commit a a' : votes_inv a -> logs_inv a -> commit_inv a -> astep a a' -> commit_inv a'.
Proof.
  intros Hv Hl Hci Hs. destruct Hs;
    eauto using timeout_commit, bump_commit, down_commit, vote_commit, lead_commit, append_commit, accept_commit.
  - apply (com_commit a (role a)); [done|]. split; [done|]. right. eauto 10.
  - apply com_commit; [done|]. eapply com_ok_le; [apply (ci_com _ Hci)|done].
Qed.

Lemma a_init_inv : a_inv a_init.
Proof.
  constructor; constructor; simpl; try done.
  - intros i j e He Hj. destruct j; [lia|done].
  - intros i. apply Forall_singleton. simpl. lia.
  - intros i t k T (k' & _ & []).
  - intros i. split; [lia|by left].
Qed.

(** Every state that the abstract protocol reaches satisfies the invariant. *)
Lemma a_reachable_inv a : a_reachable a -> a_inv a.
Proof.
  intros Hr. refine (rtc_ind_r a_inv a_init a_init_inv _ a Hr).
  intros a1 a2 _ Hs [Hv Hl Hci]. constructor; [by eapply step_votes|by eapply step_logs|by eapply step_commit].
Qed.

(** ** What the invariant gives *)

Lemma inv_one_leader a i j : a_inv a -> role a i = Leader -> role a j = Leader -> cur a i = cur a j -> i = j.
Proof.
  intros [Hv _ _] Hi Hj Hc. destruct (vi_leader _ Hv _ Hi) as (T & HT). destruct (vi_leader _ Hv _ Hj) as (T' & HT').
  congruence.
Qed.

Lemma inv_log_matching a i j k e e' : a_inv a -> lg a i !! k = Some e -> lg a j !! k = Some e' ->
  Term e = Term e' -> take (S k) (lg a i) = take (S k) (lg a j).
Proof.
  intros [_ Hl _]. apply (log_matching (tlog a)); apply (li_match _ Hl) || apply (li_start _ Hl).
Qed.

(** Two committed entries, of whatever terms: the leader logs agree up to the
    lower one. *)
Lemma inv_committed_agree a t1 k1 T1 t2 k2 T2 : a_inv a ->
  committed a t1 k1 T1 -> committed a t2 k2 T2 -> take (S (k1 `min` k2)) T1 = take (S (k1 `min` k2)) T2.
Proof.
  intros [_ _ Hci] H1 H2.
  pose proof (commit_inv_entry _ _ _ _ Hci (committed_choosable _ _ _ _ H1)) as E1.
  pose proof (commit_inv_entry _ _ _ _ Hci (committed_choosable _ _ _ _ H2)) as E2.
  destruct H1 as ((c1 & HT1) & _), H2 as ((c2 & HT2) & _).
  destruct (Z.lt_trichotomy t1 t2) as [Hlt|[->|Hlt]].
  - symmetry. apply (take_prefix_eq _ _ _ (S k1)); [lia|]. by eapply (ei_lead _ _ _ _ E1).
  - by assert (T1 = T2) as -> by congruence.
  - apply (take_prefix_eq _ _ _ (S k2)); [lia|]. by eapply (ei_lead _ _ _ _ E2).
Qed.

(** A leader's log contains everything committed in an earlier term. *)
Lemma inv_leader_complete a i t k T : a_inv a -> role a i = Leader -> committed a t k T -> t < cur a i ->
  take (S k) (lg a i) = take (S k) T.
Proof.
  intros [Hv _ Hci] Hr Hc Ht. destruct (vi_leader _ Hv _ Hr) as (Ti & HTi).
  rewrite (vi_leader_log _ Hv _ _ _ HTi eq_refl Hr).
  by eapply (ei_lead _ _ _ _ (commit_inv_entry _ _ _ _ Hci (committed_choosable _ _ _ _ Hc))).
Qed.

End Spec.
