(* ===== verification/RaftCluster.v ===== *)
(** * A cluster of Raft peers (src/raft1/raft.go: the goroutines and RPCs)

    The peers of Raft.v, the goroutines that wait for votes, the network and
    the apply channels, as one executable state machine.  A label picks
    which goroutine runs next, up to its next release of the mutex.  The
    network only grows: a message can be delivered late, out of order, many
    times or never, which covers everything labrpc does to it.  A reply of
    [false] from [Call] leaves the caller's state as it is, so it has no
    label of its own.  A crash loses everything but the Persister. *)

From S2P Require Import Prelude Persister Raft.

Section Cluster.
Context {Cmd : Type} `{GZ : Gob Z} `{GL : Gob (list (LogEntry Cmd))}.

(** ** State *)

(** The goroutines of one run of startElection: the captured [term], the
    shared counter [votes], and the peers whose reply is still out. *)
Record Election : Type := MkElection { el_term : Z; el_votes : nat; el_waiting : list nat }.

Record Proc : Type := MkProc { raft : Raft Cmd; elections : list Election }.

(** Requests and replies, with the caller and the callee; a reply carries the
    arguments its goroutine still holds. *)
Inductive Msg : Type :=
| VoteReq (i j : nat) (args : RequestVoteArgs)
| VoteRep (i j : nat) (args : RequestVoteArgs) (reply : RequestVoteReply)
| AppendReq (i j : nat) (args : AppendEntriesArgs Cmd)
| AppendRep (i j : nat) (args : AppendEntriesArgs Cmd) (reply : AppendEntriesReply)
| SnapReq (i j : nat) (args : InstallSnapshotArgs)
| SnapRep (i j : nat) (args : InstallSnapshotArgs) (reply : InstallSnapshotReply).

Record Cluster : Type := MkCluster {
  procs : list Proc;
  net : list Msg;
  delivered : list (nat * ApplyMsg Cmd);   (* what went to the apply channels *)
}.

Inductive Label : Type :=
| LElection (i : nat) (now : Z)
| LVoteRequest (i e j : nat)
| LVote (k : nat) (now : Z)
| LVoteReply (e k : nat) (now : Z)
| LReplicate (i j : nat)
| LAppend (k : nat) (now : Z)
| LAppendReply (k : nat)
| LSnap (k : nat) (now : Z)
| LSnapReply (k : nat)
| LStart (i : nat) (cmd : Cmd)
| LSnapshot (i : nat) (index : Z) (snap : bytes)
| LApply (i : nat)
| LRestart (i : nat) (now : Z).

(** [Disabled]: there is no such goroutine or message.  [Panic]: a handler
    indexed out of range or failed to decode its state. *)
Inductive Outcome : Type := Disabled | Panic | Next (s : Cluster).

(** ** Steps *)

Definition others_of (n i : nat) : list nat := filter (fun j => j <> i) (seq 0 n).

(** Replace peer [i], send messages, deliver to the service. *)
Definition update (s : Cluster) (i : nat) (p : Proc) (ms : list Msg) (ds : list (ApplyMsg Cmd)) : Cluster :=
  MkCluster (<[i := p]> (procs s)) (net s ++ ms) (delivered s ++ ((fun d => (i, d)) <$> ds)).

Definition with_raft (p : Proc) (rf : Raft Cmd) : Proc := MkProc rf (elections p).

(** Run [f] on peer [i], if there is one. *)
Definition at_proc (s : Cluster) (i : nat) (f : Proc -> Outcome) : Outcome :=
  match procs s !! i with Some p => f p | None => Disabled end.

Definition or_panic {A} (x : option A) (f : A -> Outcome) : Outcome :=
  match x with Some a => f a | None => Panic end.

Definition exec (s : Cluster) (l : Label) : Outcome :=
  match l with
  | LElection i now =>
      at_proc s i (fun p =>
        let '(rf, term) := startElection (raft p) now in
        Next (update s i (MkProc rf (elections p ++ [MkElection term 1 (others_of (npeers rf) i)])) [] []))
  | LVoteRequest i e j =>
      at_proc s i (fun p =>
        match elections p !! e with
        | Some el =>
            if bool_decide (j ∈ el_waiting el) then
              or_panic (voteRequest (raft p) (el_term el)) (fun r =>
                match r with
                | Some args => Next (update s i p [VoteReq i j args] [])
                | None =>
                    let el' := MkElection (el_term el) (el_votes el) (filter (fun x => x <> j) (el_waiting el)) in
                    Next (update s i (MkProc (raft p) (<[e := el']> (elections p))) [] [])
                end)
            else Disabled
        | None => Disabled
        end)
  | LVote k now =>
      match net s !! k with
      | Some (VoteReq i j args) =>
          at_proc s j (fun p =>
            or_panic (RequestVote (raft p) args now) (fun '(rf, reply) =>
              Next (update s j (with_raft p rf) [VoteRep i j args reply] [])))
      | _ => Disabled
      end
  | LVoteReply e k now =>
      match net s !! k with
      | Some (VoteRep i j args reply) =>
          at_proc s i (fun p =>
            match elections p !! e with
            | Some el =>
                if bool_decide (j ∈ el_waiting el) && (rv_Term args =? el_term el) then
                  or_panic (voteReply (raft p) (el_term el) (el_votes el) reply now) (fun '(rf, votes) =>
                    let el' := MkElection (el_term el) votes (filter (fun x => x <> j) (el_waiting el)) in
                    Next (update s i (MkProc rf (<[e := el']> (elections p))) [] []))
                else Disabled
            | None => Disabled
            end)
      | _ => Disabled
      end
  | LReplicate i j =>
      at_proc s i (fun p =>
        if bool_decide (j ∈ others_of (npeers (raft p)) i) then
          or_panic (replicateOnce (raft p) j) (fun r =>
            match r with
            | SendNothing => Next s
            | SendSnapshot args => Next (update s i p [SnapReq i j args] [])
            | SendEntries args => Next (update s i p [AppendReq i j args] [])
            end)
        else Disabled)
  | LAppend k now =>
      match net s !! k with
      | Some (AppendReq i j args) =>
          at_proc s j (fun p =>
            or_panic (AppendEntries (raft p) args now) (fun '(rf, reply) =>
              Next (update s j (with_raft p rf) [AppendRep i j args reply] [])))
      | _ => Disabled
      end
  | LAppendReply k =>
      match net s !! k with
      | Some (AppendRep i j args reply) =>
          at_proc s i (fun p =>
            or_panic (appendReply (raft p) j args true reply) (fun rf =>
              Next (update s i (with_raft p rf) [] [])))
      | _ => Disabled
      end
  | LSnap k now =>
      match net s !! k with
      | Some (SnapReq i j args) =>
          at_proc s j (fun p =>
            or_panic (InstallSnapshot (raft p) args now) (fun '(rf, reply) =>
              Next (update s j (with_raft p rf) [SnapRep i j args reply] [])))
      | _ => Disabled
      end
  | LSnapReply k =>
      match net s !! k with
      | Some (SnapRep i j args reply) =>
          at_proc s i (fun p =>
            or_panic (snapshotReply (raft p) j args true reply) (fun rf =>
              Next (update s i (with_raft p rf) [] [])))
      | _ => Disabled
      end
  | LStart i cmd =>
      at_proc s i (fun p =>
        or_panic (Start (raft p) cmd) (fun '(rf, _) => Next (update s i (with_raft p rf) [] [])))
  | LSnapshot i index snap =>
      at_proc s i (fun p =>
        or_panic (Snapshot (raft p) index snap) (fun rf => Next (update s i (with_raft p rf) [] [])))
  | LApply i =>
      at_proc s i (fun p =>
        or_panic (applier (raft p)) (fun r =>
          match r with
          | None => Disabled
          | Some (rf, msg) => Next (update s i (with_raft p rf) [] [msg])
          end))
  | LRestart i now =>
      at_proc s i (fun p =>
        or_panic (Make (npeers (raft p)) i (persister (raft p)) now) (fun rf =>
          Next (update s i (MkProc rf []) [] [])))
  end.

Lemma at_proc_Next s i f s' : at_proc s i f = Next s' -> exists p, procs s !! i = Some p /\ f p = Next s'.
Proof. unfold at_proc. intros H. destruct (procs s !! i) as [p|]; [|done]. by exists p. Qed.

(** A cluster of [n] peers that start with empty storage. *)
Definition init_proc (n i : nat) : option Proc :=
  rf ← Make n i MakePersister 0; Some (MkProc rf []).

Definition init_cluster (n : nat) : option Cluster :=
  ps ← mapM (init_proc n) (seq 0 n); Some (MkCluster ps [] []).

(** A run, stopped by a panic; a label that is not enabled is skipped. *)
Fixpoint run (s : Cluster) (ls : list Label) : Outcome :=
  match ls with
  | [] => Next s
  | l :: ls =>
      match exec s l with
      | Disabled => run s ls
      | Panic => Panic
      | Next s' => run s' ls
      end
  end.

Definition start_run (n : nat) (ls : list Label) : Outcome :=
  match init_cluster n with Some s => run s ls | None => Panic end.

End Cluster.

Arguments Proc : clear implicits.
Arguments Msg : clear implicits.
Arguments Cluster : clear implicits.
Arguments Label : clear implicits.
Arguments Outcome : clear implicits.
