(* ===== verification/RaftRefine.v ===== *)
(** * The Raft cluster implements the abstract protocol

    A forward simulation from the cluster of RaftCluster.v (the code) to the
    protocol of RaftSpec.v.  The coupling of a state of the cluster with an
    abstract state restores the log that snapshots have compacted and says
    of every message in the network, whenever it was sent, which abstract
    event it records; those facts only refer to parts of the abstract state
    that never shrink, so that they survive every later step. *)

From stdpp Require Import functions.
From S2P Require Import Prelude Persister Raft RaftNode Quorum RaftSpec RaftCluster.

Section Refine.
Context {Cmd : Type} `{GZ : Gob Z} `{GL : Gob (list (LogEntry Cmd))} (n : nat).
Abbreviation abs := (@Abs Cmd).
Abbreviation elog := (list (LogEntry Cmd)).
Implicit Types (a : abs) (rf : Raft Cmd) (p : Proc Cmd).

(** ** The abstract state only grows *)

Record a_le a a' : Prop := {
  le_cur : forall i, cur a i <= cur a' i;
  le_cand : forall c t lc, cand a c t = Some lc -> cand a' c t = Some lc;
  le_voted : forall v t c, voted a v t c -> voted a' v t c;
  le_tlog : tl_ext (tlog a) (tlog a');
  le_ack : forall i t k, ack a i t k -> ack a' i t k;
}.

(** All but peer [i] stay as they are. *)
Definition frame (i : nat) a a' : Prop := forall j, j <> i ->
  cur a' j = cur a j /\ role a' j = role a j /\ lg a' j = lg a j /\ com a' j = com a j /\
  forall t c, voted a' j t c -> voted a j t c.

(** Peer [i] takes some abstract steps. *)
Record moves (i : nat) a a' : Prop := {
  mv_steps : rtc (astep n) a a';
  mv_inv : a_inv n a';
  mv_le : a_le a a';
  mv_frame : frame i a a';
}.

Lemma tl_ext_trans (tl1 tl2 tl3 : Z -> option (nat * elog)) :
  tl_ext tl1 tl2 -> tl_ext tl2 tl3 -> tl_ext tl1 tl3.
Proof.
  intros H1 H2 t c T HT. destruct (H1 _ _ _ HT) as (T2 & HT2 & Hp2).
  destruct (H2 _ _ _ HT2) as (T3 & HT3 & Hp3). exists T3. split; [done|]. by etrans.
Qed.

#[local] Instance a_le_preorder : PreOrder a_le.
Proof.
  split; [intros a; constructor; auto using tl_ext_refl; lia|].
  intros a1 a2 a3 [C1 D1 V1 T1 K1] [C2 D2 V2 T2 K2].
  constructor; eauto using tl_ext_trans. intros i. specialize (C1 i). specialize (C2 i). lia.
Qed.

Lemma step_le a a' : a_inv n a -> astep n a a' -> a_le a a'.
Proof.
  intros [Hv Hl Hci] Hs.
  destruct Hs as [i Hi|i t Hi Ht|i|v c lc|c q Hc Hr Hq Hall|c cmd Hc Hr l| | |]; constructor; simpl; auto using tl_ext_refl; try lia.
  - intros j. destruct (decide (i = j)) as [->|]; rewrite ?fn_lookup_insert, ?fn_lookup_insert_ne by done; lia.
  - intros c t lc Hc. case_decide as Hd; [|done]. destruct Hd as [-> ->]. exfalso.
    pose proof (vi_cand_term _ _ Hv _ _ _ Hc). lia.
  - intros j. destruct (decide (i = j)) as [->|]; rewrite ?fn_lookup_insert, ?fn_lookup_insert_ne by done; lia.
  - by eapply lead_ext.
  - by apply (append_ext n).
Qed.

Lemma step_inv a a' : a_inv n a -> astep n a a' -> a_inv n a'.
Proof.
  intros [Hv Hl Hci] Hs.
  constructor; [by eapply step_votes|by eapply step_logs|by eapply step_commit].
Qed.

Lemma moves_refl i a : a_inv n a -> moves i a a.
Proof. intros. constructor; [done|done|reflexivity|]. intros j _. auto 10. Qed.

Lemma moves_step i a a' : a_inv n a -> astep n a a' -> frame i a a' -> moves i a a'.
Proof. intros. constructor; [by apply rtc_once|by eapply step_inv|by apply step_le|done]. Qed.

Lemma moves_trans i a1 a2 a3 : moves i a1 a2 -> moves i a2 a3 -> moves i a1 a3.
Proof.
  intros [S1 I1 L1 F1] [S2 I2 L2 F2]. constructor; [by etrans|done|by etrans|].
  intros j Hj. destruct (F1 j Hj) as (? & ? & ? & ? & ?), (F2 j Hj) as (? & ? & ? & ? & ?).
  split_and!; try congruence. auto.
Qed.

Ltac frame_tac := intros ? ?; simpl; rewrite ?fn_lookup_insert_ne by done; split_and!; auto; naive_solver.

(** What was known about committed entries stays known. *)
Lemma a_le_committed a a' t k T : a_le a a' -> committed n a t k T ->
  exists T', committed n a' t k T' /\ take (S k) T' = take (S k) T.
Proof. intros Hle. apply committed_mono; apply Hle. Qed.

Lemma a_le_ack_ge a a' i t k : a_le a a' -> ack_ge a i t k -> ack_ge a' i t k.
Proof. intros Hle (k' & Hk & Ha). exists k'. split; [done|]. by apply Hle. Qed.

(** Index [c] of the log [T] is committed, by some term up to [t]. *)
Definition com_fact a (t : Z) (T : elog) (c : nat) : Prop :=
  c = 0%nat \/ exists t' k T', t' <= t /\ committed n a t' k T' /\ (c <= k)%nat /\ take (S c) T = take (S c) T'.

Lemma com_fact_mono a a' t T T' c :
  a_le a a' -> take (S c) T' = take (S c) T -> com_fact a t T c -> com_fact a' t T' c.
Proof.
  intros Hle HT [->|(t' & k & T1 & Ht & Hc & Hk & Heq)]; [by left|right].
  destruct (a_le_committed _ _ _ _ _ Hle Hc) as (T2 & Hc2 & HT2). exists t', k, T2. split_and!; auto.
  rewrite HT, Heq. symmetry. apply (take_prefix_eq _ _ _ (S k)); [lia|done].
Qed.

Lemma com_fact_own a i : a_inv n a -> com_fact a (cur a i) (lg a i) (com a i).
Proof. intros [_ _ Hci]. apply (ci_com _ _ Hci). Qed.

Lemma com_fact_le a t T c c' : com_fact a t T c -> (c' <= c)%nat -> com_fact a t T c'.
Proof.
  intros [->|(t' & k & T1 & Ht & Hc & Hk & Heq)] Hle; [left; lia|right].
  exists t', k, T1. split_and!; auto; [lia|]. apply (take_prefix_eq _ _ _ (S c)); [lia|done].
Qed.

Lemma com_lt a i : a_inv n a -> (com a i < length (lg a i))%nat.
Proof. intros [_ _ Hci]. apply (ci_com _ _ Hci). Qed.

(** A peer shares its committed prefix with the leader of its term. *)
Lemma com_in_tlog a i c T : a_inv n a -> tlog a (cur a i) = Some (c, T) ->
  take (S (com a i)) (lg a i) = take (S (com a i)) T.
Proof.
  intros Hinv HT. destruct (com_fact_own a i Hinv) as [->|(t & k & T1 & Ht & Hc & Hk & Heq)].
  - apply take_1_dummy; [apply Hinv|]. by eapply li_tstart, HT; apply Hinv.
  - rewrite Heq. destruct (decide (t = cur a i)) as [->|].
    + destruct Hc as ((c1 & HT1) & _). by assert (T1 = T) as -> by congruence.
    + symmetry. apply (take_prefix_eq _ _ _ (S k)); [lia|].
      destruct Hinv as [_ _ Hci]. eapply (ci_lead _ _ Hci); [done| |by apply committed_choosable]. lia.
Qed.

(** ** The log behind a compacted log *)

Definition log_rel rf (L : elog) : Prop := exists (b : nat) e,
  lastIncludedIndex rf = Z.of_nat b /\ L !! b = Some e /\
  log rf = MkLogEntry (Term e) None :: drop (S b) L.

Lemma lr_last rf L : log_rel rf L -> lastLogIndex rf = Z.of_nat (lastIdx L).
Proof.
  intros (b & e & Hb & He%lookup_lt_Some & Hl). unfold lastLogIndex, lastIdx. rewrite Hb, Hl. simpl.
  rewrite length_drop. lia.
Qed.

Lemma lr_entry rf L (k : nat) e : log_rel rf L -> entryAt rf (Z.of_nat k) = Some e ->
  exists e', L !! k = Some e' /\ Term e' = Term e /\ (lastIncludedIndex rf < Z.of_nat k -> e' = e).
Proof.
  intros (b & e0 & Hb & He0 & Hl) [Hi He]%entryAt_Some. rewrite Hb, Hl in *.
  destruct (decide (b = k)) as [->|].
  - rewrite Z.sub_diag in He. simpl in He. simplify_eq. exists e0. split_and!; [done|done|lia].
  - replace (Z.to_nat (Z.of_nat k - Z.of_nat b)) with (S (k - S b)) in He by lia.
    simpl in He. rewrite lookup_drop in He. exists e. split_and!; [|done|done].
    rewrite <-He. f_equal. lia.
Qed.

Lemma lr_entry_inv rf L (k : nat) e : log_rel rf L -> L !! k = Some e -> lastIncludedIndex rf <= Z.of_nat k ->
  exists e', entryAt rf (Z.of_nat k) = Some e' /\ Term e' = Term e.
Proof.
  intros Hl He Hk. destruct (entryAt_in_range rf (Z.of_nat k)) as [e' He'].
  { rewrite (lr_last _ _ Hl). apply lookup_lt_Some in He. unfold lastIdx. lia. }
  destruct (lr_entry _ _ _ _ Hl He') as (e1 & He1 & Ht & _). exists e'. split; [done|congruence].
Qed.

Lemma lr_drop rf L (k : nat) : log_rel rf L -> lastIncludedIndex rf <= Z.of_nat k ->
  drop (Z.to_nat (Z.of_nat k + 1 - lastIncludedIndex rf)) (log rf) = drop (S k) L.
Proof.
  intros (b & e0 & Hb & He0 & Hl) Hk. rewrite Hb, Hl in *.
  replace (Z.to_nat (Z.of_nat k + 1 - Z.of_nat b)) with (S (k - b)) by lia. simpl.
  rewrite drop_drop. f_equal. lia.
Qed.

(** Replacing what follows index [k] in both logs. *)
Lemma lr_splice rf L (k : nat) l : log_rel rf L -> lastIncludedIndex rf <= Z.of_nat k -> (k < length L)%nat ->
  log_rel (rf <| log := take (Z.to_nat (Z.of_nat k + 1 - lastIncludedIndex rf)) (log rf) ++ l |>)
          (take (S k) L ++ l).
Proof.
  intros (b & e0 & Hb & He0 & Hl) Hk Hlen. exists b, e0. simpl. split_and!; [done| |].
  - rewrite lookup_app_l; [|rewrite length_take; apply lookup_lt_Some in He0; lia].
    rewrite lookup_take_lt; [done|lia].
  - rewrite Hb, Hl in *. replace (Z.to_nat (Z.of_nat k + 1 - Z.of_nat b)) with (S (k - b)) by lia. simpl.
    f_equal. rewrite drop_app_le by (rewrite length_take; lia). f_equal.
    rewrite take_drop_commute. do 2 f_equal. lia.
Qed.

Lemma lr_same rf rf' L : log_rel rf L -> log rf' = log rf -> lastIncludedIndex rf' = lastIncludedIndex rf -> log_rel rf' L.
Proof. intros (b & e & Hb & He & Hl) H1 H2. exists b, e. split_and!; congruence. Qed.

(** ** The coupling *)

(** The votes an election has counted, by distinct peers that are not waited
    for any more. *)
Definition election_ok a (i : nat) (el : Election) : Prop := exists q,
  NoDup q /\ length q = el_votes el /\ (i ∈ q) /\ (forall j, j ∈ el_waiting el -> (j < n)%nat) /\
  forall v, v ∈ q -> (v < n)%nat /\ (v ∉ el_waiting el) /\ voted a v (el_term el) i.

Record node_ok a (i : nat) p : Prop := {
  no_wf : raft_wf (raft p);
  no_me : me (raft p) = i;
  no_n : npeers (raft p) = n;
  no_term : currentTerm (raft p) = cur a i;
  no_role : state (raft p) = role a i;
  no_com : commitIndex (raft p) = Z.of_nat (com a i);
  no_log : log_rel (raft p) (lg a i);
  no_applied : lastApplied (raft p) <= commitIndex (raft p);
  no_voted : forall c, voted a i (cur a i) c -> votedFor (raft p) = Z.of_nat c;
  no_match : state (raft p) = Leader -> forall j m, matchIndex (raft p) !! j = Some m ->
    (m = 0 \/ 0 <= m /\ ack_ge a j (cur a i) (Z.to_nat m));
  no_elections : Forall (election_ok a i) (elections p);
}.

(** What the arguments of the RPCs say about the abstract history. *)
Definition vote_args_ok a (i : nat) (args : RequestVoteArgs) : Prop :=
  rv_CandidateId args = Z.of_nat i /\ exists lc, cand a i (rv_Term args) = Some lc /\
  rv_LastLogIndex args = Z.of_nat (lastIdx lc) /\ rv_LastLogTerm args = lastTerm lc.

Definition append_args_ok a (args : AppendEntriesArgs Cmd) (b : nat) : Prop :=
  ae_PrevLogIndex args = Z.of_nat b /\ exists c T e cm,
  tlog a (ae_Term args) = Some (c, T) /\ T !! b = Some e /\ Term e = ae_PrevLogTerm args /\
  ae_Entries args = take (length (ae_Entries args)) (drop (S b) T) /\
  (b + length (ae_Entries args) < length T)%nat /\
  ae_LeaderCommit args = Z.of_nat cm /\ (cm <= b + length (ae_Entries args))%nat /\
  com_fact a (ae_Term args) T cm.

Definition snap_args_ok a (args : InstallSnapshotArgs) (b : nat) : Prop :=
  is_LastIncludedIndex args = Z.of_nat b /\ exists c T e,
  tlog a (is_Term args) = Some (c, T) /\ T !! b = Some e /\ Term e = is_LastIncludedTerm args /\
  com_fact a (is_Term args) T b.

Definition msg_ok a (m : Msg Cmd) : Prop :=
  match m with
  | VoteReq i j args => (i < n)%nat /\ (j < n)%nat /\ vote_args_ok a i args
  | VoteRep i j args reply =>
      (i < n)%nat /\ (j < n)%nat /\ (rvr_VoteGranted reply = true -> voted a j (rv_Term args) i)
  | AppendReq i j args => (i < n)%nat /\ (j < n)%nat /\ exists b, append_args_ok a args b
  | AppendRep i j args reply => (i < n)%nat /\ (j < n)%nat /\ exists b, append_args_ok a args b /\
      (aer_Success reply = true -> ack a j (ae_Term args) (b + length (ae_Entries args)))
  | SnapReq i j args => (i < n)%nat /\ (j < n)%nat /\ exists b, snap_args_ok a args b
  | SnapRep i j args reply => (i < n)%nat /\ (j < n)%nat /\ exists b, snap_args_ok a args b /\
      (isr_Term reply <= is_Term args -> ack a j (is_Term args) b)
  end.

(** A delivered command is the committed entry of its index. *)
Definition dlv_ok a (d : nat * ApplyMsg Cmd) : Prop :=
  match d with
  | (_, CommandMsg c idx) => exists (j : nat) t k T e, idx = Z.of_nat j /\
      committed n a t k T /\ (j <= k)%nat /\ T !! j = Some e /\ Command e = c
  | (_, SnapshotMsg _ _ _) => True
  end.

Record coupled (s : Cluster Cmd) a : Prop := {
  cp_inv : a_inv n a;
  cp_len : length (procs s) = n;
  cp_procs : forall i p, procs s !! i = Some p -> node_ok a i p;
  cp_net : Forall (msg_ok a) (net s);
  cp_delivered : Forall (dlv_ok a) (delivered s);
}.

(** ** Monotonicity *)

Lemma election_ok_mono a a' i el : a_le a a' -> election_ok a i el -> election_ok a' i el.
Proof.
  intros Hle (q & Hd & Hlen & Hself & Hwt & Hq). exists q. split_and!; auto. intros v Hv.
  destruct (Hq v Hv) as (? & ? & ?). split_and!; auto. by apply Hle.
Qed.

Lemma node_ok_frame a a' i j p : moves i a a' -> j <> i -> node_ok a j p -> node_ok a' j p.
Proof.
  intros [_ _ Hle Hf] Hj Hp. destruct (Hf j Hj) as (Hcur & Hrole & Hlg & Hcom & Hvo).
  destruct Hp. constructor; rewrite ?Hcur, ?Hrole, ?Hlg, ?Hcom; auto.
  - intros Hl k m Hm. destruct (no_match0 Hl k m Hm) as [|[? ?]]; [by left|right].
    eauto using a_le_ack_ge.
  - eapply Forall_impl; [done|]. eauto using election_ok_mono.
Qed.

Lemma append_args_mono a a' args b : a_le a a' -> append_args_ok a args b -> append_args_ok a' args b.
Proof.
  intros Hle (Hp & c & T & e & cm & HT & He & Ht & Hes & Hlen & Hcm & Hle' & Hcf).
  destruct (le_tlog _ _ Hle _ _ _ HT) as (T' & HT' & Hpre). split; [done|].
  exists c, T', e, cm. pose proof (prefix_length _ _ Hpre). split_and!; auto; try lia.
  - by eapply prefix_lookup_Some.
  - rewrite Hes at 1. destruct Hpre as [r ->]. rewrite drop_app_le, take_app_le; [done| |lia].
    rewrite length_drop. lia.
  - eapply com_fact_mono; [done| |done]. apply take_prefix_of; [done|lia].
Qed.

Lemma snap_args_mono a a' args b : a_le a a' -> snap_args_ok a args b -> snap_args_ok a' args b.
Proof.
  intros Hle (Hp & c & T & e & HT & He & Ht & Hcf).
  destruct (le_tlog _ _ Hle _ _ _ HT) as (T' & HT' & Hpre). split; [done|].
  exists c, T', e. split_and!; auto; [by eapply prefix_lookup_Some|].
  eapply com_fact_mono; [done| |done]. apply take_prefix_of; [done|]. apply lookup_lt_Some in He. lia.
Qed.

Lemma msg_ok_mono a a' m : a_le a a' -> msg_ok a m -> msg_ok a' m.
Proof.
  intros Hle. destruct m; simpl.
  - intros (? & ? & ? & lc & ? & ?). split_and!; auto. split; [done|]. exists lc. split; [|done]. by apply Hle.
  - intros (? & ? & Hg). split_and!; auto. intros. by apply Hle, Hg.
  - intros (? & ? & b & ?). eauto 10 using append_args_mono.
  - intros (? & ? & b & ? & Hs). split_and!; auto. exists b. split; [eauto using append_args_mono|].
    intros. by apply Hle, Hs.
  - intros (? & ? & b & ?). eauto 10 using snap_args_mono.
  - intros (? & ? & b & ? & Hs). split_and!; auto. exists b. split; [eauto using snap_args_mono|].
    intros. by apply Hle, Hs.
Qed.

Lemma dlv_ok_mono a a' d : a_le a a' -> dlv_ok a d -> dlv_ok a' d.
Proof.
  intros Hle. destruct d as [i []]; simpl; [|done]. intros (j & t & k & T & e & Hj & Hc & Hk & He & Hcmd).
  destruct (a_le_committed _ _ _ _ _ Hle Hc) as (T' & Hc' & HT'). exists j, t, k, T', e. split_and!; auto.
  rewrite <-He. apply (take_eq_lookup _ _ (S k)); [lia|done].
Qed.

(** One peer moves, sends messages and delivers to its service. *)
Lemma coupled_update s a a' i p ms ds :
  coupled s a -> moves i a a' -> node_ok a' i p -> Forall (msg_ok a') ms ->
  Forall (fun d => dlv_ok a' (i, d)) ds -> coupled (update s i p ms ds) a'.
Proof.
  intros [Hinv Hlen Hps Hnet Hdl] Hmv Hp Hms Hds. pose proof (mv_le _ _ _ Hmv) as Hle.
  constructor; simpl.
  - apply Hmv.
  - by rewrite length_insert.
  - intros j pj Hj. destruct (decide (j = i)) as [->|Hne].
    + apply list_lookup_insert_Some in Hj as [(_ & <- & _)|(? & _)]; done.
    + rewrite list_lookup_insert_ne in Hj by done. eauto using node_ok_frame.
  - apply Forall_app. split; [|done]. eapply Forall_impl; [done|]. eauto using msg_ok_mono.
  - apply Forall_app. split; [eapply Forall_impl; [done|]; eauto using dlv_ok_mono|].
    by apply Forall_fmap.
Qed.

(** Fields that the coupling does not read may change freely. *)
Lemma node_ok_ext a i p rf' : node_ok a i p -> raft_wf rf' -> lastApplied rf' <= commitIndex rf' ->
  me rf' = me (raft p) -> npeers rf' = npeers (raft p) -> currentTerm rf' = currentTerm (raft p) ->
  state rf' = state (raft p) -> commitIndex rf' = commitIndex (raft p) -> log rf' = log (raft p) ->
  lastIncludedIndex rf' = lastIncludedIndex (raft p) ->
  votedFor rf' = votedFor (raft p) ->
  (state (raft p) = Leader -> forall j m, matchIndex rf' !! j = Some m ->
     matchIndex (raft p) !! j = Some m \/ 0 <= m /\ ack_ge a j (cur a i) (Z.to_nat m)) ->
  node_ok a i (with_raft p rf').
Proof.
  intros Hp Hwf Hap Hme Hn Ht Hs Hc Hl Hb Hv Hm. destruct Hp. constructor; simpl; auto; try congruence.
  - by eapply lr_same.
  - rewrite Hv. auto.
  - rewrite Hs. intros Hlead j m Hj. destruct (Hm Hlead j m Hj); [eauto|by right].
Qed.

(** ** Elections *)

Lemma elections_mono a a' i p : a_le a a' -> Forall (election_ok a i) (elections p) -> Forall (election_ok a' i) (elections p).
Proof. intros Hle Hel. eapply Forall_impl; [done|]. eauto using election_ok_mono. Qed.

Lemma toFollower_sim a i p t : a_inv n a -> (i < n)%nat -> node_ok a i p -> cur a i < t ->
  exists a', moves i a a' /\ node_ok a' i (with_raft p (toFollower (raft p) t)) /\
    cur a' i = t /\ role a' i = Follower /\ lg a' i = lg a i /\ com a' i = com a i.
Proof.
  intros Hinv Hi Hp Ht.
  assert (moves i a (a <| cur := <[i := t]> (cur a) |> <| role := <[i := Follower]> (role a) |>)) as Hmv.
  { apply moves_step; [done|by constructor|frame_tac]. }
  eexists. split; [exact Hmv|]. simpl. rewrite !fn_lookup_insert. split_and!; try done.
  pose proof (toFollower_wf _ t (no_wf _ _ _ Hp)). destruct Hp. constructor; simpl; rewrite ?fn_lookup_insert; auto.
  - intros c Hv. exfalso. pose proof (vi_term _ _ (a_votes _ _ Hinv) _ _ _ Hv). lia.
  - done.
Qed.

Lemma follower_sim a i p : a_inv n a -> (i < n)%nat -> node_ok a i p ->
  exists a', moves i a a' /\ node_ok a' i (with_raft p ((raft p) <| state := Follower |>)) /\
    cur a' i = cur a i /\ role a' i = Follower /\ lg a' i = lg a i /\ com a' i = com a i.
Proof.
  intros Hinv Hi Hp.
  assert (moves i a (a <| role := <[i := Follower]> (role a) |>)) as Hmv.
  { apply moves_step; [done|by constructor|frame_tac]. }
  eexists. split; [exact Hmv|]. simpl. rewrite !fn_lookup_insert. split_and!; try done.
  pose proof (follower_wf _ (no_wf _ _ _ Hp)). destruct Hp. constructor; simpl; rewrite ?fn_lookup_insert; auto; done.
Qed.

Lemma stepDown_sim a i p t now : a_inv n a -> (i < n)%nat -> node_ok a i p -> cur a i <= t ->
  exists a', moves i a a' /\ node_ok a' i (with_raft p (stepDown (raft p) t now)) /\
    cur a' i = t /\ role a' i = Follower /\ lg a' i = lg a i /\ com a' i = com a i.
Proof.
  intros Hinv Hi Hp Ht. unfold stepDown. rewrite Z.gtb_ltb, (no_term _ _ _ Hp).
  assert (exists a' rf, rf = (if cur a i <? t then toFollower (raft p) t else raft p <| state := Follower |>) /\
    moves i a a' /\ node_ok a' i (with_raft p rf) /\
    cur a' i = t /\ role a' i = Follower /\ lg a' i = lg a i /\ com a' i = com a i) as (a' & rf & Hrf & Hmv & Hok & Hrest).
  { destruct (Z.ltb_spec (cur a i) t).
    - destruct (toFollower_sim a i p t) as (a' & ?); auto. exists a'. eexists. split; [done|]. done.
    - destruct (follower_sim a i p) as (a' & Hmv & Hok & Hc & ?); auto. exists a'. eexists. split; [done|].
      split_and!; auto; [lia|naive_solver..]. }
  rewrite <-Hrf. exists a'. split; [done|]. split; [|done].
  apply (node_ok_ext a' i _ (resetElectionTimer rf now)) in Hok; simpl; auto; [apply timer_wf, Hok|apply Hok].
Qed.

Lemma others_of_self i : i ∉ others_of n i.
Proof. unfold others_of. intros [? _]%list_elem_of_filter. done. Qed.

Lemma others_of_lt i j : j ∈ others_of n i -> (j < n)%nat /\ j <> i.
Proof. unfold others_of. intros [? Hj]%list_elem_of_filter. apply elem_of_seq in Hj. split; [lia|done]. Qed.

Lemma startElection_sim a i p now : a_inv n a -> (i < n)%nat -> node_ok a i p ->
  let '(rf, term) := startElection (raft p) now in
  exists a', moves i a a' /\ node_ok a' i (MkProc rf (elections p ++ [MkElection term 1 (others_of (npeers rf) i)])).
Proof.
  intros Hinv Hi Hp. pose proof (startElection_wf _ now (no_wf _ _ _ Hp)) as Hwf.
  destruct (startElection (raft p) now) as [rf term] eqn:He.
  unfold startElection in He. simplify_eq.
  eexists. split; [apply moves_step; [done|by apply (a_timeout _ _ i)|]|].
  { intros j Hj. simpl. rewrite !fn_lookup_insert_ne by done. split_and!; auto. naive_solver. }
  assert (forall el, el_votes el = 1%nat -> el_waiting el = others_of n i -> el_term el = cur a i + 1 -> forall a',
    voted a' i (cur a i + 1) i -> election_ok a' i el) as Hnew.
  { intros el H1 H2 H3 a' Hv. exists [i]. rewrite H1, H2, H3. split_and!; [apply NoDup_singleton|done|by apply list_elem_of_singleton|intros j Hj; by apply others_of_lt in Hj as [? _]|].
    intros v ->%list_elem_of_singleton. split_and!; auto using others_of_self. }
  destruct Hp. constructor; simpl in *; rewrite ?fn_lookup_insert; auto.
  - congruence.
  - intros c [Hv|(_ & _ & ->)]; [|by rewrite no_me0].
    exfalso. pose proof (vi_term _ _ (a_votes _ _ Hinv) _ _ _ Hv). lia.
  - done.
  - apply Forall_app. split.
    + eapply Forall_impl; [done|]. intros el (q & Hd & Hlen & Hself & Hwt & Hq). exists q. split_and!; auto.
      intros v Hv. destruct (Hq v Hv) as (? & ? & ?). simpl. auto.
    + apply Forall_singleton. apply Hnew; simpl; [done|congruence|congruence|auto].
Qed.

Lemma voteRequest_ok a i p j el args : a_inv n a -> (i < n)%nat -> (j < n)%nat -> node_ok a i p ->
  election_ok a i el -> voteRequest (raft p) (el_term el) = Some (Some args) -> msg_ok a (VoteReq i j args).
Proof.
  intros Hinv Hi Hj Hp (q & _ & _ & Hself & _ & Hq) Hreq. destruct (Hq i Hself) as (_ & _ & Hv).
  destruct (vi_cand _ _ (a_votes _ _ Hinv) _ _ _ Hv) as (lc & Hlc).
  unfold voteRequest, State_eqb in Hreq. destruct Hp.
  destruct (Z.eqb_spec (currentTerm (raft p)) (el_term el)) as [Ht|]; [|done].
  case_bool_decide as Hs; [|done]. simpl in Hreq.
  assert (lg a i = lc) as <- by (apply (vi_cand_log _ _ (a_votes _ _ Hinv)); congruence).
  rewrite (lr_last _ _ no_log0) in Hreq. destruct (entryAt (raft p) _) as [e|] eqn:He; [|done].
  injection Hreq as <-. destruct (lr_entry _ _ _ _ no_log0 He) as (e' & He' & Hte & _).
  split_and!; auto. split; simpl; [congruence|]. exists (lg a i). split_and!; auto.
  unfold lastTerm. by rewrite He'.
Qed.

(** Two ways to write a peer whose goroutines are as before. *)
Lemma with_raft_twice p rf rf' : with_raft (with_raft p rf) rf' = with_raft p rf'.
Proof. done. Qed.

Lemma with_raft_same p : with_raft p (raft p) = p.
Proof. by destruct p. Qed.

Lemma RequestVote_sim a i j p args now : a_inv n a -> (i < n)%nat -> (j < n)%nat -> node_ok a j p ->
  vote_args_ok a i args ->
  exists rf reply a', RequestVote (raft p) args now = Some (rf, reply) /\ moves j a a' /\
    node_ok a' j (with_raft p rf) /\ msg_ok a' (VoteRep i j args reply).
Proof.
  intros Hinv Hi Hj Hp (Hid & lc & Hlc & Hidx & Htm). unfold RequestVote.
  assert (exists a1 rf, rf = (if rv_Term args >? currentTerm (raft p) then toFollower (raft p) (rv_Term args) else raft p) /\
    moves j a a1 /\ node_ok a1 j (with_raft p rf) /\ rv_Term args <= cur a1 j) as (a1 & rf & <- & Hmv & Hok & Hle).
  { rewrite Z.gtb_ltb, (no_term _ _ _ Hp). destruct (Z.ltb_spec (cur a j) (rv_Term args)).
    - destruct (toFollower_sim a j p (rv_Term args)) as (a1 & ? & ? & ? & _); auto. eexists a1, _. split_and!; try done. lia.
    - exists a, (raft p). rewrite with_raft_same. split_and!; auto using moves_refl. }
  clear Hp. cbv zeta. pose proof (no_term _ _ _ Hok) as Hterm. simpl in Hterm. rewrite Hterm.
  pose proof (no_log _ _ _ Hok) as Hlog. pose proof (no_wf _ _ _ Hok) as Hwf. simpl in Hlog, Hwf.
  destruct (Z.ltb_spec (rv_Term args) (cur a1 j)).
  { do 2 eexists. exists a1. split_and!; try done. }
  assert (rv_Term args = cur a1 j) as Hcur by lia.
  destruct (entryAt_in_range rf (lastLogIndex rf)) as [e He]; [pose proof (lastLogIndex_ge _ Hwf); lia|].
  rewrite He. obind. rewrite (lr_last _ _ Hlog) in He |- *.
  destruct (lr_entry _ _ _ _ Hlog He) as (e' & He' & Hte & _).
  assert (lastTerm (lg a1 j) = Term e) as Hlt by (unfold lastTerm; by rewrite He').
  case_match eqn:Hutd; simpl; [do 2 eexists; exists a1; split_and!; done|].
  assert (up_to_date lc (lg a1 j)) as Hup.
  { unfold up_to_date. rewrite Hlt, <-Htm. apply negb_false_iff, orb_true_iff in Hutd as [?|?]; zbool; [left|right]; lia. }
  clear Hutd. case_match eqn:Hvf; [|do 2 eexists; exists a1; split_and!; done].
  pose proof (le_cand _ _ (mv_le _ _ _ Hmv) _ _ _ Hlc) as Hlc1. rewrite Hcur in Hlc1.
  assert (forall c', voted a1 j (cur a1 j) c' -> c' = i) as Honce.
  { intros c' Hc'. pose proof (no_voted _ _ _ Hok _ Hc') as Hvc. simpl in Hvc.
    apply orb_true_iff in Hvf as [Hvf|Hvf]; zbool; lia. }
  eassert (moves j a1 _) as Hmv2.
  { apply moves_step; [apply Hmv|by apply (a_vote _ _ j i lc)|]. frame_tac. }
  do 2 eexists. eexists. split; [done|]. split; [by eapply moves_trans|]. split.
  - destruct Hok; constructor; simpl in *; auto.
    + apply timer_wf. destruct Hwf. constructor; simpl; auto. by left.
    + rewrite Hid. intros c [Hc|(_ & _ & ->)]; [|done]. by rewrite (Honce c Hc).
    + eapply elections_mono; [exact (mv_le _ _ _ Hmv2)|done].
  - simpl. split_and!; auto.
Qed.

Lemma leader_tlog a i : a_inv n a -> role a i = Leader -> tlog a (cur a i) = Some (i, lg a i).
Proof.
  intros [Hv _ _] Hr. destruct (vi_leader _ _ Hv _ Hr) as (T & HT).
  by rewrite (vi_leader_log _ _ Hv _ _ _ HT eq_refl Hr).
Qed.

Lemma becomeLeader_sim a i p now q : a_inv n a -> (i < n)%nat -> node_ok a i p ->
  state (raft p) = Candidate -> NoDup q -> (Nat.div n 2 < length q)%nat ->
  (forall v, v ∈ q -> (v < n)%nat /\ voted a v (cur a i) i) ->
  exists rf a', becomeLeader (raft p) (cur a i) now = Some rf /\ moves i a a' /\ node_ok a' i (with_raft p rf).
Proof.
  intros Hinv Hi Hp Hs Hd Hlen Hq. destruct (becomeLeader_wf (raft p) (cur a i) now (no_wf _ _ _ Hp)) as (rf & Hrf & Hwf).
  exists rf. unfold becomeLeader, State_eqb in Hrf. pose proof (no_term _ _ _ Hp) as Ht.
  rewrite bool_decide_eq_false_2 in Hrf by congruence.
  rewrite Ht, Z.eqb_refl in Hrf. simpl in Hrf.
  rewrite put_in_range in Hrf by (rewrite length_replicate, (no_n _ _ _ Hp), (no_me _ _ _ Hp); lia). simplify_eq/=.
  eexists. split.
  { unfold becomeLeader, State_eqb. rewrite bool_decide_eq_false_2 by congruence. rewrite Ht, Z.eqb_refl. simpl.
    rewrite put_in_range by (rewrite length_replicate, (no_n _ _ _ Hp), (no_me _ _ _ Hp); lia). done. }
  assert (astep n a (a <| role := <[i := Leader]> (role a) |>
               <| tlog := <[cur a i := Some (i, lg a i)]> (tlog a) |>
               <| ack := fun i' t k => ack a i' t k \/ i' = i /\ t = cur a i /\ k = lastIdx (lg a i) |>)) as Hstep.
  { apply (a_lead _ _ i q); [done|by rewrite <-(no_role _ _ _ Hp)|split_and!; naive_solver|naive_solver]. }
  split; [apply moves_step; [done|exact Hstep|frame_tac]|].
  destruct Hp. constructor; simpl; rewrite ?fn_lookup_insert; auto.
  intros _ j m Hm. rewrite (lr_last _ _ no_log0), no_me0, Nat2Z.id in Hm.
  apply list_lookup_insert_Some in Hm as [(<- & <- & _)|[_ Hm]].
  - right. split; [lia|]. exists (lastIdx (lg a i)). rewrite Nat2Z.id. split; [lia|]. right. done.
  - left. by apply lookup_replicate in Hm as [-> _].
Qed.

Lemma voteReply_sim a i j p e el args reply now : a_inv n a -> (i < n)%nat -> node_ok a i p ->
  elections p !! e = Some el -> j ∈ el_waiting el -> rv_Term args = el_term el -> msg_ok a (VoteRep i j args reply) ->
  exists rf votes a', voteReply (raft p) (el_term el) (el_votes el) reply now = Some (rf, votes) /\ moves i a a' /\
    node_ok a' i (MkProc rf (<[e := MkElection (el_term el) votes (filter (fun x => x <> j) (el_waiting el))]> (elections p))).
Proof.
  intros Hinv Hi Hp He Hj Hargs (_ & Hjn & Hgr).
  pose proof (no_elections _ _ _ Hp) as Hels. rewrite Forall_lookup in Hels. destruct (Hels e el He) as (q & Hd & Hlen & Hself & Hwt & Hq).
  assert (forall a' rf votes q', a_le a a' -> node_ok a' i (with_raft p rf) ->
    NoDup q' -> length q' = votes -> i ∈ q' -> (forall v, v ∈ q' -> v ∈ q \/ v = j /\ voted a' v (el_term el) i) ->
    node_ok a' i (MkProc rf (<[e := MkElection (el_term el) votes (filter (fun x => x <> j) (el_waiting el))]> (elections p)))) as Hput.
  { intros a' rf votes q' Hle Hok Hd' Hlen' Hself' Hq'. destruct Hok. constructor; simpl in *; auto.
    apply Forall_insert; [done|]. exists q'. split_and!; auto; [intros j' [_ Hj']%list_elem_of_filter; auto|]. intros v Hv. simpl.
    destruct (Hq' v Hv) as [Hv'|[-> Hvo]].
    - destruct (Hq v Hv') as (? & ? & ?). split_and!; [done| |by apply Hle]. rewrite list_elem_of_filter. naive_solver.
    - split_and!; auto. rewrite list_elem_of_filter. naive_solver. }
  assert (with_raft p (raft p) = p) as Hsame by apply with_raft_same.
  unfold voteReply. rewrite (no_term _ _ _ Hp), Z.gtb_ltb.
  destruct (Z.ltb_spec (cur a i) (rvr_Term reply)).
  { destruct (toFollower_sim a i p (rvr_Term reply)) as (a' & Hmv & Hok & _); auto.
    do 2 eexists. exists a'. split_and!; [done|done|]. apply (Hput a' _ _ q); auto. apply Hmv. }
  destruct (Z.eqb_spec (cur a i) (el_term el)) as [Hel|]; cbn [negb orb];
    [|do 2 eexists; exists a; split_and!; [done|by apply moves_refl|apply (Hput a _ _ q); auto; [reflexivity|by rewrite Hsame]]].
  unfold State_eqb. case_bool_decide as Hcand; cbn [negb orb];
    [|do 2 eexists; exists a; split_and!; [done|by apply moves_refl|apply (Hput a _ _ q); auto; [reflexivity|by rewrite Hsame]]].
  destruct (rvr_VoteGranted reply) eqn:Hg;
    [|do 2 eexists; exists a; split_and!; [done|by apply moves_refl|apply (Hput a _ _ q); auto; [reflexivity|by rewrite Hsame]]].
  assert (NoDup (j :: q)) as Hd'.
  { constructor; [|done]. intros Hjq. by destruct (Hq j Hjq) as (_ & ? & _). }
  assert (voted a j (el_term el) i) as Hvj by (rewrite <-Hargs; auto).
  rewrite (no_n _ _ _ Hp). destruct (Nat.ltb_spec (Nat.div n 2) (S (el_votes el))).
  - destruct (becomeLeader_sim a i p now (j :: q)) as (rf & a' & Hb & Hmv & Hok); auto; [rewrite length_cons; lia| |].
    { intros v [->|Hv]%elem_of_cons; [by rewrite Hel|]. destruct (Hq v Hv) as (? & ? & ?). by rewrite Hel. }
    rewrite <-Hel, Hb. obind. rewrite Hel. do 2 eexists. exists a'. split_and!; [done|done|].
    apply (Hput a' _ _ (j :: q)); auto; [apply Hmv|simpl; lia|set_solver|].
    intros v [->|Hv]%elem_of_cons; [right; split; [done|]; by apply Hmv|by left].
  - do 2 eexists. exists a. split_and!; [done|by apply moves_refl|].
    apply (Hput a _ _ (j :: q)); auto; [reflexivity|by rewrite Hsame|simpl; lia|set_solver|].
    intros v [->|Hv]%elem_of_cons; auto.
Qed.

(** ** Replication: what a leader sends *)

Lemma replicateOnce_ok a i j p : a_inv n a -> (i < n)%nat -> (j < n)%nat -> node_ok a i p ->
  exists r, replicateOnce (raft p) j = Some r /\
    match r with
    | SendNothing => True
    | SendSnapshot args => msg_ok a (SnapReq i j args)
    | SendEntries args => msg_ok a (AppendReq i j args)
    end.
Proof.
  intros Hinv Hi Hj Hp. destruct (replicateOnce_cases (raft p) j) as (r & Hr & Hcase); [apply Hp|by rewrite (no_n _ _ _ Hp)|].
  exists r. split; [done|]. pose proof (com_fact_own a i Hinv) as Hcf. pose proof (com_lt a i Hinv) as Hcl.
  pose proof (no_com _ _ _ Hp) as Hcom. pose proof (no_wf _ _ _ Hp) as Hwf. pose proof (no_log _ _ _ Hp) as Hlog.
  destruct r as [|args|args]; [done| |].
  - destruct Hcase as [Hl ->]. rewrite (no_role _ _ _ Hp) in Hl. pose proof (leader_tlog a i Hinv Hl) as HT.
    pose proof (wf_commit _ Hwf). destruct (wf_boundary _ Hwf) as (e0 & He0 & Ht0).
    destruct Hlog as (b & e & Hb & He & Hlg). rewrite Hlg in He0. simpl in He0. simplify_eq.
    split_and!; auto. exists b. split; simpl; [done|]. rewrite (no_term _ _ _ Hp).
    exists i, (lg a i), e. split_and!; auto. apply (com_fact_le a _ _ (com a i)); [done|lia].
  - destruct Hcase as (Hl & e & Hrange & He & Hargs). rewrite (no_role _ _ _ Hp) in Hl. pose proof (leader_tlog a i Hinv Hl) as HT.
    pose proof (wf_lii _ Hwf). set (b := Z.to_nat (ae_PrevLogIndex args)).
    assert (ae_PrevLogIndex args = Z.of_nat b) as Hb by lia. rewrite Hb in *. clearbody b.
    destruct (lr_entry _ _ _ _ Hlog He) as (e' & He' & Hte & _).
    rewrite (lr_drop _ _ _ Hlog) in Hargs by lia.
    split_and!; auto. exists b. split; [done|]. rewrite Hargs. simpl. rewrite (no_term _ _ _ Hp).
    apply lookup_lt_Some in He' as Hlt.
    exists i, (lg a i), e', (com a i). rewrite take_ge by done. rewrite length_drop. split_and!; auto; lia.
Qed.

(** ** Replication: what a follower accepts *)

(** The merge of AppendEntries is the abstract acceptance of the leader's
    prefix. *)
Lemma merge_accept (tl : Z -> option (nat * elog)) (L T : elog) (k b : nat) :
  matched tl L -> matched tl T -> starts_dummy L -> starts_dummy T ->
  take (S b) L = take (S b) T -> (b + k < length T)%nat ->
  let L' := take (S b) L ++ merge_entries (drop (S b) L) (take k (drop (S b) T)) in
  take (S (b + k)) L = take (S (b + k)) T /\ L' = L \/
  take (S (b + k)) L <> take (S (b + k)) T /\ L' = take (S (b + k)) T.
Proof.
  intros HmL HmT HsL HsT. revert b. induction k as [|k IH]; intros b Hb Hlen L'; subst L'.
  - left. rewrite Nat.add_0_r. split; [done|]. simpl. destruct (drop (S b) L) eqn:Hd; simpl; by rewrite <-Hd, take_drop.
  - destruct (lookup_lt_is_Some_2 T (S b)) as [e He]; [lia|].
    assert (take (S (b + S k)) T = take (S b) T ++ take (S k) (drop (S b) T)) as HTk.
    { by rewrite take_take_drop. }
    rewrite (drop_S _ _ _ He) in HTk |- *. simpl take in HTk |- * at 3.
    destruct (L !! S b) as [o|] eqn:Ho.
    + rewrite (drop_S _ _ _ Ho). cbn [merge_entries take]. destruct (Z.eqb_spec (Term o) (Term e)) as [Ht|Ht].
      * pose proof (log_matching tl L T (S b) o e HmL HmT HsL HsT Ho He Ht) as Hb'.
        destruct (IH (S b)) as [[H1 H2]|[H1 H2]]; [done|lia| |].
        -- left. split; [by replace (b + S k)%nat with (S b + k)%nat by lia|].
           rewrite (take_S_r _ _ _ Ho), <-app_assoc in H2. exact H2.
        -- right. replace (b + S k)%nat with (S b + k)%nat by lia. split; [done|].
           rewrite (take_S_r _ _ _ Ho), <-app_assoc in H2. exact H2.
      * right. split; [|by rewrite HTk, Hb].
        intros Heq. apply (take_eq_lookup _ _ _ (S b)) in Heq; [|lia]. congruence.
    + apply lookup_ge_None in Ho. rewrite (drop_ge L) by done. rewrite merge_entries_nil_old. right.
      split; [|by rewrite HTk, Hb]. intros Heq. apply take_eq_length in Heq; lia.
Qed.

(** Peer [i] learns that its log is committed up to [c]. *)
Lemma commit_step a i c : a_inv n a -> (i < n)%nat -> com_fact a (cur a i) (lg a i) c ->
  (c < length (lg a i))%nat -> (com a i <= c)%nat ->
  exists a', moves i a a' /\ cur a' = cur a /\ role a' = role a /\ lg a' = lg a /\ voted a' = voted a /\
    ack a' = ack a /\ com a' i = c.
Proof.
  intros Hinv Hi [->|(t & k & T & Ht & Hc & Hk & Heq)] Hlen Hle.
  - exists a. split_and!; auto using moves_refl. lia.
  - eexists. split; [apply moves_step; [done|by eapply (a_commit _ _ i c t k T)|frame_tac]|].
    simpl. by rewrite fn_lookup_insert.
Qed.

(** Peer [i] takes over the prefix up to [m] of the log [T] of its leader, and
    with it the commit index [cm]. *)
Lemma accept_step a i p c T m l rf (cm : nat) : a_inv n a -> (i < n)%nat -> node_ok a i p -> role a i = Follower ->
  tlog a (cur a i) = Some (c, T) -> (m < length T)%nat ->
  (take (S m) (lg a i) = take (S m) T /\ l = lg a i \/ take (S m) (lg a i) <> take (S m) T /\ l = take (S m) T) ->
  raft_wf rf -> log_rel rf l -> me rf = me (raft p) -> npeers rf = npeers (raft p) ->
  currentTerm rf = currentTerm (raft p) -> state rf = state (raft p) -> lastApplied rf = lastApplied (raft p) ->
  votedFor rf = votedFor (raft p) -> commitIndex rf = Z.of_nat cm ->
  (cm = com a i \/ (com a i <= cm <= m)%nat /\ com_fact a (cur a i) T cm) ->
  exists a', moves i a a' /\ node_ok a' i (with_raft p rf) /\ ack a' i (cur a i) m.
Proof.
  intros Hinv Hi Hp Hr HT Hm Hacc Hwf Hlog Hme Hn Ht Hs Hap Hv Hcm Hrange.
  set (a1 := a <| lg := <[i := l]> (lg a) |> <| ack := fun j t k => ack a j t k \/ j = i /\ t = cur a i /\ k = m |>).
  assert (moves i a a1) as Hmv1.
  { apply moves_step; [done|eapply a_accept; eauto; congruence|subst a1; frame_tac]. }
  assert (lg a1 i = l) as Hl1 by apply fn_lookup_insert.
  assert (exists a2, moves i a1 a2 /\ cur a2 = cur a1 /\ role a2 = role a1 /\ lg a2 = lg a1 /\ voted a2 = voted a1 /\
    ack a2 = ack a1 /\ com a2 i = cm) as (a2 & Hmv2 & E1 & E2 & E3 & E4 & E5 & E6).
  { destruct Hrange as [->|[Hrange Hcf]].
    - exists a1. split_and!; try done. apply moves_refl, Hmv1.
    - assert (take (S m) l = take (S m) T) as HlT by (apply (accept_keeps (lg a i) l T m m); [done|by right]).
      apply commit_step; [apply Hmv1|done| | |simpl; lia]; rewrite Hl1.
      + eapply com_fact_mono; [apply Hmv1| |exact Hcf]. apply (take_prefix_eq _ _ _ (S m)); [lia|done].
      + apply take_eq_length in HlT; lia. }
  exists a2. split; [by eapply moves_trans|]. split; [|rewrite E5; simpl; auto].
  destruct Hp. constructor; simpl; rewrite ?E1, ?E2, ?E3, ?E4, ?Hl1; simpl; auto; try congruence.
  - rewrite Hap, Hcm. destruct Hrange; lia.
  - rewrite Hv. auto.
  - eapply elections_mono; [exact (mv_le _ _ _ Hmv2)|]. eapply elections_mono; [exact (mv_le _ _ _ Hmv1)|done].
Qed.

Lemma accepted_fields rf args (k := Z.to_nat (ae_PrevLogIndex args + 1 - lastIncludedIndex rf))
    (l := take k (log rf) ++ merge_entries (drop k (log rf)) (ae_Entries args)) (rf' := accepted rf args) :
  (me rf', npeers rf', currentTerm rf', state rf', lastApplied rf', votedFor rf', lastIncludedIndex rf', log rf') =
  (me rf, npeers rf, currentTerm rf, state rf, lastApplied rf, votedFor rf, lastIncludedIndex rf, l) /\
  commitIndex rf' = if ae_LeaderCommit args >? commitIndex rf
                    then Z.min (ae_LeaderCommit args) (lastLogIndex (rf <| log := l |>)) else commitIndex rf.
Proof.
  subst l rf'. unfold accepted. cbv zeta. fold k. destruct (len (ae_Entries args) >? 0); simpl;
    destruct (ae_LeaderCommit args >? commitIndex rf); done.
Qed.

(** A request that passes the check of the previous entry is accepted. *)
Lemma accepted_sim a1 j p rf1 args b e : a_inv n a1 -> (j < n)%nat -> node_ok a1 j (with_raft p rf1) ->
  append_args_ok a1 args b -> cur a1 j = ae_Term args -> role a1 j = Follower ->
  lastIncludedIndex rf1 <= ae_PrevLogIndex args <= lastLogIndex rf1 -> entryAt rf1 (ae_PrevLogIndex args) = Some e ->
  Term e = ae_PrevLogTerm args -> raft_wf (accepted rf1 args) ->
  exists a2, moves j a1 a2 /\ node_ok a2 j (with_raft p (accepted rf1 args)) /\ ack a2 j (cur a1 j) (b + length (ae_Entries args)).
Proof.
  intros Hinv Hj Hok Hargs Hcur Hrole Hprev He Hte Hwf'.
  destruct Hargs as (Hb & c & T & eT & cm & HT & HeT & HtT & Hes & Hlen & Hcm & Hcle & Hcf).
  rewrite Hb in *. pose proof (no_log _ _ _ Hok) as Hlog. simpl in Hlog.
  destruct (lr_entry _ _ _ _ Hlog He) as (eL & HeL & HtL & _). pose proof Hinv as Hinv1.
  set (k := length (ae_Entries args)) in *. set (L := lg a1 j) in *.
  assert (take (S b) L = take (S b) T) as HLT.
  { apply (log_matching (tlog a1) L T b eL eT); [apply Hinv1|by eapply li_tmatch, HT; apply Hinv1|apply Hinv1|
      by eapply li_tstart, HT; apply Hinv1|done|done|congruence]. }
  set (l := take (S b) L ++ merge_entries (drop (S b) L) (take k (drop (S b) T))).
  assert (take (S (b + k)) L = take (S (b + k)) T /\ l = L \/ take (S (b + k)) L <> take (S (b + k)) T /\ l = take (S (b + k)) T) as Hacc.
  { apply (merge_accept (tlog a1)); auto; [apply Hinv1|by eapply li_tmatch, HT; apply Hinv1|apply Hinv1|
      by eapply li_tstart, HT; apply Hinv1]. }
  pose proof (accept_keeps L l T (b + k) (b + k) Hacc (or_intror (le_n _))) as HlT.
  assert (b + k <= lastIdx l)%nat as Hlast.
  { apply take_eq_length in HlT; [unfold lastIdx; lia|lia]. }
  destruct (accepted_fields rf1 args) as [Hf Hc]. rewrite Hb, (lr_drop _ _ _ Hlog), Hes in Hf, Hc by lia.
  assert (log_rel (rf1 <| log := take (Z.to_nat (Z.of_nat b + 1 - lastIncludedIndex rf1)) (log rf1) ++
    merge_entries (drop (S b) L) (take k (drop (S b) T)) |>) l) as Hrel.
  { apply lr_splice; [done|lia|]. apply lookup_lt_Some in HeL. done. }
  rewrite (lr_last _ _ Hrel), Hcm in Hc. pose proof (no_com _ _ _ Hok) as Hcom. simpl in Hcom.
  assert (exists cm' : nat, commitIndex (accepted rf1 args) = Z.of_nat cm' /\
    (cm' = com a1 j \/ (com a1 j <= cm' <= b + k)%nat /\ com_fact a1 (cur a1 j) T cm')) as (cm' & Hcm' & Hcm'').
  { rewrite Hc, Hcom, Z.gtb_ltb. destruct (Z.ltb_spec (Z.of_nat (com a1 j)) (Z.of_nat cm)).
    - exists cm. split; [lia|]. right. rewrite Hcur. split; [lia|done].
    - exists (com a1 j). auto. }
  injection Hf as F1 F2 F3 F4 F5 F6 F7 F8.
  destruct (accept_step a1 j (with_raft p rf1) c T (b + k) l (accepted rf1 args) cm')
    as (a2 & Hmv2 & Hok2 & Hack); auto; [by rewrite Hcur|by eapply lr_same|].
  by exists a2.
Qed.

Lemma AppendEntries_sim a i j p args b now : a_inv n a -> (i < n)%nat -> (j < n)%nat -> node_ok a j p ->
  append_args_ok a args b ->
  exists rf reply a', AppendEntries (raft p) args now = Some (rf, reply) /\ moves j a a' /\
    node_ok a' j (with_raft p rf) /\ msg_ok a' (AppendRep i j args reply).
Proof.
  intros Hinv Hi Hj Hp Hargs. destruct (AppendEntries_cases (raft p) args now (no_wf _ _ _ Hp)) as (rf & reply & Heq & Hcase).
  exists rf, reply. rewrite Heq. clear Heq.
  assert (forall a', moves j a a' -> aer_Success reply = false -> msg_ok a' (AppendRep i j args reply)) as Hfail.
  { intros a' Hmv Hs. split_and!; auto. exists b. split; [eapply append_args_mono; [apply Hmv|done]|]. by rewrite Hs. }
  pose proof (append_case_wf _ _ _ _ _ (no_wf _ _ _ Hp) Hcase) as Hwf'.
  destruct Hcase as [Hlt|? Hle Hc|? Hle Hc|? ? ? Hle|rf1 e Hle Hprev He Hte]; cbn [aer_Success] in Hfail.
  - exists a. rewrite with_raft_same. split_and!; auto using moves_refl.
  - destruct (stepDown_sim a j p (ae_Term args) now) as (a1 & Hmv & Hok & _); auto; [by rewrite <-(no_term _ _ _ Hp)|].
    exists a1. split_and!; auto.
  - destruct (stepDown_sim a j p (ae_Term args) now) as (a1 & Hmv & Hok & _); auto; [by rewrite <-(no_term _ _ _ Hp)|].
    exists a1. split_and!; auto.
  - destruct (stepDown_sim a j p (ae_Term args) now) as (a1 & Hmv & Hok & _); auto; [by rewrite <-(no_term _ _ _ Hp)|].
    exists a1. split_and!; auto.
  - destruct (stepDown_sim a j p (ae_Term args) now) as (a1 & Hmv & Hok & Hcur & Hrole & _); auto; [by rewrite <-(no_term _ _ _ Hp)|].
    fold rf1 in Hok. clearbody rf1. clear Hp Hfail Hle.
    apply (append_args_mono a a1) in Hargs as Hargs1; [|apply Hmv].
    destruct (accepted_sim a1 j p rf1 args b e) as (a2 & Hmv2 & Hok2 & Hack); auto; [apply Hmv|].
    exists a2. split_and!; auto; [by eapply moves_trans|]. split_and!; auto. exists b. split; [|rewrite <-Hcur; auto].
    eapply append_args_mono; [apply (moves_trans _ _ _ _ Hmv Hmv2)|done].
Qed.

Lemma installed_fields rf args l (rf' := installed rf args l) :
  (me rf', npeers rf', currentTerm rf', state rf', lastApplied rf', votedFor rf', lastIncludedIndex rf', log rf') =
  (me rf, npeers rf, currentTerm rf, state rf, lastApplied rf, votedFor rf, is_LastIncludedIndex args, l) /\
  commitIndex rf' = Z.max (commitIndex rf) (is_LastIncludedIndex args).
Proof. subst rf'. unfold installed. cbv zeta. simpl. destruct (_ >? _); done. Qed.

(** The abstract log and the concrete one after a snapshot is installed. *)
Lemma installed_sim a i p args b c T e L' lnew : a_inv n a -> (i < n)%nat -> node_ok a i p -> role a i = Follower ->
  cur a i = is_Term args -> is_LastIncludedIndex args = Z.of_nat b ->
  tlog a (is_Term args) = Some (c, T) -> T !! b = Some e -> com_fact a (is_Term args) T b ->
  (take (S b) (lg a i) = take (S b) T /\ L' = lg a i \/ take (S b) (lg a i) <> take (S b) T /\ L' = take (S b) T) ->
  lnew = MkLogEntry (Term e) None :: drop (S b) L' -> raft_wf (installed (raft p) args lnew) ->
  exists a', moves i a a' /\ node_ok a' i (with_raft p (installed (raft p) args lnew)) /\ ack a' i (is_Term args) b.
Proof.
  intros Hinv Hi Hp Hr Hcur Hb HT He Hcf Hacc Hlnew Hwf. destruct (installed_fields (raft p) args lnew) as [Hf Hc].
  injection Hf as F1 F2 F3 F4 F5 F6 F7 F8. rewrite (no_com _ _ _ Hp), Hb in Hc. apply lookup_lt_Some in He as Hlt.
  pose proof (accept_keeps (lg a i) L' T b b Hacc (or_intror (le_n _))) as HLT.
  rewrite <-Hcur. apply (accept_step a i p c T b L' _ (com a i `max` b)); auto; [by rewrite Hcur| |lia|].
  - exists b, e. rewrite F7, F8. split_and!; auto. rewrite <-He. apply (take_eq_lookup _ _ (S b)); [lia|done].
  - destruct (decide (b <= com a i)%nat); [left; lia|right]. rewrite Nat.max_r by lia. rewrite Hcur. split; [lia|done].
Qed.

Lemma InstallSnapshot_sim a i j p args b now : a_inv n a -> (i < n)%nat -> (j < n)%nat -> node_ok a j p ->
  snap_args_ok a args b ->
  exists rf reply a', InstallSnapshot (raft p) args now = Some (rf, reply) /\ moves j a a' /\
    node_ok a' j (with_raft p rf) /\ msg_ok a' (SnapRep i j args reply).
Proof.
  intros Hinv Hi Hj Hp Hargs. destruct (InstallSnapshot_cases (raft p) args now (no_wf _ _ _ Hp)) as (rf & reply & Heq & Hcase).
  exists rf, reply. rewrite Heq. clear Heq. pose proof (install_case_wf _ _ _ _ _ (no_wf _ _ _ Hp) Hcase) as Hwf'.
  destruct (decide (is_Term args < currentTerm (raft p))) as [Hst|Hst].
  { exists a. destruct Hcase; [|lia..]. rewrite with_raft_same. split_and!; auto using moves_refl.
    split_and!; auto. exists b. split; [done|]. simpl. lia. }
  destruct (stepDown_sim a j p (is_Term args) now) as (a1 & Hmv & Hok & Hcur & Hrole & _); auto; [rewrite <-(no_term _ _ _ Hp); lia|].
  apply (snap_args_mono a a1) in Hargs as Hargs1; [|apply Hmv].
  destruct Hargs1 as (Hb & c & T & eT & HT & HeT & HtT & Hcf). pose proof (mv_inv _ _ _ Hmv) as Hinv1.
  pose proof (no_log _ _ _ Hok) as Hlog. pose proof (no_com _ _ _ Hok) as Hcom. pose proof (no_wf _ _ _ Hok) as Hwf.
  cbn [with_raft raft] in Hlog, Hcom, Hwf. apply lookup_lt_Some in HeT as Hlt.
  assert (exists a2, moves j a1 a2 /\ node_ok a2 j (with_raft p rf) /\ ack a2 j (is_Term args) b) as (a2 & Hmv2 & Hok2 & Hack).
  2: { exists a2. split; [done|]. split; [by eapply moves_trans|]. split; [done|]. split_and!; auto. exists b. split; [|done].
       eapply snap_args_mono; [apply (moves_trans _ _ _ _ Hmv Hmv2)|done]. }
  destruct Hcase as [?|rf1 _ Hidx|rf1 e _ Hidx He Hte|rf1 _ Hidx Hne]; [lia| | |].
  - pose proof (com_in_tlog a1 j c T Hinv1) as HcT. rewrite Hcur in HcT. specialize (HcT HT).
    pose proof (wf_commit _ Hwf) as Hwc. fold rf1 in Hcom, Hwc.
    rewrite <-Hcur. apply (accept_step a1 j (with_raft p rf1) c T b (lg a1 j) rf1 (com a1 j)); auto; [by rewrite Hcur|].
    left. split; [|done]. apply (take_prefix_eq _ _ _ (S (com a1 j))); [lia|done].
  - fold rf1 in Hok, Hlog. rewrite Hb in *. destruct (lr_entry _ _ _ _ Hlog He) as (eL & HeL & HtL & _).
    apply (installed_sim a1 j (with_raft p rf1) args b c T eT (lg a1 j)); auto.
    + left. split; [|done]. apply (log_matching (tlog a1) _ _ b eL eT); [apply Hinv1|by eapply li_tmatch, HT; apply Hinv1|
        apply Hinv1|by eapply li_tstart, HT; apply Hinv1|done|done|congruence].
    + rewrite <-(lr_drop _ _ _ Hlog) by lia. f_equal; [f_equal; congruence|]. f_equal. lia.
  - fold rf1 in Hok, Hlog. rewrite Hb in *.
    apply (installed_sim a1 j (with_raft p rf1) args b c T eT (take (S b) T)); auto.
    + right. split; [|done]. intros Heq. destruct (lr_entry_inv _ _ b eT Hlog) as (e' & He' & Ht'); [|lia|].
      * rewrite <-HeT. apply (take_eq_lookup _ _ (S b)); [lia|done].
      * apply (Hne e' He'). congruence.
    + rewrite drop_ge; [congruence|]. rewrite length_take. lia.
Qed.

(** ** Replication: what a leader learns *)

Lemma advanceCommitIndex_sim a i p : a_inv n a -> (i < n)%nat -> node_ok a i p ->
  exists rf a', advanceCommitIndex (raft p) = Some rf /\ moves i a a' /\ node_ok a' i (with_raft p rf).
Proof.
  intros Hinv Hi Hp. destruct (advanceCommitIndex_cases (raft p)) as [->|(N & e & HN & Hs & Hrange & He & Hte & ->)]; [apply Hp| |].
  { exists (raft p), a. rewrite with_raft_same. auto using moves_refl. }
  pose proof (no_com _ _ _ Hp) as Hcom. pose proof (no_log _ _ _ Hp) as Hlog. pose proof (no_role _ _ _ Hp) as Hr.
  assert (exists k : nat, N = Z.of_nat k) as [k ->] by (exists (Z.to_nat N); lia).
  destruct (lr_entry _ _ _ _ Hlog He) as (e' & He' & Ht' & _). rewrite <-(wf_match _ (no_wf _ _ _ Hp)) in HN.
  destruct (commit_quorum _ _ HN) as (q & Hd & Hlen & Hq). rewrite (wf_match _ (no_wf _ _ _ Hp)), (no_n _ _ _ Hp) in Hlen.
  assert (committed n a (cur a i) k (lg a i)) as Hc.
  { split; [|split].
    - exists i. apply leader_tlog; [done|congruence].
    - exists e'. split; [done|]. rewrite Ht', Hte. apply (no_term _ _ _ Hp).
    - exists q. split; [split_and!; auto|].
      + intros v Hv. destruct (Hq v Hv) as (m & Hm & _). apply lookup_lt_Some in Hm.
        by rewrite (wf_match _ (no_wf _ _ _ Hp)), (no_n _ _ _ Hp) in Hm.
      + intros v Hv. destruct (Hq v Hv) as (m & Hm & Hle).
        destruct (no_match _ _ _ Hp Hs _ _ Hm) as [->|[_ (k' & Hk' & Ha)]]; [lia|]. exists k'. split; [lia|done]. }
  apply lookup_lt_Some in He' as Hlt.
  destruct (commit_step a i k) as (a' & Hmv & E1 & E2 & E3 & E4 & E5 & E6); auto; [|lia|].
  { right. exists (cur a i), k, (lg a i). split_and!; auto. lia. }
  exists (raft p <| commitIndex := Z.of_nat k |>), a'. split_and!; auto.
  pose proof (commit_wf (raft p) (Z.of_nat k) (no_wf _ _ _ Hp)) as Hwf. pose proof (wf_commit _ (no_wf _ _ _ Hp)).
  destruct Hp. constructor; simpl; rewrite ?E1, ?E2, ?E3, ?E4, ?E6; auto; try lia.
  - apply Hwf. lia.
  - intros Hl j m Hm. unfold ack_ge. rewrite E5. eauto.
  - eapply elections_mono; [exact (mv_le _ _ _ Hmv)|done].
Qed.

Lemma match_insert_ok a i p (j : nat) (m : Z) :
  0 <= m -> ack_ge a j (cur a i) (Z.to_nat m) ->
  forall j' m', <[j := m]> (matchIndex (raft p)) !! j' = Some m' ->
  matchIndex (raft p) !! j' = Some m' \/ 0 <= m' /\ ack_ge a j' (cur a i) (Z.to_nat m').
Proof. intros Hm Ha j' m' [(<- & <- & _)|[_ H]]%list_lookup_insert_Some; auto. Qed.

Lemma appendReply_sim a i j p args reply b : a_inv n a -> (i < n)%nat -> (j < n)%nat -> node_ok a i p ->
  append_args_ok a args b -> (aer_Success reply = true -> ack a j (ae_Term args) (b + length (ae_Entries args))) ->
  exists rf a', appendReply (raft p) j args true reply = Some rf /\ moves i a a' /\ node_ok a' i (with_raft p rf).
Proof.
  intros Hinv Hi Hj Hp (Hb & _) Hack. unfold appendReply, State_eqb. cbn [negb orb].
  assert (exists rf a', Some (raft p) = Some rf /\ moves i a a' /\ node_ok a' i (with_raft p rf)) as Hstay.
  { exists (raft p), a. rewrite with_raft_same. auto using moves_refl. }
  case_bool_decide as Hs; cbn [negb orb]; [|done]. rewrite (no_term _ _ _ Hp).
  destruct (Z.eqb_spec (cur a i) (ae_Term args)) as [Hct|]; cbn [negb orb]; [|done].
  rewrite Z.gtb_ltb. destruct (Z.ltb_spec (cur a i) (aer_Term reply)).
  { destruct (toFollower_sim a i p (aer_Term reply)) as (a' & ? & ? & _); auto. eauto. }
  pose proof (no_wf _ _ _ Hp) as Hwf. assert (j < npeers (raft p))%nat as Hjn by by rewrite (no_n _ _ _ Hp).
  destruct (next_lookup (raft p) j Hwf Hjn Hs) as (nx & Hnx & Hnx1).
  destruct (aer_Success reply).
  - destruct (match_lookup (raft p) j Hwf Hjn) as [m ->]. obind. cbv zeta.
    set (rf1 := if _ >? m then _ else _).
    assert (node_ok a i (with_raft p rf1)) as Hok1.
    { subst rf1. case_match; [|by rewrite with_raft_same].
      apply node_ok_ext; simpl; auto; [by apply set_match_wf|apply Hp|]. intros _. apply match_insert_ok; [lia|].
      exists (b + length (ae_Entries args))%nat. rewrite Hct. split; [lia|auto]. }
    assert (nextIndex rf1 !! j = Some nx) as -> by (subst rf1; by case_match). obind.
    set (rf2 := if _ >? nx then _ else _).
    assert (node_ok a i (with_raft p rf2)) as Hok2.
    { subst rf2. case_match; [|done].
      apply (node_ok_ext a i (with_raft p rf1)); simpl; auto; [|apply Hok1]. apply set_next_wf; [apply Hok1|lia]. }
    exact (advanceCommitIndex_sim a i _ Hinv Hi Hok2).
  - rewrite Hnx. obind. case_match; [|done].
    destruct (backupNextIndex_spec (raft p) j reply nx Hwf Hnx) as (next & -> & Hmin & _). obind.
    eexists _, a. split; [done|]. split; [by apply moves_refl|].
    apply node_ok_ext; simpl; auto; [|apply Hp]. apply signal_wf, set_next_wf; [done|lia].
Qed.

Lemma snapshotReply_sim a i j p args reply b : a_inv n a -> (i < n)%nat -> (j < n)%nat -> node_ok a i p ->
  snap_args_ok a args b -> (isr_Term reply <= is_Term args -> ack a j (is_Term args) b) ->
  exists rf a', snapshotReply (raft p) j args true reply = Some rf /\ moves i a a' /\ node_ok a' i (with_raft p rf).
Proof.
  intros Hinv Hi Hj Hp (Hb & _) Hack. unfold snapshotReply, State_eqb. cbn [negb orb].
  assert (exists rf a', Some (raft p) = Some rf /\ moves i a a' /\ node_ok a' i (with_raft p rf)) as Hstay.
  { exists (raft p), a. rewrite with_raft_same. auto using moves_refl. }
  case_bool_decide as Hs; cbn [negb orb]; [|done]. rewrite (no_term _ _ _ Hp).
  destruct (Z.eqb_spec (cur a i) (is_Term args)) as [Hct|]; cbn [negb orb]; [|done].
  rewrite Z.gtb_ltb. destruct (Z.ltb_spec (cur a i) (isr_Term reply)).
  { destruct (toFollower_sim a i p (isr_Term reply)) as (a' & ? & ? & _); auto. eauto. }
  pose proof (no_wf _ _ _ Hp) as Hwf. assert (j < npeers (raft p))%nat as Hjn by by rewrite (no_n _ _ _ Hp).
  destruct (next_lookup (raft p) j Hwf Hjn Hs) as (nx & Hnx & Hnx1).
  destruct (match_lookup (raft p) j Hwf Hjn) as [m ->]. obind. cbv zeta.
  set (rf1 := if m <? _ then _ else _).
  assert (node_ok a i (with_raft p rf1)) as Hok1.
  { subst rf1. case_match; [|by rewrite with_raft_same].
    apply node_ok_ext; simpl; auto; [by apply set_match_wf|apply Hp|]. intros _. apply match_insert_ok; [lia|].
    exists b. rewrite Hct. split; [lia|]. apply Hack. lia. }
  assert (nextIndex rf1 !! j = Some nx) as -> by (subst rf1; by case_match). obind.
  set (rf2 := if nx <? _ then _ else _).
  assert (node_ok a i (with_raft p rf2)) as Hok2.
  { subst rf2. case_match; [|done].
    apply (node_ok_ext a i (with_raft p rf1)); simpl; auto; [|apply Hok1]. apply set_next_wf; [apply Hok1|lia]. }
  eexists _, a. split; [done|]. split; [by apply moves_refl|].
  apply (node_ok_ext a i (with_raft p rf2)); simpl; auto; [|apply Hok2]. apply signal_wf, Hok2.
Qed.

(** ** Clients, snapshots, application and restart *)

Lemma Start_sim a i p cmd : a_inv n a -> (i < n)%nat -> node_ok a i p ->
  exists rf r a', Start (raft p) cmd = Some (rf, r) /\ moves i a a' /\ node_ok a' i (with_raft p rf).
Proof.
  intros Hinv Hi Hp. destruct (Start_wf (raft p) cmd (no_wf _ _ _ Hp)) as ([rf r] & Heq & Hwf). simpl in Hwf.
  exists rf, r. rewrite Heq. unfold Start, State_eqb in Heq. case_bool_decide as Hs; simpl in Heq;
    [|simplify_eq; exists a; rewrite with_raft_same; auto using moves_refl].
  pose proof (no_role _ _ _ Hp) as Hr. rewrite Hs in Hr.
  pose proof (wf_next _ (no_wf _ _ _ Hp)) as Hln. pose proof (wf_match _ (no_wf _ _ _ Hp)) as Hlm.
  pose proof (no_n _ _ _ Hp) as Hnp. pose proof (no_me _ _ _ Hp) as Hmei.
  rewrite put_in_range in Heq by (simpl; lia). simpl in Heq.
  rewrite put_in_range in Heq by (simpl; lia). simpl in Heq. injection Heq as <- <-.
  eexists. split; [done|]. split; [apply moves_step; [done|by apply (a_append _ _ i (Some cmd))|]|].
  { intros j Hj. simpl. rewrite !fn_lookup_insert_ne by done. auto 10. }
  pose proof (lr_last _ _ (no_log _ _ _ Hp)) as Hlast.
  assert (log_rel (raft p <| log := log (raft p) ++ [MkLogEntry (currentTerm (raft p)) (Some cmd)] |>)
    (lg a i ++ [MkLogEntry (cur a i) (Some cmd)])) as Hrel.
  { destruct (no_log _ _ _ Hp) as (b & e & Hb & He & Hlg). exists b, e. apply lookup_lt_Some in He as Hlt. simpl.
    split_and!; [done|by apply lookup_app_l_Some|]. rewrite Hlg, (no_term _ _ _ Hp). simpl. by rewrite drop_app_le by lia. }
  pose proof (lr_last _ _ Hrel) as Hlast'. cbv beta iota delta [lastLogIndex] in Hlast'. simpl in Hlast'.
  destruct Hp. constructor; simpl; rewrite ?fn_lookup_insert; auto.
  intros _ j m Hm. rewrite no_me0, Nat2Z.id in Hm.
  apply list_lookup_insert_Some in Hm as [(<- & <- & _)|[_ Hm]].
  - right. unfold lastLogIndex. simpl. rewrite Hlast'. split; [lia|]. eexists. split; [|right; done]. lia.
  - destruct (no_match0 Hs j m Hm) as [|[? (k & ? & ?)]]; [by left|right]. split; [done|]. exists k. simpl. auto.
Qed.

Lemma apply_ok_of a i p : a_inv n a -> node_ok a i p -> apply_ok (raft p).
Proof.
  intros Hinv Hp. pose proof (com_lt a i Hinv). split; [apply Hp|].
  rewrite (lr_last _ _ (no_log _ _ _ Hp)), (no_com _ _ _ Hp). unfold lastIdx. lia.
Qed.

Lemma Snapshot_sim a i p index snap : a_inv n a -> (i < n)%nat -> node_ok a i p ->
  exists rf, Snapshot (raft p) index snap = Some rf /\ node_ok a i (with_raft p rf).
Proof.
  intros Hinv Hi Hp. pose proof (apply_ok_of a i p Hinv Hp) as Hok.
  destruct (Snapshot_wf (raft p) index snap (no_wf _ _ _ Hp) Hok) as (rf & Heq & Hwf & _). exists rf. split; [done|].
  destruct (Snapshot_cases (raft p) index snap (no_wf _ _ _ Hp) Hok) as [[Hs _]|(e & He & Hrange & Hs)];
    rewrite Hs in Heq; injection Heq as <-; [by rewrite with_raft_same|].
  pose proof (wf_lii _ (no_wf _ _ _ Hp)). assert (exists k : nat, index = Z.of_nat k) as [k ->] by (exists (Z.to_nat index); lia).
  destruct (lr_entry _ _ _ _ (no_log _ _ _ Hp) He) as (e' & He' & Hte & _).
  assert (log_rel (raft p <| log := MkLogEntry (Term e) None :: drop (S (Z.to_nat (Z.of_nat k - lastIncludedIndex (raft p)))) (log (raft p)) |>
    <| lastIncludedIndex := Z.of_nat k |>) (lg a i)) as Hrel.
  { exists k, e'. simpl. split_and!; auto. rewrite <-(lr_drop _ _ _ (no_log _ _ _ Hp)) by lia. f_equal; [by rewrite Hte|].
    f_equal. lia. }
  destruct Hp. constructor; simpl; auto.
Qed.

Lemma applier_sim a i p : a_inv n a -> (i < n)%nat -> node_ok a i p ->
  exists r, applier (raft p) = Some r /\
    match r with None => True | Some (rf, d) => node_ok a i (with_raft p rf) /\ dlv_ok a (i, d) end.
Proof.
  intros Hinv Hi Hp. pose proof (apply_ok_of a i p Hinv Hp) as Hok.
  destruct (applier_wf (raft p) (no_wf _ _ _ Hp) Hok) as (r & Heq & Hwf). exists r. split; [done|].
  pose proof (wf_pending _ (no_wf _ _ _ Hp)) as Hpend. pose proof (wf_lii _ (no_wf _ _ _ Hp)).
  pose proof (wf_commit _ (no_wf _ _ _ Hp)) as Hwc. destruct Hok as [Hap Hcl].
  unfold applier in Heq. rewrite Z.geb_leb in Heq. destruct (pendingSnapshot (raft p)); cbn [negb andb] in Heq.
  - injection Heq as <-. destruct Hwf as [Hwf Hok']. split; [|done]. apply node_ok_ext; simpl; auto. apply Hok'.
  - destruct (Z.leb_spec (commitIndex (raft p)) (lastApplied (raft p))); [by injection Heq as <-|].
    destruct (entryAt (raft p) (lastApplied (raft p) + 1)) as [e|] eqn:He; [|done]. injection Heq as <-.
    destruct Hwf as [Hwf Hok']. split; [apply node_ok_ext; simpl; auto; apply Hok'|].
    assert (exists k : nat, lastApplied (raft p) + 1 = Z.of_nat k) as [k Hk] by (exists (Z.to_nat (lastApplied (raft p) + 1)); lia).
    simpl. rewrite Hk in *. destruct (lr_entry _ _ _ _ (no_log _ _ _ Hp) He) as (e' & He' & _ & Hsame).
    rewrite Hsame in He' by lia. pose proof (no_com _ _ _ Hp) as Hcom.
    destruct (com_fact_own a i Hinv) as [?|(t & kc & T & Ht & Hc & Hkc & Htake)]; [lia|].
    exists k, t, kc, T, e. split_and!; auto; [lia|]. rewrite <-He'. symmetry.
    apply (take_eq_lookup _ _ (S (com a i))); [lia|done].
Qed.

Lemma Make_ids (k i : nat) ps now (rf : Raft Cmd) : Make k i ps now = Some rf -> me rf = i /\ npeers rf = k.
Proof.
  unfold Make, readPersist. intros Heq. repeat (case_match || destruct (gob_dec _) as [[]|]; simpl in Heq; try done); by simplify_eq/=.
Qed.

Lemma Restart_sim a i p now : a_inv n a -> (i < n)%nat -> node_ok a i p ->
  exists rf a', Make (npeers (raft p)) i (persister (raft p)) now = Some rf /\ moves i a a' /\ node_ok a' i (MkProc rf []).
Proof.
  intros Hinv Hi Hp. pose proof (no_wf _ _ _ Hp) as Hwf.
  destruct (Make_recovers (raft p) now) as (rf & Hm & Hper & Hs & Hc & Hap & Hwf'); [apply Hwf|done|].
  rewrite (no_me _ _ _ Hp) in Hm. exists rf. destruct (Make_ids _ _ _ _ _ Hm) as [Hme Hn].
  pose proof (wf_commit _ Hwf) as Hwc. pose proof (no_com _ _ _ Hp) as Hcom. pose proof (wf_lii _ Hwf).
  unfold persistent in Hper. injection Hper as P1 P2 P3 P4 P5 P6.
  assert (moves i a (a <| role := <[i := Follower]> (role a) |>
    <| com := <[i := Z.to_nat (lastIncludedIndex (raft p))]> (com a) |>)) as Hmv.
  { apply moves_step; [done|apply (a_restart _ _ i (Z.to_nat (lastIncludedIndex (raft p)))); lia|frame_tac]. }
  eexists. split; [done|]. split; [exact Hmv|].
  destruct Hp. constructor; simpl; rewrite ?fn_lookup_insert; auto; try congruence; try lia.
  - by eapply lr_same.
  - intros c Hv. rewrite P2. auto.
Qed.

(** ** The simulation *)

Definition simulated (o : Outcome Cmd) a : Prop :=
  match o with
  | Disabled => True
  | Panic => False
  | Next s' => exists a', rtc (astep n) a a' /\ coupled s' a'
  end.

Lemma at_proc_sim s a i f : coupled s a ->
  (forall p, procs s !! i = Some p -> (i < n)%nat -> node_ok a i p -> simulated (f p) a) ->
  simulated (at_proc s i f) a.
Proof.
  intros Hc Hf. unfold at_proc. destruct (procs s !! i) as [p|] eqn:Hp; [|done].
  apply Hf; [done| |by apply Hc]. rewrite <-(cp_len _ _ Hc). by apply lookup_lt_Some in Hp.
Qed.

Lemma net_lookup s a k m : coupled s a -> net s !! k = Some m -> msg_ok a m.
Proof. intros Hc Hm. exact (Forall_lookup_1 _ _ _ _ (cp_net _ _ Hc) Hm). Qed.

Lemma next_sim s a a' i p ms ds :
  coupled s a -> moves i a a' -> node_ok a' i p -> Forall (msg_ok a') ms ->
  Forall (fun d => dlv_ok a' (i, d)) ds -> simulated (Next (update s i p ms ds)) a.
Proof. intros Hc Hmv Hp Hm Hd. exists a'. split; [apply Hmv|]. by eapply coupled_update. Qed.

Definition vote_label (l : Label Cmd) : bool :=
  match l with LElection _ _ | LVoteRequest _ _ _ | LVote _ _ | LVoteReply _ _ _ => true | _ => false end.

Definition replicate_label (l : Label Cmd) : bool :=
  match l with LReplicate _ _ | LAppend _ _ | LAppendReply _ | LSnap _ _ | LSnapReply _ => true | _ => false end.

Definition service_label (l : Label Cmd) : bool :=
  match l with LStart _ _ | LSnapshot _ _ _ | LApply _ | LRestart _ _ => true | _ => false end.

(** The steps of elections. *)
Lemma vote_step_sim s a l : coupled s a -> vote_label l = true -> simulated (exec s l) a.
Proof.
  intros Hc Hl. pose proof (cp_inv _ _ Hc) as Hinv.
  destruct l as [i now|i e j|k now|e k now|i j|k now|k|k now|k|i cmd|i index snap|i|i now]; try done; clear Hl; unfold exec.
  - apply at_proc_sim; [done|]. intros p _ Hi Hp. pose proof (startElection_sim a i p now Hinv Hi Hp) as Hs.
    destruct (startElection (raft p) now) as [rf term]. destruct Hs as (a' & Hmv & Hok). by eapply next_sim.
  - apply at_proc_sim; [done|]. intros p _ Hi Hp. destruct (elections p !! e) as [el|] eqn:He; [|done].
    case_bool_decide as Hj; [|done]. pose proof (no_elections _ _ _ Hp) as Hels.
    pose proof (Forall_lookup_1 _ _ _ _ Hels He) as Hel.
    destruct (voteRequest_total (raft p) (el_term el) (no_wf _ _ _ Hp)) as [r Hr]. rewrite Hr. simpl.
    destruct r as [args|].
    + eapply next_sim; [done|by apply moves_refl|done| |done]. apply Forall_singleton.
      eapply voteRequest_ok; eauto. destruct Hel as (q & _ & _ & _ & Hwt & _). auto.
    + eapply next_sim; [done|by apply moves_refl| |done|done].
      destruct Hp. constructor; simpl; auto. apply Forall_insert; [done|]. destruct Hel as (q & ? & ? & ? & Hwt & Hq).
      exists q. split_and!; auto; [intros j' [_ Hj']%list_elem_of_filter; auto|].
      intros v Hv. destruct (Hq v Hv) as (? & ? & ?). simpl. split_and!; auto.
      rewrite list_elem_of_filter. naive_solver.
  - destruct (net s !! k) as [[i j args| | | | |]|] eqn:Hm; try done. apply (net_lookup _ a) in Hm as (Hi & Hj & Hargs); [|done].
    apply at_proc_sim; [done|]. intros p _ _ Hp.
    destruct (RequestVote_sim a i j p args now) as (rf & reply & a' & -> & Hmv & Hok & Hmsg); auto.
    eapply next_sim; eauto.
  - destruct (net s !! k) as [[|i j args reply| | | |]|] eqn:Hm; try done. apply (net_lookup _ a) in Hm; [|done].
    apply at_proc_sim; [done|]. intros p _ Hi Hp. destruct (elections p !! e) as [el|] eqn:He; [|done].
    case_bool_decide as Hj; [|done]. cbn [andb]. destruct (Z.eqb_spec (rv_Term args) (el_term el)); [|done].
    destruct (voteReply_sim a i j p e el args reply now) as (rf & votes & a' & -> & Hmv & Hok); auto.
    by eapply next_sim.
Qed.

(** The steps of replication. *)
Lemma replicate_step_sim s a l : coupled s a -> replicate_label l = true -> simulated (exec s l) a.
Proof.
  intros Hc Hl. pose proof (cp_inv _ _ Hc) as Hinv.
  destruct l as [i now|i e j|k now|e k now|i j|k now|k|k now|k|i cmd|i index snap|i|i now]; try done; clear Hl; unfold exec.
  - apply at_proc_sim; [done|]. intros p _ Hi Hp. case_bool_decide as Hj; [|done].
    rewrite (no_n _ _ _ Hp) in Hj. apply others_of_lt in Hj as [Hj _].
    destruct (replicateOnce_ok a i j p Hinv Hi Hj Hp) as (r & -> & Hr). simpl. destruct r as [|args|args].
    + exists a. done.
    + eapply next_sim; [done|by apply moves_refl|done|by apply Forall_singleton|done].
    + eapply next_sim; [done|by apply moves_refl|done|by apply Forall_singleton|done].
  - destruct (net s !! k) as [[| |i j args| | |]|] eqn:Hm; try done. apply (net_lookup _ a) in Hm as (Hi & Hj & b & Hargs); [|done].
    apply at_proc_sim; [done|]. intros p _ _ Hp.
    destruct (AppendEntries_sim a i j p args b now) as (rf & reply & a' & -> & Hmv & Hok & Hmsg); auto.
    eapply next_sim; eauto.
  - destruct (net s !! k) as [[| | |i j args reply| |]|] eqn:Hm; try done.
    apply (net_lookup _ a) in Hm as (Hi & Hj & b & Hargs & Hack); [|done].
    apply at_proc_sim; [done|]. intros p _ _ Hp.
    destruct (appendReply_sim a i j p args reply b) as (rf & a' & -> & Hmv & Hok); auto. by eapply next_sim.
  - destruct (net s !! k) as [[| | | |i j args|]|] eqn:Hm; try done. apply (net_lookup _ a) in Hm as (Hi & Hj & b & Hargs); [|done].
    apply at_proc_sim; [done|]. intros p _ _ Hp.
    destruct (InstallSnapshot_sim a i j p args b now) as (rf & reply & a' & -> & Hmv & Hok & Hmsg); auto.
    eapply next_sim; eauto.
  - destruct (net s !! k) as [[| | | | |i j args reply]|] eqn:Hm; try done.
    apply (net_lookup _ a) in Hm as (Hi & Hj & b & Hargs & Hack); [|done].
    apply at_proc_sim; [done|]. intros p _ _ Hp.
    destruct (snapshotReply_sim a i j p args reply b) as (rf & a' & -> & Hmv & Hok); auto. by eapply next_sim.
Qed.

(** The steps with the service, and restarts. *)
Lemma service_step_sim s a l : coupled s a -> service_label l = true -> simulated (exec s l) a.
Proof.
  intros Hc Hl. pose proof (cp_inv _ _ Hc) as Hinv.
  destruct l as [i now|i e j|k now|e k now|i j|k now|k|k now|k|i cmd|i index snap|i|i now]; try done; clear Hl; unfold exec.
  - apply at_proc_sim; [done|]. intros p _ Hi Hp.
    destruct (Start_sim a i p cmd Hinv Hi Hp) as (rf & r & a' & -> & Hmv & Hok). by eapply next_sim.
  - apply at_proc_sim; [done|]. intros p _ Hi Hp.
    destruct (Snapshot_sim a i p index snap Hinv Hi Hp) as (rf & -> & Hok). eapply next_sim; eauto using moves_refl.
  - apply at_proc_sim; [done|]. intros p _ Hi Hp.
    destruct (applier_sim a i p Hinv Hi Hp) as (r & -> & Hr). simpl. destruct r as [[rf d]|]; [|done].
    destruct Hr as [Hok Hd]. eapply next_sim; eauto using moves_refl.
  - apply at_proc_sim; [done|]. intros p _ Hi Hp.
    destruct (Restart_sim a i p now Hinv Hi Hp) as (rf & a' & -> & Hmv & Hok). by eapply next_sim.
Qed.

(** Every step of the cluster is a sequence of abstract steps, and no handler
    panics. *)
Lemma exec_sim s a l : coupled s a -> simulated (exec s l) a.
Proof. intros Hc. destruct l; first [by apply vote_step_sim|by apply replicate_step_sim|by apply service_step_sim]. Qed.

(** ** Whole runs *)

Lemma init_node_ok i : (i < n)%nat -> exists p, init_proc (Cmd := Cmd) n i = Some p /\ node_ok a_init i p.
Proof.
  intros Hi. destruct (Make_initial_wf (Cmd := Cmd) n i 0 Hi) as (rf & Hm & Hwf & Hap). unfold init_proc. rewrite Hm. simpl.
  eexists. split; [done|]. unfold Make in Hm. simpl in Hm. injection Hm as <-.
  constructor; simpl; auto; try done. by exists 0%nat, dummy.
Qed.

Lemma init_coupled : exists s, init_cluster (Cmd := Cmd) n = Some s /\ coupled s a_init.
Proof.
  unfold init_cluster. destruct (mapM (init_proc n) (seq 0 n)) as [ps|] eqn:Hps.
  - simpl. eexists. split; [done|]. pose proof Hps as Hlen%length_mapM. rewrite length_seq in Hlen.
    apply mapM_Some_1 in Hps. constructor; simpl; auto; [apply a_init_inv|].
    intros i p Hp. apply lookup_lt_Some in Hp as Hlt. destruct (Forall2_lookup_r _ _ _ _ _ Hps Hp) as (j & Hj & Hjp).
    apply lookup_seq in Hj as [-> _]. simpl in Hjp. destruct (init_node_ok i) as (p' & Hp' & Hok); [lia|].
    by assert (p = p') as -> by congruence.
  - exfalso. apply mapM_None in Hps. apply Exists_exists in Hps as (i & Hi & Hnone). apply elem_of_seq in Hi.
    destruct (init_node_ok i) as (p' & Hp' & _); [lia|]. congruence.
Qed.

Lemma run_sim s a ls : coupled s a -> exists s' a', run s ls = Next s' /\ rtc (astep n) a a' /\ coupled s' a'.
Proof.
  revert s a. induction ls as [|l ls IH]; intros s a Hc; simpl; [by exists s, a|].
  pose proof (exec_sim s a l Hc) as Hs. destruct (exec s l) as [| |s1]; simpl in Hs; [by apply IH|done|].
  destruct Hs as (a1 & Hr & Hc1). destruct (IH s1 a1 Hc1) as (s' & a' & Hrun & Hr' & Hc').
  exists s', a'. split_and!; auto. by etrans.
Qed.

(** Any schedule of a fresh cluster runs to its end, in a state that an
    abstract run reaches too. *)
Lemma start_run_sim ls : exists s a, start_run n ls = Next s /\ a_reachable n a /\ coupled s a.
Proof.
  destruct init_coupled as (s0 & Hs0 & Hc0). unfold start_run. rewrite Hs0. by apply run_sim.
Qed.

End Refine.
