(* ===== verification/RaftApply.v ===== *)
(** * What a service sees of a Raft cluster

    The apply channel as an interface.  Everything a service is handed comes
    from a service: the commands were given to Start and the snapshots to
    Snapshot, whatever the network does and whichever peers restart in
    between; commands come in the order of their indices without gaps, and
    two peers that deliver a command for the same index deliver the same
    one.  The compositions of the services with Raft are proved from these
    facts alone. *)

From S2P Require Import Prelude Persister Raft RaftNode RaftSpec RaftCluster RaftRefine.

Section Apply.
Context {Cmd : Type} `{GZ : Gob Z} `{GL : Gob (list (LogEntry Cmd))} (n : nat).
Implicit Types (s : Cluster Cmd) (rf : Raft Cmd) (p : Proc Cmd) (l : Label Cmd).

(** ** The parts of a peer that concern the service *)

Definition core rf : list (LogEntry Cmd) * Z * bytes * Z * bool * bytes * Z :=
  (log rf, lastIncludedIndex rf, snapshot rf, lastApplied rf, pendingSnapshot rf,
   pendingSnapshotData rf, pendingSnapshotIndex rf).

Ltac core_tac H := repeat (case_match || (destruct (entryAt _ _); simpl in H)); by simplify_eq/=.

Lemma core_RequestVote rf args now rf' reply : RequestVote rf args now = Some (rf', reply) -> core rf' = core rf.
Proof.
  unfold RequestVote. rewrite Z.gtb_ltb. intros Hr.
  destruct (currentTerm rf <? rv_Term args); cbv zeta in Hr; core_tac Hr.
Qed.

Lemma core_becomeLeader rf t now rf' : becomeLeader rf t now = Some rf' -> core rf' = core rf.
Proof. unfold becomeLeader. intros H. case_match; [by simplify_eq|]. destruct (put _ _ _); by simplify_eq/=. Qed.

Lemma core_voteReply rf t v reply now rf' v' : voteReply rf t v reply now = Some (rf', v') -> core rf' = core rf.
Proof.
  unfold voteReply. intros H. repeat (case_match; [by simplify_eq|]). case_match; [|by simplify_eq].
  case_match; [|by simplify_eq]. destruct (becomeLeader _ _ _) eqn:Hb; simplify_eq/=. by eapply core_becomeLeader.
Qed.

Lemma core_stepDown rf t now : core (stepDown rf t now) = core rf.
Proof. unfold stepDown. by destruct (_ >? _). Qed.

Lemma core_advanceCommitIndex rf rf' : advanceCommitIndex rf = Some rf' -> core rf' = core rf.
Proof.
  unfold advanceCommitIndex. intros H. case_match; [by simplify_eq|]. destruct (_ !! _); [|done]. simpl in H.
  case_match; [|by simplify_eq]. destruct (entryAt _ _); [|done]. simpl in H. case_match; by simplify_eq.
Qed.

Lemma core_backupNextIndex rf j reply rf' : backupNextIndex rf j reply = Some rf' -> core rf' = core rf.
Proof. unfold backupNextIndex, mbind, option_bind. intros H. repeat case_match; by simplify_eq/=. Qed.

Lemma core_appendReply rf j args ok reply rf' : appendReply rf j args ok reply = Some rf' -> core rf' = core rf.
Proof.
  unfold appendReply. intros H. case_match; [by simplify_eq|]. case_match; [by simplify_eq|].
  case_match.
  - destruct (matchIndex rf !! j); [|done]. cbn [mbind option_bind] in H. destruct (nextIndex _ !! j); [|done]. cbn [mbind option_bind] in H.
    apply core_advanceCommitIndex in H as ->. repeat case_match; done.
  - destruct (nextIndex rf !! j); [|done]. cbn [mbind option_bind] in H. case_match; [|by simplify_eq].
    destruct (backupNextIndex _ _ _) eqn:Hb; simplify_eq/=. by apply core_backupNextIndex in Hb.
Qed.

Lemma core_snapshotReply rf j args ok reply rf' : snapshotReply rf j args ok reply = Some rf' -> core rf' = core rf.
Proof.
  unfold snapshotReply. intros H. case_match; [by simplify_eq|]. case_match; [by simplify_eq|].
  destruct (matchIndex rf !! j); [|done]. cbn [mbind option_bind] in H. destruct (nextIndex _ !! j); simplify_eq/=. repeat case_match; done.
Qed.

(** ** Where commands and snapshots come from *)

Variables (Pc : Cmd -> Prop) (Ps : Z -> bytes -> Prop).

Definition entries_from (es : list (LogEntry Cmd)) : Prop := Forall (fun e => exists c, Command e = Some c /\ Pc c) es.

(** Either nothing was ever compacted, or the snapshot is one of the service. *)
Definition snap_from (index : Z) (data : bytes) : Prop := index = 0 /\ data = [] \/ 0 < index /\ Ps index data.

Record peer_from rf : Prop := {
  pf_log : entries_from (drop 1 (log rf));
  pf_snap : snap_from (lastIncludedIndex rf) (snapshot rf);
  pf_pending : pendingSnapshot rf = true -> 0 < pendingSnapshotIndex rf /\ Ps (pendingSnapshotIndex rf) (pendingSnapshotData rf);
}.

Definition msg_from (m : Msg Cmd) : Prop :=
  match m with
  | AppendReq _ _ args => entries_from (ae_Entries args)
  | SnapReq _ _ args => snap_from (is_LastIncludedIndex args) (is_Data args)
  | _ => True
  end.

Definition dlv_from (d : ApplyMsg Cmd) : Prop :=
  match d with
  | CommandMsg c index => 0 < index /\ exists cmd, c = Some cmd /\ Pc cmd
  | SnapshotMsg data _ index => 0 < index /\ Ps index data
  end.

Record cluster_from s : Prop := {
  cf_procs : forall i p, procs s !! i = Some p -> peer_from (raft p);
  cf_net : Forall msg_from (net s);
}.

(** A command counts from the moment a leader accepts it. *)
Definition label_from s l : Prop :=
  match l with
  | LStart i cmd => forall p, procs s !! i = Some p -> state (raft p) = Leader -> Pc cmd
  | LSnapshot _ index snap => Ps index snap
  | _ => True
  end.

Lemma peer_from_core rf rf' : core rf' = core rf -> peer_from rf -> peer_from rf'.
Proof. unfold core. intros [= H1 H2 H3 H4 H5 H6 H7] [? ? ?]. constructor; rewrite ?H1, ?H2, ?H3, ?H5, ?H6, ?H7; auto. Qed.

Lemma entries_from_drop es k : entries_from es -> entries_from (drop k es).
Proof. apply Forall_drop. Qed.

Lemma merge_from old es : entries_from old -> entries_from es -> entries_from (merge_entries old es).
Proof.
  intros Ho He. revert old Ho. induction He as [|e es He Hes IH]; intros old Ho; [by destruct old|].
  destruct Ho as [|o old Ho Hold]; [by constructor|]. simpl.
  destruct (Term o =? Term e); constructor; auto. by apply IH.
Qed.

(** *** The handlers *)

Lemma accepted_from rf args : raft_wf rf -> lastIncludedIndex rf <= ae_PrevLogIndex args ->
  peer_from rf -> entries_from (ae_Entries args) -> peer_from (accepted rf args).
Proof.
  intros Hwf Hle [Hl Hs Hp] He. pose proof (accepted_log rf args) as (Hlog & Hlii & _).
  assert (snapshot (accepted rf args) = snapshot rf /\ pendingSnapshot (accepted rf args) = pendingSnapshot rf /\
    pendingSnapshotData (accepted rf args) = pendingSnapshotData rf /\
    pendingSnapshotIndex (accepted rf args) = pendingSnapshotIndex rf) as (H1 & H2 & H3 & H4).
  { unfold accepted. cbv zeta. destruct (len _ >? 0); simpl; destruct (_ >? _); done. }
  constructor; rewrite ?H1, ?H2, ?H3, ?H4, ?Hlii; auto. rewrite Hlog.
  destruct (Z.to_nat (ae_PrevLogIndex args + 1 - lastIncludedIndex rf)) as [|k] eqn:Hk; [lia|].
  pose proof (log_nonempty rf Hwf). destruct (log rf) as [|e0 lg]; simpl in *; [lia|].
  rewrite drop_0 in *. apply Forall_app. split; [by apply Forall_take|]. apply merge_from; [by apply Forall_drop|done].
Qed.

Lemma installed_from rf args e rest : lastIncludedIndex rf < is_LastIncludedIndex args -> 0 <= lastIncludedIndex rf ->
  entries_from rest -> snap_from (is_LastIncludedIndex args) (is_Data args) -> peer_from rf -> peer_from (installed rf args (e :: rest)).
Proof.
  intros Hlt H0 Hr [[Hz _]|Hs] [_ _ Hp]; [lia|]. unfold installed. cbv zeta. simpl.
  destruct (_ >? _); constructor; simpl; rewrite ?drop_0; auto; by right.
Qed.

Lemma AppendEntries_from rf args now rf' reply : raft_wf rf -> AppendEntries rf args now = Some (rf', reply) ->
  peer_from rf -> entries_from (ae_Entries args) -> peer_from rf' /\ lastApplied rf' = lastApplied rf.
Proof.
  intros Hwf Hr Hp He. destruct (AppendEntries_cases rf args now Hwf) as (rf2 & r2 & Heq & Hc). rewrite Hr in Heq.
  injection Heq as <- <-. pose proof (core_stepDown rf (ae_Term args) now) as Hcore.
  assert (peer_from (stepDown rf (ae_Term args) now)) as Hsd by (by eapply peer_from_core).
  assert (lastApplied (stepDown rf (ae_Term args) now) = lastApplied rf) as Hla by (unfold core in Hcore; congruence).
  destruct Hc as [|rf1 Ht|rf1 Ht|rf1 ? ? Ht|rf1 ? Ht Hrange]; try by auto.
  split; [apply accepted_from; [by apply stepDown_wf|apply Hrange|done..]|]. subst rf1. rewrite <-Hla.
  destruct (accepted_fields (stepDown rf (ae_Term args) now) args) as [Hf _]. by simplify_eq.
Qed.

Lemma InstallSnapshot_from rf args now rf' reply : raft_wf rf -> InstallSnapshot rf args now = Some (rf', reply) ->
  peer_from rf -> snap_from (is_LastIncludedIndex args) (is_Data args) -> peer_from rf' /\ lastApplied rf' = lastApplied rf.
Proof.
  intros Hwf Hr Hp He. destruct (InstallSnapshot_cases rf args now Hwf) as (rf2 & r2 & Heq & Hc). rewrite Hr in Heq.
  injection Heq as <- <-. pose proof (core_stepDown rf (is_Term args) now) as Hcore.
  assert (peer_from (stepDown rf (is_Term args) now)) as Hsd by (by eapply peer_from_core).
  assert (lastApplied (stepDown rf (is_Term args) now) = lastApplied rf) as Hla by (unfold core in Hcore; congruence).
  pose proof (wf_lii _ (stepDown_wf rf (is_Term args) now Hwf)) as H0.
  assert (forall lg, lastApplied (installed (stepDown rf (is_Term args) now) args lg) = lastApplied rf) as Hin.
  { intros lg. rewrite <-Hla. unfold installed. cbv zeta. by destruct (_ >? _). }
  destruct Hc as [|rf1 Ht|rf1 e Ht Hlt|rf1 Ht Hlt]; try by auto.
  - split; [|apply Hin]. apply installed_from; auto. destruct Hsd as [Hl _ _]. apply (entries_from_drop _ (Z.to_nat
      (is_LastIncludedIndex args - lastIncludedIndex (stepDown rf (is_Term args) now)))) in Hl. rewrite drop_drop in Hl. exact Hl.
  - split; [|apply Hin]. apply installed_from; auto. constructor.
Qed.

Lemma Start_from rf cmd rf' res : Start rf cmd = Some (rf', res) -> (0 < length (log rf))%nat -> (state rf = Leader -> Pc cmd) -> peer_from rf ->
  peer_from rf' /\ lastApplied rf' = lastApplied rf.
Proof.
  unfold Start, mbind, option_bind. intros H Hlen Hc Hp. unfold State_eqb in H. case_bool_decide as Hst; cbn [negb] in H; [|by simplify_eq]. specialize (Hc Hst).
  repeat (case_match; [|done]). injection H as <- <-. split; [|done].
  destruct Hp as [Hl Hs Hpe]. constructor; simpl; auto. rewrite drop_app_le by lia. apply Forall_app. split; [done|].
  constructor; [|constructor]. simpl. eauto.
Qed.

Lemma Snapshot_from rf index snap rf' : raft_wf rf -> apply_ok rf -> Snapshot rf index snap = Some rf' -> Ps index snap ->
  peer_from rf -> peer_from rf' /\ lastApplied rf' = lastApplied rf.
Proof.
  intros Hwf Hok Hr Hs Hp. destruct (Snapshot_cases rf index snap Hwf Hok) as [[Heq _]|(e & _ & Hi & Heq)];
    rewrite Hr in Heq; injection Heq as ->; [done|]. split; [|done]. pose proof (wf_lii _ Hwf). destruct Hp as [Hl _ Hpe].
  constructor; simpl; auto; [|right; split; [lia|done]]. rewrite drop_0.
  apply (entries_from_drop _ (Z.to_nat (index - lastIncludedIndex rf))) in Hl. rewrite drop_drop in Hl. exact Hl.
Qed.

(** The next message the applier sends. *)
Lemma applier_from rf rf' msg : raft_wf rf -> applier rf = Some (Some (rf', msg)) -> peer_from rf ->
  peer_from rf' /\ dlv_from msg /\
  match msg with
  | CommandMsg _ index => index = lastApplied rf + 1
  | SnapshotMsg _ _ index => lastApplied rf < index
  end /\
  lastApplied rf' = match msg with CommandMsg _ index => index | SnapshotMsg _ _ index => index end.
Proof.
  unfold applier. intros Hwf H Hp. pose proof (wf_pending _ Hwf) as Hpe. pose proof (wf_lii _ Hwf) as H0.
  destruct (negb (pendingSnapshot rf) && _); [done|]. destruct (pendingSnapshot rf) eqn:Hps.
  - simplify_eq/=. destruct Hp as [Hl Hs Hpend]. destruct (Hpend Hps). split_and!; auto; [|lia]. by constructor.
  - destruct (entryAt rf _) as [e|] eqn:He; [|done]. simplify_eq/=. destruct Hp as [Hl Hs Hpend].
    apply entryAt_Some in He as [Hle He]. split_and!; auto; [by constructor|lia|].
    assert (drop 1 (log rf) !! (Z.to_nat (lastApplied rf - lastIncludedIndex rf)) = Some e) as Hd.
    { rewrite lookup_drop, <-He. f_equal. lia. }
    apply (Forall_lookup_1 _ _ _ _ Hl Hd).
Qed.

(** ** Steps of the cluster *)

Definition index_of (msg : ApplyMsg Cmd) : Z :=
  match msg with CommandMsg _ index => index | SnapshotMsg _ _ index => index end.

(** [msg] may follow a message for index [k] on the apply channel. *)
Definition follows (k : Z) (msg : ApplyMsg Cmd) : Prop :=
  match msg with CommandMsg _ index => index = k + 1 | SnapshotMsg _ _ index => k < index end.

Definition applied_of s : list Z := (fun p => lastApplied (raft p)) <$> procs s.

(** A step that hands nothing to a service. *)
Definition quiet s s' : Prop := delivered s' = delivered s /\ applied_of s' = applied_of s.

Definition step_effect s l s' : Prop :=
  match l with
  | LApply i => exists p rf msg, procs s !! i = Some p /\ s' = update s i (with_raft p rf) [] [msg] /\
      dlv_from msg /\ follows (lastApplied (raft p)) msg /\ lastApplied rf = index_of msg
  | LRestart i now => exists p rf, procs s !! i = Some p /\ s' = update s i (MkProc rf []) [] [] /\
      lastApplied rf = lastIncludedIndex (raft p) /\ snap_from (lastIncludedIndex (raft p)) (ReadSnapshot (persister (raft p)))
  | _ => quiet s s'
  end.

Lemma from_update s i p ms ds : cluster_from s -> peer_from (raft p) -> Forall msg_from ms -> cluster_from (update s i p ms ds).
Proof.
  intros [Hp Hn] Hi Hm. constructor; simpl; [|by apply Forall_app].
  intros j q Hq. apply list_lookup_insert_Some in Hq as [(_ & <- & _)|[_ Hq]]; eauto.
Qed.

Lemma quiet_update s i p p' ms : procs s !! i = Some p -> lastApplied (raft p') = lastApplied (raft p) -> quiet s (update s i p' ms []).
Proof.
  intros Hp Ha. split; simpl; [by rewrite app_nil_r|]. unfold applied_of. simpl. rewrite list_fmap_insert, Ha.
  apply list_insert_id. by rewrite list_lookup_fmap, Hp.
Qed.

Lemma quiet_step s i p p' ms : cluster_from s -> procs s !! i = Some p -> peer_from (raft p') ->
  lastApplied (raft p') = lastApplied (raft p) -> Forall msg_from ms ->
  cluster_from (update s i p' ms []) /\ quiet s (update s i p' ms []).
Proof. intros. split; [by apply from_update|by eapply quiet_update]. Qed.

Lemma core_step s i p p' ms : cluster_from s -> procs s !! i = Some p -> core (raft p') = core (raft p) -> Forall msg_from ms ->
  cluster_from (update s i p' ms []) /\ quiet s (update s i p' ms []).
Proof.
  intros Hs Hp Hc Hm. apply (quiet_step s i p); auto; [|unfold core in Hc; congruence].
  eapply peer_from_core; [done|]. by eapply cf_procs.
Qed.

Lemma replicateOnce_from rf j r : raft_wf rf -> (j < npeers rf)%nat -> peer_from rf -> replicateOnce rf j = Some r ->
  match r with
  | SendNothing => True
  | SendSnapshot args => snap_from (is_LastIncludedIndex args) (is_Data args)
  | SendEntries args => entries_from (ae_Entries args)
  end.
Proof.
  intros Hwf Hj Hp Hr. destruct (replicateOnce_cases rf j Hwf Hj) as (r' & Heq & Hc). rewrite Hr in Heq. injection Heq as <-.
  destruct r as [|args|args]; [done|destruct Hc as [_ ->]; apply Hp|]. destruct Hc as (_ & e & Hrange & _ & ->). simpl.
  assert (exists k, Z.to_nat (ae_PrevLogIndex args + 1 - lastIncludedIndex rf) = (1 + k)%nat) as [k ->].
  { exists (Z.to_nat (ae_PrevLogIndex args - lastIncludedIndex rf)). lia. }
  rewrite <-drop_drop. apply entries_from_drop, Hp.
Qed.

Lemma durable_snapshot rf : durable rf -> ReadSnapshot (persister rf) = snapshot rf.
Proof. intros [->|[_ Hp]]; [done|]. unfold persistent in Hp. by simplify_eq. Qed.

Lemma exec_step s a l s' : coupled n s a -> cluster_from s -> label_from s l -> exec s l = Next s' ->
  cluster_from s' /\ step_effect s l s'.
Proof.
  intros Hc Hf Hl He. destruct l as [i now|i e j|k now|e k now|i j|k now|k|k now|k|i cmd|i index snap|i|i now]; unfold exec in He;
    try (destruct (net s !! k) as [[]|] eqn:Hk; try done; apply (Forall_lookup_1 _ _ _ _ (cf_net _ Hf)) in Hk);
    apply at_proc_Next in He as (p & Hp & He); pose proof (cp_procs _ _ _ Hc _ _ Hp) as Hok;
    pose proof (no_wf _ _ _ _ Hok) as Hwf; pose proof (cf_procs _ Hf _ _ Hp) as Hpf; simpl in *.
  - simplify_eq/=. by eapply core_step.
  - destruct (elections p !! e); [|done]. case_bool_decide; [|done].
    destruct (voteRequest _ _) as [[]|]; simplify_eq/=; eapply core_step; eauto.
  - destruct (RequestVote _ _ _) as [[]|] eqn:Hr; simplify_eq/=. apply core_RequestVote in Hr. eapply core_step; eauto.
  - destruct (elections p !! e) as [el|]; [|done]. destruct (_ && _); [|done].
    destruct (voteReply _ _ _ _ _) as [[]|] eqn:Hr; simplify_eq/=. apply core_voteReply in Hr. eapply core_step; eauto.
  - case_bool_decide as Hj; [|done]. destruct (replicateOnce _ _) as [r|] eqn:Hr; [|done].
    assert (j < npeers (raft p))%nat as Hlt by (unfold others_of in Hj; apply list_elem_of_filter in Hj as [_ [_ ?]%elem_of_seq]; lia).
    apply (replicateOnce_from _ _ _ Hwf Hlt Hpf) in Hr. destruct r; simplify_eq/=; [done|..]; eapply core_step; eauto.
  - destruct (AppendEntries _ _ _) as [[]|] eqn:Hr; simplify_eq/=.
    destruct (AppendEntries_from _ _ _ _ _ Hwf Hr Hpf Hk). eapply quiet_step; eauto.
  - destruct (appendReply _ _ _ _ _) eqn:Hr; simplify_eq/=. apply core_appendReply in Hr. eapply core_step; eauto.
  - destruct (InstallSnapshot _ _ _) as [[]|] eqn:Hr; simplify_eq/=.
    destruct (InstallSnapshot_from _ _ _ _ _ Hwf Hr Hpf Hk). eapply quiet_step; eauto.
  - destruct (snapshotReply _ _ _ _ _) eqn:Hr; simplify_eq/=. apply core_snapshotReply in Hr. eapply core_step; eauto.
  - destruct (Start _ _) as [[]|] eqn:Hr; simplify_eq/=.
    destruct (Start_from _ _ _ _ Hr (log_nonempty _ Hwf) (Hl _ Hp) Hpf). eapply quiet_step; eauto.
  - destruct (Snapshot _ _ _) eqn:Hr; simplify_eq/=.
    destruct (Snapshot_from _ _ _ _ Hwf (apply_ok_of _ _ _ _ (cp_inv _ _ _ Hc) Hok) Hr Hl Hpf). eapply quiet_step; eauto.
  - destruct (applier _) as [[[rf msg]|]|] eqn:Hr; simplify_eq/=.
    destruct (applier_from _ _ _ Hwf Hr Hpf) as (Hpf' & Hd & Hfo & Hla). split; [by apply from_update|].
    exists p, rf, msg. split_and!; auto; by destruct msg.
  - destruct (Make_recovers (raft p) now) as (rf & Hm & Hper & _ & _ & Hap & Hwf'); [apply Hwf|done|].
    rewrite (no_me _ _ _ _ Hok) in Hm. rewrite Hm in He. injection He as <-.
    unfold persistent in Hper. injection Hper as _ _ P3 P4 _ P6.
    split; [apply from_update; [done| |constructor]|].
    + destruct Hpf as [H1 H2 _]. constructor; simpl; rewrite ?P3, ?P4, ?P6; auto.
      intros Hpe. pose proof (wf_pending _ Hwf') as Hw. rewrite Hpe in Hw. lia.
    + exists p, rf. split_and!; auto. rewrite (durable_snapshot _ (wf_durable _ Hwf)). apply Hpf.
Qed.

Lemma init_from s : init_cluster n = Some s -> cluster_from s.
Proof.
  unfold init_cluster. destruct (mapM _ _) as [ps|] eqn:Hps; [|done]. simpl. intros [= <-].
  constructor; simpl; [|constructor]. intros i p Hp. apply mapM_Some_1 in Hps.
  destruct (Forall2_lookup_r _ _ _ _ _ Hps Hp) as (j & _ & Hj). unfold init_proc in Hj. cbn in Hj. injection Hj as <-.
  constructor; simpl; [constructor|by left|done].
Qed.

Lemma init_applied s : init_cluster n = Some s -> length (procs s) = n /\ delivered s = [] /\
  forall i p, procs s !! i = Some p -> lastApplied (raft p) = 0.
Proof.
  unfold init_cluster. destruct (mapM _ _) as [ps|] eqn:Hps; [|done]. simpl. intros [= <-]. simpl.
  pose proof (length_mapM _ _ _ Hps) as Hlen. rewrite length_seq in Hlen. split_and!; [done..|].
  intros i p Hp. apply mapM_Some_1 in Hps.
  destruct (Forall2_lookup_r _ _ _ _ _ Hps Hp) as (j & _ & Hj). unfold init_proc in Hj. cbn in Hj. by injection Hj as <-.
Qed.

End Apply.

Section Facts.
Context {Cmd : Type} `{GZ : Gob Z} `{GL : Gob (list (LogEntry Cmd))} (n : nat).
Implicit Types (s : Cluster Cmd).

Lemma snap_from_mono (Ps Ps' : Z -> bytes -> Prop) k d : (forall k d, Ps k d -> Ps' k d) -> snap_from Ps k d -> snap_from Ps' k d.
Proof. intros HP [?|[? ?]]; [by left|right; auto]. Qed.

Lemma entries_from_mono (Pc Pc' : Cmd -> Prop) es : (forall c, Pc c -> Pc' c) -> entries_from Pc es -> entries_from Pc' es.
Proof. intros HP He. eapply Forall_impl; [exact He|]. naive_solver. Qed.

Lemma cluster_from_mono (Pc Pc' : Cmd -> Prop) (Ps Ps' : Z -> bytes -> Prop) s :
  (forall c, Pc c -> Pc' c) -> (forall k d, Ps k d -> Ps' k d) -> cluster_from Pc Ps s -> cluster_from Pc' Ps' s.
Proof.
  intros HP HS [Hp Hn]. constructor.
  - intros i p Hi. destruct (Hp _ _ Hi) as [Hl Hs Hpe]. constructor; eauto using snap_from_mono, entries_from_mono.
    intros ?. destruct Hpe; auto.
  - eapply Forall_impl; [exact Hn|]. intros []; simpl; eauto using snap_from_mono, entries_from_mono.
Qed.

(** Services that are handed a command for the same index are handed the same
    command. *)
Lemma coupled_agree s a i j c1 c2 idx : coupled n s a ->
  (i, CommandMsg c1 idx) ∈ delivered s -> (j, CommandMsg c2 idx) ∈ delivered s -> c1 = c2.
Proof.
  intros Hc H1 H2. pose proof (cp_delivered _ _ _ Hc) as Hd. rewrite Forall_forall in Hd. apply Hd in H1, H2.
  destruct H1 as (x & t1 & k1 & T1 & e1 & -> & Hc1 & Hk1 & He1 & <-), H2 as (y & t2 & k2 & T2 & e2 & Hy & Hc2 & Hk2 & He2 & <-).
  apply Nat2Z.inj in Hy as <-. pose proof (inv_committed_agree n a _ _ _ _ _ _ (cp_inv _ _ _ Hc) Hc1 Hc2) as Heq.
  apply (take_eq_lookup _ _ _ x) in Heq; [|lia]. congruence.
Qed.

End Facts.

(** ** One log

    [L] is the log of the commands that appliers have sent, by index.  [snapP]
    says which snapshots a service makes of a prefix of the log. *)

Section History.
Context {Cmd : Type} `{GZ : Gob Z} `{GL : Gob (list (LogEntry Cmd))} (n : nat).
Variable snapP : list Cmd -> Z -> bytes -> Prop.
Hypothesis snapP_app : forall L L' k d, snapP L k d -> snapP (L ++ L') k d.
Hypothesis snapP_range : forall L k d, snapP L k d -> 0 <= k <= len L.
Implicit Types (c : Cluster Cmd) (p : Proc Cmd) (L : list Cmd) (msg : ApplyMsg Cmd) (l : Label Cmd).

Definition record L msg : list Cmd :=
  match msg with
  | CommandMsg (Some op) index => if index =? len L + 1 then L ++ [op] else L
  | _ => L
  end.

(** The last message an applier sent. *)
Definition sent c : option (ApplyMsg Cmd) := snd <$> last (delivered c).

(** A message that says what the log says. *)
Definition msg_on L msg : Prop :=
  match msg with
  | CommandMsg c index => exists op, c = Some op /\ L !! Z.to_nat (index - 1) = Some op
  | SnapshotMsg data _ index => snapP L index data
  end.

(** A channel that takes a reader at index [k] to index [k'], along the log. *)
Fixpoint queue_ok L (k : Z) (q : list (ApplyMsg Cmd)) (k' : Z) : Prop :=
  match q with
  | [] => k = k'
  | msg :: q => follows k msg /\ msg_on L msg /\ queue_ok L (index_of msg) q k'
  end.

Record hist_ok (Pc : Cmd -> Prop) c L : Prop := {
  ho_coupled : exists a, coupled n c a;
  ho_from : cluster_from Pc (snapP L) c;
  ho_delivered : forall i cm index, (i, CommandMsg cm index) ∈ delivered c ->
    0 < index /\ exists op, cm = Some op /\ L !! Z.to_nat (index - 1) = Some op;
  ho_log : forall (k : nat) op, L !! k = Some op ->
    Pc op /\ exists i, (i, CommandMsg (Some op) (Z.of_nat k + 1)) ∈ delivered c;
}.

Lemma msg_on_app L L' msg : msg_on L msg -> msg_on (L ++ L') msg.
Proof.
  destruct msg; [|by apply snapP_app]. intros (op & -> & Hop). exists op. split; [done|]. by apply lookup_app_l_Some.
Qed.

Lemma queue_ok_app L L' k q k' : queue_ok L k q k' -> queue_ok (L ++ L') k q k'.
Proof. revert k. induction q as [|msg q IH]; intros k; simpl; [done|]. intros (Hf & Hm & Hq). split_and!; auto using msg_on_app. Qed.

Lemma queue_ok_snoc L k q k' msg : queue_ok L k q k' -> follows k' msg -> msg_on L msg -> queue_ok L k (q ++ [msg]) (index_of msg).
Proof. revert k. induction q as [|m q IH]; intros k; simpl; [by intros ->|]. intros (Hf & Hm & Hq) Hk Hmsg. auto. Qed.

Lemma msg_on_range L k msg : follows k msg -> msg_on L msg -> 0 <= k -> k < index_of msg <= len L.
Proof.
  destruct msg as [cm index|data t index]; simpl.
  - intros -> (op & _ & Hop) ?. apply lookup_lt_Some in Hop. lia.
  - intros Hf Hm ?. apply snapP_range in Hm. lia.
Qed.

Lemma queue_ok_range L k q k' : queue_ok L k q k' -> 0 <= k <= len L -> k <= k' <= len L.
Proof.
  revert k. induction q as [|msg q IH]; intros k; simpl; [lia|]. intros (Hf & Hm & Hq) Hk.
  pose proof (msg_on_range _ _ _ Hf Hm). specialize (IH _ Hq). lia.
Qed.

Lemma record_app L msg : exists x, record L msg = L ++ x.
Proof. destruct msg as [[op|] index|]; simpl; try (exists []; by rewrite app_nil_r). destruct (_ =? _); [eauto|exists []; by rewrite app_nil_r]. Qed.

Lemma sent_update c i p msg : sent (update c i p [] [msg]) = Some msg.
Proof. unfold sent. simpl. by rewrite last_snoc. Qed.

Lemma quiet_lookup c c' i p' : quiet c c' -> procs c' !! i = Some p' ->
  exists p, procs c !! i = Some p /\ lastApplied (raft p') = lastApplied (raft p).
Proof.
  intros [_ Ha] Hp. unfold applied_of in Ha. apply (f_equal (fun x => x !! i)) in Ha. rewrite !list_lookup_fmap, Hp in Ha.
  destruct (procs c !! i) as [p|]; simplify_eq/=. by exists p.
Qed.

Lemma exec_coupled c a l : coupled n c a ->
  match exec c l with Disabled => True | Panic => False | Next c' => exists a', coupled n c' a' end.
Proof.
  intros Hc. pose proof (exec_sim n c a l Hc) as Hs. destruct (exec c l); simpl in Hs; auto. destruct Hs as (a' & _ & ?). eauto.
Qed.

Lemma hist_no_panic Pc c L l : hist_ok Pc c L -> exec c l <> Panic.
Proof. intros [[a Ha] _ _ _] He. pose proof (exec_coupled _ _ l Ha) as H. by rewrite He in H. Qed.

(** The steps that hand nothing to a service. *)
Definition hands_out l : bool := match l with LApply _ | LRestart _ _ => true | _ => false end.

Lemma hist_quiet (Pc Pc' : Cmd -> Prop) c L l c' : hist_ok Pc c L -> (forall x, Pc x -> Pc' x) ->
  hands_out l = false -> label_from Pc' (snapP L) c l -> exec c l = Next c' -> hist_ok Pc' c' L /\ quiet c c'.
Proof.
  intros [[a Ha] Hf Hd Hlog] Hmono Hh Hl He.
  pose proof (cluster_from_mono _ _ _ _ _ Hmono (fun _ _ H => H) Hf) as Hf1.
  destruct (exec_step n _ _ _ _ _ _ Ha Hf1 Hl He) as [Hf' Heff].
  assert (quiet c c') as Hq by (by destruct l). split; [|done].
  pose proof (exec_coupled _ a l Ha) as Hc. rewrite He in Hc. constructor; auto.
  - intros i cm index. rewrite (proj1 Hq). apply Hd.
  - intros k op Hk. destruct (Hlog _ _ Hk) as [Hw [i Hi]]. split; [auto|]. exists i. by rewrite (proj1 Hq).
Qed.

(** The log records each command at its index. *)
Lemma record_at Pc c a c' L i op index : hist_ok Pc c L -> coupled n c' a ->
  (forall d, d ∈ delivered c -> d ∈ delivered c') -> (i, CommandMsg (Some op) index) ∈ delivered c' ->
  0 < index <= len L + 1 -> record L (CommandMsg (Some op) index) !! Z.to_nat (index - 1) = Some op.
Proof.
  intros Hh Hc Hmono Hin Hi. simpl. destruct (Z.eqb_spec index (len L + 1)) as [He|He].
  - rewrite lookup_app_r by lia. by replace (Z.to_nat (index - 1) - length L)%nat with 0%nat by lia.
  - destruct (lookup_lt_is_Some_2 L (Z.to_nat (index - 1))) as [op' Hop']; [lia|]. rewrite Hop'.
    destruct (ho_log _ _ _ Hh _ _ Hop') as [_ [j Hj]]. replace (Z.of_nat (Z.to_nat (index - 1)) + 1) with index in Hj by lia.
    by rewrite (coupled_agree n c' a i j _ _ index Hc Hin (Hmono _ Hj)).
Qed.

(** An applier sends the next message of the one log. *)
Lemma hist_apply Pc c L i p c' : hist_ok Pc c L -> procs c !! i = Some p -> 0 <= lastApplied (raft p) <= len L ->
  exec c (LApply i) = Next c' ->
  exists rf msg, c' = update c i (with_raft p rf) [] [msg] /\ follows (lastApplied (raft p)) msg /\
    lastApplied rf = index_of msg /\ msg_on (record L msg) msg /\ hist_ok Pc c' (record L msg).
Proof.
  intros Hh Hp Hla He. destruct (ho_coupled _ _ _ Hh) as [a Ha].
  destruct (exec_step n _ _ _ _ (LApply i) _ Ha (ho_from _ _ _ Hh) I He) as [Hf (p' & rf & msg & Hp' & Hc & Hd & Hfo & Hidx)].
  rewrite Hp in Hp'. injection Hp' as <-. exists rf, msg.
  pose proof (exec_coupled _ a (LApply i) Ha) as Hcp. rewrite He in Hcp. destruct Hcp as [a' Ha'].
  destruct (record_app L msg) as [x Hx].
  assert (forall d, d ∈ delivered c -> d ∈ delivered c') as Hmono by (intros d Hin; rewrite Hc; simpl; set_solver).
  assert ((i, msg) ∈ delivered c') as Hnew by (rewrite Hc; simpl; set_solver).
  assert (msg_on (record L msg) msg) as Hmsg.
  { destruct msg as [cm index|data t index]; [|rewrite Hx; by apply snapP_app, Hd].
    destruct Hd as (? & op & -> & _). exists op. split; [done|]. apply (record_at Pc c a' c' L i); auto. simpl in Hfo. lia. }
  split_and!; auto. constructor; eauto.
  - eapply cluster_from_mono; [..|exact Hf]; [done|]. intros k d. rewrite Hx. apply snapP_app.
  - intros j cm index Hin. rewrite Hc in Hin. simpl in Hin. apply elem_of_app in Hin as [Hin|Hin].
    + destruct (ho_delivered _ _ _ Hh _ _ _ Hin) as (H0 & op & -> & Hop). split; [done|]. exists op. split; [done|].
      rewrite Hx. by apply lookup_app_l_Some.
    + apply list_elem_of_singleton in Hin. injection Hin as -> <-. split; [simpl in Hfo; lia|exact Hmsg].
  - intros k op Hk. destruct (decide (k < length L)%nat) as [Hlt|Hge].
    + rewrite Hx, lookup_app_l in Hk by done. destruct (ho_log _ _ _ Hh _ _ Hk) as [? [j Hj]]. eauto.
    + destruct msg as [[op'|] index|]; simpl in Hk; try (apply lookup_lt_Some in Hk; lia).
      destruct (Z.eqb_spec index (len L + 1)) as [Hi|]; [|apply lookup_lt_Some in Hk; lia].
      apply lookup_app_Some in Hk as [Hk|[_ Hk]]; [apply lookup_lt_Some in Hk; lia|].
      apply list_lookup_singleton_Some in Hk as [Hk <-]. destruct Hd as (_ & op & [= <-] & Hw). split; [done|].
      exists i. replace (Z.of_nat k + 1) with index by lia. done.
Qed.

(** A restarted peer starts from a snapshot of the service. *)
Lemma hist_restart Pc c L i p now c' : hist_ok Pc c L -> procs c !! i = Some p -> exec c (LRestart i now) = Next c' ->
  exists rf, c' = update c i (MkProc rf []) [] [] /\ 0 <= lastApplied rf <= len L /\
    snap_from (snapP L) (lastApplied rf) (ReadSnapshot (persister (raft p))) /\ hist_ok Pc c' L.
Proof.
  intros Hh Hp He. destruct Hh as [[a Ha] Hf Hd Hlog].
  destruct (exec_step n _ _ _ _ (LRestart i now) _ Ha Hf I He) as [Hf' (p' & rf & Hp' & Hc & Hla & Hsn)].
  rewrite Hp in Hp'. injection Hp' as <-. exists rf. rewrite <-Hla in Hsn.
  pose proof (exec_coupled _ a (LRestart i now) Ha) as Hcp. rewrite He in Hcp.
  assert (delivered c' = delivered c) as Hd' by (rewrite Hc; simpl; by rewrite app_nil_r).
  split_and!; auto.
  - destruct Hsn as [[-> _]|[? _]]; lia.
  - destruct Hsn as [[-> _]|[_ ?%snapP_range]]; lia.
  - constructor; rewrite ?Hd'; auto.
Qed.

Lemma hist_init Pc c : init_cluster n = Some c -> (exists a, coupled n c a) -> hist_ok Pc c [].
Proof.
  intros Hc Ha. destruct (init_applied n c Hc) as (_ & Hd & _). constructor; auto.
  - by apply (init_from n).
  - intros i cm index. rewrite Hd. by intros ?%elem_of_nil.
  - intros k op. by rewrite lookup_nil.
Qed.

End History.
