(* ===== verification/RaftSafety.v ===== *)
(** * Safety of the Raft cluster

    What the simulation of RaftRefine.v gives for the code: statements about
    every schedule of a cluster of any size, with lost, duplicated and
    reordered messages, crashes, restarts and snapshots. *)

From S2P Require Import Prelude Persister Raft RaftNode RaftSpec RaftCluster RaftRefine RaftApply.

Section Safety.
Context {Cmd : Type} `{GZ : Gob Z} `{GL : Gob (list (LogEntry Cmd))} (n : nat).
Implicit Types (s : Cluster Cmd) (rf : Raft Cmd) (a : @Abs Cmd).

Lemma start_run_coupled ls s : start_run n ls = Next s -> exists a, a_inv n a /\ coupled n s a.
Proof.
  intros Hs. destruct (start_run_sim n ls) as (s' & a & Hs' & Hr & Hc). rewrite Hs in Hs'. injection Hs' as <-.
  exists a. split; [|done]. apply Hc.
Qed.

Lemma leader_role a i p : node_ok n a i p -> state (raft p) = Leader -> role a i = Leader.
Proof. intros Hp <-. symmetry. apply Hp. Qed.

(** Entries a peer still holds above its snapshot are those of its full log. *)
Lemma entryAt_full a i p (k : nat) e : node_ok n a i p -> entryAt (raft p) (Z.of_nat k) = Some e ->
  lastIncludedIndex (raft p) < Z.of_nat k -> lg a i !! k = Some e.
Proof.
  intros Hp He Hk. destruct (lr_entry _ _ _ _ (no_log _ _ _ _ Hp) He) as (e' & He' & _ & Hsame). by rewrite <-Hsame.
Qed.

Lemma full_entryAt a i p (k : nat) e : node_ok n a i p -> lg a i !! k = Some e ->
  lastIncludedIndex (raft p) < Z.of_nat k -> entryAt (raft p) (Z.of_nat k) = Some e.
Proof.
  intros Hp He Hk. destruct (lr_entry_inv _ _ _ _ (no_log _ _ _ _ Hp) He) as (e' & He' & _); [lia|].
  rewrite He'. f_equal. apply (entryAt_full a i p k e' Hp He') in Hk. congruence.
Qed.

Lemma entryAt_nat rf k e : raft_wf rf -> entryAt rf k = Some e -> exists j : nat, k = Z.of_nat j.
Proof. intros Hwf [Hk _]%entryAt_Some. pose proof (wf_lii _ Hwf). exists (Z.to_nat k). lia. Qed.

(** Everything committed is in the log of a leader whose term nobody has
    passed. *)
Lemma top_leader_complete a i t k T : a_inv n a -> role a i = Leader ->
  (forall j, (j < n)%nat -> cur a j <= cur a i) -> committed n a t k T ->
  take (S k) (lg a i) = take (S k) T.
Proof.
  intros Hinv Hr Htop Hc. destruct (decide (t < cur a i)) as [Hlt|Hge]; [by eapply inv_leader_complete|].
  pose proof Hc as ((c & HT) & _). assert (t <= cur a c) as Ht by (eapply (vi_leader_term _ _ (a_votes _ _ Hinv)); done).
  destruct (vi_elected _ _ (a_votes _ _ Hinv) _ _ _ HT) as (q & Hq & Hall).
  destruct (vote_quorum_ne n q Hq) as (v & Hv). pose proof (vi_term _ _ (a_votes _ _ Hinv) _ _ _ (Hall v Hv)) as Htv.
  pose proof (Htop v (proj1 (proj2 Hq) v Hv)). assert (t = cur a i) as -> by lia.
  rewrite (leader_tlog n a i Hinv Hr) in HT. by injection HT as <- <-.
Qed.

End Safety.

Section Theorems.
Context {Cmd : Type} `{GZ : Gob Z} `{GL : Gob (list (LogEntry Cmd))}.

(** C2 (refinement): every schedule of a cluster of [n] peers running the code
    of raft.go leads to a state that is coupled with a reachable state of the
    abstract Raft protocol: the cluster implements the protocol.  In
    particular no handler panics, whatever the network does and whichever
    peers crash and restart. *)
Theorem raft_refines_protocol (n : nat) (ls : list (Label Cmd)) :
  exists s a, start_run n ls = Next s /\ a_reachable n a /\ coupled n s a.
Proof. apply start_run_sim. Qed.

(** C3 (safety): election safety.  In every state a cluster reaches, two peers
    that consider themselves leaders of the same term are the same peer. *)
Theorem raft_election_safety (n : nat) (ls : list (Label Cmd)) s i j p q :
  start_run n ls = Next s -> procs s !! i = Some p -> procs s !! j = Some q ->
  state (raft p) = Leader -> state (raft q) = Leader -> currentTerm (raft p) = currentTerm (raft q) -> i = j.
Proof.
  intros Hs Hp Hq Hlp Hlq Ht. destruct (start_run_coupled n ls s Hs) as (a & Hinv & Hc).
  apply (cp_procs _ _ _ Hc) in Hp, Hq. apply (inv_one_leader n a i j Hinv); eauto using leader_role.
  rewrite <-(no_term _ _ _ _ Hp), <-(no_term _ _ _ _ Hq). done.
Qed.

(** C5 (safety): log matching.  If two peers hold entries of the same term at
    the same index, they hold the same entries at every lower index that
    neither has compacted into its snapshot. *)
Theorem raft_log_matching (n : nat) (ls : list (Label Cmd)) s i j p q k e1 e2 k' :
  start_run n ls = Next s -> procs s !! i = Some p -> procs s !! j = Some q ->
  entryAt (raft p) k = Some e1 -> entryAt (raft q) k = Some e2 -> Term e1 = Term e2 ->
  lastIncludedIndex (raft p) < k' -> lastIncludedIndex (raft q) < k' -> k' <= k ->
  entryAt (raft p) k' = entryAt (raft q) k'.
Proof.
  intros Hs Hp Hq He1 He2 Ht Hk1 Hk2 Hle. destruct (start_run_coupled n ls s Hs) as (a & Hinv & Hc).
  apply (cp_procs _ _ _ Hc) in Hp, Hq. destruct (entryAt_nat _ _ _ (no_wf _ _ _ _ Hp) He1) as [kn ->].
  apply (entryAt_full n a i) in He1 as H1; [|done|lia]. apply (entryAt_full n a j) in He2 as H2; [|done|lia].
  pose proof (inv_log_matching n a i j kn e1 e2 Hinv H1 H2 Ht) as Htake.
  pose proof (wf_lii _ (no_wf _ _ _ _ Hp)). assert (exists x : nat, k' = Z.of_nat x) as [x ->] by (exists (Z.to_nat k'); lia).
  destruct (lookup_lt_is_Some_2 (lg a i) x) as [e Hx]; [apply lookup_lt_Some in H1; lia|].
  rewrite (full_entryAt n a i p x e), (full_entryAt n a j q x e); auto.
  rewrite <-Hx. symmetry. apply (take_eq_lookup _ _ (S kn)); [lia|done].
Qed.

(** C1 (safety): state machine safety.  If two services are ever handed a
    command for the same log index, it is the same command. *)
Theorem raft_state_machine_safety (n : nat) (ls : list (Label Cmd)) s i j c1 c2 idx :
  start_run n ls = Next s -> (i, CommandMsg c1 idx) ∈ delivered s -> (j, CommandMsg c2 idx) ∈ delivered s -> c1 = c2.
Proof.
  intros Hs. destruct (start_run_coupled n ls s Hs) as (a & Hinv & Hc). by apply (coupled_agree n s a).
Qed.

(** C4 (safety): leader completeness.  A leader whose term no peer has passed
    holds every command that any service has been handed, unless it has
    compacted it into its snapshot. *)
Theorem raft_leader_completeness (n : nat) (ls : list (Label Cmd)) s i p j c idx :
  start_run n ls = Next s -> procs s !! i = Some p -> state (raft p) = Leader ->
  Forall (fun q => currentTerm (raft q) <= currentTerm (raft p)) (procs s) ->
  (j, CommandMsg c idx) ∈ delivered s -> lastIncludedIndex (raft p) < idx ->
  exists e, entryAt (raft p) idx = Some e /\ Command e = c.
Proof.
  intros Hs Hp Hl Htop Hd Hidx. destruct (start_run_coupled n ls s Hs) as (a & Hinv & Hc).
  apply (cp_procs _ _ _ Hc) in Hp as Hok. pose proof (cp_delivered _ _ _ Hc) as Hall. rewrite Forall_forall in Hall.
  apply Hall in Hd. destruct Hd as (x & t & k & T & e & -> & Hcm & Hk & He & Hcmd).
  exists e. split; [|done]. apply (full_entryAt n a i); [done| |done]. rewrite <-He.
  apply (take_eq_lookup _ _ (S k)); [lia|]. apply (top_leader_complete n a i t); [done|by eapply leader_role| |done].
  intros v Hv. rewrite Forall_lookup in Htop. destruct (lookup_lt_is_Some_2 (procs s) v) as [q Hq]; [by rewrite (cp_len _ _ _ Hc)|].
  rewrite <-(no_term _ _ _ _ Hok), <-(no_term _ _ _ _ (cp_procs _ _ _ Hc _ _ Hq)). eauto.
Qed.

(** C6 (safety): durability.  A crash at any point of any run, followed by a
    restart from stable storage, brings back the term, the vote, the log and
    the snapshot exactly as they were, and the peer comes back as a follower. *)
Theorem raft_crash_recovery (n : nat) (ls : list (Label Cmd)) s i p now :
  start_run n ls = Next s -> procs s !! i = Some p ->
  exists p', exec s (LRestart i now) = Next (update s i p' [] []) /\
    persistent (raft p') = persistent (raft p) /\ state (raft p') = Follower.
Proof.
  intros Hs Hp. destruct (start_run_coupled n ls s Hs) as (a & Hinv & Hc).
  pose proof (cp_procs _ _ _ Hc _ _ Hp) as Hok. pose proof (no_wf _ _ _ _ Hok) as Hwf.
  destruct (Make_recovers (raft p) now) as (rf & Hm & Hper & Hst & _); [apply Hwf|done|].
  exists (MkProc rf []). unfold exec, at_proc. rewrite Hp. rewrite (no_me _ _ _ _ Hok) in Hm. by rewrite Hm.
Qed.

(** C20 (type): every peer is well formed.  In every state a cluster reaches,
    a peer's per-peer slices have one slot per peer, its log starts with the
    entry its snapshot ends with, no entry is of a later term than its own,
    and its indices are in order: lastIncludedIndex, commitIndex and the last
    index of the log, with lastApplied at most commitIndex and, unless a
    snapshot still has to be handed to the service, at least
    lastIncludedIndex. *)
Theorem raft_peers_well_formed (n : nat) (ls : list (Label Cmd)) s i p (rf := raft p) :
  start_run n ls = Next s -> procs s !! i = Some p ->
  me rf = i /\ npeers rf = n /\ length (nextIndex rf) = n /\ length (matchIndex rf) = n /\ length (triggers rf) = n /\
  (exists e, entryAt rf (lastIncludedIndex rf) = Some e /\ Term e = lastIncludedTerm rf) /\
  (forall k e, entryAt rf k = Some e -> Term e <= currentTerm rf) /\
  0 <= lastIncludedIndex rf <= commitIndex rf /\ commitIndex rf <= lastLogIndex rf /\ lastApplied rf <= commitIndex rf /\
  if pendingSnapshot rf then lastApplied rf < lastIncludedIndex rf else lastIncludedIndex rf <= lastApplied rf.
Proof.
  subst rf. intros Hs Hp. destruct (start_run_coupled n ls s Hs) as (a & Hinv & Hc). apply (cp_procs _ _ _ Hc) in Hp as Hok.
  pose proof (no_wf _ _ _ _ Hok) as Hwf. destruct (apply_ok_of _ _ _ _ Hinv Hok) as [Hla Hll]. rewrite <-(no_n _ _ _ _ Hok).
  split_and!; try apply Hok; try apply Hwf; try done.
  - by apply entryAt_boundary.
  - intros k e He. rewrite (no_term _ _ _ _ Hok). destruct (entryAt_nat _ _ _ Hwf He) as [kn ->].
    destruct (lr_entry _ _ _ _ (no_log _ _ _ _ Hok) He) as (e' & He' & <- & _).
    apply (terms_le_lookup _ _ _ _ (li_terms _ (a_logs _ _ Hinv) i) He').
  - pose proof (wf_pending _ Hwf) as Hpe. destruct (pendingSnapshot _); [by destruct Hpe|done].
Qed.

End Theorems.

(** ** A cluster of one

    The votes are only counted when a reply arrives, so a peer without other
    peers never counts its own vote. *)

Section Single.
Context {Cmd : Type} `{GZ : Gob Z} `{GL : Gob (list (LogEntry Cmd))}.
Implicit Types (rf : Raft Cmd) (s : Cluster Cmd).

Lemma RequestVote_state rf args now rf' reply : RequestVote rf args now = Some (rf', reply) ->
  state rf <> Leader -> state rf' <> Leader.
Proof.
  unfold RequestVote. rewrite Z.gtb_ltb. intros Hr Hs. destruct (currentTerm rf <? rv_Term args); cbv zeta in Hr;
    repeat (case_match || (destruct (entryAt _ _); simpl in Hr)); by simplify_eq/=.
Qed.

Lemma accepted_state rf args : state (accepted rf args) = state rf.
Proof. unfold accepted. cbv zeta. destruct (len _ >? 0); simpl; by destruct (_ >? _). Qed.

Lemma installed_state rf args l : state (installed rf args l) = state rf.
Proof. unfold installed. cbv zeta. by destruct (_ >? _). Qed.

Lemma append_case_state rf args now rf' reply : append_case rf args now rf' reply -> state rf <> Leader -> state rf' <> Leader.
Proof.
  intros Hc Hs. destruct Hc as [|rf1 Ht|rf1 Ht|rf1 ? ? Ht|rf1 ? Ht]; [done|..];
    try (pose proof (stepDown_fields rf (ae_Term args) now Ht) as (_ & Hst & _); subst rf1; congruence).
  rewrite accepted_state. pose proof (stepDown_fields rf (ae_Term args) now Ht) as (_ & Hst & _). subst rf1. congruence.
Qed.

Lemma install_case_state rf args now rf' reply : install_case rf args now rf' reply -> state rf <> Leader -> state rf' <> Leader.
Proof.
  intros Hc Hs. destruct Hc as [|rf1 Ht|rf1 ? Ht|rf1 Ht]; [done|..];
    pose proof (stepDown_fields rf (is_Term args) now Ht) as (_ & Hst & _); rewrite ?installed_state; subst rf1; congruence.
Qed.

Lemma not_leader_eqb rf : state rf <> Leader -> State_eqb (state rf) Leader = false.
Proof. intros. by apply bool_decide_eq_false_2. Qed.

Definition leaderless s : Prop := forall i p, procs s !! i = Some p -> state (raft p) <> Leader.

Lemma leaderless_update s i p ms ds : leaderless s -> state (raft p) <> Leader -> leaderless (update s i p ms ds).
Proof.
  intros Hs Hp j q Hq. simpl in Hq. apply list_lookup_insert_Some in Hq as [(_ & <- & _)|[_ Hq]]; eauto.
Qed.

Lemma exec_leaderless s a l s' : coupled 1 s a -> leaderless s -> exec s l = Next s' -> leaderless s'.
Proof.
  intros Hc Hll He. destruct l as [i now|i e j|k now|e k now|i j|k now|k|k now|k|i cmd|i index snap|i|i now]; unfold exec in He;
    try (destruct (net s !! k) as [[]|]; try done);
    apply at_proc_Next in He as (p & Hp & He); pose proof (Hll _ _ Hp) as Hs;
    pose proof (cp_procs _ _ _ Hc _ _ Hp) as Hok; pose proof (no_wf _ _ _ _ Hok) as Hwf.
  - simplify_eq/=. by apply leaderless_update.
  - destruct (elections p !! e); [|done]. case_bool_decide; [|done]. destruct (voteRequest _ _) as [[]|]; simplify_eq/=; by apply leaderless_update.
  - destruct (RequestVote _ _ _) as [[]|] eqn:Hr; simplify_eq/=. apply leaderless_update; [done|]. by eapply RequestVote_state.
  - destruct (elections p !! e) as [el|] eqn:Hel; [|done]. case_bool_decide as Hj; [|done]. exfalso.
    destruct (Forall_lookup_1 _ _ _ _ (no_elections _ _ _ _ Hok) Hel) as (q & _ & _ & Hself & Hwt & Hq).
    apply lookup_lt_Some in Hp as Hlt. rewrite (cp_len _ _ _ Hc) in Hlt. specialize (Hwt _ Hj).
    destruct (Hq _ Hself) as (_ & Hni & _). apply Hni. by assert (i = j) as -> by lia.
  - case_bool_decide; [|done]. unfold replicateOnce in He. rewrite (not_leader_eqb _ Hs) in He. by simplify_eq/=.
  - destruct (AppendEntries_cases (raft p) args now Hwf) as (rf' & r & Hae & Hcase). rewrite Hae in He. simplify_eq/=.
    apply leaderless_update; [done|]. by eapply append_case_state.
  - unfold appendReply in He. rewrite (not_leader_eqb _ Hs) in He. simplify_eq/=. by apply leaderless_update.
  - destruct (InstallSnapshot_cases (raft p) args now Hwf) as (rf' & r & Hae & Hcase). rewrite Hae in He. simplify_eq/=.
    apply leaderless_update; [done|]. by eapply install_case_state.
  - unfold snapshotReply in He. rewrite (not_leader_eqb _ Hs) in He. simplify_eq/=. by apply leaderless_update.
  - unfold Start in He. rewrite (not_leader_eqb _ Hs) in He. simplify_eq/=. by apply leaderless_update.
  - destruct (Snapshot_cases (raft p) index snap Hwf) as [[Hr _]|(x & _ & _ & Hr)]; [eapply apply_ok_of; [apply Hc|done]|..];
      rewrite Hr in He; simplify_eq/=; by apply leaderless_update.
  - unfold applier in He. repeat (case_match || destruct (entryAt _ _)); simplify_eq/=; by apply leaderless_update.
  - rewrite <-(no_me _ _ _ _ Hok) in He.
    destruct (Make_recovers (raft p) now) as (rf & Hm & _ & Hst & _); [apply Hwf|done|]. rewrite Hm in He. simplify_eq/=.
    apply leaderless_update; [done|]. simpl. congruence.
Qed.

(** A cluster of one peer never has a leader, on any schedule,
    although its own vote is a majority: the counter of startElection is
    only compared with the majority when a reply arrives. *)
Theorem single_peer_never_leads (ls : list (Label Cmd)) s i p :
  start_run 1 ls = Next s -> procs s !! i = Some p -> state (raft p) <> Leader.
Proof.
  intros Hs. destruct (init_coupled (Cmd := Cmd) 1) as (s0 & Hs0 & Hc0).
  assert (leaderless s0) as H0.
  { intros j q Hq. rewrite (no_role _ _ _ _ (cp_procs _ _ _ Hc0 _ _ Hq)). done. }
  unfold start_run in Hs. rewrite Hs0 in Hs. clear Hs0. revert s0 i p Hs H0 Hc0. generalize (a_init (Cmd := Cmd)).
  induction ls as [|l ls IH]; intros a s0 i p Hr H0 Hc0; simpl in Hr; [simplify_eq; by apply H0|].
  pose proof (exec_sim 1 s0 a l Hc0) as Hsim. destruct (exec s0 l) as [| |s1] eqn:He; [by eapply IH|done|].
  destruct Hsim as (a1 & _ & Hc1). eapply IH; eauto using exec_leaderless.
Qed.

End Single.

(** ** A concrete run

    Peer 0 of three is elected by peer 1, a client starts command 7, peer 1
    replicates it, both apply it, peer 0 compacts it and brings peer 2 up to
    date with its snapshot. *)
Definition example_run : list (Label nat) :=
  [LElection 0 1; LVoteRequest 0 0 1; LVote 0 2; LVoteReply 0 1 3; LStart 0 7%nat; LReplicate 0 1; LAppend 2 4;
   LAppendReply 3; LApply 0; LReplicate 0 1; LAppend 4 5; LApply 1].
Definition example_more : list (Label nat) :=
  [LSnapshot 0 1 [5]; LReplicate 0 2; LAppend 5 6; LAppendReply 6; LReplicate 0 2; LSnap 7 7; LSnapReply 8; LApply 2].

Definition no_proc : Proc nat := MkProc (MkRaft 0 0 MakePersister 0 0 [] [] 0 0 Follower 0 0 0 [] [] [] false [] 0 0) [].
Definition state_of (o : Outcome nat) : Cluster nat :=
  match o with Next s => s | _ => MkCluster [] [] [] end.
Definition proc_of (s : Cluster nat) (i : nat) : Proc nat := default no_proc (procs s !! i).

Definition example_state : Cluster nat := Eval vm_compute in state_of (start_run 3 example_run).

Lemma raft_election_safety_witness :
  state (raft (proc_of example_state 0)) = Leader /\ 0%nat = 0%nat.
Proof.
  split; [reflexivity|].
  apply (raft_election_safety 3 example_run example_state 0 0 (proc_of example_state 0) (proc_of example_state 0));
    vm_compute; reflexivity.
Defined.

Lemma raft_peers_well_formed_witness : commitIndex (raft (proc_of example_state 1)) <= lastLogIndex (raft (proc_of example_state 1)).
Proof.
  apply (raft_peers_well_formed 3 example_run example_state 1 (proc_of example_state 1)); vm_compute; reflexivity.
Defined.

Lemma raft_log_matching_witness :
  entryAt (raft (proc_of example_state 0)) 1 = entryAt (raft (proc_of example_state 1)) 1.
Proof.
  apply (raft_log_matching 3 example_run example_state 0 1 (proc_of example_state 0) (proc_of example_state 1) 1
    (MkLogEntry 1 (Some 7%nat)) (MkLogEntry 1 (Some 7%nat)) 1); vm_compute; try reflexivity; discriminate.
Defined.

Lemma raft_state_machine_safety_witness : Some 7%nat = Some 7%nat.
Proof.
  apply (raft_state_machine_safety 3 example_run example_state 0 1 (Some 7%nat) (Some 7%nat) 1).
  - vm_compute. reflexivity.
  - apply list_elem_of_here.
  - apply list_elem_of_further, list_elem_of_here.
Defined.

Lemma raft_leader_completeness_witness :
  exists e, entryAt (raft (proc_of example_state 0)) 1 = Some e /\ Command e = Some 7%nat.
Proof.
  apply (raft_leader_completeness 3 example_run example_state 0 (proc_of example_state 0) 1 (Some 7%nat) 1).
  - vm_compute. reflexivity.
  - reflexivity.
  - reflexivity.
  - vm_compute. repeat constructor; discriminate.
  - apply list_elem_of_further, list_elem_of_here.
  - vm_compute. reflexivity.
Defined.

Lemma raft_crash_recovery_witness :
  exists p', exec example_state (LRestart 1 9) = Next (update example_state 1 p' [] []) /\
    persistent (raft p') = persistent (raft (proc_of example_state 1)) /\ state (raft p') = Follower.
Proof.
  apply (raft_crash_recovery 3 example_run example_state 1 (proc_of example_state 1) 9); vm_compute; reflexivity.
Defined.

(** The rest of the run: the snapshot reaches the peer that was left out. *)
Example example_snapshot_reaches_peer_2 :
  delivered (state_of (run example_state example_more)) =
  [(0%nat, CommandMsg (Some 7%nat) 1); (1%nat, CommandMsg (Some 7%nat) 1); (2%nat, SnapshotMsg [5] 1 1)].
Proof. vm_compute. reflexivity. Qed.

Lemma single_peer_never_leads_witness :
  state (raft (proc_of (state_of (start_run 1 [LElection 0 5])) 0)) <> Leader.
Proof.
  apply (single_peer_never_leads (Cmd := nat) [LElection 0 5] (state_of (start_run 1 [LElection 0 5])) 0);
    vm_compute; reflexivity.
Defined.
