(* ===== verification/RaftNext.v ===== *)
(** * What a leader has to send (src/raft1/raft.go: replicateOnce)

    A leader's nextIndex never points beyond the end of its log plus one, in
    any state that a cluster reaches: the guard of replicateOnce that gives
    up silently when [prevIndex] is beyond the log is never taken.  A leader
    that is asked to replicate always sends its snapshot or its entries. *)

From S2P Require Import Prelude Persister Raft RaftNode RaftSpec RaftCluster RaftRefine RaftSafety.

(** The sequencing of the option monad, in a hypothesis. *)
Ltac obind_in H := cbn [mbind option_bind mret option_ret negb fst snd] in H; cbv zeta in H.

Section Next.
Context {Cmd : Type} `{GZ : Gob Z} `{GL : Gob (list (LogEntry Cmd))} (n : nat).
Implicit Types (rf : Raft Cmd) (s : Cluster Cmd) (p : Proc Cmd) (a : @Abs Cmd).

Definition next_fine rf : Prop := state rf = Leader -> Forall (fun x => x <= lastLogIndex rf + 1) (nextIndex rf).

Definition next_ok s : Prop := forall i p, procs s !! i = Some p -> next_fine (raft p).

(** Followers need nothing, and what does not touch the log, the role and the
    slice keeps it. *)
Lemma fine_follower rf : state rf = Follower -> next_fine rf.
Proof. intros H1 H2. congruence. Qed.

Lemma fine_same rf rf' : next_fine rf -> state rf' = state rf -> lastLogIndex rf' = lastLogIndex rf -> nextIndex rf' = nextIndex rf -> next_fine rf'.
Proof. unfold next_fine. intros H -> -> ->. done. Qed.

Lemma fine_set rf (j : nat) x : next_fine rf -> x <= lastLogIndex rf + 1 -> next_fine (rf <| nextIndex := <[j := x]> (nextIndex rf) |>).
Proof. intros H Hx Hl. apply Forall_insert; [by apply H|done]. Qed.

Lemma next_ok_update s i p ms ds : next_ok s -> next_fine (raft p) -> next_ok (update s i p ms ds).
Proof. intros Hs Hp j q Hq. simpl in Hq. apply list_lookup_insert_Some in Hq as [(_ & <- & _)|[_ Hq]]; eauto. Qed.

(** ** The handlers *)

Lemma RequestVote_fine rf args now rf' reply : RequestVote rf args now = Some (rf', reply) -> next_fine rf -> next_fine rf'.
Proof.
  unfold RequestVote. intros H Hf. set (rf1 := if _ >? _ then _ else _) in H.
  assert (next_fine rf1) as Hf1 by (unfold rf1; destruct (rv_Term args >? currentTerm rf); [by apply fine_follower|done]). clearbody rf1. cbv zeta in H.
  repeat (case_match || (destruct (entryAt _ _); simpl in H)); simplify_eq; auto.
Qed.

Lemma becomeLeader_fine rf t now rf' : becomeLeader rf t now = Some rf' -> next_fine rf -> next_fine rf'.
Proof.
  unfold becomeLeader. intros H Hf. case_match; [by simplify_eq|]. destruct (put _ _ _); simplify_eq/=. intros _. apply Forall_replicate.
  change (lastLogIndex rf + 1 <= lastLogIndex rf + 1). lia.
Qed.

Lemma voteReply_fine rf t votes reply now rf' v : voteReply rf t votes reply now = Some (rf', v) -> next_fine rf -> next_fine rf'.
Proof.
  unfold voteReply. intros H Hf. case_match; [simplify_eq; by apply fine_follower|]. case_match; [by simplify_eq|].
  destruct (rvr_VoteGranted reply); [|by simplify_eq]. case_match; [|by simplify_eq].
  destruct (becomeLeader rf t now) as [rf1|] eqn:Hb; simplify_eq/=. by eapply becomeLeader_fine.
Qed.

Lemma append_case_fine rf args now rf' reply : append_case rf args now rf' reply -> next_fine rf -> next_fine rf'.
Proof.
  intros Hc Hf. destruct Hc as [|rf1 Ht|rf1 Ht|rf1 ? ? Ht|rf1 ? Ht]; [done|..]; apply fine_follower; rewrite ?accepted_state; by apply stepDown_fields.
Qed.

Lemma install_case_fine rf args now rf' reply : install_case rf args now rf' reply -> next_fine rf -> next_fine rf'.
Proof.
  intros Hc Hf. destruct Hc as [|rf1 Ht|rf1 ? Ht|rf1 Ht]; [done|..]; apply fine_follower; rewrite ?installed_state; by apply stepDown_fields.
Qed.

Lemma advanceCommitIndex_fine rf rf' : raft_wf rf -> advanceCommitIndex rf = Some rf' -> next_fine rf -> next_fine rf'.
Proof.
  intros Hwf H Hf. destruct (advanceCommitIndex_cases rf Hwf) as [E|(N & e & _ & _ & _ & _ & _ & E)]; rewrite E in H; by simplify_eq.
Qed.

(** The arguments of a request of the leader's own term lie within its log. *)
Lemma own_log a i p t c T : a_inv n a -> node_ok n a i p -> state (raft p) = Leader -> currentTerm (raft p) = t ->
  tlog a t = Some (c, T) -> lastLogIndex (raft p) = Z.of_nat (lastIdx T).
Proof.
  intros Hinv Hp Hs Ht HT. pose proof (leader_tlog n a i Hinv (leader_role n a i p Hp Hs)) as HL.
  rewrite <-(no_term _ _ _ _ Hp), Ht, HT in HL. injection HL as _ ->. apply lr_last, Hp.
Qed.

Lemma appendReply_fine a i j p args reply b rf' : a_inv n a -> node_ok n a i p -> append_args_ok n a args b ->
  appendReply (raft p) j args true reply = Some rf' -> next_fine (raft p) -> next_fine rf'.
Proof.
  intros Hinv Hp (Hb & c & T & e & cm & HT & _ & _ & _ & Hlt & _) H Hf. pose proof (no_wf _ _ _ _ Hp) as Hwf.
  unfold appendReply, State_eqb in H. case_bool_decide as Hs; cbn [negb orb] in H; [|by simplify_eq].
  destruct (Z.eqb_spec (currentTerm (raft p)) (ae_Term args)) as [Ht|]; cbn [negb] in H; [|by simplify_eq].
  pose proof (own_log a i p _ c T Hinv Hp Hs Ht HT) as Hlast. unfold lastIdx in Hlast.
  case_match; [by simplify_eq; apply fine_follower|]. destruct (aer_Success reply).
  - destruct (matchIndex (raft p) !! j) as [m|]; [|done]. obind_in H. set (rf1 := if _ >? m then _ else _) in H.
    assert (raft_wf rf1 /\ next_fine rf1 /\ lastLogIndex rf1 = lastLogIndex (raft p)) as (Hwf1 & Hf1 & Hl1) by (subst rf1; case_match; auto using set_match_wf).
    destruct (nextIndex rf1 !! j) as [nx|] eqn:Hnx; [|done]. obind_in H. eapply advanceCommitIndex_fine; [|exact H|].
    + case_match; [|done]. apply set_next_wf; [done|lia].
    + case_match; [|done]. apply fine_set; [done|lia].
  - destruct (nextIndex (raft p) !! j) as [nx|] eqn:Hnx; [|done]. obind_in H. case_match; [|by simplify_eq].
    destruct (backupNextIndex_spec (raft p) j reply nx Hwf Hnx) as (x & E & Hmin & Hx). rewrite E in H. simplify_eq/=.
    apply (fine_same (raft p <| nextIndex := <[j := x]> (nextIndex (raft p)) |>)); [|done..]. apply fine_set; [done|].
    apply Hf in Hs. pose proof (Forall_lookup_1 _ _ _ _ Hs Hnx) as Hle. simpl in Hle. pose proof (lastLogIndex_ge _ Hwf). pose proof (wf_lii _ Hwf). lia.
Qed.

Lemma snapshotReply_fine a i j p args reply b rf' : a_inv n a -> node_ok n a i p -> snap_args_ok n a args b ->
  snapshotReply (raft p) j args true reply = Some rf' -> next_fine (raft p) -> next_fine rf'.
Proof.
  intros Hinv Hp (Hb & c & T & e & HT & He & _) H Hf. apply lookup_lt_Some in He.
  unfold snapshotReply, State_eqb in H. case_bool_decide as Hs; cbn [negb orb] in H; [|by simplify_eq].
  destruct (Z.eqb_spec (currentTerm (raft p)) (is_Term args)) as [Ht|]; cbn [negb] in H; [|by simplify_eq].
  pose proof (own_log a i p _ c T Hinv Hp Hs Ht HT) as Hlast. unfold lastIdx in Hlast.
  case_match; [by simplify_eq; apply fine_follower|].
  destruct (matchIndex (raft p) !! j) as [m|]; [|done]. obind_in H. set (rf1 := if m <? _ then _ else _) in H.
  assert (next_fine rf1 /\ lastLogIndex rf1 = lastLogIndex (raft p)) as (Hf1 & Hl1) by (subst rf1; case_match; auto).
  destruct (nextIndex rf1 !! j) as [nx|] eqn:Hnx; [|done]. obind_in H. injection H as <-.
  set (rf2 := if nx <? _ then _ else _). apply (fine_same rf2); [|done..]. subst rf2. case_match; [|done]. apply fine_set; [done|lia].
Qed.

Lemma Start_fine rf cmd rf' r : Start rf cmd = Some (rf', r) -> next_fine rf -> next_fine rf'.
Proof.
  unfold Start. intros H Hf. unfold State_eqb in H. case_bool_decide as Hs; cbn [negb] in H; [|by simplify_eq]. cbv zeta in H. set (rf1 := rf <| log := _ |>) in H.
  assert (lastLogIndex rf1 = lastLogIndex rf + 1) as Hl by (unfold lastLogIndex; subst rf1; simpl; rewrite length_app; simpl; lia).
  destruct (put (nextIndex rf1) _ _) as [ni|] eqn:Hni; [|done]. obind_in H. destruct (put (matchIndex _) _ _) as [mi|]; [|done]. obind_in H. simplify_eq.
  intros _. change (Forall (fun x => x <= lastLogIndex rf1 + 1) ni). unfold put in Hni. case_match; [|done]. injection Hni as <-. apply Forall_insert; [|lia].
  eapply Forall_impl; [by apply Hf|]. simpl. intros. lia.
Qed.

(** ** Every step *)

Lemma exec_next_ok s a l s' : coupled n s a -> next_ok s -> exec s l = Next s' -> next_ok s'.
Proof.
  intros Hc Hok He. pose proof (cp_inv _ _ _ Hc) as Hinv.
  destruct l as [i now|i e j|k now|e k now|i j|k now|k|k now|k|i cmd|i index snap|i|i now]; unfold exec in He;
    try (destruct (net s !! k) as [[]|] eqn:Hk; try done; pose proof (net_lookup n s a k _ Hc Hk) as Hmsg; simpl in Hmsg);
    apply at_proc_Next in He as (p & Hp & He); pose proof (Hok _ _ Hp) as Hf;
    pose proof (cp_procs _ _ _ Hc _ _ Hp) as Hno; pose proof (no_wf _ _ _ _ Hno) as Hwf.
  - simplify_eq/=. by apply next_ok_update.
  - destruct (elections p !! e); [|done]. case_bool_decide; [|done]. destruct (voteRequest _ _) as [[]|]; simplify_eq/=; by apply next_ok_update.
  - destruct (RequestVote _ _ _) as [[]|] eqn:Hr; simplify_eq/=. apply next_ok_update; [done|]. by eapply RequestVote_fine.
  - destruct (elections p !! e) as [el|] eqn:Hel; [|done]. case_match; [|done].
    destruct (voteReply _ _ _ _ _) as [[]|] eqn:Hr; simplify_eq/=. apply next_ok_update; [done|]. by eapply voteReply_fine.
  - case_bool_decide; [|done]. destruct (replicateOnce _ _) as [[]|]; simplify_eq/=; try done; by apply next_ok_update.
  - destruct (AppendEntries_cases (raft p) args now Hwf) as (rf' & r & Hae & Hcase). rewrite Hae in He. simplify_eq/=.
    apply next_ok_update; [done|]. by eapply append_case_fine.
  - destruct Hmsg as (_ & _ & b & Hargs & _). destruct (appendReply _ _ _ _ _) as [rf'|] eqn:Hr; simplify_eq/=. apply next_ok_update; [done|].
    by eapply appendReply_fine.
  - destruct (InstallSnapshot_cases (raft p) args now Hwf) as (rf' & r & Hae & Hcase). rewrite Hae in He. simplify_eq/=.
    apply next_ok_update; [done|]. by eapply install_case_fine.
  - destruct Hmsg as (_ & _ & b & Hargs & _). destruct (snapshotReply _ _ _ _ _) as [rf'|] eqn:Hr; simplify_eq/=. apply next_ok_update; [done|].
    by eapply snapshotReply_fine.
  - destruct (Start _ _) as [[]|] eqn:Hr; simplify_eq/=. apply next_ok_update; [done|]. by eapply Start_fine.
  - destruct (Snapshot_cases (raft p) index snap Hwf) as [[Hr _]|(x & Hx & Hi & Hr)]; [eapply apply_ok_of; [apply Hc|done]|..];
      rewrite Hr in He; simplify_eq/=; apply next_ok_update; auto. eapply fine_same; [exact Hf|done| |done].
    apply entryAt_Some in Hx as [_ Hx%lookup_lt_Some]. unfold lastLogIndex in *. simpl. rewrite length_drop. lia.
  - destruct (applier (raft p)) as [[[rf d]|]|] eqn:Ha; simplify_eq/=. apply next_ok_update; [done|]. unfold applier in Ha.
    repeat (case_match || (destruct (entryAt _ _); simpl in Ha)); simplify_eq; done.
  - rewrite <-(no_me _ _ _ _ Hno) in He.
    destruct (Make_recovers (raft p) now) as (rf & Hm & _ & Hst & _); [apply Hwf|done|]. rewrite Hm in He. simplify_eq/=.
    apply next_ok_update; [done|]. by apply fine_follower.
Qed.

Lemma run_next_ok s a ls s' : coupled n s a -> next_ok s -> run s ls = Next s' -> next_ok s'.
Proof.
  revert s a. induction ls as [|l ls IH]; intros s a Hc Hok H; simpl in H; [by simplify_eq|].
  pose proof (exec_sim n s a l Hc) as Hsim. destruct (exec s l) as [| |s1] eqn:He; [by eapply IH|done|].
  destruct Hsim as (a1 & _ & Hc1). eapply IH; [exact Hc1|exact (exec_next_ok s a l s1 Hc Hok He)|done].
Qed.

Lemma start_run_next_ok ls s : start_run n ls = Next s -> next_ok s.
Proof.
  intros H. destruct (init_coupled (Cmd := Cmd) n) as (s0 & Hs0 & Hc0). unfold start_run in H. rewrite Hs0 in H.
  eapply run_next_ok; [exact Hc0| |done]. intros i p Hp. apply fine_follower. by rewrite (no_role _ _ _ _ (cp_procs _ _ _ Hc0 _ _ Hp)).
Qed.

(** A leader always sends something of its own term. *)
Lemma leader_sends rf (j : nat) : raft_wf rf -> next_fine rf -> state rf = Leader -> (j < npeers rf)%nat ->
  (exists args, replicateOnce rf j = Some (SendSnapshot args) /\ is_Term args = currentTerm rf) \/
  (exists args, replicateOnce rf j = Some (SendEntries args) /\ ae_Term args = currentTerm rf).
Proof.
  intros Hwf Hf Hs Hj. destruct (next_lookup rf j Hwf Hj Hs) as (x & Hx & _).
  pose proof (Forall_lookup_1 _ _ _ _ (Hf Hs) Hx) as Hle. simpl in Hle. destruct (replicateOnce_cases rf j Hwf Hj) as (r & Hr & Hc).
  destruct r as [|args|args].
  - exfalso. unfold replicateOnce, State_eqb in Hr. rewrite bool_decide_true in Hr by done. cbn [negb] in Hr. rewrite Hx in Hr. obind_in Hr.
    case_match; [done|]. rewrite Z.gtb_ltb, (proj2 (Z.ltb_ge _ _)) in Hr by lia.
    destruct (entryAt rf (x - 1)); destruct (from (log rf) _); case_match; simplify_eq/=.
  - left. exists args. split; [done|]. by destruct Hc as [_ ->].
  - right. exists args. split; [done|]. by destruct Hc as (_ & e & _ & _ & ->).
Qed.

End Next.
