(* ===== verification/RaftElect.v ===== *)
(** * Elections can succeed (src/raft1/raft.go)

    The theorems about the cluster so far say that nothing bad happens.  This
    file shows that leaders can always be elected: from every state that a
    cluster can reach, after any crashes and with any messages lost, every
    majority of the peers can elect a leader among themselves, without any
    other peer.

    The schedule has two rounds.  In the first a peer of the majority starts
    elections until its term is the largest, which makes all of them
    followers of one term; in the second the one with the most up-to-date log
    starts an election, and everyone votes for it.  A [calm] schedule has no crash, and only those
    start an election whose ticker can: not leaders. *)

From S2P Require Import Prelude Persister Raft RaftNode RaftSpec RaftCluster RaftRefine RaftSafety RaftNext.

Section Elect.
Context {Cmd : Type} `{GZ : Gob Z} `{GL : Gob (list (LogEntry Cmd))} (n : nat).
Implicit Types (rf : Raft Cmd) (s : Cluster Cmd) (p q : Proc Cmd).

(** ** Calm schedules *)

Definition calm_label s (l : Label Cmd) : Prop :=
  match l with
  | LElection i _ => forall p, procs s !! i = Some p -> state (raft p) <> Leader
  | LRestart _ _ => False
  | _ => True
  end.

Fixpoint calm s (ls : list (Label Cmd)) : Prop :=
  match ls with
  | [] => True
  | l :: ls => calm_label s l /\ match exec s l with Next s' => calm s' ls | Disabled => calm s ls | Panic => False end
  end.

Lemma run_app s s' l1 l2 : run s l1 = Next s' -> run s (l1 ++ l2) = run s' l2.
Proof.
  revert s. induction l1 as [|l l1 IH]; intros s H; simpl in *; [by injection H as <-|]. destruct (exec s l); [by apply IH|done|by apply IH].
Qed.

Lemma calm_app s s' l1 l2 : run s l1 = Next s' -> calm s l1 -> calm s' l2 -> calm s (l1 ++ l2).
Proof.
  revert s. induction l1 as [|l l1 IH]; intros s H Hc H2; simpl in *; [by injection H as <-|]. destruct Hc as [Hl Hc]. split; [done|].
  destruct (exec s l); [by apply IH|done|by apply IH].
Qed.

(** [s'] can be reached from [s] calmly. *)
Definition steps s s' : Prop := exists ls, calm s ls /\ run s ls = Next s'.

Lemma steps_refl s : steps s s.
Proof. by exists []. Qed.

Lemma steps_trans s1 s2 s3 : steps s1 s2 -> steps s2 s3 -> steps s1 s3.
Proof.
  intros (l1 & Hc1 & H1) (l2 & Hc2 & H2). exists (l1 ++ l2). split; [by eapply calm_app|]. by rewrite (run_app _ _ _ _ H1).
Qed.

Lemma steps_one s l s' : exec s l = Next s' -> calm_label s l -> steps s s'.
Proof. intros He Hc. exists [l]. simpl. by rewrite He. Qed.

(** ** Reachable states *)

Definition reach s : Prop := (exists a, coupled n s a) /\ next_ok s.

Lemma reach_start ls s : start_run n ls = Next s -> reach s.
Proof. intros H. destruct (start_run_coupled n ls s H) as (a & _ & Hc). split; [by exists a|exact (start_run_next_ok n ls s H)]. Qed.

Lemma reach_run s ls s' : reach s -> run s ls = Next s' -> reach s'.
Proof.
  intros [[a Hc] Hn] H. destruct (run_sim n s a ls Hc) as (s1 & a1 & H1 & _ & Hc1). rewrite H in H1. injection H1 as <-.
  split; [by exists a1|exact (run_next_ok n s a ls s' Hc Hn H)].
Qed.

Lemma reach_steps s s' : reach s -> steps s s' -> reach s'.
Proof. intros Hr (ls & _ & H). by eapply reach_run. Qed.

Lemma reach_proc s i p : reach s -> procs s !! i = Some p -> raft_wf (raft p) /\ me (raft p) = i /\ npeers (raft p) = n.
Proof. intros [[a Hc] _] Hp. destruct (cp_procs _ _ _ Hc i p Hp). auto. Qed.

Lemma reach_peer s i : reach s -> (i < n)%nat -> exists p, procs s !! i = Some p.
Proof. intros [[a Hc] _] Hi. destruct (lookup_lt_is_Some_2 (procs s) i) as [p Hp]; [by rewrite (cp_len _ _ _ Hc)|]. by exists p. Qed.

(** ** Votes *)

(** Term and index of the last log entry. *)
Definition last_term rf : Z := from_option Term 0 (entryAt rf (lastLogIndex rf)).

(** The log of [rf'] is at least as up to date as that of [rf]. *)
Definition up_to_date rf rf' : Prop :=
  last_term rf < last_term rf' \/ last_term rf = last_term rf' /\ lastLogIndex rf <= lastLogIndex rf'.

Lemma up_to_date_refl rf : up_to_date rf rf.
Proof. right. lia. Qed.

Lemma up_to_date_trans rf1 rf2 rf3 : up_to_date rf1 rf2 -> up_to_date rf2 rf3 -> up_to_date rf1 rf3.
Proof. unfold up_to_date. lia. Qed.

Lemma up_to_date_total rf rf' : up_to_date rf rf' \/ up_to_date rf' rf.
Proof. unfold up_to_date. lia. Qed.

(** What elections leave alone. *)
Definition same_log rf rf' : Prop :=
  log rf' = log rf /\ lastIncludedIndex rf' = lastIncludedIndex rf /\ commitIndex rf' = commitIndex rf.

Lemma same_log_last rf rf' : same_log rf rf' -> lastLogIndex rf' = lastLogIndex rf /\ last_term rf' = last_term rf.
Proof. intros (H1 & H2 & _). unfold last_term, entryAt, lastLogIndex. by rewrite H1, H2. Qed.

Lemma same_log_trans rf1 rf2 rf3 : same_log rf1 rf2 -> same_log rf2 rf3 -> same_log rf1 rf3.
Proof. intros (? & ? & ?) (? & ? & ?). split_and!; congruence. Qed.

Definition vote_args rf (t : Z) : RequestVoteArgs := MkRequestVoteArgs t (Z.of_nat (me rf)) (lastLogIndex rf) (last_term rf).

Lemma last_entry rf : raft_wf rf -> exists e, entryAt rf (lastLogIndex rf) = Some e /\ Term e = last_term rf.
Proof.
  intros Hwf. destruct (entryAt_in_range rf (lastLogIndex rf)) as [e He]; [pose proof (lastLogIndex_ge _ Hwf); lia|].
  exists e. split; [done|]. unfold last_term. by rewrite He.
Qed.

Lemma voteRequest_candidate rf t : raft_wf rf -> state rf = Candidate -> currentTerm rf = t -> voteRequest rf t = Some (Some (vote_args rf t)).
Proof.
  intros Hwf Hs Ht. unfold voteRequest. rewrite Ht, Z.eqb_refl, Hs. simpl.
  destruct (last_entry rf Hwf) as (e & -> & He). obind. unfold vote_args. by rewrite He.
Qed.

(** A peer of a smaller term becomes a follower, and grants its vote if the
    candidate is up to date. *)
Lemma RequestVote_higher rf args now : raft_wf rf -> currentTerm rf < rv_Term args -> exists rf' g,
  RequestVote rf args now = Some (rf', MkRequestVoteReply (rv_Term args) g) /\ currentTerm rf' = rv_Term args /\ state rf' = Follower /\
  same_log rf rf' /\
  (last_term rf < rv_LastLogTerm args \/ last_term rf = rv_LastLogTerm args /\ lastLogIndex rf <= rv_LastLogIndex args -> g = true).
Proof.
  intros Hwf Ht. unfold RequestVote. rewrite Z.gtb_ltb, (proj2 (Z.ltb_lt _ _) Ht). cbv zeta.
  change (currentTerm (toFollower rf (rv_Term args))) with (rv_Term args). rewrite Z.ltb_irrefl.
  change (entryAt (toFollower rf (rv_Term args))) with (entryAt rf).
  change (lastLogIndex (toFollower rf (rv_Term args))) with (lastLogIndex rf). destruct (last_entry rf Hwf) as (e & -> & He). obind. rewrite He.
  destruct (_ || _) eqn:Hup; cbn [negb].
  - eexists _, true. split_and!; [reflexivity|done|done|by split_and!|done].
  - eexists _, false. split_and!; [reflexivity|done|done|by split_and!|]. intros H. exfalso. apply orb_false_iff in Hup as [H1 H2].
    rewrite Z.gtb_ltb in H1. zbool. destruct H as [?|[E ?]]; [lia|]. rewrite E, Z.eqb_refl in H2. simpl in H2. zbool. lia.
Qed.

(** ** One request for a vote *)

(** Peer [i] waits for the votes of [W] in its [e]-th election, for the term
    [t] it is a candidate of, and has [votes]. *)
Record candidate s (i e : nat) (t : Z) (votes : nat) (W : list nat) p : Prop := {
  ca_proc : procs s !! i = Some p;
  ca_state : state (raft p) = Candidate;
  ca_term : currentTerm (raft p) = t;
  ca_election : elections p !! e = Some (MkElection t votes W);
}.

(** It asks [k], which answers. *)
Lemma ask s i e t votes W p k q : reach s -> candidate s i e t votes W p -> k ∈ W -> k <> i ->
  procs s !! k = Some q -> currentTerm (raft q) < t -> exists s' q' g,
  steps s s' /\ procs s' = <[k := q']> (procs s) /\ currentTerm (raft q') = t /\ state (raft q') = Follower /\ same_log (raft q) (raft q') /\
  elections q' = elections q /\ delivered s' = delivered s /\
  net s' = net s ++ [VoteReq i k (vote_args (raft p) t); VoteRep i k (vote_args (raft p) t) (MkRequestVoteReply t g)] /\
  (up_to_date (raft q) (raft p) -> g = true).
Proof.
  intros Hr [Hp Hst Ht He] Hk Hne Hq Hlt. destruct (reach_proc s i p Hr Hp) as (Hwf & Hme & _). destruct (reach_proc s k q Hr Hq) as (Hwfq & _).
  pose (s1 := update s i p [VoteReq i k (vote_args (raft p) t)] []).
  assert (exec s (LVoteRequest i e k) = Next s1) as H1.
  { unfold exec, at_proc. rewrite Hp, He. cbn [el_waiting el_term]. rewrite bool_decide_true by done. by rewrite voteRequest_candidate. }
  assert (procs s1 = procs s) as Hs1 by (simpl; by apply list_insert_id).
  destruct (RequestVote_higher (raft q) (vote_args (raft p) t) 0 Hwfq Hlt) as (rf' & g & Hrv & Ht' & Hst' & Hlog & Hg).
  exists (update s1 k (with_raft q rf') [VoteRep i k (vote_args (raft p) t) (MkRequestVoteReply t g)] []), (with_raft q rf'), g.
  assert (exec s1 (LVote (length (net s)) 0) = Next (update s1 k (with_raft q rf') [VoteRep i k (vote_args (raft p) t) (MkRequestVoteReply t g)] [])) as H2.
  { unfold exec. simpl net. rewrite list_lookup_middle by done. unfold at_proc. rewrite Hs1, Hq. simpl. cbn [vote_args rv_Term] in Hrv. by rewrite Hrv. }
  split_and!; auto.
  - eapply steps_trans; [by eapply steps_one|by eapply steps_one].
  - simpl. by rewrite (list_insert_id _ _ _ Hp).
  - simpl. by rewrite !app_nil_r.
  - simpl. by rewrite <-app_assoc.
Qed.

(** ** What an election leaves alone

    Peers outside [Q] do nothing; the peers of [Q] keep their logs, and no
    term goes beyond [t]. *)
Record quiet (Q : list nat) (t : Z) s s' : Prop := {
  qu_out : forall k, k ∉ Q -> procs s' !! k = procs s !! k;
  qu_in : forall k q, k ∈ Q -> procs s !! k = Some q -> exists q', procs s' !! k = Some q' /\ same_log (raft q) (raft q') /\
    (currentTerm (raft q) <= t -> currentTerm (raft q') <= t);
  qu_delivered : delivered s' = delivered s;
}.

Lemma same_log_refl rf : same_log rf rf.
Proof. done. Qed.

Lemma quiet_refl Q t s : quiet Q t s s.
Proof. constructor; auto. intros k q _ Hq. exists q. split_and!; auto using same_log_refl. Qed.

Lemma quiet_trans Q t s1 s2 s3 : quiet Q t s1 s2 -> quiet Q t s2 s3 -> quiet Q t s1 s3.
Proof.
  intros [Ho Hi Hd] [Ho' Hi' Hd']. constructor; [intros k Hk; rewrite Ho', Ho; auto| |congruence].
  intros k q Hk Hq. destruct (Hi k q Hk Hq) as (q1 & Hq1 & Hl1 & Ht1). destruct (Hi' k q1 Hk Hq1) as (q2 & Hq2 & Hl2 & Ht2).
  exists q2. split_and!; eauto using same_log_trans.
Qed.

Lemma quiet_weaken Q t t' s s' : quiet Q t s s' -> t <= t' -> (forall k q, k ∈ Q -> procs s !! k = Some q -> currentTerm (raft q) <= t) -> quiet Q t' s s'.
Proof.
  intros [Ho Hi Hd] Hle Ht. constructor; auto. intros k q Hk Hq. destruct (Hi k q Hk Hq) as (q' & Hq' & Hl & Hb).
  exists q'. split_and!; auto. specialize (Ht k q Hk Hq). lia.
Qed.

Lemma quiet_one Q t s s' k q q' : procs s !! k = Some q -> procs s' = <[k := q']> (procs s) -> k ∈ Q -> same_log (raft q) (raft q') ->
  currentTerm (raft q') <= t -> delivered s' = delivered s -> quiet Q t s s'.
Proof.
  intros Hq E Hk Hl Ht Hd. constructor; auto.
  - intros j Hj. rewrite E, list_lookup_insert_ne; [done|]. by intros ->.
  - intros j qj Hj Hqj. rewrite E. destruct (decide (k = j)) as [<-|Hne].
    + exists q'. rewrite list_lookup_insert_eq by (by eapply lookup_lt_Some). rewrite Hq in Hqj. injection Hqj as <-. auto.
    + exists qj. rewrite list_lookup_insert_ne by done. auto using same_log_refl.
Qed.

Lemma quiet_sub Q Q' t s s' : Q ⊆ Q' -> quiet Q t s s' -> quiet Q' t s s'.
Proof.
  intros Hsub [Ho Hi Hd]. constructor; auto. intros k q Hk Hq. destruct (decide (k ∈ Q)) as [HQ|HQ]; [by apply Hi|].
  exists q. rewrite Ho by done. auto using same_log_refl.
Qed.

(** ** The first round: everyone is a follower of one term *)

Lemma ask_all ks s i e t votes W p : reach s -> candidate s i e t votes W p -> NoDup ks -> ks ⊆ W -> i ∉ ks ->
  (forall k, k ∈ ks -> exists q, procs s !! k = Some q /\ currentTerm (raft q) < t) ->
  exists s', steps s s' /\ quiet ks t s s' /\
    forall k, k ∈ ks -> exists q, procs s' !! k = Some q /\ currentTerm (raft q) = t /\ state (raft q) = Follower.
Proof.
  intros Hr Hc Hnd. revert s Hr Hc. induction Hnd as [|k ks Hnot Hnd IH]; intros s Hr Hc HW Hi Hks.
  { exists s. split_and!; [apply steps_refl|apply quiet_refl|]. intros k Hk. by apply elem_of_nil in Hk. }
  destruct (Hks k) as (q & Hq & Hlt); [left|]. apply not_elem_of_cons in Hi as [Hne Hi].
  destruct (ask s i e t votes W p k q Hr Hc) as (s1 & q1 & g & Hs1 & Ep & Ht1 & Hst1 & Hl1 & _ & Hd1 & _ & _); [apply HW; left|done|done|done|].
  destruct (IH s1) as (s2 & Hs2 & Hq2 & Hall).
  - by eapply reach_steps.
  - destruct Hc as [Hp Hst Ht He]. constructor; auto. by rewrite Ep, list_lookup_insert_ne.
  - intros x Hx. apply HW. by right.
  - done.
  - intros k' Hk'. rewrite Ep, list_lookup_insert_ne by (by intros ->). apply Hks. by right.
  - exists s2. split_and!; [by eapply steps_trans| |].
    + eapply quiet_trans; [eapply quiet_one; eauto; [left|lia]|]. eapply quiet_sub; [|done]. intros x Hx. by right.
    + intros k' [->|Hk']%elem_of_cons; [|by apply Hall]. exists q1. rewrite (qu_out _ _ _ _ Hq2) by done. split_and!; auto.
      rewrite Ep. apply list_lookup_insert_eq. by eapply lookup_lt_Some.
Qed.

(** An election starts. *)
Lemma start_election s i p t : reach s -> procs s !! i = Some p -> state (raft p) <> Leader -> currentTerm (raft p) = t ->
  exists s' p', steps s s' /\ candidate s' i (length (elections p)) (t + 1) 1 (others_of n i) p' /\ quiet [i] (t + 1) s s'.
Proof.
  intros Hr Hp Hst Ht. destruct (reach_proc s i p Hr Hp) as (Hwf & Hme & Hn).
  set (rf := fst (startElection (raft p) 0)). assert (npeers rf = n) as Hn' by done.
  set (p' := MkProc rf (elections p ++ [MkElection (t + 1) 1 (others_of n i)])).
  exists (update s i p' [] []), p'. split_and!.
  - apply (steps_one s (LElection i 0)).
    + unfold exec, at_proc. rewrite Hp. unfold p', rf. simpl. by rewrite Hn, Ht.
    + simpl. intros q Hq. by simplify_eq.
  - constructor; simpl; [apply list_lookup_insert_eq; by eapply lookup_lt_Some|done|by rewrite Ht|by apply list_lookup_middle].
  - eapply (quiet_one _ _ _ _ i p p'); auto; [left|by split_and!|simpl; lia|by apply app_nil_r].
Qed.

(** ** The second round: everyone votes for one of them *)

(** A leader that has just been elected. *)
Record fresh_leader rf (t : Z) : Prop := {
  fl_state : state rf = Leader;
  fl_term : currentTerm rf = t;
  fl_next : nextIndex rf = replicate (npeers rf) (lastLogIndex rf + 1);
  fl_match : matchIndex rf = <[me rf := lastLogIndex rf]> (replicate (npeers rf) 0);
}.

Lemma becomeLeader_candidate rf t now : raft_wf rf -> state rf = Candidate -> currentTerm rf = t ->
  exists rf', becomeLeader rf t now = Some rf' /\ fresh_leader rf' t /\ same_log rf rf'.
Proof.
  intros Hwf Hs Ht. unfold becomeLeader. rewrite Hs, Ht, Z.eqb_refl. change (State_eqb Candidate Leader) with false. cbn [orb negb].
  rewrite put_in_range by (rewrite length_replicate; pose proof (wf_me _ Hwf); lia). rewrite Nat2Z.id. obind.
  eexists. split; [reflexivity|]. split; [|by split_and!]. by constructor.
Qed.

(** A vote arrives. *)
Lemma count_vote s i e t votes W p k args m : reach s -> candidate s i e t votes W p -> k ∈ W ->
  net s !! m = Some (VoteRep i k args (MkRequestVoteReply t true)) -> rv_Term args = t ->
  exists s' p', steps s s' /\ quiet [i] t s s' /\ same_log (raft p) (raft p') /\
    if (n / 2 <? S votes)%nat then procs s' !! i = Some p' /\ fresh_leader (raft p') t
    else candidate s' i e t (S votes) (filter (fun x => x <> k) W) p'.
Proof.
  intros Hr [Hp Hst Ht He] Hk Hm Ha. destruct (reach_proc s i p Hr Hp) as (Hwf & Hme & Hn).
  pose proof (lookup_lt_Some _ _ _ Hp) as Hlen. pose proof (lookup_lt_Some _ _ _ He) as Hlen'.
  assert (exists rf', voteReply (raft p) t votes (MkRequestVoteReply t true) 0 = Some (rf', S votes) /\ same_log (raft p) rf' /\ currentTerm rf' = t /\
    if (n / 2 <? S votes)%nat then fresh_leader rf' t else state rf' = Candidate) as (rf' & Hv & Hl & Ht' & Hcase).
  { unfold voteReply. cbn [rvr_Term rvr_VoteGranted]. rewrite Ht, Z.gtb_ltb, Z.ltb_irrefl, Z.eqb_refl, Hst, Hn. change (State_eqb Candidate Candidate) with true. cbn [orb negb].
    destruct (n / 2 <? S votes)%nat.
    - destruct (becomeLeader_candidate (raft p) t 0 Hwf Hst Ht) as (rf' & -> & Hf & Hl). obind. exists rf'. split_and!; auto. apply Hf.
    - exists (raft p). split_and!; auto using same_log_refl. }
  set (p' := MkProc rf' (<[e := MkElection t (S votes) (filter (fun x => x <> k) W)]> (elections p))).
  exists (update s i p' [] []), p'. split_and!; auto.
  - apply (steps_one s (LVoteReply e m 0)); [|done]. unfold exec. rewrite Hm. unfold at_proc. rewrite Hp, He. cbn [el_waiting el_term el_votes].
    rewrite bool_decide_true, Ha, Z.eqb_refl by done. cbn [andb]. by rewrite Hv.
  - eapply (quiet_one _ _ _ _ i p p'); auto; [left|simpl; lia|by apply app_nil_r].
  - assert (procs (update s i p' [] []) !! i = Some p') as Hp' by (by apply list_lookup_insert_eq).
    destruct (n / 2 <? S votes)%nat; [done|]. constructor; auto. by apply list_lookup_insert_eq.
Qed.

(** The votes of [ks] are enough. *)
Lemma collect ks s i e t votes W p : reach s -> candidate s i e t votes W p -> NoDup ks -> ks ⊆ W -> i ∉ ks ->
  (forall k, k ∈ ks -> exists q, procs s !! k = Some q /\ currentTerm (raft q) < t /\ up_to_date (raft q) (raft p)) ->
  (votes <= n / 2)%nat -> (n / 2 < votes + length ks)%nat ->
  exists s' p', steps s s' /\ quiet (i :: ks) t s s' /\ procs s' !! i = Some p' /\ fresh_leader (raft p') t /\ same_log (raft p) (raft p').
Proof.
  intros Hr Hc Hnd. revert s votes W p Hr Hc. induction Hnd as [|k ks Hnot Hnd IH]; intros s votes W p Hr Hc HW Hi Hks Hle Hlt; [cbn [length] in Hlt; lia|].
  destruct (Hks k) as (q & Hq & Hqt & Hup); [left|]. apply not_elem_of_cons in Hi as [Hne Hi].
  destruct (ask s i e t votes W p k q Hr Hc) as (s1 & q1 & g & Hs1 & Ep & Ht1 & Hst1 & Hl1 & _ & Hd1 & Hnet & Hg); [apply HW; left|done|done|done|].
  rewrite (Hg Hup) in Hnet. assert (reach s1) as Hr1 by (by eapply reach_steps).
  assert (candidate s1 i e t votes W p) as Hc1 by (destruct Hc as [Hp Hst Ht He]; constructor; auto; by rewrite Ep, list_lookup_insert_ne).
  assert (quiet [k] t s s1) as Hqu1 by (eapply quiet_one; eauto; [left|lia]).
  destruct (count_vote s1 i e t votes W p k (vote_args (raft p) t) (S (length (net s))) Hr1 Hc1) as (s2 & p2 & Hs2 & Hqu2 & Hl2 & Hcase);
    [apply HW; left|rewrite Hnet, lookup_app_r by lia; by replace (S (length (net s)) - length (net s))%nat with 1%nat by lia|done|].
  assert (steps s s2) as Hs02 by (by eapply steps_trans).
  assert (quiet (i :: k :: ks) t s s2) as Hqu02.
  { eapply quiet_trans; [eapply quiet_sub; [|exact Hqu1]|eapply quiet_sub; [|exact Hqu2]]; intros x ->%list_elem_of_singleton; set_solver. }
  destruct (Nat.ltb_spec (n / 2) (S votes)) as [Hmaj|Hmin].
  - destruct Hcase as [Hp2 Hf]. exists s2, p2. split_and!; auto.
  - destruct (IH s2 (S votes) (filter (fun x => x <> k) W) p2) as (s3 & p3 & Hs3 & Hqu3 & Hp3 & Hf3 & Hl3); [by eapply reach_steps|done| |done| |lia|cbn [length] in Hlt; lia|].
    + intros x Hx. apply list_elem_of_filter. split; [by intros ->|]. apply HW. by right.
    + intros k' Hk'. destruct (Hks k') as (q' & Hq' & Hqt' & Hup'); [by right|]. exists q'. split_and!; auto.
      * rewrite (qu_out _ _ _ _ Hqu2), (qu_out _ _ _ _ Hqu1); [done| |]; rewrite list_elem_of_singleton; by intros ->.
      * destruct (same_log_last _ _ Hl2) as [E1 E2]. unfold up_to_date in *. by rewrite E1, E2.
    + exists s3, p3. split_and!; [by eapply steps_trans| |done|done|by eapply same_log_trans].
      eapply quiet_trans; [done|]. eapply quiet_sub; [|done]. set_solver.
Qed.

(** ** The whole schedule *)

(** Elections until the term is larger than [T]. *)
Lemma elect_beyond T s i p : reach s -> procs s !! i = Some p -> state (raft p) <> Leader ->
  exists s' p' e t, T < t /\ currentTerm (raft p) < t /\ steps s s' /\ candidate s' i e t 1 (others_of n i) p' /\ quiet [i] t s s'.
Proof.
  remember (Z.to_nat (T - currentTerm (raft p))) as d eqn:Hd. revert s p Hd. induction d as [|d IH]; intros s p Hd Hr Hp Hst.
  all: destruct (start_election s i p (currentTerm (raft p)) Hr Hp Hst eq_refl) as (s1 & p1 & Hs1 & Hc1 & Hq1).
  { exists s1, p1, (length (elections p)), (currentTerm (raft p) + 1). split_and!; auto; lia. }
  destruct Hc1 as [Hp1 Hst1 Ht1 He1]. destruct (IH s1 p1) as (s2 & p2 & e & t & Hlt & Hlt' & Hs2 & Hc2 & Hq2);
    [rewrite Ht1; lia|by eapply reach_steps|done|by rewrite Hst1|].
  exists s2, p2, e, t. split_and!; auto; [lia|by eapply steps_trans|]. eapply quiet_trans; [|done].
  eapply quiet_weaken; [done|lia|]. intros k q ->%list_elem_of_singleton Hq. simplify_eq. lia.
Qed.

(** A largest element. *)
Lemma max_in {A} (R : A -> A -> Prop) (l : list A) : (forall x y, R x y \/ R y x) -> (forall x y z, R x y -> R y z -> R x z) ->
  l <> [] -> exists x, x ∈ l /\ forall y, y ∈ l -> R y x.
Proof.
  intros Htot Htr. induction l as [|x l IH]; [done|]. intros _. destruct l as [|x' l'].
  - exists x. split; [left|]. intros y ->%list_elem_of_singleton. by destruct (Htot x x).
  - destruct IH as (m & Hm & Hmax); [done|]. destruct (Htot x m) as [H|H].
    + exists m. split; [by right|]. intros y [->|Hy]%elem_of_cons; auto.
    + exists x. split; [left|]. intros y [->|Hy]%elem_of_cons; [by destruct (Htot x x)|]. eauto.
Qed.

Lemma others_elem i k : (k < n)%nat -> k <> i -> k ∈ others_of n i.
Proof. intros Hk Hne. apply list_elem_of_filter. split; [done|]. apply elem_of_seq. lia. Qed.

Definition rest (Q : list nat) (i : nat) : list nat := filter (fun k => k <> i) Q.

Lemma rest_elem Q i k : k ∈ rest Q i <-> k <> i /\ k ∈ Q.
Proof. unfold rest. by rewrite list_elem_of_filter. Qed.

Lemma rest_length Q i : NoDup Q -> i ∈ Q -> (length Q = S (length (rest Q i)))%nat.
Proof.
  intros Hnd Hi. induction Hnd as [|x Q Hx Hnd IH]; [by apply elem_of_nil in Hi|]. unfold rest. rewrite filter_cons. destruct (decide (x = i)) as [->|Hne].
  - rewrite decide_False by (by intros H). simpl. f_equal. symmetry. f_equal. clear IH Hi. induction Q as [|y Q IH']; [done|].
    apply not_elem_of_cons in Hx as [? ?]. apply NoDup_cons in Hnd as [? ?]. rewrite filter_cons, decide_True by done. f_equal. auto.
  - rewrite decide_True by done. simpl. f_equal. apply IH. apply elem_of_cons in Hi as [?|?]; [congruence|done].
Qed.

(** ** Two leaders

    Leaders do not start elections.  If every peer of the majority believes
    that it is the leader, the terms differ, and a heartbeat of a higher term
    makes the peer of the lower one a follower. *)

Lemma append_steps_down rf args now : raft_wf rf -> currentTerm rf <= ae_Term args -> exists rf' reply,
  AppendEntries rf args now = Some (rf', reply) /\ state rf' = Follower /\ currentTerm rf' = ae_Term args.
Proof.
  intros Hwf Ht. destruct (AppendEntries_cases rf args now Hwf) as (rf' & reply & H & Hc). exists rf', reply. split; [done|].
  pose proof (stepDown_fields rf (ae_Term args) now Ht) as (H1 & H2 & _). destruct Hc as [|rf1 _|rf1 _|rf1 ? ? _|rf1 ? _]; subst rf1 || lia; auto.
  rewrite accepted_state. split; [done|]. by rewrite (proj2 (proj2 (accepted_log _ _))).
Qed.

Lemma install_steps_down rf args now : raft_wf rf -> currentTerm rf <= is_Term args -> exists rf' reply,
  InstallSnapshot rf args now = Some (rf', reply) /\ state rf' = Follower /\ currentTerm rf' = is_Term args.
Proof.
  intros Hwf Ht. destruct (InstallSnapshot_cases rf args now Hwf) as (rf' & reply & H & Hc). exists rf', reply. split; [done|].
  pose proof (stepDown_fields rf (is_Term args) now Ht) as (H1 & H2 & _). destruct Hc as [|rf1 _|rf1 ? _|rf1 _]; subst rf1 || lia; auto.
  all: rewrite installed_state; split; [done|]; pose proof (installed_fields (stepDown rf (is_Term args) now) args) as HI; edestruct HI as [E _];
    injection E as _ _ Ec _ _ _ _; by rewrite Ec.
Qed.

Lemma depose s i j p q : reach s -> procs s !! i = Some p -> procs s !! j = Some q -> i <> j -> state (raft p) = Leader ->
  currentTerm (raft q) <= currentTerm (raft p) -> exists s' q', steps s s' /\ procs s' = <[j := q']> (procs s) /\ delivered s' = delivered s /\
  state (raft q') = Follower /\ currentTerm (raft q') = currentTerm (raft p).
Proof.
  intros Hr Hp Hq Hne Hst Ht. destruct (reach_proc s i p Hr Hp) as (Hwf & Hme & Hn). destruct (reach_proc s j q Hr Hq) as (Hwfq & _ & _).
  assert (j < n)%nat as Hj by (destruct Hr as [[a Hc] _]; rewrite <-(cp_len _ _ _ Hc); by eapply lookup_lt_Some).
  assert (forall m, procs (update s i p [m] []) = procs s) as Hs1 by (intros m; by apply list_insert_id).
  assert (bool_decide (j ∈ others_of (npeers (raft p)) i) = true) as Hb.
  { apply bool_decide_eq_true_2. rewrite Hn. apply list_elem_of_filter. split; [done|]. apply elem_of_seq. lia. }
  destruct (leader_sends (raft p) j Hwf) as [(args & Hs & Ha)|(args & Hs & Ha)]; [by apply Hr in Hp|done|by rewrite Hn|..].
  - destruct (install_steps_down (raft q) args 0 Hwfq) as (rf' & reply & He & H1 & H2); [by rewrite Ha|].
    exists (update (update s i p [SnapReq i j args] []) j (with_raft q rf') [SnapRep i j args reply] []), (with_raft q rf').
    split_and!; [|simpl; by rewrite (list_insert_id _ _ _ Hp)|simpl; by rewrite !app_nil_r|done|simpl; congruence].
    eapply steps_trans; [apply (steps_one s (LReplicate i j)); [|done]|apply (steps_one _ (LSnap (length (net s)) 0)); [|done]].
    + unfold exec, at_proc. by rewrite Hp, Hb, Hs.
    + unfold exec. cbn [net update]. rewrite list_lookup_middle by done. unfold at_proc. rewrite Hs1, Hq. by rewrite He.
  - destruct (append_steps_down (raft q) args 0 Hwfq) as (rf' & reply & He & H1 & H2); [by rewrite Ha|].
    exists (update (update s i p [AppendReq i j args] []) j (with_raft q rf') [AppendRep i j args reply] []), (with_raft q rf').
    split_and!; [|simpl; by rewrite (list_insert_id _ _ _ Hp)|simpl; by rewrite !app_nil_r|done|simpl; congruence].
    eapply steps_trans; [apply (steps_one s (LReplicate i j)); [|done]|apply (steps_one _ (LAppend (length (net s)) 0)); [|done]].
    + unfold exec, at_proc. by rewrite Hp, Hb, Hs.
    + unfold exec. cbn [net update]. rewrite list_lookup_middle by done. unfold at_proc. rewrite Hs1, Hq. by rewrite He.
Qed.

Section Majority.
Variables (Q : list nat) (s : Cluster Cmd).
Hypotheses (Hreach : reach s) (Hn : (2 <= n)%nat) (HQnd : NoDup Q) (HQ : forall k, k ∈ Q -> (k < n)%nat) (HQmaj : (n / 2 < length Q)%nat).

(** Some peer of the majority has a largest term, and some peer a most
    up-to-date log. *)
Lemma majority_terms s0 : reach s0 -> exists T, forall k q, k ∈ Q -> procs s0 !! k = Some q -> currentTerm (raft q) <= T.
Proof.
  intros Hr. destruct (max_in Z.le ((fun k => from_option (fun q => currentTerm (raft q)) 0 (procs s0 !! k)) <$> Q)) as (T & _ & HT).
  - intros x y. lia.
  - intros x y z. lia.
  - intros E%fmap_nil_inv. rewrite E in HQmaj. simpl in HQmaj. lia.
  - exists T. intros k q Hk Hq. apply HT. apply list_elem_of_fmap. exists k. by rewrite Hq.
Qed.

Lemma majority_log s0 : reach s0 -> exists i p, i ∈ Q /\ procs s0 !! i = Some p /\
  forall k q, k ∈ Q -> procs s0 !! k = Some q -> up_to_date (raft q) (raft p).
Proof.
  intros Hr. assert (exists ps, Forall2 (fun k p => procs s0 !! k = Some p) Q ps) as [ps Hps].
  { clear HQmaj HQnd. induction Q as [|k Q' IH]; [by exists []|]. destruct IH as [ps Hps]; [intros x Hx; apply HQ; by right|].
    destruct (reach_peer s0 k Hr) as [p Hp]; [apply HQ; left|]. exists (p :: ps). by constructor. }
  destruct (max_in (fun p q => up_to_date (raft p) (raft q)) ps) as (p & Hp & Hmax).
  - intros x y. apply up_to_date_total.
  - intros x y z. apply up_to_date_trans.
  - intros ->. apply Forall2_nil_inv_r in Hps as ->. simpl in HQmaj. lia.
  - apply list_elem_of_lookup in Hp as [m Hm]. destruct (Forall2_lookup_r _ _ _ _ _ Hps Hm) as (i & Hi & Hip).
    exists i, p. split_and!; [by eapply list_elem_of_lookup_2|done|]. intros k q Hk Hq. apply Hmax.
    apply list_elem_of_lookup in Hk as [m' Hm']. destruct (Forall2_lookup_l _ _ _ _ _ Hps Hm') as (q' & Hq' & Hkq'). simplify_eq. by eapply list_elem_of_lookup_2.
Qed.

Lemma rest_asked i : i ∈ Q -> NoDup (rest Q i) /\ rest Q i ⊆ others_of n i /\ i ∉ rest Q i.
Proof.
  intros Hi. split_and!; [by apply NoDup_filter| |].
  - intros k [Hne Hk]%rest_elem. apply others_elem; auto.
  - by intros [? _]%rest_elem.
Qed.

(** All of the majority have one term, and none is a leader. *)
Lemma first_round k0 p0 : k0 ∈ Q -> procs s !! k0 = Some p0 -> state (raft p0) <> Leader ->
  exists s' t, steps s s' /\ quiet Q t s s' /\ (forall k q, k ∈ Q -> procs s !! k = Some q -> currentTerm (raft q) <= t) /\
    forall k q, k ∈ Q -> procs s' !! k = Some q -> currentTerm (raft q) = t /\ state (raft q) <> Leader.
Proof.
  intros Hk0 Hp0 Hst0. destruct (majority_terms s Hreach) as [T HT].
  destruct (elect_beyond T s k0 p0 Hreach Hp0 Hst0) as (s1 & p1 & e & t & HTt & _ & Hs1 & Hc1 & Hq1).
  assert (reach s1) as Hr1 by (by eapply reach_steps). destruct (rest_asked k0 Hk0) as (Hnd & Hsub & Hnot).
  destruct (ask_all (rest Q k0) s1 k0 e t 1 _ p1 Hr1 Hc1 Hnd Hsub Hnot) as (s2 & Hs2 & Hq2 & Hall).
  { intros k [Hne Hk]%rest_elem. destruct (reach_peer s k Hreach) as [q Hq]; [by apply HQ|]. exists q.
    rewrite (qu_out _ _ _ _ Hq1) by (by rewrite list_elem_of_singleton). specialize (HT k q Hk Hq). split; [done|lia]. }
  exists s2, t. split_and!.
  - by eapply steps_trans.
  - eapply quiet_trans; eapply quiet_sub; [|exact Hq1| |exact Hq2]; [by intros x ->%list_elem_of_singleton|by intros x [_ ?]%rest_elem].
  - intros k q Hk Hq. specialize (HT k q Hk Hq). lia.
  - intros k q Hk Hq. destruct (decide (k = k0)) as [->|Hne].
    + rewrite (qu_out _ _ _ _ Hq2), (ca_proc _ _ _ _ _ _ _ Hc1) in Hq by done. injection Hq as <-. destruct Hc1 as [_ Hst Ht _]. split; [done|congruence].
    + destruct (Hall k) as (q' & Hq' & Ht' & Hst'); [by apply rest_elem|]. simplify_eq. split; [done|congruence].
Qed.

(** The most up-to-date of them is elected. *)
Lemma can_elect k0 p0 : k0 ∈ Q -> procs s !! k0 = Some p0 -> state (raft p0) <> Leader ->
  exists s' i p p' t, steps s s' /\ quiet Q t s s' /\ i ∈ Q /\ procs s !! i = Some p /\ procs s' !! i = Some p' /\
    fresh_leader (raft p') t /\ same_log (raft p) (raft p') /\
    (forall k q, k ∈ Q -> procs s !! k = Some q -> currentTerm (raft q) < t /\ up_to_date (raft q) (raft p)).
Proof.
  intros Hk0 Hp0 Hst0. destruct (first_round k0 p0 Hk0 Hp0 Hst0) as (s1 & t & Hs1 & Hq1 & Hle & Hall).
  assert (reach s1) as Hr1 by (by eapply reach_steps). destruct (majority_log s Hreach) as (i & p & Hi & Hp & Hup).
  destruct (qu_in _ _ _ _ Hq1 i p Hi Hp) as (p1 & Hp1 & Hl1 & _). destruct (Hall i p1 Hi Hp1) as [Ht1 Hst1].
  destruct (start_election s1 i p1 t Hr1 Hp1 Hst1 Ht1) as (s2 & p2 & Hs2 & Hc2 & Hq2). assert (reach s2) as Hr2 by (by eapply reach_steps).
  destruct (qu_in _ _ _ _ Hq2 i p1) as (p2' & Hp2' & Hl2 & _); [left|done|]. rewrite (ca_proc _ _ _ _ _ _ _ Hc2) in Hp2'. injection Hp2' as <-.
  destruct (rest_asked i Hi) as (Hnd & Hsub & Hnot). pose proof (rest_length Q i HQnd Hi) as Hlen.
  destruct (collect (rest Q i) s2 i _ (t + 1) 1 _ p2 Hr2 Hc2 Hnd Hsub Hnot) as (s3 & p3 & Hs3 & Hq3 & Hp3 & Hf3 & Hl3).
  { intros k [Hne Hk]%rest_elem. destruct (reach_peer s k Hreach) as [q Hq]; [by apply HQ|]. destruct (qu_in _ _ _ _ Hq1 k q Hk Hq) as (q1 & Hq1k & Hlq & _).
    exists q1. rewrite (qu_out _ _ _ _ Hq2) by (by rewrite list_elem_of_singleton). destruct (Hall k q1 Hk Hq1k) as [Htk _]. split_and!; [done|lia|].
    specialize (Hup k q Hk Hq). destruct (same_log_last _ _ Hlq) as [E1 E2]. destruct (same_log_last _ _ (same_log_trans _ _ _ Hl1 Hl2)) as [E3 E4].
    unfold up_to_date in *. by rewrite E1, E2, E3, E4. }
  { pose proof (Nat.div_le_lower_bound n 2 1). lia. }
  { lia. }
  exists s3, i, p, p3, (t + 1). split_and!; auto.
  - by do 2 (eapply steps_trans; [done|]).
  - eapply quiet_trans; [eapply quiet_weaken; [exact Hq1|lia|done]|]. eapply quiet_trans; eapply quiet_sub; [|exact Hq2| |exact Hq3].
    + by intros x ->%list_elem_of_singleton.
    + intros x [->|[_ ?]%rest_elem]%elem_of_cons; done.
  - eapply same_log_trans; [|done]. by eapply same_log_trans.
  - intros k q Hk Hq. specialize (Hle k q Hk Hq). split; [lia|]. by apply (Hup k).
Qed.

End Majority.

(** Someone in the majority is not a leader, or can be deposed. *)
Lemma unblock s Q : reach s -> NoDup Q -> (forall k, k ∈ Q -> (k < n)%nat) -> (2 <= length Q)%nat ->
  exists s' k0 p0, steps s s' /\ k0 ∈ Q /\ procs s' !! k0 = Some p0 /\ state (raft p0) <> Leader /\ delivered s' = delivered s /\
    (forall k, k ∉ Q -> procs s' !! k = procs s !! k) /\
    (forall k q, procs s !! k = Some q -> exists q', procs s' !! k = Some q' /\ currentTerm (raft q) <= currentTerm (raft q')).
Proof.
  intros Hr Hnd HQ H2. destruct Q as [|i [|j Q]]; [simpl in H2; lia..|]. apply NoDup_cons in Hnd as [Hij _]. apply not_elem_of_cons in Hij as [Hne _].
  destruct (reach_peer s i Hr) as [p Hp]; [apply HQ; left|]. destruct (reach_peer s j Hr) as [q Hq]; [apply HQ; right; left|].
  set (goal := exists s' k0 p0, _). assert (forall k0 p0, k0 ∈ i :: j :: Q -> procs s !! k0 = Some p0 -> state (raft p0) <> Leader -> goal) as Hstay.
  { intros k0 p0 Hk0 Hp0 Hst. exists s, k0, p0. split_and!; eauto using steps_refl. intros k qk Hqk. exists qk. split; [done|lia]. }
  destruct (decide (state (raft p) = Leader)) as [Hlp|]; [|by apply (Hstay i p); [left|..]].
  assert (forall x y px py, x <> y -> x ∈ i :: j :: Q -> y ∈ i :: j :: Q -> procs s !! x = Some px -> procs s !! y = Some py -> state (raft px) = Leader ->
    currentTerm (raft py) <= currentTerm (raft px) -> goal) as Hmain.
  { intros x y px py Hxy Hx Hy Hpx Hpy Hl Ht. destruct (depose s x y px py Hr Hpx Hpy Hxy Hl Ht) as (s' & q' & Hs & E & Hd & H1 & Ht').
    pose proof (lookup_lt_Some _ _ _ Hpy) as Hlen. exists s', y, q'. rewrite E. split_and!; auto; [by apply list_lookup_insert_eq|congruence|..].
    - intros k Hk. apply list_lookup_insert_ne. by intros ->.
    - intros k qk Hqk. destruct (decide (y = k)) as [<-|Hk].
      + exists q'. rewrite list_lookup_insert_eq by done. simplify_eq. split; [done|lia].
      + exists qk. by rewrite list_lookup_insert_ne. }
  destruct (decide (state (raft q) = Leader)) as [Hlq|]; [|by apply (Hstay j q); [right; left|..]].
  destruct (Z.le_ge_cases (currentTerm (raft q)) (currentTerm (raft p))).
  - apply (Hmain i j p q); auto; set_solver.
  - apply (Hmain j i q p); auto; set_solver.
Qed.

(** A majority of the peers elects one of them. *)
Lemma elect s Q : reach s -> (2 <= n)%nat -> NoDup Q -> (forall k, k ∈ Q -> (k < n)%nat) -> (n / 2 < length Q)%nat ->
  exists s' i p t, steps s s' /\ (forall k, k ∉ Q -> procs s' !! k = procs s !! k) /\ delivered s' = delivered s /\
    i ∈ Q /\ procs s' !! i = Some p /\ fresh_leader (raft p) t /\
    (forall k q, k ∈ Q -> procs s !! k = Some q -> currentTerm (raft q) < t) /\
    (forall k q, k ∈ Q -> procs s' !! k = Some q -> currentTerm (raft q) <= t).
Proof.
  intros Hr Hn Hnd HQ Hmaj. pose proof (Nat.div_le_lower_bound n 2 1) as H1.
  destruct (unblock s Q Hr Hnd HQ) as (s1 & k0 & p0 & Hs1 & Hk0 & Hp0 & Hst & Hd1 & Ho1 & Ht1); [lia|].
  assert (reach s1) as Hr1 by (by eapply reach_steps).
  destruct (can_elect Q s1 Hr1 Hn Hnd HQ Hmaj k0 p0 Hk0 Hp0 Hst) as (s2 & i & p & p' & t & Hs2 & Hq2 & Hi & Hp & Hp' & Hf & Hl & Hall).
  exists s2, i, p', t. split_and!; auto.
  - by eapply steps_trans.
  - intros k Hk. by rewrite (qu_out _ _ _ _ Hq2), Ho1.
  - rewrite (qu_delivered _ _ _ _ Hq2). done.
  - intros k q Hk Hq. destruct (Ht1 k q Hq) as (q1 & Hq1 & Hle). destruct (Hall k q1 Hk Hq1). lia.
  - intros k q Hk Hq. destruct (reach_peer s1 k Hr1) as [q1 Hq1]; [auto|].
    destruct (qu_in _ _ _ _ Hq2 k q1 Hk Hq1) as (q2 & Hq2' & _ & Hle). simplify_eq. destruct (Hall k q1 Hk Hq1). apply Hle. lia.
Qed.

End Elect.

(** Elections do not block.  From every state that a cluster of
    at least two peers reaches, after any crashes, partitions and lost,
    delayed or duplicated messages, every majority of the peers can elect a
    leader of a new term among themselves: some schedule without crashes, in
    which only followers and candidates start elections and no peer outside
    the majority does anything, leads to it. *)
Theorem majority_can_elect {Cmd : Type} `{GZ : Gob Z} `{GL : Gob (list (LogEntry Cmd))} (n : nat) (ls : list (Label Cmd)) s (Q : list nat) :
  start_run n ls = Next s -> (2 <= n)%nat -> NoDup Q -> (forall k, k ∈ Q -> (k < n)%nat) -> (Nat.div n 2 < length Q)%nat ->
  exists ls' s' i p, calm s ls' /\ run s ls' = Next s' /\ (forall k, k ∉ Q -> procs s' !! k = procs s !! k) /\
    i ∈ Q /\ procs s' !! i = Some p /\ state (raft p) = Leader /\
    (forall k q, k ∈ Q -> procs s !! k = Some q -> currentTerm (raft q) < currentTerm (raft p)) /\
    (forall k q, k ∈ Q -> procs s' !! k = Some q -> currentTerm (raft q) <= currentTerm (raft p)).
Proof.
  intros Hs Hn Hnd HQ Hmaj. destruct (elect n s Q (reach_start n ls s Hs) Hn Hnd HQ Hmaj) as (s' & i & p & t & (ls' & Hc & Hrun) & Ho & _ & Hi & Hp & [Hst <- _ _] & Hlt & Hle).
  exists ls', s', i, p. by split_and!.
Qed.

(** The two peers that are not the leader of the example can do without it. *)
Lemma majority_can_elect_witness : exists (ls' : list (Label nat)) (s' : Cluster nat) (i : nat) (p : Proc nat), calm example_state ls' /\ run example_state ls' = Next s' /\
  i ∈ [1%nat; 2%nat] /\ procs s' !! i = Some p /\ state (raft p) = Leader.
Proof.
  destruct (majority_can_elect 3 example_run example_state [1%nat; 2%nat]) as (ls' & s' & i & p & Hc & Hr & _ & Hi & Hp & Hs & _).
  - vm_compute. reflexivity.
  - lia.
  - apply (bool_decide_unpack _). vm_compute. done.
  - intros k Hk. apply elem_of_cons in Hk as [->|Hk]; [lia|]. apply list_elem_of_singleton in Hk as ->. lia.
  - vm_compute. lia.
  - exists ls', s', i, p. by split_and!.
Defined.
