(* ===== verification/RaftProgress.v ===== *)
(** * A majority makes progress (src/raft1/raft.go)

    From every state that a cluster reaches, a majority of the peers can elect
    a leader (RaftElect.v).  Here the leader takes a command, brings the logs
    of the majority up to date with the rounds of replicateOnce, commits, and
    all of them hand the command to their services.

    The heart is the search for the place from which a follower's log has to
    be overwritten.  A round that is refused moves nextIndex down, and never
    at or below the snapshot of the follower: what that snapshot covers is
    committed, so the leader has it too, and the terms agree there.  So the
    search ends, with an accepted round or with the snapshot of the leader. *)

From S2P Require Import Prelude Persister Raft RaftNode Quorum RaftSpec RaftCluster RaftRefine RaftSafety RaftNext RaftElect.

Section Progress.
Context {Cmd : Type} `{GZ : Gob Z} `{GL : Gob (list (LogEntry Cmd))} (n : nat).
Implicit Types (rf rfp : Raft Cmd) (s : Cluster Cmd) (p q : Proc Cmd) (a : @Abs Cmd).

(** ** What a leader shares with a follower *)

(** The leader [p] and a peer [q] that has not passed its term. *)
Record view s (i k : nat) p q : Prop := {
  vw_leader : procs s !! i = Some p;
  vw_peer : procs s !! k = Some q;
  vw_ne : i <> k;
  vw_state : state (raft p) = Leader;
  vw_term : currentTerm (raft q) <= currentTerm (raft p);
}.

Lemma com_in_leader a i k : a_inv n a -> role a i = Leader -> cur a k <= cur a i ->
  take (S (com a k)) (lg a k) = take (S (com a k)) (lg a i).
Proof.
  intros Hinv Hr Ht. destruct (com_fact_own n a k Hinv) as [->|(t & c & T & Htc & Hc & Hle & Htake)].
  { apply take_1_dummy; apply (li_start _ (a_logs _ _ Hinv)). }
  rewrite Htake. symmetry. apply (take_prefix_eq _ _ _ (S c)); [lia|]. destruct (decide (t < cur a i)) as [Hlt|Hge]; [by eapply inv_leader_complete|].
  assert (t = cur a i) as -> by lia. pose proof Hc as ((c' & HT) & _). rewrite (leader_tlog n a i Hinv Hr) in HT. by injection HT as _ <-.
Qed.

(** What the follower has committed is in the leader's log. *)
Lemma view_commit s i k p q : reach n s -> view s i k p q -> commitIndex (raft q) <= lastLogIndex (raft p).
Proof.
  intros [[a Hc] _] [Hp Hq _ Hs Ht]. apply (cp_procs _ _ _ Hc) in Hp, Hq. pose proof (cp_inv _ _ _ Hc) as Hinv.
  rewrite (no_term _ _ _ _ Hp), (no_term _ _ _ _ Hq) in Ht. rewrite (lr_last _ _ (no_log _ _ _ _ Hp)), (no_com _ _ _ _ Hq).
  pose proof (com_in_leader a i k Hinv (leader_role n a i p Hp Hs) Ht) as E. pose proof (com_lt n a k Hinv).
  symmetry in E. apply take_eq_length in E; [|lia]. unfold lastIdx. lia.
Qed.

Lemma view_agree s i k p q j : reach n s -> view s i k p q -> lastIncludedIndex (raft p) <= j -> lastIncludedIndex (raft q) <= j ->
  j <= commitIndex (raft q) -> exists e e', entryAt (raft p) j = Some e /\ entryAt (raft q) j = Some e' /\ Term e = Term e' /\
  (lastIncludedIndex (raft p) < j -> lastIncludedIndex (raft q) < j -> e = e').
Proof.
  intros Hr Hv H1 H2 H3. pose proof (view_commit s i k p q Hr Hv) as Hle. destruct Hr as [[a Hc] _]. destruct Hv as [Hp Hq _ Hs Ht].
  apply (cp_procs _ _ _ Hc) in Hp, Hq. pose proof (cp_inv _ _ _ Hc) as Hinv. pose proof (wf_lii _ (no_wf _ _ _ _ Hp)).
  pose proof (apply_ok_of n a k q Hinv Hq) as [_ Hok]. rewrite (no_term _ _ _ _ Hp), (no_term _ _ _ _ Hq) in Ht.
  pose proof (com_in_leader a i k Hinv (leader_role n a i p Hp Hs) Ht) as E. pose proof (no_com _ _ _ _ Hq).
  destruct (entryAt_in_range (raft p) j) as [e He]; [lia|]. destruct (entryAt_in_range (raft q) j) as [e' He']; [lia|]. exists e, e'.
  assert (exists x : nat, j = Z.of_nat x) as [x ->] by (exists (Z.to_nat j); lia).
  destruct (lr_entry _ _ _ _ (no_log _ _ _ _ Hp) He) as (e1 & He1 & Ht1 & Hs1). destruct (lr_entry _ _ _ _ (no_log _ _ _ _ Hq) He') as (e2 & He2 & Ht2 & Hs2).
  assert (e1 = e2) as -> by (apply (take_eq_lookup _ _ _ x) in E; [congruence|lia]).
  split_and!; auto; [congruence|]. intros Hl1 Hl2. rewrite <-Hs1, <-Hs2 by done. done.
Qed.

(** Terms grow along a log. *)
Definition sorted_terms rf : Prop := forall j j' e e', j <= j' -> entryAt rf j = Some e -> entryAt rf j' = Some e' -> Term e <= Term e'.

Lemma reach_sorted s i p : reach n s -> procs s !! i = Some p -> sorted_terms (raft p).
Proof.
  intros [[a Hc] _] Hp j j' e e' Hj He He'. apply (cp_procs _ _ _ Hc) in Hp. pose proof (cp_inv _ _ _ Hc) as Hinv.
  destruct (entryAt_nat _ _ _ (no_wf _ _ _ _ Hp) He) as [x ->]. destruct (entryAt_nat _ _ _ (no_wf _ _ _ _ Hp) He') as [x' ->].
  destruct (lr_entry _ _ _ _ (no_log _ _ _ _ Hp) He) as (e1 & He1 & <- & _). destruct (lr_entry _ _ _ _ (no_log _ _ _ _ Hp) He') as (e2 & He2 & <- & _).
  eapply (terms_sorted a (lg a i) x x'); [apply Hinv|apply (li_match _ (a_logs _ _ Hinv))|lia|done|done].
Qed.

Lemma reach_apply_ok s i p : reach n s -> procs s !! i = Some p -> apply_ok (raft p).
Proof. intros [[a Hc] _] Hp. eapply apply_ok_of; [apply Hc|by apply (cp_procs _ _ _ Hc)]. Qed.

(** ** A round of replication, on the two peers *)

(** What a leader keeps while it replicates to peer [k]. *)
Record evolved (k : nat) rf rf' : Prop := {
  ev_same : (log rf', lastIncludedIndex rf', lastIncludedTerm rf', state rf', currentTerm rf', lastApplied rf') =
            (log rf, lastIncludedIndex rf, lastIncludedTerm rf, state rf, currentTerm rf, lastApplied rf);
  ev_next : forall j, j <> k -> nextIndex rf' !! j = nextIndex rf !! j;
  ev_match : forall j, j <> k -> matchIndex rf' !! j = matchIndex rf !! j;
  ev_matches : Forall (fun m => m <= lastLogIndex rf) (matchIndex rf) -> Forall (fun m => m <= lastLogIndex rf) (matchIndex rf');
  ev_commit : commitIndex rf <= commitIndex rf';
}.

Lemma evolved_last k rf rf' : evolved k rf rf' -> lastLogIndex rf' = lastLogIndex rf /\ forall j, entryAt rf' j = entryAt rf j.
Proof. intros [E _ _ _ _]. injection E as E1 E2 _ _ _ _. unfold lastLogIndex, entryAt. by rewrite E1, E2. Qed.

Lemma evolved_trans k rf1 rf2 rf3 : evolved k rf1 rf2 -> evolved k rf2 rf3 -> evolved k rf1 rf3.
Proof.
  intros H1 H2. destruct (evolved_last _ _ _ H1) as [E _]. destruct H1 as [E1 N1 M1 A1 C1], H2 as [E2 N2 M2 A2 C2].
  constructor; [congruence|intros; rewrite N2, N1; auto|intros; rewrite M2, M1; auto| |lia]. intros H. rewrite E in A2. auto.
Qed.

(** What a follower keeps. *)
Record followed rfp rf rf' : Prop := {
  fo_term : currentTerm rf' = currentTerm rfp;
  fo_applied : lastApplied rf' = lastApplied rf;
  fo_lii : lastIncludedIndex rf' = lastIncludedIndex rf \/ lastIncludedIndex rf' = lastIncludedIndex rfp;
  fo_commit : commitIndex rf <= commitIndex rf';
}.

(** The leader's answer to success: it knows that the follower has all of its
    log, and commits what a majority has. *)
Definition caught_up (k : nat) rf m c : Raft Cmd :=
  rf <| matchIndex := <[k := Z.max m (lastLogIndex rf)]> (matchIndex rf) |> <| nextIndex := <[k := lastLogIndex rf + 1]> (nextIndex rf) |>
     <| commitIndex := c |>.

Lemma advance_sets rf : raft_wf rf -> exists c, advanceCommitIndex rf = Some (rf <| commitIndex := c |>) /\ commitIndex rf <= c /\
  forall Q e, state rf = Leader -> NoDup Q -> (npeers rf / 2 < length Q)%nat ->
    (forall k, k ∈ Q -> exists m, matchIndex rf !! k = Some m /\ lastLogIndex rf <= m) ->
    Forall (fun m => m <= lastLogIndex rf) (matchIndex rf) -> entryAt rf (lastLogIndex rf) = Some e -> Term e = currentTerm rf ->
    lastLogIndex rf <= c.
Proof.
  intros Hwf. pose proof (wf_match _ Hwf) as Hm. pose proof (wf_me _ Hwf).
  destruct (merge_sort_lookup (matchIndex rf) (npeers rf / 2)) as [N HN]; [rewrite Hm; apply Nat.div_lt; lia|].
  assert (forall Q, NoDup Q -> (npeers rf / 2 < length Q)%nat -> (forall k, k ∈ Q -> exists m, matchIndex rf !! k = Some m /\ lastLogIndex rf <= m) ->
    Forall (fun m => m <= lastLogIndex rf) (matchIndex rf) -> N = lastLogIndex rf) as Hmed.
  { intros Q Hnd Hlen HQ Hall. assert (lastLogIndex rf <= N) by (apply (median_ge (matchIndex rf) Q); rewrite ?Hm; done).
    assert (N ∈ matchIndex rf) as Hin by (rewrite <-(merge_sort_Permutation Z.le); by eapply list_elem_of_lookup_2).
    rewrite Forall_forall in Hall. specialize (Hall N Hin). lia. }
  unfold advanceCommitIndex, State_eqb. case_bool_decide as Hl; cbn [negb]; [|exists (commitIndex rf); split_and!; [by destruct rf|lia|done]].
  rewrite Hm. cbv zeta. rewrite HN. obind. rewrite Z.gtb_ltb.
  destruct (Z.ltb_spec (commitIndex rf) N), (Z.leb_spec N (lastLogIndex rf)); cbn [andb];
    try (exists (commitIndex rf); split_and!; [by destruct rf|lia|intros Q e _ Hnd Hlen HQ Hall _ _; pose proof (Hmed Q Hnd Hlen HQ Hall); lia]).
  pose proof (wf_commit _ Hwf). destruct (entryAt_in_range rf N) as [e He]; [lia|]. rewrite He. obind.
  destruct (Z.eqb_spec (Term e) (currentTerm rf)).
  - exists N. split_and!; [done|lia|]. intros Q e' _ Hnd Hlen HQ Hall _ _. rewrite (Hmed Q Hnd Hlen HQ Hall). lia.
  - exists (commitIndex rf). split_and!; [by destruct rf|lia|]. intros Q e' _ Hnd Hlen HQ Hall He' Ht. exfalso. rewrite (Hmed Q Hnd Hlen HQ Hall) in He. congruence.
Qed.

Lemma appendReply_success rf (k : nat) args reply m x : raft_wf rf -> (k < npeers rf)%nat -> state rf = Leader -> ae_Term args = currentTerm rf ->
  aer_Term reply <= currentTerm rf -> aer_Success reply = true -> ae_PrevLogIndex args + len (ae_Entries args) = lastLogIndex rf ->
  matchIndex rf !! k = Some m -> nextIndex rf !! k = Some x -> x <= lastLogIndex rf + 1 ->
  exists c, appendReply rf k args true reply = Some (caught_up k rf m c) /\ raft_wf (caught_up k rf m (commitIndex rf)) /\
    advanceCommitIndex (caught_up k rf m (commitIndex rf)) = Some (caught_up k rf m c) /\ commitIndex rf <= c.
Proof.
  intros Hwf Hk Hs Ht Hr Hok Hlast Hm Hx Hle. unfold appendReply, State_eqb. rewrite bool_decide_true, Ht, Z.eqb_refl by done. cbn [negb orb].
  rewrite Z.gtb_ltb, (proj2 (Z.ltb_ge _ _)), Hok by lia. rewrite Hm. obind. rewrite Hlast. cbv zeta.
  set (rf1 := if _ >? m then _ else _). assert (rf1 = rf <| matchIndex := <[k := Z.max m (lastLogIndex rf)]> (matchIndex rf) |>) as ->.
  { unfold rf1. rewrite Z.gtb_ltb. destruct (Z.ltb_spec m (lastLogIndex rf)); [by rewrite Z.max_r by lia|].
    rewrite Z.max_l, list_insert_id by (done || lia). by destruct rf. }
  change (nextIndex (rf <| matchIndex := _ |>)) with (nextIndex rf). rewrite Hx. obind. set (rf2 := if _ >? x then _ else _).
  assert (rf2 = caught_up k rf m (commitIndex rf)) as ->.
  { unfold rf2, caught_up. rewrite Z.gtb_ltb. destruct (Z.ltb_spec x (lastLogIndex rf + 1)); [by destruct rf|].
    rewrite (list_insert_id (nextIndex rf)) by (rewrite Hx; f_equal; lia). by destruct rf. }
  pose proof (wf_lii _ Hwf). pose proof (lastLogIndex_ge _ Hwf).
  assert (raft_wf (caught_up k rf m (commitIndex rf))) as Hwf'.
  { unfold caught_up. apply commit_wf; [|apply Hwf]. apply (set_next_wf _ k (lastLogIndex rf + 1) (set_match_wf rf k (Z.max m (lastLogIndex rf)) Hwf)). lia. }
  destruct (advance_sets _ Hwf') as (c & E & Hc & _). exists c. rewrite E. split_and!; auto.
Qed.

(** The leader's answer to a refusal. *)
Lemma backup_eq rf (k : nat) reply x : raft_wf rf -> nextIndex rf !! k = Some x -> exists y,
  backupNextIndex rf k reply = Some (rf <| nextIndex := <[k := Z.max (Z.max 1 (lastIncludedIndex rf)) (Z.min y (x - 1))]> (nextIndex rf) |>) /\
  if decide (aer_XTerm reply = -1) then y = aer_XLen reply
  else (exists i e, y = i + 1 /\ entryAt rf i = Some e /\ Term e = aer_XTerm reply /\
          forall j e', i < j -> entryAt rf j = Some e' -> Term e' <> aer_XTerm reply) \/
       y = aer_XIndex reply /\ forall j e, entryAt rf j = Some e -> Term e <> aer_XTerm reply.
Proof.
  intros Hwf Hx. unfold backupNextIndex. pose proof (lastLogIndex_ge _ Hwf) as Hl.
  assert (forall y, (let next := if y >=? x then x - 1 else y in let minNext := lastIncludedIndex rf in let minNext := if minNext <? 1 then 1 else minNext in
    if next <? minNext then minNext else next) = Z.max (Z.max 1 (lastIncludedIndex rf)) (Z.min y (x - 1))) as Hclamp.
  { intros y. cbv zeta. rewrite Z.geb_leb. destruct (Z.leb_spec x y), (Z.ltb_spec (lastIncludedIndex rf) 1);
      match goal with |- context [?a <? ?b] => destruct (Z.ltb_spec a b) end; lia. }
  case_decide as HX.
  - rewrite HX, Z.eqb_refl. obind. rewrite Hx. obind. cbv zeta in Hclamp |- *. rewrite Hclamp. by eexists.
  - rewrite (proj2 (Z.eqb_neq _ _) HX). destruct (lastOfTerm_spec rf (aer_XTerm reply) (lastLogIndex rf)
      (Z.to_nat (lastLogIndex rf - lastIncludedIndex rf))) as (i & e & -> & He & Hi & Hstop & Hall); [lia..|].
    obind. rewrite He. obind. rewrite Hx. obind. cbv zeta in Hclamp |- *. rewrite Hclamp. eexists. split; [done|].
    assert (forall j e', i < j -> entryAt rf j = Some e' -> Term e' <> aer_XTerm reply) as Hno.
    { intros j e' Hj He'. apply (Hall j e'); [|done]. assert (is_Some (entryAt rf j)) as [_ ?]%entryAt_range by eauto. lia. }
    destruct (Z.eqb_spec (Term e) (aer_XTerm reply)) as [E|E]; [left; by exists i, e|right]. split; [done|]. intros j e' He'.
    destruct Hstop as [->|?]; [|done]. destruct (decide (j = lastIncludedIndex rf)) as [->|Hj]; [congruence|]. apply (Hno j e'); [|done].
    assert (is_Some (entryAt rf j)) as [? _]%entryAt_range by eauto. lia.
Qed.

(** One exchange of messages between the leader and peer [k]. *)
Definition exchange (k : nat) rfp rf rfp' rf' : Prop :=
  (exists args reply, replicateOnce rfp k = Some (SendEntries args) /\ AppendEntries rf args 0 = Some (rf', reply) /\
     appendReply rfp k args true reply = Some rfp') \/
  (exists args reply, replicateOnce rfp k = Some (SendSnapshot args) /\ InstallSnapshot rf args 0 = Some (rf', reply) /\
     snapshotReply rfp k args true reply = Some rfp').

(** The leader has something to send, and knows the term at the follower's
    snapshot if it has not compacted it. *)
Record can_replicate (k : nat) rfp rf (x : Z) : Prop := {
  cr_wf : raft_wf rfp;
  cr_wf' : raft_wf rf;
  cr_k : (k < npeers rfp)%nat;
  cr_state : state rfp = Leader;
  cr_term : currentTerm rf <= currentTerm rfp;
  cr_next : nextIndex rfp !! k = Some x;
  cr_last : x <= lastLogIndex rfp + 1;
  cr_lii : lastIncludedIndex rf < x;
  cr_commit : commitIndex rfp <= lastLogIndex rfp;
  cr_agree : lastIncludedIndex rfp <= lastIncludedIndex rf -> exists e e', entryAt rfp (lastIncludedIndex rf) = Some e /\
    entryAt rf (lastIncludedIndex rf) = Some e' /\ Term e = Term e';
  cr_sorted : sorted_terms rfp;
  cr_sorted' : sorted_terms rf;
}.

(** The entries that the leader sends. *)
Definition entries_args rf (x : Z) (e : LogEntry Cmd) : AppendEntriesArgs Cmd :=
  MkAppendEntriesArgs (currentTerm rf) (Z.of_nat (me rf)) (x - 1) (Term e) (drop (Z.to_nat (x - lastIncludedIndex rf)) (log rf)) (commitIndex rf).

Lemma replicate_entries rf (k : nat) x : raft_wf rf -> state rf = Leader -> nextIndex rf !! k = Some x ->
  lastIncludedIndex rf < x <= lastLogIndex rf + 1 -> exists e, entryAt rf (x - 1) = Some e /\ replicateOnce rf k = Some (SendEntries (entries_args rf x e)).
Proof.
  intros Hwf Hs Hx Hr. destruct (entryAt_in_range rf (x - 1)) as [e He]; [lia|]. exists e. split; [done|].
  unfold replicateOnce, State_eqb. rewrite bool_decide_true by done. cbn [negb]. rewrite Hx. obind.
  rewrite (proj2 (Z.leb_gt _ _)) by lia. cbv zeta. rewrite Z.gtb_ltb, (proj2 (Z.ltb_ge _ _)) by lia. unfold entries_args.
  destruct (Z.ltb_spec (x - 1) (lastLogIndex rf)).
  - rewrite from_in_range by (unfold lastLogIndex in *; lia). obind. rewrite He. obind. do 3 f_equal. f_equal. lia.
  - obind. rewrite He. obind. rewrite drop_ge; [done|]. unfold lastLogIndex in *. lia.
Qed.

Lemma stepDown_applied rf t now : lastApplied (stepDown rf t now) = lastApplied rf.
Proof. unfold stepDown. by destruct (_ >? _). Qed.

(** An accepted round: the follower has the leader's last entry, and knows
    the leader's commit index. *)
Lemma accepts rf rf1 rfp x e0 now (args := entries_args rfp x e0) : rf1 = stepDown rf (currentTerm rfp) now ->
  currentTerm rf <= currentTerm rfp -> lastIncludedIndex rfp < x <= lastLogIndex rfp + 1 -> entryAt rfp (x - 1) = Some e0 ->
  commitIndex rfp <= lastLogIndex rfp -> lastIncludedIndex rf1 <= x - 1 <= lastLogIndex rf1 ->
  (exists e, entryAt rf1 (x - 1) = Some e /\ Term e = Term e0) ->
  followed rfp rf (accepted rf1 args) /\ lastIncludedIndex (accepted rf1 args) = lastIncludedIndex rf /\
  commitIndex rfp <= commitIndex (accepted rf1 args) /\
  exists e1 e2, entryAt rfp (lastLogIndex rfp) = Some e1 /\ entryAt (accepted rf1 args) (lastLogIndex rfp) = Some e2 /\ Term e2 = Term e1.
Proof.
  intros Hrf1 Ht Hx He0 Hcom Hr (e & He & Hte). destruct (stepDown_fields rf (currentTerm rfp) now Ht) as (S1 & S2 & S3 & S4 & S5).
  pose proof (stepDown_applied rf (currentTerm rfp) now) as S6. rewrite <-Hrf1 in *. clear Hrf1 S2 S3.
  destruct (accepted_fields rf1 args) as [E Ec]. injection E as _ _ A1 _ A2 _ A3 A4.
  set (l := take _ (log rf1) ++ _) in A4, Ec. assert (len (ae_Entries args) = lastLogIndex rfp + 1 - x) as Hlen.
  { subst args. unfold entries_args, lastLogIndex in *. cbn [ae_Entries]. rewrite length_drop. lia. }
  assert (lastLogIndex rfp <= lastLogIndex (rf1 <| log := l |>)) as Hlast.
  { unfold lastLogIndex at 2. change (lastIncludedIndex (rf1 <| log := l |>)) with (lastIncludedIndex rf1). change (log (rf1 <| log := l |>)) with l. unfold l.
    rewrite length_app, length_take. unfold lastLogIndex in Hr. change (ae_PrevLogIndex args) with (x - 1).
    pose proof (merge_entries_length (drop (Z.to_nat (x - 1 + 1 - lastIncludedIndex rf1)) (log rf1)) (ae_Entries args)) as Hme.
    change (ae_Entries args) with (drop (Z.to_nat (x - lastIncludedIndex rfp)) (log rfp)) in Hme, Hlen. lia. }
  assert (commitIndex rf <= commitIndex (accepted rf1 args) /\ commitIndex rfp <= commitIndex (accepted rf1 args)) as [Hc1 Hc2].
  { rewrite Ec, S5, Z.gtb_ltb. change (ae_LeaderCommit args) with (commitIndex rfp). destruct (Z.ltb_spec (commitIndex rf) (commitIndex rfp)); lia. }
  split_and!; [constructor; [by rewrite A1|by rewrite A2|left; by rewrite A3|done]|by rewrite A3|done|].
  destruct (accepted_entries rf1 args Hr) as [Hin Hbefore]. change (ae_PrevLogIndex args) with (x - 1) in Hin, Hbefore.
  destruct (decide (x = lastLogIndex rfp + 1)) as [E|Hne].
  { exists e0, e. replace (x - 1) with (lastLogIndex rfp) in * by lia. by rewrite Hbefore. }
  destruct (entryAt_in_range rfp (lastLogIndex rfp)) as [e1 He1]; [lia|]. exists e1. destruct (Hin (Z.to_nat (lastLogIndex rfp - x)) e1) as (e2 & He2 & Ht2).
  { apply entryAt_Some in He1 as [_ He1]. rewrite <-He1. unfold args, entries_args. cbn [ae_Entries]. rewrite lookup_drop. f_equal. lia. }
  exists e2. rewrite <-He2. split_and!; auto. f_equal. lia.
Qed.

(** A refused round moves nextIndex down, and not to the follower's snapshot. *)
Lemma backs_up k rfp rf x reply e0 : can_replicate k rfp rf x -> lastIncludedIndex rfp < x -> entryAt rfp (x - 1) = Some e0 ->
  (aer_XTerm reply = -1 /\ aer_XLen reply = lastLogIndex rf + 1 /\ lastLogIndex rf < x - 1) \/
  (exists e, entryAt rf (x - 1) = Some e /\ Term e <> Term e0 /\ aer_XTerm reply = Term e /\ aer_XLen reply = lastLogIndex rf + 1 /\
     lastIncludedIndex rf <= aer_XIndex reply <= x - 1 /\
     forall j, aer_XIndex reply <= j <= x - 1 -> exists e', entryAt rf j = Some e' /\ Term e' = Term e) ->
  exists x', backupNextIndex rfp k reply = Some (rfp <| nextIndex := <[k := x']> (nextIndex rfp) |>) /\ lastIncludedIndex rf < x' < x.
Proof.
  intros [Hwf Hwf' Hk Hs Ht Hx Hle Hlii Hcom Hag Hso Hso'] Hlp He0 Hcase. pose proof (lastLogIndex_ge _ Hwf'). pose proof (wf_lii _ Hwf'). pose proof (wf_lii _ Hwf).
  destruct (backup_eq rfp k reply x Hwf Hx) as (y & -> & Hy). eexists. split; [done|].
  assert (lastIncludedIndex rf < x - 1) as Hprev.
  { destruct Hcase as [?|(e & He & Hne & _)]; [lia|]. destruct (decide (lastIncludedIndex rf = x - 1)) as [E|]; [|lia].
    destruct Hag as (e1 & e2 & He1 & He2 & Hte); [lia|]. rewrite E in *. congruence. }
  enough (lastIncludedIndex rf < Z.max y (lastIncludedIndex rfp)) by lia. destruct Hcase as [(HX & HL & ?)|(e & He & Hne & HX & HL & Hr & Hrun)].
  { rewrite decide_True in Hy by done. lia. }
  case_decide; [lia|]. destruct (decide (lastIncludedIndex rfp <= lastIncludedIndex rf)) as [Hcmp|]; [|lia].
  destruct (Hag Hcmp) as (e1 & e2 & He1 & He2 & Hte). destruct Hy as [(i & ei & -> & Hei & Hti & Hlast)|[-> Hnone]].
  - destruct (decide (lastIncludedIndex rf <= i)) as [|Hi]; [lia|]. exfalso. apply (Hlast (lastIncludedIndex rf) e1); [lia|done|].
    pose proof (Hso i (lastIncludedIndex rf) _ _ ltac:(lia) Hei He1). pose proof (Hso' (lastIncludedIndex rf) (x - 1) _ _ ltac:(lia) He2 He). lia.
  - destruct (decide (aer_XIndex reply = lastIncludedIndex rf)) as [E|]; [|lia]. exfalso. destruct (Hrun (lastIncludedIndex rf)) as (e' & He' & Hte'); [lia|].
    apply (Hnone (lastIncludedIndex rf) e1 He1). simplify_eq. congruence.
Qed.

(** The leader [rfp] knows that peer [k] has its whole log. *)
Record synced (k : nat) rfp rf : Prop := {
  sy_next : nextIndex rfp !! k = Some (lastLogIndex rfp + 1);
  sy_match : exists m, matchIndex rfp !! k = Some m /\ lastLogIndex rfp <= m;
  sy_entry : exists e e', entryAt rfp (lastLogIndex rfp) = Some e /\ entryAt rf (lastLogIndex rfp) = Some e' /\ Term e' = Term e;
}.

(** A leader whose log a majority has, and that has an entry of its own term
    at the end of it, has committed all of it. *)
Definition has_committed rf : Prop := forall Q e, NoDup Q -> (npeers rf / 2 < length Q)%nat ->
  (forall k, k ∈ Q -> exists m, matchIndex rf !! k = Some m /\ lastLogIndex rf <= m) ->
  Forall (fun m => m <= lastLogIndex rf) (matchIndex rf) -> entryAt rf (lastLogIndex rf) = Some e -> Term e = currentTerm rf ->
  lastLogIndex rf <= commitIndex rf.

Lemma evolved_caught_up k rf m c : matchIndex rf !! k = Some m -> commitIndex rf <= c -> evolved k rf (caught_up k rf m c).
Proof.
  intros Hm Hc. constructor; [done| | | |done].
  - intros j Hj. simpl. by rewrite list_lookup_insert_ne.
  - intros j Hj. simpl. by rewrite list_lookup_insert_ne.
  - intros Hall. simpl. apply Forall_insert; [done|]. pose proof (Forall_lookup_1 _ _ _ _ Hall Hm). simpl in *. lia.
Qed.

Lemma success_round k rfp rf x e0 rf1 : can_replicate k rfp rf x -> lastIncludedIndex rfp < x -> entryAt rfp (x - 1) = Some e0 ->
  rf1 = stepDown rf (currentTerm rfp) 0 -> lastIncludedIndex rf1 <= x - 1 <= lastLogIndex rf1 ->
  (exists e, entryAt rf1 (x - 1) = Some e /\ Term e = Term e0) ->
  exists rfp', appendReply rfp k (entries_args rfp x e0) true (MkAppendEntriesReply (currentTerm rf1) true 0 0 0) = Some rfp' /\
    evolved k rfp rfp' /\ synced k rfp' (accepted rf1 (entries_args rfp x e0)) /\ has_committed rfp'.
Proof.
  intros [Hwf Hwf' Hk Hs Ht Hx Hle Hlii Hcom Hag Hso Hso'] Hlp He0 Hrf1 Hr He.
  destruct (accepts rf rf1 rfp x e0 0 Hrf1 Ht ltac:(lia) He0 Hcom Hr He) as (_ & _ & _ & (e1 & e2 & He1 & He2 & Hte)).
  destruct (stepDown_fields rf (currentTerm rfp) 0 Ht) as (S1 & _). rewrite <-Hrf1 in S1. rewrite S1. destruct (match_lookup rfp k Hwf Hk) as [m Hm].
  destruct (appendReply_success rfp k (entries_args rfp x e0) (MkAppendEntriesReply (currentTerm rfp) true 0 0 0) m x) as (c & HR & Hwf1 & Hadv & Hc); auto.
  { simpl. lia. }
  { simpl. rewrite length_drop. unfold lastLogIndex in *. lia. }
  exists (caught_up k rfp m c). split_and!; auto; [by apply evolved_caught_up|constructor|].
  - simpl. apply list_lookup_insert_eq. by rewrite (wf_next _ Hwf).
  - exists (Z.max m (lastLogIndex rfp)). split; [simpl; apply list_lookup_insert_eq; by rewrite (wf_match _ Hwf)|]. change (lastLogIndex (caught_up k rfp m c)) with (lastLogIndex rfp). lia.
  - by exists e1, e2.
  - destruct (advance_sets _ Hwf1) as (c' & Hadv' & _ & Hmaj). rewrite Hadv in Hadv'. injection Hadv' as <-. intros Q e Hnd Hlen HQ Hall Hlast Htl.
    change (commitIndex (caught_up k rfp m c)) with c. by eapply Hmaj.
Qed.

Lemma append_round k rfp rf x : can_replicate k rfp rf x -> lastIncludedIndex rfp < x -> exists rfp' rf',
  exchange k rfp rf rfp' rf' /\ evolved k rfp rfp' /\ followed rfp rf rf' /\ lastIncludedIndex rf' = lastIncludedIndex rf /\
  (synced k rfp' rf' /\ has_committed rfp' /\ commitIndex rfp <= commitIndex rf' \/
   exists x', nextIndex rfp' !! k = Some x' /\ lastIncludedIndex rf < x' < x).
Proof.
  intros Hcr Hlp. pose proof Hcr as [Hwf Hwf' Hk Hs Ht Hx Hle Hlii Hcom Hag Hso Hso'].
  destruct (replicate_entries rfp k x Hwf Hs Hx) as (e0 & He0 & Hrep); [lia|]. set (args := entries_args rfp x e0) in *.
  destruct (AppendEntries_cases rf args 0 Hwf') as (rf' & reply & HA & Hcase).
  destruct (stepDown_fields rf (currentTerm rfp) 0 Ht) as (S1 & S2 & S3 & S4 & S5).
  assert (lastLogIndex (stepDown rf (currentTerm rfp) 0) = lastLogIndex rf) as S6 by (unfold lastLogIndex; by rewrite S3, S4).
  assert (forall j, entryAt (stepDown rf (currentTerm rfp) 0) j = entryAt rf j) as S7 by (intros j; unfold entryAt; by rewrite S3, S4).
  assert (followed rfp rf (stepDown rf (currentTerm rfp) 0)) as Hfo by (constructor; [done|apply stepDown_applied|by left|lia]).
  assert (forall r, aer_Term r = currentTerm rfp -> aer_Success r = false ->
    (aer_XTerm r = -1 /\ aer_XLen r = lastLogIndex rf + 1 /\ lastLogIndex rf < x - 1) \/
    (exists e, entryAt rf (x - 1) = Some e /\ Term e <> Term e0 /\ aer_XTerm r = Term e /\ aer_XLen r = lastLogIndex rf + 1 /\
     lastIncludedIndex rf <= aer_XIndex r <= x - 1 /\ forall j, aer_XIndex r <= j <= x - 1 -> exists e', entryAt rf j = Some e' /\ Term e' = Term e) ->
    exists rfp', appendReply rfp k args true r = Some rfp' /\ evolved k rfp rfp' /\ exists x', nextIndex rfp' !! k = Some x' /\ lastIncludedIndex rf < x' < x) as Hrej.
  { intros r Hrt Hrs Hr. destruct (backs_up k rfp rf x r e0 Hcr Hlp He0 Hr) as (x' & Hb & Hx').
    exists (signal (rfp <| nextIndex := <[k := x']> (nextIndex rfp) |>) k). split_and!.
    - unfold appendReply, State_eqb. rewrite bool_decide_true by done. change (ae_Term args) with (currentTerm rfp). rewrite Z.eqb_refl. cbn [negb orb].
      rewrite Z.gtb_ltb, Hrt, Z.ltb_irrefl, Hrs, Hx. obind. change (ae_PrevLogIndex args) with (x - 1). rewrite (proj2 (Z.leb_le _ _)), Hb by lia. done.
    - constructor; [done|intros j Hj; simpl; by rewrite list_lookup_insert_ne|done|done|simpl; lia].
    - exists x'. split; [|done]. simpl. apply list_lookup_insert_eq. by rewrite (wf_next _ Hwf). }
  destruct Hcase as [Hc|rf1 _ Hc|rf1 _ Hc|rf1 e z _ Hr He Hne Hz Hrun _|rf1 e _ Hr He Hte].
  - change (currentTerm rfp < currentTerm rf) in Hc. lia.
  - change (x - 1 < lastIncludedIndex (stepDown rf (currentTerm rfp) 0)) in Hc. lia.
  - change (lastLogIndex (stepDown rf (currentTerm rfp) 0) < x - 1) in Hc. subst rf1. change (ae_Term args) with (currentTerm rfp) in *. rewrite S1, S6 in *.
    destruct (Hrej (MkAppendEntriesReply (currentTerm rfp) false (-1) 0 (lastLogIndex rf + 1))) as (rfp' & HR & Hev & Hx'); [done|done|by left|].
    exists rfp', (stepDown rf (currentTerm rfp) 0). split_and!; auto. left. eexists _, _. split_and!; [done|exact HA|done].
  - subst rf1. change (ae_Term args) with (currentTerm rfp) in *. change (ae_PrevLogIndex args) with (x - 1) in *. change (ae_PrevLogTerm args) with (Term e0) in *.
    rewrite S1, S4, S6, S7 in *. destruct (Hrej (MkAppendEntriesReply (currentTerm rfp) false (Term e) z (lastLogIndex rf + 1))) as (rfp' & HR & Hev & Hx'); [done|done| |].
    { right. exists e. cbn [aer_XTerm aer_XLen aer_XIndex]. split_and!; auto; [lia|lia|]. intros j Hj. rewrite <-S7. by apply Hrun. }
    exists rfp', (stepDown rf (currentTerm rfp) 0). split_and!; auto. left. eexists _, _. split_and!; [done|exact HA|done].
  - destruct (success_round k rfp rf x e0 rf1 Hcr Hlp He0 eq_refl Hr) as (rfp' & HR & Hev & Hsy & Hcm); [by exists e|].
    destruct (accepts rf rf1 rfp x e0 0 eq_refl Ht ltac:(lia) He0 Hcom Hr ltac:(by exists e)) as (Hf & Hl & Hcc & _).
    exists rfp', (accepted rf1 args). split_and!; auto. left. eexists _, _. split_and!; [done|exact HA|done].
Qed.

(** A follower that is behind the leader's snapshot gets the snapshot. *)
Lemma snap_round k rfp rf x : can_replicate k rfp rf x -> x <= lastIncludedIndex rfp -> exists rfp' rf',
  exchange k rfp rf rfp' rf' /\ evolved k rfp rfp' /\ followed rfp rf rf' /\ lastIncludedIndex rf' = lastIncludedIndex rfp /\
  nextIndex rfp' !! k = Some (lastIncludedIndex rfp + 1).
Proof.
  intros [Hwf Hwf' Hk Hs Ht Hx Hle Hlii Hcom Hag Hso Hso'] Hlp. pose proof (lastLogIndex_ge _ Hwf) as Hlast.
  set (args := MkInstallSnapshotArgs (currentTerm rfp) (Z.of_nat (me rfp)) (lastIncludedIndex rfp) (lastIncludedTerm rfp) (snapshot rfp)).
  assert (replicateOnce rfp k = Some (SendSnapshot args)) as Hrep.
  { unfold replicateOnce, State_eqb. rewrite bool_decide_true, Hx by done. obind. by rewrite (proj2 (Z.leb_le _ _)). }
  destruct (match_lookup rfp k Hwf Hk) as [m Hm].
  assert (exists rf' l, InstallSnapshot rf args 0 = Some (rf', MkInstallSnapshotReply (currentTerm rfp)) /\ rf' = installed (stepDown rf (currentTerm rfp) 0) args l)
    as (rf' & l & HI & ->).
  { destruct (InstallSnapshot_cases rf args 0 Hwf') as (rf' & reply & HI & Hcase). destruct (stepDown_fields rf (currentTerm rfp) 0 Ht) as (S1 & _ & _ & S4 & _).
    destruct Hcase as [Hc|rf1 _ Hc|rf1 e _ Hc|rf1 _ Hc].
    - change (currentTerm rfp < currentTerm rf) in Hc. lia.
    - change (lastIncludedIndex rfp <= lastIncludedIndex (stepDown rf (currentTerm rfp) 0)) in Hc. lia.
    - subst rf1. change (is_Term args) with (currentTerm rfp) in *. rewrite S1 in HI. by eexists _, _.
    - subst rf1. change (is_Term args) with (currentTerm rfp) in *. rewrite S1 in HI. by eexists _, _. }
  destruct (stepDown_fields rf (currentTerm rfp) 0 Ht) as (S1 & _ & _ & S4 & S5).
  destruct (installed_fields (stepDown rf (currentTerm rfp) 0) args l) as [E Ec]. injection E as _ _ A1 _ A2 _ A3 _.
  set (mt := if m <? lastIncludedIndex rfp then <[k := lastIncludedIndex rfp]> (matchIndex rfp) else matchIndex rfp).
  exists (signal (rfp <| matchIndex := mt |> <| nextIndex := <[k := lastIncludedIndex rfp + 1]> (nextIndex rfp) |>) k), (installed (stepDown rf (currentTerm rfp) 0) args l).
  split_and!; auto.
  - right. eexists _, _. split_and!; [done|exact HI|]. unfold snapshotReply, State_eqb. rewrite bool_decide_true by done.
    change (is_Term args) with (currentTerm rfp). rewrite Z.eqb_refl. cbn [negb orb isr_Term]. rewrite Z.gtb_ltb, Z.ltb_irrefl, Hm. obind. cbv zeta.
    change (is_LastIncludedIndex args) with (lastIncludedIndex rfp). set (rf1 := if m <? _ then _ else _).
    assert (rf1 = rfp <| matchIndex := mt |>) as -> by (unfold rf1, mt; destruct (m <? lastIncludedIndex rfp); by destruct rfp).
    change (nextIndex (rfp <| matchIndex := mt |>)) with (nextIndex rfp). rewrite Hx. obind. rewrite (proj2 (Z.ltb_lt _ _)) by lia. done.
  - constructor; [done|intros j Hj; simpl; by rewrite list_lookup_insert_ne| | |simpl; lia].
    + intros j Hj. change (mt !! j = matchIndex rfp !! j). unfold mt. destruct (m <? lastIncludedIndex rfp); [by apply list_lookup_insert_ne|done].
    + intros Hall. change (Forall (fun m => m <= lastLogIndex rfp) mt). unfold mt. destruct (m <? lastIncludedIndex rfp); [by apply Forall_insert|done].
  - constructor; [by rewrite A1|rewrite A2; by apply (stepDown_applied rf _ 0)|right; by rewrite A3|rewrite Ec, S5; lia].
  - simpl. apply list_lookup_insert_eq. by rewrite (wf_next _ Hwf).
Qed.

(** ** Rounds of replication in the cluster *)

Lemma exchange_steps s i k p q rfp' rf' : reach n s -> view s i k p q -> exchange k (raft p) (raft q) rfp' rf' ->
  exists s', steps s s' /\ procs s' = <[i := with_raft p rfp']> (<[k := with_raft q rf']> (procs s)) /\ delivered s' = delivered s.
Proof.
  intros Hr [Hp Hq Hne Hs Ht] Hex. destruct (reach_proc n s i p Hr Hp) as (_ & _ & Hn).
  assert (k < n)%nat as Hk by (destruct Hr as [[a Hc] _]; rewrite <-(cp_len _ _ _ Hc); by eapply lookup_lt_Some).
  assert (bool_decide (k ∈ others_of (npeers (raft p)) i) = true) as Hb.
  { apply bool_decide_eq_true_2. rewrite Hn. by apply others_elem. }
  destruct Hex as [(args & reply & H1 & H2 & H3)|(args & reply & H1 & H2 & H3)].
  - set (s1 := update s i p [AppendReq i k args] []). set (s2 := update s1 k (with_raft q rf') [AppendRep i k args reply] []).
    assert (procs s1 = procs s) as E1 by (by apply list_insert_id). exists (update s2 i (with_raft p rfp') [] []).
    split_and!; [|simpl; by rewrite (list_insert_id _ _ _ Hp)|simpl; by rewrite !app_nil_r].
    apply (steps_trans s s1); [apply (steps_one s (LReplicate i k)); [|done]|apply (steps_trans s1 s2);
      [apply (steps_one s1 (LAppend (length (net s)) 0)); [|done]|apply (steps_one s2 (LAppendReply (S (length (net s))))); [|done]]].
    + unfold exec, at_proc. by rewrite Hp, Hb, H1.
    + unfold exec. cbn [net update s1]. rewrite list_lookup_middle by done. unfold at_proc. by rewrite E1, Hq, H2.
    + unfold exec. cbn [net update s1 s2]. rewrite lookup_app_r by (rewrite length_app; simpl; lia). rewrite length_app. simpl length.
      replace (S (length (net s)) - (length (net s) + 1))%nat with 0%nat by lia. simpl. unfold at_proc. simpl. rewrite (list_insert_id _ _ _ Hp).
      rewrite list_lookup_insert_ne, Hp by done. by rewrite H3.
  - set (s1 := update s i p [SnapReq i k args] []). set (s2 := update s1 k (with_raft q rf') [SnapRep i k args reply] []).
    assert (procs s1 = procs s) as E1 by (by apply list_insert_id). exists (update s2 i (with_raft p rfp') [] []).
    split_and!; [|simpl; by rewrite (list_insert_id _ _ _ Hp)|simpl; by rewrite !app_nil_r].
    apply (steps_trans s s1); [apply (steps_one s (LReplicate i k)); [|done]|apply (steps_trans s1 s2);
      [apply (steps_one s1 (LSnap (length (net s)) 0)); [|done]|apply (steps_one s2 (LSnapReply (S (length (net s))))); [|done]]].
    + unfold exec, at_proc. by rewrite Hp, Hb, H1.
    + unfold exec. cbn [net update s1]. rewrite list_lookup_middle by done. unfold at_proc. by rewrite E1, Hq, H2.
    + unfold exec. cbn [net update s1 s2]. rewrite lookup_app_r by (rewrite length_app; simpl; lia). rewrite length_app. simpl length.
      replace (S (length (net s)) - (length (net s) + 1))%nat with 0%nat by lia. simpl. unfold at_proc. simpl. rewrite (list_insert_id _ _ _ Hp).
      rewrite list_lookup_insert_ne, Hp by done. by rewrite H3.
Qed.

Lemma view_can s i k p q x : reach n s -> view s i k p q -> nextIndex (raft p) !! k = Some x -> lastIncludedIndex (raft q) < x ->
  can_replicate k (raft p) (raft q) x.
Proof.
  intros Hr Hv Hx Hlii. pose proof Hv as [Hp Hq Hne Hs Ht]. destruct (reach_proc n s i p Hr Hp) as (Hwf & _ & Hn).
  destruct (reach_proc n s k q Hr Hq) as (Hwf' & _ & _). constructor; auto.
  - rewrite Hn. destruct Hr as [[a Hc] _]. rewrite <-(cp_len _ _ _ Hc). by eapply lookup_lt_Some.
  - destruct Hr as [_ Hok]. exact (Forall_lookup_1 _ _ _ _ (Hok i p Hp Hs) Hx).
  - apply (reach_apply_ok s i p Hr Hp).
  - intros Hle. destruct (view_agree s i k p q (lastIncludedIndex (raft q)) Hr Hv) as (e & e' & He & He' & Hte & _); [done|lia|apply Hwf'|by exists e, e'].
  - by eapply reach_sorted.
  - by eapply reach_sorted.
Qed.

(** What a stretch of replication to peer [k] does to the cluster. *)
Record replicated s s' (i k : nat) p q p' q' : Prop := {
  rp_steps : steps s s';
  rp_procs : procs s' = <[i := p']> (<[k := q']> (procs s));
  rp_delivered : delivered s' = delivered s;
  rp_leader : evolved k (raft p) (raft p');
  rp_follower : followed (raft p) (raft q) (raft q');
}.

Lemma replicated_view s s' i k p q p' q' : view s i k p q -> replicated s s' i k p q p' q' -> view s' i k p' q'.
Proof.
  intros [Hp Hq Hne Hs Ht] [_ E _ [Ev _ _ _ _] [Hft _ _ _]]. injection Ev as _ _ _ Es Et _.
  apply lookup_lt_Some in Hp as Hi. apply lookup_lt_Some in Hq as Hk. constructor; rewrite ?E; [..|done|congruence|rewrite Hft, Et; lia].
  - apply list_lookup_insert_eq. by rewrite length_insert.
  - rewrite list_lookup_insert_ne by done. by apply list_lookup_insert_eq.
Qed.

Lemma replicated_trans s1 s2 s3 i k p q p1 q1 p2 q2 : i <> k ->
  replicated s1 s2 i k p q p1 q1 -> replicated s2 s3 i k p1 q1 p2 q2 -> replicated s1 s3 i k p q p2 q2.
Proof.
  intros Hne [S1 E1 D1 L1 [F1 F2 F3 F4]] [S2 E2 D2 L2 [G1 G2 G3 G4]]. pose proof L1 as [Ev _ _ _ _]. injection Ev as _ El _ _ Et _.
  constructor; [by eapply steps_trans| |congruence|by eapply evolved_trans|constructor; [congruence|congruence| |lia]].
  - rewrite E2, E1. rewrite (list_insert_insert_ne _ k i) by done. by rewrite !list_insert_insert_eq.
  - destruct G3 as [G3|G3]; [|right; congruence]. rewrite G3. by destruct F3; [left|right].
Qed.

Lemma exchange_replicated s i k p q rfp' rf' : reach n s -> view s i k p q -> exchange k (raft p) (raft q) rfp' rf' ->
  evolved k (raft p) rfp' -> followed (raft p) (raft q) rf' -> exists s', replicated s s' i k p q (with_raft p rfp') (with_raft q rf').
Proof. intros Hr Hv Hex He Hf. destruct (exchange_steps s i k p q rfp' rf' Hr Hv Hex) as (s' & Hs & E & Hd). by exists s'. Qed.

(** The follower's log is brought up to date: [up_to_speed]. *)
Definition up_to_speed s i k p q : Prop := exists s' p' q', replicated s s' i k p q p' q' /\ synced k (raft p') (raft q') /\
  has_committed (raft p') /\ commitIndex (raft p) <= commitIndex (raft q').

Lemma up_to_speed_after s s1 i k p q p1 q1 : i <> k -> replicated s s1 i k p q p1 q1 -> up_to_speed s1 i k p1 q1 -> up_to_speed s i k p q.
Proof.
  intros Hne H1 (s2 & p2 & q2 & H2 & Hsy & Hcm & Hco). exists s2, p2, q2. split_and!; [by eapply replicated_trans|done|done|].
  pose proof (ev_commit _ _ _ (rp_leader _ _ _ _ _ _ _ _ H1)). lia.
Qed.

(** A round of entries succeeds, or is repeated further down. *)
Lemma entries_step s i k p q x : reach n s -> view s i k p q -> nextIndex (raft p) !! k = Some x -> lastIncludedIndex (raft q) < x ->
  lastIncludedIndex (raft p) < x -> up_to_speed s i k p q \/ exists s1 p1 q1 x', replicated s s1 i k p q p1 q1 /\
    nextIndex (raft p1) !! k = Some x' /\ lastIncludedIndex (raft q1) < x' < x /\ lastIncludedIndex (raft q1) = lastIncludedIndex (raft q).
Proof.
  intros Hr Hv Hx Hq Hp.
  destruct (append_round k (raft p) (raft q) x) as (rfp' & rf' & Hex & Hev & Hfo & Hlii & Hcase); [by eapply view_can|done|].
  destruct (exchange_replicated s i k p q rfp' rf' Hr Hv Hex Hev Hfo) as (s1 & H1).
  destruct Hcase as [(Hsy & Hcm & Hco)|(x' & Hx' & Hlt)].
  - left. by exists s1, (with_raft p rfp'), (with_raft q rf').
  - right. exists s1, (with_raft p rfp'), (with_raft q rf'), x'. split_and!; simpl; auto; lia.
Qed.

Lemma snapshot_step s i k p q x : reach n s -> view s i k p q -> nextIndex (raft p) !! k = Some x -> lastIncludedIndex (raft q) < x ->
  x <= lastIncludedIndex (raft p) -> up_to_speed s i k p q.
Proof.
  intros Hr Hv Hx Hq Hp. destruct (snap_round k (raft p) (raft q) x) as (rfp' & rf' & Hex & Hev & Hfo & Hlii & Hnext); [by eapply view_can|done|].
  destruct (exchange_replicated s i k p q rfp' rf' Hr Hv Hex Hev Hfo) as (s1 & H1). eapply up_to_speed_after; [apply Hv|exact H1|].
  pose proof Hev as [Ev _ _ _ _]. injection Ev as _ El _ _ _ _.
  destruct (entries_step s1 i k (with_raft p rfp') (with_raft q rf') (lastIncludedIndex (raft p) + 1)) as [?|(? & ? & ? & x' & _ & _ & Hlt & E)]; auto.
  - eapply reach_steps; [done|apply H1].
  - by eapply replicated_view.
  - simpl. lia.
  - simpl. lia.
  - simpl in E. lia.
Qed.

Lemma catch_up (x : nat) s i k p q : reach n s -> view s i k p q -> nextIndex (raft p) !! k = Some (Z.of_nat x) ->
  lastIncludedIndex (raft q) < Z.of_nat x -> up_to_speed s i k p q.
Proof.
  revert s p q. induction (lt_wf x) as [x _ IH]. intros s p q Hr Hv Hx Hq.
  destruct (decide (Z.of_nat x <= lastIncludedIndex (raft p))) as [Hp|Hp]; [by eapply snapshot_step|].
  destruct (entries_step s i k p q (Z.of_nat x)) as [?|(s1 & p1 & q1 & x' & H1 & Hx' & Hlt & E)]; auto; [lia|].
  pose proof (reach_proc n s k q Hr (vw_peer _ _ _ _ _ Hv)) as (Hwfq & _ & _). pose proof (wf_lii _ Hwfq).
  eapply up_to_speed_after; [apply Hv|exact H1|]. apply (IH (Z.to_nat x')); [lia|eapply reach_steps; [done|apply H1]|by eapply replicated_view|..|lia].
  rewrite Hx'. f_equal. lia.
Qed.

(** ** The majority *)

Section Command.
Variables (i : nat) (t idx : Z) (entry : LogEntry Cmd).
Hypothesis Hentry : Term entry = t.

(** The leader has put the entry at the end of its log, and not yet handed it
    to its service. *)
Record leading s p : Prop := {
  ld_proc : procs s !! i = Some p;
  ld_state : state (raft p) = Leader;
  ld_term : currentTerm (raft p) = t;
  ld_last : lastLogIndex (raft p) = idx;
  ld_entry : entryAt (raft p) idx = Some entry;
  ld_lii : lastIncludedIndex (raft p) < idx;
  ld_applied : lastApplied (raft p) < idx;
  ld_matches : Forall (fun m => m <= idx) (matchIndex (raft p));
  ld_own : exists m, matchIndex (raft p) !! i = Some m /\ idx <= m;
}.

(** A peer that can be replicated to, and has not applied the entry. *)
Record willing s p (k : nat) q : Prop := {
  wi_proc : procs s !! k = Some q;
  wi_ne : i <> k;
  wi_term : currentTerm (raft q) <= t;
  wi_lii : lastIncludedIndex (raft q) < idx;
  wi_applied : lastApplied (raft q) < idx;
  wi_next : exists x, nextIndex (raft p) !! k = Some x /\ lastIncludedIndex (raft q) < x;
}.

(** Replication to the peers [ks]. *)
Record round (ks : list nat) s s' p p' : Prop := {
  ro_steps : steps s s';
  ro_out : forall j, j <> i -> j ∉ ks -> procs s' !! j = procs s !! j;
  ro_delivered : delivered s' = delivered s;
  ro_next : forall j, j ∉ ks -> nextIndex (raft p') !! j = nextIndex (raft p) !! j;
  ro_match : forall j, j ∉ ks -> matchIndex (raft p') !! j = matchIndex (raft p) !! j;
  ro_commit : commitIndex (raft p) <= commitIndex (raft p');
}.

Lemma round_refl s p : round [] s s p p.
Proof. constructor; auto using steps_refl. lia. Qed.

Lemma round_cons k ks s1 s2 s3 p1 p2 p3 : round [k] s1 s2 p1 p2 -> round ks s2 s3 p2 p3 -> round (k :: ks) s1 s3 p1 p3.
Proof.
  intros [S1 O1 D1 N1 M1 C1] [S2 O2 D2 N2 M2 C2]. assert (forall j, j ∉ (k :: ks) -> (j ∉ [k]) /\ (j ∉ ks)) as Hj by set_solver.
  constructor; [by eapply steps_trans| |congruence| | |lia].
  - intros j Hi [? ?]%Hj. by rewrite O2, O1.
  - intros j [? ?]%Hj. by rewrite N2, N1.
  - intros j [? ?]%Hj. by rewrite M2, M1.
Qed.

Lemma replicated_leading s s' k p q p' q' : leading s p -> i <> k -> replicated s s' i k p q p' q' -> leading s' p'.
Proof.
  intros [Hp Hs Ht Hl He Hlii Hap Hm Hown] Hne [_ E _ Hev _]. destruct (evolved_last _ _ _ Hev) as [El Ee]. destruct Hev as [Ev _ Em Ema _].
  injection Ev as _ E2 _ E4 E5 E6. apply lookup_lt_Some in Hp as Hi. constructor; [|congruence|congruence|congruence|by rewrite Ee|congruence|congruence| |].
  - rewrite E. apply list_lookup_insert_eq. by rewrite length_insert.
  - rewrite Hl in Ema. auto.
  - by rewrite Em.
Qed.

Lemma replicated_round s s' k p q p' q' : i <> k -> replicated s s' i k p q p' q' -> round [k] s s' p p'.
Proof.
  intros Hne [Hs E Hd [_ Hn Hm _ Hc] _]. constructor; auto.
  - intros j Hi Hj%not_elem_of_cons. rewrite E, list_lookup_insert_ne, list_lookup_insert_ne; [done|naive_solver..].
  - intros j Hj%not_elem_of_cons. apply Hn. naive_solver.
  - intros j Hj%not_elem_of_cons. apply Hm. naive_solver.
Qed.

(** Peers that are not replicated to stay willing. *)
Lemma round_willing ks s s' p p' k q : round ks s s' p p' -> k ∉ ks -> willing s p k q -> willing s' p' k q.
Proof.
  intros Hr Hk [H1 H2 H3 H4 H5 H6]. constructor; auto; [by rewrite (ro_out _ _ _ _ _ Hr)|by rewrite (ro_next _ _ _ _ _ Hr)].
Qed.

Lemma round_synced ks s s' p p' k rf : round ks s s' p p' -> leading s p -> leading s' p' -> k ∉ ks -> synced k (raft p) rf -> synced k (raft p') rf.
Proof.
  intros Hr Hl Hl' Hk [H1 H2 H3]. pose proof (ld_last _ _ Hl) as E. pose proof (ld_last _ _ Hl') as E'. rewrite E in *.
  constructor; rewrite E'; [by rewrite (ro_next _ _ _ _ _ Hr)|by rewrite (ro_match _ _ _ _ _ Hr)|].
  destruct H3 as (e & e' & He & He' & Hte). rewrite (ld_entry _ _ Hl) in He. injection He as <-. exists entry, e'. by rewrite (ld_entry _ _ Hl').
Qed.

(** One peer. *)
Lemma replicate_one s p k q : reach n s -> leading s p -> willing s p k q -> exists s' p' q', round [k] s s' p p' /\ leading s' p' /\
  willing s' p' k q' /\ synced k (raft p') (raft q') /\ has_committed (raft p') /\ commitIndex (raft p) <= commitIndex (raft q').
Proof.
  intros Hr Hl [Hq Hne Ht Hlii Hap (x & Hx & Hlx)]. assert (view s i k p q) as Hv by (destruct Hl; constructor; auto; congruence).
  destruct (reach_proc n s k q Hr Hq) as (Hwfq & _). pose proof (wf_lii _ Hwfq).
  destruct (catch_up (Z.to_nat x) s i k p q Hr Hv) as (s' & p' & q' & Hrep & Hsy & Hcm & Hco); [rewrite Hx; f_equal; lia|lia|].
  pose proof (replicated_leading _ _ _ _ _ _ _ Hl Hne Hrep) as Hl'. exists s', p', q'. split_and!; auto; [by eapply replicated_round|].
  destruct (replicated_view _ _ _ _ _ _ _ _ Hv Hrep) as [_ Hq' _ _ Ht']. destruct (rp_follower _ _ _ _ _ _ _ _ Hrep) as [F1 F2 F3 F4].
  assert (lastIncludedIndex (raft q') < idx) as Hlii' by (destruct Hl; destruct F3; lia). constructor; auto.
  - rewrite F1. apply Z.eq_le_incl, Hl.
  - lia.
  - exists (lastLogIndex (raft p') + 1). split; [apply Hsy|]. rewrite (ld_last _ _ Hl'). lia.
Qed.

(** All of them. *)
Lemma replicate_all ks s p : reach n s -> leading s p -> NoDup ks -> (forall k, k ∈ ks -> exists q, willing s p k q) ->
  exists s' p', round ks s s' p p' /\ leading s' p' /\ (ks <> [] \/ has_committed (raft p) -> has_committed (raft p')) /\
    forall k, k ∈ ks -> exists q, willing s' p' k q /\ synced k (raft p') (raft q) /\ commitIndex (raft p) <= commitIndex (raft q).
Proof.
  intros Hr Hl Hnd. revert s p Hr Hl. induction Hnd as [|k ks Hk Hnd IH]; intros s p Hr Hl Hall.
  { exists s, p. split_and!; auto using round_refl; [naive_solver|]. intros k Hk. by apply elem_of_nil in Hk. }
  destruct (Hall k) as (q & Hq); [left|]. destruct (replicate_one s p k q Hr Hl Hq) as (s1 & p1 & q1 & R1 & Hl1 & Hw1 & Hsy1 & Hcm1 & Hco1).
  destruct (IH s1 p1) as (s2 & p2 & R2 & Hl2 & Hcm2 & Hall2); [eapply reach_steps; [done|apply R1]|done| |].
  { intros k' Hk'. destruct (Hall k') as (q' & Hq'); [by right|]. exists q'. eapply round_willing; [done| |done]. intros ->%list_elem_of_singleton. done. }
  exists s2, p2. split_and!; [by eapply round_cons|done| |].
  - intros _. apply Hcm2. by right.
  - intros k' [->|Hk']%elem_of_cons.
    + exists q1. split_and!; [by eapply round_willing|by eapply round_synced|done].
    + destruct (Hall2 k' Hk') as (q' & Hw' & Hsy' & Hco'). exists q'. split_and!; auto. pose proof (ro_commit _ _ _ _ _ R1). lia.
Qed.

(** The majority has the entry and knows that it is committed. *)
Lemma commit_all ks s p : reach n s -> leading s p -> NoDup (i :: ks) -> ks <> [] -> (n / 2 < length (i :: ks))%nat ->
  (forall k, k ∈ ks -> exists q, willing s p k q) ->
  exists s' p', round ks s s' p p' /\ leading s' p' /\ idx <= commitIndex (raft p') /\
    forall k, k ∈ ks -> exists q, willing s' p' k q /\ idx <= commitIndex (raft q).
Proof.
  intros Hr Hl [Hi Hnd]%NoDup_cons Hne Hmaj Hall.
  destruct (replicate_all ks s p Hr Hl Hnd Hall) as (s1 & p1 & R1 & Hl1 & Hcm1 & Hall1).
  assert (reach n s1) as Hr1 by (eapply reach_steps; [done|apply R1]).
  assert (idx <= commitIndex (raft p1)) as Hc1.
  { destruct (reach_proc n s1 i p1 Hr1 (ld_proc _ _ Hl1)) as (_ & _ & Hn). rewrite <-(ld_last _ _ Hl1). apply (Hcm1 (or_introl Hne) (i :: ks) entry).
    - by constructor.
    - by rewrite Hn.
    - intros k [->|Hk]%elem_of_cons; [rewrite (ld_last _ _ Hl1); apply Hl1|]. destruct (Hall1 k Hk) as (q & _ & Hsy & _). apply Hsy.
    - rewrite (ld_last _ _ Hl1). apply Hl1.
    - rewrite (ld_last _ _ Hl1). apply Hl1.
    - rewrite (ld_term _ _ Hl1). done. }
  destruct (replicate_all ks s1 p1 Hr1 Hl1 Hnd) as (s2 & p2 & R2 & Hl2 & _ & Hall2); [intros k Hk; destruct (Hall1 k Hk) as (q & Hw & _); by exists q|].
  exists s2, p2. split_and!; auto.
  - destruct R1 as [S1 O1 D1 N1 M1 C1], R2 as [S2 O2 D2 N2 M2 C2]. constructor; [by eapply steps_trans| |congruence| | |lia].
    + intros j ? ?. by rewrite O2, O1.
    + intros j ?. by rewrite N2, N1.
    + intros j ?. by rewrite M2, M1.
  - pose proof (ro_commit _ _ _ _ _ R2). lia.
  - intros k Hk. destruct (Hall2 k Hk) as (q & Hw & _ & Hle). exists q. split; [done|lia].
Qed.

(** The committed entry of a follower is the leader's. *)
Lemma willing_entry s p k q : reach n s -> leading s p -> willing s p k q -> idx <= commitIndex (raft q) -> entryAt (raft q) idx = Some entry.
Proof.
  intros Hr Hl [Hq Hne Ht Hlii Hap _] Hle. assert (view s i k p q) as Hv by (destruct Hl; constructor; auto; congruence).
  pose proof (ld_lii _ _ Hl). destruct (view_agree s i k p q idx Hr Hv) as (e & e' & He & He' & _ & E); [lia|lia|done|].
  rewrite (ld_entry _ _ Hl) in He. injection He as <-. by rewrite He', E.
Qed.

End Command.

(** ** Application *)

(** Peer [k] may hand the entry at [idx] to its service, and has not. *)
Definition to_apply s (k : nat) (idx : Z) (entry : LogEntry Cmd) : Prop := exists q, procs s !! k = Some q /\
  lastApplied (raft q) < idx <= commitIndex (raft q) /\ lastIncludedIndex (raft q) < idx /\ entryAt (raft q) idx = Some entry.

Lemma apply_one s k q : reach n s -> procs s !! k = Some q -> lastApplied (raft q) < commitIndex (raft q) -> exists s' q',
  steps s s' /\ procs s' = <[k := q']> (procs s) /\ lastApplied (raft q) < lastApplied (raft q') /\
  (log (raft q'), lastIncludedIndex (raft q'), commitIndex (raft q')) = (log (raft q), lastIncludedIndex (raft q), commitIndex (raft q)) /\
  (lastApplied (raft q') = lastIncludedIndex (raft q) /\ delivered s `prefix_of` delivered s' \/
   lastApplied (raft q') = lastApplied (raft q) + 1 /\ exists e, entryAt (raft q) (lastApplied (raft q) + 1) = Some e /\
     delivered s' = delivered s ++ [(k, CommandMsg (Command e) (lastApplied (raft q) + 1))]).
Proof.
  intros Hr Hq Hlt. destruct (reach_proc n s k q Hr Hq) as (Hwf & _). pose proof (wf_pending _ Hwf) as Hpe. pose proof (reach_apply_ok s k q Hr Hq) as [_ Hok].
  assert (forall rf d, applier (raft q) = Some (Some (rf, d)) -> steps s (update s k (with_raft q rf) [] [d])) as Hstep.
  { intros rf d Ha. apply (steps_one s (LApply k)); [|done]. unfold exec, at_proc. by rewrite Hq, Ha. }
  unfold applier in Hstep. rewrite Z.geb_leb, (proj2 (Z.leb_gt _ _)), andb_false_r in Hstep by lia.
  destruct (pendingSnapshot (raft q)).
  - destruct Hpe as [Hpi Hpl]. eexists _, _. split_and!; [apply Hstep; reflexivity|done|simpl; lia|done|]. left. simpl. split; [done|]. by eexists.
  - destruct (entryAt_in_range (raft q) (lastApplied (raft q) + 1)) as [e He]; [lia|]. cbv zeta in Hstep. rewrite He in Hstep. obind_in Hstep.
    eexists _, _. split_and!; [apply Hstep; reflexivity|done|simpl; lia|done|]. right. simpl. split; [done|]. by exists e.
Qed.

Lemma apply_peer s k idx entry : reach n s -> to_apply s k idx entry -> exists s' q', steps s s' /\ procs s' = <[k := q']> (procs s) /\
  delivered s `prefix_of` delivered s' /\ (k, CommandMsg (Command entry) idx) ∈ delivered s'.
Proof.
  intros Hr (q & Hq & Hap & Hlii & He). remember (Z.to_nat (idx - lastApplied (raft q))) as d eqn:Hd. revert s q Hr Hq Hap Hlii He Hd.
  induction (lt_wf d) as [d _ IH]. intros s q Hr Hq Hap Hlii He Hd.
  destruct (apply_one s k q Hr Hq) as (s1 & q1 & Hs1 & E1 & Hlt & Hsame & Hcase); [lia|]. injection Hsame as E2 E3 E4.
  pose proof (lookup_lt_Some _ _ _ Hq) as Hlen.
  destruct (decide (lastApplied (raft q1) = idx)) as [Hdone|Hmore].
  - destruct Hcase as [[? _]|(Hi & e & He' & Hdv)]; [lia|]. exists s1, q1. replace (lastApplied (raft q) + 1) with idx in * by lia. simplify_eq.
    rewrite Hdv. split_and!; auto; [by eexists|]. apply elem_of_app. right. left.
  - assert (delivered s `prefix_of` delivered s1) as Hpre by (destruct Hcase as [[_ ?]|(_ & e & _ & ->)]; [done|by eexists]).
    destruct (IH (Z.to_nat (idx - lastApplied (raft q1))) ltac:(lia) s1 q1) as (s2 & q2 & Hs2 & E5 & Hpre2 & Hin); auto.
    + by eapply reach_steps.
    + rewrite E1. by apply list_lookup_insert_eq.
    + destruct Hcase as [[? _]|[? _]]; lia.
    + lia.
    + unfold entryAt in *. by rewrite E2, E3.
    + exists s2, q2. split_and!; [by eapply steps_trans|rewrite E5, E1; by apply list_insert_insert_eq|by etrans|done].
Qed.

Lemma apply_all ks s idx entry : reach n s -> NoDup ks -> (forall k, k ∈ ks -> to_apply s k idx entry) -> exists s', steps s s' /\
  (forall j, j ∉ ks -> procs s' !! j = procs s !! j) /\ delivered s `prefix_of` delivered s' /\
  forall k, k ∈ ks -> (k, CommandMsg (Command entry) idx) ∈ delivered s'.
Proof.
  intros Hr Hnd. revert s Hr. induction Hnd as [|k ks Hk Hnd IH]; intros s Hr Hall.
  { exists s. split_and!; auto using steps_refl. intros k Hk. by apply elem_of_nil in Hk. }
  destruct (apply_peer s k idx entry Hr) as (s1 & q1 & Hs1 & E1 & Hpre & Hin); [apply Hall; left|].
  destruct (IH s1) as (s2 & Hs2 & Hout & Hpre2 & Hin2); [by eapply reach_steps| |].
  - intros k' Hk'. destruct (Hall k') as (q & Hq & H); [by right|]. exists q. split; [|done]. rewrite E1, list_lookup_insert_ne; [done|]. by intros ->.
  - exists s2. split_and!; [by eapply steps_trans| |by etrans|].
    + intros j [? ?]%not_elem_of_cons. by rewrite Hout, E1, list_lookup_insert_ne.
    + intros k' [->|Hk']%elem_of_cons; [|by apply Hin2]. by eapply elem_of_prefix.
Qed.

(** ** From any state to the application of a new command *)

Lemma start_command s i p t cmd (idx := lastLogIndex (raft p) + 1) : reach n s -> procs s !! i = Some p -> fresh_leader (raft p) t ->
  exists s' p', steps s s' /\ procs s' = <[i := p']> (procs s) /\ delivered s' = delivered s /\ leading i t idx (MkLogEntry t (Some cmd)) s' p' /\
    forall k, (k < n)%nat -> k <> i -> nextIndex (raft p') !! k = Some idx.
Proof.
  intros Hr Hp [Hs Ht Hnx Hm]. destruct (reach_proc n s i p Hr Hp) as (Hwf & Hme & Hn). pose proof (lookup_lt_Some _ _ _ Hp) as Hlen.
  pose proof (wf_next _ Hwf) as Hln. pose proof (wf_match _ Hwf) as Hlm. pose proof (wf_me _ Hwf) as Hmn. pose proof (lastLogIndex_ge _ Hwf) as Hge.
  pose proof (reach_apply_ok s i p Hr Hp) as [Hap Hco]. pose proof (wf_lii _ Hwf) as Hlii.
  destruct (Start (raft p) cmd) as [[rf r]|] eqn:HS; [|by destruct (Start_wf (raft p) cmd Hwf) as (? & ? & _); congruence].
  assert (exec s (LStart i cmd) = Next (update s i (with_raft p rf) [] [])) as He by (unfold exec, at_proc; by rewrite Hp, HS).
  unfold Start, State_eqb in HS. rewrite bool_decide_true in HS by done. cbn [negb] in HS. rewrite put_in_range in HS by (simpl; lia). obind_in HS.
  rewrite put_in_range in HS by (simpl; lia). obind_in HS. rewrite Nat2Z.id in HS. injection HS as Erf _.
  set (lg' := log (raft p) ++ [MkLogEntry (currentTerm (raft p)) (Some cmd)]) in Erf.
  assert (lastLogIndex (raft p <| log := lg' |>) = idx) as El by (unfold lastLogIndex, idx, lg'; simpl; rewrite length_app; simpl; unfold lastLogIndex; lia).
  assert (log rf = lg' /\ lastIncludedIndex rf = lastIncludedIndex (raft p) /\ state rf = Leader /\ currentTerm rf = t /\ lastApplied rf = lastApplied (raft p) /\
    nextIndex rf = <[i := idx + 1]> (nextIndex (raft p)) /\ matchIndex rf = <[i := idx]> (matchIndex (raft p))) as (F1 & F2 & F3 & F4 & F5 & F6 & F7).
  { subst rf. simpl. change (lastLogIndex _) with (lastLogIndex (raft p <| log := lg' |>)). rewrite El, Hme. auto 10. }
  exists (update s i (with_raft p rf) [] []), (with_raft p rf). split_and!; [by eapply steps_one|done|simpl; by rewrite app_nil_r|..].
  - constructor; cbn [raft with_raft]; auto.
    + simpl. by apply list_lookup_insert_eq.
    + unfold lastLogIndex in El |- *. rewrite F1, F2. exact El.
    + apply entryAt_Some. rewrite F1, F2. split; [unfold idx; lia|]. unfold lg'. rewrite Ht. apply list_lookup_middle. unfold idx, lastLogIndex. lia.
    + rewrite F2. unfold idx. lia.
    + rewrite F5. unfold idx. lia.
    + rewrite F7, Hm. apply Forall_insert; [|lia]. apply Forall_insert; [|unfold idx; lia]. apply Forall_replicate. unfold idx. lia.
    + exists idx. split; [|lia]. rewrite F7. apply list_lookup_insert_eq. lia.
  - intros k Hk Hne. simpl. rewrite F6, list_lookup_insert_ne, Hnx by done. apply lookup_replicate_2. lia.
Qed.

Lemma progress s Q cmd : reach n s -> (2 <= n)%nat -> NoDup Q -> (forall k, k ∈ Q -> (k < n)%nat) -> (n / 2 < length Q)%nat ->
  exists s' idx, steps s s' /\ (forall k, k ∉ Q -> procs s' !! k = procs s !! k) /\ delivered s `prefix_of` delivered s' /\
    forall k, k ∈ Q -> (k, CommandMsg (Some cmd) idx) ∈ delivered s'.
Proof.
  intros Hr Hn Hnd HQ Hmaj. destruct (elect n s Q Hr Hn Hnd HQ Hmaj) as (s1 & i & p1 & t & S1 & O1 & D1 & Hi & Hp1 & Hf & _ & Hterms).
  assert (reach n s1) as Hr1 by (by eapply reach_steps).
  destruct (start_command s1 i p1 t cmd Hr1 Hp1 Hf) as (s2 & p2 & S2 & E2 & D2 & Hl2 & Hnx). assert (reach n s2) as Hr2 by (by eapply reach_steps).
  set (idx := lastLogIndex (raft p1) + 1) in *. set (entry := MkLogEntry t (Some cmd)) in *. set (ks := rest Q i).
  destruct (rest_asked n Q Hnd HQ i Hi) as (Hks & _ & Hnot). fold ks in Hks, Hnot.
  pose proof (rest_length Q i Hnd Hi) as Hlen. fold ks in Hlen. pose proof (Nat.div_le_lower_bound n 2 1).
  destruct (commit_all i t idx entry eq_refl ks s2 p2 Hr2 Hl2) as (s3 & p3 & R3 & Hl3 & Hc3 & Hall3);
    [by constructor|intros E; rewrite E in Hlen; cbn [length] in Hlen; lia|cbn [length]; lia| |].
  { intros k [Hne Hk]%rest_elem. destruct (reach_peer n s1 k Hr1) as [q Hq]; [auto|]. destruct (reach_proc n s1 k q Hr1 Hq) as (Hwfq & _).
    pose proof (wf_commit _ Hwfq). pose proof (reach_apply_ok s1 k q Hr1 Hq) as [Hap _]. destruct Hf as [Hst Ht _ _].
    assert (view s1 i k p1 q) as Hv by (constructor; auto; rewrite Ht; by apply (Hterms k)). pose proof (view_commit s1 i k p1 q Hr1 Hv).
    exists q. constructor; auto; [by rewrite E2, list_lookup_insert_ne|by apply (Hterms k)|unfold idx; lia|unfold idx; lia|]. exists idx. split; [auto|unfold idx; lia]. }
  assert (reach n s3) as Hr3 by (eapply reach_steps; [done|apply R3]).
  destruct (apply_all Q s3 idx entry Hr3 Hnd) as (s4 & S4 & O4 & P4 & Hin).
  { intros k Hk. destruct (decide (k = i)) as [->|Hne].
    - exists p3. destruct Hl3. auto.
    - destruct (Hall3 k) as (q & Hw & Hc); [by apply rest_elem|]. exists q. split_and!; try apply Hw; [done|]. by eapply willing_entry. }
  exists s4, idx. split_and!.
  - eapply steps_trans; [done|]. eapply steps_trans; [done|]. by eapply steps_trans; [apply R3|].
  - intros k Hk. assert (k <> i) by (by intros ->). rewrite O4, (ro_out _ _ _ _ _ _ R3), E2, list_lookup_insert_ne by (done || (intros [_ ?]%rest_elem; done)). auto.
  - by rewrite <-D1, <-D2, <-(ro_delivered _ _ _ _ _ _ R3).
  - done.
Qed.

End Progress.

(** C12 (liveness): a majority is enough.  From every state that a cluster of at
    least two peers reaches, whatever has crashed or been lost before, every
    majority of the peers can by itself commit a new command and hand it to
    the services of all of its members, at one index of the log: some
    schedule without crashes, in which only followers and candidates start
    elections and no peer outside the majority does anything, leads there. *)
Theorem majority_makes_progress {Cmd : Type} `{GZ : Gob Z} `{GL : Gob (list (LogEntry Cmd))} (n : nat) (ls : list (Label Cmd)) s (Q : list nat) (cmd : Cmd) :
  start_run n ls = Next s -> (2 <= n)%nat -> NoDup Q -> (forall k, k ∈ Q -> (k < n)%nat) -> (Nat.div n 2 < length Q)%nat ->
  exists ls' s' idx, calm s ls' /\ run s ls' = Next s' /\ (forall k, k ∉ Q -> procs s' !! k = procs s !! k) /\
    forall k, k ∈ Q -> (k, CommandMsg (Some cmd) idx) ∈ delivered s'.
Proof.
  intros Hs Hn Hnd HQ Hmaj. destruct (progress n s Q cmd (reach_start n ls s Hs) Hn Hnd HQ Hmaj) as (s' & idx & (ls' & Hc & Hrun) & Ho & _ & Hin).
  exists ls', s', idx. by split_and!.
Qed.

Lemma majority_makes_progress_witness : exists (ls' : list (Label nat)) (s' : Cluster nat) (idx : Z), calm example_state ls' /\ run example_state ls' = Next s' /\
  (1%nat, CommandMsg (Some 9%nat) idx) ∈ delivered s' /\ (2%nat, CommandMsg (Some 9%nat) idx) ∈ delivered s'.
Proof.
  destruct (majority_makes_progress 3 example_run example_state [1%nat; 2%nat] 9%nat) as (ls' & s' & idx & Hc & Hr & _ & Hin).
  - vm_compute. reflexivity.
  - lia.
  - apply (bool_decide_unpack _). vm_compute. done.
  - intros k Hk. apply elem_of_cons in Hk as [->|Hk]; [lia|]. apply list_elem_of_singleton in Hk as ->. lia.
  - vm_compute. lia.
  - exists ls', s', idx. split_and!; [done|done|apply Hin; left|apply Hin; right; left].
Defined.
