(* ===== verification/RaftStall.v ===== *)
(** * A delayed refusal can stall a follower (src/raft1/raft.go)

    replicateOnce runs in a goroutine of its own per round, so replies can
    arrive late; the comment in replicator says that delayed replies are
    harmless.  A delayed refusal that passes the guard of replicateOnce can
    move nextIndex below the snapshot of the follower.  The follower then
    answers with [XLen], the index it wants, but backupNextIndex never moves
    nextIndex up: it stays where it is, and every further round is refused.
    Until a new election, or until the leader itself takes a snapshot that
    covers the follower's, the follower receives no more entries. *)

From S2P Require Import Prelude Persister Raft RaftNode RaftSpec RaftCluster RaftRefine RaftSafety RaftNext RaftElect RaftProgress.

Section Stall.
Context {Cmd : Type} `{GZ : Gob Z} `{GL : Gob (list (LogEntry Cmd))}.
Implicit Types (rfp rf : Raft Cmd).

(** The leader [rfp], without a snapshot, tries to send from index 1; the
    follower [rf] has a snapshot. *)
Record stalled (k : nat) rfp rf : Prop := {
  st_wf : raft_wf rfp;
  st_wf' : raft_wf rf;
  st_k : (k < npeers rfp)%nat;
  st_ne : k <> me rfp;
  st_state : state rfp = Leader;
  st_next : nextIndex rfp !! k = Some 1;
  st_lii : lastIncludedIndex rfp = 0;
  st_lii' : 0 < lastIncludedIndex rf;
  st_term : currentTerm rf = currentTerm rfp;
}.

(** What the two can do: a round of replication, of entries or of the
    snapshot, and a new command. *)
Inductive attempt (k : nat) : Raft Cmd * Raft Cmd -> Raft Cmd * Raft Cmd -> Prop :=
| at_entries rfp rf rfp' rf' args reply now :
    replicateOnce rfp k = Some (SendEntries args) -> AppendEntries rf args now = Some (rf', reply) ->
    appendReply rfp k args true reply = Some rfp' -> attempt k (rfp, rf) (rfp', rf')
| at_snapshot rfp rf rfp' rf' args reply now :
    replicateOnce rfp k = Some (SendSnapshot args) -> InstallSnapshot rf args now = Some (rf', reply) ->
    snapshotReply rfp k args true reply = Some rfp' -> attempt k (rfp, rf) (rfp', rf')
| at_start rfp rf rfp' cmd r : Start rfp cmd = Some (rfp', r) -> attempt k (rfp, rf) (rfp', rf).

(** The follower refuses, and the leader stays where it is. *)
Lemma stalled_round k rfp rf rfp' rf' args reply now : stalled k rfp rf -> replicateOnce rfp k = Some (SendEntries args) ->
  AppendEntries rf args now = Some (rf', reply) -> appendReply rfp k args true reply = Some rfp' ->
  stalled k rfp' rf' /\ log rf' = log rf /\ matchIndex rfp' !! k = matchIndex rfp !! k.
Proof.
  intros [Hwf Hwf' Hk Hne Hs Hx Hl Hl' Ht] Hr HA HR.
  destruct (replicate_entries rfp k 1 Hwf Hs Hx) as (e & _ & Hr'); [pose proof (lastLogIndex_ge _ Hwf); lia|]. rewrite Hr in Hr'. injection Hr' as Eargs.
  assert (ae_Term args = currentTerm rfp /\ ae_PrevLogIndex args = 0) as [Ea Ep] by (by rewrite Eargs).
  destruct (stepDown_fields rf (ae_Term args) now) as (S1 & S2 & S3 & S4 & S5); [lia|]. pose proof (stepDown_wf rf (ae_Term args) now Hwf') as Hwf1.
  rewrite AppendEntries_eq in HA. rewrite (proj2 (Z.ltb_ge _ _)) in HA by lia. cbv zeta in HA. rewrite S1, S4, Ep, (proj2 (Z.ltb_lt _ _)) in HA by lia. injection HA as <- <-.
  unfold appendReply, State_eqb in HR. rewrite bool_decide_true, Ea, Z.eqb_refl in HR by done. cbn [negb orb aer_Term aer_Success] in HR.
  rewrite Z.gtb_ltb, Z.ltb_irrefl, Hx, Ep in HR. obind_in HR. change (1 <=? 0 + 1) with true in HR.
  unfold backupNextIndex in HR. cbn [aer_XTerm aer_XLen] in HR. change (-1 =? -1) with true in HR. cbn iota in HR. obind_in HR. rewrite Hx in HR. obind_in HR.
  rewrite Z.geb_leb, (proj2 (Z.leb_le _ _)), Hl in HR by lia. cbn in HR. change (if 1 - 1 <? 1 then 1 else 1 - 1) with 1 in HR. rewrite (list_insert_id _ _ _ Hx) in HR. injection HR as <-.
  split_and!; auto. constructor; auto; [|by rewrite S4|by rewrite S1]. apply signal_wf. by destruct rfp.
Qed.

Lemma stalled_start k rfp rf rfp' cmd r : stalled k rfp rf -> Start rfp cmd = Some (rfp', r) ->
  stalled k rfp' rf /\ matchIndex rfp' !! k = matchIndex rfp !! k.
Proof.
  intros [Hwf Hwf' Hk Hne Hs Hx Hl Hl' Ht] HS. destruct (Start_wf rfp cmd Hwf) as ([rf1 r1] & HS' & Hwf1). rewrite HS in HS'. injection HS' as <- <-. simpl in Hwf1.
  pose proof (wf_next _ Hwf). pose proof (wf_match _ Hwf). pose proof (wf_me _ Hwf).
  unfold Start, State_eqb in HS. rewrite bool_decide_true in HS by done. cbn [negb] in HS. rewrite put_in_range in HS by (simpl; lia). obind_in HS.
  rewrite put_in_range in HS by (simpl; lia). obind_in HS. rewrite Nat2Z.id in HS. injection HS as <- _.
  split; [constructor; auto; simpl|simpl]; by rewrite list_lookup_insert_ne.
Qed.

Lemma attempts_stalled k x y : rtc (attempt k) x y -> stalled k (fst x) (snd x) ->
  stalled k (fst y) (snd y) /\ log (snd y) = log (snd x) /\ matchIndex (fst y) !! k = matchIndex (fst x) !! k.
Proof.
  induction 1 as [x|x x1 y Hat _ IH]; [done|]. intros Hst.
  enough (stalled k (fst x1) (snd x1) /\ log (snd x1) = log (snd x) /\ matchIndex (fst x1) !! k = matchIndex (fst x) !! k) as (Hst1 & E1 & E2).
  { destruct (IH Hst1) as (Hst' & E1' & E2'). split_and!; [done|congruence|congruence]. }
  clear IH y. destruct Hat as [rfp rf rfp' rf' args reply now Hr HA HR|rfp rf rfp' rf' args reply now Hr _ _|rfp rf rfp' cmd r HS]; simpl in *.
  - by eapply stalled_round.
  - exfalso. destruct Hst as [Hwf _ _ _ Hs Hx Hl _ _]. pose proof (lastLogIndex_ge _ Hwf). destruct (replicate_entries rfp k 1 Hwf Hs Hx) as (e & _ & Hr'); [lia|congruence].
  - destruct (stalled_start k rfp rf rfp' cmd r Hst HS). by split_and!.
Qed.

(** C40 (safety): a delayed refusal is not harmless.  Once a leader without a
    snapshot has moved nextIndex of a follower down to 1 while the follower
    has a snapshot, no number of replication rounds and new commands brings
    the follower anything: its log, the leader's nextIndex and the leader's
    matchIndex stay what they were. *)
Theorem delayed_refusal_stalls (k : nat) rfp rf rfp' rf' :
  stalled k rfp rf -> rtc (attempt k) (rfp, rf) (rfp', rf') ->
  log rf' = log rf /\ nextIndex rfp' !! k = Some 1 /\ matchIndex rfp' !! k = matchIndex rfp !! k.
Proof. intros Hst H. destruct (attempts_stalled k _ _ H Hst) as (Hst' & E1 & E2). split_and!; [done|apply Hst'|done]. Qed.

End Stall.

(** ** A run that gets there

    Peer 0 leads term 1 and commits two commands with peer 2; an election of
    peer 1 fails but deposes it; peer 0 leads term 3 and tries peer 1 twice
    from index 3.  Both requests are refused.  The first refusal arrives and
    peer 1 is brought up to date; it applies both commands and takes a
    snapshot.  Then the second refusal arrives. *)
Definition stall_run : list (Label nat) :=
  [LElection 0 1; LVoteRequest 0 0 2; LVote 0 2; LVoteReply 0 1 3; LStart 0 7%nat; LStart 0 8%nat; LReplicate 0 2; LAppend 2 4; LAppendReply 3;
   LElection 1 5; LElection 1 6; LVoteRequest 1 1 0; LVote 4 7; LElection 0 8; LVoteRequest 0 1 2; LVote 6 9; LVoteReply 1 7 10;
   LReplicate 0 1; LReplicate 0 1; LAppend 8 11; LAppend 9 12; LAppendReply 10; LReplicate 0 1; LAppend 12 13; LAppendReply 13;
   LApply 1; LApply 1; LSnapshot 1 2 [5]; LAppendReply 11].

Definition stall_state : Cluster nat := Eval vm_compute in state_of (start_run 3 stall_run).

(** Before the second refusal the leader knew that peer 1 has its whole log;
    after it nextIndex is 1, while peer 1 has a snapshot up to index 2. *)
Example stall_run_next :
  nextIndex (raft (proc_of (state_of (start_run 3 (take 28 stall_run))) 0)) = [3; 3; 3] /\
  nextIndex (raft (proc_of stall_state 0)) = [3; 1; 3] /\ lastIncludedIndex (raft (proc_of stall_state 1)) = 2.
Proof. vm_compute. split_and!; reflexivity. Qed.

Lemma stall_state_stalled : stalled 1 (raft (proc_of stall_state 0)) (raft (proc_of stall_state 1)).
Proof.
  assert (start_run 3 stall_run = Next stall_state) as Hs by (vm_compute; reflexivity).
  destruct (start_run_coupled 3 stall_run stall_state Hs) as (a & _ & Hc).
  constructor; [eapply no_wf, (cp_procs _ _ _ Hc 0%nat); reflexivity|eapply no_wf, (cp_procs _ _ _ Hc 1%nat); reflexivity|..]; vm_compute; try reflexivity; try lia.
Qed.

(** The next round and a new command, after which peer 1 still has its old
    log. *)
Lemma delayed_refusal_stalls_witness : exists rfp' rf' : Raft nat,
  rtc (attempt 1) (raft (proc_of stall_state 0), raft (proc_of stall_state 1)) (rfp', rf') /\ log rf' = log (raft (proc_of stall_state 1)) /\
  nextIndex rfp' !! 1%nat = Some 1.
Proof.
  pose (s := state_of (run stall_state [LStart 0 9%nat; LReplicate 0 1; LAppend 14 14; LAppendReply 15])).
  pose (s1 := state_of (run stall_state [LStart 0 9%nat])).
  assert (rtc (attempt 1) (raft (proc_of stall_state 0), raft (proc_of stall_state 1)) (raft (proc_of s 0), raft (proc_of s 1))) as H.
  { apply (rtc_l _ _ (raft (proc_of s1 0), raft (proc_of s1 1))); [eapply (at_start 1 _ _ _ 9%nat); vm_compute; reflexivity|].
    apply (rtc_l _ _ (raft (proc_of s 0), raft (proc_of s 1))); [eapply (at_entries 1 _ _ _ _ _ _ 14); vm_compute; reflexivity|apply rtc_refl]. }
  destruct (delayed_refusal_stalls 1 _ _ _ _ stall_state_stalled H) as (E1 & E2 & _). by exists (raft (proc_of s 0)), (raft (proc_of s 1)).
Defined.
