(* ===== verification/RaftTester.v ===== *)
(** * The Raft test server and the tester's checks

    src/raft1/server.go and src/raft1/test.go.  Each peer runs a test server
    ([rfsrv]) that reads the apply channel, reports every command to the
    tester over a socket, and in the snapshot configuration makes a snapshot
    of its log every ten commands.  The tester keeps a copy of what every
    server has applied and raises an error when two servers disagree or a
    server applies out of order.

    The composition with the Raft cluster of RaftCluster.v shows that the
    tester has nothing to complain about: for every run, with any crashes and
    any network, no apply error is ever reported, and no poll of the leaders
    sees two leaders of one term. *)

From S2P Require Import Prelude Persister Raft RaftNode RaftSpec RaftCluster RaftRefine RaftApply RaftSafety.

Definition SnapShotInterval : Z := 10.

(** The error strings, by what they are made from. *)
Inductive ApplyError (Cmd : Type) : Type :=
| NoError
| ErrRPC
| CommitMismatch (index : Z) (i : nat) (v : option Cmd) (j : nat) (old : option Cmd)
| OutOfOrder (me : nat) (index : Z)
| OutOfOrderExpected (me : nat) (expected index : Z)
| NilSnapshot
| DecodeFailed
| SnapshotMismatch (me : nat).
Arguments NoError {_}.
Arguments ErrRPC {_}.
Arguments CommitMismatch {_} _ _ _ _ _.
Arguments OutOfOrder {_} _ _.
Arguments OutOfOrderExpected {_} _ _ _.
Arguments NilSnapshot {_}.
Arguments DecodeFailed {_}.
Arguments SnapshotMismatch {_} _.

Section Defs.
Context {Cmd : Type} `{EqDecision Cmd} `{GZ : Gob Z} `{GX : Gob (list (option Cmd))}.

Definition no_error (err : ApplyError Cmd) : bool := match err with NoError => true | _ => false end.
Definition is_ErrRPC (err : ApplyError Cmd) : bool := match err with ErrRPC => true | _ => false end.

(** ** The tester (test.go) *)

(** [raftServer]: a nil command is [None]. *)
Record raftServer : Type := MkRaftServer {
  applyErr : ApplyError Cmd;
  logs : gmap Z (option Cmd);
}.

Record Test : Type := MkTest { srvs : list raftServer; maxIndex : Z }.

Definition newRaftServer : raftServer := MkRaftServer NoError ∅.

Definition entry (rs : raftServer) (i : Z) : option (option Cmd) := logs rs !! i.

(** Server [i], whose record is [me], gets the log [l]. *)
Definition set_logs (ts : Test) (i : nat) (me : raftServer) (l : gmap Z (option Cmd)) : Test :=
  MkTest (<[i := MkRaftServer (applyErr me) l]> (srvs ts)) (maxIndex ts).

(** The loop of CheckLogs over the servers, from server [j] on: the last
    disagreement is reported. *)
Fixpoint mismatch (i : nat) (v : option Cmd) (index : Z) (j : nat) (l : list raftServer) (err : ApplyError Cmd) : ApplyError Cmd :=
  match l with
  | [] => err
  | rs :: l =>
      mismatch i v index (S j) l
        match entry rs index with
        | Some old => if decide (old = v) then err else CommitMismatch index i v j old
        | None => err
        end
  end.

(** [None]: there is no server [i]. *)
Definition CheckLogs (ts : Test) (i : nat) (v : option Cmd) (index : Z) : option (Test * (ApplyError Cmd * bool)) :=
  me ← srvs ts !! i;
  let err_msg := mismatch i v index 0 (srvs ts) NoError in
  let prevok := bool_decide (is_Some (entry me (index - 1))) in
  let ts := set_logs ts i me (<[index := v]> (logs me)) in
  let ts := if index >? maxIndex ts then MkTest (srvs ts) index else ts in
  Some (ts, (err_msg, prevok)).

Definition IngestLog (ts : Test) (i : nat) (xlog : gmap Z (option Cmd)) : option Test :=
  me ← srvs ts !! i;
  Some (set_logs ts i me xlog).

Definition ApplyErr (ts : Test) (i : nat) (err : ApplyError Cmd) : option Test :=
  me ← srvs ts !! i;
  Some (MkTest (<[i := MkRaftServer err (logs me)]> (srvs ts)) (maxIndex ts)).

(** The loop of nCommitted; [None] is a Fatal. *)
Fixpoint count_committed (index : Z) (l : list raftServer) (count : Z) (cmd : option Cmd) : option (Z * option Cmd) :=
  match l with
  | [] => Some (count, cmd)
  | rs :: l =>
      if negb (no_error (applyErr rs)) then None
      else match entry rs index with
           | Some cmd1 =>
               if (count >? 0) && negb (bool_decide (cmd = cmd1)) then None
               else count_committed index l (count + 1) cmd1
           | None => count_committed index l count cmd
           end
  end.

Definition nCommitted (ts : Test) (index : Z) : option (Z * option Cmd) := count_committed index (srvs ts) 0 None.

(** The check passes, fails, or nCommitted itself is fatal. *)
Definition checkNoAgreement (ts : Test) (index : Z) : option bool :=
  '(n, _) ← nCommitted ts index;
  Some (negb (n >? 0)).

(** ** The test server (server.go) *)

Record rfsrv : Type := MkRfsrv {
  rs_me : nat;
  rs_lastApplied : Z;
  rs_log : gmap Z (option Cmd);
}.

(** The entries of a list as a map from their index. *)
Definition index_map (xlog : list (option Cmd)) : gmap Z (option Cmd) :=
  list_to_map (imap (fun j v => (Z.of_nat j, v)) xlog).

(** [ingestSnap]: an empty slice stands for nil, for which there is an error
    either way. *)
Definition ingestSnap (rs : rfsrv) (snapshot : bytes) (index : Z) : rfsrv * ApplyError Cmd :=
  match snapshot with
  | [] => (rs, NilSnapshot)
  | _ =>
      match '(lastIncludedIndex, r) ← gob_dec snapshot; '(xlog, _) ← gob_dec (A := list (option Cmd)) r; Some (lastIncludedIndex, xlog) with
      | None => (rs, DecodeFailed)
      | Some (lastIncludedIndex, xlog) =>
          if negb (index =? -1) && negb (index =? lastIncludedIndex) then (rs, SnapshotMismatch (rs_me rs))
          else (MkRfsrv (rs_me rs) lastIncludedIndex (index_map xlog), NoError)
      end
  end.

(** The snapshot the server makes after the command at [index]: an entry that
    is not in the map reads as nil. *)
Definition log_snapshot (rs : rfsrv) (index : Z) : bytes :=
  gob_enc index ++ gob_enc ((fun j : nat => default None (rs_log rs !! Z.of_nat j)) <$> seq 0 (Z.to_nat (index + 1))).

(** Where the goroutine that reads the apply channel is: waiting, with a
    message, with the reply of CheckLogs, before IngestLog, before
    [rf.Snapshot], before ApplyErr. *)
Inductive Pc : Type :=
| Idle
| Got (m : ApplyMsg Cmd)
| Checked (v : option Cmd) (index : Z) (r : ApplyError Cmd * bool)
| Ingesting (err : ApplyError Cmd)
| Snapshotting (index : Z) (snap : bytes) (err : ApplyError Cmd)
| Reporting (err : ApplyError Cmd).

(** A server process: its state, whether its connection to the tester is up,
    its apply channel and its goroutine. *)
Record TServer : Type := MkTServer {
  srv : rfsrv;
  up : bool;
  applyCh : list (ApplyMsg Cmd);
  pc : Pc;
}.

Definition finish (err : ApplyError Cmd) : Pc := if no_error err then Idle else Reporting err.

(** The end of a command in applierSnap: remember it, maybe snapshot. *)
Definition store (t : TServer) (v : option Cmd) (index : Z) (err : ApplyError Cmd) : TServer :=
  let rs := MkRfsrv (rs_me (srv t)) index (<[index := v]> (rs_log (srv t))) in
  MkTServer rs (up t) (applyCh t)
    (if (index + 1) mod SnapShotInterval =? 0 then Snapshotting index (log_snapshot rs index) err else finish err).

Definition with_pc (t : TServer) (p : Pc) : TServer := MkTServer (srv t) (up t) (applyCh t) p.

(** The RPCs to the tester (proxy.go): nothing happens when the connection is
    gone. *)
Definition rpc_CheckLogs (t : TServer) (ts : Test) (i : nat) (v : option Cmd) (index : Z) : option (Test * (ApplyError Cmd * bool)) :=
  if up t then CheckLogs ts i v index else Some (ts, (ErrRPC, false)).
Definition rpc_IngestLog (t : TServer) (ts : Test) (i : nat) (xlog : gmap Z (option Cmd)) : option Test :=
  if up t then IngestLog ts i xlog else Some ts.
Definition rpc_ApplyErr (t : TServer) (ts : Test) (i : nat) (err : ApplyError Cmd) : option Test :=
  if up t then ApplyErr ts i err else Some ts.

(** One step of [applier], the configuration without snapshots. *)
Definition applier_step (t : TServer) (ts : Test) : option (TServer * Test) :=
  let i := rs_me (srv t) in
  match pc t with
  | Got (CommandMsg v index) => '(ts, r) ← rpc_CheckLogs t ts i v index; Some (with_pc t (Checked v index r), ts)
  | Got (SnapshotMsg _ _ _) => Some (with_pc t Idle, ts)
  | Checked v index (err_msg, prevok) =>
      let err_msg := if (index >? 1) && negb prevok then OutOfOrder i index else err_msg in
      Some (with_pc t (finish err_msg), ts)
  | Reporting err => ts ← rpc_ApplyErr t ts i err; Some (with_pc t Idle, ts)
  | _ => Some (t, ts)
  end.

(** One step of [applierSnap], all but the call of [rf.Snapshot]. *)
Definition applierSnap_step (t : TServer) (ts : Test) : option (TServer * Test) :=
  let i := rs_me (srv t) in
  match pc t with
  | Got (SnapshotMsg data _ index) =>
      let '(rs, err) := ingestSnap (srv t) data index in
      Some (MkTServer rs (up t) (applyCh t) (Ingesting err), ts)
  | Ingesting err => ts ← rpc_IngestLog t ts i (rs_log (srv t)); Some (with_pc t (finish err), ts)
  | Got (CommandMsg v index) =>
      if index =? rs_lastApplied (srv t) + 1 then
        '(ts, r) ← rpc_CheckLogs t ts i v index; Some (with_pc t (Checked v index r), ts)
      else Some (store t v index (OutOfOrderExpected i (rs_lastApplied (srv t) + 1) index), ts)
  | Checked v index (err_msg, prevok) =>
      let err_msg := if negb (is_ErrRPC err_msg) && (index >? 1) && negb prevok then OutOfOrder i index else err_msg in
      Some (store t v index err_msg, ts)
  | Reporting err => ts ← rpc_ApplyErr t ts i err; Some (with_pc t Idle, ts)
  | _ => Some (t, ts)
  end.

(** [newRfsrv] after Make: [None] is the Fatalf for a bad snapshot. *)
Definition newRfsrv (me : nat) (sn : bytes) (snapshot : bool) : option TServer :=
  let s := MkRfsrv me 0 ∅ in
  if snapshot && (0 <? len sn) then
    let '(s, err) := ingestSnap s sn (-1) in
    if no_error err then Some (MkTServer s true [] (Ingesting NoError)) else None
  else Some (MkTServer s true [] Idle).

(** The connection to the tester goes away: a reply under way is lost. *)
Definition disconnect (t : TServer) : TServer :=
  MkTServer (srv t) false (applyCh t) match pc t with Checked v index _ => Checked v index (ErrRPC, false) | p => p end.

End Defs.
Arguments raftServer : clear implicits.
Arguments Test : clear implicits.
Arguments rfsrv : clear implicits.
Arguments Pc : clear implicits.
Arguments TServer : clear implicits.

(** ** Servers, tester and Raft *)

Section System.
Context {Cmd : Type} `{EqDecision Cmd} `{GZ : Gob Z} `{GX : Gob (list (option Cmd))} `{GL : Gob (list (LogEntry Cmd))}.
Variables (n : nat) (snapshot : bool).

(** [t_log] is a history variable: the commands appliers have sent, by index. *)
Record System : Type := MkSystem {
  t_cluster : Cluster Cmd;
  t_servers : list (TServer Cmd);
  t_tester : Test Cmd;
  t_log : list Cmd;
}.

Inductive TStep : Type :=
| TRaft (l : Label Cmd)              (* a step inside Raft *)
| TStart (i : nat) (cmd : Cmd)       (* the tester starts a command *)
| TApply (i : nat)                   (* Raft's applier sends a message *)
| TRecv (i : nat)                    (* the server receives it *)
| TRun (i : nat)                     (* the server's goroutine goes on *)
| TDisconnect (i : nat)
| TRestart (i : nat) (now : Z).

(** [TExit]: a process exits, or a handler or check panics. *)
Inductive TOutcome : Type := TDisabled | TExit | TNext (s : System).

Definition internal (l : Label Cmd) : bool :=
  match l with LStart _ _ | LSnapshot _ _ _ | LApply _ | LRestart _ _ => false | _ => true end.

Definition at_server (s : System) (i : nat) (f : Proc Cmd -> TServer Cmd -> TOutcome) : TOutcome :=
  match procs (t_cluster s) !! i, t_servers s !! i with
  | Some p, Some t => f p t
  | _, _ => TDisabled
  end.

Definition with_raft_step (s : System) (l : Label Cmd) (f : Cluster Cmd -> System) : TOutcome :=
  match exec (t_cluster s) l with
  | Disabled => TDisabled
  | Panic => TExit
  | Next c => TNext (f c)
  end.

Definition set_server (s : System) (i : nat) (t : TServer Cmd) (ts : Test Cmd) : System :=
  MkSystem (t_cluster s) (<[i := t]> (t_servers s)) ts (t_log s).

(** The apply channel is not buffered: an applier waits with one message. *)
Definition texec (s : System) (l : TStep) : TOutcome :=
  match l with
  | TRaft l => if internal l then with_raft_step s l (fun c => MkSystem c (t_servers s) (t_tester s) (t_log s)) else TDisabled
  | TStart i cmd => with_raft_step s (LStart i cmd) (fun c => MkSystem c (t_servers s) (t_tester s) (t_log s))
  | TApply i =>
      at_server s i (fun p t =>
        match applyCh t with
        | [] =>
            with_raft_step s (LApply i) (fun c =>
              match sent c with
              | Some msg => MkSystem c (<[i := MkTServer (srv t) (up t) [msg] (pc t)]> (t_servers s)) (t_tester s) (record (t_log s) msg)
              | None => s
              end)
        | _ => TDisabled
        end)
  | TRecv i =>
      at_server s i (fun p t =>
        match pc t, applyCh t with
        | Idle, msg :: q => TNext (set_server s i (MkTServer (srv t) (up t) q (Got msg)) (t_tester s))
        | _, _ => TDisabled
        end)
  | TRun i =>
      at_server s i (fun p t =>
        match pc t with
        | Idle => TDisabled
        | Snapshotting index snap err =>
            with_raft_step s (LSnapshot i index snap) (fun c =>
              MkSystem c (<[i := with_pc t (finish err)]> (t_servers s)) (t_tester s) (t_log s))
        | _ =>
            match (if snapshot then applierSnap_step else applier_step) t (t_tester s) with
            | Some (t, ts) => TNext (set_server s i t ts)
            | None => TExit
            end
        end)
  | TDisconnect i => at_server s i (fun p t => TNext (set_server s i (disconnect t) (t_tester s)))
  | TRestart i now =>
      at_server s i (fun p t =>
        match newRfsrv (Cmd := Cmd) i (ReadSnapshot (persister (raft p))) snapshot with
        | Some t => with_raft_step s (LRestart i now) (fun c => MkSystem c (<[i := t]> (t_servers s)) (t_tester s) (t_log s))
        | None => TExit
        end)
  end.

Fixpoint trun (s : System) (ls : list TStep) : TOutcome :=
  match ls with
  | [] => TNext s
  | l :: ls =>
      match texec s l with
      | TDisabled => trun s ls
      | TExit => TExit
      | TNext s' => trun s' ls
      end
  end.

Definition makeTest : option System :=
  c ← init_cluster n;
  t ← mapM (fun i => newRfsrv i [] snapshot) (seq 0 n);
  Some (MkSystem c t (MkTest (replicate n newRaftServer) 0) []).

Definition test_run (ls : list TStep) : TOutcome :=
  match makeTest with Some s => trun s ls | None => TExit end.

(** ** The invariant *)

Implicit Types (s : System) (t : TServer Cmd) (p : Proc Cmd) (L : list Cmd) (m : gmap Z (option Cmd)).

(** A map that holds entries of the log, and nil at index 0. *)
Definition on_log L m : Prop := forall k v, m !! k = Some v ->
  k = 0 /\ v = None \/ 0 < k /\ exists c, v = Some c /\ L !! Z.to_nat (k - 1) = Some c.

Definition covers m (k : Z) : Prop := forall j, 0 < j <= k -> is_Some (m !! j).

(** The snapshots the servers make. *)
Definition log_snap L (k : Z) (data : bytes) : Prop :=
  snapshot = true /\ 0 <= k <= len L /\ data = gob_enc k ++ gob_enc (None :: (Some <$> take (Z.to_nat k) L)).

Record tester_ok L (ts : Test Cmd) : Prop := {
  to_len : length (srvs ts) = n;
  to_srvs : forall i rs, srvs ts !! i = Some rs -> applyErr rs = NoError /\ on_log L (logs rs);
}.

(** A server that has consumed the log up to [k] and is at [pc], with the
    tester's copy [m] of its log. *)
Definition pc_ok L m t (k : Z) : Prop :=
  let behind j := (snapshot = true -> rs_lastApplied (srv t) = j /\ covers (rs_log (srv t)) j) in
  match pc t with
  | Idle => behind k /\ (up t = true -> covers m k)
  | Got msg => exists j, 0 <= j /\ follows j msg /\ msg_on log_snap L msg /\ k = index_of msg /\ behind j /\ (up t = true -> covers m j)
  | Checked v index (err, prevok) =>
      msg_on log_snap L (CommandMsg v index) /\ k = index /\ 0 < index /\ behind (index - 1) /\
      (up t = true -> err = NoError /\ (1 < index -> prevok = true) /\ covers m index)
  | Ingesting err => snapshot = true /\ err = NoError /\ behind k
  | Snapshotting index snap err =>
      log_snap L index snap /\ behind k /\ (up t = true -> err = NoError /\ covers m k)
  | Reporting err => behind k /\ up t = false
  end.

Record server_ok L (i : nat) (m : gmap Z (option Cmd)) p t : Prop := {
  sv_me : rs_me (srv t) = i;
  sv_log : on_log L (rs_log (srv t));
  sv_pos : exists k, 0 <= k <= len L /\ pc_ok L m t k /\ queue_ok log_snap L k (applyCh t) (lastApplied (raft p));
}.

Record sys_ok s : Prop := {
  sy_hist : hist_ok n log_snap (fun _ => True) (t_cluster s) (t_log s);
  sy_len : length (t_servers s) = n;
  sy_tester : tester_ok (t_log s) (t_tester s);
  sy_servers : forall i p t rs, procs (t_cluster s) !! i = Some p -> t_servers s !! i = Some t ->
    srvs (t_tester s) !! i = Some rs -> server_ok (t_log s) i (logs rs) p t;
}.

(** *** Growing logs *)

Lemma on_log_app L L' m : on_log L m -> on_log (L ++ L') m.
Proof.
  intros Hm k v Hk. destruct (Hm k v Hk) as [?|(? & c & -> & Hc)]; [by left|]. right. split; [done|].
  exists c. split; [done|]. by apply lookup_app_l_Some.
Qed.

Lemma log_snap_app L L' k d : log_snap L k d -> log_snap (L ++ L') k d.
Proof. intros (? & Hk & ->). split_and!; [done|rewrite ?length_app; lia..|]. by rewrite take_app_le by lia. Qed.

Lemma log_snap_range L k d : log_snap L k d -> 0 <= k <= len L.
Proof. by intros (_ & ? & _). Qed.

Lemma pc_ok_app L L' m t k : pc_ok L m t k -> pc_ok (L ++ L') m t k.
Proof.
  unfold pc_ok. destruct (pc t) as [|msg|v index [err prevok]|err|index snap err|err]; auto.
  - intros (j & ? & ? & ? & ?). exists j. split_and!; auto using msg_on_app, log_snap_app; naive_solver.
  - intros (Hm & ?). split; [|done]. by apply (msg_on_app _ log_snap_app).
  - intros (Hm & ?). split; [|done]. by apply log_snap_app.
Qed.

Lemma server_ok_app L L' i m p t : server_ok L i m p t -> server_ok (L ++ L') i m p t.
Proof.
  intros [Hme Hl (k & Hk & Hpc & Hq)]. constructor; auto using on_log_app. exists k. rewrite length_app.
  split_and!; auto using pc_ok_app, queue_ok_app, log_snap_app; lia.
Qed.

Lemma tester_ok_app L L' ts : tester_ok L ts -> tester_ok (L ++ L') ts.
Proof. intros [Hn Hs]. constructor; [done|]. intros i rs Hi. destruct (Hs i rs Hi). auto using on_log_app. Qed.

Lemma server_ok_ext L i m p p' t : lastApplied (raft p') = lastApplied (raft p) -> server_ok L i m p t -> server_ok L i m p' t.
Proof. intros He [? ? (k & ? & ? & ?)]. constructor; auto. exists k. by rewrite He. Qed.

(** *** Maps of log entries *)

Lemma on_log_insert L m v index : on_log L m -> 0 < index -> msg_on log_snap L (CommandMsg v index) -> on_log L (<[index := v]> m).
Proof.
  intros Hm Hi (c & -> & Hc) k w Hk. apply lookup_insert_Some in Hk as [[<- <-]|[_ Hk]]; [|by apply Hm]. right. eauto.
Qed.

Lemma covers_insert m v index : covers m (index - 1) -> covers (<[index := v]> m) index.
Proof. intros Hm j Hj. destruct (decide (j = index)) as [->|]; [rewrite lookup_insert_eq; eauto|]. rewrite lookup_insert_ne by done. apply Hm. lia. Qed.

(** The tester's verdict is the agreement of its copies. *)
Lemma mismatch_spec i (v : option Cmd) index j l err : no_error err = true ->
  no_error (mismatch i v index j l err) = true <-> Forall (fun rs => forall old, entry rs index = Some old -> old = v) l.
Proof.
  assert (forall l j err, no_error err = false -> no_error (mismatch i v index j l err) = false) as Hbad.
  { clear. induction l as [|rs l IH]; intros j err He; simpl; [done|]. apply IH. destruct (entry rs index); [|done]. by destruct (decide _). }
  revert j err. induction l as [|rs l IH]; intros j err He; simpl; [by split; [constructor|]|].
  destruct (entry rs index) as [old|] eqn:Ho.
  - destruct (decide (old = v)) as [->|Hne].
    + rewrite IH by done. rewrite Forall_cons, Ho. naive_solver.
    + rewrite Hbad by done. rewrite Forall_cons, Ho. naive_solver.
  - rewrite IH by done. rewrite Forall_cons, Ho. naive_solver.
Qed.

Lemma no_error_eq (err : ApplyError Cmd) : no_error err = true <-> err = NoError.
Proof. by destruct err. Qed.

(** *** The tester's operations *)

Lemma on_log_at L m v index old : on_log L m -> 0 < index -> msg_on log_snap L (CommandMsg v index) -> m !! index = Some old -> old = v.
Proof.
  intros Hm Hi (c & -> & Hc) Ho. destruct (Hm _ _ Ho) as [[-> _]|(_ & c' & -> & Hc')]; [lia|]. by rewrite Hc in Hc'; injection Hc' as ->.
Qed.

Lemma set_logs_ok L ts i rs l : tester_ok L ts -> srvs ts !! i = Some rs -> on_log L l -> tester_ok L (set_logs ts i rs l).
Proof.
  intros [Hn Hs] Hi Hl. constructor; simpl; [by rewrite length_insert|].
  intros j x Hx. apply list_lookup_insert_Some in Hx as [(<- & <- & _)|[_ Hx]]; [|eauto]. by destruct (Hs _ _ Hi).
Qed.

Lemma CheckLogs_ok L ts i rs v index : tester_ok L ts -> srvs ts !! i = Some rs -> 0 < index -> msg_on log_snap L (CommandMsg v index) ->
  exists ts' rs', CheckLogs ts i v index = Some (ts', (NoError, bool_decide (is_Some (entry rs (index - 1))))) /\
    tester_ok L ts' /\ srvs ts' = <[i := rs']> (srvs ts) /\ logs rs' = <[index := v]> (logs rs).
Proof.
  intros Hok Hi H0 Hm. unfold CheckLogs. rewrite Hi. cbn [mbind option_bind].
  assert (mismatch i v index 0 (srvs ts) NoError = NoError) as ->.
  { apply no_error_eq, mismatch_spec; [done|]. apply Forall_lookup. intros j x Hx old Ho.
    destruct (to_srvs _ _ Hok _ _ Hx) as [_ Hlog]. by apply (on_log_at L (logs x) v index). }
  destruct (to_srvs _ _ Hok _ _ Hi) as [_ Hlog].
  pose proof (set_logs_ok L ts i rs _ Hok Hi (on_log_insert L _ v index Hlog H0 Hm)) as Hok'.
  eexists _, _. split; [done|]. split; [|split; [by destruct (_ >? _)|done]].
  destruct (_ >? _); [|done]. destruct Hok'. by constructor.
Qed.

Lemma IngestLog_ok L ts i rs l : tester_ok L ts -> srvs ts !! i = Some rs -> on_log L l ->
  exists ts' rs', IngestLog ts i l = Some ts' /\ tester_ok L ts' /\ srvs ts' = <[i := rs']> (srvs ts) /\ logs rs' = l.
Proof.
  intros Hok Hi Hl. unfold IngestLog. rewrite Hi. cbn [mbind option_bind].
  eexists _, _. split; [done|]. split; [by apply set_logs_ok|done].
Qed.

(** *** Snapshots *)

Lemma index_map_lookup (xlog : list (option Cmd)) k : index_map xlog !! k = if decide (0 <= k) then xlog !! Z.to_nat k else None.
Proof.
  unfold index_map. assert (NoDup (imap (fun j v => (Z.of_nat j, v)) xlog).*1) as Hnd.
  { rewrite fmap_imap. apply NoDup_alt. intros a b x Ha Hb. rewrite list_lookup_imap in Ha, Hb.
    destruct (xlog !! a), (xlog !! b); simplify_eq/=. by apply Nat2Z.inj. }
  apply option_eq. intros v. rewrite <-elem_of_list_to_map, list_elem_of_lookup by done. split.
  - intros [j Hj]. rewrite list_lookup_imap in Hj. destruct (xlog !! j) as [w|] eqn:Hw; simplify_eq/=.
    rewrite decide_True by lia. by rewrite Nat2Z.id.
  - case_decide as Hk; [|done]. intros Hv. exists (Z.to_nat k). rewrite list_lookup_imap, Hv. simpl. by rewrite Z2Nat.id.
Qed.

(** The entries of a snapshot, as a map. *)
Lemma snap_map L k : 0 <= k <= len L ->
  on_log L (index_map (None :: (Some <$> take (Z.to_nat k) L))) /\ covers (index_map (None :: (Some <$> take (Z.to_nat k) L))) k.
Proof.
  intros Hk. split.
  - intros j v Hj. rewrite index_map_lookup in Hj. case_decide as H0; [|done]. destruct (decide (j = 0)) as [->|Hne]; [left; by simplify_eq/=|].
    right. split; [lia|]. replace (Z.to_nat j) with (S (Z.to_nat (j - 1))) in Hj by lia. simpl in Hj.
    rewrite list_lookup_fmap in Hj. destruct (take _ L !! _) as [c|] eqn:Hc; simplify_eq/=. exists c. split; [done|].
    by apply lookup_take_Some in Hc as [? _].
  - intros j Hj. rewrite index_map_lookup, decide_True by lia. replace (Z.to_nat j) with (S (Z.to_nat (j - 1))) by lia. simpl.
    apply lookup_lt_is_Some_2. rewrite length_fmap, length_take. lia.
Qed.

Lemma ingest_ok L rs k data index : log_snap L k data -> index = -1 \/ index = k ->
  exists m, ingestSnap rs data index = (MkRfsrv (rs_me rs) k m, NoError) /\ on_log L m /\ covers m k.
Proof.
  intros (_ & Hk & ->) Hi. exists (index_map (None :: (Some <$> take (Z.to_nat k) L))). split; [|by apply snap_map].
  unfold ingestSnap. pose proof (gob_enc_nonempty k) as Hne. destruct (gob_enc k ++ _) as [|b bs] eqn:Hb; [by apply app_eq_nil in Hb as [? _]|].
  rewrite <-Hb, gob_dec_enc. cbn [mbind option_bind]. rewrite gob_dec_enc_nil. cbn [mbind option_bind].
  destruct Hi as [-> | ->]; [done|]. rewrite Z.eqb_refl. by rewrite andb_false_r.
Qed.

Lemma log_snapshot_ok L rs k : snapshot = true -> on_log L (rs_log rs) -> covers (rs_log rs) k -> 0 <= k <= len L ->
  log_snap L k (log_snapshot rs k).
Proof.
  intros Hsn Hl Hc Hk. split_and!; [done|lia..|]. unfold log_snapshot. do 2 f_equal. replace (Z.to_nat (k + 1)) with (S (Z.to_nat k)) by lia.
  cbn [seq]. rewrite fmap_cons. f_equal.
  - destruct (rs_log rs !! Z.of_nat 0) as [v|] eqn:Hv; [|done]. simpl. destruct (Hl _ _ Hv) as [[_ ->]|[? _]]; [done|lia].
  - apply list_eq. intros j. rewrite !list_lookup_fmap. destruct (decide (j < Z.to_nat k)%nat) as [Hj|Hj].
    + rewrite lookup_seq_lt by done. rewrite lookup_take_lt by done. simpl.
      destruct (Hc (Z.of_nat (S j))) as [v Hv]; [lia|]. rewrite Hv. destruct (Hl _ _ Hv) as [[? _]|(_ & c & -> & Hcl)]; [lia|].
      replace (Z.to_nat (Z.of_nat (S j) - 1)) with j in Hcl by lia. by rewrite Hcl.
    + rewrite lookup_seq_ge by lia. rewrite lookup_take_ge by lia. done.
Qed.

(** *** The servers' steps *)

Lemma finish_ok L m t k err : (snapshot = true -> rs_lastApplied (srv t) = k /\ covers (rs_log (srv t)) k) ->
  (up t = true -> err = NoError /\ covers m k) -> pc_ok L m (with_pc t (finish err)) k.
Proof.
  intros Hb Hu. unfold pc_ok, with_pc, finish. simpl. destruct (no_error err) eqn:He; simpl; [naive_solver|].
  split; [done|]. destruct (up t); [|done]. destruct Hu as [-> _]; done.
Qed.

Lemma store_ok L m t v index err p : snapshot = true -> on_log L (rs_log (srv t)) ->
  covers (rs_log (srv t)) (index - 1) -> msg_on log_snap L (CommandMsg v index) -> 0 < index <= len L ->
  (up t = true -> err = NoError /\ covers m index) -> queue_ok log_snap L index (applyCh t) (lastApplied (raft p)) ->
  server_ok L (rs_me (srv t)) m p (store t v index err).
Proof.
  intros Hsn Hl Hc Hm Hi Hu Hq. pose proof (on_log_insert _ _ v index Hl (proj1 Hi) Hm) as Hl'. pose proof (covers_insert _ v index Hc) as Hc'.
  constructor; simpl; [done..|]. exists index. split_and!; [lia|lia| |done]. unfold store, pc_ok. simpl.
  destruct (_ =? 0); simpl.
  - split; [|done]. apply log_snapshot_ok; simpl; auto; lia.
  - unfold finish. destruct (no_error err) eqn:He; simpl; [naive_solver|]. split; [done|].
    destruct (up t); [|done]. destruct Hu as [-> _]; done.
Qed.

(** What an RPC to the tester leaves behind. *)
Definition tester_next L (ts : Test Cmd) (i : nat) (ts' : Test Cmd) (rs' : raftServer Cmd) : Prop :=
  tester_ok L ts' /\ srvs ts' = <[i := rs']> (srvs ts).

Lemma tester_same L ts i rs : tester_ok L ts -> srvs ts !! i = Some rs -> tester_next L ts i ts rs.
Proof. intros Hok Hi. split; [done|]. by rewrite list_insert_id. Qed.

Lemma rpc_check_ok L ts i rs t v index : tester_ok L ts -> srvs ts !! i = Some rs -> 0 < index ->
  msg_on log_snap L (CommandMsg v index) -> (up t = true -> covers (logs rs) (index - 1)) ->
  exists ts' rs' err prevok, rpc_CheckLogs t ts i v index = Some (ts', (err, prevok)) /\ tester_next L ts i ts' rs' /\
    (up t = true -> err = NoError /\ (1 < index -> prevok = true) /\ covers (logs rs') index).
Proof.
  intros Hok Hi H0 Hm Hc. unfold rpc_CheckLogs. destruct (up t).
  - destruct (CheckLogs_ok L ts i rs v index Hok Hi H0 Hm) as (ts' & rs' & -> & Hok' & Hs & Hl).
    exists ts', rs', NoError, (bool_decide (is_Some (entry rs (index - 1)))). split_and!; [done..|]. intros _. split_and!; [done| |].
    + intros H1. apply bool_decide_eq_true_2, Hc; [done|lia].
    + rewrite Hl. apply covers_insert. auto.
  - exists ts, rs, ErrRPC, false. split_and!; [done|by apply tester_same..|done].
Qed.

Lemma applier_step_ok L ts i rs p t : snapshot = false -> tester_ok L ts -> srvs ts !! i = Some rs -> server_ok L i (logs rs) p t ->
  exists t' ts' rs', applier_step t ts = Some (t', ts') /\ tester_next L ts i ts' rs' /\ server_ok L i (logs rs') p t'.
Proof.
  intros Hsn Hok Hi [Hme Hl (k & Hk & Hpc & Hq)]. unfold applier_step. rewrite Hme.
  destruct t as [sv u ch [|[v index|data T index]|v index [err prevok]|err|index snap err|err]]; unfold pc_ok in Hpc; simpl in *.
  - eexists _, _, rs. split_and!; [done|by apply tester_same..|]. constructor; simpl; auto. by exists k.
  - destruct Hpc as (j & H0 & Hf & Hm & -> & _ & Hc).
    destruct (rpc_check_ok L ts i rs (MkTServer sv u ch (Got (CommandMsg v index))) v index) as (ts' & rs' & err & prevok & -> & Hn & Hu);
      auto; [lia|simpl; by replace (index - 1) with j by lia|]. cbn [mbind option_bind]. eexists _, _, rs'. split_and!; [done|apply Hn..|].
    constructor; simpl; auto. exists index. split_and!; auto; [lia..|]. unfold pc_ok. simpl. split_and!; auto; [lia|by rewrite Hsn].
  - destruct Hpc as (j & _ & _ & [Hx _] & _). congruence.
  - destruct Hpc as (Hm & -> & H0 & _ & Hu). eexists _, _, rs. split_and!; [done|by apply tester_same..|].
    constructor; simpl; auto. exists index. split_and!; auto; [lia..|]. apply finish_ok; simpl; [by rewrite Hsn|].
    intros Hup. destruct (Hu Hup) as (-> & Hp & Hc). split; [|done]. rewrite Z.gtb_ltb. destruct (Z.ltb_spec 1 index); [|done]. by rewrite Hp.
  - destruct Hpc as [Hx _]. congruence.
  - destruct Hpc as [[Hx _] _]. congruence.
  - destruct Hpc as [Hb ->]. unfold rpc_ApplyErr. cbn [up mbind option_bind]. eexists _, _, rs. split_and!; [done|by apply tester_same..|].
    constructor; simpl; auto. by exists k.
Qed.

Lemma applierSnap_step_ok L ts i rs p t : snapshot = true -> (forall index snap err, pc t <> Snapshotting index snap err) ->
  tester_ok L ts -> srvs ts !! i = Some rs -> server_ok L i (logs rs) p t ->
  exists t' ts' rs', applierSnap_step t ts = Some (t', ts') /\ tester_next L ts i ts' rs' /\ server_ok L i (logs rs') p t'.
Proof.
  intros Hsn Hns Hok Hi [Hme Hl (k & Hk & Hpc & Hq)]. unfold applierSnap_step. rewrite Hme.
  destruct t as [sv u ch [|[v index|data T index]|v index [err prevok]|err|index snap err|err]]; unfold pc_ok in Hpc; simpl in *.
  - eexists _, _, rs. split_and!; [done|by apply tester_same..|]. constructor; simpl; auto. by exists k.
  - destruct Hpc as (j & H0 & Hf & Hm & -> & Hb & Hc). destruct (Hb Hsn) as [Hla Hcl]. rewrite Hla. destruct (Z.eqb_spec index (j + 1)) as [_|Hx]; [|done].
    destruct (rpc_check_ok L ts i rs (MkTServer sv u ch (Got (CommandMsg v index))) v index) as (ts' & rs' & err & prevok & -> & Hn & Hu);
      auto; [lia|simpl; by replace (index - 1) with j by lia|]. cbn [mbind option_bind]. eexists _, _, rs'. split_and!; [done|apply Hn..|].
    constructor; simpl; auto. exists index. split_and!; auto; [lia..|]. unfold pc_ok. simpl. split_and!; auto; [lia|]. by replace (index - 1) with j by lia.
  - destruct Hpc as (j & _ & _ & Hm & -> & _). destruct (ingest_ok L sv index data index Hm) as (m & -> & Hlm & Hcm); [by right|].
    eexists _, _, rs. split_and!; [done|by apply tester_same..|]. constructor; simpl; auto. exists index. split_and!; [lia..|by unfold pc_ok|done].
  - destruct Hpc as (Hm & -> & H0 & Hb & Hu). destruct (Hb Hsn) as [Hla Hcl]. eexists _, _, rs. split_and!; [done|by apply tester_same..|].
    subst i. apply (store_ok L (logs rs) (MkTServer sv u ch _)); simpl; auto; [lia|].
    intros Hup. destruct (Hu Hup) as (-> & Hp & Hc). split; [|done]. rewrite Z.gtb_ltb. simpl. destruct (Z.ltb_spec 1 index); [|done]. by rewrite Hp.
  - destruct Hpc as (_ & -> & Hb). destruct (Hb Hsn) as [Hla Hcl]. unfold rpc_IngestLog. simpl. destruct u.
    + destruct (IngestLog_ok L ts i rs (rs_log sv) Hok Hi Hl) as (ts' & rs' & -> & Hok' & Hs & Hlr). eexists _, _, rs'.
      split_and!; [done..|]. constructor; simpl; auto. exists k. split_and!; auto; [lia..|]. apply finish_ok; simpl; auto. rewrite Hlr. auto.
    + eexists _, _, rs. split_and!; [done|by apply tester_same..|]. constructor; simpl; auto. exists k. split_and!; auto; [lia..|]. by apply finish_ok.
  - by destruct (Hns index snap err).
  - destruct Hpc as [Hb ->]. unfold rpc_ApplyErr. cbn [up mbind option_bind]. eexists _, _, rs. split_and!; [done|by apply tester_same..|].
    constructor; simpl; auto. by exists k.
Qed.

(** *** Steps of the system *)

Lemma server_of s i p t : sys_ok s -> procs (t_cluster s) !! i = Some p -> t_servers s !! i = Some t ->
  exists rs, srvs (t_tester s) !! i = Some rs /\ server_ok (t_log s) i (logs rs) p t.
Proof.
  intros Hs Hp Ht. apply lookup_lt_Some in Ht as Hlt. rewrite (sy_len _ Hs), <-(to_len _ _ (sy_tester _ Hs)) in Hlt.
  apply lookup_lt_is_Some_2 in Hlt as [rs Hrs]. exists rs. split; [done|]. by apply Hs.
Qed.

Lemma set_server_ok s i t' ts' rs' : sys_ok s -> tester_next (t_log s) (t_tester s) i ts' rs' ->
  (forall p, procs (t_cluster s) !! i = Some p -> server_ok (t_log s) i (logs rs') p t') -> sys_ok (set_server s i t' ts').
Proof.
  intros Hs [Hok Heq] Hi. constructor; simpl; [apply Hs|by rewrite length_insert; apply Hs|done|].
  rewrite Heq. intros j p t rs Hp Ht Hr.
  apply list_lookup_insert_Some in Ht as [(<- & <- & _)|[Hj Ht]]; apply list_lookup_insert_Some in Hr as [(? & <- & _)|[? Hr]]; try done; [auto|].
  by apply Hs.
Qed.

Lemma quiet_sys s l c ss : sys_ok s -> hands_out l = false -> label_from (fun _ => True) (log_snap (t_log s)) (t_cluster s) l ->
  exec (t_cluster s) l = Next c -> length ss = n ->
  (forall i p t rs, procs (t_cluster s) !! i = Some p -> ss !! i = Some t -> srvs (t_tester s) !! i = Some rs ->
    server_ok (t_log s) i (logs rs) p t) -> sys_ok (MkSystem c ss (t_tester s) (t_log s)).
Proof.
  intros Hs Hh Hl He Hlen Hi.
  destruct (hist_quiet n log_snap _ (fun _ => True) _ _ l c (sy_hist _ Hs)) as [Hok Hq]; auto.
  constructor; simpl; auto; [apply Hs|]. intros i p t rs Hp Ht Hr. destruct (quiet_lookup _ _ _ _ Hq Hp) as (p0 & Hp0 & Hla).
  eapply server_ok_ext; eauto.
Qed.

Lemma disconnect_ok L i m p t : server_ok L i m p t -> server_ok L i m p (disconnect t).
Proof.
  intros [Hme Hl (k & Hk & Hpc & Hq)]. constructor; simpl; auto. exists k. split_and!; [lia..| |done].
  destruct t as [sv u ch [|msg|v index [err prevok]|err|index snap err|err]]; unfold pc_ok, disconnect in *; simpl in *; naive_solver.
Qed.

(** A server that starts from the snapshot its Raft peer starts from. *)
Lemma newRfsrv_ok L i m p k sn : 0 <= k <= len L -> snap_from (log_snap L) k sn -> lastApplied (raft p) = k ->
  exists t, newRfsrv i sn snapshot = Some t /\ server_ok L i m p t.
Proof.
  intros Hk Hsn Hp. unfold newRfsrv. destruct Hsn as [[-> ->]|[Hpos Hsn]].
  - rewrite andb_false_r. eexists. split; [done|]. constructor; simpl; [done|by intros ? ? ?|].
    exists 0. split_and!; [lia..| |done]. unfold pc_ok. simpl. split; [|by intros _ j Hj; lia]. intros _. split; [done|]. intros j Hj. lia.
  - destruct (ingest_ok L (MkRfsrv i 0 ∅) k sn (-1) Hsn) as (m' & Hi & Hl & Hc); [by left|]. pose proof Hsn as (Ht & _ & Henc). rewrite Hi. cbn [no_error].
    assert ((0 <? len sn) = true) as ->.
    { apply Z.ltb_lt. rewrite Henc, length_app. pose proof (gob_enc_nonempty k). destruct (gob_enc k); [done|]. simpl. lia. }
    rewrite Ht. simpl. eexists. split; [done|]. constructor; simpl; auto. exists k. split_and!; [lia..| |done].
    unfold pc_ok. simpl. auto.
Qed.

Lemma replace_server s i t' : sys_ok s ->
  (forall p rs, procs (t_cluster s) !! i = Some p -> srvs (t_tester s) !! i = Some rs -> server_ok (t_log s) i (logs rs) p t') ->
  forall j p t rs, procs (t_cluster s) !! j = Some p -> <[i := t']> (t_servers s) !! j = Some t -> srvs (t_tester s) !! j = Some rs ->
    server_ok (t_log s) j (logs rs) p t.
Proof.
  intros Hs Hi j p t rs Hp Ht Hr. apply list_lookup_insert_Some in Ht as [(<- & <- & _)|[_ Ht]]; [auto|]. by apply Hs.
Qed.

Lemma apply_sys s i p t c : sys_ok s -> procs (t_cluster s) !! i = Some p -> t_servers s !! i = Some t -> applyCh t = [] ->
  exec (t_cluster s) (LApply i) = Next c ->
  exists msg, sent c = Some msg /\
    sys_ok (MkSystem c (<[i := MkTServer (srv t) (up t) [msg] (pc t)]> (t_servers s)) (t_tester s) (record (t_log s) msg)).
Proof.
  intros Hs Hp Ht Hch He. destruct (server_of s i p t Hs Hp Ht) as (rs & Hrs & Hsv). destruct Hsv as [Hme Hl (k & Hk & Hpc & Hq)].
  rewrite Hch in Hq. simpl in Hq. subst k.
  destruct (hist_apply n log_snap log_snap_app log_snap_range _ _ _ i p c (sy_hist _ Hs) Hp Hk He) as (rf & msg & Hc & Hfo & Hla & Hmsg & Hh).
  destruct (record_app (t_log s) msg) as [x Hx]. exists msg. split; [by rewrite Hc, sent_update|]. rewrite Hx in *.
  constructor; simpl; [done|rewrite length_insert; apply Hs|apply tester_ok_app, Hs|].
  intros j q t' rs' Hq Ht' Hr'. rewrite Hc in Hq. simpl in Hq.
  apply list_lookup_insert_Some in Hq as [(<- & <- & _)|[Hj Hq]];
    apply list_lookup_insert_Some in Ht' as [(? & <- & _)|[Hj' Ht']]; try done; [|apply server_ok_app; by apply Hs].
  rewrite Hrs in Hr'. injection Hr' as <-. constructor; simpl; [done|by apply on_log_app|]. exists (lastApplied (raft p)).
  split_and!; [lia|rewrite length_app; lia|by apply pc_ok_app|done|done|by rewrite Hla].
Qed.

Lemma restart_sys s i p t now : sys_ok s -> procs (t_cluster s) !! i = Some p -> t_servers s !! i = Some t ->
  match texec s (TRestart i now) with TDisabled => True | TExit => False | TNext s' => sys_ok s' end.
Proof.
  intros Hs Hp Ht. unfold texec, at_server, with_raft_step. rewrite Hp, Ht. pose proof (hist_no_panic n _ _ _ _ (LRestart i now) (sy_hist _ Hs)) as Hnp.
  destruct (exec (t_cluster s) (LRestart i now)) as [| |c] eqn:He; [|done|].
  - exfalso. destruct (ho_coupled _ _ _ _ _ (sy_hist _ Hs)) as [a Ha]. unfold exec, at_proc in He. rewrite Hp in He. by destruct (Make _ _ _ _).
  - destruct (hist_restart n log_snap log_snap_range _ _ _ i p now c (sy_hist _ Hs) Hp He) as (rf & Hc & Hla & Hsn & Hh).
    destruct (server_of s i p t Hs Hp Ht) as (rs & Hrs & _).
    destruct (newRfsrv_ok (t_log s) i (logs rs) (MkProc rf []) (lastApplied rf) _ Hla Hsn eq_refl) as (t' & -> & Hsv).
    constructor; simpl; [done|rewrite length_insert; apply Hs|apply Hs|].
    intros j q t2 rs2 Hq Ht2 Hr2. rewrite Hc in Hq. simpl in Hq.
    apply list_lookup_insert_Some in Hq as [(<- & <- & _)|[Hj Hq]];
      apply list_lookup_insert_Some in Ht2 as [(? & <- & _)|[Hj' Ht2]]; try done; [congruence|by apply Hs].
Qed.

Lemma run_sys s i p t : sys_ok s -> procs (t_cluster s) !! i = Some p -> t_servers s !! i = Some t ->
  match texec s (TRun i) with TDisabled => True | TExit => False | TNext s' => sys_ok s' end.
Proof.
  intros Hs Hp Ht. destruct (server_of s i p t Hs Hp Ht) as (rs & Hrs & Hsv). unfold texec, at_server, with_raft_step. rewrite Hp, Ht.
  assert ((forall index snap err, pc t <> Snapshotting index snap err) ->
    match match (if snapshot then applierSnap_step else applier_step) t (t_tester s) with
          | Some (t, ts) => TNext (set_server s i t ts) | None => TExit end
    with TDisabled => True | TExit => False | TNext s' => sys_ok s' end) as Hgo.
  { intros Hns. assert (exists t' ts' rs', (if snapshot then applierSnap_step else applier_step) t (t_tester s) = Some (t', ts') /\
      tester_next (t_log s) (t_tester s) i ts' rs' /\ server_ok (t_log s) i (logs rs') p t') as (t' & ts' & rs' & -> & Hn & Hok).
    { pose proof (sy_tester _ Hs). assert (snapshot = true \/ snapshot = false) as [Hsn|Hsn] by (destruct snapshot; auto); rewrite Hsn.
      - by apply (applierSnap_step_ok (t_log s) _ i rs).
      - by apply (applier_step_ok (t_log s) _ i rs). }
    apply (set_server_ok s i t' ts' rs' Hs Hn). intros q Hq. rewrite Hp in Hq. by injection Hq as <-. }
  destruct (pc t) as [|msg|v index r|err|index snap err|err] eqn:Hpc; try done; try (apply Hgo; congruence).
  pose proof (hist_no_panic n _ _ _ _ (LSnapshot i index snap) (sy_hist _ Hs)) as Hnp.
  destruct (exec (t_cluster s) (LSnapshot i index snap)) as [| |c] eqn:He; [done..|].
  destruct Hsv as [Hme Hl (k & Hk & Hok & Hq)]. unfold pc_ok in Hok. rewrite Hpc in Hok. destruct Hok as (Hsnap & Hb & Hu).
  apply (quiet_sys s (LSnapshot i index snap)); auto; [by rewrite length_insert; apply Hs|].
  apply replace_server; [done|]. intros q rs2 Hq2 Hr2. rewrite Hp in Hq2. injection Hq2 as <-. rewrite Hrs in Hr2. injection Hr2 as <-.
  constructor; simpl; auto. exists k. split_and!; auto; [lia..|]. by apply finish_ok.
Qed.

Lemma texec_ok s l : sys_ok s -> match texec s l with TDisabled => True | TExit => False | TNext s' => sys_ok s' end.
Proof.
  intros Hs. pose proof (fun l => hist_no_panic n _ _ _ _ l (sy_hist _ Hs)) as Hnp.
  destruct l as [l|i cmd|i|i|i|i|i now]; try (
    destruct (procs (t_cluster s) !! i) as [p|] eqn:Hp; [|by unfold texec, at_server; rewrite Hp];
    destruct (t_servers s !! i) as [t|] eqn:Ht; [|by unfold texec, at_server; rewrite Hp, Ht]);
    try (by apply (run_sys s i p t)); try (by apply (restart_sys s i p t)); unfold texec, at_server, with_raft_step; rewrite ?Hp, ?Ht.
  - destruct (internal l) eqn:Hl; [|done]. specialize (Hnp l). destruct (exec (t_cluster s) l) as [| |c] eqn:He; [done..|].
    apply (quiet_sys s l); auto; try apply Hs; by destruct l.
  - specialize (Hnp (LStart i cmd)). destruct (exec (t_cluster s) (LStart i cmd)) as [| |c] eqn:He; [done..|].
    apply (quiet_sys s (LStart i cmd)); auto; [done|apply Hs..].
  - destruct (applyCh t) eqn:Hch; [|done]. specialize (Hnp (LApply i)). destruct (exec (t_cluster s) (LApply i)) as [| |c] eqn:He; [done..|].
    by destruct (apply_sys s i p t c) as (msg & -> & ?).
  - destruct (pc t) eqn:Hpc; try done. destruct (applyCh t) as [|msg q] eqn:Hch; [done|].
    destruct (server_of s i p t Hs Hp Ht) as (rs & Hrs & [Hme Hl (k & Hk & Hok & Hq)]). rewrite Hch in Hq. destruct Hq as (Hf & Hm & Hq).
    unfold pc_ok in Hok. rewrite Hpc in Hok. destruct Hok as [Hb Hu].
    apply (set_server_ok s i _ _ rs Hs); [by apply tester_same; [apply Hs|]|]. intros p' Hp'. rewrite Hp in Hp'. injection Hp' as <-.
    constructor; simpl; auto. exists (index_of msg). pose proof (msg_on_range log_snap log_snap_range _ _ _ Hf Hm) as Hr.
    split_and!; auto; [lia..|]. unfold pc_ok. simpl. exists k. split_and!; auto; lia.
  - destruct (server_of s i p t Hs Hp Ht) as (rs & Hrs & Hsv). apply (set_server_ok s i _ _ rs Hs); [by apply tester_same; [apply Hs|]|].
    intros p' Hp'. rewrite Hp in Hp'. injection Hp' as <-. by apply disconnect_ok.
Qed.

Lemma makeTest_ok : exists s, makeTest = Some s /\ sys_ok s.
Proof.
  destruct (init_coupled (Cmd := Cmd) n) as (c & Hc & Ha). destruct (init_applied n c Hc) as (Hlen & Hd & Hla).
  unfold makeTest. rewrite Hc. cbn [mbind option_bind].
  assert (mapM (fun i => newRfsrv (Cmd := Cmd) i [] snapshot) (seq 0 n) = Some ((fun i => MkTServer (MkRfsrv i 0 ∅) true [] Idle) <$> seq 0 n)) as ->.
  { apply mapM_Some. generalize (seq 0 n). intros l. induction l as [|i l IH]; simpl; constructor; auto. unfold newRfsrv. by rewrite andb_false_r. }
  cbn [mbind option_bind]. eexists. split; [done|]. constructor; simpl.
  - apply hist_init; eauto.
  - by rewrite length_fmap, length_seq.
  - constructor; simpl; [by rewrite length_replicate|]. intros i rs Hi. apply lookup_replicate in Hi as [-> _]. by split; [|intros ? ? ?].
  - intros i p t rs Hp Ht Hr. apply lookup_replicate in Hr as [-> _]. rewrite list_lookup_fmap in Ht.
    destruct (seq 0 n !! i) as [j|] eqn:Hj; [|done]. apply lookup_seq in Hj as [-> _]. simpl in Ht. injection Ht as <-.
    constructor; simpl; [done|by intros ? ? ?|]. exists 0. split_and!; [lia..| |simpl; by rewrite (Hla i p Hp)].
    unfold pc_ok. simpl. split; [|by intros _ j Hj; lia]. intros _. split; [done|]. intros j Hj. lia.
Qed.

Lemma test_run_ok ls : exists s, test_run ls = TNext s /\ sys_ok s.
Proof.
  unfold test_run. destruct makeTest_ok as (s & -> & Hs). revert s Hs. induction ls as [|l ls IH]; intros s Hs; simpl; [eauto|].
  pose proof (texec_ok s l Hs) as Hl. destruct (texec s l); [auto|done|auto].
Qed.

(** *** What the tester counts *)

Lemma count_ok L index l count cmd : 0 < index -> 0 <= count -> Forall (fun rs => applyErr rs = NoError /\ on_log L (logs rs)) l ->
  (0 < count -> cmd = L !! Z.to_nat (index - 1)) ->
  exists cmd', count_committed index l count cmd = Some (count + len (filter (fun rs => is_Some (entry rs index)) l), cmd') /\
    (0 < count + len (filter (fun rs => is_Some (entry rs index)) l) -> cmd' = L !! Z.to_nat (index - 1)).
Proof.
  intros Hi Hc Hl. revert count cmd Hc. induction Hl as [|rs l [He Hlog] Hl IH]; intros count cmd Hc Hcmd; cbn [count_committed].
  { exists cmd. rewrite filter_nil. simpl. rewrite Z.add_0_r. auto. }
  rewrite He. cbn [no_error negb]. rewrite filter_cons. destruct (entry rs index) as [cmd1|] eqn:Hent.
  - rewrite decide_True by eauto. destruct (Hlog _ _ Hent) as [[? _]|(_ & c & -> & Hcl)]; [lia|].
    assert ((count >? 0) && negb (bool_decide (cmd = Some c)) = false) as ->.
    { rewrite Z.gtb_ltb. destruct (Z.ltb_spec 0 count); [|done]. rewrite bool_decide_eq_true_2; [done|]. by rewrite Hcmd, Hcl. }
    destruct (IH (count + 1) (Some c)) as (cmd' & -> & Hcmd'); [lia|by rewrite Hcl|]. exists cmd'. cbn [length].
    replace (count + Z.of_nat (S (length (filter (fun rs => is_Some (entry rs index)) l))))
      with (count + 1 + len (filter (fun rs => is_Some (entry rs index)) l)) by lia. done.
  - rewrite decide_False by (by intros [? ?]). apply IH; auto.
Qed.

(** C21 (safety): the tester never complains about this Raft.  For every run of
    the servers, with or without snapshots, with any crashes, restarts, lost
    connections and network behaviour: no process exits, no server has
    reported an apply error (a disagreement, a command out of order, a bad
    snapshot), and nCommitted succeeds at every index, with the number of the
    servers that applied it and the one command they applied. *)
Theorem tester_never_complains (ls : list TStep) :
  exists s, test_run ls = TNext s /\ Forall (fun rs => applyErr rs = NoError) (srvs (t_tester s)) /\
    forall index, 0 < index -> exists cmd,
      nCommitted (t_tester s) index = Some (len (filter (fun rs => is_Some (entry rs index)) (srvs (t_tester s))), cmd) /\
      (0 < len (filter (fun rs => is_Some (entry rs index)) (srvs (t_tester s))) -> cmd = t_log s !! Z.to_nat (index - 1)).
Proof.
  destruct (test_run_ok ls) as (s & Hrun & Hs). exists s. pose proof (to_srvs _ _ (sy_tester _ Hs)) as Hall.
  split_and!; [done|apply Forall_lookup; naive_solver|]. intros index Hi.
  apply (count_ok (t_log s) index _ 0 None); [done..|by apply Forall_lookup|lia].
Qed.

Lemma agree_dec (v : option Cmd) index l : Forall (fun rs => forall old, entry rs index = Some old -> old = v) l \/
  exists rs old, rs ∈ l /\ entry rs index = Some old /\ old <> v.
Proof.
  induction l as [|rs l [IH|(x & old & Hx & Hold)]]; [by left|..].
  - destruct (entry rs index) as [old|] eqn:He; [|left; constructor; [congruence|done]].
    destruct (decide (old = v)) as [->|Hne]; [left; constructor; [congruence|done]|]. right. exists rs, old. split_and!; [by left|done..].
  - right. exists x, old. split; [by right|done].
Qed.

(** CheckLogs reports an error exactly when some server has
    applied another command at this index.  Either way it notes the command
    for the caller, leaves the other copies alone, and says whether the caller
    had applied the index before. *)
Theorem CheckLogs_detects (ts : Test Cmd) (i : nat) me (v : option Cmd) index : srvs ts !! i = Some me ->
  exists ts' err prevok, CheckLogs ts i v index = Some (ts', (err, prevok)) /\
    (err <> NoError <-> exists j rs old, srvs ts !! j = Some rs /\ logs rs !! index = Some old /\ old <> v) /\
    (prevok = true <-> is_Some (logs me !! (index - 1))) /\
    maxIndex ts' = Z.max (maxIndex ts) index /\
    forall j rs, srvs ts !! j = Some rs -> exists rs', srvs ts' !! j = Some rs' /\ applyErr rs' = applyErr rs /\
      logs rs' = if decide (j = i) then <[index := v]> (logs rs) else logs rs.
Proof.
  intros Hi. unfold CheckLogs. rewrite Hi. cbn [mbind option_bind]. eexists _, _, _. split; [done|].
  split_and!.
  - rewrite <-no_error_eq, mismatch_spec by done. split.
    + intros Hne. destruct (agree_dec v index (srvs ts)) as [?|(rs & old & [j Hj]%list_elem_of_lookup & Ho & Hx)]; [done|].
      by exists j, rs, old.
    + intros (j & rs & old & Hj & Ho & Hne) Hall. by apply Hne, (Forall_lookup_1 _ _ _ _ Hall Hj).
  - by rewrite bool_decide_eq_true.
  - rewrite Z.gtb_ltb. simpl. destruct (Z.ltb_spec (maxIndex ts) index); simpl; lia.
  - intros j rs Hj. assert (srvs (if index >? maxIndex (set_logs ts i me (<[index := v]> (logs me))) then
      MkTest (srvs (set_logs ts i me (<[index := v]> (logs me)))) index else set_logs ts i me (<[index := v]> (logs me))) =
      <[i := MkRaftServer (applyErr me) (<[index := v]> (logs me))]> (srvs ts)) as -> by (by destruct (_ >? _)).
    destruct (decide (j = i)) as [->|Hne].
    + rewrite Hi in Hj. injection Hj as <-. rewrite list_lookup_insert_eq by (by eapply lookup_lt_Some). eauto.
    + rewrite list_lookup_insert_ne by done. eauto.
Qed.

End System.

(** ** Polling the servers

    A poll is what GetState returned for a connected server ([None] for a
    server that is not connected). *)

Abbreviation Poll := (option (Z * bool)).

(** [leaders[term] = append(leaders[term], i)] for the polls from server [i]
    on. *)
Fixpoint leaders_of (i : nat) (polls : list Poll) (leaders : gmap Z (list nat)) : gmap Z (list nat) :=
  match polls with
  | [] => leaders
  | poll :: polls =>
      leaders_of (S i) polls
        match poll with
        | Some (term, true) => <[term := default [] (leaders !! term) ++ [i]]> leaders
        | _ => leaders
        end
  end.

Inductive Verdict : Type := FoundLeader (i : nat) | MultipleLeaders | NoLeader | IndexPanic.

(** One iteration of [checkOneLeader]. *)
Definition leader_round (polls : list Poll) : Verdict :=
  let leaders := leaders_of 0 polls ∅ in
  if existsb (fun '(_, l) => 1 <? len l) (map_to_list leaders) then MultipleLeaders
  else
    let lastTermWithLeader := foldr (fun '(term, _) m => if term >? m then term else m) (-1) (map_to_list leaders) in
    if (size leaders =? 0)%nat then NoLeader
    else match leaders !! lastTermWithLeader with
         | Some (i :: _) => FoundLeader i
         | _ => IndexPanic
         end.

(** The loop: a round without a leader is followed by the next, ten at most. *)
Fixpoint checkOneLeader (iters : nat) (rounds : list (list Poll)) : Verdict :=
  match iters, rounds with
  | S iters, polls :: rounds =>
      match leader_round polls with
      | NoLeader => checkOneLeader iters rounds
      | v => v
      end
  | _, _ => NoLeader
  end.

(** [checkTerms]: [None] is the Fatal for servers that disagree. *)
Fixpoint checkTerms (term : Z) (polls : list Poll) : option Z :=
  match polls with
  | [] => Some term
  | Some (xterm, _) :: polls =>
      if term =? -1 then checkTerms xterm polls
      else if negb (term =? xterm) then None
      else checkTerms term polls
  | None :: polls => checkTerms term polls
  end.

(** [checkNoLeader]: false is the Fatal. *)
Definition checkNoLeader (polls : list Poll) : bool :=
  forallb (fun poll => match poll with Some (_, true) => false | _ => true end) polls.

Definition leads (polls : list Poll) (i : nat) (t : Z) : Prop := polls !! i = Some (Some (t, true)).

#[export] Instance leads_dec polls i t : Decision (leads polls i t).
Proof. unfold leads. apply _. Defined.

(** *** What the loop over the polls collects *)

Lemma leads_shift poll polls t (l : list nat) :
  filter (fun k => leads (poll :: polls) k t) (S <$> l) = S <$> filter (fun k => leads polls k t) l.
Proof.
  induction l as [|k l IH]; [done|]. rewrite fmap_cons, !filter_cons, IH.
  destruct (decide (leads (poll :: polls) (S k) t)) as [H1|H1], (decide (leads polls k t)) as [H2|H2]; try done; by destruct (H1 H2) || destruct (H2 H1).
Qed.

Lemma leaders_of_spec i polls m t :
  leaders_of i polls m !! t =
    let l := (fun k => (i + k)%nat) <$> filter (fun k => leads polls k t) (seq 0 (length polls)) in
    match m !! t, l with Some l0, _ => Some (l0 ++ l) | None, [] => None | None, _ => Some l end.
Proof.
  revert i m. induction polls as [|poll polls IH]; intros i m; cbn [leaders_of length seq].
  { simpl. destruct (m !! t); [by rewrite app_nil_r|done]. }
  rewrite IH. cbv zeta. clear IH.
  assert (filter (fun k => leads (poll :: polls) k t) (0%nat :: seq 1 (length polls)) =
    (if decide (poll = Some (t, true)) then [0%nat] else []) ++ (S <$> filter (fun k => leads polls k t) (seq 0 (length polls)))) as ->.
  { rewrite filter_cons. assert (filter (fun k => leads (poll :: polls) k t) (seq 1 (length polls)) =
      S <$> filter (fun k => leads polls k t) (seq 0 (length polls))) as ->.
    { rewrite <-fmap_S_seq. apply leads_shift. }
    unfold leads at 1. simpl. case_decide as H1; case_decide as H2; try done; congruence. }
  rewrite fmap_app, <-list_fmap_compose.
  rewrite (list_fmap_ext ((fun k => (i + k)%nat) ∘ S) (fun k => (S i + k)%nat)) by (intros; simpl; lia).
  destruct poll as [[term []]|]; simpl.
  - destruct (decide (term = t)) as [->|Hne].
    + rewrite lookup_insert_eq, decide_True by done. simpl. rewrite Nat.add_0_r. destruct (m !! t); simpl; [by rewrite <-app_assoc|done].
    + rewrite lookup_insert_ne, decide_False by congruence. done.
  - rewrite decide_False by congruence. done.
  - done.
Qed.

(** The servers that lead in term [t], in order. *)
Definition leaders_in (polls : list Poll) (t : Z) : list nat := filter (fun k => leads polls k t) (seq 0 (length polls)).

Lemma leaders_lookup polls t : leaders_of 0 polls ∅ !! t = match leaders_in polls t with [] => None | l => Some l end.
Proof.
  rewrite leaders_of_spec, lookup_empty. cbv zeta. rewrite (list_fmap_ext (fun k => (0 + k)%nat) id) by done. rewrite list_fmap_id. unfold leaders_in. by destruct (filter _ _).
Qed.

Lemma elem_of_leaders_in polls t i : i ∈ leaders_in polls t <-> leads polls i t.
Proof.
  unfold leaders_in. rewrite list_elem_of_filter, elem_of_seq. split; [by intros [? _]|]. intros Hl. split; [done|].
  apply lookup_lt_Some in Hl. lia.
Qed.

Lemma last_term_spec (l : list (Z * list nat)) : Forall (fun x => 0 <= x.1) l ->
  let last := foldr (fun '(term, _) m => if term >? m then term else m) (-1) l in
  (l = [] \/ exists x, x ∈ l /\ x.1 = last) /\ Forall (fun x => x.1 <= last) l.
Proof.
  intros Hl. cbv zeta. induction Hl as [|[t x] l Ht Hl IH]; [split; [by left|constructor]|]. simpl in *. destruct IH as [Hin Hmax].
  set (m := foldr _ _ l) in *. rewrite Z.gtb_ltb. destruct (Z.ltb_spec m t) as [Hlt|Hge]; split.
  - right. exists (t, x). split; [by left|done].
  - constructor; simpl; [lia|]. eapply Forall_impl; [exact Hmax|]. simpl. lia.
  - right. destruct Hin as [->|(y & Hy & <-)]; [unfold m in Hge; simpl in Hge; lia|]. exists y. split; [by right|done].
  - by constructor.
Qed.

(** One round of polls in which no term has two leaders. *)
Lemma leader_round_spec polls : (forall i t, leads polls i t -> 0 <= t) ->
  (forall i j t, leads polls i t -> leads polls j t -> i = j) ->
  match leader_round polls with
  | FoundLeader i => exists t, leads polls i t /\ forall j t', leads polls j t' -> t' <= t
  | NoLeader => forall i t, ~ leads polls i t
  | MultipleLeaders | IndexPanic => False
  end.
Proof.
  intros Hpos Huniq. unfold leader_round. cbv zeta.
  assert (forall t l, (t, l) ∈ map_to_list (leaders_of 0 polls ∅) -> exists i, l = [i] /\ leads polls i t) as Hone.
  { intros t l Hin%elem_of_map_to_list. rewrite leaders_lookup in Hin. pose proof (elem_of_leaders_in polls t) as Hel.
    assert (NoDup (leaders_in polls t)) as Hnd by (apply NoDup_filter, NoDup_seq).
    destruct (leaders_in polls t) as [|i [|j r]]; [done|..]; simplify_eq.
    - exists i. split; [done|]. apply Hel. by left.
    - exfalso. apply NoDup_cons in Hnd as [Hni _]. apply Hni. assert (i = j) as ->; [|by left].
      apply (Huniq i j t); apply Hel; [by left|right; by left]. }
  assert (existsb (fun '(_, l) => 1 <? len l) (map_to_list (leaders_of 0 polls ∅)) = false) as ->.
  { apply not_true_iff_false. intros ([t l] & Hin & Hl)%existsb_exists. apply list_elem_of_In, Hone in Hin as (i & -> & _). done. }
  destruct (Nat.eqb_spec (size (leaders_of 0 polls ∅)) 0) as [Hz|Hz].
  - intros i t Hl%elem_of_leaders_in. apply map_size_empty_iff in Hz. pose proof (leaders_lookup polls t) as Ht. rewrite Hz, lookup_empty in Ht.
    destruct (leaders_in polls t); [by apply elem_of_nil in Hl|done].
  - destruct (last_term_spec (map_to_list (leaders_of 0 polls ∅))) as [Hin Hmax].
    { apply Forall_forall. intros [t l] (i & -> & Hl)%Hone. simpl. by eapply Hpos. }
    set (last := foldr _ _ _) in *. destruct Hin as [Hnil|([t l] & Hin & Ht)].
    { apply map_to_list_empty_iff in Hnil. rewrite Hnil in Hz. by rewrite map_size_empty in Hz. }
    simpl in Ht. subst t. destruct (Hone _ _ Hin) as (i & -> & Hi). apply elem_of_map_to_list in Hin. rewrite Hin.
    exists last. split; [done|]. intros j t' Hj. rewrite Forall_forall in Hmax. pose proof (leaders_lookup polls t') as Hl.
    apply elem_of_leaders_in in Hj as Hel. destruct (leaders_in polls t') as [|x r] eqn:Hlr; [by apply elem_of_nil in Hel|].
    apply elem_of_map_to_list in Hl. by apply Hmax in Hl.
Qed.

(** *** Polling a running cluster *)

Section Polls.
Context {Cmd : Type} `{GZ : Gob Z} `{GL : Gob (list (LogEntry Cmd))} (n : nat).
Implicit Types (s : Cluster Cmd) (a : @Abs Cmd).

(** The server is not connected, the RPC fails (the reply keeps its zero
    value), or GetState answers. *)
Definition poll_of (p : Proc Cmd) (how : option bool) : Poll :=
  match how with
  | None => None
  | Some false => Some (0, false)
  | Some true => Some (GetState (raft p))
  end.

(** The loop over the servers; the cluster runs on before each poll. *)
Fixpoint poll_servers s (i : nat) (sched : list (list (Label Cmd) * option bool)) : option (list Poll * Cluster Cmd) :=
  match sched with
  | [] => Some ([], s)
  | (ls, how) :: sched =>
      match run s ls with
      | Next s' => p ← procs s' !! i; '(polls, s'') ← poll_servers s' (S i) sched; Some (poll_of p how :: polls, s'')
      | _ => None
      end
  end.

Fixpoint poll_rounds s (rounds : list (list (list (Label Cmd) * option bool))) : option (list (list Poll)) :=
  match rounds with
  | [] => Some []
  | sched :: rounds => '(polls, s') ← poll_servers s 0 sched; r ← poll_rounds s' rounds; Some (polls :: r)
  end.

(** A state that runs reach, with the abstract state it stands for. *)
Definition reached s a : Prop := coupled n s a /\ a_reachable n a.

(** Server [i] was elected in term [t], now or before. *)
Definition elected a (t : Z) (i : nat) : Prop := exists T, tlog a t = Some (i, T).

Lemma rtc_le a a' : a_inv n a -> rtc (astep n) a a' -> a_le a a'.
Proof.
  intros Hinv Hr. induction Hr as [a|a b c Hab Hbc IH]; [constructor; auto using tl_ext_refl; lia|].
  destruct (step_le n _ _ Hinv Hab) as [C1 D1 V1 T1 K1], (IH (step_inv n _ _ Hinv Hab)) as [C2 D2 V2 T2 K2].
  constructor; eauto using tl_ext_trans. intros i. specialize (C1 i). specialize (C2 i). lia.
Qed.

Lemma elected_le a a' t i : a_le a a' -> elected a t i -> elected a' t i.
Proof. intros Hle [T HT]. destruct (le_tlog _ _ Hle _ _ _ HT) as (T' & HT' & _). by exists T'. Qed.

Lemma leader_elected s a i p : reached s a -> procs s !! i = Some p -> state (raft p) = Leader ->
  elected a (currentTerm (raft p)) i /\ 0 <= currentTerm (raft p).
Proof.
  intros [Hc Hr] Hp Hl. pose proof (cp_procs _ _ _ Hc _ _ Hp) as Hok. rewrite (no_term _ _ _ _ Hok). split.
  - apply (vi_leader _ _ (a_votes _ _ (cp_inv _ _ _ Hc))). rewrite <-Hl. symmetry. apply Hok.
  - apply (le_cur _ _ (rtc_le _ _ (a_init_inv n) Hr) i).
Qed.

Lemma poll_servers_ok s a i sched polls s' : reached s a -> poll_servers s i sched = Some (polls, s') ->
  exists a', reached s' a' /\ rtc (astep n) a a' /\ forall k t, leads polls k t -> elected a' t (i + k) /\ 0 <= t.
Proof.
  revert s a i polls. induction sched as [|[ls how] sched IH]; intros s a i polls [Hc Hr] Hp; simpl in Hp.
  { injection Hp as <- <-. exists a. by split_and!. }
  destruct (run_sim n s a ls Hc) as (s1 & a1 & Hrun & Hst & Hc1). rewrite Hrun in Hp.
  destruct (procs s1 !! i) as [p|] eqn:Hpi; [|done]. cbn [mbind option_bind] in Hp.
  destruct (poll_servers s1 (S i) sched) as [[polls1 s2]|] eqn:Hps; [|done]. cbn [mbind option_bind] in Hp. injection Hp as <- <-.
  assert (reached s1 a1) as Hr1 by (split; [done|unfold a_reachable in *; by etrans]).
  destruct (IH s1 a1 (S i) polls1 Hr1 Hps) as (a2 & Hreach & Hst2 & Hel). exists a2. split_and!; [done|by etrans|].
  intros [|k] t Hk; unfold leads in Hk; simpl in Hk.
  - destruct how as [[]|]; [|done..]. unfold poll_of, GetState in Hk. injection Hk as Ht Hl. subst t. apply bool_decide_eq_true in Hl.
    rewrite Nat.add_0_r. destruct (leader_elected s1 a1 i p Hr1 Hpi Hl). split; [|done].
    apply (elected_le a1 a2); [|done]. apply rtc_le; [apply Hc1|done].
  - destruct (Hel k t Hk). by rewrite Nat.add_succ_r.
Qed.

Lemma elected_once a t i j : elected a t i -> elected a t j -> i = j.
Proof. intros [T HT] [T' HT']. congruence. Qed.

(** The polls of a round never show two leaders of a term. *)
Definition round_ok (polls : list Poll) : Prop :=
  (forall i t, leads polls i t -> 0 <= t) /\ forall i j t, leads polls i t -> leads polls j t -> i = j.

Lemma poll_rounds_ok s a rounds rs : reached s a -> poll_rounds s rounds = Some rs -> Forall round_ok rs.
Proof.
  revert s a rs. induction rounds as [|sched rounds IH]; intros s a rs Hr Hp; simpl in Hp; [by simplify_eq; constructor|].
  destruct (poll_servers s 0 sched) as [[polls s1]|] eqn:Hps; [|done]. cbn [mbind option_bind] in Hp.
  destruct (poll_rounds s1 rounds) as [rs1|] eqn:Hrs; [|done]. cbn [mbind option_bind] in Hp. injection Hp as <-.
  destruct (poll_servers_ok _ _ _ _ _ _ Hr Hps) as (a1 & Hr1 & _ & Hel). constructor; [|by eapply IH]. split.
  - intros i t Hl. by apply (Hel i).
  - intros i j t Hi Hj. apply (elected_once a1 t); [apply (Hel i), Hi|apply (Hel j), Hj].
Qed.

Lemma checkOneLeader_rounds iters rs : Forall round_ok rs ->
  match checkOneLeader iters rs with
  | FoundLeader i => exists polls t, polls ∈ rs /\ leads polls i t /\ forall j t', leads polls j t' -> t' <= t /\ (t' = t -> j = i)
  | NoLeader => forall polls i t, polls ∈ take iters rs -> ~ leads polls i t
  | MultipleLeaders | IndexPanic => False
  end.
Proof.
  intros Hrs. revert iters. induction Hrs as [|polls rs [Hpos Huniq] Hrs IH]; intros [|iters]; simpl; try (intros q i t Hin; by apply elem_of_nil in Hin).
  pose proof (leader_round_spec polls Hpos Huniq) as Hround. destruct (leader_round polls) as [i| | |]; [|done| |done].
  - destruct Hround as (t & Hl & Hmax). exists polls, t. split_and!; [by left|done|]. intros j t' Hj. split; [by eapply Hmax|]. intros ->. eauto.
  - specialize (IH iters). destruct (checkOneLeader iters rs) as [i| | |]; [|done| |done].
    + destruct IH as (q & t & Hin & Hq). exists q, t. split; [by right|done].
    + intros q i t Hin. apply elem_of_cons in Hin as [->|Hin]; [apply Hround|by apply IH].
Qed.

(** CheckOneLeader never finds two leaders of one term.  The
    servers are polled one after the other while the cluster runs on, over up
    to ten rounds; whatever happens in between, the check never fails with
    "multiple leaders" nor panics; a leader it returns is the one leader of the
    highest term seen in its round; and it finds none only if no server led
    when it was polled. *)
Theorem checkOneLeader_finds_the_leader (ls : list (Label Cmd)) s rounds rs :
  start_run n ls = Next s -> poll_rounds s rounds = Some rs ->
  match checkOneLeader 10 rs with
  | FoundLeader i => exists polls t, polls ∈ rs /\ leads polls i t /\ forall j t', leads polls j t' -> t' <= t /\ (t' = t -> j = i)
  | NoLeader => forall polls i t, polls ∈ take 10 rs -> ~ leads polls i t
  | MultipleLeaders | IndexPanic => False
  end.
Proof.
  intros Hs Hp. apply checkOneLeader_rounds. destruct (start_run_sim n ls) as (s' & a & Hs' & Hr & Hc). rewrite Hs in Hs'. injection Hs' as <-.
  by apply (poll_rounds_ok s a rounds).
Qed.

End Polls.

(** ** A concrete run

    The run of RaftSafety.v with test servers: peers 0 and 1 apply the
    command and report it, and both reports are in the tester's copies. *)

Definition server_round (i : nat) : list (@TStep nat) := [TApply i; TRecv i; TRun i; TRun i; TRun i].

Definition example_test : list (@TStep nat) :=
  [TRaft (LElection 0 1); TRaft (LVoteRequest 0 0 1); TRaft (LVote 0 2); TRaft (LVoteReply 0 1 3); TStart 0 7%nat;
   TRaft (LReplicate 0 1); TRaft (LAppend 2 4); TRaft (LAppendReply 3)] ++ server_round 0 ++
  [TRaft (LReplicate 0 1); TRaft (LAppend 4 5)] ++ server_round 1.

Example example_test_counts :
  match test_run 3 true example_test with TNext s => nCommitted (t_tester s) 1 | _ => None end = Some (2, Some 7%nat).
Proof. vm_compute. reflexivity. Qed.

(** A tester in which server 0 has applied 7 at index 1, and server 1 reports
    an 8 there. *)
Definition split_tester : Test nat := MkTest [MkRaftServer NoError {[1 := Some 7%nat]}; newRaftServer] 1.

Lemma CheckLogs_detects_witness : exists ts' err prevok,
  CheckLogs split_tester 1 (Some 8%nat) 1 = Some (ts', (err, prevok)) /\ err <> NoError.
Proof.
  destruct (CheckLogs_detects split_tester 1 newRaftServer (Some 8%nat) 1 eq_refl) as (ts' & err & prevok & Hc & Herr & _).
  exists ts', err, prevok. split; [exact Hc|]. apply Herr.
  exists 0%nat, (MkRaftServer NoError {[1 := Some 7%nat]}), (Some 7%nat). split; [reflexivity|]. split; [reflexivity|discriminate].
Defined.

(** Two rounds of polls of the running cluster. *)
Definition example_polls : list (list (list (Label nat) * option bool)) :=
  [[([], Some true); ([LElection 1 9], Some true); ([], None)]; [([], Some true); ([], Some true); ([], Some true)]].

Lemma checkOneLeader_finds_the_leader_witness : exists rs polls t,
  poll_rounds example_state example_polls = Some rs /\ leads polls 0 t.
Proof.
  destruct (poll_rounds example_state example_polls) as [rs|] eqn:Hrs; [|vm_compute in Hrs; discriminate].
  pose proof (checkOneLeader_finds_the_leader 3 example_run example_state example_polls rs) as H.
  assert (checkOneLeader 10 rs = FoundLeader 0) as Hv by (vm_compute in Hrs; injection Hrs as <-; vm_compute; reflexivity).
  rewrite Hv in H. destruct H as (polls & t & _ & Hl & _); [vm_compute; reflexivity|exact Hrs|]. exists rs, polls, t. split; [reflexivity|exact Hl].
Defined.
