(* ===== verification/RaftAgree.v ===== *)
(** * Test.one and Test.wait (src/raft1/test.go)

    [one] drives a whole agreement: it looks for a server that accepts the
    command, then polls the tester's copies until enough servers have applied
    it.  [wait] polls for an index.  Here they run against the system of
    RaftTester.v, which goes on by itself between any two of their actions:
    what they return is what the servers have applied. *)

From S2P Require Import Prelude Persister Raft RaftNode RaftSpec RaftCluster RaftRefine RaftApply RaftTester.

Section Agree.
Context {Cmd : Type} `{EqDecision Cmd} `{GZ : Gob Z} `{GX : Gob (list (option Cmd))} `{GL : Gob (list (LogEntry Cmd))}.
Variables (n : nat) (snapshot : bool).
Implicit Types (s : @System Cmd) (cmd : Cmd).

(** What the system does between two actions of the tester. *)
Abbreviation pause := (list (@TStep Cmd)) (only parsing).

Definition after s (ls : pause) : option (@System Cmd) := match trun snapshot s ls with TNext s' => Some s' | _ => None end.

(** [rf.Start(cmd)] at server [i]: the index, if it says it is the leader. *)
Definition start_at s (i : nat) cmd : option (@System Cmd * option Z) :=
  p ← procs (t_cluster s) !! i;
  match Start (raft p) cmd with
  | Some (_, (index1, _, ok)) => s' ← after s [TStart i cmd]; Some (s', if ok then Some index1 else None)
  | None => None
  end.

(** The loop over the servers, which goes on from the server tried last; a
    server that is not connected is skipped. *)
Fixpoint one_start s (starts : nat) cmd (sched : list (pause * bool)) : option (@System Cmd * nat * option Z) :=
  match sched with
  | [] => Some (s, starts, None)
  | (ls, connected) :: sched =>
      s ← after s ls;
      let starts := ((starts + 1) mod n)%nat in
      if connected then
        '(s, index) ← start_at s starts cmd;
        match index with
        | Some index => Some (s, starts, Some index)
        | None => one_start s starts cmd sched
        end
      else one_start s starts cmd sched
  end.

(** The polls of two seconds: has the command been applied widely enough? *)
Fixpoint one_poll s (index : Z) cmd (expectedServers : Z) (polls : list pause) : option (@System Cmd * bool) :=
  match polls with
  | [] => Some (s, false)
  | ls :: polls =>
      s ← after s ls;
      '(nd, cmd1) ← nCommitted (t_tester s) index;
      if (nd >? 0) && (nd >=? expectedServers) && bool_decide (cmd1 = Some cmd) then Some (s, true)
      else one_poll s index cmd expectedServers polls
  end.

(** [Test.one]: the rounds of ten seconds, each with one attempt per server
    and its polls.  [None] is a Fatal; the index is missing when the test was
    finished meanwhile. *)
Fixpoint one s (starts : nat) cmd (expectedServers : Z) (retry finished : bool)
    (rounds : list (list (pause * bool) * list pause)) : option (@System Cmd * option Z) :=
  match rounds with
  | [] => if finished then Some (s, None) else None
  | (sched, polls) :: rounds =>
      '(s, starts, index) ← one_start s starts cmd (take n sched);
      match index with
      | Some index =>
          match one_poll s index cmd expectedServers polls with
          | None => None
          | Some (s, true) => Some (s, Some index)
          | Some (s, false) => if negb retry then None else one s starts cmd expectedServers retry finished rounds
          end
      | None => one s starts cmd expectedServers retry finished rounds
      end
  end.

(** [Test.wait]: [None] is a Fatal, the inner [None] the -1 for a server that
    has moved on to a later term. *)
Fixpoint wait_loop (iters : nat) s (index want startTerm : Z) (polls : list pause) : option (@System Cmd * bool) :=
  match iters, polls with
  | S iters, ls :: polls =>
      '(nd, _) ← nCommitted (t_tester s) index;
      if nd >=? want then Some (s, true)
      else
        s ← after s ls;
        if (startTerm >? -1) && existsb (fun p => fst (GetState (raft p)) >? startTerm) (procs (t_cluster s)) then Some (s, false)
        else wait_loop iters s index want startTerm polls
  | _, _ => Some (s, true)
  end.

Definition wait s (index want startTerm : Z) (polls : list pause) : option (@System Cmd * option (option Cmd)) :=
  match wait_loop 30 s index want startTerm polls with
  | None => None
  | Some (s, false) => Some (s, None)
  | Some (s, true) => '(nd, cmd) ← nCommitted (t_tester s) index; if nd <? want then None else Some (s, Some cmd)
  end.

(** ** What they return *)

Lemma after_ok s ls s' : sys_ok n snapshot s -> after s ls = Some s' -> sys_ok n snapshot s'.
Proof.
  unfold after. revert s. induction ls as [|l ls IH]; intros s Hs Ha; simpl in Ha; [by injection Ha as <-|].
  pose proof (texec_ok n snapshot s l Hs) as Hl. destruct (texec snapshot s l); [by eapply IH|done|by eapply IH].
Qed.

Lemma start_at_ok s i cmd s' index : sys_ok n snapshot s -> start_at s i cmd = Some (s', index) ->
  sys_ok n snapshot s' /\ forall k, index = Some k -> 0 < k.
Proof.
  intros Hs Hst. unfold start_at in Hst. destruct (procs (t_cluster s) !! i) as [p|] eqn:Hp; [|done]. cbn [mbind option_bind] in Hst.
  destruct (Start (raft p) cmd) as [[rf [[index1 t] ok]]|] eqn:HS; [|done].
  destruct (after s [TStart i cmd]) as [s1|] eqn:Ha; [|done]. cbn [mbind option_bind] in Hst. injection Hst as <- <-.
  split; [by eapply after_ok|]. intros k Hk. destruct ok; [|done]. injection Hk as <-.
  destruct (ho_coupled _ _ _ _ _ (sy_hist _ _ _ Hs)) as [a Ha']. pose proof (no_wf _ _ _ _ (cp_procs _ _ _ Ha' _ _ Hp)) as Hwf.
  pose proof (wf_lii _ Hwf). pose proof (lastLogIndex_ge _ Hwf). unfold Start, mbind, option_bind in HS. destruct (negb _); [done|].
  repeat (case_match; [|done]). simplify_eq. lia.
Qed.

Lemma one_start_ok s starts cmd sched s' starts' index : sys_ok n snapshot s -> one_start s starts cmd sched = Some (s', starts', index) ->
  sys_ok n snapshot s' /\ forall k, index = Some k -> 0 < k.
Proof.
  revert s starts. induction sched as [|[ls connected] sched IH]; intros s starts Hs H; simpl in H; [by simplify_eq|].
  destruct (after s ls) as [s1|] eqn:Ha; [|done]. cbn [mbind option_bind] in H. apply after_ok in Ha as Hs1; [|done].
  destruct connected; [|by eapply IH]. destruct (start_at s1 _ cmd) as [[s2 r]|] eqn:Hst; [|done]. cbn [mbind option_bind] in H.
  destruct (start_at_ok _ _ _ _ _ Hs1 Hst) as [Hs2 Hr]. destruct r as [k|]; [by simplify_eq|by eapply IH].
Qed.

(** The servers that have applied the command at the index. *)
Definition applied_at s (index : Z) cmd : list (raftServer Cmd) :=
  filter (fun rs => logs rs !! index = Some (Some cmd)) (srvs (t_tester s)).

Lemma nCommitted_ok s index : sys_ok n snapshot s -> 0 < index -> exists v,
  nCommitted (t_tester s) index = Some (len (filter (fun rs => is_Some (entry rs index)) (srvs (t_tester s))), v) /\
  (0 < len (filter (fun rs => is_Some (entry rs index)) (srvs (t_tester s))) -> v = t_log s !! Z.to_nat (index - 1)).
Proof.
  intros Hs Hi. apply (count_ok (t_log s) index _ 0 None); [done..| |lia]. apply Forall_lookup. apply (to_srvs _ _ _ (sy_tester _ _ _ Hs)).
Qed.

(** On such a system all who have applied the index have applied the command
    of the log. *)
Lemma filter_pointwise {A : Type} (P Q : A -> Prop) `{!forall x, Decision (P x)} `{!forall x, Decision (Q x)} (l : list A) :
  Forall (fun x => P x <-> Q x) l -> filter P l = filter Q l.
Proof.
  induction 1 as [|x l Hx Hl IH]; [done|]. rewrite !filter_cons, IH. destruct (decide (P x)), (decide (Q x)); tauto.
Qed.

Lemma applied_all s index cmd : sys_ok n snapshot s -> 0 < index -> t_log s !! Z.to_nat (index - 1) = Some cmd ->
  applied_at s index cmd = filter (fun rs => is_Some (entry rs index)) (srvs (t_tester s)).
Proof.
  intros Hs Hi Hc. unfold applied_at. apply filter_pointwise. apply Forall_lookup. intros j rs Hj.
  destruct (to_srvs _ _ _ (sy_tester _ _ _ Hs) _ _ Hj) as [_ Hl]. unfold entry. split; [by intros ->|].
  intros [v Hv]. rewrite Hv. destruct (Hl _ _ Hv) as [[? _]|(_ & c & -> & Hc')]; [lia|]. congruence.
Qed.

(** A check that passes. *)
Lemma nCommitted_agreed s index nd cmd : sys_ok n snapshot s -> 0 < index -> nCommitted (t_tester s) index = Some (nd, Some cmd) -> 0 < nd ->
  t_log s !! Z.to_nat (index - 1) = Some cmd /\ len (applied_at s index cmd) = nd.
Proof.
  intros Hs Hi Hn Hnd. destruct (nCommitted_ok s index Hs Hi) as (cmd' & Heq & Hlog). rewrite Hn in Heq. injection Heq as Hnd' Hc.
  rewrite <-Hnd', <-Hc in Hlog. specialize (Hlog Hnd). split; [done|]. by rewrite (applied_all s index cmd).
Qed.

Lemma one_poll_agreed s index cmd expected polls s' : sys_ok n snapshot s -> 0 < index ->
  forall b, one_poll s index cmd expected polls = Some (s', b) ->
  sys_ok n snapshot s' /\ (b = true -> t_log s' !! Z.to_nat (index - 1) = Some cmd /\ Z.max 1 expected <= len (applied_at s' index cmd)).
Proof.
  intros Hs Hi b. revert s Hs. induction polls as [|ls polls IH]; intros s Hs H; simpl in H; [by simplify_eq|].
  destruct (after s ls) as [s1|] eqn:Ha; [|done]. cbn [mbind option_bind] in H. apply after_ok in Ha as Hs1; [|done].
  destruct (nCommitted (t_tester s1) index) as [[nd cmd1]|] eqn:Hn; [|done]. cbn [mbind option_bind] in H.
  destruct (_ && _) eqn:Hc; [|by eapply IH]. injection H as <- <-. split; [done|]. intros _.
  apply andb_prop in Hc as [[H1 H2]%andb_prop Hc]. apply bool_decide_eq_true in Hc as ->. rewrite Z.gtb_ltb in H1. apply Z.ltb_lt in H1.
  rewrite Z.geb_leb in H2. apply Z.leb_le in H2. destruct (nCommitted_agreed s1 index nd cmd); auto. split; [done|]. lia.
Qed.

Lemma one_agreed s starts cmd expected retry finished rounds s' index : sys_ok n snapshot s ->
  one s starts cmd expected retry finished rounds = Some (s', Some index) ->
  0 < index /\ t_log s' !! Z.to_nat (index - 1) = Some cmd /\ Z.max 1 expected <= len (applied_at s' index cmd).
Proof.
  revert s starts. induction rounds as [|[sched polls] rounds IH]; intros s starts Hs H; simpl in H; [by destruct finished|].
  destruct (one_start s starts cmd (take n sched)) as [[[s1 starts1] r]|] eqn:Hst; [|done]. cbn [mbind option_bind] in H.
  destruct (one_start_ok _ _ _ _ _ _ _ Hs Hst) as [Hs1 Hpos]. destruct r as [k|]; [|by eapply IH].
  destruct (one_poll s1 k cmd expected polls) as [[s2 b]|] eqn:Hp; [|done].
  destruct (one_poll_agreed _ _ _ _ _ _ Hs1 (Hpos k eq_refl) _ Hp) as [Hs2 Hb].
  destruct b; [injection H as <- <-; destruct (Hb eq_refl); auto|]. destruct retry; [exact (IH _ _ Hs2 H)|done].
Qed.

(** C22 (functional): when one() returns an index, the agreement is real.
    Whatever the servers, the network and crashes do while it runs, the
    command it was given is the command of the log at that index, and at least
    the expected number of servers (and at least one) have applied it there. *)
Theorem one_reaches_agreement (ls : pause) s starts cmd (expectedServers : Z) retry finished rounds s' index :
  test_run n snapshot ls = TNext s -> one s starts cmd expectedServers retry finished rounds = Some (s', Some index) ->
  0 < index /\ t_log s' !! Z.to_nat (index - 1) = Some cmd /\ Z.max 1 expectedServers <= len (applied_at s' index cmd).
Proof.
  intros Hrun. destruct (test_run_ok n snapshot ls) as (s0 & Hrun' & Hs). rewrite Hrun in Hrun'. injection Hrun' as <-. by apply one_agreed.
Qed.

Lemma wait_loop_ok iters s index want startTerm polls s' b : sys_ok n snapshot s ->
  wait_loop iters s index want startTerm polls = Some (s', b) -> sys_ok n snapshot s'.
Proof.
  revert s polls. induction iters as [|iters IH]; intros s polls Hs H; [simpl in H; by simplify_eq|]. destruct polls as [|ls polls]; simpl in H; [by simplify_eq|].
  destruct (nCommitted (t_tester s) index) as [[nd c]|]; [|done]. cbn [mbind option_bind] in H. destruct (nd >=? want); [by simplify_eq|].
  destruct (after s ls) as [s1|] eqn:Ha; [|done]. cbn [mbind option_bind] in H. apply after_ok in Ha; [|done].
  destruct (_ && _); [by simplify_eq|by eapply IH].
Qed.

(** A wait() that returns a command returns the one of the log, and as many
    servers as it waited for have applied it. *)
Theorem wait_returns_applied (ls : pause) s (index want startTerm : Z) polls s' cmd :
  test_run n snapshot ls = TNext s -> 0 < index -> 0 < want -> wait s index want startTerm polls = Some (s', Some (Some cmd)) ->
  t_log s' !! Z.to_nat (index - 1) = Some cmd /\ want <= len (applied_at s' index cmd).
Proof.
  intros Hrun Hi Hw H. destruct (test_run_ok n snapshot ls) as (s0 & Hrun' & Hs). rewrite Hrun in Hrun'. injection Hrun' as <-.
  unfold wait in H. destruct (wait_loop 30 s index want startTerm polls) as [[s1 b]|] eqn:Hl; [|done].
  apply wait_loop_ok in Hl; [|done]. destruct b; [|done].
  destruct (nCommitted (t_tester s1) index) as [[nd c]|] eqn:Hn; [|done]. cbn [mbind option_bind] in H.
  destruct (Z.ltb_spec nd want); [done|]. simplify_eq. destruct (nCommitted_agreed s' index nd cmd); auto; [lia|]. split; [done|lia].
Qed.

End Agree.

(** ** Witness

    Peer 0 is elected; [one] finds it after peer 1 has refused, and returns
    once two servers have applied the command. *)

Definition elected_0 : list (@TStep nat) :=
  [TRaft (LElection 0 1); TRaft (LVoteRequest 0 0 1); TRaft (LVote 0 2); TRaft (LVoteReply 0 1 3)].

Definition one_rounds : list (list (list (@TStep nat) * bool) * list (list (@TStep nat))) :=
  [([([], true); ([], false); ([], true)],
    [[TRaft (LReplicate 0 1); TRaft (LAppend 2 4); TRaft (LAppendReply 3)] ++ server_round 0;
     [TRaft (LReplicate 0 1); TRaft (LAppend 4 5)] ++ server_round 1])].

Definition elected_sys : @System nat :=
  Eval vm_compute in match test_run 3 true elected_0 with TNext s => s | _ => MkSystem (MkCluster [] [] []) [] (MkTest [] 0) [] end.

Lemma one_reaches_agreement_witness : exists s', one 3 true elected_sys 0 7%nat 2 true false one_rounds = Some (s', Some 1) /\
  t_log s' !! 0%nat = Some 7%nat /\ 2 <= len (applied_at s' 1 7%nat).
Proof.
  destruct (one 3 true elected_sys 0 7%nat 2 true false one_rounds) as [[s' r]|] eqn:Hone; [|vm_compute in Hone; discriminate].
  assert (r = Some 1) as -> by (vm_compute in Hone; injection Hone as _ <-; reflexivity).
  destruct (one_reaches_agreement 3 true elected_0 elected_sys 0 7%nat 2 true false one_rounds s' 1) as (_ & Hl & Hn);
    [vm_compute; reflexivity|exact Hone|]. exists s'. split; [reflexivity|]. split; [exact Hl|exact Hn].
Defined.
