(* ===== verification/Rsm.v ===== *)
(** * The replicated state machine layer (src/kvraft1/rsm/rsm.go)

    RSM sits between Raft and a service: Submit hands an operation to Raft
    and waits for it, the reader applies what Raft commits and answers the
    waiters.  The service is the interface [StateMachine]; its laws are what
    KvRaft.v and ShardGrp.v prove about their servers.  Raft appears through
    its interface only: the results of Start and GetState and the messages of
    the apply channel. *)

From S2P Require Import Prelude Rpc Raft.

(** ** The service interface *)

Class StateMachine (S Req Rep : Type) : Type := {
  DoOp : S -> Req -> S * Rep;
  SM_Snapshot : S -> bytes;
  SM_Restore : S -> bytes -> S;
}.

(** A snapshot brings back the state it was taken of. *)
Class StateMachineLaws (S Req Rep : Type) `{!StateMachine S Req Rep} : Prop := {
  restore_snapshot : forall s s' : S, SM_Restore s (SM_Snapshot s') = s';
}.

(** ** Data *)

Record Op (Req : Type) : Type := MkOp { Op_Me : Z; Op_Id : Z; Op_Req : Req }.
Arguments MkOp {Req}.
Arguments Op_Me {Req}.
Arguments Op_Id {Req}.
Arguments Op_Req {Req}.

#[export] Instance Op_eq_dec `{EqDecision Req} : EqDecision (Op Req).
Proof. solve_decision. Defined.
#[export] Instance Op_countable `{Countable Req} : Countable (Op Req).
Proof.
  refine (inj_countable' (fun o => (Op_Me o, Op_Id o, Op_Req o)) (fun '(m, i, r) => MkOp m i r) _); by intros [].
Defined.

Record SnapshotData : Type := MkSnapshotData { sd_LastApplied : Z; sd_State : bytes }.

#[export] Instance SnapshotData_eq_dec : EqDecision SnapshotData.
Proof. solve_decision. Defined.
#[export] Instance SnapshotData_countable : Countable SnapshotData.
Proof.
  refine (inj_countable' (fun d => (sd_LastApplied d, sd_State d)) (fun '(i, s) => MkSnapshotData i s) _); by intros [].
Defined.

Record opResult (Rep : Type) : Type := MkOpResult { val : option Rep; err : Err }.
Arguments MkOpResult {Rep}.
Arguments val {Rep}.
Arguments err {Rep}.

(** [w_ch] names the one-place channel that the waiting Submit made. *)
Record waiter : Type := MkWaiter { w_id : Z; w_term : Z; w_ch : nat }.

#[export] Instance waiter_eq_dec : EqDecision waiter.
Proof. solve_decision. Defined.

(** [type RSM struct]; [rsm_rf] says whether the Raft peer is there ([rf !=
    nil]); [rsm_chans] is what the result channels hold and [rsm_nchans] how
    many have been made. *)
Record RSM (S Rep : Type) : Type := MkRSM {
  rsm_me : Z;
  rsm_rf : bool;
  rsm_maxraftstate : Z;
  rsm_sm : S;
  rsm_dead : bool;
  rsm_pending : gmap Z waiter;
  rsm_lastApplied : Z;
  rsm_nextId : Z;
  rsm_chans : gmap nat (opResult Rep);
  rsm_nchans : nat;
}.
Arguments MkRSM {S Rep}.
Arguments rsm_me {S Rep}.
Arguments rsm_rf {S Rep}.
Arguments rsm_maxraftstate {S Rep}.
Arguments rsm_sm {S Rep}.
Arguments rsm_dead {S Rep}.
Arguments rsm_pending {S Rep}.
Arguments rsm_lastApplied {S Rep}.
Arguments rsm_nextId {S Rep}.
Arguments rsm_chans {S Rep}.
Arguments rsm_nchans {S Rep}.

Section Rsm.
Context {S Req Rep : Type} `{!StateMachine S Req Rep} `{GS : Gob SnapshotData}.
Abbreviation rsm_t := (RSM S Rep).

Definition eta_RSM (r : rsm_t) : rsm_t :=
  MkRSM (rsm_me r) (rsm_rf r) (rsm_maxraftstate r) (rsm_sm r) (rsm_dead r) (rsm_pending r)
    (rsm_lastApplied r) (rsm_nextId r) (rsm_chans r) (rsm_nchans r).
#[global] Instance set_rsm_sm : Setter (@rsm_sm S Rep) := ltac:(solve_setter eta_RSM (@rsm_sm S Rep)).
#[global] Instance set_rsm_dead : Setter (@rsm_dead S Rep) := ltac:(solve_setter eta_RSM (@rsm_dead S Rep)).
#[global] Instance set_rsm_pending : Setter (@rsm_pending S Rep) := ltac:(solve_setter eta_RSM (@rsm_pending S Rep)).
#[global] Instance set_rsm_lastApplied : Setter (@rsm_lastApplied S Rep) := ltac:(solve_setter eta_RSM (@rsm_lastApplied S Rep)).
#[global] Instance set_rsm_nextId : Setter (@rsm_nextId S Rep) := ltac:(solve_setter eta_RSM (@rsm_nextId S Rep)).
#[global] Instance set_rsm_chans : Setter (@rsm_chans S Rep) := ltac:(solve_setter eta_RSM (@rsm_chans S Rep)).
#[global] Instance set_rsm_nchans : Setter (@rsm_nchans S Rep) := ltac:(solve_setter eta_RSM (@rsm_nchans S Rep)).
Implicit Types r : rsm_t.

(** ** Snapshots *)

Definition encodeSnapshot r (index : Z) : bytes :=
  gob_enc (MkSnapshotData index (SM_Snapshot (rsm_sm r))).

(** A buffer that does not decode is ignored. *)
Definition restoreSnapshot r (data : bytes) : rsm_t :=
  if len data <? 1 then r
  else
    match gob_dec (A := SnapshotData) data with
    | None => r
    | Some (sd, _) =>
        let r := r <| rsm_sm := SM_Restore (rsm_sm r) (sd_State sd) |> in
        if sd_LastApplied sd >? rsm_lastApplied r then r <| rsm_lastApplied := sd_LastApplied sd |> else r
    end.

(** What maybeSnapshot passes to Raft's Snapshot, given [PersistBytes()]. *)
Definition maybeSnapshot r (persistBytes : Z) : option (Z * bytes) :=
  if negb (rsm_rf r) || (rsm_maxraftstate r <=? 0) || (rsm_lastApplied r =? 0) then None
  else if persistBytes * 10 <? rsm_maxraftstate r * 9 then None
  else Some (rsm_lastApplied r, encodeSnapshot r (rsm_lastApplied r)).

Definition MakeRSM (me : Z) (snapshot : bytes) (maxraftstate : Z) (sm : S) (withRaft : bool) : rsm_t :=
  let r := MkRSM me false maxraftstate sm false ∅ 0 0 ∅ 0 in
  let r := restoreSnapshot r snapshot in
  MkRSM (rsm_me r) withRaft (rsm_maxraftstate r) (rsm_sm r) (rsm_dead r) (rsm_pending r)
    (rsm_lastApplied r) (rsm_nextId r) (rsm_chans r) (rsm_nchans r).

(** ** The reader *)

(** [select { case ch <- res: default: }] on a one-place channel. *)
Definition send (ch : nat) (res : opResult Rep) (m : gmap nat (opResult Rep)) : gmap nat (opResult Rep) :=
  match m !! ch with None => <[ch := res]> m | Some _ => m end.

Definition wrongLeader : opResult Rep := MkOpResult None ErrWrongLeader.

(** Delete the waiters whose index satisfies [P] and send them ErrWrongLeader. *)
Definition wake (P : Z -> bool) r : rsm_t :=
  r <| rsm_chans := map_fold (fun idx w m => if P idx then send (w_ch w) wrongLeader m else m)
                             (rsm_chans r) (rsm_pending r) |>
    <| rsm_pending := filter (fun kv => P (fst kv) = false) (rsm_pending r) |>.

(** One iteration of the loop of [reader], without the final maybeSnapshot. *)
Definition reader_msg r (msg : ApplyMsg (Op Req)) : rsm_t :=
  match msg with
  | SnapshotMsg data _ index =>
      let r := if index >? rsm_lastApplied r then restoreSnapshot r data else r in
      wake (fun idx => idx <=? rsm_lastApplied r) r
  | CommandMsg None _ => r                          (* commandToOp fails *)
  | CommandMsg (Some op) index =>
      if index <=? rsm_lastApplied r then r
      else
        let '(sm, result) := DoOp (rsm_sm r) (Op_Req op) in
        let r := r <| rsm_sm := sm |> <| rsm_lastApplied := index |> in
        match rsm_pending r !! index with
        | None => r
        | Some w =>
            let res := if (w_id w =? Op_Id op) && (Op_Me op =? rsm_me r)
                       then MkOpResult (Some result) OK else wrongLeader in
            r <| rsm_pending := delete index (rsm_pending r) |>
              <| rsm_chans := send (w_ch w) res (rsm_chans r) |>
        end
  end.

(** Whether the iteration ends in maybeSnapshot. *)
Definition reader_applies r (msg : ApplyMsg (Op Req)) : bool :=
  match msg with CommandMsg (Some _) index => negb (index <=? rsm_lastApplied r) | _ => false end.

Definition reader_step r (msg : ApplyMsg (Op Req)) (persistBytes : Z) : rsm_t * option (Z * bytes) :=
  let r' := reader_msg r msg in
  (r', if reader_applies r msg then maybeSnapshot r' persistBytes else None).

(** After the loop: the apply channel was closed. *)
Definition reader_close r : rsm_t := wake (fun _ => true) (r <| rsm_dead := true |>).

(** ** Submit *)

Inductive Submitted : Type :=
| Refused (e : Err)
| Waiting (w : waiter) (index : Z).

(** The operation Submit hands to Raft. *)
Definition Submit_op r (req : Req) : Op Req := MkOp (rsm_me r) (i64 (rsm_nextId r + 1)) req.

(** Submit up to the wait; [index], [term], [isLeader] is what [rf.Start(op)]
    returns. *)
Definition Submit r (req : Req) (start : Op Req -> Z * Z * bool) : rsm_t * Submitted :=
  if rsm_dead r || negb (rsm_rf r) then (r, Refused ErrWrongLeader)
  else
    let r := r <| rsm_nextId := i64 (rsm_nextId r + 1) |> in
    let op := MkOp (rsm_me r) (rsm_nextId r) req in
    let '(index, term, isLeader) := start op in
    if negb isLeader then (r, Refused ErrWrongLeader)
    else
      let w := MkWaiter (Op_Id op) term (rsm_nchans r) in
      (r <| rsm_pending := <[index := w]> (rsm_pending r) |> <| rsm_nchans := Datatypes.S (rsm_nchans r) |>,
       Waiting w index).

(** The wait of Submit ends when its channel holds a result. *)
Definition Submit_result r (w : waiter) : option (Err * option Rep) :=
  res ← rsm_chans r !! w_ch w; Some (err res, val res).

(** The 500 ms timeout of the wait; [curTerm], [isLeader] is [rf.GetState()].
    [None] keeps waiting. *)
Definition Submit_timeout r (w : waiter) (index : Z) (curTerm : Z) (isLeader : bool) : rsm_t * option Err :=
  if rsm_dead r then (r, Some ErrWrongLeader)
  else
    let lost := negb isLeader || negb (curTerm =? w_term w) in
    let r := if lost && bool_decide (rsm_pending r !! index = Some w)
             then r <| rsm_pending := delete index (rsm_pending r) |> else r in
    (r, if lost then Some ErrWrongLeader else None).

(** ** Runs of one replica *)

Inductive Event : Type :=
| ESubmit (req : Req) (index term : Z) (isLeader : bool)
| ERead (msg : ApplyMsg (Op Req))
| ETimeout (w : waiter) (index curTerm : Z) (isLeader : bool)
| EClose.

Definition step r (ev : Event) : rsm_t :=
  match ev with
  | ESubmit req index term isLeader => fst (Submit r req (fun _ => (index, term, isLeader)))
  | ERead msg => reader_msg r msg
  | ETimeout w index curTerm isLeader => fst (Submit_timeout r w index curTerm isLeader)
  | EClose => reader_close r
  end.

Definition run_events r (evs : list Event) : rsm_t := foldl step r evs.

(** The operations a run submits, with the channel each waits on. *)
Definition submits r (ev : Event) : list (nat * Op Req) :=
  match ev with
  | ESubmit req index term isLeader =>
      match snd (Submit r req (fun _ => (index, term, isLeader))) with
      | Waiting w _ => [(w_ch w, Submit_op r req)]
      | Refused _ => []
      end
  | _ => []
  end.

Fixpoint history r (evs : list Event) : list (nat * Op Req) :=
  match evs with
  | [] => []
  | ev :: evs => submits r ev ++ history (step r ev) evs
  end.

(** ** The specification: a log of operations *)

(** The state after the first [k] operations of the log. *)
Definition exec_log (s0 : S) (L : list (Op Req)) (k : nat) : S :=
  foldl (fun s op => fst (DoOp s (Op_Req op))) s0 (take k L).

(** What Raft promises about the apply channel: operation [index] of the log
    comes after all before it, and a snapshot is one that some replica made
    of the state at its index. *)
Definition msg_of_log (s0 : S) (L : list (Op Req)) r (msg : ApplyMsg (Op Req)) : Prop :=
  match msg with
  | CommandMsg None _ => True
  | CommandMsg (Some op) index =>
      1 <= index <= rsm_lastApplied r + 1 /\ L !! Z.to_nat (index - 1) = Some op
  | SnapshotMsg data _ index =>
      0 <= index <= len L /\
      data = gob_enc (MkSnapshotData index (SM_Snapshot (exec_log s0 L (Z.to_nat index))))
  end.

Fixpoint run_of_log (s0 : S) (L : list (Op Req)) r (evs : list Event) : Prop :=
  match evs with
  | [] => True
  | ev :: evs => match ev with ERead msg => msg_of_log s0 L r msg | _ => True end /\ run_of_log s0 L (step r ev) evs
  end.

(** ** Lemmas *)

Lemma exec_log_S s0 (L : list (Op Req)) (k : nat) op : L !! k = Some op ->
  exec_log s0 L (Datatypes.S k) = fst (DoOp (exec_log s0 L k) (Op_Req op)).
Proof. intros Hk. unfold exec_log. by rewrite (take_S_r _ _ _ Hk), foldl_app. Qed.

Lemma send_lookup ch res m ch' x : send ch res m !! ch' = Some x ->
  m !! ch' = Some x \/ ch' = ch /\ x = res.
Proof.
  unfold send. destruct (m !! ch) eqn:Hm; [auto|]. destruct (decide (ch' = ch)) as [->|].
  - rewrite lookup_insert_eq. intros [= <-]. auto.
  - rewrite lookup_insert_ne by done. auto.
Qed.

Lemma send_is_Some ch res m ch' : is_Some (m !! ch') \/ ch' = ch -> is_Some (send ch res m !! ch').
Proof.
  unfold send. intros H. destruct (m !! ch) eqn:Hm; [destruct H as [H| ->]; eauto|].
  destruct (decide (ch' = ch)) as [->|]; [rewrite lookup_insert_eq; eauto|].
  rewrite lookup_insert_ne by done. naive_solver.
Qed.

Lemma wake_chans P r ch x : rsm_chans (wake P r) !! ch = Some x -> rsm_chans r !! ch = Some x \/ x = wrongLeader.
Proof.
  simpl. revert x. apply (map_fold_weak_ind (fun m _ => forall x, m !! ch = Some x -> rsm_chans r !! ch = Some x \/ x = wrongLeader)); [auto|].
  intros idx w pend m _ IH x. destruct (P idx); [|auto]. intros Hs. apply send_lookup in Hs as [?|(_ & ->)]; auto.
Qed.

Lemma wake_answers P r idx w : rsm_pending r !! idx = Some w -> P idx = true -> is_Some (rsm_chans (wake P r) !! w_ch w).
Proof.
  simpl. intros Hw HP. revert Hw.
  apply (map_fold_weak_ind (fun m pend => pend !! idx = Some w -> is_Some (m !! w_ch w))); [by rewrite lookup_empty|].
  intros idx' w' pend m Hnone IH Hw. destruct (decide (idx' = idx)) as [->|].
  - rewrite lookup_insert_eq in Hw. injection Hw as <-. rewrite HP. apply send_is_Some. auto.
  - rewrite lookup_insert_ne in Hw by done. destruct (P idx'); [apply send_is_Some|]; auto.
Qed.

Lemma wake_fields P r :
  rsm_sm (wake P r) = rsm_sm r /\ rsm_lastApplied (wake P r) = rsm_lastApplied r /\
  rsm_me (wake P r) = rsm_me r /\ rsm_nextId (wake P r) = rsm_nextId r /\ rsm_nchans (wake P r) = rsm_nchans r /\
  forall idx w, rsm_pending (wake P r) !! idx = Some w -> rsm_pending r !! idx = Some w.
Proof. split_and!; try done. intros idx w. simpl. by intros [? _]%map_lookup_filter_Some. Qed.

Section Laws.
Context `{!StateMachineLaws S Req Rep}.

Lemma restoreSnapshot_enc r k st : restoreSnapshot r (gob_enc (MkSnapshotData k (SM_Snapshot st))) =
  r <| rsm_sm := st |> <| rsm_lastApplied := Z.max k (rsm_lastApplied r) |>.
Proof.
  unfold restoreSnapshot. pose proof (gob_enc_nonempty (MkSnapshotData k (SM_Snapshot st))) as Hne.
  destruct (Z.ltb_spec (len (gob_enc (MkSnapshotData k (SM_Snapshot st)))) 1) as [Hl|_].
  { destruct (gob_enc _); [done|simpl in Hl; lia]. }
  rewrite gob_dec_enc_nil. cbn [sd_State sd_LastApplied]. rewrite restore_snapshot. simpl. rewrite Z.gtb_ltb.
  destruct (Z.ltb_spec (rsm_lastApplied r) k); [by rewrite Z.max_l by lia|]. rewrite Z.max_r by lia. by destruct r.
Qed.

(** The replica's state is that of the log prefix it has applied. *)
Definition at_log (s0 : S) (L : list (Op Req)) r : Prop :=
  0 <= rsm_lastApplied r <= len L /\ rsm_sm r = exec_log s0 L (Z.to_nat (rsm_lastApplied r)).

Lemma reader_at_log s0 L r msg : at_log s0 L r -> msg_of_log s0 L r msg -> at_log s0 L (reader_msg r msg).
Proof.
  intros [Hla Hsm] Hm. destruct msg as [[op|] index|data t index]; simpl in *; [|done|].
  - destruct Hm as [Hi Hop]. destruct (Z.leb_spec index (rsm_lastApplied r)); [done|].
    replace index with (rsm_lastApplied r + 1) in * by lia. rewrite Z.add_simpl_r in Hop.
    pose proof (exec_log_S s0 L _ _ Hop) as HS. rewrite <-Hsm in HS. apply lookup_lt_Some in Hop.
    destruct (DoOp (rsm_sm r) (Op_Req op)) as [sm res]. simpl in HS.
    assert (sm = exec_log s0 L (Z.to_nat (rsm_lastApplied r + 1))) by (rewrite Z2Nat.inj_add, Nat.add_1_r by lia; done).
    destruct (rsm_pending _ !! _); (split; simpl; [lia|done]).
  - destruct Hm as [Hi ->]. rewrite Z.gtb_ltb. destruct (Z.ltb_spec (rsm_lastApplied r) index); [|done].
    rewrite restoreSnapshot_enc. unfold at_log. simpl. rewrite Z.max_l by lia. auto.
Qed.

Lemma step_at_log s0 L r ev : at_log s0 L r ->
  match ev with ERead msg => msg_of_log s0 L r msg | _ => True end -> at_log s0 L (step r ev).
Proof.
  intros Hat Hev. destruct ev; simpl.
  - unfold Submit. branch; done.
  - by apply reader_at_log.
  - unfold Submit_timeout. branch; done.
  - done.
Qed.

Lemma run_at_log s0 L r evs : at_log s0 L r -> run_of_log s0 L r evs -> at_log s0 L (run_events r evs).
Proof.
  revert r. induction evs as [|ev evs IH]; intros r Hat Hrun; [done|]. destruct Hrun as [Hev Hrun].
  apply IH; [by apply step_at_log|done].
Qed.

(** *** Identifiers *)

Lemma step_nextId r ev : 0 <= rsm_nextId r < 2 ^ 63 - 1 ->
  rsm_me (step r ev) = rsm_me r /\ rsm_nextId r <= rsm_nextId (step r ev) <= rsm_nextId r + 1 /\
  forall ch op, (ch, op) ∈ submits r ev -> Op_Me op = rsm_me r /\ Op_Id op = rsm_nextId r + 1 /\ rsm_nextId (step r ev) = rsm_nextId r + 1.
Proof.
  intros Hn. destruct ev as [req index term isLeader|msg|w index t l|]; simpl.
  - unfold Submit. rewrite !i64_small by lia. destruct (_ || _); simpl.
    { split_and!; [done|lia..|]. intros ch op []%elem_of_nil. }
    destruct isLeader; simpl; split_and!; try done; try lia; intros ch op Hin.
    + apply list_elem_of_singleton in Hin. injection Hin as -> ->. simpl. rewrite i64_small by lia. done.
    + by apply elem_of_nil in Hin.
  - assert (rsm_me (reader_msg r msg) = rsm_me r /\ rsm_nextId (reader_msg r msg) = rsm_nextId r) as [-> ->].
    { destruct msg as [[op|] index|data t index]; simpl; [|done|].
      - destruct (_ <=? _); [done|]. destruct (DoOp _ _). simpl. by destruct (_ !! _).
      - destruct (_ >? _); [|done]. unfold restoreSnapshot. destruct (_ <? _); [done|].
        destruct (gob_dec _) as [[]|]; [|done]. by destruct (_ >? _). }
    split_and!; [done|lia..|]. intros ch op []%elem_of_nil.
  - unfold Submit_timeout. destruct (rsm_dead r); simpl; [|destruct (_ && _); simpl];
      (split_and!; [done|lia..|]; intros ch op []%elem_of_nil).
  - split_and!; [done|lia..|]. intros ch op []%elem_of_nil.
Qed.

Lemma history_ids r evs ch op : 0 <= rsm_nextId r -> rsm_nextId r + len evs < 2 ^ 63 - 1 ->
  (ch, op) ∈ history r evs -> Op_Me op = rsm_me r /\ rsm_nextId r < Op_Id op.
Proof.
  revert r. induction evs as [|ev evs IH]; intros r H0 Hlt Hin; [by apply elem_of_nil in Hin|].
  simpl length in Hlt. destruct (step_nextId r ev) as (Hme & Hid & Hsub); [lia|].
  simpl in Hin. apply elem_of_app in Hin as [Hin|Hin].
  - destruct (Hsub _ _ Hin) as (? & ? & _). split; [done|lia].
  - destruct (IH (step r ev)) as [Hm Hi]; [lia|lia|done|]. split; [congruence|lia].
Qed.

Lemma history_unique r evs c1 o1 c2 o2 : 0 <= rsm_nextId r -> rsm_nextId r + len evs < 2 ^ 63 - 1 ->
  (c1, o1) ∈ history r evs -> (c2, o2) ∈ history r evs -> Op_Id o1 = Op_Id o2 -> c1 = c2 /\ o1 = o2.
Proof.
  revert r. induction evs as [|ev evs IH]; intros r H0 Hlt H1 H2 Heq; [by apply elem_of_nil in H1|].
  simpl length in Hlt. destruct (step_nextId r ev) as (Hme & Hid & Hsub); [lia|].
  assert (forall c o, (c, o) ∈ history (step r ev) evs -> rsm_nextId (step r ev) < Op_Id o) as Hlater.
  { intros c o Hin. apply (history_ids (step r ev) evs c o); [lia|lia|done]. }
  simpl in H1, H2. apply elem_of_app in H1 as [H1|H1], H2 as [H2|H2].
  - destruct ev as [req index term l| | |]; simpl in H1, H2; try by apply elem_of_nil in H1.
    destruct (snd _); [by apply elem_of_nil in H1|]. apply list_elem_of_singleton in H1, H2. by simplify_eq.
  - destruct (Hsub _ _ H1) as (_ & ? & ?). specialize (Hlater _ _ H2). lia.
  - destruct (Hsub _ _ H2) as (_ & ? & ?). specialize (Hlater _ _ H1). lia.
  - apply (IH (step r ev)); auto; lia.
Qed.

(** *** Answers *)

Section Answers.
Variables (s0 : S) (L : list (Op Req)) (H : list (nat * Op Req)) (me0 : Z).
Hypothesis unique_ids : forall c1 o1 c2 o2, (c1, o1) ∈ H -> (c2, o2) ∈ H -> Op_Id o1 = Op_Id o2 -> c1 = c2 /\ o1 = o2.
Hypothesis own_ops : forall op, op ∈ L -> Op_Me op = me0 -> exists ch, (ch, op) ∈ H.

(** Channel [ch] waits for an operation that is in the log, and [v] is its
    result there. *)
Definition answered (ch : nat) (v : option Rep) : Prop := exists op (j : nat),
  (ch, op) ∈ H /\ L !! j = Some op /\ v = Some (snd (DoOp (exec_log s0 L j) (Op_Req op))).

Record replica_ok r : Prop := {
  ro_me : rsm_me r = me0;
  ro_log : at_log s0 L r;
  ro_pending : forall idx w, rsm_pending r !! idx = Some w -> exists op, (w_ch w, op) ∈ H /\ Op_Id op = w_id w;
  ro_chans : forall ch v, rsm_chans r !! ch = Some (MkOpResult v OK) -> answered ch v;
}.

Lemma wake_ok P r : replica_ok r -> replica_ok (wake P r).
Proof.
  intros Hr. destruct (wake_fields P r) as (_ & _ & _ & _ & _ & Hp).
  constructor; [apply Hr|apply Hr|intros idx w Hw; eapply Hr, Hp, Hw|].
  intros ch v [?|?]%wake_chans; [by apply Hr|done].
Qed.

Lemma reader_ok r msg : replica_ok r -> msg_of_log s0 L r msg -> replica_ok (reader_msg r msg).
Proof.
  intros Hr Hm. pose proof (reader_at_log s0 L r msg (ro_log _ Hr) Hm) as Hlog.
  destruct msg as [[op|] index|data t index]; simpl in *; [|done|].
  - destruct Hm as [Hi Hop]. destruct (Z.leb_spec index (rsm_lastApplied r)); [done|].
    replace (Z.to_nat (index - 1)) with (Z.to_nat (rsm_lastApplied r)) in Hop by lia.
    destruct (ro_log _ Hr) as [_ Hsm]. destruct (DoOp (rsm_sm r) (Op_Req op)) as [sm res] eqn:Hdo.
    assert (res = snd (DoOp (exec_log s0 L (Z.to_nat (rsm_lastApplied r))) (Op_Req op))) as Hres by (by rewrite <-Hsm, Hdo).
    simpl in *. destruct (rsm_pending r !! index) as [w|] eqn:Hw; [|destruct Hr; by constructor].
    constructor; simpl; [apply Hr|done|intros idx w' [_ Hw']%lookup_delete_Some; by eapply Hr|].
    intros ch v [?|(-> & Hv)]%send_lookup; [by apply Hr|].
    destruct (Z.eqb_spec (w_id w) (Op_Id op)) as [Hid|]; simpl in Hv; [|done].
    destruct (Z.eqb_spec (Op_Me op) (rsm_me r)) as [Hme|]; [|done]. injection Hv as ->.
    rewrite (ro_me _ Hr) in Hme. destruct (own_ops op) as (ch & Hch); [by eapply list_elem_of_lookup_2|done|].
    destruct (ro_pending _ Hr _ _ Hw) as (op' & Hop' & Hid').
    destruct (unique_ids _ _ _ _ Hch Hop') as [<- <-]; [congruence|].
    exists op, (Z.to_nat (rsm_lastApplied r)). by rewrite Hres.
  - apply wake_ok. destruct Hm as [Hi ->]. rewrite Z.gtb_ltb in *.
    destruct (Z.ltb_spec (rsm_lastApplied r) index); [|done]. rewrite restoreSnapshot_enc in *.
    destruct Hr. constructor; simpl; auto.
Qed.

Lemma step_ok r ev : replica_ok r -> submits r ev ⊆ H ->
  match ev with ERead msg => msg_of_log s0 L r msg | _ => True end -> replica_ok (step r ev).
Proof.
  intros Hr Hsub Hev. destruct ev as [req index term isLeader|msg|w index t l|]; simpl in *.
  - unfold Submit in *. destruct (_ || _); [done|]. destruct isLeader; simpl in *; [|by destruct Hr; constructor].
    destruct Hr. constructor; simpl; auto. intros idx w Hw.
    apply lookup_insert_Some in Hw as [(<- & <-)|[_ Hw]]; [|by eauto]. simpl. exists (Submit_op r req). split; [set_solver|done].
  - by apply reader_ok.
  - unfold Submit_timeout. destruct (rsm_dead r); [done|]. simpl. destruct (_ && _); [|done].
    destruct Hr. constructor; simpl; auto. intros idx w' [_ Hw']%lookup_delete_Some. eauto.
  - apply wake_ok. destruct Hr. by constructor.
Qed.

Lemma run_ok r evs : replica_ok r -> history r evs ⊆ H -> run_of_log s0 L r evs -> replica_ok (run_events r evs).
Proof.
  revert r. induction evs as [|ev evs IH]; intros r Hr Hh Hrun; [done|]. destruct Hrun as [Hev Hrun].
  simpl in Hh. apply IH; [apply step_ok; auto; set_solver|set_solver|done].
Qed.

End Answers.

Lemma MakeRSM_fresh_ok s0 (L : list (Op Req)) H me0 max : replica_ok s0 L H me0 (MakeRSM me0 [] max s0 true).
Proof.
  constructor; simpl; try done. split; simpl; [lia|]. unfold exec_log. by rewrite take_0.
Qed.

(** A replica computes the log.  Whatever it submits, times
    out on or restores from snapshots, as long as the apply channel delivers
    the operations of the log [L] in order (possibly repeated) and snapshots
    of its prefixes, its state machine is the one that executes exactly the
    first [lastApplied] operations of [L]: replicas that have applied equally
    much are in the same state. *)
Theorem rsm_state_is_log_prefix (s0 : S) (L : list (Op Req)) me max evs
    (r := run_events (MakeRSM me [] max s0 true) evs) :
  run_of_log s0 L (MakeRSM me [] max s0 true) evs ->
  0 <= rsm_lastApplied r <= len L /\ rsm_sm r = exec_log s0 L (Z.to_nat (rsm_lastApplied r)).
Proof. intros Hrun. apply run_at_log; [|done]. exact (ro_log _ _ _ _ _ (MakeRSM_fresh_ok s0 L [] me max)). Qed.

(** Submit's answer is the result of its own operation.  If a
    Submit is answered with OK and a value, its operation is in the log and
    the value is what the state machine returned when it executed that
    operation at its position, provided that the operations of this peer in
    the log were submitted since it started. *)
Theorem rsm_submit_answers (s0 : S) (L : list (Op Req)) me max evs ch v
    (r0 := MakeRSM me [] max s0 true) :
  run_of_log s0 L r0 evs -> len evs < 2 ^ 63 - 1 ->
  (forall op, op ∈ L -> Op_Me op = me -> exists ch, (ch, op) ∈ history r0 evs) ->
  rsm_chans (run_events r0 evs) !! ch = Some (MkOpResult v OK) ->
  exists op (j : nat), (ch, op) ∈ history r0 evs /\ L !! j = Some op /\
    v = Some (snd (DoOp (exec_log s0 L j) (Op_Req op))).
Proof.
  intros Hrun Hlen Hown Hch.
  assert (replica_ok s0 L (history r0 evs) me (run_events r0 evs)) as Hok.
  { apply run_ok; auto; [|apply MakeRSM_fresh_ok]. intros c1 o1 c2 o2. apply history_unique; simpl; lia. }
  exact (ro_chans _ _ _ _ _ Hok ch v Hch).
Qed.

(** C34 (liveness): closing the apply channel leaves no Submit waiting.  Every
    pending waiter then has a result, and none stays registered. *)
Theorem rsm_close_answers_all r idx w :
  rsm_pending r !! idx = Some w ->
  is_Some (Submit_result (reader_close r) w) /\ rsm_pending (reader_close r) = ∅ /\ rsm_dead (reader_close r) = true.
Proof.
  intros Hw. split_and!; [| |done].
  - destruct (wake_answers (fun _ => true) (r <| rsm_dead := true |>) idx w) as [x Hx]; [done|done|].
    unfold Submit_result, reader_close. rewrite Hx. simpl. eauto.
  - simpl. apply map_eq. intros i. rewrite lookup_empty. apply eq_None_not_Some.
    by intros [x [_ Hx]%map_lookup_filter_Some].
Qed.

(** A replica restarted from the snapshot that maybeSnapshot
    handed to Raft continues where the snapshot was taken: same state, same
    last applied index. *)
Theorem rsm_snapshot_roundtrip r bytes_ index snap me max s1 :
  0 <= rsm_lastApplied r -> maybeSnapshot r bytes_ = Some (index, snap) ->
  rsm_sm (MakeRSM me snap max s1 true) = rsm_sm r /\
  rsm_lastApplied (MakeRSM me snap max s1 true) = rsm_lastApplied r /\ index = rsm_lastApplied r.
Proof.
  intros Hla Hs. unfold maybeSnapshot in Hs. destruct (_ || _); [done|]. destruct (_ <? _); [done|].
  injection Hs as <- <-. unfold MakeRSM, encodeSnapshot. rewrite restoreSnapshot_enc. simpl. split_and!; [done|lia|done].
Qed.

End Laws.
End Rsm.

Arguments Event : clear implicits.

(** ** The counter service of the rsm tests (src/kvraft1/rsm/server.go)

    The smallest service over RSM.  The tests submit the three types of
    request; DoOp executes two of them and ends the process on a Dec, which
    the tests submit where it must not be committed (rsm_test.go). *)

Inductive CounterReq : Type := Inc | Null | Dec.
#[export] Instance CounterReq_eq_dec : EqDecision CounterReq.
Proof. solve_decision. Defined.
#[export] Instance CounterReq_countable : Countable CounterReq.
Proof.
  refine (inj_countable' (fun r => match r with Inc => Some true | Null => Some false | Dec => None end)
    (fun b => match b with Some true => Inc | Some false => Null | None => Dec end) _); by intros [].
Defined.

Inductive CounterRep : Type := IncRep (N : Z) | NullRep.

(** [None]: the default branch, a log.Fatalf. *)
Definition rsmSrv_DoOp (counter : Z) (req : CounterReq) : option (Z * CounterRep) :=
  match req with
  | Inc => let counter := i64 (counter + 1) in Some (counter, IncRep counter)
  | Null => Some (counter, NullRep)
  | Dec => None
  end.

Definition rsmSrv_Snapshot `{Gob Z} (counter : Z) : bytes := gob_enc counter.

Definition rsmSrv_Restore `{Gob Z} (counter : Z) (data : bytes) : Z :=
  match gob_dec (A := Z) data with Some (c, _) => c | None => counter end.

(** As a state machine a server that has exited changes nothing; theorems
    about the counter say of their logs that no Dec was committed. *)
#[export] Instance rsmSrv_machine `{Gob Z} : StateMachine Z CounterReq CounterRep := {
  DoOp := fun counter req => default (counter, NullRep) (rsmSrv_DoOp counter req); SM_Snapshot := rsmSrv_Snapshot; SM_Restore := rsmSrv_Restore;
}.

#[export] Instance rsmSrv_laws `{Gob Z} : StateMachineLaws Z CounterReq CounterRep.
Proof. constructor. intros s s'. simpl. unfold rsmSrv_Restore, rsmSrv_Snapshot. by rewrite gob_dec_enc_nil. Qed.

(** ** Witnesses, on the counter service *)

Definition sample_log : list (Op CounterReq) := [MkOp 1 1 Inc; MkOp 0 1 Inc; MkOp 0 2 Null].
Definition sample_rsm : RSM Z CounterRep := MakeRSM (Req := CounterReq) 0 [] 1000 0 true.
Definition sample_events : list (Event CounterReq) :=
  [ERead (CommandMsg (Some (MkOp 1 1 Inc)) 1); ESubmit Inc 2 1 true; ESubmit Null 3 1 true;
   ERead (CommandMsg (Some (MkOp 0 1 Inc)) 2); ERead (CommandMsg (Some (MkOp 1 1 Inc)) 1);
   ERead (CommandMsg (Some (MkOp 0 2 Null)) 3)].

Lemma sample_run : run_of_log 0 sample_log sample_rsm sample_events.
Proof. vm_compute. repeat split; discriminate. Qed.

Lemma rsm_state_is_log_prefix_witness :
  rsm_sm (run_events sample_rsm sample_events) = exec_log 0 sample_log 3 /\ exec_log 0 sample_log 3 = 2.
Proof.
  split; [|vm_compute; reflexivity].
  exact (proj2 (rsm_state_is_log_prefix 0 sample_log 0 1000 sample_events sample_run)).
Defined.

Lemma rsm_submit_answers_witness :
  exists op (j : nat), (0%nat, op) ∈ history sample_rsm sample_events /\ sample_log !! j = Some op /\
    Some (IncRep 2) = Some (snd (DoOp (exec_log 0 sample_log j) (Op_Req op))).
Proof.
  apply (rsm_submit_answers 0 sample_log 0 1000 sample_events 0 (Some (IncRep 2)) sample_run).
  - vm_compute. reflexivity.
  - intros op Hin Hme. unfold sample_log in Hin.
    repeat (apply elem_of_cons in Hin; destruct Hin as [->|Hin]); [discriminate| | |by apply elem_of_nil in Hin].
    + exists 0%nat. apply list_elem_of_here.
    + exists 1%nat. apply list_elem_of_further, list_elem_of_here.
  - vm_compute. reflexivity.
Defined.

Lemma rsm_close_answers_all_witness :
  let r := run_events sample_rsm [ESubmit Inc 1 1 true] in
  is_Some (Submit_result (reader_close r) (MkWaiter 1 1 0)).
Proof.
  cbv zeta. apply (rsm_close_answers_all (run_events sample_rsm [ESubmit Inc 1 1 true]) 1 (MkWaiter 1 1 0)).
  vm_compute. reflexivity.
Defined.

Lemma rsm_snapshot_roundtrip_witness :
  let r := run_events sample_rsm sample_events in
  rsm_sm (MakeRSM (Req := CounterReq) (Rep := CounterRep) 0 (encodeSnapshot r 3) 1000 0 true) = 2.
Proof.
  cbv zeta. set (r := run_events sample_rsm sample_events).
  transitivity (rsm_sm r); [|vm_compute; reflexivity].
  refine (proj1 (rsm_snapshot_roundtrip r 1000 3 (encodeSnapshot r 3) 0 1000 0 _ _)); vm_compute; [discriminate|reflexivity].
Defined.

(** Operation identifiers restart at 0 with the process.
    A replica that has restarted and waits at index 1 for its first
    operation (a Null) takes the operation of its previous life with the
    same identifier (an Inc) for its own, when that one is committed there:
    Submit(Null) is answered with the result of the Inc. *)
Theorem rsm_answers_previous_life :
  let r := run_events sample_rsm [ESubmit Null 1 3 true; ERead (CommandMsg (Some (MkOp 0 1 Inc)) 1)] in
  Submit_result r (MkWaiter 1 3 0) = Some (OK, Some (IncRep 1)) /\
  snd (Submit sample_rsm Null (fun _ => (1, 3, true))) = Waiting (MkWaiter 1 3 0) 1.
Proof. vm_compute. done. Qed.
