(* ===== verification/Replicated.v ===== *)
(** * A replicated service: RSM over Raft

    The composition of Rsm.v with the cluster of RaftCluster.v, the way
    MakeRSM wires them (src/kvraft1/rsm/rsm.go): every peer runs Raft, the
    apply channel (a buffer of 1000 messages) and the reader goroutine; the
    Submits of clients call Raft's Start, the reader calls Raft's Snapshot, a
    restart rebuilds the service from the Persister.  A step picks which
    goroutine of which peer runs next.  No assumption about the apply channel
    is left: what Rsm.v assumes of Raft is proved here of the code. *)

From S2P Require Import Prelude Rpc Persister Raft RaftNode RaftSpec RaftCluster RaftRefine RaftApply Rsm.

Section Replicated.
Context {S Req Rep : Type} `{!StateMachine S Req Rep} `{GS : Gob SnapshotData}
  `{GZ : Gob Z} `{GL : Gob (list (LogEntry (Op Req)))}.
Variables (n : nat) (maxraftstate : Z) (s0 : S).

(** ** State *)

(** Where the reader is: waiting for a message, before the test of
    maybeSnapshot, or about to call [rf.Snapshot]. *)
Inductive Reader : Type := Reading | Deciding | Snapshotting (index : Z) (snap : bytes).

Record Replica : Type := MkReplica {
  rsm : RSM S Rep;
  applyCh : list (ApplyMsg (Op Req));
  reader : Reader;
}.

(** Two history variables: [oplog], the operations appliers have sent, by
    index, and [submitted], the Submits that were accepted by a leader, with
    the peer, the result channel and the operation. *)
Record Service : Type := MkService {
  cluster : Cluster (Op Req);
  replicas : list Replica;
  oplog : list (Op Req);
  submitted : list (nat * nat * Op Req);
}.

(** ** Steps *)

Inductive SStep : Type :=
| SRaft (l : Label (Op Req))
| SApply (i : nat)
| SRead (i : nat)
| SMaybe (i : nat)
| SSnapshot (i : nat)
| SSubmit (i : nat) (req : Req)
| STimeout (i : nat) (w : waiter) (index : Z)
| SRestart (i : nat) (now : Z).

Inductive SOutcome : Type := SDisabled | SPanic | SNext (s : Service).

(** [make(chan raftapi.ApplyMsg, 1000)]: the applier runs on once its last
    message is in the buffer. *)
Definition applyCh_size : nat := 1000.

(** The steps of Raft that no service takes part in. *)
Definition raft_internal (l : Label (Op Req)) : bool :=
  match l with LStart _ _ | LSnapshot _ _ _ | LApply _ | LRestart _ _ => false | _ => true end.

Definition at_replica (s : Service) (i : nat) (f : Proc (Op Req) -> Replica -> SOutcome) : SOutcome :=
  match procs (cluster s) !! i, replicas s !! i with
  | Some p, Some r => f p r
  | _, _ => SDisabled
  end.

Definition with_cluster (s : Service) (l : Label (Op Req)) (f : Cluster (Op Req) -> Service) : SOutcome :=
  match exec (cluster s) l with
  | Disabled => SDisabled
  | Panic => SPanic
  | Next c => SNext (f c)
  end.

Definition set_replica (s : Service) (i : nat) (r : Replica) : Service :=
  MkService (cluster s) (<[i := r]> (replicas s)) (oplog s) (submitted s).

Definition sexec (s : Service) (l : SStep) : SOutcome :=
  match l with
  | SRaft l => if raft_internal l then with_cluster s l (fun c => MkService c (replicas s) (oplog s) (submitted s)) else SDisabled
  | SApply i =>
      at_replica s i (fun p r =>
        if (length (applyCh r) <=? applyCh_size)%nat then
          with_cluster s (LApply i) (fun c =>
            match sent c with
            | Some msg => MkService c (<[i := MkReplica (rsm r) (applyCh r ++ [msg]) (reader r)]> (replicas s))
                            (record (oplog s) msg) (submitted s)
            | None => s
            end)
        else SDisabled)
  | SRead i =>
      at_replica s i (fun p r =>
        match applyCh r, reader r with
        | msg :: q, Reading =>
            SNext (set_replica s i (MkReplica (reader_msg (rsm r) msg) q
                     (if reader_applies (rsm r) msg then Deciding else Reading)))
        | _, _ => SDisabled
        end)
  | SMaybe i =>
      at_replica s i (fun p r =>
        match reader r with
        | Deciding =>
            let next := match maybeSnapshot (rsm r) (PersistBytes (raft p)) with
                        | Some (index, snap) => Snapshotting index snap
                        | None => Reading
                        end in
            SNext (set_replica s i (MkReplica (rsm r) (applyCh r) next))
        | _ => SDisabled
        end)
  | SSnapshot i =>
      at_replica s i (fun p r =>
        match reader r with
        | Snapshotting index snap =>
            with_cluster s (LSnapshot i index snap) (fun c =>
              MkService c (<[i := MkReplica (rsm r) (applyCh r) Reading]> (replicas s)) (oplog s) (submitted s))
        | _ => SDisabled
        end)
  | SSubmit i req =>
      at_replica s i (fun p r =>
        if rsm_dead (rsm r) || negb (rsm_rf (rsm r)) then SNext s
        else
          let op := Submit_op (rsm r) req in
          match Start (raft p) op with
          | None => SPanic
          | Some (_, res) =>
              with_cluster s (LStart i op) (fun c =>
                let '(r', out) := Submit (rsm r) req (fun _ => res) in
                MkService c (<[i := MkReplica r' (applyCh r) (reader r)]> (replicas s)) (oplog s)
                  (submitted s ++ match out with Waiting w _ => [(i, w_ch w, op)] | Refused _ => [] end))
          end)
  | STimeout i w index =>
      at_replica s i (fun p r =>
        let '(curTerm, isLeader) := GetState (raft p) in
        SNext (set_replica s i (MkReplica (fst (Submit_timeout (rsm r) w index curTerm isLeader)) (applyCh r) (reader r))))
  | SRestart i now =>
      at_replica s i (fun p r =>
        with_cluster s (LRestart i now) (fun c =>
          MkService c (<[i := MkReplica (MakeRSM (Z.of_nat i) (ReadSnapshot (persister (raft p))) maxraftstate s0 true)
                                [] Reading]> (replicas s)) (oplog s) (submitted s)))
  end.

Definition init_service : option Service :=
  c ← init_cluster n;
  Some (MkService c ((fun i => MkReplica (MakeRSM (Z.of_nat i) [] maxraftstate s0 true) [] Reading) <$> seq 0 n) [] []).

Fixpoint srun (s : Service) (ls : list SStep) : SOutcome :=
  match ls with
  | [] => SNext s
  | l :: ls =>
      match sexec s l with
      | SDisabled => srun s ls
      | SPanic => SPanic
      | SNext s' => srun s' ls
      end
  end.

Definition service_run (ls : list SStep) : SOutcome :=
  match init_service with Some s => srun s ls | None => SPanic end.

(** ** The invariant *)

Section Laws.
Context `{!StateMachineLaws S Req Rep}.
Implicit Types (s : Service) (r : Replica) (p : Proc (Op Req)) (L : list (Op Req)).

(** The operations that were submitted, and the snapshots of prefixes of the
    log. *)
Definition was_submitted s (op : Op Req) : Prop := exists i ch, (i, ch, op) ∈ submitted s.

Definition snap_of L (k : Z) (data : bytes) : Prop :=
  0 <= k <= len L /\ data = gob_enc (MkSnapshotData k (SM_Snapshot (exec_log s0 L (Z.to_nat k)))).

Record replica_inv L (i : nat) p r : Prop := {
  ri_me : rsm_me (rsm r) = Z.of_nat i;
  ri_log : at_log s0 L (rsm r);
  ri_queue : queue_ok snap_of L (rsm_lastApplied (rsm r)) (applyCh r) (lastApplied (raft p));
  ri_reader : match reader r with Snapshotting k d => snap_of L k d | _ => True end;
}.

Record svc_ok s : Prop := {
  so_hist : hist_ok n snap_of (was_submitted s) (cluster s) (oplog s);
  so_mine : forall i ch op, (i, ch, op) ∈ submitted s -> Op_Me op = Z.of_nat i;
  so_len : length (replicas s) = n;
  so_replicas : forall i p r, procs (cluster s) !! i = Some p -> replicas s !! i = Some r -> replica_inv (oplog s) i p r;
}.

(** *** Growing logs *)

Lemma exec_log_app L L' (k : nat) : (k <= length L)%nat -> exec_log s0 (L ++ L') k = exec_log s0 L k.
Proof. intros Hk. unfold exec_log. by rewrite take_app_le. Qed.

Lemma snap_of_app L L' k d : snap_of L k d -> snap_of (L ++ L') k d.
Proof. intros [Hk ->]. split; [rewrite length_app; lia|]. rewrite exec_log_app by lia. done. Qed.

Lemma at_log_app L L' (r : RSM S Rep) : at_log s0 L r -> at_log s0 (L ++ L') r.
Proof. intros [Hk Hs]. split; [rewrite length_app; lia|]. rewrite exec_log_app by lia. done. Qed.

Lemma replica_inv_app L L' i p r : replica_inv L i p r -> replica_inv (L ++ L') i p r.
Proof.
  intros [Hm Hl Hq Hr]. constructor; auto using at_log_app, queue_ok_app, snap_of_app. destruct (reader r); auto using snap_of_app.
Qed.

(** What the head of the channel says is what Rsm.v asks of it. *)
Lemma queue_head L k msg q k' (r : RSM S Rep) : queue_ok snap_of L k (msg :: q) k' -> 0 <= k -> k = rsm_lastApplied r ->
  msg_of_log s0 L r msg.
Proof.
  intros (Hf & Hm & _) H0 ->. destruct msg as [c index|data t index]; simpl in *; [|done].
  destruct Hm as (op & -> & Hop). split; [lia|done].
Qed.

Lemma reader_lastApplied L k msg q k' (r : RSM S Rep) : queue_ok snap_of L k (msg :: q) k' -> k = rsm_lastApplied r ->
  rsm_lastApplied (reader_msg r msg) = index_of msg.
Proof.
  intros (Hf & Hm & _) ->. destruct msg as [c index|data t index]; simpl in *.
  - destruct Hm as (op & -> & _). destruct (Z.leb_spec index (rsm_lastApplied r)); [lia|].
    destruct (DoOp _ _). simpl. by destruct (rsm_pending r !! index).
  - destruct Hm as [_ ->]. rewrite Z.gtb_ltb. destruct (Z.ltb_spec (rsm_lastApplied r) index); [|lia].
    rewrite restoreSnapshot_enc. simpl. lia.
Qed.

(** *** Preservation *)

Lemma replica_inv_ext L i p p' r : lastApplied (raft p') = lastApplied (raft p) -> replica_inv L i p r -> replica_inv L i p' r.
Proof. intros He [? ? ? ?]. constructor; rewrite ?He; auto. Qed.

Lemma set_replica_ok s i r r' : svc_ok s -> replicas s !! i = Some r ->
  (forall p, procs (cluster s) !! i = Some p -> replica_inv (oplog s) i p r -> replica_inv (oplog s) i p r') ->
  svc_ok (set_replica s i r').
Proof.
  intros Hs Hr Hi. destruct Hs. constructor; simpl; auto; [by rewrite length_insert|].
  intros j p x Hp Hx. apply list_lookup_insert_Some in Hx as [(<- & <- & _)|[_ Hx]]; eauto.
Qed.

(** A step of Raft that hands nothing to a service. *)
Lemma quiet_ok s l c rs subs : svc_ok s -> submitted s ⊆ subs ->
  (forall i ch op, (i, ch, op) ∈ subs -> Op_Me op = Z.of_nat i) -> hands_out l = false ->
  label_from (was_submitted (MkService c rs (oplog s) subs)) (snap_of (oplog s)) (cluster s) l ->
  exec (cluster s) l = Next c -> length rs = n ->
  (forall i p r, procs (cluster s) !! i = Some p -> rs !! i = Some r -> replica_inv (oplog s) i p r) ->
  svc_ok (MkService c rs (oplog s) subs).
Proof.
  intros Hs Hsub Hmine Hq Hl He Hlen Hr.
  destruct (hist_quiet n snap_of _ (was_submitted (MkService c rs (oplog s) subs)) _ _ l c (so_hist _ Hs)) as [Hh Hqt]; auto.
  { intros op (i & ch & Hin). exists i, ch. by apply Hsub. }
  constructor; auto. simpl. intros i p r Hp Hri. destruct (quiet_lookup _ _ _ _ Hqt Hp) as (p0 & Hp0 & Hla). eapply replica_inv_ext; eauto.
Qed.

Lemma insert_replica_inv s i r r' : svc_ok s -> replicas s !! i = Some r ->
  (forall p, procs (cluster s) !! i = Some p -> replica_inv (oplog s) i p r -> replica_inv (oplog s) i p r') ->
  forall j p x, procs (cluster s) !! j = Some p -> <[i := r']> (replicas s) !! j = Some x -> replica_inv (oplog s) j p x.
Proof.
  intros Hs Hr Hi j p x Hp Hx. apply list_lookup_insert_Some in Hx as [(<- & <- & _)|[_ Hx]]; [|by apply Hs].
  apply Hi; [done|]. by apply Hs.
Qed.

Lemma read_ok L i p r msg q rd : replica_inv L i p r -> applyCh r = msg :: q -> rd = Reading \/ rd = Deciding ->
  replica_inv L i p (MkReplica (reader_msg (rsm r) msg) q rd).
Proof.
  intros [Hm Hl Hq Hr] Hch Hrd. rewrite Hch in Hq.
  pose proof (queue_head L _ msg q _ (rsm r) Hq (proj1 (proj1 Hl)) eq_refl) as Hmsg.
  pose proof (reader_lastApplied L _ msg q _ (rsm r) Hq eq_refl) as Hla.
  constructor; simpl; [|by apply reader_at_log| |by destruct Hrd as [-> | ->]].
  - rewrite <-Hm. destruct msg as [[op|] index|data t index]; simpl; [|done|].
    + destruct (_ <=? _); [done|]. destruct (DoOp _ _). simpl. by destruct (_ !! _).
    + destruct (_ >? _); [|done]. unfold restoreSnapshot. destruct (_ <? _); [done|].
      destruct (gob_dec _) as [[]|]; [|done]. by destruct (_ >? _).
  - rewrite Hla. apply Hq.
Qed.

Lemma maybe_ok L i p r k : replica_inv L i p r ->
  replica_inv L i p (MkReplica (rsm r) (applyCh r)
    match maybeSnapshot (rsm r) k with Some (index, snap) => Snapshotting index snap | None => Reading end).
Proof.
  intros [Hm Hl Hq Hr]. constructor; simpl; auto. unfold maybeSnapshot. destruct (_ || _); [done|]. destruct (_ <? _); [done|].
  destruct Hl as [Hk Hsm]. split; [done|]. unfold encodeSnapshot. by rewrite Hsm.
Qed.

Lemma snap_of_range L k d : snap_of L k d -> 0 <= k <= len L.
Proof. by intros [? _]. Qed.

Lemma replica_range L i p r : replica_inv L i p r -> 0 <= lastApplied (raft p) <= len L.
Proof. intros [_ [Hk _] Hq _]. apply (queue_ok_range _ snap_of_range) in Hq; [lia|done]. Qed.

Lemma apply_ok_step s i p r c : svc_ok s -> procs (cluster s) !! i = Some p -> replicas s !! i = Some r ->
  exec (cluster s) (LApply i) = Next c ->
  exists msg, sent c = Some msg /\
    svc_ok (MkService c (<[i := MkReplica (rsm r) (applyCh r ++ [msg]) (reader r)]> (replicas s)) (record (oplog s) msg) (submitted s)).
Proof.
  intros Hs Hp Hr He. pose proof (so_replicas _ Hs _ _ _ Hp Hr) as Hi. destruct (record_app (oplog s) (default (CommandMsg None 0) (sent c))) as [x Hx].
  destruct (hist_apply n snap_of snap_of_app snap_of_range _ _ _ i p c (so_hist _ Hs) Hp (replica_range _ _ _ _ Hi) He) as (rf & msg & Hc & Hfo & Hla & Hmsg & Hh).
  rewrite Hc, sent_update in Hx. simpl in Hx. exists msg. split; [by rewrite Hc, sent_update|].
  constructor; simpl; [done|apply Hs|rewrite length_insert; apply Hs|].
  intros j q y Hq Hy. rewrite Hc in Hq. simpl in Hq.
  apply list_lookup_insert_Some in Hq as [(<- & <- & _)|[Hj Hq]];
    apply list_lookup_insert_Some in Hy as [(? & <- & _)|[Hj' Hy]]; try done.
  - destruct Hi as [H1 H2 H3 H4]. rewrite Hx in *. constructor; simpl; auto using at_log_app.
    + rewrite Hla. apply queue_ok_snoc with (lastApplied (raft p)); auto using queue_ok_app, snap_of_app.
    + destruct (reader r); auto using snap_of_app.
  - rewrite Hx. apply replica_inv_app. by apply Hs.
Qed.

Lemma fresh_replica_inv L i p (k : Z) snap : 0 <= k <= len L -> snap_from (snap_of L) k snap -> lastApplied (raft p) = k ->
  replica_inv L i p (MkReplica (MakeRSM (Z.of_nat i) snap maxraftstate s0 true) [] Reading).
Proof.
  intros Hk Hs Hp. assert (exec_log s0 L 0 = s0) as H0 by (unfold exec_log; by rewrite take_0).
  destruct Hs as [[-> ->]|[Hpos [_ ->]]].
  - constructor; simpl; auto. split; simpl; [lia|done].
  - unfold MakeRSM. rewrite restoreSnapshot_enc. constructor; simpl; auto; [split; simpl|]; rewrite ?Z.max_l by lia; auto; lia.
Qed.

Lemma restart_ok_step s i p r now c : svc_ok s -> procs (cluster s) !! i = Some p -> replicas s !! i = Some r ->
  exec (cluster s) (LRestart i now) = Next c ->
  svc_ok (MkService c (<[i := MkReplica (MakeRSM (Z.of_nat i) (ReadSnapshot (persister (raft p))) maxraftstate s0 true) [] Reading]>
                          (replicas s)) (oplog s) (submitted s)).
Proof.
  intros Hs Hp Hr He.
  destruct (hist_restart n snap_of snap_of_range _ _ _ i p now c (so_hist _ Hs) Hp He) as (rf & Hc & Hla & Hsn & Hh).
  constructor; simpl; [done|apply Hs|rewrite length_insert; apply Hs|].
  intros j q y Hq' Hy. rewrite Hc in Hq'. simpl in Hq'.
  apply list_lookup_insert_Some in Hq' as [(<- & <- & _)|[Hj Hq']];
    apply list_lookup_insert_Some in Hy as [(? & <- & _)|[Hj' Hy]]; try done; [|by apply Hs].
  by apply fresh_replica_inv with (lastApplied rf).
Qed.

Lemma Submit_fields (r : RSM S Rep) (req : Req) start :
  rsm_me (fst (Submit r req start)) = rsm_me r /\ rsm_sm (fst (Submit r req start)) = rsm_sm r /\
  rsm_lastApplied (fst (Submit r req start)) = rsm_lastApplied r.
Proof. unfold Submit. destruct (_ || _); [done|]. cbv zeta. destruct (start _) as [[index term] []]; done. Qed.

Lemma Submit_timeout_fields (r : RSM S Rep) w index t b :
  rsm_me (fst (Submit_timeout r w index t b)) = rsm_me r /\ rsm_sm (fst (Submit_timeout r w index t b)) = rsm_sm r /\
  rsm_lastApplied (fst (Submit_timeout r w index t b)) = rsm_lastApplied r.
Proof. unfold Submit_timeout. destruct (rsm_dead r); [done|]. cbv zeta. destruct (_ && _); done. Qed.

Lemma replica_inv_rsm L i p r (r' : RSM S Rep) : rsm_me r' = rsm_me (rsm r) /\ rsm_sm r' = rsm_sm (rsm r) /\
  rsm_lastApplied r' = rsm_lastApplied (rsm r) -> replica_inv L i p r -> replica_inv L i p (MkReplica r' (applyCh r) (reader r)).
Proof.
  intros (H1 & H2 & H3) [? [? ?] ? ?]. constructor; simpl; rewrite ?H1, ?H2, ?H3; auto. split; by rewrite ?H2, ?H3.
Qed.

(** What a Submit adds to the history. *)
Definition accepted_submit (i : nat) (r : RSM S Rep) (req : Req) (res : Z * Z * bool) : list (nat * nat * Op Req) :=
  match snd (Submit r req (fun _ => res)) with Waiting w _ => [(i, w_ch w, Submit_op r req)] | Refused _ => [] end.

Lemma Start_leader (rf : Raft (Op Req)) op rf' index term isLeader :
  Start rf op = Some (rf', (index, term, isLeader)) -> isLeader = State_eqb (state rf) Leader.
Proof.
  unfold Start, mbind, option_bind. destruct (State_eqb _ _); simpl; intros H; [|by simplify_eq].
  by repeat case_match; simplify_eq.
Qed.

Lemma submit_ok_step s i p r req rf res c : svc_ok s -> procs (cluster s) !! i = Some p -> replicas s !! i = Some r ->
  rsm_dead (rsm r) || negb (rsm_rf (rsm r)) = false -> Start (raft p) (Submit_op (rsm r) req) = Some (rf, res) ->
  exec (cluster s) (LStart i (Submit_op (rsm r) req)) = Next c ->
  svc_ok (MkService c (<[i := MkReplica (fst (Submit (rsm r) req (fun _ => res))) (applyCh r) (reader r)]> (replicas s))
            (oplog s) (submitted s ++ accepted_submit i (rsm r) req res)).
Proof.
  intros Hs Hp Hr Hrun Hst He. apply (quiet_ok s (LStart i (Submit_op (rsm r) req))); auto; [set_solver| | |by rewrite length_insert; apply Hs|].
  - intros j ch op [Hin|Hin]%elem_of_app; [by eapply so_mine|]. unfold accepted_submit in Hin. destruct (snd _); [by apply elem_of_nil in Hin|].
    apply list_elem_of_singleton in Hin. injection Hin as -> _ ->. apply (ri_me _ _ _ _ (so_replicas _ Hs _ _ _ Hp Hr)).
  - intros p' Hp' Hl. rewrite Hp in Hp'. injection Hp' as <-. destruct res as [[index term] isLeader]. apply Start_leader in Hst as ->.
    exists i. unfold accepted_submit, Submit. rewrite Hrun. simpl. unfold State_eqb. rewrite bool_decide_eq_true_2 by done. simpl.
    eexists. apply elem_of_app. right. apply list_elem_of_here.
  - apply (insert_replica_inv s i r); auto. intros q _ Hi. apply replica_inv_rsm; [|done]. apply Submit_fields.
Qed.

Definition from_step (l : SStep) (x : nat * nat * Op Req) : Prop :=
  match l with SSubmit i req => x.1.1 = i /\ Op_Req x.2 = req | _ => False end.

(** A step of the service: nothing panics, the invariant is kept and the two
    histories only grow. *)
Lemma sexec_ok s l : svc_ok s ->
  match sexec s l with
  | SDisabled => True
  | SPanic => False
  | SNext s' => svc_ok s' /\ (exists x, oplog s' = oplog s ++ x) /\
      exists y, submitted s' = submitted s ++ y /\ Forall (from_step l) y
  end.
Proof.
  intros Hs. destruct (ho_coupled _ _ _ _ _ (so_hist _ Hs)) as [a Ha].
  assert (forall s', svc_ok s' -> oplog s' = oplog s -> submitted s' = submitted s ->
    svc_ok s' /\ (exists x, oplog s' = oplog s ++ x) /\ exists y, submitted s' = submitted s ++ y /\ Forall (from_step l) y) as Hsame.
  { intros s' Hs' -> ->. split_and!; [done|exists []; by rewrite app_nil_r|exists []; by rewrite app_nil_r]. }
  destruct l as [l|i|i|i|i|i req|i w index|i now]; cbn [sexec]; unfold with_cluster, at_replica;
    try (destruct (procs (cluster s) !! i) as [p|] eqn:Hp; [|done]; destruct (replicas s !! i) as [r|] eqn:Hr; [|done]).
  - destruct (raft_internal l) eqn:Hl; [|done]. pose proof (exec_coupled n _ a l Ha) as Hc. destruct (exec (cluster s) l) as [| |c] eqn:He; auto.
    apply Hsame; auto. apply (quiet_ok s l); auto; try apply Hs; by destruct l.
  - destruct (_ <=? _)%nat; [|done]. pose proof (exec_coupled n _ a (LApply i) Ha) as Hc.
    destruct (exec (cluster s) (LApply i)) as [| |c] eqn:He; auto.
    destruct (apply_ok_step s i p r c Hs Hp Hr He) as (msg & -> & Hok). split_and!; [done|apply record_app|exists []; by rewrite app_nil_r].
  - destruct (applyCh r) as [|msg q] eqn:Hq; [done|]. destruct (reader r); try done. apply Hsame; auto.
    apply (set_replica_ok s i r); auto. intros. apply read_ok with (msg := msg); auto. destruct (reader_applies _ _); auto.
  - destruct (reader r); try done. apply Hsame; auto. apply (set_replica_ok s i r); auto. intros. by apply maybe_ok.
  - destruct (reader r) as [| |index snap] eqn:Hrd; try done.
    pose proof (exec_coupled n _ a (LSnapshot i index snap) Ha) as Hc. destruct (exec (cluster s) (LSnapshot i index snap)) as [| |c] eqn:He; auto.
    apply Hsame; auto. apply (quiet_ok s (LSnapshot i index snap)); auto; [apply Hs| |by rewrite length_insert; apply Hs|].
    + destruct (so_replicas _ Hs _ _ _ Hp Hr) as [_ _ _ Hri]. by rewrite Hrd in Hri.
    + apply (insert_replica_inv s i r); auto. intros q _ [? ? ? ?]. by constructor.
  - destruct (_ || _) eqn:Hrun; [by apply Hsame|]. pose proof (exec_coupled n _ a (LStart i (Submit_op (rsm r) req)) Ha) as Hc.
    destruct (exec (cluster s) (LStart i (Submit_op (rsm r) req))) as [| |c] eqn:He.
    + unfold exec, at_proc in He. rewrite Hp in He. by destruct (Start _ _) as [[]|].
    + done.
    + destruct (Start (raft p) (Submit_op (rsm r) req)) as [[rf res]|] eqn:Hst.
      * pose proof (submit_ok_step s i p r req rf res c Hs Hp Hr Hrun Hst He) as Hok. unfold accepted_submit in Hok.
        destruct (Submit (rsm r) req (fun _ => res)) as [r' out] eqn:Hsub. simpl in Hok. split_and!; [done|exists []; by rewrite app_nil_r|].
        eexists. split; [done|]. destruct out; repeat constructor.
      * unfold exec, at_proc in He. by rewrite Hp, Hst in He.
  - destruct (GetState (raft p)) as [t b]. apply Hsame; auto. apply (set_replica_ok s i r); auto. intros q _ Hi.
    apply replica_inv_rsm; [|done]. apply Submit_timeout_fields.
  - pose proof (exec_coupled n _ a (LRestart i now) Ha) as Hc. destruct (exec (cluster s) (LRestart i now)) as [| |c] eqn:He; auto.
    apply Hsame; auto. by apply (restart_ok_step s i p r now c).
Qed.

Lemma init_service_ok : exists s, init_service = Some s /\ svc_ok s /\ submitted s = [] /\ oplog s = [].
Proof.
  destruct (init_coupled (Cmd := Op Req) n) as (c & Hc & Ha). destruct (init_applied n c Hc) as (Hlen & Hd & Hla).
  unfold init_service. rewrite Hc. simpl. eexists. split; [done|]. split; [|done]. constructor; simpl; eauto.
  - apply hist_init; eauto.
  - by intros i ch op ?%elem_of_nil.
  - by rewrite length_fmap, length_seq.
  - intros i p r Hp Hr. rewrite list_lookup_fmap in Hr. destruct (seq 0 n !! i) as [j|] eqn:Hj; [|done].
    apply lookup_seq in Hj as [-> _]. simpl in Hr. injection Hr as <-. apply (fresh_replica_inv [] i p 0); simpl; [lia|by left|eauto].
Qed.

(** *** Runs *)

Definition svc_grows (s s' : Service) : Prop := (exists x, oplog s' = oplog s ++ x) /\ exists y, submitted s' = submitted s ++ y.

Lemma svc_grows_refl s : svc_grows s s.
Proof. split; exists []; by rewrite app_nil_r. Qed.

Lemma svc_grows_trans s1 s2 s3 : svc_grows s1 s2 -> svc_grows s2 s3 -> svc_grows s1 s3.
Proof. intros [[x1 H1] [y1 H2]] [[x2 H3] [y2 H4]]. split; eexists; rewrite ?H3, ?H4, ?H1, ?H2; by rewrite <-app_assoc. Qed.

Lemma srun_ok s ls : svc_ok s -> exists s', srun s ls = SNext s' /\ svc_ok s' /\ svc_grows s s' /\
  forall i ch op, (i, ch, op) ∈ submitted s' -> (i, ch, op) ∈ submitted s \/ SSubmit i (Op_Req op) ∈ ls.
Proof.
  revert s. induction ls as [|l ls IH]; intros s Hs; simpl; [exists s; split_and!; auto using svc_grows_refl|].
  pose proof (sexec_ok s l Hs) as Hl. destruct (sexec s l) as [| |s1]; [|done|].
  - destruct (IH s Hs) as (s' & ? & ? & ? & Hsub). exists s'. split_and!; auto. intros i ch op Hin. destruct (Hsub _ _ _ Hin); [auto|].
    right. by apply list_elem_of_further.
  - destruct Hl as (Hs1 & Hx & y & Hy & Hfr). destruct (IH s1 Hs1) as (s' & ? & ? & Hg & Hsub). exists s'. split_and!; auto.
    + eapply svc_grows_trans; [|done]. split; eauto.
    + intros i ch op Hin. destruct (Hsub _ _ _ Hin) as [Hin1|?]; [|right; by apply list_elem_of_further].
      rewrite Hy in Hin1. apply elem_of_app in Hin1 as [?|Hin1]; [by left|]. right.
      rewrite Forall_forall in Hfr. apply Hfr in Hin1. destruct l; simpl in Hin1; try done.
      destruct Hin1 as [<- ->]. apply list_elem_of_here.
Qed.

Lemma srun_app s ls1 ls2 : srun s (ls1 ++ ls2) = match srun s ls1 with SNext s1 => srun s1 ls2 | o => o end.
Proof. revert s. induction ls1 as [|l ls1 IH]; intros s; simpl; [done|]. destruct (sexec s l); auto. Qed.

(** *** Answers *)

(** The Submits of peer [i]. *)
Definition subs_of (i : nat) s : list (nat * Op Req) :=
  omap (fun '(j, ch, op) => if decide (j = i) then Some (ch, op) else None) (submitted s).

Lemma subs_of_elem i s ch op : (ch, op) ∈ subs_of i s <-> (i, ch, op) ∈ submitted s.
Proof.
  unfold subs_of. rewrite list_elem_of_omap. split.
  - intros ([[j ch'] op'] & Hin & Hx). destruct (decide (j = i)) as [->|]; [|done]. by injection Hx as -> ->.
  - intros Hin. exists (i, ch, op). split; [done|]. by rewrite decide_True by done.
Qed.

Lemma subs_of_same i s s' y : submitted s' = submitted s ++ y -> Forall (fun x => x.1.1 <> i) y -> subs_of i s' = subs_of i s.
Proof.
  intros Hs Hy. unfold subs_of. rewrite Hs, omap_app.
  assert (omap (fun '(j, ch, op) => if decide (j = i) then Some (ch, op) else None) y = []) as ->; [|by rewrite app_nil_r].
  clear Hs. induction Hy as [|[[j ch] op] y Hj Hy IH]; simpl in *; [done|]. by rewrite decide_False.
Qed.

(** Peer [i] takes part in a step by one event of its RSM, or not at all. *)
Definition rsm_step (i : nat) s (r : Replica) s' (r' : Replica) : Prop :=
  rsm r' = rsm r /\ subs_of i s' = subs_of i s \/
  exists ev, rsm r' = step (rsm r) ev /\ subs_of i s' = subs_of i s ++ submits (rsm r) ev /\
    match ev with ERead msg => msg_of_log s0 (oplog s) (rsm r) msg | _ => True end.

Lemma rsm_step_insert i j s r s' (x : Replica) : replicas s' = <[j := x]> (replicas s) -> replicas s !! i = Some r ->
  (j <> i -> subs_of i s' = subs_of i s) -> (j = i -> rsm_step i s r s' x) -> exists r', replicas s' !! i = Some r' /\ rsm_step i s r s' r'.
Proof.
  intros Hrs Hr Hne Heq. rewrite Hrs. destruct (decide (j = i)) as [->|Hji].
  - exists x. split; [|auto]. apply list_lookup_insert_eq. by apply lookup_lt_Some in Hr.
  - exists r. split; [by rewrite list_lookup_insert_ne|]. left. auto.
Qed.

Lemma sexec_rsm s l s' i r : svc_ok s -> sexec s l = SNext s' -> replicas s !! i = Some r ->
  (forall now, l <> SRestart i now) -> exists r', replicas s' !! i = Some r' /\ rsm_step i s r s' r'.
Proof.
  intros Hs He Hr Hnr.
  assert (forall s1, submitted s1 = submitted s -> subs_of i s1 = subs_of i s) as Hsub by (intros s1 Hs1; unfold subs_of; by rewrite Hs1).
  destruct l as [l|j|j|j|j|j req|j w index|j now]; cbn [sexec] in He; unfold with_cluster, at_replica in He;
    try (destruct (procs (cluster s) !! j) as [p|] eqn:Hp; [|done]; destruct (replicas s !! j) as [x|] eqn:Hx; [|done]).
  - destruct (raft_internal l); [|done]. destruct (exec _ _); simplify_eq/=. exists r. split; [done|]. left. auto.
  - destruct (_ <=? _)%nat; [|done]. destruct (exec _ _) as [| |c]; try done. destruct (sent c); simplify_eq.
    + eapply rsm_step_insert; eauto. intros ->. left. rewrite Hr in Hx. simplify_eq. auto.
    + exists r. split; [done|]. left. auto.
  - destruct (applyCh x) as [|msg q] eqn:Hq; [done|]. destruct (reader x); simplify_eq.
    eapply rsm_step_insert; eauto. intros ->. rewrite Hr in Hx. injection Hx as <-. right. exists (ERead msg). split_and!; [done| |].
    + simpl. by rewrite app_nil_r.
    + destruct (so_replicas _ Hs _ _ _ Hp Hr) as [_ Hl Hqu _]. rewrite Hq in Hqu. eapply queue_head; eauto. apply Hl.
  - destruct (reader x); simplify_eq. eapply rsm_step_insert; eauto. intros ->. left. rewrite Hr in Hx. simplify_eq. auto.
  - destruct (reader x); try done. destruct (exec _ _); simplify_eq. eapply rsm_step_insert; eauto. intros ->. left. rewrite Hr in Hx. simplify_eq. auto.
  - destruct (_ || _) eqn:Hrun; simplify_eq; [exists r; split; [done|]; left; auto|].
    destruct (Start _ _) as [[rf [[index term] b]]|]; [|done]. destruct (exec _ _) as [| |c]; try done.
    destruct (Submit _ _ _) as [x' out] eqn:Hsu. injection He as <-. eapply rsm_step_insert; [done|done|..].
    + intros Hj. eapply subs_of_same; [done|]. destruct out; [constructor|]. by apply Forall_singleton.
    + intros ->. rewrite Hr in Hx. injection Hx as <-. right. exists (ESubmit req index term b). simpl. rewrite Hsu. split_and!; auto.
      unfold subs_of at 1. simpl. rewrite omap_app. f_equal. destruct out; [done|]. simpl. by rewrite decide_True.
  - destruct (GetState (raft p)) as [t b]. simplify_eq. eapply rsm_step_insert; eauto. intros ->. rewrite Hr in Hx. injection Hx as <-.
    right. exists (ETimeout w index t b). split_and!; auto. simpl. by rewrite app_nil_r.
  - destruct (exec _ _); simplify_eq. eapply rsm_step_insert; eauto. intros ->. by destruct (Hnr now).
Qed.

Lemma replica_ok_mono L L' H H' me (r : RSM S Rep) : H ⊆ H' -> replica_ok s0 L H me r -> replica_ok s0 (L ++ L') H' me r.
Proof.
  intros HH [Hm Hl Hp Hc]. constructor; auto using at_log_app.
  - intros idx w Hw. destruct (Hp _ _ Hw) as (op & Hin & Hid). exists op. split; [by apply HH|done].
  - intros ch v Hv. destruct (Hc _ _ Hv) as (op & j & Hin & Hj & ->). exists op, j. split_and!; [by apply HH|by apply lookup_app_l_Some|].
    rewrite exec_log_app; [done|]. apply lookup_lt_Some in Hj. lia.
Qed.

(** The state of a peer that has not restarted, after at most [N] steps. *)
Record ans_ok (i : nat) (N : Z) s r : Prop := {
  an_ok : replica_ok s0 (oplog s) (subs_of i s) (Z.of_nat i) (rsm r);
  an_ids : forall ch op, (ch, op) ∈ subs_of i s -> Op_Id op <= rsm_nextId (rsm r);
  an_unique : forall c1 o1 c2 o2, (c1, o1) ∈ subs_of i s -> (c2, o2) ∈ subs_of i s -> Op_Id o1 = Op_Id o2 -> c1 = c2 /\ o1 = o2;
  an_next : 0 <= rsm_nextId (rsm r) <= N;
}.

Lemma own_op i s op : svc_ok s -> op ∈ oplog s -> Op_Me op = Z.of_nat i -> exists ch, (ch, op) ∈ subs_of i s.
Proof.
  intros Hs [k Hk]%list_elem_of_lookup Hme. destruct (ho_log _ _ _ _ _ (so_hist _ Hs) _ _ Hk) as [(j & ch & Hin) _].
  rewrite (so_mine _ Hs _ _ _ Hin) in Hme. apply Nat2Z.inj in Hme as ->. exists ch. by apply subs_of_elem.
Qed.

Lemma ans_step i N s r s' r' : svc_ok s -> (exists x, oplog s' = oplog s ++ x) -> N < 2 ^ 63 - 1 ->
  rsm_step i s r s' r' -> ans_ok i N s r -> ans_ok i (N + 1) s' r'.
Proof.
  intros Hs [x Hx] HN [[Hr Hsub]|(ev & Hr & Hsub & Hev)] [Hok Hids Huniq Hnext].
  - constructor; rewrite ?Hr, ?Hsub, ?Hx; auto; [by apply (replica_ok_mono _ _ (subs_of i s))|lia].
  - destruct (step_nextId (rsm r) ev) as (_ & Hn & Hnew); [lia|].
    assert (forall ch op, (ch, op) ∈ subs_of i s' -> (ch, op) ∈ subs_of i s \/ Op_Id op = rsm_nextId (rsm r) + 1 /\ (ch, op) ∈ submits (rsm r) ev) as Hcase.
    { intros ch op Hin. rewrite Hsub in Hin. apply elem_of_app in Hin as [?|Hin]; [by left|right]. destruct (Hnew _ _ Hin) as (_ & ? & _). auto. }
    assert (forall c1 o1 c2 o2, (c1, o1) ∈ submits (rsm r) ev -> (c2, o2) ∈ submits (rsm r) ev -> c1 = c2 /\ o1 = o2) as Hone.
    { intros c1 o1 c2 o2. destruct ev; simpl; try by intros ?%elem_of_nil. destruct (snd _); [by intros ?%elem_of_nil|].
      intros H1%list_elem_of_singleton H2%list_elem_of_singleton. by simplify_eq. }
    assert (forall c1 o1 c2 o2, (c1, o1) ∈ subs_of i s' -> (c2, o2) ∈ subs_of i s' -> Op_Id o1 = Op_Id o2 -> c1 = c2 /\ o1 = o2) as Huniq'.
    { intros c1 o1 c2 o2 [H1|[H1 H1']]%Hcase [H2|[H2 H2']]%Hcase Heq; [by apply Huniq|..|by apply Hone].
      - specialize (Hids _ _ H1). lia.
      - specialize (Hids _ _ H2). lia. }
    constructor; rewrite ?Hr; [|..|lia]; auto.
    + rewrite Hx. apply (replica_ok_mono _ _ (subs_of i s')); [done|].
      apply step_ok; auto; [|rewrite <-(app_nil_r (oplog s)); apply (replica_ok_mono _ _ (subs_of i s)); [rewrite Hsub; set_solver|done]|rewrite Hsub; set_solver].
      intros op Hop Hme. destruct (own_op i s op Hs Hop Hme) as [ch Hch]. exists ch. rewrite Hsub. set_solver.
    + intros ch op [Hin|[Hid Hin]]%Hcase; [specialize (Hids _ _ Hin); lia|]. destruct (Hnew _ _ Hin) as (_ & _ & ->). lia.
Qed.

Definition not_restarted (i : nat) (ls : list SStep) : Prop :=
  Forall (fun l => match l with SRestart j _ => j <> i | _ => True end) ls.

Lemma srun_ans i N s r ls : svc_ok s -> replicas s !! i = Some r -> ans_ok i N s r -> not_restarted i ls -> N + len ls < 2 ^ 63 - 1 ->
  exists s' r' N', srun s ls = SNext s' /\ replicas s' !! i = Some r' /\ ans_ok i N' s' r'.
Proof.
  intros Hs Hr Ha Hnr. revert N s r Hs Hr Ha. induction Hnr as [|l ls Hl Hnr IH]; intros N s r Hs Hr Ha HN; simpl; [by exists s, r, N|].
  simpl in HN. pose proof (sexec_ok s l Hs) as Hstep. destruct (sexec s l) as [| |s1] eqn:He; [|done|].
  - apply (IH N s r); auto. lia.
  - destruct Hstep as (Hs1 & Hx & _). destruct (sexec_rsm s l s1 i r Hs He Hr) as (r1 & Hr1 & Hst); [by intros now ->|].
    apply (IH (N + 1) s1 r1); auto; [|lia]. apply (ans_step i N s r); auto. lia.
Qed.

Lemma init_ans s i r : init_service = Some s -> replicas s !! i = Some r -> ans_ok i 0 s r.
Proof.
  unfold init_service. destruct (init_cluster n); [|done]. simpl. intros [= <-] Hr. simpl in Hr.
  rewrite list_lookup_fmap in Hr. destruct (seq 0 n !! i) as [j|] eqn:Hj; [|done]. apply lookup_seq in Hj as [-> _]. simpl in Hr. injection Hr as <-.
  constructor; simpl; [apply MakeRSM_fresh_ok| | |lia]; unfold subs_of; simpl; intros; by set_solver.
Qed.

Lemma run_ans ls s i r : service_run ls = SNext s -> replicas s !! i = Some r -> not_restarted i ls -> len ls < 2 ^ 63 - 1 ->
  exists N, ans_ok i N s r.
Proof.
  unfold service_run. destruct init_service_ok as (si & Hi & Hs & _). rewrite Hi. intros Hrun Hr Hnr Hlen.
  assert (length (replicas si) = length (replicas s)) as Hll.
  { rewrite (so_len _ Hs). destruct (srun_ok si ls Hs) as (s' & Hs' & Hok & _). rewrite Hrun in Hs'. injection Hs' as <-. by rewrite (so_len _ Hok). }
  apply lookup_lt_Some in Hr as Hlt. destruct (lookup_lt_is_Some_2 (replicas si) i) as [ri Hri]; [lia|].
  destruct (srun_ans i 0 si ri ls Hs Hri (init_ans si i ri Hi Hri) Hnr) as (s' & r' & N & Hs' & Hr' & Ha); [lia|].
  rewrite Hrun in Hs'. injection Hs' as <-. rewrite Hr in Hr'. injection Hr' as <-. by exists N.
Qed.

Lemma run_svc_ok ls s : service_run ls = SNext s -> svc_ok s.
Proof.
  unfold service_run. destruct init_service_ok as (si & -> & Hs & _). intros Hrun.
  destruct (srun_ok si ls Hs) as (s' & Hs' & Hok & _). rewrite Hrun in Hs'. by injection Hs' as <-.
Qed.

Lemma run_grows ls1 ls2 s1 s2 : service_run ls1 = SNext s1 -> service_run (ls1 ++ ls2) = SNext s2 -> svc_grows s1 s2.
Proof.
  unfold service_run. destruct init_service_ok as (si & -> & Hs & _). intros H1 H2. rewrite srun_app, H1 in H2.
  destruct (srun_ok si ls1 Hs) as (s' & Hs' & Hok & _). rewrite H1 in Hs'. injection Hs' as <-.
  destruct (srun_ok s1 ls2 Hok) as (s'' & Hs'' & _ & Hg & _). rewrite H2 in Hs''. by injection Hs'' as <-.
Qed.

(** An answer on a channel that no Submit used before is that of an operation
    later in the log. *)
Lemma answer_after (ls1 ls2 : list SStep) s1 s2 j r2 ch2 v2 :
  service_run ls1 = SNext s1 -> service_run (ls1 ++ ls2) = SNext s2 ->
  not_restarted j (ls1 ++ ls2) -> len (ls1 ++ ls2) < 2 ^ 63 - 1 ->
  replicas s2 !! j = Some r2 -> rsm_chans (rsm r2) !! ch2 = Some (MkOpResult v2 OK) ->
  Forall (fun x => x.1 <> (j, ch2)) (submitted s1) ->
  exists op2 (k2 : nat), (length (oplog s1) <= k2)%nat /\ oplog s2 !! k2 = Some op2 /\
    (j, ch2, op2) ∈ submitted s2 /\ v2 = Some (snd (DoOp (exec_log s0 (oplog s2) k2) (Op_Req op2))).
Proof.
  intros Hrun1 Hrun2 Hnr Hlen Hr2 Hc2 Hnew. destruct (run_ans (ls1 ++ ls2) s2 j r2 Hrun2 Hr2 Hnr Hlen) as [N2 Ha2].
  destruct (ro_chans _ _ _ _ _ (an_ok _ _ _ _ Ha2) _ _ Hc2) as (op2 & k2 & Hin2 & Hk2 & Hv2).
  destruct (run_grows ls1 ls2 s1 s2 Hrun1 Hrun2) as [[x Hx] [y Hy]]. apply run_svc_ok in Hrun1 as Hok1. apply run_svc_ok in Hrun2 as Hok2.
  exists op2, k2. split_and!; [|done|by apply subs_of_elem|done].
  destruct (decide (k2 < length (oplog s1))%nat) as [Hlt|]; [|lia]. exfalso.
  rewrite Hx, lookup_app_l in Hk2 by done. apply subs_of_elem in Hin2 as Hs2. destruct (own_op j s1 op2 Hok1) as [ch' Hch'].
  - by eapply list_elem_of_lookup_2.
  - by eapply so_mine.
  - assert ((ch', op2) ∈ subs_of j s2) as Hs2'. { apply subs_of_elem. rewrite Hy. apply subs_of_elem in Hch'. set_solver. }
    destruct (an_unique _ _ _ _ Ha2 _ _ _ _ Hs2' Hin2 eq_refl) as [-> _]. apply subs_of_elem in Hch'.
    rewrite Forall_forall in Hnew. by apply Hnew in Hch'.
Qed.

Lemma service_linearizable (ls1 ls2 : list SStep) s1 s2 i j r1 r2 ch1 ch2 v1 v2 :
  service_run ls1 = SNext s1 -> service_run (ls1 ++ ls2) = SNext s2 ->
  not_restarted i (ls1 ++ ls2) -> not_restarted j (ls1 ++ ls2) -> len (ls1 ++ ls2) < 2 ^ 63 - 1 ->
  replicas s1 !! i = Some r1 -> rsm_chans (rsm r1) !! ch1 = Some (MkOpResult v1 OK) ->
  replicas s2 !! j = Some r2 -> rsm_chans (rsm r2) !! ch2 = Some (MkOpResult v2 OK) ->
  Forall (fun x => x.1 <> (j, ch2)) (submitted s1) ->
  exists op1 op2 (k1 k2 : nat), (k1 < k2)%nat /\ oplog s2 !! k1 = Some op1 /\ oplog s2 !! k2 = Some op2 /\
    (i, ch1, op1) ∈ submitted s1 /\ (j, ch2, op2) ∈ submitted s2 /\
    v1 = Some (snd (DoOp (exec_log s0 (oplog s2) k1) (Op_Req op1))) /\
    v2 = Some (snd (DoOp (exec_log s0 (oplog s2) k2) (Op_Req op2))).
Proof.
  intros Hrun1 Hrun2 Hnr1 Hnr2 Hlen Hr1 Hc1 Hr2 Hc2 Hnew.
  destruct (run_ans ls1 s1 i r1 Hrun1 Hr1) as [N1 Ha1]; [by apply Forall_app in Hnr1 as [? _]|rewrite length_app in Hlen; lia|].
  destruct (ro_chans _ _ _ _ _ (an_ok _ _ _ _ Ha1) _ _ Hc1) as (op1 & k1 & Hin1 & Hk1 & Hv1). rewrite subs_of_elem in Hin1.
  destruct (answer_after ls1 ls2 s1 s2 j r2 ch2 v2) as (op2 & k2 & Hle & Hk2 & Hin2 & Hv2); auto.
  destruct (run_grows ls1 ls2 s1 s2 Hrun1 Hrun2) as [[x Hx] _]. apply lookup_lt_Some in Hk1 as Hlt1.
  exists op1, op2, k1, k2. split_and!; [lia|rewrite Hx; by apply lookup_app_l_Some|done|done|done|rewrite Hx, exec_log_app by lia; done|done].
Qed.

(** *** Channels

    A peer that has not restarted uses each channel once. *)
Record chans_ok (i : nat) s r : Prop := {
  ck_lt : forall ch op, (ch, op) ∈ subs_of i s -> (ch < rsm_nchans (rsm r))%nat;
  ck_unique : forall ch op1 op2, (ch, op1) ∈ subs_of i s -> (ch, op2) ∈ subs_of i s -> op1 = op2;
}.

Lemma step_nchans (r : RSM S Rep) ev : (rsm_nchans r <= rsm_nchans (step r ev))%nat /\
  forall ch op, (ch, op) ∈ submits r ev -> ch = rsm_nchans r /\ rsm_nchans (step r ev) = Datatypes.S ch.
Proof.
  destruct ev as [req index term b|msg|w index t b|]; simpl.
  - unfold Submit. destruct (_ || _); [simpl; set_solver|]. cbv zeta. destruct (negb b); simpl; [set_solver|].
    split; [lia|]. intros ch op [= -> _]%list_elem_of_singleton. done.
  - split; [|set_solver]. unfold reader_msg, restoreSnapshot. destruct msg; repeat case_match; simpl; lia.
  - split; [|set_solver]. unfold Submit_timeout. destruct (rsm_dead r); [done|]. cbv zeta. destruct (_ && _); simpl; lia.
  - split; [|set_solver]. done.
Qed.

Lemma chans_step i s r s' r' : rsm_step i s r s' r' -> chans_ok i s r -> chans_ok i s' r'.
Proof.
  intros [[Hr Hsub]|(ev & Hr & Hsub & _)] [Hlt Hu]; [constructor; rewrite ?Hr, ?Hsub; auto|].
  destruct (step_nchans (rsm r) ev) as [Hle Hnew]. constructor; rewrite ?Hr, ?Hsub.
  - intros ch op [Hin|Hin]%elem_of_app; [specialize (Hlt _ _ Hin); lia|]. destruct (Hnew _ _ Hin). lia.
  - intros ch op1 op2 [H1|H1]%elem_of_app [H2|H2]%elem_of_app; [by eapply Hu|..].
    + specialize (Hlt _ _ H1). destruct (Hnew _ _ H2). lia.
    + specialize (Hlt _ _ H2). destruct (Hnew _ _ H1). lia.
    + destruct ev; simpl in H1, H2; try by apply elem_of_nil in H1. destruct (snd _); [by apply elem_of_nil in H1|].
      apply list_elem_of_singleton in H1, H2. congruence.
Qed.

Lemma srun_chans i s r ls s' : svc_ok s -> replicas s !! i = Some r -> chans_ok i s r -> not_restarted i ls -> srun s ls = SNext s' ->
  exists r', replicas s' !! i = Some r' /\ chans_ok i s' r'.
Proof.
  intros Hs Hr Hc Hnr. revert s r Hs Hr Hc. induction Hnr as [|l ls Hl Hnr IH]; intros s r Hs Hr Hc Hrun; simpl in Hrun; [simplify_eq; by exists r|].
  pose proof (sexec_ok s l Hs) as Hstep. destruct (sexec s l) as [| |s1] eqn:He; [by apply (IH s r)|done|].
  destruct Hstep as (Hs1 & _). destruct (sexec_rsm s l s1 i r Hs He Hr) as (r1 & Hr1 & Hst); [by intros now ->|].
  apply (IH s1 r1); auto. by eapply chans_step.
Qed.

Lemma run_chans ls s i r : service_run ls = SNext s -> replicas s !! i = Some r -> not_restarted i ls -> chans_ok i s r.
Proof.
  unfold service_run. destruct init_service_ok as (si & Hi & Hs & Hsub & _). rewrite Hi. intros Hrun Hr Hnr.
  destruct (srun_ok si ls Hs) as (s' & Hs' & Hok & _). rewrite Hrun in Hs'. injection Hs' as <-.
  apply lookup_lt_Some in Hr as Hlt. destruct (lookup_lt_is_Some_2 (replicas si) i) as [ri Hri]; [rewrite (so_len _ Hs), <-(so_len _ Hok); done|].
  destruct (srun_chans i si ri ls s Hs Hri) as (r' & Hr' & Hc); auto; [|by simplify_eq].
  constructor; unfold subs_of; rewrite Hsub; simpl; intros; by set_solver.
Qed.

(** The log grows by at most one operation a step. *)
Lemma sexec_oplog s l s' : sexec s l = SNext s' -> (length (oplog s') <= Datatypes.S (length (oplog s)))%nat.
Proof.
  assert (forall s1, oplog s1 = oplog s -> (length (oplog s1) <= Datatypes.S (length (oplog s)))%nat) as Hsame by (intros s1 ->; lia).
  destruct l as [l|i|i|i|i|i req|i w index|i now]; cbn [sexec]; unfold with_cluster, at_replica; intros H;
    repeat case_match; simplify_eq; try (by apply Hsame). simpl. unfold record. destruct a as [[op|] idx|]; try lia.
  destruct (_ =? _); rewrite ?length_app; simpl; lia.
Qed.

Lemma run_oplog ls s : service_run ls = SNext s -> (length (oplog s) <= length ls)%nat.
Proof.
  unfold service_run. destruct init_service_ok as (si & -> & _ & _ & Hlog). assert (length (oplog si) = 0%nat) as Hz by (by rewrite Hlog).
  intros Hrun. enough (forall k, (length (oplog si) <= k)%nat -> (length (oplog s) <= k + length ls)%nat) as H by (apply (H 0%nat); lia).
  clear Hlog Hz. revert si Hrun. induction ls as [|l ls IH]; intros si Hrun k Hk; simpl in Hrun; [simplify_eq; simpl; lia|].
  destruct (sexec si l) as [| |s1] eqn:He; [apply (IH _ Hrun) in Hk; simpl; lia|done|].
  apply sexec_oplog in He. assert (length (oplog s1) <= Datatypes.S k)%nat as H1 by lia. apply (IH _ Hrun) in H1. simpl. lia.
Qed.

Lemma service_one_log (ls : list SStep) :
  exists s, service_run ls = SNext s /\
    (forall i r, replicas s !! i = Some r -> 0 <= rsm_lastApplied (rsm r) <= len (oplog s) /\
       rsm_sm (rsm r) = exec_log s0 (oplog s) (Z.to_nat (rsm_lastApplied (rsm r)))) /\
    (forall op, op ∈ oplog s -> exists i, Op_Me op = Z.of_nat i /\ SSubmit i (Op_Req op) ∈ ls).
Proof.
  unfold service_run. destruct init_service_ok as (si & -> & Hs & Hsub & _).
  destruct (srun_ok si ls Hs) as (s & Hrun & Hok & _ & Hfrom). exists s. split_and!; [done| |].
  - intros i r Hr. apply lookup_lt_Some in Hr as Hlt. rewrite (so_len _ Hok) in Hlt. destruct (ho_coupled _ _ _ _ _ (so_hist _ Hok)) as [a Ha].
    destruct (lookup_lt_is_Some_2 (procs (cluster s)) i) as [p Hp]; [by rewrite (cp_len _ _ _ Ha)|].
    exact (ri_log _ _ _ _ (so_replicas _ Hok _ _ _ Hp Hr)).
  - intros op [k Hk]%list_elem_of_lookup. destruct (ho_log _ _ _ _ _ (so_hist _ Hok) _ _ Hk) as [(i & ch & Hin) _].
    exists i. split; [by eapply so_mine|]. destruct (Hfrom _ _ _ Hin) as [Hf|]; [|done]. rewrite Hsub in Hf. by apply elem_of_nil in Hf.
Qed.

(** ** Theorems *)

(** C16 (refinement): replicas compute one log.  Whatever the network does and
    whichever peers restart, a replicated service never panics, and there is
    one sequence of operations, each of them submitted by a client at the
    peer it names, such that the state machine of every replica is the one
    that executed a prefix of it: replicas that have applied equally many
    operations are in the same state. *)
Theorem replicated_service_one_log (ls : list SStep) :
  exists s, service_run ls = SNext s /\
    (forall i r, replicas s !! i = Some r -> 0 <= rsm_lastApplied (rsm r) <= len (oplog s) /\
       rsm_sm (rsm r) = exec_log s0 (oplog s) (Z.to_nat (rsm_lastApplied (rsm r)))) /\
    (forall op, op ∈ oplog s -> exists i, Op_Me op = Z.of_nat i /\ SSubmit i (Op_Req op) ∈ ls).
Proof. apply service_one_log. Qed.

(** C17 (safety): a replicated service is linearizable.  If a Submit has been
    answered with OK before another Submit is made, at any two peers that
    have not restarted, in fewer than 2^63 - 1 steps, then both operations are in the one log of the
    service, in that order, and each answer is what the state machine returns
    for its operation at its position in the log. *)
Theorem replicated_service_linearizable (ls1 ls2 : list SStep) s1 s2 i j r1 r2 ch1 ch2 v1 v2 :
  service_run ls1 = SNext s1 -> service_run (ls1 ++ ls2) = SNext s2 ->
  not_restarted i (ls1 ++ ls2) -> not_restarted j (ls1 ++ ls2) -> len (ls1 ++ ls2) < 2 ^ 63 - 1 ->
  replicas s1 !! i = Some r1 -> rsm_chans (rsm r1) !! ch1 = Some (MkOpResult v1 OK) ->
  replicas s2 !! j = Some r2 -> rsm_chans (rsm r2) !! ch2 = Some (MkOpResult v2 OK) ->
  Forall (fun x => x.1 <> (j, ch2)) (submitted s1) ->
  exists op1 op2 (k1 k2 : nat), (k1 < k2)%nat /\ oplog s2 !! k1 = Some op1 /\ oplog s2 !! k2 = Some op2 /\
    (i, ch1, op1) ∈ submitted s1 /\ (j, ch2, op2) ∈ submitted s2 /\
    v1 = Some (snd (DoOp (exec_log s0 (oplog s2) k1) (Op_Req op1))) /\
    v2 = Some (snd (DoOp (exec_log s0 (oplog s2) k2) (Op_Req op2))).
Proof. apply service_linearizable. Qed.

End Laws.
End Replicated.

(** ** A run of the counter service on three peers

    Peer 0 is elected, two Incs are submitted one after the other, peer 1
    replicates them. *)

Definition elect_0 : list (SStep (Req := CounterReq)) :=
  SRaft <$> [LElection 0 1; LVoteRequest 0 0 1; LVote 0 2; LVoteReply 0 1 3].
Definition round_1 : list (SStep (Req := CounterReq)) :=
  [SSubmit 0 Inc; SRaft (LReplicate 0 1); SRaft (LAppend 2 4); SRaft (LAppendReply 3); SApply 0; SRead 0].
Definition round_2 : list (SStep (Req := CounterReq)) :=
  [SMaybe 0; SSnapshot 0; SSubmit 0 Inc; SRaft (LReplicate 0 1); SRaft (LAppend 4 5); SRaft (LAppendReply 5); SApply 0; SRead 0;
   SApply 1; SRead 1; SRestart 1 9].

Section Get.
Context {S Req Rep : Type} `{!StateMachine S Req Rep} `{GS : Gob SnapshotData}.
Definition service_of (o : SOutcome (S := S) (Req := Req) (Rep := Rep)) : Service :=
  match o with SNext s => s | _ => MkService (MkCluster [] [] []) [] [] [] end.
Definition replica_of (s0 : S) (s : Service (S := S) (Req := Req) (Rep := Rep)) (i : nat) : Replica :=
  default (MkReplica (MakeRSM (Req := Req) 0 [] 0 s0 true) [] Reading) (replicas s !! i).
End Get.

Definition after_1 := service_of (service_run 3 1 0 (elect_0 ++ round_1)).
Definition after_2 := service_of (service_run 3 1 0 ((elect_0 ++ round_1) ++ round_2)).

Lemma replicated_service_linearizable_witness :
  exists op1 op2 (k1 k2 : nat), (k1 < k2)%nat /\ oplog after_2 !! k1 = Some op1 /\ oplog after_2 !! k2 = Some op2 /\
    (0%nat, 0%nat, op1) ∈ submitted after_1 /\ (0%nat, 1%nat, op2) ∈ submitted after_2 /\
    Some (IncRep 1) = Some (snd (DoOp (exec_log 0 (oplog after_2) k1) (Op_Req op1))) /\
    Some (IncRep 2) = Some (snd (DoOp (exec_log 0 (oplog after_2) k2) (Op_Req op2))).
Proof.
  apply (replicated_service_linearizable 3 1 0 (elect_0 ++ round_1) round_2 after_1 after_2 0 0
    (replica_of 0 after_1 0) (replica_of 0 after_2 0) 0 1 (Some (IncRep 1)) (Some (IncRep 2)));
    try (vm_compute; reflexivity); vm_compute; repeat constructor; discriminate.
Defined.

Lemma replicated_service_one_log_witness : exists s,
  service_run 3 1 0 ((elect_0 ++ round_1) ++ round_2) = SNext s /\ len (oplog s) = 2 /\
  forall i r, replicas s !! i = Some r -> rsm_sm (rsm r) = exec_log 0 (oplog s) (Z.to_nat (rsm_lastApplied (rsm r))).
Proof.
  destruct (replicated_service_one_log 3 1 0 ((elect_0 ++ round_1) ++ round_2)) as (s & Hs & Hr & _).
  exists s. split; [exact Hs|split; [|intros i r Hi; exact (proj2 (Hr i r Hi))]].
  assert (s = after_2) as -> by (unfold after_2; rewrite Hs; reflexivity). vm_compute. reflexivity.
Defined.
