(* ===== verification/RsmTester.v ===== *)
(** * The tester of the replicated state machine (src/kvraft1/rsm/test.go, proxy.go)

    The tester submits operations to the counter service through proxies: it
    goes round the servers until one of them answers with OK.  Here it runs
    against the replicated service of Replicated.v, which goes on by itself
    between any two of its actions, in an order that the schedule gives.

    The theorem: oneInc never panics, and the number it returns counts the
    Incs of the one log of the service up to its own, so that a later oneInc
    returns a larger one. *)

From S2P Require Import Prelude Rpc Persister Labrpc TestGroup TestGroups Config Raft RaftNode RaftSpec RaftCluster RaftRefine RaftApply Rsm Replicated.

Definition NSRV : nat := 3.

(** [p == nil] is [None]. *)
Definition inPartition (s : Z) (p : option (list Z)) : bool :=
  match p with None => true | Some p => existsb (fun i => s =? i) p end.

Section RsmTest.
Context `{GS : Gob SnapshotData} `{GZ : Gob Z} `{GL : Gob (list (LogEntry (Op CounterReq)))}.
Variable maxraftstate : Z.
Abbreviation Svc := (Service (S := Z) (Req := CounterReq) (Rep := CounterRep)) (only parsing).
Abbreviation pause := (list (SStep (Req := CounterReq))) (only parsing).

(** ** The test *)

(** [t_srvs]: whether the proxy of each server is not nil; [t_hist], a
    history variable: the steps of the service so far. *)
Record Test : Type := MkTest {
  t_cfg : Config;
  t_srvs : list bool;
  t_leader : Z;
  t_svc : Svc;
  t_hist : pause;
}.

Definition with_cfg (ts : Test) (cfg : Config) : Test := MkTest cfg (t_srvs ts) (t_leader ts) (t_svc ts) (t_hist ts).

(** The service goes on. *)
Definition run (ts : Test) (ls : pause) : option Test :=
  match srun maxraftstate 0 (t_svc ts) ls with
  | SNext s => Some (MkTest (t_cfg ts) (t_srvs ts) (t_leader ts) s (t_hist ts ++ ls))
  | _ => None
  end.

(** ** Connections, crashes and restarts *)

Definition getLeader (ts : Test) : Z := t_leader ts.

(** [srvs[srv]] panics out of range. *)
Definition mksrv (ts : Test) (srv : nat) : option Test :=
  if (srv <? length (t_srvs ts))%nat then Some (MkTest (t_cfg ts) (<[srv := true]> (t_srvs ts)) (t_leader ts) (t_svc ts) (t_hist ts)) else None.

Fixpoint mksrvs (ts : Test) (l : list nat) : option Test :=
  match l with [] => Some ts | i :: l => ts ← mksrv ts i; mksrvs ts l end.

Definition makeTest (endName : string) (nss : list (list string)) (boots : list Boot) (now : Z) : option Test :=
  cfg ← MakeConfig endName nss boots now true;
  s ← init_service NSRV maxraftstate 0;
  mksrvs (MkTest cfg (replicate NSRV false) 0 s []) (seq 0 NSRV).

Definition kill (ts : Test) (answers : nat -> bool) (l : list nat) : option Test :=
  cfg ← on_group (t_cfg ts) GRP0 (fun rn sg => Kill rn sg answers l); Some (with_cfg ts cfg).

Definition restart (ts : Test) (l : list nat) (boots : list Boot) : option Test :=
  cfg ← on_group (t_cfg ts) GRP0 (fun rn sg => StartSrvs rn sg (zip l boots));
  cfg ← on_group cfg GRP0 ConnectAll;
  mksrvs (with_cfg ts cfg) l.

Definition disconnectLeader (ts : Test) : option (Test * Z) :=
  cfg ← on_group (t_cfg ts) GRP0 (fun rn sg => DisconnectAll rn sg (Z.to_nat (t_leader ts)));
  Some (with_cfg ts cfg, t_leader ts).

Definition connect (ts : Test) (i : nat) : option Test :=
  cfg ← on_group (t_cfg ts) GRP0 (fun rn sg => ConnectOne rn sg i); Some (with_cfg ts cfg).

(** ** A Submit at a server *)

(** [rsmSrv.Submit] up to its wait. *)
Definition submit_start (ts : Test) (i : nat) (req : CounterReq) : option (Test * Submitted) :=
  p ← procs (cluster (t_svc ts)) !! i;
  r ← replicas (t_svc ts) !! i;
  if rsm_dead (rsm r) || negb (rsm_rf (rsm r)) then Some (ts, Refused ErrWrongLeader)
  else
    '(_, res) ← Start (raft p) (Submit_op (rsm r) req);
    ts ← run ts [SSubmit i req];
    Some (ts, snd (Submit (rsm r) req (fun _ => res))).

(** The server dies. *)
Definition dies (i : nat) (ls : pause) : bool := existsb (fun l => match l with SRestart j _ => (j =? i)%nat | _ => false end) ls.

(** The loop of the wait; each round waits for a while, and ends with the
    result or with the timeout.  [None] for the result: the server died, or
    has not answered when the schedule ends. *)
Fixpoint submit_wait (ts : Test) (i : nat) (w : waiter) (index : Z) (waits : list (pause * bool)) : option (Test * option (Err * option CounterRep)) :=
  match waits with
  | [] => Some (ts, None)
  | (ls, timeout) :: waits =>
      ts ← run ts ls;
      if dies i ls then Some (ts, None)
      else
        p ← procs (cluster (t_svc ts)) !! i;
        r ← replicas (t_svc ts) !! i;
        if timeout : bool then
          let '(curTerm, isLeader) := GetState (raft p) in
          ts ← run ts [STimeout i w index];
          match snd (Submit_timeout (rsm r) w index curTerm isLeader) with
          | Some e => Some (ts, Some (e, None))
          | None => submit_wait ts i w index waits
          end
        else
          match Submit_result (rsm r) w with
          | Some res => Some (ts, Some res)
          | None => submit_wait ts i w index waits
          end
  end.

Definition SubmitRPC (ts : Test) (i : nat) (req : CounterReq) (waits : list (pause * bool)) : option (Test * option (Err * option CounterRep)) :=
  '(ts, out) ← submit_start ts i req;
  match out with
  | Refused e => Some (ts, Some (e, None))
  | Waiting w index => submit_wait ts i w index waits
  end.

Definition GetCounterRPC (ts : Test) (i : nat) : option Z := r ← replicas (t_svc ts) !! i; Some (rsm_sm (rsm r)).

(** ** The proxies

    How a call goes: what happens before it arrives, whether it arrives, the
    rounds of its wait, and whether its reply arrives. *)
Record Try : Type := MkTry { before : pause; arrives : bool; waits : list (pause * bool); replied : bool }.

(** A failed call leaves the reply as it is: zero. *)
Definition RSMproxy_Submit (ts : Test) (i : nat) (req : CounterReq) (c : Try) : option (Test * (Err * option CounterRep)) :=
  ts ← run ts (before c);
  if arrives c then
    '(ts, rep) ← SubmitRPC ts i req (waits c);
    Some (ts, if replied c then default (ErrEmpty, None) rep else (ErrEmpty, None))
  else Some (ts, (ErrEmpty, None)).

Definition RSMproxy_GetCounter (ts : Test) (i : nat) (c : Try) : option (Test * Z) :=
  ts ← run ts (before c);
  if arrives c then n ← GetCounterRPC ts i; Some (ts, if replied c then n else 0) else Some (ts, 0).

(** ** onePartition *)

Definition no_try : Try := MkTry [] false [] false.

(** The loop over the servers, [k] rounds of it.  [None] is the log.Fatalf or
    an index out of range. *)
Fixpoint try_servers (ts : Test) (index : Z) (p : option (list Z)) (req : CounterReq) (k : nat) (tries : list Try)
    : option (Test * option CounterRep + Test) :=
  match k with
  | O => Some (inr ts)
  | S k =>
      if index >=? Z.of_nat NSRV then None
      else
        let next ts := try_servers ts (Z.rem (index + 1) (len (t_srvs ts))) p req k (tail tries) in
        if index =? -1 then next ts
        else if index <? 0 then None
        else
          sg ← Group (t_cfg ts) GRP0;
          conn ← IsConnected sg (Z.to_nat index);
          if conn : bool then
            srv ← t_srvs ts !! Z.to_nat index;
            if srv && inPartition index p then
              '(ts, (err, rep)) ← RSMproxy_Submit ts (Z.to_nat index) req (default no_try (head tries));
              if Err_eqb err OK then
                Some (inl (MkTest (OpInc (t_cfg ts)) (t_srvs ts) index (t_svc ts) (t_hist ts), rep))
              else next ts
            else next ts
          else next ts
  end.

(** One element of [rounds] for each round in the ten seconds of NSEC: how its
    calls go, and what the service does while the tester sleeps. *)
Fixpoint onePartition (ts : Test) (p : option (list Z)) (req : CounterReq) (rounds : list (list Try * pause)) : option (Test * option CounterRep) :=
  match rounds with
  | [] => Some (ts, None)
  | (tries, sleep) :: rounds =>
      out ← try_servers ts (getLeader ts) p req (length (t_srvs ts)) tries;
      match out with
      | inl res => Some res
      | inr ts => ts ← run ts sleep; onePartition ts p req rounds
      end
  end.

(** [rep.(IncRep)] panics on another type. *)
Definition oneInc (ts : Test) (rounds : list (list Try * pause)) : option (Test * Z) :=
  '(ts, rep) ← onePartition ts None Inc rounds;
  match rep with
  | None => Some (ts, 0)
  | Some (IncRep N) => Some (ts, N)
  | Some NullRep => None
  end.

Definition oneNull (ts : Test) (rounds : list (list Try * pause)) : option Test :=
  '(ts, rep) ← onePartition ts None Null rounds;
  match rep with
  | None | Some NullRep => Some ts
  | Some (IncRep _) => None
  end.

(** ** Reading the counters *)

(** A server whose proxy is nil is a nil dereference. *)
Fixpoint countValue_from (ts : Test) (v : Z) (j : nat) (l : list bool) (calls : list Try) (i : Z) : option (Test * Z) :=
  match l with
  | [] => Some (ts, i)
  | srv :: l =>
      if srv : bool then
        '(ts, c) ← RSMproxy_GetCounter ts j (default no_try (head calls));
        countValue_from ts v (S j) l (tail calls) (if c =? v then i + 1 else i)
      else None
  end.

Definition countValue (ts : Test) (v : Z) (calls : list Try) : option (Test * Z) := countValue_from ts v 0 (t_srvs ts) calls 0.

(** [inr]: the test fails. *)
Fixpoint checkCounter_from (iters : nat) (ts : Test) (v nsrv : Z) (rounds : list (list Try * pause)) : option (Test + Test) :=
  match iters with
  | O => Some (inr ts)
  | S iters =>
      let '(calls, sleep) := default ([], []) (head rounds) in
      '(ts, n) ← countValue ts v calls;
      if n >=? nsrv then Some (inl ts)
      else ts ← run ts sleep; checkCounter_from iters ts v nsrv (tail rounds)
  end.

Definition checkCounter (ts : Test) (v nsrv : Z) (rounds : list (list Try * pause)) : option (Test + Test) := checkCounter_from 30 ts v nsrv rounds.

(** ** Counting the Incs of a log *)

Definition incs (L : list (Op CounterReq)) : Z := len (filter (fun op => Op_Req op = Inc) L).

Lemma incs_snoc L op : incs (L ++ [op]) = incs L + (if decide (Op_Req op = Inc) then 1 else 0).
Proof. unfold incs. rewrite filter_app, length_app, filter_cons, filter_nil. destruct (decide _); simpl; lia. Qed.

Lemma incs_le L : 0 <= incs L <= len L.
Proof. unfold incs. pose proof (length_filter (fun op => Op_Req op = Inc) L). lia. Qed.

Lemma incs_mono L (k k' : nat) : (k <= k')%nat -> incs (take k L) <= incs (take k' L).
Proof.
  intros Hk. rewrite <-(take_drop k (take k' L)), take_take, Nat.min_l by done. unfold incs. rewrite filter_app, length_app. lia.
Qed.

Lemma incs_S L (k : nat) op : L !! k = Some op -> Op_Req op = Inc -> incs (take (S k) L) = incs (take k L) + 1.
Proof. intros Hk Hop. rewrite (take_S_r _ _ _ Hk), incs_snoc, decide_True; done. Qed.

(** The counter that executed a log counts its Incs. *)
Lemma exec_incs L (k : nat) : (k <= length L)%nat -> len L < 2 ^ 63 -> exec_log 0 L k = incs (take k L).
Proof.
  intros Hk Hlen. induction k as [|k IH]; [done|]. destruct (lookup_lt_is_Some_2 L k) as [op Hop]; [lia|].
  rewrite (exec_log_S _ _ _ _ Hop), IH by lia. rewrite (take_S_r _ _ _ Hop), incs_snoc.
  pose proof (incs_le (take k L)) as Hle. rewrite length_take in Hle.
  destruct (Op_Req op) eqn:Hop'; simpl; rewrite ?decide_True, ?decide_False by done; [apply i64_small; lia|lia..].
Qed.

(** No Dec was committed, so no server has exited. *)
Definition no_Dec (ts : Test) : Prop := Forall (fun op => Op_Req op <> Dec) (oplog (t_svc ts)).

(** Executing requests one after the other, stopping at a log.Fatalf. *)
Fixpoint rsmSrv_exec (counter : Z) (reqs : list CounterReq) : option Z :=
  match reqs with
  | [] => Some counter
  | req :: reqs => '(counter, _) ← rsmSrv_DoOp counter req; rsmSrv_exec counter reqs
  end.

Lemma exec_no_Dec counter (L : list (Op CounterReq)) (k : nat) : Forall (fun op => Op_Req op <> Dec) L ->
  rsmSrv_exec counter (Op_Req <$> take k L) = Some (exec_log counter L k).
Proof.
  intros HL. unfold exec_log. apply (Forall_take _ k) in HL. revert counter. induction HL as [|op l Hop Hl IH]; intros counter; [done|].
  cbn [fmap list_fmap rsmSrv_exec foldl]. destruct (Op_Req op); simpl; [apply IH..|done].
Qed.

(** ** The tester's actions *)

Definition consistent (ts : Test) : Prop := service_run NSRV maxraftstate 0 (t_hist ts) = SNext (t_svc ts).

(** The service went on; the tester did not change. *)
Record goes (ts ts' : Test) : Prop := {
  g_run : consistent ts';
  g_hist : exists ls, t_hist ts' = t_hist ts ++ ls;
  g_same : t_cfg ts' = t_cfg ts /\ t_srvs ts' = t_srvs ts /\ t_leader ts' = t_leader ts;
}.

Lemma goes_refl ts : consistent ts -> goes ts ts.
Proof. intros H. constructor; [done|exists []; by rewrite app_nil_r|done]. Qed.

Lemma goes_trans ts1 ts2 ts3 : goes ts1 ts2 -> goes ts2 ts3 -> goes ts1 ts3.
Proof.
  intros [_ [l1 Hl1] (? & ? & ?)] [Hr [l2 Hl2] (? & ? & ?)]. constructor; [done| |split_and!; congruence].
  exists (l1 ++ l2). rewrite Hl2, Hl1. by rewrite app_assoc.
Qed.

Lemma run_goes ts ls : consistent ts -> exists ts', run ts ls = Some ts' /\ goes ts ts'.
Proof.
  intros H. pose proof (run_svc_ok NSRV maxraftstate 0 _ _ H) as Hok. destruct (srun_ok NSRV maxraftstate 0 _ ls Hok) as (s' & Hs' & _).
  unfold run. rewrite Hs'. eexists. split; [done|]. constructor; [|by exists ls|done]. unfold consistent in *. simpl. unfold service_run in *.
  destruct (init_service _ _ _); [|done]. by rewrite srun_app, H.
Qed.

Lemma goes_grows ts ts' : consistent ts -> goes ts ts' -> svc_grows (t_svc ts) (t_svc ts').
Proof. intros H [H' [ls Hls] _]. unfold consistent in *. rewrite Hls in H'. by eapply (run_grows NSRV maxraftstate 0). Qed.

Lemma peers_there ts i : consistent ts -> (i < NSRV)%nat ->
  exists p r, procs (cluster (t_svc ts)) !! i = Some p /\ replicas (t_svc ts) !! i = Some r.
Proof.
  intros H Hi. pose proof (run_svc_ok NSRV maxraftstate 0 _ _ H) as Hok. destruct (ho_coupled _ _ _ _ _ (so_hist _ _ _ Hok)) as [a Ha].
  destruct (lookup_lt_is_Some_2 (procs (cluster (t_svc ts))) i) as [p Hp]; [by rewrite (cp_len _ _ _ Ha)|].
  destruct (lookup_lt_is_Some_2 (replicas (t_svc ts)) i) as [r Hr]; [by rewrite (so_len _ _ _ Hok)|]. eauto.
Qed.

(** No server restarts, and the identifiers of operations do not wrap. *)
Definition no_restarts (ts : Test) : Prop := (forall i, not_restarted i (t_hist ts)) /\ len (t_hist ts) < 2 ^ 63 - 1.

Lemma no_restarts_before ts ts' : goes ts ts' -> no_restarts ts' -> no_restarts ts.
Proof.
  intros [_ [ls Hls] _] [Hn Hl]. rewrite Hls in Hn, Hl. rewrite length_app in Hl. split; [|lia]. intros i. by destruct (proj1 (Forall_app _ _ _) (Hn i)).
Qed.

(** [rep] is the answer to a [req] that entered the log after [ts]. *)
Definition answers (ts ts' : Test) (req : CounterReq) (rep : option CounterRep) : Prop :=
  exists op (k : nat), (length (oplog (t_svc ts)) <= k)%nat /\ oplog (t_svc ts') !! k = Some op /\ Op_Req op = req /\
    rep = Some (snd (DoOp (exec_log 0 (oplog (t_svc ts')) k) req)).

Lemma answers_earlier ts0 ts ts' req rep : consistent ts0 -> goes ts0 ts -> answers ts ts' req rep -> answers ts0 ts' req rep.
Proof.
  intros H0 Hg (op & k & Hk & Hrest). destruct (goes_grows _ _ H0 Hg) as [[x Hx] _]. exists op, k. split; [|done].
  rewrite Hx, length_app in Hk. lia.
Qed.

(** *** A Submit *)

Definition fresh_wait (ts ts' : Test) (i : nat) (req : CounterReq) (w : waiter) : Prop :=
  no_restarts ts' -> Forall (fun x => x.1 <> (i, w_ch w)) (submitted (t_svc ts)) /\
    exists op, (i, w_ch w, op) ∈ submitted (t_svc ts') /\ Op_Req op = req.

Lemma submit_start_ok ts i req : consistent ts -> (i < NSRV)%nat ->
  exists ts' out, submit_start ts i req = Some (ts', out) /\ goes ts ts' /\
    match out with Refused e => e = ErrWrongLeader | Waiting w _ => fresh_wait ts ts' i req w end.
Proof.
  intros Hc Hi. destruct (peers_there ts i Hc Hi) as (p & r & Hp & Hr). unfold submit_start. rewrite Hp, Hr. cbn [mbind option_bind].
  destruct (_ || _) eqn:Hd; [eexists _, _; split_and!; [done|by apply goes_refl|done]|].
  pose proof (run_svc_ok NSRV maxraftstate 0 _ _ Hc) as Hok. pose proof (sexec_ok NSRV maxraftstate 0 _ (SSubmit i req) Hok) as Hstep.
  cbn [sexec] in Hstep. unfold at_replica in Hstep. rewrite Hp, Hr, Hd in Hstep.
  destruct (Start (raft p) (Submit_op (rsm r) req)) as [[rf [[index term] b]]|] eqn:Hst; [|done]. cbn [mbind option_bind].
  destruct (run_goes ts [SSubmit i req] Hc) as (ts' & Hrun & Hg). rewrite Hrun. cbn [mbind option_bind]. eexists _, _. split_and!; [done|done|].
  unfold Submit. rewrite Hd. cbv zeta. destruct b eqn:Hb; simpl; [|done]. intros Hnr.
  pose proof (run_chans NSRV maxraftstate 0 _ _ i r Hc Hr (proj1 (no_restarts_before _ _ Hg Hnr) i)) as [Hlt _]. split.
  - apply Forall_forall. intros [[j ch] op] Hin Heq. simpl in Heq. injection Heq as -> ->. apply subs_of_elem, Hlt in Hin. lia.
  - unfold run in Hrun. cbn [srun sexec] in Hrun. unfold at_replica in Hrun. rewrite Hp, Hr, Hd, Hst in Hrun. unfold with_cluster in Hrun, Hstep.
    destruct (exec _ _) as [| |c] eqn:He; [exfalso; unfold exec, at_proc in He; rewrite Hp in He; by rewrite Hst in He|done|].
    unfold Submit in Hrun. rewrite Hd in Hrun. simpl in Hrun. injection Hrun as <-. simpl. eexists. split; [apply elem_of_app; right; apply list_elem_of_here|done].
Qed.

Lemma Submit_timeout_err (r : RSM Z CounterRep) w index t b e : snd (Submit_timeout r w index t b) = Some e -> e = ErrWrongLeader.
Proof. unfold Submit_timeout. destruct (rsm_dead r); simpl; [by intros [= <-]|]. destruct (_ || _); simpl; [by intros [= <-]|done]. Qed.

Lemma submit_wait_ok ts i w index ws : consistent ts -> (i < NSRV)%nat ->
  exists ts' res, submit_wait ts i w index ws = Some (ts', res) /\ goes ts ts' /\
    forall v, res = Some (OK, v) -> exists r, replicas (t_svc ts') !! i = Some r /\ rsm_chans (rsm r) !! w_ch w = Some (MkOpResult v OK).
Proof.
  intros Hc Hi. revert ts Hc. induction ws as [|[ls timeout] ws IH]; intros ts Hc; cbn [submit_wait].
  { eexists _, _. split_and!; [done|by apply goes_refl|done]. }
  destruct (run_goes ts ls Hc) as (ts1 & H1 & Hg1). rewrite H1. cbn [mbind option_bind].
  destruct (dies i ls); [eexists _, _; by split_and!|]. destruct (peers_there ts1 i (g_run _ _ Hg1) Hi) as (p & r & Hp & Hr).
  rewrite Hp, Hr. cbn [mbind option_bind]. destruct timeout.
  - destruct (GetState (raft p)) as [t b]. destruct (run_goes ts1 [STimeout i w index] (g_run _ _ Hg1)) as (ts2 & H2 & Hg2).
    rewrite H2. cbn [mbind option_bind]. pose proof (goes_trans _ _ _ Hg1 Hg2) as Hg. destruct (snd _) as [e|] eqn:He.
    + apply Submit_timeout_err in He as ->. eexists _, _. by split_and!.
    + destruct (IH ts2 (g_run _ _ Hg2)) as (ts' & res & H & Hg' & Hv). exists ts', res. split_and!; [done|by eapply goes_trans|done].
  - unfold Submit_result. destruct (rsm_chans (rsm r) !! w_ch w) as [[v e]|] eqn:Hch; cbn [mbind option_bind].
    + eexists _, _. split_and!; [done|done|]. simpl. intros v' [= -> ->]. by exists r.
    + destruct (IH ts1 (g_run _ _ Hg1)) as (ts' & res & H & Hg' & Hv). exists ts', res. split_and!; [done|by eapply goes_trans|done].
Qed.

Lemma SubmitRPC_ok ts i req ws : consistent ts -> (i < NSRV)%nat ->
  exists ts' res, SubmitRPC ts i req ws = Some (ts', res) /\ goes ts ts' /\
    forall v, res = Some (OK, v) -> no_restarts ts' -> answers ts ts' req v.
Proof.
  intros Hc Hi. destruct (submit_start_ok ts i req Hc Hi) as (ts1 & out & H1 & Hg1 & Hout). unfold SubmitRPC. rewrite H1. cbn [mbind option_bind].
  destruct out as [e|w index]; [subst e; eexists _, _; by split_and!|].
  destruct (submit_wait_ok ts1 i w index ws (g_run _ _ Hg1) Hi) as (ts' & res & H & Hg & Hres). exists ts', res.
  pose proof (goes_trans _ _ _ Hg1 Hg) as Hg'. split_and!; [done|done|]. intros v Hv Hnr. destruct (Hres v Hv) as (r & Hr & Hch).
  destruct (Hout (no_restarts_before _ _ Hg Hnr)) as (Hfresh & op & Hop & Hreq). destruct (g_hist _ _ Hg') as [ls Hls]. destruct Hnr as [Hnr Hlen].
  pose proof (g_run _ _ Hg') as Hc'. unfold consistent in Hc, Hc'. rewrite Hls in Hc', Hnr, Hlen.
  destruct (answer_after NSRV maxraftstate 0 _ ls _ _ i r (w_ch w) v Hc Hc' (Hnr i) Hlen Hr Hch Hfresh) as (op' & k & Hk & Hkop & Hin & Hval).
  assert (op' = op) as ->.
  { destruct (goes_grows _ _ (g_run _ _ Hg1) Hg) as [_ [y Hy]]. apply (ck_unique _ _ _ (run_chans NSRV maxraftstate 0 _ _ i r Hc' Hr (Hnr i)) (w_ch w));
      apply subs_of_elem; [done|]. rewrite Hy. apply elem_of_app. by left. }
  exists op, k. rewrite <-Hreq at 2. by split_and!.
Qed.

Lemma RSMproxy_Submit_ok ts i req c : consistent ts -> (i < NSRV)%nat ->
  exists ts' e v, RSMproxy_Submit ts i req c = Some (ts', (e, v)) /\ goes ts ts' /\ (e = OK -> no_restarts ts' -> answers ts ts' req v).
Proof.
  intros Hc Hi. destruct (run_goes ts (before c) Hc) as (ts1 & H1 & Hg1). unfold RSMproxy_Submit. rewrite H1. cbn [mbind option_bind].
  destruct (arrives c); [|eexists _, _, _; by split_and!]. destruct (SubmitRPC_ok ts1 i req (waits c) (g_run _ _ Hg1) Hi) as (ts' & res & H & Hg & Hres).
  rewrite H. cbn [mbind option_bind]. pose proof (goes_trans _ _ _ Hg1 Hg) as Hg'. destruct (replied c); [|eexists _, _, _; by split_and!].
  destruct res as [[e v]|]; [|eexists _, _, _; by split_and!]. exists ts', e, v. split_and!; [done|done|]. intros -> Hnr.
  apply (answers_earlier ts ts1); auto.
Qed.

(** *** Going round the servers *)

Record test_ok (ts : Test) : Prop := {
  to_run : consistent ts;
  to_srvs : length (t_srvs ts) = NSRV;
  to_cfg : exists base sg, cfg_ok base (t_cfg ts) /\ Group (t_cfg ts) GRP0 = Some sg /\ grp_N sg = NSRV;
  to_leader : 0 <= t_leader ts < Z.of_nat NSRV;
}.

Lemma goes_ok ts ts' : test_ok ts -> goes ts ts' -> test_ok ts'.
Proof. intros [_ Hs Hc Hl] [Hr _ (H1 & H2 & H3)]. constructor; rewrite ?H1, ?H2, ?H3; auto. Qed.

(** The test goes on, or a call is over: another leader, one more operation. *)
Definition moves (ts ts' : Test) : Prop := test_ok ts' /\ exists ls, t_hist ts' = t_hist ts ++ ls.

Lemma goes_moves ts ts' : test_ok ts -> goes ts ts' -> moves ts ts'.
Proof. intros Hok Hg. split; [by eapply goes_ok|apply Hg]. Qed.

Lemma tester_moves_trans ts1 ts2 ts3 : moves ts1 ts2 -> moves ts2 ts3 -> moves ts1 ts3.
Proof. intros [_ [l1 Hl1]] [Hok [l2 Hl2]]. split; [done|]. exists (l1 ++ l2). by rewrite Hl2, Hl1, app_assoc. Qed.

Definition answered_by ts (out : Test * option CounterRep + Test) req : Prop :=
  match out with
  | inl (ts', rep) => moves ts ts' /\ (no_restarts ts' -> answers ts ts' req rep)
  | inr ts' => goes ts ts'
  end.

Lemma won_ok ts ts' index req rep : test_ok ts -> goes ts ts' -> 0 <= index < Z.of_nat NSRV -> (no_restarts ts' -> answers ts ts' req rep) ->
  answered_by ts (inl (MkTest (OpInc (t_cfg ts')) (t_srvs ts') index (t_svc ts') (t_hist ts'), rep)) req.
Proof.
  intros Hok Hg Hi Ha. pose proof (goes_ok _ _ Hok Hg) as [Hr Hs (base & sg & Hcfg & Hsg & HN) _]. simpl. split; [split; [|apply Hg]|exact Ha].
  constructor; auto. exists base, sg. split_and!; [by eapply cfg_ok_same|done|done].
Qed.

Lemma try_servers_ok k p req index ts tries : test_ok ts -> 0 <= index < Z.of_nat NSRV ->
  exists out, try_servers ts index p req k tries = Some out /\ answered_by ts out req.
Proof.
  revert index ts tries. induction k as [|k IH]; intros index ts tries Hok Hi; cbn [try_servers]; [eexists; split; [done|by apply goes_refl, Hok]|].
  assert (0 <= Z.rem (index + 1) (len (t_srvs ts)) < Z.of_nat NSRV) as Hnext.
  { rewrite (to_srvs _ Hok). pose proof (Z.rem_bound_pos (index + 1) (Z.of_nat NSRV)). unfold NSRV in *. lia. }
  destruct (Z.geb_spec index (Z.of_nat NSRV)); [lia|]. destruct (Z.eqb_spec index (-1)); [lia|]. destruct (Z.ltb_spec index 0); [lia|].
  destruct (to_cfg _ Hok) as (base & sg & Hcfg & Hsg & HN). rewrite Hsg. cbn [mbind option_bind].
  destruct (co_groups _ _ Hcfg _ _ Hsg) as (_ & Hwf & _). rewrite HN in Hwf.
  destruct (lookup_lt_is_Some_2 (connected sg) (Z.to_nat index)) as [conn Hconn]; [rewrite (gw_connected _ _ Hwf); lia|].
  unfold IsConnected. rewrite Hconn. cbn [mbind option_bind]. destruct conn; [|by apply IH].
  destruct (lookup_lt_is_Some_2 (t_srvs ts) (Z.to_nat index)) as [srv Hsrv]; [rewrite (to_srvs _ Hok); lia|]. rewrite Hsrv. cbn [mbind option_bind].
  destruct (srv && inPartition index p); [|by apply IH].
  destruct (RSMproxy_Submit_ok ts (Z.to_nat index) req (default no_try (head tries)) (to_run _ Hok)) as (ts1 & e & v & Hsub & Hg & Ha); [lia|].
  rewrite Hsub. cbn [mbind option_bind]. unfold Err_eqb. destruct (bool_decide (e = OK)) eqn:He.
  - eexists. split; [done|]. apply bool_decide_eq_true in He. apply won_ok; auto.
  - destruct (g_same _ _ Hg) as (_ & Hsame & _). rewrite Hsame. destruct (IH (Z.rem (index + 1) (len (t_srvs ts))) ts1 (tail tries)) as (out & Ho & Hans);
      [by eapply goes_ok|done|]. exists out. split; [done|]. destruct out as [[ts' rep]|ts']; simpl in *.
    + destruct Hans as [Hm Hans]. split; [eapply tester_moves_trans; [by apply goes_moves|done]|]. intros Hnr. eapply answers_earlier; [apply Hok|exact Hg|auto].
    + by eapply goes_trans.
Qed.

Lemma onePartition_ok rounds p req ts : test_ok ts ->
  exists ts' rep, onePartition ts p req rounds = Some (ts', rep) /\ moves ts ts' /\
    (rep <> None -> no_restarts ts' -> answers ts ts' req rep).
Proof.
  revert ts. induction rounds as [|[tries sleep] rounds IH]; intros ts Hok; cbn [onePartition].
  { eexists _, _. split_and!; [done|apply goes_moves; [done|by apply goes_refl, Hok]|done]. }
  destruct (try_servers_ok (length (t_srvs ts)) p req (getLeader ts) ts tries Hok (to_leader _ Hok)) as (out & Ho & Hans). rewrite Ho. cbn [mbind option_bind].
  destruct out as [[ts' rep]|ts1]; simpl in Hans; [exists ts', rep; destruct Hans; by split_and!|].
  destruct (run_goes ts1 sleep (g_run _ _ Hans)) as (ts2 & H2 & Hg2). rewrite H2. cbn [mbind option_bind].
  pose proof (goes_trans _ _ _ Hans Hg2) as Hg. destruct (IH ts2 (goes_ok _ _ Hok Hg)) as (ts' & rep & H & Hm & Ha). exists ts', rep.
  split_and!; [done|eapply tester_moves_trans; [by apply goes_moves|done]|]. intros Hrep Hnr. eapply answers_earlier; [apply Hok|exact Hg|auto].
Qed.

(** ** A whole test *)

Inductive TestOp : Type :=
| TService (ls : pause)
| TGroup (op : GrpOp)
| TInc (rounds : list (list Try * pause))
| TNull (rounds : list (list Try * pause))
| TPartition (p : option (list Z)) (req : CounterReq) (rounds : list (list Try * pause))
| TCheck (v nsrv : Z) (rounds : list (list Try * pause)).

(** The test, and what its oneIncs returned. *)
Fixpoint play (ts : Test) (ops : list TestOp) : option (Test * list Z) :=
  match ops with
  | [] => Some (ts, [])
  | TService ls :: ops => ts ← run ts ls; play ts ops
  | TGroup op :: ops => cfg ← cfg_op (t_cfg ts) (KGroup GRP0 op); play (with_cfg ts cfg) ops
  | TInc rounds :: ops => '(ts, N) ← oneInc ts rounds; '(ts, Ns) ← play ts ops; Some (ts, N :: Ns)
  | TNull rounds :: ops => ts ← oneNull ts rounds; play ts ops
  | TPartition p req rounds :: ops => '(ts, _) ← onePartition ts p req rounds; play ts ops
  | TCheck v nsrv rounds :: ops =>
      out ← checkCounter ts v nsrv rounds;
      match out with inl ts => play ts ops | inr ts => Some (ts, []) end
  end.

(** The positive numbers count the Incs of the log at growing positions, from
    [from] on. *)
Inductive counted (L : list (Op CounterReq)) : nat -> list Z -> Prop :=
| counted_nil from : counted L from []
| counted_none from Ns : counted L from Ns -> counted L from (0 :: Ns)
| counted_inc from k op Ns : (from <= k)%nat -> L !! k = Some op -> Op_Req op = Inc -> counted L (S k) Ns ->
    counted L from (incs (take (S k) L) :: Ns).

Lemma counted_weaken L from from' Ns : (from' <= from)%nat -> counted L from Ns -> counted L from' Ns.
Proof. intros Hle H. induction H; econstructor; eauto; lia. Qed.

Lemma counted_sorted L from Ns : counted L from Ns ->
  StronglySorted Z.lt (filter (fun N => N <> 0) Ns) /\ Forall (fun N => incs (take from L) < N) (filter (fun N => N <> 0) Ns).
Proof.
  induction 1 as [from|from Ns _ [IHs IHf]|from k op Ns Hle Hk Hop _ [IHs IHf]]; [repeat constructor|by rewrite filter_cons, decide_False by lia|].
  pose proof (incs_S L k op Hk Hop) as HS. pose proof (incs_le (take k L)) as Hpos. pose proof (incs_mono L from k Hle) as Hm.
  rewrite filter_cons, decide_True by lia. split; [by constructor|]. constructor; [lia|]. eapply Forall_impl; [exact IHf|]. simpl. lia.
Qed.

Lemma counted_elem L from Ns N : counted L from Ns -> N ∈ Ns -> N <> 0 ->
  exists (k : nat) op, L !! k = Some op /\ Op_Req op = Inc /\ N = incs (take (S k) L).
Proof.
  induction 1 as [from|from Ns _ IH|from k op Ns Hle Hk Hop _ IH]; [by intros ?%elem_of_nil|..]; intros [->|Hin]%elem_of_cons Hne; eauto; done.
Qed.

Lemma countValue_goes l ts v j calls i ts' n : consistent ts -> countValue_from ts v j l calls i = Some (ts', n) -> goes ts ts'.
Proof.
  revert ts j calls i. induction l as [|srv l IH]; intros ts j calls i Hc H; cbn [countValue_from] in H; [simplify_eq; by apply goes_refl|].
  destruct srv; [|done]. unfold RSMproxy_GetCounter in H. destruct (run_goes ts (before (default no_try (head calls))) Hc) as (ts1 & H1 & Hg1).
  rewrite H1 in H. cbn [mbind option_bind] in H. eapply goes_trans; [exact Hg1|]. destruct (arrives _).
  - destruct (GetCounterRPC ts1 j); [|done]. cbn [mbind option_bind] in H. eapply IH; [apply Hg1|exact H].
  - eapply IH; [apply Hg1|exact H].
Qed.

Lemma checkCounter_goes iters ts v nsrv rounds out : consistent ts -> checkCounter_from iters ts v nsrv rounds = Some out ->
  goes ts (match out with inl ts' | inr ts' => ts' end).
Proof.
  revert ts rounds. induction iters as [|iters IH]; intros ts rounds Hc H; cbn [checkCounter_from] in H; [simplify_eq; by apply goes_refl|].
  destruct (default _ _) as [calls sleep]. destruct (countValue ts v calls) as [[ts1 n]|] eqn:H1; [|done]. cbn [mbind option_bind] in H.
  apply countValue_goes in H1 as Hg1; [|done]. destruct (n >=? nsrv); [by simplify_eq|].
  destruct (run_goes ts1 sleep (g_run _ _ Hg1)) as (ts2 & H2 & Hg2). rewrite H2 in H. cbn [mbind option_bind] in H.
  eapply goes_trans; [exact Hg1|]. eapply goes_trans; [exact Hg2|]. eapply IH; [apply Hg2|exact H].
Qed.

Lemma TGroup_ok ts op cfg : test_ok ts -> cfg_op (t_cfg ts) (KGroup GRP0 op) = Some cfg -> moves ts (with_cfg ts cfg).
Proof.
  intros [Hr Hs (base & sg & Hcfg & Hsg & HN) Hl] H. split; [|exists []; by rewrite app_nil_r]. constructor; auto. simpl.
  destruct (cfg_op_ok _ _ (KGroup GRP0 op) _ Hcfg eq_refl H) as [base' Hok']. cbn [cfg_op] in H.
  destruct (on_group_size _ _ _ _ _ _ Hcfg Hsg (fun Hgok => fit_steps _ _ _ op Hgok) H) as (sg' & Hsg' & HN'). exists base', sg'. split_and!; auto. congruence.
Qed.

Lemma moves_grows ts ts' : test_ok ts -> moves ts ts' -> exists x, oplog (t_svc ts') = oplog (t_svc ts) ++ x.
Proof.
  intros Hok [Hok' [ls Hls]]. pose proof (to_run _ Hok) as H. pose proof (to_run _ Hok') as H'. unfold consistent in *. rewrite Hls in H'.
  by destruct (run_grows NSRV maxraftstate 0 _ _ _ _ H H').
Qed.

Lemma no_restarts_moves ts ts' : moves ts ts' -> no_restarts ts' -> no_restarts ts.
Proof.
  intros [_ [ls Hls]] [Hn Hl]. rewrite Hls in Hn, Hl. rewrite length_app in Hl. split; [|lia]. intros i. by destruct (proj1 (Forall_app _ _ _) (Hn i)).
Qed.

(** A oneInc returns 0, or the number of Incs in the log up to its own. *)
Lemma oneInc_ok ts rounds : test_ok ts ->
  exists ts' rep, onePartition ts None Inc rounds = Some (ts', rep) /\ moves ts ts' /\
    (no_restarts ts' -> exists N, oneInc ts rounds = Some (ts', N) /\
       (N = 0 \/ exists op (k : nat), (length (oplog (t_svc ts)) <= k)%nat /\ oplog (t_svc ts') !! k = Some op /\ Op_Req op = Inc /\
          N = incs (take (S k) (oplog (t_svc ts'))))).
Proof.
  intros Hok. destruct (onePartition_ok rounds None Inc ts Hok) as (ts' & rep & H & Hm & Ha). exists ts', rep. split_and!; auto.
  intros Hnr. unfold oneInc. rewrite H. cbn [mbind option_bind]. destruct rep as [rep|]; [|exists 0; auto].
  destruct (Ha ltac:(done) Hnr) as (op & k & Hk & Hop & Hreq & Hrep). simpl in Hrep. injection Hrep as ->. eexists. split; [done|]. right.
  exists op, k. split_and!; auto. pose proof (run_oplog NSRV maxraftstate 0 _ _ (to_run _ (proj1 Hm))) as Hlen. destruct Hnr as [_ Hbound].
  apply lookup_lt_Some in Hop as Hlt. rewrite exec_incs by lia. rewrite (incs_S _ _ _ Hop Hreq). apply i64_small.
  pose proof (incs_le (take k (oplog (t_svc ts')))) as Hle. rewrite length_take in Hle. lia.
Qed.

(** A replica of the service has executed a prefix of the log. *)
Lemma replica_log ts i r : test_ok ts -> replicas (t_svc ts) !! i = Some r ->
  0 <= rsm_lastApplied (rsm r) <= len (oplog (t_svc ts)) /\ rsm_sm (rsm r) = exec_log 0 (oplog (t_svc ts)) (Z.to_nat (rsm_lastApplied (rsm r))).
Proof.
  intros Hok Hr. destruct (service_one_log NSRV maxraftstate 0 (t_hist ts)) as (s & Hs & Hrep & _).
  assert (s = t_svc ts) as -> by (pose proof (to_run _ Hok) as H; unfold consistent in H; congruence). exact (Hrep i r Hr).
Qed.

(** The counter of a server has reached the number of an Inc exactly if the
    server has applied it. *)
Lemma counter_reached ts i r (k : nat) op : test_ok ts -> no_restarts ts -> replicas (t_svc ts) !! i = Some r ->
  oplog (t_svc ts) !! k = Some op -> Op_Req op = Inc ->
  incs (take (S k) (oplog (t_svc ts))) <= rsm_sm (rsm r) <-> Z.of_nat k < rsm_lastApplied (rsm r).
Proof.
  intros Hok [_ Hbound] Hr Hop Hreq. destruct (replica_log ts i r Hok Hr) as [Hla Hsm].
  pose proof (run_oplog NSRV maxraftstate 0 _ _ (to_run _ Hok)) as Hlen. rewrite Hsm, exec_incs by lia.
  set (a := Z.to_nat (rsm_lastApplied (rsm r))). assert (rsm_lastApplied (rsm r) = Z.of_nat a) as -> by lia. split; intros H.
  - destruct (decide (k < a)%nat) as [|Hge]; [lia|]. pose proof (incs_mono (oplog (t_svc ts)) a k ltac:(lia)). rewrite (incs_S _ _ _ Hop Hreq) in H. lia.
  - apply incs_mono. lia.
Qed.

Definition no_reply (op : TestOp) : bool := match op with TInc _ => false | _ => true end.

(** Every action that is not a oneInc leaves a test that goes on. *)
Lemma play_other ts op ops ts' Ns : test_ok ts -> no_reply op = true -> play ts (op :: ops) = Some (ts', Ns) ->
  exists ts1, moves ts ts1 /\ (play ts1 ops = Some (ts', Ns) \/ ts' = ts1 /\ Ns = []).
Proof.
  intros Hok Hop H. destruct op as [ls|op|rounds|rounds|p req rounds|v nsrv rounds]; cbn [play] in H; try done.
  - destruct (run_goes ts ls (to_run _ Hok)) as (ts1 & H1 & Hg). rewrite H1 in H. exists ts1. split; [by apply goes_moves|by left].
  - destruct (cfg_op (t_cfg ts) (KGroup GRP0 op)) as [cfg|] eqn:Hc; [|done]. exists (with_cfg ts cfg). split; [by apply (TGroup_ok ts op)|by left].
  - unfold oneNull in H. destruct (onePartition_ok rounds None Null ts Hok) as (ts1 & rep & H1 & Hm & _). rewrite H1 in H. cbn [mbind option_bind] in H.
    exists ts1. split; [done|]. left. destruct rep as [[]|]; done.
  - destruct (onePartition_ok rounds p req ts Hok) as (ts1 & rep & H1 & Hm & _). rewrite H1 in H. exists ts1. split; [done|by left].
  - unfold checkCounter in H. destruct (checkCounter_from 30 ts v nsrv rounds) as [out|] eqn:Hc; [|done]. cbn [mbind option_bind] in H.
    apply checkCounter_goes in Hc; [|apply Hok]. apply (goes_moves _ _ Hok) in Hc. destruct out as [ts1|ts1]; exists ts1; (split; [done|]); [by left|].
    right. by injection H as <- <-.
Qed.

Lemma play_ok ops ts ts' Ns : test_ok ts -> play ts ops = Some (ts', Ns) ->
  moves ts ts' /\ (no_restarts ts' -> counted (oplog (t_svc ts')) (length (oplog (t_svc ts))) Ns).
Proof.
  revert ts Ns. induction ops as [|op ops IH]; intros ts Ns Hok H.
  { simpl in H. injection H as <- <-. split; [apply goes_moves; [done|by apply goes_refl, Hok]|constructor]. }
  destruct (no_reply op) eqn:Hop.
  - destruct (play_other _ _ _ _ _ Hok Hop H) as (ts1 & Hm & Hcase). destruct (moves_grows _ _ Hok Hm) as [x Hx].
    destruct Hcase as [H1|[-> ->]]; [|split; [done|constructor]]. destruct (IH ts1 Ns (proj1 Hm) H1) as [Hm1 Hc]. split; [by eapply tester_moves_trans|].
    intros Hnr. apply (counted_weaken _ (length (oplog (t_svc ts1)))); [rewrite Hx, length_app; lia|auto].
  - destruct op as [| |rounds| | |]; try done. cbn [play] in H. destruct (oneInc_ok ts rounds Hok) as (ts1 & rep & H1 & Hm & HN).
    destruct (oneInc ts rounds) as [[ts2 N]|] eqn:Hone; [|done]. cbn [mbind option_bind] in H.
    assert (ts2 = ts1) as -> by (unfold oneInc in Hone; rewrite H1 in Hone; cbn [mbind option_bind] in Hone; destruct rep as [[]|]; congruence).
    destruct (play ts1 ops) as [[ts3 Ns']|] eqn:Hp; [|done]. cbn [mbind option_bind] in H. injection H as <- <-.
    destruct (IH ts1 Ns' (proj1 Hm) Hp) as [Hm1 Hc]. destruct (moves_grows _ _ Hok Hm) as [x Hx]. destruct (moves_grows _ _ (proj1 Hm) Hm1) as [y Hy].
    split; [by eapply tester_moves_trans|]. intros Hnr. destruct (HN (no_restarts_moves _ _ Hm1 Hnr)) as (N' & [= <-] & [->|(op & k & Hk & Hop' & Hreq & ->)]).
    + constructor. apply (counted_weaken _ (length (oplog (t_svc ts1)))); [rewrite Hx, length_app; lia|auto].
    + apply lookup_lt_Some in Hop' as Hlt. replace (take (S k) (oplog (t_svc ts1))) with (take (S k) (oplog (t_svc ts3)))
        by (rewrite Hy; by rewrite take_app_le by lia).
      apply (counted_inc _ _ k op); auto; [rewrite Hy; by apply lookup_app_l_Some|]. apply (counted_weaken _ (length (oplog (t_svc ts1)))); [lia|auto].
Qed.

Lemma mksrvs_ok l ts : test_ok ts -> Forall (fun i => (i < NSRV)%nat) l -> exists ts', mksrvs ts l = Some ts' /\ test_ok ts'.
Proof.
  revert ts. induction l as [|i l IH]; intros ts Hok Hl; cbn [mksrvs]; [by exists ts|]. apply Forall_cons in Hl as [Hi Hl].
  unfold mksrv. destruct (Nat.ltb_spec i (length (t_srvs ts))) as [_|Hlt]; [|rewrite (to_srvs _ Hok) in Hlt; lia]. cbn [mbind option_bind].
  apply IH; [|done]. destruct Hok. constructor; auto. simpl. by rewrite length_insert.
Qed.

Lemma rsm_makeTest_ok endName nss boots now ts : length nss = NSRV -> Forall (fun ns => length ns = NSRV) nss ->
  Forall (fun b => length (b_names b) = NSRV) boots -> makeTest endName nss boots now = Some ts -> test_ok ts.
Proof.
  intros Hn Hns Hb H. unfold makeTest in H. destruct (MakeConfig endName nss boots now true) as [cfg|] eqn:Hcfg; [|done]. cbn [mbind option_bind] in H.
  destruct (init_service_ok NSRV maxraftstate 0) as (s & Hs & _). rewrite Hs in H. cbn [mbind option_bind] in H.
  destruct (mksrvs_ok (seq 0 NSRV) (MkTest cfg (replicate NSRV false) 0 s [])) as (ts' & Hts & Hok); [|repeat constructor|congruence].
  rewrite <-Hn in Hns, Hb. destruct (MakeConfig_ok _ _ _ _ _ _ Hns Hb Hcfg) as [base Hbase].
  constructor; [unfold consistent, service_run; by rewrite Hs|done| |unfold NSRV; simpl; lia]. exists base.
  destruct (MakeConfig_group _ _ _ _ _ _ Hns Hb Hcfg) as (sg & Hsg & HN). exists sg. split_and!; auto. simpl. congruence.
Qed.

(** C23 (safety): the tester's increments count up.  Take any test of the
    counter service on three servers: oneInc, oneNull and onePartition calls
    that go wrong in any way, checks of the counters, servers that are
    disconnected, connected and partitioned, and a network that loses, delays
    and reorders messages, but no server that restarts.  Clients may submit
    Incs, Nulls and Decs; no Dec is committed (DoOp ends the server that
    executes one, and the test submits them to a partitioned leader only).
    Then every server has executed a prefix of the one log without reaching
    that exit.  The replies of the oneIncs that got one are strictly
    increasing; each is the number of Incs
    in the one log of the service up to an Inc, and the counter of a server
    has reached it exactly if the server has applied that Inc.  And oneInc can
    always be called again: it does not panic, unless a server restarts or a
    Dec is committed meanwhile. *)
Theorem increments_count_up (endName : string) (nss : list (list string)) (boots : list Boot) (now : Z) (ops : list TestOp) (ts0 ts : Test) (Ns : list Z) :
  length nss = NSRV -> Forall (fun ns => length ns = NSRV) nss -> Forall (fun b => length (b_names b) = NSRV) boots ->
  makeTest endName nss boots now = Some ts0 -> play ts0 ops = Some (ts, Ns) -> no_restarts ts -> no_Dec ts ->
  (forall i r, replicas (t_svc ts) !! i = Some r ->
     rsmSrv_exec 0 (Op_Req <$> take (Z.to_nat (rsm_lastApplied (rsm r))) (oplog (t_svc ts))) = Some (rsm_sm (rsm r))) /\
  StronglySorted Z.lt (filter (fun N => N <> 0) Ns) /\
  (forall N, N ∈ Ns -> N <> 0 -> exists (k : nat) op, oplog (t_svc ts) !! k = Some op /\ Op_Req op = Inc /\ N = incs (take (S k) (oplog (t_svc ts))) /\
     forall i r, replicas (t_svc ts) !! i = Some r -> (N <= rsm_sm (rsm r) <-> Z.of_nat k < rsm_lastApplied (rsm r))) /\
  forall rounds, exists ts' rep, onePartition ts None Inc rounds = Some (ts', rep) /\ (no_restarts ts' -> no_Dec ts' -> exists N, oneInc ts rounds = Some (ts', N)).
Proof.
  intros Hn Hns Hb H0 Hplay Hnr Hdec. destruct (play_ok ops ts0 ts Ns (rsm_makeTest_ok _ _ _ _ _ Hn Hns Hb H0) Hplay) as [[Hok _] Hc]. specialize (Hc Hnr).
  split_and!; [|by eapply counted_sorted| |].
  - intros i r Hr. rewrite exec_no_Dec by done. by rewrite (proj2 (replica_log ts i r Hok Hr)).
  - intros N HN Hne. destruct (counted_elem _ _ _ _ Hc HN Hne) as (k & op & Hk & Hop & ->). exists k, op. split_and!; auto.
    intros i r Hr. by apply (counter_reached ts i r k op).
  - intros rounds. destruct (oneInc_ok ts rounds Hok) as (ts' & rep & H & _ & HN). exists ts', rep. split; [done|].
    intros Hnr' _. destruct (HN Hnr') as (N & HN' & _). eauto.
Qed.

End RsmTest.

(** ** Witness

    Server 0 is elected; one Inc goes through, server 2 is cut off, another
    Inc fails at server 1, which is not the leader, goes round and succeeds.  At the end a Dec is submitted
    and stays uncommitted. *)

Definition counter_test : list (TestOp) :=
  [TService elect_0;
   TInc [([MkTry [] true [([SRaft (LReplicate 0 1); SRaft (LAppend 2 4); SRaft (LAppendReply 3); SApply 0; SRead 0], false)] true], [])];
   TGroup (GDisconnect 2 [0; 1; 2]%nat);
   TService [SMaybe 0; SSnapshot 0];
   TInc [([MkTry [] false [] false; MkTry [] true [] true], []);
         ([MkTry [] true [([], true); ([SRaft (LReplicate 0 1); SRaft (LAppend 4 5); SRaft (LAppendReply 5); SApply 0; SRead 0], false)] true], [])];
   TCheck 2 1 [([MkTry [] true [] true], [])];
   TService [SSubmit 0 Dec]].

Definition counter_start : option Test := makeTest 1 "tester" three_names three_boots 0.
Definition counter_end : option (Test * list Z) := ts ← counter_start; play 1 ts counter_test.
Definition no_counter : Test := MkTest no_test [] 0 (service_of (S := Z) (Rep := CounterRep) SDisabled) [].

Lemma increments_count_up_witness : snd (default (no_counter, []) counter_end) = [1; 2] /\ StronglySorted Z.lt [1; 2].
Proof.
  assert (snd (default (no_counter, []) counter_end) = [1; 2]) as HN by (vm_compute; reflexivity). split; [exact HN|].
  destruct (increments_count_up 1 "tester" three_names three_boots 0 counter_test (default no_counter counter_start)
    (fst (default (no_counter, []) counter_end)) (snd (default (no_counter, []) counter_end))) as (_ & Hs & _); try (vm_compute; reflexivity).
  - repeat constructor.
  - repeat constructor.
  - split; [intros i; vm_compute; repeat constructor|vm_compute; reflexivity].
  - vm_compute. repeat constructor; discriminate.
  - rewrite HN in Hs. exact Hs.
Defined.
