(* ===== verification/KvRaft.v ===== *)
(** * The replicated key/value service (src/kvraft1/server.go, client.go)

    The server is a state machine over RSM: DoOp executes Get and Put
    requests that Raft has ordered, Get and Put (the RPC handlers) go through
    Submit.  The clerk tries the servers round robin.  The theorems: the
    state machine is the single-server store of kvsrv1, snapshots restore it,
    and the clerk's Put is linearizable whichever leaders fail. *)

From S2P Require Import Prelude Rpc Raft KvSrv KvClerk Rsm.

(** ** The server *)

(** The dynamic types of requests and results that DoOp distinguishes; a
    pointer and a value of the same type are treated alike. *)
Inductive KvReq : Type := GetReq (args : GetArgs) | PutReq (args : PutArgs) | OtherReq.
Inductive KvRep : Type := GetRep (r : GetReply) | PutRep (r : PutReply) | NilRep.

#[export] Instance KvReq_eq_dec : EqDecision KvReq.
Proof. solve_decision. Defined.
#[export] Instance KvReq_countable : Countable KvReq.
Proof.
  refine (inj_countable'
    (fun r => match r with GetReq a => inl a | PutReq a => inr (Some a) | OtherReq => inr None end)
    (fun x => match x with inl a => GetReq a | inr (Some a) => PutReq a | inr None => OtherReq end) _); by intros [].
Defined.

Definition DoGet (kv : KVServer) (args : GetArgs) : GetReply :=
  match kv !! GetArgs_Key args with
  | None => MkGetReply "" 0 ErrNoKey
  | Some e => MkGetReply (value e) (version e) OK
  end.

Definition DoPut (kv : KVServer) (args : PutArgs) : KVServer * PutReply :=
  match kv !! PutArgs_Key args with
  | None =>
      if PutArgs_Version args =? 0
      then (<[PutArgs_Key args := MkKvEntry (PutArgs_Value args) 1]> kv, MkPutReply OK)
      else (kv, MkPutReply ErrNoKey)
  | Some e =>
      if negb (PutArgs_Version args =? version e) then (kv, MkPutReply ErrVersion)
      else (<[PutArgs_Key args := MkKvEntry (PutArgs_Value args) (u64 (version e + 1))]> kv, MkPutReply OK)
  end.

Definition KV_DoOp (kv : KVServer) (req : KvReq) : KVServer * KvRep :=
  match req with
  | GetReq args => (kv, GetRep (DoGet kv args))
  | PutReq args => let '(kv, r) := DoPut kv args in (kv, PutRep r)
  | OtherReq => (kv, NilRep)
  end.

Definition KV_Snapshot `{Gob KVServer} (kv : KVServer) : bytes := gob_enc kv.

Definition KV_Restore `{Gob KVServer} (kv : KVServer) (data : bytes) : KVServer :=
  if len data <? 1 then kv
  else match gob_dec (A := KVServer) data with None => kv | Some (m, _) => m end.

#[export] Instance KV_machine `{Gob KVServer} : StateMachine KVServer KvReq KvRep := {
  DoOp := KV_DoOp; SM_Snapshot := KV_Snapshot; SM_Restore := KV_Restore;
}.

(** The RPC handlers, after [kv.rsm.Submit(args)] has returned [err] and
    [rep]. *)
Definition KV_Get (err : Err) (rep : option KvRep) : GetReply :=
  if negb (Err_eqb err OK) then MkGetReply "" 0 err
  else match rep with Some (GetRep r) => r | _ => MkGetReply "" 0 ErrWrongLeader end.

Definition KV_Put (err : Err) (rep : option KvRep) : PutReply :=
  if negb (Err_eqb err OK) then MkPutReply err
  else match rep with Some (PutRep r) => r | _ => MkPutReply ErrWrongLeader end.

Definition StartKVServer `{Gob KVServer} `{Gob SnapshotData} (me : Z) (snapshot : bytes) (maxraftstate : Z) : RSM KVServer KvRep :=
  MakeRSM (Req := KvReq) me snapshot maxraftstate ∅ true.

(** ** The clerk *)

Record Clerk : Type := MkClerk { servers : list string; leader : Z }.

Definition MakeClerk (servers : list string) : Clerk := MkClerk servers 0.

Definition advance (ck : Clerk) (failed : Z) : Clerk :=
  if leader ck =? failed then MkClerk (servers ck) ((failed + 1) mod len (servers ck)) else ck.

(** What happens while the clerk works: other clients' Puts are applied; one
    of this clerk's requests is applied but its reply does not arrive, or
    arrives as ErrWrongLeader; the current call fails or finds no leader; the
    current call's request is applied and its reply arrives; or the reply of
    another operation arrives.  The last happens when the server has
    restarted: reader() (rsm.go:256) matches a waiter and an operation by the
    server and an id that starts again at 1, so an operation of the server's
    former life that commits at the waiter's index answers the call. *)
Inductive KvEvent : Type := KOther (a : PutArgs) | KLate | KFail | KWrongLeader | KReply | KAnswer (get : GetReply) (put : PutReply).

(** What [Clerk.Put] returns for a reply. *)
Definition put_result (reply : PutReply) (resent : bool) : Err :=
  if Err_eqb (PutReply_Err reply) ErrVersion && resent then ErrMaybe else PutReply_Err reply.

(** The loop of [Clerk.Put]; [None] in the first place is a panic
    ([ck.servers[leader]] out of range). *)
Fixpoint Clerk_Put_loop (ck : Clerk) (args : PutArgs) (resent : bool) (kv : KVServer) (evs : list KvEvent)
    : option (Clerk * KVServer * option Err) :=
  match evs with
  | [] => Some (ck, kv, None)
  | KOther a :: evs => Clerk_Put_loop ck args resent (fst (DoPut kv a)) evs
  | KLate :: evs => Clerk_Put_loop ck args resent (fst (DoPut kv args)) evs
  | KFail :: evs | KWrongLeader :: evs =>
      _ ← get (servers ck) (leader ck);
      Clerk_Put_loop (advance ck (leader ck)) args true kv evs
  | KReply :: _ =>
      _ ← get (servers ck) (leader ck);
      let '(kv', reply) := DoPut kv args in Some (ck, kv', Some (put_result reply resent))
  | KAnswer _ reply :: evs =>
      _ ← get (servers ck) (leader ck);
      if Err_eqb (PutReply_Err reply) ErrWrongLeader then Clerk_Put_loop (advance ck (leader ck)) args true kv evs
      else Some (ck, kv, Some (put_result reply resent))
  end.

Definition KvClerk_Put (ck : Clerk) (key value : string) (ver : Tversion) (kv : KVServer) (evs : list KvEvent) :=
  Clerk_Put_loop ck (MkPutArgs key value ver) false kv evs.

Fixpoint Clerk_Get_loop (ck : Clerk) (args : GetArgs) (kv : KVServer) (evs : list KvEvent)
    : option (Clerk * option GetReply) :=
  match evs with
  | [] => Some (ck, None)
  | KOther a :: evs => Clerk_Get_loop ck args (fst (DoPut kv a)) evs
  | KLate :: evs => Clerk_Get_loop ck args kv evs
  | KFail :: evs | KWrongLeader :: evs =>
      _ ← get (servers ck) (leader ck);
      Clerk_Get_loop (advance ck (leader ck)) args kv evs
  | KReply :: _ =>
      _ ← get (servers ck) (leader ck);
      Some (ck, Some (DoGet kv args))
  | KAnswer reply _ :: evs =>
      _ ← get (servers ck) (leader ck);
      if Err_eqb (GetReply_Err reply) ErrWrongLeader then Clerk_Get_loop (advance ck (leader ck)) args kv evs
      else Some (ck, Some reply)
  end.

(** No reply of another operation arrives. *)
Definition own_answers (evs : list KvEvent) : bool := forallb (fun ev => match ev with KAnswer _ _ => false | _ => true end) evs.

(** The view of the single-server clerk: a missing leader is a failed call. *)
Definition erase (ev : KvEvent) : CallEvent :=
  match ev with
  | KOther a => EvOther a
  | KLate => EvLate
  | KFail | KWrongLeader => EvFail
  | KReply | KAnswer _ _ => EvReply
  end.

Definition clerk_wf (ck : Clerk) : Prop := 0 <= leader ck < len (servers ck).

(** ** Theorems *)

(** The replicated state machine executes every operation
    exactly as the single server of kvsrv1 would, results and state. *)
Theorem kvraft_DoOp_is_kvsrv (kv : KVServer) :
  (forall args, KV_DoOp kv (GetReq args) = (kv, GetRep (Get kv args))) /\
  (forall args, KV_DoOp kv (PutReq args) = (fst (Put kv args), PutRep (snd (Put kv args)))).
Proof.
  split; intros args; simpl; [done|]. unfold DoPut, Put.
  destruct (kv !! PutArgs_Key args); [destruct (negb _)|destruct (_ =? _)]; done.
Qed.

Lemma DoPut_Put kv args : DoPut kv args = Put kv args.
Proof. done. Qed.

Lemma advance_wf ck f : clerk_wf ck -> clerk_wf (advance ck f).
Proof.
  unfold clerk_wf, advance. destruct (_ =? _); simpl; [|done]. intros Hw.
  apply Z.mod_pos_bound. lia.
Qed.

(** No call indexes out of range. *)
Lemma Clerk_Put_loop_total ck args resent kv evs : clerk_wf ck ->
  exists ck' kv' res, Clerk_Put_loop ck args resent kv evs = Some (ck', kv', res) /\ clerk_wf ck'.
Proof.
  revert ck resent kv. induction evs as [|ev evs IH]; intros ck resent kv Hw; [simpl; eauto|].
  destruct (get_in_range (servers ck) (leader ck) Hw) as [srv Hsrv]. destruct ev; simpl; rewrite ?Hsrv; simpl; auto using advance_wf.
  - destruct (DoPut kv args). eauto.
  - destruct (Err_eqb _ _); eauto using advance_wf.
Qed.

(** The store behaves as under the single-server clerk. *)
Lemma Clerk_Put_loop_erase ck args resent kv evs ck' kv' res : own_answers evs = true ->
  Clerk_Put_loop ck args resent kv evs = Some (ck', kv', res) -> Put_loop args resent kv (map erase evs) = (kv', res).
Proof.
  revert ck resent kv. induction evs as [|ev evs IH]; intros ck resent kv; [by intros _ [= <- <- <-]|].
  destruct ev; simpl; try (by apply IH); try done; destruct (get (servers ck) (leader ck)); simpl; try done; try (by apply IH).
  rewrite DoPut_Put. destruct (Put kv args). by intros _ [= <- <- <-].
Qed.

(** C25 (refinement): the replicated clerk's Put is linearizable.  From a
    clerk whose leader is one of its servers, the loop of Clerk.Put never
    indexes outside them, whatever calls fail, find no leader or are
    answered.  If it returns, then the replicated store has executed the Put
    at one point among the other clients' Puts, with the reply of that point
    or ErrMaybe as the result, provided that: each reply is that of the
    call's own operation (as [replicated_service_linearizable] shows for
    servers that have not restarted); no request is executed more than once
    ([at_most_once]: executions without a reply are at most the calls that
    failed before); and no version wraps at 2^64 meanwhile. *)
Theorem kvraft_Put_linearizable ck (key value : string) (ver : Tversion) kv evs :
  clerk_wf ck ->
  exists ck' kv' res, KvClerk_Put ck key value ver kv evs = Some (ck', kv', res) /\ clerk_wf ck' /\
  forall r, res = Some r ->
    own_answers evs = true -> at_most_once 0 0 (map erase evs) -> kv_wf kv -> version_of kv key + len evs < 2 ^ 64 ->
    exists pre post, others (map erase evs) = pre ++ post /\
      let at_point := DoPut (puts kv pre) (MkPutArgs key value ver) in
      kv' = puts (fst at_point) post /\
      (r = PutReply_Err (snd at_point) \/ r = ErrMaybe /\ PutReply_Err (snd at_point) <> ErrNoKey).
Proof.
  intros Hck. unfold KvClerk_Put.
  destruct (Clerk_Put_loop_total ck (MkPutArgs key value ver) false kv evs Hck) as (ck' & kv' & res & Heq & Hck').
  exists ck', kv', res. split_and!; [done|done|]. intros r -> Hown Hamo Hkv Hlen.
  apply (Clerk_Put_loop_erase _ _ _ _ _ _ _ _ Hown) in Heq.
  apply (Put_loop_linearizable (MkPutArgs key value ver) kv (map erase evs) 0 0); auto. by rewrite length_map.
Qed.

Fixpoint advances (ck : Clerk) (k : nat) : Clerk :=
  match k with O => ck | S k => advances (advance ck (leader ck)) k end.

Lemma advances_leader ck k : clerk_wf ck ->
  leader (advances ck k) = (leader ck + Z.of_nat k) mod len (servers ck).
Proof.
  revert ck. induction k as [|k IH]; intros ck Hw; cbn [advances].
  - rewrite Z.add_0_r, Z.mod_small by exact Hw. done.
  - rewrite IH by (by apply advance_wf). unfold advance. rewrite Z.eqb_refl. simpl.
    rewrite Zplus_mod_idemp_l. f_equal. lia.
Qed.

(** The clerk's retry order is fair.  Whatever server it starts
    from, it addresses every server within as many failed calls as there
    are servers. *)
Theorem clerk_tries_every_server ck j :
  clerk_wf ck -> 0 <= j < len (servers ck) ->
  exists k : nat, (k < length (servers ck))%nat /\ leader (advances ck k) = j.
Proof.
  intros Hw Hj. set (n := len (servers ck)) in *. exists (Z.to_nat ((j - leader ck) mod n)).
  assert (0 <= (j - leader ck) mod n < n) as Hb by (apply Z.mod_pos_bound; lia).
  split; [lia|]. rewrite advances_leader by done. fold n. rewrite Z2Nat.id by lia.
  rewrite Zplus_mod_idemp_r. replace (leader ck + (j - leader ck)) with j by lia. apply Z.mod_small. lia.
Qed.

(** Snapshots of the store restore it: the service obeys the laws that RSM
    asks for, so all theorems of Rsm.v hold of it. *)
#[export] Instance KV_laws `{Gob KVServer} : StateMachineLaws KVServer KvReq KvRep.
Proof.
  constructor. intros s s'. simpl. unfold KV_Restore, KV_Snapshot.
  pose proof (gob_enc_nonempty s') as Hne. destruct (Z.ltb_spec (len (gob_enc s')) 1) as [Hl|_].
  - destruct (gob_enc s'); [done|simpl in Hl; lia].
  - by rewrite gob_dec_enc_nil.
Qed.

(** The Puts of a log. *)
Definition puts_of (L : list (Op KvReq)) : list PutArgs :=
  omap (fun op => match Op_Req op with PutReq a => Some a | _ => None end) L.

(** Executing a log on the state machine is executing its Puts on kvsrv1. *)
Lemma exec_log_puts `{Gob KVServer} (L : list (Op KvReq)) k : exec_log ∅ L k = puts MakeKVServer (puts_of (take k L)).
Proof.
  unfold exec_log, puts, puts_of, MakeKVServer. generalize (take k L). generalize (∅ : KVServer).
  intros kv l. revert kv. induction l as [|op l IH]; intros kv; [done|]. cbn [foldl omap list_omap].
  rewrite IH. destruct op as [m i [a|a|]]; cbn [Op_Req]; [done| |done].
  simpl. unfold KV_DoOp. rewrite DoPut_Put. by destruct (Put kv a).
Qed.

(** A key/value replica is a prefix of the replicated log
    executed by the single-server store: the instance for this service of
    what RSM promises. *)
Theorem kvraft_replica_executes_log `{Gob KVServer} `{Gob SnapshotData} (L : list (Op KvReq)) me max evs
    (r := run_events (StartKVServer me [] max) evs) :
  run_of_log ∅ L (StartKVServer me [] max) evs ->
  rsm_sm r = puts MakeKVServer (puts_of (take (Z.to_nat (rsm_lastApplied r)) L)).
Proof.
  intros Hrun. assert (at_log ∅ L r) as [_ ->]; [|apply exec_log_puts].
  apply run_at_log; [|done]. exact (ro_log _ _ _ _ _ (MakeRSM_fresh_ok ∅ L [] me max)).
Qed.

(** ** Witnesses *)

Definition sample_clerk : Clerk := MakeClerk ["s0"; "s1"; "s2"].
Definition sample_kv_events : list KvEvent :=
  [KOther (MkPutArgs "k" "a" 0); KWrongLeader; KLate; KFail; KOther (MkPutArgs "k" "c" 2); KReply].

Lemma kvraft_Put_linearizable_witness :
  exists ck' kv', KvClerk_Put sample_clerk "k" "b" 1 ∅ sample_kv_events = Some (ck', kv', Some ErrMaybe) /\ leader ck' = 2 /\
    exists pre post, [MkPutArgs "k" "a" 0; MkPutArgs "k" "c" 2] = pre ++ post /\
      kv' = puts (fst (DoPut (puts ∅ pre) (MkPutArgs "k" "b" 1))) post.
Proof.
  destruct (kvraft_Put_linearizable sample_clerk "k" "b" 1 ∅ sample_kv_events) as (ck' & kv' & res & Hrun & _ & Hlin);
    [vm_compute; split; [discriminate|reflexivity]|].
  assert (res = Some ErrMaybe /\ leader ck' = 2) as [-> Hl] by (vm_compute in Hrun; injection Hrun as <- _ <-; split; reflexivity).
  destruct (Hlin ErrMaybe eq_refl) as (pre & post & Hpp & Hkv & _);
    [reflexivity|simpl; lia|apply map_Forall_empty|vm_compute; reflexivity|].
  exists ck', kv'. split; [exact Hrun|]. split; [exact Hl|]. exists pre, post. split; [exact Hpp|exact Hkv].
Defined.

(** A restarted server answers the Put with the OK of another operation: the
    clerk reports success and the store has never executed the Put. *)
Example answer_of_another_operation :
  KvClerk_Put sample_clerk "k" "b" 1 ∅ [KAnswer (MkGetReply "" 0 ErrNoKey) (MkPutReply OK)] = Some (sample_clerk, ∅, Some OK).
Proof. reflexivity. Qed.

Lemma clerk_tries_every_server_witness : exists k : nat, (k < 3)%nat /\ leader (advances sample_clerk k) = 2.
Proof.
  apply (clerk_tries_every_server sample_clerk 2); vm_compute; [split; [discriminate|reflexivity]..].
Defined.

Definition sample_kv_log : list (Op KvReq) := [MkOp 1 1 (PutReq (MkPutArgs "k" "a" 0)); MkOp 0 1 (GetReq (MkGetArgs "k"))].

Lemma kvraft_replica_executes_log_witness :
  let r := run_events (StartKVServer 0 [] 1000)
    [ERead (CommandMsg (Some (MkOp 1 1 (PutReq (MkPutArgs "k" "a" 0)))) 1)] in
  rsm_sm r !! "k" = Some (MkKvEntry "a" 1).
Proof.
  cbv zeta. rewrite (kvraft_replica_executes_log sample_kv_log 0 1000); [vm_compute; reflexivity|].
  vm_compute. repeat split; discriminate.
Defined.
