(* ===== verification/ShardCfg.v ===== *)
(** * Shard configurations (src/shardkv1/shardcfg/shardcfg.go)

    A configuration assigns the twelve shards to replica groups.  Join and
    Leave change the set of groups, Rebalance the assignment.  [None] is a
    [log.Fatalf] (the process exits).  The theorems: the rebalancing loop
    terminates, its result is complete and balanced (it passes CheckConfig),
    and a balanced assignment is left alone. *)

From Stdlib Require Import Ascii.
From S2P Require Import Prelude.

(** ** Keys and shards *)

Definition NShards : nat := 12.
Definition NumFirst : Z := 1.
Definition Gid1 : Z := 1.

Definition Key2Shard (key : string) : Z := fnv32a (string_bytes key) mod Z.of_nat NShards.

(** ** Configurations *)

Record ShardConfig : Type := MkShardConfig {
  Num : Z;
  Shards : list Z;                  (* shard -> gid; a Go array, so of length NShards *)
  Groups : gmap Z (list string);
}.

#[export] Instance ShardConfig_eq_dec : EqDecision ShardConfig.
Proof. solve_decision. Defined.

Definition cfg_wf (c : ShardConfig) : Prop := length (Shards c) = NShards.

Definition MakeShardConfig : ShardConfig := MkShardConfig 0 (replicate NShards 0) ∅.

(** String and FromString go through encoding/json, of which the program uses
    that a configuration is read back as it was written. *)
Class ConfigJson : Type := {
  String_ : ShardConfig -> string;
  FromString : string -> option ShardConfig;
  FromString_String : forall c, FromString (String_ c) = Some c;
}.

(** A codec that satisfies the law: the code of a configuration in binary. *)
#[export] Instance ShardConfig_countable : Countable ShardConfig.
Proof.
  refine (inj_countable' (fun c => (Num c, Shards c, Groups c)) (fun '(n, s, g) => MkShardConfig n s g) _); by intros [].
Defined.

Program Definition binary_json : ConfigJson := {|
  String_ c := pos_string (encode c);
  FromString s := decode (string_pos s);
|}.
Next Obligation. intros. simpl. by rewrite string_pos_string, decode_encode. Qed.

Definition Copy (c : ShardConfig) : ShardConfig := MkShardConfig (Num c) (Shards c) (Groups c).

(** [counts[g]] after counting all shards. *)
Definition counts (c : ShardConfig) (g : Z) : Z := Z.of_nat (length (filter (fun x => x = g) (Shards c))).

(** The keys of [c.Groups], sorted. *)
Definition sorted_groups (c : ShardConfig) : list Z := merge_sort Z.le (map fst (map_to_list (Groups c))).

(** The scan of analyze over the sorted groups; the state is [mg, mn, lg, ln]. *)
Definition analyze_step (cnt : Z -> Z) (st : Z * Z * Z * Z) (g : Z) : Z * Z * Z * Z :=
  let '(mg, mn, lg, ln) := st in
  let '(lg, ln) := if cnt g <? ln then (g, cnt g) else (lg, ln) in
  let '(mg, mn) := if cnt g >? mn then (g, cnt g) else (mg, mn) in
  (mg, mn, lg, ln).

Definition analyze (c : ShardConfig) : Z * Z * Z * Z :=
  foldl (analyze_step (counts c)) (-1, -1, -1, 257) (sorted_groups c).

Definition least (c : ShardConfig) : Z := let '(_, _, lg, _) := analyze c in lg.

Definition set_shards (c : ShardConfig) (l : list Z) : ShardConfig := MkShardConfig (Num c) l (Groups c).

(** [for s, g := range c.Shards]: the unassigned shards go to the least loaded
    group, one after the other.  [ss] are the indices still to visit. *)
Fixpoint assign_loop (c : ShardConfig) (ss : list nat) : ShardConfig :=
  match ss with
  | [] => c
  | s :: ss =>
      match Shards c !! s with
      | None => assign_loop c ss
      | Some g =>
          match Groups c !! g with
          | Some _ => assign_loop c ss
          | None => assign_loop (set_shards c (<[s := least c]> (Shards c))) ss
          end
      end
  end.

(** Move the first shard of group [mg] to [lg]. *)
Fixpoint move_one (l : list Z) (mg lg : Z) : list Z :=
  match l with
  | [] => []
  | g :: l => if g =? mg then lg :: l else g :: move_one l mg lg
  end.

(** The [for] loop that moves shards; [None] when the fuel does not suffice. *)
Fixpoint balance_loop (fuel : nat) (c : ShardConfig) : option ShardConfig :=
  match fuel with
  | O => None
  | S fuel =>
      let '(mg, mn, lg, ln) := analyze c in
      if mn <? ln + 2 then Some c
      else balance_loop fuel (set_shards c (move_one (Shards c) mg lg))
  end.

(** The sum of the squares of the loads bounds the number of moves. *)
Definition load (c : ShardConfig) : Z := foldr Z.add 0 (map (fun g => counts c g * counts c g) (sorted_groups c)).

Definition Rebalance (c : ShardConfig) : option ShardConfig :=
  if (size (Groups c) <? 1)%nat then Some (set_shards c (map (fun _ => 0) (Shards c)))
  else
    let c := assign_loop c (seq 0 (length (Shards c))) in
    balance_loop (S (Z.to_nat (load c))) c.

(** ** Join and Leave *)

(** The inner loops of Join: some server is already in a group. *)
Definition server_clash (groups : gmap Z (list string)) (srvs : list string) : bool :=
  bool_decide (Exists (fun kv => Exists (fun s => s ∈ srvs) (snd kv)) (map_to_list groups)).

(** The loop of Join over the new groups, in the order the map iteration
    takes.  [inl] is an early return of false. *)
Fixpoint Join_loop (c : ShardConfig) (new : list (Z * list string)) (changed : bool)
    : option (ShardConfig * (unit + bool)) :=
  match new with
  | [] => Some (c, inr changed)
  | (gid, srvs) :: new =>
      match Groups c !! gid with
      | Some _ => Some (c, inl tt)
      | None =>
          if server_clash (Groups c) srvs then None
          else Join_loop (MkShardConfig (Num c) (Shards c) (<[gid := srvs]> (Groups c))) new true
      end
  end.

Definition Join (c : ShardConfig) (new : list (Z * list string)) : option (ShardConfig * bool) :=
  '(c, r) ← Join_loop c new false;
  match r with
  | inl _ => Some (c, false)
  | inr false => None
  | inr true => Some (MkShardConfig (Num c + 1) (Shards c) (Groups c), true)
  end.

Fixpoint Leave_loop (c : ShardConfig) (gids : list Z) (changed : bool) : ShardConfig * (unit + bool) :=
  match gids with
  | [] => (c, inr changed)
  | gid :: gids =>
      match Groups c !! gid with
      | None => (c, inl tt)
      | Some _ => Leave_loop (MkShardConfig (Num c) (Shards c) (delete gid (Groups c))) gids true
      end
  end.

Definition Leave (c : ShardConfig) (gids : list Z) : option (ShardConfig * bool) :=
  let '(c, r) := Leave_loop c gids false in
  match r with
  | inl _ => Some (c, false)
  | inr false => None
  | inr true => Some (MkShardConfig (Num c + 1) (Shards c) (Groups c), true)
  end.

Definition JoinBalance (c : ShardConfig) (new : list (Z * list string)) : option (ShardConfig * bool) :=
  '(c, ok) ← Join c new;
  if negb ok then Some (c, false) else c ← Rebalance c; Some (c, true).

Definition LeaveBalance (c : ShardConfig) (gids : list Z) : option (ShardConfig * bool) :=
  '(c, ok) ← Leave c gids;
  if negb ok then Some (c, false) else c ← Rebalance c; Some (c, true).

(** ** Queries *)

(** [cfg.Shards[sh]] panics when [sh] is out of range. *)
Definition GidServers (c : ShardConfig) (sh : Z) : option (Z * list string * bool) :=
  gid ← get (Shards c) sh;
  Some (match Groups c !! gid with Some srvs => (gid, srvs, true) | None => (gid, [], false) end).

Definition IsMember (c : ShardConfig) (gid : Z) : bool := bool_decide (gid ∈ Shards c).

(** CheckConfig, true when it does not fail the test. *)
Definition CheckConfig (c : ShardConfig) (groups : list Z) : bool :=
  let loads := map (counts c) (map fst (map_to_list (Groups c))) in
  (size (Groups c) =? length groups)%nat &&
  bool_decide (Forall (fun g => is_Some (Groups c !! g)) groups) &&
  ((length groups =? 0)%nat || bool_decide (Forall (fun g => is_Some (Groups c !! g)) (Shards c))) &&
  negb (foldl Z.max 0 loads >? foldl Z.min 257 loads + 1).

(** ** The scan finds the extremes *)

Lemma NoDup_sorted_groups c : NoDup (sorted_groups c).
Proof.
  unfold sorted_groups. rewrite merge_sort_Permutation. apply NoDup_fst_map_to_list.
Qed.

Lemma elem_of_sorted_groups c g : g ∈ sorted_groups c <-> is_Some (Groups c !! g).
Proof.
  unfold sorted_groups. rewrite merge_sort_Permutation. change (map fst) with (fmap (M := list) (@fst Z (list string))).
  rewrite list_elem_of_fmap. split.
  - intros ([g' s] & -> & Hin%elem_of_map_to_list). simpl. eauto.
  - intros [s Hs]. exists (g, s). split; [done|]. by apply elem_of_map_to_list.
Qed.

Lemma counts_range c g : 0 <= counts c g <= len (Shards c).
Proof. unfold counts. pose proof (length_filter (fun x => x = g) (Shards c)). lia. Qed.

(** The state of the scan after the groups [gs]. *)
Definition scan_ok (cnt : Z -> Z) (gs : list Z) (st : Z * Z * Z * Z) : Prop :=
  let '(mg, mn, lg, ln) := st in
  (mg ∈ gs) /\ mn = cnt mg /\ (lg ∈ gs) /\ ln = cnt lg /\ forall g, g ∈ gs -> ln <= cnt g <= mn.

Lemma analyze_step_ok cnt gs st g : scan_ok cnt gs st -> scan_ok cnt (gs ++ [g]) (analyze_step cnt st g).
Proof.
  destruct st as [[[mg mn] lg] ln]. intros (Hmg & Hmn & Hlg & Hln & Hall). unfold analyze_step. rewrite Z.gtb_ltb.
  destruct (Z.ltb_spec (cnt g) ln), (Z.ltb_spec mn (cnt g)); simpl; split_and!; try set_solver;
    intros x [Hx|Hx%list_elem_of_singleton]%elem_of_app; try (subst x); try (specialize (Hall x Hx)); lia.
Qed.

Lemma scan_fold_ok cnt gs gs' st : scan_ok cnt gs st -> scan_ok cnt (gs ++ gs') (foldl (analyze_step cnt) st gs').
Proof.
  revert gs st. induction gs' as [|g gs' IH]; intros gs st Hst; simpl; [by rewrite app_nil_r|].
  rewrite (cons_middle g gs gs'), app_assoc. by apply IH, analyze_step_ok.
Qed.

Lemma analyze_ok c : cfg_wf c -> Groups c <> ∅ -> scan_ok (counts c) (sorted_groups c) (analyze c).
Proof.
  intros Hwf Hne. unfold analyze. destruct (sorted_groups c) as [|g gs] eqn:Hg.
  - exfalso. apply map_choose in Hne as (x & s & Hx). pose proof (elem_of_sorted_groups c x) as He.
    rewrite Hg in He. apply elem_of_nil with (x := x), He. eauto.
  - simpl foldl. change (g :: gs) with ([g] ++ gs). apply scan_fold_ok. pose proof (counts_range c g) as Hr.
    rewrite Hwf in Hr. unfold NShards in Hr. unfold analyze_step. rewrite Z.gtb_ltb.
    destruct (Z.ltb_spec (counts c g) 257); [|lia]. destruct (Z.ltb_spec (-1) (counts c g)); [|lia].
    split_and!; try set_solver.
Qed.

Lemma least_group c : cfg_wf c -> Groups c <> ∅ -> is_Some (Groups c !! least c).
Proof.
  intros Hwf Hne. pose proof (analyze_ok c Hwf Hne) as Hok. unfold least.
  destruct (analyze c) as [[[mg mn] lg] ln]. apply elem_of_sorted_groups, Hok.
Qed.

(** ** Assignment of the unassigned shards *)

Lemma assign_loop_fields c ss :
  Num (assign_loop c ss) = Num c /\ Groups (assign_loop c ss) = Groups c /\ length (Shards (assign_loop c ss)) = length (Shards c).
Proof.
  revert c. induction ss as [|s ss IH]; intros c; simpl; [done|]. destruct (Shards c !! s) as [g|]; [|apply IH].
  destruct (Groups c !! g); [apply IH|]. destruct (IH (set_shards c (<[s := least c]> (Shards c)))) as (-> & -> & ->).
  simpl. by rewrite length_insert.
Qed.

Definition assigned (c : ShardConfig) (s : nat) : Prop := exists g, Shards c !! s = Some g /\ is_Some (Groups c !! g).

Lemma assign_loop_assigned c ss s : cfg_wf c -> Groups c <> ∅ -> (s < NShards)%nat ->
  assigned c s \/ s ∈ ss -> assigned (assign_loop c ss) s.
Proof.
  intros Hwf Hne Hs. revert c Hwf Hne. induction ss as [|s' ss IH]; intros c Hwf Hne Hor; simpl.
  { destruct Hor as [|?%elem_of_nil]; done. }
  destruct (lookup_lt_is_Some_2 (Shards c) s) as [gs Hgs]; [by rewrite Hwf|].
  destruct (Shards c !! s') as [g|] eqn:Hg.
  2: { apply IH; auto. destruct Hor as [|[->|]%elem_of_cons]; auto. congruence. }
  destruct (Groups c !! g) eqn:HG.
  { apply IH; auto. destruct Hor as [|[->|]%elem_of_cons]; auto. left. exists g. eauto. }
  apply IH; simpl; auto.
  - unfold cfg_wf. simpl. by rewrite length_insert.
  - destruct (decide (s = s')) as [->|Hd].
    + left. exists (least c). simpl. rewrite list_lookup_insert_eq by (by rewrite Hwf). split; [done|]. by apply least_group.
    + destruct Hor as [(g' & Hg' & HG')|[->|]%elem_of_cons]; auto; [|done].
      left. exists g'. simpl. by rewrite list_lookup_insert_ne.
Qed.

(** Every shard belongs to a group of the configuration. *)
Definition complete (c : ShardConfig) : Prop := Forall (fun g => is_Some (Groups c !! g)) (Shards c).

Lemma assign_complete c : cfg_wf c -> Groups c <> ∅ -> complete (assign_loop c (seq 0 (length (Shards c)))).
Proof.
  intros Hwf Hne. apply Forall_lookup. intros s g Hg. apply lookup_lt_Some in Hg as Hlt.
  destruct (assign_loop_fields c (seq 0 (length (Shards c)))) as (_ & HG & Hlen). rewrite Hlen, Hwf in Hlt.
  destruct (assign_loop_assigned c (seq 0 (length (Shards c))) s) as (g' & Hg' & HG'); auto; [right; apply elem_of_seq; rewrite Hwf; lia|].
  congruence.
Qed.

Lemma assign_complete_id c ss : complete c -> assign_loop c ss = c.
Proof.
  intros Hc. induction ss as [|s ss IH]; simpl; [done|]. destruct (Shards c !! s) as [g|] eqn:Hg; [|done].
  destruct (Forall_lookup_1 _ _ _ _ Hc Hg) as [x ->]. done.
Qed.

(** ** Moving shards *)

Definition count_list (l : list Z) (g : Z) : Z := Z.of_nat (length (filter (fun x => x = g) l)).

Lemma count_list_cons x l g : count_list (x :: l) g = (if decide (x = g) then 1 else 0) + count_list l g.
Proof. unfold count_list. rewrite filter_cons. case_decide; simpl; lia. Qed.

Lemma move_one_count l mg lg g : mg <> lg -> mg ∈ l ->
  count_list (move_one l mg lg) g =
    count_list l g + (if decide (g = mg) then -1 else if decide (g = lg) then 1 else 0).
Proof.
  intros Hne Hin. induction l as [|x l IH]; [by apply elem_of_nil in Hin|]. simpl. destruct (Z.eqb_spec x mg) as [->|Hx].
  - rewrite !count_list_cons. repeat case_decide; subst; lia || done.
  - rewrite !count_list_cons, IH; [lia|]. apply elem_of_cons in Hin as [->|]; done.
Qed.

Lemma move_one_Forall (P : Z -> Prop) l mg lg : Forall P l -> P lg -> Forall P (move_one l mg lg).
Proof. intros Hl HP. induction Hl; simpl; [done|]. destruct (_ =? _); by constructor. Qed.

Lemma move_one_length l mg lg : length (move_one l mg lg) = length l.
Proof. induction l as [|x l IH]; simpl; [done|]. destruct (_ =? _); simpl; auto. Qed.

#[local] Instance sum_proper : Proper ((≡ₚ) ==> eq) (foldr Z.add 0).
Proof. intros l l' Hp. induction Hp; simpl; lia. Qed.

(** A sum over distinct points of a function that changes at two of them. *)
Lemma sum_update (f f' : Z -> Z) gs x y : NoDup gs -> x ∈ gs -> y ∈ gs -> x <> y ->
  (forall g, g <> x -> g <> y -> f' g = f g) ->
  foldr Z.add 0 (map f' gs) = foldr Z.add 0 (map f gs) + (f' x - f x) + (f' y - f y).
Proof.
  intros Hd Hx Hy Hne Hf. apply elem_of_Permutation in Hx as [gs1 Hp1].
  assert (y ∈ gs1) as Hy1. { rewrite Hp1 in Hy. apply elem_of_cons in Hy as [|]; congruence. }
  apply elem_of_Permutation in Hy1 as [gs2 Hp2].
  assert (NoDup (x :: y :: gs2)) as Hd2 by (rewrite <-Hp2, <-Hp1; done).
  apply NoDup_cons in Hd2 as [Hx2 [Hy2 _]%NoDup_cons].
  assert (forall h : Z -> Z, foldr Z.add 0 (map h gs) = h x + (h y + foldr Z.add 0 (map h gs2))) as Hsum.
  { intros h. assert (map h gs ≡ₚ h x :: h y :: map h gs2) as Hp by (rewrite Hp1, Hp2; done).
    clear -Hp. rewrite Hp. done. }
  rewrite !Hsum. assert (map f' gs2 = map f gs2) as ->; [|lia].
  apply map_ext_in. intros g Hg. apply Hf; intros ->; [apply Hx2|apply Hy2]; apply list_elem_of_In in Hg; set_solver.
Qed.

(** ** The balancing loop *)

Definition balanced (c : ShardConfig) : Prop :=
  forall g g', is_Some (Groups c !! g) -> is_Some (Groups c !! g') -> counts c g <= counts c g' + 1.

Definition set_groups_id c l : sorted_groups (set_shards c l) = sorted_groups c := eq_refl.

Lemma load_nonneg c : 0 <= load c.
Proof. unfold load. induction (sorted_groups c); simpl; [lia|]. pose proof (Z.square_nonneg (counts c a)). lia. Qed.

(** One move from the most to the least loaded group. *)
Lemma move_step c mg lg : cfg_wf c -> is_Some (Groups c !! mg) -> is_Some (Groups c !! lg) ->
  counts c lg + 2 <= counts c mg -> complete c ->
  let c' := set_shards c (move_one (Shards c) mg lg) in
  cfg_wf c' /\ complete c' /\ load c' < load c.
Proof.
  intros Hwf Hmg Hlg Hgap Hc c'. assert (mg <> lg) as Hne by (intros ->; lia).
  assert (mg ∈ Shards c) as Hin.
  { destruct (filter (fun x => x = mg) (Shards c)) as [|x l] eqn:Hf.
    - pose proof (counts_range c lg). assert (counts c mg = 0) by (unfold counts; by rewrite Hf). lia.
    - assert (x ∈ filter (fun x => x = mg) (Shards c)) as Hx by (rewrite Hf; set_solver).
      apply list_elem_of_filter in Hx as [-> Hx]. done. }
  split; [|split].
  - unfold cfg_wf. simpl. by rewrite move_one_length.
  - apply move_one_Forall; done.
  - unfold load, c'. rewrite set_groups_id.
    rewrite (sum_update (fun g => counts c g * counts c g) _ _ mg lg);
      [|apply NoDup_sorted_groups|by apply elem_of_sorted_groups|by apply elem_of_sorted_groups|done|].
    + change (counts (set_shards c ?l)) with (count_list l). rewrite !move_one_count by done.
      rewrite (decide_True (P := mg = mg)), (decide_False (P := lg = mg)), (decide_True (P := lg = lg)) by done.
      change (count_list (Shards c)) with (counts c). nia.
    + intros g Hg1 Hg2. change (counts (set_shards c ?l)) with (count_list l). rewrite move_one_count by done.
      rewrite !decide_False by done. rewrite Z.add_0_r. done.
Qed.

Lemma balance_loop_ok fuel c : cfg_wf c -> Groups c <> ∅ -> complete c -> load c < Z.of_nat fuel ->
  exists c', balance_loop fuel c = Some c' /\ Num c' = Num c /\ Groups c' = Groups c /\
    cfg_wf c' /\ complete c' /\ balanced c'.
Proof.
  revert c. induction fuel as [|fuel IH]; intros c Hwf Hne Hc Hf; [pose proof (load_nonneg c); lia|]. simpl.
  pose proof (analyze_ok c Hwf Hne) as Hok. destruct (analyze c) as [[[mg mn] lg] ln].
  destruct Hok as (Hmg & -> & Hlg & -> & Hall). destruct (Z.ltb_spec (counts c mg) (counts c lg + 2)).
  - exists c. split_and!; auto. intros g g' Hg Hg'. apply elem_of_sorted_groups in Hg, Hg'.
    pose proof (Hall g Hg). pose proof (Hall g' Hg'). lia.
  - apply elem_of_sorted_groups in Hmg, Hlg. destruct (move_step c mg lg) as (Hwf' & Hc' & Hload); auto.
    apply IH in Hc' as (c' & ? & ? & ? & ?); auto; [|lia]. exists c'. auto.
Qed.

Lemma foldl_max_le (l : list Z) x M : x <= M -> Forall (fun y => y <= M) l -> foldl Z.max x l <= M.
Proof. intros Hx Hl. revert x Hx. induction Hl; intros y Hy; simpl; [done|]. apply IHHl. lia. Qed.

Lemma foldl_min_ge (l : list Z) x m : m <= x -> Forall (fun y => m <= y) l -> m <= foldl Z.min x l.
Proof. intros Hx Hl. revert x Hx. induction Hl; intros y Hy; simpl; [done|]. apply IHHl. lia. Qed.

Definition group_ids (c : ShardConfig) : list Z := map fst (map_to_list (Groups c)).

Lemma elem_of_group_ids c g : g ∈ group_ids c <-> is_Some (Groups c !! g).
Proof. rewrite <-elem_of_sorted_groups. unfold sorted_groups. by rewrite merge_sort_Permutation. Qed.

Lemma balanced_CheckConfig c : cfg_wf c -> (Groups c = ∅ \/ complete c /\ balanced c) -> CheckConfig c (group_ids c) = true.
Proof.
  intros Hwf Hor. unfold CheckConfig, group_ids.
  rewrite length_map, length_map_to_list, Nat.eqb_refl. cbn [andb].
  rewrite bool_decide_eq_true_2 by (apply Forall_forall; intros g Hg; by apply elem_of_group_ids). cbn [andb].
  destruct Hor as [He|[Hc Hb]].
  - rewrite He, map_to_list_empty. done.
  - rewrite (bool_decide_eq_true_2 (Forall _ (Shards c))) by done. rewrite orb_true_r. cbn [andb].
    apply negb_true_iff. rewrite Z.gtb_ltb. apply Z.ltb_ge.
    destruct (map_to_list (Groups c)) as [|[g0 s0] gs] eqn:Hgs; [done|]. rewrite <-Hgs. clear Hgs.
    set (ids := map fst (map_to_list (Groups c))).
    assert (forall g, g ∈ ids -> is_Some (Groups c !! g)) as Hids by (intros g; apply elem_of_group_ids).
    (* the least loaded group bounds everything *)
    destruct (decide (Groups c = ∅)) as [He|Hne]; [subst ids; by rewrite He, map_to_list_empty|].
    pose proof (analyze_ok c Hwf Hne) as Hok. destruct (analyze c) as [[[mg mn] lg] ln].
    destruct Hok as (Hmg & -> & Hlg & -> & Hall). apply elem_of_sorted_groups in Hmg, Hlg. pose proof (Hb mg lg Hmg Hlg).
    pose proof (counts_range c mg). pose proof (counts_range c lg) as Hr. rewrite Hwf in Hr. unfold NShards in Hr.
    assert (foldl Z.max 0 (map (counts c) ids) <= counts c mg).
    { apply foldl_max_le; [lia|]. apply Forall_map, Forall_forall. intros g Hg. apply Hall, elem_of_sorted_groups, Hids, Hg. }
    assert (counts c lg <= foldl Z.min 257 (map (counts c) ids)); [|lia].
    apply foldl_min_ge; [lia|]. apply Forall_map, Forall_forall. intros g Hg. apply Hall, elem_of_sorted_groups, Hids, Hg.
Qed.

Lemma size_empty_iff c : (size (Groups c) <? 1)%nat = true <-> Groups c = ∅.
Proof. rewrite Nat.ltb_lt, <-map_size_empty_iff. lia. Qed.

Lemma Rebalance_ok c : cfg_wf c ->
  exists c', Rebalance c = Some c' /\ Num c' = Num c /\ Groups c' = Groups c /\ cfg_wf c' /\
    (Groups c = ∅ /\ Shards c' = replicate NShards 0 \/ complete c' /\ balanced c').
Proof.
  intros Hwf. unfold Rebalance. destruct (_ <? 1)%nat eqn:Hsz.
  - apply size_empty_iff in Hsz. eexists. split; [done|]. split_and!; auto; [unfold cfg_wf; simpl; by rewrite length_map|].
    left. split; [done|]. simpl Shards. replace NShards with (length (Shards c)) by exact Hwf. clear. induction (Shards c); simpl; f_equal; auto.
  - assert (Groups c <> ∅) as Hne by (rewrite <-size_empty_iff; congruence).
    destruct (assign_loop_fields c (seq 0 (length (Shards c)))) as (Hn & HG & Hlen).
    pose proof (assign_complete c Hwf Hne) as Hc. set (c1 := assign_loop c (seq 0 (length (Shards c)))) in *.
    destruct (balance_loop_ok (S (Z.to_nat (load c1))) c1) as (c' & ? & ? & ? & ? & ? & ?); auto.
    + unfold cfg_wf. congruence.
    + congruence.
    + pose proof (load_nonneg c1). lia.
    + exists c'. split_and!; auto; congruence.
Qed.

(** ** Theorems *)

(** C33 (termination): Rebalance returns on every configuration, keeps its
    number and groups, and leaves an assignment that passes the program's
    own CheckConfig: every shard belongs to a group of the configuration and
    the loads of any two groups differ by at most one. *)
Theorem Rebalance_passes_CheckConfig c :
  cfg_wf c ->
  exists c', Rebalance c = Some c' /\ Num c' = Num c /\ Groups c' = Groups c /\ cfg_wf c' /\
    CheckConfig c' (group_ids c) = true.
Proof.
  intros Hwf. destruct (Rebalance_ok c Hwf) as (c' & Hr & Hn & HG & Hwf' & Hor). exists c'. split_and!; auto.
  replace (group_ids c) with (group_ids c') by (unfold group_ids; by rewrite HG).
  apply balanced_CheckConfig; [done|]. rewrite HG. destruct Hor as [[? _]|?]; auto.
Qed.

(** Rebalancing is idempotent: a balanced configuration is
    left exactly as it is, so no shard moves without need. *)
Theorem Rebalance_idempotent c c' : cfg_wf c -> Rebalance c = Some c' -> Rebalance c' = Some c'.
Proof.
  intros Hwf Hr. destruct (Rebalance_ok c Hwf) as (c1 & Hr1 & _ & HG & Hwf1 & Hor).
  rewrite Hr in Hr1. injection Hr1 as <-. unfold Rebalance. destruct (_ <? 1)%nat eqn:Hsz.
  - apply size_empty_iff in Hsz. destruct Hor as [[_ Hs]|[Hc _]].
    + destruct c' as [n l g]. simpl in *. subst l. unfold set_shards. simpl. done.
    + exfalso. unfold complete, cfg_wf in *. destruct (Shards c') as [|g l]; [done|]. inversion Hc as [|? ? [x Hx]].
      rewrite Hsz, lookup_empty in Hx. done.
  - assert (Groups c' <> ∅) as Hne by (rewrite <-size_empty_iff; congruence).
    destruct Hor as [[He _]|[Hc Hb]]; [congruence|]. rewrite assign_complete_id by done. simpl.
    pose proof (analyze_ok c' Hwf1 Hne) as Hok. destruct (analyze c') as [[[mg mn] lg] ln].
    destruct Hok as (Hmg & -> & Hlg & -> & _). apply elem_of_sorted_groups in Hmg, Hlg. pose proof (Hb mg lg Hmg Hlg).
    destruct (Z.ltb_spec (counts c' mg) (counts c' lg + 2)); [done|lia].
Qed.

Lemma Join_loop_ok c new changed c' r : Join_loop c new changed = Some (c', inr r) ->
  Num c' = Num c /\ Shards c' = Shards c /\
  (forall g, is_Some (Groups c' !! g) <-> is_Some (Groups c !! g) \/ g ∈ map fst new).
Proof.
  revert c changed. induction new as [|[gid srvs] new IH]; intros c changed Hj; simpl in Hj.
  - injection Hj as <- _. split_and!; auto. intros g. simpl. rewrite elem_of_nil. naive_solver.
  - destruct (Groups c !! gid) eqn:Hg; [done|]. destruct (server_clash _ _); [done|].
    apply IH in Hj as (-> & -> & Hgs). split_and!; auto. intros g. rewrite Hgs. simpl. rewrite elem_of_cons.
    destruct (decide (g = gid)) as [->|]; [rewrite lookup_insert_eq; naive_solver|].
    rewrite lookup_insert_ne by done. naive_solver.
Qed.

Lemma Leave_loop_ok c gids changed c' r : Leave_loop c gids changed = (c', inr r) ->
  Num c' = Num c /\ Shards c' = Shards c /\
  (forall g, is_Some (Groups c' !! g) <-> is_Some (Groups c !! g) /\ g ∉ gids).
Proof.
  revert c changed. induction gids as [|gid gids IH]; intros c changed Hj; simpl in Hj.
  - injection Hj as <- _. split_and!; auto. intros g. rewrite elem_of_nil. naive_solver.
  - destruct (Groups c !! gid) eqn:Hg; [|done]. apply IH in Hj as (-> & -> & Hgs). split_and!; auto.
    intros g. rewrite Hgs. simpl. rewrite not_elem_of_cons.
    destruct (decide (g = gid)) as [->|]; [rewrite lookup_delete_eq; naive_solver|].
    rewrite lookup_delete_ne by done. naive_solver.
Qed.

(** A Join that is accepted yields the next configuration:
    number plus one, exactly the old and the new groups, and a complete and
    balanced assignment over them. *)
Theorem JoinBalance_next c new c1 :
  cfg_wf c -> Join c new = Some (c1, true) ->
  exists c', JoinBalance c new = Some (c', true) /\ Num c' = Num c + 1 /\ cfg_wf c' /\
    (forall g, is_Some (Groups c' !! g) <-> is_Some (Groups c !! g) \/ g ∈ map fst new) /\
    CheckConfig c' (group_ids c') = true.
Proof.
  intros Hwf Hj. unfold JoinBalance. rewrite Hj. simpl. unfold Join in Hj.
  destruct (Join_loop c new false) as [[c0 [|[]]]|] eqn:Hl; simplify_eq/=.
  apply Join_loop_ok in Hl as (Hn & Hs & Hg).
  destruct (Rebalance_ok (MkShardConfig (Num c0 + 1) (Shards c0) (Groups c0))) as (c' & -> & Hn' & HG' & Hwf' & Hor);
    [unfold cfg_wf; simpl; congruence|]. simpl in *. exists c'. split_and!; auto; [lia|intros g; by rewrite HG', Hg|].
  apply balanced_CheckConfig; [done|]. rewrite HG'. destruct Hor as [[? _]|?]; auto.
Qed.

(** A Leave that is accepted yields the next configuration
    without the groups that left, complete and balanced. *)
Theorem LeaveBalance_next c gids c1 :
  cfg_wf c -> Leave c gids = Some (c1, true) ->
  exists c', LeaveBalance c gids = Some (c', true) /\ Num c' = Num c + 1 /\ cfg_wf c' /\
    (forall g, is_Some (Groups c' !! g) <-> is_Some (Groups c !! g) /\ g ∉ gids) /\
    CheckConfig c' (group_ids c') = true.
Proof.
  intros Hwf Hj. unfold LeaveBalance. rewrite Hj. simpl. unfold Leave in Hj.
  destruct (Leave_loop c gids false) as [c0 [|[]]] eqn:Hl; simplify_eq/=.
  apply Leave_loop_ok in Hl as (Hn & Hs & Hg).
  destruct (Rebalance_ok (MkShardConfig (Num c0 + 1) (Shards c0) (Groups c0))) as (c' & -> & Hn' & HG' & Hwf' & Hor);
    [unfold cfg_wf; simpl; congruence|]. simpl in *. exists c'. split_and!; auto; [lia|intros g; by rewrite HG', Hg|].
  apply balanced_CheckConfig; [done|]. rewrite HG'. destruct Hor as [[? _]|?]; auto.
Qed.

(** Every key has a shard. *)
Lemma Key2Shard_range key : 0 <= Key2Shard key < Z.of_nat NShards.
Proof. apply Z.mod_pos_bound. unfold NShards. lia. Qed.

(** ** Witnesses *)

Definition sample_cfg : ShardConfig := MkShardConfig 3 [1; 1; 1; 1; 1; 1; 1; 7; 7; 7; 7; 7] {[1 := ["a"]; 2 := ["b"]; 3 := ["c"]]}.

Lemma Rebalance_passes_CheckConfig_witness : exists c', Rebalance sample_cfg = Some c' /\ CheckConfig c' (group_ids sample_cfg) = true.
Proof.
  destruct (Rebalance_passes_CheckConfig sample_cfg eq_refl) as (c' & Hr & _ & _ & _ & Hc). exists c'. split; [exact Hr|exact Hc].
Defined.

Lemma Rebalance_idempotent_witness : exists c', Rebalance sample_cfg = Some c' /\ Rebalance c' = Some c'.
Proof.
  destruct (Rebalance sample_cfg) as [c'|] eqn:Hr; [|vm_compute in Hr; discriminate]. exists c'. split; [reflexivity|].
  exact (Rebalance_idempotent sample_cfg c' eq_refl Hr).
Defined.

Lemma JoinBalance_next_witness :
  exists c', JoinBalance sample_cfg [(4, ["d"]); (5, ["e"; "f"])] = Some (c', true) /\ Num c' = 4 /\ CheckConfig c' (group_ids c') = true.
Proof.
  destruct (Join sample_cfg [(4, ["d"]); (5, ["e"; "f"])]) as [[c1 [|]]|] eqn:Hj; [|vm_compute in Hj; discriminate..].
  destruct (JoinBalance_next sample_cfg [(4, ["d"]); (5, ["e"; "f"])] c1 eq_refl Hj) as (c' & H1 & H2 & _ & _ & H3).
  exists c'. split; [exact H1|]. split; [exact H2|exact H3].
Defined.

Lemma LeaveBalance_next_witness :
  exists c', LeaveBalance sample_cfg [1; 3] = Some (c', true) /\ Num c' = 4 /\ CheckConfig c' (group_ids c') = true.
Proof.
  destruct (Leave sample_cfg [1; 3]) as [[c1 [|]]|] eqn:Hj; [|vm_compute in Hj; discriminate..].
  destruct (LeaveBalance_next sample_cfg [1; 3] c1 eq_refl Hj) as (c' & H1 & H2 & _ & _ & H3).
  exists c'. split; [exact H1|]. split; [exact H2|exact H3].
Defined.
