(* ===== verification/ShardGrp.v ===== *)
(** * A shard group (src/shardkv1/shardgrp/server.go, shardrpc/shardrpc.go)

    The state machine of a replica group: twelve shards, each not owned,
    served or frozen, with the largest configuration number seen.  Raft
    orders the operations, so each is one atomic step.  The migration of a
    shard between groups is the subject of Migration.v. *)

From S2P Require Import Prelude Rpc KvSrv KvRaft ShardCfg.

(** ** Data *)

Inductive ShardState : Type := ShardNotOwned | ShardServing | ShardFrozen.

#[export] Instance ShardState_eq_dec : EqDecision ShardState.
Proof. solve_decision. Defined.
#[export] Instance ShardState_countable : Countable ShardState.
Proof.
  refine (inj_countable' (fun s => match s with ShardNotOwned => 0 | ShardServing => 1 | ShardFrozen => 2 end)
    (fun z : Z => if z =? 0 then ShardNotOwned else if z =? 1 then ShardServing else ShardFrozen) _); by intros [].
Defined.

(** [type shardRec struct]; the entries are those of kvsrv1. *)
Record shardRec : Type := MkShardRec { Data : KVServer; SState : ShardState; SNum : Z }.

#[export] Instance shardRec_eq_dec : EqDecision shardRec.
Proof. solve_decision. Defined.
#[export] Instance shardRec_countable : Countable shardRec.
Proof.
  refine (inj_countable' (fun r => (Data r, SState r, SNum r)) (fun '(d, s, n) => MkShardRec d s n) _); by intros [].
Defined.

Record FreezeShardArgs : Type := MkFreezeShardArgs { fz_Shard : Z; fz_Num : Z }.
Record FreezeShardReply : Type := MkFreezeShardReply { fzr_State : bytes; fzr_Num : Z; fzr_Err : Err }.
Record InstallShardArgs : Type := MkInstallShardArgs { in_Shard : Z; in_State : bytes; in_Num : Z }.
Record InstallShardReply : Type := MkInstallShardReply { inr_Err : Err }.
Record DeleteShardArgs : Type := MkDeleteShardArgs { dl_Shard : Z; dl_Num : Z }.
Record DeleteShardReply : Type := MkDeleteShardReply { dlr_Err : Err }.

Inductive GrpReq : Type :=
| RGet (a : GetArgs) | RPut (a : PutArgs) | RFreeze (a : FreezeShardArgs)
| RInstall (a : InstallShardArgs) | RDelete (a : DeleteShardArgs) | ROther.
Inductive GrpRep : Type :=
| PGet (r : GetReply) | PPut (r : PutReply) | PFreeze (r : FreezeShardReply)
| PInstall (r : InstallShardReply) | PDelete (r : DeleteShardReply) | PNil.

#[export] Instance FreezeShardArgs_eq_dec : EqDecision FreezeShardArgs.
Proof. solve_decision. Defined.
#[export] Instance InstallShardArgs_eq_dec : EqDecision InstallShardArgs.
Proof. solve_decision. Defined.
#[export] Instance DeleteShardArgs_eq_dec : EqDecision DeleteShardArgs.
Proof. solve_decision. Defined.
#[export] Instance GrpReq_eq_dec : EqDecision GrpReq.
Proof. solve_decision. Defined.
#[export] Instance GrpReq_countable : Countable GrpReq.
Proof.
  refine (inj_countable'
    (fun r => match r with
              | RGet a => inl (inl a) | RPut a => inl (inr a)
              | RFreeze a => inr (inl (fz_Shard a, fz_Num a))
              | RInstall a => inr (inr (inl (in_Shard a, in_State a, in_Num a)))
              | RDelete a => inr (inr (inr (Some (dl_Shard a, dl_Num a)))) | ROther => inr (inr (inr None)) end)
    (fun x => match x with
              | inl (inl a) => RGet a | inl (inr a) => RPut a
              | inr (inl (s, n)) => RFreeze (MkFreezeShardArgs s n)
              | inr (inr (inl (s, st, n))) => RInstall (MkInstallShardArgs s st n)
              | inr (inr (inr (Some (s, n)))) => RDelete (MkDeleteShardArgs s n) | inr (inr (inr None)) => ROther end) _);
    by intros [[]|[]|[]|[]|[]|].
Defined.

Section Grp.
Context `{GK : Gob KVServer} `{GR : Gob (list shardRec)}.

(** ** Operations on one shard record *)

Definition encodeShard (m : KVServer) : bytes := gob_enc m.

Definition decodeShard (b : bytes) : KVServer :=
  if len b =? 0 then ∅ else match gob_dec (A := KVServer) b with None => ∅ | Some (m, _) => m end.

Definition get_rec (r : shardRec) (a : GetArgs) : GetReply :=
  match SState r with
  | ShardNotOwned => MkGetReply "" 0 ErrWrongGroup
  | _ =>
      match Data r !! GetArgs_Key a with
      | None => MkGetReply "" 0 ErrNoKey
      | Some e => MkGetReply (value e) (version e) OK
      end
  end.

Definition put_rec (r : shardRec) (a : PutArgs) : shardRec * PutReply :=
  match SState r with
  | ShardServing =>
      match Data r !! PutArgs_Key a with
      | None =>
          if negb (PutArgs_Version a =? 0) then (r, MkPutReply ErrNoKey)
          else (MkShardRec (<[PutArgs_Key a := MkKvEntry (PutArgs_Value a) 1]> (Data r)) (SState r) (SNum r), MkPutReply OK)
      | Some e =>
          if negb (PutArgs_Version a =? version e) then (r, MkPutReply ErrVersion)
          else (MkShardRec (<[PutArgs_Key a := MkKvEntry (PutArgs_Value a) (u64 (version e + 1))]> (Data r)) (SState r) (SNum r),
                MkPutReply OK)
      end
  | _ => (r, MkPutReply ErrWrongGroup)
  end.

Definition freeze_rec (r : shardRec) (num : Z) : shardRec * FreezeShardReply :=
  if num <? SNum r then (r, MkFreezeShardReply [] num OK)
  else
    let r := MkShardRec (Data r) (SState r) (if num >? SNum r then num else SNum r) in
    match SState r with
    | ShardServing => (MkShardRec (Data r) ShardFrozen (SNum r), MkFreezeShardReply (encodeShard (Data r)) num OK)
    | ShardFrozen => (r, MkFreezeShardReply (encodeShard (Data r)) num OK)
    | ShardNotOwned => (r, MkFreezeShardReply [] num OK)
    end.

Definition install_rec (r : shardRec) (st : bytes) (num : Z) : shardRec * InstallShardReply :=
  if num <=? SNum r then (r, MkInstallShardReply OK)
  else (MkShardRec (decodeShard st) ShardServing num, MkInstallShardReply OK).

Definition delete_rec (r : shardRec) (num : Z) : shardRec * DeleteShardReply :=
  if num <? SNum r then (r, MkDeleteShardReply OK)
  else (MkShardRec ∅ ShardNotOwned (if num >? SNum r then num else SNum r), MkDeleteShardReply OK).

(** ** The group *)

Definition initShards (gid : Z) : list shardRec :=
  replicate NShards (MkShardRec ∅ (if gid =? Gid1 then ShardServing else ShardNotOwned) 0).

(** [kv.shards[s]] panics when [s] is not a shard number. *)
Definition on_shard {R} (kv : list shardRec) (s : Z) (f : shardRec -> shardRec * R) : option (list shardRec * R) :=
  r ← get kv s;
  let '(r', rep) := f r in
  kv' ← put kv s r';
  Some (kv', rep).

Definition doGet (kv : list shardRec) (a : GetArgs) : option (list shardRec * GetReply) :=
  on_shard kv (Key2Shard (GetArgs_Key a)) (fun r => (r, get_rec r a)).
Definition doPut (kv : list shardRec) (a : PutArgs) : option (list shardRec * PutReply) :=
  on_shard kv (Key2Shard (PutArgs_Key a)) (fun r => put_rec r a).
Definition doFreeze (kv : list shardRec) (a : FreezeShardArgs) : option (list shardRec * FreezeShardReply) :=
  on_shard kv (fz_Shard a) (fun r => freeze_rec r (fz_Num a)).
Definition doInstall (kv : list shardRec) (a : InstallShardArgs) : option (list shardRec * InstallShardReply) :=
  on_shard kv (in_Shard a) (fun r => install_rec r (in_State a) (in_Num a)).
Definition doDelete (kv : list shardRec) (a : DeleteShardArgs) : option (list shardRec * DeleteShardReply) :=
  on_shard kv (dl_Shard a) (fun r => delete_rec r (dl_Num a)).

Definition Grp_DoOp (kv : list shardRec) (req : GrpReq) : option (list shardRec * GrpRep) :=
  match req with
  | RGet a => '(kv, r) ← doGet kv a; Some (kv, PGet r)
  | RPut a => '(kv, r) ← doPut kv a; Some (kv, PPut r)
  | RFreeze a => '(kv, r) ← doFreeze kv a; Some (kv, PFreeze r)
  | RInstall a => '(kv, r) ← doInstall kv a; Some (kv, PInstall r)
  | RDelete a => '(kv, r) ← doDelete kv a; Some (kv, PDelete r)
  | ROther => Some (kv, PNil)
  end.

Definition Grp_Snapshot (kv : list shardRec) : bytes := gob_enc kv.

Definition Grp_Restore (kv : list shardRec) (data : bytes) : list shardRec :=
  if len data =? 0 then kv
  else match gob_dec (A := list shardRec) data with None => kv | Some (shards, _) => shards end.

(** The RPC handlers, after Submit has returned [err] and [res]. *)
Definition Grp_Get (err : Err) (res : option GrpRep) : GetReply :=
  if negb (Err_eqb err OK) then MkGetReply "" 0 err
  else match res with Some (PGet r) => r | _ => MkGetReply "" 0 ErrWrongGroup end.
Definition Grp_Put (err : Err) (res : option GrpRep) : PutReply :=
  if negb (Err_eqb err OK) then MkPutReply err
  else match res with Some (PPut r) => r | _ => MkPutReply ErrWrongGroup end.
Definition FreezeShard (err : Err) (res : option GrpRep) : FreezeShardReply :=
  if negb (Err_eqb err OK) then MkFreezeShardReply [] 0 err
  else match res with Some (PFreeze r) => r | _ => MkFreezeShardReply [] 0 ErrWrongGroup end.
Definition InstallShard (err : Err) (res : option GrpRep) : InstallShardReply :=
  if negb (Err_eqb err OK) then MkInstallShardReply err
  else match res with Some (PInstall r) => r | _ => MkInstallShardReply ErrWrongGroup end.
Definition DeleteShard (err : Err) (res : option GrpRep) : DeleteShardReply :=
  if negb (Err_eqb err OK) then MkDeleteShardReply err
  else match res with Some (PDelete r) => r | _ => MkDeleteShardReply ErrWrongGroup end.

(** ** Facts about one record *)

Lemma decode_encode_shard m : decodeShard (encodeShard m) = m.
Proof.
  unfold decodeShard, encodeShard. pose proof (gob_enc_nonempty m) as Hne.
  destruct (Z.eqb_spec (len (gob_enc m)) 0) as [Hl|_]; [destruct (gob_enc m); [done|simpl in Hl; lia]|].
  by rewrite gob_dec_enc_nil.
Qed.

(** A serving shard writes as the store of kvsrv1 does. *)
Lemma put_rec_serving r a : SState r = ShardServing ->
  put_rec r a = (MkShardRec (fst (Put (Data r) a)) ShardServing (SNum r), snd (Put (Data r) a)).
Proof.
  intros Hs. unfold put_rec, Put. rewrite Hs. destruct (Data r !! PutArgs_Key a) as [e|] eqn:He.
  - destruct (_ =? _); simpl; [done|]. destruct r. simpl in *. by subst.
  - destruct (_ =? _); simpl; [done|]. destruct r. simpl in *. by subst.
Qed.

Lemma put_rec_refused r a : SState r <> ShardServing -> put_rec r a = (r, MkPutReply ErrWrongGroup).
Proof. intros Hs. unfold put_rec. by destruct (SState r). Qed.

(** Operations of an older configuration change nothing. *)
Lemma freeze_rec_old r num : num < SNum r -> freeze_rec r num = (r, MkFreezeShardReply [] num OK).
Proof. intros. unfold freeze_rec. by destruct (Z.ltb_spec num (SNum r)); [|lia]. Qed.
Lemma install_rec_old r st num : num <= SNum r -> install_rec r st num = (r, MkInstallShardReply OK).
Proof. intros. unfold install_rec. by destruct (Z.leb_spec num (SNum r)); [|lia]. Qed.
Lemma delete_rec_old r num : num < SNum r -> delete_rec r num = (r, MkDeleteShardReply OK).
Proof. intros. unfold delete_rec. by destruct (Z.ltb_spec num (SNum r)); [|lia]. Qed.

Lemma on_shard_total {R} kv s (f : shardRec -> shardRec * R) :
  length kv = NShards -> 0 <= s < Z.of_nat NShards -> exists kv' rep, on_shard kv s f = Some (kv', rep) /\ length kv' = NShards /\
    (forall j, j <> Z.to_nat s -> kv' !! j = kv !! j) /\
    exists r, kv !! Z.to_nat s = Some r /\ kv' !! Z.to_nat s = Some (fst (f r)) /\ rep = snd (f r).
Proof.
  intros Hl Hs. unfold on_shard. destruct (get_in_range kv s) as [r Hr]; [lia|]. rewrite Hr. obind.
  destruct (f r) as [r' rep] eqn:Hf. rewrite put_in_range by lia. obind. exists (<[Z.to_nat s := r']> kv), rep.
  apply get_Some in Hr as [_ Hr]. split_and!; auto.
  - by rewrite length_insert.
  - intros j Hj. by rewrite list_lookup_insert_ne.
  - exists r. rewrite list_lookup_insert_eq by lia. by rewrite Hf.
Qed.

End Grp.
