(* ===== verification/ReplicatedKv.v ===== *)
(** * The key/value services on Raft

    The two services of the repository that run on RSM, as instances of the
    composition of Replicated.v: the replicated store (kvraft1/server.go) is
    the single-server store of kvsrv1 executing one log, and so is, shard by
    shard, a replica group (shardkv1/shardgrp/server.go), whose servers never
    index outside their shard table. *)

From S2P Require Import Prelude Rpc Persister Raft RaftCluster KvSrv KvClerk Rsm Replicated KvRaft ShardCfg ShardGrp.

(** ** The replicated store *)

(** The answer of the single-server store to a request. *)
Definition kvsrv_answer (kv : KVServer) (req : KvReq) : KvRep :=
  match req with
  | GetReq a => GetRep (Get kv a)
  | PutReq a => PutRep (snd (Put kv a))
  | OtherReq => NilRep
  end.

Lemma KV_DoOp_answer kv req : snd (KV_DoOp kv req) = kvsrv_answer kv req.
Proof. destruct req as [a|a|]; simpl; [done| |done]. rewrite DoPut_Put. by destruct (Put kv a). Qed.

Section Kv.
Context `{GK : Gob KVServer} `{GS : Gob SnapshotData} `{GZ : Gob Z} `{GL : Gob (list (LogEntry (Op KvReq)))}.

(** C18 (refinement): the replicated key/value store is one kvsrv1.  Every
    schedule of [n] servers, with lost messages, crashes and snapshots, runs
    without a panic, and after it the map of every server is the map that the
    single server of kvsrv1 reaches on the Puts of a prefix of one common log
    (the first [lastApplied] operations).  Moreover, if one request is
    answered with OK before another one is made which is answered with OK
    later, at two servers that have not restarted, in a schedule of fewer
    than 2^63 - 1 steps, then both requests are in that log in this order
    and each answer is the one that kvsrv1 gives at its position. *)
Theorem kvraft_cluster_is_kvsrv (n : nat) (max : Z) (ls1 ls2 : list (SStep (Req := KvReq))) :
  exists s1 s2, service_run n max (∅ : KVServer) ls1 = SNext s1 /\ service_run n max ∅ (ls1 ++ ls2) = SNext s2 /\
  (forall k r, replicas s2 !! k = Some r -> 0 <= rsm_lastApplied (rsm r) <= len (oplog s2) /\
     rsm_sm (rsm r) = puts MakeKVServer (puts_of (take (Z.to_nat (rsm_lastApplied (rsm r))) (oplog s2)))) /\
  forall i j r1 r2 ch1 ch2 v1 v2,
    not_restarted i (ls1 ++ ls2) -> not_restarted j (ls1 ++ ls2) -> len (ls1 ++ ls2) < 2 ^ 63 - 1 ->
    replicas s1 !! i = Some r1 -> rsm_chans (rsm r1) !! ch1 = Some (MkOpResult v1 OK) ->
    replicas s2 !! j = Some r2 -> rsm_chans (rsm r2) !! ch2 = Some (MkOpResult v2 OK) ->
    Forall (fun x => x.1 <> (j, ch2)) (submitted s1) ->
    exists op1 op2 (k1 k2 : nat), (k1 < k2)%nat /\ oplog s2 !! k1 = Some op1 /\ oplog s2 !! k2 = Some op2 /\
      (i, ch1, op1) ∈ submitted s1 /\ (j, ch2, op2) ∈ submitted s2 /\
      v1 = Some (kvsrv_answer (puts MakeKVServer (puts_of (take k1 (oplog s2)))) (Op_Req op1)) /\
      v2 = Some (kvsrv_answer (puts MakeKVServer (puts_of (take k2 (oplog s2)))) (Op_Req op2)).
Proof.
  destruct (service_one_log n max (∅ : KVServer) ls1) as (s1 & Hrun1 & _).
  destruct (service_one_log n max (∅ : KVServer) (ls1 ++ ls2)) as (s2 & Hrun2 & Hlog & _).
  exists s1, s2. split_and!; [done|done| |].
  - intros k r Hr. rewrite <-exec_log_puts. by apply (Hlog k).
  - intros i j r1 r2 ch1 ch2 v1 v2 Hn1 Hn2 Hlen Hr1 Hc1 Hr2 Hc2 Hnew.
    destruct (service_linearizable n max (∅ : KVServer) ls1 ls2 s1 s2 i j r1 r2 ch1 ch2 v1 v2)
      as (op1 & op2 & k1 & k2 & Hlt & Hk1 & Hk2 & Hs1 & Hs2 & Hv1 & Hv2); auto.
    exists op1, op2, k1, k2. rewrite <-!exec_log_puts, <-!KV_DoOp_answer. auto 10.
Qed.

End Kv.

(** ** The replica group *)

(** Requests whose shard number exists; keys always have one. *)
Definition shard_ok (s : Z) : bool := (0 <=? s) && (s <? Z.of_nat NShards).
Definition GrpReq_ok (req : GrpReq) : bool :=
  match req with
  | RFreeze a => shard_ok (fz_Shard a)
  | RInstall a => shard_ok (in_Shard a)
  | RDelete a => shard_ok (dl_Shard a)
  | _ => true
  end.

Section Group.
Context `{GK : Gob KVServer} `{GR : Gob (list shardRec)} `{GS : Gob SnapshotData} `{GZ : Gob Z}
  `{GL : Gob (list (LogEntry (Op GrpReq)))}.

(** The group as a state machine.  A request for a shard that does not exist
    makes the server exit, here it changes nothing; the theorem shows that
    the case does not occur. *)
#[export] Instance Grp_machine : StateMachine (list shardRec) GrpReq GrpRep := {
  DoOp := fun kv req => default (kv, PNil) (Grp_DoOp kv req);
  SM_Snapshot := Grp_Snapshot;
  SM_Restore := Grp_Restore;
}.

#[export] Instance Grp_laws : StateMachineLaws (list shardRec) GrpReq GrpRep.
Proof.
  constructor. intros s s'. simpl. unfold Grp_Restore, Grp_Snapshot.
  pose proof (gob_enc_nonempty s') as Hne. destruct (Z.eqb_spec (len (gob_enc s')) 0) as [Hl|_].
  - destruct (gob_enc s'); [done|simpl in Hl; lia].
  - by rewrite gob_dec_enc_nil.
Qed.

(** [StartServerShardGrp]: the initial shards and the RSM; the registration of
    types with labgob has no state. *)
Definition StartServerShardGrp (gid me : Z) (snapshot : bytes) (maxraftstate : Z) : RSM (list shardRec) GrpRep :=
  MakeRSM (Req := GrpReq) me snapshot maxraftstate (initShards gid) true.

(** Executing requests one after the other, stopping at a panic. *)
Fixpoint Grp_exec (kv : list shardRec) (reqs : list GrpReq) : option (list shardRec) :=
  match reqs with
  | [] => Some kv
  | req :: reqs => '(kv, _) ← Grp_DoOp kv req; Grp_exec kv reqs
  end.

Lemma shard_ok_range s : shard_ok s = true -> 0 <= s < Z.of_nat NShards.
Proof. unfold shard_ok. intros H. zbool. lia. Qed.

Lemma Grp_DoOp_total kv req : length kv = NShards -> GrpReq_ok req = true ->
  exists kv' rep, Grp_DoOp kv req = Some (kv', rep) /\ length kv' = NShards.
Proof.
  intros Hl Hok. assert (forall R (f : shardRec -> shardRec * R) s, 0 <= s < Z.of_nat NShards ->
    exists kv' rep, on_shard kv s f = Some (kv', rep) /\ length kv' = NShards) as Hon.
  { intros R f s Hs. destruct (on_shard_total kv s f Hl Hs) as (kv' & rep & ? & ? & _). eauto. }
  destruct req as [a|a|a|a|a|]; simpl in *; [..|eauto].
  - destruct (Hon _ (fun r => (r, get_rec r a)) (Key2Shard (GetArgs_Key a)) (Key2Shard_range _)) as (kv' & rep & Heq & ?).
    unfold doGet. rewrite Heq. simpl. eauto.
  - destruct (Hon _ (fun r => put_rec r a) (Key2Shard (PutArgs_Key a)) (Key2Shard_range _)) as (kv' & rep & Heq & ?).
    unfold doPut. rewrite Heq. simpl. eauto.
  - destruct (Hon _ (fun r => freeze_rec r (fz_Num a)) (fz_Shard a) (shard_ok_range _ Hok)) as (kv' & rep & Heq & ?).
    unfold doFreeze. rewrite Heq. simpl. eauto.
  - destruct (Hon _ (fun r => install_rec r (in_State a) (in_Num a)) (in_Shard a) (shard_ok_range _ Hok)) as (kv' & rep & Heq & ?).
    unfold doInstall. rewrite Heq. simpl. eauto.
  - destruct (Hon _ (fun r => delete_rec r (dl_Num a)) (dl_Shard a) (shard_ok_range _ Hok)) as (kv' & rep & Heq & ?).
    unfold doDelete. rewrite Heq. simpl. eauto.
Qed.

Lemma Grp_exec_log kv (L : list (Op GrpReq)) : length kv = NShards -> Forall (fun op => GrpReq_ok (Op_Req op) = true) L ->
  Grp_exec kv (Op_Req <$> L) = Some (exec_log kv L (length L)) /\ length (exec_log kv L (length L)) = NShards.
Proof.
  unfold exec_log. rewrite firstn_all. intros Hl HL. revert kv Hl. induction HL as [|op L Hop HL IH]; intros kv Hl; [done|].
  destruct (Grp_DoOp_total kv (Op_Req op) Hl Hop) as (kv' & rep & Heq & Hl'). cbn [fmap list_fmap Grp_exec foldl]. simpl DoOp.
  rewrite Heq. simpl. by apply IH.
Qed.

(** C19 (bounds): the servers of a replica group stay within their shard table.
    If clients and controllers name shards that exist, then on every schedule
    of [n] servers no request in the log panics, every server's table has the
    twelve shards, and it is the table that executing the requests of a
    prefix of one common log produces, from the group's initial shards. *)
Theorem shardgrp_servers_in_bounds (n : nat) (max gid : Z) (ls : list (SStep (Req := GrpReq))) :
  Forall (fun l => match l with SSubmit _ req => GrpReq_ok req = true | _ => True end) ls ->
  exists s, service_run n max (initShards gid) ls = SNext s /\
    forall i r, replicas s !! i = Some r ->
      Grp_exec (initShards gid) (Op_Req <$> take (Z.to_nat (rsm_lastApplied (rsm r))) (oplog s)) = Some (rsm_sm (rsm r)) /\
      length (rsm_sm (rsm r)) = NShards.
Proof.
  intros Hls. destruct (service_one_log n max (initShards gid) ls) as (s & Hs & Hlog & Hfrom). exists s. split; [done|].
  intros i r Hr. destruct (Hlog i r Hr) as [Hk Hsm]. rewrite Hsm.
  set (L := take (Z.to_nat (rsm_lastApplied (rsm r))) (oplog s)).
  assert (exec_log (initShards gid) (oplog s) (Z.to_nat (rsm_lastApplied (rsm r))) = exec_log (initShards gid) L (length L)) as ->.
  { unfold exec_log, L. by rewrite firstn_all. }
  apply Grp_exec_log; [done|]. apply Forall_take, Forall_forall. intros op Hop. destruct (Hfrom op Hop) as (j & _ & Hin).
  rewrite Forall_forall in Hls. by specialize (Hls _ Hin).
Qed.

End Group.

(** ** Witnesses

    Three servers; server 0 leads and answers a first request before it is
    given a second one. *)

Section Runs.
Context {Req : Type}.

Definition lead_0 : list (SStep (Req := Req)) := SRaft <$> [LElection 0 1; LVoteRequest 0 0 1; LVote 0 2; LVoteReply 0 1 3].
Definition first_request (req : Req) : list (SStep (Req := Req)) :=
  SSubmit 0 req :: (SRaft <$> [LReplicate 0 1; LAppend 2 4; LAppendReply 3]) ++ [SApply 0; SRead 0].
Definition second_request (req : Req) : list (SStep (Req := Req)) :=
  [SMaybe 0; SSnapshot 0; SSubmit 0 req] ++ (SRaft <$> [LReplicate 0 1; LAppend 4 5; LAppendReply 5]) ++ [SApply 0; SRead 0; SRestart 2 7].
End Runs.

Definition put_x : KvReq := PutReq (MkPutArgs "x" "1" 0).
Definition get_x : KvReq := GetReq (MkGetArgs "x").
Definition kv_1 := service_of (service_run 3 1 (∅ : KVServer) (lead_0 ++ first_request put_x)).
Definition kv_2 := service_of (service_run 3 1 (∅ : KVServer) ((lead_0 ++ first_request put_x) ++ second_request get_x)).

Lemma kvraft_cluster_is_kvsrv_witness :
  exists op1 op2 (k1 k2 : nat), (k1 < k2)%nat /\ oplog kv_2 !! k1 = Some op1 /\ oplog kv_2 !! k2 = Some op2 /\
    (0%nat, 0%nat, op1) ∈ submitted kv_1 /\ (0%nat, 1%nat, op2) ∈ submitted kv_2 /\
    Some (PutRep (MkPutReply OK)) = Some (kvsrv_answer (puts MakeKVServer (puts_of (take k1 (oplog kv_2)))) (Op_Req op1)) /\
    Some (GetRep (MkGetReply "1" 1 OK)) = Some (kvsrv_answer (puts MakeKVServer (puts_of (take k2 (oplog kv_2)))) (Op_Req op2)).
Proof.
  destruct (kvraft_cluster_is_kvsrv 3 1 (lead_0 ++ first_request put_x) (second_request get_x)) as (s1 & s2 & Hs1 & Hs2 & _ & Hlin).
  assert (kv_1 = s1) as <- by (unfold kv_1; by rewrite Hs1). assert (kv_2 = s2) as <- by (unfold kv_2; by rewrite Hs2).
  apply (Hlin 0%nat 0%nat (replica_of ∅ kv_1 0) (replica_of ∅ kv_2 0) 0%nat 1%nat);
    try (vm_compute; reflexivity); vm_compute; repeat constructor; discriminate.
Defined.

Definition group_run : list (SStep (Req := GrpReq)) :=
  lead_0 ++ first_request (RPut (MkPutArgs "x" "1" 0)) ++ second_request (RFreeze (MkFreezeShardArgs (Key2Shard "x") 1)).

Lemma shardgrp_servers_in_bounds_witness :
  exists s, service_run 3 1 (initShards Gid1) group_run = SNext s /\ forall i r, replicas s !! i = Some r -> length (rsm_sm (rsm r)) = NShards.
Proof.
  destruct (shardgrp_servers_in_bounds 3 1 Gid1 group_run) as (s & Hs & Hr); [vm_compute; repeat constructor|].
  exists s. split; [exact Hs|]. intros i r Hi. exact (proj2 (Hr i r Hi)).
Defined.

Example group_run_freezes :
  let s := service_of (service_run 3 1 (initShards Gid1) group_run) in
  SState <$> (rsm_sm (rsm (replica_of (initShards Gid1) s 0)) !! Z.to_nat (Key2Shard "x")) = Some ShardFrozen.
Proof. vm_compute. reflexivity. Qed.
