(* ===== verification/Migration.v ===== *)
(** * Moving a shard between groups: an abstract protocol

    The life of one shard over a sequence of configuration changes, as the
    groups of src/shardkv1/shardgrp/server.go see it.  Move [k] takes the
    shard from group [owner (k - 1)] to group [owner k] under configuration
    number [num k].  Each request may be executed repeatedly and arbitrarily
    late, and clients send Puts to any group.

    This is a specification and not a translation of the controllers: its
    guards are the order in which requests must reach the groups (install
    only a state that a Freeze of that move returned, delete only after an
    Install of that move, begin a move when the one before is over).  That
    the programs of shardctrler.go keep to it, and under which condition on
    their recoveries, is what ReshardSafety.v proves; the run
    [stale_recovery_loses_data] of ShardCtrler.v shows a program that does
    not.  Here are the protocol, its invariant [mig_inv], and that every
    event of it preserves the invariant. *)

From stdpp Require Import functions.
From S2P Require Import Prelude Rpc KvSrv KvRaft ShardCfg ShardGrp.

Section Migration.
Context `{GK : Gob KVServer}.
Variables (owner : nat -> Z) (num : nat -> Z).

Record Mig : Type := MkMig {
  recs : Z -> shardRec;              (* the shard's record at each group *)
  cur : nat;                         (* moves begun so far *)
  freezes : nat -> list bytes;       (* states that Freezes of a move returned *)
  installed : nat -> bool;           (* some Install of the move succeeded *)
  deleted : nat -> bool;             (* some Delete of the move succeeded *)
  log : list (PutArgs * PutReply);   (* Puts that a group accepted, in order *)
}.

Definition init_mig : Mig :=
  MkMig (fun g => MkShardRec ∅ (if g =? owner 0 then ShardServing else ShardNotOwned) 0) 0
        (fun _ => []) (fun _ => false) (fun _ => false) [].

Inductive MEvent : Type :=
| MBegin
| MFreeze (k : nat)
| MInstall (k : nat) (st : bytes)
| MDelete (k : nat)
| MPut (g : Z) (a : PutArgs).

(** [None]: no controller may send this RPC now. *)
Definition mstep (s : Mig) (ev : MEvent) : option Mig :=
  match ev with
  | MBegin =>
      if (cur s =? 0)%nat || deleted s (cur s)
      then Some (MkMig (recs s) (S (cur s)) (freezes s) (installed s) (deleted s) (log s)) else None
  | MFreeze k =>
      if (0 <? k)%nat && (k <=? cur s)%nat then
        let '(r, rep) := freeze_rec (recs s (owner (k - 1))) (num k) in
        Some (MkMig (<[owner (k - 1)%nat := r]> (recs s)) (cur s)
                    (<[k := freezes s k ++ [fzr_State rep]]> (freezes s)) (installed s) (deleted s) (log s))
      else None
  | MInstall k st =>
      if (0 <? k)%nat && (k <=? cur s)%nat && bool_decide (st ∈ freezes s k) then
        let '(r, _) := install_rec (recs s (owner k)) st (num k) in
        Some (MkMig (<[owner k := r]> (recs s)) (cur s) (freezes s) (<[k := true]> (installed s)) (deleted s) (log s))
      else None
  | MDelete k =>
      if (0 <? k)%nat && installed s k then
        let '(r, _) := delete_rec (recs s (owner (k - 1))) (num k) in
        Some (MkMig (<[owner (k - 1)%nat := r]> (recs s)) (cur s) (freezes s) (installed s) (<[k := true]> (deleted s)) (log s))
      else None
  | MPut g a =>
      let '(r, rep) := put_rec (recs s g) a in
      Some (MkMig (<[g := r]> (recs s)) (cur s) (freezes s) (installed s) (deleted s)
                  (if Err_eqb (PutReply_Err rep) ErrWrongGroup then log s else log s ++ [(a, rep)]))
  end.

(** A run; events that are not enabled are skipped. *)
Definition mrun (s : Mig) (evs : list MEvent) : Mig := foldl (fun s ev => default s (mstep s ev)) s evs.

(** The log is a run of the single store of kvsrv1. *)
Fixpoint replays (kv : KVServer) (l : list (PutArgs * PutReply)) : Prop :=
  match l with
  | [] => True
  | (a, r) :: l => snd (Put kv a) = r /\ replays (fst (Put kv a)) l
  end.

Definition store (s : Mig) : KVServer := puts ∅ (map fst (log s)).

(** ** The invariant *)

Hypothesis num_0 : num 0 = 0.
Hypothesis num_lt : forall k, num k < num (S k).
Hypothesis owner_ne : forall k, owner (S k) <> owner k.

Lemma num_mono j k : (j < k)%nat -> num j < num k.
Proof. induction 1 as [|k _ IH]; [apply num_lt|]. pose proof (num_lt k). lia. Qed.

Definition not_owned (s : Mig) (g : Z) : Prop := SState (recs s g) = ShardNotOwned.
Definition serving (s : Mig) (g : Z) : Prop := SState (recs s g) = ShardServing /\ Data (recs s g) = store s.

Inductive phase (s : Mig) : Prop :=
| ph_settled :
    cur s = 0%nat \/ deleted s (cur s) = true ->
    serving s (owner (cur s)) -> (forall g, g <> owner (cur s) -> not_owned s g) -> phase s
| ph_begun k : cur s = S k ->
    installed s (S k) = false -> freezes s (S k) = [] ->
    serving s (owner k) -> (forall g, g <> owner k -> not_owned s g) ->
    (forall g, SNum (recs s g) <= num k) -> phase s
| ph_frozen k : cur s = S k ->
    installed s (S k) = false -> Forall (fun st => st = encodeShard (store s)) (freezes s (S k)) ->
    SState (recs s (owner k)) = ShardFrozen -> Data (recs s (owner k)) = store s -> SNum (recs s (owner k)) = num (S k) ->
    (forall g, g <> owner k -> not_owned s g /\ SNum (recs s g) <= num k) -> phase s
| ph_installed k : cur s = S k ->
    installed s (S k) = true -> deleted s (S k) = false ->
    serving s (owner (S k)) -> SState (recs s (owner k)) = ShardFrozen -> SNum (recs s (owner k)) = num (S k) ->
    (forall g, g <> owner k -> g <> owner (S k) -> not_owned s g) -> phase s.

Record mig_inv (s : Mig) : Prop := {
  mi_num : forall g, SNum (recs s g) <= num (cur s);
  mi_installed : forall j, installed s j = true -> (0 < j <= cur s)%nat /\ num j <= SNum (recs s (owner j));
  mi_deleted : forall j, deleted s j = true -> installed s j = true /\ num j <= SNum (recs s (owner (j - 1))) /\
    (SNum (recs s (owner (j - 1))) = num j -> not_owned s (owner (j - 1)));
  mi_past : forall j, (0 < j < cur s)%nat -> deleted s j = true;
  mi_future : forall j, (cur s < j)%nat -> freezes s j = [];
  mi_replays : replays ∅ (log s);
  mi_phase : phase s;
}.

Lemma replays_snoc kv l a : replays kv l -> replays kv (l ++ [(a, snd (Put (puts kv (map fst l)) a))]).
Proof.
  revert kv. induction l as [|[a' r] l IH]; intros kv Hl; simpl; [done|]. destruct Hl as [-> Hl].
  split; [done|]. by apply IH.
Qed.

Lemma init_mig_inv : mig_inv init_mig.
Proof.
  constructor; simpl; try done; try lia.
  apply ph_settled; simpl; [by left| |]; unfold serving, not_owned; simpl.
  - by rewrite Z.eqb_refl.
  - intros g Hg. by rewrite (proj2 (Z.eqb_neq g (owner 0)) Hg).
Qed.

(** ** Steps that change nothing that matters *)

(** The same record, up to the data of a shard that is not owned. *)
Definition rec_like (r r' : shardRec) : Prop :=
  SState r' = SState r /\ SNum r' = SNum r /\ (SState r <> ShardNotOwned -> Data r' = Data r).

Lemma rec_like_refl r : rec_like r r.
Proof. done. Qed.

Lemma rec_like_insert s g r' g' : rec_like (recs s g) r' -> rec_like (recs s g') (<[g := r']> (recs s) g').
Proof.
  intros Hr. destruct (decide (g = g')) as [->|]; [by rewrite fn_lookup_insert|by rewrite fn_lookup_insert_ne].
Qed.

Lemma inv_quiet s s' : mig_inv s -> cur s' = cur s -> log s' = log s ->
  (forall g, rec_like (recs s g) (recs s' g)) ->
  (forall j, installed s' j = installed s j) -> (forall j, deleted s' j = deleted s j) ->
  (forall j, (cur s < j)%nat -> freezes s' j = freezes s j) ->
  (freezes s' (cur s) = freezes s (cur s) \/ installed s (cur s) = true \/
   SState (recs s (owner (pred (cur s)))) = ShardFrozen /\
   freezes s' (cur s) = freezes s (cur s) ++ [encodeShard (store s)]) -> mig_inv s'.
Proof.
  intros [Hn Hi Hd Hp Hfu Hr Hph] Ecur Elog Erec Ei Ed Efu Ef. assert (store s' = store s) as Est by (unfold store; by rewrite Elog).
  assert (forall g, SNum (recs s' g) = SNum (recs s g)) as En by (intros g; apply Erec).
  assert (forall g, not_owned s g -> not_owned s' g) as Eo.
  { intros g Hg. unfold not_owned. destruct (Erec g) as (-> & _). done. }
  assert (forall g, serving s g -> serving s' g) as Es.
  { intros g [H1 H2]. destruct (Erec g) as (E1 & _ & E2). unfold serving. rewrite Est, E1, E2; [done|congruence]. }
  constructor; rewrite ?Ecur, ?Elog; auto.
  - intros g. by rewrite En.
  - intros j. rewrite Ei, En. auto.
  - intros j Hj. rewrite Ed in Hj. rewrite Ei, En. destruct (Hd j Hj) as (? & ? & ?). auto.
  - intros j Hj. rewrite Ed. auto.
  - intros j Hj. rewrite Efu; auto.
  - destruct Hph as [Hc Hs Ho|k Hk Hik Hfk Hs Ho Hm|k Hk Hik Hfk Hs1 Hs2 Hs3 Ho|k Hk Hik Hdk Hs Hs1 Hs2 Ho].
    + apply ph_settled; rewrite ?Ecur, ?Ed; auto.
    + rewrite Hk in Ef. destruct Ef as [Ef|[?|[Hfr _]]]; [|congruence|destruct Hs; simpl in Hfr; congruence].
      apply (ph_begun s' k); rewrite ?Ecur, ?Ei, ?Ef; auto. intros g. by rewrite En.
    + rewrite Hk in Ef. destruct (Erec (owner k)) as (E1 & E2 & E3).
      apply (ph_frozen s' k); rewrite ?Ecur, ?Ei, ?Est, ?E1, ?E2; auto; [|rewrite E3; [done|congruence]|].
      * destruct Ef as [->|[?|[_ ->]]]; [done|congruence|]. apply Forall_app. split; [done|]. by apply Forall_singleton.
      * intros g Hg. rewrite En. destruct (Ho g Hg). auto.
    + destruct (Erec (owner k)) as (E1 & E2 & E3).
      apply (ph_installed s' k); rewrite ?Ecur, ?Ei, ?Ed, ?E1, ?E2; auto.
Qed.

(** A move that is over: its RPCs find a larger number, or the shard gone. *)
Lemma over_freeze s j : mig_inv s -> deleted s j = true ->
  freeze_rec (recs s (owner (j - 1))) (num j) = (recs s (owner (j - 1)), MkFreezeShardReply [] (num j) OK).
Proof.
  intros Hinv Hd. destruct (mi_deleted _ Hinv j Hd) as (_ & Hle & Ho).
  destruct (decide (num j < SNum (recs s (owner (j - 1))))); [by apply freeze_rec_old|].
  assert (SNum (recs s (owner (j - 1))) = num j) as He by lia. specialize (Ho He). unfold freeze_rec, not_owned in *.
  rewrite He, Z.ltb_irrefl, Z.gtb_ltb, Z.ltb_irrefl. simpl. rewrite Ho. rewrite <-He, <-Ho at 1. by destruct (recs s _).
Qed.

Lemma over_delete s j : mig_inv s -> deleted s j = true ->
  rec_like (recs s (owner (j - 1))) (fst (delete_rec (recs s (owner (j - 1))) (num j))).
Proof.
  intros Hinv Hd. destruct (mi_deleted _ Hinv j Hd) as (_ & Hle & Ho).
  destruct (decide (num j < SNum (recs s (owner (j - 1))))); [by rewrite delete_rec_old|].
  assert (SNum (recs s (owner (j - 1))) = num j) as He by lia. specialize (Ho He). unfold delete_rec, not_owned in *.
  rewrite He, Z.ltb_irrefl, Z.gtb_ltb, Z.ltb_irrefl. simpl. unfold rec_like. simpl. rewrite Ho. split_and!; done.
Qed.

(** Which moves are over. *)
Lemma over_or_current s j : mig_inv s -> (0 < j <= cur s)%nat -> deleted s j = true \/ j = cur s /\ deleted s j = false.
Proof.
  intros Hinv Hj. destruct (deleted s j) eqn:Hd; [by left|right]. split; [|done].
  destruct (decide (j = cur s)); [done|]. rewrite (mi_past _ Hinv j) in Hd; [done|lia].
Qed.

(** ** Preservation *)

Lemma begin_inv s : mig_inv s -> cur s = 0%nat \/ deleted s (cur s) = true ->
  mig_inv (MkMig (recs s) (S (cur s)) (freezes s) (installed s) (deleted s) (log s)).
Proof.
  intros Hinv Hset. pose proof (num_lt (cur s)). destruct Hinv as [Hn Hi Hd Hp Hfu Hr Hph]. constructor; simpl; auto.
  - intros g. specialize (Hn g). lia.
  - intros j Hj. destruct (Hi j Hj). split; [lia|done].
  - intros j Hj. destruct (decide (j = cur s)) as [->|]; [destruct Hset; [lia|done]|]. apply Hp. lia.
  - intros j Hj. apply Hfu. lia.
  - apply (ph_begun _ (cur s)); simpl; auto.
    + destruct (installed s (S (cur s))) eqn:Hi1; [|done]. destruct (Hi _ Hi1). lia.
    + destruct Hph as [_ Hs _|k Hk Hik _ _ _ _|k Hk Hik _ _ _ _ _|k Hk _ Hdk _ _ _ _]; [exact Hs|..]; exfalso;
        (destruct Hset as [|Hdel]; [lia|]); rewrite Hk in Hdel; try congruence; destruct (Hd _ Hdel); congruence.
    + destruct Hph as [_ _ Ho|k Hk Hik _ _ _ _|k Hk Hik _ _ _ _ _|k Hk _ Hdk _ _ _ _]; [exact Ho|..]; exfalso;
        (destruct Hset as [|Hdel]; [lia|]); rewrite Hk in Hdel; try congruence; destruct (Hd _ Hdel); congruence.
Qed.

Lemma insert_true (f : nat -> bool) j i : f j = true -> <[j := true]> f i = f i.
Proof. intros Hf. destruct (decide (j = i)) as [->|]; [by rewrite fn_lookup_insert|by rewrite fn_lookup_insert_ne]. Qed.

Lemma insert_true_other (f : nat -> bool) j i : f i = true -> <[j := true]> f i = true.
Proof. intros Hf. destruct (decide (j = i)) as [->|]; [by rewrite fn_lookup_insert|by rewrite fn_lookup_insert_ne]. Qed.

(** The first Freeze of the current move. *)
Lemma freeze_first s k : mig_inv s -> cur s = S k -> installed s (S k) = false -> serving s (owner k) ->
  (forall g, g <> owner k -> not_owned s g) -> (forall g, SNum (recs s g) <= num k) -> freezes s (S k) = [] ->
  mig_inv (MkMig (<[owner k := MkShardRec (Data (recs s (owner k))) ShardFrozen (num (S k))]> (recs s)) (cur s)
    (<[S k := [encodeShard (Data (recs s (owner k)))]]> (freezes s)) (installed s) (deleted s) (log s)).
Proof.
  intros [Hn Hi Hd Hp Hfu Hr _] Hk Hik [Hs1 Hs2] Ho Hm Hf. pose proof (num_lt k) as Hlt.
  set (r := MkShardRec _ ShardFrozen _).
  assert (forall g, SNum (recs s g) <= SNum (<[owner k := r]> (recs s) g)) as Hup.
  { intros g. specialize (Hm g). destruct (decide (owner k = g)) as [<-|]; rewrite ?fn_lookup_insert, ?fn_lookup_insert_ne by done; simpl; lia. }
  constructor; simpl; auto.
  - intros g. specialize (Hm g). rewrite Hk. destruct (decide (owner k = g)) as [<-|];
      rewrite ?fn_lookup_insert, ?fn_lookup_insert_ne by done; simpl; lia.
  - intros j Hj. destruct (Hi j Hj) as [? ?]. specialize (Hup (owner j)). split; [done|lia].
  - intros j Hj. destruct (Hd j Hj) as (Hij & H1 & H2). split_and!; auto; [specialize (Hup (owner (j - 1))); lia|].
    unfold not_owned. simpl. intros He. destruct (decide (owner k = owner (j - 1))) as [Heq|Hne].
    + exfalso. rewrite <-Heq, fn_lookup_insert in He. simpl in He.
      assert (j <> S k) by congruence. destruct (Hi j Hij) as [Hjk _]. pose proof (num_mono j (S k)). lia.
    + rewrite fn_lookup_insert_ne in He |- * by done. exact (H2 He).
  - intros j Hj. rewrite fn_lookup_insert_ne by lia. auto.
  - apply (ph_frozen _ k); simpl; rewrite ?fn_lookup_insert; auto.
    + apply Forall_singleton. unfold store in *. simpl. congruence.
    + intros g Hg. unfold not_owned. simpl. rewrite fn_lookup_insert_ne by done. split; [by apply Ho|apply Hm].
Qed.

Lemma freeze_inv s j : mig_inv s -> (0 < j <= cur s)%nat ->
  let '(r, rep) := freeze_rec (recs s (owner (j - 1))) (num j) in
  mig_inv (MkMig (<[owner (j - 1)%nat := r]> (recs s)) (cur s)
    (<[j := freezes s j ++ [fzr_State rep]]> (freezes s)) (installed s) (deleted s) (log s)).
Proof.
  intros Hinv Hj. destruct (over_or_current s j Hinv Hj) as [Hd|[-> Hd]].
  { rewrite (over_freeze s j Hinv Hd). apply (inv_quiet s); simpl; auto.
    - intros g. apply rec_like_insert, rec_like_refl.
    - intros i Hi. apply fn_lookup_insert_ne. lia.
    - destruct (decide (j = cur s)) as [->|]; [|left; by apply fn_lookup_insert_ne].
      right. left. by apply (mi_deleted _ Hinv). }
  assert (forall k, cur s = S k -> SState (recs s (owner k)) = ShardFrozen -> SNum (recs s (owner k)) = num (S k) ->
    Data (recs s (owner k)) = store s \/ installed s (S k) = true ->
    let '(r, rep) := freeze_rec (recs s (owner k)) (num (S k)) in
    mig_inv (MkMig (<[owner k := r]> (recs s)) (cur s)
      (<[S k := freezes s (S k) ++ [fzr_State rep]]> (freezes s)) (installed s) (deleted s) (log s))) as Hagain.
  { intros k Hk Hs1 Hs2 Hor. unfold freeze_rec. rewrite Hs2, Z.ltb_irrefl, Z.gtb_ltb, Z.ltb_irrefl. simpl. rewrite Hs1. simpl.
    apply (inv_quiet s); simpl; auto.
    - intros g. apply rec_like_insert. unfold rec_like. simpl. auto.
    - intros i Hi. apply fn_lookup_insert_ne. lia.
    - rewrite Hk, fn_lookup_insert. destruct Hor as [Hor|Hor]; [|auto]. right. right. by rewrite Hor. }
  pose proof (mi_phase _ Hinv) as Hph.
  destruct Hph as [[Hc|Hc] _ _|k Hk Hik Hfk Hs Ho Hm|k Hk Hik Hfk Hs1 Hs2 Hs3 Ho|k Hk Hik Hdk Hs Hs1 Hs2 Ho]; [lia|congruence|..];
    pose proof (Hagain k Hk) as Ha; clear Hagain; rewrite Hk in Ha |- *; replace (S k - 1)%nat with k by lia; [|apply Ha; auto..].
  pose proof (freeze_first s k Hinv Hk Hik Hs Ho Hm Hfk) as Hff. rewrite Hk in Hff.
  destruct Hs as [Hs1 Hs2]. pose proof (Hm (owner k)). pose proof (num_lt k). unfold freeze_rec.
  destruct (Z.ltb_spec (num (S k)) (SNum (recs s (owner k)))); [lia|]. rewrite Z.gtb_ltb.
  destruct (Z.ltb_spec (SNum (recs s (owner k))) (num (S k))); [|lia]. simpl. rewrite Hs1, Hfk. exact Hff.
Qed.

(** The Install of the current move. *)
Lemma install_first s k : mig_inv s -> cur s = S k -> SState (recs s (owner k)) = ShardFrozen ->
  SNum (recs s (owner k)) = num (S k) -> deleted s (S k) = false ->
  (forall g, g <> owner k -> not_owned s g /\ SNum (recs s g) <= num k) ->
  mig_inv (MkMig (<[owner (S k) := MkShardRec (store s) ShardServing (num (S k))]> (recs s)) (cur s)
    (freezes s) (<[S k := true]> (installed s)) (deleted s) (log s)).
Proof.
  intros [Hn Hi Hd Hp Hfu Hr _] Hk Hs1 Hs2 Hdk Ho. pose proof (num_lt k) as Hlt. pose proof (owner_ne k) as Hne.
  set (r := MkShardRec _ ShardServing _). destruct (Ho (owner (S k)) Hne) as [Hno Hnum].
  assert (forall g, SNum (recs s g) <= SNum (<[owner (S k) := r]> (recs s) g)) as Hup.
  { intros g. destruct (decide (owner (S k) = g)) as [<-|]; rewrite ?fn_lookup_insert, ?fn_lookup_insert_ne by done; simpl; lia. }
  constructor; simpl; auto.
  - intros g. rewrite Hk. destruct (decide (owner (S k) = g)) as [<-|];
      rewrite ?fn_lookup_insert, ?fn_lookup_insert_ne by done; simpl; [lia|]. specialize (Hn g). rewrite Hk in Hn. lia.
  - intros j Hj. destruct (decide (S k = j)) as [<-|].
    + rewrite fn_lookup_insert. simpl. split; lia.
    + rewrite fn_lookup_insert_ne in Hj by done. destruct (Hi j Hj) as [? ?]. specialize (Hup (owner j)). split; [done|lia].
  - intros j Hj. destruct (Hd j Hj) as (Hij & H1 & H2). split_and!.
    + by rewrite (insert_true_other _ _ _ Hij).
    + specialize (Hup (owner (j - 1))). lia.
    + unfold not_owned. simpl. intros He. destruct (decide (owner (S k) = owner (j - 1))) as [Heq|Hne'].
      * exfalso. rewrite <-Heq, fn_lookup_insert in He. simpl in He.
        assert (j <> S k) by congruence. destruct (Hi j Hij) as [Hjk _]. pose proof (num_mono j (S k)). lia.
      * rewrite fn_lookup_insert_ne in He |- * by done. exact (H2 He).
  - apply (ph_installed _ k); simpl; rewrite ?fn_lookup_insert; auto.
    + unfold serving. simpl. by rewrite fn_lookup_insert.
    + by rewrite fn_lookup_insert_ne.
    + by rewrite fn_lookup_insert_ne.
    + intros g Hg1 Hg2. unfold not_owned. simpl. rewrite fn_lookup_insert_ne by done. by apply Ho.
Qed.

Lemma install_inv s j st : mig_inv s -> (0 < j <= cur s)%nat -> st ∈ freezes s j ->
  mig_inv (MkMig (<[owner j := fst (install_rec (recs s (owner j)) st (num j))]> (recs s)) (cur s)
    (freezes s) (<[j := true]> (installed s)) (deleted s) (log s)).
Proof.
  intros Hinv Hj Hst. destruct (installed s j) eqn:Hi.
  { destruct (mi_installed _ Hinv j Hi) as [_ Hle]. rewrite install_rec_old by done. apply (inv_quiet s); simpl; auto.
    - intros g. apply rec_like_insert, rec_like_refl.
    - intros i. by apply insert_true. }
  assert (deleted s j = false) as Hdj.
  { destruct (deleted s j) eqn:Hd; [|done]. destruct (mi_deleted _ Hinv j Hd). congruence. }
  destruct (over_or_current s j Hinv Hj) as [?|[-> _]]; [congruence|].
  pose proof (mi_phase _ Hinv) as Hph.
  destruct Hph as [[Hc|Hc] _ _|k Hk Hik Hfk Hs Ho Hm|k Hk Hik Hfk Hs1 Hs2 Hs3 Ho|k Hk Hik Hdk Hs Hs1 Hs2 Ho];
    [lia|congruence|..]; rewrite Hk in Hst, Hi, Hdj.
  - rewrite Hfk in Hst. by apply elem_of_nil in Hst.
  - pose proof (install_first s k Hinv Hk Hs1 Hs3 Hdj Ho) as Hif. rewrite Forall_forall in Hfk. rewrite (Hfk st Hst).
    pose proof (owner_ne k) as Hne. destruct (Ho (owner (S k)) Hne) as [_ Hle]. pose proof (num_lt k).
    unfold install_rec. rewrite Hk in Hif |- *. destruct (Z.leb_spec (num (S k)) (SNum (recs s (owner (S k))))); [lia|]. simpl.
    by rewrite decode_encode_shard.
  - congruence.
Qed.

(** The Delete of the current move. *)
Lemma delete_first s k : mig_inv s -> cur s = S k -> installed s (S k) = true -> serving s (owner (S k)) ->
  SNum (recs s (owner k)) = num (S k) ->
  (forall g, g <> owner k -> g <> owner (S k) -> not_owned s g) ->
  mig_inv (MkMig (<[owner k := MkShardRec ∅ ShardNotOwned (num (S k))]> (recs s)) (cur s)
    (freezes s) (installed s) (<[S k := true]> (deleted s)) (log s)).
Proof.
  intros [Hn Hi Hd Hp Hfu Hr _] Hk Hik Hs Hs2 Ho. pose proof (owner_ne k) as Hne. set (r := MkShardRec _ ShardNotOwned _).
  assert (forall g, SNum (<[owner k := r]> (recs s) g) = SNum (recs s g)) as Hsame.
  { intros g. destruct (decide (owner k = g)) as [<-|]; rewrite ?fn_lookup_insert, ?fn_lookup_insert_ne by done; done. }
  constructor; simpl; auto.
  - intros g. rewrite Hsame. auto.
  - intros j Hj. rewrite Hsame. auto.
  - intros j Hj. rewrite Hsame. destruct (decide (S k = j)) as [<-|Hj'].
    + rewrite Nat.sub_succ, Nat.sub_0_r. split_and!; [done|lia|]. intros _. unfold not_owned. simpl. by rewrite fn_lookup_insert.
    + rewrite fn_lookup_insert_ne in Hj by done. destruct (Hd j Hj) as (Hij & H1 & H2). split_and!; auto.
      intros He. unfold not_owned. simpl. destruct (decide (owner k = owner (j - 1))) as [Heq|];
        [by rewrite <-Heq, fn_lookup_insert|]. rewrite fn_lookup_insert_ne by done. exact (H2 He).
  - intros j Hj. by rewrite (insert_true_other _ _ _ (Hp j Hj)).
  - apply ph_settled; simpl.
    + right. by rewrite Hk, fn_lookup_insert.
    + unfold serving. simpl. rewrite Hk, fn_lookup_insert_ne by done. exact Hs.
    + intros g Hg. rewrite Hk in Hg. unfold not_owned. simpl. destruct (decide (owner k = g)) as [<-|];
        [by rewrite fn_lookup_insert|]. rewrite fn_lookup_insert_ne by done. apply Ho; congruence.
Qed.

Lemma delete_inv s j : mig_inv s -> (0 < j)%nat -> installed s j = true ->
  mig_inv (MkMig (<[owner (j - 1)%nat := fst (delete_rec (recs s (owner (j - 1))) (num j))]> (recs s)) (cur s)
    (freezes s) (installed s) (<[j := true]> (deleted s)) (log s)).
Proof.
  intros Hinv Hj Hi. destruct (mi_installed _ Hinv j Hi) as [Hjc _].
  destruct (over_or_current s j Hinv Hjc) as [Hd|[-> Hd]].
  { apply (inv_quiet s); simpl; auto.
    - intros g. by apply rec_like_insert, over_delete.
    - intros i. by apply insert_true. }
  pose proof (mi_phase _ Hinv) as Hph.
  destruct Hph as [[Hc|Hc] _ _|k Hk Hik Hfk Hs Ho Hm|k Hk Hik Hfk Hs1 Hs2 Hs3 Ho|k Hk Hik Hdk Hs Hs1 Hs2 Ho];
    [lia|congruence|rewrite Hk in Hi; congruence..|].
  pose proof (delete_first s k Hinv Hk Hik Hs Hs2 Ho) as Hdf. rewrite Hk in Hdf |- *. rewrite Nat.sub_succ, Nat.sub_0_r.
  unfold delete_rec. by rewrite Hs2, Z.ltb_irrefl, Z.gtb_ltb, Z.ltb_irrefl.
Qed.

(** A Put that some group accepts. *)
Lemma serving_unique s g : mig_inv s -> SState (recs s g) = ShardServing ->
  Data (recs s g) = store s /\ forall g', SState (recs s g') = ShardServing -> g' = g.
Proof.
  intros Hinv Hg. destruct (mi_phase _ Hinv) as [_ [_ Hs] Ho|k _ _ _ [_ Hs] Ho _|k _ _ _ Hs1 Hs2 _ Ho|k _ _ _ [_ Hs] Hs1 _ Ho].
  - assert (forall x, SState (recs s x) = ShardServing -> x = owner (cur s)) as Hx.
    { intros x Hx. destruct (decide (x = owner (cur s))); [done|]. specialize (Ho x n). unfold not_owned in Ho. congruence. }
    rewrite (Hx g Hg). auto.
  - assert (forall x, SState (recs s x) = ShardServing -> x = owner k) as Hx.
    { intros x Hx. destruct (decide (x = owner k)); [done|]. specialize (Ho x n). unfold not_owned in Ho. congruence. }
    rewrite (Hx g Hg). auto.
  - exfalso. destruct (decide (g = owner k)) as [->|Hne]; [congruence|]. destruct (Ho g Hne) as [Hn _]. unfold not_owned in Hn. congruence.
  - assert (forall x, SState (recs s x) = ShardServing -> x = owner (S k)) as Hx.
    { intros x Hx. destruct (decide (x = owner (S k))); [done|]. destruct (decide (x = owner k)) as [->|]; [congruence|].
      specialize (Ho x n0 n). unfold not_owned in Ho. congruence. }
    rewrite (Hx g Hg). auto.
Qed.

Lemma Put_not_wrong_group (kv : KVServer) a : PutReply_Err (snd (Put kv a)) <> ErrWrongGroup.
Proof. unfold Put. destruct (kv !! _); [destruct (negb _)|destruct (_ =? _)]; done. Qed.

Lemma put_inv s g a : mig_inv s -> mig_inv (default s (mstep s (MPut g a))).
Proof.
  intros Hinv. simpl. destruct (decide (SState (recs s g) = ShardServing)) as [Hg|Hg].
  2: { rewrite put_rec_refused by done. simpl. apply (inv_quiet s); simpl; auto.
       intros g'. apply rec_like_insert, rec_like_refl. }
  destruct (serving_unique s g Hinv Hg) as [Hdata Huniq]. rewrite put_rec_serving by done. rewrite Hdata. simpl.
  rewrite (proj2 (Err_eqb_ne _ _)) by apply Put_not_wrong_group.
  set (r := MkShardRec _ ShardServing _). set (s' := MkMig _ _ _ _ _ _).
  assert (store s' = fst (Put (store s) a)) as Hst by (unfold store, s'; simpl; by rewrite map_app, puts_app).
  assert (forall x, SNum (recs s' x) = SNum (recs s x) /\ SState (recs s' x) = SState (recs s x)) as Hsame.
  { intros x. simpl. destruct (decide (g = x)) as [<-|]; rewrite ?fn_lookup_insert, ?fn_lookup_insert_ne by done; done. }
  assert (forall x, SState (recs s x) = ShardServing -> serving s' x) as Hserv.
  { intros x Hx. assert (x = g) as -> by auto. unfold serving. rewrite Hst. simpl. by rewrite fn_lookup_insert. }
  assert (forall x, not_owned s x -> not_owned s' x) as Hno.
  { intros x Hx. unfold not_owned. destruct (Hsame x) as [_ ->]. done. }
  destruct Hinv as [Hn Hi Hd Hp Hfu Hr Hph]. constructor.
  - intros x. destruct (Hsame x) as [-> _]. apply Hn.
  - intros j Hj. destruct (Hsame (owner j)) as [-> _]. by apply Hi.
  - intros j Hj. destruct (Hsame (owner (j - 1))) as [-> _]. destruct (Hd j Hj) as (? & ? & ?). auto.
  - exact Hp.
  - exact Hfu.
  - simpl. apply replays_snoc, Hr.
  - destruct Hph as [Hc [Hs _] Ho|k Hk Hik Hfk [Hs _] Ho Hm|k Hk Hik Hfk Hs1 Hs2 Hs3 Ho|k Hk Hik Hdk [Hs _] Hs1 Hs2 Ho].
    + apply ph_settled; simpl; auto.
    + apply (ph_begun s' k); auto. intros x. destruct (Hsame x) as [-> _]. apply Hm.
    + exfalso. destruct (decide (g = owner k)) as [->|Hne]; [congruence|]. destruct (Ho g Hne) as [Hg' _]. unfold not_owned in Hg'. congruence.
    + destruct (Hsame (owner k)) as [E1 E2]. apply (ph_installed s' k); auto; congruence.
Qed.

Lemma mstep_inv s ev : mig_inv s -> mig_inv (default s (mstep s ev)).
Proof.
  intros Hinv. destruct ev as [|j|j st|j|g a]; [..|by apply put_inv]; simpl.
  - destruct ((cur s =? 0)%nat || deleted s (cur s)) eqn:Hb; [|done]. apply begin_inv; [done|].
    apply orb_true_iff in Hb as [Hb|Hb]; [left; by apply Nat.eqb_eq|auto].
  - destruct ((0 <? j)%nat && (j <=? cur s)%nat) eqn:Hb; [|done]. apply andb_true_iff in Hb as [H1%Nat.ltb_lt H2%Nat.leb_le].
    pose proof (freeze_inv s j Hinv (conj H1 H2)) as Hf. by destruct (freeze_rec _ _).
  - destruct ((0 <? j)%nat && (j <=? cur s)%nat && bool_decide (st ∈ freezes s j)) eqn:Hb; [|done].
    apply andb_true_iff in Hb as [[H1%Nat.ltb_lt H2%Nat.leb_le]%andb_true_iff H3%bool_decide_eq_true].
    pose proof (install_inv s j st Hinv (conj H1 H2) H3) as Hf. by destruct (install_rec _ _ _).
  - destruct ((0 <? j)%nat && installed s j) eqn:Hb; [|done]. apply andb_true_iff in Hb as [H1%Nat.ltb_lt H2].
    pose proof (delete_inv s j Hinv H1 H2) as Hf. by destruct (delete_rec _ _).
Qed.

End Migration.

(** ** A concrete migration

    Group 1 writes, the shard moves to group 2 with every RPC repeated and a
    second controller repeating the whole move late, and back to group 1. *)
Definition demo_owner (k : nat) : Z := if Nat.even k then 1 else 2.
Definition demo_num (k : nat) : Z := 2 * Z.of_nat k.
Definition demo_put1 : PutArgs := MkPutArgs "k" "a" 0.
Definition demo_put2 : PutArgs := MkPutArgs "k" "b" 1.
Definition demo_state : bytes := encodeShard (fst (Put ∅ demo_put1)).
Definition demo_events : list MEvent :=
  [MPut 1 demo_put1; MBegin; MFreeze 1; MFreeze 1; MPut 1 demo_put2; MInstall 1 demo_state; MInstall 1 demo_state;
   MPut 2 demo_put2; MDelete 1; MFreeze 1; MInstall 1 []; MDelete 1; MBegin; MFreeze 2].

(** A frozen shard still answers Gets.  While move 2 back
    to group 1 is between Install and Delete, group 1 serves the shard and
    accepts a Put, and group 2, still frozen, answers a later Get with the
    value before that Put. *)
Theorem frozen_group_reads_stale :
  let s0 := mrun demo_owner demo_num (init_mig demo_owner) demo_events in
  let st := default [] (freezes s0 2 !! 0%nat) in
  let s := mrun demo_owner demo_num s0 [MInstall 2 st; MPut 1 (MkPutArgs "k" "c" 2)] in
  log s !! 2%nat = Some (MkPutArgs "k" "c" 2, MkPutReply OK) /\
  get_rec (recs s 1) (MkGetArgs "k") = MkGetReply "c" 3 OK /\
  get_rec (recs s 2) (MkGetArgs "k") = MkGetReply "b" 2 OK.
Proof. vm_compute. done. Qed.
