(* ===== verification/ShardCtrler.v ===== *)
(** * The shard controller (src/shardkv1/shardctrler/shardctrler.go)

    A controller is a program that reads and writes two keys of a kvsrv
    server and calls the shard groups.  Its methods are translated to values
    of [Prog], trees of the remote operations they perform, so that several
    controllers can run interleaved at every operation.  The theorems: the
    current and the pending configuration only ever move to larger numbers,
    whatever controllers run; a new configuration is published only after
    every shard it moves was frozen, installed and deleted in that order; a
    controller that restarts finishes the pending change.  The last section
    shows what goes wrong when recovery reads the two keys apart. *)

From S2P Require Import Prelude Rpc KvSrv KvClerk ShardCfg ShardGrp.

Definition configKey : string := "ctrl-config".
Definition pendingConfigKey : string := "ctrl-pending-config".

(** ** Controller programs

    [OpGet] and [OpPut] are calls of the kvsrv clerk, [OpFreeze],
    [OpInstall] and [OpDelete] calls of the clerk of the group with the given
    servers.  [Fatal] is a [log.Fatalf] or a nil dereference.  [Spin] is an
    endless [for] that has used up its fuel: it performs no more operations,
    so a statement about every fuel is about every finite part of a run. *)
Inductive Prog (R : Type) : Type :=
| Ret (r : R)
| Fatal
| Spin
| OpGet (key : string) (k : string * Tversion * Err -> Prog R)
| OpPut (key val : string) (ver : Tversion) (k : Err -> Prog R)
| OpFreeze (srvs : list string) (s num : Z) (k : bytes * Err -> Prog R)
| OpInstall (srvs : list string) (s : Z) (st : bytes) (num : Z) (k : Err -> Prog R)
| OpDelete (srvs : list string) (s num : Z) (k : Err -> Prog R).
Arguments Ret {R} r.
Arguments Fatal {R}.
Arguments Spin {R}.
Arguments OpGet {R} key k.
Arguments OpPut {R} key val ver k.
Arguments OpFreeze {R} srvs s num k.
Arguments OpInstall {R} srvs s st num k.
Arguments OpDelete {R} srvs s num k.

#[export] Instance Prog_ret : MRet Prog := @Ret.

#[export] Instance Prog_bind : MBind Prog :=
  fun A B f => fix go p :=
    match p with
    | Ret a => f a
    | Fatal => Fatal
    | Spin => Spin
    | OpGet key k => OpGet key (fun r => go (k r))
    | OpPut key v ver k => OpPut key v ver (fun r => go (k r))
    | OpFreeze srvs s num k => OpFreeze srvs s num (fun r => go (k r))
    | OpInstall srvs s st num k => OpInstall srvs s st num (fun r => go (k r))
    | OpDelete srvs s num k => OpDelete srvs s num (fun r => go (k r))
    end.

(** The remote calls as statements. *)
Definition do_get (key : string) : Prog (string * Tversion * Err) := OpGet key Ret.
Definition do_put (key v : string) (ver : Tversion) : Prog Err := OpPut key v ver Ret.
Definition do_freeze (srvs : list string) (s num : Z) : Prog (bytes * Err) := OpFreeze srvs s num Ret.
Definition do_install (srvs : list string) (s : Z) (st : bytes) (num : Z) : Prog Err := OpInstall srvs s st num Ret.
Definition do_delete (srvs : list string) (s num : Z) : Prog Err := OpDelete srvs s num Ret.

(** The groups, by their servers. *)
Abbreviation GroupMap := (gmap (list string) (list shardRec)).

Section Ctrler.
Context `{CJ : ConfigJson}.

(** ** The methods *)

Definition configAtVersion (key : string) : Prog (option ShardConfig * Tversion * Err) :=
  '(v, ver, err) ← do_get key;
  if negb (Err_eqb err OK) then Ret (None, ver, err)
  else match FromString v with None => Fatal | Some c => Ret (Some c, ver, OK) end.

Definition configAt (key : string) : Prog (option ShardConfig) :=
  '(cfg, _, err) ← configAtVersion key;
  Ret (if negb (Err_eqb err OK) then None else cfg).

Definition Query : Prog (option ShardConfig) := configAt configKey.

(** [retry f]: [f] returns what it stores in the captured variables, [None]
    when it fails. *)
Fixpoint retry {A} (n : nat) (f : Prog (option A)) : Prog (option A) :=
  match n with
  | O => Ret None
  | S n => r ← f; match r with Some a => Ret (Some a) | None => retry n f end
  end.

(** The body of the [for] of each loop is one unit of fuel. *)
Fixpoint postConfig (fuel : nat) (cfg : ShardConfig) : Prog unit :=
  match fuel with
  | O => Spin
  | S fuel =>
      '(current, ver, err) ← do_get configKey;
      if Err_eqb err ErrNoKey then
        e ← do_put configKey (String_ cfg) 0;
        if Err_eqb e OK then Ret tt else postConfig fuel cfg
      else if Err_eqb err OK then
        match FromString current with
        | None => Fatal
        | Some c =>
            if Num c >=? Num cfg then Ret tt
            else
              e ← do_put configKey (String_ cfg) ver;
              if Err_eqb e OK then Ret tt else postConfig fuel cfg
        end
      else postConfig fuel cfg
  end.

Fixpoint claimPendingConfig (fuel : nat) (current cfg : ShardConfig) : Prog bool :=
  match fuel with
  | O => Spin
  | S fuel =>
      '(pending, ver, err) ← configAtVersion pendingConfigKey;
      if Err_eqb err ErrNoKey then
        e ← do_put pendingConfigKey (String_ cfg) 0;
        if Err_eqb e OK then Ret true else claimPendingConfig fuel current cfg
      else if Err_eqb err OK then
        match pending with
        | None => Fatal
        | Some p =>
            if (Num p =? Num cfg) && String.eqb (String_ p) (String_ cfg) then Ret true
            else if Num p >? Num current then Ret false
            else
              e ← do_put pendingConfigKey (String_ cfg) ver;
              if Err_eqb e OK then Ret true else claimPendingConfig fuel current cfg
        end
      else claimPendingConfig fuel current cfg
  end.

(** The closure [clerkFor]: the servers of the clerk it returns.  Its cache
    only preserves the clerk's leader hint, and [old] and [new] do not
    change. *)
Definition clerkFor (old new : ShardConfig) (gid : Z) : option (list string) :=
  if gid =? 0 then None
  else
    let srvs := default [] (Groups old !! gid) in
    let srvs := if (length srvs =? 0)%nat then default [] (Groups new !! gid) else srvs in
    if (length srvs =? 0)%nat then None else Some srvs.

(** The three steps of a move, each with its retries; a missing clerk makes a
    step a no-op. *)
Definition freeze_source (src : option (list string)) (s num : Z) : Prog (option bytes) :=
  match src with
  | None => Ret (Some [])
  | Some srvs => retry 100 ('(st, err) ← do_freeze srvs s num; Ret (if Err_eqb err OK then Some st else None))
  end.

Definition install_destination (dst : option (list string)) (s : Z) (state : bytes) (num : Z) : Prog (option unit) :=
  match dst with
  | None => Ret (Some tt)
  | Some srvs => retry 100 (e ← do_install srvs s state num; Ret (if Err_eqb e OK then Some tt else None))
  end.

Definition delete_source (src : option (list string)) (s num : Z) : Prog (option unit) :=
  match src with
  | None => Ret (Some tt)
  | Some srvs => retry 100 (e ← do_delete srvs s num; Ret (if Err_eqb e OK then Some tt else None))
  end.

(** Sequencing with the early return: [false] makes completeChange return. *)
Definition or_return {A} (p : Prog (option A)) (f : A -> Prog bool) : Prog bool :=
  r ← p; match r with None => Ret false | Some a => f a end.

(** One round of the loop over the shards. *)
Definition move_shard (old new : ShardConfig) (s : Z) : Prog bool :=
  match get (Shards old) s, get (Shards new) s with
  | Some from, Some to =>
      if from =? to then Ret true
      else
        let src := clerkFor old new from in
        let dst := clerkFor old new to in
        let num := Num new in
        or_return (freeze_source src s num) (fun state =>
        or_return (install_destination dst s state num) (fun _ =>
        or_return (delete_source src s num) (fun _ => Ret true)))
  | _, _ => Fatal
  end.

Fixpoint move_shards (old new : ShardConfig) (ss : list Z) : Prog bool :=
  match ss with
  | [] => Ret true
  | s :: ss => ok ← move_shard old new s; if ok : bool then move_shards old new ss else Ret false
  end.

Definition completeChange (fuel : nat) (old new : ShardConfig) : Prog unit :=
  ok ← move_shards old new (map Z.of_nat (seq 0 NShards));
  if ok : bool then postConfig fuel new else Ret tt.

Definition InitController (fuel : nat) : Prog unit :=
  current ← configAt configKey;
  pending ← configAt pendingConfigKey;
  match pending, current with
  | Some p, Some c => if Num p <=? Num c then Ret tt else completeChange fuel c p
  | _, _ => Ret tt
  end.

Definition ChangeConfigTo (fuel : nat) (new : ShardConfig) : Prog unit :=
  old ← Query;
  match old with
  | None => Ret tt
  | Some old =>
      if Num new <=? Num old then Ret tt
      else
        ok ← claimPendingConfig fuel old new;
        if negb ok then Ret tt else completeChange fuel old new
  end.

Fixpoint InitConfig (fuel : nat) (cfg : ShardConfig) : Prog unit :=
  match fuel with
  | O => Spin
  | S fuel =>
      e ← do_put configKey (String_ cfg) 0;
      if Err_eqb e OK then Ret tt
      else
        '(_, ver, err) ← do_get configKey;
        if Err_eqb err OK then
          e ← do_put configKey (String_ cfg) ver;
          if Err_eqb e OK then Ret tt else InitConfig fuel cfg
        else InitConfig fuel cfg
  end.

(** ** Controllers running together

    The kvsrv store, the groups by their servers, the group requests sent so
    far and the controllers. *)
Context `{GK : Gob KVServer}.

Record Sys : Type := MkSys {
  sy_kv : KVServer;
  sy_groups : GroupMap;
  sy_issued : list (list string * GrpReq);
  sy_pool : list (Prog unit);
}.

(** What becomes of an operation: it is executed and answered; executed, with
    the answer lost; or not executed as far as the caller learns. *)
Inductive Delivery : Type := Answered | Unanswered | NotExecuted.

(** A Put of the kvsrv clerk is one Put of the server that yields its reply
    or ErrMaybe (linearizability of the clerk, KvClerk.v). *)
Definition clerk_put (kv : KVServer) (a : PutArgs) (o : Delivery) : KVServer * Err :=
  let '(kv', r) := Put kv a in
  (kv', match o with
        | Answered => PutReply_Err r
        | _ => if Err_eqb (PutReply_Err r) ErrNoKey then ErrNoKey else ErrMaybe
        end).

(** The state machine of the group with servers [srvs] executes [req]. *)
Definition grp_exec (gs : GroupMap) (srvs : list string) (req : GrpReq)
    : GroupMap * option GrpRep :=
  match gs !! srvs with
  | None => (gs, None)
  | Some kv => match Grp_DoOp kv req with None => (gs, None) | Some (kv, rep) => (<[srvs := kv]> gs, Some rep) end
  end.

(** A call of a group's clerk. *)
Definition grp_call (gs : GroupMap) (srvs : list string) (req : GrpReq) (o : Delivery)
    : GroupMap * option GrpRep :=
  match o with
  | Answered => grp_exec gs srvs req
  | Unanswered => (fst (grp_exec gs srvs req), None)
  | NotExecuted => (gs, None)
  end.

(** The error a clerk reports with no reply. *)
Definition reply_err (rep : option GrpRep) : Err := match rep with None => ErrWrongLeader | Some _ => OK end.

(** The next operation of a controller program: new store, new groups,
    requests sent, and the rest of the program. *)
Definition prog_step (kv : KVServer) (gs : GroupMap) (p : Prog unit) (o : Delivery)
    : KVServer * GroupMap * list (list string * GrpReq) * Prog unit :=
  match p with
  | Ret _ | Fatal | Spin => (kv, gs, [], p)
  | OpGet key k =>
      let r := Get kv (MkGetArgs key) in
      (kv, gs, [], k (GetReply_Value r, GetReply_Version r, GetReply_Err r))
  | OpPut key v ver k =>
      let '(kv', e) := clerk_put kv (MkPutArgs key v ver) o in (kv', gs, [], k e)
  | OpFreeze srvs s num k =>
      let req := RFreeze (MkFreezeShardArgs s num) in
      let '(gs', rep) := grp_call gs srvs req o in
      let r := FreezeShard (reply_err rep) rep in
      (kv, gs', [(srvs, req)], k (fzr_State r, fzr_Err r))
  | OpInstall srvs s st num k =>
      let req := RInstall (MkInstallShardArgs s st num) in
      let '(gs', rep) := grp_call gs srvs req o in
      (kv, gs', [(srvs, req)], k (inr_Err (InstallShard (reply_err rep) rep)))
  | OpDelete srvs s num k =>
      let req := RDelete (MkDeleteShardArgs s num) in
      let '(gs', rep) := grp_call gs srvs req o in
      (kv, gs', [(srvs, req)], k (dlr_Err (DeleteShard (reply_err rep) rep)))
  end.

(** A schedule: controller [i] performs its next operation; the [n]-th group
    request, sent some time ago, is executed now; a client writes to a
    group; a controller starts. *)
Inductive Sched : Type :=
| Run (i : nat) (o : Delivery)
| LateRpc (n : nat)
| ClientPut (srvs : list string) (a : PutArgs)
| StartInit (fuel : nat)
| StartChange (fuel : nat) (new : ShardConfig).

Definition sys_step (s : Sys) (e : Sched) : Sys :=
  match e with
  | Run i o =>
      match sy_pool s !! i with
      | None => s
      | Some p =>
          let '(kv, gs, reqs, p) := prog_step (sy_kv s) (sy_groups s) p o in
          MkSys kv gs (sy_issued s ++ reqs) (<[i := p]> (sy_pool s))
      end
  | LateRpc n =>
      match sy_issued s !! n with
      | None => s
      | Some (srvs, req) => MkSys (sy_kv s) (fst (grp_exec (sy_groups s) srvs req)) (sy_issued s) (sy_pool s)
      end
  | ClientPut srvs a => MkSys (sy_kv s) (fst (grp_exec (sy_groups s) srvs (RPut a))) (sy_issued s) (sy_pool s)
  | StartInit fuel => MkSys (sy_kv s) (sy_groups s) (sy_issued s) (sy_pool s ++ [InitController fuel])
  | StartChange fuel new => MkSys (sy_kv s) (sy_groups s) (sy_issued s) (sy_pool s ++ [ChangeConfigTo fuel new])
  end.

Definition sys_run (s : Sys) (evs : list Sched) : Sys := foldl sys_step s evs.

(** ** A program logic for controllers

    [wp F p Q]: when the triples of [F] are (key, value, version) answers
    that [p] or its callers have read, every write of [p] to a
    configuration key replaces what it read by a larger configuration, and
    [Q] holds of what has been read and of the result at the end. *)
Abbreviation fact := (string * string * Tversion)%type.

Definition config_key (key : string) : Prop := key = configKey \/ key = pendingConfigKey.

Definition ok_put (F : list fact) (key v : string) (ver : Tversion) : Prop :=
  config_key key -> exists c, v = String_ c /\
    (ver = 0 \/ exists v0 c0, (key, v0, ver) ∈ F /\ FromString v0 = Some c0 /\ Num c0 < Num c).

Fixpoint wp {R} (F : list fact) (p : Prog R) (Q : list fact -> R -> Prop) : Prop :=
  match p with
  | Ret r => Q F r
  | Fatal | Spin => True
  | OpGet key k =>
      (forall v ver err, err <> OK -> wp F (k (v, ver, err)) Q) /\
      (forall v ver, wp ((key, v, ver) :: F) (k (v, ver, OK)) Q)
  | OpPut key v ver k => ok_put F key v ver /\ forall e, wp F (k e) Q
  | OpFreeze _ _ _ k => forall r, wp F (k r) Q
  | OpInstall _ _ _ _ k => forall r, wp F (k r) Q
  | OpDelete _ _ _ k => forall r, wp F (k r) Q
  end.

Lemma wp_bind {A B} F (p : Prog A) (f : A -> Prog B) Q :
  wp F p (fun F' a => wp F' (f a) Q) -> wp F (a ← p; f a) Q.
Proof.
  revert F. induction p; intros F Hp; simpl in *; auto.
  - destruct Hp as [H1 H2]. split; intros; apply H; auto.
  - destruct Hp as [H1 H2]. split; intros; [|apply H]; auto.
Qed.

Lemma wp_mono {R} F (p : Prog R) (Q Q' : list fact -> R -> Prop) :
  (forall F' r, Q F' r -> Q' F' r) -> wp F p Q -> wp F p Q'.
Proof.
  intros HQ. revert F. induction p; intros F Hp; simpl in *; auto.
  - destruct Hp as [H1 H2]. split; intros; apply H; auto.
  - destruct Hp as [H1 H2]. split; intros; [|apply H]; auto.
Qed.

Lemma wp_configAtVersion F key (Q : list fact -> option ShardConfig * Tversion * Err -> Prop) :
  (forall ver err, err <> OK -> Q F (None, ver, err)) ->
  (forall v c ver, FromString v = Some c -> Q ((key, v, ver) :: F) (Some c, ver, OK)) ->
  wp F (configAtVersion key) Q.
Proof.
  intros H1 H2. split; intros; simpl.
  - destruct (Err_eqb err OK) eqn:He; [by apply Err_eqb_eq in He|]. simpl. auto.
  - destruct (FromString v) eqn:Hv; simpl; auto.
Qed.

Lemma wp_configAt F key (Q : list fact -> option ShardConfig -> Prop) :
  (forall F' r, Q F' r) -> wp F (configAt key) Q.
Proof. intros HQ. apply wp_bind, wp_configAtVersion; simpl; auto. Qed.

Lemma wp_retry {A} F n (f : Prog (option A)) (Q : list fact -> option A -> Prop) :
  (forall F', wp F' f (fun _ _ => True)) -> (forall F' r, Q F' r) -> wp F (retry n f) Q.
Proof.
  intros Hf HQ. revert F. induction n as [|n IH]; intros F; simpl; [auto|].
  apply wp_bind. eapply wp_mono; [|apply Hf]. intros F' [a|] _; simpl; auto.
Qed.

Lemma wp_put_loop {R} F key v ver (p q : Prog R) Q :
  ok_put F key v ver -> wp F p Q -> wp F q Q ->
  wp F (e ← do_put key v ver; if Err_eqb e OK then p else q) Q.
Proof. intros. split; [done|]. intros e. simpl. by destruct (Err_eqb e OK). Qed.

Lemma ok_put_zero F key c : ok_put F key (String_ c) 0.
Proof. intros _. eauto. Qed.

Lemma wp_postConfig F fuel cfg (Q : list fact -> unit -> Prop) : (forall F' r, Q F' r) -> wp F (postConfig fuel cfg) Q.
Proof.
  intros HQ. revert F. induction fuel as [|fuel IH]; intros F; cbn [postConfig]; [done|].
  apply wp_bind. split; simpl; intros.
  - destruct (Err_eqb err ErrNoKey); [apply wp_put_loop; simpl; auto using ok_put_zero|].
    destruct (Err_eqb err OK) eqn:He; [by apply Err_eqb_eq in He|apply IH].
  - destruct (FromString v) as [c|] eqn:Hv; simpl; [|done].
    destruct (Z.geb_spec (Num c) (Num cfg)); simpl; [auto|]. apply wp_put_loop; simpl; auto.
    intros _. exists cfg. split; [done|]. right. exists v, c. split_and!; [left|done|done].
Qed.

Lemma wp_claimPendingConfig F fuel current cfg (Q : list fact -> bool -> Prop) :
  Num current < Num cfg -> (forall F' r, Q F' r) -> wp F (claimPendingConfig fuel current cfg) Q.
Proof.
  intros Hn HQ. revert F. induction fuel as [|fuel IH]; intros F; cbn [claimPendingConfig]; [done|].
  apply wp_bind, wp_configAtVersion; intros.
  - destruct (Err_eqb err ErrNoKey); [apply wp_put_loop; simpl; auto using ok_put_zero|].
    destruct (Err_eqb err OK) eqn:He; [by apply Err_eqb_eq in He|apply IH].
  - change (Err_eqb OK ErrNoKey) with false. change (Err_eqb OK OK) with true. cbv iota.
    destruct (_ && _); simpl; [auto|]. destruct (Z.gtb_spec (Num c) (Num current)); simpl; [auto|].
    apply wp_put_loop; simpl; auto.
    intros _. exists cfg. split; [done|]. right. exists v, c. split_and!; [left|done|lia].
Qed.

Lemma wp_or_return {A} F (p : Prog (option A)) f (Q : list fact -> bool -> Prop) :
  (forall Q' : list fact -> option A -> Prop, (forall F' r, Q' F' r) -> wp F p Q') ->
  (forall F' a, wp F' (f a) Q) -> (forall F', Q F' false) -> wp F (or_return p f) Q.
Proof. intros Hp Hf HQ. apply wp_bind, Hp. intros F' [a|]; simpl; auto. Qed.

Lemma wp_move_shards F old new ss (Q : list fact -> bool -> Prop) :
  (forall F' r, Q F' r) -> wp F (move_shards old new ss) Q.
Proof.
  revert F Q. induction ss as [|s ss IH]; intros F Q HQ; simpl; [auto|].
  apply wp_bind. unfold move_shard. destruct (get (Shards old) s), (get (Shards new) s); simpl; auto.
  assert (forall F' (b : bool), wp F' (if b then move_shards old new ss else Ret false) Q) as Hnext by (intros F' []; simpl; auto).
  destruct (_ =? _); [apply (Hnext F true)|].
  apply wp_or_return; [intros Q' HQ'|intros F1 st; apply wp_or_return; [intros Q' HQ'|intros F2 _; apply wp_or_return; [intros Q' HQ'| |]|]|];
    try (intros; apply (Hnext _ false)); try (intros; apply (Hnext _ true)).
  - unfold freeze_source. case_match; [|simpl; auto]. apply wp_retry; [intros F' [? ?]; simpl; auto|done].
  - unfold install_destination. case_match; [|simpl; auto]. apply wp_retry; [simpl; auto|done].
  - unfold delete_source. case_match; [|simpl; auto]. apply wp_retry; [simpl; auto|done].
Qed.

Lemma wp_completeChange F fuel old new : wp F (completeChange fuel old new) (fun _ _ => True).
Proof. apply wp_bind, wp_move_shards. intros F' []; simpl; [by apply wp_postConfig|done]. Qed.

Lemma wp_InitController F fuel : wp F (InitController fuel) (fun _ _ => True).
Proof.
  apply wp_bind, wp_configAt. intros F1 c. apply wp_bind, wp_configAt. intros F2 p.
  destruct p as [p|], c as [c|]; simpl; try done. destruct (_ <=? _); [done|]. apply wp_completeChange.
Qed.

Lemma wp_ChangeConfigTo F fuel new : wp F (ChangeConfigTo fuel new) (fun _ _ => True).
Proof.
  apply wp_bind, wp_configAt. intros F1 [old|]; simpl; [|done].
  destruct (Z.leb_spec (Num new) (Num old)); [done|]. apply wp_bind, wp_claimPendingConfig; [done|].
  intros F2 []; simpl; [apply wp_completeChange|done].
Qed.

(** ** Configurations only grow *)

(** What was read of a key is still there, or the key has moved on. *)
Definition fact_ok (kv : KVServer) (f : fact) : Prop :=
  let '(key, v, ver) := f in
  ver <= version_of kv key /\ (version_of kv key = ver -> value_of kv key = v).

(** A configuration key holds a configuration. *)
Definition stored (kv : KVServer) (key : string) (c : ShardConfig) : Prop :=
  exists e, kv !! key = Some e /\ 1 <= version e /\ value e = String_ c.

(** The number of the configuration that a key holds. *)
Definition stored_num (kv : KVServer) (key : string) : option Z :=
  e ← kv !! key; c ← FromString (value e); Some (Num c).

Definition config_ok (kv : KVServer) : Prop :=
  forall key, config_key key -> is_Some (kv !! key) -> exists c, stored kv key c.

Definition controller_ok (kv : KVServer) (p : Prog unit) : Prop :=
  exists F, Forall (fact_ok kv) F /\ wp F p (fun _ _ => True).

(** Every configuration key has kept its configuration or taken a larger
    one. *)
Definition grows (kv kv' : KVServer) : Prop :=
  forall key c, config_key key -> stored kv key c ->
    exists c', stored kv' key c' /\ (c' = c \/ Num c < Num c').

Lemma grows_refl kv : grows kv kv.
Proof. intros key c _ Hs. eauto. Qed.

Lemma grows_trans kv1 kv2 kv3 : grows kv1 kv2 -> grows kv2 kv3 -> grows kv1 kv3.
Proof.
  intros H1 H2 key c Hk Hs. destruct (H1 key c Hk Hs) as (c1 & Hs1 & Hc1).
  destruct (H2 key c1 Hk Hs1) as (c2 & Hs2 & Hc2). exists c2. split; [done|].
  destruct Hc1 as [->|?], Hc2 as [->|?]; auto; right; lia.
Qed.

Lemma fact_ok_put kv a f : kv_wf kv -> version_of kv (PutArgs_Key a) + 1 < 2 ^ 64 ->
  fact_ok kv f -> fact_ok (fst (Put kv a)) f.
Proof.
  intros Hwf Hnw. destruct f as [[key v] ver]. intros [Hle Hv].
  destruct (Put_state kv a) as [[-> _]|(-> & _ & _)]; [done|].
  pose proof (version_of_bound kv (PutArgs_Key a) Hwf) as [? ?].
  destruct (decide (key = PutArgs_Key a)) as [->|Hne]; simpl.
  - rewrite version_of_insert. simpl. rewrite u64_small by lia. lia.
  - unfold version_of, value_of in *. by rewrite lookup_insert_ne.
Qed.

Lemma stored_put_other kv a key c : key <> PutArgs_Key a -> stored (fst (Put kv a)) key c <-> stored kv key c.
Proof. intros. unfold stored. by rewrite Put_other. Qed.

Lemma stored_version kv key c : stored kv key c -> version_of kv key >= 1 /\ value_of kv key = String_ c.
Proof. intros (e & He & H1 & H2). unfold version_of, value_of. rewrite He. split; [lia|done]. Qed.

(** A justified write replaces the stored configuration by a larger one. *)
Lemma ok_put_grows kv F key v ver (a := MkPutArgs key v ver) :
  kv_wf kv -> version_of kv key + 1 < 2 ^ 64 -> config_ok kv -> Forall (fact_ok kv) F -> ok_put F key v ver ->
  config_ok (fst (Put kv a)) /\ grows kv (fst (Put kv a)).
Proof.
  intros Hwf Hnw Hc HF Hok. destruct (Put_state kv a) as [[-> _]|(Heq & _ & Hver)]; [split; [done|apply grows_refl]|].
  pose proof (version_of_bound kv key Hwf) as [? ?]. simpl in Hver.
  assert (forall c, v = String_ c -> stored (fst (Put kv a)) key c) as Hst.
  { intros c ->. rewrite Heq. eexists. simpl. rewrite lookup_insert_eq. split_and!; [done| |done]. simpl. rewrite u64_small; lia. }
  split.
  - intros key' Hk' Hin. destruct (decide (key' = key)) as [->|Hne].
    + destruct (Hok Hk') as (c & -> & _). eauto.
    + unfold a in Hin. rewrite Put_other in Hin by done. destruct (Hc key' Hk' Hin) as [c Hs]. exists c. by apply stored_put_other.
  - intros key' c Hk' Hs. destruct (decide (key' = key)) as [->|Hne]; [|exists c; split; [by apply stored_put_other|by left]].
    destruct (Hok Hk') as (c' & -> & Hju). exists c'. split; [auto|]. right.
    destruct (stored_version _ _ _ Hs) as [Hge Hval]. destruct Hju as [->|(v0 & c0 & Hin & Hv0 & Hlt)]; [lia|].
    rewrite Forall_forall in HF. destruct (HF _ Hin) as [_ Hv]. rewrite <-Hv, Hval, FromString_String in Hv0 by done. by simplify_eq.
Qed.

Lemma fact_ok_get kv key :
  fact_ok kv (key, GetReply_Value (Get kv (MkGetArgs key)), GetReply_Version (Get kv (MkGetArgs key))).
Proof. unfold fact_ok, Get, version_of, value_of. simpl. destruct (kv !! key); simpl; auto with lia. Qed.

(** One operation of a controller. *)
Lemma prog_step_ok kv gs p o kv' gs' reqs p' :
  kv_wf kv -> (forall key, version_of kv key + 1 < 2 ^ 64) -> config_ok kv -> controller_ok kv p ->
  prog_step kv gs p o = (kv', gs', reqs, p') ->
  (kv' = kv \/ exists a, kv' = fst (Put kv a)) /\ config_ok kv' /\ grows kv kv' /\ controller_ok kv' p'.
Proof.
  intros Hwf Hnw Hc (F & HF & Hwp) Hstep. pose proof (grows_refl kv) as Hg.
  destruct p; simpl in Hstep, Hwp; simplify_eq; try (by split_and!; auto; exists F).
  - split_and!; auto. destruct Hwp as [H1 H2]. destruct (decide (GetReply_Err (Get kv' (MkGetArgs key)) = OK)) as [He|He].
    + exists ((key, GetReply_Value (Get kv' (MkGetArgs key)), GetReply_Version (Get kv' (MkGetArgs key))) :: F).
      split; [constructor; [apply fact_ok_get|done]|]. rewrite He. apply H2.
    + exists F. split; [done|]. by apply H1.
  - destruct Hwp as [Hok Hk]. unfold clerk_put in Hstep.
    destruct (ok_put_grows kv F key val ver Hwf (Hnw key) Hc HF Hok) as [Hc' Hg'].
    pose proof (fun f => fact_ok_put kv (MkPutArgs key val ver) f Hwf (Hnw key)) as Hf.
    destruct (Put kv (MkPutArgs key val ver)) as [kv1 r] eqn:Hput. simplify_eq. simpl in *.
    split_and!; auto; [right; exists (MkPutArgs key val ver); by rewrite Hput|]. exists F. split; [|apply Hk].
    eapply Forall_impl; eauto.
  - destruct (grp_call _ _ _ _). simplify_eq. split_and!; auto. exists F. auto.
  - destruct (grp_call _ _ _ _). simplify_eq. split_and!; auto. exists F. auto.
  - destruct (grp_call _ _ _ _). simplify_eq. split_and!; auto. exists F. auto.
Qed.

(** The invariant of the system, with room for [n] more writes before a
    64-bit version wraps. *)
Record sys_inv (n : Z) (s : Sys) : Prop := {
  si_wf : kv_wf (sy_kv s);
  si_room : forall key, version_of (sy_kv s) key + n < 2 ^ 64;
  si_config : config_ok (sy_kv s);
  si_pool : Forall (controller_ok (sy_kv s)) (sy_pool s);
}.

Lemma sys_step_ok n s e : 0 <= n -> sys_inv (n + 1) s -> sys_inv n (sys_step s e) /\ grows (sy_kv s) (sy_kv (sys_step s e)).
Proof.
  intros Hn [Hwf Hroom Hc Hp].
  assert (forall s', sy_kv s' = sy_kv s -> Forall (controller_ok (sy_kv s)) (sy_pool s') ->
    sys_inv n s' /\ grows (sy_kv s) (sy_kv s')) as Hquiet.
  { intros s' E Hp'. rewrite E. split; [|apply grows_refl]. constructor; rewrite ?E; auto. intros key. specialize (Hroom key). lia. }
  destruct e as [i o|m|srvs a|fuel|fuel new]; simpl.
  - destruct (sy_pool s !! i) as [p|] eqn:Hi; [|by apply Hquiet].
    destruct (prog_step _ _ p o) as [[[kv gs] reqs] p'] eqn:Hstep.
    destruct (prog_step_ok _ _ _ _ _ _ _ _ Hwf ltac:(intros key; specialize (Hroom key); lia) Hc
      ltac:(by eapply Forall_lookup_1) Hstep) as (Hkv & Hc' & Hg & Hp'). simpl. split; [|done].
    assert (kv_wf kv /\ (forall key, version_of kv key + n < 2 ^ 64) /\ Forall (controller_ok kv) (sy_pool s)) as (?&?&?);
      [|constructor; simpl; auto; by apply Forall_insert].
    destruct Hkv as [->|[a ->]]; [split_and!; auto; intros key; specialize (Hroom key); lia|].
    split_and!; [by apply Put_wf| |].
    + intros key. pose proof (Put_version_step (sy_kv s) a key Hwf). specialize (Hroom key). lia.
    + eapply Forall_impl; [exact Hp|]. intros q (F & HF & Hq). exists F. split; [|done].
      eapply Forall_impl; [exact HF|]. intros f. apply fact_ok_put; [done|]. specialize (Hroom (PutArgs_Key a)). lia.
  - destruct (sy_issued s !! m) as [[srvs req]|]; [by refine (Hquiet (MkSys _ _ _ _) eq_refl _)|by apply Hquiet].
  - by refine (Hquiet (MkSys _ _ _ _) eq_refl _).
  - refine (Hquiet (MkSys _ _ _ _) eq_refl _). apply Forall_app. split; [done|]. apply Forall_singleton. exists []. split; [done|apply wp_InitController].
  - refine (Hquiet (MkSys _ _ _ _) eq_refl _). apply Forall_app. split; [done|]. apply Forall_singleton. exists []. split; [done|apply wp_ChangeConfigTo].
Qed.

Lemma sys_run_ok n s evs : 0 <= n -> sys_inv (n + len evs) s -> sys_inv n (sys_run s evs) /\ grows (sy_kv s) (sy_kv (sys_run s evs)).
Proof.
  revert s. induction evs as [|e evs IH]; intros s Hn Hs; simpl.
  - split; [|apply grows_refl]. simpl in Hs. by rewrite Z.add_0_r in Hs.
  - destruct (sys_step_ok (n + len evs) s e) as [H1 H2]; [lia|by replace (n + len evs + 1) with (n + len (e :: evs)) by (simpl; lia)|].
    destruct (IH _ Hn H1) as [H3 H4]. split; [done|]. by eapply grows_trans.
Qed.

(** A store in which a tester has put the first configuration. *)
Definition initial_kv (c : ShardConfig) : KVServer := fst (Put ∅ (MkPutArgs configKey (String_ c) 0)).

Lemma initial_kv_eq c : initial_kv c = <[configKey := MkKvEntry (String_ c) 1]> ∅.
Proof. unfold initial_kv, Put. simpl. by rewrite lookup_empty. Qed.

Lemma initial_stored c : stored (initial_kv c) configKey c.
Proof. eexists. rewrite initial_kv_eq, lookup_insert_eq. split_and!; done. Qed.

Lemma initial_inv c gs n : n < 2 ^ 64 - 1 -> sys_inv n (MkSys (initial_kv c) gs [] []).
Proof.
  intros Hn. constructor; simpl; [| | |done].
  - apply (Put_wf ∅), map_Forall_empty.
  - intros key. unfold version_of. rewrite initial_kv_eq. destruct (decide (key = configKey)) as [->|]; [rewrite lookup_insert_eq; simpl; lia|].
    rewrite lookup_insert_ne, lookup_empty by done. lia.
  - intros key Hk Hin. destruct (decide (key = configKey)) as [->|Hne]; [exists c; apply initial_stored|].
    unfold initial_kv in Hin. rewrite Put_other in Hin by done. rewrite lookup_empty in Hin. by destruct Hin.
Qed.

(** C9 (invariant): however many controllers run, restart and race, with
    their answers lost and their requests delayed, the current and the
    pending configuration only ever change to configurations with larger
    numbers: between any two moments of a run each key keeps its
    configuration or gets a larger one, so no configuration number is ever
    used for two published configurations. *)
Theorem configurations_only_grow c gs evs1 evs2
    (s1 := sys_run (MkSys (initial_kv c) gs [] []) evs1) (s2 := sys_run s1 evs2) key c1 :
  len evs1 + len evs2 < 2 ^ 64 - 1 -> config_key key -> stored (sy_kv s1) key c1 ->
  exists c2, stored (sy_kv s2) key c2 /\ (c2 = c1 \/ Num c1 < Num c2).
Proof.
  intros Hlen Hk Hs.
  destruct (sys_run_ok (len evs2) (MkSys (initial_kv c) gs [] []) evs1) as [H1 _]; [lia|apply initial_inv; lia|].
  destruct (sys_run_ok 0 s1 evs2) as [_ H2]; [lia|done|]. by apply H2.
Qed.

(** ** What a controller does, operation by operation

    The trace of a program with the answers of the groups. *)
Inductive OpEv : Type :=
| TGet (key : string)
| TPut (key v : string) (ver : Tversion)
| TFreeze (srvs : list string) (s num : Z) (st : bytes) (err : Err)
| TInstall (srvs : list string) (s : Z) (st : bytes) (num : Z) (err : Err)
| TDelete (srvs : list string) (s num : Z) (err : Err).

Inductive steps {R} : Prog R -> list OpEv -> Prog R -> Prop :=
| steps_nil p : steps p [] p
| steps_get key k r tr q : steps (k r) tr q -> steps (OpGet key k) (TGet key :: tr) q
| steps_put key v ver k e tr q : steps (k e) tr q -> steps (OpPut key v ver k) (TPut key v ver :: tr) q
| steps_freeze srvs s num k st e tr q :
    steps (k (st, e)) tr q -> steps (OpFreeze srvs s num k) (TFreeze srvs s num st e :: tr) q
| steps_install srvs s st num k e tr q :
    steps (k e) tr q -> steps (OpInstall srvs s st num k) (TInstall srvs s st num e :: tr) q
| steps_delete srvs s num k e tr q :
    steps (k e) tr q -> steps (OpDelete srvs s num k) (TDelete srvs s num e :: tr) q.

Definition grp_ev (e : OpEv) : bool := match e with TGet _ | TPut _ _ _ => false | _ => true end.

(** The group operations that were answered OK. *)
Definition acked (e : OpEv) : bool :=
  match e with
  | TGet _ | TPut _ _ _ => false
  | TFreeze _ _ _ _ err | TInstall _ _ _ _ err | TDelete _ _ _ err => Err_eqb err OK
  end.

Definition acks (tr : list OpEv) : list OpEv := filter (fun e => acked e = true) tr.

Lemma acks_app tr1 tr2 : acks (tr1 ++ tr2) = acks tr1 ++ acks tr2.
Proof. apply filter_app. Qed.

Lemma steps_bind {A B} (p : Prog A) (f : A -> Prog B) tr q : steps (a ← p; f a) tr q ->
  (exists p', steps p tr p' /\ q = (a ← p'; f a)) \/
  (exists tr1 tr2 a, tr = tr1 ++ tr2 /\ steps p tr1 (Ret a) /\ steps (f a) tr2 q).
Proof.
  revert tr. induction p as [a| | |key k IH|key v ver k IH|srvs s num k IH|srvs s st num k IH|srvs s num k IH]; intros tr Hs.
  1: right; exists [], tr, a; split_and!; auto; constructor.
  1,2: inversion Hs; subst; left; eexists; split; [constructor|done].
  all: cbn in Hs; inversion Hs; subst; clear Hs; [left; eexists; split; [constructor|done]|].
  all: match goal with H : steps _ _ _ |- _ =>
    destruct (IH _ _ H) as [(p' & H1 & ->)|(tr1 & tr2 & a & -> & H1 & H2)]; [left; eexists; split; [by econstructor|done]|
      right; eexists (_ :: tr1), tr2, a; split_and!; [done|by econstructor|done]] end.
Qed.

Lemma steps_Ret {A} (a : A) tr q : steps (Ret a) tr q -> tr = [] /\ q = Ret a.
Proof. by inversion 1. Qed.

(** A statement [f] whose result is [Some a] exactly when its only
    acknowledged operation is [E a]. *)
Definition acks_as {A} (f : Prog (option A)) (E : A -> list OpEv) : Prop :=
  forall tr q, steps f tr q -> Forall grp_ev tr /\
    forall r, q = Ret r -> acks tr = match r with Some a => E a | None => [] end.

Lemma acks_as_retry {A} n (f : Prog (option A)) E : acks_as f E -> acks_as (retry n f) E.
Proof.
  intros Hf. induction n as [|n IH]; intros tr q Hs; cbn [retry] in Hs.
  - apply steps_Ret in Hs as [-> ->]. split; [done|]. by intros r [= <-].
  - apply steps_bind in Hs as [(p' & Hs & ->)|(tr1 & tr2 & a & -> & H1 & H2)].
    + destruct (Hf _ _ Hs) as [Hg Hr]. split; [done|]. intros r Hq.
      destruct p' as [[a|]| | | | | | |]; try done; [specialize (Hr _ eq_refl); simpl in Hq; by simplify_eq|].
      simpl in Hq. specialize (Hr _ eq_refl). simpl in Hr.
      destruct (IH [] (Ret r)) as [_ H]; [rewrite Hq; constructor|]. rewrite Hr. by apply (H r).
    + destruct (Hf _ _ H1) as [Hg Hr]. specialize (Hr _ eq_refl). destruct a as [a|].
      * apply steps_Ret in H2 as [-> ->]. rewrite app_nil_r. split; [done|]. by intros r [= <-].
      * destruct (IH _ _ H2) as [Hg2 Hr2]. split; [by apply Forall_app|]. intros r Hq. rewrite acks_app, Hr. by apply Hr2.
Qed.

Definition freeze_events (src : option (list string)) (s num : Z) (st : bytes) : list OpEv :=
  match src with None => [] | Some srvs => [TFreeze srvs s num st OK] end.
Definition install_events (dst : option (list string)) (s : Z) (st : bytes) (num : Z) : list OpEv :=
  match dst with None => [] | Some srvs => [TInstall srvs s st num OK] end.
Definition delete_events (src : option (list string)) (s num : Z) : list OpEv :=
  match src with None => [] | Some srvs => [TDelete srvs s num OK] end.

Lemma acks_as_none {A} (a : A) (E : A -> list OpEv) : E a = [] -> acks_as (Ret (Some a)) E.
Proof. intros HE tr q Hs. apply steps_Ret in Hs as [-> ->]. split; [done|]. by intros r [= <-]. Qed.

(** One remote call of a group yields exactly when it is acknowledged. *)
Lemma acks_single e err : (acked e = Err_eqb err OK) -> acks [e] = if Err_eqb err OK then [e] else [].
Proof. intros He. unfold acks. rewrite filter_cons, He. by destruct (Err_eqb err OK). Qed.

Ltac one_call :=
  let tr := fresh in let q := fresh in let Hs := fresh in let Hs1 := fresh in
  intros tr q Hs;
  inversion Hs as [|?|?|? ? ? ? ? ? ? ? Hs1|? ? ? ? ? ? ? ? Hs1|? ? ? ? ? ? ? Hs1]; subst;
  [split; [done|]; by intros ? [=]|apply steps_Ret in Hs1 as [-> ->]; split; [by repeat constructor|];
   intros ? [= <-]; erewrite acks_single by reflexivity;
   match goal with |- context [Err_eqb ?e OK] => by destruct e end].

Lemma acks_as_freeze src s num : acks_as (freeze_source src s num) (freeze_events src s num).
Proof.
  destruct src as [srvs|]; [apply acks_as_retry; one_call|by apply acks_as_none].
Qed.

Lemma acks_as_install dst s st num : acks_as (install_destination dst s st num) (fun _ => install_events dst s st num).
Proof.
  destruct dst as [srvs|]; [apply acks_as_retry; one_call|by apply acks_as_none].
Qed.

Lemma acks_as_delete src s num : acks_as (delete_source src s num) (fun _ => delete_events src s num).
Proof.
  destruct src as [srvs|]; [apply acks_as_retry; one_call|by apply acks_as_none].
Qed.

(** A program that calls only groups, and whose acknowledged operations are
    as [P] says when it returns true. *)
Definition done_as (p : Prog bool) (P : list OpEv -> Prop) : Prop :=
  forall tr q, steps p tr q -> Forall grp_ev tr /\ (q = Ret true -> P (acks tr)).

Lemma done_as_Ret b (P : list OpEv -> Prop) : (b = true -> P []) -> done_as (Ret b) P.
Proof. intros HP tr q Hs. apply steps_Ret in Hs as [-> ->]. split; [done|]. intros [= ->]. by apply HP. Qed.

(** A trace of a sequence, without the overlap at the end of its first part. *)
Lemma steps_bind_cut {A B} (p : Prog A) (f : A -> Prog B) tr q : steps (a ← p; f a) tr q ->
  (exists p', steps p tr p' /\ (forall a, p' <> Ret a) /\ q = (a ← p'; f a)) \/
  (exists tr1 tr2 a, tr = tr1 ++ tr2 /\ steps p tr1 (Ret a) /\ steps (f a) tr2 q).
Proof.
  intros [(p' & Hs & ->)|?]%steps_bind; [|by right].
  assert ((exists a, p' = Ret a) \/ forall a, p' <> Ret a) as [[a ->]|Hn] by (destruct p'; eauto).
  - right. exists tr, [], a. rewrite app_nil_r. split_and!; auto. constructor.
  - left. eauto.
Qed.

Lemma bind_Ret_inv {A B} (p : Prog A) (f : A -> Prog B) b : (a ← p; f a) = Ret b -> exists a, p = Ret a.
Proof. destruct p; simpl; try done. eauto. Qed.

Lemma done_as_or_return {A} (p : Prog (option A)) f E P :
  acks_as p E -> (forall a, done_as (f a) (fun l => P (E a ++ l))) -> done_as (or_return p f) P.
Proof.
  intros Hp Hf tr q [(p' & Hs & Hn & ->)|(tr1 & tr2 & a & -> & H1 & H2)]%steps_bind_cut.
  - split; [by apply (Hp _ _ Hs)|]. intros [a ?]%bind_Ret_inv. by destruct (Hn a).
  - destruct (Hp _ _ H1) as [Hg Ha]. specialize (Ha _ eq_refl). destruct a as [a|].
    + destruct (Hf a _ _ H2) as [Hg2 Hr]. split; [by apply Forall_app|]. rewrite acks_app, Ha. done.
    + apply steps_Ret in H2 as [-> ->]. rewrite app_nil_r. done.
Qed.

(** The operations of the move of shard [s], when its state is [st]. *)
Definition move_events (old new : ShardConfig) (st : bytes) (s : Z) : list OpEv :=
  match get (Shards old) s, get (Shards new) s with
  | Some from, Some to =>
      if from =? to then []
      else
        freeze_events (clerkFor old new from) s (Num new) st ++
        install_events (clerkFor old new to) s st (Num new) ++
        delete_events (clerkFor old new from) s (Num new)
  | _, _ => []
  end.

Lemma done_as_move_shard old new s : done_as (move_shard old new s) (fun l => exists st, l = move_events old new st s).
Proof.
  unfold move_shard, move_events. destruct (get (Shards old) s) as [from|], (get (Shards new) s) as [to|];
    try (intros tr q Hs; inversion Hs; subst; split; [done|by intros [=]]).
  destruct (from =? to); [apply done_as_Ret; by exists []|].
  eapply done_as_or_return; [apply acks_as_freeze|]. intros st.
  eapply done_as_or_return; [apply acks_as_install|]. intros [].
  eapply done_as_or_return; [apply acks_as_delete|]. intros []. apply done_as_Ret. intros _. exists st. by rewrite app_nil_r.
Qed.

Lemma done_as_move_shards old new ss :
  done_as (move_shards old new ss)
    (fun l => exists sts, length sts = length ss /\ l = concat (zip_with (move_events old new) sts ss)).
Proof.
  induction ss as [|s ss IH]; cbn [move_shards]; [apply done_as_Ret; by exists []|].
  intros tr q [(p' & Hs & Hn & ->)|(tr1 & tr2 & a & -> & H1 & H2)]%steps_bind_cut.
  - split; [by apply (done_as_move_shard _ _ _ _ _ Hs)|]. intros [a ?]%bind_Ret_inv. by destruct (Hn a).
  - destruct (done_as_move_shard _ _ _ _ _ H1) as [Hg Ha]. destruct a.
    + destruct (Ha eq_refl) as [st Est]. destruct (IH _ _ H2) as [Hg2 Hr]. split; [by apply Forall_app|].
      intros Hq. destruct (Hr Hq) as (sts & Hl & E). exists (st :: sts). simpl. rewrite acks_app, Est, E. auto.
    + apply steps_Ret in H2 as [-> ->]. rewrite app_nil_r. done.
Qed.

(** The operations of postConfig. *)
Definition post_ev (cfg : ShardConfig) (e : OpEv) : Prop :=
  e = TGet configKey \/ exists ver, e = TPut configKey (String_ cfg) ver.

Lemma post_put_loop fuel cfg ver tr q :
  (forall tr q, steps (postConfig fuel cfg) tr q -> Forall (post_ev cfg) tr) ->
  steps (e ← do_put configKey (String_ cfg) ver; if Err_eqb e OK then Ret tt else postConfig fuel cfg) tr q ->
  Forall (post_ev cfg) tr.
Proof.
  intros IH Hs. inversion Hs as [|?|? ? ? ? e ? ? Hs1|?|?|?]; subst; [done|].
  constructor; [by right; eexists|]. cbn [mbind Prog_bind] in Hs1. destruct (Err_eqb e OK); [|by eapply IH].
  by apply steps_Ret in Hs1 as [-> _].
Qed.

Lemma steps_postConfig fuel cfg tr q : steps (postConfig fuel cfg) tr q -> Forall (post_ev cfg) tr.
Proof.
  revert tr q. induction fuel as [|fuel IH]; intros tr q Hs; cbn [postConfig] in Hs; [by inversion Hs|].
  inversion Hs as [|? ? [[v ver] err] ? ? Hs1|?|?|?|?]; subst; [done|]. constructor; [by left|]. cbn [mbind Prog_bind] in Hs1.
  destruct (Err_eqb err ErrNoKey); [exact (post_put_loop _ _ _ _ _ IH Hs1)|].
  destruct (Err_eqb err OK); [|by eapply IH]. destruct (FromString v) as [c|]; [|by inversion Hs1].
  destruct (Num c >=? Num cfg); [by apply steps_Ret in Hs1 as [-> _]|exact (post_put_loop _ _ _ _ _ IH Hs1)].
Qed.

(** C11 (safety): completeChange publishes only finished changes.  In every
    run of it, whatever the groups and the kvsrv server answer, it touches
    the configuration key only after all its calls of groups; by then each
    shard that changes owner has been frozen at its old group, installed at
    its new group with the state that the freeze returned, and deleted at its
    old group, acknowledged in this order; and all it writes is the new
    configuration. *)
Theorem publish_after_moves fuel old new tr q :
  steps (completeChange fuel old new) tr q ->
  exists moves posts, tr = moves ++ posts /\ Forall grp_ev moves /\ Forall (post_ev new) posts /\
    (posts <> [] -> exists sts, length sts = NShards /\
      acks moves = concat (zip_with (move_events old new) sts (map Z.of_nat (seq 0 NShards)))).
Proof.
  intros [(p' & Hs & Hn & ->)|(tr1 & tr2 & a & -> & H1 & H2)]%steps_bind_cut.
  - exists tr, []. rewrite app_nil_r. split_and!; try done. by apply (done_as_move_shards _ _ _ _ _ Hs).
  - destruct (done_as_move_shards _ _ _ _ _ H1) as [Hg Ha]. exists tr1, tr2. split_and!; try done.
    + destruct a; [by eapply steps_postConfig|by apply steps_Ret in H2 as [-> _]].
    + intros Hne. destruct a; [|by apply steps_Ret in H2 as [-> _]].
      destruct (Ha eq_refl) as (sts & Hl & E). eauto.
Qed.

(** ** A controller running alone

    Every operation is executed and answered; [None] when the program stops
    with [Fatal] or runs out of fuel. *)
Fixpoint run_alone {R : Type} (kv : KVServer) (gs : GroupMap) (p : Prog R) : option (KVServer * GroupMap * R) :=
  match p with
  | Ret r => Some (kv, gs, r)
  | Fatal | Spin => None
  | OpGet key k =>
      let r := Get kv (MkGetArgs key) in
      run_alone kv gs (k (GetReply_Value r, GetReply_Version r, GetReply_Err r))
  | OpPut key v ver k =>
      let '(kv', e) := clerk_put kv (MkPutArgs key v ver) Answered in run_alone kv' gs (k e)
  | OpFreeze srvs s num k =>
      let '(gs', rep) := grp_exec gs srvs (RFreeze (MkFreezeShardArgs s num)) in
      let r := FreezeShard (reply_err rep) rep in
      run_alone kv gs' (k (fzr_State r, fzr_Err r))
  | OpInstall srvs s st num k =>
      let '(gs', rep) := grp_exec gs srvs (RInstall (MkInstallShardArgs s st num)) in
      run_alone kv gs' (k (inr_Err (InstallShard (reply_err rep) rep)))
  | OpDelete srvs s num k =>
      let '(gs', rep) := grp_exec gs srvs (RDelete (MkDeleteShardArgs s num)) in
      run_alone kv gs' (k (dlr_Err (DeleteShard (reply_err rep) rep)))
  end.

Lemma run_alone_bind {A B : Type} kv gs (p : Prog A) (f : A -> Prog B) :
  run_alone kv gs (a ← p; f a) = ('(kv', gs', a) ← run_alone kv gs p; run_alone kv' gs' (f a)).
Proof.
  revert kv gs. induction p as [a| | |key k IH|key v ver k IH|srvs s num k IH|srvs s st num k IH|srvs s num k IH]; intros kv gs;
    try done; cbn; [apply IH|destruct (clerk_put _ _ _)|destruct (grp_exec _ _ _)..]; apply IH.
Qed.

(** The record of shard [s] at the group with servers [srvs]. *)
Definition rec_at (gs : GroupMap) (srvs : list string) (s : Z) : option shardRec := kv ← gs !! srvs; get kv s.

Definition groups_wf (gs : GroupMap) : Prop := map_Forall (fun _ kv => length kv = NShards) gs.

(** [gs'] is [gs] but for the record of shard [s] at [srvs], which is [r]. *)
Definition set_rec (gs : GroupMap) (srvs : list string) (s : Z) (r : shardRec) (gs' : GroupMap) : Prop :=
  groups_wf gs' /\ rec_at gs' srvs s = Some r /\
  forall srvs' s', (srvs' <> srvs \/ s' <> s) -> rec_at gs' srvs' s' = rec_at gs srvs' s'.

Lemma on_shard_set {R : Type} gs srvs kv s r (f : shardRec -> shardRec * R) :
  groups_wf gs -> gs !! srvs = Some kv -> get kv s = Some r ->
  exists kv', on_shard kv s f = Some (kv', snd (f r)) /\ set_rec gs srvs s (fst (f r)) (<[srvs := kv']> gs).
Proof.
  intros Hwf Hg Hr. pose proof (Hwf _ _ Hg) as Hl. simpl in Hl. pose proof (proj1 (get_is_Some kv s) ltac:(eauto)) as Hs.
  unfold on_shard. rewrite Hr. obind. destruct (f r) as [r' rep]. rewrite put_in_range by done. obind.
  eexists. split; [done|]. split_and!.
  - apply map_Forall_insert_2; [by rewrite length_insert|done].
  - unfold rec_at. rewrite lookup_insert_eq. obind. apply get_Some. split; [lia|]. apply list_lookup_insert_eq. lia.
  - intros srvs' s' Hne. unfold rec_at. destruct (decide (srvs' = srvs)) as [->|]; [|by rewrite lookup_insert_ne].
    rewrite lookup_insert_eq, Hg. obind. destruct Hne as [?|Hne]; [done|]. unfold get.
    destruct (Z.leb_spec 0 s'); [|done]. rewrite list_lookup_insert_ne by lia. done.
Qed.

Lemma rec_at_inv gs srvs s r : rec_at gs srvs s = Some r -> exists kv, gs !! srvs = Some kv /\ get kv s = Some r.
Proof. unfold rec_at. destruct (gs !! srvs) as [kv|]; [|done]. eauto. Qed.

Lemma run_freeze kv gs srvs s num r : groups_wf gs -> rec_at gs srvs s = Some r ->
  exists gs', set_rec gs srvs s (fst (freeze_rec r num)) gs' /\
    run_alone kv gs (freeze_source (Some srvs) s num) = Some (kv, gs', Some (fzr_State (snd (freeze_rec r num)))).
Proof.
  intros Hwf (g & Hg & Hr)%rec_at_inv.
  destruct (on_shard_set gs srvs g s r (fun r => freeze_rec r num) Hwf Hg Hr) as (g' & Hon & Hset). eexists. split; [done|].
  unfold freeze_source. cbn [retry]. rewrite run_alone_bind. cbn [do_freeze mbind Prog_bind run_alone]. unfold grp_exec. rewrite Hg.
  unfold Grp_DoOp, doFreeze. cbn [fz_Shard fz_Num]. rewrite Hon. obind. cbn [reply_err FreezeShard].
  assert (fzr_Err (snd (freeze_rec r num)) = OK) as Hok by (unfold freeze_rec; by branch).
  unfold FreezeShard. simpl. by rewrite Hok.
Qed.

Lemma run_install kv gs srvs s st num r : groups_wf gs -> rec_at gs srvs s = Some r ->
  exists gs', set_rec gs srvs s (fst (install_rec r st num)) gs' /\
    run_alone kv gs (install_destination (Some srvs) s st num) = Some (kv, gs', Some tt).
Proof.
  intros Hwf (g & Hg & Hr)%rec_at_inv.
  destruct (on_shard_set gs srvs g s r (fun r => install_rec r st num) Hwf Hg Hr) as (g' & Hon & Hset). eexists. split; [done|].
  unfold install_destination. cbn [retry]. rewrite run_alone_bind. cbn [do_install mbind Prog_bind run_alone]. unfold grp_exec. rewrite Hg.
  unfold Grp_DoOp, doInstall. cbn [in_Shard in_State in_Num]. rewrite Hon. obind.
  assert (inr_Err (snd (install_rec r st num)) = OK) as Hok by (unfold install_rec; by branch).
  unfold InstallShard. simpl. by rewrite Hok.
Qed.

Lemma run_delete kv gs srvs s num r : groups_wf gs -> rec_at gs srvs s = Some r ->
  exists gs', set_rec gs srvs s (fst (delete_rec r num)) gs' /\
    run_alone kv gs (delete_source (Some srvs) s num) = Some (kv, gs', Some tt).
Proof.
  intros Hwf (g & Hg & Hr)%rec_at_inv.
  destruct (on_shard_set gs srvs g s r (fun r => delete_rec r num) Hwf Hg Hr) as (g' & Hon & Hset). eexists. split; [done|].
  unfold delete_source. cbn [retry]. rewrite run_alone_bind. cbn [do_delete mbind Prog_bind run_alone]. unfold grp_exec. rewrite Hg.
  unfold Grp_DoOp, doDelete. cbn [dl_Shard dl_Num]. rewrite Hon. obind.
  assert (dlr_Err (snd (delete_rec r num)) = OK) as Hok by (unfold delete_rec; by branch).
  unfold DeleteShard. simpl. by rewrite Hok.
Qed.

(** How far the move of a shard with data [D] to configuration [num] has got,
    from the records at the old and at the new group. *)
Inductive move_phase (num : Z) (D : KVServer) (src dst : shardRec) : Prop :=
| mp_untouched : SState src = ShardServing -> SNum src < num -> Data src = D -> SNum dst < num -> move_phase num D src dst
| mp_frozen : SState src = ShardFrozen -> SNum src = num -> Data src = D -> SNum dst < num -> move_phase num D src dst
| mp_installed : SState src = ShardFrozen -> SNum src = num -> dst = MkShardRec D ShardServing num -> move_phase num D src dst
| mp_deleted : SState src = ShardNotOwned -> SNum src = num -> dst = MkShardRec D ShardServing num -> move_phase num D src dst.

(** Whatever the phase, the three steps complete the move. *)
Lemma finish_phase num D src dst : move_phase num D src dst ->
  fst (install_rec dst (fzr_State (snd (freeze_rec src num))) num) = MkShardRec D ShardServing num /\
  fst (delete_rec (fst (freeze_rec src num)) num) = MkShardRec ∅ ShardNotOwned num.
Proof.
  assert (forall z, (z <? z) = false) as Hirr by (intros; apply Z.ltb_irrefl).
  intros [Hs Hn Hdat Hd|Hs Hn Hdat Hd|Hs Hn Hd|Hs Hn Hd]; unfold freeze_rec, install_rec, delete_rec; cbn [SNum SState Data].
  - destruct (Z.ltb_spec num (SNum src)); [lia|]. rewrite Z.gtb_ltb, (proj2 (Z.ltb_lt _ _) Hn), Hs, Hdat. cbn [fst snd SNum fzr_State].
    destruct (Z.leb_spec num (SNum dst)); [lia|]. rewrite Hirr, Z.gtb_ltb, Hirr, decode_encode_shard. done.
  - rewrite Hn, Hirr, Z.gtb_ltb, Hirr, Hs, Hdat. cbn [fst snd SNum fzr_State]. destruct (Z.leb_spec num (SNum dst)); [lia|].
    rewrite Hirr, Z.gtb_ltb, Hirr, decode_encode_shard. done.
  - rewrite Hd. cbn [SNum]. rewrite Z.leb_refl, Hn, Hirr, Hs, Z.gtb_ltb, Hirr. cbn [fst snd SNum]. by rewrite Hirr, Z.gtb_ltb, Hirr.
  - rewrite Hd. cbn [SNum]. rewrite Z.leb_refl, Hn, Hirr, Hs, Z.gtb_ltb, Hirr. cbn [fst snd SNum]. by rewrite Hirr, Z.gtb_ltb, Hirr.
Qed.

(** Shard [s] stays where it is, or is somewhere on its way from one known
    group to another with data [D s]. *)
Definition shard_ready (old new : ShardConfig) (D : Z -> KVServer) (gs : GroupMap) (s : Z) : Prop :=
  exists from to, get (Shards old) s = Some from /\ get (Shards new) s = Some to /\
    (from <> to -> exists src dst rs rd, clerkFor old new from = Some src /\ clerkFor old new to = Some dst /\ src <> dst /\
      rec_at gs src s = Some rs /\ rec_at gs dst s = Some rd /\ move_phase (Num new) (D s) rs rd).

(** Shard [s] stayed as it was, or is served by its new group with data [D s]
    and gone from its old group. *)
Definition shard_done (old new : ShardConfig) (D : Z -> KVServer) (gs gs' : GroupMap) (s : Z) : Prop :=
  exists from to, get (Shards old) s = Some from /\ get (Shards new) s = Some to /\
    (from = to -> forall srvs, rec_at gs' srvs s = rec_at gs srvs s) /\
    (from <> to -> exists src dst, clerkFor old new from = Some src /\ clerkFor old new to = Some dst /\
      rec_at gs' src s = Some (MkShardRec ∅ ShardNotOwned (Num new)) /\
      rec_at gs' dst s = Some (MkShardRec (D s) ShardServing (Num new)) /\
      forall srvs, srvs <> src -> srvs <> dst -> rec_at gs' srvs s = rec_at gs srvs s).

Lemma run_or_return {A : Type} kv gs (p : Prog (option A)) f kv' gs' a :
  run_alone kv gs p = Some (kv', gs', Some a) -> run_alone kv gs (or_return p f) = run_alone kv' gs' (f a).
Proof. intros Hp. unfold or_return. by rewrite run_alone_bind, Hp. Qed.

Lemma run_move_shard old new D kv gs s : groups_wf gs -> shard_ready old new D gs s ->
  exists gs', run_alone kv gs (move_shard old new s) = Some (kv, gs', true) /\ groups_wf gs' /\
    shard_done old new D gs gs' s /\ forall srvs s', s' <> s -> rec_at gs' srvs s' = rec_at gs srvs s'.
Proof.
  intros Hwf (from & to & Hf & Ht & Hready). unfold move_shard. rewrite Hf, Ht.
  destruct (Z.eqb_spec from to) as [->|Hne].
  { exists gs. split_and!; auto. exists to, to. split_and!; auto. by intros. }
  destruct (Hready Hne) as (src & dst & rs & rd & Hsrc & Hdst & Hdiff & Hrs & Hrd & Hph).
  destruct (finish_phase _ _ _ _ Hph) as [Hfin1 Hfin2]. rewrite Hsrc, Hdst. cbv zeta.
  destruct (run_freeze kv gs src s (Num new) rs Hwf Hrs) as (gs1 & (Hwf1 & Hr1 & Ho1) & E1). erewrite run_or_return by exact E1.
  rewrite <-Ho1 in Hrd by auto.
  destruct (run_install kv gs1 dst s (fzr_State (freeze_rec rs (Num new)).2) (Num new) rd Hwf1 Hrd) as (gs2 & (Hwf2 & Hr2 & Ho2) & E2).
  erewrite run_or_return by exact E2. rewrite <-Ho2 in Hr1 by auto.
  destruct (run_delete kv gs2 src s (Num new) _ Hwf2 Hr1) as (gs3 & (Hwf3 & Hr3 & Ho3) & E3). erewrite run_or_return by exact E3.
  exists gs3. split_and!; [done|done| |].
  - exists from, to. split_and!; [done|done|done|]. intros _. exists src, dst. split_and!; try done; [by rewrite Hr3, Hfin2| |].
    + by rewrite Ho3, Hr2, Hfin1 by auto.
    + intros srvs ? ?. by rewrite Ho3, Ho2, Ho1 by auto.
  - intros srvs s' Hs'. by rewrite Ho3, Ho2, Ho1 by auto.
Qed.

Lemma shard_ready_ext old new D gs gs' s :
  (forall srvs, rec_at gs' srvs s = rec_at gs srvs s) -> shard_ready old new D gs s -> shard_ready old new D gs' s.
Proof.
  intros E (from & to & Hf & Ht & H). exists from, to. split_and!; auto. intros Hne.
  destruct (H Hne) as (src & dst & rs & rd & ?). exists src, dst, rs, rd. by rewrite !E.
Qed.

Lemma shard_done_ext old new D gs1 gs2 gs1' gs2' s :
  (forall srvs, rec_at gs1' srvs s = rec_at gs1 srvs s) -> (forall srvs, rec_at gs2' srvs s = rec_at gs2 srvs s) ->
  shard_done old new D gs1 gs2 s -> shard_done old new D gs1' gs2' s.
Proof.
  intros E1 E2 (from & to & Hf & Ht & H1 & H2). exists from, to. split_and!; auto.
  - intros Heq srvs. rewrite E1, E2. auto.
  - intros Hne. destruct (H2 Hne) as (src & dst & Hs & Hd & Ha & Hb & Hc). exists src, dst. rewrite !E2. split_and!; auto.
    intros. rewrite E1, E2. auto.
Qed.

Lemma run_move_shards old new D kv gs ss : groups_wf gs -> NoDup ss -> Forall (shard_ready old new D gs) ss ->
  exists gs', run_alone kv gs (move_shards old new ss) = Some (kv, gs', true) /\ groups_wf gs' /\
    Forall (shard_done old new D gs gs') ss /\ forall srvs s', s' ∉ ss -> rec_at gs' srvs s' = rec_at gs srvs s'.
Proof.
  revert gs. induction ss as [|s ss IH]; intros gs Hwf Hnd Hr; [exists gs; split_and!; auto|].
  apply NoDup_cons in Hnd as [Hns Hnd]. apply Forall_cons in Hr as [Hs Hr]. cbn [move_shards]. rewrite run_alone_bind.
  destruct (run_move_shard old new D kv gs s Hwf Hs) as (gs1 & -> & Hwf1 & Hd & Ho). obind.
  destruct (IH gs1) as (gs2 & -> & Hwf2 & Hds & Ho2); [done|done| |].
  { rewrite Forall_forall in *. intros s' Hin. apply (shard_ready_ext _ _ _ gs); [|auto]. intros. apply Ho. set_solver. }
  exists gs2. split_and!; auto.
  - apply Forall_cons. split; [apply (shard_done_ext _ _ _ gs gs1); auto|].
    rewrite Forall_forall in *. intros s' Hin. apply (shard_done_ext _ _ _ gs1 gs2); auto. intros. symmetry. apply Ho. set_solver.
  - intros srvs s' Hin. rewrite Ho2, Ho; set_solver.
Qed.

Lemma run_configAt kv gs key c : stored kv key c -> run_alone kv gs (configAt key) = Some (kv, gs, Some c).
Proof.
  intros (e & He & _ & Hv). cbn. unfold Get. simpl. rewrite He. simpl. by rewrite Hv, FromString_String.
Qed.

Lemma run_postConfig fuel kv gs c cfg : stored kv configKey c -> Num c < Num cfg -> version_of kv configKey + 1 < 2 ^ 64 ->
  run_alone kv gs (postConfig (S fuel) cfg) =
    Some (<[configKey := MkKvEntry (String_ cfg) (version_of kv configKey + 1)]> kv, gs, tt).
Proof.
  intros (e & He & H1 & Hv) Hlt Hroom. unfold version_of in *. rewrite He in *. cbn [postConfig].
  cbn [do_get mbind Prog_bind run_alone]. unfold Get. cbn [GetArgs_Key]. rewrite He. cbn [GetReply_Value GetReply_Version GetReply_Err].
  change (Err_eqb OK ErrNoKey) with false. change (Err_eqb OK OK) with true. cbv iota. rewrite Hv, FromString_String.
  destruct (Z.geb_spec (Num c) (Num cfg)); [lia|]. cbn [do_put mbind Prog_bind run_alone]. unfold clerk_put, Put. cbn [PutArgs_Key PutArgs_Version PutArgs_Value].
  rewrite He, Z.eqb_refl. cbn. by rewrite u64_small by lia.
Qed.

Lemma run_completeChange fuel old new D kv gs :
  groups_wf gs -> (forall s, 0 <= s < Z.of_nat NShards -> shard_ready old new D gs s) ->
  stored kv configKey old -> Num old < Num new -> version_of kv configKey + 1 < 2 ^ 64 ->
  exists gs', run_alone kv gs (completeChange (S fuel) old new) =
      Some (<[configKey := MkKvEntry (String_ new) (version_of kv configKey + 1)]> kv, gs', tt) /\
    groups_wf gs' /\ forall s, 0 <= s < Z.of_nat NShards -> shard_done old new D gs gs' s.
Proof.
  intros Hwf Hr Hst Hlt Hroom. unfold completeChange. rewrite run_alone_bind.
  destruct (run_move_shards old new D kv gs (map Z.of_nat (seq 0 NShards)) Hwf) as (gs' & -> & Hwf' & Hd & _).
  - apply NoDup_fmap; [apply _|]. apply NoDup_ListNoDup, seq_NoDup.
  - apply Forall_fmap, Forall_seq. intros j Hj. apply Hr. lia.
  - exists gs'. obind. split_and!; [by eapply run_postConfig|done|]. intros s Hs. rewrite Forall_forall in Hd. apply Hd.
    apply list_elem_of_fmap. exists (Z.to_nat s). split; [lia|]. apply elem_of_seq. lia.
Qed.

(** C10 (liveness): a restarted controller finishes the change its predecessor
    left.  Wherever the predecessor stopped (each moving shard untouched,
    frozen, installed or deleted), InitController running undisturbed
    returns, serves every moving shard at its new group with the data it had
    and removes it from its old group, leaves all other shards alone, and
    publishes the pending configuration. *)
Theorem controller_recovers fuel old new D kv gs :
  groups_wf gs -> (forall s, 0 <= s < Z.of_nat NShards -> shard_ready old new D gs s) ->
  stored kv configKey old -> stored kv pendingConfigKey new -> Num old < Num new -> version_of kv configKey + 1 < 2 ^ 64 ->
  exists kv' gs', run_alone kv gs (InitController (S fuel)) = Some (kv', gs', tt) /\
    stored kv' configKey new /\ stored kv' pendingConfigKey new /\
    forall s, 0 <= s < Z.of_nat NShards -> shard_done old new D gs gs' s.
Proof.
  intros Hwf Hr Hold Hnew Hlt Hroom. pose proof (stored_version _ _ _ Hold) as [Hv _]. unfold InitController.
  rewrite run_alone_bind, (run_configAt _ _ _ _ Hold). obind. rewrite run_alone_bind, (run_configAt _ _ _ _ Hnew). obind.
  destruct (Z.leb_spec (Num new) (Num old)); [lia|].
  destruct (run_completeChange fuel old new D kv gs Hwf Hr Hold Hlt Hroom) as (gs' & -> & _ & Hd).
  eexists _, gs'. split_and!; [done| | |done].
  - eexists. rewrite lookup_insert_eq. split_and!; [done| |done]. simpl. lia.
  - destruct Hnew as (e & He & ?). exists e. by rewrite lookup_insert_ne.
Qed.

End Ctrler.

(** ** Witnesses *)

#[local] Existing Instance binary_json.

Definition sample_groups : gmap Z (list string) := {[1 := ["a"]; 2 := ["b"]; 3 := ["c"]]}.
Definition all_at (num gid : Z) : ShardConfig := MkShardConfig num (replicate NShards gid) sample_groups.
Definition sample_gs : GroupMap := {[["a"] := initShards 1; ["b"] := initShards 2; ["c"] := initShards 3]}.
Definition sample_sys : Sys := MkSys (initial_kv (all_at 1 1)) sample_gs [] [].

(** Controller [i] performs [n] operations, all answered. *)
Definition runs (i n : nat) : list Sched := replicate n (Run i Answered).

(** What a client reads at the group with servers [srvs]. *)
Definition read_at (gs : GroupMap) (srvs : list string) (key : string) : option GetReply :=
  match grp_exec gs srvs (RGet (MkGetArgs key)) with (_, Some (PGet r)) => Some r | _ => None end.

(** The run: a client writes "k"; controller 0 claims configuration 2;
    controller 1 starts its recovery and reads configuration 1 as current;
    controller 0 finishes the change to configuration 2; controller 2 claims
    configuration 3. *)
Definition before_stale_recovery : list Sched :=
  [ClientPut ["a"] (MkPutArgs "k" "v" 0); StartChange 5 (all_at 2 2)] ++ runs 0 3 ++
  [StartInit 5] ++ runs 1 1 ++ runs 0 38 ++ [StartChange 5 (all_at 3 3)] ++ runs 2 3.

(** A counterexample: InitController reads the current and the
    pending configuration with two Gets.  When another controller finishes a
    change and claims the next one in between, the recovery moves the shards
    from the owners of a configuration that is two behind: it finds them
    gone there, installs empty shards at the new owners, and the proper move
    that follows is ignored.  The written key is readable before; after all
    controllers have returned, no group has it. *)
Theorem stale_recovery_loses_data
    (s1 := sys_run sample_sys before_stale_recovery) (s2 := sys_run s1 (runs 1 39 ++ runs 2 38)) :
  stored_num (sy_kv s1) configKey = Some 2 /\ read_at (sy_groups s1) ["b"] "k" = Some (MkGetReply "v" 1 OK) /\
  stored_num (sy_kv s2) configKey = Some 3 /\ sy_pool s2 = [Ret tt; Ret tt; Ret tt] /\
  read_at (sy_groups s2) ["c"] "k" = Some (MkGetReply "" 0 ErrNoKey) /\
  read_at (sy_groups s2) ["a"] "k" = Some (MkGetReply "" 0 ErrWrongGroup) /\
  read_at (sy_groups s2) ["b"] "k" = Some (MkGetReply "" 0 ErrWrongGroup).
Proof. subst s1 s2. vm_compute. repeat split. Qed.

(** The change to configuration 2 with an unanswered freeze and a second
    controller that recovers it while it is under way. *)
Definition racing_run : list Sched :=
  [StartChange 5 (all_at 2 2)] ++ runs 0 3 ++ [Run 0 Unanswered; StartInit 5] ++ runs 1 2 ++ runs 0 4 ++ [LateRpc 0] ++ runs 1 36.

Lemma configurations_only_grow_witness :
  exists c2, stored (sy_kv (sys_run (sys_run sample_sys (take 3 racing_run)) (drop 3 racing_run ++ runs 1 2))) configKey c2 /\
    (c2 = all_at 1 1 \/ 1 < Num c2).
Proof.
  refine (configurations_only_grow (all_at 1 1) sample_gs (take 3 racing_run) (drop 3 racing_run ++ runs 1 2) configKey (all_at 1 1) _ _ _).
  - vm_compute. reflexivity.
  - by left.
  - exists (MkKvEntry (String_ (all_at 1 1)) 1). vm_compute. repeat split; discriminate.
Defined.

(** The trace of a program for given answers. *)
Inductive Answer : Type := AGet (v : string) (ver : Tversion) (err : Err) | AErr (e : Err) | AFreeze (st : bytes) (e : Err).

Fixpoint feed {R : Type} (p : Prog R) (l : list Answer) {struct l} : list OpEv * Prog R :=
  match l with
  | [] => ([], p)
  | a :: l =>
      let cons ev r := (ev :: fst r, snd r) in
      match p, a with
      | OpGet key k, AGet v ver err => cons (TGet key) (feed (k (v, ver, err)) l)
      | OpPut key v ver k, AErr e => cons (TPut key v ver) (feed (k e) l)
      | OpFreeze srvs s num k, AFreeze st e => cons (TFreeze srvs s num st e) (feed (k (st, e)) l)
      | OpInstall srvs s st num k, AErr e => cons (TInstall srvs s st num e) (feed (k e) l)
      | OpDelete srvs s num k, AErr e => cons (TDelete srvs s num e) (feed (k e) l)
      | _, _ => ([], p)
      end
  end.

Lemma feed_steps {R : Type} (p : Prog R) l : steps p (fst (feed p l)) (snd (feed p l)).
Proof.
  revert p. induction l as [|a l IH]; intros p; [apply steps_nil|].
  destruct p, a; simpl; solve [apply steps_nil|econstructor; apply IH].
Qed.

(** The first shard moves to group 2; the first freeze gets no answer. *)
Definition first_to_2 : ShardConfig := MkShardConfig 2 (2 :: replicate 11 1) sample_groups.
Definition first_to_2_trace : list OpEv :=
  [TFreeze ["a"] 0 2 [] ErrWrongLeader; TFreeze ["a"] 0 2 [7] OK; TInstall ["b"] 0 [7] 2 OK; TDelete ["a"] 0 2 OK;
   TGet configKey; TPut configKey (String_ first_to_2) 1].

Lemma publish_after_moves_witness :
  exists moves posts, first_to_2_trace = moves ++ posts /\ Forall grp_ev moves /\ Forall (post_ev first_to_2) posts /\
    (posts <> [] -> exists sts, length sts = NShards /\
      acks moves = concat (zip_with (move_events (all_at 1 1) first_to_2) sts (map Z.of_nat (seq 0 NShards)))).
Proof.
  pose (l := [AFreeze [] ErrWrongLeader; AFreeze [7] OK; AErr OK; AErr OK; AGet (String_ (all_at 1 1)) 1 OK; AErr OK]).
  assert (first_to_2_trace = fst (feed (completeChange 1 (all_at 1 1) first_to_2) l)) as E by (vm_compute; reflexivity).
  rewrite E. apply (publish_after_moves 1 (all_at 1 1) first_to_2 _ (snd (feed (completeChange 1 (all_at 1 1) first_to_2) l))).
  apply feed_steps.
Defined.

(** A predecessor stopped after it had moved shard 0 and installed shard
    1. *)
Definition stopped_sys : Sys :=
  sys_run sample_sys ([ClientPut ["a"] (MkPutArgs "k" "v" 0); StartChange 5 (all_at 2 2)] ++ runs 0 8).

(** The data of shard [s] in that state. *)
Definition stopped_data (s : Z) : KVServer :=
  if s <=? 1 then default ∅ (Data <$> rec_at (sy_groups stopped_sys) ["b"] s)
  else default ∅ (Data <$> rec_at (sy_groups stopped_sys) ["a"] s).

Lemma stopped_ready s : 0 <= s < 12 -> shard_ready (all_at 1 1) (all_at 2 2) stopped_data (sy_groups stopped_sys) s.
Proof.
  intros Hs. exists 1, 2.
  assert (s = 0 \/ s = 1 \/ s = 2 \/ s = 3 \/ s = 4 \/ s = 5 \/ s = 6 \/ s = 7 \/ s = 8 \/ s = 9 \/ s = 10 \/ s = 11) as Hcases by lia.
  destruct_or! Hcases; subst s.
  all: split_and!; [vm_compute; reflexivity|vm_compute; reflexivity|intros _; exists ["a"], ["b"]].
  all: do 2 eexists; split_and!; [vm_compute; reflexivity|vm_compute; reflexivity|discriminate|vm_compute; reflexivity|vm_compute; reflexivity|].
  1: apply mp_deleted; vm_compute; reflexivity.
  1: apply mp_installed; vm_compute; reflexivity.
  all: apply mp_untouched; vm_compute; reflexivity.
Qed.

Lemma controller_recovers_witness :
  exists kv' gs', run_alone (sy_kv stopped_sys) (sy_groups stopped_sys) (InitController 5) = Some (kv', gs', tt) /\
    stored kv' configKey (all_at 2 2) /\ read_at gs' ["b"] "k" = Some (MkGetReply "v" 1 OK).
Proof.
  destruct (controller_recovers 4 (all_at 1 1) (all_at 2 2) stopped_data (sy_kv stopped_sys) (sy_groups stopped_sys))
    as (kv' & gs' & Hrun & Hst & _ & _).
  - unfold groups_wf. apply (bool_decide_unpack _). vm_compute. exact I.
  - apply stopped_ready.
  - eexists. vm_compute. split_and!; [reflexivity|discriminate|reflexivity].
  - eexists. vm_compute. split_and!; [reflexivity|discriminate|reflexivity].
  - reflexivity.
  - vm_compute. reflexivity.
  - exists kv', gs'. split; [exact Hrun|]. split; [exact Hst|].
    assert ((fun x => read_at (snd (fst x)) ["b"] "k") <$> run_alone (sy_kv stopped_sys) (sy_groups stopped_sys) (InitController 5)
      = Some (Some (MkGetReply "v" 1 OK))) as Hread by (vm_compute; reflexivity).
    rewrite Hrun in Hread. cbn [fmap option_fmap option_map fst snd] in Hread. by injection Hread.
Defined.
