(* ===== verification/ShardTest.v ===== *)
(** * Driving the sharded service (src/shardkv1/test.go)

    The test driver starts the first group, adds and removes groups and
    restarts controllers.  [join] and [leave] are controller programs: they
    read the current configuration, compute the next one and hand it to
    ChangeConfigTo.  Here are these programs and the runs they make: any
    number of them interleaved at every remote operation, with lost answers,
    late requests and clients that write to any group.  What such runs do to
    the data is the subject of Reshard.v. *)

From stdpp Require Import pretty.
From S2P Require Import Prelude Rpc KvSrv KvClerk TestGroup ShardCfg ShardGrp ShardCtrler.

(** ** Groups and their servers *)

Definition NSRV : nat := 3.

(** The servers of group [gid]: [ts.Group(gid).SrvNames()]. *)
Definition GroupServers (gid : Z) : list string := (fun i => ServerName gid (Z.of_nat i)) <$> seq 0 NSRV.

Lemma append_inj_r s1 s2 s : s1 +:+ s = s2 +:+ s -> s1 = s2.
Proof.
  assert (forall a b : string, String.length (a +:+ b) = (String.length a + String.length b)%nat) as Hl.
  { induction a as [|x a IH]; intros b; simpl; [done|]. by rewrite IH. }
  revert s2. induction s1 as [|x s1 IH]; intros [|y s2] E; auto.
  - apply (f_equal String.length) in E. rewrite !Hl in E. cbn in E. lia.
  - apply (f_equal String.length) in E. rewrite !Hl in E. cbn in E. lia.
  - injection E as -> E. f_equal. auto.
Qed.

#[export] Instance GroupServers_inj : Inj (=) (=) GroupServers.
Proof.
  intros g g' E. unfold GroupServers, NSRV in E. simpl in E. injection E as E _ _.
  exact (inj pretty _ _ (append_inj_r (pretty g) (pretty g') _ E)).
Qed.

Lemma GroupServers_length g : length (GroupServers g) = NSRV.
Proof. done. Qed.

(** ** Numbering the groups *)

(** The counter [ts.ngid] of the next unused group. *)
Definition newGid (ngid : Z) : Z * Z := (ngid, ngid + 1).

Fixpoint groups (n : nat) (ngid : Z) : list Z * Z :=
  match n with
  | O => ([], ngid)
  | S n => let '(gid, ngid) := newGid ngid in let '(grps, ngid) := groups n ngid in (gid :: grps, ngid)
  end.

(** Groups are numbered without repetition, from [ngid] on. *)
Lemma groups_eq n ngid : groups n ngid = ((fun i => ngid + Z.of_nat i) <$> seq 0 n, ngid + Z.of_nat n).
Proof.
  revert ngid. induction n as [|n IH]; intros ngid; simpl; [by rewrite Z.add_0_r|]. rewrite IH. f_equal; [|lia].
  f_equal; [lia|]. rewrite <-fmap_S_seq, <-list_fmap_compose. apply list_fmap_ext. intros i x _. simpl. lia.
Qed.

Lemma groups_fresh n ngid : NoDup (fst (groups n ngid)) /\ Forall (fun g => ngid <= g < snd (groups n ngid)) (fst (groups n ngid)).
Proof.
  rewrite groups_eq. simpl. split.
  - apply NoDup_fmap_2; [intros x y; lia|]. apply NoDup_ListNoDup, seq_NoDup.
  - apply Forall_fmap, Forall_seq. simpl. lia.
Qed.

Section Driver.
Context `{CJ : ConfigJson} `{GK : Gob KVServer}.

(** ** Changing the set of groups *)

(** The common part of join and leave.  [nil.Copy()] dereferences nil;
    [log.Fatalf] ends the process when [f] reports failure. *)
Definition reconfigure (fuel : nat) (f : ShardConfig -> option (ShardConfig * bool)) : Prog unit :=
  cfg ← Query;
  match cfg with
  | None => Fatal
  | Some cfg =>
      match f (Copy cfg) with
      | Some (newcfg, true) => ChangeConfigTo fuel newcfg
      | _ => Fatal
      end
  end.

Definition join (fuel : nat) (gid : Z) (srvs : list string) : Prog unit :=
  reconfigure fuel (fun newcfg => JoinBalance newcfg [(gid, srvs)]).

Definition leave (fuel : nat) (gid : Z) : Prog unit :=
  reconfigure fuel (fun newcfg => LeaveBalance newcfg [gid]).

Definition checkMember (gid : Z) : Prog bool :=
  cfg ← Query;
  match cfg with None => Fatal | Some cfg => Ret (IsMember cfg gid) end.

(** setupKVService: the first configuration, with one group, is stored
    before anything else runs. *)
Definition first_config : option ShardConfig :=
  match JoinBalance MakeShardConfig [(Gid1, GroupServers Gid1)] with Some (c, true) => Some c | _ => None end.

Definition setupKVService (fuel : nat) : Prog unit :=
  match first_config with None => Fatal | Some scfg => InitConfig fuel scfg end.

(** ** Runs

    Controller [i] performs its next operation; a request to a group is
    executed again, or late; a client writes to the group with servers
    [srvs]; a driver adds or removes a group; a controller restarts, with the
    two reads of InitController still to come. *)
Inductive Event : Type :=
| DRun (i : nat) (o : Delivery)
| DLate (n : nat)
| DPut (srvs : list string) (a : PutArgs)
| DJoin (fuel : nat) (gid : Z)
| DLeave (fuel : nat) (gid : Z)
| DRecover (fuel : nat).

Definition spawn (s : Sys) (p : Prog unit) : Sys := MkSys (sy_kv s) (sy_groups s) (sy_issued s) (sy_pool s ++ [p]).

Definition drive (s : Sys) (e : Event) : Sys :=
  match e with
  | DRun i o => sys_step s (Run i o)
  | DLate n => sys_step s (LateRpc n)
  | DPut srvs a => sys_step s (ClientPut srvs a)
  | DJoin fuel gid => spawn s (join fuel gid (GroupServers gid))
  | DLeave fuel gid => spawn s (leave fuel gid)
  | DRecover fuel => sys_step s (StartInit fuel)
  end.

Definition drives (s : Sys) (evs : list Event) : Sys := foldl drive s evs.

(** The Puts that a group took, with their replies, in order. *)
Definition taken (s : Sys) (e : Event) : list (PutArgs * PutReply) :=
  match e with
  | DPut srvs a =>
      match snd (grp_exec (sy_groups s) srvs (RPut a)) with
      | Some (PPut r) => if Err_eqb (PutReply_Err r) ErrWrongGroup then [] else [(a, r)]
      | _ => []
      end
  | _ => []
  end.

Fixpoint accepted (s : Sys) (evs : list Event) : list (PutArgs * PutReply) :=
  match evs with
  | [] => []
  | e :: evs => taken s e ++ accepted (drive s e) evs
  end.

(** ** Recoveries and changes

    InitController reads the current and the pending configuration with two
    Gets, and other controllers go on in between.  For each controller that
    restarts, the mark says whether its first Get is still to come, or which
    number the configuration had that it read. *)
Inductive Reading : Type := Unread | ReadNum (num : option Z).

Definition track (s : Sys) (m : gmap nat Reading) (e : Event) : gmap nat Reading :=
  match e with
  | DRecover _ => <[length (sy_pool s) := Unread]> m
  | DRun i _ =>
      match m !! i with
      | Some Unread => <[i := ReadNum (stored_num (sy_kv s) configKey)]> m
      | Some (ReadNum _) => delete i m
      | None => m
      end
  | _ => m
  end.

(** At the second Get of a recovery the pending configuration is at most the
    successor of the one that the first Get returned. *)
Definition in_time (s : Sys) (m : gmap nat Reading) (e : Event) : bool :=
  match e with
  | DRun i _ =>
      match m !! i, stored_num (sy_kv s) pendingConfigKey with
      | Some (ReadNum (Some c)), Some p => p <=? c + 1
      | _, _ => true
      end
  | _ => true
  end.

(** A run in which this holds of every recovery: no controller completes the
    change that a recovery has found and claims the next one before the
    recovery has made its second Get.  What happens otherwise is
    [stale_recovery_loses_data]. *)
Fixpoint timely_recoveries (s : Sys) (m : gmap nat Reading) (evs : list Event) : bool :=
  match evs with
  | [] => true
  | e :: evs => in_time s m e && timely_recoveries (drive s e) (track s m e) evs
  end.

(** The groups of the test, none with shards but the first, and the store
    with the first configuration. *)
Definition fresh_groups (gids : list Z) : GroupMap := list_to_map ((fun g => (GroupServers g, initShards g)) <$> gids).

Definition fresh_service (c : ShardConfig) (gids : list Z) : Sys := MkSys (initial_kv c) (fresh_groups gids) [] [].

(** ** The next configuration *)

(** The servers of a group are those the tester has given it. *)
Definition groups_named (c : ShardConfig) : Prop := map_Forall (fun g srvs => srvs = GroupServers g) (Groups c).

Record next_config (c c' : ShardConfig) : Prop := {
  nx_num : Num c' = Num c + 1;
  nx_wf : cfg_wf c';
  nx_named : groups_named c';
  nx_complete : Groups c' = ∅ \/ complete c';
}.

Lemma rebalanced_next c c1 c' : Num c1 = Num c + 1 -> cfg_wf c1 -> groups_named c1 ->
  Rebalance c1 = Some c' -> next_config c c'.
Proof.
  intros Hn Hwf Hg Hr. destruct (Rebalance_ok c1 Hwf) as (c2 & Hr' & Hn' & HG & Hwf' & Hor).
  rewrite Hr in Hr'. injection Hr' as <-. constructor; auto; [lia|unfold groups_named; by rewrite HG|].
  rewrite HG. destruct Hor as [[? _]|[? _]]; auto.
Qed.

(** A join computes a next configuration, *)
Lemma join_next c gid c' : cfg_wf c -> groups_named c ->
  JoinBalance c [(gid, GroupServers gid)] = Some (c', true) -> next_config c c'.
Proof.
  intros Hwf Hg. unfold JoinBalance, Join. simpl. destruct (Groups c !! gid) eqn:Hgid; simpl; [done|].
  destruct (server_clash _ _); simpl; [done|]. intros Hr. destruct (Rebalance _) as [c2|] eqn:Hreb; simplify_eq/=.
  eapply rebalanced_next; [| | |exact Hreb]; simpl; auto. by apply map_Forall_insert_2.
Qed.

(** and so does a leave. *)
Lemma leave_next c gid c' : cfg_wf c -> groups_named c ->
  LeaveBalance c [gid] = Some (c', true) -> next_config c c'.
Proof.
  intros Hwf Hg. unfold LeaveBalance, Leave. simpl. destruct (Groups c !! gid) eqn:Hgid; simpl; [|done].
  intros Hr. destruct (Rebalance _) as [c2|] eqn:Hreb; simplify_eq/=.
  eapply rebalanced_next; [| | |exact Hreb]; simpl; auto. by apply map_Forall_delete.
Qed.

(** The first configuration has number 1 and all shards at the first group. *)
Lemma first_config_eq : first_config = Some (MkShardConfig NumFirst (replicate NShards Gid1) {[Gid1 := GroupServers Gid1]}).
Proof. vm_compute. reflexivity. Qed.

(** The groups of a fresh service have the initial shards. *)
Lemma fresh_lookup gids g : fresh_groups gids !! GroupServers g = if decide (g ∈ gids) then Some (initShards g) else None.
Proof.
  unfold fresh_groups. induction gids as [|g0 gids IH]; [done|]. rewrite fmap_cons, list_to_map_cons.
  destruct (decide (g = g0)) as [->|Hne]; [rewrite lookup_insert_eq; by rewrite decide_True by left|].
  rewrite lookup_insert_ne by (intros ?%(inj GroupServers); congruence). rewrite IH.
  destruct (decide (g ∈ gids)); [by rewrite decide_True by (by right)|]. rewrite decide_False; [done|]. rewrite elem_of_cons. naive_solver.
Qed.

Lemma fresh_shape gids srvs kv : fresh_groups gids !! srvs = Some kv -> exists g, srvs = GroupServers g /\ kv = initShards g.
Proof.
  unfold fresh_groups. intros Hkv%elem_of_list_to_map_2. apply list_elem_of_fmap in Hkv as (g & [= -> ->] & _). by exists g.
Qed.

End Driver.
