(* ===== verification/Reshard.v ===== *)
(** * Resharding under concurrency

    The controllers of ShardCtrler.v, driven as in ShardTest.v, carry out the
    protocol of Migration.v: whatever number of controllers join, leave and
    recover at once, with answers lost and requests late, the sharded
    service is one store of kvsrv1.

    The proof has three parts.  A [World] is the history of a run: the
    configurations that were ever claimed, in order, how many of them are
    published, and for each shard the state of its migration.  [safe W p]
    says of a controller program that it only sends what the world allows;
    it is proved of join, leave and completeChange from the answers they
    get.  [sys_ok] ties the world to the state of the system, and every event
    preserves it. *)

From stdpp Require Import functions.
From S2P Require Import Prelude Rpc KvSrv KvClerk TestGroup ShardCfg ShardGrp Migration ShardCtrler ShardTest.

(** The group that configuration [k] gives shard [s] to. *)
Definition own (cf : nat -> ShardConfig) (s : Z) (k : nat) : Z := default 0 (get (Shards (cf k)) s).

(** How often shard [s] has changed groups up to configuration [k]. *)
Fixpoint hops (cf : nat -> ShardConfig) (s : Z) (k : nat) : nat :=
  match k with
  | O => O
  | S k => if own cf s (S k) =? own cf s k then hops cf s k else S (hops cf s k)
  end.

Definition is_shard (s : Z) : Prop := 0 <= s < Z.of_nat NShards.

Section Reshard.
Context `{CJ : ConfigJson} `{GK : Gob KVServer}.

(** ** Worlds *)

Record World : Type := MkWorld {
  w_cfg : nat -> ShardConfig;   (* the configurations claimed *)
  w_last : nat;                 (* the pending one *)
  w_pub : nat;                  (* the published one *)
  w_mig : Z -> Mig;             (* the migration of each shard *)
}.

(** A configuration that a controller can carry out. *)
Record usable (c : ShardConfig) : Prop := {
  us_wf : cfg_wf c;
  us_named : groups_named c;
  us_complete : complete c;
  us_no_zero : Groups c !! 0 = None;
}.

Record world_ok (W : World) : Prop := {
  wo_num : forall k, (k <= w_last W)%nat -> Num (w_cfg W k) = Num (w_cfg W 0) + Z.of_nat k;
  wo_pos : 0 < Num (w_cfg W 0);
  wo_usable : forall k, (k <= w_last W)%nat -> usable (w_cfg W k);
  wo_pub : (w_pub W <= w_last W <= S (w_pub W))%nat;
}.

(** Shard [s] moves in the change from configuration [k] to [k + 1]. *)
Definition moves (W : World) (s : Z) (k : nat) : Prop :=
  is_shard s /\ (S k <= w_last W)%nat /\ own (w_cfg W) s (S k) <> own (w_cfg W) s k.

Definition was_frozen (W : World) (s : Z) (k : nat) (st : bytes) : Prop :=
  st ∈ freezes (w_mig W s) (S (hops (w_cfg W) s k)).
Definition was_installed (W : World) (s : Z) (k : nat) : Prop :=
  installed (w_mig W s) (S (hops (w_cfg W) s k)) = true.
Definition was_deleted (W : World) (s : Z) (k : nat) : Prop :=
  deleted (w_mig W s) (S (hops (w_cfg W) s k)) = true.

(** [W'] is a later world: history is only added to. *)
Record later (W W' : World) : Prop := {
  lt_ok : world_ok W';
  lt_last : (w_last W <= w_last W')%nat;
  lt_cfg : forall k, (k <= w_last W)%nat -> w_cfg W' k = w_cfg W k;
  lt_pub : (w_pub W <= w_pub W')%nat;
  lt_frozen : forall s j st, st ∈ freezes (w_mig W s) j -> st ∈ freezes (w_mig W' s) j;
  lt_installed : forall s j, installed (w_mig W s) j = true -> installed (w_mig W' s) j = true;
  lt_deleted : forall s j, deleted (w_mig W s) j = true -> deleted (w_mig W' s) j = true;
}.

Lemma later_refl W : world_ok W -> later W W.
Proof. intros. by constructor. Qed.

Lemma later_trans W1 W2 W3 : later W1 W2 -> later W2 W3 -> later W1 W3.
Proof.
  intros [] []. constructor; auto; try lia. intros k Hk. rewrite lt_cfg1 by lia. auto.
Qed.

Lemma own_ext cf cf' s k : cf' k = cf k -> own cf' s k = own cf s k.
Proof. unfold own. by intros ->. Qed.

Lemma hops_ext cf cf' s k : (forall i, (i <= k)%nat -> cf' i = cf i) -> hops cf' s k = hops cf s k.
Proof.
  induction k as [|k IH]; intros E; [done|]. cbn [hops].
  rewrite !(own_ext cf cf') by (apply E; lia). rewrite IH; [done|]. intros i Hi. apply E. lia.
Qed.

(** Moves and what is known of them stay. *)
Lemma own_later W W' s k : later W W' -> (k <= w_last W)%nat -> own (w_cfg W') s k = own (w_cfg W) s k.
Proof. intros H Hk. by apply own_ext, (lt_cfg _ _ H). Qed.

Lemma hops_later W W' s k : later W W' -> (k <= w_last W)%nat -> hops (w_cfg W') s k = hops (w_cfg W) s k.
Proof. intros H Hk. apply hops_ext. intros i Hi. apply (lt_cfg _ _ H). lia. Qed.

Lemma moves_later W W' s k : later W W' -> moves W s k -> moves W' s k.
Proof.
  intros H (Hs & Hk & Hne). pose proof (lt_last _ _ H). split_and!; auto; [lia|].
  by rewrite !(own_later W W') by (auto with lia).
Qed.

Lemma moves_earlier W W' s k : later W W' -> (S k <= w_last W)%nat -> moves W' s k -> moves W s k.
Proof. intros H Hk (Hs & _ & Hne). split_and!; auto. by rewrite !(own_later W W') in Hne by (auto with lia). Qed.

Lemma was_frozen_later W W' s k st : later W W' -> (k <= w_last W)%nat -> was_frozen W s k st -> was_frozen W' s k st.
Proof. intros H Hk. unfold was_frozen. rewrite (hops_later W W') by done. apply (lt_frozen _ _ H). Qed.

Lemma was_installed_later W W' s k : later W W' -> (k <= w_last W)%nat -> was_installed W s k -> was_installed W' s k.
Proof. intros H Hk. unfold was_installed. rewrite (hops_later W W') by done. apply (lt_installed _ _ H). Qed.

Lemma was_deleted_later W W' s k : later W W' -> (k <= w_last W)%nat -> was_deleted W s k -> was_deleted W' s k.
Proof. intros H Hk. unfold was_deleted. rewrite (hops_later W W') by done. apply (lt_deleted _ _ H). Qed.

(** Configurations are told apart by their numbers. *)
Lemma num_index W j k : world_ok W -> (j <= w_last W)%nat -> (k <= w_last W)%nat -> Num (w_cfg W j) = Num (w_cfg W k) -> j = k.
Proof. intros Hok Hj Hk. rewrite (wo_num _ Hok j Hj), (wo_num _ Hok k Hk). lia. Qed.

Lemma num_diff W j k : world_ok W -> (j <= w_last W)%nat -> (k <= w_last W)%nat ->
  Num (w_cfg W k) - Num (w_cfg W j) = Z.of_nat k - Z.of_nat j.
Proof. intros Hok Hj Hk. rewrite (wo_num _ Hok j Hj), (wo_num _ Hok k Hk). lia. Qed.

Lemma own_get W s k : world_ok W -> is_shard s -> (k <= w_last W)%nat ->
  get (Shards (w_cfg W k)) s = Some (own (w_cfg W) s k) /\
  own (w_cfg W) s k <> 0 /\ Groups (w_cfg W k) !! own (w_cfg W) s k = Some (GroupServers (own (w_cfg W) s k)).
Proof.
  intros Hok Hs Hk. destruct (wo_usable _ Hok k Hk) as [Hwf Hn Hc H0]. unfold cfg_wf in Hwf.
  destruct (get_in_range (Shards (w_cfg W k)) s) as [g Hg]; [rewrite Hwf; exact Hs|].
  assert (own (w_cfg W) s k = g) as Hown by (unfold own; by rewrite Hg). rewrite Hown. split; [done|].
  apply get_Some in Hg as [_ Hg]. pose proof (Forall_lookup_1 _ _ _ _ Hc Hg) as [srvs Hsrvs]. split; [congruence|].
  rewrite Hsrvs. f_equal. exact (Hn _ _ Hsrvs).
Qed.

(** The clerk of the old and of the new group of a shard that moves. *)
Lemma clerkFor_own W k j s : world_ok W -> is_shard s -> (S k <= w_last W)%nat -> (j = k \/ j = S k) ->
  clerkFor (w_cfg W k) (w_cfg W (S k)) (own (w_cfg W) s j) = Some (GroupServers (own (w_cfg W) s j)).
Proof.
  intros Hok Hs Hk Hj. destruct (own_get W s j Hok Hs) as (_ & H0 & Hg); [lia|]. unfold clerkFor.
  rewrite (proj2 (Z.eqb_neq _ _) H0). destruct (Groups (w_cfg W k) !! own (w_cfg W) s j) as [srvs|] eqn:Hold; cbn [default].
  - rewrite (us_named _ (wo_usable _ Hok k ltac:(lia)) _ _ Hold). done.
  - destruct Hj as [-> | ->]; [congruence|]. by rewrite Hg.
Qed.

(** ** What the world allows *)

Definition may_freeze (W : World) (srvs : list string) (s num : Z) : Prop :=
  exists k, moves W s k /\ srvs = GroupServers (own (w_cfg W) s k) /\ num = Num (w_cfg W (S k)).

Definition may_install (W : World) (srvs : list string) (s : Z) (st : bytes) (num : Z) : Prop :=
  exists k, moves W s k /\ srvs = GroupServers (own (w_cfg W) s (S k)) /\ num = Num (w_cfg W (S k)) /\ was_frozen W s k st.

Definition may_delete (W : World) (srvs : list string) (s num : Z) : Prop :=
  exists k, moves W s k /\ srvs = GroupServers (own (w_cfg W) s k) /\ num = Num (w_cfg W (S k)) /\ was_installed W s k.

Definition may_send (W : World) (r : list string * GrpReq) : Prop :=
  match snd r with
  | RFreeze a => may_freeze W (fst r) (fz_Shard a) (fz_Num a)
  | RInstall a => may_install W (fst r) (in_Shard a) (in_State a) (in_Num a)
  | RDelete a => may_delete W (fst r) (dl_Shard a) (dl_Num a)
  | _ => False
  end.

(** The moves to configuration [k + 1] are over. *)
Definition moved (W : World) (k : nat) : Prop := forall s, moves W s k -> was_deleted W s k.

(** A finished configuration may replace an earlier one as the current one;
    a successor of a published configuration may replace an earlier one as
    the pending one. *)
Definition may_publish (W : World) (v : string) (ver : Tversion) : Prop :=
  exists k j, (S k <= w_last W)%nat /\ v = String_ (w_cfg W (S k)) /\ moved W k /\ ver = Z.of_nat j + 1 /\ (j <= k)%nat.

Definition may_claim (W : World) (v : string) (ver : Tversion) : Prop :=
  exists c j p, v = String_ c /\ (j <= w_pub W)%nat /\ next_config (w_cfg W j) c /\ ver = Z.of_nat p /\ (p <= j)%nat.

Definition may_put (W : World) (key v : string) (ver : Tversion) : Prop :=
  key = configKey /\ may_publish W v ver \/ key = pendingConfigKey /\ may_claim W v ver.

(** What a Get of a configuration key answers, and what the answers of the
    other operations show. *)
Definition got (W : World) (key : string) (r : string * Tversion * Err) : Prop :=
  (key = configKey -> r = (String_ (w_cfg W (w_pub W)), Z.of_nat (w_pub W) + 1, OK)) /\
  (key = pendingConfigKey ->
    w_last W = O /\ snd r = ErrNoKey \/ r = (String_ (w_cfg W (w_last W)), Z.of_nat (w_last W), OK)).

Definition claimed (W : World) (key v : string) (ver : Tversion) (e : Err) : Prop :=
  e = OK -> key = pendingConfigKey -> exists p, ver = Z.of_nat p /\ (S p <= w_last W)%nat /\ v = String_ (w_cfg W (S p)).

Definition freeze_shown (W : World) (s num : Z) (r : bytes * Err) : Prop :=
  snd r = OK -> forall k, moves W s k -> num = Num (w_cfg W (S k)) -> was_frozen W s k (fst r).
Definition install_shown (W : World) (s num : Z) (e : Err) : Prop :=
  e = OK -> forall k, moves W s k -> num = Num (w_cfg W (S k)) -> was_installed W s k.
Definition delete_shown (W : World) (s num : Z) (e : Err) : Prop :=
  e = OK -> forall k, moves W s k -> num = Num (w_cfg W (S k)) -> was_deleted W s k.

(** Permissions stay. *)
Lemma may_send_later W W' r : later W W' -> may_send W r -> may_send W' r.
Proof.
  intros H. pose proof (moves_later W W') as Hm. destruct r as [srvs [| |a|a|a|]]; unfold may_send; cbn [fst snd]; try done.
  - intros (k & Hk & -> & ->). pose proof Hk as (_ & Hl & _). exists k. rewrite (own_later W W'), (lt_cfg _ _ H) by (auto with lia). auto.
  - intros (k & Hk & -> & -> & Hf). pose proof Hk as (_ & Hl & _). exists k. rewrite (own_later W W'), (lt_cfg _ _ H) by (auto with lia).
    split_and!; auto. apply (was_frozen_later W); auto with lia.
  - intros (k & Hk & -> & -> & Hf). pose proof Hk as (_ & Hl & _). exists k. rewrite (own_later W W'), (lt_cfg _ _ H) by (auto with lia).
    split_and!; auto. apply (was_installed_later W); auto with lia.
Qed.

Lemma moved_later W W' k : later W W' -> (S k <= w_last W)%nat -> moved W k -> moved W' k.
Proof. intros H Hk Hm s Hs. apply (was_deleted_later W); auto with lia. apply Hm. by apply (moves_earlier W W'). Qed.

Lemma may_put_later W W' key v ver : world_ok W -> later W W' -> may_put W key v ver -> may_put W' key v ver.
Proof.
  intros Hok H. pose proof (lt_last _ _ H). pose proof (lt_pub _ _ H). pose proof (wo_pub _ Hok).
  intros [[-> (k & j & Hk & -> & Hm & Hj)]|[-> (c & j & p & -> & Hj & Hn & Hp)]]; [left|right]; (split; [done|]).
  - exists k, j. rewrite (lt_cfg _ _ H) by lia. split_and!; auto; [lia|by apply (moved_later W)|apply Hj..].
  - exists c, j, p. rewrite (lt_cfg _ _ H) by lia. split_and!; auto; [lia|apply Hp..].
Qed.

(** ** Safe programs

    [safe W p Q]: in world [W] and whatever happens later, [p] sends only
    what is allowed, and [Q] holds of the world and the result at its end. *)
Fixpoint safe {R} (W : World) (p : Prog R) (Q : World -> R -> Prop) : Prop :=
  match p with
  | Ret r => Q W r
  | Fatal | Spin => True
  | OpGet key k => forall W' r, later W W' -> got W' key r -> safe W' (k r) Q
  | OpPut key v ver k =>
      may_put W key v ver /\ forall W' e, later W W' -> claimed W' key v ver e -> safe W' (k e) Q
  | OpFreeze srvs s num k =>
      may_freeze W srvs s num /\ forall W' r, later W W' -> freeze_shown W' s num r -> safe W' (k r) Q
  | OpInstall srvs s st num k =>
      may_install W srvs s st num /\ forall W' e, later W W' -> install_shown W' s num e -> safe W' (k e) Q
  | OpDelete srvs s num k =>
      may_delete W srvs s num /\ forall W' e, later W W' -> delete_shown W' s num e -> safe W' (k e) Q
  end.

Definition stable {R} (Q : World -> R -> Prop) : Prop := forall W W' r, later W W' -> Q W r -> Q W' r.

Lemma safe_later {R} W W' (p : Prog R) Q : stable Q -> world_ok W -> later W W' -> safe W p Q -> safe W' p Q.
Proof.
  intros HQ Hok H. pose proof (fun W2 => later_trans W W' W2 H) as Ht. pose proof (may_send_later W W') as Hs.
  destruct p; simpl; auto.
  - by apply HQ.
  - intros [Hp Hk]. split; [by apply (may_put_later W W')|auto].
  - intros [Hp Hk]. split; [exact (Hs (srvs, RFreeze (MkFreezeShardArgs s num)) H Hp)|auto].
  - intros [Hp Hk]. split; [exact (Hs (srvs, RInstall (MkInstallShardArgs s st num)) H Hp)|auto].
  - intros [Hp Hk]. split; [exact (Hs (srvs, RDelete (MkDeleteShardArgs s num)) H Hp)|auto].
Qed.

Lemma safe_mono {R} W (p : Prog R) (Q Q' : World -> R -> Prop) : world_ok W ->
  (forall W' r, later W W' -> Q W' r -> Q' W' r) -> safe W p Q -> safe W p Q'.
Proof.
  revert W. induction p as [r| | |key k IH|key v ver k IH|srvs s num k IH|srvs s st num k IH|srvs s num k IH]; intros W Hok HQ; simpl; auto.
  - apply HQ, later_refl, Hok.
  - intros Hk W' r Hl Hr. apply (IH r); eauto using lt_ok, later_trans.
  - intros [Hp Hk]. split; [done|]. intros W' r Hl Hr. apply (IH r); eauto using lt_ok, later_trans.
  - intros [Hp Hk]. split; [done|]. intros W' r Hl Hr. apply (IH r); eauto using lt_ok, later_trans.
  - intros [Hp Hk]. split; [done|]. intros W' r Hl Hr. apply (IH r); eauto using lt_ok, later_trans.
  - intros [Hp Hk]. split; [done|]. intros W' r Hl Hr. apply (IH r); eauto using lt_ok, later_trans.
Qed.

Lemma safe_bind {A B} W (p : Prog A) (f : A -> Prog B) Q :
  safe W p (fun W' a => safe W' (f a) Q) -> safe W (a ← p; f a) Q.
Proof.
  revert W. induction p; intros W; simpl; auto; try (intros [? ?]; split; auto).
Qed.

(** The rule for a sequence. *)
Lemma safe_seq {A B} W (p : Prog A) (f : A -> Prog B) Q1 Q : world_ok W ->
  safe W p Q1 -> (forall W' a, later W W' -> Q1 W' a -> safe W' (f a) Q) -> safe W (a ← p; f a) Q.
Proof. intros Hok Hp Hf. apply safe_bind. by eapply safe_mono. Qed.

Lemma safe_retry {A} W n (f : Prog (option A)) (Q : World -> A -> Prop) : world_ok W ->
  (forall W', later W W' -> safe W' f (fun W2 r => forall a, r = Some a -> Q W2 a)) ->
  safe W (retry n f) (fun W2 r => forall a, r = Some a -> Q W2 a).
Proof.
  revert W. induction n as [|n IH]; intros W Hok Hf; cbn [retry]; [done|].
  eapply safe_seq; [done|apply Hf, later_refl, Hok|]. intros W' [a|] Hl HQ; [done|]. apply IH; [by eapply lt_ok|].
  intros W2 Hl2. apply Hf. by eapply later_trans.
Qed.

Lemma safe_or_return {A} W (p : Prog (option A)) (f : A -> Prog bool) (P : World -> A -> Prop) (Q : World -> bool -> Prop) :
  world_ok W -> safe W p (fun W2 r => forall a, r = Some a -> P W2 a) ->
  (forall W' a, later W W' -> P W' a -> safe W' (f a) Q) -> (forall W', Q W' false) -> safe W (or_return p f) Q.
Proof.
  intros Hok Hp Hf HQ. eapply safe_seq; [done|exact Hp|]. intros W' [a|] Hl HP; [by apply Hf; [|apply HP]|apply HQ].
Qed.

(** ** The controller's methods are safe *)

Lemma String_inj c c' : String_ c = String_ c' -> c = c'.
Proof. intros E. pose proof (FromString_String c) as H. rewrite E, FromString_String in H. by injection H. Qed.

Definition any {R} : World -> R -> Prop := fun _ _ => True.

(** Query reads the published configuration. *)
Lemma safe_Query W (Q : World -> option ShardConfig -> Prop) :
  (forall W', later W W' -> Q W' (Some (w_cfg W' (w_pub W')))) -> safe W Query Q.
Proof.
  intros HQ W' r Hl [Hr _]. rewrite (Hr eq_refl). cbn. rewrite FromString_String. by apply HQ.
Qed.

(** The pending configuration is absent or the last one claimed. *)
Lemma safe_pending W (Q : World -> option ShardConfig * Tversion * Err -> Prop) :
  (forall W' ver, later W W' -> w_last W' = O -> Q W' (None, ver, ErrNoKey)) ->
  (forall W', later W W' -> Q W' (Some (w_cfg W' (w_last W')), Z.of_nat (w_last W'), OK)) ->
  safe W (configAtVersion pendingConfigKey) Q.
Proof.
  intros H1 H2 W' [[v ver] err] Hl [_ Hr]. destruct (Hr eq_refl) as [[Hlast He]|He]; simpl in *; simplify_eq.
  - by apply H1.
  - cbn. rewrite FromString_String. by apply H2.
Qed.

(** A conditional Put and what follows its success and its failure. *)
Lemma safe_put_if {R} W key v ver (p q : Prog R) Q : may_put W key v ver ->
  (forall W', later W W' -> claimed W' key v ver OK -> safe W' p Q) -> (forall W', later W W' -> safe W' q Q) ->
  safe W (e ← do_put key v ver; if Err_eqb e OK then p else q) Q.
Proof.
  intros Hput Hp Hq. apply safe_bind. split; [done|]. intros W' e Hl He. cbn [safe].
  destruct (Err_eqb e OK) eqn:E; [apply Err_eqb_eq in E as ->; auto|auto].
Qed.

Lemma safe_postConfig fuel : forall W k, world_ok W -> (S k <= w_last W)%nat -> moved W k ->
  safe W (postConfig fuel (w_cfg W (S k))) any.
Proof.
  induction fuel as [|fuel IH]; intros W k Hok Hk Hm; cbn [postConfig]; [done|].
  apply safe_bind. intros W1 r Hl1 [Hr _]. rewrite (Hr eq_refl). cbn [safe]. cbv iota beta. change (Err_eqb OK ErrNoKey) with false. change (Err_eqb OK OK) with true.
  cbv iota. rewrite FromString_String. pose proof (lt_ok _ _ Hl1) as Hok1. pose proof (wo_pub _ Hok1). pose proof (lt_last _ _ Hl1).
  rewrite <-(lt_cfg _ _ Hl1 (S k)) by done.
  destruct (Z.geb_spec (Num (w_cfg W1 (w_pub W1))) (Num (w_cfg W1 (S k)))) as [|Hlt]; [done|].
  pose proof (num_diff W1 (w_pub W1) (S k) Hok1). apply safe_put_if; [|done|].
  - left. split; [done|]. exists k, (w_pub W1). split_and!; auto; [lia|by apply (moved_later W)|lia].
  - intros W2 Hl2. pose proof (later_trans _ _ _ Hl1 Hl2) as Hl.
    rewrite (lt_cfg _ _ Hl1), <-(lt_cfg _ _ Hl) by done. pose proof (lt_last _ _ Hl).
    apply IH; [by eapply lt_ok|lia|by apply (moved_later W)].
Qed.

(** A claim that succeeds has made [new] the successor of [current]. *)
Definition claim_post (j : nat) (new : ShardConfig) (W : World) (b : bool) : Prop :=
  b = true -> (S j <= w_last W)%nat /\ w_cfg W (S j) = new.

(** The Put of claimPendingConfig at the version that was read. *)
Lemma safe_claim_put W j p new q : world_ok W -> (j <= w_pub W)%nat -> next_config (w_cfg W j) new -> (p <= j)%nat ->
  (forall W', later W W' -> safe W' q (claim_post j new)) ->
  safe W (e ← do_put pendingConfigKey (String_ new) (Z.of_nat p); if Err_eqb e OK then Ret true else q) (claim_post j new).
Proof.
  intros Hok Hj Hn Hp Hq. apply safe_put_if; [right; split; [done|]; by exists new, j, p| |done]. intros W' Hl He.
  destruct (He eq_refl eq_refl) as (p' & Ep & Hlast & Hc%String_inj). assert (p' = p) as -> by lia. simpl. intros _.
  assert (p = j) as ->; [|done].
  pose proof (nx_num _ _ Hn) as Hnum. pose proof (lt_ok _ _ Hl) as Hok'. pose proof (wo_pub _ Hok). pose proof (lt_last _ _ Hl).
  rewrite Hc, <-(lt_cfg _ _ Hl j) in Hnum by lia. pose proof (num_diff W' j (S p) Hok'). lia.
Qed.

Lemma safe_claimPendingConfig fuel : forall W j new, world_ok W -> (j <= w_pub W)%nat -> next_config (w_cfg W j) new ->
  safe W (claimPendingConfig fuel (w_cfg W j) new) (claim_post j new).
Proof.
  induction fuel as [|fuel IH]; intros W j new Hok Hj Hn; cbn [claimPendingConfig]; [done|].
  pose proof (wo_pub _ Hok) as Hpub.
  assert (forall W', later W W' -> w_cfg W' j = w_cfg W j /\ (j <= w_pub W')%nat /\ (j <= w_last W')%nat /\ world_ok W') as Hlater.
  { intros W' Hl. pose proof (lt_pub _ _ Hl). pose proof (lt_last _ _ Hl). split_and!; [apply (lt_cfg _ _ Hl)|..|by eapply lt_ok]; lia. }
  assert (forall W1, later W W1 -> forall W2, later W1 W2 ->
    safe W2 (claimPendingConfig fuel (w_cfg W j) new) (claim_post j new)) as Hagain.
  { intros W1 Hl1 W2 Hl2. destruct (Hlater W2 (later_trans _ _ _ Hl1 Hl2)) as (E & ? & ? & ?). rewrite <-E. apply IH; [done|done|by rewrite E]. }
  apply safe_bind, safe_pending.
  - intros W1 ver Hl1 H0. destruct (Hlater W1 Hl1) as (E & ? & ? & ?). cbn.
    apply (safe_claim_put W1 j 0 new); auto; [by rewrite E|lia|by apply Hagain].
  - intros W1 Hl1. destruct (Hlater W1 Hl1) as (E & Hj1 & Hj2 & Hok1). change (Err_eqb OK ErrNoKey) with false. change (Err_eqb OK OK) with true.
    cbv iota. pose proof (nx_num _ _ Hn) as Hnum. destruct (_ && _) eqn:Hsame.
    + apply andb_true_iff in Hsame as [_ Hs%String.eqb_eq%String_inj]. simpl. intros _. rewrite <-Hs, <-E in Hnum.
      pose proof (num_diff W1 j (w_last W1) Hok1). assert (w_last W1 = S j) as <- by lia. done.
    + destruct (Z.gtb_spec (Num (w_cfg W1 (w_last W1))) (Num (w_cfg W j))) as [|Hle]; [done|].
      rewrite <-E in Hle. pose proof (num_diff W1 j (w_last W1) Hok1).
      apply (safe_claim_put W1 j (w_last W1) new); auto; [by rewrite E|lia|by apply Hagain].
Qed.

(** The move of one shard, step by step. *)
Section Move.
Variables (W0 : World) (s : Z) (k : nat).
Hypothesis (Hmv : moves W0 s k).
Local Abbreviation num := (Num (w_cfg W0 (S k))).
Local Abbreviation src := (GroupServers (own (w_cfg W0) s k)).
Local Abbreviation dst := (GroupServers (own (w_cfg W0) s (S k))).

Lemma move_known W : later W0 W -> moves W s k /\ num = Num (w_cfg W (S k)) /\
  own (w_cfg W) s k = own (w_cfg W0) s k /\ own (w_cfg W) s (S k) = own (w_cfg W0) s (S k).
Proof.
  intros Hl. pose proof Hmv as (_ & Hk & _). rewrite (lt_cfg _ _ Hl) by done. split_and!; auto; [by apply (moves_later W0)|..];
    apply (own_later W0); auto with lia.
Qed.

Lemma safe_freeze_source W : later W0 W ->
  safe W (freeze_source (Some src) s num) (fun W2 r => forall st, r = Some st -> was_frozen W2 s k st).
Proof.
  intros Hl0. apply safe_retry; [by eapply lt_ok|]. intros W1 Hl1. destruct (move_known W1 (later_trans _ _ _ Hl0 Hl1)) as (? & ? & E & _).
  split; [exists k; by rewrite E|]. intros W2 [st err] Hl2 Hr.
  destruct (move_known W2 (later_trans _ _ _ (later_trans _ _ _ Hl0 Hl1) Hl2)) as (? & ? & _). simpl.
  destruct (Err_eqb err OK) eqn:He; simpl; [|done]. intros st' [= <-]. apply Err_eqb_eq in He. by apply Hr.
Qed.

Lemma safe_install_destination W st : later W0 W -> was_frozen W s k st ->
  safe W (install_destination (Some dst) s st num) (fun W2 r => forall a, r = Some a -> was_installed W2 s k).
Proof.
  intros Hl0 Hst. apply safe_retry; [by eapply lt_ok|]. intros W1 Hl1. destruct (move_known W1 (later_trans _ _ _ Hl0 Hl1)) as (Hm1 & ? & _ & E).
  pose proof Hmv as (_ & Hk & _). pose proof (lt_last _ _ Hl0).
  split; [exists k; rewrite E; split_and!; auto; apply (was_frozen_later W); auto with lia|]. intros W2 err Hl2 Hr.
  destruct (move_known W2 (later_trans _ _ _ (later_trans _ _ _ Hl0 Hl1) Hl2)) as (? & ? & _). simpl.
  destruct (Err_eqb err OK) eqn:He; simpl; [|done]. intros a [= <-]. apply Err_eqb_eq in He. by apply Hr.
Qed.

Lemma safe_delete_source W : later W0 W -> was_installed W s k ->
  safe W (delete_source (Some src) s num) (fun W2 r => forall a, r = Some a -> was_deleted W2 s k).
Proof.
  intros Hl0 Hst. apply safe_retry; [by eapply lt_ok|]. intros W1 Hl1. destruct (move_known W1 (later_trans _ _ _ Hl0 Hl1)) as (Hm1 & ? & E & _).
  pose proof Hmv as (_ & Hk & _). pose proof (lt_last _ _ Hl0).
  split; [exists k; rewrite E; split_and!; auto; apply (was_installed_later W); auto with lia|]. intros W2 err Hl2 Hr.
  destruct (move_known W2 (later_trans _ _ _ (later_trans _ _ _ Hl0 Hl1) Hl2)) as (? & ? & _). simpl.
  destruct (Err_eqb err OK) eqn:He; simpl; [|done]. intros a [= <-]. apply Err_eqb_eq in He. by apply Hr.
Qed.
End Move.

Definition shard_moved (s : Z) (k : nat) (W : World) (b : bool) : Prop := b = true -> moves W s k -> was_deleted W s k.

Lemma safe_move_shard W s k : world_ok W -> is_shard s -> (S k <= w_last W)%nat ->
  safe W (move_shard (w_cfg W k) (w_cfg W (S k)) s) (shard_moved s k).
Proof.
  intros Hok Hs Hk. unfold move_shard.
  destruct (own_get W s k) as (-> & _); [auto with lia..|]. destruct (own_get W s (S k)) as (-> & _); [auto with lia..|].
  destruct (Z.eqb_spec (own (w_cfg W) s k) (own (w_cfg W) s (S k))) as [E|Hne].
  { intros _ (_ & _ & Hne). by destruct Hne. }
  assert (moves W s k) as Hmv by (split_and!; auto). rewrite !clerkFor_own by auto. cbv zeta.
  eapply safe_or_return; [done|apply (safe_freeze_source W s k Hmv W), later_refl, Hok| |done]. intros W1 st Hl1 Hst.
  eapply safe_or_return; [by eapply lt_ok|by apply (safe_install_destination W s k Hmv W1 st)| |done]. intros W2 u Hl2 Hin.
  pose proof (later_trans _ _ _ Hl1 Hl2) as Hl.
  eapply safe_or_return; [by eapply lt_ok|by apply (safe_delete_source W s k Hmv W2)| |done]. intros W3 u3 Hl3 Hd _ _. exact Hd.
Qed.

Lemma safe_move_shards W k ss : world_ok W -> Forall is_shard ss -> (S k <= w_last W)%nat ->
  safe W (move_shards (w_cfg W k) (w_cfg W (S k)) ss) (fun W' b => Forall (fun s => shard_moved s k W' b) ss).
Proof.
  revert W. induction ss as [|s ss IH]; intros W Hok Hss Hk; cbn [move_shards]; [by constructor|].
  apply Forall_cons in Hss as [Hs Hss]. eapply safe_seq; [done|by apply safe_move_shard|]. intros W1 b Hl1 Hb.
  pose proof (lt_last _ _ Hl1) as Hlast. destruct b; [|simpl; by apply Forall_true].
  rewrite <-!(lt_cfg _ _ Hl1) by lia. eapply safe_mono; [by eapply lt_ok| |apply IH; auto; [by eapply lt_ok|lia]].
  intros W2 b Hl2 Hrest. constructor; [|done]. intros _ Hm. apply (was_deleted_later W1); auto; [lia|].
  apply Hb; [done|]. apply (moves_earlier W1 W2); auto. lia.
Qed.

Lemma safe_completeChange W fuel k : world_ok W -> (S k <= w_last W)%nat ->
  safe W (completeChange fuel (w_cfg W k) (w_cfg W (S k))) any.
Proof.
  intros Hok Hk. eapply safe_seq; [done|apply safe_move_shards; auto|].
  - apply Forall_fmap, Forall_seq. unfold is_shard. simpl. lia.
  - intros W1 [] Hl1 Hm; [|done]. pose proof (lt_last _ _ Hl1). rewrite <-(lt_cfg _ _ Hl1) by done.
    apply safe_postConfig; [by eapply lt_ok|lia|]. intros s Hs. rewrite Forall_forall in Hm. apply (Hm s); auto.
    destruct Hs as [Hs _]. apply list_elem_of_fmap. exists (Z.to_nat s). unfold is_shard in Hs. split; [lia|]. apply elem_of_seq. lia.
Qed.

(** ChangeConfigTo is safe for a successor of a published configuration. *)
Lemma safe_ChangeConfigTo W fuel j new : world_ok W -> (j <= w_pub W)%nat -> next_config (w_cfg W j) new ->
  safe W (ChangeConfigTo fuel new) any.
Proof.
  intros Hok Hj Hn. apply safe_bind, safe_Query. intros W1 Hl1. pose proof (lt_ok _ _ Hl1) as Hok1.
  pose proof (lt_pub _ _ Hl1). pose proof (wo_pub _ Hok). pose proof (wo_pub _ Hok1).
  destruct (Z.leb_spec (Num new) (Num (w_cfg W1 (w_pub W1)))) as [|Hlt]; [done|].
  assert (w_pub W1 = j) as Ej.
  { rewrite (nx_num _ _ Hn), <-(lt_cfg _ _ Hl1 j) in Hlt by lia. pose proof (num_diff W1 j (w_pub W1) Hok1). lia. }
  rewrite Ej. rewrite <-(lt_cfg _ _ Hl1) in Hn by lia.
  eapply safe_seq; [done|apply safe_claimPendingConfig; auto; lia|]. intros W2 [] Hl2 Hc; [|done]. destruct (Hc eq_refl) as [Hk <-].
  rewrite <-(lt_cfg _ _ Hl2) by lia. apply safe_completeChange; [by eapply lt_ok|done].
Qed.

Lemma Copy_id c : Copy c = c.
Proof. by destruct c. Qed.

Lemma safe_reconfigure W fuel f : world_ok W ->
  (forall c c', cfg_wf c -> groups_named c -> f c = Some (c', true) -> next_config c c') -> safe W (reconfigure fuel f) any.
Proof.
  intros Hok Hf. apply safe_bind, safe_Query. intros W1 Hl1. rewrite Copy_id. pose proof (lt_ok _ _ Hl1) as Hok1. pose proof (wo_pub _ Hok1).
  destruct (f _) as [[c' []]|] eqn:Hfc; try done. destruct (wo_usable _ Hok1 (w_pub W1)) as [Hwf Hg _ _]; [lia|].
  apply (safe_ChangeConfigTo W1 fuel (w_pub W1)); auto.
Qed.

Lemma safe_join W fuel gid : world_ok W -> safe W (join fuel gid (GroupServers gid)) any.
Proof. intros Hok. apply safe_reconfigure; [done|]. intros c c'. apply join_next. Qed.

Lemma safe_leave W fuel gid : world_ok W -> safe W (leave fuel gid) any.
Proof. intros Hok. apply safe_reconfigure; [done|]. intros c c'. apply leave_next. Qed.

End Reshard.
