(* ===== verification/ReshardSafety.v ===== *)
(** * The sharded service is one store

    [sys_ok] relates the state of a run of ShardTest.v to a [World] of
    Reshard.v, and every event preserves it (in a later world).  From it: the
    Puts that groups accept, whichever group accepts them and whatever
    controllers do meanwhile, are a run of one kvsrv1 store; the serving
    group of a shard is unique and answers reads as that store does; and
    when no change is under way the group that the configuration names
    serves the shard. *)

From stdpp Require Import functions.
From S2P Require Import Prelude Rpc KvSrv KvClerk TestGroup ShardCfg ShardGrp Migration ShardCtrler ShardTest Reshard.

(** ** Counting moves *)

Lemma hops_S cf s k : own cf s (S k) <> own cf s k -> hops cf s (S k) = S (hops cf s k).
Proof. intros Hne. cbn [hops]. by rewrite (proj2 (Z.eqb_neq _ _) Hne). Qed.

Lemma hops_mono cf s j k : (j <= k)%nat -> (hops cf s j <= hops cf s k)%nat.
Proof. induction 1 as [|k _ IH]; [done|]. cbn [hops]. destruct (_ =? _); lia. Qed.

(** The last move before configuration [n]. *)
Lemma last_move cf s n h : hops cf s n = S h -> exists k, (k < n)%nat /\ own cf s (S k) <> own cf s k /\ hops cf s k = h.
Proof.
  induction n as [|n IH]; cbn [hops]; [done|]. destruct (Z.eqb_spec (own cf s (S n)) (own cf s n)) as [_|Hne].
  - intros Hh. destruct (IH Hh) as (k & Hk & ?). exists k. split; [lia|done].
  - intros [= Hh]. exists n. split; [lia|done].
Qed.

(** A function that continues after [c] with [x], [x + 1], ... *)
Definition extend (f : nat -> Z) (c : nat) (x : Z) (k : nat) : Z := if (k <=? c)%nat then f k else x + Z.of_nat (k - S c).

Lemma extend_old f c x k : (k <= c)%nat -> extend f c x k = f k.
Proof. intros Hk. unfold extend. by rewrite (proj2 (Nat.leb_le _ _) Hk). Qed.

Lemma extend_new f c x k : (c < k)%nat -> extend f c x k = x + Z.of_nat (k - S c).
Proof. intros Hk. unfold extend. by rewrite (proj2 (Nat.leb_gt _ _) Hk). Qed.

Lemma extend_lt f c x : (forall k, f k < f (S k)) -> f c < x -> forall k, extend f c x k < extend f c x (S k).
Proof.
  intros Hf Hx k. destruct (decide (S k <= c)%nat); [by rewrite !extend_old by lia|]. rewrite (extend_new _ _ _ (S k)) by lia.
  destruct (decide (k = c)) as [->|]; [rewrite extend_old by lia; lia|]. rewrite extend_new by lia. lia.
Qed.

Lemma extend_ne f c x : (forall k, f (S k) <> f k) -> x <> f c -> forall k, extend f c x (S k) <> extend f c x k.
Proof.
  intros Hf Hx k. destruct (decide (S k <= c)%nat); [by rewrite !extend_old by lia|]. rewrite (extend_new _ _ _ (S k)) by lia.
  destruct (decide (k = c)) as [->|]; [rewrite extend_old by lia; rewrite Nat.sub_diag; lia|]. rewrite extend_new by lia. lia.
Qed.

Section Safety.
Context `{CJ : ConfigJson} `{GK : Gob KVServer}.

(** The invariant of a migration is about the moves begun so far. *)
Lemma mig_inv_ext owner num owner' num' m :
  (forall k, (k <= cur m)%nat -> owner' k = owner k /\ num' k = num k) -> mig_inv owner num m -> mig_inv owner' num' m.
Proof.
  intros E [Hn Hi Hd Hp Hfu Hr Hph].
  assert (forall k, (k <= cur m)%nat -> owner' k = owner k) as Eo by apply E.
  assert (forall k, (k <= cur m)%nat -> num' k = num k) as En by apply E.
  constructor; auto.
  - intros g. by rewrite En.
  - intros j Hj. destruct (Hi j Hj). by rewrite Eo, En by lia.
  - intros j Hj. destruct (Hd j Hj) as (Hij & ?). destruct (Hi j Hij). by rewrite Eo, En by lia.
  - destruct Hph as [Hc Hs Ho|k Hk Hik Hfk Hs Ho Hm|k Hk Hik Hfk Hs1 Hs2 Hs3 Ho|k Hk Hik Hdk Hs Hs1 Hs2 Ho].
    + apply ph_settled; rewrite ?Eo by lia; auto.
    + apply (ph_begun _ _ m k); rewrite ?Eo, ?En by lia; auto.
    + apply (ph_frozen _ _ m k); rewrite ?Eo, ?En by lia; auto.
    + apply (ph_installed _ _ m k); rewrite ?Eo, ?En by lia; auto.
Qed.

(** ** The world and the state *)

(** The parameters of Migration.v that shard [s] follows. *)
Record path (owner num : nat -> Z) (W : World) (s : Z) : Prop := {
  pt_0 : num 0%nat = 0;
  pt_lt : forall k, num k < num (S k);
  pt_ne : forall k, owner (S k) <> owner k;
  pt_cur : cur (w_mig W s) = hops (w_cfg W) s (w_last W);
  pt_owner : forall k, (k <= w_last W)%nat -> owner (hops (w_cfg W) s k) = own (w_cfg W) s k;
  pt_num : forall k, moves W s k -> num (S (hops (w_cfg W) s k)) = Num (w_cfg W (S k));
  pt_bound : num (hops (w_cfg W) s (w_last W)) <= Num (w_cfg W (w_last W));
}.

Definition shard_ok (W : World) (s : Z) : Prop :=
  exists owner num, path owner num W s /\ mig_inv owner num (w_mig W s).

Definition absent : shardRec := MkShardRec ∅ ShardNotOwned 0.

Definition of_shard (s : Z) (p : PutArgs * PutReply) : Prop := Key2Shard (PutArgs_Key (fst p)) = s.
#[export] Instance of_shard_dec s p : Decision (of_shard s p) := decide (_ = _).

(** [n] more operations fit before a 64-bit version wraps; [L] are the Puts
    taken so far. *)
Record sys_ok (n : Z) (L : list (PutArgs * PutReply)) (W : World) (s : Sys) : Prop := {
  so_world : world_ok W;
  so_room : Z.of_nat (w_last W) + n < 2 ^ 64 - 1;
  so_current : sy_kv s !! configKey = Some (MkKvEntry (String_ (w_cfg W (w_pub W))) (Z.of_nat (w_pub W) + 1));
  so_pending : sy_kv s !! pendingConfigKey =
    if (w_last W =? 0)%nat then None else Some (MkKvEntry (String_ (w_cfg W (w_last W))) (Z.of_nat (w_last W)));
  so_groups : groups_wf (sy_groups s);
  so_named : forall srvs, is_Some (sy_groups s !! srvs) -> exists g, srvs = GroupServers g;
  so_shards : forall sh, is_shard sh -> shard_ok W sh;
  so_done : forall sh k, (S k <= w_pub W)%nat -> moves W sh k -> was_deleted W sh k;
  so_recs : forall sh g, is_shard sh -> recs (w_mig W sh) g = default absent (rec_at (sy_groups s) (GroupServers g) sh);
  so_log : forall sh, is_shard sh -> log (w_mig W sh) = filter (of_shard sh) L;
  so_issued : Forall (may_send W) (sy_issued s);
}.

Lemma sys_ok_weaken n n' L W s : n' <= n -> sys_ok n L W s -> sys_ok n' L W s.
Proof. intros Hn []. constructor; auto. lia. Qed.

(** Programs and requests may be added; the programs have an invariant of
    their own, [pool_ok] below. *)
Lemma sys_ok_pool n L W s issued pool : sys_ok n L W s -> Forall (may_send W) issued ->
  sys_ok n L W (MkSys (sy_kv s) (sy_groups s) issued pool).
Proof. intros [] Hi. by constructor. Qed.

Lemma later_issued W W' l : later W W' -> Forall (may_send W) l -> Forall (may_send W') l.
Proof. intros H Hl. eapply Forall_impl; [exact Hl|]. intros r. by apply may_send_later. Qed.

(** ** Steps of one shard *)

Definition set_mig (W : World) (sh : Z) (m : Mig) : World := MkWorld (w_cfg W) (w_last W) (w_pub W) (<[sh := m]> (w_mig W)).

Lemma set_mig_eq W sh m : w_mig (set_mig W sh m) sh = m.
Proof. apply fn_lookup_insert. Qed.

Lemma set_mig_ne W sh m sh' : sh' <> sh -> w_mig (set_mig W sh m) sh' = w_mig W sh'.
Proof. intros. by apply fn_lookup_insert_ne. Qed.

(** [m'] has seen all that [m] has. *)
Definition mig_le (m m' : Mig) : Prop :=
  (forall j st, st ∈ freezes m j -> st ∈ freezes m' j) /\
  (forall j, installed m j = true -> installed m' j = true) /\ (forall j, deleted m j = true -> deleted m' j = true).

Lemma set_mig_later W sh m : world_ok W -> mig_le (w_mig W sh) m -> later W (set_mig W sh m).
Proof.
  intros Hok (Hf & Hi & Hd). constructor; simpl; auto.
  - destruct Hok. by constructor.
  - intros s j st. destruct (decide (s = sh)) as [->|]; [rewrite fn_lookup_insert; auto|by rewrite fn_lookup_insert_ne].
  - intros s j. destruct (decide (s = sh)) as [->|]; [rewrite fn_lookup_insert; auto|by rewrite fn_lookup_insert_ne].
  - intros s j. destruct (decide (s = sh)) as [->|]; [rewrite fn_lookup_insert; auto|by rewrite fn_lookup_insert_ne].
Qed.

(** The migration of shard [sh] takes a step at group [g], whose record
    becomes [r]. *)
Lemma advance n L L' W s sh m' g r gs' :
  sys_ok n L W s -> is_shard sh -> mig_le (w_mig W sh) m' -> cur m' = cur (w_mig W sh) ->
  (forall owner num, path owner num W sh -> mig_inv owner num (w_mig W sh) -> mig_inv owner num m') ->
  log m' = filter (of_shard sh) L' -> (forall sh', sh' <> sh -> filter (of_shard sh') L' = filter (of_shard sh') L) ->
  recs m' = <[g := r]> (recs (w_mig W sh)) ->
  is_Some (sy_groups s !! GroupServers g) -> dom gs' = dom (sy_groups s) -> set_rec (sy_groups s) (GroupServers g) sh r gs' ->
  later W (set_mig W sh m') /\ sys_ok n L' (set_mig W sh m') (MkSys (sy_kv s) gs' (sy_issued s) (sy_pool s)).
Proof.
  intros Hs Hsh Hle Hcur Hinv Hlog Hlog' Hrecs Hg Hdom (Hwf & Hr & Hother). pose proof (so_world _ _ _ _ Hs) as Hok.
  pose proof (set_mig_later W sh m' Hok Hle) as Hl. split; [done|]. destruct Hs. constructor; simpl; auto.
  - by eapply lt_ok.
  - intros srvs Hsrvs. apply so_named0. by rewrite <-elem_of_dom, <-Hdom, elem_of_dom.
  - intros sh' Hsh'. destruct (so_shards0 sh' Hsh') as (owner & num & Hp & Hm). exists owner, num.
    destruct (decide (sh' = sh)) as [->|Hne].
    + rewrite set_mig_eq. split; [|auto]. destruct Hp. constructor; auto. rewrite set_mig_eq. simpl. congruence.
    + rewrite set_mig_ne by done. split; [|done]. destruct Hp. constructor; auto. by rewrite set_mig_ne.
  - intros sh' k Hk Hmv. apply (was_deleted_later W); [done| |by apply so_done0]. pose proof (wo_pub _ Hok). lia.
  - intros sh' g' Hsh'. destruct (decide (sh' = sh)) as [->|Hne].
    + rewrite fn_lookup_insert, Hrecs. destruct (decide (g' = g)) as [->|Hg']; [by rewrite fn_lookup_insert, Hr|].
      rewrite fn_lookup_insert_ne, Hother by (auto; left; intros E%(inj GroupServers); congruence). auto.
    + rewrite fn_lookup_insert_ne, Hother by auto. auto.
  - intros sh' Hsh'. destruct (decide (sh' = sh)) as [->|Hne]; [by rewrite fn_lookup_insert|].
    rewrite fn_lookup_insert_ne by done. rewrite Hlog' by done. auto.
  - by apply (later_issued W).
Qed.

(** ** Requests that a group executes *)

(** A request for shard [sh] finds no group, or changes one record. *)
Lemma grp_exec_shard {R : Type} gs srvs req sh (f : shardRec -> shardRec * R) (wrap : R -> GrpRep) :
  (forall kv, Grp_DoOp kv req = ('(kv', r) ← on_shard kv sh f; Some (kv', wrap r))) -> groups_wf gs -> is_shard sh ->
  gs !! srvs = None /\ grp_exec gs srvs req = (gs, None) \/
  exists r gs', is_Some (gs !! srvs) /\ rec_at gs srvs sh = Some r /\ dom gs' = dom gs /\ set_rec gs srvs sh (fst (f r)) gs' /\
    grp_exec gs srvs req = (gs', Some (wrap (snd (f r)))).
Proof.
  intros Hop Hwf Hsh. unfold grp_exec. destruct (gs !! srvs) as [kv|] eqn:Hkv; [right|by left].
  pose proof (Hwf _ _ Hkv) as Hlen. simpl in Hlen. destruct (get_in_range kv sh) as [r Hr]; [rewrite Hlen; exact Hsh|].
  destruct (on_shard_set gs srvs kv sh r f Hwf Hkv Hr) as (kv' & Hon & Hset).
  exists r, (<[srvs := kv']> gs). rewrite Hop, Hon. unfold rec_at. rewrite Hkv. split_and!; auto.
  apply set_eq. intros x. rewrite dom_insert, elem_of_union, elem_of_singleton, !elem_of_dom. naive_solver.
Qed.

(** What the answer to a request shows. *)
Definition reply_shows (W : World) (req : GrpReq) (rep : option GrpRep) : Prop :=
  match req with
  | RFreeze a => freeze_shown W (fz_Shard a) (fz_Num a)
      (fzr_State (FreezeShard (reply_err rep) rep), fzr_Err (FreezeShard (reply_err rep) rep))
  | RInstall a => install_shown W (in_Shard a) (in_Num a) (inr_Err (InstallShard (reply_err rep) rep))
  | RDelete a => delete_shown W (dl_Shard a) (dl_Num a) (dlr_Err (DeleteShard (reply_err rep) rep))
  | _ => True
  end.

Lemma no_reply_shows W req : reply_shows W req None.
Proof. destruct req; simpl; try done. Qed.

(** A group executed the request: the world after it. *)
Definition executed (n : Z) (L : list (PutArgs * PutReply)) (W : World) (s : Sys) (srvs : list string) (req : GrpReq) : Prop :=
  exists W', later W W' /\
    sys_ok n L W' (MkSys (sy_kv s) (fst (grp_exec (sy_groups s) srvs req)) (sy_issued s) (sy_pool s)) /\
    reply_shows W' req (snd (grp_exec (sy_groups s) srvs req)).

Lemma not_executed n L W s srvs req : sys_ok n L W s -> grp_exec (sy_groups s) srvs req = (sy_groups s, None) ->
  executed n L W s srvs req.
Proof.
  intros Hs E. exists W. rewrite E. split_and!; [by eapply later_refl, so_world|destruct s; exact Hs|apply no_reply_shows].
Qed.

(** The group's record is the one of the migration. *)
Lemma so_rec n L W s sh g r : sys_ok n L W s -> is_shard sh -> rec_at (sy_groups s) (GroupServers g) sh = Some r ->
  recs (w_mig W sh) g = r.
Proof. intros Hs Hsh Hr. by rewrite (so_recs _ _ _ _ Hs), Hr. Qed.

(** A move of the current world is one of its path. *)
Lemma path_move owner num W sh k : path owner num W sh -> moves W sh k ->
  owner (hops (w_cfg W) sh k) = own (w_cfg W) sh k /\ owner (S (hops (w_cfg W) sh k)) = own (w_cfg W) sh (S k) /\
  num (S (hops (w_cfg W) sh k)) = Num (w_cfg W (S k)) /\ (0 < S (hops (w_cfg W) sh k) <= cur (w_mig W sh))%nat.
Proof.
  intros Hp Hmv. pose proof Hmv as (_ & Hk & Hne). pose proof (hops_S _ _ _ Hne) as Hh.
  split_and!; [apply (pt_owner _ _ _ _ Hp); lia|rewrite <-Hh; by apply (pt_owner _ _ _ _ Hp)|by apply (pt_num _ _ _ _ Hp)|lia|].
  rewrite (pt_cur _ _ _ _ Hp), <-Hh. by apply hops_mono.
Qed.

(** The number of a configuration identifies the move. *)
Lemma same_move W sh k k' : world_ok W -> (S k <= w_last W)%nat -> moves W sh k' -> Num (w_cfg W (S k)) = Num (w_cfg W (S k')) -> k' = k.
Proof. intros Hok Hk (_ & Hk' & _) Hn. pose proof (num_index W (S k) (S k') Hok). lia. Qed.

Lemma freeze_executed n L W s srvs sh num : sys_ok n L W s -> may_freeze W srvs sh num ->
  executed n L W s srvs (RFreeze (MkFreezeShardArgs sh num)).
Proof.
  intros Hs (k & Hmv & -> & ->). pose proof Hmv as (Hsh & Hk & _).
  destruct (grp_exec_shard (sy_groups s) (GroupServers (own (w_cfg W) sh k)) (RFreeze (MkFreezeShardArgs sh (Num (w_cfg W (S k))))) sh
    (fun r => freeze_rec r (Num (w_cfg W (S k)))) PFreeze) as [[_ E]|(r & gs' & Hg & Hr & Hdom & Hset & E)];
    [done|apply Hs|done|by apply not_executed|].
  pose proof (so_rec _ _ _ _ _ _ _ Hs Hsh Hr) as Er. destruct (freeze_rec r (Num (w_cfg W (S k)))) as [r' rep] eqn:Ef. simpl in *.
  set (m := w_mig W sh) in *. set (j := S (hops (w_cfg W) sh k)).
  set (m' := MkMig (<[own (w_cfg W) sh k := r']> (recs m)) (cur m) (<[j := freezes m j ++ [fzr_State rep]]> (freezes m))
    (installed m) (deleted m) (log m)).
  assert (mig_le m m') as Hle.
  { split_and!; simpl; auto. intros i st Hst. destruct (decide (j = i)) as [<-|];
      [rewrite fn_lookup_insert; set_solver|by rewrite fn_lookup_insert_ne]. }
  destruct (advance n L L W s sh m' (own (w_cfg W) sh k) r' gs') as [Hl Hs']; auto.
  - intros owner num Hp Hm. destruct (path_move _ _ _ _ _ Hp Hmv) as (Eo & _ & En & Hj).
    pose proof (freeze_inv owner num (pt_lt _ _ _ _ Hp) m j Hm Hj) as Hf. unfold j in Hf. rewrite Nat.sub_succ, Nat.sub_0_r, Eo, En in Hf.
    fold m in Er. rewrite Er, Ef in Hf. exact Hf.
  - apply (so_log _ _ _ _ Hs sh Hsh).
  - exists (set_mig W sh m'). rewrite E. simpl. split_and!; auto. intros Hok k' Hmv' Hn.
    rewrite (same_move W sh k k' (so_world _ _ _ _ Hs) Hk Hmv' Hn).
    unfold was_frozen. rewrite set_mig_eq. simpl. rewrite fn_lookup_insert. set_solver.
Qed.

Lemma install_executed n L W s srvs sh st num : sys_ok n L W s -> may_install W srvs sh st num ->
  executed n L W s srvs (RInstall (MkInstallShardArgs sh st num)).
Proof.
  intros Hs (k & Hmv & -> & -> & Hst). pose proof Hmv as (Hsh & Hk & _).
  destruct (grp_exec_shard (sy_groups s) (GroupServers (own (w_cfg W) sh (S k))) (RInstall (MkInstallShardArgs sh st (Num (w_cfg W (S k))))) sh
    (fun r => install_rec r st (Num (w_cfg W (S k)))) PInstall) as [[_ E]|(r & gs' & Hg & Hr & Hdom & Hset & E)];
    [done|apply Hs|done|by apply not_executed|].
  pose proof (so_rec _ _ _ _ _ _ _ Hs Hsh Hr) as Er.
  set (m := w_mig W sh) in *. set (j := S (hops (w_cfg W) sh k)). set (r' := fst (install_rec r st (Num (w_cfg W (S k))))) in *.
  set (m' := MkMig (<[own (w_cfg W) sh (S k) := r']> (recs m)) (cur m) (freezes m) (<[j := true]> (installed m)) (deleted m) (log m)).
  assert (mig_le m m') as Hle by (split_and!; simpl; auto using insert_true_other).
  destruct (advance n L L W s sh m' (own (w_cfg W) sh (S k)) r' gs') as [Hl Hs']; auto.
  - intros owner num Hp Hm. destruct (path_move _ _ _ _ _ Hp Hmv) as (_ & Eo & En & Hj).
    pose proof (install_inv owner num (pt_lt _ _ _ _ Hp) (pt_ne _ _ _ _ Hp) m j st Hm Hj Hst) as Hf.
    unfold j in Hf. rewrite Eo, En in Hf. fold m in Er. rewrite Er in Hf. exact Hf.
  - apply (so_log _ _ _ _ Hs sh Hsh).
  - exists (set_mig W sh m'). rewrite E. simpl. split_and!; auto. intros Hok k' Hmv' Hn.
    rewrite (same_move W sh k k' (so_world _ _ _ _ Hs) Hk Hmv' Hn).
    unfold was_installed. rewrite set_mig_eq. simpl. by rewrite fn_lookup_insert.
Qed.

Lemma delete_executed n L W s srvs sh num : sys_ok n L W s -> may_delete W srvs sh num ->
  executed n L W s srvs (RDelete (MkDeleteShardArgs sh num)).
Proof.
  intros Hs (k & Hmv & -> & -> & Hin). pose proof Hmv as (Hsh & Hk & _).
  destruct (grp_exec_shard (sy_groups s) (GroupServers (own (w_cfg W) sh k)) (RDelete (MkDeleteShardArgs sh (Num (w_cfg W (S k))))) sh
    (fun r => delete_rec r (Num (w_cfg W (S k)))) PDelete) as [[_ E]|(r & gs' & Hg & Hr & Hdom & Hset & E)];
    [done|apply Hs|done|by apply not_executed|].
  pose proof (so_rec _ _ _ _ _ _ _ Hs Hsh Hr) as Er.
  set (m := w_mig W sh) in *. set (j := S (hops (w_cfg W) sh k)). set (r' := fst (delete_rec r (Num (w_cfg W (S k))))) in *.
  set (m' := MkMig (<[own (w_cfg W) sh k := r']> (recs m)) (cur m) (freezes m) (installed m) (<[j := true]> (deleted m)) (log m)).
  assert (mig_le m m') as Hle by (split_and!; simpl; auto using insert_true_other).
  destruct (advance n L L W s sh m' (own (w_cfg W) sh k) r' gs') as [Hl Hs']; auto.
  - intros owner num Hp Hm. destruct (path_move _ _ _ _ _ Hp Hmv) as (Eo & _ & En & Hj).
    pose proof (delete_inv owner num (pt_ne _ _ _ _ Hp) m j Hm ltac:(lia) Hin) as Hf.
    unfold j in Hf. rewrite Nat.sub_succ, Nat.sub_0_r, Eo, En in Hf. fold m in Er. rewrite Er in Hf. exact Hf.
  - apply (so_log _ _ _ _ Hs sh Hsh).
  - exists (set_mig W sh m'). rewrite E. simpl. split_and!; auto. intros Hok k' Hmv' Hn.
    rewrite (same_move W sh k k' (so_world _ _ _ _ Hs) Hk Hmv' Hn).
    unfold was_deleted. rewrite set_mig_eq. simpl. by rewrite fn_lookup_insert.
Qed.

Lemma send_executed n L W s srvs req : sys_ok n L W s -> may_send W (srvs, req) -> executed n L W s srvs req.
Proof.
  intros Hs. destruct req as [| |[sh num]|[sh st num]|[sh num]|]; simpl; try done.
  - by apply freeze_executed.
  - by apply install_executed.
  - by apply delete_executed.
Qed.

(** ** Clients *)

Lemma filter_snoc_same sh L p : of_shard sh p -> filter (of_shard sh) (L ++ [p]) = filter (of_shard sh) L ++ [p].
Proof. intros Hp. by rewrite filter_app, filter_cons_True, filter_nil. Qed.

Lemma filter_snoc_other sh L p : ~ of_shard sh p -> filter (of_shard sh) (L ++ [p]) = filter (of_shard sh) L.
Proof. intros Hp. by rewrite filter_app, filter_cons_False, filter_nil, app_nil_r. Qed.

Lemma put_executed n L W s srvs a : sys_ok n L W s ->
  exists W', later W W' /\ sys_ok n (L ++ taken s (DPut srvs a)) W' (drive s (DPut srvs a)).
Proof.
  intros Hs. pose proof (Key2Shard_range (PutArgs_Key a)) as Hsh. set (sh := Key2Shard (PutArgs_Key a)) in *. cbn [drive sys_step taken].
  destruct (grp_exec_shard (sy_groups s) srvs (RPut a) sh (fun r => put_rec r a) PPut) as [[_ E]|(r & gs' & Hg & Hr & Hdom & Hset & E)];
    [done|apply Hs|done| |]; rewrite E; cbn [fst snd].
  { exists W. rewrite app_nil_r. split; [by eapply later_refl, so_world|]. destruct s; exact Hs. }
  destruct (so_named _ _ _ _ Hs srvs Hg) as [g ->]. pose proof (so_rec _ _ _ _ _ _ _ Hs Hsh Hr) as Er.
  destruct (put_rec r a) as [r' rep] eqn:Ep. cbn [fst snd] in *. set (m := w_mig W sh) in *.
  set (wrong := Err_eqb (PutReply_Err rep) ErrWrongGroup).
  set (m' := MkMig (<[g := r']> (recs m)) (cur m) (freezes m) (installed m) (deleted m) (if wrong then log m else log m ++ [(a, rep)])).
  destruct (advance n L (L ++ (if wrong then [] else [(a, rep)])) W s sh m' g r' gs') as [Hl Hs']; auto.
  - split_and!; auto.
  - intros owner num _ Hm. pose proof (put_inv owner num m g a Hm) as Hf. simpl in Hf. fold m in Er. rewrite Er, Ep in Hf. exact Hf.
  - simpl. rewrite (so_log _ _ _ _ Hs sh Hsh : log m = _). destruct wrong; [by rewrite app_nil_r|by rewrite filter_snoc_same].
  - intros sh' Hne. destruct wrong; [by rewrite app_nil_r|]. apply filter_snoc_other. by intros E'.
  - exists (set_mig W sh m'). auto.
Qed.

(** ** The configuration keys *)

Lemma sys_got n L W s key : sys_ok n L W s ->
  let r := Get (sy_kv s) (MkGetArgs key) in got W key (GetReply_Value r, GetReply_Version r, GetReply_Err r).
Proof.
  intros Hs r. split; intros ->; unfold r, Get; simpl.
  - by rewrite (so_current _ _ _ _ Hs).
  - rewrite (so_pending _ _ _ _ Hs). destruct (Nat.eqb_spec (w_last W) 0); [by left|by right].
Qed.

(** A Put that takes no effect. *)
Lemma put_refused n L W s a : 0 <= n -> sys_ok (n + 1) L W s -> fst (Put (sy_kv s) a) = sy_kv s ->
  later W W /\ sys_ok n L W (MkSys (fst (Put (sy_kv s) a)) (sy_groups s) (sy_issued s) (sy_pool s)).
Proof.
  intros Hn Hs ->. split; [by eapply later_refl, so_world|]. apply (sys_ok_weaken (n + 1)); [lia|]. destruct s; exact Hs.
Qed.

Definition publish (W : World) : World := MkWorld (w_cfg W) (w_last W) (S (w_pub W)) (w_mig W).

Lemma publish_ok n L W s v ver (kv' := fst (Put (sy_kv s) (MkPutArgs configKey v ver))) : 0 <= n ->
  sys_ok (n + 1) L W s -> may_publish W v ver ->
  exists W', later W W' /\ sys_ok n L W' (MkSys kv' (sy_groups s) (sy_issued s) (sy_pool s)).
Proof.
  intros Hn0 Hs (k & j & Hk & -> & Hm & -> & Hj). pose proof (so_world _ _ _ _ Hs) as Hok.
  destruct (Put_state (sy_kv s) (MkPutArgs configKey (String_ (w_cfg W (S k))) (Z.of_nat j + 1))) as [[E _]|(E & _ & Hver)];
    [exists W; by apply put_refused|].
  unfold version_of in E, Hver. simpl in E, Hver. rewrite (so_current _ _ _ _ Hs) in E, Hver. simpl in E, Hver.
  pose proof (wo_pub _ Hok). pose proof (so_room _ _ _ _ Hs). assert (k = w_pub W) as -> by lia.
  rewrite u64_small in E by lia. unfold kv'. rewrite E. clear E kv' Hver.
  assert (later W (publish W)) as Hl.
  { constructor; simpl; auto. destruct Hok. constructor; simpl; auto. lia. }
  exists (publish W). split; [done|]. destruct Hs. constructor; simpl; auto.
  - by eapply lt_ok.
  - lia.
  - rewrite lookup_insert_eq. do 2 f_equal. lia.
  - by rewrite lookup_insert_ne.
  - intros sh Hsh. destruct (so_shards0 sh Hsh) as (owner & num & [] & Hi). exists owner, num. split; [by constructor|done].
  - intros sh i Hi Hmv. destruct (decide (i = w_pub W)) as [->|]; [by apply Hm|apply so_done0; [lia|done]].
Qed.

(** Claiming [c]: it becomes the pending configuration, and the shards it
    moves begin their moves. *)
Definition claim_cfg (W : World) (c : ShardConfig) : nat -> ShardConfig := <[S (w_last W) := c]> (w_cfg W).

Definition begin_move (m : Mig) : Mig := MkMig (recs m) (S (cur m)) (freezes m) (installed m) (deleted m) (log m).

Definition claim (W : World) (c : ShardConfig) : World :=
  let cf := claim_cfg W c in
  MkWorld cf (S (w_last W)) (w_pub W)
    (fun s => if own cf s (S (w_last W)) =? own cf s (w_last W) then w_mig W s else begin_move (w_mig W s)).

Lemma claim_cfg_old W c k : (k <= w_last W)%nat -> claim_cfg W c k = w_cfg W k.
Proof. intros Hk. unfold claim_cfg. rewrite fn_lookup_insert_ne by lia. done. Qed.

Lemma claim_cfg_new W c : claim_cfg W c (S (w_last W)) = c.
Proof. apply fn_lookup_insert. Qed.

Lemma claim_mig W c s : recs (w_mig (claim W c) s) = recs (w_mig W s) /\ freezes (w_mig (claim W c) s) = freezes (w_mig W s) /\
  installed (w_mig (claim W c) s) = installed (w_mig W s) /\ deleted (w_mig (claim W c) s) = deleted (w_mig W s) /\
  log (w_mig (claim W c) s) = log (w_mig W s).
Proof. simpl. by destruct (_ =? _). Qed.

Lemma claim_world_ok W c : world_ok W -> w_pub W = w_last W -> Num c = Num (w_cfg W (w_last W)) + 1 -> usable c ->
  world_ok (claim W c).
Proof.
  intros [Hn Hp Hu Hpub] E Hc Huse. constructor; simpl; rewrite ?claim_cfg_old by lia; auto; [..|lia].
  - intros k Hk. destruct (decide (k = S (w_last W))) as [->|]; [|rewrite claim_cfg_old by lia; apply Hn; lia].
    rewrite claim_cfg_new, Hc, Hn by lia. lia.
  - intros k Hk. destruct (decide (k = S (w_last W))) as [->|]; [by rewrite claim_cfg_new|]. rewrite claim_cfg_old by lia. apply Hu. lia.
Qed.

Lemma claim_later W c : world_ok (claim W c) -> later W (claim W c).
Proof.
  intros Hok. constructor; auto; [simpl; lia|intros k Hk; by apply claim_cfg_old|..];
    intros s j; destruct (claim_mig W c s) as (_ & Ef & Ei & Ed & _); by rewrite ?Ef, ?Ei, ?Ed.
Qed.

(** All moves of a world in which everything is published are over. *)
Lemma all_over n L W s sh : sys_ok n L W s -> w_pub W = w_last W -> is_shard sh ->
  cur (w_mig W sh) = 0%nat \/ deleted (w_mig W sh) (cur (w_mig W sh)) = true.
Proof.
  intros Hs E Hsh. destruct (so_shards _ _ _ _ Hs sh Hsh) as (owner & num & Hp & _). rewrite (pt_cur _ _ _ _ Hp).
  destruct (hops (w_cfg W) sh (w_last W)) as [|h] eqn:Hh; [by left|right]. destruct (last_move _ _ _ _ Hh) as (k & Hk & Hne & <-).
  apply (so_done _ _ _ _ Hs sh k); [lia|]. split_and!; auto.
Qed.

Section Claim.
Variables (W : World) (c : ShardConfig) (sh : Z).
Hypothesis (Hok' : world_ok (claim W c)).
Local Abbreviation cf := (claim_cfg W c).
Local Abbreviation n := (w_last W).

Lemma claim_hops k : (k <= n)%nat -> hops cf sh k = hops (w_cfg W) sh k.
Proof. apply (hops_later W (claim W c)), claim_later, Hok'. Qed.

Lemma claim_own k : (k <= n)%nat -> own cf sh k = own (w_cfg W) sh k.
Proof. apply (own_later W (claim W c)), claim_later, Hok'. Qed.

Lemma claim_moves k : (S k <= n)%nat -> moves (claim W c) sh k -> moves W sh k.
Proof. apply (moves_earlier W (claim W c)), claim_later, Hok'. Qed.

Lemma claim_num : Num (cf (S n)) = Num (w_cfg W n) + 1.
Proof.
  pose proof (num_diff (claim W c) n (S n) Hok' ltac:(simpl; lia) ltac:(simpl; lia)) as Hnum.
  cbn [w_cfg claim] in Hnum. rewrite (claim_cfg_old W c n) in Hnum by lia. lia.
Qed.

(** The shard stays where it is, *)
Lemma claim_path_stays owner num : own cf sh (S n) = own (w_cfg W) sh n -> path owner num W sh -> path owner num (claim W c) sh.
Proof.
  intros Es [H0 Hlt Hne Hcur Howner Hpnum Hbound]. pose proof (claim_own n (le_n _)) as En. pose proof claim_num as Hnum.
  assert (hops cf sh (S n) = hops (w_cfg W) sh n) as Hh by (cbn [hops]; by rewrite Es, En, Z.eqb_refl, claim_hops).
  constructor; cbn [w_cfg w_last w_mig claim]; auto; [|..|rewrite Hh; lia].
  - by rewrite Es, En, Z.eqb_refl, Hh.
  - intros k Hk. destruct (decide (k = S n)) as [->|]; [rewrite Hh, Es; auto|]. rewrite claim_hops, claim_own by lia. apply Howner. lia.
  - intros k Hmv. assert (S k <= n)%nat as Hk.
    { destruct Hmv as (_ & Hk & Hmv). cbn [w_cfg w_last claim] in Hk, Hmv. destruct (decide (k = n)) as [->|]; [congruence|lia]. }
    rewrite claim_hops, claim_cfg_old by lia. apply Hpnum. by apply claim_moves.
Qed.

(** or its path is extended by one move. *)
Lemma claim_path_moves owner num (h := hops (w_cfg W) sh n) : own cf sh (S n) <> own (w_cfg W) sh n -> path owner num W sh ->
  path (extend owner h (own cf sh (S n))) (extend num h (Num (cf (S n)))) (claim W c) sh.
Proof.
  intros Ed [H0 Hlt Hne Hcur Howner Hpnum Hbound]. pose proof (claim_own n (le_n _)) as En. pose proof claim_num as Hnum.
  assert (hops cf sh (S n) = S h) as Hh by (cbn [hops]; by rewrite En, (proj2 (Z.eqb_neq _ _) Ed), claim_hops).
  constructor; cbn [w_cfg w_last w_mig claim].
  - rewrite extend_old by lia. done.
  - apply extend_lt; [done|]. fold h in Hbound. lia.
  - apply extend_ne; [done|]. unfold h. by rewrite Howner.
  - rewrite En, (proj2 (Z.eqb_neq _ _) Ed), Hh. cbn [begin_move cur]. by rewrite Hcur.
  - intros k Hk. destruct (decide (k = S n)) as [->|]; [rewrite Hh, extend_new by lia; rewrite Nat.sub_diag; lia|].
    rewrite claim_hops, (claim_own k) by lia. rewrite extend_old by (apply hops_mono; lia). apply Howner. lia.
  - intros k Hmv. destruct (decide (k = n)) as [->|].
    + rewrite claim_hops, extend_new by (unfold h; lia). unfold h. rewrite Nat.sub_diag. lia.
    + pose proof Hmv as (_ & Hk & _). cbn [w_last claim] in Hk. assert (moves W sh k) as Hmv' by (apply claim_moves; [lia|done]).
      pose proof Hmv' as (_ & Hk' & Hd). rewrite claim_hops, (claim_cfg_old W c (S k)) by lia. rewrite extend_old; [by apply Hpnum|].
      rewrite <-(hops_S _ _ _ Hd). by apply hops_mono.
  - rewrite Hh, extend_new by lia. rewrite Nat.sub_diag. lia.
Qed.

Lemma claim_shard_ok : shard_ok W sh -> (cur (w_mig W sh) = 0%nat \/ deleted (w_mig W sh) (cur (w_mig W sh)) = true) ->
  shard_ok (claim W c) sh.
Proof.
  intros (owner & num & Hp & Hm) Hover. destruct (decide (own cf sh (S n) = own (w_cfg W) sh n)) as [Es|Ed].
  - exists owner, num. split; [by apply claim_path_stays|]. cbn [claim w_mig]. by rewrite (claim_own n), Es, Z.eqb_refl.
  - pose proof (claim_path_moves owner num Ed Hp) as Hp'. eexists _, _. split; [exact Hp'|]. cbn [claim w_mig].
    rewrite (claim_own n), (proj2 (Z.eqb_neq _ _) Ed) by done. apply begin_inv; [by eapply pt_lt|..|done].
    apply (mig_inv_ext owner num); [|done]. rewrite (pt_cur _ _ _ _ Hp). intros k Hk. by rewrite !extend_old.
Qed.
End Claim.

(** A configuration that names groups, and none of them group 0. *)
Definition admissible (c : ShardConfig) : Prop := Groups c <> ∅ /\ Groups c !! 0 = None.

Lemma claim_ok n L W s v ver (a := MkPutArgs pendingConfigKey v ver) : 0 <= n -> sys_ok (n + 1) L W s -> may_claim W v ver ->
  (forall c, stored (fst (Put (sy_kv s) a)) pendingConfigKey c -> admissible c) ->
  exists W', later W W' /\ sys_ok n L W' (MkSys (fst (Put (sy_kv s) a)) (sy_groups s) (sy_issued s) (sy_pool s)) /\
    (PutReply_Err (snd (Put (sy_kv s) a)) = OK -> claimed W' pendingConfigKey v ver OK).
Proof.
  intros Hn0 Hs (c & j & p & -> & Hj & Hn & -> & Hp) Hadm. pose proof (so_world _ _ _ _ Hs) as Hok. pose proof (wo_pub _ Hok) as Hpub.
  destruct (Put_state (sy_kv s) a) as [[E He]|(E & _ & Hver)].
  { exists W. destruct (put_refused n L W s a Hn0 Hs E). split_and!; auto. by intros. }
  assert (version_of (sy_kv s) pendingConfigKey = Z.of_nat (w_last W)) as Hv
    by (unfold version_of; rewrite (so_pending _ _ _ _ Hs); destruct (Nat.eqb_spec (w_last W) 0) as [->|]; done).
  cbn [a PutArgs_Key PutArgs_Version PutArgs_Value] in E, Hver. rewrite Hv in E, Hver. pose proof (so_room _ _ _ _ Hs).
  assert (p = w_last W) as -> by lia. assert (j = w_last W) as -> by lia. rewrite u64_small in E by lia. rewrite E in *.
  destruct (Hadm c) as [Hne H0]; [eexists; rewrite lookup_insert_eq; split_and!; [done|simpl; lia|done]|].
  destruct Hn as [Hnum Hwf Hnamed [?|Hcomp]]; [done|]. assert (w_pub W = w_last W) as Epub by lia.
  assert (world_ok (claim W c)) as Hok' by (apply claim_world_ok; auto; by constructor). pose proof (claim_later W c Hok') as Hl.
  exists (claim W c). split_and!; [done| |].
  - constructor; auto; cbn [sy_kv sy_groups sy_issued sy_pool w_last w_cfg w_pub claim].
    + lia.
    + rewrite lookup_insert_ne, claim_cfg_old by (done || lia). apply (so_current _ _ _ _ Hs).
    + rewrite lookup_insert_eq, claim_cfg_new. cbn [Nat.eqb]. do 2 f_equal. lia.
    + apply (so_groups _ _ _ _ Hs).
    + apply (so_named _ _ _ _ Hs).
    + intros sh Hsh. apply claim_shard_ok; auto; [by apply (so_shards _ _ _ _ Hs)|by eapply all_over].
    + intros sh k Hk Hmv. apply (was_deleted_later W); [done|lia|]. apply (so_done _ _ _ _ Hs); [done|]. apply (moves_earlier W (claim W c)); auto; lia.
    + intros sh g Hsh. destruct (claim_mig W c sh) as (-> & _). by apply (so_recs _ _ _ _ Hs).
    + intros sh Hsh. destruct (claim_mig W c sh) as (_ & _ & _ & _ & ->). by apply (so_log _ _ _ _ Hs).
    + apply (later_issued W); [done|apply Hs].
  - intros _ _ _. exists (w_last W). cbn [w_last w_cfg claim]. by rewrite claim_cfg_new.
Qed.

(** Both keys at once; a lost answer shows nothing. *)
Lemma config_put_ok n L W s key v ver o kv' e : 0 <= n -> sys_ok (n + 1) L W s -> may_put W key v ver ->
  clerk_put (sy_kv s) (MkPutArgs key v ver) o = (kv', e) -> (forall c, stored kv' pendingConfigKey c -> admissible c) ->
  exists W', later W W' /\ sys_ok n L W' (MkSys kv' (sy_groups s) (sy_issued s) (sy_pool s)) /\ claimed W' key v ver e.
Proof.
  intros Hn0 Hs Hput E Hadm. unfold clerk_put in E. destruct (Put (sy_kv s) (MkPutArgs key v ver)) as [kv1 r] eqn:Ep. simplify_eq.
  destruct Hput as [[-> Hput]|[-> Hput]].
  - destruct (publish_ok n L W s v ver Hn0 Hs Hput) as (W' & Hl & Hs'). rewrite Ep in Hs'. exists W'. split_and!; auto. by intros ? ?.
  - destruct (claim_ok n L W s v ver Hn0 Hs Hput) as (W' & Hl & Hs' & Hc); [by rewrite Ep|]. rewrite Ep in Hs', Hc.
    exists W'. split_and!; auto. intros He. apply Hc; [|done]. destruct o; [done|destruct (Err_eqb _ _); done..].
Qed.

(** A group operation with any delivery. *)
Lemma group_call_ok n L W s srvs req o gs' rep : sys_ok n L W s -> may_send W (srvs, req) ->
  grp_call (sy_groups s) srvs req o = (gs', rep) ->
  exists W', later W W' /\ sys_ok n L W' (MkSys (sy_kv s) gs' (sy_issued s) (sy_pool s)) /\
    reply_shows W' req rep /\ Forall (may_send W') [(srvs, req)].
Proof.
  intros Hs Hsend E. destruct (send_executed n L W s srvs req Hs Hsend) as (W' & Hl & Hs' & Hr).
  pose proof (no_reply_shows W' req) as Hno. pose proof (may_send_later W W' _ Hl Hsend) as Hm.
  destruct o; unfold grp_call in E.
  - rewrite E in Hs', Hr. exists W'. by split_and!; auto.
  - injection E as <- <-. exists W'. by split_and!; auto.
  - injection E as <- <-. exists W. split_and!; [by eapply later_refl, so_world|destruct s; exact Hs|apply no_reply_shows|by apply Forall_singleton].
Qed.

(** A step of a safe program. *)
Lemma safe_step n L W s p o kv' gs' reqs p' pool : 0 <= n -> sys_ok (n + 1) L W s -> safe W p any ->
  prog_step (sy_kv s) (sy_groups s) p o = (kv', gs', reqs, p') -> (forall c, stored kv' pendingConfigKey c -> admissible c) ->
  exists W', later W W' /\ sys_ok n L W' (MkSys kv' gs' (sy_issued s ++ reqs) pool) /\ safe W' p' any.
Proof.
  intros Hn0 Hs Hp E Hadm. assert (sys_ok n L W s) as Hs0 by (apply (sys_ok_weaken (n + 1)); [lia|done]).
  pose proof (later_refl W (so_world _ _ _ _ Hs)) as Hrefl.
  assert (forall W' kv gs reqs, sys_ok n L W' (MkSys kv gs (sy_issued s) (sy_pool s)) -> Forall (may_send W') reqs ->
    sys_ok n L W' (MkSys kv gs (sy_issued s ++ reqs) pool)) as Hgo.
  { intros W' kv gs reqs' Hs' Hr. refine (sys_ok_pool n L W' _ _ _ Hs' _). apply Forall_app. split; [apply Hs'|done]. }
  assert (sys_ok n L W (MkSys (sy_kv s) (sy_groups s) (sy_issued s) (sy_pool s))) as Hid by (destruct s; exact Hs0).
  destruct p as [r| | |key k|key v ver k|srvs sh num k|srvs sh st num k|srvs sh num k]; cbn [prog_step safe] in *.
  1-3: simplify_eq; exists W; auto.
  - simplify_eq. exists W. split_and!; auto. apply Hp; [done|]. by eapply sys_got.
  - destruct Hp as [Hput Hk]. destruct (clerk_put _ _ _) as [kv1 e] eqn:Ec. simplify_eq.
    destruct (config_put_ok n L W s key v ver o kv' e Hn0 Hs Hput Ec Hadm) as (W' & Hl & Hs' & Hc). exists W'. auto.
  - destruct Hp as [Hsend Hk]. destruct (grp_call _ _ _ _) as [gs1 rep] eqn:Ec. simplify_eq.
    destruct (group_call_ok n L W s srvs (RFreeze (MkFreezeShardArgs sh num)) o gs' rep Hs0 Hsend Ec) as (W' & Hl & Hs' & Hr & Hm). exists W'. auto.
  - destruct Hp as [Hsend Hk]. destruct (grp_call _ _ _ _) as [gs1 rep] eqn:Ec. simplify_eq.
    destruct (group_call_ok n L W s srvs (RInstall (MkInstallShardArgs sh st num)) o gs' rep Hs0 Hsend Ec) as (W' & Hl & Hs' & Hr & Hm). exists W'. auto.
  - destruct Hp as [Hsend Hk]. destruct (grp_call _ _ _ _) as [gs1 rep] eqn:Ec. simplify_eq.
    destruct (group_call_ok n L W s srvs (RDelete (MkDeleteShardArgs sh num)) o gs' rep Hs0 Hsend Ec) as (W' & Hl & Hs' & Hr & Hm). exists W'. auto.
Qed.

(** ** The controllers *)

(** InitController after its first read. *)
Definition after_current (fuel : nat) (c : ShardConfig) : Prog unit :=
  pending ← configAt pendingConfigKey;
  match pending with Some p => if Num p <=? Num c then Ret tt else completeChange fuel c p | None => Ret tt end.

(** A controller between its two reads knows a configuration that was
    published when it read it; every other one is safe. *)
Definition ctrl_ok (W : World) (r : option Reading) (p : Prog unit) : Prop :=
  match r with
  | None => safe W p any
  | Some Unread => exists fuel, p = InitController fuel
  | Some (ReadNum num) => exists fuel k, (k <= w_pub W)%nat /\ num = Some (Num (w_cfg W k)) /\ p = after_current fuel (w_cfg W k)
  end.

Definition pool_ok (W : World) (mk : gmap nat Reading) (pool : list (Prog unit)) : Prop :=
  (forall i p, pool !! i = Some p -> ctrl_ok W (mk !! i) p) /\ (forall i, is_Some (mk !! i) -> (i < length pool)%nat).

Lemma ctrl_later W W' r p : world_ok W -> later W W' -> ctrl_ok W r p -> ctrl_ok W' r p.
Proof.
  intros Hok Hl. destruct r as [[|num]|]; simpl; [done| |by apply safe_later].
  intros (fuel & k & Hk & -> & ->). pose proof (wo_pub _ Hok). exists fuel, k. rewrite (lt_cfg _ _ Hl) by lia.
  split_and!; auto. pose proof (lt_pub _ _ Hl). lia.
Qed.

Lemma pool_later W W' mk pool : world_ok W -> later W W' -> pool_ok W mk pool -> pool_ok W' mk pool.
Proof. intros Hok Hl [Hp Hm]. split; [|done]. intros i p Hi. apply (ctrl_later W); auto. Qed.

(** The program of controller [i] and its mark change together. *)
Lemma pool_set W mk mk' pool i p : pool_ok W mk pool -> (forall j, j <> i -> mk' !! j = mk !! j) ->
  (is_Some (mk' !! i) -> (i < length pool)%nat) -> ctrl_ok W (mk' !! i) p -> pool_ok W mk' (<[i := p]> pool).
Proof.
  intros [Hp Hm] Hj Hi Hc. split.
  - intros j q. destruct (decide (j = i)) as [->|Hne]; [|rewrite list_lookup_insert_ne, Hj by done; apply Hp].
    intros Hq. apply list_lookup_insert_Some in Hq as [(_ & <- & _)|[? _]]; [exact Hc|done].
  - intros j Hs. rewrite length_insert. destruct (decide (j = i)) as [->|Hne]; [auto|]. rewrite Hj in Hs by done. auto.
Qed.

Lemma pool_spawn W mk mk' pool p : pool_ok W mk pool -> (forall j, j <> length pool -> mk' !! j = mk !! j) ->
  ctrl_ok W (mk' !! length pool) p -> pool_ok W mk' (pool ++ [p]).
Proof.
  intros [Hp Hm] Hj Hc. split.
  - intros j q Hq. apply lookup_app_Some in Hq as [Hq|[Hlen Hq]].
    + rewrite Hj; [by apply Hp|]. apply lookup_lt_Some in Hq. lia.
    + apply list_lookup_singleton_Some in Hq as [H0 <-]. by replace j with (length pool) by lia.
  - intros j Hs. rewrite length_app. simpl. destruct (decide (j = length pool)) as [->|Hne]; [lia|]. rewrite Hj in Hs by done. apply Hm in Hs. lia.
Qed.

Lemma fresh_mark W mk pool : pool_ok W mk pool -> mk !! length pool = None.
Proof. intros [_ Hm]. apply eq_None_not_Some. intros Hs%Hm. lia. Qed.

(** The first read of a recovery, *)
Lemma read_current n L W s fuel o : sys_ok n L W s ->
  prog_step (sy_kv s) (sy_groups s) (InitController fuel) o = (sy_kv s, sy_groups s, [], after_current fuel (w_cfg W (w_pub W))).
Proof.
  intros Hs. cbn. unfold Get. simpl. rewrite (so_current _ _ _ _ Hs). simpl. by rewrite FromString_String.
Qed.

Lemma current_num n L W s : sys_ok n L W s -> stored_num (sy_kv s) configKey = Some (Num (w_cfg W (w_pub W))).
Proof. intros Hs. unfold stored_num. rewrite (so_current _ _ _ _ Hs). simpl. by rewrite FromString_String. Qed.

(** the second one, *)
Definition recovery (W : World) (fuel k : nat) : Prog unit :=
  if (w_last W =? 0)%nat then Ret tt
  else if Num (w_cfg W (w_last W)) <=? Num (w_cfg W k) then Ret tt
  else completeChange fuel (w_cfg W k) (w_cfg W (w_last W)).

Lemma read_pending n L W s fuel k o : sys_ok n L W s ->
  prog_step (sy_kv s) (sy_groups s) (after_current fuel (w_cfg W k)) o = (sy_kv s, sy_groups s, [], recovery W fuel k).
Proof.
  intros Hs. unfold recovery. cbn. unfold Get. simpl. rewrite (so_pending _ _ _ _ Hs).
  destruct (w_last W =? 0)%nat; simpl; [done|]. by rewrite FromString_String.
Qed.

Lemma pending_num n L W s : sys_ok n L W s -> w_last W <> 0%nat -> stored_num (sy_kv s) pendingConfigKey = Some (Num (w_cfg W (w_last W))).
Proof. intros Hs Hl. unfold stored_num. rewrite (so_pending _ _ _ _ Hs), (proj2 (Nat.eqb_neq _ _) Hl). simpl. by rewrite FromString_String. Qed.

(** and what is left to do if it came in time. *)
Lemma recovery_safe n L W s fuel k : sys_ok n L W s -> (k <= w_pub W)%nat ->
  (forall p, stored_num (sy_kv s) pendingConfigKey = Some p -> p <= Num (w_cfg W k) + 1) -> safe W (recovery W fuel k) any.
Proof.
  intros Hs Hk Htime. pose proof (so_world _ _ _ _ Hs) as Hok. unfold recovery. destruct (Nat.eqb_spec (w_last W) 0); [done|]. pose proof (wo_pub _ Hok).
  destruct (Z.leb_spec (Num (w_cfg W (w_last W))) (Num (w_cfg W k))) as [|Hlt]; [done|].
  specialize (Htime _ (pending_num _ _ _ _ Hs ltac:(done))). pose proof (num_diff W k (w_last W) Hok).
  assert (w_last W = S k) as E by lia. rewrite E. apply safe_completeChange; [done|lia].
Qed.

(** ** Every event preserves the invariant *)

Lemma run_event_ok n L W mk s i o : 0 <= n -> sys_ok (n + 1) L W s -> pool_ok W mk (sy_pool s) -> in_time s mk (DRun i o) = true ->
  (forall c, stored (sy_kv (sys_step s (Run i o))) pendingConfigKey c -> admissible c) ->
  exists W', later W W' /\ sys_ok n L W' (sys_step s (Run i o)) /\ pool_ok W' (track s mk (DRun i o)) (sy_pool (sys_step s (Run i o))).
Proof.
  intros Hn0 Hs Hpool Htime Hadm. pose proof (so_world _ _ _ _ Hs) as Hok. pose proof (later_refl W Hok) as Hrefl.
  assert (sys_ok n L W s) as Hs0 by (apply (sys_ok_weaken (n + 1)); [lia|done]).
  cbn [sys_step track in_time] in *. destruct (sy_pool s !! i) as [p|] eqn:Hi.
  2: { exists W. split_and!; auto. destruct (mk !! i) as [|] eqn:Hm; [|done]. pose proof (proj2 Hpool i ltac:(by eexists)).
       apply lookup_ge_None in Hi. lia. }
  pose proof (lookup_lt_Some _ _ _ Hi) as Hlt. pose proof (proj1 Hpool i p Hi) as Hc.
  assert (forall pool, sys_ok n L W (MkSys (sy_kv s) (sy_groups s) (sy_issued s ++ []) pool)) as Hquiet.
  { intros pool. rewrite app_nil_r. apply (sys_ok_pool n L W s); [done|apply Hs]. }
  destruct (mk !! i) as [[|num]|] eqn:Hm; cbn [ctrl_ok] in Hc.
  - destruct Hc as [fuel ->]. rewrite (read_current _ _ _ _ _ _ Hs). exists W. split_and!; [done|apply Hquiet|]. cbn [sy_pool].
    apply (pool_set W mk); [done|intros j Hj; by rewrite lookup_insert_ne|done|]. rewrite lookup_insert_eq. exists fuel, (w_pub W).
    by rewrite (current_num _ _ _ _ Hs).
  - destruct Hc as (fuel & k & Hk & -> & ->). rewrite (read_pending _ _ _ _ _ _ _ Hs). exists W. split_and!; [done|apply Hquiet|]. cbn [sy_pool].
    apply (pool_set W mk); [done|intros j Hj; by rewrite lookup_delete_ne|done|]. rewrite lookup_delete_eq. apply (recovery_safe n L W s); auto.
    intros p Hp. rewrite Hp in Htime. lia.
  - destruct (prog_step _ _ _ _) as [[[kv' gs'] reqs] p'] eqn:E. destruct (safe_step n L W s p o kv' gs' reqs p' (<[i := p']> (sy_pool s)) Hn0 Hs Hc E Hadm) as (W' & Hl & Hs' & Hp').
    exists W'. split_and!; auto. cbn [sy_pool]. apply (pool_set W' mk); [by apply (pool_later W)|done|done|]. by rewrite Hm.
Qed.

Lemma spawn_ok n L W mk s p : sys_ok n L W s -> pool_ok W mk (sy_pool s) -> safe W p any ->
  sys_ok n L W (spawn s p) /\ pool_ok W mk (sy_pool (spawn s p)).
Proof.
  intros Hs Hpool Hp. split; [apply sys_ok_pool; [done|apply Hs]|]. apply (pool_spawn W mk); [done|done|]. by rewrite (fresh_mark _ _ _ Hpool).
Qed.

Lemma drive_ok n L W mk s e : 0 <= n -> sys_ok (n + 1) L W s -> pool_ok W mk (sy_pool s) -> in_time s mk e = true ->
  (forall c, stored (sy_kv (drive s e)) pendingConfigKey c -> admissible c) ->
  exists W', later W W' /\ sys_ok n (L ++ taken s e) W' (drive s e) /\ pool_ok W' (track s mk e) (sy_pool (drive s e)).
Proof.
  intros Hn0 Hs Hpool Htime Hadm. assert (sys_ok n L W s) as Hs0 by (apply (sys_ok_weaken (n + 1)); [lia|done]).
  pose proof (so_world _ _ _ _ Hs) as Hok. pose proof (later_refl W Hok) as Hrefl. pose proof (fun W' H => pool_later W W' mk (sy_pool s) Hok H Hpool) as Hlater.
  destruct e as [i o|m|srvs a|fuel gid|fuel gid|fuel]; cbn [taken]; rewrite ?app_nil_r.
  - by apply run_event_ok.
  - cbn [drive sys_step track]. destruct (sy_issued s !! m) as [[srvs req]|] eqn:Hm; [|by exists W].
    pose proof (Forall_lookup_1 _ _ _ _ (so_issued _ _ _ _ Hs) Hm) as Hsend.
    destruct (send_executed n L W s srvs req Hs0 Hsend) as (W' & Hl & Hs' & _). exists W'. auto.
  - destruct (put_executed n L W s srvs a Hs0) as (W' & Hl & Hs'). exists W'. auto.
  - exists W. split; [done|]. by apply spawn_ok, safe_join.
  - exists W. split; [done|]. by apply spawn_ok, safe_leave.
  - exists W. split_and!; [done|apply (sys_ok_pool n L W s); [done|apply Hs]|]. cbn [drive sys_step sy_pool track].
    apply (pool_spawn W mk); [done|intros j Hj; by rewrite lookup_insert_ne|]. rewrite lookup_insert_eq. by exists fuel.
Qed.

(** Every pending configuration of the run is admissible. *)
Definition stays_admissible (s : Sys) (evs : list Event) : Prop :=
  forall n c, (n <= length evs)%nat -> stored (sy_kv (drives s (take n evs))) pendingConfigKey c -> admissible c.

Lemma drives_ok n L W mk s evs : 0 <= n -> sys_ok (n + len evs) L W s -> pool_ok W mk (sy_pool s) -> timely_recoveries s mk evs = true ->
  stays_admissible s evs -> exists W', sys_ok n (L ++ accepted s evs) W' (drives s evs).
Proof.
  intros Hn0. revert L W mk s. induction evs as [|e evs IH]; intros L W mk s Hs Hpool Htime Hadm; cbn [accepted].
  - exists W. rewrite app_nil_r. by replace (n + len []) with n in Hs by (simpl; lia).
  - cbn [timely_recoveries] in Htime. apply andb_prop in Htime as [Ht1 Ht2].
    destruct (drive_ok (n + len evs) L W mk s e) as (W' & _ & Hs' & Hp'); [lia|by replace (n + len evs + 1) with (n + len (e :: evs)) by (simpl; lia)|done|done| |].
    + intros c Hc. apply (Hadm 1%nat c); [simpl; lia|exact Hc].
    + rewrite app_assoc. apply (IH _ W' (track s mk e)); [done..|]. intros k c Hk Hc. apply (Hadm (S k) c); [simpl; lia|exact Hc].
Qed.

(** ** The start *)

Lemma init_get g sh : is_shard sh -> get (initShards g) sh = Some (MkShardRec ∅ (if g =? Gid1 then ShardServing else ShardNotOwned) 0).
Proof.
  intros Hsh. unfold is_shard in Hsh. apply get_Some. split; [lia|]. apply lookup_replicate_2. lia.
Qed.

Definition start_owner (k : nat) : Z := Gid1 + Z.of_nat k.

Definition start_world (c : ShardConfig) : World := MkWorld (fun _ => c) 0 0 (fun _ => init_mig start_owner).

Lemma first_config_start c : first_config = Some c -> usable c /\ Num c = NumFirst /\ forall sh, is_shard sh -> get (Shards c) sh = Some Gid1.
Proof.
  rewrite first_config_eq. set (l := replicate NShards Gid1). intros [= <-]. split_and!; [|done|].
  - constructor; cbn [Shards Groups].
    + apply length_replicate.
    + by apply map_Forall_singleton.
    + apply Forall_replicate. cbn [Groups]. by rewrite lookup_singleton_eq.
    + by apply lookup_singleton_ne.
  - intros sh Hsh. unfold is_shard in Hsh. apply get_Some. split; [lia|]. apply (lookup_replicate_2 NShards). lia.
Qed.

Lemma service_start_ok c gids n : first_config = Some c -> Gid1 ∈ gids -> n < 2 ^ 64 - 1 -> sys_ok n [] (start_world c) (fresh_service c gids).
Proof.
  intros Hc Hg Hn. destruct (first_config_start c Hc) as (Hu & Hnum & Hown). constructor; simpl; auto.
  - constructor; simpl; auto; [intros k Hk; assert (k = O) as -> by lia; lia|rewrite Hnum; unfold NumFirst; lia].
  - intros srvs kv (g & _ & ->)%fresh_shape. apply length_replicate.
  - intros srvs [kv (g & ? & _)%fresh_shape]. by exists g.
  - intros sh Hsh. exists start_owner, Z.of_nat. split; [|by apply init_mig_inv]. constructor.
    + done.
    + intros k. lia.
    + intros k. unfold start_owner. lia.
    + done.
    + intros k Hk. cbn [start_world w_last] in Hk. assert (k = O) as -> by lia. unfold own. cbn [start_world w_cfg]. by rewrite (Hown sh Hsh).
    + intros k (_ & Hk & _). cbn [start_world w_last] in Hk. lia.
    + cbn [start_world w_cfg w_last hops]. rewrite Hnum. done.
  - intros sh k Hk. lia.
  - intros sh g Hsh. unfold rec_at. rewrite fresh_lookup. destruct (decide (g ∈ gids)) as [|Hno]; cbn [mbind option_bind default].
    + by rewrite init_get.
    + assert (g <> Gid1) as Hne by congruence. unfold start_owner. rewrite Z.add_0_r. by rewrite (proj2 (Z.eqb_neq _ _) Hne).
Qed.

(** What the invariant gives of a whole run. *)
Lemma service_run_ok n c gids evs : 0 <= n -> first_config = Some c -> Gid1 ∈ gids -> n + len evs < 2 ^ 64 - 1 ->
  stays_admissible (fresh_service c gids) evs -> timely_recoveries (fresh_service c gids) ∅ evs = true ->
  exists W, sys_ok n (accepted (fresh_service c gids) evs) W (drives (fresh_service c gids) evs).
Proof.
  intros Hn Hc Hg Hlen Hadm Htime. apply (drives_ok n [] (start_world c) ∅); [done|by apply service_start_ok| |done..].
  split; [done|]. intros i [? Hi]. by rewrite lookup_empty in Hi.
Qed.

(** ** One store from twelve *)

(** A Put depends on its key only. *)
Lemma Put_local (kv kv' : KVServer) a : kv !! PutArgs_Key a = kv' !! PutArgs_Key a ->
  snd (Put kv a) = snd (Put kv' a) /\ fst (Put kv a) !! PutArgs_Key a = fst (Put kv' a) !! PutArgs_Key a.
Proof.
  intros E. unfold Put. rewrite E. destruct (kv' !! PutArgs_Key a) as [e|] eqn:Hk; destruct (_ =? _); simpl; rewrite ?lookup_insert_eq; auto; split; congruence.
Qed.

Lemma puts_filter L key sh : Key2Shard key = sh ->
  puts ∅ (map fst L) !! key = puts ∅ (map fst (filter (of_shard sh) L)) !! key.
Proof.
  intros Hsh. induction L as [|[a r] L IH] using rev_ind; [done|]. rewrite map_app, puts_app. cbn [map fst].
  destruct (decide (PutArgs_Key a = key)) as [Hk|Hk].
  - rewrite filter_snoc_same by (unfold of_shard; simpl; congruence). rewrite map_app, puts_app. simpl. subst key. by apply Put_local.
  - simpl. rewrite Put_other, IH by auto. destruct (decide (of_shard sh (a, r))).
    + rewrite filter_snoc_same, map_app, puts_app by done. simpl. by rewrite Put_other.
    + by rewrite filter_snoc_other.
Qed.

Lemma replays_app kv l1 l2 : replays kv (l1 ++ l2) <-> replays kv l1 /\ replays (puts kv (map fst l1)) l2.
Proof.
  revert kv. induction l1 as [|[a r] l1 IH]; intros kv; simpl; [naive_solver|]. rewrite IH. naive_solver.
Qed.

Lemma replays_merge L : (forall sh, is_shard sh -> replays ∅ (filter (of_shard sh) L)) -> replays ∅ L.
Proof.
  induction L as [|[a r] L IH] using rev_ind; intros Hall; [done|]. apply replays_app. split.
  - apply IH. intros sh Hsh. specialize (Hall sh Hsh). rewrite filter_app in Hall. by apply replays_app in Hall as [? _].
  - specialize (Hall (Key2Shard (PutArgs_Key a)) (Key2Shard_range _)). rewrite filter_snoc_same in Hall by done.
    apply replays_app in Hall as [_ [Hr _]]. split; [|done]. rewrite <-Hr. by apply Put_local, puts_filter.
Qed.

(** The reply of a group to a request for a shard it has. *)
Lemma grp_exec_at {R : Type} gs srvs req sh (f : shardRec -> shardRec * R) (wrap : R -> GrpRep) r :
  (forall kv, Grp_DoOp kv req = ('(kv', r) ← on_shard kv sh f; Some (kv', wrap r))) -> groups_wf gs -> is_shard sh ->
  rec_at gs srvs sh = Some r -> snd (grp_exec gs srvs req) = Some (wrap (snd (f r))).
Proof.
  intros Hop Hwf Hsh Hr. destruct (grp_exec_shard gs srvs req sh f wrap Hop Hwf Hsh) as [[Hno _]|(r1 & gs' & _ & Hr1 & _ & _ & ->)].
  - unfold rec_at in Hr. by rewrite Hno in Hr.
  - assert (r1 = r) as -> by congruence. done.
Qed.

(** What the invariant says of a serving group. *)
Lemma serving_group n L W s sh g r : sys_ok n L W s -> is_shard sh -> rec_at (sy_groups s) (GroupServers g) sh = Some r ->
  SState r = ShardServing -> Data r = puts ∅ (map fst (filter (of_shard sh) L)) /\
  forall g' r', rec_at (sy_groups s) (GroupServers g') sh = Some r' -> SState r' = ShardServing -> g' = g.
Proof.
  intros Hs Hsh Hr Hserv. destruct (so_shards _ _ _ _ Hs sh Hsh) as (owner & num & _ & Hm).
  pose proof (so_rec _ _ _ _ _ _ _ Hs Hsh Hr) as Er. rewrite <-Er in Hserv.
  destruct (serving_unique owner num _ g Hm Hserv) as [Hd Hu]. rewrite <-Er, Hd. split.
  - unfold store. by rewrite (so_log _ _ _ _ Hs sh Hsh).
  - intros g' r' Hr' Hs'. apply Hu. by rewrite (so_rec _ _ _ _ _ _ _ Hs Hsh Hr').
Qed.

(** A group that serves the shard of a key answers as the store does. *)
Lemma serving_get n L W s g r a : sys_ok n L W s -> rec_at (sy_groups s) (GroupServers g) (Key2Shard (GetArgs_Key a)) = Some r ->
  SState r = ShardServing -> get_rec r a = Get (puts ∅ (map fst L)) a.
Proof.
  intros Hs Hr Hserv. destruct (serving_group _ _ _ _ _ _ _ Hs (Key2Shard_range _) Hr Hserv) as [Hd _].
  unfold get_rec, Get. by rewrite Hserv, Hd, <-puts_filter.
Qed.

Lemma serving_put n L W s g r a : sys_ok n L W s -> rec_at (sy_groups s) (GroupServers g) (Key2Shard (PutArgs_Key a)) = Some r ->
  SState r = ShardServing -> snd (put_rec r a) = snd (Put (puts ∅ (map fst L)) a).
Proof.
  intros Hs Hr Hserv. destruct (serving_group _ _ _ _ _ _ _ Hs (Key2Shard_range _) Hr Hserv) as [Hd _].
  rewrite put_rec_serving by done. simpl. rewrite Hd. symmetry. by apply Put_local, puts_filter.
Qed.

(** When all claimed configurations are published, the last one tells where
    the shards are. *)
Lemma settled_serving n L W s sh : sys_ok n L W s -> w_pub W = w_last W -> is_shard sh ->
  exists r, rec_at (sy_groups s) (GroupServers (own (w_cfg W) sh (w_last W))) sh = Some r /\ SState r = ShardServing.
Proof.
  intros Hs E Hsh. destruct (so_shards _ _ _ _ Hs sh Hsh) as (owner & num & Hp & Hm).
  pose proof (all_over _ _ _ _ _ Hs E Hsh) as Hover.
  assert (SState (recs (w_mig W sh) (owner (cur (w_mig W sh)))) = ShardServing) as Hserv.
  { destruct (mi_phase _ _ _ Hm) as [_ [Hserv _] _|k Hk Hik _ _ _ _|k Hk Hik _ _ _ _ _|k Hk _ Hdk _ _ _ _]; [done|..]; exfalso;
      (destruct Hover as [|Hdel]; [lia|]); rewrite Hk in Hdel; try congruence; destruct (mi_deleted _ _ _ Hm _ Hdel); congruence. }
  rewrite (pt_cur _ _ _ _ Hp), (pt_owner _ _ _ _ Hp) in Hserv by lia. rewrite (so_recs _ _ _ _ Hs) in Hserv by done.
  destruct (rec_at _ _ _) as [r|]; [by exists r|done].
Qed.

(** ** Theorems *)

(** C7 (refinement): resharding is invisible.  Let any number of controllers
    add groups, remove groups and recover at the same time, interleaved at
    every remote operation (the two Gets of a recovery are two steps), with
    answers lost and requests executed again or arbitrarily late, while
    clients send Puts to any group.  Conditions: every claimed configuration
    names some group; and when a recovery makes its second Get, the pending
    configuration is at most one ahead of the current one that its first Get
    returned, so nobody has completed a change and claimed the next one
    between the two ([timely_recoveries]; without it the code loses writes,
    [stale_recovery_loses_data]).  Then the Puts that groups took, in the
    order in which they took them, are a run of one kvsrv1 store with the
    same replies, and a group that serves a key's shard answers a Get as that
    store does: no write is lost, duplicated or reordered by any move. *)
Theorem sharded_service_is_one_store c gids evs
    (s0 := fresh_service c gids) (s := drives s0 evs) (kv := puts ∅ (map fst (accepted s0 evs))) :
  first_config = Some c -> Gid1 ∈ gids -> len evs < 2 ^ 64 - 1 -> stays_admissible s0 evs -> timely_recoveries s0 ∅ evs = true ->
  replays ∅ (accepted s0 evs) /\
  (forall a g r, rec_at (sy_groups s) (GroupServers g) (Key2Shard (GetArgs_Key a)) = Some r ->
    SState r = ShardServing -> get_rec r a = Get kv a).
Proof.
  intros Hc Hg Hlen Hadm Htime. destruct (service_run_ok 0 c gids evs) as [W Hs]; [done..|]. fold s0 s in Hs. split_and!.
  - apply replays_merge. intros sh Hsh. rewrite <-(so_log _ _ _ _ Hs sh Hsh).
    destruct (so_shards _ _ _ _ Hs sh Hsh) as (owner & num & _ & Hm). apply Hm.
  - intros a g r. by apply (serving_get 0 _ W).
Qed.

(** C8 (safety): at no time do two groups serve the same shard.  In every run
    of any number of controllers that add groups, remove groups and recover,
    under the conditions of [sharded_service_is_one_store] (claimed
    configurations name groups, recoveries make their second Get in time),
    after every prefix of the run at most one group serves a given shard, and
    the data it holds for the shard is exactly what the Puts taken so far by
    whichever groups served the shard have left in a single store. *)
Theorem one_group_serves_each_shard c gids evs sh g g' r r' (s0 := fresh_service c gids) (s := drives s0 evs) :
  first_config = Some c -> Gid1 ∈ gids -> len evs < 2 ^ 64 - 1 -> stays_admissible s0 evs -> timely_recoveries s0 ∅ evs = true ->
  is_shard sh -> rec_at (sy_groups s) (GroupServers g) sh = Some r -> SState r = ShardServing ->
  Data r = puts ∅ (map fst (filter (of_shard sh) (accepted s0 evs))) /\
  (rec_at (sy_groups s) (GroupServers g') sh = Some r' -> SState r' = ShardServing -> g' = g).
Proof.
  intros Hc Hg Hlen Hadm Htime Hsh Hr Hserv. destruct (service_run_ok 0 c gids evs) as [W Hs]; [done..|]. fold s0 s in Hs.
  destruct (serving_group _ _ _ _ _ _ _ Hs Hsh Hr Hserv) as [Hd Hu]. split; [done|apply Hu].
Qed.

(** C13 (invariant): the configuration tells the truth.  In every run of
    controllers that meets the conditions of [sharded_service_is_one_store]
    (claimed configurations name groups, recoveries make their second Get in
    time), whenever the pending configuration is not ahead of the current
    one, the group to which the current configuration gives the shard of a
    key serves it: it answers a Get and a Put of the key as the one store
    that holds all Puts taken so far, however often the shard has moved. *)
Theorem settled_configuration_serves c gids evs c1 key
    (s0 := fresh_service c gids) (s := drives s0 evs) (kv := puts ∅ (map fst (accepted s0 evs))) :
  first_config = Some c -> Gid1 ∈ gids -> len evs < 2 ^ 64 - 1 -> stays_admissible s0 evs -> timely_recoveries s0 ∅ evs = true ->
  stored (sy_kv s) configKey c1 -> (forall c2, stored (sy_kv s) pendingConfigKey c2 -> Num c2 <= Num c1) ->
  exists g, get (Shards c1) (Key2Shard key) = Some g /\ Groups c1 !! g = Some (GroupServers g) /\
    snd (grp_exec (sy_groups s) (GroupServers g) (RGet (MkGetArgs key))) = Some (PGet (Get kv (MkGetArgs key))) /\
    forall v ver, snd (grp_exec (sy_groups s) (GroupServers g) (RPut (MkPutArgs key v ver))) =
      Some (PPut (snd (Put kv (MkPutArgs key v ver)))).
Proof.
  intros Hc Hg Hlen Hadm Htime (e & He & _ & Hv) Hpend. destruct (service_run_ok 0 c gids evs) as [W Hs]; [done..|]. fold s0 s in Hs.
  pose proof (so_world _ _ _ _ Hs) as Hok. pose proof (wo_pub _ Hok). rewrite (so_current _ _ _ _ Hs) in He. injection He as <-.
  apply String_inj in Hv as <-. assert (w_pub W = w_last W) as E.
  { destruct (decide (w_last W = 0%nat)); [lia|]. pose proof (num_diff W (w_pub W) (w_last W) Hok). assert (Num (w_cfg W (w_last W)) <= Num (w_cfg W (w_pub W))); [|lia].
    apply Hpend. eexists. rewrite (so_pending _ _ _ _ Hs), (proj2 (Nat.eqb_neq _ _)) by done. split_and!; [done|simpl; lia|done]. }
  rewrite E. pose proof (Key2Shard_range key) as Hsh. destruct (own_get W (Key2Shard key) (w_last W) Hok Hsh) as (Hget & _ & Hgrp); [lia|].
  destruct (settled_serving _ _ _ _ _ Hs E Hsh) as (r & Hr & Hserv). eexists. split_and!; [exact Hget|exact Hgrp|..].
  - rewrite (grp_exec_at _ _ _ (Key2Shard key) (fun r => (r, get_rec r (MkGetArgs key))) PGet r); auto; [|apply Hs].
    cbn [snd]. by rewrite (serving_get 0 _ W _ _ _ (MkGetArgs key) Hs Hr Hserv).
  - intros v ver. rewrite (grp_exec_at _ _ _ (Key2Shard key) (fun r => put_rec r (MkPutArgs key v ver)) PPut r); auto; [|apply Hs].
    by rewrite (serving_put 0 _ W _ _ _ (MkPutArgs key v ver) Hs Hr Hserv).
Qed.

(** A run is checked by evaluation. *)
Definition admissible_b (kv : KVServer) : bool :=
  match kv !! pendingConfigKey with
  | None => true
  | Some e => match FromString (value e) with None => true | Some c => bool_decide (Groups c <> ∅) && bool_decide (Groups c !! 0 = None) end
  end.

Fixpoint stays_admissible_b (s : Sys) (evs : list Event) : bool :=
  admissible_b (sy_kv s) && match evs with [] => true | e :: evs => stays_admissible_b (drive s e) evs end.

Lemma stays_admissible_check s evs : stays_admissible_b s evs = true -> stays_admissible s evs.
Proof.
  revert s. induction evs as [|e evs IH]; intros s [Hs Hrest]%andb_true_iff [|n] c Hn (x & Hx & H1 & Hv); try (simpl in Hn; lia).
  1,2: simpl in Hx; unfold admissible_b in Hs; rewrite Hx, Hv, FromString_String, andb_true_iff, !bool_decide_eq_true in Hs; exact Hs.
  apply (IH _ Hrest n c); [simpl in Hn; lia|]. exists x. split_and!; [exact Hx|done|exact Hv].
Qed.

End Safety.

(** ** A concrete run

    A client writes "x" at group 1.  A driver adds group 2; the answer to its
    first freeze is lost, and a second controller recovers the change and
    finishes it while the first one goes on.  An old freeze is executed
    late, "x" is written at its new group, and group 1 leaves. *)

#[local] Existing Instance binary_json.

Definition demo_first : ShardConfig := MkShardConfig NumFirst (replicate NShards Gid1) {[Gid1 := GroupServers Gid1]}.
Definition all_runs (i n : nat) : list Event := replicate n (DRun i Answered).
Definition demo_run : list Event :=
  [DPut (GroupServers 1) (MkPutArgs "x" "a" 0); DJoin 5 2] ++ all_runs 0 4 ++ [DRun 0 Unanswered; DRecover 5] ++
  all_runs 1 22 ++ all_runs 0 19 ++ [DLate 0; DPut (GroupServers 2) (MkPutArgs "x" "b" 1); DPut (GroupServers 1) (MkPutArgs "x" "c" 1); DLeave 5 1] ++
  all_runs 2 24.

Definition demo_service : Sys := fresh_service demo_first [1; 2; 3].

Lemma sharded_service_is_one_store_witness :
  replays ∅ (accepted demo_service demo_run) /\
  accepted demo_service demo_run = [(MkPutArgs "x" "a" 0, MkPutReply OK); (MkPutArgs "x" "b" 1, MkPutReply OK)].
Proof.
  split; [|vm_compute; reflexivity].
  refine (proj1 (sharded_service_is_one_store demo_first [1; 2; 3] demo_run _ _ _ _ _)).
  - vm_compute. reflexivity.
  - left.
  - vm_compute. reflexivity.
  - apply stays_admissible_check. vm_compute. reflexivity.
  - vm_compute. reflexivity.
Defined.

(** When the Puts of "x" have been sent, before group 1 leaves. *)
Definition joined_run : list Event := take 52 demo_run.

Lemma one_group_serves_each_shard_witness :
  exists r, rec_at (sy_groups (drives demo_service joined_run)) (GroupServers 2) (Key2Shard "x") = Some r /\ Data r !! "x" = Some (MkKvEntry "b" 2).
Proof.
  destruct (rec_at (sy_groups (drives demo_service joined_run)) (GroupServers 2) (Key2Shard "x")) as [r|] eqn:Hr; [|vm_compute in Hr; discriminate].
  exists r. split; [reflexivity|].
  destruct (one_group_serves_each_shard demo_first [1; 2; 3] joined_run (Key2Shard "x") 2 1 r r) as [-> _].
  - vm_compute. reflexivity.
  - left.
  - vm_compute. reflexivity.
  - apply stays_admissible_check. vm_compute. reflexivity.
  - vm_compute. reflexivity.
  - apply Key2Shard_range.
  - exact Hr.
  - vm_compute in Hr. injection Hr as <-. vm_compute. reflexivity.
  - vm_compute. reflexivity.
Defined.

Lemma settled_configuration_serves_witness :
  exists c1 g, stored_num (sy_kv (drives demo_service demo_run)) configKey = Some 3 /\ Num c1 = 3 /\
    get (Shards c1) (Key2Shard "x") = Some g /\
    snd (grp_exec (sy_groups (drives demo_service demo_run)) (GroupServers g) (RGet (MkGetArgs "x"))) = Some (PGet (MkGetReply "b" 2 OK)).
Proof.
  pose (c1 := MkShardConfig 3 (replicate NShards 2) {[2 := GroupServers 2]}).
  destruct (settled_configuration_serves demo_first [1; 2; 3] demo_run c1 "x") as (g & Hg & _ & Hget & _).
  - vm_compute. reflexivity.
  - left.
  - vm_compute. reflexivity.
  - apply stays_admissible_check. vm_compute. reflexivity.
  - vm_compute. reflexivity.
  - eexists. vm_compute. split_and!; [reflexivity|discriminate|reflexivity].
  - intros c2 (e & He & _ & Hv). assert (FromString (value e) = Some c1) as Hc.
    { assert ((fun e => FromString (value e)) <$> (sy_kv (drives (fresh_service demo_first [1; 2; 3]) demo_run) !! pendingConfigKey) = Some (Some c1)) as Hc
        by (vm_compute; reflexivity). rewrite He in Hc. by injection Hc. }
    rewrite Hv, FromString_String in Hc. by injection Hc as ->.
  - exists c1, g. split; [vm_compute; reflexivity|]. split; [reflexivity|]. split; [exact Hg|]. refine (eq_trans Hget _). vm_compute. reflexivity.
Defined.
