(* ===== verification/ShardScenarios.v ===== *)
(** * Groups that come and go (src/shardkv1/test.go)

    joinGroups and leaveGroups add and remove groups one by one and check that
    the configuration follows; a round of concurCtrler adds a group and
    removes it again; checkShutdownSharding stops a group and expects that
    its keys, and only its keys, cannot be read.  Starting the servers of a
    group and stopping them is part of Config.v: here every group of the test
    is there from the beginning, and groups that no configuration names are
    idle.

    The theorems: from a settled service a controller that runs alone adds and
    removes any groups, with every check passed and every key kept; and
    checkShutdownSharding passes whenever it asks for a key of the stopped
    group. *)

From S2P Require Import Prelude Rpc KvSrv KvClerk TestGroup ShardCfg ShardGrp ShardCtrler ShardTest.

Section Scenarios.
Context `{CJ : ConfigJson} `{GK : Gob KVServer}.

(** ** The scenarios *)

Fixpoint joinGroups (fuel : nat) (gids : list Z) : Prog bool :=
  match gids with
  | [] => Ret true
  | gid :: gids =>
      _ ← join fuel gid (GroupServers gid);
      ok ← checkMember gid;
      if negb ok then Ret false else joinGroups fuel gids
  end.

Fixpoint leaveGroups (fuel : nat) (gids : list Z) : Prog bool :=
  match gids with
  | [] => Ret true
  | gid :: gids =>
      _ ← leave fuel gid;
      ok ← checkMember gid;
      if ok : bool then Ret false else leaveGroups fuel gids
  end.

(** A round of the goroutines of concurCtrler. *)
Definition electCtrler (fuel : nat) (ngid : Z) : Prog unit :=
  _ ← InitController fuel;
  _ ← joinGroups fuel [ngid];
  ok ← checkMember ngid;
  if ok : bool then _ ← leaveGroups fuel [ngid]; Ret tt else Ret tt.

(** A Get at the group that the configuration names. *)
Definition client_read (c : ShardConfig) (gs : GroupMap) (key : string) : option GetReply :=
  gid ← get (Shards c) (Key2Shard key);
  srvs ← Groups c !! gid;
  match snd (grp_exec gs srvs (RGet (MkGetArgs key))) with Some (PGet r) => Some r | _ => None end.

(** The goroutines of checkShutdownSharding: a Get of a key of the stopped
    group does not return; another may take too long ([slow]).  [None]: it
    has not returned when the two seconds are over. *)
Definition get_while_down (c : ShardConfig) (gs : GroupMap) (down : Z) (key : string) (slow : bool) : option string :=
  gid ← get (Shards c) (Key2Shard key);
  if (gid =? down) || slow then None else GetReply_Value <$> client_read c gs key.

(** The count of the answers; [None]: a wrong value. *)
Fixpoint count_done (c : ShardConfig) (gs : GroupMap) (down : Z) (l : list (string * string * bool)) (ndone : Z) : option Z :=
  match l with
  | [] => Some ndone
  | (k, v, slow) :: l =>
      match get_while_down c gs down k slow with
      | Some v' => if String.eqb v' v then count_done c gs down l (ndone + 1) else None
      | None => count_done c gs down l ndone
      end
  end.

(** True when the test goes on. *)
Definition checkShutdownSharding (c : ShardConfig) (gs : GroupMap) (down : Z) (l : list (string * string * bool)) : bool :=
  match count_done c gs down l 0 with
  | None => false
  | Some ndone => negb (ndone >=? len l)
  end.

(** ** A settled service

    No change is under way, and the group that configuration [c] names serves
    each shard [s], with data [D s]. *)
Record settled (D : Z -> KVServer) (kv : KVServer) (gs : GroupMap) (c : ShardConfig) : Prop := {
  se_groups : groups_wf gs;
  se_config : stored kv configKey c;
  se_pending : kv !! pendingConfigKey = None \/ exists p, stored kv pendingConfigKey p /\ Num p <= Num c;
  se_wf : cfg_wf c;
  se_named : groups_named c;
  se_complete : complete c;
  se_zero : Groups c !! 0 = None;
  se_num : 0 <= Num c;
  se_there : forall g, is_Some (Groups c !! g) -> is_Some (gs !! GroupServers g);
  se_old : forall srvs s r, rec_at gs srvs s = Some r -> SNum r <= Num c;
  se_serves : forall s g, get (Shards c) s = Some g ->
    exists r, rec_at gs (GroupServers g) s = Some r /\ SState r = ShardServing /\ Data r = D s;
}.

(** The number of Puts the configuration keys have seen. *)
Definition room (kv : KVServer) (n : Z) : Prop := version_of kv configKey + n < 2 ^ 64 /\ version_of kv pendingConfigKey + n < 2 ^ 64.

Lemma rec_at_there gs srvs s : groups_wf gs -> is_Some (gs !! srvs) -> 0 <= s < Z.of_nat NShards -> exists r, rec_at gs srvs s = Some r.
Proof.
  intros Hwf [l Hl] Hs. unfold rec_at. rewrite Hl. simpl. apply get_in_range. rewrite (Hwf _ _ Hl). lia.
Qed.

Lemma clerkFor_named c c' g : groups_named c -> groups_named c' -> g <> 0 -> is_Some (Groups c !! g) \/ is_Some (Groups c' !! g) ->
  clerkFor c c' g = Some (GroupServers g).
Proof.
  intros Hn Hn' Hg Hin. unfold clerkFor. rewrite (proj2 (Z.eqb_neq _ _) Hg). destruct (Groups c !! g) as [srvs|] eqn:Hc; simpl.
  - rewrite (Hn _ _ Hc). done.
  - destruct Hin as [[? ?]|[srvs Hc']]; [done|]. rewrite Hc'. simpl. by rewrite (Hn' _ _ Hc').
Qed.

(** Every shard can be moved to any next configuration over groups that are
    there. *)
Lemma settled_ready D kv gs c c' s : settled D kv gs c -> next_config c c' -> complete c' -> Groups c' !! 0 = None ->
  (forall g, is_Some (Groups c' !! g) -> is_Some (gs !! GroupServers g)) -> 0 <= s < Z.of_nat NShards -> shard_ready c c' D gs s.
Proof.
  intros Hs [Hnum Hwf' Hn' _] Hc' H0' Hthere Hsh.
  destruct (get_in_range (Shards c) s) as [from Hf]; [by rewrite (se_wf _ _ _ _ Hs)|].
  destruct (get_in_range (Shards c') s) as [to Ht]; [by rewrite Hwf'|]. exists from, to. split_and!; auto. intros Hne.
  apply get_Some in Hf as Hf'. apply get_Some in Ht as Ht'. destruct Hf' as [_ Hf'], Ht' as [_ Ht'].
  assert (is_Some (Groups c !! from)) as Hfg by (pose proof (se_complete _ _ _ _ Hs) as Hc; unfold complete in Hc; rewrite Forall_lookup in Hc; eauto).
  assert (is_Some (Groups c' !! to)) as Htg by (unfold complete in Hc'; rewrite Forall_lookup in Hc'; eauto).
  assert (from <> 0) as Hf0 by (intros ->; rewrite (se_zero _ _ _ _ Hs) in Hfg; by destruct Hfg).
  assert (to <> 0) as Ht0 by (intros ->; rewrite H0' in Htg; by destruct Htg).
  destruct (se_serves _ _ _ _ Hs s from Hf) as (rs & Hrs & Hst & HD).
  destruct (rec_at_there gs (GroupServers to) s (se_groups _ _ _ _ Hs) (Hthere _ Htg) Hsh) as [rd Hrd].
  pose proof (se_old _ _ _ _ Hs _ _ _ Hrs). pose proof (se_old _ _ _ _ Hs _ _ _ Hrd).
  exists (GroupServers from), (GroupServers to), rs, rd. split_and!; auto.
  - apply clerkFor_named; auto. apply Hs.
  - apply clerkFor_named; auto. apply Hs.
  - intros E. apply (inj GroupServers) in E. done.
  - apply mp_untouched; auto; lia.
Qed.

(** After the change the service is settled in the next configuration. *)
Lemma settled_done D kv gs c c' kv' gs' : settled D kv gs c -> next_config c c' -> complete c' -> Groups c' !! 0 = None ->
  (forall g, is_Some (Groups c' !! g) -> is_Some (gs !! GroupServers g)) ->
  groups_wf gs' -> (forall s, 0 <= s < Z.of_nat NShards -> shard_done c c' D gs gs' s) ->
  stored kv' configKey c' -> stored kv' pendingConfigKey c' -> settled D kv' gs' c'.
Proof.
  intros Hs Hnx Hc' H0' Hthere Hwf' Hdone Hcfg Hpend. pose proof (nx_num _ _ Hnx) as Hnum. pose proof (se_num _ _ _ _ Hs) as Hpos.
  assert (forall srvs s r, rec_at gs' srvs s = Some r -> 0 <= s < Z.of_nat NShards) as Hrange.
  { intros srvs s r (l & Hl & Hr)%rec_at_inv. pose proof (Hwf' _ _ Hl) as Hlen. simpl in Hlen. rewrite <-Hlen. apply get_is_Some. eauto. }
  constructor; auto; try apply Hnx; try lia.
  - right. exists c'. split; [done|lia].
  - intros g Hg. destruct (Hthere g Hg) as [l Hl]. pose proof (se_groups _ _ _ _ Hs _ _ Hl) as Hlen. simpl in Hlen.
    destruct (Hdone 0) as (from & to & _ & _ & Hsame & Hmoved); [done|]. destruct (rec_at_there gs (GroupServers g) 0 (se_groups _ _ _ _ Hs)) as [r Hr]; [by eexists|done|].
    assert (is_Some (rec_at gs' (GroupServers g) 0)) as [r' Hr'].
    { destruct (decide (from = to)) as [E|E]; [rewrite (Hsame E); by eexists|]. destruct (Hmoved E) as (src & dst & _ & _ & H1 & H2 & H3).
      destruct (decide (GroupServers g = src)) as [->|]; [by eexists|]. destruct (decide (GroupServers g = dst)) as [->|]; [by eexists|].
      rewrite H3 by done. by eexists. }
    apply rec_at_inv in Hr' as (l' & Hl' & _). by exists l'.
  - intros srvs s r Hr. pose proof (Hrange _ _ _ Hr) as Hsh. destruct (Hdone s Hsh) as (from & to & _ & _ & Hsame & Hmoved).
    destruct (decide (from = to)) as [E|E]; [rewrite (Hsame E) in Hr; pose proof (se_old _ _ _ _ Hs _ _ _ Hr); lia|].
    destruct (Hmoved E) as (src & dst & _ & _ & H1 & H2 & H3). destruct (decide (srvs = src)) as [->|]; [simplify_eq; simpl; lia|].
    destruct (decide (srvs = dst)) as [->|]; [simplify_eq; simpl; lia|]. rewrite H3 in Hr by done. pose proof (se_old _ _ _ _ Hs _ _ _ Hr). lia.
  - intros s g Hg. assert (0 <= s < Z.of_nat NShards) as Hsh by (rewrite <-(nx_wf _ _ Hnx); apply get_is_Some; eauto).
    destruct (Hdone s Hsh) as (from & to & Hf & Ht & Hsame & Hmoved). assert (g = to) as -> by congruence.
    destruct (decide (from = to)) as [->|E]; [rewrite (Hsame eq_refl); by apply (se_serves _ _ _ _ Hs)|].
    destruct (Hmoved E) as (src & dst & _ & Hdst & _ & H2 & _). rewrite (clerkFor_named c c' to) in Hdst; [|apply Hs|apply Hnx| |].
    + injection Hdst as <-. eexists. split_and!; [exact H2|done|done].
    + intros ->. assert (is_Some (Groups c' !! 0)) as [? ?]; [|congruence]. unfold complete in Hc'. rewrite Forall_lookup in Hc'. apply get_Some in Ht as [_ Ht]. eauto.
    + right. unfold complete in Hc'. rewrite Forall_lookup in Hc'. apply get_Some in Ht as [_ Ht]. eauto.
Qed.

(** ** One change *)

(** A group exists exactly if it has a record of shard 0. *)
Lemma group_there gs srvs : groups_wf gs -> is_Some (gs !! srvs) <-> is_Some (rec_at gs srvs 0).
Proof.
  intros Hwf. split; [intros H; by destruct (rec_at_there gs srvs 0 Hwf H) as [r Hr]; [|eexists]|].
  intros [r (l & Hl & _)%rec_at_inv]. by eexists.
Qed.

Lemma change_keeps_groups D gs gs' c c' : groups_wf gs -> groups_wf gs' ->
  (forall s, 0 <= s < Z.of_nat NShards -> shard_ready c c' D gs s) ->
  (forall s, 0 <= s < Z.of_nat NShards -> shard_done c c' D gs gs' s) -> forall srvs, is_Some (gs !! srvs) <-> is_Some (gs' !! srvs).
Proof.
  intros Hwf Hwf' Hready Hdone srvs. rewrite !group_there by done. destruct (Hdone 0) as (from & to & Hf & Ht & Hsame & Hmoved); [done|].
  destruct (decide (from = to)) as [E|E]; [by rewrite (Hsame E)|]. destruct (Hmoved E) as (src & dst & Hsrc & Hdst & H1 & H2 & H3).
  destruct (Hready 0) as (from' & to' & Hf' & Ht' & Hr); [done|]. assert (from' = from) as -> by congruence. assert (to' = to) as -> by congruence.
  destruct (Hr E) as (src' & dst' & rs & rd & Hsrc' & Hdst' & _ & Hrs & Hrd & _). assert (src' = src) as -> by congruence. assert (dst' = dst) as -> by congruence.
  destruct (decide (srvs = src)) as [->|]; [rewrite Hrs, H1; split; by eexists|]. destruct (decide (srvs = dst)) as [->|]; [rewrite Hrd, H2; split; by eexists|].
  by rewrite H3.
Qed.

Lemma run_claim fuel kv gs c c' : Num c < Num c' -> (kv !! pendingConfigKey = None \/ exists p, stored kv pendingConfigKey p /\ Num p <= Num c) ->
  version_of kv pendingConfigKey + 1 < 2 ^ 64 ->
  run_alone kv gs (claimPendingConfig (S fuel) c c') =
    Some (<[pendingConfigKey := MkKvEntry (String_ c') (version_of kv pendingConfigKey + 1)]> kv, gs, true).
Proof.
  intros Hlt Hp Hroom. cbn [claimPendingConfig]. unfold configAtVersion. rewrite run_alone_bind. unfold version_of in *.
  destruct Hp as [Hp|(p & (e & He & H1 & Hv) & Hle)].
  - cbn [do_get mbind Prog_bind run_alone]. unfold Get. cbn [GetArgs_Key]. rewrite Hp. cbn [GetReply_Value GetReply_Version GetReply_Err].
    change (Err_eqb ErrNoKey OK) with false. cbn [negb run_alone mbind option_bind]. change (Err_eqb ErrNoKey ErrNoKey) with true.
    cbn [do_put mbind Prog_bind run_alone]. unfold ShardCtrler.clerk_put, Put. cbn [PutArgs_Key PutArgs_Version PutArgs_Value]. by rewrite Hp.
  - rewrite He in *. cbn [do_get mbind Prog_bind run_alone]. unfold Get. cbn [GetArgs_Key]. rewrite He. cbn [GetReply_Value GetReply_Version GetReply_Err].
    change (Err_eqb OK OK) with true. cbn [negb]. rewrite Hv, FromString_String. cbn [run_alone mbind option_bind].
    change (Err_eqb OK ErrNoKey) with false. change (Err_eqb OK OK) with true. cbv iota.
    destruct (Z.eqb_spec (Num p) (Num c')); [lia|]. cbn [andb]. rewrite Z.gtb_ltb. destruct (Z.ltb_spec (Num c) (Num p)); [lia|].
    cbn [do_put mbind Prog_bind run_alone]. unfold ShardCtrler.clerk_put, Put. cbn [PutArgs_Key PutArgs_Version PutArgs_Value].
    rewrite He, Z.eqb_refl. cbn. by rewrite u64_small by lia.
Qed.

Lemma stored_insert kv key c ver : 0 <= ver -> stored (<[key := MkKvEntry (String_ c) (ver + 1)]> kv) key c.
Proof. intros Hv. eexists. rewrite lookup_insert_eq. split_and!; [done|simpl; lia|done]. Qed.

Lemma stored_other kv key key' c e : key <> key' -> stored kv key c -> stored (<[key' := e]> kv) key c.
Proof. intros Hne (e' & He & ?). exists e'. by rewrite lookup_insert_ne. Qed.

Lemma version_nonneg D kv gs c : settled D kv gs c -> 0 <= version_of kv configKey /\ 0 <= version_of kv pendingConfigKey.
Proof.
  intros Hs. destruct (se_config _ _ _ _ Hs) as (e & He & H1 & _). unfold version_of. rewrite He. split; [lia|].
  destruct (se_pending _ _ _ _ Hs) as [Hp|(p & (e' & He' & H1' & _) & _)]; [by rewrite Hp|rewrite He'; lia].
Qed.

Lemma run_change fuel D kv gs c c' n : settled D kv gs c -> next_config c c' -> complete c' -> Groups c' !! 0 = None ->
  (forall g, is_Some (Groups c' !! g) -> is_Some (gs !! GroupServers g)) -> 0 <= n -> room kv (n + 1) ->
  exists kv' gs', run_alone kv gs (ChangeConfigTo (S fuel) c') = Some (kv', gs', tt) /\ settled D kv' gs' c' /\ room kv' n /\
    forall srvs, is_Some (gs !! srvs) <-> is_Some (gs' !! srvs).
Proof.
  intros Hs Hnx Hc' H0' Hthere Hn [Hr1 Hr2]. pose proof (nx_num _ _ Hnx) as Hnum. destruct (version_nonneg _ _ _ _ Hs) as [Hv1 Hv2].
  unfold ChangeConfigTo, Query. rewrite run_alone_bind, (run_configAt _ _ _ _ (se_config _ _ _ _ Hs)). obind.
  destruct (Z.leb_spec (Num c') (Num c)); [lia|]. rewrite run_alone_bind, run_claim; [|lia|apply Hs|lia]. obind.
  set (kv1 := <[pendingConfigKey := _]> kv). assert (stored kv1 configKey c) as Hst1 by (by apply stored_other; [|apply Hs]).
  assert (version_of kv1 configKey = version_of kv configKey) as Hv1' by (unfold version_of, kv1; by rewrite lookup_insert_ne).
  assert (forall s, 0 <= s < Z.of_nat NShards -> shard_ready c c' D gs s) as Hready by (intros s Hsh; by apply (settled_ready D kv gs)).
  destruct (run_completeChange fuel c c' D kv1 gs (se_groups _ _ _ _ Hs) Hready Hst1) as (gs' & -> & Hwf' & Hdone); [lia|lia|].
  eexists _, gs'. split_and!; [done| | |].
  - eapply (settled_done D kv gs c); eauto; [apply stored_insert; lia|]. apply stored_other; [done|]. by apply stored_insert.
  - unfold room, version_of in *. rewrite lookup_insert_eq, lookup_insert_ne by done. unfold kv1 at 2. rewrite lookup_insert_eq. simpl.
    rewrite Hv1'. split; lia.
  - eapply change_keeps_groups; eauto. apply Hs.
Qed.

(** ** The configurations of a join and of a leave *)

Lemma append_inj s1 s2 t1 t2 : s1 +:+ t1 = s2 +:+ t2 -> String.length t1 = String.length t2 -> s1 = s2 /\ t1 = t2.
Proof.
  assert (forall a b : string, String.length (a +:+ b) = (String.length a + String.length b)%nat) as Hl.
  { induction a as [|x a IH]; intros b; simpl; [done|]. by rewrite IH. }
  revert s2. induction s1 as [|x s1 IH]; intros [|y s2] E Ht; auto.
  - apply (f_equal String.length) in E. rewrite !Hl in E. cbn in E. lia.
  - apply (f_equal String.length) in E. rewrite !Hl in E. cbn in E. lia.
  - injection E as -> E. destruct (IH s2 E Ht) as [-> ->]. done.
Qed.

Lemma group_server_name g x : x ∈ GroupServers g -> exists t, x = "server-" +:+ (pretty.pretty g +:+ t) /\ String.length t = 2%nat.
Proof.
  unfold GroupServers, NSRV. simpl. rewrite !elem_of_cons, elem_of_nil. unfold ServerName.
  intros [->|[->|[->|[]]]]; eexists; (split; [reflexivity|]); reflexivity.
Qed.

(** Different groups share no server. *)
Lemma servers_apart g g' x : x ∈ GroupServers g -> x ∈ GroupServers g' -> g = g'.
Proof.
  intros (t & E & Ht)%group_server_name (t' & E' & Ht')%group_server_name. rewrite E in E'. apply (inj (String.append "server-")) in E'.
  apply append_inj in E' as [E' _]; [|congruence]. by apply (inj pretty.pretty) in E'.
Qed.

Lemma no_clash c gid : groups_named c -> Groups c !! gid = None -> server_clash (Groups c) (GroupServers gid) = false.
Proof.
  intros Hn Hg. apply bool_decide_eq_false. intros Hex. apply Exists_exists in Hex as ([g srvs] & Hin & Hx). apply elem_of_map_to_list in Hin. simpl in Hx.
  apply Exists_exists in Hx as (x & Hx & Hx'). rewrite (Hn _ _ Hin) in Hx. assert (g = gid) as -> by (by eapply servers_apart). congruence.
Qed.

(** The configuration that a change computes, over the groups [G]. *)
Record planned (c : ShardConfig) (G : gmap Z (list string)) (c' : ShardConfig) : Prop := {
  pl_next : next_config c c';
  pl_groups : Groups c' = G;
  pl_complete : complete c';
  pl_balanced : balanced c';
}.

Lemma rebalanced_planned c c1 : cfg_wf c1 -> Num c1 = Num c + 1 -> groups_named c1 -> Groups c1 <> ∅ ->
  exists c', Rebalance c1 = Some c' /\ planned c (Groups c1) c'.
Proof.
  intros Hwf Hn Hg Hne. destruct (Rebalance_ok c1 Hwf) as (c' & Hr & Hn' & HG & Hwf' & Hor). exists c'. split; [done|].
  destruct Hor as [[? _]|[Hc Hb]]; [done|]. constructor; auto. by eapply rebalanced_next.
Qed.

Lemma join_planned c gid : cfg_wf c -> groups_named c -> Groups c !! gid = None ->
  exists c', JoinBalance (Copy c) [(gid, GroupServers gid)] = Some (c', true) /\ planned c (<[gid := GroupServers gid]> (Groups c)) c'.
Proof.
  intros Hwf Hn Hg. unfold JoinBalance, Join. cbn [Join_loop Copy Groups Num Shards]. rewrite Hg, no_clash by done. obind.
  destruct (rebalanced_planned c (MkShardConfig (Num c + 1) (Shards c) (<[gid := GroupServers gid]> (Groups c)))) as (c' & Hr & Hp); auto.
  - by apply map_Forall_insert_2.
  - apply insert_non_empty.
  - exists c'. cbn [Num Shards Groups]. rewrite Hr. by split.
Qed.

Lemma leave_planned c gid : cfg_wf c -> groups_named c -> is_Some (Groups c !! gid) -> delete gid (Groups c) <> ∅ ->
  exists c', LeaveBalance (Copy c) [gid] = Some (c', true) /\ planned c (delete gid (Groups c)) c'.
Proof.
  intros Hwf Hn [srvs Hg] Hne. unfold LeaveBalance, Leave. cbn [Leave_loop Copy Groups Num Shards]. rewrite Hg. obind.
  destruct (rebalanced_planned c (MkShardConfig (Num c + 1) (Shards c) (delete gid (Groups c)))) as (c' & Hr & Hp); auto.
  - by apply map_Forall_delete.
  - exists c'. cbn [Num Shards Groups]. rewrite Hr. by split.
Qed.

(** *** Who is a member *)

Lemma counts_NoDup (l : list Z) : (forall g, g ∈ l -> (length (filter (fun x => x = g) l) <= 1)%nat) -> NoDup l.
Proof.
  induction l as [|x l IH]; intros H; constructor.
  - intros Hin. specialize (H x (list_elem_of_here _ _)). rewrite filter_cons, decide_True in H by done. simpl in H.
    assert (x ∈ filter (fun y => y = x) l) as Hx by (by apply list_elem_of_filter). destruct (filter _ l); [by apply elem_of_nil in Hx|]. simpl in H. lia.
  - apply IH. intros g Hg. specialize (H g (list_elem_of_further _ _ _ Hg)). rewrite filter_cons in H. case_decide; simpl in H; lia.
Qed.

(** With no more groups than shards, every group has a shard. *)
Lemma balanced_member c gid : cfg_wf c -> complete c -> balanced c -> (size (Groups c) <= NShards)%nat -> is_Some (Groups c !! gid) -> IsMember c gid = true.
Proof.
  intros Hwf Hc Hb Hsz Hg. apply bool_decide_eq_true. destruct (decide (gid ∈ Shards c)) as [|Hnot]; [done|exfalso].
  assert (counts c gid = 0) as H0.
  { unfold counts. destruct (filter (fun x => x = gid) (Shards c)) as [|y l] eqn:Hf; [done|]. exfalso. apply Hnot.
    assert (y ∈ filter (fun x => x = gid) (Shards c)) as Hy by (rewrite Hf; apply list_elem_of_here). by apply list_elem_of_filter in Hy as [-> ?]. }
  unfold complete in Hc. rewrite Forall_forall in Hc. assert (NoDup (Shards c)) as Hnd.
  { apply counts_NoDup. intros g Hin. pose proof (Hb g gid (Hc g Hin) Hg) as Hle. rewrite H0 in Hle. unfold counts in Hle. lia. }
  assert (Shards c ⊆+ (map_to_list (delete gid (Groups c))).*1) as Hsub.
  { apply NoDup_submseteq; [done|]. intros g Hin. destruct (Hc g Hin) as [srvs Hs]. apply list_elem_of_fmap. exists (g, srvs). split; [done|].
    apply elem_of_map_to_list. rewrite lookup_delete_ne; [done|]. intros ->. done. }
  apply submseteq_length in Hsub. rewrite length_fmap, length_map_to_list in Hsub. destruct Hg as [srvs Hs].
  rewrite map_size_delete_Some in Hsub by (by eexists). pose proof (map_size_ne_0_lookup_2 (Groups c) gid ltac:(by eexists)). unfold cfg_wf in Hwf. lia.
Qed.

Lemma not_member c gid : complete c -> Groups c !! gid = None -> IsMember c gid = false.
Proof.
  intros Hc Hg. apply bool_decide_eq_false. intros Hin. unfold complete in Hc. rewrite Forall_forall in Hc. destruct (Hc gid Hin). congruence.
Qed.

(** ** Adding and removing groups *)

Lemma run_Query D kv gs c : settled D kv gs c -> run_alone kv gs Query = Some (kv, gs, Some c).
Proof. intros Hs. unfold Query. by apply run_configAt, Hs. Qed.

(** With no change under way InitController does nothing. *)
Lemma run_idle_Init D kv gs c fuel : settled D kv gs c -> run_alone kv gs (InitController fuel) = Some (kv, gs, tt).
Proof.
  intros Hs. unfold InitController. rewrite run_alone_bind, (run_configAt _ _ _ _ (se_config _ _ _ _ Hs)). obind. rewrite run_alone_bind.
  destruct (se_pending _ _ _ _ Hs) as [Hp|(p & Hp & Hle)].
  - assert (run_alone kv gs (configAt pendingConfigKey) = Some (kv, gs, None)) as ->; [|done]. cbn. unfold Get. cbn [GetArgs_Key]. rewrite Hp. done.
  - rewrite (run_configAt _ _ _ _ Hp). obind. by rewrite (proj2 (Z.leb_le _ _) Hle).
Qed.

Lemma run_checkMember D kv gs c gid : settled D kv gs c -> run_alone kv gs (checkMember gid) = Some (kv, gs, IsMember c gid).
Proof. intros Hs. unfold checkMember. by rewrite run_alone_bind, (run_Query D kv gs c Hs). Qed.

(** A reconfiguration to a planned configuration over groups that are there. *)
Lemma run_reconfigure fuel D kv gs c c' G f n : settled D kv gs c -> f (Copy c) = Some (c', true) -> planned c G c' -> G !! 0 = None ->
  (forall g, is_Some (G !! g) -> is_Some (gs !! GroupServers g)) -> 0 <= n -> room kv (n + 1) ->
  exists kv' gs', run_alone kv gs (reconfigure (S fuel) f) = Some (kv', gs', tt) /\ settled D kv' gs' c' /\ room kv' n /\
    forall srvs, is_Some (gs !! srvs) <-> is_Some (gs' !! srvs).
Proof.
  intros Hs Hf [Hnx HG Hc Hb] H0 Hthere Hn Hr. unfold reconfigure. rewrite run_alone_bind, (run_Query D kv gs c Hs). obind. rewrite Hf.
  rewrite <-HG in H0, Hthere. by apply (run_change fuel D kv gs c c' n).
Qed.

Definition same_groups (gs gs' : GroupMap) : Prop := forall srvs, is_Some (gs !! srvs) <-> is_Some (gs' !! srvs).

(** The groups of [c'] are those of [c], changed as [P] says. *)
Lemma run_joinGroups fuel D gids kv gs c n : settled D kv gs c -> NoDup gids -> 0 <= n -> room kv (n + len gids) ->
  (size (Groups c) + length gids <= NShards)%nat ->
  (forall g, g ∈ gids -> g <> 0 /\ Groups c !! g = None /\ is_Some (gs !! GroupServers g)) ->
  exists kv' gs' c', run_alone kv gs (joinGroups (S fuel) gids) = Some (kv', gs', true) /\ settled D kv' gs' c' /\ room kv' n /\
    same_groups gs gs' /\ Num c' = Num c + len gids /\ (forall g, is_Some (Groups c' !! g) <-> is_Some (Groups c !! g) \/ g ∈ gids) /\
    (balanced c -> balanced c') /\ (gids <> [] -> balanced c').
Proof.
  intros Hs Hnd Hn. revert kv gs c Hs. induction Hnd as [|gid gids Hnot Hnd IH]; intros kv gs c Hs Hr Hsz Hg; cbn [joinGroups].
  { exists kv, gs, c. split_and!; [done|done|by rewrite Z.add_0_r in Hr|done|simpl; lia| |done|done]. intros g. set_solver. }
  cbn [length] in Hr, Hsz |- *. destruct (Hg gid) as (H0 & Hnew & Hthere); [set_solver|].
  destruct (join_planned c gid (se_wf _ _ _ _ Hs) (se_named _ _ _ _ Hs) Hnew) as (c1 & Hj & Hp). rewrite run_alone_bind. unfold join.
  destruct (run_reconfigure fuel D kv gs c c1 _ (fun newcfg => JoinBalance newcfg [(gid, GroupServers gid)]) (n + len gids) Hs Hj Hp) as (kv1 & gs1 & -> & Hs1 & Hr1 & Hsame).
  { rewrite lookup_insert_ne by done. apply Hs. }
  { intros g [srvs [[<- _]|[_ Hc]]%lookup_insert_Some]; [done|]. apply (se_there _ _ _ _ Hs). by eexists. }
  { lia. }
  { unfold room in *. lia. }
  obind. rewrite run_alone_bind, (run_checkMember D kv1 gs1 c1 gid Hs1). obind. pose proof (pl_groups _ _ _ Hp) as HG.
  assert (size (Groups c1) = S (size (Groups c))) as Hsz1 by (rewrite HG; by apply map_size_insert_None).
  rewrite (balanced_member c1 gid (se_wf _ _ _ _ Hs1) (se_complete _ _ _ _ Hs1) (pl_balanced _ _ _ Hp)); [|lia|rewrite HG, lookup_insert_eq; by eexists]. obind.
  destruct (IH kv1 gs1 c1 Hs1 Hr1) as (kv2 & gs2 & c2 & -> & Hs2 & Hr2 & Hsame2 & Hnum & Hmem & Hb2 & _); [lia| |].
  { intros g Hin. destruct (Hg g) as (? & Hgn & Hgt); [set_solver|]. split_and!; [done|rewrite HG, lookup_insert_ne; [done|congruence]|by apply Hsame]. }
  exists kv2, gs2, c2. split_and!; auto.
  - intros srvs. rewrite Hsame. apply Hsame2.
  - rewrite Hnum, (nx_num _ _ (pl_next _ _ _ Hp)). lia.
  - intros g. rewrite Hmem, HG. destruct (decide (g = gid)) as [->|]; [rewrite lookup_insert_eq|rewrite lookup_insert_ne by done]; set_solver.
  - intros _. apply Hb2, Hp.
  - intros _. apply Hb2, Hp.
Qed.

Lemma run_leaveGroups fuel D gids g0 kv gs c n : settled D kv gs c -> NoDup gids -> 0 <= n -> room kv (n + len gids) ->
  is_Some (Groups c !! g0) -> g0 ∉ gids -> (forall g, g ∈ gids -> is_Some (Groups c !! g)) ->
  exists kv' gs' c', run_alone kv gs (leaveGroups (S fuel) gids) = Some (kv', gs', true) /\ settled D kv' gs' c' /\ room kv' n /\
    same_groups gs gs' /\ Num c' = Num c + len gids /\ forall g, is_Some (Groups c' !! g) <-> is_Some (Groups c !! g) /\ g ∉ gids.
Proof.
  intros Hs Hnd Hn. revert kv gs c Hs. induction Hnd as [|gid gids Hnot Hnd IH]; intros kv gs c Hs Hr H0 Hg0 Hg; cbn [leaveGroups].
  { exists kv, gs, c. split_and!; [done|done|by rewrite Z.add_0_r in Hr|done|simpl; lia|]. intros g. set_solver. }
  cbn [length] in Hr |- *. assert (gid <> g0) as Hne by set_solver.
  assert (is_Some (delete gid (Groups c) !! g0)) as H0' by (by rewrite lookup_delete_ne).
  destruct (leave_planned c gid (se_wf _ _ _ _ Hs) (se_named _ _ _ _ Hs)) as (c1 & Hj & Hp); [apply Hg; set_solver|intros E; rewrite E, lookup_empty in H0'; by destruct H0'|].
  rewrite run_alone_bind. unfold leave.
  destruct (run_reconfigure fuel D kv gs c c1 _ (fun newcfg => LeaveBalance newcfg [gid]) (n + len gids) Hs Hj Hp) as (kv1 & gs1 & -> & Hs1 & Hr1 & Hsame).
  { apply lookup_delete_None. right. apply Hs. }
  { intros g [srvs [_ Hc]%lookup_delete_Some]. apply (se_there _ _ _ _ Hs). by eexists. }
  { lia. }
  { unfold room in *. lia. }
  obind. rewrite run_alone_bind, (run_checkMember D kv1 gs1 c1 gid Hs1). obind. pose proof (pl_groups _ _ _ Hp) as HG.
  rewrite (not_member c1 gid (se_complete _ _ _ _ Hs1)) by (rewrite HG; apply lookup_delete_eq). cbv iota.
  destruct (IH kv1 gs1 c1 Hs1 Hr1) as (kv2 & gs2 & c2 & -> & Hs2 & Hr2 & Hsame2 & Hnum & Hmem); [by rewrite HG|set_solver| |].
  { intros g Hin. rewrite HG, lookup_delete_ne by (intros ->; done). apply Hg. set_solver. }
  exists kv2, gs2, c2. split_and!; auto.
  - intros srvs. rewrite Hsame. apply Hsame2.
  - rewrite Hnum, (nx_num _ _ (pl_next _ _ _ Hp)). lia.
  - intros g. rewrite Hmem, HG. destruct (decide (g = gid)) as [->|].
    + rewrite lookup_delete_eq. split; [intros [[? ?] _]; done|set_solver].
    + rewrite lookup_delete_ne by done. set_solver.
Qed.

(** ** What clients read *)

Lemma settled_reads D kv gs c key : settled D kv gs c -> client_read c gs key = Some (Get (D (Key2Shard key)) (MkGetArgs key)).
Proof.
  intros Hs. pose proof (Key2Shard_range key) as Hr. unfold client_read. destruct (get_in_range (Shards c) (Key2Shard key)) as [g Hg]; [by rewrite (se_wf _ _ _ _ Hs)|].
  rewrite Hg. obind. assert (Groups c !! g = Some (GroupServers g)) as ->.
  { pose proof (se_complete _ _ _ _ Hs) as Hc. unfold complete in Hc. rewrite Forall_lookup in Hc. apply get_Some in Hg as [_ Hg].
    destruct (Hc _ _ Hg) as [srvs Hsr]. rewrite Hsr. f_equal. by apply (se_named _ _ _ _ Hs). }
  obind. destruct (se_serves _ _ _ _ Hs _ _ Hg) as (r & (l & Hl & Hlr)%rec_at_inv & Hst & HD).
  unfold grp_exec. rewrite Hl. unfold Grp_DoOp, doGet. cbn [GetArgs_Key].
  destruct (on_shard_set gs (GroupServers g) l (Key2Shard key) r (fun r => (r, get_rec r (MkGetArgs key))) (se_groups _ _ _ _ Hs) Hl Hlr) as (l' & -> & _).
  obind. f_equal. unfold get_rec. rewrite Hst, HD. unfold Get. cbn [GetArgs_Key]. by destruct (D (Key2Shard key) !! key).
Qed.

Lemma some_group D kv gs c : settled D kv gs c -> exists g, is_Some (Groups c !! g).
Proof.
  intros Hs. destruct (get_in_range (Shards c) 0) as [g Hg]; [by rewrite (se_wf _ _ _ _ Hs)|]. exists g. apply get_Some in Hg as [_ Hg].
  pose proof (se_complete _ _ _ _ Hs) as Hc. unfold complete in Hc. rewrite Forall_lookup in Hc. eauto.
Qed.

Lemma named_eq c c' : groups_named c -> groups_named c' -> (forall g, is_Some (Groups c !! g) <-> is_Some (Groups c' !! g)) -> Groups c = Groups c'.
Proof.
  intros Hn Hn' H. apply map_eq. intros g. specialize (H g). destruct (Groups c !! g) as [x|] eqn:Hx.
  - destruct (proj1 H) as [y Hy]; [by eexists|]. rewrite Hy. f_equal. by rewrite (Hn _ _ Hx), (Hn' _ _ Hy).
  - destruct (Groups c' !! g) as [y|] eqn:Hy; [|done]. destruct (proj2 H) as [? ?]; [by eexists|done].
Qed.

(** C15 (liveness): groups come and go, and the data stays.  In a settled
    service, a controller that runs alone adds any new groups, as long as
    there are no more groups than shards, and removes them again: joinGroups
    and leaveGroups return true, every change is completed and published, the
    service is settled again, in a configuration with exactly the groups it
    should have, and in each of the three configurations every key reads the
    same. *)
Theorem groups_come_and_go fuel D kv gs c gids :
  settled D kv gs c -> NoDup gids -> room kv (2 * len gids) -> (size (Groups c) + length gids <= NShards)%nat ->
  (forall g, g ∈ gids -> g <> 0 /\ Groups c !! g = None /\ is_Some (gs !! GroupServers g)) ->
  exists kv1 gs1 c1 kv2 gs2 c2,
    run_alone kv gs (joinGroups (S fuel) gids) = Some (kv1, gs1, true) /\ settled D kv1 gs1 c1 /\
    (forall g, is_Some (Groups c1 !! g) <-> is_Some (Groups c !! g) \/ g ∈ gids) /\
    run_alone kv1 gs1 (leaveGroups (S fuel) gids) = Some (kv2, gs2, true) /\ settled D kv2 gs2 c2 /\
    Groups c2 = Groups c /\ Num c2 = Num c + 2 * len gids /\
    forall key, client_read c1 gs1 key = client_read c gs key /\ client_read c2 gs2 key = client_read c gs key.
Proof.
  intros Hs Hnd Hr Hsz Hg.
  destruct (run_joinGroups fuel D gids kv gs c (len gids) Hs Hnd) as (kv1 & gs1 & c1 & H1 & Hs1 & Hr1 & _ & Hn1 & Hm1 & _); [lia| |done|done|].
  { unfold room in *. lia. }
  destruct (some_group D kv gs c Hs) as [g0 Hg0].
  destruct (run_leaveGroups fuel D gids g0 kv1 gs1 c1 0 Hs1 Hnd) as (kv2 & gs2 & c2 & H2 & Hs2 & _ & _ & Hn2 & Hm2); [lia|done| | | |].
  { apply Hm1. by left. }
  { intros Hin. destruct (Hg g0 Hin) as (_ & E & _). rewrite E in Hg0. by destruct Hg0. }
  { intros g Hin. apply Hm1. by right. }
  exists kv1, gs1, c1, kv2, gs2, c2. split_and!; auto; [|lia|].
  - apply (named_eq c2 c (se_named _ _ _ _ Hs2) (se_named _ _ _ _ Hs)). intros g. rewrite Hm2, Hm1. split; [|intros H].
    + intros [[?|?] ?]; done.
    + split; [by left|]. intros Hin. destruct (Hg g Hin) as (_ & E & _). rewrite E in H. by destruct H.
  - intros key. by rewrite (settled_reads D kv gs c), (settled_reads D kv1 gs1 c1), (settled_reads D kv2 gs2 c2).
Qed.

(** A round of concurCtrler that is not disturbed leaves the groups as they
    were. *)
Theorem electCtrler_round fuel D kv gs c ngid :
  settled D kv gs c -> room kv 2 -> (size (Groups c) < NShards)%nat -> ngid <> 0 -> Groups c !! ngid = None -> is_Some (gs !! GroupServers ngid) ->
  exists kv' gs' c', run_alone kv gs (electCtrler (S fuel) ngid) = Some (kv', gs', tt) /\ settled D kv' gs' c' /\ Groups c' = Groups c.
Proof.
  intros Hs Hr Hsz H0 Hnew Hthere. unfold electCtrler. rewrite run_alone_bind, (run_idle_Init D kv gs c (S fuel) Hs). obind. rewrite run_alone_bind.
  assert (forall g, g ∈ [ngid] -> g <> 0 /\ Groups c !! g = None /\ is_Some (gs !! GroupServers g)) as Hg by (intros g ->%list_elem_of_singleton; done).
  destruct (run_joinGroups fuel D [ngid] kv gs c 1 Hs (NoDup_singleton _)) as (kv1 & gs1 & c1 & -> & Hs1 & Hr1 & _ & _ & Hm1 & _ & Hb1); [lia|done|simpl; lia|done|]. obind.
  destruct (some_group D kv gs c Hs) as [g0 Hg0].
  rewrite run_alone_bind, (run_checkMember D kv1 gs1 c1 ngid Hs1). obind. destruct (IsMember c1 ngid) eqn:Hmem.
  - rewrite run_alone_bind.
    destruct (run_leaveGroups fuel D [ngid] g0 kv1 gs1 c1 0 Hs1 (NoDup_singleton _)) as (kv2 & gs2 & c2 & -> & Hs2 & _ & _ & _ & Hm2); [lia|done| | | |].
    { apply Hm1. by left. }
    { intros ->%list_elem_of_singleton. rewrite Hnew in Hg0. by destruct Hg0. }
    { intros g Hin. apply Hm1. by right. }
    exists kv2, gs2, c2. split_and!; [done|done|]. apply (named_eq c2 c (se_named _ _ _ _ Hs2) (se_named _ _ _ _ Hs)). intros g. rewrite Hm2, Hm1, list_elem_of_singleton.
    split; [intros [[?|?] ?]; done|]. intros H. split; [by left|]. intros ->. rewrite Hnew in H. by destruct H.
  - exfalso. assert (is_Some (Groups c1 !! ngid)) as Hin by (apply Hm1; right; set_solver).
    rewrite (balanced_member c1 ngid (se_wf _ _ _ _ Hs1) (se_complete _ _ _ _ Hs1) (Hb1 ltac:(done))) in Hmem; [done| |done].
    assert (Groups c1 = Groups (MkShardConfig 0 [] (<[ngid := GroupServers ngid]> (Groups c)))) as ->; [|simpl; rewrite map_size_insert_None by done; lia].
    apply named_eq; [apply Hs1|apply map_Forall_insert_2; [done|apply Hs]|]. intros g. rewrite Hm1. simpl.
    destruct (decide (g = ngid)) as [->|]; [rewrite lookup_insert_eq|rewrite lookup_insert_ne by done]; set_solver.
Qed.

(** ** A stopped group *)

(** The Gets that do not return. *)
Definition held (c : ShardConfig) (down : Z) (x : string * string * bool) : bool :=
  let '(k, _, slow) := x in bool_decide (get (Shards c) (Key2Shard k) = Some down) || slow.

Lemma filter_keeps {A} (P : A -> Prop) `{!forall x, Decision (P x)} (l : list A) : (forall x, x ∈ l -> P x) -> filter P l = l.
Proof. induction l as [|x l IH]; intros Hall; [done|]. rewrite filter_cons, decide_True by (apply Hall; set_solver). f_equal. apply IH. set_solver. Qed.

Lemma count_done_eq D kv gs c down l n : settled D kv gs c ->
  Forall (fun x => exists e, D (Key2Shard x.1.1) !! x.1.1 = Some e /\ value e = x.1.2) l ->
  count_done c gs down l n = Some (n + len (filter (fun x => held c down x = false) l)).
Proof.
  intros Hs Hl. revert n. induction Hl as [|[[k v] slow] l (e & He & Hv) Hl IH]; intros n; simpl; [by rewrite Z.add_0_r|].
  pose proof (Key2Shard_range k) as Hr. destruct (get_in_range (Shards c) (Key2Shard k)) as [g Hg]; [by rewrite (se_wf _ _ _ _ Hs)|].
  assert (held c down (k, v, slow) = (g =? down) || slow) as Hh.
  { unfold held. rewrite Hg. f_equal. destruct (Z.eqb_spec g down); [apply bool_decide_eq_true|apply bool_decide_eq_false]; congruence. }
  unfold get_while_down. rewrite Hg. obind. rewrite filter_cons. destruct ((g =? down) || slow); [rewrite decide_False by congruence; apply IH|].
  rewrite decide_True by done.
  rewrite (settled_reads D kv gs c k Hs). simpl. unfold Get. cbn [GetArgs_Key]. simpl in He, Hv. rewrite He. simpl. rewrite Hv, String.eqb_refl, IH. f_equal. simpl. lia.
Qed.

(** A stopped group is noticed.  In a settled service that stores the
    values it is asked for, checkShutdownSharding passes exactly if it asks
    for a key of the stopped group (or a Get of another group is too slow):
    the keys of the other groups are read with their values. *)
Theorem checkShutdownSharding_passes D kv gs c down l : settled D kv gs c ->
  Forall (fun x => exists e, D (Key2Shard x.1.1) !! x.1.1 = Some e /\ value e = x.1.2) l ->
  checkShutdownSharding c gs down l = true <-> exists x, x ∈ l /\ held c down x = true.
Proof.
  intros Hs Hl. unfold checkShutdownSharding. rewrite (count_done_eq D kv gs c down l 0 Hs Hl), Z.add_0_l, negb_true_iff, Z.geb_leb, Z.leb_gt. split.
  - intros Hlt. destruct (decide (Exists (fun x => held c down x = true) l)) as [Hex|Hno]; [by apply Exists_exists in Hex|exfalso].
    assert (filter (fun x => held c down x = false) l = l) as E; [|rewrite E in Hlt; lia]. apply filter_keeps.
    intros x Hx. destruct (held c down x) eqn:E; [|done]. exfalso. apply Hno, Exists_exists. by exists x.
  - intros (x & Hin & Hx). apply list_elem_of_split in Hin as (l1 & l2 & ->). rewrite filter_app, filter_cons, decide_False by congruence.
    rewrite !length_app. simpl. pose proof (length_filter (fun x => held c down x = false) l1). pose proof (length_filter (fun x => held c down x = false) l2). lia.
Qed.

(** ** The start *)

(** setupKVService makes a settled service without data. *)
Lemma setup_settled fuel gids : NoDup gids -> Gid1 ∈ gids ->
  exists c, first_config = Some c /\ run_alone ∅ (fresh_groups gids) (setupKVService (S fuel)) = Some (initial_kv c, fresh_groups gids, tt) /\
    settled (fun _ => ∅) (initial_kv c) (fresh_groups gids) c.
Proof.
  intros Hnd H1. rewrite first_config_eq. eexists. split; [done|]. set (c := MkShardConfig _ _ _). split.
  { unfold setupKVService. rewrite first_config_eq. fold c. cbn [InitConfig do_put mbind Prog_bind run_alone]. rewrite initial_kv_eq. done. }
  assert (forall s g, get (Shards c) s = Some g -> g = Gid1 /\ 0 <= s < Z.of_nat NShards) as Hget.
  { intros s g [Hs Hg]%get_Some. apply lookup_replicate in Hg as [-> Hlt]. split; [done|]. lia. }
  constructor.
  - intros srvs l (g & _ & ->)%fresh_shape. unfold initShards. apply length_replicate.
  - rewrite initial_kv_eq. eexists. rewrite lookup_insert_eq. split_and!; [done|done|done].
  - left. rewrite initial_kv_eq. by rewrite lookup_insert_ne.
  - done.
  - intros g srvs. simpl. intros [<- <-]%lookup_singleton_Some. done.
  - apply Forall_lookup. intros i g [-> _]%lookup_replicate. simpl. rewrite lookup_singleton_eq. by eexists.
  - simpl. by rewrite lookup_singleton_ne.
  - done.
  - intros g [srvs Hg]. simpl in Hg. apply lookup_singleton_Some in Hg as [<- _]. rewrite fresh_lookup, decide_True by done. by eexists.
  - intros srvs s r (l & (g & _ & ->)%fresh_shape & Hr)%rec_at_inv. apply get_Some in Hr as [_ Hr]. apply lookup_replicate in Hr as [-> _]. done.
  - intros s g Hg. destruct (Hget s g Hg) as [-> Hs]. unfold rec_at. rewrite fresh_lookup, decide_True by done. simpl.
    eexists. split_and!; [apply get_Some; split; [lia|apply lookup_replicate_2; lia]|done|done].
Qed.

End Scenarios.

(** ** Witnesses *)

#[local] Existing Instance binary_json.

Definition scenario_config : ShardConfig := MkShardConfig NumFirst (replicate NShards Gid1) {[Gid1 := GroupServers Gid1]}.

Lemma scenario_settled : settled (fun _ => ∅) (initial_kv scenario_config) (fresh_groups [1; 2; 3; 4]) scenario_config.
Proof.
  destruct (setup_settled 0 [1; 2; 3; 4]) as (c & Hc & _ & Hs); [repeat constructor; set_solver|set_solver|].
  rewrite first_config_eq in Hc. injection Hc as <-. exact Hs.
Qed.

Lemma groups_come_and_go_witness : exists kv1 gs1 kv2 gs2,
  run_alone (initial_kv scenario_config) (fresh_groups [1; 2; 3; 4]) (joinGroups 1 [2; 3; 4]) = Some (kv1, gs1, true) /\
  run_alone kv1 gs1 (leaveGroups 1 [2; 3; 4]) = Some (kv2, gs2, true).
Proof.
  destruct (groups_come_and_go 0 (fun _ => ∅) (initial_kv scenario_config) (fresh_groups [1; 2; 3; 4]) scenario_config [2; 3; 4] scenario_settled)
    as (kv1 & gs1 & c1 & kv2 & gs2 & c2 & H1 & _ & _ & H2 & _).
  - repeat constructor; set_solver.
  - vm_compute. split; reflexivity.
  - apply Nat.leb_le. vm_compute. reflexivity.
  - intros g Hg. rewrite !elem_of_cons, elem_of_nil in Hg. destruct Hg as [->|[->|[->|[]]]]; (split; [lia|]); (split; [reflexivity|]); vm_compute; eauto.
  - exists kv1, gs1, kv2, gs2. exact (conj H1 H2).
Defined.
