(* ===== verification/ShardRecovery.v ===== *)
(** * A controller that is cut off (src/shardkv1/test.go, partitionCtrler)

    partitionCtrler lets a controller add and remove a group over and over,
    stops a group so that the controller gets stuck, cuts the controller off,
    and starts another one, which must complete what the first one left.

    Here the first part is any run of ShardTest.v: any number of controllers,
    with answers lost and requests late, stopped at any point.  The theorems:
    from every state such a run can reach, a controller that then runs alone
    completes the change under way, after which the service is settled and
    every key reads as in the one store of all Puts; and the rest of
    partitionCtrler passes its checks whenever the first controller got as
    far as to claim the change that the test believes it was making. *)

From S2P Require Import Prelude Rpc KvSrv KvClerk TestGroup ShardCfg ShardGrp Migration ShardCtrler ShardTest Reshard ReshardSafety ShardScenarios.

Section Recovery.
Context `{CJ : ConfigJson} `{GK : Gob KVServer}.

(** ** partitionCtrler, from the start of the second controller *)

Definition JOIN : Z := 1.
Definition LEAVE : Z := 2.

(** [num]: the configuration number before the first controller started;
    [state] and [ngid]: what it was doing when it was cut off.  [false] is a
    ts.Fatalf; a Query that finds nothing is dereferenced. *)
Definition partitionCtrler (fuel : nat) (num state ngid : Z) : Prog bool :=
  _ ← InitController fuel;
  cfg ← Query;
  match cfg with
  | None => Fatal
  | Some cfg =>
      if Num cfg <=? num then Ret false
      else
        let present := IsMember cfg ngid in
        if ((state =? JOIN) && negb present) || ((state =? LEAVE) && present) then Ret false
        else if (state =? JOIN) && present then _ ← leaveGroups fuel [ngid]; Ret true
        else Ret true
  end.

(** ** What the invariant of the runs gives *)

(** The data of a shard: the Puts of its keys. *)
Definition data_of (L : list (PutArgs * PutReply)) (sh : Z) : KVServer := puts ∅ (map fst (filter (of_shard sh) L)).

Abbreviation last_cfg W := (w_cfg W (w_last W)).
Abbreviation pub_cfg W := (w_cfg W (w_pub W)).

Lemma store_data n L W s sh : sys_ok n L W s -> is_shard sh -> store (w_mig W sh) = data_of L sh.
Proof. intros Hs Hsh. unfold store, data_of. by rewrite (so_log _ _ _ _ Hs sh Hsh). Qed.

(** No record is newer than the last configuration. *)
Lemma rec_old n L W s srvs sh r : sys_ok n L W s -> is_shard sh -> rec_at (sy_groups s) srvs sh = Some r -> SNum r <= Num (last_cfg W).
Proof.
  intros Hs Hsh Hr. apply rec_at_inv in Hr as Hl. destruct Hl as (l & Hl & _).
  destruct (so_named _ _ _ _ Hs srvs) as [g ->]; [by eexists|]. destruct (so_shards _ _ _ _ Hs sh Hsh) as (owner & num & Hp & Hm).
  rewrite <-(so_rec _ _ _ _ _ _ _ Hs Hsh Hr). pose proof (mi_num _ _ _ Hm g). pose proof (pt_bound _ _ _ _ Hp).
  rewrite (pt_cur _ _ _ _ Hp) in *. lia.
Qed.

(** A shard that the change under way does not move is served. *)
Lemma still_serving n L W s sh : sys_ok n L W s -> is_shard sh -> own (w_cfg W) sh (w_last W) = own (w_cfg W) sh (w_pub W) ->
  exists r, rec_at (sy_groups s) (GroupServers (own (w_cfg W) sh (w_last W))) sh = Some r /\ SState r = ShardServing /\ Data r = data_of L sh.
Proof.
  intros Hs Hsh E. destruct (so_shards _ _ _ _ Hs sh Hsh) as (owner & num & Hp & Hm). pose proof (wo_pub _ (so_world _ _ _ _ Hs)) as Hpub.
  assert (cur (w_mig W sh) = 0%nat \/ deleted (w_mig W sh) (cur (w_mig W sh)) = true) as Hover.
  { rewrite (pt_cur _ _ _ _ Hp). destruct (hops (w_cfg W) sh (w_last W)) as [|h] eqn:Hh; [by left|right].
    destruct (last_move _ _ _ _ Hh) as (k & Hk & Hne & <-). apply (so_done _ _ _ _ Hs sh k).
    - destruct (decide (S k <= w_pub W)%nat); [done|]. assert (w_last W = S k /\ w_pub W = k) as [E1 E2] by lia. congruence.
    - by split_and!. }
  assert (serving (w_mig W sh) (owner (cur (w_mig W sh)))) as Hserv.
  { destruct (mi_phase _ _ _ Hm) as [_ Hserv _|k Hk Hik _ _ _ _|k Hk Hik _ _ _ _ _|k Hk _ Hdk _ _ _ _]; [done|..]; exfalso;
      (destruct Hover as [|Hdel]; [lia|]); rewrite Hk in Hdel; try congruence; destruct (mi_deleted _ _ _ Hm _ Hdel); congruence. }
  rewrite (pt_cur _ _ _ _ Hp), (pt_owner _ _ _ _ Hp) in Hserv by lia. destruct Hserv as [H1 H2]. rewrite (store_data _ _ _ _ _ Hs Hsh) in H2.
  rewrite (so_recs _ _ _ _ Hs) in H1, H2 by done. destruct (rec_at _ _ _) as [r|]; [by exists r|done].
Qed.

(** The groups of the last configuration are there. *)
Definition groups_there W s : Prop := forall k g, (w_pub W <= k <= w_last W)%nat -> is_Some (Groups (w_cfg W k) !! g) -> is_Some (sy_groups s !! GroupServers g).

(** The phase of the current move of Migration.v, as ShardCtrler.v sees it. *)
Lemma phase_moves owner num m h : (forall k, num k < num (S k)) -> (forall k, owner (S k) <> owner k) -> mig_inv owner num m -> cur m = S h ->
  move_phase (num (S h)) (store m) (recs m (owner h)) (recs m (owner (S h))).
Proof.
  intros Hlt Hne Hm Hcur. pose proof (Hlt h) as Hl. pose proof (mi_num _ _ _ Hm) as Hnum. rewrite Hcur in Hnum.
  assert (forall g, SState (recs m g) = ShardServing -> Data (recs m g) = store m -> num (S h) <= SNum (recs m g) ->
    recs m g = MkShardRec (store m) ShardServing (num (S h))) as Hrec.
  { intros g H1 H2 H3. specialize (Hnum g). destruct (recs m g) as [d st nn]. simpl in *. f_equal; auto. lia. }
  destruct (mi_phase _ _ _ Hm) as [[Hc|Hdel] [H1 H2] Ho|k Hk Hik Hfk [H1 H2] Ho Hmx|k Hk Hik Hfk H1 H2 H3 Ho|k Hk Hik Hdk [H1 H2] H3 H4 Ho];
    [lia|rewrite Hcur in *|assert (k = h) as -> by lia..].
  - destruct (mi_deleted _ _ _ Hm _ Hdel) as (Hin & Hle & Hno). destruct (mi_installed _ _ _ Hm _ Hin) as [_ Hge].
    replace (S h - 1)%nat with h in * by lia. pose proof (Hnum (owner h)). assert (SNum (recs m (owner h)) = num (S h)) as Heq by lia.
    apply mp_deleted; auto. by apply Hno.
  - pose proof (Hmx (owner h)). pose proof (Hmx (owner (S h))). apply mp_untouched; auto; lia.
  - destruct (Ho (owner (S h)) (Hne h)) as [_ Hle]. apply mp_frozen; auto; lia.
  - destruct (mi_installed _ _ _ Hm _ Hik) as [_ Hge]. apply mp_installed; auto.
Qed.

(** A shard that it moves is somewhere on its way. *)
Lemma on_its_way n L W s sh k : sys_ok n L W s -> is_shard sh -> groups_there W s -> w_last W = S k -> w_pub W = k ->
  shard_ready (w_cfg W k) (w_cfg W (S k)) (data_of L) (sy_groups s) sh.
Proof.
  intros Hs Hsh Hthere El Ep. pose proof (so_world _ _ _ _ Hs) as Hok.
  destruct (own_get W sh k Hok Hsh) as (Hf & _ & Hfg); [lia|]. destruct (own_get W sh (S k) Hok Hsh) as (Ht & _ & Htg); [lia|].
  exists (own (w_cfg W) sh k), (own (w_cfg W) sh (S k)). split_and!; auto. intros Hne.
  destruct (rec_at_there (sy_groups s) (GroupServers (own (w_cfg W) sh k)) sh) as [rs Hrs]; [apply Hs|apply (Hthere k); [lia|by eexists]|done|].
  destruct (rec_at_there (sy_groups s) (GroupServers (own (w_cfg W) sh (S k))) sh) as [rd Hrd]; [apply Hs|apply (Hthere (S k)); [lia|by eexists]|done|].
  exists (GroupServers (own (w_cfg W) sh k)), (GroupServers (own (w_cfg W) sh (S k))), rs, rd.
  split_and!; [apply clerkFor_own; auto; lia|apply clerkFor_own; auto; lia|by intros E%(inj GroupServers)|done|done|].
  destruct (so_shards _ _ _ _ Hs sh Hsh) as (owner & num & Hp & Hm). assert (moves W sh k) as Hmv by (split_and!; auto; lia).
  rewrite <-(pt_num _ _ _ _ Hp k Hmv), <-(store_data _ _ _ _ _ Hs Hsh). pose proof (pt_cur _ _ _ _ Hp) as Hcur. rewrite El in Hcur. cbn [hops] in Hcur.
  rewrite (proj2 (Z.eqb_neq _ _) (not_eq_sym Hne)) in Hcur. set (h := hops (w_cfg W) sh k) in *.
  assert (recs (w_mig W sh) (owner h) = rs) as Ers by (unfold h; rewrite (pt_owner _ _ _ _ Hp) by lia; by apply (so_rec _ _ _ _ _ _ _ Hs Hsh)).
  assert (recs (w_mig W sh) (owner (S h)) = rd) as Erd.
  { replace (S h) with (hops (w_cfg W) sh (S k)) by (cbn [hops]; by rewrite (proj2 (Z.eqb_neq _ _) (not_eq_sym Hne))).
    rewrite (pt_owner _ _ _ _ Hp) by lia. by apply (so_rec _ _ _ _ _ _ _ Hs Hsh). }
  rewrite <-Ers, <-Erd. by apply (phase_moves owner num); [apply Hp|apply Hp|..].
Qed.

(** ** Recovery *)

Lemma last_pending n L W s : sys_ok n L W s -> w_last W <> 0%nat -> stored (sy_kv s) pendingConfigKey (last_cfg W).
Proof.
  intros Hs H. eexists. rewrite (so_pending _ _ _ _ Hs), (proj2 (Nat.eqb_neq _ _) H). split_and!; [done|simpl; lia|done].
Qed.

Lemma pub_stored n L W s : sys_ok n L W s -> stored (sy_kv s) configKey (pub_cfg W).
Proof. intros Hs. eexists. rewrite (so_current _ _ _ _ Hs). split_and!; [done|simpl; lia|done]. Qed.

Lemma last_num_pos W : world_ok W -> 0 <= Num (last_cfg W).
Proof. intros Hok. pose proof (wo_num _ Hok (w_last W)). pose proof (wo_pos _ Hok). lia. Qed.

(** With every claimed configuration published, the service is settled. *)
Lemma published_settled n L W s : sys_ok n L W s -> groups_there W s -> w_pub W = w_last W ->
  settled (data_of L) (sy_kv s) (sy_groups s) (last_cfg W).
Proof.
  intros Hs Hthere E. pose proof (so_world _ _ _ _ Hs) as Hok. destruct (wo_usable _ Hok (w_last W)) as [Hwf Hn Hc H0]; [lia|].
  pose proof (pub_stored _ _ _ _ Hs) as Hst. rewrite E in Hst. constructor; auto; try apply Hs.
  - destruct (decide (w_last W = 0%nat)) as [El|El]; [left|right].
    + by rewrite (so_pending _ _ _ _ Hs), El.
    + exists (last_cfg W). split; [by eapply last_pending|lia].
  - by apply last_num_pos.
  - intros g Hg. apply (Hthere (w_last W)); [lia|done].
  - intros srvs sh r Hr. eapply rec_old; [done| |done]. apply rec_at_inv in Hr as (l & Hl & Hr).
    pose proof (so_groups _ _ _ _ Hs _ _ Hl) as Hlen. unfold is_shard. simpl in Hlen. rewrite <-Hlen. apply get_is_Some. eauto.
  - intros sh g Hg. assert (is_shard sh) as Hsh by (unfold is_shard; rewrite <-Hwf; apply get_is_Some; eauto).
    destruct (own_get W sh (w_last W) Hok Hsh) as (Hg' & _); [lia|]. assert (g = own (w_cfg W) sh (w_last W)) as -> by congruence.
    apply (still_serving n L W s); auto; by rewrite E.
Qed.

(** A change under way is completed, and the service is settled. *)
Lemma change_completed n L W s fuel k : sys_ok n L W s -> groups_there W s -> 0 < n -> w_last W = S k -> w_pub W = k ->
  exists kv' gs', run_alone (sy_kv s) (sy_groups s) (completeChange (S fuel) (w_cfg W k) (w_cfg W (S k))) = Some (kv', gs', tt) /\
    settled (data_of L) kv' gs' (w_cfg W (S k)) /\ (forall m, room (sy_kv s) (m + 1) -> room kv' m) /\ same_groups (sy_groups s) gs'.
Proof.
  intros Hs Hthere Hn El Ep. pose proof (so_world _ _ _ _ Hs) as Hok. pose proof (pub_stored _ _ _ _ Hs) as Hst. rewrite Ep in Hst.
  assert (forall sh, is_shard sh -> shard_ready (w_cfg W k) (w_cfg W (S k)) (data_of L) (sy_groups s) sh) as Hready by (intros; by eapply on_its_way).
  assert (Num (w_cfg W k) < Num (w_cfg W (S k))) as Hlt by (pose proof (num_diff W k (S k) Hok); lia).
  assert (version_of (sy_kv s) configKey = Z.of_nat k + 1) as Hver by (unfold version_of; rewrite (so_current _ _ _ _ Hs), Ep; done).
  pose proof (so_room _ _ _ _ Hs) as Hroom.
  destruct (run_completeChange fuel _ _ (data_of L) (sy_kv s) (sy_groups s) (so_groups _ _ _ _ Hs) Hready Hst Hlt) as (gs' & Hrun & Hwf' & Hdone); [lia|].
  assert (same_groups (sy_groups s) gs') as Hsame by exact (change_keeps_groups _ _ _ _ _ (so_groups _ _ _ _ Hs) Hwf' Hready Hdone).
  eexists _, gs'. split_and!; [exact Hrun| | |done].
  - destruct (wo_usable _ Hok (S k)) as [Hwf Hnm Hc H0]; [lia|]. assert (Num (last_cfg W) = Num (w_cfg W (S k))) as HnumE by (by rewrite El).
    constructor; auto.
    + apply stored_insert; lia.
    + right. exists (w_cfg W (S k)). split; [|lia]. apply stored_other; [done|]. rewrite <-El. eapply last_pending; [done|lia].
    + rewrite <-HnumE. by apply last_num_pos.
    + intros g Hg. apply Hsame, (Hthere (S k)); [lia|done].
    + intros srvs sh r Hr. assert (is_shard sh) as Hsh.
      { apply rec_at_inv in Hr as (l & Hl & Hr). pose proof (Hwf' _ _ Hl) as Hlen. unfold is_shard. simpl in Hlen. rewrite <-Hlen. apply get_is_Some. eauto. }
      destruct (Hdone sh Hsh) as (from & to & _ & _ & Hno & Hmoved). rewrite <-HnumE.
      destruct (decide (from = to)) as [E|E]; [rewrite (Hno E) in Hr; by eapply rec_old|]. destruct (Hmoved E) as (src & dst & _ & _ & H1 & H2 & H3).
      destruct (decide (srvs = src)) as [->|]; [simplify_eq; simpl; lia|]. destruct (decide (srvs = dst)) as [->|]; [simplify_eq; simpl; lia|].
      rewrite H3 in Hr by done. by eapply rec_old.
    + intros sh g Hg. assert (is_shard sh) as Hsh by (unfold is_shard; rewrite <-Hwf; apply get_is_Some; eauto).
      destruct (own_get W sh (S k) Hok Hsh) as (Ht & _); [lia|]. destruct (own_get W sh k Hok Hsh) as (Hf & _); [lia|].
      destruct (Hdone sh Hsh) as (from & to & Hf' & Ht' & Hno & Hmoved).
      assert (from = own (w_cfg W) sh k) as -> by congruence. assert (to = own (w_cfg W) sh (S k)) as -> by congruence.
      assert (g = own (w_cfg W) sh (S k)) as -> by congruence.
      destruct (decide (own (w_cfg W) sh k = own (w_cfg W) sh (S k))) as [E|E].
      * rewrite (Hno E), <-El. apply (still_serving n L W s); auto. by rewrite El, Ep.
      * destruct (Hmoved E) as (src & dst & _ & Hdst & _ & H2 & _). rewrite (clerkFor_own W k (S k) sh) in Hdst; auto; [|lia].
        injection Hdst as <-. eexists. split_and!; [exact H2|done|done].
  - intros m [H1 H2]. unfold room, version_of in *. rewrite lookup_insert_eq, lookup_insert_ne by done. simpl. lia.
Qed.

(** InitController, alone, settles the service in the last configuration. *)
Lemma run_recovery n L W s fuel : sys_ok n L W s -> groups_there W s -> 0 < n ->
  exists kv' gs', run_alone (sy_kv s) (sy_groups s) (InitController (S fuel)) = Some (kv', gs', tt) /\
    settled (data_of L) kv' gs' (last_cfg W) /\ (forall m, room (sy_kv s) (m + 1) -> room kv' m) /\ same_groups (sy_groups s) gs'.
Proof.
  intros Hs Hthere Hn. pose proof (so_world _ _ _ _ Hs) as Hok. pose proof (wo_pub _ Hok). destruct (decide (w_pub W = w_last W)) as [E|E].
  - pose proof (published_settled _ _ _ _ Hs Hthere E) as Hset. exists (sy_kv s), (sy_groups s).
    split_and!; [by eapply run_idle_Init|done| |done]. intros m [? ?]. unfold room. lia.
  - assert (exists k, w_last W = S k /\ w_pub W = k) as (k & El & Ep) by (exists (w_pub W); lia).
    destruct (change_completed n L W s fuel k Hs Hthere Hn El Ep) as (kv' & gs' & Hrun & Hset & Hroom & Hsame). rewrite El.
    exists kv', gs'. split_and!; auto. unfold InitController. pose proof (pub_stored _ _ _ _ Hs) as Hst. rewrite Ep in Hst.
    rewrite run_alone_bind, (run_configAt _ _ _ _ Hst). obind. pose proof (last_pending _ _ _ _ Hs ltac:(lia)) as Hpd. rewrite El in Hpd.
    rewrite run_alone_bind, (run_configAt _ _ _ _ Hpd). obind. pose proof (num_diff W k (S k) Hok).
    destruct (Z.leb_spec (Num (w_cfg W (S k))) (Num (w_cfg W k))); [lia|]. done.
Qed.

(** ** Groups stay *)

Lemma grp_exec_stays gs srvs req g : is_Some (gs !! g) -> is_Some (fst (grp_exec gs srvs req) !! g).
Proof.
  intros Hg. unfold grp_exec. destruct (gs !! srvs) as [kv|]; [|done]. destruct (Grp_DoOp kv req) as [[kv' rep]|]; [|done].
  simpl. apply lookup_insert_is_Some'. by right.
Qed.

Lemma grp_call_stays gs srvs req o g : is_Some (gs !! g) -> is_Some (fst (grp_call gs srvs req o) !! g).
Proof. intros Hg. destruct o; simpl; auto using grp_exec_stays. Qed.

Lemma sys_step_stays s e g : is_Some (sy_groups s !! g) -> is_Some (sy_groups (sys_step s e) !! g).
Proof.
  intros Hg. destruct e as [i o|n|srvs a|fuel|fuel new]; simpl; auto using grp_exec_stays.
  - destruct (sy_pool s !! i) as [p|]; [|done]. destruct p as [r| | |key k|key v ver k|srvs sh num k|srvs sh st num k|srvs sh num k]; cbn [prog_step]; try done.
    + by destruct (clerk_put _ _ _).
    + pose proof (grp_call_stays _ srvs (RFreeze (MkFreezeShardArgs sh num)) o g Hg) as H. by destruct (grp_call _ _ _ _).
    + pose proof (grp_call_stays _ srvs (RInstall (MkInstallShardArgs sh st num)) o g Hg) as H. by destruct (grp_call _ _ _ _).
    + pose proof (grp_call_stays _ srvs (RDelete (MkDeleteShardArgs sh num)) o g Hg) as H. by destruct (grp_call _ _ _ _).
  - destruct (sy_issued s !! n) as [[srvs req]|]; [|done]. simpl. by apply grp_exec_stays.
Qed.

Lemma drives_stays s evs g : is_Some (sy_groups s !! g) -> is_Some (sy_groups (drives s evs) !! g).
Proof.
  revert s. induction evs as [|e evs IH]; intros s Hg; [done|]. cbn [drives foldl]. apply IH.
  destruct e; cbn [drive]; auto using sys_step_stays.
Qed.

(** ** Theorems *)

(** The last configuration that a controller has claimed. *)
Definition newest (kv : KVServer) (c : ShardConfig) : Prop :=
  (exists key, config_key key /\ stored kv key c) /\ forall key c', config_key key -> stored kv key c' -> Num c' <= Num c.

Lemma stored_eq kv key e c : kv !! key = Some e -> value e = String_ c -> forall c', stored kv key c' -> c' = c.
Proof. intros He Hv c' (e' & He' & _ & Hv'). apply String_inj. congruence. Qed.

(** What is stored: the configurations of the world. *)
Lemma stored_world n L W s key c : sys_ok n L W s -> config_key key -> stored (sy_kv s) key c -> c = pub_cfg W \/ c = last_cfg W.
Proof.
  intros Hs [->| ->] Hst; [left; by eapply (stored_eq _ _ _ _ (so_current _ _ _ _ Hs))|right].
  pose proof (so_pending _ _ _ _ Hs) as Hp. destruct (w_last W =? 0)%nat; [|by eapply (stored_eq _ _ _ _ Hp)].
  destruct Hst as (e & He & _). congruence.
Qed.

Lemma last_newest n L W s : sys_ok n L W s -> newest (sy_kv s) (last_cfg W).
Proof.
  intros Hs. pose proof (so_world _ _ _ _ Hs) as Hok. pose proof (wo_pub _ Hok) as Hpub. split.
  - destruct (decide (w_last W = 0%nat)) as [E|E].
    + exists configKey. split; [by left|]. replace (w_last W) with (w_pub W) by lia. by eapply pub_stored.
    + exists pendingConfigKey. split; [by right|]. by eapply last_pending.
  - intros key c Hk Hst. pose proof (num_diff W (w_pub W) (w_last W) Hok). destruct (stored_world _ _ _ _ _ _ Hs Hk Hst) as [->| ->]; lia.
Qed.

Lemma newest_last n L W s c : sys_ok n L W s -> newest (sy_kv s) c -> c = last_cfg W.
Proof.
  intros Hs [(key & Hk & Hst) Hmax]. destruct (stored_world _ _ _ _ _ _ Hs Hk Hst) as [->| ->]; [|done].
  destruct (last_newest _ _ _ _ Hs) as [(key' & Hk' & Hst') _]. pose proof (Hmax key' _ Hk' Hst') as Hle.
  pose proof (so_world _ _ _ _ Hs) as Hok. pose proof (wo_pub _ Hok). pose proof (num_diff W (w_pub W) (w_last W) Hok). f_equal. lia.
Qed.

(** The groups of the stored configurations are among [gids]. *)
Definition names_only (gids : list Z) (kv : KVServer) : Prop :=
  forall key c g, config_key key -> stored kv key c -> is_Some (Groups c !! g) -> g ∈ gids.

Lemma run_world fuel m c gids evs (s0 := fresh_service c gids) (s := drives s0 evs) :
  first_config = Some c -> Gid1 ∈ gids -> 0 < m -> m + len evs < 2 ^ 64 - 1 -> stays_admissible s0 evs -> timely_recoveries s0 ∅ evs = true -> names_only gids (sy_kv s) ->
  exists W kv' gs', sys_ok m (accepted s0 evs) W s /\
    run_alone (sy_kv s) (sy_groups s) (InitController (S fuel)) = Some (kv', gs', tt) /\
    settled (data_of (accepted s0 evs)) kv' gs' (last_cfg W) /\ (forall m, room (sy_kv s) (m + 1) -> room kv' m) /\ same_groups (sy_groups s) gs'.
Proof.
  intros Hc Hg Hm Hlen Hadm Htime Hnames.
  destruct (service_run_ok m c gids evs) as [W Hs]; [lia|done..|]. fold s0 s in Hs.
  assert (groups_there W s) as Hthere.
  { intros k g Hk Hin. apply drives_stays. simpl. rewrite fresh_lookup, decide_True; [by eexists|].
    assert (k = w_pub W \/ k = w_last W) as Hor by (pose proof (wo_pub _ (so_world _ _ _ _ Hs)); lia). destruct Hor as [->| ->].
    - apply (Hnames configKey (pub_cfg W)); [by left|by eapply pub_stored|done].
    - destruct (last_newest _ _ _ _ Hs) as [(key & Hkey & Hst) _]. by apply (Hnames key (last_cfg W)). }
  destruct (run_recovery m _ W s fuel Hs Hthere Hm) as (kv' & gs' & Hrun & Hrest).
  exists W, kv', gs'. exact (conj Hs (conj Hrun Hrest)).
Qed.

(** In a settled service a key reads as in the store of all Puts. *)
Lemma settled_reads_store L kv gs c key : settled (data_of L) kv gs c -> client_read c gs key = Some (Get (puts ∅ (map fst L)) (MkGetArgs key)).
Proof.
  intros Hs. rewrite (settled_reads _ _ _ _ key Hs). unfold Get. cbn [GetArgs_Key]. unfold data_of. by rewrite <-puts_filter.
Qed.

(** C14 (liveness): every run can be completed.  Let any number of controllers
    add groups, remove groups and recover at once, with answers lost,
    requests late and clients writing, and stop all of them at any point,
    also between the two Gets of a recovery.  Conditions: claimed
    configurations name groups, the groups they name exist, and every
    recovery of the run made its second Get before the pending configuration
    was two ahead of the one its first Get returned ([timely_recoveries]).
    Then a new controller that runs undisturbed returns from InitController,
    and the service is settled: the last configuration that anyone had claimed is published,
    its groups serve all their shards, and every key reads as in the one
    kvsrv1 store that took all Puts of the run. *)
Theorem every_run_recovers fuel c gids evs c1
    (s0 := fresh_service c gids) (s := drives s0 evs) (kv := puts ∅ (map fst (accepted s0 evs))) :
  first_config = Some c -> Gid1 ∈ gids -> len evs < 2 ^ 64 - 2 -> stays_admissible s0 evs -> timely_recoveries s0 ∅ evs = true -> names_only gids (sy_kv s) ->
  newest (sy_kv s) c1 ->
  exists kv' gs', run_alone (sy_kv s) (sy_groups s) (InitController (S fuel)) = Some (kv', gs', tt) /\
    settled (data_of (accepted s0 evs)) kv' gs' c1 /\
    forall key, client_read c1 gs' key = Some (Get kv (MkGetArgs key)).
Proof.
  intros Hc Hg Hlen Hadm Htime Hnames Hnew.
  destruct (run_world fuel 1 c gids evs Hc Hg) as (W & kv' & gs' & Hs & Hrun & Hset & _); [lia|lia|done..|].
  rewrite (newest_last _ _ _ _ _ Hs Hnew). exists kv', gs'. split_and!; auto. intros key. by eapply settled_reads_store.
Qed.

(** partitionCtrler passes.  If the controller that was cut off had claimed
    the change that the test takes it to have been making, the second
    controller completes it and every check of the test passes: the
    configuration number has grown, the new group is a member if the first
    controller was adding it and is not if it was removing it, it is removed
    at the end, and every key reads as before. *)
Theorem partitionCtrler_passes fuel c gids evs c1 num state ngid g0
    (s0 := fresh_service c gids) (s := drives s0 evs) (kv := puts ∅ (map fst (accepted s0 evs))) :
  first_config = Some c -> Gid1 ∈ gids -> len evs < 2 ^ 64 - 4 -> stays_admissible s0 evs -> timely_recoveries s0 ∅ evs = true -> names_only gids (sy_kv s) ->
  newest (sy_kv s) c1 -> num < Num c1 -> is_Some (Groups c1 !! g0) -> g0 <> ngid ->
  (state = JOIN /\ IsMember c1 ngid = true) \/ (state = LEAVE /\ IsMember c1 ngid = false) ->
  exists kv' gs' c', run_alone (sy_kv s) (sy_groups s) (partitionCtrler (S fuel) num state ngid) = Some (kv', gs', true) /\
    settled (data_of (accepted s0 evs)) kv' gs' c' /\ IsMember c' ngid = false /\
    forall key, client_read c' gs' key = Some (Get kv (MkGetArgs key)).
Proof.
  subst kv s s0. intros Hc Hg Hlen Hadm Htime Hnames Hnew Hnum Hg0 Hne Hstate.
  destruct (run_world fuel 3 c gids evs Hc Hg) as (W & kv' & gs' & Hs & Hrun & Hset & Hroom & _); [lia|lia|done..|].
  rewrite <-(newest_last _ _ _ _ _ Hs Hnew) in Hset. unfold partitionCtrler. rewrite run_alone_bind, Hrun. obind.
  rewrite run_alone_bind, (run_Query _ _ _ _ Hset). obind. destruct (Z.leb_spec (Num c1) num); [lia|].
  destruct Hstate as [[-> Hmem]|[-> Hmem]]; rewrite Hmem.
  - assert (is_Some (Groups c1 !! ngid)) as Hin.
    { apply bool_decide_eq_true in Hmem. pose proof (se_complete _ _ _ _ Hset) as Hcp. unfold complete in Hcp. rewrite Forall_forall in Hcp. auto. }
    assert (room kv' 1) as Hr.
    { apply Hroom. pose proof (so_room _ _ _ _ Hs). pose proof (wo_pub _ (so_world _ _ _ _ Hs)). unfold room, version_of.
      rewrite (so_current _ _ _ _ Hs), (so_pending _ _ _ _ Hs). destruct (w_last W =? 0)%nat; simpl; lia. }
    destruct (run_leaveGroups fuel _ [ngid] g0 kv' gs' c1 0 Hset (NoDup_singleton _)) as (kv2 & gs2 & c2 & Hrun2 & Hset2 & _ & _ & _ & Hm2);
      [lia|exact Hr|exact Hg0|by rewrite list_elem_of_singleton|by intros g ->%list_elem_of_singleton|].
    change (JOIN =? JOIN) with true. change (JOIN =? LEAVE) with false. cbn [andb orb negb]. rewrite run_alone_bind, Hrun2. obind.
    exists kv2, gs2, c2. split_and!; [reflexivity|exact Hset2| |intros key; exact (settled_reads_store _ _ _ _ key Hset2)]. apply not_member; [apply Hset2|].
    apply eq_None_not_Some. rewrite Hm2. intros [_ Hnot]. apply Hnot. left.
  - change (LEAVE =? JOIN) with false. change (LEAVE =? LEAVE) with true. cbn [andb orb negb]. exists kv', gs', c1.
    split_and!; [reflexivity|exact Hset|exact Hmem|intros key; exact (settled_reads_store _ _ _ _ key Hset)].
Qed.

(** Both conditions on the stored configurations are checked by evaluation. *)
Definition stored_at (kv : KVServer) (key : string) : option ShardConfig := e ← kv !! key; FromString (value e).

Lemma stored_at_eq kv key c : stored kv key c -> stored_at kv key = Some c.
Proof. intros (e & He & _ & Hv). unfold stored_at. rewrite He. simpl. by rewrite Hv, FromString_String. Qed.

Definition for_stored (kv : KVServer) (P : ShardConfig -> bool) : bool :=
  match stored_at kv configKey with Some c => P c | None => true end && match stored_at kv pendingConfigKey with Some c => P c | None => true end.

Lemma for_stored_check kv P key c : for_stored kv P = true -> config_key key -> stored kv key c -> P c = true.
Proof. intros [H1 H2]%andb_prop [->| ->] Hst; rewrite (stored_at_eq _ _ _ Hst) in *; done. Qed.

Lemma names_only_check gids kv : for_stored kv (fun c => bool_decide (map_Forall (fun g _ => g ∈ gids) (Groups c))) = true -> names_only gids kv.
Proof.
  intros H key c g Hk Hst [srvs Hg]. pose proof (for_stored_check _ _ _ _ H Hk Hst) as Hc. apply bool_decide_eq_true in Hc. exact (Hc _ _ Hg).
Qed.

Lemma newest_check kv c : stored kv pendingConfigKey c -> for_stored kv (fun c' => Num c' <=? Num c) = true -> newest kv c.
Proof.
  intros Hst H. split; [exists pendingConfigKey; by split; [right|]|]. intros key c' Hk Hst'. apply Z.leb_le. exact (for_stored_check _ _ _ _ H Hk Hst').
Qed.

End Recovery.

(** ** Witnesses

    A client writes "x" at group 1; a driver adds group 2 and is cut off
    after it has frozen two shards, the answer to the last request lost. *)

#[local] Existing Instance binary_json.

Definition cut_run : list Event :=
  [DPut (GroupServers 1) (MkPutArgs "x" "a" 0); DJoin 5 2] ++ all_runs 0 6 ++ [DRun 0 Unanswered].

Definition cut_config : ShardConfig := default demo_first (stored_at (sy_kv (drives demo_service cut_run)) pendingConfigKey).

Lemma cut_newest : newest (sy_kv (drives demo_service cut_run)) cut_config.
Proof.
  apply newest_check; [|vm_compute; reflexivity].
  destruct (sy_kv (drives demo_service cut_run) !! pendingConfigKey) as [e|] eqn:He; [|vm_compute in He; discriminate].
  exists e. split_and!; [done| |]; vm_compute in He; injection He as <-; vm_compute; done.
Qed.

Lemma every_run_recovers_witness :
  exists kv' gs', run_alone (sy_kv (drives demo_service cut_run)) (sy_groups (drives demo_service cut_run)) (InitController 1) = Some (kv', gs', tt) /\
    Num cut_config = 2 /\ client_read cut_config gs' "x" = Some (MkGetReply "a" 1 OK).
Proof.
  destruct (every_run_recovers 0 demo_first [1; 2; 3] cut_run cut_config) as (kv' & gs' & Hrun & _ & Hread).
  - vm_compute. reflexivity.
  - left.
  - vm_compute. reflexivity.
  - apply stays_admissible_check. vm_compute. reflexivity.
  - vm_compute. reflexivity.
  - apply names_only_check. vm_compute. reflexivity.
  - exact cut_newest.
  - exists kv', gs'. split; [exact Hrun|]. split; [vm_compute; reflexivity|]. rewrite Hread. vm_compute. reflexivity.
Defined.

Lemma partitionCtrler_passes_witness :
  exists kv' gs' c', run_alone (sy_kv (drives demo_service cut_run)) (sy_groups (drives demo_service cut_run)) (partitionCtrler 1 1 JOIN 2) = Some (kv', gs', true) /\
    IsMember c' 2 = false /\ client_read c' gs' "x" = Some (MkGetReply "a" 1 OK).
Proof.
  destruct (partitionCtrler_passes 0 demo_first [1; 2; 3] cut_run cut_config 1 JOIN 2 1) as (kv' & gs' & c' & Hrun & _ & Hmem & Hread).
  - vm_compute. reflexivity.
  - left.
  - vm_compute. reflexivity.
  - apply stays_admissible_check. vm_compute. reflexivity.
  - vm_compute. reflexivity.
  - apply names_only_check. vm_compute. reflexivity.
  - exact cut_newest.
  - vm_compute. reflexivity.
  - apply (bool_decide_unpack _). vm_compute. exact I.
  - discriminate.
  - left. split; vm_compute; reflexivity.
  - exists kv', gs', c'. split; [exact Hrun|]. split; [exact Hmem|]. rewrite Hread. vm_compute. reflexivity.
Defined.
