(* ===== verification/ShardClient.v ===== *)
(** * The clerks of the sharded service (src/shardkv1/shardgrp/client.go,
      src/shardkv1/client.go)

    The clerk of one group tries its replicas in turn from the last known
    leader; the sharded client finds the group of a key in the current
    configuration and retries while the shard moves.  The network and the
    servers behind it are an interface, [GrpNet]: whatever they do, the
    theorems say which replicas are called and what the results mean. *)

From S2P Require Import Prelude Rpc KvSrv ShardCfg ShardGrp.

(** What a clerk calls: RPCs to the server with a given name, [None] when
    [Call] returns false, and the controller's Query.  [W] is the state of
    everything outside the clerk. *)
Class GrpNet (W : Type) : Type := {
  call_Get : string -> GetArgs -> W -> W * option GetReply;
  call_Put : string -> PutArgs -> W -> W * option PutReply;
  call_FreezeShard : string -> FreezeShardArgs -> W -> W * option FreezeShardReply;
  call_InstallShard : string -> InstallShardArgs -> W -> W * option InstallShardReply;
  call_DeleteShard : string -> DeleteShardArgs -> W -> W * option DeleteShardReply;
  net_Query : W -> W * option ShardConfig;
}.

(** ** The clerk of a group *)

Record GClerk : Type := MkGClerk { g_servers : list string; g_leader : Z }.

Definition MakeGClerk (servers : list string) : GClerk := MkGClerk servers 0.

Definition setLeader (ck : GClerk) (i : Z) : GClerk := MkGClerk (g_servers ck) i.

(** [ck.servers[i % len(ck.servers)]]: panics for an empty list. *)
Definition srv (ck : GClerk) (i : Z) : option string := get (g_servers ck) (i mod len (g_servers ck)).

(** [for i := 0; i < ck.len(); i++]: the loop that all methods share; the
    first reply that is not ErrWrongLeader ends it. *)
Fixpoint try_loop {W Rep : Type} (call : string -> W -> W * option Rep) (err : Rep -> Err)
    (ck : GClerk) (start : Z) (ixs : list Z) (w : W) : option (GClerk * W * option Rep) :=
  match ixs with
  | [] => Some (ck, w, None)
  | i :: ixs =>
      let idx := (start + i) mod len (g_servers ck) in
      addr ← srv ck idx;
      let '(w, r) := call addr w in
      match r with
      | None => try_loop call err ck start ixs w
      | Some rep =>
          if Err_eqb (err rep) ErrWrongLeader then try_loop call err ck start ixs w
          else Some (setLeader ck idx, w, Some rep)
      end
  end.

Definition indices (ck : GClerk) : list Z := map Z.of_nat (seq 0 (length (g_servers ck))).

Definition try_replicas {W Rep : Type} (call : string -> W -> W * option Rep) (err : Rep -> Err)
    (ck : GClerk) (w : W) : option (GClerk * W * option Rep) :=
  try_loop call err ck (g_leader ck) (indices ck) w.

Section Clerks.
Context {W : Type} `{Net : GrpNet W}.

Definition GetOnce (ck : GClerk) (key : string) (w : W) : option (GClerk * W * (string * Tversion * Err)) :=
  '(ck, w, r) ← try_replicas (fun a => call_Get a (MkGetArgs key)) GetReply_Err ck w;
  Some (ck, w, match r with
               | Some rep => (GetReply_Value rep, GetReply_Version rep, GetReply_Err rep)
               | None => ("", 0, ErrWrongLeader)
               end).

Definition PutOnce (ck : GClerk) (key value : string) (ver : Tversion) (w : W) : option (GClerk * W * Err) :=
  '(ck, w, r) ← try_replicas (fun a => call_Put a (MkPutArgs key value ver)) PutReply_Err ck w;
  Some (ck, w, match r with Some rep => PutReply_Err rep | None => ErrWrongLeader end).

Definition GClerk_FreezeShard (ck : GClerk) (s num : Z) (w : W) : option (GClerk * W * (bytes * Err)) :=
  '(ck, w, r) ← try_replicas (fun a => call_FreezeShard a (MkFreezeShardArgs s num)) fzr_Err ck w;
  Some (ck, w, match r with Some rep => (fzr_State rep, fzr_Err rep) | None => ([], ErrWrongLeader) end).

Definition GClerk_InstallShard (ck : GClerk) (s : Z) (st : bytes) (num : Z) (w : W) : option (GClerk * W * Err) :=
  '(ck, w, r) ← try_replicas (fun a => call_InstallShard a (MkInstallShardArgs s st num)) inr_Err ck w;
  Some (ck, w, match r with Some rep => inr_Err rep | None => ErrWrongLeader end).

Definition GClerk_DeleteShard (ck : GClerk) (s num : Z) (w : W) : option (GClerk * W * Err) :=
  '(ck, w, r) ← try_replicas (fun a => call_DeleteShard a (MkDeleteShardArgs s num)) dlr_Err ck w;
  Some (ck, w, match r with Some rep => dlr_Err rep | None => ErrWrongLeader end).

(** [Get]: rounds over the replicas until one answers; a round is one unit of
    fuel, and the result is [None] when the fuel ends before an answer. *)
Fixpoint GClerk_Get (fuel : nat) (ck : GClerk) (key : string) (w : W)
    : option (GClerk * W * option (string * Tversion * Err)) :=
  match fuel with
  | O => Some (ck, w, None)
  | S fuel =>
      '(ck, w, r) ← try_replicas (fun a => call_Get a (MkGetArgs key)) GetReply_Err ck w;
      match r with
      | Some rep => Some (ck, w, Some (GetReply_Value rep, GetReply_Version rep, GetReply_Err rep))
      | None => GClerk_Get fuel ck key w
      end
  end.

(** The inner loop of [Put] with its variable [sent]. *)
Fixpoint put_round (ck : GClerk) (args : PutArgs) (start : Z) (ixs : list Z) (sent : bool) (w : W)
    : option (GClerk * W * (bool + Err)) :=
  match ixs with
  | [] => Some (ck, w, inl sent)
  | i :: ixs =>
      let idx := (start + i) mod len (g_servers ck) in
      addr ← srv ck idx;
      let '(w, r) := call_Put addr args w in
      match r with
      | None => put_round ck args start ixs true w
      | Some rep =>
          if Err_eqb (PutReply_Err rep) ErrWrongLeader then put_round ck args start ixs true w
          else Some (setLeader ck idx, w,
                     inr (if Err_eqb (PutReply_Err rep) ErrVersion && sent then ErrMaybe else PutReply_Err rep))
      end
  end.

Fixpoint GClerk_Put_loop (fuel : nat) (ck : GClerk) (args : PutArgs) (sent : bool) (w : W)
    : option (GClerk * W * option Err) :=
  match fuel with
  | O => Some (ck, w, None)
  | S fuel =>
      '(ck, w, r) ← put_round ck args (g_leader ck) (indices ck) sent w;
      match r with inr e => Some (ck, w, Some e) | inl _ => GClerk_Put_loop fuel ck args true w end
  end.

Definition GClerk_Put (fuel : nat) (ck : GClerk) (key value : string) (ver : Tversion) (w : W) :=
  GClerk_Put_loop fuel ck (MkPutArgs key value ver) false w.

(** ** The sharded client: its cache of group clerks *)

Definition ShClerk : Type := gmap Z GClerk.

Definition MakeShClerk : ShClerk := ∅.

Definition GetClerk (ck : ShClerk) (gid : Z) : option GClerk := ck !! gid.

Definition clerkFor (ck : ShClerk) (gid : Z) (servers : list string) : ShClerk * GClerk :=
  match ck !! gid with
  | Some c => (ck, c)
  | None => (<[gid := MakeGClerk servers]> ck, MakeGClerk servers)
  end.

(** The outer [None] is a panic, the inner one the result false. *)
Definition groupFor (ck : ShClerk) (key : string) (w : W) : option (ShClerk * W * option (Z * GClerk)) :=
  let '(w, cfg) := net_Query w in
  match cfg with
  | None => Some (ck, w, None)
  | Some cfg =>
      '(gid, srvs, ok) ← GidServers cfg (Key2Shard key);
      if negb ok || (gid =? 0) || (len srvs =? 0) then Some (ck, w, None)
      else let '(ck, c) := clerkFor ck gid srvs in Some (ck, w, Some (gid, c))
  end.

(** The group clerk is shared by pointer, so what a call does to it is done
    to the cached one. *)
Fixpoint ShClerk_Get (fuel : nat) (ck : ShClerk) (key : string) (w : W)
    : option (ShClerk * W * option (string * Tversion * Err)) :=
  match fuel with
  | O => Some (ck, w, None)
  | S fuel =>
      '(ck, w, g) ← groupFor ck key w;
      match g with
      | None => ShClerk_Get fuel ck key w
      | Some (gid, gck) =>
          '(gck, w, (v, ver, err)) ← GetOnce gck key w;
          let ck := <[gid := gck]> ck in
          if Err_eqb err ErrWrongGroup || Err_eqb err ErrWrongLeader then ShClerk_Get fuel ck key w
          else Some (ck, w, Some (v, ver, err))
      end
  end.

Fixpoint ShClerk_Put_loop (fuel : nat) (ck : ShClerk) (key value : string) (ver : Tversion) (sent : bool) (w : W)
    : option (ShClerk * W * option Err) :=
  match fuel with
  | O => Some (ck, w, None)
  | S fuel =>
      '(ck, w, g) ← groupFor ck key w;
      match g with
      | None => ShClerk_Put_loop fuel ck key value ver sent w
      | Some (gid, gck) =>
          '(gck, w, err) ← PutOnce gck key value ver w;
          let ck := <[gid := gck]> ck in
          if Err_eqb err ErrWrongGroup || Err_eqb err ErrWrongLeader then ShClerk_Put_loop fuel ck key value ver true w
          else if Err_eqb err ErrVersion && sent then Some (ck, w, Some ErrMaybe)
          else Some (ck, w, Some err)
      end
  end.

Definition ShClerk_Put (fuel : nat) (ck : ShClerk) (key value : string) (ver : Tversion) (w : W) :=
  ShClerk_Put_loop fuel ck key value ver false w.

End Clerks.

(** ** Which replicas are called *)

Definition gclerk_wf (ck : GClerk) : Prop := 0 <= g_leader ck < len (g_servers ck).

(** A network that also lists the servers called. *)
Definition traced {W Rep : Type} (call : string -> W -> W * option Rep) (addr : string) (w : W * list string)
    : (W * list string) * option Rep :=
  let '(w', r) := call addr (fst w) in ((w', snd w ++ [addr]), r).

(** The [k]-th call of a round goes to the [k]-th server from the leader. *)
Lemma srv_rotate ck (k : nat) : gclerk_wf ck -> (k < length (g_servers ck))%nat ->
  srv ck ((g_leader ck + Z.of_nat k) mod len (g_servers ck)) = rotate (Z.to_nat (g_leader ck)) (g_servers ck) !! k.
Proof.
  intros Hw Hk. unfold srv, gclerk_wf in *. rewrite Zmod_mod, lookup_rotate_r by done.
  unfold get, rotate_nat_add. rewrite Z2Nat.id by lia.
  pose proof (Z.mod_pos_bound (g_leader ck + Z.of_nat k) (len (g_servers ck)) ltac:(lia)).
  destruct (Z.leb_spec 0 ((g_leader ck + Z.of_nat k) mod len (g_servers ck))); [done|lia].
Qed.

Lemma try_loop_trace {W Rep : Type} (call : string -> W -> W * option Rep) err ck m k w :
  gclerk_wf ck -> (k + m = length (g_servers ck))%nat ->
  let route := rotate (Z.to_nat (g_leader ck)) (g_servers ck) in
  exists ck' w' r n, try_loop (traced call) err ck (g_leader ck) (map Z.of_nat (seq k m)) (w, take k route) =
      Some (ck', (w', take n route), r) /\ (k <= n <= length (g_servers ck))%nat /\
    match r with
    | None => ck' = ck /\ n = length (g_servers ck)
    | Some rep => err rep <> ErrWrongLeader /\ gclerk_wf ck' /\ g_servers ck' = g_servers ck /\
        (0 < n)%nat /\ route !! (n - 1)%nat = get (g_servers ck) (g_leader ck')
    end.
Proof.
  intros Hw. revert k w. induction m as [|m IH]; intros k w Hkm route; simpl.
  - exists ck, w, None, k. split_and!; auto; lia.
  - rewrite srv_rotate by (auto; lia). fold route.
    destruct (lookup_lt_is_Some_2 route k) as [addr Haddr]; [unfold route; rewrite length_rotate; lia|].
    rewrite Haddr. obind. unfold traced at 1. cbn [fst snd]. rewrite <-(take_S_r route k addr Haddr).
    destruct (call addr w) as [w1 r] eqn:Hc.
    assert (forall w1, exists ck' w' r n, try_loop (traced call) err ck (g_leader ck) (map Z.of_nat (seq (S k) m)) (w1, take (S k) route) =
      Some (ck', (w', take n route), r) /\ (k <= n <= length (g_servers ck))%nat /\
      match r with
      | None => ck' = ck /\ n = length (g_servers ck)
      | Some rep => err rep <> ErrWrongLeader /\ gclerk_wf ck' /\ g_servers ck' = g_servers ck /\
        (0 < n)%nat /\ route !! (n - 1)%nat = get (g_servers ck) (g_leader ck')
      end) as Hnext.
    { intros w2. destruct (IH (S k) w2 ltac:(lia)) as (ck' & w' & r' & n & E & Hn & H). exists ck', w', r', n. split_and!; auto; lia. }
    destruct r as [rep|]; [|apply Hnext]. destruct (Err_eqb (err rep) ErrWrongLeader) eqn:He; [apply Hnext|].
    eexists _, w1, (Some rep), (S k). split; [done|]. split; [lia|]. apply Err_eqb_ne in He.
    unfold gclerk_wf in *. simpl. split_and!; auto; [apply Z.mod_pos_bound; lia|apply Z.mod_pos_bound; lia|lia|].
    rewrite Nat.sub_0_r. unfold route. rewrite <-(srv_rotate ck k) by (done || lia). unfold srv. by rewrite Zmod_mod.
Qed.

(** A Once call (GetOnce, PutOnce, FreezeShard, InstallShard,
    DeleteShard) never panics and calls the replicas in server order from the
    last known leader, wrapping around, each at most once.  It gives up only
    after calling every replica; otherwise the replica that gave the result
    is the last one called and becomes the leader. *)
Theorem once_tries_each_replica {W Rep : Type} (call : string -> W -> W * option Rep) err ck w :
  gclerk_wf ck ->
  let route := rotate (Z.to_nat (g_leader ck)) (g_servers ck) in
  exists ck' w' r n, try_replicas (traced call) err ck (w, []) = Some (ck', (w', take n route), r) /\
    match r with
    | None => ck' = ck /\ n = length route
    | Some rep => err rep <> ErrWrongLeader /\ gclerk_wf ck' /\ g_servers ck' = g_servers ck /\
        (0 < n <= length route)%nat /\ route !! (n - 1)%nat = get (g_servers ck) (g_leader ck')
    end.
Proof.
  intros Hw route. destruct (try_loop_trace call err ck (length (g_servers ck)) 0 w Hw eq_refl) as (ck' & w' & r & n & E & Hn & Hr).
  exists ck', w', r, n. split; [done|]. unfold route. rewrite length_rotate. destruct r as [rep|]; [|done].
  destruct Hr as (? & ? & ? & ? & ?). split_and!; auto. lia.
Qed.

Lemma once_tries_each_replica_witness :
  exists ck' w' r n,
    try_replicas (traced (fun a (w : nat) => (S w, if String.eqb a "s0" then Some (MkPutReply OK) else Some (MkPutReply ErrWrongLeader))))
      PutReply_Err (MkGClerk ["s0"; "s1"; "s2"] 1) (0%nat, []) = Some (ck', (w', take n ["s1"; "s2"; "s0"]), r) /\
    r = Some (MkPutReply OK) /\ g_leader ck' = 0.
Proof.
  destruct (once_tries_each_replica (fun a (w : nat) => (S w, if String.eqb a "s0" then Some (MkPutReply OK) else Some (MkPutReply ErrWrongLeader)))
    PutReply_Err (MkGClerk ["s0"; "s1"; "s2"] 1) 0%nat) as (ck' & w' & r & n & E & _).
  - vm_compute. split; [discriminate|reflexivity].
  - exists ck', w', r, n. split; [exact E|]. vm_compute in E. injection E as <- _ _ <-. split; reflexivity.
Defined.

(** ** What the results of Put mean *)

Section Results.
Context {W : Type} `{Net : GrpNet W}.

(** The network with a log of what each Put attempt came to: the server's
    error code, or [None] when the call failed. *)
#[local] Instance logged : GrpNet (W * list (option Err)) := {
  call_Get a args w := let '(w', r) := call_Get a args (fst w) in ((w', snd w), r);
  call_Put a args w := let '(w', r) := call_Put a args (fst w) in ((w', snd w ++ [PutReply_Err <$> r]), r);
  call_FreezeShard a args w := let '(w', r) := call_FreezeShard a args (fst w) in ((w', snd w), r);
  call_InstallShard a args w := let '(w', r) := call_InstallShard a args (fst w) in ((w', snd w), r);
  call_DeleteShard a args w := let '(w', r) := call_DeleteShard a args (fst w) in ((w', snd w), r);
  net_Query w := let '(w', r) := net_Query (fst w) in ((w', snd w), r);
}.

(** An attempt of which the client does not know whether it was executed. *)
Definition unsure (x : option Err) : Prop := x = None \/ x = Some ErrWrongLeader.

(** The last attempt was answered [e]; [r] is [e], except that a version
    error after an unsure attempt is ErrMaybe. *)
Definition certain_result (log : list (option Err)) (r : Err) : Prop :=
  exists before e, log = before ++ [Some e] /\ Forall unsure before /\ e <> ErrWrongLeader /\
    r = if bool_decide (e = ErrVersion /\ before <> []) then ErrMaybe else e.

Lemma put_round_log ck args start ixs sent w log0 ck' w' log r :
  Forall unsure log0 -> sent = bool_decide (log0 <> []) ->
  put_round ck args start ixs sent (w, log0) = Some (ck', (w', log), r) ->
  match r with
  | inl _ => ck' = ck /\ Forall unsure log /\ (log0 <> [] \/ ixs <> [] -> log <> [])
  | inr e => certain_result log e
  end.
Proof.
  revert sent w log0. induction ixs as [|i ixs IH]; intros sent w log0 Hun Hsent Hrun; simpl in Hrun.
  - simplify_eq. split_and!; auto. naive_solver.
  - destruct (srv ck _) as [addr|]; [|done]. cbn [mbind option_bind] in Hrun.
    destruct (call_Put addr args w) as [w1 rep] eqn:Hc.
    assert (forall x, unsure x -> put_round ck args start ixs true (w1, log0 ++ [x]) = Some (ck', (w', log), r) ->
      match r with
      | inl _ => ck' = ck /\ Forall unsure log /\ (log0 <> [] \/ i :: ixs <> [] -> log <> [])
      | inr e => certain_result log e
      end) as Hnext.
    { intros x Hx E. assert (log0 ++ [x] <> []) as Hne by (by destruct log0).
      specialize (IH true w1 (log0 ++ [x])). destruct r as [b|e]; [|apply IH; auto; [by apply Forall_app_2; auto|by rewrite bool_decide_true]].
      destruct IH as (? & ? & ?); auto; [by apply Forall_app_2; auto|by rewrite bool_decide_true]. }
    destruct rep as [rep|]; simpl in Hrun; [|by apply (Hnext None); [left|]].
    destruct (Err_eqb (PutReply_Err rep) ErrWrongLeader) eqn:Hwl.
    + apply Err_eqb_eq in Hwl. rewrite Hwl in Hrun. by apply (Hnext (Some ErrWrongLeader)); [right|].
    + apply Err_eqb_ne in Hwl. simplify_eq. exists log0, (PutReply_Err rep). split_and!; auto.
      unfold Err_eqb. by rewrite bool_decide_and.
Qed.

Lemma GClerk_Put_loop_log fuel ck args sent w log0 ck' w' log r :
  g_servers ck <> [] -> Forall unsure log0 -> sent = bool_decide (log0 <> []) ->
  GClerk_Put_loop fuel ck args sent (w, log0) = Some (ck', (w', log), Some r) -> certain_result log r.
Proof.
  intros Hsrv. revert sent w log0. induction fuel as [|fuel IH]; intros sent w log0 Hun Hsent Hrun; simpl in Hrun; [done|].
  destruct (put_round _ _ _ _ _ _) as [[[ck1 [w1 log1]] r1]|] eqn:Hround; [|done]. cbn [mbind option_bind] in Hrun.
  apply put_round_log in Hround; [|done|done]. destruct r1 as [b|e]; [|by simplify_eq].
  destruct Hround as (-> & Hun1 & Hne). assert (log1 <> []) as Hne1.
  { apply Hne. right. unfold indices. destruct (g_servers ck); done. }
  eapply IH; [exact Hun1|by rewrite bool_decide_true|exact Hrun].
Qed.

(** The group clerk's Put reports what it knows.  Whatever the
    network does, when it returns, all attempts but the last were lost or
    refused for want of a leader, and the result is the last reply, except
    that a version error after another attempt becomes ErrMaybe: ErrVersion
    itself is returned only when the Put was sent once, so certainly did not
    take effect before. *)
Theorem group_Put_certain fuel ck (key value : string) (ver : Tversion) w ck' w' log r :
  gclerk_wf ck ->
  GClerk_Put fuel ck key value ver (w, []) = Some (ck', (w', log), Some r) ->
  certain_result log r /\ (r = ErrVersion -> log = [Some ErrVersion]).
Proof.
  intros Hw Hrun. assert (certain_result log r) as Hc.
  { eapply (GClerk_Put_loop_log _ _ _ _ _ []); [|done|done|exact Hrun]. intros E. unfold gclerk_wf in Hw. rewrite E in Hw. simpl in Hw. lia. }
  split; [done|]. intros ->. destruct Hc as (before & e & -> & _ & _ & He).
  case_bool_decide as Hb; [done|]. subst e. destruct before; [done|]. by destruct Hb.
Qed.

(** ** The sharded client *)

Definition unsure_or_moved (x : option Err) : Prop := unsure x \/ x = Some ErrWrongGroup.

(** The last attempt was answered [e], all before it failed; [r] is [e], or
    ErrMaybe for a version error after a failed attempt. *)
Definition answered_by (log : list (option Err)) (r : Err) : Prop :=
  exists before e, log = before ++ [Some e] /\ Forall unsure_or_moved before /\ e <> ErrWrongLeader /\ e <> ErrWrongGroup /\
    (r = e \/ r = ErrMaybe /\ e = ErrVersion /\ before <> []).

Lemma try_put_log ck args start ixs w log0 ck' w' log r :
  try_loop (fun a => call_Put a args) PutReply_Err ck start ixs (w, log0) = Some (ck', (w', log), r) ->
  g_servers ck' = g_servers ck /\
  exists mid, Forall unsure mid /\ log = log0 ++ mid ++ match r with None => [] | Some rep => [Some (PutReply_Err rep)] end /\
    match r with None => ixs <> [] -> mid <> [] | Some rep => PutReply_Err rep <> ErrWrongLeader end.
Proof.
  revert w log0. induction ixs as [|i ixs IH]; intros w log0 Hrun; simpl in Hrun.
  - simplify_eq. split; [done|]. exists []. rewrite app_nil_r. auto.
  - destruct (srv ck _) as [addr|]; [|done]. cbn [mbind option_bind] in Hrun.
    destruct (call_Put addr args w) as [w1 rep] eqn:Hc.
    assert (forall x, unsure x -> try_loop (fun a => call_Put a args) PutReply_Err ck start ixs (w1, log0 ++ [x]) = Some (ck', (w', log), r) ->
      g_servers ck' = g_servers ck /\
      exists mid, Forall unsure mid /\ log = log0 ++ mid ++ match r with None => [] | Some rep => [Some (PutReply_Err rep)] end /\
      match r with None => i :: ixs <> [] -> mid <> [] | Some rep => PutReply_Err rep <> ErrWrongLeader end) as Hnext.
    { intros x Hx E. destruct (IH _ _ E) as (Hs & mid & Hm & -> & Hr). split; [done|]. exists (x :: mid).
      rewrite <-app_assoc. split_and!; auto. by destruct r. }
    destruct rep as [rep|]; simpl in Hrun; [|by apply (Hnext None); [left|]].
    destruct (Err_eqb (PutReply_Err rep) ErrWrongLeader) eqn:Hwl.
    + apply Err_eqb_eq in Hwl. rewrite Hwl in Hrun. by apply (Hnext (Some ErrWrongLeader)); [right|].
    + apply Err_eqb_ne in Hwl. simplify_eq. split; [done|]. exists []. auto.
Qed.

(** Cached clerks have servers. *)
Definition cache_ok (ck : ShClerk) : Prop := map_Forall (fun _ c => g_servers c <> []) ck.

Lemma groupFor_ok ck key w log ck' w' log' g : cache_ok ck ->
  groupFor ck key (w, log) = Some (ck', (w', log'), g) ->
  log' = log /\ cache_ok ck' /\ match g with None => True | Some (_, c) => g_servers c <> [] end.
Proof.
  intros Hck. unfold groupFor. simpl. destruct (net_Query w) as [w1 [cfg|]]; [|by intros; simplify_eq].
  destruct (GidServers cfg _) as [[[gid srvs] ok]|]; [|done]. cbn [mbind option_bind].
  destruct (_ || (len srvs =? 0)) eqn:Hg; [by intros; simplify_eq|]. zbool.
  assert (srvs <> []) as Hs by (by intros ->).
  unfold clerkFor. destruct (ck !! gid) as [c|] eqn:Hc; intros; simplify_eq; split_and!; auto.
  - by apply (Hck _ _ Hc).
  - by apply map_Forall_insert_2.
Qed.

Lemma ShClerk_Put_loop_log fuel ck key value ver sent w log0 ck' w' log r :
  cache_ok ck -> Forall unsure_or_moved log0 -> (sent = true -> log0 <> []) ->
  ShClerk_Put_loop fuel ck key value ver sent (w, log0) = Some (ck', (w', log), Some r) -> answered_by log r.
Proof.
  revert ck sent w log0. induction fuel as [|fuel IH]; intros ck sent w log0 Hck Hun Hsent Hrun; simpl in Hrun; [done|].
  destruct (groupFor ck key (w, log0)) as [[[ck1 [w1 log1]] g]|] eqn:Hg; [|done]. cbn [mbind option_bind] in Hrun.
  apply groupFor_ok in Hg as (-> & Hck1 & Hgs); [|done]. destruct g as [[gid gck]|]; [|by eapply IH].
  unfold PutOnce, try_replicas in Hrun.
  destruct (try_loop _ _ _ _ _ _) as [[[gck1 [w2 log2]] rep]|] eqn:Htry; [|done]. cbn [mbind option_bind] in Hrun.
  apply try_put_log in Htry as (Hs & mid & Hmid & -> & Hrep).
  assert (cache_ok (<[gid := gck1]> ck1)) as Hck2 by (apply map_Forall_insert_2; [by rewrite Hs|done]).
  assert (Forall unsure_or_moved (log0 ++ mid)) as Hun2.
  { apply Forall_app. split; [done|]. eapply Forall_impl; [exact Hmid|]. by left. }
  destruct rep as [rep|].
  - destruct (Err_eqb (PutReply_Err rep) ErrWrongGroup || Err_eqb (PutReply_Err rep) ErrWrongLeader) eqn:Hretry.
    + eapply IH; [exact Hck2| | |exact Hrun]; rewrite app_assoc; [|intros _; by destruct (log0 ++ mid)].
      apply Forall_app. split; [done|]. apply Forall_singleton. apply orb_prop in Hretry as [H|H]; apply Err_eqb_eq in H; rewrite H;
        [by right|by left; right].
    + apply orb_false_elim in Hretry as [Hg1 Hg2]. apply Err_eqb_ne in Hg1, Hg2.
      exists (log0 ++ mid), (PutReply_Err rep). rewrite <-app_assoc.
      destruct (Err_eqb (PutReply_Err rep) ErrVersion && sent) eqn:Hmaybe; simplify_eq; split_and!; auto.
      right. apply andb_prop in Hmaybe as [He Hs1]. apply Err_eqb_eq in He. split_and!; auto.
      intros E. apply app_eq_nil in E as [-> _]. by apply Hsent.
  - cbn in Hrun. eapply IH; [exact Hck2| | |exact Hrun]; rewrite app_nil_r; [done|]. intros _ E. apply app_eq_nil in E as [_ ->].
    apply Hrep; [|done]. unfold indices. destruct (g_servers gck); done.
Qed.

(** The sharded client hides moving shards.  Its Put never
    returns ErrWrongGroup or ErrWrongLeader: when it returns, a group has
    answered the last attempt, and the result is that answer, or ErrMaybe
    when the answer is a version error after a failed attempt.  In particular
    OK is returned only when a group executed the Put. *)
Theorem sharded_Put_answered fuel ck (key value : string) (ver : Tversion) w ck' w' log r :
  cache_ok ck -> ShClerk_Put fuel ck key value ver (w, []) = Some (ck', (w', log), Some r) ->
  answered_by log r /\ r <> ErrWrongGroup /\ r <> ErrWrongLeader.
Proof.
  intros Hck Hrun. assert (answered_by log r) as Ha.
  { eapply (ShClerk_Put_loop_log fuel ck key value ver false w []); [done|constructor|done|exact Hrun]. }
  split; [done|]. destruct Ha as (before & e & _ & _ & ? & ? & [->|[-> _]]); done.
Qed.

End Results.

(** ** Witnesses *)

(** Group 1 with three replicas serves all shards; the reply to the first Put
    is lost, and the replicas answer from then on. *)
#[local] Instance lossy_net : GrpNet (list shardRec * nat) := {
  call_Get a args w := (w, match doGet (fst w) args with Some (_, r) => Some r | None => None end);
  call_Put a args w :=
    match doPut (fst w) args with
    | Some (kv, r) => ((kv, S (snd w)), match snd w with O => None | S _ => Some r end)
    | None => (w, None)
    end;
  call_FreezeShard _ _ w := (w, None);
  call_InstallShard _ _ w := (w, None);
  call_DeleteShard _ _ w := (w, None);
  net_Query w := (w, Some (MkShardConfig 1 (replicate NShards 1) {[1 := ["s0"; "s1"; "s2"]]}));
}.

Lemma group_Put_certain_witness :
  exists ck' w' log, GClerk_Put (Net := logged) 5 (MakeGClerk ["s0"; "s1"; "s2"]) "k" "v" 0 ((initShards 1, 0%nat), []) =
      Some (ck', (w', log), Some ErrMaybe) /\ certain_result log ErrMaybe.
Proof.
  destruct (GClerk_Put (Net := logged) 5 (MakeGClerk ["s0"; "s1"; "s2"]) "k" "v" 0 ((initShards 1, 0%nat), []))
    as [[[ck' [w' log]] [r|]]|] eqn:Hrun; [|vm_compute in Hrun; discriminate..].
  assert (r = ErrMaybe) as -> by (vm_compute in Hrun; congruence).
  exists ck', w', log. split; [reflexivity|].
  refine (proj1 (group_Put_certain 5 (MakeGClerk ["s0"; "s1"; "s2"]) "k" "v" 0 (initShards 1, 0%nat) ck' w' log ErrMaybe _ Hrun)).
  vm_compute. split; [discriminate|reflexivity].
Defined.

(** The same network under the sharded client: replica s0 executes the Put,
    its reply is lost, replica s1 answers with a version error. *)
Lemma sharded_Put_answered_witness :
  exists ck' w' log, ShClerk_Put (Net := logged) 5 MakeShClerk "k" "v" 0 ((initShards 1, 0%nat), []) =
      Some (ck', (w', log), Some ErrVersion) /\ answered_by log ErrVersion.
Proof.
  destruct (ShClerk_Put (Net := logged) 5 MakeShClerk "k" "v" 0 ((initShards 1, 0%nat), []))
    as [[[ck' [w' log]] [r|]]|] eqn:Hrun; [|vm_compute in Hrun; discriminate..].
  assert (r = ErrVersion) as -> by (vm_compute in Hrun; congruence).
  exists ck', w', log. split; [reflexivity|].
  refine (proj1 (sharded_Put_answered 5 MakeShClerk "k" "v" 0 (initShards 1, 0%nat) ck' w' log ErrVersion _ Hrun)).
  apply map_Forall_empty.
Defined.

(** The sharded client's Put returns ErrVersion
    for a write that took effect.  PutOnce forgets that its call of the first
    replica failed; the version error that the executed Put itself causes at
    the next replica is returned as it is, where the group clerk's Put, on
    the same network, returns ErrMaybe. *)
Theorem sharded_Put_wrong_ErrVersion :
  (exists ck' kv' n, ShClerk_Put 5 MakeShClerk "k" "v" 0 (initShards 1, 0%nat) = Some (ck', (kv', n), Some ErrVersion) /\
    exists kv'', doGet kv' (MkGetArgs "k") = Some (kv'', MkGetReply "v" 1 OK)) /\
  (exists ck' w', GClerk_Put 5 (MakeGClerk ["s0"; "s1"; "s2"]) "k" "v" 0 (initShards 1, 0%nat) = Some (ck', w', Some ErrMaybe)).
Proof.
  split; [do 3 eexists; split; [vm_compute; reflexivity|]; eexists; vm_compute; reflexivity|].
  do 2 eexists. vm_compute. reflexivity.
Qed.
