(* ===== verification/MrWorker.v ===== *)
(** * MapReduce: the work of a task (src/mr/worker.go, src/main/mrsequential.go)

    doMap splits the output of the Map function over one intermediate file
    per reduce task, doReduce sorts and groups what the map tasks left for
    one reduce task, and the sequential program does both in memory.  The
    application's Map and Reduce, encoding/json and package sort are
    parameters.  The theorem: all reduce tasks together print exactly the
    lines of the sequential program. *)

From S2P Require Import Prelude.

Record KeyValue : Type := MkKeyValue { Key : string; Value : string }.

#[export] Instance KeyValue_eq_dec : EqDecision KeyValue.
Proof. solve_decision. Defined.
#[export] Instance KeyValue_countable : Countable KeyValue.
Proof. refine (inj_countable' (fun e => (Key e, Value e)) (fun '(a, b) => MkKeyValue a b) _); by intros []. Defined.

Definition ihash (key : string) : Z := Z.land (fnv32a (string_bytes key)) 0x7fffffff.

Definition key_le (a b : KeyValue) : Prop := String.le (Key a) (Key b).
#[export] Instance key_le_dec : RelDecision key_le.
Proof. intros a b. apply String.le_dec. Defined.
#[export] Instance key_le_total : Total key_le.
Proof. intros a b. apply String.le_total. Qed.
#[export] Instance key_le_trans : Transitive key_le.
Proof. intros a b c. unfold key_le. apply (transitivity (R := String.le)). Qed.

(** Package sort: sort.Slice and sort.Sort put a slice in an order that the
    comparison allows; neither is stable. *)
Class KeySort : Type := {
  sort_Slice : list KeyValue -> list KeyValue;
  sort_Sort : list KeyValue -> list KeyValue;
  sort_Slice_perm : forall l, sort_Slice l ≡ₚ l;
  sort_Slice_sorted : forall l, Sorted key_le (sort_Slice l);
  sort_Sort_perm : forall l, sort_Sort l ≡ₚ l;
  sort_Sort_sorted : forall l, Sorted key_le (sort_Sort l);
}.

(** ** The intermediate files

    A json.Encoder appends one value to a file and a json.Decoder reads them
    back one by one.  encoding/json coerces strings to valid UTF-8 (invalid
    bytes are replaced by U+FFFD), so what was written is read back only for
    pairs of valid strings; of other pairs the class says nothing. *)

(** The well-formed byte sequences of the Unicode standard (table 3-7), which
    are those of utf8.ValidString. *)
Definition in_range (lo hi x : Z) : bool := (lo <=? x) && (x <=? hi).
Definition continuation (x : Z) : bool := in_range 0x80 0xBF x.

Fixpoint valid_utf8 (b : bytes) : bool :=
  match b with
  | [] => true
  | x0 :: b =>
      if x0 <? 0x80 then valid_utf8 b
      else match b with
      | [] => false
      | x1 :: b =>
          if in_range 0xC2 0xDF x0 then continuation x1 && valid_utf8 b
          else match b with
          | [] => false
          | x2 :: b =>
              if in_range 0xE0 0xEF x0 then
                in_range (if x0 =? 0xE0 then 0xA0 else 0x80) (if x0 =? 0xED then 0x9F else 0xBF) x1 && continuation x2 && valid_utf8 b
              else match b with
              | [] => false
              | x3 :: b =>
                  in_range 0xF0 0xF4 x0 &&
                  in_range (if x0 =? 0xF0 then 0x90 else 0x80) (if x0 =? 0xF4 then 0x8F else 0xBF) x1 &&
                  continuation x2 && continuation x3 && valid_utf8 b
              end
          end
      end
  end.

(** "é", "€" and U+10348; a surrogate, an overlong encoding and a lone byte. *)
Example utf8_cases : valid_utf8 [0xC3; 0xA9; 0xE2; 0x82; 0xAC; 0xF0; 0x90; 0x8D; 0x88] = true /\
  valid_utf8 [0xED; 0xA0; 0x80] = false /\ valid_utf8 [0xC0; 0x80] = false /\ valid_utf8 [0x61; 0xE9] = false.
Proof. done. Qed.

Definition valid_string (s : string) : bool := valid_utf8 (string_bytes s).
Definition valid_kv (kv : KeyValue) : bool := valid_string (Key kv) && valid_string (Value kv).

Class KeyValueJson : Type := {
  json_Encode : KeyValue -> bytes;
  json_Decode : bytes -> option (KeyValue * bytes);
  json_Decode_Encode : forall kv rest, valid_kv kv = true -> json_Decode (json_Encode kv ++ rest) = Some (kv, rest);
  json_Encode_nonempty : forall kv, json_Encode kv <> [];
  json_Decode_nil : json_Decode [] = None;
}.

#[export] Program Instance binary_kv_json : KeyValueJson | 100 := {
  json_Encode := gob_enc; json_Decode := gob_dec;
}.
Next Obligation. intros kv rest _. apply gob_dec_enc. Qed.
Next Obligation. apply gob_enc_nonempty. Qed.
Next Obligation. apply gob_dec_nil. Qed.

(** The loop of doReduce over one file; the file has no more values than
    bytes. *)
Fixpoint decode_all `{KeyValueJson} (fuel : nat) (b : bytes) : list KeyValue :=
  match fuel with
  | O => []
  | S fuel => match json_Decode b with None => [] | Some (kv, b) => kv :: decode_all fuel b end
  end.

(** ** Tasks *)

Inductive TaskType : Type := MapTask | ReduceTask | WaitTask | ExitTask.

#[export] Instance TaskType_eq_dec : EqDecision TaskType.
Proof. solve_decision. Defined.

Record Task : Type := MkTask { Task_Type : TaskType; TaskId : Z; NReduce : Z; NMap : Z; File : string }.

Section Worker.
Context `{GKV : KeyValueJson} `{KS : KeySort}.
Context (mapf : string -> string -> list KeyValue) (reducef : string -> list string -> string).

(** The loop that encodes each pair into the buffer of its bucket.  [None]
    is a panic: [NReduce] is 0 and there is a pair. *)
Fixpoint emit (nReduce : Z) (kvs : list KeyValue) (bufs : list bytes) : option (list bytes) :=
  match kvs with
  | [] => Some bufs
  | kv :: kvs =>
      b ← get bufs (ihash (Key kv) mod nReduce);
      bufs ← put bufs (ihash (Key kv) mod nReduce) (b ++ json_Encode kv);
      emit nReduce kvs bufs
  end.

(** doMap: the contents of the files "mr-<TaskId>-0", "mr-<TaskId>-1", ...,
    which are renamed into place in this order.  [input] is os.ReadFile;
    [None] is a log.Fatalf. *)
Definition doMap (input : string -> option string) (task : Task) : option (list bytes) :=
  content ← input (File task);
  emit (NReduce task) (mapf (File task) content) (replicate (Z.to_nat (NReduce task)) []).

(** The first loop of doReduce: all pairs of the files "mr-<i>-<TaskId>"; a
    file that does not open is skipped. *)
Definition read_inter (inter : Z * Z -> option bytes) (r : Z) (ms : list Z) : list KeyValue :=
  concat (map (fun m => match inter (m, r) with None => [] | Some b => decode_all (length b) b end) ms).

(** The pairs that start the list with the key of its first. *)
Fixpoint span_key (k : string) (kvs : list KeyValue) : list string * list KeyValue :=
  match kvs with
  | [] => ([], [])
  | kv :: kvs' =>
      if bool_decide (Key kv = k) then let '(vs, rest) := span_key k kvs' in (Value kv :: vs, rest)
      else ([], kvs)
  end.

(** The second loop of doReduce: one output per run of equal keys. *)
Fixpoint reduce_loop (fuel : nat) (kvs : list KeyValue) : list (string * string) :=
  match fuel, kvs with
  | S fuel, kv :: _ =>
      let '(vs, rest) := span_key (Key kv) kvs in
      (Key kv, reducef (Key kv) vs) :: reduce_loop fuel rest
  | _, _ => []
  end.

(** [fmt.Fprintf(tmp, "%v %v\n", key, output)] *)
Definition line (ko : string * string) : string := fst ko +:+ " " +:+ snd ko +:+ String (Ascii.ascii_of_nat 10) "".

(** doReduce: the lines of "mr-out-<TaskId>". *)
Definition doReduce (inter : Z * Z -> option bytes) (task : Task) : list string :=
  let kvs := sort_Slice (read_inter inter (TaskId task) (map Z.of_nat (seq 0 (Z.to_nat (NMap task))))) in
  map line (reduce_loop (length kvs) kvs).

(** ** mrsequential *)

Fixpoint seq_intermediate (input : string -> option string) (files : list string) : option (list KeyValue) :=
  match files with
  | [] => Some []
  | f :: files => content ← input f; rest ← seq_intermediate input files; Some (mapf f content ++ rest)
  end.

(** Its grouping loop starts [j] at [i + 1]. *)
Fixpoint seq_loop (fuel : nat) (kvs : list KeyValue) : list (string * string) :=
  match fuel, kvs with
  | S fuel, kv :: kvs =>
      let '(vs, rest) := span_key (Key kv) kvs in
      (Key kv, reducef (Key kv) (Value kv :: vs)) :: seq_loop fuel rest
  | _, _ => []
  end.

Definition mrsequential (input : string -> option string) (files : list string) : option (list string) :=
  kvs ← seq_intermediate input files;
  let kvs := sort_Sort kvs in
  Some (map line (seq_loop (length kvs) kvs)).

(** ** Grouping *)

Definition vals (k : string) (kvs : list KeyValue) : list string := map Value (filter (fun kv => Key kv = k) kvs).

Lemma vals_app k l1 l2 : vals k (l1 ++ l2) = vals k l1 ++ vals k l2.
Proof. unfold vals. by rewrite filter_app, map_app. Qed.

Lemma vals_cons k kv l : vals k (kv :: l) = if decide (Key kv = k) then Value kv :: vals k l else vals k l.
Proof. unfold vals. rewrite filter_cons. by case_decide. Qed.

Lemma vals_perm k l1 l2 : l1 ≡ₚ l2 -> vals k l1 ≡ₚ vals k l2.
Proof. intros H. unfold vals. by rewrite H. Qed.

Lemma vals_none k l : k ∉ map Key l -> vals k l = [].
Proof.
  intros Hk. induction l as [|kv l IH]; [done|]. rewrite vals_cons.
  simpl in Hk. apply not_elem_of_cons in Hk as [Hk Hl]. rewrite decide_False by congruence. auto.
Qed.

Lemma span_key_spec k kvs : StronglySorted key_le kvs -> (forall kv, kv ∈ kvs -> String.le k (Key kv)) ->
  let '(vs, rest) := span_key k kvs in
  vs = vals k kvs /\ (length rest <= length kvs)%nat /\ StronglySorted key_le rest /\
  (forall k', k' <> k -> vals k' rest = vals k' kvs) /\
  (forall k', k' ∈ map Key rest <-> k' <> k /\ k' ∈ map Key kvs).
Proof.
  induction kvs as [|kv kvs IH]; intros Hs Hle; cbn [span_key].
  - split_and!; auto. intros k'. simpl. rewrite elem_of_nil. tauto.
  - apply StronglySorted_inv in Hs as [Hs Hall]. case_bool_decide as Hk.
    + destruct (span_key k kvs) as [vs rest]. destruct IH as (-> & Hl & Hs' & Hv & Hi); [done|intros kv' Hin; apply Hle; by right|].
      split_and!; auto.
      * by rewrite vals_cons, decide_True.
      * simpl. lia.
      * intros k' Hne. rewrite Hv by done. by rewrite vals_cons, decide_False by congruence.
      * intros k'. rewrite Hi. simpl. rewrite elem_of_cons. naive_solver congruence.
    + assert (k ∉ map Key (kv :: kvs)) as Hnot.
      { intros Hin. apply list_elem_of_fmap in Hin as (kv' & -> & Hin). apply elem_of_cons in Hin as [->|Hin]; [done|].
        apply Hk. apply (anti_symm String.le); [|apply Hle; by left]. rewrite Forall_forall in Hall. by apply Hall. }
      split_and!; auto; [by rewrite vals_none|by constructor|]. intros k'. split; [|tauto]. intros Hin. split; [|done]. by intros ->.
Qed.

(** ** What a grouped list says

    [L] has one entry per key of [kvs], with the reduction of its values. *)
Definition lines_ok (kvs : list KeyValue) (L : list (string * string)) : Prop :=
  NoDup (map fst L) /\ forall k o, (k, o) ∈ L <-> k ∈ map Key kvs /\ o = reducef k (vals k kvs).

Lemma lines_ok_perm kvs L1 L2 : lines_ok kvs L1 -> lines_ok kvs L2 -> L1 ≡ₚ L2.
Proof.
  intros [Hn1 H1] [Hn2 H2]. apply NoDup_Permutation; [by eapply NoDup_fmap_1|by eapply NoDup_fmap_1|].
  intros [k o]. by rewrite H1, H2.
Qed.

Lemma lines_ok_keys kvs L k : lines_ok kvs L -> k ∈ map fst L <-> k ∈ map Key kvs.
Proof.
  intros [_ H]. split.
  - intros ([k' o] & -> & Hin)%list_elem_of_fmap. by apply H in Hin as [? _].
  - intros Hin. apply list_elem_of_fmap. exists (k, reducef k (vals k kvs)). split; [done|]. by apply H.
Qed.

Lemma seq_loop_ok fuel kvs : (length kvs <= fuel)%nat -> StronglySorted key_le kvs -> lines_ok kvs (seq_loop fuel kvs).
Proof.
  revert kvs. induction fuel as [|fuel IH]; intros kvs Hf Hs.
  - destruct kvs; [|simpl in Hf; lia]. split; [constructor|]. intros k o. simpl. rewrite !elem_of_nil. tauto.
  - destruct kvs as [|kv kvs]; cbn [seq_loop]; [split; [constructor|]; intros k o; simpl; rewrite !elem_of_nil; tauto|].
    apply StronglySorted_inv in Hs as [Hs Hall]. rewrite Forall_forall in Hall.
    pose proof (span_key_spec (Key kv) kvs Hs Hall) as Hspan. destruct (span_key (Key kv) kvs) as [vs rest].
    destruct Hspan as (-> & Hl & Hs' & Hv & Hi). simpl in Hf. destruct (IH rest) as [Hn Hin]; [lia|done|].
    assert (forall k, k ∈ map fst (seq_loop fuel rest) <-> k ∈ map Key rest) as Hkeys by (intros; by apply lines_ok_keys).
    split; simpl.
    + apply NoDup_cons. split; [|done]. rewrite Hkeys, Hi. tauto.
    + intros k o. rewrite !elem_of_cons, Hin, Hi, vals_cons. split.
      * intros [[= -> ->]|[[Hne Hk] ->]]; [rewrite decide_True by done; auto|].
        rewrite decide_False by congruence. rewrite Hv by done. auto.
      * intros [Hk ->]. destruct (decide (k = Key kv)) as [->|Hne]; [left; by rewrite decide_True|right].
        rewrite decide_False by congruence. rewrite Hv by done. naive_solver.
Qed.

(** The two grouping loops agree. *)
Lemma reduce_loop_seq fuel kvs : reduce_loop fuel kvs = seq_loop fuel kvs.
Proof.
  revert kvs. induction fuel as [|fuel IH]; intros [|kv kvs]; [done..|]. cbn [reduce_loop seq_loop span_key].
  rewrite bool_decide_true by done. destruct (span_key (Key kv) kvs). by rewrite IH.
Qed.

(** The Reduce functions of this theorem do not depend on the order of the
    values, which the unstable sorts leave open. *)
Hypothesis reducef_perm : forall k vs1 vs2, vs1 ≡ₚ vs2 -> reducef k vs1 = reducef k vs2.

Lemma lines_ok_Permutation kvs kvs' L : kvs ≡ₚ kvs' -> lines_ok kvs L -> lines_ok kvs' L.
Proof.
  intros Hp [Hn H]. split; [done|]. intros k o. rewrite H. rewrite (reducef_perm k _ _ (vals_perm k _ _ Hp)).
  by rewrite Hp.
Qed.

Lemma sorted_lines_ok sorted kvs : sorted ≡ₚ kvs -> Sorted key_le sorted -> lines_ok kvs (seq_loop (length sorted) sorted).
Proof.
  intros Hp Hs. apply (lines_ok_Permutation sorted); [done|]. apply seq_loop_ok; [done|]. by apply Sorted_StronglySorted; [apply _|].
Qed.

(** ** Buckets *)

Definition bucket (n r : Z) (kvs : list KeyValue) : list KeyValue := filter (fun kv => ihash (Key kv) mod n = r) kvs.

(** The lines of the buckets, together, are the lines of the whole. *)
Lemma lines_ok_buckets n kvs (Ls : list (list (string * string))) : length Ls = Z.to_nat n -> 0 < n ->
  (forall r L, Ls !! r = Some L -> lines_ok (bucket n (Z.of_nat r) kvs) L) -> lines_ok kvs (concat Ls).
Proof.
  intros Hlen Hn HL.
  assert (forall k r, k ∈ map Key (bucket n r kvs) <-> ihash k mod n = r /\ k ∈ map Key kvs) as Hkeys.
  { intros k r. rewrite !list_elem_of_fmap. unfold bucket. setoid_rewrite list_elem_of_filter. naive_solver. }
  assert (forall k, vals k (bucket n (ihash k mod n) kvs) = vals k kvs) as Hvals.
  { intros k. unfold vals, bucket. rewrite list_filter_filter. f_equal. apply list_filter_iff. naive_solver. }
  split.
  - rewrite concat_map. apply (NoDup_concat_tag (fun k => Z.to_nat (ihash k mod n)) _ 0). intros r l Hl.
    apply list_lookup_fmap_Some in Hl as (L & -> & HrL). specialize (HL r L HrL). split; [apply HL|].
    intros k Hk. rewrite (lines_ok_keys _ _ _ HL), Hkeys in Hk. destruct Hk as [-> _]. simpl. lia.
  - intros k o. rewrite elem_of_concat. split.
    + intros (r & L & HrL & Hin). apply (HL r L HrL) in Hin as [[Hr Hk]%Hkeys ->]. rewrite <-Hr, Hvals. auto.
    + intros [Hk ->]. pose proof (Z.mod_pos_bound (ihash k) n Hn) as Hb.
      destruct (lookup_lt_is_Some_2 Ls (Z.to_nat (ihash k mod n))) as [L HrL]; [lia|].
      exists (Z.to_nat (ihash k mod n)), L. split; [done|]. apply (HL _ _ HrL). rewrite Z2Nat.id by lia.
      by rewrite Hvals, Hkeys.
Qed.

(** ** Intermediate files *)

Lemma decode_all_encode fuel kvs : Forall (fun kv => valid_kv kv = true) kvs -> (length (concat (map json_Encode kvs)) <= fuel)%nat ->
  decode_all fuel (concat (map json_Encode kvs)) = kvs.
Proof.
  intros Hv. revert fuel. induction Hv as [|kv kvs Hkv Hv IH]; intros fuel Hf; simpl in *.
  - destruct fuel; simpl; [done|]. by rewrite json_Decode_nil.
  - pose proof (json_Encode_nonempty kv) as Hne. rewrite length_app in Hf.
    destruct fuel as [|fuel]; [destruct (json_Encode kv); [done|simpl in Hf; lia]|]. cbn [decode_all]. rewrite json_Decode_Encode by done.
    f_equal. apply IH. destruct (json_Encode kv); [done|]. simpl in Hf. lia.
Qed.

Lemma ihash_bucket n k : 0 < n -> 0 <= ihash k mod n < n.
Proof. intros. by apply Z.mod_pos_bound. Qed.

(** The encoding loop puts each pair in its bucket, in order. *)
Lemma emit_spec n kvs bufs : 0 < n -> length bufs = Z.to_nat n ->
  exists bufs', emit n kvs bufs = Some bufs' /\ length bufs' = Z.to_nat n /\
    forall r b, bufs !! r = Some b -> bufs' !! r = Some (b ++ concat (map json_Encode (bucket n (Z.of_nat r) kvs))).
Proof.
  intros Hn. revert bufs. induction kvs as [|kv kvs IH]; intros bufs Hlen; cbn [emit].
  - exists bufs. split_and!; auto. intros r b Hr. by rewrite Hr, app_nil_r.
  - pose proof (ihash_bucket n (Key kv) Hn) as Hb. set (h := ihash (Key kv) mod n) in *.
    destruct (get_in_range bufs h) as [b0 Hb0]; [lia|]. rewrite Hb0. obind. rewrite put_in_range by lia. obind.
    apply get_Some in Hb0 as [_ Hb0].
    destruct (IH (<[Z.to_nat h := b0 ++ json_Encode kv]> bufs)) as (bufs' & -> & Hl & Hr); [by rewrite length_insert|].
    exists bufs'. split_and!; auto. intros r b Hrb. unfold bucket. rewrite filter_cons. fold h.
    destruct (decide (r = Z.to_nat h)) as [->|Hne].
    + rewrite decide_True by lia. simplify_eq. rewrite (Hr _ (b0 ++ json_Encode kv)); [|apply list_lookup_insert_eq; lia].
      by rewrite <-app_assoc.
    + rewrite decide_False by lia. apply Hr. by rewrite list_lookup_insert_ne.
Qed.

(** What the file "mr-<m>-<r>" holds once task [m] has run. *)
Definition inter_content (n r : Z) (kvs : list KeyValue) : bytes := concat (map json_Encode (bucket n r kvs)).

Lemma doMap_spec input task content : input (File task) = Some content -> 0 < NReduce task ->
  exists bufs, doMap input task = Some bufs /\ length bufs = Z.to_nat (NReduce task) /\
    forall r, (r < length bufs)%nat ->
      bufs !! r = Some (inter_content (NReduce task) (Z.of_nat r) (mapf (File task) content)).
Proof.
  intros Hin Hn. unfold doMap. rewrite Hin. obind.
  destruct (emit_spec (NReduce task) (mapf (File task) content) (replicate (Z.to_nat (NReduce task)) []) Hn) as (bufs & -> & Hl & Hr);
    [apply length_replicate|]. exists bufs. split_and!; auto. intros r Hlt. apply (Hr r []). apply lookup_replicate. split; [done|lia].
Qed.

(** ** The whole job *)

(** The pairs that the map task of each file emits. *)
Definition file_kvs (input : string -> option string) (f : string) : list KeyValue :=
  match input f with None => [] | Some content => mapf f content end.

Definition all_kvs (input : string -> option string) (files : list string) : list KeyValue :=
  concat (map (file_kvs input) files).

(** What the map tasks emit is valid UTF-8. *)
Definition utf8_output (input : string -> option string) (files : list string) : Prop :=
  Forall (fun kv => valid_kv kv = true) (all_kvs input files).

Lemma utf8_file input files m f n r : utf8_output input files -> files !! m = Some f ->
  Forall (fun kv => valid_kv kv = true) (bucket n r (file_kvs input f)).
Proof.
  unfold utf8_output. rewrite !Forall_forall. intros Hall Hf kv [_ Hkv]%list_elem_of_filter. apply Hall. unfold all_kvs.
  apply elem_of_concat. exists m, (file_kvs input f). split; [|done]. by rewrite list_lookup_fmap, Hf.
Qed.

(** Every intermediate file of the job is in place. *)
Definition inter_complete (input : string -> option string) (files : list string) (n : Z) (inter : Z * Z -> option bytes) : Prop :=
  forall m f r, files !! m = Some f -> 0 <= r < n -> inter (Z.of_nat m, r) = Some (inter_content n r (file_kvs input f)).

Definition reduce_task (files : list string) (n r : Z) : Task := MkTask ReduceTask r n (len files) "".

(** The output of reduce task [r]. *)
Definition reduce_lines (input : string -> option string) (files : list string) (n r : Z) : list (string * string) :=
  let kvs := sort_Slice (bucket n r (all_kvs input files)) in seq_loop (length kvs) kvs.

Lemma bucket_concat n r l : bucket n r (concat l) = concat (map (bucket n r) l).
Proof. unfold bucket. induction l as [|kvs l IH]; [done|]. simpl. by rewrite filter_app, IH. Qed.

Lemma read_inter_complete input files n inter r : utf8_output input files -> inter_complete input files n inter -> 0 <= r < n ->
  read_inter inter r (map Z.of_nat (seq 0 (length files))) = bucket n r (all_kvs input files).
Proof.
  intros Hv Hc Hr. unfold read_inter, all_kvs. rewrite bucket_concat, !map_map. f_equal.
  apply list_eq. intros m. rewrite !list_lookup_fmap. destruct (decide (m < length files)%nat) as [Hm|Hm].
  - rewrite lookup_seq_lt by done. destruct (lookup_lt_is_Some_2 files m Hm) as [f Hf]. rewrite Hf. simpl.
    rewrite (Hc m f r Hf Hr). f_equal. apply decode_all_encode; [by eapply utf8_file|done].
  - rewrite lookup_seq_ge by lia. by rewrite (lookup_ge_None_2 files m) by lia.
Qed.

Lemma doReduce_complete input files n inter r : utf8_output input files -> inter_complete input files n inter -> 0 <= r < n ->
  doReduce inter (reduce_task files n r) = map line (reduce_lines input files n r).
Proof.
  intros Hv Hc Hr. unfold doReduce, reduce_lines, reduce_task. cbn [TaskId NMap]. rewrite Nat2Z.id.
  rewrite (read_inter_complete input files n inter r Hv Hc Hr). by rewrite reduce_loop_seq.
Qed.

Lemma seq_intermediate_all input files : Forall (fun f => is_Some (input f)) files ->
  seq_intermediate input files = Some (all_kvs input files).
Proof.
  induction 1 as [|f files [c Hc] _ IH]; [done|]. cbn [seq_intermediate]. rewrite Hc. obind. rewrite IH. obind.
  unfold all_kvs, file_kvs. simpl. by rewrite Hc.
Qed.

(** The outputs of all reduce tasks, together, have one line per key. *)
Definition all_lines (input : string -> option string) (files : list string) (n : Z) : list (string * string) :=
  concat (map (fun r => reduce_lines input files n (Z.of_nat r)) (seq 0 (Z.to_nat n))).

Lemma all_lines_ok input files n : 0 < n -> lines_ok (all_kvs input files) (all_lines input files n).
Proof.
  intros Hn. apply (lines_ok_buckets n); [by rewrite length_map, length_seq|done|]. intros r L Hr.
  apply list_lookup_fmap_Some in Hr as (r' & -> & Hr). apply lookup_seq in Hr as [-> Hr].
  apply sorted_lines_ok; [apply sort_Slice_perm|apply sort_Slice_sorted].
Qed.

(** They are those of the sequential program, up to order. *)
Lemma all_lines_sequential input files n : 0 < n -> Forall (fun f => is_Some (input f)) files ->
  exists L, mrsequential input files = Some L /\ map line (all_lines input files n) ≡ₚ L.
Proof.
  intros Hn Hin. unfold mrsequential. rewrite seq_intermediate_all by done. obind. eexists. split; [done|].
  apply (Permutation_map line), (lines_ok_perm (all_kvs input files)); [by apply all_lines_ok|].
  apply sorted_lines_ok; [apply sort_Sort_perm|apply sort_Sort_sorted].
Qed.

End Worker.
