(* ===== verification/MrCoord.v ===== *)
(** * MapReduce: the coordinator and the job (src/mr/coordinator.go, rpc.go,
      and the worker loop of src/mr/worker.go)

    The coordinator hands out map tasks, then reduce tasks, takes a task back
    ten seconds after handing it out, and accepts a report only for the
    version of the task it handed out last.  Workers run tasks and may crash
    at any point, also between the renames of their output files.  The
    theorems: the coordinator never panics; when it says the job is done, the
    output is that of the sequential program; and whatever crashed before,
    one live worker finishes the job. *)

From S2P Require Import Prelude MrWorker.

Record TaskState : Type := MkTaskState {
  Id : Z;
  TFile : string;
  Status : Z;      (* 0: idle, 1: in progress, 2: done *)
  StartAt : Z;     (* time.Time, in nanoseconds *)
  Version : Z;
}.

Record Coordinator : Type := MkCoordinator {
  nReduce : Z;
  nMap : Z;
  files : list string;
  mapTasks : list TaskState;
  reduceTasks : list TaskState;
  phase : Z;       (* 0: map, 1: reduce, 2: done *)
}.

Definition set_status (t : TaskState) (s : Z) : TaskState := MkTaskState (Id t) (TFile t) s (StartAt t) (Version t).
Definition start_task (t : TaskState) (now : Z) : TaskState := MkTaskState (Id t) (TFile t) 1 now (Version t).
Definition with_maps (c : Coordinator) (ts : list TaskState) : Coordinator :=
  MkCoordinator (nReduce c) (nMap c) (files c) ts (reduceTasks c) (phase c).
Definition with_reduces (c : Coordinator) (ts : list TaskState) : Coordinator :=
  MkCoordinator (nReduce c) (nMap c) (files c) (mapTasks c) ts (phase c).
Definition with_phase (c : Coordinator) (p : Z) : Coordinator :=
  MkCoordinator (nReduce c) (nMap c) (files c) (mapTasks c) (reduceTasks c) p.

(** The loop that hands out the first idle task: the new tasks and the task. *)
Fixpoint take_idle (now : Z) (ts : list TaskState) : option (list TaskState * TaskState) :=
  match ts with
  | [] => None
  | t :: ts =>
      if Status t =? 0 then Some (start_task t now :: ts, t)
      else '(ts', t') ← take_idle now ts; Some (t :: ts', t')
  end.

Definition allDone (ts : list TaskState) : bool := forallb (fun t => Status t =? 2) ts.

Definition wait_task : Task := MkTask WaitTask 0 0 0 "".
Definition exit_task : Task := MkTask ExitTask 0 0 0 "".

Definition reduce_of (c : Coordinator) (id : Z) : Task := MkTask ReduceTask id (nReduce c) (nMap c) "".

(** RequestTask at time [now]: the new state and the reply; [None] is a
    panic. *)
Definition RequestTask (c : Coordinator) (now : Z) : option (Coordinator * (Task * Z)) :=
  if phase c =? 0 then
    match take_idle now (mapTasks c) with
    | Some (ts, t) =>
        Some (with_maps c ts, (MkTask MapTask (Id t) (nReduce c) (nMap c) (TFile t), Version t))
    | None =>
        if allDone (mapTasks c) then
          let rs := reduceTasks c ++ map (fun i => MkTaskState (Z.of_nat i) "" 0 0 0) (seq 0 (Z.to_nat (nReduce c))) in
          t ← get rs 0;
          rs ← put rs 0 (start_task t now);
          Some (with_reduces (with_phase c 1) rs, (reduce_of c 0, Version t))
        else Some (c, (wait_task, 0))
    end
  else if phase c =? 1 then
    match take_idle now (reduceTasks c) with
    | Some (ts, t) => Some (with_reduces c ts, (reduce_of c (Id t), Version t))
    | None =>
        if allDone (reduceTasks c) then Some (with_phase c 2, (exit_task, 0))
        else Some (c, (wait_task, 0))
    end
  else Some (c, (exit_task, 0)).

Definition report_on (ts : list TaskState) (id ver : Z) : option (list TaskState) :=
  t ← get ts id;
  if (Version t =? ver) && (Status t =? 1) then put ts id (set_status t 2) else Some ts.

Definition ReportDone (c : Coordinator) (ty : TaskType) (id ver : Z) : option Coordinator :=
  if bool_decide (ty = MapTask) then ts ← report_on (mapTasks c) id ver; Some (with_maps c ts)
  else ts ← report_on (reduceTasks c) id ver; Some (with_reduces c ts).

Definition Done (c : Coordinator) : bool := phase c =? 2.

Definition MakeCoordinator (fs : list string) (nReduce : Z) : Coordinator :=
  MkCoordinator nReduce (len fs) fs (imap (fun i f => MkTaskState (Z.of_nat i) f 0 0 0) fs) [] 0.

(** One round of timeoutWatcher, at time [now]. *)
Definition timeout (now : Z) (t : TaskState) : TaskState :=
  if (Status t =? 1) && (now - StartAt t >? 10 * 1000000000)
  then MkTaskState (Id t) (TFile t) 0 (StartAt t) (Version t + 1) else t.

Definition timeoutWatcher (c : Coordinator) (now : Z) : Coordinator :=
  if phase c =? 0 then with_maps c (map (timeout now) (mapTasks c))
  else if phase c =? 1 then with_reduces c (map (timeout now) (reduceTasks c))
  else c.

(** ** The job: coordinator, files and workers *)

Inductive WorkerState : Type :=
| Asking                          (* about to call RequestTask *)
| Working (t : Task) (ver : Z)    (* has a task, has not run it *)
| Finished (t : Task) (ver : Z)   (* has run it, about to call ReportDone *)
| Gone.                           (* exited or crashed *)

Record Job : Type := MkJob {
  coord : Coordinator;
  inter : gmap (Z * Z) bytes;     (* the files mr-<m>-<r> *)
  outs : gmap Z (list string);    (* the files mr-out-<r>, by lines *)
  workers : list WorkerState;
}.

Inductive MrEvent : Type :=
| WJoin                           (* a worker process starts *)
| WRequest (w : nat) (now : Z)    (* worker [w] calls RequestTask *)
| WRequestLost (w : nat) (now : Z) (* its call is executed, the reply is lost: the worker exits *)
| WRun (w : nat)                  (* worker [w] runs its task *)
| WRunPart (w : nat) (j : nat)    (* it crashes in doMap after [j] renames *)
| WReport (w : nat) (lost : bool) (* worker [w] calls ReportDone *)
| WCrash (w : nat)
| Tick (now : Z).                 (* timeoutWatcher *)

Section Job.
Context `{GKV : KeyValueJson} `{KS : KeySort}.
Context (mapf : string -> string -> list KeyValue) (reducef : string -> list string -> string).
Context (input : string -> option string).

(** os.Rename of the first files of a map task. *)
Definition rename_maps (m : Z) (bufs : list bytes) (fs : gmap (Z * Z) bytes) : gmap (Z * Z) bytes :=
  foldl (fun fs ib => <[(m, Z.of_nat (fst ib)) := snd ib]> fs) fs (imap pair bufs).

(** What the worker does with its task, up to [j] renames. *)
Definition run_task (jb : Job) (w : nat) (t : Task) (j : option nat) (after : WorkerState) : Job :=
  match Task_Type t with
  | MapTask =>
      match doMap mapf input t with
      | None => MkJob (coord jb) (inter jb) (outs jb) (<[w := Gone]> (workers jb))
      | Some bufs =>
          let bufs := match j with None => bufs | Some j => take j bufs end in
          MkJob (coord jb) (rename_maps (TaskId t) bufs (inter jb)) (outs jb) (<[w := after]> (workers jb))
      end
  | _ =>
      match j with
      | None =>
          MkJob (coord jb) (inter jb) (<[TaskId t := doReduce reducef (fun mr => inter jb !! mr) t]> (outs jb))
            (<[w := after]> (workers jb))
      | Some _ => MkJob (coord jb) (inter jb) (outs jb) (<[w := after]> (workers jb))
      end
  end.

Definition set_worker (jb : Job) (w : nat) (s : WorkerState) : Job :=
  MkJob (coord jb) (inter jb) (outs jb) (<[w := s]> (workers jb)).
Definition set_coord (jb : Job) (c : Coordinator) : Job := MkJob c (inter jb) (outs jb) (workers jb).

(** The switch of the worker loop. *)
Definition after_reply (t : Task) (ver : Z) : WorkerState :=
  match Task_Type t with
  | MapTask | ReduceTask => Working t ver
  | WaitTask => Asking
  | ExitTask => Gone
  end.

(** One event; an event its worker is not ready for changes nothing.  [None]
    is a panic of the coordinator. *)
Definition job_step (jb : Job) (ev : MrEvent) : option Job :=
  match ev with
  | WJoin => Some (MkJob (coord jb) (inter jb) (outs jb) (workers jb ++ [Asking]))
  | WRequest w now =>
      match workers jb !! w with
      | Some Asking => '(c, (t, ver)) ← RequestTask (coord jb) now; Some (set_worker (set_coord jb c) w (after_reply t ver))
      | _ => Some jb
      end
  | WRequestLost w now =>
      match workers jb !! w with
      | Some Asking => '(c, _) ← RequestTask (coord jb) now; Some (set_worker (set_coord jb c) w Gone)
      | _ => Some jb
      end
  | WRun w => match workers jb !! w with Some (Working t ver) => Some (run_task jb w t None (Finished t ver)) | _ => Some jb end
  | WRunPart w j => match workers jb !! w with Some (Working t ver) => Some (run_task jb w t (Some j) Gone) | _ => Some jb end
  | WReport w lost =>
      match workers jb !! w with
      | Some (Finished t ver) =>
          if lost then Some (set_worker jb w Asking)
          else c ← ReportDone (coord jb) (Task_Type t) (TaskId t) ver; Some (set_worker (set_coord jb c) w Asking)
      | _ => Some jb
      end
  | WCrash w => Some (set_worker jb w Gone)
  | Tick now => Some (set_coord jb (timeoutWatcher (coord jb) now))
  end.

Fixpoint job_run (jb : Job) (evs : list MrEvent) : option Job :=
  match evs with [] => Some jb | ev :: evs => jb ← job_step jb ev; job_run jb evs end.

Definition start_job (fs : list string) (n : Z) : Job := MkJob (MakeCoordinator fs n) ∅ ∅ [].

(** ** Task tables *)

(** A table of [L] tasks; [name i] is the input file of task [i]. *)
Definition tasks_wf (L : nat) (name : nat -> option string) (ts : list TaskState) : Prop :=
  length ts = L /\ forall i t, ts !! i = Some t -> Id t = Z.of_nat i /\ name i = Some (TFile t) /\ 0 <= Status t <= 2.

(** Only the tasks of [new] have become done. *)
Definition done_only (new : nat -> Prop) (ts ts' : list TaskState) : Prop :=
  forall i t', ts' !! i = Some t' -> Status t' = 2 -> new i \/ exists t, ts !! i = Some t /\ Status t = 2.

Definition all_done (ts : list TaskState) : Prop := forall i t, ts !! i = Some t -> Status t = 2.

Lemma done_only_refl new ts : done_only new ts ts.
Proof. intros i t Hi Hs. eauto. Qed.

Lemma take_idle_Some now ts ts' t : take_idle now ts = Some (ts', t) ->
  exists i, ts !! i = Some t /\ Status t = 0 /\ ts' = <[i := start_task t now]> ts.
Proof.
  revert ts'. induction ts as [|t0 ts IH]; intros ts' H; simpl in H; [done|].
  destruct (Z.eqb_spec (Status t0) 0); [simplify_eq; by exists 0%nat|].
  destruct (take_idle now ts) as [[ts1 t1]|]; [|done]. simpl in H. simplify_eq.
  destruct (IH ts1 eq_refl) as (i & ? & ? & ->). by exists (S i).
Qed.

Lemma take_idle_None now ts : take_idle now ts = None -> forall i t, ts !! i = Some t -> Status t <> 0.
Proof.
  induction ts as [|t0 ts IH]; intros H i t Hi; simpl in H; [done|].
  destruct (Z.eqb_spec (Status t0) 0); [done|]. destruct (take_idle now ts) as [[? ?]|]; [done|].
  destruct i; simpl in Hi; [by simplify_eq|eauto].
Qed.

Lemma allDone_spec ts : allDone ts = true <-> all_done ts.
Proof.
  unfold allDone, all_done. rewrite forallb_forall. split.
  - intros H i t Hi. apply Z.eqb_eq, H. apply list_elem_of_In. by eapply list_elem_of_lookup_2.
  - intros H t Ht. apply Z.eqb_eq. apply list_elem_of_In, list_elem_of_lookup in Ht as [i Hi]. eauto.
Qed.

Lemma tasks_wf_insert L name ts i t t' : tasks_wf L name ts -> ts !! i = Some t ->
  Id t' = Id t -> TFile t' = TFile t -> 0 <= Status t' <= 2 -> tasks_wf L name (<[i := t']> ts).
Proof.
  intros [Hl H] Hi E1 E2 Hs. split; [by rewrite length_insert|]. intros j tj Hj.
  apply list_lookup_insert_Some in Hj as [(-> & -> & _)|[_ Hj]]; [|by apply H].
  destruct (H j t Hi) as (H1 & H2 & _). rewrite E1, E2. auto.
Qed.

Lemma done_only_insert (new : nat -> Prop) ts i t' : (Status t' = 2 -> new i) -> done_only new ts (<[i := t']> ts).
Proof.
  intros Hn j tj Hj Hs. apply list_lookup_insert_Some in Hj as [(-> & -> & _)|[_ Hj]]; eauto.
Qed.

Lemma report_on_ok L name ts (id : nat) ver : tasks_wf L name ts -> (id < L)%nat ->
  exists ts', report_on ts (Z.of_nat id) ver = Some ts' /\ tasks_wf L name ts' /\ done_only (fun i => i = id) ts ts' /\
    (all_done ts -> ts' = ts).
Proof.
  intros Hwf Hid. pose proof Hwf as [Hl H]. unfold report_on. destruct (lookup_lt_is_Some_2 ts id) as [t Ht]; [lia|].
  rewrite get_nat, Ht. obind. destruct (_ && _) eqn:Hb; [|exists ts; split_and!; auto using done_only_refl]. zbool.
  rewrite put_in_range by lia. rewrite Nat2Z.id. eexists. split_and!; [done| | |].
  - eapply tasks_wf_insert; eauto; simpl; lia.
  - by apply done_only_insert.
  - intros Hall. specialize (Hall _ _ Ht). lia.
Qed.

Lemma timeout_ok L name ts now : tasks_wf L name ts ->
  tasks_wf L name (map (timeout now) ts) /\ done_only (fun _ => False) ts (map (timeout now) ts) /\
  (all_done ts -> all_done (map (timeout now) ts)).
Proof.
  intros [Hl H]. assert (forall i t', map (timeout now) ts !! i = Some t' -> exists t, ts !! i = Some t /\ t' = timeout now t) as Hin.
  { intros i t' Hi. apply list_lookup_fmap_Some in Hi as (t & -> & Hi). eauto. }
  assert (forall t, Status t = 2 -> timeout now t = t) as Hdone by (intros t Ht; unfold timeout; by rewrite Ht).
  split_and!; [split; [by rewrite length_map|]|..].
  - intros i t' (t & Ht & ->)%Hin. destruct (H i t Ht) as (? & ? & ?). unfold timeout. destruct (_ && _); simpl; split_and!; auto; lia.
  - intros i t' (t & Ht & ->)%Hin Hs. right. exists t. split; [done|]. revert Hs. unfold timeout. by destruct (_ && _).
  - intros Hall i t' (t & Ht & ->)%Hin. rewrite Hdone; eauto.
Qed.

(** ** The coordinator's invariant *)

Context (fs : list string) (n : Z).

Definition map_name (i : nat) : option string := fs !! i.
Definition reduce_name (i : nat) : option string := Some "".

Record coord_ok (c : Coordinator) : Prop := {
  co_n : nReduce c = n;
  co_m : nMap c = len fs;
  co_phase : 0 <= phase c <= 2;
  co_maps : tasks_wf (length fs) map_name (mapTasks c);
  co_none : phase c = 0 -> reduceTasks c = [];
  co_reds : 1 <= phase c -> tasks_wf (Z.to_nat n) reduce_name (reduceTasks c);
  co_maps_done : 1 <= phase c -> all_done (mapTasks c);
  co_reds_done : phase c = 2 -> all_done (reduceTasks c);
}.

(** A step of the coordinator after which the tasks of [newm] and [newr] may
    be done that were not. *)
Record coord_step (newm newr : nat -> Prop) (c c' : Coordinator) : Prop := {
  cs_ok : coord_ok c';
  cs_phase : phase c <= phase c';
  cs_maps : done_only newm (mapTasks c) (mapTasks c');
  cs_reds : done_only newr (reduceTasks c) (reduceTasks c');
}.

(** A task a worker may hold in phase [p]. *)
Inductive held (p : Z) : Task -> Prop :=
| held_map (i : nat) f : fs !! i = Some f -> held p (MkTask MapTask (Z.of_nat i) n (len fs) f)
| held_reduce (i : nat) : 1 <= p -> (i < Z.to_nat n)%nat -> held p (reduce_task fs n (Z.of_nat i)).

Lemma coord_step_refl newm newr c : coord_ok c -> coord_step newm newr c c.
Proof. intros. constructor; auto using done_only_refl. lia. Qed.

Lemma MakeCoordinator_ok : coord_ok (MakeCoordinator fs n).
Proof.
  constructor; simpl; try done; try lia. split; [by rewrite length_imap|]. intros i t Hi.
  rewrite list_lookup_imap in Hi. destruct (fs !! i) as [f|] eqn:Hf; [|done]. simpl in Hi. simplify_eq. simpl. split_and!; auto; lia.
Qed.

Lemma reduces_wf : tasks_wf (Z.to_nat n) reduce_name (map (fun i => MkTaskState (Z.of_nat i) "" 0 0 0) (seq 0 (Z.to_nat n))).
Proof.
  split; [by rewrite length_map, length_seq|]. intros i t Hi. apply list_lookup_fmap_Some in Hi as (j & -> & Hj).
  apply lookup_seq in Hj as [-> _]. simpl. split_and!; auto; lia.
Qed.

Hypothesis n_pos : 0 < n.

(** RequestTask never panics; it hands out a task of the job, or none. *)
Lemma RequestTask_ok c now : coord_ok c ->
  exists c' t ver, RequestTask c now = Some (c', (t, ver)) /\
    coord_step (fun _ => False) (fun _ => False) c c' /\
    (held (phase c') t \/ Task_Type t = WaitTask \/ Task_Type t = ExitTask).
Proof.
  intros Hok. pose proof Hok as [En Em Hp Hm Hn0 Hr Hmd Hrd]. unfold RequestTask.
  destruct (Z.eqb_spec (phase c) 0) as [Hp0|Hp0].
  - destruct (take_idle now (mapTasks c)) as [[ts t]|] eqn:Htake.
    + apply take_idle_Some in Htake as (i & Hi & Hs & ->). destruct (proj2 Hm i t Hi) as (Eid & Ef & _).
      do 3 eexists. split; [done|]. split.
      * constructor; simpl; try lia; auto using done_only_refl; [|by apply done_only_insert].
        constructor; simpl; auto; try lia. eapply tasks_wf_insert; eauto; simpl; lia.
      * left. rewrite Eid, En, Em. by constructor.
    + destruct (allDone (mapTasks c)) eqn:Hall; [|exists c; do 2 eexists; split; [done|]; split; [by apply coord_step_refl|auto]].
      apply allDone_spec in Hall. rewrite Hn0, En by done. cbn [app].
      pose proof reduces_wf as Hwf. destruct (lookup_lt_is_Some_2 (map (fun i => MkTaskState (Z.of_nat i) "" 0 0 0) (seq 0 (Z.to_nat n))) 0) as [t Ht];
        [rewrite length_map, length_seq; lia|].
      rewrite (get_nat _ 0), Ht. obind. rewrite put_in_range by (rewrite length_map, length_seq; lia). obind.
      do 3 eexists. split; [done|]. split.
      * constructor; simpl; try lia; auto using done_only_refl.
        -- constructor; simpl; auto; try lia. intros _. eapply tasks_wf_insert; eauto; simpl; lia.
        -- intros j t' Hj Hs. exfalso. apply list_lookup_insert_Some in Hj as [(_ & <- & _)|[_ Hj]]; [simpl in Hs; lia|].
           apply list_lookup_fmap_Some in Hj as (? & -> & _). simpl in Hs. lia.
      * left. unfold reduce_of. rewrite En, Em. apply (held_reduce _ 0); simpl; lia.
  - destruct (Z.eqb_spec (phase c) 1) as [Hp1|Hp1].
    + destruct (take_idle now (reduceTasks c)) as [[ts t]|] eqn:Htake.
      * apply take_idle_Some in Htake as (i & Hi & Hs & ->). assert (1 <= phase c) as Hge by lia.
        pose proof (Hr Hge) as Hwf. destruct (proj2 Hwf i t Hi) as (Eid & Ef & _).
        do 3 eexists. split; [done|]. split.
        -- constructor; simpl; try lia; auto using done_only_refl; [|by apply done_only_insert].
           constructor; simpl; auto; try lia. intros _. eapply tasks_wf_insert; eauto; simpl; lia.
        -- left. unfold reduce_of. rewrite Eid, En, Em. apply (held_reduce _ i); simpl; [lia|].
           rewrite <-(proj1 Hwf). by eapply lookup_lt_Some.
      * destruct (allDone (reduceTasks c)) eqn:Hall; [|exists c; do 2 eexists; split; [done|]; split; [by apply coord_step_refl|auto]].
        apply allDone_spec in Hall. do 3 eexists. split; [done|]. split; [|by right; right].
        constructor; simpl; try lia; auto using done_only_refl. constructor; simpl; auto; try lia; intros; [apply Hr|apply Hmd]; lia.
    + exists c. do 2 eexists. split; [done|]. split; [by apply coord_step_refl|]. by right; right.
Qed.

(** ReportDone of a task a worker holds. *)
Lemma ReportDone_ok c t ver : coord_ok c -> held (phase c) t ->
  exists c', ReportDone c (Task_Type t) (TaskId t) ver = Some c' /\
    coord_step (fun i => Task_Type t = MapTask /\ TaskId t = Z.of_nat i) (fun i => Task_Type t = ReduceTask /\ TaskId t = Z.of_nat i) c c'.
Proof.
  intros Hok Ht. pose proof Hok as [En Em Hp Hm Hn0 Hr Hmd Hrd]. unfold ReportDone. destruct Ht as [i f Hf|i Hge Hi]; simpl.
  - destruct (report_on_ok (length fs) map_name (mapTasks c) i ver Hm) as (ts & -> & Hwf & Hd & Hkeep); [by eapply lookup_lt_Some|].
    obind. eexists. split; [done|]. constructor; simpl; try lia; auto using done_only_refl.
    + constructor; simpl; auto. intros Hge. rewrite Hkeep by auto. auto.
    + intros j t' Hj Hs. destruct (Hd j t' Hj Hs) as [->|?]; auto.
  - destruct (report_on_ok (Z.to_nat n) reduce_name (reduceTasks c) i ver (Hr Hge) Hi) as (ts & -> & Hwf & Hd & Hkeep).
    obind. eexists. split; [done|]. constructor; simpl; try lia; auto using done_only_refl.
    + constructor; simpl; auto; [lia|]. intros Hp2. rewrite Hkeep by auto. auto.
    + intros j t' Hj Hs. destruct (Hd j t' Hj Hs) as [->|?]; auto.
Qed.

Lemma timeoutWatcher_ok c now : coord_ok c -> coord_step (fun _ => False) (fun _ => False) c (timeoutWatcher c now).
Proof.
  intros Hok. pose proof Hok as [En Em Hp Hm Hn0 Hr Hmd Hrd]. unfold timeoutWatcher.
  destruct (Z.eqb_spec (phase c) 0); [|destruct (Z.eqb_spec (phase c) 1); [|by apply coord_step_refl]].
  - destruct (timeout_ok _ _ _ now Hm) as (? & ? & ?). constructor; simpl; try lia; auto using done_only_refl.
    constructor; simpl; auto; lia.
  - destruct (timeout_ok _ _ _ now (Hr ltac:(lia))) as (? & ? & ?). constructor; simpl; try lia; auto using done_only_refl.
    constructor; simpl; auto; lia.
Qed.

(** ** The job's invariant *)

Definition map_present (files : gmap (Z * Z) bytes) (i : nat) : Prop :=
  forall r, 0 <= r < n -> is_Some (files !! (Z.of_nat i, r)).

(** The output a task leaves is in place. *)
Definition present (jb : Job) (t : Task) : Prop :=
  match Task_Type t with
  | MapTask => map_present (inter jb) (Z.to_nat (TaskId t))
  | _ => is_Some (outs jb !! TaskId t)
  end.

Definition worker_ok (jb : Job) (w : WorkerState) : Prop :=
  match w with
  | Asking | Gone => True
  | Working t _ => held (phase (coord jb)) t
  | Finished t _ => held (phase (coord jb)) t /\ present jb t
  end.

(** Every file that exists has its final content. *)
Definition inter_right (files : gmap (Z * Z) bytes) : Prop :=
  forall i r b f, files !! (Z.of_nat i, r) = Some b -> fs !! i = Some f -> b = inter_content n r (file_kvs mapf input f).

Definition outs_right (files : gmap Z (list string)) : Prop :=
  utf8_output mapf input fs -> forall r L, files !! r = Some L -> L = map line (reduce_lines mapf reducef input fs n r).

Record job_ok (jb : Job) : Prop := {
  jo_coord : coord_ok (coord jb);
  jo_inter : inter_right (inter jb);
  jo_outs : outs_right (outs jb);
  jo_maps : forall i t, mapTasks (coord jb) !! i = Some t -> Status t = 2 -> map_present (inter jb) i;
  jo_reds : forall i t, reduceTasks (coord jb) !! i = Some t -> Status t = 2 -> is_Some (outs jb !! Z.of_nat i);
  jo_workers : Forall (worker_ok jb) (workers jb);
}.

Lemma held_mono p p' t : p <= p' -> held p t -> held p' t.
Proof. intros Hle [i f Hf|i Hge Hi]; [by constructor|constructor; [lia|done]]. Qed.

Lemma start_job_ok : job_ok (start_job fs n).
Proof.
  constructor; simpl; try done; [apply MakeCoordinator_ok|].
  intros i t Hi Hs. rewrite list_lookup_imap in Hi. destruct (fs !! i); [|done]. simpl in Hi. simplify_eq.
Qed.

(** What the coordinator does to the job. *)
Lemma job_ok_coord jb c' newm newr : job_ok jb -> coord_step newm newr (coord jb) c' ->
  (forall i, newm i -> map_present (inter jb) i) -> (forall i, newr i -> is_Some (outs jb !! Z.of_nat i)) ->
  job_ok (set_coord jb c').
Proof.
  intros [Hc Hi Ho Hm Hr Hw] [Hok Hp Hdm Hdr] Hnm Hnr. constructor; simpl; auto.
  - intros i t Ht Hs. destruct (Hdm i t Ht Hs) as [?|(t0 & ? & ?)]; eauto.
  - intros i t Ht Hs. destruct (Hdr i t Ht Hs) as [?|(t0 & ? & ?)]; eauto.
  - eapply Forall_impl; [exact Hw|]. intros [|t v|t v|]; simpl; auto; [by apply held_mono|].
    intros [? ?]. split; [by eapply held_mono|done].
Qed.

Lemma job_ok_worker jb w s : job_ok jb -> worker_ok jb s -> job_ok (set_worker jb w s).
Proof. intros [Hc Hi Ho Hm Hr Hw] Hs. constructor; simpl; auto. by apply Forall_insert. Qed.

(** More files, with the right contents. *)
Lemma job_ok_files jb inter' outs' : job_ok jb -> inter_right inter' -> outs_right outs' ->
  (forall k, is_Some (inter jb !! k) -> is_Some (inter' !! k)) -> (forall r, is_Some (outs jb !! r) -> is_Some (outs' !! r)) ->
  job_ok (MkJob (coord jb) inter' outs' (workers jb)).
Proof.
  intros [Hc Hi Ho Hm Hr Hw] Hi' Ho' Hki Hko. constructor; simpl; auto.
  - intros i t Ht Hs r Hr'. apply Hki. by eapply Hm.
  - intros i t Ht Hs. apply Hko. by eapply Hr.
  - eapply Forall_impl; [exact Hw|]. intros [|t v|t v|]; simpl; auto. intros [? Hpres]. split; [done|].
    unfold present in *. simpl. destruct (Task_Type t); auto. intros r Hrr. apply Hki. by apply Hpres.
Qed.

(** The renames of a map task. *)
Lemma rename_maps_spec m bufs files k : rename_maps m bufs files !! k =
  match bufs !! Z.to_nat (snd k) with
  | Some b => if bool_decide (fst k = m /\ 0 <= snd k) then Some b else files !! k
  | None => files !! k
  end.
Proof.
  unfold rename_maps. induction bufs as [|b bufs IH] using rev_ind; [done|].
  rewrite imap_app, foldl_app. simpl. rewrite Nat.add_0_r. destruct k as [m' r']. cbn [fst snd] in *.
  destruct (decide ((m', r') = (m, Z.of_nat (length bufs)))) as [E|Hne].
  - simplify_eq. rewrite lookup_insert_eq, Nat2Z.id, list_lookup_middle by done.
    by rewrite bool_decide_true by (split; [done|lia]).
  - rewrite lookup_insert_ne by done. rewrite IH. destruct (decide (Z.to_nat r' < length bufs)%nat) as [Hlt|Hge].
    + by rewrite lookup_app_l.
    + rewrite (lookup_ge_None_2 bufs) by lia. destruct (decide (Z.to_nat r' = length bufs)) as [E|E].
      * rewrite E, list_lookup_middle by done. case_bool_decide as Hb; [|done]. exfalso. apply Hne. f_equal; [tauto|lia].
      * rewrite lookup_ge_None_2; [done|]. rewrite length_app. simpl. lia.
Qed.

Hypothesis input_ok : Forall (fun f => is_Some (input f)) fs.

(** Running a task, whole or in part, adds right files. *)
Lemma run_task_ok jb w t j after : job_ok jb -> held (phase (coord jb)) t ->
  (after = Gone \/ j = None /\ exists ver, after = Finished t ver) -> job_ok (run_task jb w t j after).
Proof.
  intros Hok Ht Hafter. pose proof Hok as [Hc Hi Ho Hm Hr Hw]. unfold run_task. destruct Ht as [i f Hf|i Hge Hlt]; cbn [Task_Type].
  - destruct (proj1 (Forall_lookup _ _) input_ok i f Hf) as [content Hcont].
    destruct (doMap_spec mapf input (MkTask MapTask (Z.of_nat i) n (len fs) f) content Hcont n_pos) as (bufs & -> & Hl & Hb).
    cbn [TaskId NReduce File] in *. set (bufs' := match j with None => bufs | Some j => take j bufs end).
    assert (forall r b, bufs' !! r = Some b -> b = inter_content n (Z.of_nat r) (file_kvs mapf input f)) as Hb'.
    { intros r b Hrb. assert (bufs !! r = Some b) as E by (subst bufs'; destruct j; [by apply lookup_take_Some in Hrb as [? _]|done]).
      rewrite Hb in E by (by eapply lookup_lt_Some). unfold file_kvs. rewrite Hcont. by simplify_eq. }
    assert (job_ok (MkJob (coord jb) (rename_maps (Z.of_nat i) bufs' (inter jb)) (outs jb) (workers jb))) as Hok'.
    { apply job_ok_files; auto.
      - intros i' r b f' Hin Hf'. rewrite rename_maps_spec in Hin. cbn [fst snd] in Hin.
        destruct (bufs' !! Z.to_nat r) as [b'|] eqn:Hb1; [|by eapply Hi]. case_bool_decide as Hd; [|by eapply Hi].
        destruct Hd as [Hii Hrr]. assert (i' = i) as -> by lia. simplify_eq. rewrite (Hb' _ _ Hb1). by rewrite Z2Nat.id by lia.
      - intros k Hk. rewrite rename_maps_spec. destruct (bufs' !! _); [case_bool_decide|]; eauto. }
    apply (job_ok_worker _ w after) in Hok'; [exact Hok'|].
    destruct Hafter as [->|[-> [ver ->]]]; [done|]. split; [by constructor|]. intros r Hr'. cbn [Task_Type TaskId inter]. rewrite Nat2Z.id.
    rewrite rename_maps_spec. cbn [fst snd]. destruct (lookup_lt_is_Some_2 bufs' (Z.to_nat r)) as [b ->]; [subst bufs'; lia|].
    rewrite bool_decide_true by lia. eauto.
  - cbn [reduce_task Task_Type TaskId]. destruct j as [j|].
    { destruct Hafter as [->|[? _]]; [|done]. by apply (job_ok_worker _ w Gone). }
    assert (inter_complete mapf input fs n (fun mr => inter jb !! mr)) as Hcomp.
    { intros m f r Hf Hrr. destruct (lookup_lt_is_Some_2 (mapTasks (coord jb)) m) as [t Ht];
        [rewrite (proj1 (co_maps _ Hc)); by eapply lookup_lt_Some|].
      destruct (Hm m t Ht (co_maps_done _ Hc Hge m t Ht) r Hrr) as [b Hb]. rewrite Hb. f_equal. by eapply Hi. }
    assert (job_ok (MkJob (coord jb) (inter jb)
      (<[Z.of_nat i := doReduce reducef (fun mr => inter jb !! mr) (reduce_task fs n (Z.of_nat i))]> (outs jb)) (workers jb))) as Hok'.
    { apply job_ok_files; auto.
      - intros Hv r L HL. apply lookup_insert_Some in HL as [[<- <-]|[_ HL]]; [|by apply Ho].
        apply (doReduce_complete mapf); [done|done|lia].
      - intros r Hrr. rewrite lookup_insert. case_decide; eauto. }
    apply (job_ok_worker _ w after) in Hok'; [exact Hok'|].
    destruct Hafter as [->|[_ [ver ->]]]; [done|]. split; [by constructor|]. unfold present. simpl. rewrite lookup_insert_eq. eauto.
Qed.

(** Every event keeps the invariant, and the coordinator does not panic. *)
Lemma job_step_ok jb ev : job_ok jb -> exists jb', job_step jb ev = Some jb' /\ job_ok jb'.
Proof.
  intros Hok. pose proof Hok as [Hc Hi Ho Hm Hr Hw]. destruct ev as [|w now|w now|w|w j|w lost|w|now]; simpl.
  - eexists. split; [done|]. constructor; simpl; auto. apply Forall_app_2; [done|]. by apply Forall_singleton.
  - destruct (workers jb !! w) as [[| | |]|] eqn:Hwk; eauto.
    destruct (RequestTask_ok (coord jb) now Hc) as (c' & t & ver & -> & Hstep & Ht). obind. eexists. split; [done|].
    apply job_ok_worker; [by apply (job_ok_coord jb c' _ _ Hok Hstep)|]. unfold after_reply.
    destruct Ht as [Ht|[E|E]]; [|rewrite E; exact I..]. destruct Ht; simpl; by constructor.
  - destruct (workers jb !! w) as [[| | |]|] eqn:Hwk; eauto.
    destruct (RequestTask_ok (coord jb) now Hc) as (c' & t & ver & -> & Hstep & Ht). obind. eexists. split; [done|].
    apply job_ok_worker; [by apply (job_ok_coord jb c' _ _ Hok Hstep)|done].
  - destruct (workers jb !! w) as [[|t ver| |]|] eqn:Hwk; eauto. eexists. split; [done|].
    apply run_task_ok; [done|exact (Forall_lookup_1 _ _ _ _ Hw Hwk)|eauto].
  - destruct (workers jb !! w) as [[|t ver| |]|] eqn:Hwk; eauto. eexists. split; [done|].
    apply run_task_ok; [done|exact (Forall_lookup_1 _ _ _ _ Hw Hwk)|by left].
  - destruct (workers jb !! w) as [[| |t ver|]|] eqn:Hwk; eauto. destruct lost; [eexists; split; [done|]; by apply job_ok_worker|].
    destruct (Forall_lookup_1 _ _ _ _ Hw Hwk) as [Hh Hp]. destruct (ReportDone_ok (coord jb) t ver Hc Hh) as (c' & -> & Hstep).
    obind. eexists. split; [done|]. apply job_ok_worker; [|done]. apply (job_ok_coord jb c' _ _ Hok Hstep).
    + intros i [E1 E2]. unfold present in Hp. by rewrite E1, E2, Nat2Z.id in Hp.
    + intros i [E1 E2]. unfold present in Hp. by rewrite E1, E2 in Hp.
  - eexists. split; [done|]. by apply job_ok_worker.
  - eexists. split; [done|]. by eapply job_ok_coord; [|apply timeoutWatcher_ok| |].
Qed.

Lemma job_run_ok jb evs : job_ok jb -> exists jb', job_run jb evs = Some jb' /\ job_ok jb'.
Proof.
  revert jb. induction evs as [|ev evs IH]; intros jb Hok; simpl; [eauto|].
  destruct (job_step_ok jb ev Hok) as (jb1 & -> & Hok1). obind. by apply IH.
Qed.

(** The output files of a finished job are those of all reduce tasks. *)
Lemma job_ok_output jb : utf8_output mapf input fs -> job_ok jb -> phase (coord jb) = 2 ->
  forall r, 0 <= r < n -> outs jb !! r = Some (map line (reduce_lines mapf reducef input fs n r)).
Proof.
  intros Hv [Hc Hi Ho Hm Hr Hw] Hp r Hrr. destruct (lookup_lt_is_Some_2 (reduceTasks (coord jb)) (Z.to_nat r)) as [t Ht].
  { rewrite (proj1 (co_reds _ Hc ltac:(lia))). lia. }
  destruct (Hr _ t Ht (co_reds_done _ Hc Hp _ t Ht)) as [L HL]. rewrite Z2Nat.id in HL by lia. rewrite HL. f_equal. by apply Ho.
Qed.

(** The output files of a finished job, one after the other. *)
Definition job_output (jb : Job) : list string :=
  concat (map (fun r => default [] (outs jb !! Z.of_nat r)) (seq 0 (Z.to_nat n))).

Lemma job_output_lines jb : utf8_output mapf input fs -> job_ok jb -> phase (coord jb) = 2 ->
  job_output jb = map line (all_lines mapf reducef input fs n).
Proof.
  intros Hv Hok Hp. unfold job_output, all_lines. rewrite concat_map, map_map. f_equal.
  apply map_ext_in. intros r Hr. apply in_seq in Hr. by rewrite (job_ok_output jb Hv Hok Hp) by lia.
Qed.

(** ** One live worker finishes the job *)

(** The tasks that are left. *)
Definition undone (ts : list TaskState) : nat := length (filter (fun t => Status t <> 2) ts).

Definition work_left (c : Coordinator) : nat :=
  if phase c =? 0 then S (undone (mapTasks c) + Z.to_nat n)
  else if phase c =? 1 then S (undone (reduceTasks c)) else O.

(** No task is in progress. *)
Definition none_running (ts : list TaskState) : Prop := forall i t, ts !! i = Some t -> Status t <> 1.

Lemma undone_insert ts i t t' : ts !! i = Some t -> Status t <> 2 -> Status t' = 2 -> undone ts = S (undone (<[i := t']> ts)).
Proof.
  revert i. induction ts as [|t0 ts IH]; intros [|i] Hi H1 H2; simpl in Hi; simplify_eq; unfold undone in *; simpl; rewrite !filter_cons.
  - rewrite decide_True by done. rewrite decide_False by (intros H; by apply H). done.
  - case_decide; simpl; by rewrite (IH i).
Qed.

Lemma undone_fresh ts : Forall (fun t => Status t = 0) ts -> undone ts = length ts.
Proof. unfold undone. induction 1 as [|t ts Ht _ IH]; [done|]. rewrite filter_cons, decide_True by lia. simpl. by rewrite IH. Qed.

Lemma undone_le ts : (undone ts <= length ts)%nat.
Proof. apply length_filter. Qed.

(** A worker that takes a task and reports it done. *)
Lemma take_report L name ts now i t : tasks_wf L name ts -> ts !! i = Some t -> Status t = 0 -> none_running ts ->
  exists ts', report_on (<[i := start_task t now]> ts) (Id t) (Version t) = Some ts' /\
    undone ts = S (undone ts') /\ none_running ts'.
Proof.
  intros [Hl H] Hi Hs Hn. destruct (H i t Hi) as (-> & _). pose proof (lookup_lt_Some _ _ _ Hi) as Hlt. unfold report_on.
  rewrite get_nat, list_lookup_insert_eq by done. obind. cbn [start_task Version Status]. rewrite Z.eqb_refl. cbn [andb Z.eqb Pos.eqb].
  rewrite put_in_range by (rewrite length_insert; lia). rewrite Nat2Z.id, list_insert_insert_eq. eexists. split; [done|]. split.
  - eapply undone_insert; [done|lia|done].
  - intros j tj Hj. apply list_lookup_insert_Some in Hj as [(_ & <- & _)|[_ Hj]]; [done|by eapply Hn].
Qed.

(** One round of a worker: ask, run, report. *)
Definition round (w : nat) (now : Z) : list MrEvent := [WRequest w now; WRun w; WReport w false].

Definition quiet (c : Coordinator) : Prop := none_running (mapTasks c) /\ none_running (reduceTasks c).

Lemma idle_all_done L name now ts : tasks_wf L name ts -> none_running ts -> take_idle now ts = None -> all_done ts.
Proof.
  intros [_ H] Hn Hidle i t Hi. pose proof (take_idle_None _ _ Hidle i t Hi). specialize (Hn i t Hi).
  destruct (H i t Hi) as (_ & _ & ?). lia.
Qed.

(** The round as the coordinator sees it. *)
Lemma coord_round c now : coord_ok c -> quiet c -> phase c < 2 ->
  exists c1 t ver, RequestTask c now = Some (c1, (t, ver)) /\
    ((phase c1 = 2 /\ Task_Type t = ExitTask /\ quiet c1) \/
     (exists c2, ReportDone c1 (Task_Type t) (TaskId t) ver = Some c2 /\ quiet c2 /\ phase c2 < 2 /\
       (Task_Type t = MapTask \/ Task_Type t = ReduceTask) /\ (work_left c2 < work_left c)%nat)).
Proof.
  intros Hok [Hqm Hqr] Hp2. pose proof Hok as [En Em Hp Hm Hn0 Hr Hmd Hrd]. unfold RequestTask.
  destruct (Z.eqb_spec (phase c) 0) as [Hp0|Hp0].
  - destruct (take_idle now (mapTasks c)) as [[ts t]|] eqn:Htake.
    + apply take_idle_Some in Htake as (i & Hi & Hs & ->).
      destruct (take_report _ _ _ now i t Hm Hi Hs Hqm) as (ts' & Hrep & Hu & Hn).
      do 3 eexists. split; [done|]. right. unfold ReportDone. cbn [Task_Type TaskId]. rewrite bool_decide_true by done.
      cbn [with_maps mapTasks]. rewrite Hrep. obind. eexists. split; [done|]. split_and!; simpl; auto; [done|].
      unfold work_left. simpl. rewrite Hp0. simpl. lia.
    + assert (all_done (mapTasks c)) as Hall by (by eapply idle_all_done). rewrite (proj2 (allDone_spec _) Hall), Hn0, En by done.
      cbn [app]. pose proof reduces_wf as Hwf. set (rs := map _ _) in *.
      assert (none_running rs /\ undone rs = Z.to_nat n) as [Hnr Hur].
      { split; [intros j t Hj; apply list_lookup_fmap_Some in Hj as (? & -> & _); done|].
        rewrite undone_fresh; [apply Hwf|]. apply Forall_fmap, Forall_true. done. }
      destruct (lookup_lt_is_Some_2 rs 0) as [t Ht]; [rewrite (proj1 Hwf); lia|].
      assert (Status t = 0) as Hs by (unfold rs in Ht; apply list_lookup_fmap_Some in Ht as (? & -> & _); done).
      rewrite (get_nat _ 0), Ht. obind. rewrite put_in_range by (rewrite (proj1 Hwf); lia). obind.
      destruct (take_report _ _ _ now 0 t Hwf Ht Hs Hnr) as (ts' & Hrep & Hu & Hn). destruct (proj2 Hwf 0%nat t Ht) as (Eid & _).
      do 3 eexists. split; [done|]. right. unfold ReportDone, reduce_of. cbn [Task_Type TaskId]. rewrite bool_decide_false by done.
      cbn [with_reduces reduceTasks]. rewrite Eid in Hrep. change (Z.of_nat 0) with 0 in Hrep. change (Z.to_nat 0) with 0%nat. rewrite Hrep.
      obind. eexists. split; [done|]. split_and!; simpl; auto; [by split|lia|].
      unfold work_left. simpl. rewrite Hp0. simpl. lia.
  - assert (phase c = 1) as Hp1 by lia. rewrite Hp1. cbn [Z.eqb Pos.eqb].
    destruct (take_idle now (reduceTasks c)) as [[ts t]|] eqn:Htake.
    + apply take_idle_Some in Htake as (i & Hi & Hs & ->). pose proof (Hr ltac:(lia)) as Hwf.
      destruct (take_report _ _ _ now i t Hwf Hi Hs Hqr) as (ts' & Hrep & Hu & Hn).
      do 3 eexists. split; [done|]. right. unfold ReportDone, reduce_of. cbn [Task_Type TaskId]. rewrite bool_decide_false by done.
      cbn [with_reduces reduceTasks]. rewrite Hrep. obind. eexists. split; [done|]. split_and!; simpl; auto; [done|].
      unfold work_left. simpl. rewrite Hp1. simpl. lia.
    + assert (all_done (reduceTasks c)) as Hall by (by eapply idle_all_done; [apply Hr; lia| |]).
      rewrite (proj2 (allDone_spec _) Hall). do 3 eexists. split; [done|]. left. split_and!; auto; by split.
Qed.

Lemma run_task_frame jb w t ver : held (phase (coord jb)) t ->
  coord (run_task jb w t None (Finished t ver)) = coord jb /\
  workers (run_task jb w t None (Finished t ver)) = <[w := Finished t ver]> (workers jb).
Proof.
  intros [i f Hf|i Hge Hi]; [|done]. unfold run_task. cbn [Task_Type].
  destruct (proj1 (Forall_lookup _ _) input_ok i f Hf) as [content Hcont].
  by destruct (doMap_spec mapf input (MkTask MapTask (Z.of_nat i) n (len fs) f) content Hcont n_pos) as (bufs & -> & _ & _).
Qed.

Lemma step_request jb w now c t ver : workers jb !! w = Some Asking -> RequestTask (coord jb) now = Some (c, (t, ver)) ->
  job_step jb (WRequest w now) = Some (set_worker (set_coord jb c) w (after_reply t ver)).
Proof. intros Hw Hr. simpl. by rewrite Hw, Hr. Qed.

Lemma step_run jb w t ver : workers jb !! w = Some (Working t ver) ->
  job_step jb (WRun w) = Some (run_task jb w t None (Finished t ver)).
Proof. intros Hw. simpl. by rewrite Hw. Qed.

Lemma step_report jb w t ver c : workers jb !! w = Some (Finished t ver) ->
  ReportDone (coord jb) (Task_Type t) (TaskId t) ver = Some c ->
  job_step jb (WReport w false) = Some (set_worker (set_coord jb c) w Asking).
Proof. intros Hw Hr. simpl. by rewrite Hw, Hr. Qed.

Lemma step_gone jb w ev : workers jb !! w = Some Gone -> (ev = WRun w \/ ev = WReport w false \/ exists now, ev = WRequest w now) ->
  job_step jb ev = Some jb.
Proof. intros Hw [-> |[-> |[now ->]]]; simpl; by rewrite Hw. Qed.

Lemma job_round jb w now : job_ok jb -> workers jb !! w = Some Asking -> quiet (coord jb) -> phase (coord jb) < 2 ->
  exists jb', job_run jb (round w now) = Some jb' /\ job_ok jb' /\
    (phase (coord jb') = 2 /\ workers jb' !! w = Some Gone \/
     workers jb' !! w = Some Asking /\ quiet (coord jb') /\ phase (coord jb') < 2 /\
     (work_left (coord jb') < work_left (coord jb))%nat).
Proof.
  intros Hok Hw Hq Hp. pose proof (lookup_lt_Some _ _ _ Hw) as Hlt.
  destruct (job_run_ok jb (round w now) Hok) as (jb' & Hrun & Hok'). exists jb'. split; [done|]. split; [done|].
  destruct (coord_round (coord jb) now (jo_coord _ Hok) Hq Hp) as (c1 & t & ver & Hreq & Hcase).
  destruct (RequestTask_ok (coord jb) now (jo_coord _ Hok)) as (c1' & t' & ver' & Hreq' & _ & Hheld).
  rewrite Hreq in Hreq'. symmetry in Hreq'. simplify_eq. unfold round in Hrun. cbn [job_run] in Hrun.
  rewrite (step_request _ _ _ _ _ _ Hw Hreq) in Hrun. cbn [mbind option_bind] in Hrun.
  set (jb1 := set_worker (set_coord jb c1) w (after_reply t ver)) in Hrun.
  assert (workers jb1 !! w = Some (after_reply t ver)) as Hw1 by (by apply list_lookup_insert_eq).
  destruct Hcase as [(Hp1 & Ht & _)|(c2 & Hrep & Hq2 & Hp2 & Hty & Hleft)].
  - left. unfold after_reply in Hw1. rewrite Ht in Hw1. rewrite !(step_gone jb1 w) in Hrun by (auto; done).
    cbn [mbind option_bind] in Hrun. rewrite (step_gone jb1 w) in Hrun by (auto; done). cbn [mbind option_bind] in Hrun. by simplify_eq.
  - right. assert (held (phase c1) t) as Hh by (destruct Hheld as [?|[?|?]]; [done|destruct Hty; congruence..]).
    assert (after_reply t ver = Working t ver) as E by (unfold after_reply; by destruct Hty as [-> | ->]). rewrite E in Hw1.
    destruct (run_task_frame jb1 w t ver Hh) as [Ec Ew]. rewrite (step_run _ _ _ _ Hw1) in Hrun. cbn [mbind option_bind] in Hrun.
    assert (w < length (workers jb1))%nat as Hlt1 by (by eapply lookup_lt_Some).
    rewrite (step_report _ w t ver c2) in Hrun; [|by rewrite Ew, list_lookup_insert_eq|by rewrite Ec].
    cbn [mbind option_bind] in Hrun. injection Hrun as <-. cbn [set_worker set_coord workers coord].
    rewrite list_lookup_insert_eq by (by rewrite Ew, length_insert). auto.
Qed.

Lemma rounds_gone jb w nows : workers jb !! w = Some Gone -> job_run jb (concat (map (round w) nows)) = Some jb.
Proof.
  intros Hw. induction nows as [|now nows IH]; [done|]. cbn [map concat round app job_run].
  rewrite (step_gone jb w (WRequest w now)) by (eauto 6). cbn [mbind option_bind].
  rewrite (step_gone jb w (WRun w)) by auto. cbn [mbind option_bind].
  rewrite (step_gone jb w (WReport w false)) by auto. exact IH.
Qed.

Lemma job_run_app jb evs1 evs2 : job_run jb (evs1 ++ evs2) = (jb1 ← job_run jb evs1; job_run jb1 evs2).
Proof. revert jb. induction evs1 as [|ev evs1 IH]; intros jb; [done|]. simpl. destruct (job_step jb ev); simpl; auto. Qed.

Lemma rounds_finish jb w nows : job_ok jb -> workers jb !! w = Some Asking -> quiet (coord jb) -> phase (coord jb) < 2 ->
  (work_left (coord jb) <= length nows)%nat ->
  exists jb', job_run jb (concat (map (round w) nows)) = Some jb' /\ job_ok jb' /\ phase (coord jb') = 2.
Proof.
  revert jb. induction nows as [|now nows IH]; intros jb Hok Hw Hq Hp Hl.
  - exfalso. pose proof (co_phase _ (jo_coord _ Hok)). unfold work_left in Hl. simpl in Hl.
    destruct (Z.eqb_spec (phase (coord jb)) 0); [lia|]. destruct (Z.eqb_spec (phase (coord jb)) 1); lia.
  - destruct (job_round jb w now Hok Hw Hq Hp) as (jb1 & Hrun & Hok1 & Hcase). cbn [map concat]. rewrite job_run_app, Hrun. obind.
    destruct Hcase as [[Hp1 Hw1]|(Hw1 & Hq1 & Hp1 & Hl1)].
    + exists jb1. split_and!; auto. by apply rounds_gone.
    + apply IH; auto. simpl in Hl. lia.
Qed.

(** After all running tasks have timed out, nothing is in progress. *)
Lemma timeout_quiet c late : coord_ok c ->
  (forall t, t ∈ mapTasks c ++ reduceTasks c -> late - StartAt t > 10000000000) -> quiet (timeoutWatcher c late).
Proof.
  intros [En Em Hp Hm Hn0 Hr Hmd Hrd] Hlate.
  assert (forall ts, (forall t, t ∈ ts -> late - StartAt t > 10000000000) -> none_running (map (timeout late) ts)) as Hto.
  { intros ts H i t' Hi. apply list_lookup_fmap_Some in Hi as (t & -> & Hi). unfold timeout.
    specialize (H t (list_elem_of_lookup_2 _ _ _ Hi)). destruct (Z.eqb_spec (Status t) 1); simpl; [|done].
    rewrite Z.gtb_ltb. destruct (Z.ltb_spec (10 * 1000000000) (late - StartAt t)); simpl; lia. }
  assert (forall ts, all_done ts -> none_running ts) as Hdn by (intros ts H i t Hi; rewrite (H i t Hi); done).
  unfold timeoutWatcher. destruct (Z.eqb_spec (phase c) 0); [|destruct (Z.eqb_spec (phase c) 1)]; split; simpl.
  - apply Hto. intros. apply Hlate. by apply elem_of_app; left.
  - rewrite Hn0 by done. by intros ? ? ?.
  - apply Hdn, Hmd. lia.
  - apply Hto. intros. apply Hlate. by apply elem_of_app; right.
  - apply Hdn, Hmd. lia.
  - apply Hdn, Hrd. lia.
Qed.

(** A finished job stays finished. *)
Lemma done_stays jb ev jb' : phase (coord jb) = 2 -> job_step jb ev = Some jb' -> phase (coord jb') = 2.
Proof.
  intros Hp. assert (forall now c r, RequestTask (coord jb) now = Some (c, r) -> phase c = 2) as Hreq.
  { intros now c r. unfold RequestTask. rewrite Hp. simpl. by intros; simplify_eq. }
  assert (forall ty id ver c, ReportDone (coord jb) ty id ver = Some c -> phase c = 2) as Hrep.
  { intros ty id ver c. unfold ReportDone. destruct (bool_decide _), (report_on _ id ver); simpl; by intros; simplify_eq. }
  assert (forall w t j s, phase (coord (run_task jb w t j s)) = 2) as Hrun.
  { intros w t j s. unfold run_task. destruct (Task_Type t); [destruct (doMap _ _ _)|destruct j..]; done. }
  intros Hs. destruct ev; simpl in Hs; try (by simplify_eq).
  1,2: destruct (workers jb !! w) as [[| | |]|]; try (by simplify_eq).
  1,2: destruct (RequestTask (coord jb) now) as [[c [t ver]]|] eqn:E; simpl in Hs; simplify_eq; by eapply Hreq.
  1,2: destruct (workers jb !! w) as [[| | |]|]; simplify_eq; auto.
  - destruct (workers jb !! w) as [[| |t ver|]|]; try (by simplify_eq). destruct lost; [by simplify_eq|].
    destruct (ReportDone (coord jb) _ _ ver) as [c|] eqn:E; simpl in Hs; simplify_eq. by eapply Hrep.
  - simplify_eq. simpl. unfold timeoutWatcher. by rewrite Hp.
Qed.

Lemma done_stays_run jb evs jb' : phase (coord jb) = 2 -> job_run jb evs = Some jb' -> phase (coord jb') = 2.
Proof.
  revert jb. induction evs as [|ev evs IH]; intros jb Hp Hr; simpl in Hr; [by simplify_eq|].
  destruct (job_step jb ev) as [jb1|] eqn:Hs; [|done]. simpl in Hr. apply (IH jb1); [by eapply done_stays|done].
Qed.

Lemma work_left_bound c : coord_ok c -> (work_left c <= length fs + Z.to_nat n + 1)%nat.
Proof.
  intros [En Em Hp Hm Hn0 Hr Hmd Hrd]. unfold work_left. pose proof (undone_le (mapTasks c)). pose proof (undone_le (reduceTasks c)).
  destruct Hm as [Hl _]. destruct (Z.eqb_spec (phase c) 0); [lia|]. destruct (Z.eqb_spec (phase c) 1) as [E|]; [|lia].
  destruct (Hr ltac:(lia)) as [Hl' _]. lia.
Qed.

End Job.

(** ** Theorems *)

(** C28 (safety): the MapReduce job is correct however its workers behave.
    In every run on readable files with at least one reduce task, with
    workers joining, crashing in the middle of their output, losing replies
    and reporting late, and tasks handed out again after timeouts, the
    coordinator never panics.  And once Done reports true, the output files
    mr-out-0, mr-out-1, ... together hold exactly the lines that the
    sequential program prints for the same input, if the Reduce function
    does not depend on the order of its values (both programs sort with an
    unstable sort) and the keys and values that Map emits on these files are
    valid UTF-8 (the intermediate files are JSON, which has no other
    strings). *)
Theorem mapreduce_is_sequential `{KeyValueJson} `{KeySort} mapf reducef input fs n evs :
  0 < n -> Forall (fun f => is_Some (input f)) fs ->
  exists jb, job_run mapf reducef input (start_job fs n) evs = Some jb /\
    ((forall k vs1 vs2, vs1 ≡ₚ vs2 -> reducef k vs1 = reducef k vs2) -> utf8_output mapf input fs -> Done (coord jb) = true ->
     exists L, mrsequential mapf reducef input fs = Some L /\ job_output n jb ≡ₚ L).
Proof.
  intros Hn Hin.
  destruct (job_run_ok mapf reducef input fs n Hn Hin _ evs (start_job_ok mapf reducef input fs n)) as (jb & Hrun & Hok).
  exists jb. split; [done|]. intros Hperm Hv Hd%Z.eqb_eq.
  rewrite (job_output_lines mapf reducef input fs n Hn jb Hv Hok Hd).
  by apply (all_lines_sequential mapf reducef Hperm).
Qed.

(** C30 (liveness): the job always can finish.  Whatever has happened to a job
    on readable files with at least one reduce task, once the tasks in progress have timed out, a single worker that joins and works
    undisturbed brings the coordinator to Done within one round per task and
    one more. *)
Theorem mapreduce_finishes `{KeyValueJson} `{KeySort} mapf reducef input fs n evs jb late nows :
  0 < n -> Forall (fun f => is_Some (input f)) fs ->
  job_run mapf reducef input (start_job fs n) evs = Some jb ->
  (forall t, t ∈ mapTasks (coord jb) ++ reduceTasks (coord jb) -> late - StartAt t > 10000000000) ->
  (length fs + Z.to_nat n + 1 <= length nows)%nat ->
  exists jb', job_run mapf reducef input jb ([Tick late; WJoin] ++ concat (map (round (length (workers jb))) nows)) = Some jb' /\
    Done (coord jb') = true.
Proof.
  intros Hn Hin Hrun Hlate Hlen.
  destruct (job_run_ok mapf reducef input fs n Hn Hin _ evs (start_job_ok mapf reducef input fs n)) as (jb0 & Hrun0 & Hok0).
  rewrite Hrun in Hrun0. injection Hrun0 as <-.
  destruct (job_run_ok mapf reducef input fs n Hn Hin _ [Tick late; WJoin] Hok0) as (jb1 & Hrun1 & Hok1).
  rewrite job_run_app, Hrun1. obind. cbn in Hrun1. injection Hrun1 as <-. unfold Done. setoid_rewrite Z.eqb_eq.
  destruct (decide (phase (timeoutWatcher (coord jb) late) = 2)) as [Hp|Hp].
  - destruct (job_run_ok mapf reducef input fs n Hn Hin _ (concat (map (round (length (workers jb))) nows)) Hok1) as (jb' & Hr & _).
    exists jb'. split; [done|]. eapply (done_stays_run mapf reducef input); [|exact Hr]. exact Hp.
  - destruct (rounds_finish mapf reducef input fs n Hn Hin _ (length (workers jb)) nows Hok1) as (jb' & Hr & _ & Hd); [| | | |by exists jb'].
    + simpl. by apply list_lookup_middle.
    + simpl. apply (timeout_quiet fs n); [apply Hok0|done].
    + pose proof (co_phase _ _ _ (jo_coord _ _ _ _ _ _ Hok1)) as Hb. simpl in *. lia.
    + etrans; [apply (work_left_bound fs n Hn), (jo_coord _ _ _ _ _ _ Hok1)|done].
Qed.

(** ** Witnesses *)

#[local] Program Instance merge_key_sort : KeySort := {|
  sort_Slice := merge_sort key_le;
  sort_Sort l := merge_sort key_le (reverse l);
|}.
Next Obligation. intros. apply merge_sort_Permutation. Qed.
Next Obligation. intros. apply (Sorted_merge_sort key_le). Qed.
Next Obligation. intros. simpl. rewrite merge_sort_Permutation. apply reverse_Permutation. Qed.
Next Obligation. intros. apply (Sorted_merge_sort key_le). Qed.

(** A Map that emits the words "x", the file's content and "y"; a Reduce that
    tells one value from many. *)
Definition sample_map (f content : string) : list KeyValue := [MkKeyValue "x" f; MkKeyValue content f; MkKeyValue "y" "1"].
Definition sample_reduce (k : string) (vs : list string) : string := if bool_decide (length vs = 1%nat) then "one" else "many".
Definition sample_input (f : string) : option string :=
  if String.eqb f "f0" then Some "a" else if String.eqb f "f1" then Some "b" else None.

Lemma sample_reduce_perm k vs1 vs2 : vs1 ≡ₚ vs2 -> sample_reduce k vs1 = sample_reduce k vs2.
Proof. intros Hp. unfold sample_reduce. by rewrite (Permutation_length Hp). Qed.

(** Worker 0 crashes between two renames of task 0; worker 1 does all other
    tasks and, after the timeout, task 0. *)
Definition sample_events : list MrEvent :=
  [WJoin; WJoin; WRequest 0 0; WRunPart 0 1] ++ round 1 1 ++ [Tick 20000000000] ++
  concat (map (round 1) [20000000001; 20000000002; 20000000003; 20000000004; 20000000005; 20000000006]).

Lemma mapreduce_is_sequential_witness :
  exists jb, job_run sample_map sample_reduce sample_input (start_job ["f0"; "f1"] 3) sample_events = Some jb /\
    Done (coord jb) = true /\
    exists L, mrsequential sample_map sample_reduce sample_input ["f0"; "f1"] = Some L /\
      job_output 3 jb ≡ₚ L.
Proof.
  destruct (mapreduce_is_sequential sample_map sample_reduce sample_input ["f0"; "f1"] 3 sample_events)
    as (jb & Hrun & Hdone).
  - reflexivity.
  - repeat constructor; eexists; reflexivity.
  - exists jb. split; [exact Hrun|].
    assert (Done (coord jb) = true) as Hd.
    { assert ((fun jb => Done (coord jb)) <$> job_run sample_map sample_reduce sample_input (start_job ["f0"; "f1"] 3) sample_events
        = Some true) as E by (vm_compute; reflexivity). rewrite Hrun in E. by injection E. }
    split; [exact Hd|]. refine (Hdone sample_reduce_perm _ Hd). vm_compute. repeat constructor.
Defined.

Lemma mapreduce_finishes_witness :
  exists jb jb', job_run sample_map sample_reduce sample_input (start_job ["f0"; "f1"] 3) (take 4 sample_events) = Some jb /\
    job_run sample_map sample_reduce sample_input jb ([Tick 20000000000; WJoin] ++ concat (map (round (length (workers jb))) (replicate 6 1)))
      = Some jb' /\ Done (coord jb') = true.
Proof.
  destruct (job_run sample_map sample_reduce sample_input (start_job ["f0"; "f1"] 3) (take 4 sample_events)) as [jb|] eqn:Hrun;
    [|vm_compute in Hrun; discriminate].
  exists jb. destruct (mapreduce_finishes sample_map sample_reduce sample_input ["f0"; "f1"] 3 (take 4 sample_events) jb 20000000000 (replicate 6 1))
    as (jb' & Hr & Hd).
  - reflexivity.
  - repeat constructor; eexists; reflexivity.
  - exact Hrun.
  - vm_compute in Hrun. injection Hrun as <-. intros t Ht. cbn in Ht.
    repeat (apply elem_of_cons in Ht as [->|Ht]; [reflexivity|]). by apply elem_of_nil in Ht.
  - vm_compute. reflexivity.
  - exists jb'. split; [reflexivity|]. split; [exact Hr|exact Hd].
Defined.
