(* ===== verification/MrApps.v ===== *)
(** * MapReduce applications (src/mrapps/wc.go, src/mrapps/indexer.go)

    Word count and inverted index.  Unicode is a parameter: [runes] splits a
    string into its characters and [isLetter] is unicode.IsLetter.  The
    theorems: a word-count job prints exactly one line per word, with the
    number of its occurrences in all input files; an index job prints, for
    each word, the sorted names of the files that contain it. *)

From stdpp Require Import pretty.
From S2P Require Import Prelude MrWorker MrCoord.

Section Apps.
Context (runes : string -> list string) (isLetter : string -> bool).

(** strings.FieldsFunc with separator [not isLetter], over the characters:
    the maximal runs of letters. *)
Fixpoint fields (cur : option string) (rs : list string) : list string :=
  match rs with
  | [] => match cur with None => [] | Some w => [w] end
  | r :: rs =>
      if isLetter r then fields (Some (default "" cur +:+ r)) rs
      else match cur with None => fields None rs | Some w => w :: fields None rs end
  end.

Definition words (contents : string) : list string := fields None (runes contents).

(** ** wc.go *)

Definition wc_Map (filename contents : string) : list KeyValue := map (fun w => MkKeyValue w "1") (words contents).

(** [strconv.Itoa] prints in decimal. *)
Definition Itoa (n : nat) : string := pretty (N.of_nat n).

Definition wc_Reduce (key : string) (values : list string) : string := Itoa (length values).

(** ** indexer.go *)

(** [for w := range m] visits the keys of a map in any order. *)
Context (range_order : list string -> list string).
Hypothesis range_order_perm : forall l, range_order l ≡ₚ l.

Definition indexer_Map (document value : string) : list KeyValue :=
  map (fun w => MkKeyValue w document) (range_order (remove_dups (words value))).

(** [strings.Join(values, ",")] *)
Fixpoint join_comma (l : list string) : string :=
  match l with [] => "" | [x] => x | x :: l => x +:+ "," +:+ join_comma l end.

Definition indexer_Reduce (key : string) (values : list string) : string :=
  let values := merge_sort String.le values in
  Itoa (length values) +:+ " " +:+ join_comma values.

(** ** The applications do not depend on the order of values *)

Lemma wc_Reduce_perm k vs1 vs2 : vs1 ≡ₚ vs2 -> wc_Reduce k vs1 = wc_Reduce k vs2.
Proof. intros Hp. unfold wc_Reduce. by rewrite (Permutation_length Hp). Qed.

Lemma merge_sort_perm_eq vs1 vs2 : vs1 ≡ₚ vs2 -> merge_sort String.le vs1 = merge_sort String.le vs2.
Proof.
  intros Hp. apply (Sorted_unique String.le); [apply Sorted_merge_sort; apply _|apply Sorted_merge_sort; apply _|].
  by rewrite !merge_sort_Permutation.
Qed.

Lemma indexer_Reduce_perm k vs1 vs2 : vs1 ≡ₚ vs2 -> indexer_Reduce k vs1 = indexer_Reduce k vs2.
Proof. intros Hp. unfold indexer_Reduce. by rewrite (merge_sort_perm_eq vs1 vs2 Hp). Qed.

(** ** What the applications emit *)

(** The words of all files. *)
Definition file_words (input : string -> option string) (f : string) : list string :=
  match input f with None => [] | Some c => words c end.

Definition occurrences (w : string) (l : list string) : nat := length (filter (fun x => x = w) l).

Lemma wc_keys input fs : map Key (all_kvs wc_Map input fs) = concat (map (file_words input) fs).
Proof.
  unfold all_kvs. rewrite concat_map, map_map. f_equal. apply map_ext. intros f. unfold file_kvs, file_words.
  destruct (input f); [|done]. unfold wc_Map. rewrite map_map. apply map_id.
Qed.

Lemma wc_vals w input fs : length (vals w (all_kvs wc_Map input fs)) = occurrences w (concat (map (file_words input) fs)).
Proof.
  rewrite <-wc_keys. unfold vals, occurrences. rewrite length_map. generalize (all_kvs wc_Map input fs). intros l.
  induction l as [|kv l IH]; [done|]. simpl. rewrite !filter_cons. case_decide; simpl; by rewrite IH.
Qed.

Lemma occurrences_pos w l : w ∈ l <-> (0 < occurrences w l)%nat.
Proof.
  unfold occurrences. split.
  - intros Hin. destruct (filter (fun x => x = w) l) eqn:E; [|simpl; lia].
    assert (w ∈ filter (fun x => x = w) l) as Hf by (by apply list_elem_of_filter). rewrite E in Hf. by apply elem_of_nil in Hf.
  - intros Hp. destruct (filter (fun x => x = w) l) as [|x l'] eqn:E; [simpl in Hp; lia|].
    assert (x ∈ filter (fun x => x = w) l) as Hf by (rewrite E; left). by apply list_elem_of_filter in Hf as [-> ?].
Qed.

(** The documents with the word, in the order of the file list. *)
Definition documents (input : string -> option string) (w : string) (fs : list string) : list string :=
  filter (fun f => w ∈ file_words input f) fs.

Lemma indexer_keys input fs w : w ∈ map Key (all_kvs indexer_Map input fs) <-> w ∈ concat (map (file_words input) fs).
Proof.
  unfold all_kvs. rewrite concat_map, map_map, !elem_of_concat.
  assert (forall f, w ∈ map Key (file_kvs indexer_Map input f) <-> w ∈ file_words input f) as Hf.
  { intros f. unfold file_kvs, file_words. destruct (input f); [|done]. unfold indexer_Map. rewrite map_map, map_id.
    rewrite range_order_perm. apply elem_of_remove_dups. }
  split; intros (i & l & Hi & Hw); apply list_lookup_fmap_Some in Hi as (f & -> & Hi); exists i; eexists;
    (split; [rewrite list_lookup_fmap, Hi; done|]); by apply Hf.
Qed.

Lemma indexer_file_vals input w f : vals w (file_kvs indexer_Map input f) = if decide (w ∈ file_words input f) then [f] else [].
Proof.
  unfold file_kvs, file_words. destruct (input f) as [c|]; [|by rewrite decide_False by apply not_elem_of_nil].
  unfold indexer_Map. set (ws := range_order (remove_dups (words c))).
  assert (NoDup ws) as Hnd by (unfold ws; rewrite range_order_perm; apply NoDup_remove_dups).
  assert (w ∈ ws <-> w ∈ words c) as Hin by (unfold ws; rewrite range_order_perm; apply elem_of_remove_dups).
  transitivity (if decide (w ∈ ws) then [f] else []); [|by destruct (decide (w ∈ ws)), (decide (w ∈ words c)); tauto].
  clear Hin. clearbody ws. induction Hnd as [|x ws Hx Hnd IH]; [by rewrite decide_False by apply not_elem_of_nil|].
  simpl. rewrite vals_cons. simpl. rewrite IH. destruct (decide (x = w)) as [->|Hne].
  - rewrite (decide_False (P := w ∈ ws)) by done. rewrite decide_True by left. done.
  - destruct (decide (w ∈ ws)); [rewrite decide_True by (by right)|rewrite decide_False by set_solver]; done.
Qed.

Lemma indexer_vals input w fs : vals w (all_kvs indexer_Map input fs) = documents input w fs.
Proof.
  unfold all_kvs, documents. induction fs as [|f fs IH]; [done|]. simpl. rewrite vals_app, IH, indexer_file_vals, filter_cons.
  by case_decide.
Qed.

(** ** Jobs *)

Context `{GKV : KeyValueJson} `{KS : KeySort}.

(** A word-count job counts words.  When a job with wc.go on valid UTF-8 is
    done, its output files hold one line per word that occurs in the input
    files, with the decimal number of its occurrences in all of them, and
    nothing else. *)
Theorem wc_job_counts_words input fs n evs jb :
  0 < n -> Forall (fun f => is_Some (input f)) fs -> utf8_output wc_Map input fs ->
  job_run wc_Map wc_Reduce input (start_job fs n) evs = Some jb -> Done (coord jb) = true ->
  let ws := concat (map (file_words input) fs) in
  exists L, job_output n jb = map line L /\ NoDup (map fst L) /\
    forall w o, (w, o) ∈ L <-> (0 < occurrences w ws)%nat /\ o = Itoa (occurrences w ws).
Proof.
  intros Hn Hin Hv Hrun Hd%Z.eqb_eq ws.
  destruct (job_run_ok wc_Map wc_Reduce input fs n Hn Hin _ evs (start_job_ok wc_Map wc_Reduce input fs n)) as (jb0 & Hrun0 & Hok).
  rewrite Hrun in Hrun0. injection Hrun0 as <-.
  exists (all_lines wc_Map wc_Reduce input fs n). split; [by apply job_output_lines|].
  destruct (all_lines_ok wc_Map wc_Reduce wc_Reduce_perm input fs n Hn) as [Hnd Hl]. split; [done|].
  intros w o. rewrite Hl, wc_keys, occurrences_pos. unfold wc_Reduce. by rewrite wc_vals.
Qed.

(** An index job, likewise: per word, the number and the sorted names of the
    files that contain it. *)
Theorem indexer_job_indexes input fs n evs jb :
  0 < n -> Forall (fun f => is_Some (input f)) fs -> utf8_output indexer_Map input fs ->
  job_run indexer_Map indexer_Reduce input (start_job fs n) evs = Some jb -> Done (coord jb) = true ->
  exists L, job_output n jb = map line L /\ NoDup (map fst L) /\
    forall w o, (w, o) ∈ L <-> w ∈ concat (map (file_words input) fs) /\ o = indexer_Reduce w (documents input w fs).
Proof.
  intros Hn Hin Hv Hrun Hd%Z.eqb_eq.
  destruct (job_run_ok indexer_Map indexer_Reduce input fs n Hn Hin _ evs (start_job_ok indexer_Map indexer_Reduce input fs n)) as (jb0 & Hrun0 & Hok).
  rewrite Hrun in Hrun0. injection Hrun0 as <-.
  exists (all_lines indexer_Map indexer_Reduce input fs n). split; [by apply job_output_lines|].
  destruct (all_lines_ok indexer_Map indexer_Reduce indexer_Reduce_perm input fs n Hn) as [Hnd Hl]. split; [done|].
  intros w o. rewrite Hl, indexer_keys. by rewrite indexer_vals.
Qed.

End Apps.

(** ** Witnesses *)

(** ASCII: every byte is a character. *)
Definition ascii_runes (s : string) : list string := map (fun a => String a "") (String.list_ascii_of_string s).
Definition ascii_isLetter (r : string) : bool :=
  match r with
  | String a "" => let n := Ascii.nat_of_ascii a in ((65 <=? n) && (n <=? 90) || (97 <=? n) && (n <=? 122))%nat
  | _ => false
  end.

#[local] Existing Instance merge_key_sort.

Definition wc_input (f : string) : option string :=
  if String.eqb f "f0" then Some "to be, or not to be" else if String.eqb f "f1" then Some "Not to be!" else None.

Definition wc_events : list MrEvent := WJoin :: concat (map (round 0) (replicate 8 0)).

Lemma wc_job_counts_words_witness :
  exists jb, job_run (wc_Map ascii_runes ascii_isLetter) wc_Reduce wc_input (start_job ["f0"; "f1"] 3) wc_events = Some jb /\
    exists L, job_output 3 jb = map line L /\ ("to", "3") ∈ L.
Proof.
  destruct (job_run (wc_Map ascii_runes ascii_isLetter) wc_Reduce wc_input (start_job ["f0"; "f1"] 3) wc_events) as [jb|] eqn:Hrun;
    [|vm_compute in Hrun; discriminate].
  exists jb. split; [reflexivity|].
  destruct (wc_job_counts_words ascii_runes ascii_isLetter wc_input ["f0"; "f1"] 3 wc_events jb) as (L & HL & _ & Hiff).
  - reflexivity.
  - repeat constructor; eexists; reflexivity.
  - vm_compute. repeat constructor.
  - exact Hrun.
  - assert ((fun jb => Done (coord jb)) <$> job_run (wc_Map ascii_runes ascii_isLetter) wc_Reduce wc_input (start_job ["f0"; "f1"] 3) wc_events
      = Some true) as E by (vm_compute; reflexivity). rewrite Hrun in E. by injection E.
  - exists L. split; [exact HL|]. apply Hiff. vm_compute. split; [lia|reflexivity].
Defined.
