(* ===== verification/MrTestApps.v ===== *)
(** * Test applications of MapReduce (src/mrapps/crash.go, nocrash.go, early_exit.go)

    crash.go exits or sleeps at random inside Map and Reduce: [rr] is the
    random number, [None] is the exit of the worker's process.  A crash or a
    delay of a worker is an event of the job model of MrCoord.v, so a job with
    crash.go is a run of the functions that crash.go computes when it does
    not crash, which are those of nocrash.go.  The theorems: such a job, with
    any crashes, delays and time-outs, prints what the sequential program
    prints with nocrash.go, four lines whose contents do not depend on the
    run; a job with early_exit.go counts its input files. *)

From stdpp Require Import pretty.
From S2P Require Import Prelude MrWorker MrCoord MrApps.

(** ** crash.go and nocrash.go *)

(** [maybeCrash] of crash.go, with [rr] in [0, 1000): the process exits, or
    the call returns, possibly after a delay. *)
Definition maybeCrash (rr : Z) : option unit := if rr <? 330 then None else Some tt.

(** The [if false && ...] of nocrash.go never holds. *)
Definition nocrash_maybeCrash (rr : Z) : option unit := if false && (rr <? 500) then None else Some tt.

Definition Itoa_len (s : string) : string := Itoa (String.length s).

(** [strings.Join(vv, " ")] *)
Fixpoint join_space (l : list string) : string :=
  match l with [] => "" | [x] => x | x :: l => x +:+ " " +:+ join_space l end.

Definition nocrash_kva (filename contents : string) : list KeyValue :=
  [MkKeyValue "a" filename; MkKeyValue "b" (Itoa_len filename); MkKeyValue "c" (Itoa_len contents); MkKeyValue "d" "xyzzy"].
Definition nocrash_val (values : list string) : string := join_space (merge_sort String.le values).

Definition crash_Map (rr : Z) (filename contents : string) : option (list KeyValue) :=
  _ ← maybeCrash rr; Some (nocrash_kva filename contents).
Definition crash_Reduce (rr : Z) (key : string) (values : list string) : option string :=
  _ ← maybeCrash rr; Some (nocrash_val values).

Definition nocrash_Map (rr : Z) (filename contents : string) : option (list KeyValue) :=
  _ ← nocrash_maybeCrash rr; Some (nocrash_kva filename contents).
Definition nocrash_Reduce (rr : Z) (key : string) (values : list string) : option string :=
  _ ← nocrash_maybeCrash rr; Some (nocrash_val values).

(** ** early_exit.go *)

Definition early_exit_Map (filename contents : string) : list KeyValue := [MkKeyValue filename "1"].

(** The sleep before the result does not change it. *)
Definition early_exit_Reduce (key : string) (values : list string) : string := Itoa (length values).

(** ** What jobs print *)

(** What a worker gets when it does not crash: the result for a random number
    for which the call returns.  It is the same for all of them. *)
Definition returns {A B C : Type} (f : Z -> A -> B -> option C) (d : C) (a : A) (b : B) : C := default d (f 999 a b).

Lemma crash_Map_returns rr f c l : crash_Map rr f c = Some l -> returns crash_Map [] f c = l.
Proof. unfold crash_Map. destruct (maybeCrash rr); [|done]. by intros [= <-]. Qed.

Lemma crash_Reduce_returns rr k vs o : crash_Reduce rr k vs = Some o -> returns crash_Reduce "" k vs = o.
Proof. unfold crash_Reduce. destruct (maybeCrash rr); [|done]. by intros [= <-]. Qed.

Lemma nocrash_never_crashes rr f c k vs :
  nocrash_Map rr f c = Some (returns crash_Map [] f c) /\ nocrash_Reduce rr k vs = Some (returns crash_Reduce "" k vs).
Proof. done. Qed.

Lemma nocrash_val_perm vs1 vs2 : vs1 ≡ₚ vs2 -> nocrash_val vs1 = nocrash_val vs2.
Proof. intros Hp. unfold nocrash_val. by rewrite (merge_sort_perm_eq vs1 vs2 Hp). Qed.

Section Jobs.
Context `{GKV : KeyValueJson} `{KS : KeySort}.

(** The contents of the input files. *)
Definition contents_of (input : string -> option string) (fs : list string) : list string := omap input fs.

Lemma crash_vals input fs : Forall (fun f => is_Some (input f)) fs ->
  vals "a" (all_kvs nocrash_kva input fs) = fs /\ vals "b" (all_kvs nocrash_kva input fs) = Itoa_len <$> fs /\
  vals "c" (all_kvs nocrash_kva input fs) = Itoa_len <$> contents_of input fs /\
  vals "d" (all_kvs nocrash_kva input fs) = replicate (length fs) "xyzzy".
Proof.
  unfold all_kvs, contents_of. induction 1 as [|f fs [c Hc] Hf (IHa & IHb & IHc & IHd)]; [done|].
  simpl. rewrite !vals_app, IHa, IHb, IHc, IHd. unfold file_kvs. rewrite Hc. done.
Qed.

Lemma crash_keys input fs k : Forall (fun f => is_Some (input f)) fs ->
  k ∈ map Key (all_kvs nocrash_kva input fs) <-> fs <> [] /\ k ∈ ["a"; "b"; "c"; "d"].
Proof.
  unfold all_kvs. induction 1 as [|f fs [c Hc] Hf IH]; [simpl; split; [by intros ?%elem_of_nil|by intros [? _]]|].
  simpl. rewrite map_app, elem_of_app, IH. unfold file_kvs. rewrite Hc. simpl. split; [intros [?|[_ ?]]; done|]. intros [_ ?]. by left.
Qed.

(** A job survives crashing workers.  When a job with crash.go
    is done, whatever crashes, delays and time-outs it went through, its
    output is that of the sequential program with nocrash.go: for a non-empty
    list of files exactly the four lines a, b, c and d, with the sorted file
    names, name lengths, file lengths and the constant of every file. *)
Theorem crash_job_output input fs n evs jb :
  0 < n -> fs <> [] -> Forall (fun f => is_Some (input f)) fs -> utf8_output nocrash_kva input fs ->
  job_run (returns crash_Map []) (returns crash_Reduce "") input (start_job fs n) evs = Some jb -> Done (coord jb) = true ->
  exists L, job_output n jb = map line L /\
    L ≡ₚ [("a", nocrash_val fs); ("b", nocrash_val (Itoa_len <$> fs)); ("c", nocrash_val (Itoa_len <$> contents_of input fs));
          ("d", nocrash_val (replicate (length fs) "xyzzy"))] /\
    exists out, mrsequential (returns nocrash_Map []) (returns nocrash_Reduce "") input fs = Some out /\ job_output n jb ≡ₚ out.
Proof.
  intros Hn Hne Hin Hv Hrun Hd%Z.eqb_eq. set (red := fun _ : string => nocrash_val).
  change (returns nocrash_Map []) with nocrash_kva. change (returns nocrash_Reduce "") with red.
  change (returns crash_Map []) with nocrash_kva in Hrun. change (returns crash_Reduce "") with red in Hrun.
  assert (forall k vs1 vs2, vs1 ≡ₚ vs2 -> red k vs1 = red k vs2) as Hperm by (intros ???; apply nocrash_val_perm).
  destruct (job_run_ok nocrash_kva red input fs n Hn Hin _ evs (start_job_ok nocrash_kva red input fs n)) as (jb0 & Hrun0 & Hok).
  rewrite Hrun in Hrun0. injection Hrun0 as <-. pose proof (job_output_lines nocrash_kva red input fs n Hn jb Hv Hok Hd) as Hout.
  exists (all_lines nocrash_kva red input fs n). split_and!; [done| |rewrite Hout; by apply (all_lines_sequential nocrash_kva red Hperm)].
  destruct (all_lines_ok nocrash_kva red Hperm input fs n Hn) as [Hnd Hl]. destruct (crash_vals input fs Hin) as (Ha & Hb & Hc & Hdd).
  apply NoDup_Permutation; [by apply (NoDup_fmap_1 fst)|apply (NoDup_fmap_1 fst); apply (bool_decide_unpack _); done|].
  intros [k o]. rewrite Hl, crash_keys by done. unfold red. split.
  - intros [[_ Hk] ->]. rewrite !elem_of_cons in Hk. destruct Hk as [->|[->|[->|[->|?%elem_of_nil]]]]; rewrite ?Ha, ?Hb, ?Hc, ?Hdd; set_solver.
  - intros Hx. rewrite !elem_of_cons in Hx. destruct Hx as [[= -> ->]|[[= -> ->]|[[= -> ->]|[[= -> ->]|?%elem_of_nil]]]];
      rewrite ?Ha, ?Hb, ?Hc, ?Hdd; (split; [split; [done|set_solver]|done]).
Qed.

Lemma early_exit_vals input fs f : Forall (fun f => is_Some (input f)) fs ->
  map Key (all_kvs early_exit_Map input fs) = fs /\ length (vals f (all_kvs early_exit_Map input fs)) = occurrences f fs.
Proof.
  unfold all_kvs, occurrences. induction 1 as [|g fs [c Hc] Hf [IHk IHv]]; [done|]. simpl. rewrite map_app, vals_app, length_app, IHk, IHv.
  unfold file_kvs. rewrite Hc. unfold early_exit_Map. rewrite filter_cons, vals_cons. cbn [Key]. split; [done|]. by case_decide.
Qed.

(** A job with early_exit.go prints one line per file name, with the number of
    times the file is an input. *)
Theorem early_exit_job_counts_files input fs n evs jb :
  0 < n -> Forall (fun f => is_Some (input f)) fs -> utf8_output early_exit_Map input fs ->
  job_run early_exit_Map early_exit_Reduce input (start_job fs n) evs = Some jb -> Done (coord jb) = true ->
  exists L, job_output n jb = map line L /\ NoDup (map fst L) /\ forall f o, (f, o) ∈ L <-> f ∈ fs /\ o = Itoa (occurrences f fs).
Proof.
  intros Hn Hin Hv Hrun Hd%Z.eqb_eq.
  destruct (job_run_ok early_exit_Map early_exit_Reduce input fs n Hn Hin _ evs (start_job_ok early_exit_Map early_exit_Reduce input fs n)) as (jb0 & Hrun0 & Hok).
  rewrite Hrun in Hrun0. injection Hrun0 as <-. exists (all_lines early_exit_Map early_exit_Reduce input fs n). split; [by apply job_output_lines|].
  destruct (all_lines_ok early_exit_Map early_exit_Reduce) with (input := input) (files := fs) (n := n) as [Hnd Hl];
    [intros k vs1 vs2 Hp; unfold early_exit_Reduce; by rewrite (Permutation_length Hp)|done|].
  split; [done|]. intros f o. rewrite Hl. unfold early_exit_Reduce.
  by destruct (early_exit_vals input fs f Hin) as [-> ->].
Qed.

End Jobs.

(** ** Witness *)

#[local] Existing Instance merge_key_sort.

(** Two files; the first worker takes a map task and crashes, and the task
    times out before the second worker does everything. *)
Definition crash_events : list MrEvent := [WJoin; WRequest 0 0; WCrash 0; WJoin; Tick 100000000000] ++ concat (map (round 1) (replicate 8 100000000000)).

Lemma crash_job_output_witness :
  exists jb, job_run (returns crash_Map []) (returns crash_Reduce "") wc_input (start_job ["f0"; "f1"] 3) crash_events = Some jb /\
    exists L, job_output 3 jb = map line L /\ ("a", "f0 f1") ∈ L.
Proof.
  destruct (job_run (returns crash_Map []) (returns crash_Reduce "") wc_input (start_job ["f0"; "f1"] 3) crash_events) as [jb|] eqn:Hrun;
    [|vm_compute in Hrun; discriminate].
  exists jb. split; [reflexivity|]. destruct (crash_job_output wc_input ["f0"; "f1"] 3 crash_events jb) as (L & HL & HP & _).
  - reflexivity.
  - discriminate.
  - repeat constructor; eexists; reflexivity.
  - vm_compute. repeat constructor.
  - exact Hrun.
  - assert ((fun jb => Done (coord jb)) <$> job_run (returns crash_Map []) (returns crash_Reduce "") wc_input (start_job ["f0"; "f1"] 3) crash_events
      = Some true) as E by (vm_compute; reflexivity). rewrite Hrun in E. by injection E.
  - exists L. split; [exact HL|]. rewrite HP. apply list_elem_of_here.
Defined.
