(* ===== verification/MrTest.v ===== *)
(** * The test driver of MapReduce (src/mr/util.go)

    The tests of mr_test.go run mrsequential and a job of the coordinator and
    several workers in a fresh directory, merge the output files with the
    commands find and sort, and compare the two results.  A file system maps
    paths to contents.  The commands are external: what order find lists
    files in, and the order of sort, are parameters with the properties that
    their documentation states.  The theorem: such a test passes for every
    application whose Reduce does not depend on the order of its values,
    whatever the workers do, including what crashed workers leave behind. *)

From Stdlib Require Import Ascii.
From stdpp Require Import pretty.
From S2P Require Import Prelude Config MrWorker MrCoord MrApps.

(** ** Text *)

Definition nl : ascii := Ascii.ascii_of_nat 10.

(** The characters that [strings.TrimSpace] removes, for text in ASCII. *)
Definition is_space (c : ascii) : bool := let x := Ascii.nat_of_ascii c in ((9 <=? x) && (x <=? 13) || (x =? 32))%nat.

Fixpoint trim_left (l : list ascii) : list ascii :=
  match l with [] => [] | c :: l' => if is_space c then trim_left l' else l end.
Definition TrimSpace (l : list ascii) : list ascii := reverse (trim_left (reverse (trim_left l))).

(** [strings.Split(s, "\n")] *)
Fixpoint split_nl (l : list ascii) : list (list ascii) :=
  match l with
  | [] => [[]]
  | c :: l =>
      if bool_decide (c = nl) then [] :: split_nl l
      else match split_nl l with [] => [[c]] | w :: ws => (c :: w) :: ws end
  end.

(** The lines of a file: its last line may lack the newline. *)
Fixpoint lines_of (s : string) : list string :=
  match s with
  | EmptyString => []
  | String c s' =>
      if bool_decide (c = nl) then "" :: lines_of s'
      else match lines_of s' with [] => [String c ""] | l :: ls => String c l :: ls end
  end.

Definition cat (ls : list string) : string := foldr String.append "" ls.
Definition unlines (ls : list string) : string := cat (map (fun l => l +:+ String nl "") ls).

(** ** Commands *)

(** File name patterns: a star, a bracket with one range, or the character
    itself. *)
Fixpoint fnmatch (p : list ascii) (s : list ascii) : bool :=
  match p with
  | [] => match s with [] => true | _ => false end
  | "*"%char :: p' =>
      (fix star (s : list ascii) : bool := fnmatch p' s || match s with [] => false | _ :: s' => star s' end) s
  | "["%char :: lo :: "-"%char :: hi :: "]"%char :: p' =>
      match s with
      | [] => false
      | c :: s' => ((Ascii.nat_of_ascii lo <=? Ascii.nat_of_ascii c) && (Ascii.nat_of_ascii c <=? Ascii.nat_of_ascii hi))%nat && fnmatch p' s'
      end
  | x :: p' => match s with [] => false | c :: s' => bool_decide (c = x) && fnmatch p' s' end
  end.

(** sort prints the lines in an order that only depends on what the lines
    are: lines that compare equal are compared byte by byte. *)
Class Shell : Type := {
  dir_order : list string -> list string;    (* how find meets the files *)
  sort_lines : list string -> list string;
  dir_order_perm : forall l, dir_order l ≡ₚ l;
  sort_lines_perm : forall l, sort_lines l ≡ₚ l;
  sort_lines_canonical : forall l1 l2, l1 ≡ₚ l2 -> sort_lines l1 = sort_lines l2;
}.

(** Paths to contents. *)
Abbreviation FS := (gmap string string).

Definition chars (s : string) : list ascii := String.list_ascii_of_string s.
Definition of_chars (l : list ascii) : string := String.string_of_list_ascii l.

(** [filepath.Join] of a directory and a file name. *)
Definition Join (dir name : string) : string := dir +:+ "/" +:+ name.

(** The part of a path after its last slash. *)
Fixpoint base (l : list ascii) : list ascii :=
  match l with
  | [] => []
  | c :: l' => if bool_decide ("/"%char ∈ l) then base l' else l
  end.

Definition is_under (dir : string) (p : string) : bool := String.prefix (Join dir "") p.

(** ** util.go *)

Section Util.
Context `{SH : Shell}.

(** [b]: the random bytes; [None] is the panic of the slice expression. *)
Definition RandString (b : list Z) (n : nat) : option string :=
  let s := base64 b in if (length s <? n)%nat then None else Some (of_chars (take n s)).

Definition coordinatorSock (b : list Z) : option string :=
  s ← RandString b 20; Some ("/tmp/5840-mr-" +:+ s).

Definition mkOut (b : list Z) : option string := s ← RandString b 8; Some ("mr-tmp-" +:+ s).

(** The output of [find dir -type f -name s]. *)
Definition find_cmd (dir s : string) (fs : FS) : list ascii :=
  concat (map (fun p => chars p ++ [nl])
    (dir_order (filter (fun p => is_under dir p && fnmatch (chars s) (base (chars p))) (map fst (map_to_list fs))))).

Definition findFiles (dir s : string) (fs : FS) : list string :=
  let s1 := TrimSpace (find_cmd dir s fs) in
  if bool_decide (s1 = []) then [] else map of_chars (split_nl s1).

Definition findFilesPre (dir s : string) (fs : FS) : list string := map (Join "..") (findFiles dir s fs).

(** [sort files]; [None]: a file is missing. *)
Definition sort_cmd (files : list string) (fs : FS) : option string :=
  cs ← mapM (fun f => fs !! f) files;
  Some (unlines (sort_lines (concat (map lines_of cs)))).

Definition os_Remove (f : string) (fs : FS) : option FS :=
  match fs !! f with Some _ => Some (delete f fs) | None => None end.

Definition mergeOutput (tmp out : string) (fs : FS) : option FS :=
  let files := findFiles tmp "mr-out-[0-9]" fs in
  if (length files <? 1)%nat then None
  else
    let fs := <[Join tmp out := ""]> fs in
    text ← sort_cmd files fs;
    Some (<[Join tmp out := text]> fs).

(** The errors of os.Remove are ignored; the directory itself goes when it is
    empty, and the result says whether it does. *)
Definition cleanup (tmp : string) (fs : FS) : FS * bool :=
  let fs := foldl (fun fs f => default fs (os_Remove f fs)) fs (findFiles tmp "mr-*" fs) in
  (fs, bool_decide (filter (fun p => is_under tmp p = true) (map fst (map_to_list fs)) = [])).

(** [false] is the Fatal of the test. *)
Definition runCmp (tmp f1 f2 : string) (fs : FS) : bool :=
  match fs !! Join tmp f1, fs !! Join tmp f2 with Some a, Some b => bool_decide (a = b) | _, _ => false end.

(** ** Regular expressions

    A pattern is a list of character classes, each with a star or without:
    what the tests use.  [rx_here]: the rest of the text after a match at its
    beginning, the stars as long as possible. *)
Definition rx : Type := list ((ascii -> bool) * bool).

Fixpoint rx_here (r : rx) (s : list ascii) : option (list ascii) :=
  match r with
  | [] => Some s
  | (cl, false) :: r => match s with [] => None | c :: s => if cl c then rx_here r s else None end
  | (cl, true) :: r =>
      (fix star (s : list ascii) : option (list ascii) :=
         match s with
         | [] => rx_here r []
         | c :: s' => if cl c then match star s' with Some x => Some x | None => rx_here r s end else rx_here r s
         end) s
  end.

(** [len(re.FindAllString(s, -1))]: the matches do not overlap; [skip]
    characters belong to the last one. *)
Fixpoint rx_count (r : rx) (s : list ascii) (skip : nat) : nat :=
  match s with
  | [] => 0
  | c :: s' =>
      match skip with
      | S skip => rx_count r s' skip
      | O => match rx_here r s with
             | Some rest => S (rx_count r s' (length s - length rest - 1))
             | None => rx_count r s' 0
             end
      end
  end.

Definition countPatternFile (f : string) (r : rx) (fs : FS) : option nat := data ← fs !! f; Some (rx_count r (chars data) 0).

Fixpoint countPattern (files : list string) (r : rx) (fs : FS) : option nat :=
  match files with
  | [] => Some 0%nat
  | f :: files => n ← countPatternFile f r fs; m ← countPattern files r fs; Some (n + m)%nat
  end.

(** ** A job of the driver *)

Context `{GKV : KeyValueJson} `{KS : KeySort}.
Context (mapf : string -> string -> list KeyValue) (reducef : string -> list string -> string).
Context (input : string -> option string).

(** The arguments of the two programs, the program's name first; [None] is an
    exit with an error.  The plugin that mrsequential loads is the
    application [mapf] and [reducef]. *)
Definition mrsequential_main (args : list string) : option (list string) :=
  if (length args <? 3)%nat then None else mrsequential mapf reducef input (drop 2 args).

Definition mrcoordinator_main (args : list string) : option Job :=
  if (length args <? 3)%nat then None else Some (start_job (drop 2 args) 10).

Definition mkCorrectOutput (tmp : string) (files : list string) (app out : string) (fs : FS) : option FS :=
  ls ← mrsequential_main ("../../main/mrsequential" :: app :: files);
  let fs := <[Join tmp "mr-out-0" := cat ls]> fs in
  let fs := <[Join tmp out := ""]> fs in
  text ← sort_cmd [Join tmp "mr-out-0"] fs;
  let fs := <[Join tmp out := text]> fs in
  os_Remove (Join tmp "mr-out-0") fs.

(** The files of a job in the directory of the workers: the output files, the
    intermediate files, and the temporary files of workers that crashed. *)
Definition out_name (r : Z) : string := "mr-out-" +:+ pretty r.
Definition inter_name (mr : Z * Z) : string := "mr-" +:+ pretty (fst mr) +:+ "-" +:+ pretty (snd mr).
Definition temp_name (t : bool * N) : string := (if fst t then "mr-map-tmp-" else "mr-out-tmp-") +:+ pretty (snd t).
Definition bytes_text (b : bytes) : string := of_chars (map (fun x => Ascii.ascii_of_N (Z.to_N x)) b).

Definition job_files (tmp : string) (jb : Job) (temps : list (bool * N * string)) (fs : FS) : FS :=
  list_to_map (map (fun '(r, ls) => (Join tmp (out_name r), cat ls)) (map_to_list (outs jb))) ∪
  (list_to_map (map (fun '(mr, b) => (Join tmp (inter_name mr), bytes_text b)) (map_to_list (inter jb))) ∪
   (list_to_map (map (fun '(t, c) => (Join tmp (temp_name t), c)) temps) ∪ fs)).

(** runMRchan: the coordinator and [n] workers start; then they run, and the
    call returns when the coordinator exits, which Done lets it do.  [evs]: what happens meanwhile; [None]: it has not
    returned.  The channel tells the test which processes exit; starting
    workers again is a WJoin of [evs]. *)
Definition runMRchan (tmp : string) (files : list string) (n : nat) (sock : string) (evs : list MrEvent) (temps : list (bool * N * string)) (fs : FS) : option FS :=
  jb ← mrcoordinator_main ("../main/mrcoordinator" :: sock :: files);
  jb ← job_run mapf reducef input jb (replicate n WJoin ++ evs);
  if Done (coord jb) then Some (job_files tmp jb temps fs) else None.

Definition runMR (tmp : string) (files : list string) (n : nat) (b : list Z) (evs : list MrEvent) (temps : list (bool * N * string)) (fs : FS) : option FS :=
  sock ← coordinatorSock b; runMRchan tmp files n sock evs temps fs.

(** The body of TestWc, TestIndexer and TestCrashWorker. *)
Definition compare_test (tmp : string) (files : list string) (app correct all : string) (n : nat) (b : list Z) (evs : list MrEvent)
    (temps : list (bool * N * string)) (fs : FS) : option (FS * bool) :=
  fs ← mkCorrectOutput tmp files app correct fs;
  fs ← runMR tmp files n b evs temps fs;
  fs ← mergeOutput tmp all fs;
  Some (fs, runCmp tmp all correct fs).

End Util.

(** ** Text lemmas *)

Lemma lines_of_app a b : lines_of (a +:+ String nl b) = lines_of (a +:+ String nl "") ++ lines_of b.
Proof.
  induction a as [|c a IH]; [done|]. simpl. rewrite IH. case_bool_decide; [done|].
  destruct (lines_of (a +:+ String nl "")) eqn:E; [|done]. exfalso. clear -E. destruct a as [|c' a]; simpl in E; [done|].
  case_bool_decide; [done|]. by destruct (lines_of _).
Qed.

Lemma append_assoc (a b c : string) : (a +:+ b) +:+ c = a +:+ (b +:+ c).
Proof. induction a as [|x a IH]; [done|]. change (String x ((a +:+ b) +:+ c) = String x (a +:+ (b +:+ c))). by rewrite IH. Qed.

(** Text that ends with a newline. *)
Definition ends_nl (s : string) : Prop := exists a, s = a +:+ String nl "".

Lemma line_ends_nl ko : ends_nl (line ko).
Proof. exists (fst ko +:+ " " +:+ snd ko). unfold line. by rewrite !append_assoc. Qed.

Lemma lines_of_cat ls : Forall ends_nl ls -> lines_of (cat ls) = concat (map lines_of ls).
Proof.
  induction 1 as [|s ls [a ->] Hls IH]; [done|]. simpl. rewrite append_assoc. change (String nl "" +:+ cat ls) with (String nl (cat ls)). by rewrite lines_of_app, IH.
Qed.

(** A path that no space or newline is part of. *)
Definition clean (l : list ascii) : Prop := l <> [] /\ Forall (fun c => is_space c = false) l.

Lemma split_nl_app (w l : list ascii) : nl ∉ w -> split_nl (w ++ nl :: l) = w :: split_nl l.
Proof.
  induction w as [|c w IH]; intros Hw; [done|]. apply not_elem_of_cons in Hw as [Hc Hw]. simpl. rewrite bool_decide_false by congruence. by rewrite IH.
Qed.

Lemma split_nl_last (w : list ascii) : nl ∉ w -> split_nl w = [w].
Proof.
  induction w as [|c w IH]; intros Hw; [done|]. apply not_elem_of_cons in Hw as [Hc Hw]. simpl. rewrite bool_decide_false by congruence. by rewrite IH.
Qed.

Lemma clean_nl l : clean l -> nl ∉ l.
Proof. intros [_ H] Hin. rewrite Forall_forall in H. by specialize (H nl Hin). Qed.

Lemma split_lines (ps : list (list ascii)) (w : list ascii) : Forall clean ps -> clean w ->
  split_nl (concat (map (fun p => p ++ [nl]) ps) ++ w) = ps ++ [w].
Proof.
  intros Hps Hw. induction Hps as [|p ps Hp _ IH]; simpl; [by apply split_nl_last, clean_nl|].
  rewrite <-!app_assoc. simpl. rewrite split_nl_app by (by apply clean_nl). by rewrite IH.
Qed.

Lemma trim_left_clean c l : is_space c = false -> trim_left (c :: l) = c :: l.
Proof. simpl. by intros ->. Qed.

Lemma TrimSpace_lines (ps : list (list ascii)) (w : list ascii) : Forall clean ps -> clean w ->
  TrimSpace (concat (map (fun p => p ++ [nl]) (ps ++ [w]))) = concat (map (fun p => p ++ [nl]) ps) ++ w.
Proof.
  intros Hps [Hne Hw]. unfold TrimSpace. rewrite map_app, concat_app. simpl. rewrite app_nil_r.
  set (l := concat (map (fun p => p ++ [nl]) ps)).
  assert (exists c r, l ++ w ++ [nl] = c :: r /\ is_space c = false) as (c & r & E & Hc).
  { destruct Hps as [|p ps [Hpn Hp] _].
    - destruct w as [|c w]; [done|]. exists c, (w ++ [nl]). split; [done|]. by apply Forall_cons in Hw as [? _].
    - destruct p as [|c p]; [done|]. subst l. simpl. eexists c, _. split; [done|]. by apply Forall_cons in Hp as [? _]. }
  rewrite E, trim_left_clean, <-E by done. rewrite !reverse_app. simpl.
  destruct (exists_last Hne) as (w' & x & ->). apply Forall_app in Hw as [_ Hx]. apply Forall_cons in Hx as [Hx _].
  rewrite reverse_app, reverse_singleton. cbn [app]. rewrite (trim_left_clean x) by done. rewrite reverse_cons, !reverse_app, !reverse_involutive. by rewrite app_assoc.
Qed.

Lemma of_chars_chars s : of_chars (chars s) = s.
Proof. apply String.string_of_list_ascii_of_string. Qed.
Lemma chars_of_chars l : chars (of_chars l) = l.
Proof. apply String.list_ascii_of_string_of_list_ascii. Qed.
Lemma chars_app a b : chars (a +:+ b) = chars a ++ chars b.
Proof. induction a as [|c a IH]; [done|]. simpl. by rewrite IH. Qed.


(** ** File names *)

Definition digit (c : ascii) : Prop := exists x, c = pretty_N_char x.

Lemma digit_clean c : digit c -> is_space c = false /\ c <> "/"%char /\ (Ascii.nat_of_ascii c <= 57)%nat.
Proof. intros [x ->]. unfold pretty_N_char. repeat case_match; (split_and!; [done|done|]); apply (bool_decide_unpack _); done. Qed.

Lemma pretty_N_go_digits x s : Forall digit (chars s) -> Forall digit (chars (pretty_N_go x s)).
Proof.
  revert s. induction (N.lt_wf_0 x) as [x _ IH]; intros s Hs. destruct (decide (x = 0%N)) as [->|]; [done|].
  rewrite pretty_N_go_step by lia. apply IH; [apply N.div_lt; lia|]. constructor; [by eexists|done].
Qed.

Lemma pretty_N_digits (x : N) : Forall digit (chars (pretty x)).
Proof. unfold pretty, pretty_N. case_decide; [repeat constructor; by exists 0%N|]. by apply pretty_N_go_digits. Qed.

(** A number is digits, maybe with a sign. *)
Lemma pretty_Z_chars (z : Z) : exists sign, (sign = [] \/ sign = ["-"%char]) /\ exists ds, chars (pretty z) = sign ++ ds /\ Forall digit ds.
Proof.
  destruct z as [|x|x].
  - exists []. split; [by left|]. exists (chars "0"). split; [done|]. repeat constructor. by exists 0%N.
  - exists []. split; [by left|]. exists (chars (pretty (N.pos x))). split; [done|apply pretty_N_digits].
  - exists ["-"%char]. split; [by right|]. exists (chars (pretty (N.pos x))). split; [done|apply pretty_N_digits].
Qed.

Lemma pretty_Z_no_slash (z : Z) : Forall (fun c => is_space c = false /\ c <> "/"%char /\ (Ascii.nat_of_ascii c <= 57)%nat) (chars (pretty z)).
Proof.
  destruct (pretty_Z_chars z) as (sign & Hs & ds & -> & Hd). apply Forall_app. split.
  - destruct Hs as [->| ->]; [done|]. apply Forall_singleton. split_and!; [done|done|]. apply (bool_decide_unpack _). done.
  - eapply Forall_impl; [done|apply digit_clean].
Qed.

(** What follows the last slash. *)
Lemma base_no_slash l : "/"%char ∉ l -> base l = l.
Proof. destruct l as [|c l]; [done|]. intros H. simpl. by rewrite bool_decide_false. Qed.

Lemma base_slash l b : "/"%char ∉ b -> base (l ++ "/"%char :: b) = b.
Proof.
  intros Hb. induction l as [|c l IH]; cbn [app base].
  - rewrite bool_decide_true by left. by apply base_no_slash.
  - rewrite bool_decide_true by (right; apply elem_of_app; right; left). exact IH.
Qed.

Lemma chars_Join dir b : chars (Join dir b) = chars dir ++ "/"%char :: chars b.
Proof. unfold Join. by rewrite !chars_app. Qed.

Lemma base_Join dir b : "/"%char ∉ chars b -> base (chars (Join dir b)) = chars b.
Proof. intros Hb. rewrite chars_Join. by apply base_slash. Qed.

Lemma prefix_append a b : String.prefix a (a +:+ b) = true.
Proof. induction a as [|c a IH]; [by destruct b|]. change (String.prefix (String c a) (String c (a +:+ b)) = true). simpl. destruct (ascii_dec c c); [exact IH|done]. Qed.

Lemma Join_under dir b : is_under dir (Join dir b) = true.
Proof. unfold is_under, Join. replace (dir +:+ "/" +:+ b) with ((dir +:+ "/" +:+ "") +:+ b) by by rewrite append_assoc. apply prefix_append. Qed.

Lemma Join_inj dir : Inj (=) (=) (Join dir).
Proof. intros a b H%(f_equal chars). rewrite !chars_Join in H. apply (inj _) in H. injection H as H%(f_equal of_chars). by rewrite !of_chars_chars in H. Qed.

(** The names of the reports of the tests: mr-wc-all.txt and the like. *)
Definition report_name (b : string) : bool :=
  match chars b with
  | "m"%char :: "r"%char :: "-"%char :: c :: rest =>
      ((97 <=? Ascii.nat_of_ascii c) && (Ascii.nat_of_ascii c <=? 122))%nat && negb (bool_decide (c = "o"%char)) && negb (bool_decide (c = "m"%char)) &&
      bool_decide ("/"%char ∉ rest)
  | _ => false
  end.

Lemma report_name_spec b : report_name b = true -> exists c rest, chars b = "m"%char :: "r"%char :: "-"%char :: c :: rest /\
  (97 <= Ascii.nat_of_ascii c)%nat /\ c <> "o"%char /\ c <> "m"%char /\ "/"%char ∉ rest.
Proof.
  unfold report_name. intros H. repeat (case_match; try done). zbool. eexists _, _. split; [reflexivity|].
  repeat match goal with H : bool_decide _ = _ |- _ => apply bool_decide_eq_true in H || apply bool_decide_eq_false in H end.
  split_and!; auto. by apply Nat.leb_le.
Qed.

(** They are not names of files of the job. *)
Lemma report_name_other b : report_name b = true -> ("/"%char ∉ chars b) /\ fnmatch (chars "mr-out-[0-9]") (chars b) = false /\
  (forall r, b <> out_name r) /\ (forall mr, b <> inter_name mr) /\ (forall t, b <> temp_name t).
Proof.
  intros (c & rest & E & Hc & Ho & Hm & Hs)%report_name_spec. rewrite E. split_and!.
  - rewrite !not_elem_of_cons. split_and!; auto. intros <-. vm_compute in Hc. lia.
  - simpl. by rewrite (bool_decide_false (c = "o"%char)).
  - intros r ->. unfold out_name in E. rewrite chars_app in E. simpl in E. congruence.
  - intros mr ->. unfold inter_name in E. rewrite !chars_app in E. simpl in E. injection E as E.
    pose proof (pretty_Z_no_slash (fst mr)) as H. destruct (chars (pretty (fst mr))) as [|x xs].
    + simpl in E. injection E as <- _. vm_compute in Hc. lia.
    + simpl in E. injection E as -> _. apply Forall_cons in H as [(_ & _ & H) _]. lia.
  - intros [tb tn] ->. unfold temp_name in E. rewrite chars_app in E. destruct tb; simpl in E; congruence.
Qed.

(** ** What find finds *)

Section Found.
Context `{SH : Shell}.
Implicit Types fs : FS.

Definition matches (dir s : string) (p : string) : bool := is_under dir p && fnmatch (chars s) (base (chars p)).

Definition found (dir s : string) fs : list string := dir_order (filter (fun p => matches dir s p) (map fst (map_to_list fs))).

Lemma found_elem dir s fs p : p ∈ found dir s fs <-> is_Some (fs !! p) /\ matches dir s p = true.
Proof.
  unfold found. rewrite dir_order_perm, list_elem_of_filter, list_elem_of_fmap. split.
  - intros [Hm ([p' c] & -> & Hin)]. apply elem_of_map_to_list in Hin. split; [by exists c|]. by apply Is_true_true.
  - intros [[c Hc] Hm]. split; [by apply Is_true_true|]. exists (p, c). split; [done|]. by apply elem_of_map_to_list.
Qed.

Lemma found_NoDup dir s fs : NoDup (found dir s fs).
Proof. unfold found. rewrite dir_order_perm. apply NoDup_filter. apply NoDup_fst_map_to_list. Qed.

(** findFiles reads back the paths that find prints. *)
Lemma findFiles_found dir s fs : Forall (fun p => clean (chars p)) (found dir s fs) -> findFiles dir s fs = found dir s fs.
Proof.
  unfold findFiles, find_cmd. fold (matches dir s). change (dir_order _) with (found dir s fs). intros Hcl.
  assert (forall L, concat (map (fun p => chars p ++ [nl]) L) = concat (map (fun p => p ++ [nl]) (map chars L))) as E by (intros L; by rewrite map_map).
  rewrite E. destruct (found dir s fs) as [|p ps _] using rev_ind; [done|]. apply Forall_app in Hcl as [Hps Hp]. apply Forall_cons in Hp as [Hp _].
  assert (Forall clean (map chars ps)) as Hps' by (by apply Forall_fmap).
  rewrite map_app. simpl (map chars [p]). rewrite TrimSpace_lines by done. rewrite bool_decide_false.
  - rewrite split_lines by done. rewrite map_app, map_map. simpl. rewrite of_chars_chars. f_equal.
    rewrite <-(map_id ps) at 2. apply map_ext. apply of_chars_chars.
  - intros [_ En]%app_eq_nil. by destruct Hp.
Qed.

(** The files of a job. *)
Lemma job_files_cases tmp jb temps fs p : is_Some (job_files tmp jb temps fs !! p) ->
  (exists r, p = Join tmp (out_name r)) \/ (exists mr, p = Join tmp (inter_name mr)) \/ (exists t, p = Join tmp (temp_name t)) \/ is_Some (fs !! p).
Proof.
  intros [c H]. unfold job_files in H. repeat (apply lookup_union_Some_raw in H as [H|[_ H]]); [..|by eauto].
  all: apply elem_of_list_to_map_2, list_elem_of_fmap in H as ([x y] & [= -> ->] & _); eauto.
Qed.

Lemma job_files_out tmp jb temps fs r ls : outs jb !! r = Some ls -> job_files tmp jb temps fs !! Join tmp (out_name r) = Some (cat ls).
Proof.
  intros H. unfold job_files. apply lookup_union_Some_raw. left. apply elem_of_list_to_map_1'.
  - intros y ([r' ls'] & E & Hin)%list_elem_of_fmap. injection E as E ->. apply (inj (Join tmp)) in E. unfold out_name in E.
    apply (f_equal chars) in E. rewrite !chars_app in E. apply (inj _) in E. apply (f_equal of_chars) in E. rewrite !of_chars_chars in E. apply (inj pretty) in E as ->.
    apply elem_of_map_to_list in Hin. congruence.
  - apply list_elem_of_fmap. exists (r, ls). split; [done|]. by apply elem_of_map_to_list.
Qed.

Lemma job_files_old tmp jb temps fs b : report_name b = true -> job_files tmp jb temps fs !! Join tmp b = fs !! Join tmp b.
Proof.
  intros (_ & _ & H1 & H2 & H3)%report_name_other. unfold job_files.
  rewrite !lookup_union_r; [done|..]; apply not_elem_of_list_to_map_1; intros Hin; apply list_elem_of_fmap in Hin as ([p c] & E & Hin); simpl in E; subst p;
    apply list_elem_of_fmap in Hin as ([x y] & [= E _] & _).
  - by apply (H3 x), (Join_inj tmp).
  - by apply (H2 x), (Join_inj tmp).
  - by apply (H1 x), (Join_inj tmp).
Qed.

(** Only the output files 0 to 9 match the pattern of mergeOutput. *)
Lemma pattern_out r : fnmatch (chars "mr-out-[0-9]") (chars (out_name r)) = true <-> 0 <= r < 10.
Proof.
  unfold out_name. rewrite chars_app. change (chars "mr-out-") with ["m"%char; "r"%char; "-"%char; "o"%char; "u"%char; "t"%char; "-"%char].
  assert (Hten : forall x, 0 <= x < 10 -> exists c, chars (pretty x) = [c] /\ Ascii.nat_of_ascii c = (48 + Z.to_nat x)%nat).
  { intros x Hx. assert (x = 0 \/ x = 1 \/ x = 2 \/ x = 3 \/ x = 4 \/ x = 5 \/ x = 6 \/ x = 7 \/ x = 8 \/ x = 9) as H by lia.
    repeat destruct H as [->|H]; [by eexists..|]. subst x. by eexists. }
  change (fnmatch (chars "[0-9]") (chars (pretty r)) = true <-> 0 <= r < 10).
  assert (Hrange : forall c l, fnmatch (chars "[0-9]") (c :: l) = (((48 <=? Ascii.nat_of_ascii c) && (Ascii.nat_of_ascii c <=? 57))%nat && match l with [] => true | _ => false end)) by done.
  split.
  - intros H. destruct (chars (pretty r)) as [|c [|? ?]] eqn:E; rewrite ?Hrange in H; [done| |by rewrite andb_false_r in H].
    apply andb_true_iff in H as [[H1%Nat.leb_le H2%Nat.leb_le]%andb_true_iff _].
    set (x := Z.of_nat (Ascii.nat_of_ascii c) - 48). assert (0 <= x < 10) as Hx by (subst x; lia).
    destruct (Hten x Hx) as (c' & E' & Hc'). assert (c' = c) as ->.
    { rewrite <-(Ascii.ascii_nat_embedding c), <-(Ascii.ascii_nat_embedding c'). f_equal. rewrite Hc'. subst x. lia. }
    rewrite <-E in E'. apply (f_equal of_chars) in E'. rewrite !of_chars_chars in E'. apply (inj pretty) in E'. by rewrite <-E'.
  - intros Hr. destruct (Hten r Hr) as (c & -> & Hc). rewrite Hrange, Hc.
    by rewrite (proj2 (Nat.leb_le _ _)), (proj2 (Nat.leb_le _ _)) by lia.
Qed.

Lemma out_no_slash r : "/"%char ∉ chars (out_name r).
Proof.
  unfold out_name. rewrite chars_app. intros [H|H]%elem_of_app; [by repeat (apply elem_of_cons in H as [H|H]; [done|]); apply elem_of_nil in H|].
  pose proof (pretty_Z_no_slash r) as Hall. rewrite Forall_forall in Hall. by destruct (Hall _ H) as (_ & ? & _).
Qed.

Lemma inter_no_slash mr : "/"%char ∉ chars (inter_name mr).
Proof.
  unfold inter_name. rewrite !chars_app. pose proof (pretty_Z_no_slash (fst mr)) as H1. pose proof (pretty_Z_no_slash (snd mr)) as H2. rewrite Forall_forall in H1, H2.
  intros H. rewrite !elem_of_app in H. destruct H as [H|[H|[H|H]]].
  - by repeat (apply elem_of_cons in H as [H|H]; [done|]); apply elem_of_nil in H.
  - by destruct (H1 _ H) as (_ & ? & _).
  - by apply list_elem_of_singleton in H.
  - by destruct (H2 _ H) as (_ & ? & _).
Qed.

Lemma temp_no_slash t : "/"%char ∉ chars (temp_name t).
Proof.
  unfold temp_name. rewrite chars_app. pose proof (pretty_N_digits (snd t)) as H1. rewrite Forall_forall in H1. intros [H|H]%elem_of_app.
  - destruct (fst t); by repeat (apply elem_of_cons in H as [H|H]; [done|]); apply elem_of_nil in H.
  - by destruct (digit_clean _ (H1 _ H)) as (_ & ? & _).
Qed.

Lemma pattern_inter mr : fnmatch (chars "mr-out-[0-9]") (chars (inter_name mr)) = false.
Proof.
  unfold inter_name. rewrite !chars_app. simpl. pose proof (pretty_Z_no_slash (fst mr)) as H. destruct (chars (pretty (fst mr))) as [|c l]; [done|]. simpl.
  apply Forall_cons in H as [(_ & _ & H) _]. rewrite bool_decide_false; [done|]. intros ->. vm_compute in H. lia.
Qed.

Lemma pattern_temp t : fnmatch (chars "mr-out-[0-9]") (chars (temp_name t)) = false.
Proof. unfold temp_name. rewrite chars_app. by destruct t as [[] x]. Qed.

Lemma clean_out tmp r : clean (chars tmp) -> clean (chars (Join tmp (out_name r))).
Proof.
  intros [Hne Ht]. rewrite chars_Join. split; [by destruct (chars tmp)|]. apply Forall_app. split; [done|]. constructor; [done|].
  unfold out_name. rewrite chars_app. apply Forall_app. split; [by repeat constructor|]. eapply Forall_impl; [apply pretty_Z_no_slash|]. by intros c (? & _).
Qed.

End Found.

(** ** The tests pass *)

Section Passes.
Context `{SH : Shell} `{GKV : KeyValueJson} `{KS : KeySort}.
Context (mapf : string -> string -> list KeyValue) (reducef : string -> list string -> string) (input : string -> option string).
Implicit Types fs : FS.

Definition out_paths (tmp : string) : list string := map (fun r => Join tmp (out_name (Z.of_nat r))) (seq 0 10).

Lemma out_paths_NoDup tmp : NoDup (out_paths tmp).
Proof.
  apply NoDup_fmap_2_strong; [|apply NoDup_seq]. intros x y _ _ E%(Join_inj tmp). unfold out_name in E. apply (f_equal chars) in E. rewrite !chars_app in E.
  apply (inj _) in E. apply (f_equal of_chars) in E. rewrite !of_chars_chars in E. apply (inj pretty) in E. lia.
Qed.

(** mergeOutput finds exactly the ten output files. *)
Lemma found_outs tmp jb temps fs : (forall r, 0 <= r < 10 -> is_Some (outs jb !! r)) ->
  (forall p, matches tmp "mr-out-[0-9]" p = true -> fs !! p = None) -> found tmp "mr-out-[0-9]" (job_files tmp jb temps fs) ≡ₚ out_paths tmp.
Proof.
  intros Hout Hfs. apply NoDup_Permutation; [apply found_NoDup|apply out_paths_NoDup|]. intros p. rewrite found_elem. unfold out_paths. rewrite list_elem_of_fmap. split.
  - intros [Hp Hm]. pose proof Hm as [_ Hf]%andb_true_iff. destruct (job_files_cases tmp jb temps fs p Hp) as [[r ->]|[[mr ->]|[[t ->]|Hold]]].
    + rewrite base_Join in Hf by apply out_no_slash. apply pattern_out in Hf. exists (Z.to_nat r). rewrite Z2Nat.id by lia. split; [done|]. apply elem_of_seq. lia.
    + rewrite base_Join, pattern_inter in Hf by apply inter_no_slash. done.
    + rewrite base_Join, pattern_temp in Hf by apply temp_no_slash. done.
    + rewrite Hfs in Hold by done. by destruct Hold.
  - intros (r & -> & Hr%elem_of_seq). destruct (Hout (Z.of_nat r)) as [ls Hls]; [lia|]. split; [rewrite (job_files_out _ _ _ _ _ _ Hls); by eexists|].
    unfold matches. rewrite Join_under, base_Join by apply out_no_slash. apply pattern_out. lia.
Qed.

(** What sort prints for files with the given contents, in any order. *)
Lemma sort_cmd_perm files files' fs (g : string -> string) : files ≡ₚ files' -> (forall f, f ∈ files' -> fs !! f = Some (g f)) ->
  sort_cmd files fs = Some (unlines (sort_lines (concat (map (fun f => lines_of (g f)) files')))).
Proof.
  intros Hp Hg. unfold sort_cmd.
  assert (mapM (fun f => fs !! f) files = Some (map g files)) as ->.
  { apply mapM_Some, Forall2_fmap_r, Forall_Forall2_diag, Forall_forall. intros f Hf. rewrite Hp in Hf. by apply Hg. }
  obind. do 2 f_equal. apply sort_lines_canonical. rewrite map_map. by rewrite Hp.
Qed.

Lemma mkCorrectOutput_spec tmp files app correct fs ls : files <> [] -> report_name correct = true -> mrsequential mapf reducef input files = Some ls ->
  mkCorrectOutput mapf reducef input tmp files app correct fs =
    Some (delete (Join tmp "mr-out-0") (<[Join tmp correct := unlines (sort_lines (lines_of (cat ls)))]> (<[Join tmp "mr-out-0" := cat ls]> fs))).
Proof.
  intros Hne0 (_ & _ & Ho & _)%report_name_other Hseq. unfold mkCorrectOutput, mrsequential_main. destruct files as [|f0 files]; [done|].
  cbn [length Nat.ltb Nat.leb drop]. rewrite Hseq. obind.
  assert (Join tmp correct <> Join tmp "mr-out-0") as Hne by (intros E%(Join_inj tmp); by apply (Ho 0)).
  rewrite (sort_cmd_perm _ [Join tmp "mr-out-0"] _ (fun _ => cat ls)); [|done|].
  - obind. unfold os_Remove. rewrite lookup_insert_ne, lookup_insert_ne, lookup_insert_eq by done. simpl. rewrite app_nil_r. by rewrite insert_insert_eq.
  - intros f ->%list_elem_of_singleton. by rewrite lookup_insert_ne, lookup_insert_eq.
Qed.

Lemma mergeOutput_spec tmp jb temps fs all (g : nat -> list string) : clean (chars tmp) -> report_name all = true ->
  (forall r, (r < 10)%nat -> outs jb !! Z.of_nat r = Some (g r)) -> (forall p, matches tmp "mr-out-[0-9]" p = true -> fs !! p = None) ->
  mergeOutput tmp all (job_files tmp jb temps fs) =
    Some (<[Join tmp all := unlines (sort_lines (concat (map (fun r => lines_of (cat (g r))) (seq 0 10))))]> (job_files tmp jb temps fs)).
Proof.
  intros Htmp Hall Hout Hfs. assert (forall r, 0 <= r < 10 -> is_Some (outs jb !! r)) as Hout'.
  { intros r Hr. specialize (Hout (Z.to_nat r) ltac:(lia)). rewrite Z2Nat.id in Hout by lia. by eexists. }
  pose proof (found_outs tmp jb temps fs Hout' Hfs) as HF. apply report_name_other in Hall as (_ & _ & Ho & _).
  unfold mergeOutput. rewrite findFiles_found.
  2:{ rewrite HF. unfold out_paths. apply Forall_fmap, Forall_forall. intros r _. by apply clean_out. }
  rewrite (Permutation_length HF). unfold out_paths at 1. rewrite length_map, length_seq. change (10 <? 1)%nat with false. cbv iota.
  set (content := fun f => default "" (job_files tmp jb temps fs !! f)).
  rewrite (sort_cmd_perm _ (out_paths tmp) _ content HF).
  - obind. rewrite insert_insert_eq. do 5 f_equal. unfold out_paths. rewrite map_map. apply map_ext_in. intros r Hr. apply in_seq in Hr. unfold content.
    by rewrite (job_files_out tmp jb temps fs (Z.of_nat r) (g r)) by (apply Hout; lia).
  - intros f (r & -> & Hr%elem_of_seq)%list_elem_of_fmap. rewrite lookup_insert_ne by (intros E%(Join_inj tmp); by apply (Ho (Z.of_nat r))).
    unfold content. by rewrite (job_files_out tmp jb temps fs (Z.of_nat r) (g r)) by (apply Hout; lia).
Qed.

Lemma concat_map_perm {A B} (f : A -> list B) l1 l2 : l1 ≡ₚ l2 -> concat (map f l1) ≡ₚ concat (map f l2).
Proof. induction 1; simpl; [done|by f_equiv|by rewrite !(assoc_L (++)), (Permutation_app_comm (f _))|by etrans]. Qed.

Lemma concat_map_flat {A B C} (f : B -> list C) (h : A -> list B) l : concat (map (fun x => concat (map f (h x))) l) = concat (map f (concat (map h l))).
Proof. induction l as [|x l IH]; [done|]. simpl. by rewrite IH, map_app, concat_app. Qed.

(** C29 (equivalence): the tests that compare outputs pass.  This is the body
    of TestWc, TestIndexer and TestCrashWorker; the other tests are not
    covered.  Let the job of the test end, with the workers doing and
    suffering whatever they can, and leaving any temporary files behind.
    Then the sorted lines of the output files that mergeOutput finds are
    those that mkCorrectOutput has kept from the sequential program, and the
    comparison of the two files succeeds.  Conditions: there is an input file
    and all are readable; Reduce does not depend on the order of its values
    and Map emits valid UTF-8 on them; random bytes for the socket name can
    be read; the test's directory is fresh (no file is under it) and its path
    is a clean one; the two report files have different names "mr-..." that
    are neither outputs nor intermediate files, as in the three tests. *)
Theorem compare_test_passes tmp files app correct all n b sock evs temps fs jb : files <> [] -> coordinatorSock b = Some sock ->
  (forall k vs1 vs2, vs1 ≡ₚ vs2 -> reducef k vs1 = reducef k vs2) -> Forall (fun f => is_Some (input f)) files -> utf8_output mapf input files ->
  clean (chars tmp) -> (forall p, is_under tmp p = true -> fs !! p = None) ->
  report_name correct = true -> report_name all = true -> correct <> all ->
  job_run mapf reducef input (start_job files 10) (replicate n WJoin ++ evs) = Some jb -> Done (coord jb) = true ->
  exists fs', compare_test mapf reducef input tmp files app correct all n b evs temps fs = Some (fs', true).
Proof.
  intros Hne0 Hsock Hperm Hin Hv Htmp Hfs Hc Ha Hne Hrun Hd. pose proof Hd as Hd2%Z.eqb_eq.
  destruct (job_run_ok mapf reducef input files 10 ltac:(lia) Hin _ (replicate n WJoin ++ evs) (start_job_ok mapf reducef input files 10)) as (jb0 & Hrun0 & Hok).
  rewrite Hrun in Hrun0. injection Hrun0 as <-. pose proof (job_output_lines mapf reducef input files 10 ltac:(lia) jb Hv Hok Hd2) as Hlines.
  destruct (all_lines_sequential mapf reducef Hperm input files 10 ltac:(lia) Hin) as (L & Hseq & HL).
  set (g := fun r : nat => map line (reduce_lines mapf reducef input files 10 (Z.of_nat r))).
  assert (forall r, (r < 10)%nat -> outs jb !! Z.of_nat r = Some (g r)) as Hout.
  { intros r Hr. apply (job_ok_output mapf reducef input files 10 ltac:(lia) jb Hv Hok Hd2). lia. }
  unfold compare_test. rewrite (mkCorrectOutput_spec tmp files app correct fs L Hne0 Hc Hseq). obind. set (fs1 := delete _ _).
  unfold runMR. rewrite Hsock. obind. unfold runMRchan, mrcoordinator_main. destruct files as [|f0 files]; [done|]. cbn [length Nat.ltb Nat.leb drop].
  obind. rewrite Hrun. obind. rewrite Hd. obind.
  rewrite (mergeOutput_spec tmp jb temps fs1 all g Htmp Ha Hout).
  - obind. eexists. do 2 f_equal. unfold runCmp. rewrite lookup_insert_eq. apply not_eq_sym in Hne.
    rewrite lookup_insert_ne by (intros E%(Join_inj tmp); done). rewrite job_files_old by done. unfold fs1. pose proof (report_name_other _ Hc) as (_ & _ & Ho & _).
    rewrite lookup_delete_ne, lookup_insert_eq by (intros E%(Join_inj tmp); by apply (Ho 0)). apply bool_decide_eq_true_2. f_equal. apply sort_lines_canonical.
    assert (forall r, Forall ends_nl (g r)) as Hg by (intros r; apply Forall_fmap, Forall_forall; intros; apply line_ends_nl).
    rewrite (map_ext _ (fun r => concat (map lines_of (g r)))) by (intros r; by apply lines_of_cat). rewrite concat_map_flat.
    rewrite <-Hlines in HL. assert (job_output 10 jb = concat (map g (seq 0 10))) as Hj.
    { unfold job_output. f_equal. apply map_ext_in. intros r Hr. apply in_seq in Hr. by rewrite Hout by lia. }
    rewrite <-Hj. rewrite lines_of_cat; [by apply concat_map_perm|]. rewrite <-HL, Hlines. apply Forall_fmap, Forall_forall. intros. apply line_ends_nl.
  - intros p Hp. unfold fs1. destruct (decide (Join tmp "mr-out-0" = p)) as [<-|Hp0]; [apply lookup_delete_eq|]. rewrite lookup_delete_ne by done.
    pose proof (report_name_other _ Hc) as (Hs & Hm & _). rewrite !lookup_insert_ne; [|done|].
    + apply Hfs. by apply andb_true_iff in Hp as [? _].
    + intros <-. apply andb_true_iff in Hp as [_ Hp]. rewrite base_Join in Hp by done. congruence.
Qed.
(** cleanup removes what the tests leave in their directory, and then the
    directory: all of its files match the pattern. *)
Lemma remove_all_lookup (l : list string) fs p : foldl (fun fs f => default fs (os_Remove f fs)) fs l !! p = if decide (p ∈ l) then None else fs !! p.
Proof.
  revert fs. induction l as [|f l IH]; intros fs; cbn [foldl]; [by rewrite decide_False by apply not_elem_of_nil|]. rewrite IH.
  assert (default fs (os_Remove f fs) !! p = if decide (p = f) then None else fs !! p) as ->.
  { clear IH. unfold os_Remove. destruct (decide (p = f)) as [->|E]; destruct (fs !! f) as [c|] eqn:Hf; simpl; [apply lookup_delete_eq|done|by apply lookup_delete_ne|done]. }
  destruct (decide (p ∈ l)) as [H|H]; [by rewrite decide_True by by right|]. destruct (decide (p = f)) as [->|Hne]; [by rewrite decide_True by left|].
  by rewrite decide_False by (rewrite elem_of_cons; tauto).
Qed.

Lemma cleanup_empties tmp fs : (forall p, is_Some (fs !! p) -> is_under tmp p = true -> matches tmp "mr-*" p = true /\ clean (chars p)) ->
  snd (cleanup tmp fs) = true /\ forall p, is_under tmp p = false -> fst (cleanup tmp fs) !! p = fs !! p.
Proof.
  intros Hall. unfold cleanup. cbv zeta. cbn [fst snd]. rewrite findFiles_found.
  2:{ apply Forall_forall. intros p [Hp Hm]%found_elem. apply Hall; [done|]. by apply andb_true_iff in Hm as [? _]. }
  split.
  - apply bool_decide_eq_true_2. apply elem_of_nil_inv. intros p [Hu Hp]%list_elem_of_filter. apply list_elem_of_fmap in Hp as ([p' c] & -> & Hp).
    apply elem_of_map_to_list in Hp. cbn [fst] in Hu. rewrite remove_all_lookup in Hp. case_decide as Hin; [done|]. apply Hin, found_elem.
    split; [by eexists|]. apply Hall; [by eexists|done].
  - intros p Hp. rewrite remove_all_lookup, decide_False; [done|]. intros [_ Hm]%found_elem. apply andb_true_iff in Hm as [? _]. congruence.
Qed.

End Passes.

(** ** A concrete test *)

#[export] Program Instance simple_shell : Shell := {| dir_order l := reverse l; sort_lines l := merge_sort String.le l |}.
Next Obligation. intros. apply reverse_Permutation. Qed.
Next Obligation. intros. apply merge_sort_Permutation. Qed.
Next Obligation. intros. by apply merge_sort_perm_eq. Qed.

#[local] Existing Instance merge_key_sort.

(** Three workers, of which two do nothing, and a temporary file of a crash. *)
Definition test_events : list MrEvent := concat (map (round 0) (replicate 14 0)).

Lemma compare_test_passes_witness : exists fs',
  compare_test (wc_Map ascii_runes ascii_isLetter) wc_Reduce wc_input "mr-tmp-x" ["f0"; "f1"] "wc.so" "mr-wc-correct.txt" "mr-wc-all.txt" 3 (replicate 40 0) test_events
    [((true, 5%N), "junk")] ∅ = Some (fs', true).
Proof.
  destruct (job_run (wc_Map ascii_runes ascii_isLetter) wc_Reduce wc_input (start_job ["f0"; "f1"] 10) (replicate 3 WJoin ++ test_events)) as [jb|] eqn:Hrun;
    [|vm_compute in Hrun; discriminate].
  apply (compare_test_passes (wc_Map ascii_runes ascii_isLetter) wc_Reduce wc_input "mr-tmp-x" ["f0"; "f1"] "wc.so" "mr-wc-correct.txt" "mr-wc-all.txt" 3 (replicate 40 0)
    "/tmp/5840-mr-AAAAAAAAAAAAAAAAAAAA" test_events [((true, 5%N), "junk")] ∅ jb).
  - discriminate.
  - reflexivity.
  - apply wc_Reduce_perm.
  - repeat constructor; eexists; reflexivity.
  - vm_compute. repeat constructor.
  - split; [discriminate|repeat constructor].
  - intros p _. apply lookup_empty.
  - reflexivity.
  - reflexivity.
  - discriminate.
  - exact Hrun.
  - assert ((fun jb => Done (coord jb)) <$> job_run (wc_Map ascii_runes ascii_isLetter) wc_Reduce wc_input (start_job ["f0"; "f1"] 10) (replicate 3 WJoin ++ test_events)
      = Some true) as E by (vm_compute; reflexivity). rewrite Hrun in E. by injection E.
Defined.

(** The patterns of the other tests: "times-", "parallel.*", "[a-z] 2" and "a 8". *)
Definition lit (s : string) : rx := map (fun c => (fun x => bool_decide (x = c), false)) (chars s).
Definition rx_parallel : rx := lit "parallel" ++ [(fun c => negb (bool_decide (c = nl)), true)].
Definition rx_letter_2 : rx := [(fun c => ((97 <=? Ascii.nat_of_ascii c) && (Ascii.nat_of_ascii c <=? 122))%nat, false)] ++ lit " 2".

Example count_patterns :
  rx_count (lit "times-") (chars (unlines ["times-12 1.0 2.0"; "times-13 1.5"; "parallel-12 1 2"])) 0 = 2%nat /\ rx_count rx_parallel (chars (unlines ["parallel-12 1 2 parallel"; "parallel-13 2"])) 0 = 2%nat /\ rx_count rx_letter_2 (chars (unlines ["a 2"; "b 1"; "c 22"])) 0 = 2%nat /\ rx_count (lit "a 8") (chars (unlines ["a 8"])) 0 = 1%nat.
Proof. vm_compute. split_and!; reflexivity. Qed.
