(* ===== verification/MrTiming.v ===== *)
(** * Test applications that watch the workers (src/mrapps/mtiming.go, rtiming.go, jobcount.go)

    mtiming.go and rtiming.go find out how many workers run at the same time:
    nparallel leaves a marker file with the worker's pid, counts the markers
    of processes that are alive, and removes its own.  jobcount.go leaves one
    marker per call of Map and counts them in Reduce.  The theorems: in every
    interleaving, with workers dying at any point, nparallel counts exactly
    the live workers that are inside it, and never panics; without failures
    the coordinator has every map task run exactly once, so that a job with
    jobcount.go counts its input files. *)

From Stdlib Require Import Ascii.
From stdpp Require Import pretty.
From S2P Require Import Prelude Config MrWorker MrCoord MrApps MrTestApps MrTest.

(** ** Marker files *)

Definition marker (phase : string) (pid : Z) : string := "mr-worker-" +:+ phase +:+ "-" +:+ pretty pid.

(** [fmt.Sscanf] of "%d": spaces, a sign, digits; what follows is ignored, a
    number that does not fit in an int is an error. *)
Definition digit_value (c : ascii) : option Z :=
  let x := Z.of_nat (Ascii.nat_of_ascii c) - 48 in if (0 <=? x) && (x <=? 9) then Some x else None.

Fixpoint scan_digits (acc : Z) (l : list ascii) : Z :=
  match l with [] => acc | c :: l => match digit_value c with Some x => scan_digits (10 * acc + x) l | None => acc end end.

Definition scan_nat (l : list ascii) : option Z :=
  match l with [] => None | c :: l => x ← digit_value c; Some (scan_digits x l) end.

Definition scan_int (l : list ascii) : option Z :=
  z ← match trim_left l with
      | "-"%char :: l => z ← scan_nat l; Some (- z)
      | "+"%char :: l => scan_nat l
      | l => scan_nat l
      end;
  if (- 2 ^ 63 <=? z) && (z <? 2 ^ 63) then Some z else None.

Fixpoint drop_prefix (p l : list ascii) : option (list ascii) :=
  match p, l with
  | [], l => Some l
  | x :: p, c :: l => if bool_decide (x = c) then drop_prefix p l else None
  | _, [] => None
  end.

(** [fmt.Sscanf(name, "mr-worker-<phase>-%d", &xpid)] *)
Definition scan_marker (phase name : string) : option Z :=
  l ← drop_prefix (chars ("mr-worker-" +:+ phase +:+ "-")) (chars name); scan_int l.

(** The loop of nparallel; [alive] is [syscall.Kill(xpid, 0) == nil]. *)
Fixpoint count_alive (phase : string) (alive : Z -> bool) (names : list string) : nat :=
  match names with
  | [] => 0
  | name :: names =>
      match scan_marker phase name with
      | Some xpid => if alive xpid then S (count_alive phase alive names) else count_alive phase alive names
      | None => count_alive phase alive names
      end
  end.

(** ** nparallel, interleaved

    A worker writes its marker, reads the directory, and after its sleep
    removes the marker; any worker can die at any time. *)
Inductive Np : Type := NpWritten | NpScanned (ret : nat).

Record NpState : Type := MkNpState {
  np_names : gset string;        (* the directory *)
  np_dead : gset Z;              (* processes that are gone *)
  np_pc : gmap Z Np;             (* workers inside nparallel *)
  np_rets : list (Z * nat);      (* what calls have returned *)
}.

Inductive NpEvent : Type := EvWrite (pid : Z) | EvScan (pid : Z) | EvRemove (pid : Z) | EvDie (pid : Z).

Section Nparallel.
Context (phase : string).

Definition np_alive (s : NpState) (pid : Z) : bool := bool_decide (pid ∉ np_dead s).

(** [None] is the panic of a failed os.Remove; an event that cannot happen
    changes nothing. *)
Definition np_step (s : NpState) (e : NpEvent) : option NpState :=
  match e with
  | EvWrite pid =>
      if np_alive s pid then
        match np_pc s !! pid with
        | None => Some (MkNpState ({[marker phase pid]} ∪ np_names s) (np_dead s) (<[pid := NpWritten]> (np_pc s)) (np_rets s))
        | Some _ => Some s
        end
      else Some s
  | EvScan pid =>
      match np_pc s !! pid with
      | Some NpWritten =>
          Some (MkNpState (np_names s) (np_dead s) (<[pid := NpScanned (count_alive phase (np_alive s) (elements (np_names s)))]> (np_pc s)) (np_rets s))
      | _ => Some s
      end
  | EvRemove pid =>
      match np_pc s !! pid with
      | Some (NpScanned ret) =>
          if bool_decide (marker phase pid ∈ np_names s)
          then Some (MkNpState (np_names s ∖ {[marker phase pid]}) (np_dead s) (delete pid (np_pc s)) (np_rets s ++ [(pid, ret)]))
          else None
      | _ => Some s
      end
  | EvDie pid => Some (MkNpState (np_names s) ({[pid]} ∪ np_dead s) (delete pid (np_pc s)) (np_rets s))
  end.

Fixpoint np_run (s : NpState) (es : list NpEvent) : option NpState :=
  match es with [] => Some s | e :: es => s ← np_step s e; np_run s es end.

End Nparallel.

(** rtiming.go has its own copy of nparallel, for the reduce tasks. *)
Definition rtiming_nparallel : NpState -> list NpEvent -> option NpState := np_run "reduce".

(** ** The applications *)

(** mtiming.go: [ts] is the formatted start time, [n] what nparallel("map")
    returns. *)
Definition mtiming_Map (pid : Z) (ts : string) (n : nat) (filename contents : string) : list KeyValue :=
  [MkKeyValue ("times-" +:+ pretty pid) ts; MkKeyValue ("parallel-" +:+ pretty pid) (Itoa n)].
Definition mtiming_Reduce (key : string) (values : list string) : string := join_space (merge_sort String.le values).

(** rtiming.go *)
Definition rtiming_Map (filename contents : string) : list KeyValue :=
  map (fun k => MkKeyValue k "1") ["a"; "b"; "c"; "d"; "e"; "f"; "g"; "h"; "i"; "j"].
Definition rtiming_Reduce (n : nat) (key : string) (values : list string) : string := Itoa n.

(** jobcount.go: [count] is the counter of the worker's process. *)
Definition jobcount_marker (pid count : Z) : string := "mr-worker-jobcount-" +:+ pretty pid +:+ "-" +:+ pretty count.
Definition jobcount_Map (pid count : Z) (names : gset string) (filename contents : string) : gset string * Z * list KeyValue :=
  ({[jobcount_marker pid count]} ∪ names, count + 1, [MkKeyValue "a" "x"]).
Definition jobcount_Reduce (names : gset string) (key : string) (values : list string) : string :=
  Itoa (length (filter (fun name => String.prefix "mr-worker-jobcount" name = true) (elements names))).

(** ** Scanning a marker *)

Lemma pretty_N_char_value x : (x < 10)%N -> digit_value (pretty_N_char x) = Some (Z.of_N x).
Proof.
  intros Hx. assert (x = 0 \/ x = 1 \/ x = 2 \/ x = 3 \/ x = 4 \/ x = 5 \/ x = 6 \/ x = 7 \/ x = 8 \/ x = 9)%N as H by lia.
  repeat destruct H as [->|H]; try reflexivity. by subst x.
Qed.

Lemma scan_digits_go x s : scan_digits 0 (chars (pretty_N_go x s)) = scan_digits (Z.of_N x) (chars s).
Proof.
  revert s. induction (N.lt_wf_0 x) as [x _ IH]; intros s. destruct (decide (x = 0%N)) as [->|Hx]; [done|].
  rewrite pretty_N_go_step by lia. rewrite IH by (apply N.div_lt; lia). pose proof (N.mod_lt x 10 ltac:(lia)) as Hm. pose proof (N.div_mod x 10 ltac:(lia)) as Hd.
  change (chars (String ?c s)) with (c :: chars s). cbn [scan_digits chars String.list_ascii_of_string].
  rewrite pretty_N_char_value by done. f_equal. lia.
Qed.

(** A pid that the system can hand out. *)
Definition valid_pid (pid : Z) : Prop := 0 < pid < 2 ^ 63.

Lemma scan_int_pretty pid : valid_pid pid -> scan_int (chars (pretty pid)) = Some pid.
Proof.
  intros [H1 H2]. destruct pid as [|p|p]; [lia| |lia]. change (pretty (Z.pos p)) with (pretty (N.pos p)).
  pose proof (pretty_N_digits (N.pos p)) as Hd. assert (scan_digits 0 (chars (pretty (N.pos p))) = Z.pos p) as Hs.
  { unfold pretty, pretty_N. rewrite decide_False by done. by rewrite scan_digits_go. }
  destruct (chars (pretty (N.pos p))) as [|c l]; [simpl in Hs; lia|]. apply Forall_cons in Hd as [[x Hx] _].
  assert (exists v, digit_value c = Some v) as [v Hv] by (subst c; unfold pretty_N_char; repeat case_match; by eexists).
  assert (scan_nat (c :: l) = Some (Z.pos p)) as Hn by (simpl; rewrite Hv; obind; f_equal; rewrite <-Hs; simpl; by rewrite Hv).
  unfold scan_int. replace (trim_left (c :: l)) with (c :: l) by (subst c; unfold pretty_N_char; by repeat case_match).
  assert (match c :: l with "-"%char :: l => z ← scan_nat l; Some (- z) | "+"%char :: l => scan_nat l | l => scan_nat l end = Some (Z.pos p)) as ->
    by (rewrite <-Hn; subst c; unfold pretty_N_char; by repeat case_match).
  obind. by rewrite (proj2 (Z.leb_le _ _)), (proj2 (Z.ltb_lt _ _)) by lia.
Qed.

Lemma drop_prefix_app p l : drop_prefix p (p ++ l) = Some l.
Proof. induction p as [|c p IH]; [by destruct l|]. simpl. by rewrite bool_decide_true. Qed.

Lemma scan_marker_marker phase pid : valid_pid pid -> scan_marker phase (marker phase pid) = Some pid.
Proof.
  intros H. unfold scan_marker, marker. replace ("mr-worker-" +:+ phase +:+ "-" +:+ pretty pid) with (("mr-worker-" +:+ phase +:+ "-") +:+ pretty pid)
    by by rewrite !append_assoc.
  set (pre := "mr-worker-" +:+ phase +:+ "-"). rewrite chars_app, drop_prefix_app. obind. by apply scan_int_pretty.
Qed.

(** ** What nparallel counts *)

Section Count.
Context (phase : string) (dir : gset string).

(** Nothing in the directory looks like a marker before the workers start. *)
Hypothesis Hdir : forall name, name ∈ dir -> scan_marker phase name = None.

(** The markers in the directory are those of the workers inside nparallel
    and of dead ones. *)
Definition np_ok (s : NpState) : Prop := exists P : gset Z, np_names s = dir ∪ set_map (marker phase) P /\
  (forall pid, pid ∈ P -> valid_pid pid) /\ (forall pid, pid ∈ P -> (pid ∉ np_dead s) <-> pid ∈ dom (np_pc s)) /\ dom (np_pc s) ⊆ P.

Definition valid_event (e : NpEvent) : Prop :=
  match e with EvWrite pid | EvScan pid | EvRemove pid | EvDie pid => valid_pid pid end.

Lemma marker_inj pid pid' : valid_pid pid -> valid_pid pid' -> marker phase pid = marker phase pid' -> pid = pid'.
Proof. intros H H' E. pose proof (scan_marker_marker phase pid H) as E1. rewrite E, scan_marker_marker in E1 by done. by injection E1. Qed.

Lemma marker_not_dir pid : valid_pid pid -> marker phase pid ∉ dir.
Proof. intros H Hin. specialize (Hdir _ Hin). by rewrite scan_marker_marker in Hdir. Qed.

Lemma np_step_ok s e : np_ok s -> valid_event e -> exists s', np_step phase s e = Some s' /\ np_ok s'.
Proof.
  intros (P & Hn & Hv & Ha & Hsub) He. assert (exists s', Some s = Some s' /\ np_ok s') as Hstay by (exists s; split; [done|by exists P]).
  destruct e as [pid|pid|pid|pid]; simpl in He |- *; unfold np_alive.
  - case_bool_decide as Hal; [|done]. destruct (np_pc s !! pid) as [st|] eqn:Hpc; [done|]. eexists. split; [done|]. exists ({[pid]} ∪ P). simpl.
    rewrite dom_insert_L. split_and!; [rewrite Hn, set_map_union_L, set_map_singleton_L; set_solver|set_solver| |set_solver].
    intros q [->%elem_of_singleton|Hq]%elem_of_union; [set_solver|]. rewrite (Ha q Hq). split; [set_solver|]. intros [->%elem_of_singleton|?]%elem_of_union; [|done]. by apply Ha.
  - destruct (np_pc s !! pid) as [[|ret]|] eqn:Hpc; [|done..]. eexists. split; [done|]. exists P. simpl. rewrite dom_insert_L.
    assert (pid ∈ dom (np_pc s)) by (by apply elem_of_dom_2 in Hpc). replace ({[pid]} ∪ dom (np_pc s)) with (dom (np_pc s)) by set_solver. auto.
  - destruct (np_pc s !! pid) as [[|ret]|] eqn:Hpc; [done| |done]. apply elem_of_dom_2 in Hpc. pose proof (Hsub _ Hpc) as HP.
    rewrite bool_decide_true by (rewrite Hn; apply elem_of_union; right; by apply elem_of_map_2). eexists. split; [done|].
    exists (P ∖ {[pid]}). simpl. rewrite dom_delete_L. split_and!; [|set_solver| |set_solver].
    + rewrite Hn. apply set_eq. intros x. rewrite elem_of_difference, !elem_of_union, !elem_of_map, elem_of_singleton. split.
      * intros [[Hx|(q & -> & Hq)] Hne]; [by left|right]. exists q. set_solver.
      * intros [Hx|(q & -> & Hq)]; [split; [by left|intros ->; by apply (marker_not_dir pid)]|]. apply elem_of_difference in Hq as [Hq Hne].
        split; [right; by exists q|]. intros E. apply Hne, elem_of_singleton. apply marker_inj; auto.
    + intros q [Hq Hne]%elem_of_difference. rewrite (Ha q Hq). set_solver.
  - eexists. split; [done|]. exists P. simpl. rewrite dom_delete_L. split_and!; [done|done| |set_solver]. intros q Hq. pose proof (Ha q Hq). set_solver.
Qed.

Lemma np_run_ok s es : np_ok s -> Forall valid_event es -> exists s', np_run phase s es = Some s' /\ np_ok s'.
Proof.
  intros Hs Hes. revert s Hs. induction Hes as [|e es He _ IH]; intros s Hs; simpl; [by exists s|].
  destruct (np_step_ok s e Hs He) as (s1 & -> & Hs1). obind. by apply IH.
Qed.

Definition live_marker (alive : Z -> bool) (name : string) : bool := match scan_marker phase name with Some pid => alive pid | None => false end.

Lemma count_alive_filter alive names : count_alive phase alive names = length (filter (fun name => live_marker alive name = true) names).
Proof.
  induction names as [|name names IH]; [done|]. cbn [count_alive]. rewrite filter_cons, IH.
  assert (live_marker alive name = match scan_marker phase name with Some pid => alive pid | None => false end) as E by done.
  destruct (scan_marker phase name) as [pid|]; [destruct (alive pid)|]; [by rewrite decide_True|by rewrite decide_False by congruence..].
Qed.

Lemma np_count s : np_ok s -> count_alive phase (np_alive s) (elements (np_names s)) = size (np_pc s).
Proof.
  intros (P & Hn & Hv & Ha & Hsub). rewrite count_alive_filter. rewrite <-size_dom. unfold size at 1, set_size. simpl.
  rewrite <-(length_fmap (marker phase) (elements (dom (np_pc s)))). apply Permutation_length, NoDup_Permutation.
  - apply NoDup_filter, NoDup_elements.
  - apply NoDup_fmap_2_strong; [|apply NoDup_elements]. intros x y Hx%elem_of_elements Hy%elem_of_elements. apply marker_inj; auto.
  - intros name. rewrite list_elem_of_filter, elem_of_elements, list_elem_of_fmap. setoid_rewrite elem_of_elements. rewrite Hn, elem_of_union, elem_of_map. unfold live_marker. split.
    + intros [Hsc [Hd|(pid & -> & Hp)]]; [by rewrite Hdir in Hsc|]. rewrite scan_marker_marker in Hsc by auto. apply bool_decide_eq_true in Hsc.
      exists pid. split; [done|]. by apply Ha.
    + intros (pid & -> & Hp). rewrite scan_marker_marker by auto. split; [apply bool_decide_eq_true; by apply Ha, Hp; apply Hsub|right; exists pid; auto].
Qed.

(** Nparallel counts the live workers.  However the calls of
    the workers interleave and whichever of them die, removing a marker never
    fails, and a worker that reads the directory counts exactly the workers
    that are inside nparallel and alive at that moment, itself included. *)
Theorem nparallel_counts_live es : Forall valid_event es -> exists s, np_run phase (MkNpState dir ∅ ∅ []) es = Some s /\
  forall pid, np_pc s !! pid = Some NpWritten -> exists s', np_step phase s (EvScan pid) = Some s' /\
    np_pc s' !! pid = Some (NpScanned (size (np_pc s))) /\ forall q, q ∈ dom (np_pc s) -> q ∉ np_dead s.
Proof.
  intros Hes. destruct (np_run_ok (MkNpState dir ∅ ∅ []) es) as (s & Hs & Hok); [|done|].
  { exists ∅. simpl. split_and!; [by rewrite set_map_empty, (right_id_L ∅ (∪))|set_solver|set_solver|set_solver]. }
  exists s. split; [done|]. intros pid Hp. simpl. rewrite Hp, np_count by done. eexists. split; [done|]. simpl. rewrite lookup_insert_eq. split; [done|].
  destruct Hok as (P & _ & _ & Ha & Hsub). intros q Hq. by apply Ha, Hq; apply Hsub.
Qed.

End Count.

(** ** Every map task runs once *)

(** Without crashes, lost replies and time-outs. *)
Definition faultless (ev : MrEvent) : bool :=
  match ev with WJoin | WRequest _ _ | WRun _ => true | WReport _ lost => negb lost | _ => false end.

Section Once.
Context `{GKV : KeyValueJson} `{KS : KeySort}.
Context (mapf : string -> string -> list KeyValue) (reducef : string -> list string -> string) (input : string -> option string).
Context (fs : list string) (n : Z).
Hypotheses (n_pos : 0 < n) (Hin : Forall (fun f => is_Some (input f)) fs).
Implicit Types (jb : Job) (ran : list (nat * Z)).

(** The map tasks that run, and the workers that run them, in this order. *)
Definition map_run_of jb (ev : MrEvent) : list (nat * Z) :=
  match ev with
  | WRun w => match workers jb !! w with
              | Some (Working t _) => if bool_decide (Task_Type t = MapTask) then [(w, TaskId t)] else []
              | _ => []
              end
  | _ => []
  end.

Fixpoint map_runs jb (evs : list MrEvent) : list (nat * Z) :=
  match evs with
  | [] => []
  | ev :: evs => map_run_of jb ev ++ match job_step mapf reducef input jb ev with Some jb => map_runs jb evs | None => [] end
  end.

Definition holds (s : WorkerState) (i : nat) (ver : Z) : Prop :=
  exists t, (s = Working t ver \/ s = Finished t ver) /\ Task_Type t = MapTask /\ TaskId t = Z.of_nat i.

Definition finished (s : WorkerState) (i : nat) : Prop := exists t ver, s = Finished t ver /\ Task_Type t = MapTask /\ TaskId t = Z.of_nat i.

Record once jb ran : Prop := {
  on_job : job_ok mapf reducef input fs n jb;
  on_hold : forall w s i ver, workers jb !! w = Some s -> holds s i ver ->
    exists ts, mapTasks (coord jb) !! i = Some ts /\ Status ts = 1 /\ Version ts = ver;
  on_uniq : forall w w' s s' i ver ver', workers jb !! w = Some s -> workers jb !! w' = Some s' -> holds s i ver -> holds s' i ver' -> w = w';
  on_nodup : NoDup (map snd ran);
  on_ran : forall z, z ∈ map snd ran <-> exists i : nat, z = Z.of_nat i /\
    ((exists ts, mapTasks (coord jb) !! i = Some ts /\ Status ts = 2) \/ exists w s, workers jb !! w = Some s /\ finished s i);
}.

(** A step that leaves the map tasks alone and gives a worker no map task. *)
Lemma once_worker jb ran w s0 s c : once jb ran -> workers jb !! w = Some s0 -> job_ok mapf reducef input fs n (set_worker (set_coord jb c) w s) ->
  mapTasks c = mapTasks (coord jb) -> (forall i ver, ~ holds s i ver) -> (forall i, ~ finished s0 i) ->
  once (set_worker (set_coord jb c) w s) ran.
Proof.
  intros [Hj Hh Hu Hn Hr] Hw Hok Em Hno Hnf. apply lookup_lt_Some in Hw as Hlt. constructor; auto; simpl; rewrite ?Em.
  - intros w' s' i ver Hw' Hs'. apply list_lookup_insert_Some in Hw' as [(_ & <- & _)|[_ Hw']]; [by destruct (Hno i ver)|by eapply Hh].
  - intros w1 w2 s1 s2 i v1 v2 H1 H2 Hs1 Hs2. apply list_lookup_insert_Some in H1 as [(_ & <- & _)|[_ H1]]; [by destruct (Hno i v1)|].
    apply list_lookup_insert_Some in H2 as [(_ & <- & _)|[_ H2]]; [by destruct (Hno i v2)|by eapply Hu].
  - intros z. rewrite Hr. f_equiv. intros i. f_equiv. f_equiv. split.
    + intros (w' & s' & Hw' & Hs'). exists w', s'. split; [|done]. rewrite list_lookup_insert_ne; [done|]. intros <-. simplify_eq. by destruct (Hnf i).
    + intros (w' & s' & Hw' & Hs'). apply list_lookup_insert_Some in Hw' as [(_ & <- & _)|[_ Hw']]; [|by exists w', s'].
      destruct Hs' as (t & ver & -> & H1 & H2). destruct (Hno i ver). exists t. auto.
Qed.

Lemma not_holds_idle i ver s : s = Asking \/ s = Gone -> ~ holds s i ver.
Proof. intros [->| ->] (t & [?|?] & _); done. Qed.

Lemma not_finished_asking i : ~ finished Asking i.
Proof. by intros (t & ver & ? & _). Qed.

(** The coordinator hands out a task. *)
Lemma once_request jb ran w now c t ver : once jb ran -> workers jb !! w = Some Asking -> RequestTask (coord jb) now = Some (c, (t, ver)) ->
  job_ok mapf reducef input fs n (set_worker (set_coord jb c) w (after_reply t ver)) -> once (set_worker (set_coord jb c) w (after_reply t ver)) ran.
Proof.
  intros Ho Hw Hreq Hok. unfold RequestTask in Hreq. destruct (Z.eqb_spec (phase (coord jb)) 0).
  - destruct (take_idle now (mapTasks (coord jb))) as [[ts t0]|] eqn:Ht.
    + injection Hreq as <- <- <-. destruct (take_idle_Some _ _ _ _ Ht) as (i & Hi & Hst & ->). pose proof Ho as [Hj Hh Hu Hn Hr].
      assert (Id t0 = Z.of_nat i) as Hid by (destruct (jo_coord _ _ _ _ _ _ Hj); apply (proj2 co_maps i t0 Hi)). apply lookup_lt_Some in Hi as Hlen. apply lookup_lt_Some in Hw as Hlw.
      set (tk := MkTask _ _ _ _ _) in *. assert (forall j v, holds (after_reply tk (Version t0)) j v -> j = i /\ v = Version t0) as Hnew.
      { intros j v (t & [[= <- <-]|?] & _ & Hj'); [|done]. simpl in Hj'. split; [lia|done]. }
      assert (forall w' s' v, workers jb !! w' = Some s' -> ~ holds s' i v) as Hold.
      { intros w' s' v Hw' Hs'. destruct (Hh w' s' i v Hw' Hs') as (ts & Hts & H1 & _). simplify_eq. lia. }
      constructor; auto; simpl.
      * intros w' s' j v Hw' Hs'. apply list_lookup_insert_Some in Hw' as [(_ & <- & _)|[_ Hw']].
        -- destruct (Hnew j v Hs') as [-> ->]. exists (start_task t0 now). by rewrite list_lookup_insert_eq.
        -- destruct (Hh w' s' j v Hw' Hs') as (ts & Hts & H1 & H2). exists ts. split; [|done]. rewrite list_lookup_insert_ne; [done|]. intros <-. by eapply Hold.
      * intros w1 w2 s1 s2 j v1 v2 H1 H2 Hs1 Hs2. apply list_lookup_insert_Some in H1 as [(-> & <- & _)|[_ H1]], H2 as [(-> & <- & _)|[_ H2]]; [done|..].
        -- destruct (Hnew j v1 Hs1) as [-> _]. by destruct (Hold w2 s2 v2 H2).
        -- destruct (Hnew j v2 Hs2) as [-> _]. by destruct (Hold w1 s1 v1 H1).
        -- by eapply Hu.
      * intros z. rewrite Hr. f_equiv. intros j. f_equiv. f_equiv; split.
        -- intros (ts & Hts & H2). exists ts. split; [|done]. rewrite list_lookup_insert_ne; [done|]. intros <-. simplify_eq. lia.
        -- intros (ts & Hts & H2). apply list_lookup_insert_Some in Hts as [(_ & <- & _)|[_ Hts]]; [simpl in H2; lia|by exists ts].
        -- intros (w' & s' & Hw' & Hs'). exists w', s'. split; [|done]. rewrite list_lookup_insert_ne; [done|]. intros <-. simplify_eq. by destruct (not_finished_asking j).
        -- intros (w' & s' & Hw' & Hs'). apply list_lookup_insert_Some in Hw' as [(_ & <- & _)|[_ Hw']]; [|by exists w', s'].
           destruct Hs' as (t & ver & ? & _). done.
    + destruct (allDone (mapTasks (coord jb))).
      * destruct (get _ 0) as [t1|]; [|done]. simpl in Hreq. destruct (put _ 0 _) as [rs|]; [|done]. simpl in Hreq. injection Hreq as <- <- <-.
        eapply once_worker; eauto using not_finished_asking. intros i v (tt0 & [[= <- <-]|?] & Hty & _); done.
      * injection Hreq as <- <- <-. eapply once_worker; eauto using not_finished_asking, not_holds_idle.
  - destruct (phase (coord jb) =? 1).
    + destruct (take_idle now (reduceTasks (coord jb))) as [[ts t0]|].
      * injection Hreq as <- <- <-. eapply once_worker; eauto using not_finished_asking. intros i v (tt0 & [[= <- <-]|?] & Hty & _); done.
      * destruct (allDone _); injection Hreq as <- <- <-; eapply once_worker; eauto using not_finished_asking, not_holds_idle.
    + injection Hreq as <- <- <-. eapply once_worker; eauto using not_finished_asking, not_holds_idle.
Qed.

(** A worker runs its task. *)
Lemma once_work jb ran w t ver jb' : once jb ran -> workers jb !! w = Some (Working t ver) -> coord jb' = coord jb ->
  workers jb' = <[w := Finished t ver]> (workers jb) -> job_ok mapf reducef input fs n jb' ->
  once jb' (ran ++ map_run_of jb (WRun w)).
Proof.
  intros [Hj Hh Hu Hn Hr] Hw Ec Ew Hok. apply lookup_lt_Some in Hw as Hlw. simpl. rewrite Hw.
  assert (forall i v, holds (Finished t ver) i v -> holds (Working t ver) i v) as Hsame by (intros i v (t' & [?|[= <- <-]] & H1 & H2); [done|exists t; auto]).
  assert (forall w' s' i v, workers jb' !! w' = Some s' -> holds s' i v -> exists s0, workers jb !! w' = Some s0 /\ holds s0 i v) as Hback.
  { intros w' s' i v Hw' Hs'. rewrite Ew in Hw'. apply list_lookup_insert_Some in Hw' as [(<- & <- & _)|[_ Hw']]; [exists (Working t ver); auto|by exists s']. }
  assert (forall i, Task_Type t = MapTask -> TaskId t = Z.of_nat i -> holds (Working t ver) i ver) as Hown by (intros i H1 H2; exists t; auto).
  assert (forall z, z ∈ map snd (ran ++ (if bool_decide (Task_Type t = MapTask) then [(w, TaskId t)] else [])) <->
    z ∈ map snd ran \/ Task_Type t = MapTask /\ z = TaskId t) as Hin'.
  { intros z. rewrite map_app, elem_of_app. case_bool_decide; simpl; [rewrite list_elem_of_singleton|rewrite elem_of_nil]; naive_solver. }
  constructor; auto; rewrite ?Ec.
  - intros w' s' i v Hw' Hs'. destruct (Hback w' s' i v Hw' Hs') as (s0 & Hw0 & Hs0). by eapply Hh.
  - intros w1 w2 s1 s2 i v1 v2 H1 H2 Hs1 Hs2. destruct (Hback w1 s1 i v1 H1 Hs1) as (s3 & H3 & Hs3), (Hback w2 s2 i v2 H2 Hs2) as (s4 & H4 & Hs4). by eapply Hu.
  - rewrite map_app. case_bool_decide as Hty; simpl; [|by rewrite app_nil_r]. apply NoDup_app. split_and!; [done| |apply NoDup_singleton].
    intros z Hz ->%list_elem_of_singleton. apply Hr in Hz as (i & Hi & [(ts & Hts & H2)|(w' & s' & Hw' & Hs')]).
    + destruct (Hh w _ i ver Hw (Hown i Hty Hi)) as (ts' & Hts' & H1 & _). simplify_eq. lia.
    + destruct Hs' as (t' & v' & -> & Hty' & Hid'). assert (holds (Finished t' v') i v') as Hs2 by (exists t'; auto).
      rewrite (Hu w' w _ _ i v' ver Hw' Hw Hs2 (Hown i Hty Hi)) in Hw'. simplify_eq.
  - intros z. rewrite Hin', Hr. rewrite Ew. split.
    + intros [(i & -> & H)|[Hty ->]].
      * exists i. split; [done|]. destruct H as [H|(w' & s' & Hw' & Hs')]; [by left|right]. exists w', s'. split; [|done].
        rewrite list_lookup_insert_ne; [done|]. intros <-. simplify_eq. by destruct Hs' as (? & ? & ? & _).
      * pose proof (Forall_lookup_1 _ _ _ _ (jo_workers _ _ _ _ _ _ Hj) Hw) as Hheld. simpl in Hheld. destruct Hheld as [i f Hf|i]; [|done].
        exists i. split; [done|]. right. exists w, (Finished (MkTask MapTask (Z.of_nat i) n (len fs) f) ver). rewrite list_lookup_insert_eq by done.
        split; [done|]. by eexists _, _.
    + intros (i & -> & [H|(w' & s' & Hw' & Hs')]); [left; exists i; auto|]. apply list_lookup_insert_Some in Hw' as [(_ & <- & _)|[_ Hw']].
      * destruct Hs' as (t' & v' & [= <- <-] & Hty & Hid). right. auto.
      * left. exists i. split; [done|]. right. by exists w', s'.
Qed.

(** A worker reports: its map task is done. *)
Lemma once_report jb ran w t ver c : once jb ran -> workers jb !! w = Some (Finished t ver) -> ReportDone (coord jb) (Task_Type t) (TaskId t) ver = Some c ->
  job_ok mapf reducef input fs n (set_worker (set_coord jb c) w Asking) -> once (set_worker (set_coord jb c) w Asking) ran.
Proof.
  intros Ho Hw Hrep Hok. pose proof Ho as [Hj Hh Hu Hn Hr]. pose proof (Forall_lookup_1 _ _ _ _ (jo_workers _ _ _ _ _ _ Hj) Hw) as Hheld. simpl in Hheld.
  destruct Hheld as [Hheld _]. unfold ReportDone in Hrep. destruct Hheld as [i f Hf|i].
  2:{ simpl in Hrep. destruct (report_on _ _ _); [|done]. injection Hrep as <-. eapply once_worker; eauto using not_holds_idle. by intros j (? & ? & [= <- <-] & ? & _). }
  simpl in Hrep. assert (holds (Finished (MkTask MapTask (Z.of_nat i) n (len fs) f) ver) i ver) as Hown by (eexists; split; [by right|done]).
  destruct (Hh w _ i ver Hw Hown) as (ts & Hts & H1 & H2). unfold report_on in Hrep. rewrite get_nat, Hts in Hrep. simpl in Hrep. rewrite H1, H2, Z.eqb_refl in Hrep. simpl in Hrep.
  apply lookup_lt_Some in Hts as Hlen. apply lookup_lt_Some in Hw as Hlw. rewrite put_in_range, Nat2Z.id in Hrep by lia. simpl in Hrep. injection Hrep as <-.
  assert (forall w' s' v, w' <> w -> workers jb !! w' = Some s' -> ~ holds s' i v) as Hothers by (intros w' s' v Hne Hw' Hs'; apply Hne; by eapply Hu).
  constructor; auto; simpl.
  - intros w' s' j v Hw' Hs'. apply list_lookup_insert_Some in Hw' as [(_ & <- & _)|[Hne Hw']]; [by destruct (not_holds_idle j v Asking); auto|].
    destruct (Hh w' s' j v Hw' Hs') as (ts' & Hts' & H). exists ts'. split; [|done]. rewrite list_lookup_insert_ne; [done|]. intros <-. by eapply Hothers.
  - intros w1 w2 s1 s2 j v1 v2 Hw1 Hw2 Hs1 Hs2. apply list_lookup_insert_Some in Hw1 as [(_ & <- & _)|[_ Hw1]]; [by destruct (not_holds_idle j v1 Asking); auto|].
    apply list_lookup_insert_Some in Hw2 as [(_ & <- & _)|[_ Hw2]]; [by destruct (not_holds_idle j v2 Asking); auto|by eapply Hu].
  - intros z. rewrite Hr. split.
    + intros (j & -> & H). exists j. split; [done|]. destruct (decide (j = i)) as [->|Hne]; [left; exists (set_status ts 2); by rewrite list_lookup_insert_eq|].
      destruct H as [(ts' & Hts' & H)|(w' & s' & Hw' & Hs')]; [left; exists ts'; by rewrite list_lookup_insert_ne|right]. exists w', s'. split; [|done].
      rewrite list_lookup_insert_ne; [done|]. intros <-. simplify_eq. destruct Hs' as (? & ? & [= <- <-] & _ & Hid). simpl in Hid. lia.
    + intros (j & -> & [(ts' & Hts' & H)|(w' & s' & Hw' & Hs')]); exists j; (split; [done|]).
      * apply list_lookup_insert_Some in Hts' as [(<- & _ & _)|[_ Hts']]; [right; exists w; eexists; split; [done|]; by eexists _, _|left; by exists ts'].
      * right. apply list_lookup_insert_Some in Hw' as [(_ & <- & _)|[_ Hw']]; [by destruct (not_finished_asking j)|by exists w', s'].
Qed.

Lemma once_step jb ran ev : once jb ran -> faultless ev = true -> exists jb', job_step mapf reducef input jb ev = Some jb' /\ once jb' (ran ++ map_run_of jb ev).
Proof.
  intros Ho Hf. pose proof (on_job _ _ Ho) as Hj. destruct (job_step_ok mapf reducef input fs n n_pos Hin jb ev Hj) as (jb' & Hs & Hj'). exists jb'. split; [done|].
  destruct ev as [|w now|w now|w|w j|w lost|w|now]; try done; cbn [job_step map_run_of] in *; rewrite ?app_nil_r.
  - injection Hs as <-. destruct Ho as [_ Hh Hu Hn Hr]. assert (forall w s, (workers jb ++ [Asking]) !! w = Some s -> workers jb !! w = Some s \/ s = Asking) as Hnew.
    { intros w s Hw. apply lookup_app_Some in Hw as [?|[_ Hw]]; [by left|right]. destruct (w - _)%nat; [by injection Hw|done]. }
    constructor; auto; simpl.
    + intros w s i v [Hw| ->]%Hnew Hs; [by eapply Hh|]. by destruct (not_holds_idle i v Asking); auto.
    + intros w1 w2 s1 s2 i v1 v2 H1 H2 Hs1 Hs2. destruct (Hnew _ _ H1) as [H1'| ->]; [|by destruct (not_holds_idle i v1 Asking); auto].
      destruct (Hnew _ _ H2) as [H2'| ->]; [by eapply Hu|by destruct (not_holds_idle i v2 Asking); auto].
    + intros z. rewrite Hr. f_equiv. intros i. f_equiv. f_equiv. split.
      * intros (w & s & Hw & Hs). exists w, s. split; [|done]. by apply lookup_app_l_Some.
      * intros (w & s & [Hw| ->]%Hnew & Hs); [by exists w, s|by destruct (not_finished_asking i)].
  - destruct (workers jb !! w) as [[|t ver|t ver|]|] eqn:Hw; try by simplify_eq. destruct (RequestTask (coord jb) now) as [[c [t ver]]|] eqn:Hreq; [|done].
    simpl in Hs. injection Hs as <-. by eapply once_request.
  - destruct (workers jb !! w) as [[|t ver|t ver|]|] eqn:Hw; try (simplify_eq; by rewrite app_nil_r). injection Hs as <-.
    pose proof (Forall_lookup_1 _ _ _ _ (jo_workers _ _ _ _ _ _ Hj) Hw) as Hheld. simpl in Hheld.
    destruct (run_task_frame mapf reducef input fs n n_pos Hin jb w t ver Hheld) as [E1 E2]. pose proof (once_work jb ran w t ver _ Ho Hw E1 E2 Hj') as H. simpl in H. by rewrite Hw in H.
  - destruct lost; [done|]. destruct (workers jb !! w) as [[|t ver|t ver|]|] eqn:Hw; try by simplify_eq. destruct (ReportDone _ _ _ _) as [c|] eqn:Hrep; [|done].
    simpl in Hs. injection Hs as <-. by eapply once_report.
Qed.

Lemma once_run jb ran evs : once jb ran -> Forall (fun ev => faultless ev = true) evs -> exists jb', job_run mapf reducef input jb evs = Some jb' /\ once jb' (ran ++ map_runs jb evs).
Proof.
  intros Ho Hev. revert jb ran Ho. induction Hev as [|ev evs Hf _ IH]; intros jb ran Ho; cbn [job_run map_runs]; [exists jb; by rewrite app_nil_r|].
  destruct (once_step jb ran ev Ho Hf) as (jb1 & -> & Ho1). obind. rewrite app_assoc. by apply IH.
Qed.

Lemma once_start : once (start_job fs n) [].
Proof.
  constructor; simpl; [apply start_job_ok|done|done|constructor|]. intros z. split; [by intros ?%elem_of_nil|].
  intros (i & -> & [(ts & Hts & H2)|(w & s & Hw & _)]); [|done]. rewrite list_lookup_imap in Hts. destruct (fs !! i); [|done]. simpl in Hts. simplify_eq.
Qed.

(** Once the map phase is over, every map task has run exactly once. *)
Lemma maps_run_once evs jb : Forall (fun ev => faultless ev = true) evs -> job_run mapf reducef input (start_job fs n) evs = Some jb -> 1 <= phase (coord jb) ->
  map snd (map_runs (start_job fs n) evs) ≡ₚ map Z.of_nat (seq 0 (length fs)).
Proof.
  intros Hev Hrun Hp. destruct (once_run _ [] evs once_start Hev) as (jb' & Hrun' & Ho). rewrite Hrun in Hrun'. injection Hrun' as <-. simpl in Ho. destruct Ho as [Hj Hh Hu Hn Hr].
  pose proof (jo_coord _ _ _ _ _ _ Hj) as Hc. pose proof (co_maps_done _ _ _ Hc Hp) as Hall. destruct (co_maps _ _ _ Hc) as [Hlen _].
  apply NoDup_Permutation; [done|apply NoDup_fmap_2; [apply _|apply NoDup_seq]|]. intros z. rewrite Hr, list_elem_of_fmap. f_equiv. intros i. f_equiv. rewrite elem_of_seq. split.
  - intros [(ts & Hts%lookup_lt_Some & _)|(w & s & Hw & t & ver & -> & Hty & Hid)]; [lia|].
    destruct (Hh w _ i ver Hw) as (ts & Hts%lookup_lt_Some & _); [exists t; auto|lia].
  - intros Hi. left. destruct (lookup_lt_is_Some_2 (mapTasks (coord jb)) i) as [ts Hts]; [lia|]. exists ts. eauto.
Qed.

End Once.

(** ** What jobcount.go counts *)

Lemma pretty_N_go_app x s r : pretty_N_go x s +:+ r = pretty_N_go x (s +:+ r).
Proof.
  revert s. induction (N.lt_wf_0 x) as [x _ IH]; intros s. destruct (decide (x = 0%N)) as [->|Hx]; [done|].
  rewrite !(pretty_N_go_step x) by lia. rewrite IH by (apply N.div_lt; lia). done.
Qed.

Lemma jobcount_marker_inj pid count pid' count' : valid_pid pid -> valid_pid pid' ->
  jobcount_marker pid count = jobcount_marker pid' count' -> pid = pid' /\ count = count'.
Proof.
  intros [H1 _] [H1' _] E%(f_equal chars). unfold jobcount_marker in E. rewrite !(chars_app "mr-worker-jobcount-") in E. apply (inj _) in E.
  destruct pid as [|p|p], pid' as [|p'|p']; try lia. change (pretty (Z.pos p)) with (pretty (N.pos p)) in E. change (pretty (Z.pos p')) with (pretty (N.pos p')) in E.
  assert (forall x (c : Z), scan_digits 0 (chars (pretty (N.pos x) +:+ "-" +:+ pretty c)) = Z.pos x) as Hs.
  { intros x c. unfold pretty at 1, pretty_N. rewrite decide_False, pretty_N_go_app, scan_digits_go by done. done. }
  pose proof (Hs p count) as Hp. rewrite E, Hs in Hp. injection Hp as ->. split; [done|].
  rewrite !chars_app in E. apply (inj _) in E. injection E as E%(f_equal of_chars). rewrite !of_chars_chars in E. by apply (inj pretty) in E.
Qed.

(** The calls of Map in the order they happen: worker [w] is the process
    [pid w], with its own counter. *)
Fixpoint jobcount_calls (pid : nat -> Z) (counts : gmap nat Z) (names : gset string) (ran : list (nat * Z)) : gset string :=
  match ran with
  | [] => names
  | (w, _) :: ran =>
      let '(names, count, _) := jobcount_Map (pid w) (default 0 (counts !! w)) names "" "" in
      jobcount_calls pid (<[w := count]> counts) names ran
  end.

Definition is_job (name : string) : bool := String.prefix "mr-worker-jobcount" name.

Lemma jobcount_calls_size pid (ws : list nat) counts (names : gset string) ran : map fst ran ⊆ ws ->
  (forall w, w ∈ ws -> valid_pid (pid w)) -> (forall w w', w ∈ ws -> w' ∈ ws -> pid w = pid w' -> w = w') ->
  (forall w c, w ∈ ws -> default 0 (counts !! w) <= c -> jobcount_marker (pid w) c ∉ names) ->
  length (filter (fun name => is_job name = true) (elements (jobcount_calls pid counts names ran))) =
    (length (filter (fun name => is_job name = true) (elements names)) + length ran)%nat.
Proof.
  intros Hws Hv Hinj. revert counts names. induction ran as [|[w i] ran IH]; intros counts names Hfresh; [simpl; lia|].
  cbn [jobcount_calls jobcount_Map]. set (m := jobcount_marker (pid w) (default 0 (counts !! w))).
  assert (w ∈ ws) as Hw by (apply Hws; left). assert (m ∉ names) as Hm by (apply Hfresh; [done|lia]). rewrite IH.
  - assert (elements ({[m]} ∪ names) ≡ₚ m :: elements names) as -> by (by apply elements_union_singleton). rewrite filter_cons, decide_True by done. simpl. lia.
  - intros x Hx. apply Hws. by right.
  - intros w' c Hw' Hc [E%elem_of_singleton|Hin]%elem_of_union.
    + apply jobcount_marker_inj in E as [E1%Hinj E2]; [|by auto..]. subst w' c. rewrite lookup_insert_eq in Hc. simpl in Hc. lia.
    + apply (Hfresh w' c); [done| |done]. destruct (decide (w = w')) as [<-|Hne]; [rewrite lookup_insert_eq in Hc; simpl in Hc; lia|by rewrite lookup_insert_ne in Hc].
Qed.

Section Jobcount.
Context `{GKV : KeyValueJson} `{KS : KeySort}.

(** Without failures every map task runs exactly once, and a
    reduce task of jobcount.go, which counts the calls of Map that all
    workers together have made, prints the number of input files. *)
Theorem jobcount_counts_files mapf reducef input fs n evs jb pid (dir : gset string) key values :
  0 < n -> Forall (fun f => is_Some (input f)) fs -> Forall (fun ev => faultless ev = true) evs ->
  job_run mapf reducef input (start_job fs n) evs = Some jb -> 1 <= phase (coord jb) ->
  let ran := map_runs mapf reducef input (start_job fs n) evs in
  (forall w, w ∈ map fst ran -> valid_pid (pid w)) -> (forall w w', w ∈ map fst ran -> w' ∈ map fst ran -> pid w = pid w' -> w = w') ->
  (forall name, name ∈ dir -> is_job name = false) ->
  map snd ran ≡ₚ map Z.of_nat (seq 0 (length fs)) /\ jobcount_Reduce (jobcount_calls pid ∅ dir ran) key values = Itoa (length fs).
Proof.
  intros Hn Hin Hev Hrun Hp ran Hv Hinj Hdir. pose proof (maps_run_once mapf reducef input fs n Hn Hin evs jb Hev Hrun Hp) as Honce. split; [done|].
  fold ran in Honce. unfold jobcount_Reduce. f_equal. change (length (filter (fun name => is_job name = true) (elements (jobcount_calls pid ∅ dir ran))) = length fs).
  rewrite (jobcount_calls_size pid (map fst ran)); [|done|done|done|intros w c _ _ Hc%Hdir; done].
  assert (filter (fun name => is_job name = true) (elements dir) = []) as ->.
  { apply elem_of_nil_inv. intros x [Hx Hd%elem_of_elements%Hdir]%list_elem_of_filter. congruence. }
  apply Permutation_length in Honce. rewrite !length_map, length_seq in Honce. done.
Qed.

End Jobcount.

(** ** Witnesses *)

#[local] Existing Instance merge_key_sort.

(** Two workers and three files. *)
Definition count_events : list MrEvent :=
  [WJoin; WJoin; WRequest 0 0; WRequest 1 0; WRun 1; WRun 0; WReport 0 false; WRequest 0 1; WReport 1 false; WRequest 1 1; WRun 0; WReport 0 false; WRequest 1 2].

Definition count_map (f content : string) : list KeyValue := [MkKeyValue "a" "x"].
Definition count_reduce (k : string) (vs : list string) : string := "".

Lemma jobcount_counts_files_witness :
  jobcount_Reduce (jobcount_calls (fun w => Z.of_nat w + 100) ∅ {["mr-0-0"]} (map_runs count_map count_reduce wc_input (start_job ["f0"; "f1"; "f0"] 2) count_events)) "a" [] = "3".
Proof.
  destruct (job_run count_map count_reduce wc_input (start_job ["f0"; "f1"; "f0"] 2) count_events) as [jb|] eqn:Hrun; [|vm_compute in Hrun; discriminate].
  apply (jobcount_counts_files count_map count_reduce wc_input ["f0"; "f1"; "f0"] 2 count_events jb (fun w => Z.of_nat w + 100) {["mr-0-0"]} "a" []).
  - reflexivity.
  - repeat constructor; eexists; reflexivity.
  - repeat constructor.
  - exact Hrun.
  - assert ((fun jb => 1 <=? phase (coord jb)) <$> job_run count_map count_reduce wc_input (start_job ["f0"; "f1"; "f0"] 2) count_events = Some true) as E
      by (vm_compute; reflexivity). rewrite Hrun in E. injection E as E. by apply Z.leb_le.
  - intros w Hw. assert (w ∈ [1%nat; 0%nat; 0%nat]) as Hw' by (vm_compute in Hw; exact Hw). rewrite !elem_of_cons, elem_of_nil in Hw'. unfold valid_pid. lia.
  - intros w w' _ _ E. lia.
  - intros name ->%elem_of_singleton. reflexivity.
Defined.

(** Two workers overlap; a third has died and left its marker. *)
Definition np_events : list NpEvent := [EvWrite 7; EvDie 7; EvWrite 8; EvWrite 9; EvScan 8].

Lemma nparallel_counts_live_witness : exists s s', np_run "map" (MkNpState {["mr-0-0"]} ∅ ∅ []) np_events = Some s /\
  np_step "map" s (EvScan 9) = Some s' /\ np_pc s' !! 9 = Some (NpScanned 2).
Proof.
  destruct (nparallel_counts_live "map" {["mr-0-0"]}) with (es := np_events) as (s & Hs & Hall).
  - intros name ->%elem_of_singleton. reflexivity.
  - repeat constructor.
  - assert ((fun s => np_pc s !! 9) <$> np_run "map" (MkNpState {["mr-0-0"]} ∅ ∅ []) np_events = Some (Some NpWritten)) as E1 by (vm_compute; reflexivity).
    assert ((fun s => size (np_pc s)) <$> np_run "map" (MkNpState {["mr-0-0"]} ∅ ∅ []) np_events = Some 2%nat) as E2 by (vm_compute; reflexivity).
    rewrite Hs in E1, E2. injection E1 as E1. injection E2 as E2. exists s. destruct (Hall 9 E1) as (s' & Hs' & Hp & _).
    exists s'. split; [exact Hs|]. split; [exact Hs'|]. rewrite Hp, E2. reflexivity.
Defined.

(** Two reduce tasks that overlap both print 2. *)
Example rtiming_overlap :
  (map (fun '(_, n) => rtiming_Reduce n "a" ["1"]) ∘ np_rets) <$> rtiming_nparallel (MkNpState ∅ ∅ ∅ []) [EvWrite 7; EvWrite 8; EvScan 8; EvScan 7; EvRemove 7; EvRemove 8]
    = Some ["2"; "2"].
Proof. vm_compute. reflexivity. Qed.
